(* ===== verification/_CoqProject ===== *)
-Q . S2P
Prelude.v
Errors.v
Qid.v
Stat.v
StatProps.v
Utf8.v
Referral.v
Message.v
Codec.v
CodecProps.v
FrameIO.v
RequestTable.v
Session.v
Server.v
Reservations.v
ServerInv.v
ServerProps.v
Client.v
ClientProps.v
EndToEnd.v
ClientSupport.v
Backend.v
Connection.v
ConnectionProps.v
Blocking.v
Loopback.v
Multiplex.v
MultiplexInv.v
MultiplexProps.v
MultiplexClient.v
MultiplexReads.v
NamespaceCache.v
NamespaceCacheProps.v
Text.v
SessionErrors.v
Feed.v
FeedWorker.v
FeedProps.v
FeedCursor.v
Endpoint.v
ExportDescriptor.v
ExportDescriptorProps.v
SessionConfig.v
NamespaceRouting.v
NamespaceRoutingProps.v
NamespaceClient.v
NamespaceOps.v
NamespaceInv.v
NamespaceProps.v
ClientSession.v
ClientSessionProps.v
SessionFids.v
SessionFidsProps.v
SessionProcess.v
FrontModel.v
FrontInv.v
FrontRetain.v
FrontState.v
FrontTree.v
FrontOps.v
FrontSys.v
FrontProps.v
FrontPaths.v
FrontConfine.v
FuseNodes.v
FuseWire.v
ReadCache.v
ReadCacheProps.v
FuseConfig.v
FuseState.v
FuseOps.v
FuseReplies.v
FuseInv.v
FuseProps.v
FuseRuns.v
AuthCert.v
AuthStream.v
AuthProps.v
Reverse.v
ReverseProps.v
