(* ===== verification/Prelude.v ===== *)
(** * r9p: a verification of the 9P protocol core

    r9p is a library for the 9P2000 file protocol and its dialect 9P2000.R.
    This development models the protocol core of the crate [crates/core], which
    is transport-free: bytes come in, messages are decoded, a session decides
    what may run, an application answers, and replies go out; of the crate
    [crates/session], the namespace cache, the change feed that keeps it current,
    the client of a namespace composed of several servers and the session that
    renews its attachment when it is lost; the crate [crates/front], a tree of
    published files that an owner process serves to sessions, with requests
    relayed to the owner; and of the crate [crates/fuse] the bridge that answers
    the requests of the kernel from such a session, with its persistent read
    cache; and the crate [crates/auth]: certificates, the handshake that
    authenticates both ends of a connection, and the encrypted stream it leaves.
    The reverse crate lets a host that can only connect outwards serve: its export
    keeps streams open to a broker, which bridges its clients to them.
    The development follows the code function by function; every definition that stands for code carries the
    name the code gives it (with the type's name as a prefix where two methods
    share a name).

    ** The parts, and the files that model them

    - [Prelude] (this file): bytes, machine integers as [Z] in range, checked
      and saturating arithmetic, list lemmas, the [r9p] hint database.
    - [Errors]: [error.rs].  [Result] and the monad [M S A] for [&mut self]
      methods that may fail; an error keeps the state reached so far.
    - [Qid], [Stat], [Message], [Referral], [Codec]: [qid.rs], [mode.rs],
      [fid.rs], [stat.rs], [message.rs], [referral.rs], [codec.rs].  The wire.
      [StatProps] has the composition laws of the cursor parsers; it and
      [CodecProps] have the theorems, [Utf8] the display form of an error.
    - [FrameIO]: the frame reader and writer of [codec.rs] over any [Read] and
      [Write].
    - [RequestTable]: [flush.rs], the table of live requests.
    - [Session]: [server/config.rs] and [server/session.rs], the fid table and
      the reservations that requests in flight hold.
    - [Server]: [server/types.rs], [server/validation.rs], the [FileTree] trait
      of [server/mod.rs] (a type class, so that the theorems hold for every
      tree), and [server/handlers.rs]: [admit] (here [admit_message]) checks a message and reserves its
      fids, [complete] turns the application's answer into a reply, [handle]
      does both in one go.  [Reservations] is the algebra of reservations,
      [ServerInv] the transition system of a server with requests in flight and
      its invariant, [ServerProps] the theorems.
    - [Connection]: [server/connection.rs], the reader thread, the worker
      threads and the shared writer as a step relation; [ConnectionProps].
    - [Client]: [client.rs]; [ClientProps].  [EndToEnd] runs the client against
      the server.
    - [ClientSupport]: the loops of [client_support.rs] that both client
      front ends share.
    - [Blocking]: [blocking.rs], the client that waits for each response, over
      any stream (the class [Transport]).
      [Loopback] says what one request does to the server's fid table and runs the
      blocking client against the server, through a small program logic for the
      calls on fids.
    - [Multiplex]: [multiplex/reader.rs], [multiplex/util.rs] and the part of
      [multiplex/client.rs] and [multiplex/client/calls.rs] that submits, waits,
      flushes and cancels: calling threads, the reader thread and any server as
      one step relation.  [MultiplexInv] has its invariants, [MultiplexProps] the
      theorems and concrete runs.  [MultiplexClient] has the client's operations,
      written against the class [Caller], and [MultiplexReads] the theorem about
      pipelined reads.
    - [Backend]: [server/read_snapshot.rs], [server/stream.rs] and [rpc.rs],
      helpers for applications, one module each.
    - [Endpoint]: [endpoint.rs], with the parser of socket addresses of the
      standard library; [ExportDescriptor]: [export_descriptor.rs], the text file
      that describes an exported tree; [ExportDescriptorProps].
    - [NamespaceCache]: [cache.rs] of the session crate; [NamespaceCacheProps]
      puts it beside a changing namespace.
    - [Text]: text functions of the standard library.  [Feed]: [feed/record.rs],
      [feed/state.rs] and [feed/event.rs] of the session crate, the subscribers
      in a shared store.  [FeedWorker]: [feed/worker.rs], the loop that connects,
      catches up and streams, a function of the client's answers.  [FeedProps]
      has the theorems on one read of the feed, [FeedCursor] those on the loop.
    - [SessionErrors]: [error.rs] of the session crate, the errno of an error and
      the classes of failures.  [SessionConfig]:
      [connection_config.rs] and [authority.rs].
    - [NamespaceRouting]: [client/namespace/routing.rs] and
      [referral_directory.rs]; [NamespaceRoutingProps].  [NamespaceClient] and
      [NamespaceOps]: [client/direct.rs], [client/namespace.rs],
      [client/namespace/operations.rs] and [client/paths.rs], over the class
      [Connections] of what can be dialled.  [NamespaceInv] has the invariant and a
      program logic for the calls, [NamespaceProps] the theorems and a concrete
      network.
    - [ClientSession]: [client_session.rs] and [epoch.rs], the threads of a renewable
      session as a step relation; [ClientSessionProps].  [SessionFids]:
      [opened_fid.rs] and [resumable_fid.rs]; [SessionFidsProps].  [SessionProcess]
      puts a session over namespace clients.
    - [FrontModel]: the tree of [model.rs] of the front crate: the node table, its
      qid index, the reference counts of fids, subtrees that are detached but
      still referred to, publication, removal, retention, logs.  [FrontInv]
      and [FrontRetain] have its invariant and what each operation
      does to it.  [FrontState]: the request queues of [model.rs] and [front.rs]
      with [front/]: every call of the owner, and each wait as a turn of its loop.
      [FrontTree]: [tree.rs] and [tree/], the sections a session runs under the
      lock; [FrontOps] composes them to the operations of the [FileTree] class,
      with a script of what the others do whenever the lock is free.  [FrontSys]
      is the front with all its sessions as a transition system, and its
      invariant, and a concrete one.  [FrontProps],
      [FrontPaths] and [FrontConfine] have the theorems.
    - [FuseNodes]: [node.rs] and [node/handles.rs] of the FUSE crate, the tables of
      what the kernel holds.  [FuseWire]: [fuse/wire.rs] and [fuse/util.rs].
      [ReadCache]: [fuse/read_cache.rs], over a disk whose calls may fail;
      [ReadCacheProps].  [FuseConfig]: [fuse/config.rs].  [FuseState]:
      [fuse/mount_state.rs], [fuse/recovery.rs], [fuse/invalidation.rs] and
      [fuse/reply.rs], over the class [MountSession] of what the bridge needs of
      its session.  [FuseOps]: the handlers of [fuse/ops/], [fuse/dispatch.rs] and
      the events of [fuse/change_feed.rs].  [FuseReplies], [FuseInv] and [FuseProps]
      have the theorems; [FuseRuns] has a concrete server behind the
      bridge, and discharges [MountSession] with [SessionProcess].
    - [AuthCert]: [key.rs], [cert.rs] and [config.rs] of the auth crate, over the
      classes [Ed25519] and [Noise] of the cryptographic libraries and a disk whose
      calls may fail.  [AuthStream]: [p9any.rs], [handshake.rs], [peercred.rs] and
      [stream.rs].  [AuthProps] has the theorems and a concrete session.
    - [Reverse]: [broker.rs], [claim.rs], [session_proxy.rs] and [export.rs] of the
      reverse crate, the threads of each as a transition system whose steps may come
      in any order.  [ReverseProps] has the invariants, the theorems and runs.

    ** What the theorems show

    - Wire: decoding accepts a frame exactly when it is the encoding of the
      message returned, for stats, directory streams, T- and R-messages; frames
      survive any segmentation of the stream and are bounded; a directory read
      returns whole entries only.
    - Server: over every reachable state, reservations belong to live requests,
      the fid limit holds, requests that change a fid exclude each other, and an
      answer takes effect exactly as a reservation-free specification says
      (a functional refinement).  Messages refused with an Rerror leave no trace; Tflush and
      Tversion silence what they cancel; replies respect size and dialect.
    - Connection: for every interleaving, nothing is written for a flushed tag
      after its Rflush, and the worker pool stays within its bound.
    - Client: tag and fid allocation, flush, and the agreement of the two ends
      on size, dialect and the matching of calls and responses.
    - Blocking client: path operations leave the server's fid table as it was,
      failures included (except [rpc_path], which leaks a fid), and a directory
      listing returns the entries of the directory.
    - Multiplexed client: in every interleaving a response reaches the call it
      answers as long as no tag is taken while something still refers to it, and
      no call hangs on a connection that failed; a run shows that the proviso is
      needed, because the reader frees a tag before it looks for its waiter.
      Pipelined reads return what a sequential read would.
    - Export descriptors: text and descriptor determine each other, and an
      unauthenticated endpoint at a numeric address is a loopback one; a host name
      that starts with [127.] passes the check as well.
    - Session: what the namespace cache serves as fresh is current up to the
      changes not yet announced; a read of the feed hides from the cache all it
      reports and reaches every subscriber; the feed's cursor never passes a
      change that was not applied, if every catch-up file fits in one read.  Concrete
      runs show where the provisos fail: a value entered after its change was
      announced, an outage before the first event, a catch-up that times out, a
      catch-up file that is read in part.
    - Front: over every interleaving of owner and sessions the tree is well-formed,
      the node of a bound fid stays, counts are exact and nothing is kept without
      a fid; removing and retaining subtrees do exactly what they say; logs serve
      the bytes appended to them within their bound; paths lead back to their
      nodes; walks stay under the root of their attachment while nothing is moved,
      and a run shows how publishing a removed file again leads out of it.
    - Composed namespace: after any program of calls the client's tables are well
      formed and a fid below a mount is served by a connection dialled for a valid
      referral of it, with authentication that expects the responder it names unless
      its boundary is a contained one; routing takes the longest mount; operations on
      paths, [reconcile_file_at] apart, give back their fids; connecting ends.
    - Renewable sessions: reconnections are shared by the threads that need them;
      a resumed write, sent in parts and repeated after a lost connection, leaves what
      one write leaves if the server takes no byte twice at its offset; candidates are
      tried in order; concrete runs
      show a shutdown that misses a replacement and a read that is repeated for ever.
    - FUSE bridge: every request the kernel waits for is answered exactly once and
      in order, no identifier is given out twice, the pages of a directory, read as
      they are needed, make up the directory if every entry fits in a page, a read
      through the persistent cache returns the file whatever the local disk fails to
      do, if nobody has put other bytes in the place of a chunk, a cache is not shared
      between volumes, and forced reconnections are rare.  Concrete runs show a rename that leaves a node with a
      dead fid, a change of the root that is not seen, a listing that cannot be
      continued after a reconnection and a cache that refuses to start again.
    - Authentication: if signatures cannot be forged, a server that accepts a client
      has its name and groups from a certificate a trusted root issued for the key
      the other end has proved to hold, and a client that is connected has reached
      the name it asked for; what is signed determines the certificate and its text
      is read back; if records cannot be forged, what is read from an encrypted
      stream is a prefix of what was written to it, and all of it if the network
      brings it; provisioning keys replaces no file and is repeatable.
    - Reverse transport: in every interleaving a broker connects clients only to a
      peer certified for the principal it serves, and each reverse connection to one
      client; its limits hold and its counts are those of its threads; a bridge
      carries the claim and then the bytes of its client, in order and once, all of
      them if the direction to the client has not ended before; an export serves only
      a certified broker that has sent the claim, and its drop reaches every stream
      and ends every worker; delays between attempts are bounded and grow; a session
      proxy bridges to the server it was told.  Runs
      show a broker that says it is ready after its proxy thread has ended, a wait
      that ends that thread, and threads that go on after a failed start.
    - Helpers: delimited reads, chunked writes, snapshots, broadcast, RPC chunks.

    ** Bounds and fuel

    [usize] is 64 bits wide.  Integers are [Z]; fields of messages are in range
    by the [_wf] predicates, which decoding establishes, and arithmetic that the
    code checks or saturates is written out.  Loops that are not structural take
    fuel: [Stat.dir_entries_loop] and the loops of [FrameIO] get the length of
    their input, which every turn shortens; the loops of [ClientSupport] and of
    [Blocking] get a bound computed from their arguments, and their theorems say
    that the loop ends with a result.  Walks along the tree of a front get one
    more than the number of its nodes, which the invariant makes enough: no
    theorem of [FrontModel]'s operations has a premise on fuel.  Ids of nodes,
    log offsets and the session counter of a front do not wrap.  Loops that a server
    can keep going for ever ([read_all], the directory reader of the FUSE bridge, the
    read cache) are [loop 64], up to 2^64 turns, more than offsets allow when every
    turn advances; those of resumable files, of connecting and of binding the source
    of a mount take fuel as an argument or from their timeouts.  Request generations saturate at 2^64-1 in
    the code; theorems about late completions assume that fewer were issued.

    ** Not modelled

    Sockets, threads as the operating system runs them, lock poisoning,
    diagnostics, and the [RequestControl] condition variable of the connection
    driver; the serving loops and the C interface of the front crate, which wrap
    sockets, threads and pointers around the parts modelled here; the worker pool
    of the FUSE bridge (requests are handled one after the other), its mount system
    calls, process generations and status file.  Of the session crate the control
    socket, materialization and projection, and the other crates (command line,
    local filesystem, bindings) are not part of this development.  Of the
    reverse crate the starts of an export that authenticate the client of a bridged
    session a second time, over the encrypted stream, are left out, because
    [AuthStream] has the handshake over TCP streams only. *)
From Stdlib Require Export ZArith Lia List.
From Stdlib Require Export Init.Byte.
From Stdlib Require Import Strings.Byte Strings.String.
From stdpp Require Export base tactics list gmap strings.

#[global] Open Scope Z_scope.

(** ** Bytes

    A Rust [u8] that lives in a buffer is a [byte]; a [u8] that is a field of a
    message (an open mode, a qid type) is a [Z] in range, because the code
    computes with its bits. *)

#[export] Instance byte_eq_dec : EqDecision byte := Byte.byte_eq_dec.

Definition byte_to_Z (b : byte) : Z := Z.of_N (Byte.to_N b).

Definition byte_of_Z (z : Z) : byte :=
  match Byte.of_N (Z.to_N (z `mod` 256)) with
  | Some b => b
  | None => x00
  end.

Abbreviation bytes := (list byte).

(** A byte-string literal [b"..."]. *)
Definition bstr (s : string) : bytes := String.list_byte_of_string s.

(** [len()] of a vector or a slice, as the [usize] the code computes with. *)
Definition vlen {A} (l : list A) : Z := Z.of_nat (length l).

Fixpoint le_bytes (n : nat) (z : Z) : bytes :=
  match n with
  | O => []
  | S n => byte_of_Z z :: le_bytes n (z `div` 256)
  end.

Fixpoint le_val (bs : bytes) : Z :=
  match bs with
  | [] => 0
  | b :: bs => byte_to_Z b + 256 * le_val bs
  end.

(** ** Machine integers *)

Definition u8_max : Z := 255.
Definition u16_max : Z := 65535.
Definition u32_max : Z := 4294967295.
Definition u64_max : Z := 18446744073709551615.

(** [usize] is 64 bits wide: the development models the 64-bit targets. *)
Definition usize_max : Z := u64_max.

Definition in_range (max z : Z) : Prop := 0 ≤ z ≤ max.
Abbreviation is_u8 := (in_range u8_max).
Abbreviation is_u16 := (in_range u16_max).
Abbreviation is_u32 := (in_range u32_max).
Abbreviation is_u64 := (in_range u64_max).

(** [uN::try_from]: [None] when the value does not fit. *)
Definition try_from (max z : Z) : option Z :=
  if (0 <=? z) && (z <=? max) then Some z else None.

Definition checked_add (max a b : Z) : option Z :=
  if a + b <=? max then Some (a + b) else None.

Definition saturating_add (max a b : Z) : Z := Z.min max (a + b).

Definition saturating_sub (a b : Z) : Z := Z.max 0 (a - b).

Definition wrapping_add (max a b : Z) : Z := (a + b) `mod` (max + 1).

(** Bitwise tests the code writes as [x & mask != 0]. *)
Definition has_bits (x mask : Z) : bool := negb (Z.land x mask =? 0).

(** Decimal rendering of a non-negative integer, as [format!] prints it.  Twenty
    digits are enough for any [u64]. *)
Definition digit (z : Z) : byte := byte_of_Z (48 + z).

Fixpoint dec_digits (fuel : nat) (z : Z) (acc : bytes) : bytes :=
  match fuel with
  | O => acc
  | S fuel =>
      let acc := digit (z `mod` 10) :: acc in
      if z <? 10 then acc else dec_digits fuel (z `div` 10) acc
  end.

Definition dec (z : Z) : bytes := dec_digits 20 z [].

(** ** Unbounded loops

    [loop k step a] runs up to [2 ^ k] turns of a [loop { .. }]: a turn goes on
    with [inl] or leaves with [inr]. *)
Fixpoint loop {A B} (k : nat) (step : A → A + B) (a : A) : A + B :=
  match k with
  | O => step a
  | S k => match loop k step a with inl a' => loop k step a' | inr b => inr b end
  end.

(** ** Slices: [&l[a..b]], [l.truncate(n)] with [usize] indices *)

Definition ztake {A} (n : Z) (l : list A) : list A := take (Z.to_nat n) l.
Definition zdrop {A} (n : Z) (l : list A) : list A := drop (Z.to_nat n) l.

(** [starts_with], [strip_prefix] on byte slices. *)
Fixpoint strip_prefix (p l : bytes) : option bytes :=
  match p, l with
  | [], _ => Some l
  | _ :: _, [] => None
  | x :: p, y :: l => if decide (x = y) then strip_prefix p l else None
  end.

Definition starts_with (p l : bytes) : bool :=
  match strip_prefix p l with Some _ => true | None => false end.

(** ** Lemmas *)

Create HintDb r9p.
Create Rewrite HintDb vlen.

Lemma byte_to_Z_range b : 0 ≤ byte_to_Z b ≤ 255.
Proof.
  unfold byte_to_Z. pose proof (Byte.to_N_bounded b). lia.
Qed.

Lemma byte_to_of_Z z : byte_to_Z (byte_of_Z z) = z `mod` 256.
Proof.
  unfold byte_to_Z, byte_of_Z.
  pose proof (Z.mod_pos_bound z 256 ltac:(lia)) as Hb.
  destruct (Byte.of_N (Z.to_N (z `mod` 256))) as [b|] eqn:E.
  - apply Byte.to_of_N in E. rewrite E. lia.
  - apply Byte.of_N_None_iff in E. lia.
Qed.

Lemma byte_of_to_Z b : byte_of_Z (byte_to_Z b) = b.
Proof.
  unfold byte_of_Z. rewrite Z.mod_small by (pose proof (byte_to_Z_range b); lia).
  unfold byte_to_Z. by rewrite N2Z.id, Byte.of_to_N.
Qed.

Lemma byte_to_Z_inj a b : byte_to_Z a = byte_to_Z b → a = b.
Proof. intros H. rewrite <- (byte_of_to_Z a), H. apply byte_of_to_Z. Qed.

Lemma length_le_bytes n z : length (le_bytes n z) = n.
Proof. revert z; induction n as [|n IH]; intros z; simpl; [done|by rewrite IH]. Qed.

Lemma le_val_le_bytes n z : 0 ≤ z < 256 ^ Z.of_nat n → le_val (le_bytes n z) = z.
Proof.
  revert z; induction n as [|n IH]; intros z Hz; simpl.
  - change (256 ^ Z.of_nat 0) with 1 in Hz. lia.
  - rewrite Nat2Z.inj_succ, Z.pow_succ_r in Hz by lia.
    rewrite byte_to_of_Z, IH.
    + pose proof (Z.div_mod z 256 ltac:(lia)). lia.
    + split; [apply Z.div_pos; lia|apply Z.div_lt_upper_bound; lia].
Qed.

Lemma le_val_bound bs : 0 ≤ le_val bs < 256 ^ vlen bs.
Proof.
  unfold vlen. induction bs as [|b bs IH]; simpl length; simpl le_val.
  - simpl; lia.
  - rewrite Nat2Z.inj_succ, Z.pow_succ_r by lia.
    pose proof (byte_to_Z_range b). lia.
Qed.

Lemma le_bytes_le_val bs : le_bytes (length bs) (le_val bs) = bs.
Proof.
  induction bs as [|b bs IH]; simpl; [done|].
  pose proof (byte_to_Z_range b).
  replace ((byte_to_Z b + 256 * le_val bs) `div` 256) with (le_val bs).
  2:{ rewrite Z.mul_comm, Z.div_add, Z.div_small by lia. lia. }
  rewrite IH. f_equal. apply byte_to_Z_inj. rewrite byte_to_of_Z.
  rewrite Z.mul_comm, Z.mod_add, Z.mod_small by lia. done.
Qed.

Lemma vlen_nonneg {A} (l : list A) : 0 ≤ vlen l.
Proof. unfold vlen; lia. Qed.

Lemma vlen_app {A} (l k : list A) : vlen (l ++ k) = vlen l + vlen k.
Proof. unfold vlen. rewrite length_app. lia. Qed.

Lemma vlen_cons {A} (x : A) l : vlen (x :: l) = 1 + vlen l.
Proof. unfold vlen. simpl. lia. Qed.

Lemma vlen_nil {A} : vlen (@nil A) = 0.
Proof. done. Qed.

Lemma vlen_le_bytes n z : vlen (le_bytes n z) = Z.of_nat n.
Proof. unfold vlen. by rewrite length_le_bytes. Qed.

Lemma vlen_ztake {A} n (l : list A) : 0 ≤ n ≤ vlen l → vlen (ztake n l) = n.
Proof. unfold vlen, ztake. intros. rewrite length_take. lia. Qed.

Lemma vlen_zdrop {A} n (l : list A) : 0 ≤ n ≤ vlen l → vlen (zdrop n l) = vlen l - n.
Proof. unfold vlen, zdrop. intros. rewrite length_drop. lia. Qed.

Lemma ztake_zdrop {A} n (l : list A) : ztake n l ++ zdrop n l = l.
Proof. apply take_drop. Qed.

Lemma ztake_app_vlen {A} (l k : list A) : ztake (vlen l) (l ++ k) = l.
Proof. unfold ztake, vlen. rewrite Nat2Z.id. apply take_app_length. Qed.

Lemma zdrop_app_vlen {A} (l k : list A) : zdrop (vlen l) (l ++ k) = k.
Proof. unfold zdrop, vlen. rewrite Nat2Z.id. apply drop_app_length. Qed.

Lemma zdrop_zdrop {A} a b (l : list A) :
  0 ≤ a → 0 ≤ b → zdrop b (zdrop a l) = zdrop (a + b) l.
Proof. intros. unfold zdrop. rewrite drop_drop. f_equal. lia. Qed.

Lemma zdrop_0 {A} (l : list A) : zdrop 0 l = l.
Proof. done. Qed.

Lemma try_from_Some max z n : try_from max z = Some n ↔ n = z ∧ 0 ≤ z ≤ max.
Proof. unfold try_from. destruct (_ && _) eqn:E; naive_solver lia. Qed.

Lemma try_from_None max z : try_from max z = None ↔ ¬ (0 ≤ z ≤ max).
Proof. unfold try_from. destruct (_ && _) eqn:E; naive_solver lia. Qed.

Lemma try_from_in max z : 0 ≤ z ≤ max → try_from max z = Some z.
Proof. intros. by apply try_from_Some. Qed.

Lemma checked_add_Some max a b c : checked_add max a b = Some c ↔ c = a + b ∧ a + b ≤ max.
Proof. unfold checked_add. destruct (Z.leb_spec (a + b) max); naive_solver lia. Qed.

Lemma strip_prefix_Some p l s : strip_prefix p l = Some s ↔ l = p ++ s.
Proof.
  revert l; induction p as [|x p IH]; intros [|y l]; simpl; try naive_solver.
  case_decide as E; [subst; rewrite IH|]; naive_solver.
Qed.

Lemma starts_with_spec p l : starts_with p l = true ↔ ∃ s, l = p ++ s.
Proof.
  unfold starts_with. destruct (strip_prefix p l) eqn:E.
  - apply strip_prefix_Some in E. naive_solver.
  - split; [done|]. intros [s ->]. exfalso.
    assert (strip_prefix p (p ++ s) = Some s) by by apply strip_prefix_Some.
    congruence.
Qed.

Lemma le_bytes_1 z : le_bytes 1 z = [byte_of_Z z].
Proof. done. Qed.

Lemma le_val_nil : le_val [] = 0.
Proof. done. Qed.

#[global] Opaque le_bytes le_val.
#[global] Opaque bstr.
#[global] Arguments ztake : simpl never.
#[global] Arguments zdrop : simpl never.
#[global] Arguments byte_of_Z : simpl never.

#[export] Hint Rewrite @vlen_app @vlen_cons @vlen_nil vlen_le_bytes : vlen.
#[export] Hint Resolve vlen_nonneg byte_to_Z_range le_val_bound : r9p.

(** Normalises vector lengths and leaves the arithmetic to [lia]. *)
Ltac vlia := autorewrite with vlen in *; unfold in_range, u8_max, u16_max, u32_max, u64_max in *; lia.

(** ** Facts about [loop] *)

Section loop_facts.
Context {A B : Type} (step : A → A + B) (I : A → Prop) (Q : B → Prop).
Hypothesis keeps : ∀ a a', I a → step a = inl a' → I a'.

Lemma loop_keeps k a a' : I a → loop k step a = inl a' → I a'.
Proof using keeps.
  revert a a'. induction k as [|k IH]; intros a a' Ha E; cbn [loop] in E; [eauto|].
  destruct (loop k step a) as [a1|b] eqn:E1; [|done]. eauto.
Qed.

Lemma loop_exit k a b :
  (∀ a b, I a → step a = inr b → Q b) → I a → loop k step a = inr b → Q b.
Proof using keeps.
  intros Hq. revert a b. induction k as [|k IH]; intros a b Ha E; cbn [loop] in E; [eauto|].
  destruct (loop k step a) as [a1|b1] eqn:E1; [|simplify_eq; eauto].
  eapply IH; [|done]. by eapply loop_keeps.
Qed.

Lemma loop_progress (μ : A → Z) k a a' :
  (∀ a a', I a → step a = inl a' → μ a + 1 ≤ μ a') →
  I a → loop k step a = inl a' → μ a + 2 ^ Z.of_nat k ≤ μ a'.
Proof using keeps.
  intros Hp. revert a a'. induction k as [|k IH]; intros a a' Ha E; cbn [loop] in E.
  - by apply Hp.
  - destruct (loop k step a) as [a1|b1] eqn:E1; [|done].
    pose proof (IH _ _ Ha E1). pose proof (IH _ _ (loop_keeps _ _ _ Ha E1) E).
    rewrite Nat2Z.inj_succ, Z.pow_succ_r by lia. lia.
Qed.

End loop_facts.

#[global] Arguments loop : simpl never.
