(* ===== verification/Errors.v ===== *)
(** Errors and results: [crates/core/src/error.rs], the [Result] monad the
    code writes with [?], and the state-and-error monad of its [&mut self]
    methods, in which an error keeps the state reached so far. *)
From S2P Require Import Prelude.

Record Error := Error_new { message : bytes }.

#[export] Instance Error_eq_dec : EqDecision Error.
Proof. solve_decision. Defined.

Inductive Result (A : Type) : Type :=
| Ok (a : A)
| Err (e : Error).
Arguments Ok {A} a.
Arguments Err {A} e.

#[export] Instance Result_eq_dec {A} `{EqDecision A} : EqDecision (Result A).
Proof. solve_decision. Defined.

(** [Error::from_static], and [Error::from] on a [&'static str]. *)
Definition from_static (s : string) : Error := Error_new (bstr s).

#[global] Arguments from_static : simpl never.

#[export] Instance Result_ret : MRet Result := λ A a, Ok a.
#[export] Instance Result_bind : MBind Result := λ A B k r,
  match r with Ok a => k a | Err e => Err e end.
#[export] Instance Result_fmap : FMap Result := λ A B f r,
  match r with Ok a => Ok (f a) | Err e => Err e end.

Definition ok_or {A} (o : option A) (e : Error) : Result A :=
  match o with Some a => Ok a | None => Err e end.

Definition is_ok {A} (r : Result A) : bool :=
  match r with Ok _ => true | Err _ => false end.

(** [guard_or b e]: the shape [if !b { return Err(e) }]. *)
Definition guard_or (b : bool) (e : Error) : Result unit :=
  if b then Ok () else Err e.

(** ** State and errors *)

Definition M (S A : Type) : Type := S → Result A * S.

#[export] Instance M_ret {S} : MRet (M S) := λ A a s, (Ok a, s).
#[export] Instance M_bind {S} : MBind (M S) := λ A B k m s,
  match m s with
  | (Ok a, s') => k a s'
  | (Err e, s') => (Err e, s')
  end.

Definition get {S} : M S S := λ s, (Ok s, s).
Definition gets {S A} (f : S → A) : M S A := λ s, (Ok (f s), s).
Definition modify {S} (f : S → S) : M S unit := λ s, (Ok (), f s).
Definition lift {S A} (r : Result A) : M S A := λ s, (r, s).
Definition throw {S A} (e : Error) : M S A := λ s, (Err e, s).

(** ** The error strings of the protocol *)

Definition EPERM := "permission denied".
Definition ENOENT := "file does not exist".
Definition EEXIST := "file exists".
Definition ENOTDIR := "not a directory".
Definition EDEL := "deleted window".
Definition EBADCTL := "ill-formed control message".
Definition EINUSE := "already in use".
Definition EBADTAG := "invalid tag".
Definition EDUPTAG := "duplicate tag".
Definition EBADFID := "unknown fid".
Definition EFIDINUSE := "fid already in use".
Definition EFIDLIMIT := "fid limit exceeded".
Definition EFIDBUSY := "fid busy".
Definition EFIDOPEN := "fid already open".
Definition EFIDNOTOPEN := "fid not open for requested operation".
Definition EBADWNAME := "bad walk name".
Definition EBADMODE := "invalid open mode".
Definition EBADDIROFFSET := "invalid directory offset".
Definition EBADMSIZE := "version: message size too small".
Definition ENOAUTH := "authentication not required".
Definition EWSTATTYPE := "wstat -- attempt to change type".
Definition EWSTATDEV := "wstat -- attempt to change dev".
Definition EWSTATQID := "wstat -- attempt to change qid".
Definition EWSTATATIME := "wstat -- attempt to change atime".
Definition EWSTATUID := "wstat -- attempt to change uid".
Definition EWSTATMUID := "wstat -- attempt to change muid".
Definition EWSTATDMDIR := "wstat -- attempt to change DMDIR bit".
Definition EWSTATDMSYMLINK := "wstat -- attempt to change DMSYMLINK bit".
Definition EWSTATDIRLENGTH := "wstat -- attempt to set non-zero directory length".
Definition ESYMLINKDIALECT := "symlink metadata requires negotiated 9P2000.R".

(** ** Inversion of the two monads *)

Lemma Result_bind_Ok {A B} (r : Result A) (k : A → Result B) b :
  (a ← r; k a) = Ok b ↔ ∃ a, r = Ok a ∧ k a = Ok b.
Proof. destruct r; simpl; naive_solver. Qed.

Lemma ok_or_Ok {A} (o : option A) e a : ok_or o e = Ok a ↔ o = Some a.
Proof. destruct o; simpl; naive_solver. Qed.

Lemma M_bind_Ok {S A B} (m : M S A) (k : A → M S B) s b s' :
  (m ≫= k) s = (Ok b, s') ↔ ∃ a s1, m s = (Ok a, s1) ∧ k a s1 = (Ok b, s').
Proof.
  unfold mbind, M_bind. destruct (m s) as [[a|e] s1]; naive_solver.
Qed.

Lemma M_bind_Err {S A B} (m : M S A) (k : A → M S B) s e s' :
  (m ≫= k) s = (Err e, s') ↔
  m s = (Err e, s') ∨ ∃ a s1, m s = (Ok a, s1) ∧ k a s1 = (Err e, s').
Proof.
  unfold mbind, M_bind. destruct (m s) as [[a|e'] s1]; naive_solver.
Qed.

(** Breaks a hypothesis [r = Ok v] built with [←] into its steps. *)
Ltac inv_ok :=
  repeat match goal with
  | H : Ok _ = Ok _ |- _ => injection H as H; subst
  | H : Ok _ = Err _ |- _ => discriminate H
  | H : Err _ = Ok _ |- _ => discriminate H
  | H : (_ ≫= _) = Ok _ |- _ =>
      apply Result_bind_Ok in H; destruct H as (? & ? & H); simpl in H
  | H : (_ ≫= _) _ = (Ok _, _) |- _ =>
      apply M_bind_Ok in H; destruct H as (? & ? & ? & H); simpl in H
  | H : ok_or _ _ = Ok _ |- _ => apply ok_or_Ok in H
  | H : try_from _ _ = Some _ |- _ => apply try_from_Some in H; destruct H as [-> ?]
  | H : mret _ = Ok _ |- _ => injection H as H; subst
  end.
