(* ===== verification/Qid.v ===== *)
(** Qids, open modes and per-fid state: [crates/core/src/qid.rs],
    [crates/core/src/mode.rs] and [crates/core/src/fid.rs]. *)
From S2P Require Import Prelude.

(** ** qid.rs *)

Definition QTFILE : Z := 0x00.
Definition QTDIR : Z := 0x80.
Definition QTAPPEND : Z := 0x40.
Definition QTAUTH : Z := 0x08.
Definition QTSYMLINK : Z := 0x02.

Definition DMDIR : Z := 0x80000000.
Definition DMAPPEND : Z := 0x40000000.
Definition DMAUTH : Z := 0x08000000.
Definition DMSYMLINK : Z := 0x02000000.

Record Qid := Qid_new {
  qtype : Z;
  qid_version : Z;
  qid_path : Z;
}.

#[export] Instance Qid_eq_dec : EqDecision Qid.
Proof. solve_decision. Defined.

Definition Qid_file (path : Z) : Qid := Qid_new QTFILE 0 path.
Definition Qid_dir (path : Z) : Qid := Qid_new QTDIR 0 path.
Definition Qid_append (path : Z) : Qid := Qid_new QTAPPEND 0 path.
Definition Qid_auth (path : Z) : Qid := Qid_new QTAUTH 0 path.

Definition is_dir (q : Qid) : bool := has_bits (qtype q) QTDIR.
Definition is_auth (q : Qid) : bool := has_bits (qtype q) QTAUTH.
Definition is_symlink (q : Qid) : bool := has_bits (qtype q) QTSYMLINK.

(** The ranges Rust's types give a [Qid]. *)
Definition Qid_wf (q : Qid) : Prop :=
  is_u8 (qtype q) ∧ is_u32 (qid_version q) ∧ is_u64 (qid_path q).

(** ** mode.rs *)

Definition OREAD : Z := 0.
Definition OWRITE : Z := 1.
Definition ORDWR : Z := 2.
Definition OEXEC : Z := 3.
Definition OTRUNC : Z := 0x10.
Definition ORCLOSE : Z := 0x40.

Definition ACCESS_MASK : Z := 0x03.
Definition KNOWN_MODE_BITS : Z := Z.lor (Z.lor ACCESS_MASK OTRUNC) ORCLOSE.

(** [!x] on a [u8]. *)
Definition u8_not (x : Z) : Z := Z.lxor u8_max x.

Definition mode_is_valid (mode : Z) : bool :=
  Z.land mode (u8_not KNOWN_MODE_BITS) =? 0.

Definition permits_read (mode : Z) : bool :=
  let access := Z.land mode ACCESS_MASK in
  (access =? OREAD) || (access =? ORDWR) || (access =? OEXEC).

Definition permits_write (mode : Z) : bool :=
  let access := Z.land mode ACCESS_MASK in
  (access =? OWRITE) || (access =? ORDWR).

Definition is_directory_mode (mode : Z) : bool :=
  mode_is_valid mode && (Z.land mode (u8_not ORCLOSE) =? OREAD).

(** ** fid.rs *)

Definition NOFID : Z := u32_max.

Record FidState := FidState_mk {
  fid_qid : Qid;
  open_mode : option Z;
  directory_offset : Z;
}.

#[export] Instance FidState_eq_dec : EqDecision FidState.
Proof. solve_decision. Defined.

Definition FidState_new (qid : Qid) : FidState := FidState_mk qid None 0.

Definition FidState_opened (qid : Qid) (mode : Z) : FidState :=
  FidState_mk qid (Some mode) 0.

Definition with_directory_offset (s : FidState) (offset : Z) : FidState :=
  FidState_mk (fid_qid s) (open_mode s) offset.

(** ** Facts about modes

    Every [u8] mode is one of 256 values: the claims about masks are decided by
    enumeration. *)

Lemma u8_cases (P : Z → bool) :
  forallb (λ n, P (Z.of_nat n)) (seq 0 256) = true → ∀ m, is_u8 m → P m = true.
Proof.
  intros Hall m Hm. rewrite forallb_forall in Hall.
  specialize (Hall (Z.to_nat m)). rewrite Z2Nat.id in Hall by (destruct Hm; lia).
  apply Hall, in_seq. unfold in_range, u8_max in Hm. lia.
Qed.

(** A mode that admits a directory open never permits a write to it. *)
Lemma directory_mode_readonly m :
  is_u8 m → is_directory_mode m = true → permits_write m = false ∧ permits_read m = true.
Proof.
  intros Hm H.
  pose proof (u8_cases
    (λ m, implb (is_directory_mode m) (negb (permits_write m) && permits_read m))
    ltac:(vm_compute; reflexivity) m Hm) as E.
  cbv beta in E. rewrite H in E. simpl in E.
  destruct (permits_write m), (permits_read m); done.
Qed.
