(* ===== verification/Stat.v ===== *)
(** Stat records and the byte cursor: [crates/core/src/stat.rs].

    The encoders are the code's [push_*] functions on the output vector; the
    decoders run in a parser monad over the code's [Cursor]; [StatProps] has their
    laws. *)
From S2P Require Import Prelude Errors Qid.

(** ** Encoders *)

Definition push_u8 (out : bytes) (v : Z) : bytes := out ++ [byte_of_Z v].
Definition push_u16 (out : bytes) (v : Z) : bytes := out ++ le_bytes 2 v.
Definition push_u32 (out : bytes) (v : Z) : bytes := out ++ le_bytes 4 v.
Definition push_u64 (out : bytes) (v : Z) : bytes := out ++ le_bytes 8 v.

Definition push_qid (out : bytes) (q : Qid) : bytes :=
  let out := push_u8 out (qtype q) in
  let out := push_u32 out (qid_version q) in
  push_u64 out (qid_path q).

Definition push_string (out value : bytes) : Result bytes :=
  len ← ok_or (try_from u16_max (vlen value)) (from_static "string too large");
  Ok (push_u16 out len ++ value).

(** ** The cursor *)

Record Cursor := Cursor_mk {
  cur_data : bytes;
  cur_position : Z;
}.

Definition Cursor_new (data : bytes) : Cursor := Cursor_mk data 0.

Definition remaining (c : Cursor) : Z :=
  saturating_sub (vlen (cur_data c)) (cur_position c).

Definition Parser (A : Type) : Type := Cursor → Result (A * Cursor).

#[export] Instance Parser_ret : MRet Parser := λ A a c, Ok (a, c).
#[export] Instance Parser_bind : MBind Parser := λ A B k p c,
  match p c with Ok (a, c') => k a c' | Err e => Err e end.

Definition cursor_take (len : Z) : Parser bytes := λ c,
  stop ← ok_or (checked_add usize_max (cur_position c) len)
               (from_static "frame offset overflow");
  if stop <=? vlen (cur_data c)
  then Ok (ztake len (zdrop (cur_position c) (cur_data c)), Cursor_mk (cur_data c) stop)
  else Err (from_static "truncated frame").

Definition cursor_u8 : Parser Z := b ← cursor_take 1; mret (le_val b).
Definition cursor_u16 : Parser Z := b ← cursor_take 2; mret (le_val b).
Definition cursor_u32 : Parser Z := b ← cursor_take 4; mret (le_val b).
Definition cursor_u64 : Parser Z := b ← cursor_take 8; mret (le_val b).

Definition cursor_qid : Parser Qid :=
  qtype ← cursor_u8;
  version ← cursor_u32;
  path ← cursor_u64;
  mret (Qid_new qtype version path).

Definition cursor_string : Parser bytes :=
  len ← cursor_u16;
  cursor_take len.

Definition cursor_bytes (len : Z) : Parser bytes := cursor_take len.

(** Raising an error inside a parser: [return Err(..)]. *)
Definition pfail {A} (s : string) : Parser A := λ _, Err (from_static s).

(** A fallible value used with [?] inside a parser. *)
Definition plift {A} (r : Result A) : Parser A := λ c, a ← r; Ok (a, c).

(** [for _ in 0..n { v.push(p()?) }]. *)
Fixpoint prepeat {A} (n : nat) (p : Parser A) : Parser (list A) :=
  match n with
  | O => mret []
  | S n => x ← p; xs ← prepeat n p; mret (x :: xs)
  end.

(** ** Stat *)

Record Stat := Stat_mk {
  st_type : Z;
  st_dev : Z;
  st_qid : Qid;
  st_mode : Z;
  st_atime : Z;
  st_mtime : Z;
  st_length : Z;
  st_name : bytes;
  st_uid : bytes;
  st_gid : bytes;
  st_muid : bytes;
}.

#[export] Instance Stat_eq_dec : EqDecision Stat.
Proof. solve_decision. Defined.

Definition Stat_new (name : bytes) (qid : Qid) (mode : Z) : Stat :=
  Stat_mk 0 0 qid mode 0 0 0 name (bstr "none") (bstr "none") (bstr "none").

Definition null_wstat : Stat :=
  Stat_mk u16_max u32_max (Qid_new u8_max u32_max u64_max)
    u32_max u32_max u32_max u64_max [] [] [] [].

Definition Stat_encode (s : Stat) : Result bytes :=
  let body := push_u16 [] (st_type s) in
  let body := push_u32 body (st_dev s) in
  let body := push_qid body (st_qid s) in
  let body := push_u32 body (st_mode s) in
  let body := push_u32 body (st_atime s) in
  let body := push_u32 body (st_mtime s) in
  let body := push_u64 body (st_length s) in
  body ← push_string body (st_name s);
  body ← push_string body (st_uid s);
  body ← push_string body (st_gid s);
  body ← push_string body (st_muid s);
  size ← ok_or (try_from u16_max (vlen body)) (from_static "stat too large");
  Ok (push_u16 [] size ++ body).

Definition Stat_fields : Parser Stat :=
  type_ ← cursor_u16;
  dev ← cursor_u32;
  qid ← cursor_qid;
  mode ← cursor_u32;
  atime ← cursor_u32;
  mtime ← cursor_u32;
  length ← cursor_u64;
  name ← cursor_string;
  uid ← cursor_string;
  gid ← cursor_string;
  muid ← cursor_string;
  mret (Stat_mk type_ dev qid mode atime mtime length name uid gid muid).

Definition Stat_decode (encoded : bytes) : Result Stat :=
  '(size, cursor) ← cursor_u16 (Cursor_new encoded);
  if negb (size =? remaining cursor) then Err (from_static "stat size mismatch")
  else
    '(stat, cursor) ← Stat_fields cursor;
    if negb (remaining cursor =? 0) then Err (from_static "trailing stat bytes")
    else Ok stat.

(** ** Directory streams *)

Fixpoint dirread_loop (stats : list Stat) (offset limit : Z)
    (out : bytes) (position : Z) : Result bytes :=
  match stats with
  | [] => Ok out
  | stat :: stats =>
      encoded ← Stat_encode stat;
      len ← ok_or (try_from u64_max (vlen encoded)) (from_static "stat too large");
      let next := saturating_add u64_max position len in
      if next <=? offset then dirread_loop stats offset limit out next
      else if position <? offset then Ok out
      else if limit <? saturating_add usize_max (vlen out) (vlen encoded) then Ok out
      else dirread_loop stats offset limit (out ++ encoded) next
  end.

Definition dirread_chunk (stats : list Stat) (offset count : Z) : Result bytes :=
  limit ← ok_or (try_from usize_max count) (from_static "count too large");
  dirread_loop stats offset limit [] 0.

(** One turn of the [while offset < data.len()] loop per unit of fuel; every
    turn advances by at least two bytes, so [S (length data)] turns suffice
    ([dir_entries_loop_total]). *)
Fixpoint dir_entries_loop (fuel : nat) (data : bytes) (offset : Z)
    (entries : list Stat) : option (Result (list Stat)) :=
  match fuel with
  | O => None
  | S fuel =>
      if vlen data <=? offset then Some (Ok entries)
      else if saturating_sub (vlen data) offset <? 2
      then Some (Err (from_static "truncated directory stat"))
      else
        let size := le_val (ztake 2 (zdrop offset data)) in
        match checked_add usize_max offset (size + 2) with
        | None => Some (Err (from_static "directory stat overflow"))
        | Some stop =>
            if vlen data <? stop
            then Some (Err (from_static "truncated directory stat"))
            else
              match Stat_decode (ztake (stop - offset) (zdrop offset data)) with
              | Err e => Some (Err e)
              | Ok stat => dir_entries_loop fuel data stop (entries ++ [stat])
              end
        end
  end.

Definition decode_dir_entries (data : bytes) : Result (list Stat) :=
  default (Err (from_static "unreachable"))
    (dir_entries_loop (S (length data)) data 0 []).

(** The ranges Rust's types give a [Stat]. *)
Definition Stat_wf (s : Stat) : Prop :=
  is_u16 (st_type s) ∧ is_u32 (st_dev s) ∧ Qid_wf (st_qid s) ∧ is_u32 (st_mode s) ∧
  is_u32 (st_atime s) ∧ is_u32 (st_mtime s) ∧ is_u64 (st_length s).
