(* ===== verification/StatProps.v ===== *)
(** Stat records on the wire and directory streams: what
    [crates/core/src/stat.rs] guarantees. *)
From S2P Require Import Prelude Errors Qid Stat.

(** The laws of the cursor parsers of [crates/core/src/stat.rs].

    [cur_at c bs] says that [bs] is what the cursor has still to read.
    [decodes p enc v]: positioned at [enc], the parser [p] returns [v] and stops
    right after [enc].  [parses p R]: whatever [p] accepts, it consumed bytes
    related by [R] to the value it returned.  Both compose along [←], so a
    message format is proved once per field and never byte by byte. *)

Definition cur_at (c : Cursor) (bs : bytes) : Prop :=
  0 ≤ cur_position c ≤ vlen (cur_data c) ∧
  vlen (cur_data c) ≤ usize_max ∧
  zdrop (cur_position c) (cur_data c) = bs.

Definition decodes {A} (p : Parser A) (enc : bytes) (v : A) : Prop :=
  ∀ c tl, cur_at c (enc ++ tl) → ∃ c', p c = Ok (v, c') ∧ cur_at c' tl.

Definition parses {A} (p : Parser A) (R : A → bytes → Prop) : Prop :=
  ∀ c bs v c', cur_at c bs → p c = Ok (v, c') →
    ∃ used tl, bs = used ++ tl ∧ cur_at c' tl ∧ R v used.

(** The encoding of a length-prefixed string, and of a qid. *)
Definition enc_string (s : bytes) : bytes := le_bytes 2 (vlen s) ++ s.
Definition enc_qid (q : Qid) : bytes :=
  byte_of_Z (qtype q) :: le_bytes 4 (qid_version q) ++ le_bytes 8 (qid_path q).

(** ** The cursor *)

Lemma cur_at_new data : vlen data ≤ usize_max → cur_at (Cursor_new data) data.
Proof.
  intros. unfold cur_at; simpl. pose proof (vlen_nonneg data). rewrite zdrop_0. auto with lia.
Qed.

Lemma cur_at_remaining c bs : cur_at c bs → remaining c = vlen bs.
Proof.
  intros (Hp & _ & <-). unfold remaining, saturating_sub.
  rewrite vlen_zdrop by lia. lia.
Qed.

Lemma decodes_take bs : decodes (cursor_take (vlen bs)) bs bs.
Proof.
  intros c tl (Hp & Hu & Hd). unfold cursor_take, checked_add.
  assert (vlen (zdrop (cur_position c) (cur_data c)) = vlen bs + vlen tl) as Hl
    by by rewrite Hd, vlen_app.
  rewrite vlen_zdrop in Hl by lia. pose proof (vlen_nonneg tl). pose proof (vlen_nonneg bs).
  rewrite (proj2 (Z.leb_le _ _)) by lia. simpl.
  rewrite (proj2 (Z.leb_le _ _)) by lia.
  eexists; split; [by rewrite Hd, ztake_app_vlen|].
  split; simpl; [lia|split; [done|]].
  by rewrite <- zdrop_zdrop, Hd, zdrop_app_vlen by lia.
Qed.

Lemma decodes_take_eq n bs : n = vlen bs → decodes (cursor_take n) bs bs.
Proof. intros ->. apply decodes_take. Qed.

Lemma parses_take n : 0 ≤ n → parses (cursor_take n) (λ v used, used = v ∧ vlen v = n).
Proof.
  intros Hn c bs v c' (Hp & Hu & Hd). unfold cursor_take, checked_add.
  destruct (_ <=? _) eqn:E1; [|done]. simpl.
  destruct (_ <=? vlen (cur_data c)) eqn:E2; [|done].
  apply Z.leb_le in E1, E2. intros [= <- <-].
  eexists _, (zdrop n (zdrop (cur_position c) (cur_data c))).
  split; [by rewrite <- Hd, ztake_zdrop|].
  split.
  - split; simpl; [lia|split; [done|by rewrite zdrop_zdrop by lia]].
  - split; [done|]. rewrite vlen_ztake; [done|]. rewrite vlen_zdrop; lia.
Qed.

(** ** Composition *)

Lemma decodes_ret {A} (v : A) : decodes (mret v) [] v.
Proof. intros c tl H. by exists c. Qed.

Lemma decodes_bind {A B} (p : Parser A) (k : A → Parser B) e1 e2 a b :
  decodes p e1 a → decodes (k a) e2 b → decodes (p ≫= k) (e1 ++ e2) b.
Proof.
  intros Hp Hk c tl H. rewrite <- app_assoc in H.
  destruct (Hp _ _ H) as (c1 & E1 & H1).
  destruct (Hk _ _ H1) as (c2 & E2 & H2).
  exists c2. split; [|done]. unfold mbind, Parser_bind. by rewrite E1.
Qed.

Lemma decodes_bind_last {A B} (p : Parser A) (k : A → Parser B) e a b :
  decodes p e a → decodes (k a) [] b → decodes (p ≫= k) e b.
Proof. intros. rewrite <- (app_nil_r e). by eapply decodes_bind. Qed.

Lemma decodes_map {A B} (p : Parser A) (f : A → B) e a b :
  decodes p e a → b = f a → decodes (x ← p; mret (f x)) e b.
Proof. intros Hp ->. eapply decodes_bind_last; [done|apply decodes_ret]. Qed.

Lemma parses_ret {A} (v : A) : parses (mret v) (λ w used, w = v ∧ used = []).
Proof. intros c bs w c' H [= <- <-]. by exists [], bs. Qed.

Lemma parses_bind {A B} (p : Parser A) (k : A → Parser B) R Q :
  parses p R → (∀ a, parses (k a) (Q a)) →
  parses (p ≫= k) (λ b used, ∃ a u1 u2, used = u1 ++ u2 ∧ R a u1 ∧ Q a b u2).
Proof.
  intros Hp Hk c bs b c2 H E. unfold mbind, Parser_bind in E.
  destruct (p c) as [[a c1]|] eqn:E1; [|done].
  destruct (Hp _ _ _ _ H E1) as (u1 & tl1 & -> & H1 & HR).
  destruct (Hk a _ _ _ _ H1 E) as (u2 & tl2 & -> & H2 & HQ).
  exists (u1 ++ u2), tl2. rewrite app_assoc. naive_solver.
Qed.

Lemma parses_weaken {A} (p : Parser A) (R Q : A → bytes → Prop) :
  parses p R → (∀ v u, R v u → Q v u) → parses p Q.
Proof. intros Hp HRQ c bs v c' H E. destruct (Hp _ _ _ _ H E) as (u & tl & ?); naive_solver. Qed.

(** The step used to read a parser run backwards. *)
Lemma parses_step {A B} (p : Parser A) (k : A → Parser B) R c bs r :
  parses p R → cur_at c bs → (p ≫= k) c = Ok r →
  ∃ a used tl c', bs = used ++ tl ∧ R a used ∧ cur_at c' tl ∧ k a c' = Ok r.
Proof.
  intros Hp H E. unfold mbind, Parser_bind in E.
  destruct (p c) as [[a c1]|] eqn:E1; [|done].
  destruct (Hp _ _ _ _ H E1) as (u1 & tl1 & -> & H1 & HR). naive_solver.
Qed.

(** ** Integers, qids and strings *)

Lemma decodes_int n (k : Z) v :
  k = Z.of_nat n → 0 ≤ v < 256 ^ k → decodes (b ← cursor_take k; mret (le_val b)) (le_bytes n v) v.
Proof.
  intros -> Hv. eapply decodes_map; [apply decodes_take_eq; by rewrite vlen_le_bytes|].
  by rewrite le_val_le_bytes.
Qed.

Lemma parses_int n (k : Z) :
  k = Z.of_nat n →
  parses (b ← cursor_take k; mret (le_val b)) (λ v used, used = le_bytes n v ∧ 0 ≤ v < 256 ^ k).
Proof.
  intros ->. eapply parses_weaken.
  { eapply parses_bind; [apply parses_take; lia|intros; apply parses_ret]. }
  intros v u (b & u1 & u2 & -> & [-> Hl] & -> & ->). rewrite app_nil_r.
  unfold vlen in Hl. apply Nat2Z.inj in Hl. subst n. split; [by rewrite le_bytes_le_val|].
  apply le_val_bound.
Qed.

Lemma decodes_u8 v : is_u8 v → decodes cursor_u8 [byte_of_Z v] v.
Proof. intros Hv. rewrite <- le_bytes_1. apply (decodes_int 1); [done|]. unfold in_range, u8_max in Hv. lia. Qed.
Lemma decodes_u16 v : is_u16 v → decodes cursor_u16 (le_bytes 2 v) v.
Proof. intros Hv. apply decodes_int; [done|]. unfold in_range, u16_max in Hv. lia. Qed.
Lemma decodes_u32 v : is_u32 v → decodes cursor_u32 (le_bytes 4 v) v.
Proof. intros Hv. apply decodes_int; [done|]. unfold in_range, u32_max in Hv. lia. Qed.
Lemma decodes_u64 v : is_u64 v → decodes cursor_u64 (le_bytes 8 v) v.
Proof. intros Hv. apply decodes_int; [done|]. unfold in_range, u64_max in Hv. lia. Qed.

Lemma parses_u8 : parses cursor_u8 (λ v used, used = [byte_of_Z v] ∧ is_u8 v).
Proof.
  eapply parses_weaken; [apply (parses_int 1); done|]. setoid_rewrite le_bytes_1.
  intros v u [-> ?]; split; [done|unfold in_range, u8_max; lia].
Qed.
Lemma parses_u16 : parses cursor_u16 (λ v used, used = le_bytes 2 v ∧ is_u16 v).
Proof.
  eapply parses_weaken; [apply (parses_int 2); done|].
  intros v u [-> ?]; split; [done|unfold in_range, u16_max; lia].
Qed.
Lemma parses_u32 : parses cursor_u32 (λ v used, used = le_bytes 4 v ∧ is_u32 v).
Proof.
  eapply parses_weaken; [apply (parses_int 4); done|].
  intros v u [-> ?]; split; [done|unfold in_range, u32_max; lia].
Qed.
Lemma parses_u64 : parses cursor_u64 (λ v used, used = le_bytes 8 v ∧ is_u64 v).
Proof.
  eapply parses_weaken; [apply (parses_int 8); done|].
  intros v u [-> ?]; split; [done|unfold in_range, u64_max; lia].
Qed.

Lemma decodes_qid q : Qid_wf q → decodes cursor_qid (enc_qid q) q.
Proof.
  intros (H1 & H2 & H3). unfold cursor_qid, enc_qid.
  eapply (decodes_bind _ _ [_]); [by apply decodes_u8|].
  eapply decodes_bind; [by apply decodes_u32|].
  eapply decodes_map; [by apply decodes_u64|]. by destruct q.
Qed.

Lemma parses_qid : parses cursor_qid (λ q used, used = enc_qid q ∧ Qid_wf q).
Proof.
  eapply parses_weaken.
  { eapply parses_bind; [apply parses_u8|intros t].
    eapply parses_bind; [apply parses_u32|intros v].
    eapply parses_bind; [apply parses_u64|intros p; apply parses_ret]. }
  intros q u. cbn. intros (t & ? & ? & -> & [-> ?] & v & ? & ? & -> & [-> ?] & p & ? & ? & -> & [-> ?] & -> & ->).
  by rewrite app_nil_r.
Qed.

Lemma decodes_string s : vlen s ≤ u16_max → decodes cursor_string (enc_string s) s.
Proof.
  intros Hs. pose proof (vlen_nonneg s). eapply decodes_bind; [by apply decodes_u16|].
  apply decodes_take.
Qed.

Lemma parses_string : parses cursor_string (λ s used, used = enc_string s ∧ vlen s ≤ u16_max).
Proof.
  intros c bs s c' H E.
  destruct (parses_step _ _ _ _ _ _ parses_u16 H E) as (n & u & tl & c1 & -> & [-> Hn] & H1 & E1).
  destruct (parses_take n ltac:(destruct Hn; lia) _ _ _ _ H1 E1) as (u2 & tl2 & -> & H2 & -> & Hl).
  subst n. exists (enc_string s), tl2. unfold enc_string. rewrite <- app_assoc.
  destruct Hn. auto.
Qed.

Lemma decodes_repeat {A} (p : Parser A) (enc : A → bytes) vs :
  Forall (λ v, decodes p (enc v) v) vs →
  decodes (prepeat (length vs) p) (concat (map enc vs)) vs.
Proof.
  induction 1 as [|v vs Hv Hvs IH]; [apply decodes_ret|].
  cbn [prepeat length map concat]. eapply decodes_bind; [done|].
  eapply decodes_map; done.
Qed.

Lemma parses_repeat {A} (p : Parser A) (enc : A → bytes) (P : A → Prop) n :
  parses p (λ v used, used = enc v ∧ P v) →
  parses (prepeat n p)
    (λ vs used, used = concat (map enc vs) ∧ length vs = n ∧ Forall P vs).
Proof.
  intros Hp. induction n as [|n IH].
  - eapply parses_weaken; [apply parses_ret|]. intros v u [-> ->]. auto.
  - eapply parses_weaken.
    { eapply parses_bind; [apply Hp|intros x].
      eapply parses_bind; [apply IH|intros xs; apply parses_ret]. }
    intros vs u. cbn.
    intros (x & ? & ? & -> & [-> ?] & xs & ? & ? & -> & (-> & ? & ?) & -> & ->).
    rewrite app_nil_r. simpl. auto.
Qed.

Lemma decodes_bytes n bs : n = vlen bs → decodes (cursor_bytes n) bs bs.
Proof. apply decodes_take_eq. Qed.

Lemma parses_bytes n : 0 ≤ n → parses (cursor_bytes n) (λ v used, used = v ∧ vlen v = n).
Proof. apply parses_take. Qed.

Lemma decodes_plift {A} (r : Result A) v : r = Ok v → decodes (plift r) [] v.
Proof. intros -> c tl H. by exists c. Qed.

Lemma parses_plift {A} (r : Result A) : parses (plift r) (λ v used, used = [] ∧ r = Ok v).
Proof.
  intros c bs v c' H E. unfold plift in E. inv_ok. simplify_eq. exists [], bs. auto.
Qed.

#[export] Hint Resolve decodes_u8 decodes_u16 decodes_u32 decodes_u64 decodes_qid
  decodes_string decodes_ret : r9p.
#[export] Hint Resolve parses_u8 parses_u16 parses_u32 parses_u64 parses_qid
  parses_string parses_plift : r9p.
#[export] Hint Extern 1 (parses (cursor_bytes _) _) => apply parses_bytes; unfold in_range in *; lia : r9p.

(** Reads one field backwards: from a parser run [H] at [cur_at] to the bytes it
    consumed. *)
Ltac parse_step H :=
  match goal with
  | Hat : cur_at ?c ?bs |- _ =>
      match type of H with
      | (_ ≫= _) c = Ok _ =>
          let HR := fresh "HR" in let Hat' := fresh "Hat" in
          let v := fresh "v" in let u := fresh "u" in
          let tl := fresh "tl" in let c' := fresh "c" in let E := fresh "Ebs" in
          eapply parses_step in H; [|solve [eauto with r9p]|exact Hat];
          destruct H as (v & u & tl & c' & E & HR & Hat' & H); cbv beta in H; clear Hat;
          rename Hat' into Hat; destruct_and?
      end
  end.

(** ** The wire image of a stat *)

Definition stat_body (s : Stat) : bytes :=
  le_bytes 2 (st_type s) ++ le_bytes 4 (st_dev s) ++ enc_qid (st_qid s) ++
  le_bytes 4 (st_mode s) ++ le_bytes 4 (st_atime s) ++ le_bytes 4 (st_mtime s) ++
  le_bytes 8 (st_length s) ++ enc_string (st_name s) ++ enc_string (st_uid s) ++
  enc_string (st_gid s) ++ enc_string (st_muid s).

Definition enc_stat (s : Stat) : bytes := le_bytes 2 (vlen (stat_body s)) ++ stat_body s.

Lemma vlen_enc_string s : vlen (enc_string s) = 2 + vlen s.
Proof. unfold enc_string. autorewrite with vlen. lia. Qed.

Lemma vlen_enc_qid q : vlen (enc_qid q) = 13.
Proof. unfold enc_qid. autorewrite with vlen. done. Qed.

Lemma vlen_stat_body s :
  vlen (stat_body s) =
  47 + vlen (st_name s) + vlen (st_uid s) + vlen (st_gid s) + vlen (st_muid s).
Proof.
  unfold stat_body. autorewrite with vlen. rewrite !vlen_enc_string, vlen_enc_qid. lia.
Qed.

Lemma vlen_enc_stat s : vlen (enc_stat s) = 2 + vlen (stat_body s).
Proof. unfold enc_stat. autorewrite with vlen. lia. Qed.

#[export] Hint Rewrite vlen_enc_string vlen_enc_qid vlen_enc_stat vlen_stat_body : vlen.

Lemma push_qid_enc out q : push_qid out q = out ++ enc_qid q.
Proof. unfold push_qid, push_u8, push_u32, push_u64, enc_qid. by rewrite <- !app_assoc. Qed.

Lemma push_string_Ok out v o :
  push_string out v = Ok o ↔ vlen v ≤ u16_max ∧ o = out ++ enc_string v.
Proof.
  unfold push_string, push_u16, enc_string. pose proof (vlen_nonneg v). split.
  - intros E. inv_ok. rewrite <- app_assoc. split; [lia|done].
  - intros [Hv ->]. rewrite (try_from_in u16_max) by lia. simpl. by rewrite <- app_assoc.
Qed.

Lemma push_string_enc out v :
  vlen v ≤ u16_max → push_string out v = Ok (out ++ enc_string v).
Proof. intros. by apply push_string_Ok. Qed.

Lemma Stat_encode_Ok s e :
  Stat_encode s = Ok e ↔ vlen (stat_body s) ≤ u16_max ∧ e = enc_stat s.
Proof.
  unfold Stat_encode. split.
  - intros E. inv_ok.
    repeat match goal with H : push_string _ _ = Ok _ |- _ =>
      apply push_string_Ok in H; destruct H as [? ->] end.
    rewrite push_qid_enc in *. unfold push_u16, push_u32, push_u64, enc_stat, stat_body in *.
    rewrite ?app_nil_l in *. rewrite <- ?app_assoc in *. split; [lia|done].
  - intros [Hb ->]. rewrite vlen_stat_body in Hb.
    pose proof (vlen_nonneg (st_name s)). pose proof (vlen_nonneg (st_uid s)).
    pose proof (vlen_nonneg (st_gid s)). pose proof (vlen_nonneg (st_muid s)).
    do 4 (rewrite push_string_enc by lia; simpl).
    rewrite push_qid_enc. unfold push_u16, push_u32, push_u64.
    rewrite try_from_in; [simpl|]; unfold enc_stat, stat_body; rewrite ?app_nil_l, <- ?app_assoc; [done|].
    fold (stat_body s). rewrite vlen_stat_body. lia.
Qed.

Lemma Stat_fields_decodes s :
  Stat_wf s → vlen (stat_body s) ≤ u16_max → decodes Stat_fields (stat_body s) s.
Proof.
  intros (? & ? & ? & ? & ? & ? & ?) Hb. rewrite vlen_stat_body in Hb.
  pose proof (vlen_nonneg (st_name s)). pose proof (vlen_nonneg (st_uid s)).
  pose proof (vlen_nonneg (st_gid s)). pose proof (vlen_nonneg (st_muid s)).
  unfold Stat_fields, stat_body.
  do 7 (eapply decodes_bind; [by auto with r9p|]).
  do 3 (eapply decodes_bind; [apply decodes_string; lia|]).
  eapply decodes_map; [apply decodes_string; lia|by destruct s].
Qed.

Lemma Stat_fields_parses c bs s c' :
  cur_at c bs → Stat_fields c = Ok (s, c') →
  ∃ tl, bs = stat_body s ++ tl ∧ cur_at c' tl ∧ Stat_wf s.
Proof.
  intros Hat E. unfold Stat_fields in E. do 11 parse_step E.
  simplify_eq. unfold mret, Parser_ret in E. simplify_eq.
  eexists. split; [unfold stat_body; by rewrite <- !app_assoc|].
  unfold Stat_wf; simpl. naive_solver.
Qed.

Lemma Stat_decode_enc s :
  Stat_wf s → vlen (stat_body s) ≤ u16_max → Stat_decode (enc_stat s) = Ok s.
Proof.
  intros Hwf Hb. pose proof (vlen_nonneg (stat_body s)).
  assert (cur_at (Cursor_new (enc_stat s)) (le_bytes 2 (vlen (stat_body s)) ++ stat_body s)) as Hat.
  { apply cur_at_new. rewrite vlen_app, vlen_le_bytes. unfold u16_max, usize_max, u64_max in *. lia. }
  destruct (decodes_u16 (vlen (stat_body s)) ltac:(done) _ _ Hat) as (c1 & E1 & H1).
  unfold Stat_decode. rewrite E1. simpl. rewrite (cur_at_remaining _ _ H1), Z.eqb_refl. simpl.
  rewrite <- (app_nil_r (stat_body s)) in H1.
  destruct (Stat_fields_decodes s Hwf Hb _ _ H1) as (c2 & E2 & H2).
  rewrite E2. simpl. by rewrite (cur_at_remaining _ _ H2).
Qed.

(** The size prefix bounds the record, whatever the slice. *)
Lemma Stat_decode_bound e s : Stat_decode e = Ok s → vlen e ≤ usize_max.
Proof.
  unfold Stat_decode. intros E. inv_ok. destruct x as [size c].
  unfold cursor_u16, mbind, Parser_bind, cursor_take in H. simpl in H.
  unfold mbind, Result_bind in H. change (0 + 2) with 2 in H.
  destruct (2 <=? vlen e) eqn:El; [|done]. apply Z.leb_le in El.
  unfold mret, Parser_ret in H. simplify_eq. rewrite zdrop_0 in E.
  pose proof (le_val_bound (ztake 2 e)) as Hb. rewrite vlen_ztake in Hb by lia.
  unfold remaining, saturating_sub in E; simpl in E.
  destruct (_ =? _) eqn:E2; [|done]. apply Z.eqb_eq in E2.
  unfold usize_max, u64_max. lia.
Qed.

Lemma Stat_decode_Ok e s :
  Stat_decode e = Ok s ↔ Stat_wf s ∧ vlen (stat_body s) ≤ u16_max ∧ e = enc_stat s.
Proof.
  split; [|intros (? & ? & ->); by apply Stat_decode_enc].
  intros E. pose proof (cur_at_new e (Stat_decode_bound _ _ E)) as Hat.
  unfold Stat_decode in E. inv_ok. destruct x as [size c1].
  destruct (parses_u16 _ _ _ _ Hat H) as (u & tl & -> & H1 & -> & Hs).
  simpl in E. rewrite (cur_at_remaining _ _ H1) in E.
  destruct (size =? vlen tl) eqn:Es; simpl in E; [|done]. apply Z.eqb_eq in Es. subst size.
  inv_ok. destruct x as [s' c2].
  destruct (Stat_fields_parses _ _ _ _ H1 H0) as (tl2 & -> & H2 & Hwf).
  simpl in E. rewrite (cur_at_remaining _ _ H2) in E.
  destruct (vlen tl2 =? 0) eqn:El; simpl in E; [|done]. inv_ok.
  destruct tl2; [|apply Z.eqb_eq in El; rewrite vlen_cons in El; pose proof (vlen_nonneg tl2); lia].
  unfold enc_stat. rewrite app_nil_r in *. destruct Hs. auto.
Qed.

(** ** Directory streams *)

Definition encodes (s : Stat) (e : bytes) : Prop := Stat_encode s = Ok e.

Lemma encodes_len s e : encodes s e → 49 ≤ vlen e.
Proof.
  intros [? ->]%Stat_encode_Ok. autorewrite with vlen.
  pose proof (vlen_nonneg (st_name s)). pose proof (vlen_nonneg (st_uid s)).
  pose proof (vlen_nonneg (st_gid s)). pose proof (vlen_nonneg (st_muid s)). lia.
Qed.

Lemma vlen_concat_cons (e : bytes) es : vlen (concat (e :: es)) = vlen e + vlen (concat es).
Proof. apply vlen_app. Qed.

(** Entries that end at or before the offset are skipped without output. *)
Lemma dirread_skip stats es offset limit pos k :
  Forall2 encodes stats es →
  pos + vlen (concat es) ≤ u64_max → (k ≤ length es)%nat →
  offset = pos + vlen (concat (take k es)) → 0 ≤ pos →
  dirread_loop stats offset limit [] pos = dirread_loop (drop k stats) offset limit [] offset.
Proof.
  intros H. revert pos k. induction H as [|s e stats es He H IH]; intros pos k Hmax Hk Hoff Hpos.
  - destruct k; simpl in *; [|lia]. done.
  - destruct k as [|k]; simpl.
    { by replace offset with pos by (rewrite Hoff; simpl; rewrite vlen_nil; lia). }
    pose proof (encodes_len _ _ He). pose proof (vlen_nonneg (concat es)).
    pose proof (vlen_nonneg (concat (take k es))). simpl take in Hoff.
    rewrite vlen_concat_cons in Hmax, Hoff.
    rewrite He; simpl. rewrite try_from_in by (unfold u64_max in *; lia); simpl.
    unfold saturating_add. rewrite Z.min_r by lia.
    rewrite (proj2 (Z.leb_le _ _)) by lia. apply IH; simpl in *; lia.
Qed.

(** From an entry boundary on, the loop emits the longest run of whole entries
    that fits. *)
Lemma dirread_emit stats es offset limit out pos :
  Forall2 encodes stats es →
  pos + vlen (concat es) ≤ u64_max → offset ≤ pos → 0 ≤ offset →
  vlen out ≤ limit ≤ u32_max → pos = offset + vlen out →
  ∃ n, (n ≤ length es)%nat ∧
    dirread_loop stats offset limit out pos = Ok (out ++ concat (take n es)) ∧
    vlen (out ++ concat (take n es)) ≤ limit ∧
    ((n < length es)%nat → limit < vlen (out ++ concat (take (S n) es))).
Proof.
  intros H. revert out pos.
  induction H as [|s e stats es He H IH]; intros out pos Hmax Hle Ho Hout Hpos.
  - exists 0%nat. simpl. rewrite app_nil_r. split; [lia|split; [done|split; [lia|simpl; lia]]].
  - pose proof (encodes_len _ _ He). pose proof (vlen_nonneg (concat es)).
    rewrite vlen_concat_cons in Hmax. simpl dirread_loop. rewrite He; simpl.
    pose proof (vlen_nonneg out).
    rewrite try_from_in by (unfold u64_max in *; lia); simpl.
    unfold saturating_add. rewrite Z.min_r by lia.
    rewrite (proj2 (Z.leb_gt _ _)) by lia. rewrite (proj2 (Z.ltb_ge _ _)) by lia.
    rewrite Z.min_r by (unfold usize_max; lia).
    destruct (limit <? vlen out + vlen e) eqn:El.
    + apply Z.ltb_lt in El. exists 0%nat. simpl. rewrite !app_nil_r.
      split; [lia|split; [done|split; [lia|]]]. intros _. rewrite vlen_app. lia.
    + apply Z.ltb_ge in El.
      destruct (IH (out ++ e) (pos + vlen e)) as (n & Hn & E & Hl & Hmx); try rewrite vlen_app; try lia.
      exists (S n). rewrite E. simpl. rewrite <- !app_assoc in *. simpl in *.
      split; [lia|split; [done|split; [done|]]]. intros Hlt.
      apply Hmx. lia.
Qed.

Lemma dirread_chunk_boundary stats es k count :
  Forall2 encodes stats es → vlen (concat es) ≤ u64_max →
  (k ≤ length es)%nat → is_u32 count →
  ∃ n, (n ≤ length (drop k es))%nat ∧
    dirread_chunk stats (vlen (concat (take k es))) count = Ok (concat (take n (drop k es))) ∧
    vlen (concat (take n (drop k es))) ≤ count ∧
    ((n < length (drop k es))%nat → count < vlen (concat (take (S n) (drop k es)))).
Proof.
  intros H Hmax Hk Hc. unfold dirread_chunk.
  rewrite try_from_in by (unfold in_range, usize_max, u32_max, u64_max in *; lia); simpl.
  assert (vlen (concat es) = vlen (concat (take k es)) + vlen (concat (drop k es))) as Hsum.
  { rewrite <- vlen_app, <- concat_app. by rewrite take_drop. }
  pose proof (vlen_nonneg (concat (take k es))).
  rewrite (dirread_skip _ es _ _ 0 k) by (try done; lia).
  destruct (dirread_emit (drop k stats) (drop k es) (vlen (concat (take k es))) count []
    (vlen (concat (take k es)))) as (n & Hn & E & Hl & Hmx);
    try (rewrite ?vlen_nil; unfold in_range in Hc; lia).
  { by apply Forall2_drop. }
  exists n. done.
Qed.

(** ** Decoding a directory stream *)

Lemma dir_entries_loop_nil fuel data offset acc :
  vlen data ≤ offset → dir_entries_loop (S fuel) data offset acc = Some (Ok acc).
Proof. intros. simpl. by rewrite (proj2 (Z.leb_le _ _)). Qed.

Lemma enc_stat_size s tl :
  vlen (stat_body s) ≤ u16_max → le_val (ztake 2 (enc_stat s ++ tl)) = vlen (stat_body s).
Proof.
  intros Hb. unfold enc_stat. rewrite <- app_assoc.
  replace 2 with (vlen (le_bytes 2 (vlen (stat_body s)))) by by rewrite vlen_le_bytes.
  rewrite ztake_app_vlen. apply le_val_le_bytes. pose proof (vlen_nonneg (stat_body s)).
  unfold u16_max in Hb. split; [lia|]. change (256 ^ Z.of_nat 2) with 65536. lia.
Qed.

(** One turn of the loop, on a stream that starts with an encoded entry. *)
Lemma dir_entries_loop_step fuel data offset acc s e tl :
  vlen data ≤ usize_max → 0 ≤ offset → zdrop offset data = e ++ tl →
  Stat_wf s → encodes s e →
  dir_entries_loop (S fuel) data offset acc =
  dir_entries_loop fuel data (offset + vlen e) (acc ++ [s]) ∧
  zdrop (offset + vlen e) data = tl ∧ offset + vlen e ≤ vlen data.
Proof.
  intros Hu Ho Hd Hwf He. pose proof (encodes_len _ _ He) as Hl.
  apply Stat_encode_Ok in He as [Hb ->].
  assert (vlen (zdrop offset data) = vlen (enc_stat s) + vlen tl) as Hv
    by by rewrite Hd, vlen_app.
  pose proof (vlen_nonneg tl).
  assert (offset ≤ vlen data).
  { destruct (Z.le_gt_cases offset (vlen data)); [done|].
    unfold vlen, zdrop in *. rewrite length_drop in Hv. lia. }
  rewrite vlen_zdrop in Hv by lia.
  split; [|split; [by rewrite <- zdrop_zdrop, Hd, zdrop_app_vlen by lia|lia]].
  cbn [dir_entries_loop]. rewrite (proj2 (Z.leb_gt _ _)) by lia.
  unfold saturating_sub. rewrite (proj2 (Z.ltb_ge _ _)) by lia.
  rewrite Hd, enc_stat_size by done.
  replace (vlen (stat_body s) + 2) with (vlen (enc_stat s)) by (rewrite vlen_enc_stat; lia).
  unfold checked_add. rewrite (proj2 (Z.leb_le _ _)) by lia.
  rewrite (proj2 (Z.ltb_ge _ _)) by lia.
  replace (offset + vlen (enc_stat s) - offset) with (vlen (enc_stat s)) by lia.
  by rewrite ztake_app_vlen, Stat_decode_enc.
Qed.

Lemma dir_entries_loop_complete fuel data offset acc stats es :
  vlen data ≤ usize_max → 0 ≤ offset ≤ vlen data → zdrop offset data = concat es →
  Forall Stat_wf stats → Forall2 encodes stats es → (length es < fuel)%nat →
  dir_entries_loop fuel data offset acc = Some (Ok (acc ++ stats)).
Proof.
  intros Hu Ho Hd Hwf H. revert fuel offset acc Hwf Ho Hd.
  induction H as [|s e stats es He H IH]; intros fuel offset acc Hwf Ho Hd Hf.
  - destruct fuel; [simpl in Hf; lia|]. rewrite app_nil_r. apply dir_entries_loop_nil.
    apply (f_equal vlen) in Hd. rewrite vlen_zdrop in Hd by lia. simpl in Hd.
    rewrite vlen_nil in Hd. lia.
  - destruct fuel; [simpl in Hf; lia|]. apply Forall_cons in Hwf as [Hs Hwf].
    destruct (dir_entries_loop_step fuel data offset acc s e (concat es)) as (-> & Hd' & Hle);
      try done; [lia|].
    rewrite IH; try done; [by rewrite <- app_assoc| |simpl in Hf; lia].
    pose proof (vlen_nonneg e). lia.
Qed.

Lemma dir_entries_loop_total fuel data offset acc :
  0 ≤ offset → vlen data - offset < Z.of_nat fuel → (0 < fuel)%nat →
  is_Some (dir_entries_loop fuel data offset acc).
Proof.
  revert offset acc. induction fuel as [|fuel IH]; intros offset acc Ho Hf Hpos; [lia|].
  simpl. destruct (_ <=? _) eqn:E1; [by eexists|]. apply Z.leb_gt in E1.
  destruct (_ <? 2) eqn:E2; [by eexists|].
  destruct (checked_add _ _ _) as [stop|] eqn:E3; [|by eexists].
  destruct (_ <? stop) eqn:E4; [by eexists|].
  destruct (Stat_decode _); [|by eexists].
  unfold checked_add in E3. destruct (_ <=? usize_max); [|done]. simplify_eq.
  pose proof (le_val_bound (ztake 2 (zdrop offset data))). apply IH; lia.
Qed.

Lemma dir_entries_loop_sound fuel data offset acc out :
  0 ≤ offset ≤ vlen data →
  dir_entries_loop fuel data offset acc = Some (Ok out) →
  ∃ stats es, out = acc ++ stats ∧ Forall Stat_wf stats ∧ Forall2 encodes stats es ∧
    zdrop offset data = concat es.
Proof.
  revert offset acc. induction fuel as [|fuel IH]; intros offset acc Ho; [done|].
  simpl. destruct (_ <=? _) eqn:E1.
  { apply Z.leb_le in E1. intros [= <-]. exists [], []. rewrite app_nil_r.
    split; [done|split; [done|split; [done|]]].
    assert (vlen (zdrop offset data) = 0) as Hz by (rewrite vlen_zdrop; lia).
    destruct (zdrop offset data); [done|]. rewrite vlen_cons in Hz.
    pose proof (vlen_nonneg l). lia. }
  destruct (_ <? 2) eqn:E2; [done|].
  destruct (checked_add _ _ _) as [stop|] eqn:E3; [|done].
  destruct (_ <? stop) eqn:E4; [done|]. apply Z.ltb_ge in E4.
  destruct (Stat_decode _) as [s|] eqn:Es; [|done]. intros E.
  unfold checked_add in E3. destruct (_ <=? usize_max); [|done]. simplify_eq.
  pose proof (le_val_bound (ztake 2 (zdrop offset data))).
  apply IH in E as (stats & es & -> & Hwf & Hes & Hd); [|lia].
  apply Stat_decode_Ok in Es as (Hs & Hb & Ee).
  exists (s :: stats), (enc_stat s :: es). rewrite <- app_assoc.
  split; [done|split; [by constructor|split; [constructor; [by apply Stat_encode_Ok|done]|]]].
  simpl. rewrite <- Ee, <- Hd. rewrite <- (ztake_zdrop (le_val (ztake 2 (zdrop offset data)) + 2)
    (zdrop offset data)) at 1. f_equal; [f_equal; lia|rewrite zdrop_zdrop; [done|lia..]].
Qed.

(** ** Theorems *)

(** A byte string decodes to a stat exactly when the stat is in range and
    encodes to those very bytes: the wire form is unique and nothing is lost in
    either direction. *)
Theorem stat_wire_bijective e s :
  Stat_decode e = Ok s ↔ Stat_wf s ∧ Stat_encode s = Ok e.
Proof. rewrite Stat_decode_Ok, Stat_encode_Ok. naive_solver. Qed.

Lemma decode_dir_entries_enc stats es :
  vlen (concat es) ≤ usize_max → Forall Stat_wf stats → Forall2 encodes stats es →
  decode_dir_entries (concat es) = Ok stats.
Proof.
  intros Hu Hwf Hes. unfold decode_dir_entries. pose proof (vlen_nonneg (concat es)).
  rewrite (dir_entries_loop_complete _ _ 0 [] stats es); try done.
  enough (Z.of_nat (length es) ≤ vlen (concat es)) as Hle
    by (apply Nat.lt_succ_r, Nat2Z.inj_le; exact Hle).
  clear -Hes. induction Hes as [|s e ss es He _ IH]; [done|].
  rewrite vlen_concat_cons. pose proof (encodes_len _ _ He). simpl length. lia.
Qed.

(** a directory stream decodes to a list of stats exactly when it is the
    concatenation of their encodings; the loop always terminates with an answer. *)
Theorem decode_dir_entries_iff data stats :
  vlen data ≤ usize_max →
  decode_dir_entries data = Ok stats ↔
  Forall Stat_wf stats ∧ ∃ es, Forall2 encodes stats es ∧ data = concat es.
Proof.
  intros Hu. pose proof (vlen_nonneg data) as Hn.
  destruct (dir_entries_loop_total (S (length data)) data 0 []) as [r Er];
    [lia|unfold vlen; lia|lia|]. split.
  - unfold decode_dir_entries. rewrite Er. simpl. intros ->.
    destruct (dir_entries_loop_sound _ _ _ _ _ (conj (Z.le_refl 0) Hn) Er)
      as (s & es & -> & Hwf & Hes & Hd). simpl. rewrite zdrop_0 in Hd. eauto.
  - intros (Hwf & es & Hes & ->). by apply decode_dir_entries_enc.
Qed.

Definition sample_stat : Stat := Stat_new (bstr "body") (Qid_file 9) 384.

Lemma decode_dir_entries_iff_witness :
  ∃ data, vlen data ≤ usize_max ∧
    (decode_dir_entries data = Ok [sample_stat; sample_stat] ↔
     Forall Stat_wf [sample_stat; sample_stat] ∧
     ∃ es, Forall2 encodes [sample_stat; sample_stat] es ∧ data = concat es).
Proof.
  exists (enc_stat sample_stat ++ enc_stat sample_stat).
  assert (vlen (enc_stat sample_stat ++ enc_stat sample_stat) ≤ usize_max) as H
    by (vm_compute; discriminate).
  split; [exact H|exact (decode_dir_entries_iff _ _ H)].
Defined.

(** A directory read at an entry boundary returns the longest run of whole
    entries that fits in [count]; an entry is never split, and an entry that
    does fit is never withheld. *)
Theorem dirread_chunk_whole_entries stats es k count :
  Forall2 encodes stats es → vlen (concat es) ≤ u64_max →
  (k ≤ length es)%nat → is_u32 count →
  ∃ n, (n ≤ length (drop k es))%nat ∧
    dirread_chunk stats (vlen (concat (take k es))) count = Ok (concat (take n (drop k es))) ∧
    vlen (concat (take n (drop k es))) ≤ count ∧
    ((n < length (drop k es))%nat → count < vlen (concat (take (S n) (drop k es)))).
Proof. apply dirread_chunk_boundary. Qed.

Lemma dirread_chunk_whole_entries_witness :
  ∃ n, (n ≤ 1)%nat ∧
    dirread_chunk [sample_stat; sample_stat] 65 100 =
      Ok (concat (take n [enc_stat sample_stat])) ∧
    vlen (concat (take n [enc_stat sample_stat])) ≤ 100 ∧
    ((n < 1)%nat → 100 < vlen (concat (take (S n) [enc_stat sample_stat]))).
Proof.
  assert (Forall2 encodes [sample_stat; sample_stat] [enc_stat sample_stat; enc_stat sample_stat]) as H.
  { repeat constructor; vm_compute; reflexivity. }
  refine (dirread_chunk_whole_entries _ _ 1%nat 100 H _ _ _);
    [vm_compute; discriminate|simpl; lia|vm_compute; split; discriminate].
Defined.

(** ** Entries that fit a read *)

(** How many leading entries have at most [c] bytes each. *)
Fixpoint leading (c : Z) (es : list bytes) : nat :=
  match es with
  | [] => 0
  | e :: es => if vlen e <=? c then S (leading c es) else 0
  end.

Lemma leading_le c es : (leading c es ≤ length es)%nat.
Proof. induction es as [|e es IH]; simpl; [lia|]. case_match; simpl; lia. Qed.

Lemma leading_lookup c es i e : es !! i = Some e → (i < leading c es)%nat → vlen e ≤ c.
Proof.
  revert i. induction es as [|e' es IH]; intros i He Hi; [done|]. simpl in Hi.
  destruct (Z.leb_spec (vlen e') c); [|lia]. destruct i as [|i]; [by simplify_eq/=|].
  eapply IH; [exact He|lia].
Qed.

Lemma leading_stop c es e : es !! leading c es = Some e → c < vlen e.
Proof.
  induction es as [|e' es IH]; [done|]. simpl. destruct (Z.leb_spec (vlen e') c); [done|].
  by intros [= ->].
Qed.

Lemma vlen_concat_lookup (es : list bytes) i e : es !! i = Some e → vlen e ≤ vlen (concat es).
Proof.
  revert i. induction es as [|e' es IH]; intros [|i] He; simplify_eq/=; rewrite vlen_app;
    pose proof (vlen_nonneg (concat es)).
  - lia.
  - specialize (IH _ He). pose proof (vlen_nonneg e'). lia.
Qed.

(** A read at an entry boundary moves towards the first entry that does not fit,
    and returns nothing only when it is there. *)
Lemma dirread_chunk_leading stats es k c :
  Forall2 encodes stats es → vlen (concat es) ≤ u64_max → is_u32 c → (k ≤ leading c es)%nat →
  ∃ m, (k + m ≤ leading c es)%nat ∧
    dirread_chunk stats (vlen (concat (take k es))) c = Ok (concat (take m (drop k es))) ∧
    vlen (concat (take m (drop k es))) ≤ c ∧ (m = 0%nat → k = leading c es).
Proof.
  intros He Hmax Hc Hk. pose proof (leading_le c es) as Hle.
  destruct (dirread_chunk_boundary stats es k c He Hmax ltac:(lia) Hc) as (m & Hm & Hd & Hfit & Hstop).
  rewrite length_drop in Hm, Hstop. exists m. split_and!; [|done|done|].
  - destruct (decide (k + m ≤ leading c es)%nat) as [|Hbig]; [done|]. exfalso.
    destruct (lookup_lt_is_Some_2 es (leading c es)) as [e Hl]; [lia|].
    pose proof (leading_stop _ _ _ Hl).
    assert (take m (drop k es) !! (leading c es - k)%nat = Some e) as Ht.
    { rewrite lookup_take_lt by lia. rewrite lookup_drop.
      by replace (k + (leading c es - k))%nat with (leading c es) by lia. }
    pose proof (vlen_concat_lookup _ _ _ Ht). lia.
  - intros ->. destruct (decide (k = leading c es)) as [|Hne]; [done|]. exfalso.
    destruct (lookup_lt_is_Some_2 es k) as [e Hl]; [lia|]. specialize (Hstop ltac:(lia)).
    rewrite (drop_S _ _ _ Hl) in Hstop. simpl in Hstop. rewrite app_nil_r in Hstop.
    pose proof (leading_lookup c _ _ _ Hl ltac:(lia)). lia.
Qed.
