(* ===== verification/Utf8.v ===== *)
(** [String::from_utf8_lossy], as the Rust standard library computes it, and the
    display form of an error ([crates/core/src/error.rs]).

    [utf8_chunk] reads one scalar or one maximal invalid run from the front of
    the input, with the byte ranges of the library's decoder; every invalid run
    becomes U+FFFD. *)
From S2P Require Import Prelude Errors.

(** U+FFFD REPLACEMENT CHARACTER. *)
Definition replacement : bytes := [xef; xbf; xbd].

(** [safe_get]: zero past the end, which is never a continuation byte. *)
Definition byte_at (i : nat) (bs : bytes) : Z :=
  match bs !! i with Some b => byte_to_Z b | None => 0 end.

Definition is_cont (z : Z) : bool := (128 <=? z) && (z <=? 191).

Definition between (lo hi z : Z) : bool := (lo <=? z) && (z <=? hi).

(** The bytes the front chunk spans, and whether it is valid. *)
Definition utf8_chunk (bs : bytes) : nat * bool :=
  let b0 := byte_at 0 bs in
  let b1 := byte_at 1 bs in
  if b0 <? 128 then (1%nat, true)
  else if between 194 223 b0 then
    if is_cont b1 then (2%nat, true) else (1%nat, false)
  else if between 224 239 b0 then
    if ((b0 =? 224) && between 160 191 b1) || (between 225 236 b0 && is_cont b1) ||
       ((b0 =? 237) && between 128 159 b1) || (between 238 239 b0 && is_cont b1)
    then if is_cont (byte_at 2 bs) then (3%nat, true) else (2%nat, false)
    else (1%nat, false)
  else if between 240 244 b0 then
    if ((b0 =? 240) && between 144 191 b1) || (between 241 243 b0 && is_cont b1) ||
       ((b0 =? 244) && between 128 143 b1)
    then
      if is_cont (byte_at 2 bs) then
        if is_cont (byte_at 3 bs) then (4%nat, true) else (3%nat, false)
      else (2%nat, false)
    else (1%nat, false)
  else (1%nat, false).

Fixpoint lossy_loop (fuel : nat) (bs : bytes) : bytes :=
  match fuel, bs with
  | S fuel, _ :: _ =>
      let '(n, valid) := utf8_chunk bs in
      (if valid then take n bs else replacement) ++ lossy_loop fuel (drop n bs)
  | _, _ => []
  end.

(** Every chunk spans at least one byte, so the length is fuel enough. *)
Definition from_utf8_lossy (bs : bytes) : bytes := lossy_loop (length bs) bs.

Definition display_lossy (e : Error) : bytes := from_utf8_lossy (message e).

(** ASCII text displays as itself: every error string of the crate does. *)
Definition is_ascii (bs : bytes) : bool := forallb (λ b, byte_to_Z b <? 128) bs.

Lemma from_utf8_lossy_ascii bs : is_ascii bs = true → from_utf8_lossy bs = bs.
Proof.
  unfold from_utf8_lossy. induction bs as [|b bs IH]; [done|].
  simpl. intros [Hb Hbs]%andb_true_iff. unfold utf8_chunk, byte_at. simpl.
  rewrite Hb. simpl. by rewrite drop_0, IH.
Qed.

(** The result of [from_utf8_lossy] never grows past three bytes per input byte. *)
Lemma from_utf8_lossy_length bs : (length (from_utf8_lossy bs) ≤ 3 * length bs)%nat.
Proof.
  unfold from_utf8_lossy. generalize (length bs) at 1 as fuel.
  intros fuel; revert bs; induction fuel as [|fuel IH]; intros [|b bs]; simpl; try lia.
  destruct (utf8_chunk (b :: bs)) as [n v] eqn:E.
  assert (1 ≤ n)%nat as Hn by
    (unfold utf8_chunk in E; repeat (case_match; simplify_eq; try lia)).
  destruct n as [|n]; [lia|]. simpl drop. rewrite length_app.
  specialize (IH (drop n bs)). rewrite length_drop in IH.
  destruct v; simpl; rewrite ?length_take; lia.
Qed.
