(* ===== verification/Referral.v ===== *)
(** Namespace referrals: [crates/core/src/referral.rs]. *)
From S2P Require Import Prelude Errors Utf8.

Record NamespaceReferral := NamespaceReferral_mk {
  mount_path : bytes;
  endpoint : bytes;
  r_uname : bytes;
  r_aname : bytes;
  exported_root : bytes;
  authority_boundary : bytes;
  generation : Z;
  valid_for_ms : Z;
}.

#[export] Instance NamespaceReferral_eq_dec : EqDecision NamespaceReferral.
Proof. solve_decision. Defined.

Definition slash : byte := x2f.

(** [byte == 0 || byte.is_ascii_control()]. *)
Definition is_ascii_control (b : byte) : bool :=
  (byte_to_Z b <? 32) || (byte_to_Z b =? 127).
Definition has_control (bs : bytes) : bool :=
  existsb (λ b, (byte_to_Z b =? 0) || is_ascii_control b) bs.

(** [slice.split(|byte| byte == sep)]: always at least one segment. *)
Fixpoint split_on (sep : byte) (l : bytes) : list bytes :=
  match l with
  | [] => [[]]
  | b :: l =>
      if decide (b = sep) then [] :: split_on sep l
      else match split_on sep l with
           | seg :: segs => (b :: seg) :: segs
           | [] => [[b]]
           end
  end.

Definition ends_with_slash (l : bytes) : bool :=
  match last l with Some b => bool_decide (b = slash) | None => false end.

Definition good_segment (segment : bytes) : bool :=
  negb (bool_decide (segment = [])) && negb (bool_decide (segment = bstr ".")) &&
  negb (bool_decide (segment = bstr "..")).

Definition valid_absolute_path (path : bytes) (allow_root : bool) : bool :=
  if decide (path = [slash]) then allow_root
  else
    starts_with [slash] path && negb (ends_with_slash path) &&
    forallb good_segment (drop 1 (split_on slash path)) &&
    negb (has_control path).

Definition validate_absolute_path (field : string) (path : bytes) (allow_root : bool)
    : Result unit :=
  if valid_absolute_path path allow_root then Ok ()
  else Err (Error_new (bstr "namespace referral " ++ bstr field ++
                       bstr " must be a canonical absolute path")).

Definition validate_nonempty (field : string) (value : bytes) : Result unit :=
  match value with
  | [] => Err (Error_new (bstr "namespace referral " ++ bstr field ++ bstr " must not be empty"))
  | _ => Ok ()
  end.

(** One turn of the loop over the text fields. *)
Definition validate_text (field : string) (value : bytes) : Result unit :=
  _ ← validate_nonempty field value;
  if has_control value
  then Err (Error_new (bstr "namespace referral " ++ bstr field ++
                       bstr " contains a control byte"))
  else Ok ().

Definition validate (r : NamespaceReferral) : Result unit :=
  _ ← validate_absolute_path "mount_path" (mount_path r) false;
  _ ← validate_absolute_path "exported_root" (exported_root r) true;
  _ ← validate_text "endpoint" (endpoint r);
  _ ← validate_text "uname" (r_uname r);
  _ ← validate_text "aname" (r_aname r);
  _ ← validate_text "authority_boundary" (authority_boundary r);
  if generation r =? 0
  then Err (from_static "namespace referral generation must be positive")
  else if valid_for_ms r =? 0
  then Err (from_static "namespace referral valid_for_ms must be positive")
  else Ok ().

Definition mounted_suffix (path mount : bytes) : option bytes :=
  if decide (path = mount) then Some []
  else match strip_prefix mount path with
       | Some suffix => if starts_with [slash] suffix then Some suffix else None
       | None => None
       end.

Definition join_namespace_path (root suffix : bytes) : bytes :=
  if decide (root = [slash]) then
    if decide (suffix = []) then [slash] else suffix
  else
    if decide (suffix = []) then root else root ++ suffix.

Definition routed_path (r : NamespaceReferral) (namespace_path : bytes) : Result bytes :=
  _ ← validate_absolute_path "namespace_path" namespace_path true;
  suffix ← ok_or (mounted_suffix namespace_path (mount_path r))
    (Error_new (bstr "namespace path " ++ from_utf8_lossy namespace_path ++
                bstr " is outside referral mount " ++ from_utf8_lossy (mount_path r)));
  Ok (join_namespace_path (exported_root r) suffix).

(** The ranges Rust's types give a referral. *)
Definition Referral_wf (r : NamespaceReferral) : Prop :=
  is_u64 (generation r) ∧ is_u64 (valid_for_ms r).

(** ** Segments and paths *)

Definition join_segments (segs : list bytes) : bytes :=
  concat (map (cons slash) segs).

Lemma split_on_nonempty sep l : split_on sep l ≠ [].
Proof. destruct l as [|b l]; simpl; [done|]. repeat case_match; done. Qed.

(** Splitting and joining at the separator are inverse. *)
Lemma split_on_spec l :
  ∃ s0 segs, split_on slash l = s0 :: segs ∧ l = s0 ++ join_segments segs ∧
    (slash ∉ s0) ∧ Forall (λ s, slash ∉ s) segs.
Proof.
  induction l as [|b l (s0 & segs & Es & -> & H0 & H)]; simpl.
  { exists [], []. split; [done|split; [done|split; [apply not_elem_of_nil|done]]]. }
  case_decide as Eb.
  - subst. exists [], (s0 :: segs). rewrite Es. split; [done|split; [done|]].
    split; [apply not_elem_of_nil|by constructor].
  - rewrite Es. exists (b :: s0), segs. split; [done|split; [done|split; [|done]]].
    apply not_elem_of_cons; auto.
Qed.

Lemma split_on_join s0 segs :
  slash ∉ s0 → Forall (λ s, slash ∉ s) segs →
  split_on slash (s0 ++ join_segments segs) = s0 :: segs.
Proof.
  intros H0 H. revert s0 H0. induction H as [|s segs Hs H IH]; intros s0 H0.
  - unfold join_segments; simpl. rewrite app_nil_r. induction s0 as [|b s0 IH]; [done|].
    apply not_elem_of_cons in H0 as [Hb H0]. simpl. rewrite decide_False by done.
    by rewrite IH.
  - induction s0 as [|b s0 IH0].
    + change (join_segments (s :: segs)) with (slash :: s ++ join_segments segs).
      simpl. by rewrite IH.
    + apply not_elem_of_cons in H0 as [Hb H0]. simpl. rewrite decide_False by done.
      by rewrite IH0.
Qed.

Lemma join_segments_inj ss ts :
  Forall (λ s, slash ∉ s) ss → Forall (λ s, slash ∉ s) ts →
  join_segments ss = join_segments ts → ss = ts.
Proof.
  intros Hs Ht E.
  pose proof (split_on_join [] ss (not_elem_of_nil _) Hs) as E1.
  pose proof (split_on_join [] ts (not_elem_of_nil _) Ht) as E2.
  simpl in *. congruence.
Qed.

Lemma join_segments_app ss ts : join_segments (ss ++ ts) = join_segments ss ++ join_segments ts.
Proof. unfold join_segments. by rewrite map_app, concat_app. Qed.

(** A segment of a canonical path. *)
Definition seg_ok (s : bytes) : Prop :=
  good_segment s = true ∧ (slash ∉ s) ∧ has_control s = false.

(** The canonical path of a list of segments; no segments is the root. *)
Definition path_of (segs : list bytes) : bytes :=
  match segs with [] => [slash] | _ => join_segments segs end.

Lemma has_control_app a b : has_control (a ++ b) = has_control a || has_control b.
Proof. apply existsb_app. Qed.

Lemma has_control_join segs :
  has_control (join_segments segs) = false ↔ Forall (λ s, has_control s = false) segs.
Proof.
  induction segs as [|s segs IH]; [done|].
  change (join_segments (s :: segs)) with (slash :: s ++ join_segments segs).
  change (has_control (slash :: s ++ join_segments segs))
    with (has_control (s ++ join_segments segs)).
  rewrite has_control_app, orb_false_iff, IH, Forall_cons. done.
Qed.

Lemma seg_ok_noslash segs : Forall seg_ok segs → Forall (λ s, slash ∉ s) segs.
Proof. intros H. eapply Forall_impl; [exact H|]. by intros s (_ & ? & _). Qed.

Lemma good_segment_nonempty s : good_segment s = true → s ≠ [].
Proof. intros H ->. done. Qed.

(** Whether the bytes end in a slash depends on the last segment only. *)
Lemma ends_with_slash_join segs :
  segs ≠ [] → Forall (λ s, s ≠ [] ∧ slash ∉ s) segs → ends_with_slash (join_segments segs) = false.
Proof.
  intros Hne H. destruct segs as [|s segs _] using rev_ind; [done|].
  apply Forall_app in H as [_ H]. apply Forall_cons in H as [(Hg & Hs) _].
  rewrite join_segments_app. unfold join_segments at 2; simpl. rewrite app_nil_r.
  destruct s as [|b s _] using rev_ind; [done|].
  unfold ends_with_slash. rewrite app_comm_cons, app_assoc, last_snoc.
  apply bool_decide_eq_false. intros ->. apply Hs. apply elem_of_app. right.
  by apply list_elem_of_singleton.
Qed.

(** The validator accepts exactly the canonical paths. *)
Lemma valid_absolute_path_iff p root :
  valid_absolute_path p root = true ↔
  ∃ segs, p = path_of segs ∧ Forall seg_ok segs ∧ (segs = [] → root = true).
Proof.
  unfold valid_absolute_path. case_decide as Hp.
  { subst. split.
    - intros Hr. exists []. auto.
    - intros ([|s segs] & E & H & Hr); [auto|]. exfalso.
      apply Forall_cons in H as [(Hg & _) _]. apply good_segment_nonempty in Hg.
      unfold path_of, join_segments in E. simpl in E. destruct s; done. }
  rewrite !andb_true_iff, !negb_true_iff, starts_with_spec. split.
  - intros [[[[s Es] He] Hg] Hc].
    destruct (split_on_spec p) as (s0 & segs & E & Ep & H0 & Hs). rewrite E in Hg.
    simpl in Hg. rewrite drop_0 in Hg.
    assert (s0 = []) as ->.
    { destruct s0 as [|b s0]; [done|]. exfalso. rewrite Es in Ep. simpl in Ep.
      injection Ep as <- _. apply H0. by left. }
    simpl in Ep. destruct segs as [|s1 segs]; [by rewrite Es in Ep|].
    clear Es He. subst p. exists (s1 :: segs).
    split; [done|split; [|done]]. apply has_control_join in Hc.
    rewrite forallb_forall in Hg. clear -Hg Hs Hc.
    rewrite !Forall_forall in *. intros x Hx. split; [by apply Hg, list_elem_of_In|auto].
  - intros (segs & -> & H & Hr). destruct segs as [|s segs]; [done|].
    unfold path_of in *. pose proof (seg_ok_noslash _ H) as Hn.
    split; [split; [split|]|].
    + by eexists.
    + apply ends_with_slash_join; [done|]. eapply Forall_impl; [exact H|].
      intros x (Hg & ? & _). split; [by apply good_segment_nonempty|done].
    + pose proof (split_on_join [] (s :: segs) (not_elem_of_nil _) Hn) as E.
      simpl app in E. rewrite E. simpl drop. rewrite forallb_forall.
      intros x Hx%list_elem_of_In. rewrite Forall_forall in H. by apply H in Hx as (? & _).
    + apply has_control_join. eapply Forall_impl; [exact H|]. by intros x (_ & _ & ?).
Qed.

Lemma path_of_app ms rest :
  ms ≠ [] → path_of (ms ++ rest) = join_segments ms ++ join_segments rest.
Proof. intros. rewrite <- join_segments_app. by destruct ms. Qed.

(** A mount prefix is matched segment by segment. *)
Lemma mounted_suffix_iff ms segs suffix :
  ms ≠ [] → Forall seg_ok ms → Forall (λ s, slash ∉ s) segs →
  mounted_suffix (path_of segs) (path_of ms) = Some suffix ↔
  ∃ rest, segs = ms ++ rest ∧ suffix = join_segments rest.
Proof.
  intros Hne Hms Nsegs. unfold mounted_suffix.
  pose proof (seg_ok_noslash _ Hms) as Nms.
  assert (∀ ss, path_of ss = path_of ms → Forall (λ s, slash ∉ s) ss → ss = ms) as Hinj.
  { intros [|s ss] E Hss; destruct ms as [|m ms]; try done.
    - apply Forall_cons in Hms as [(Hg & _) _]. apply good_segment_nonempty in Hg.
      unfold path_of, join_segments in E; simpl in E. by destruct m.
    - by apply join_segments_inj. }
  case_decide as Heq.
  { apply Hinj in Heq; [subst segs|done]. split.
    - intros [= <-]. exists []. by rewrite app_nil_r.
    - intros (rest & E & ->). by rewrite <- (app_nil_r ms) in E at 1; simplify_list_eq. }
  replace (path_of ms) with (join_segments ms) by by destruct ms.
  destruct (strip_prefix _ _) as [suf|] eqn:Ep.
  - apply strip_prefix_Some in Ep. destruct (starts_with _ _) eqn:Est; split; try done.
    + intros [= <-]. apply starts_with_spec in Est as [s ->].
      destruct (split_on_spec s) as (s0 & tl & _ & -> & H0 & Htl).
      exists (s0 :: tl). split; [|done].
      destruct segs as [|x segs]; unfold path_of in Ep.
      { exfalso. destruct ms as [|m ms]; [done|]. apply Forall_cons in Hms as [(Hg & _) _]. apply good_segment_nonempty in Hg.
        unfold join_segments in Ep; simpl in Ep. by destruct m. }
      apply join_segments_inj; [done|apply Forall_app; split; [done|by constructor]|].
      rewrite join_segments_app. exact Ep.
    + intros (rest & -> & ->). rewrite path_of_app in Ep by done. by simplify_list_eq.
    + intros (rest & -> & ->). exfalso. rewrite path_of_app in Ep by done.
      apply app_inv_head in Ep. subst suf.
      destruct rest as [|r rest]; [by rewrite app_nil_r in Heq|done].
  - split; [done|]. intros (rest & -> & ->). exfalso.
    assert (strip_prefix (join_segments ms) (path_of (ms ++ rest)) =
      Some (join_segments rest)); [|congruence].
    apply strip_prefix_Some. by apply path_of_app.
Qed.

Lemma join_namespace_path_of rs rest :
  Forall seg_ok rs → Forall seg_ok rest →
  join_namespace_path (path_of rs) (join_segments rest) = path_of (rs ++ rest).
Proof.
  intros Hr Ht. unfold join_namespace_path.
  destruct rs as [|r rs].
  - rewrite decide_True by done. destruct rest; [done|by rewrite decide_False].
  - rewrite decide_False.
    + destruct rest as [|t rest].
      * by rewrite decide_True, app_nil_r.
      * rewrite decide_False by done. by rewrite path_of_app.
    + apply Forall_cons in Hr as [(Hg & _) _]. apply good_segment_nonempty in Hg.
      unfold path_of, join_segments; simpl. by destruct r.
Qed.

Lemma validate_paths r :
  validate r = Ok () →
  ∃ ms rs, mount_path r = path_of ms ∧ exported_root r = path_of rs ∧ ms ≠ [] ∧
    Forall seg_ok ms ∧ Forall seg_ok rs.
Proof.
  unfold validate, validate_absolute_path. intros E.
  destruct (valid_absolute_path (mount_path r) false) eqn:E1; [|done].
  destruct (valid_absolute_path (exported_root r) true) eqn:E2; [|done]. clear E.
  apply valid_absolute_path_iff in E1 as (ms & -> & Hms & Hne).
  apply valid_absolute_path_iff in E2 as (rs & -> & Hrs & _).
  exists ms, rs. split; [done|split; [done|split; [|done]]]. intros ->. by specialize (Hne eq_refl).
Qed.

(** ** Theorem *)

(** a valid referral routes a path exactly when the mount's segments are a
    prefix of the path's, and the routed path is the exported root followed by
    the remaining segments; every other path is refused. *)
Theorem routed_path_rebases r p q :
  validate r = Ok () →
  routed_path r p = Ok q ↔
  ∃ ms rs rest, mount_path r = path_of ms ∧ exported_root r = path_of rs ∧
    Forall seg_ok (ms ++ rest) ∧ Forall seg_ok rs ∧ ms ≠ [] ∧
    p = path_of (ms ++ rest) ∧ q = path_of (rs ++ rest).
Proof.
  intros (ms & rs & Em & Er & Hne & Hms & Hrs)%validate_paths.
  unfold routed_path, validate_absolute_path. rewrite Em, Er. split.
  - intros E. destruct (valid_absolute_path p true) eqn:Ep; [|done]. simpl in E. inv_ok.
    apply valid_absolute_path_iff in Ep as (segs & -> & Hsegs & _).
    apply mounted_suffix_iff in H as (rest & -> & ->); [|done|done|by apply seg_ok_noslash].
    apply Forall_app in Hsegs as [_ Hrest]. exists ms, rs, rest.
    rewrite join_namespace_path_of, Forall_app by done. done.
  - intros (ms' & rs' & rest & E1 & E2 & H & Hrs' & Hne' & -> & ->).
    apply Forall_app in H as [Hms' Hrest].
    rewrite (proj2 (valid_absolute_path_iff _ _)).
    2:{ exists (ms' ++ rest). split; [done|split; [by apply Forall_app|done]]. }
    simpl. rewrite E1, E2.
    rewrite (proj2 (mounted_suffix_iff ms' (ms' ++ rest) (join_segments rest) Hne' Hms'
      (seg_ok_noslash _ (proj2 (Forall_app _ _ _) (conj Hms' Hrest))))) by eauto.
    simpl. by rewrite join_namespace_path_of.
Qed.

Definition sample_referral : NamespaceReferral :=
  NamespaceReferral_mk (bstr "/agents") (bstr "192.168.0.30:9660") (bstr "codex")
    (bstr "/") (bstr "/") (bstr "p9any:noise-xx@agents") 3 10000.

Lemma routed_path_rebases_witness :
  routed_path sample_referral (bstr "/agents/terminals/t-1") = Ok (bstr "/terminals/t-1") ∧
  ∃ ms rs rest, mount_path sample_referral = path_of ms ∧
    exported_root sample_referral = path_of rs ∧
    Forall seg_ok (ms ++ rest) ∧ Forall seg_ok rs ∧ ms ≠ [] ∧
    bstr "/agents/terminals/t-1" = path_of (ms ++ rest) ∧
    bstr "/terminals/t-1" = path_of (rs ++ rest).
Proof.
  assert (routed_path sample_referral (bstr "/agents/terminals/t-1") =
          Ok (bstr "/terminals/t-1")) as E by (vm_compute; reflexivity).
  split; [exact E|].
  apply (routed_path_rebases sample_referral); [vm_compute; reflexivity|exact E].
Defined.

(** A sibling that merely shares the mount's bytes is not routed. *)
Example routed_path_sibling :
  is_ok (routed_path sample_referral (bstr "/agents-extra")) = false.
Proof. vm_compute. reflexivity. Qed.
