(* ===== verification/Message.v ===== *)
(** The 9P messages: [crates/core/src/message.rs]. *)
From S2P Require Import Prelude Qid Stat Referral.

Definition NOTAG : Z := u16_max.
Definition MAXWELEM : Z := 16.

Definition TRENAMEAT : Z := 74.
Definition RRENAMEAT : Z := 75.
Definition TVERSION : Z := 100.
Definition RVERSION : Z := 101.
Definition TAUTH : Z := 102.
Definition RAUTH : Z := 103.
Definition TATTACH : Z := 104.
Definition RATTACH : Z := 105.
Definition RERROR : Z := 107.
Definition TFLUSH : Z := 108.
Definition RFLUSH : Z := 109.
Definition TWALK : Z := 110.
Definition RWALK : Z := 111.
Definition TOPEN : Z := 112.
Definition ROPEN : Z := 113.
Definition TCREATE : Z := 114.
Definition RCREATE : Z := 115.
Definition TREAD : Z := 116.
Definition RREAD : Z := 117.
Definition TWRITE : Z := 118.
Definition RWRITE : Z := 119.
Definition TCLUNK : Z := 120.
Definition RCLUNK : Z := 121.
Definition TREMOVE : Z := 122.
Definition RREMOVE : Z := 123.
Definition TSTAT : Z := 124.
Definition RSTAT : Z := 125.
Definition TWSTAT : Z := 126.
Definition RWSTAT : Z := 127.
Definition TREFERRALS : Z := 200.
Definition RREFERRALS : Z := 201.

Inductive TMessage : Type :=
| TVersion (tag msize : Z) (version : bytes)
| TAuth (tag afid : Z) (uname aname : bytes)
| TAttach (tag fid afid : Z) (uname aname : bytes)
| TFlush (tag oldtag : Z)
| TWalk (tag fid newfid : Z) (wnames : list bytes)
| TOpen (tag fid mode : Z)
| TCreate (tag fid : Z) (name : bytes) (perm mode : Z)
| TRead (tag fid offset count : Z)
| TWrite (tag fid offset : Z) (data : bytes)
| TClunk (tag fid : Z)
| TRemove (tag fid : Z)
| TStat (tag fid : Z)
| TWstat (tag fid : Z) (stat : Stat)
| TRenameAt (tag olddirfid : Z) (oldname : bytes) (newdirfid : Z) (newname : bytes)
| TReferrals (tag fid : Z).

#[export] Instance TMessage_eq_dec : EqDecision TMessage.
Proof. solve_decision. Defined.

Definition t_tag (m : TMessage) : Z :=
  match m with
  | TVersion tag _ _ | TAuth tag _ _ _ | TAttach tag _ _ _ _ | TFlush tag _
  | TWalk tag _ _ _ | TOpen tag _ _ | TCreate tag _ _ _ _ | TRead tag _ _ _
  | TWrite tag _ _ _ | TClunk tag _ | TRemove tag _ | TStat tag _ | TWstat tag _ _
  | TRenameAt tag _ _ _ _ | TReferrals tag _ => tag
  end.

Definition t_message_type (m : TMessage) : Z :=
  match m with
  | TVersion _ _ _ => TVERSION
  | TAuth _ _ _ _ => TAUTH
  | TAttach _ _ _ _ _ => TATTACH
  | TFlush _ _ => TFLUSH
  | TWalk _ _ _ _ => TWALK
  | TOpen _ _ _ => TOPEN
  | TCreate _ _ _ _ _ => TCREATE
  | TRead _ _ _ _ => TREAD
  | TWrite _ _ _ _ => TWRITE
  | TClunk _ _ => TCLUNK
  | TRemove _ _ => TREMOVE
  | TStat _ _ => TSTAT
  | TWstat _ _ _ => TWSTAT
  | TRenameAt _ _ _ _ _ => TRENAMEAT
  | TReferrals _ _ => TREFERRALS
  end.

Inductive RMessage : Type :=
| RVersion (tag msize : Z) (version : bytes)
| RAuth (tag : Z) (aqid : Qid)
| RAttach (tag : Z) (qid : Qid)
| RError (tag : Z) (ename : bytes)
| RFlush (tag : Z)
| RWalk (tag : Z) (qids : list Qid)
| ROpen (tag : Z) (qid : Qid) (iounit : Z)
| RCreate (tag : Z) (qid : Qid) (iounit : Z)
| RRead (tag : Z) (data : bytes)
| RWrite (tag count : Z)
| RClunk (tag : Z)
| RRemove (tag : Z)
| RStat (tag : Z) (stat : Stat)
| RWstat (tag : Z)
| RRenameAt (tag : Z)
| RReferrals (tag : Z) (referrals : list NamespaceReferral).

#[export] Instance RMessage_eq_dec : EqDecision RMessage.
Proof. solve_decision. Defined.

Definition r_tag (m : RMessage) : Z :=
  match m with
  | RVersion tag _ _ | RAuth tag _ | RAttach tag _ | RError tag _ | RFlush tag
  | RWalk tag _ | ROpen tag _ _ | RCreate tag _ _ | RRead tag _ | RWrite tag _
  | RClunk tag | RRemove tag | RStat tag _ | RWstat tag | RRenameAt tag
  | RReferrals tag _ => tag
  end.

Definition r_message_type (m : RMessage) : Z :=
  match m with
  | RVersion _ _ _ => RVERSION
  | RAuth _ _ => RAUTH
  | RAttach _ _ => RATTACH
  | RError _ _ => RERROR
  | RFlush _ => RFLUSH
  | RWalk _ _ => RWALK
  | ROpen _ _ _ => ROPEN
  | RCreate _ _ _ => RCREATE
  | RRead _ _ => RREAD
  | RWrite _ _ => RWRITE
  | RClunk _ => RCLUNK
  | RRemove _ => RREMOVE
  | RStat _ _ => RSTAT
  | RWstat _ => RWSTAT
  | RRenameAt _ => RRENAMEAT
  | RReferrals _ _ => RREFERRALS
  end.

(** The ranges Rust's types give the fields of a message. *)
Definition TMessage_wf (m : TMessage) : Prop :=
  is_u16 (t_tag m) ∧
  match m with
  | TVersion _ msize _ => is_u32 msize
  | TAuth _ afid _ _ => is_u32 afid
  | TAttach _ fid afid _ _ => is_u32 fid ∧ is_u32 afid
  | TFlush _ oldtag => is_u16 oldtag
  | TWalk _ fid newfid _ => is_u32 fid ∧ is_u32 newfid
  | TOpen _ fid mode => is_u32 fid ∧ is_u8 mode
  | TCreate _ fid _ perm mode => is_u32 fid ∧ is_u32 perm ∧ is_u8 mode
  | TRead _ fid offset count => is_u32 fid ∧ is_u64 offset ∧ is_u32 count
  | TWrite _ fid offset _ => is_u32 fid ∧ is_u64 offset
  | TClunk _ fid | TRemove _ fid | TStat _ fid | TReferrals _ fid => is_u32 fid
  | TWstat _ fid stat => is_u32 fid ∧ Stat_wf stat
  | TRenameAt _ olddirfid _ newdirfid _ => is_u32 olddirfid ∧ is_u32 newdirfid
  end.

Definition RMessage_wf (m : RMessage) : Prop :=
  is_u16 (r_tag m) ∧
  match m with
  | RVersion _ msize _ => is_u32 msize
  | RAuth _ qid | RAttach _ qid => Qid_wf qid
  | RWalk _ qids => Forall Qid_wf qids
  | ROpen _ qid iounit | RCreate _ qid iounit => Qid_wf qid ∧ is_u32 iounit
  | RWrite _ count => is_u32 count
  | RStat _ stat => Stat_wf stat
  | RReferrals _ referrals => Forall Referral_wf referrals
  | _ => True
  end.
