(* ===== verification/Codec.v ===== *)
(** Framing, dialects and the message codec: [crates/core/src/codec.rs]. *)
From S2P Require Import Prelude Errors Qid Stat Referral Message.

Definition FRAME_HEADER_SIZE : Z := 7.
Definition RREAD_HEADER_SIZE : Z := 11.
Definition TWRITE_HEADER_SIZE : Z := 23.
Definition IOUNIT_HEADER_SIZE : Z := 24.
Definition DEFAULT_MSIZE : Z := 8192.
Definition MIN_MSIZE : Z := 256.
Definition MAX_MSIZE : Z := 1024 * 1024.

(** ** Dialects *)

Inductive Variant := Plain | R.

#[export] Instance Variant_eq_dec : EqDecision Variant.
Proof. solve_decision. Defined.

Definition wire_name (v : Variant) : bytes :=
  match v with Plain => bstr "9P2000" | R => bstr "9P2000.R" end.

Definition plain_request (requested : bytes) : bool :=
  bool_decide (requested = wire_name Plain) ||
  match strip_prefix (wire_name Plain) requested with
  | Some suffix => starts_with (bstr ".") suffix
  | None => false
  end.

Definition accept (v : Variant) (requested : bytes) : option Variant :=
  if bool_decide (v = R) && bool_decide (requested = wire_name R) then Some R
  else if plain_request requested then Some Plain else None.

Definition supports_symlinks (v : Variant) : bool := bool_decide (v = R).
Definition supports_referrals (v : Variant) : bool := bool_decide (v = R).
Definition supports_rename_at (v : Variant) : bool := bool_decide (v = R).

Definition accept_response (v : Variant) (response : bytes) : option Variant :=
  if bool_decide (v = R) && bool_decide (response = wire_name R) then Some R
  else if bool_decide (response = wire_name Plain) then Some Plain else None.

(** ** Message-size arithmetic *)

Definition clamp_read_count (msize requested : Z) : Z :=
  Z.min requested (saturating_sub msize RREAD_HEADER_SIZE).
Definition max_write_payload (msize : Z) : Z := saturating_sub msize TWRITE_HEADER_SIZE.
Definition max_iounit (msize : Z) : Z := saturating_sub msize IOUNIT_HEADER_SIZE.

(** ** Encoding *)

Definition frame_prefix (message_type tag : Z) : bytes :=
  push_u16 (push_u8 (push_u32 [] 0) message_type) tag.

Definition finish_frame (frame : bytes) : Result bytes :=
  size ← ok_or (try_from u32_max (vlen frame)) (from_static "frame too large");
  Ok (le_bytes 4 size ++ drop 4 frame).

Fixpoint push_strings (out : bytes) (names : list bytes) : Result bytes :=
  match names with
  | [] => Ok out
  | name :: names => out ← push_string out name; push_strings out names
  end.

Fixpoint push_qids (out : bytes) (qids : list Qid) : bytes :=
  match qids with
  | [] => out
  | qid :: qids => push_qids (push_qid out qid) qids
  end.

Definition push_stat (out : bytes) (encoded : bytes) : Result bytes :=
  len ← ok_or (try_from u16_max (vlen encoded)) (from_static "stat too large");
  Ok (push_u16 out len ++ encoded).

Definition encode_referral (out : bytes) (r : NamespaceReferral) : Result bytes :=
  _ ← validate r;
  out ← push_strings out [mount_path r; endpoint r; r_uname r; r_aname r;
                          exported_root r; authority_boundary r];
  Ok (push_u64 (push_u64 out (generation r)) (valid_for_ms r)).

Fixpoint push_referrals (out : bytes) (rs : list NamespaceReferral) : Result bytes :=
  match rs with
  | [] => Ok out
  | r :: rs => out ← encode_referral out r; push_referrals out rs
  end.

Definition encode_tfields (frame : bytes) (m : TMessage) : Result bytes :=
  match m with
  | TVersion _ msize version => push_string (push_u32 frame msize) version
  | TAuth _ afid uname aname =>
      frame ← push_string (push_u32 frame afid) uname;
      push_string frame aname
  | TAttach _ fid afid uname aname =>
      frame ← push_string (push_u32 (push_u32 frame fid) afid) uname;
      push_string frame aname
  | TFlush _ oldtag => Ok (push_u16 frame oldtag)
  | TWalk _ fid newfid wnames =>
      if MAXWELEM <? vlen wnames then Err (from_static "name too long")
      else
        let frame := push_u32 (push_u32 frame fid) newfid in
        n ← ok_or (try_from u16_max (vlen wnames)) (from_static "name too long");
        push_strings (push_u16 frame n) wnames
  | TOpen _ fid mode => Ok (push_u8 (push_u32 frame fid) mode)
  | TCreate _ fid name perm mode =>
      frame ← push_string (push_u32 frame fid) name;
      Ok (push_u8 (push_u32 frame perm) mode)
  | TRead _ fid offset count =>
      Ok (push_u32 (push_u64 (push_u32 frame fid) offset) count)
  | TWrite _ fid offset data =>
      count ← ok_or (try_from u32_max (vlen data)) (from_static "write too large");
      Ok (push_u32 (push_u64 (push_u32 frame fid) offset) count ++ data)
  | TClunk _ fid | TRemove _ fid | TStat _ fid => Ok (push_u32 frame fid)
  | TWstat _ fid stat =>
      encoded ← Stat_encode stat;
      push_stat (push_u32 frame fid) encoded
  | TRenameAt _ olddirfid oldname newdirfid newname =>
      frame ← push_string (push_u32 frame olddirfid) oldname;
      push_string (push_u32 frame newdirfid) newname
  | TReferrals _ fid => Ok (push_u32 frame fid)
  end.

Definition encode_tmessage (m : TMessage) : Result bytes :=
  frame ← encode_tfields (frame_prefix (t_message_type m) (t_tag m)) m;
  finish_frame frame.

Definition encode_rfields (frame : bytes) (m : RMessage) : Result bytes :=
  match m with
  | RVersion _ msize version => push_string (push_u32 frame msize) version
  | RAuth _ aqid => Ok (push_qid frame aqid)
  | RAttach _ qid => Ok (push_qid frame qid)
  | RError _ ename => push_string frame ename
  | RFlush _ | RClunk _ | RRemove _ | RWstat _ | RRenameAt _ => Ok frame
  | RWalk _ qids =>
      if MAXWELEM <? vlen qids then Err (from_static "name too long")
      else
        n ← ok_or (try_from u16_max (vlen qids)) (from_static "name too long");
        Ok (push_qids (push_u16 frame n) qids)
  | ROpen _ qid iounit | RCreate _ qid iounit => Ok (push_u32 (push_qid frame qid) iounit)
  | RRead _ data =>
      count ← ok_or (try_from u32_max (vlen data)) (from_static "read too large");
      Ok (push_u32 frame count ++ data)
  | RWrite _ count => Ok (push_u32 frame count)
  | RStat _ stat =>
      encoded ← Stat_encode stat;
      push_stat frame encoded
  | RReferrals _ referrals =>
      n ← ok_or (try_from u16_max (vlen referrals)) (from_static "too many namespace referrals");
      push_referrals (push_u16 frame n) referrals
  end.

Definition encode_rmessage (m : RMessage) : Result bytes :=
  frame ← encode_rfields (frame_prefix (r_message_type m) (r_tag m)) m;
  finish_frame frame.

(** The negotiated size bounds every frame that is sent. *)
Definition check_msize (frame : bytes) (msize : Z) : Result bytes :=
  len ← ok_or (try_from u32_max (vlen frame)) (from_static "frame too large");
  if msize <? len then Err (from_static "frame exceeds msize") else Ok frame.

Definition encode_tmessage_checked (m : TMessage) (msize : Z) : Result bytes :=
  frame ← encode_tmessage m; check_msize frame msize.

Definition encode_rmessage_checked (m : RMessage) (msize : Z) : Result bytes :=
  frame ← encode_rmessage m; check_msize frame msize.

(** ** Decoding *)

(** [frame[i]], an index the size check has admitted. *)
Definition frame_u8 (frame : bytes) (i : nat) : Z :=
  match frame !! i with Some b => byte_to_Z b | None => 0 end.

Definition validate_frame_size (frame : bytes) : Result unit :=
  if vlen frame <? FRAME_HEADER_SIZE then Err (from_static "truncated frame")
  else
    let size := le_val (take 4 frame) in
    actual ← ok_or (try_from u32_max (vlen frame)) (from_static "frame too large");
    if negb (size =? actual) then Err (from_static "frame size mismatch") else Ok ().

Definition decode_referral : Parser NamespaceReferral :=
  mount ← cursor_string;
  endp ← cursor_string;
  uname ← cursor_string;
  aname ← cursor_string;
  root ← cursor_string;
  authority ← cursor_string;
  gen ← cursor_u64;
  valid ← cursor_u64;
  let referral := NamespaceReferral_mk mount endp uname aname root authority gen valid in
  _ ← plift (validate referral);
  mret referral.

(** [cursor.bytes(nstat)?] and [Stat::decode(..)?]. *)
Definition cursor_stat : Parser Stat :=
  nstat ← cursor_u16;
  encoded ← cursor_bytes nstat;
  plift (Stat_decode encoded).

Definition decode_tbody (message_type tag : Z) : Parser TMessage :=
  if message_type =? TVERSION then
    msize ← cursor_u32; version ← cursor_string; mret (TVersion tag msize version)
  else if message_type =? TAUTH then
    afid ← cursor_u32; uname ← cursor_string; aname ← cursor_string;
    mret (TAuth tag afid uname aname)
  else if message_type =? TATTACH then
    fid ← cursor_u32; afid ← cursor_u32; uname ← cursor_string; aname ← cursor_string;
    mret (TAttach tag fid afid uname aname)
  else if message_type =? TFLUSH then
    oldtag ← cursor_u16; mret (TFlush tag oldtag)
  else if message_type =? TWALK then
    fid ← cursor_u32; newfid ← cursor_u32; nwname ← cursor_u16;
    if MAXWELEM <? nwname then pfail "name too long"
    else wnames ← prepeat (Z.to_nat nwname) cursor_string; mret (TWalk tag fid newfid wnames)
  else if message_type =? TOPEN then
    fid ← cursor_u32; mode ← cursor_u8; mret (TOpen tag fid mode)
  else if message_type =? TCREATE then
    fid ← cursor_u32; name ← cursor_string; perm ← cursor_u32; mode ← cursor_u8;
    mret (TCreate tag fid name perm mode)
  else if message_type =? TREAD then
    fid ← cursor_u32; offset ← cursor_u64; count ← cursor_u32;
    mret (TRead tag fid offset count)
  else if message_type =? TWRITE then
    fid ← cursor_u32; offset ← cursor_u64; count ← cursor_u32;
    n ← plift (ok_or (try_from usize_max count) (from_static "write count too large"));
    data ← cursor_bytes n; mret (TWrite tag fid offset data)
  else if message_type =? TCLUNK then
    fid ← cursor_u32; mret (TClunk tag fid)
  else if message_type =? TREMOVE then
    fid ← cursor_u32; mret (TRemove tag fid)
  else if message_type =? TSTAT then
    fid ← cursor_u32; mret (TStat tag fid)
  else if message_type =? TWSTAT then
    fid ← cursor_u32; stat ← cursor_stat; mret (TWstat tag fid stat)
  else if message_type =? TRENAMEAT then
    olddirfid ← cursor_u32; oldname ← cursor_string;
    newdirfid ← cursor_u32; newname ← cursor_string;
    mret (TRenameAt tag olddirfid oldname newdirfid newname)
  else if message_type =? TREFERRALS then
    fid ← cursor_u32; mret (TReferrals tag fid)
  else pfail "unknown message type".

Definition decode_rbody (message_type tag : Z) : Parser RMessage :=
  if message_type =? RVERSION then
    msize ← cursor_u32; version ← cursor_string; mret (RVersion tag msize version)
  else if message_type =? RAUTH then
    aqid ← cursor_qid; mret (RAuth tag aqid)
  else if message_type =? RATTACH then
    qid ← cursor_qid; mret (RAttach tag qid)
  else if message_type =? RERROR then
    ename ← cursor_string; mret (RError tag ename)
  else if message_type =? RFLUSH then mret (RFlush tag)
  else if message_type =? RWALK then
    nwqid ← cursor_u16;
    if MAXWELEM <? nwqid then pfail "name too long"
    else qids ← prepeat (Z.to_nat nwqid) cursor_qid; mret (RWalk tag qids)
  else if message_type =? ROPEN then
    qid ← cursor_qid; iounit ← cursor_u32; mret (ROpen tag qid iounit)
  else if message_type =? RCREATE then
    qid ← cursor_qid; iounit ← cursor_u32; mret (RCreate tag qid iounit)
  else if message_type =? RREAD then
    count ← cursor_u32;
    n ← plift (ok_or (try_from usize_max count) (from_static "read count too large"));
    data ← cursor_bytes n; mret (RRead tag data)
  else if message_type =? RWRITE then
    count ← cursor_u32; mret (RWrite tag count)
  else if message_type =? RCLUNK then mret (RClunk tag)
  else if message_type =? RREMOVE then mret (RRemove tag)
  else if message_type =? RSTAT then
    stat ← cursor_stat; mret (RStat tag stat)
  else if message_type =? RWSTAT then mret (RWstat tag)
  else if message_type =? RRENAMEAT then mret (RRenameAt tag)
  else if message_type =? RREFERRALS then
    count ← cursor_u16;
    referrals ← prepeat (Z.to_nat count) decode_referral; mret (RReferrals tag referrals)
  else pfail "unknown message type".

(** Both decoders: check the size field, read type and tag, parse the body and
    insist that nothing is left. *)
Definition decode_frame {A} (body : Z → Z → Parser A) (frame : bytes) : Result A :=
  _ ← validate_frame_size frame;
  let message_type := frame_u8 frame 4 in
  let tag := le_val (take 2 (drop 5 frame)) in
  '(message, cursor) ← body message_type tag (Cursor_new (zdrop FRAME_HEADER_SIZE frame));
  if negb (remaining cursor =? 0) then Err (from_static "trailing frame bytes")
  else Ok message.

Definition decode_tmessage (frame : bytes) : Result TMessage := decode_frame decode_tbody frame.
Definition decode_rmessage (frame : bytes) : Result RMessage := decode_frame decode_rbody frame.
