(* ===== verification/CodecProps.v ===== *)
(** The message codec of [crates/core/src/codec.rs]: decoding and encoding are
    inverse bijections between well-typed messages and the frames they use. *)
From S2P Require Import Prelude Errors Qid Stat StatProps Referral Message Codec.

(** ** Wire images *)

Definition enc_referral (r : NamespaceReferral) : bytes :=
  enc_string (mount_path r) ++ enc_string (endpoint r) ++ enc_string (r_uname r) ++
  enc_string (r_aname r) ++ enc_string (exported_root r) ++
  enc_string (authority_boundary r) ++ le_bytes 8 (generation r) ++ le_bytes 8 (valid_for_ms r).

Definition referral_ok (r : NamespaceReferral) : Prop :=
  validate r = Ok () ∧
  Forall (λ s, vlen s ≤ u16_max)
    [mount_path r; endpoint r; r_uname r; r_aname r; exported_root r; authority_boundary r].

Definition enc_sized_stat (s : Stat) : bytes := le_bytes 2 (vlen (enc_stat s)) ++ enc_stat s.

(** [Stat::encode] bounds the body, the message bounds body and prefix together. *)
Definition stat_ok (s : Stat) : Prop := vlen (enc_stat s) ≤ u16_max.

Definition str_ok (s : bytes) : Prop := vlen s ≤ u16_max.

Definition tbody (m : TMessage) : bytes :=
  match m with
  | TVersion _ msize version => le_bytes 4 msize ++ enc_string version
  | TAuth _ afid uname aname => le_bytes 4 afid ++ enc_string uname ++ enc_string aname
  | TAttach _ fid afid uname aname =>
      le_bytes 4 fid ++ le_bytes 4 afid ++ enc_string uname ++ enc_string aname
  | TFlush _ oldtag => le_bytes 2 oldtag
  | TWalk _ fid newfid wnames =>
      le_bytes 4 fid ++ le_bytes 4 newfid ++ le_bytes 2 (vlen wnames) ++
      concat (map enc_string wnames)
  | TOpen _ fid mode => le_bytes 4 fid ++ [byte_of_Z mode]
  | TCreate _ fid name perm mode =>
      le_bytes 4 fid ++ enc_string name ++ le_bytes 4 perm ++ [byte_of_Z mode]
  | TRead _ fid offset count => le_bytes 4 fid ++ le_bytes 8 offset ++ le_bytes 4 count
  | TWrite _ fid offset data =>
      le_bytes 4 fid ++ le_bytes 8 offset ++ le_bytes 4 (vlen data) ++ data
  | TClunk _ fid | TRemove _ fid | TStat _ fid | TReferrals _ fid => le_bytes 4 fid
  | TWstat _ fid stat => le_bytes 4 fid ++ enc_sized_stat stat
  | TRenameAt _ olddirfid oldname newdirfid newname =>
      le_bytes 4 olddirfid ++ enc_string oldname ++ le_bytes 4 newdirfid ++ enc_string newname
  end.

Definition tbody_ok (m : TMessage) : Prop :=
  match m with
  | TVersion _ _ version => str_ok version
  | TAuth _ _ uname aname | TAttach _ _ _ uname aname => str_ok uname ∧ str_ok aname
  | TWalk _ _ _ wnames => vlen wnames ≤ MAXWELEM ∧ Forall str_ok wnames
  | TCreate _ _ name _ _ => str_ok name
  | TWrite _ _ _ data => vlen data ≤ u32_max
  | TWstat _ _ stat => stat_ok stat
  | TRenameAt _ _ oldname _ newname => str_ok oldname ∧ str_ok newname
  | _ => True
  end.

Definition rbody (m : RMessage) : bytes :=
  match m with
  | RVersion _ msize version => le_bytes 4 msize ++ enc_string version
  | RAuth _ qid | RAttach _ qid => enc_qid qid
  | RError _ ename => enc_string ename
  | RFlush _ | RClunk _ | RRemove _ | RWstat _ | RRenameAt _ => []
  | RWalk _ qids => le_bytes 2 (vlen qids) ++ concat (map enc_qid qids)
  | ROpen _ qid iounit | RCreate _ qid iounit => enc_qid qid ++ le_bytes 4 iounit
  | RRead _ data => le_bytes 4 (vlen data) ++ data
  | RWrite _ count => le_bytes 4 count
  | RStat _ stat => enc_sized_stat stat
  | RReferrals _ referrals => le_bytes 2 (vlen referrals) ++ concat (map enc_referral referrals)
  end.

Definition rbody_ok (m : RMessage) : Prop :=
  match m with
  | RVersion _ _ version => str_ok version
  | RError _ ename => str_ok ename
  | RWalk _ qids => vlen qids ≤ MAXWELEM
  | RRead _ data => vlen data ≤ u32_max
  | RStat _ stat => stat_ok stat
  | RReferrals _ referrals => vlen referrals ≤ u16_max ∧ Forall referral_ok referrals
  | _ => True
  end.

Definition frame_of (message_type tag : Z) (body : bytes) : bytes :=
  le_bytes 4 (7 + vlen body) ++ [byte_of_Z message_type] ++ le_bytes 2 tag ++ body.

(** ** The encoders produce the wire images *)

Lemma finish_frame_Ok ty tag body f :
  finish_frame (frame_prefix ty tag ++ body) = Ok f ↔
  7 + vlen body ≤ u32_max ∧ f = frame_of ty tag body.
Proof.
  unfold finish_frame, frame_prefix, push_u16, push_u8, push_u32, frame_of.
  rewrite app_nil_l, <- !app_assoc.
  assert (vlen (le_bytes 4 0 ++ [byte_of_Z ty] ++ le_bytes 2 tag ++ body) = 7 + vlen body) as El
    by (autorewrite with vlen; lia).
  replace (drop 4 _) with ([byte_of_Z ty] ++ le_bytes 2 tag ++ body)
    by (rewrite (drop_app_length' (le_bytes 4 0)) by (by rewrite length_le_bytes); done).
  pose proof (vlen_nonneg body). split.
  - intros E. inv_ok. rewrite El in *. split; [lia|done].
  - intros [H1 ->]. rewrite El. by rewrite try_from_in by lia.
Qed.

Lemma push_strings_Ok out names o :
  push_strings out names = Ok o ↔
  Forall str_ok names ∧ o = out ++ concat (map enc_string names).
Proof.
  revert out. induction names as [|n names IH]; intros out; simpl.
  - rewrite app_nil_r. naive_solver.
  - split.
    + intros E. inv_ok. apply push_string_Ok in H as [? ->]. apply IH in E as [? ->].
      rewrite <- app_assoc. by split; [constructor|].
    + intros [[Hn H]%Forall_cons ->]. rewrite push_string_enc by done. simpl. apply IH.
      by rewrite <- app_assoc.
Qed.

Lemma push_qids_enc out qids : push_qids out qids = out ++ concat (map enc_qid qids).
Proof.
  revert out; induction qids as [|q qids IH]; intros out; simpl; [by rewrite app_nil_r|].
  by rewrite IH, push_qid_enc, <- app_assoc.
Qed.

Lemma push_stat_Ok out s e o :
  Stat_encode s = Ok e → push_stat out e = Ok o ↔ stat_ok s ∧ o = out ++ enc_sized_stat s.
Proof.
  intros [Hb ->]%Stat_encode_Ok. unfold push_stat, push_u16, stat_ok, enc_sized_stat.
  pose proof (vlen_nonneg (enc_stat s)). split.
  - intros E. inv_ok. rewrite <- app_assoc. split; [lia|done].
  - intros [Hs ->]. rewrite try_from_in by lia. simpl. by rewrite <- app_assoc.
Qed.

Lemma stat_ok_encode s : stat_ok s → Stat_encode s = Ok (enc_stat s).
Proof.
  intros H. apply Stat_encode_Ok. split; [|done]. unfold stat_ok in H.
  rewrite vlen_enc_stat in H. lia.
Qed.

Lemma stat_encode_push_Ok out s o :
  (e ← Stat_encode s; push_stat out e) = Ok o ↔ stat_ok s ∧ o = out ++ enc_sized_stat s.
Proof.
  split.
  - intros E. inv_ok. by apply (push_stat_Ok out s x o).
  - intros H. pose proof (stat_ok_encode s (proj1 H)) as E. rewrite E. simpl.
    by apply (push_stat_Ok out s).
Qed.

Lemma encode_referral_Ok out r o :
  encode_referral out r = Ok o ↔ referral_ok r ∧ o = out ++ enc_referral r.
Proof.
  unfold encode_referral, referral_ok, push_u64. split.
  - intros E. apply Result_bind_Ok in E as ([] & Hv & E).
    apply Result_bind_Ok in E as (x & [Hs ->]%push_strings_Ok & [= <-]).
    split; [done|]. unfold enc_referral. simpl. rewrite app_nil_r, <- !app_assoc. done.
  - intros [[Hv Hs] ->]. apply Result_bind_Ok. exists (). split; [done|].
    apply Result_bind_Ok. eexists. split; [by apply push_strings_Ok|].
    unfold enc_referral. simpl. by rewrite app_nil_r, <- !app_assoc.
Qed.

Lemma push_referrals_Ok out rs o :
  push_referrals out rs = Ok o ↔ Forall referral_ok rs ∧ o = out ++ concat (map enc_referral rs).
Proof.
  revert out. induction rs as [|r rs IH]; intros out; simpl.
  - rewrite app_nil_r. naive_solver.
  - split.
    + intros E. inv_ok. apply encode_referral_Ok in H as [? ->]. apply IH in E as [? ->].
      rewrite <- app_assoc. by split; [constructor|].
    + intros [[Hn H]%Forall_cons ->].
      rewrite (proj2 (encode_referral_Ok out r _) (conj Hn eq_refl)). simpl. apply IH.
      by rewrite <- app_assoc.
Qed.

Lemma encode_tfields_Ok out m o :
  encode_tfields out m = Ok o ↔ tbody_ok m ∧ o = out ++ tbody m.
Proof.
  unfold push_u8, push_u16, push_u32, push_u64, MAXWELEM.
  destruct m; simpl; unfold push_u8, push_u16, push_u32, push_u64, MAXWELEM, str_ok;
    rewrite <- ?app_assoc.
  - rewrite push_string_Ok, <- app_assoc. naive_solver.
  - rewrite Result_bind_Ok. setoid_rewrite push_string_Ok. split.
    + intros (? & [? ->] & ? & ->). by rewrite <- !app_assoc.
    + intros [[] ->]. eexists; split; [done|]. by rewrite <- !app_assoc.
  - rewrite Result_bind_Ok. setoid_rewrite push_string_Ok. split.
    + intros (? & [? ->] & ? & ->). by rewrite <- !app_assoc.
    + intros [[] ->]. eexists; split; [done|]. by rewrite <- !app_assoc.
  - naive_solver.
  - destruct (16 <? vlen wnames) eqn:E; [apply Z.ltb_lt in E; naive_solver lia|].
    apply Z.ltb_ge in E. pose proof (vlen_nonneg wnames).
    rewrite try_from_in by (unfold u16_max; lia). simpl. rewrite push_strings_Ok, <- !app_assoc.
    naive_solver.
  - naive_solver.
  - rewrite Result_bind_Ok. setoid_rewrite push_string_Ok. split.
    + intros (? & [? ->] & [= <-]). by rewrite <- !app_assoc.
    + intros [? ->]. eexists; split; [done|]. by rewrite <- !app_assoc.
  - naive_solver.
  - pose proof (vlen_nonneg data). rewrite Result_bind_Ok. setoid_rewrite ok_or_Ok.
    setoid_rewrite try_from_Some. split.
    + intros (? & [-> ?] & [= <-]). rewrite <- !app_assoc. split; [lia|done].
    + intros [? ->]. eexists; split; [by split; [|lia]|]. by rewrite <- !app_assoc.
  - naive_solver.
  - naive_solver.
  - naive_solver.
  - rewrite stat_encode_push_Ok, <- app_assoc. naive_solver.
  - rewrite Result_bind_Ok. setoid_rewrite push_string_Ok. split.
    + intros (? & [? ->] & ? & ->). by rewrite <- !app_assoc.
    + intros [[] ->]. eexists; split; [done|]. by rewrite <- !app_assoc.
  - naive_solver.
Qed.

Lemma encode_rfields_Ok out m o :
  encode_rfields out m = Ok o ↔ rbody_ok m ∧ o = out ++ rbody m.
Proof.
  destruct m; simpl; unfold push_u8, push_u16, push_u32, push_u64, MAXWELEM, str_ok;
    rewrite ?push_qid_enc, <- ?app_assoc, ?app_nil_r; try naive_solver.
  - rewrite push_string_Ok, <- app_assoc. naive_solver.
  - rewrite push_string_Ok. naive_solver.
  - destruct (16 <? vlen qids) eqn:E; [apply Z.ltb_lt in E; naive_solver lia|].
    apply Z.ltb_ge in E. pose proof (vlen_nonneg qids).
    rewrite try_from_in by (unfold u16_max; lia). simpl. rewrite push_qids_enc, <- !app_assoc.
    naive_solver.
  - pose proof (vlen_nonneg data). rewrite Result_bind_Ok. setoid_rewrite ok_or_Ok.
    setoid_rewrite try_from_Some. split.
    + intros (? & [-> ?] & [= <-]). rewrite <- !app_assoc. split; [lia|done].
    + intros [? ->]. eexists; split; [by split; [|lia]|]. by rewrite <- !app_assoc.
  - rewrite stat_encode_push_Ok. naive_solver.
  - pose proof (vlen_nonneg referrals). rewrite Result_bind_Ok. setoid_rewrite ok_or_Ok.
    setoid_rewrite try_from_Some. setoid_rewrite push_referrals_Ok. split.
    + intros (? & [-> ?] & ? & ->). rewrite <- !app_assoc. split; [split; [lia|done]|done].
    + intros [[] ->]. eexists; split; [by split; [|lia]|]. by rewrite <- !app_assoc.
Qed.

Lemma encode_tmessage_Ok m f :
  encode_tmessage m = Ok f ↔
  tbody_ok m ∧ 7 + vlen (tbody m) ≤ u32_max ∧
  f = frame_of (t_message_type m) (t_tag m) (tbody m).
Proof.
  unfold encode_tmessage. rewrite Result_bind_Ok. setoid_rewrite encode_tfields_Ok. split.
  - intros (? & [? ->] & E%finish_frame_Ok). done.
  - intros (? & H). eexists. split; [done|]. by apply finish_frame_Ok.
Qed.

Lemma encode_rmessage_Ok m f :
  encode_rmessage m = Ok f ↔
  rbody_ok m ∧ 7 + vlen (rbody m) ≤ u32_max ∧
  f = frame_of (r_message_type m) (r_tag m) (rbody m).
Proof.
  unfold encode_rmessage. rewrite Result_bind_Ok. setoid_rewrite encode_rfields_Ok. split.
  - intros (? & [? ->] & E%finish_frame_Ok). done.
  - intros (? & H). eexists. split; [done|]. by apply finish_frame_Ok.
Qed.

(** ** The frame header *)

Lemma vlen_frame_of ty tag b : vlen (frame_of ty tag b) = 7 + vlen b.
Proof. unfold frame_of. autorewrite with vlen. lia. Qed.

Lemma frame_of_parts ty tag b :
  is_u8 ty → is_u16 tag → 7 + vlen b ≤ u32_max →
  let f := frame_of ty tag b in
  le_val (take 4 f) = 7 + vlen b ∧ frame_u8 f 4 = ty ∧
  le_val (take 2 (drop 5 f)) = tag ∧ zdrop FRAME_HEADER_SIZE f = b.
Proof.
  intros Hty Htag Hb f. pose proof (vlen_nonneg b). unfold f, frame_of.
  unfold in_range, u8_max, u16_max, u32_max in *.
  split; [|split; [|split]].
  - rewrite take_app_length' by (by rewrite length_le_bytes).
    apply le_val_le_bytes. change (256 ^ Z.of_nat 4) with 4294967296. lia.
  - unfold frame_u8. rewrite lookup_app_r by (rewrite length_le_bytes; lia).
    rewrite length_le_bytes. simpl. rewrite byte_to_of_Z, Z.mod_small; lia.
  - rewrite app_assoc, drop_app_length' by (by rewrite length_app, length_le_bytes).
    rewrite take_app_length' by (by rewrite length_le_bytes).
    apply le_val_le_bytes. change (256 ^ Z.of_nat 2) with 65536. lia.
  - unfold zdrop. rewrite !app_assoc. apply drop_app_length'.
    by rewrite !length_app, !length_le_bytes.
Qed.

(** Every frame the size check admits splits into header and body. *)
Lemma frame_split f :
  validate_frame_size f = Ok () →
  ∃ ty tag b, is_u8 ty ∧ is_u16 tag ∧ 7 + vlen b ≤ u32_max ∧ f = frame_of ty tag b.
Proof.
  unfold validate_frame_size. destruct (_ <? FRAME_HEADER_SIZE) eqn:E1; [done|].
  apply Z.ltb_ge in E1. unfold FRAME_HEADER_SIZE in E1. intros E. inv_ok.
  destruct (_ =? _) eqn:E2; [|done]. apply Z.eqb_eq in E2. clear E.
  unfold vlen in E1, E2, H. 
  destruct f as [|b0 [|b1 [|b2 [|b3 [|ty [|t0 [|t1 b]]]]]]]; simpl in E1; try lia.
  exists (byte_to_Z ty), (le_val [t0; t1]), b.
  pose proof (byte_to_Z_range ty). pose proof (le_val_bound [t0; t1]) as Ht.
  unfold in_range, u8_max, u16_max, vlen in *. simpl length in *.
  change (256 ^ Z.of_nat 2) with 65536 in Ht.
  split; [lia|split; [lia|split; [lia|]]].
  unfold frame_of. rewrite byte_of_to_Z.
  change 2%nat with (length [t0; t1]). rewrite le_bytes_le_val.
  replace (le_bytes 4 _) with [b0; b1; b2; b3]; [done|].
  rewrite <- (le_bytes_le_val [b0; b1; b2; b3]). simpl take in E2. rewrite E2.
  f_equal. unfold vlen. lia.
Qed.

Lemma frame_of_valid ty tag b :
  is_u8 ty → is_u16 tag → 7 + vlen b ≤ u32_max →
  validate_frame_size (frame_of ty tag b) = Ok ().
Proof.
  intros Hty Htag Hb. unfold validate_frame_size. pose proof (vlen_nonneg b).
  rewrite vlen_frame_of. rewrite (proj2 (Z.ltb_ge _ _)) by (unfold FRAME_HEADER_SIZE; lia).
  rewrite try_from_in by lia. simpl.
  destruct (frame_of_parts ty tag b Hty Htag Hb) as (-> & _).
  by rewrite Z.eqb_refl.
Qed.

Section decode_frame.
Context {A : Type} (p : Z → Z → Parser A).

Lemma decode_frame_enc ty tag b m :
  is_u8 ty → is_u16 tag → 7 + vlen b ≤ u32_max →
  decodes (p ty tag) b m → decode_frame p (frame_of ty tag b) = Ok m.
Proof.
  intros Hty Htag Hb Hd. unfold decode_frame. rewrite frame_of_valid by done. simpl.
  destruct (frame_of_parts ty tag b Hty Htag Hb) as (_ & -> & -> & ->).
  pose proof (vlen_nonneg b).
  destruct (Hd (Cursor_new b) []) as (c & -> & Hc).
  { rewrite app_nil_r. apply cur_at_new. unfold u32_max, usize_max, u64_max in *. lia. }
  simpl. by rewrite (cur_at_remaining _ _ Hc).
Qed.

Lemma decode_frame_Ok f m R :
  (∀ ty tag, is_u16 tag → parses (p ty tag) (R ty tag)) →
  decode_frame p f = Ok m →
  ∃ ty tag b, is_u8 ty ∧ is_u16 tag ∧ 7 + vlen b ≤ u32_max ∧
    f = frame_of ty tag b ∧ R ty tag m b.
Proof.
  intros Hp E. unfold decode_frame in E.
  destruct (validate_frame_size f) as [[]|] eqn:Ev; [|done].
  apply frame_split in Ev as (ty & tag & b & Hty & Htag & Hb & ->).
  destruct (frame_of_parts ty tag b Hty Htag Hb) as (_ & E1 & E2 & E3).
  simpl in E. rewrite E1, E2, E3 in E. inv_ok. destruct x as [m' c].
  pose proof (vlen_nonneg b).
  destruct (Hp ty tag Htag (Cursor_new b) b m' c) as (u & tl & -> & Hc & HR).
  { apply cur_at_new. unfold u32_max, usize_max, u64_max in *. lia. }
  { done. }
  simpl in E. rewrite (cur_at_remaining _ _ Hc) in E.
  destruct (vlen tl =? 0) eqn:El; [|done]. apply Z.eqb_eq in El. simpl in E. inv_ok.
  destruct tl as [|x tl]; [|rewrite vlen_cons in El; pose proof (vlen_nonneg tl); lia].
  rewrite app_nil_r in *. exists ty, tag, u. auto.
Qed.
End decode_frame.

(** ** Parsing the bodies *)

Lemma decodes_stat s : Stat_wf s → stat_ok s → decodes cursor_stat (enc_sized_stat s) s.
Proof.
  intros Hwf Hs. unfold stat_ok in Hs. pose proof (vlen_nonneg (enc_stat s)).
  eapply decodes_bind; [by apply decodes_u16|].
  eapply decodes_bind_last; [by apply decodes_bytes|]. apply decodes_plift.
  apply Stat_decode_enc; [done|]. rewrite vlen_enc_stat in Hs. lia.
Qed.

Lemma parses_stat : parses cursor_stat (λ s used, used = enc_sized_stat s ∧ stat_ok s ∧ Stat_wf s).
Proof.
  intros c bs s c' Hat E. unfold cursor_stat in E. do 2 parse_step E.
  destruct (parses_plift _ _ _ _ _ Hat E) as (u1 & tl1 & -> & Hc & -> & Hd).
  apply Stat_decode_Ok in Hd as (Hwf & Hb & ->). subst.
  exists (enc_sized_stat s), tl1. unfold enc_sized_stat, stat_ok. rewrite <- app_assoc.
  unfold in_range in *. naive_solver.
Qed.

Lemma decodes_referral r :
  Referral_wf r → referral_ok r → decodes decode_referral (enc_referral r) r.
Proof.
  intros [Hg Hv] [Hval Hs]. repeat (apply Forall_cons in Hs as [? Hs]).
  unfold decode_referral, enc_referral.
  do 7 (eapply decodes_bind; [by auto with r9p|]).
  eapply decodes_bind_last; [by auto with r9p|].
  eapply decodes_bind_last; [by apply decodes_plift; destruct r|]. destruct r; apply decodes_ret.
Qed.

Lemma parses_referral :
  parses decode_referral (λ r used, used = enc_referral r ∧ referral_ok r ∧ Referral_wf r).
Proof.
  intros c bs r c' Hat E. unfold decode_referral in E. do 8 parse_step E. cbv zeta in E.
  parse_step E. unfold mret, Parser_ret in E. simplify_eq. destruct v7.
  match goal with H : validate ?r = Ok _ |- _ => exists (enc_referral r) end.
  eexists. split; [unfold enc_referral; by rewrite <- !app_assoc|].
  split; [done|]. split; [done|]. unfold referral_ok, Referral_wf. simpl.
  rewrite !Forall_cons, Forall_nil. done.
Qed.

#[export] Hint Resolve decodes_stat parses_stat parses_referral : r9p.

Lemma parses_strings n :
  parses (prepeat n cursor_string)
    (λ vs used, used = concat (map enc_string vs) ∧ length vs = n ∧ Forall str_ok vs).
Proof. apply parses_repeat, parses_string. Qed.

Lemma parses_qids n :
  parses (prepeat n cursor_qid)
    (λ vs used, used = concat (map enc_qid vs) ∧ length vs = n ∧ Forall Qid_wf vs).
Proof. apply parses_repeat, parses_qid. Qed.

Lemma parses_referrals n :
  parses (prepeat n decode_referral)
    (λ vs used, used = concat (map enc_referral vs) ∧ length vs = n ∧
       Forall (λ r, referral_ok r ∧ Referral_wf r) vs).
Proof. apply parses_repeat, parses_referral. Qed.

#[export] Hint Resolve parses_strings parses_qids parses_referrals : r9p.

(** Decides the type tests of a decoder on a known message type. *)
Ltac decide_type :=
  repeat match goal with
  | |- context [if (?a =? ?b) then _ else _] =>
      let r := eval vm_compute in (a =? b) in change (a =? b) with r; cbv iota
  end.

Lemma decode_tbody_decodes m :
  TMessage_wf m → tbody_ok m → decodes (decode_tbody (t_message_type m) (t_tag m)) (tbody m) m.
Proof.
  intros [Ht Hwf] Hok. unfold str_ok in *.
  destruct m; cbn [t_message_type t_tag tbody tbody_ok] in *; unfold decode_tbody;
    decide_type; destruct_and?;
    repeat (eapply decodes_bind; [by auto with r9p|]);
    try (eapply decodes_map; [by auto with r9p|done]).
  - (* Twalk *)
    pose proof (vlen_nonneg wnames). unfold MAXWELEM in *.
    eapply decodes_bind; [apply decodes_u16; unfold in_range, u16_max; lia|].
    rewrite (proj2 (Z.ltb_ge _ _)) by done.
    eapply decodes_map; [|done]. unfold vlen. rewrite Nat2Z.id. apply decodes_repeat.
    eapply Forall_impl; [done|]. intros s Hs. by apply decodes_string.
  - (* Twrite *)
    pose proof (vlen_nonneg data).
    eapply decodes_bind; [apply decodes_u32; done|].
    eapply (decodes_bind _ _ []); [apply decodes_plift|].
    + rewrite try_from_in; [done|]. unfold u32_max, usize_max, u64_max in *. lia.
    + eapply decodes_map; [by apply decodes_bytes|done].
Qed.

(** What a body parser establishes of the message it returns. *)
Definition tbody_rel (ty tag : Z) (m : TMessage) (used : bytes) : Prop :=
  used = tbody m ∧ tbody_ok m ∧ TMessage_wf m ∧ t_tag m = tag ∧ t_message_type m = ty.

Definition rbody_rel (ty tag : Z) (m : RMessage) (used : bytes) : Prop :=
  used = rbody m ∧ rbody_ok m ∧ RMessage_wf m ∧ r_tag m = tag ∧ r_message_type m = ty.

(** Runs a body parser backwards to its end, and names the message it returned. *)
Ltac parse_body E :=
  repeat parse_step E;
  try (unfold pfail in E; discriminate E);
  unfold mret, Parser_ret in E; simplify_eq.

(** Closes a parsed branch: the consumed bytes are the message's wire image, and
    the field facts collected on the way are its range and size conditions. *)
Ltac parsed Hat :=
  match goal with
  | |- ∃ used tl, _ ∧ _ ∧ tbody_rel _ _ ?m used => exists (tbody m); unfold tbody_rel
  | |- ∃ used tl, _ ∧ _ ∧ rbody_rel _ _ ?m used => exists (rbody m); unfold rbody_rel
  end;
  eexists; split; [|split; [exact Hat|]];
  [cbn [tbody rbody]; rewrite <- ?app_assoc; reflexivity
  |split; [reflexivity|];
   unfold TMessage_wf, RMessage_wf, tbody_ok, rbody_ok;
   cbn [t_tag r_tag t_message_type r_message_type]; unfold str_ok; tauto].

Lemma decode_tbody_parses ty tag :
  is_u16 tag → parses (decode_tbody ty tag) (tbody_rel ty tag).
Proof.
  intros Htag c bs m c' Hat E. unfold decode_tbody in E.
  repeat match type of E with
  | (if (ty =? ?t) then _ else _) _ = _ =>
      let Et := fresh "Et" in
      destruct (ty =? t) eqn:Et;
      [apply Z.eqb_eq in Et; subst ty
      |clear Et]
  end.
  5:{ (* Twalk *)
    do 3 parse_step E. destruct (MAXWELEM <? _) eqn:En; [done|]. apply Z.ltb_ge in En.
    parse_body E. match goal with H : length ?l = _ |- _ => rename l into names; rename H into Hl end.
    assert (v1 = vlen names) as -> by (unfold vlen, in_range in *; lia).
    parsed Hat. }
  8:{ (* Twrite *)
    do 3 parse_step E. parse_step E. inv_ok. parse_body E.
    match goal with |- context [TWrite _ _ _ ?d] =>
      assert (vlen d ≤ u32_max) by (unfold in_range in *; lia) end.
    parsed Hat. }
  all: parse_body E; parsed Hat.
Qed.

Lemma decode_rbody_decodes m :
  RMessage_wf m → rbody_ok m → decodes (decode_rbody (r_message_type m) (r_tag m)) (rbody m) m.
Proof.
  intros [Ht Hwf] Hok. unfold str_ok in *.
  destruct m; cbn [r_message_type r_tag rbody rbody_ok] in *; unfold decode_rbody;
    decide_type; destruct_and?;
    repeat (eapply decodes_bind; [by auto with r9p|]);
    try (eapply decodes_map; [by auto with r9p|done]); try apply decodes_ret.
  - (* Rwalk *)
    pose proof (vlen_nonneg qids). unfold MAXWELEM in *.
    eapply decodes_bind; [apply decodes_u16; unfold in_range, u16_max; lia|].
    rewrite (proj2 (Z.ltb_ge _ _)) by done.
    eapply decodes_map; [|done]. unfold vlen. rewrite Nat2Z.id. apply decodes_repeat.
    eapply Forall_impl; [done|]. intros s Hs. by apply decodes_qid.
  - (* Rread *)
    pose proof (vlen_nonneg data).
    eapply decodes_bind; [apply decodes_u32; done|].
    eapply (decodes_bind _ _ []); [apply decodes_plift|].
    + rewrite try_from_in; [done|]. unfold u32_max, usize_max, u64_max in *. lia.
    + eapply decodes_map; [by apply decodes_bytes|done].
  - (* Rreferrals *)
    pose proof (vlen_nonneg referrals).
    eapply decodes_bind; [by apply decodes_u16|].
    eapply decodes_map; [|done]. unfold vlen. rewrite Nat2Z.id. apply decodes_repeat.
    apply Forall_forall. intros r Hr. rewrite Forall_forall in *.
    apply decodes_referral; auto.
Qed.

Lemma decode_rbody_parses ty tag :
  is_u16 tag → parses (decode_rbody ty tag) (rbody_rel ty tag).
Proof.
  intros Htag c bs m c' Hat E. unfold decode_rbody in E.
  repeat match type of E with
  | (if (ty =? ?t) then _ else _) _ = _ =>
      let Et := fresh "Et" in
      destruct (ty =? t) eqn:Et;
      [apply Z.eqb_eq in Et; subst ty
      |clear Et]
  end.
  6:{ (* Rwalk *)
    do 1 parse_step E. destruct (MAXWELEM <? _) eqn:En; [done|]. apply Z.ltb_ge in En.
    parse_body E. match goal with H : length ?l = _ |- _ => rename l into names; rename H into Hl end.
    assert (v = vlen names) as -> by (unfold vlen, in_range in *; lia).
    parsed Hat. }
  8:{ (* Rread *)
    do 2 parse_step E. inv_ok. parse_body E.
    match goal with |- context [RRead _ ?d] =>
      assert (vlen d ≤ u32_max) by (unfold in_range in *; lia) end.
    parsed Hat. }
  14:{ (* Rreferrals *)
    parse_body E. match goal with H : length ?l = _ |- _ => rename l into rs; rename H into Hl end.
    assert (v = vlen rs) as -> by (unfold vlen, in_range in *; lia).
    match goal with H : Forall _ rs |- _ => apply Forall_and in H as [? ?] end.
    assert (vlen rs ≤ u16_max) by (unfold in_range in *; lia). parsed Hat. }
  all: parse_body E; parsed Hat.
Qed.

(** ** Both codecs are bijections *)

Lemma t_message_type_u8 m : is_u8 (t_message_type m).
Proof. destruct m; vm_compute; split; discriminate. Qed.

Lemma r_message_type_u8 m : is_u8 (r_message_type m).
Proof. destruct m; vm_compute; split; discriminate. Qed.

Lemma decode_tmessage_iff f m :
  decode_tmessage f = Ok m ↔ TMessage_wf m ∧ encode_tmessage m = Ok f.
Proof.
  rewrite encode_tmessage_Ok. split.
  - intros E. apply (decode_frame_Ok _ _ _ tbody_rel) in E as
      (ty & tag & b & ? & ? & ? & -> & -> & ? & ? & <- & <-); [done|].
    intros; by apply decode_tbody_parses.
  - intros (Hwf & Hok & Hb & ->). apply decode_frame_enc; [apply t_message_type_u8|apply Hwf|done|].
    by apply decode_tbody_decodes.
Qed.

Lemma decode_rmessage_iff f m :
  decode_rmessage f = Ok m ↔ RMessage_wf m ∧ encode_rmessage m = Ok f.
Proof.
  rewrite encode_rmessage_Ok. split.
  - intros E. apply (decode_frame_Ok _ _ _ rbody_rel) in E as
      (ty & tag & b & ? & ? & ? & -> & -> & ? & ? & <- & <-); [done|].
    intros; by apply decode_rbody_parses.
  - intros (Hwf & Hok & Hb & ->). apply decode_frame_enc; [apply r_message_type_u8|apply Hwf|done|].
    by apply decode_rbody_decodes.
Qed.

(** For T-messages, decoding accepts a frame exactly when it is the encoding
    of a well-typed message: nothing is lost in a round trip, every accepted
    frame is canonical, and a decoded message is in range. *)
Theorem tmessage_wire_bijective f m :
  decode_tmessage f = Ok m ↔ TMessage_wf m ∧ encode_tmessage m = Ok f.
Proof. apply decode_tmessage_iff. Qed.

(** C6: the same bijection for R-messages, referral validation included. *)
Theorem rmessage_wire_bijective f m :
  decode_rmessage f = Ok m ↔ RMessage_wf m ∧ encode_rmessage m = Ok f.
Proof. apply decode_rmessage_iff. Qed.
