(* ===== verification/FrameIO.v ===== *)
(** Reading and writing whole frames over a byte stream: the second half of
    [crates/core/src/codec.rs].

    A [Read] is the sequence of outcomes its [read] calls will have: a chunk of
    bytes, of which a call takes what fits in its buffer, or an I/O error; the
    end of the sequence is end of file.  Any behaviour of a reader is such a
    sequence, so the theorems quantify over all segmentations of a stream. *)
From S2P Require Import Prelude Errors Qid Stat StatProps Referral Message Codec CodecProps.

Inductive IoErrorKind :=
| Interrupted | ConnectionReset | BrokenPipe | TimedOut | WouldBlock | UnexpectedEof | InvalidData | OtherKind.

#[export] Instance IoErrorKind_eq_dec : EqDecision IoErrorKind.
Proof. solve_decision. Defined.

Record IoError := IoError_mk { io_kind : IoErrorKind; io_display : bytes }.

Inductive ReadEvent := Chunk (bs : bytes) | Fail (e : IoError).

Definition Reader := list ReadEvent.

(** [reader.read(&mut buf)] with [n] bytes of buffer. *)
Definition read (n : nat) (r : Reader) : (IoError + bytes) * Reader :=
  match r with
  | [] => (inr [], [])
  | Chunk bs :: r =>
      (inr (take n bs), match drop n bs with [] => r | rest => Chunk rest :: r end)
  | Fail e :: r => (inl e, r)
  end.

(** A bound on the number of [read] calls that can make progress. *)
Fixpoint reader_fuel (r : Reader) : nat :=
  match r with
  | [] => 1
  | Chunk bs :: r => S (length bs + reader_fuel r)
  | Fail _ :: r => S (reader_fuel r)
  end.

(** The [while prefix_len < 4] loop; [None] is fuel exhaustion, which
    [prefix_loop_total] excludes. *)
Fixpoint prefix_loop (fuel : nat) (prefix : bytes) (r : Reader)
    : option (Result (option bytes) * Reader) :=
  match fuel with
  | O => None
  | S fuel =>
      if (4 <=? length prefix)%nat then Some (Ok (Some prefix), r)
      else
        match read (4 - length prefix) r with
        | (inr [], r) =>
            if (length prefix =? 0)%nat then Some (Ok None, r)
            else Some (Err (from_static "truncated 9P frame size"), r)
        | (inr bs, r) => prefix_loop fuel (prefix ++ bs) r
        | (inl e, r) =>
            if decide (io_kind e = Interrupted) then prefix_loop fuel prefix r
            else if (length prefix =? 0)%nat &&
                    (bool_decide (io_kind e = ConnectionReset) ||
                     bool_decide (io_kind e = BrokenPipe))
            then Some (Ok None, r)
            else Some (Err (Error_new (bstr "read 9P frame size: " ++ io_display e)), r)
        end
  end.

(** [Read::read_exact] of the standard library. *)
Fixpoint read_exact_loop (fuel : nat) (want : nat) (acc : bytes) (r : Reader)
    : option ((IoError + bytes) * Reader) :=
  match fuel with
  | O => None
  | S fuel =>
      if (want =? 0)%nat then Some (inr acc, r)
      else
        match read want r with
        | (inr [], r) =>
            Some (inl (IoError_mk UnexpectedEof (bstr "failed to fill whole buffer")), r)
        | (inr bs, r) => read_exact_loop fuel (want - length bs) (acc ++ bs) r
        | (inl e, r) =>
            if decide (io_kind e = Interrupted) then read_exact_loop fuel want acc r
            else Some (inl e, r)
        end
  end.

Definition unreachable_error : Error := from_static "unreachable".

Definition read_exact (want : nat) (r : Reader) : (IoError + bytes) * Reader :=
  default (inr [], r) (read_exact_loop (S (reader_fuel r)) want [] r).

Definition read_prefix (r : Reader) : Result (option bytes) * Reader :=
  default (Err unreachable_error, r) (prefix_loop (S (reader_fuel r)) [] r).

(** [reader.read_exact(&mut frame[4..])], and the whole frame. *)
Definition read_body (prefix : bytes) (rest_len : Z) : M Reader (option bytes) := λ r,
  match read_exact (Z.to_nat rest_len) r with
  | (inr rest, r) => (Ok (Some (prefix ++ rest)), r)
  | (inl e, r) => (Err (Error_new (bstr "read 9P frame body: " ++ io_display e)), r)
  end.

Definition read_frame_checked (max_frame_size : Z) : M Reader (option bytes) :=
  p ← (read_prefix : M Reader (option bytes));
  match p with
  | None => mret None
  | Some prefix =>
      let size := le_val prefix in
      if size <? FRAME_HEADER_SIZE
      then throw (Error_new (bstr "short 9P frame size " ++ dec size))
      else if max_frame_size <? size
      then throw (Error_new (bstr "9P frame size " ++ dec size ++ bstr " exceeds msize " ++
                             dec max_frame_size))
      else
        rest_len ← lift (ok_or (try_from usize_max (size - 4))
                               (Error_new (bstr "oversized frame size " ++ dec size)));
        read_body prefix rest_len
  end.

Definition read_tmessage_checked (max_frame_size : Z) : M Reader (option TMessage) :=
  f ← read_frame_checked max_frame_size;
  match f with
  | None => mret None
  | Some frame => m ← lift (decode_tmessage frame); mret (Some m)
  end.

Definition read_rmessage_checked (max_frame_size : Z) : M Reader (option RMessage) :=
  f ← read_frame_checked max_frame_size;
  match f with
  | None => mret None
  | Some frame => m ← lift (decode_rmessage frame); mret (Some m)
  end.

(** ** Writers

    The outcomes of the writer's calls in order; past the end every call
    succeeds.  A failing [write_all] may have sent a prefix. *)
Inductive WriteEvent := Wrote | WroteSome (n : nat) (e : IoError).

Record Writer := Writer_mk { w_out : bytes; w_script : list WriteEvent }.

Definition write_all (bs : bytes) (w : Writer) : option IoError * Writer :=
  match w_script w with
  | WroteSome n e :: s => (Some e, Writer_mk (w_out w ++ take n bs) s)
  | Wrote :: s => (None, Writer_mk (w_out w ++ bs) s)
  | [] => (None, Writer_mk (w_out w ++ bs) [])
  end.

Definition flush_writer (w : Writer) : option IoError * Writer :=
  match w_script w with
  | WroteSome _ e :: s => (Some e, Writer_mk (w_out w) s)
  | Wrote :: s => (None, Writer_mk (w_out w) s)
  | [] => (None, w)
  end.

(** [writer.write_all(&frame).and_then(|_| writer.flush()).map_err(..)]. *)
Definition write_frame (context : string) (frame : bytes) : M Writer unit := λ w,
  match write_all frame w with
  | (Some e, w) => (Err (Error_new (bstr context ++ io_display e)), w)
  | (None, w) =>
      match flush_writer w with
      | (Some e, w) => (Err (Error_new (bstr context ++ io_display e)), w)
      | (None, w) => (Ok (), w)
      end
  end.

Definition write_tmessage_checked (msize : Z) (m : TMessage) : M Writer unit :=
  frame ← lift (encode_tmessage_checked m msize);
  write_frame "write 9P request frame: " frame.

Definition write_rmessage_checked (msize : Z) (m : RMessage) : M Writer unit :=
  frame ← lift (encode_rmessage_checked m msize);
  write_frame "write 9P response frame: " frame.

(** ** Termination *)

Lemma read_fuel n r out r' :
  (0 < n)%nat → read n r = (out, r') → out ≠ inr [] → (reader_fuel r' < reader_fuel r)%nat.
Proof.
  intros Hn E Ho. destruct r as [|[bs|e] r]; simpl in E; simplify_eq; simpl; [|lia].
  destruct bs as [|b bs]; [by rewrite take_nil in Ho|].
  destruct n as [|n]; [lia|]. simpl. pose proof (length_drop bs n) as Hd.
  destruct (drop n bs) as [|x l]; simpl in *; lia.
Qed.

Lemma prefix_loop_total fuel prefix r :
  (reader_fuel r < fuel)%nat → is_Some (prefix_loop fuel prefix r).
Proof.
  revert prefix r. induction fuel as [|fuel IH]; intros prefix r Hf; [lia|]. cbn [prefix_loop].
  destruct (4 <=? length prefix)%nat eqn:E4; [by eexists|]. apply Nat.leb_gt in E4.
  destruct (read (4 - length prefix) r) as [out r'] eqn:Er.
  pose proof (λ H, read_fuel _ _ _ _ H Er) as Hlt. specialize (Hlt ltac:(lia)).
  destruct out as [e|[|b bs]]; repeat case_match; try (by eexists); apply IH;
    specialize (Hlt ltac:(done)); lia.
Qed.

Lemma read_exact_loop_total fuel want acc r :
  (reader_fuel r < fuel)%nat → is_Some (read_exact_loop fuel want acc r).
Proof.
  revert want acc r. induction fuel as [|fuel IH]; intros want acc r Hf; [lia|]. cbn [read_exact_loop].
  destruct (want =? 0)%nat eqn:E0; [by eexists|]. apply Nat.eqb_neq in E0.
  destruct (read want r) as [out r'] eqn:Er.
  pose proof (λ H, read_fuel _ _ _ _ H Er) as Hlt. specialize (Hlt ltac:(lia)).
  destruct out as [e|[|b bs]]; repeat case_match; try (by eexists); apply IH;
    specialize (Hlt ltac:(done)); lia.
Qed.

(** ** Segmentation

    A reader that only delivers data and interruptions: what the frame layer
    returns depends on the bytes alone. *)

Definition clean_event (ev : ReadEvent) : Prop :=
  match ev with Chunk bs => bs ≠ [] | Fail e => io_kind e = Interrupted end.

Definition clean (r : Reader) : Prop := Forall clean_event r.

Definition event_data (ev : ReadEvent) : bytes :=
  match ev with Chunk bs => bs | Fail _ => [] end.

Definition stream (r : Reader) : bytes := concat (map event_data r).

Lemma read_clean n r out r' :
  (0 < n)%nat → clean r → read n r = (out, r') →
  clean r' ∧
  match out with
  | inr [] => stream r = [] ∧ stream r' = []
  | inr bs => stream r = bs ++ stream r' ∧ (length bs ≤ n)%nat
  | inl e => io_kind e = Interrupted ∧ stream r' = stream r
  end.
Proof.
  intros Hn Hc E. destruct r as [|[bs|e] r]; simpl in E.
  - simplify_eq. auto.
  - apply Forall_cons in Hc as [Hb Hc]. simplify_eq. simpl in Hb.
    destruct bs as [|b bs]; [done|]. destruct n as [|n]; [lia|]. simpl.
    pose proof (take_drop n bs) as Htd. pose proof (length_take bs n) as Hlt.
    destruct (drop n bs) as [|x l] eqn:Ed.
    + split; [done|]. rewrite app_nil_r in Htd. rewrite Htd. unfold stream; simpl.
      split; [done|]. rewrite Htd in Hlt. lia.
    + split; [by constructor|]. unfold stream; simpl. split; [|lia].
      by rewrite <- Htd at 1; simplify_list_eq.
  - apply Forall_cons in Hc as [He Hc]. simplify_eq. auto.
Qed.

Lemma prefix_loop_clean fuel prefix r :
  clean r → (reader_fuel r < fuel)%nat → (length prefix ≤ 4)%nat →
  (4 ≤ length prefix + length (stream r))%nat →
  ∃ r' a, prefix_loop fuel prefix r = Some (Ok (Some (prefix ++ a)), r') ∧
    clean r' ∧ stream r = a ++ stream r' ∧ length (prefix ++ a) = 4%nat.
Proof.
  revert prefix r. induction fuel as [|fuel IH]; intros prefix r Hc Hf Hp Hl; [lia|]. cbn [prefix_loop].
  destruct (4 <=? length prefix)%nat eqn:E4.
  { apply Nat.leb_le in E4. exists r, []. rewrite app_nil_r. split; [done|split; [done|split; [done|lia]]]. }
  apply Nat.leb_gt in E4.
  destruct (read (4 - length prefix) r) as [out r'] eqn:Er.
  pose proof (λ H, read_fuel _ _ _ _ H Er) as Hlt. specialize (Hlt ltac:(lia)).
  destruct (λ H, read_clean _ _ _ _ H Hc Er) as [Hc' Hout]; [lia|].
  destruct out as [e|[|b bs]].
  - destruct Hout as [Hk Hs]. rewrite decide_True by done.
    specialize (Hlt ltac:(done)).
    destruct (IH prefix r') as (r2 & a & ? & ? & ? & ?); [done|lia|lia|rewrite Hs; lia|].
    exists r2, a. rewrite <- Hs. auto.
  - destruct Hout as [Hs _]. rewrite Hs in Hl. simpl in Hl. lia.
  - destruct Hout as [Hs Hb]. specialize (Hlt ltac:(done)).
    rewrite Hs, length_app in Hl. simpl length in *.
    destruct (IH (prefix ++ b :: bs) r') as (r2 & a & -> & ? & Hs2 & ?);
      [done|lia|rewrite length_app; simpl; lia|rewrite length_app; simpl; lia|].
    exists r2, (b :: bs ++ a). rewrite <- app_assoc in *. simpl in *.
    split; [done|split; [done|split; [|done]]]. rewrite Hs, Hs2. simpl. by rewrite app_assoc.
Qed.

Lemma read_exact_loop_clean fuel want acc r :
  clean r → (reader_fuel r < fuel)%nat → (want ≤ length (stream r))%nat →
  ∃ r' a, read_exact_loop fuel want acc r = Some (inr (acc ++ a), r') ∧
    clean r' ∧ stream r = a ++ stream r' ∧ length a = want.
Proof.
  revert want acc r. induction fuel as [|fuel IH]; intros want acc r Hc Hf Hl; [lia|]. cbn [read_exact_loop].
  destruct (want =? 0)%nat eqn:E0.
  { apply Nat.eqb_eq in E0. exists r, []. by rewrite app_nil_r. }
  apply Nat.eqb_neq in E0.
  destruct (read want r) as [out r'] eqn:Er.
  pose proof (λ H, read_fuel _ _ _ _ H Er) as Hlt. specialize (Hlt ltac:(lia)).
  destruct (λ H, read_clean _ _ _ _ H Hc Er) as [Hc' Hout]; [lia|].
  destruct out as [e|[|b bs]].
  - destruct Hout as [Hk Hs]. rewrite decide_True by done. specialize (Hlt ltac:(done)).
    rewrite <- Hs. apply IH; [done|lia|rewrite Hs; lia].
  - destruct Hout as [Hs _]. rewrite Hs in Hl. simpl in Hl. lia.
  - destruct Hout as [Hs Hb]. specialize (Hlt ltac:(done)).
    rewrite Hs, length_app in Hl. simpl length in *.
    destruct (IH (want - S (length bs))%nat (acc ++ b :: bs) r') as (r2 & a & -> & ? & Hs2 & ?);
      [done|lia|lia|].
    exists r2, (b :: bs ++ a). rewrite <- app_assoc. simpl.
    split; [done|split; [done|split; [|rewrite length_app; lia]]].
    rewrite Hs, Hs2. simpl. by rewrite app_assoc.
Qed.

Lemma frame_size_field f :
  validate_frame_size f = Ok () →
  7 ≤ vlen f ≤ u32_max ∧ le_val (take 4 f) = vlen f ∧ (4 ≤ length f)%nat.
Proof.
  intros H. apply frame_split in H as (ty & tag & b & H1 & H2 & H3 & ->).
  rewrite vlen_frame_of. pose proof (vlen_nonneg b).
  destruct (frame_of_parts ty tag b H1 H2 H3) as (-> & _).
  split; [lia|split; [done|]]. pose proof (vlen_frame_of ty tag b). unfold vlen in *. lia.
Qed.

(** However a valid frame is cut into chunks, the reader returns it whole and
    stops right behind it. *)
Lemma read_frame_clean r max f tl :
  clean r → stream r = f ++ tl → validate_frame_size f = Ok () → vlen f ≤ max →
  ∃ r', read_frame_checked max r = (Ok (Some f), r') ∧ clean r' ∧ stream r' = tl.
Proof.
  intros Hc Hs Hv Hmax. apply frame_size_field in Hv as (Hl & Hsz & H4).
  destruct (prefix_loop_clean (S (reader_fuel r)) [] r) as (r1 & p & E1 & Hc1 & Hs1 & Hp);
    [done|lia|simpl; lia|rewrite Hs, length_app; simpl; lia|]. simpl in Hp.
  assert (p = take 4 f) as ->.
  { rewrite Hs in Hs1. rewrite <- (take_drop 4 f), <- app_assoc in Hs1.
    apply app_inj_1 in Hs1 as [? _]; [done|]. rewrite length_take. lia. }
  assert (stream r1 = drop 4 f ++ tl) as Hs2.
  { rewrite Hs in Hs1. rewrite <- (take_drop 4 f), <- app_assoc in Hs1 at 1.
    by apply app_inv_head in Hs1. }
  destruct (read_exact_loop_clean (S (reader_fuel r1)) (length f - 4) [] r1)
    as (r2 & a & E2 & Hc2 & Hs3 & Ha); [done|lia|rewrite Hs2, length_app, length_drop; lia|].
  assert (a = drop 4 f ∧ stream r2 = tl) as [-> Htl].
  { rewrite Hs2 in Hs3. apply app_inj_1 in Hs3 as [<- <-]; [done|]. rewrite length_drop. lia. }
  exists r2. split; [|done]. unfold read_frame_checked, mbind, M_bind, read_prefix.
  rewrite E1. simpl default. cbv iota beta. rewrite ?app_nil_l, Hsz.
  unfold FRAME_HEADER_SIZE. rewrite !(proj2 (Z.ltb_ge _ _)) by lia.
  unfold lift. rewrite try_from_in by (unfold u32_max, usize_max, u64_max in *; lia).
  simpl. unfold read_body, read_exact.
  replace (Z.to_nat (vlen f - 4)) with (length f - 4)%nat by (unfold vlen; lia).
  rewrite E2. simpl. by rewrite take_drop.
Qed.

Lemma check_msize_Ok f msize g : check_msize f msize = Ok g ↔ g = f ∧ vlen f ≤ msize ∧ vlen f ≤ u32_max.
Proof.
  unfold check_msize. pose proof (vlen_nonneg f). split.
  - intros E. inv_ok. destruct (_ <? _) eqn:El; [done|]. apply Z.ltb_ge in El. inv_ok. split; [done|lia].
  - intros (-> & H1 & H2). rewrite try_from_in by lia. simpl.
    by rewrite (proj2 (Z.ltb_ge _ _)) by lia.
Qed.

Lemma encoded_valid_t m f : TMessage_wf m → encode_tmessage m = Ok f → validate_frame_size f = Ok ().
Proof.
  intros Hwf (_ & Hb & ->)%encode_tmessage_Ok.
  apply frame_of_valid; [apply t_message_type_u8|apply Hwf|done].
Qed.

Lemma encoded_valid_r m f : RMessage_wf m → encode_rmessage m = Ok f → validate_frame_size f = Ok ().
Proof.
  intros Hwf (_ & Hb & ->)%encode_rmessage_Ok.
  apply frame_of_valid; [apply r_message_type_u8|apply Hwf|done].
Qed.

Lemma read_tmessage_clean r msize m f tl :
  clean r → stream r = f ++ tl → TMessage_wf m → encode_tmessage_checked m msize = Ok f →
  ∃ r', read_tmessage_checked msize r = (Ok (Some m), r') ∧ clean r' ∧ stream r' = tl.
Proof.
  intros Hc Hs Hwf E. unfold encode_tmessage_checked in E.
  apply Result_bind_Ok in E as (g & Em & (-> & Hl & _)%check_msize_Ok).
  destruct (read_frame_clean r msize g tl) as (r' & Er & ?); eauto using encoded_valid_t.
  exists r'. split; [|done]. unfold read_tmessage_checked, mbind, M_bind. rewrite Er.
  unfold lift. by rewrite (proj2 (decode_tmessage_iff g m) (conj Hwf Em)).
Qed.

Lemma read_rmessage_clean r msize m f tl :
  clean r → stream r = f ++ tl → RMessage_wf m → encode_rmessage_checked m msize = Ok f →
  ∃ r', read_rmessage_checked msize r = (Ok (Some m), r') ∧ clean r' ∧ stream r' = tl.
Proof.
  intros Hc Hs Hwf E. unfold encode_rmessage_checked in E.
  apply Result_bind_Ok in E as (g & Em & (-> & Hl & _)%check_msize_Ok).
  destruct (read_frame_clean r msize g tl) as (r' & Er & ?); eauto using encoded_valid_r.
  exists r'. split; [|done]. unfold read_rmessage_checked, mbind, M_bind. rewrite Er.
  unfold lift. by rewrite (proj2 (decode_rmessage_iff g m) (conj Hwf Em)).
Qed.

(** Only interruptions remain once the bytes are used up: clean end of file. *)
Lemma read_eof_clean r max :
  clean r → stream r = [] → ∃ r', read_frame_checked max r = (Ok None, r') ∧ clean r' ∧ stream r' = [].
Proof.
  intros Hc Hs.
  assert (∀ fuel, (reader_fuel r < fuel)%nat →
    ∃ r', prefix_loop fuel [] r = Some (Ok None, r') ∧ clean r' ∧ stream r' = []) as H.
  { intros fuel; revert r Hc Hs. induction fuel as [|fuel IH]; intros r Hc Hs Hf; [lia|].
    cbn [prefix_loop]. destruct (read (4 - length (@nil byte)) r) as [out r'] eqn:Er.
    pose proof (λ H, read_fuel _ _ _ _ H Er) as Hlt. specialize (Hlt ltac:(simpl; lia)).
    destruct (λ H, read_clean _ _ _ _ H Hc Er) as [Hc' Hout]; [simpl; lia|].
    destruct out as [e|[|b bs]].
    - destruct Hout as [Hk Hs']. simpl. rewrite decide_True by done. specialize (Hlt ltac:(done)).
      apply IH; [done|congruence|lia].
    - simpl. exists r'. naive_solver.
    - destruct Hout as [Hs' _]. rewrite Hs in Hs'. done. }
  destruct (H (S (reader_fuel r)) ltac:(lia)) as (r' & E & ?).
  exists r'. split; [|done]. unfold read_frame_checked, mbind, M_bind, read_prefix. by rewrite E.
Qed.

(** Reads messages until the stream ends, as the serving loops do. *)
Fixpoint read_tmessages (fuel : nat) (msize : Z) (r : Reader) : option (Result (list TMessage)) :=
  match fuel with
  | O => None
  | S fuel =>
      match read_tmessage_checked msize r with
      | (Err e, _) => Some (Err e)
      | (Ok None, _) => Some (Ok [])
      | (Ok (Some m), r) =>
          match read_tmessages fuel msize r with
          | Some (Ok ms) => Some (Ok (m :: ms))
          | other => other
          end
      end
  end.

(** a sequence of requests written as checked frames is read back as that
    sequence and then a clean end of stream, whatever chunks and interruptions
    the transport delivers it in. *)
Theorem tmessages_survive_segmentation msize ms fs r :
  Forall TMessage_wf ms →
  Forall2 (λ m f, encode_tmessage_checked m msize = Ok f) ms fs →
  clean r → stream r = concat fs →
  read_tmessages (S (length ms)) msize r = Some (Ok ms).
Proof.
  intros Hwf H. revert r Hwf. induction H as [|m f ms fs Hf H IH]; intros r Hwf Hc Hs.
  - destruct (read_eof_clean r msize Hc Hs) as (r' & E & _). cbn [read_tmessages length].
    unfold read_tmessage_checked, mbind, M_bind. by rewrite E.
  - apply Forall_cons in Hwf as [Hm Hwf].
    destruct (read_tmessage_clean r msize m f (concat fs)) as (r' & E & Hc' & Hs'); [done..|].
    change (length (m :: ms)) with (S (length ms)). cbn [read_tmessages]. rewrite E.
    specialize (IH r' Hwf Hc' Hs'). cbn [read_tmessages] in IH. by rewrite IH.
Qed.

Definition sample_clunk : TMessage := TClunk 7 3.

Lemma tmessages_survive_segmentation_witness :
  read_tmessages 2 8192
    [Fail (IoError_mk Interrupted []); Chunk [x0b; x00];
     Chunk [x00]; Fail (IoError_mk Interrupted []); Chunk [x00; x78; x07; x00; x03; x00; x00; x00]]
  = Some (Ok [sample_clunk]).
Proof.
  apply (tmessages_survive_segmentation 8192 [sample_clunk]
    [[x0b; x00; x00; x00; x78; x07; x00; x03; x00; x00; x00]]).
  - repeat constructor; vm_compute; discriminate.
  - repeat constructor; vm_compute; reflexivity.
  - repeat constructor; vm_compute; done.
  - vm_compute. reflexivity.
Defined.

(** ** What an arbitrary peer can make the reader return *)

Lemma read_at_most n r bs r' : read n r = (inr bs, r') → (length bs ≤ n)%nat.
Proof.
  destruct r as [|[b|e] r]; simpl; intros; simplify_eq; simpl; [lia|]. rewrite length_take. lia.
Qed.

Lemma prefix_loop_len fuel p r q r' :
  (length p ≤ 4)%nat → prefix_loop fuel p r = Some (Ok (Some q), r') → length q = 4%nat.
Proof.
  revert p r. induction fuel as [|fuel IH]; intros p r Hp; [done|]. cbn [prefix_loop].
  destruct (4 <=? length p)%nat eqn:E4.
  { apply Nat.leb_le in E4. intros [= -> ->]. lia. }
  destruct (read _ _) as [[e|bs] r1] eqn:Er.
  - repeat case_match; intros; simplify_eq; eauto.
  - apply read_at_most in Er. destruct bs as [|b bs].
    + case_match; intros; simplify_eq.
    + apply IH. rewrite length_app. apply Nat.leb_gt in E4. lia.
Qed.

Lemma read_exact_loop_len fuel want acc r out r' :
  read_exact_loop fuel want acc r = Some (inr out, r') → length out = (length acc + want)%nat.
Proof.
  revert want acc r. induction fuel as [|fuel IH]; intros want acc r; [done|].
  cbn [read_exact_loop]. destruct (want =? 0)%nat eqn:E0.
  { apply Nat.eqb_eq in E0. intros [= -> ->]. lia. }
  destruct (read _ _) as [[e|bs] r1] eqn:Er.
  - case_decide; intros; simplify_eq; eauto.
  - apply read_at_most in Er. destruct bs as [|b bs]; [done|].
    intros H%IH. rewrite length_app in H. simpl in *. lia.
Qed.

(** Whatever a peer sends, a frame that the reader hands on is at least a
    header long, at most the negotiated size, and its size field is its length. *)
Theorem read_frame_bounded max r f r' :
  max ≤ u32_max →
  read_frame_checked max r = (Ok (Some f), r') →
  FRAME_HEADER_SIZE ≤ vlen f ≤ max ∧ validate_frame_size f = Ok ().
Proof.
  intros Hmax E. unfold read_frame_checked in E. apply M_bind_Ok in E as (p & r1 & Ep & E).
  unfold read_prefix in Ep.
  destruct (prefix_loop_total (S (reader_fuel r)) [] r ltac:(lia)) as [x Ex].
  rewrite Ex in Ep. simpl in Ep. subst x. destruct p as [p|]; [|done].
  apply prefix_loop_len in Ex; [|simpl; lia].
  destruct (le_val p <? FRAME_HEADER_SIZE) eqn:E1; [done|]. apply Z.ltb_ge in E1.
  destruct (max <? le_val p) eqn:E2; [done|]. apply Z.ltb_ge in E2.
  apply M_bind_Ok in E as (n & r2 & En & E). unfold lift in En.
  injection En as En <-. apply ok_or_Ok, try_from_Some in En as [-> Hn]. unfold FRAME_HEADER_SIZE in *.
  unfold read_body, read_exact in E.
  destruct (read_exact_loop_total (S (reader_fuel r1)) (Z.to_nat (le_val p - 4)) [] r1 ltac:(lia))
    as [[out r3] Ex2].
  rewrite Ex2 in E. simpl in E. destruct out as [e|rest]; [done|]. simplify_eq.
  apply read_exact_loop_len in Ex2. simpl in Ex2.
  assert (vlen (p ++ rest) = le_val p) as Hl by (unfold vlen; rewrite length_app; lia).
  split; [lia|]. unfold validate_frame_size, FRAME_HEADER_SIZE. rewrite Hl.
  rewrite (proj2 (Z.ltb_ge _ _)) by lia.
  rewrite take_app_length' by done. rewrite try_from_in by lia. simpl. by rewrite Z.eqb_refl.
Qed.

Lemma read_frame_bounded_witness :
  FRAME_HEADER_SIZE ≤ vlen [x07; x00; x00; x00; xff; x01; x00] ≤ 256 ∧
  validate_frame_size [x07; x00; x00; x00; xff; x01; x00] = Ok ().
Proof.
  refine (read_frame_bounded 256 [Chunk [x07; x00; x00; x00; xff; x01; x00; x09]] _
    [Chunk [x09]] _ _); [vm_compute; discriminate|vm_compute; reflexivity].
Defined.
