(* ===== verification/RequestTable.v ===== *)
(** The table of live requests: [crates/core/src/flush.rs].  A request is named
    by its tag and the generation the table gave it, so that the completion of
    a request that was flushed, or that a Tversion discarded, is recognised as
    stale even when its tag has been reused. *)
From S2P Require Import Prelude Errors Message.

Record RequestKey := RequestKey_mk {
  key_tag : Z;
  key_generation : Z;
}.

#[export] Instance RequestKey_eq_dec : EqDecision RequestKey.
Proof. solve_decision. Defined.

#[export] Instance RequestKey_countable : Countable RequestKey.
Proof.
  refine (inj_countable' (λ k, (key_tag k, key_generation k))
            (λ p, RequestKey_mk p.1 p.2) _).
  by intros [].
Defined.

Inductive FlushOutcome := Cancelled (key : RequestKey) | Unknown.

#[export] Instance FlushOutcome_eq_dec : EqDecision FlushOutcome.
Proof. solve_decision. Defined.

Record RequestTable := RequestTable_mk {
  next_generation : Z;
  live : gmap Z RequestKey;
}.

Definition RequestTable_new : RequestTable := RequestTable_mk 0 ∅.

Definition is_live (t : RequestTable) (tag : Z) : bool :=
  bool_decide (is_Some (live t !! tag)).

Definition begin (tag : Z) : M RequestTable RequestKey := λ t,
  if tag =? NOTAG then (Err (from_static EBADTAG), t)
  else if is_live t tag then (Err (from_static EDUPTAG), t)
  else
    let key := RequestKey_mk tag (next_generation t) in
    (Ok key, RequestTable_mk (saturating_add u64_max (next_generation t) 1)
               (<[tag := key]> (live t))).

Definition finish (t : RequestTable) (key : RequestKey) : bool * RequestTable :=
  match live t !! key_tag key with
  | Some current =>
      if bool_decide (current = key)
      then (true, RequestTable_mk (next_generation t) (delete (key_tag key) (live t)))
      else (false, t)
  | None => (false, t)
  end.

Definition flush (oldtag : Z) : M RequestTable FlushOutcome := λ t,
  if oldtag =? NOTAG then (Err (from_static EBADTAG), t)
  else
    (Ok match live t !! oldtag with Some key => Cancelled key | None => Unknown end,
     RequestTable_mk (next_generation t) (delete oldtag (live t))).

Definition reset (t : RequestTable) : RequestTable :=
  RequestTable_mk (saturating_add u64_max (next_generation t) 1) ∅.

(** ** What the table keeps true *)

(** A live key sits under its own tag, which is not NOTAG, and was issued by
    this table. *)
Record RequestTable_wf (t : RequestTable) : Prop := {
  table_generation : 0 ≤ next_generation t ≤ u64_max;
  table_live tag k : live t !! tag = Some k →
    key_tag k = tag ∧ tag ≠ NOTAG ∧
    (next_generation t < u64_max → key_generation k < next_generation t);
}.

(** ** One operation of a client of the table *)

Inductive TableOp := Begin (tag : Z) | Finish (key : RequestKey) | Flush (oldtag : Z) | Reset.

Definition table_step (t : RequestTable) (op : TableOp) : RequestTable :=
  match op with
  | Begin tag => (begin tag t).2
  | Finish key => (finish t key).2
  | Flush oldtag => (flush oldtag t).2
  | Reset => reset t
  end.

Definition table_run (t : RequestTable) (ops : list TableOp) : RequestTable :=
  foldl table_step t ops.

Lemma saturating_add_le max a b : a ≤ max → 0 ≤ b → a ≤ saturating_add max a b ≤ max.
Proof. unfold saturating_add. lia. Qed.

Lemma finish_next t k : next_generation (finish t k).2 = next_generation t.
Proof. unfold finish. repeat case_match; done. Qed.

Lemma finish_true t k t' :
  finish t k = (true, t') ↔
  live t !! key_tag k = Some k ∧
  t' = RequestTable_mk (next_generation t) (delete (key_tag k) (live t)).
Proof. unfold finish. repeat case_match; case_bool_decide || idtac; naive_solver. Qed.

Lemma finish_false t k t' :
  finish t k = (false, t') ↔ live t !! key_tag k ≠ Some k ∧ t' = t.
Proof. unfold finish. repeat case_match; case_bool_decide || idtac; naive_solver. Qed.

Lemma begin_Ok tag t k t' :
  begin tag t = (Ok k, t') ↔
  tag ≠ NOTAG ∧ live t !! tag = None ∧ k = RequestKey_mk tag (next_generation t) ∧
  t' = RequestTable_mk (saturating_add u64_max (next_generation t) 1) (<[tag := k]> (live t)).
Proof.
  unfold begin, is_live. destruct (tag =? NOTAG) eqn:E1; [apply Z.eqb_eq in E1; naive_solver|].
  apply Z.eqb_neq in E1. case_bool_decide as E2.
  - destruct E2 as [? E2]. naive_solver.
  - rewrite <- eq_None_not_Some in E2. naive_solver.
Qed.

Lemma begin_Err tag t e t' : begin tag t = (Err e, t') → t' = t.
Proof. unfold begin. repeat case_match; naive_solver. Qed.

Lemma table_step_mono t op :
  next_generation t ≤ u64_max → next_generation t ≤ next_generation (table_step t op) ≤ u64_max.
Proof.
  intros H. destruct op; simpl.
  - unfold begin. repeat case_match; simpl; [lia..|]. apply saturating_add_le; lia.
  - rewrite finish_next. lia.
  - unfold flush. case_match; simpl; lia.
  - apply saturating_add_le; lia.
Qed.

(** Only [begin] makes a key live, and it makes the key of the current generation. *)
Lemma table_step_live t op tag k :
  live (table_step t op) !! tag = Some k →
  live t !! tag = Some k ∨
  (tag ≠ NOTAG ∧ k = RequestKey_mk tag (next_generation t) ∧
   next_generation (table_step t op) = saturating_add u64_max (next_generation t) 1).
Proof.
  destruct op as [tg|ky|old|]; simpl.
  - unfold begin. destruct (tg =? NOTAG) eqn:E1; [by left|].
    destruct (is_live t tg) eqn:E2; [by left|]. simpl. apply Z.eqb_neq in E1.
    intros [[<- <-]|[_ ?]]%lookup_insert_Some; [by right|by left].
  - unfold finish. repeat case_match; simpl; try by left.
    intros [_ ?]%lookup_delete_Some. by left.
  - unfold flush. case_match; simpl; [by left|]. intros [_ ?]%lookup_delete_Some. by left.
  - done.
Qed.

Lemma table_step_wf t op : RequestTable_wf t → RequestTable_wf (table_step t op).
Proof.
  intros [Hg Hl]. pose proof (table_step_mono t op ltac:(lia)) as Hm.
  split; [lia|]. intros tag k [H|(Hn & -> & Hs)]%table_step_live.
  - destruct (Hl _ _ H) as (? & ? & H3). split_and!; try done. intros Hlt.
    specialize (H3 ltac:(lia)). lia.
  - split_and!; try done. simpl. unfold saturating_add in *. lia.
Qed.

Lemma table_run_wf t ops : RequestTable_wf t → RequestTable_wf (table_run t ops).
Proof.
  revert t. induction ops as [|op ops IH]; intros t Ht; simpl; [done|].
  apply IH. by apply table_step_wf.
Qed.

Lemma RequestTable_new_wf : RequestTable_wf RequestTable_new.
Proof. split; simpl; [unfold u64_max; lia|]. intros tag k H. by rewrite lookup_empty in H. Qed.

#[export] Hint Resolve RequestTable_new_wf table_step_wf table_run_wf : r9p.

(** A key is spent once it was issued and is no longer live; it stays spent. *)
Definition spent (t : RequestTable) (k : RequestKey) : Prop :=
  key_generation k < next_generation t ∧ live t !! key_tag k ≠ Some k.

Lemma spent_step t op k :
  RequestTable_wf t → spent t k → next_generation t < u64_max → spent (table_step t op) k.
Proof.
  intros [Hg _] [Hk Hn] Hlt. pose proof (table_step_mono t op ltac:(lia)).
  split; [lia|]. intros [?|(_ & E & _)]%table_step_live; [done|].
  apply (f_equal key_generation) in E. simpl in *. lia.
Qed.

Lemma table_run_mono t ops :
  next_generation t ≤ u64_max → next_generation t ≤ next_generation (table_run t ops) ≤ u64_max.
Proof.
  revert t. induction ops as [|op ops IH]; intros t Ht; simpl; [lia|].
  pose proof (table_step_mono t op Ht). specialize (IH (table_step t op)). lia.
Qed.

Lemma spent_run t ops k :
  RequestTable_wf t → spent t k → next_generation (table_run t ops) < u64_max →
  spent (table_run t ops) k.
Proof.
  revert t. induction ops as [|op ops IH]; intros t Hwf Hs Hlt; simpl in *; [done|].
  pose proof (table_run_mono (table_step t op) ops) as Hm.
  pose proof (table_step_mono t op) as Hm'. destruct Hwf as [Hg Hl].
  apply IH; [by apply table_step_wf|apply spent_step; [done..|lia]|done].
Qed.

(** a completion that arrives late is always recognised: once a request was
    finished, flushed or discarded by a reset, no sequence of further requests
    (reusing its tag included) makes its key acceptable again, as long as fewer
    than 2^64 generations were issued, and the late completion changes nothing. *)
Theorem stale_completion_rejected ops tag k ending later :
  (begin tag (table_run RequestTable_new ops)).1 = Ok k →
  ending ∈ [Finish k; Flush tag; Reset] →
  next_generation (table_run RequestTable_new (ops ++ Begin tag :: ending :: later)) < u64_max →
  finish (table_run RequestTable_new (ops ++ Begin tag :: ending :: later)) k =
    (false, table_run RequestTable_new (ops ++ Begin tag :: ending :: later)).
Proof.
  intros Hb He Hlt. apply finish_false. split; [|done].
  set (t := table_run RequestTable_new ops) in *.
  assert (RequestTable_wf t) as Hwf by apply table_run_wf, RequestTable_new_wf.
  assert (table_run RequestTable_new (ops ++ Begin tag :: ending :: later) =
          table_run (table_step (table_step t (Begin tag)) ending) later) as Hr.
  { unfold table_run, t. by rewrite foldl_app. }
  rewrite Hr in *. apply spent_run; [by repeat apply table_step_wf| |done].
  pose proof (table_run_mono (table_step (table_step t (Begin tag)) ending) later) as Hm1.
  pose proof (table_step_mono (table_step t (Begin tag)) ending) as Hm2.
  pose proof (table_step_mono t (Begin tag)) as Hm3. destruct Hwf as [Hg _].
  destruct (begin tag t) as [r t'] eqn:Hs. simpl in Hb. subst r.
  apply begin_Ok in Hs as Hs'. destruct Hs' as (Hn & _ & -> & Et').
  assert (table_step t (Begin tag) = t') as Hst by (simpl; by rewrite Hs).
  rewrite Hst, Et' in *. clear Hs Hst.
  split; simpl key_generation.
  - simpl in Hm1, Hm2. unfold saturating_add in *. lia.
  - simpl key_tag. set_unfold in He. destruct He as [->|[->|[->|[]]]]; simpl.
    + unfold finish. simpl. rewrite lookup_insert_eq, bool_decide_true by done. simpl.
      by rewrite lookup_delete_eq.
    + unfold flush. apply Z.eqb_neq in Hn. rewrite Hn. simpl. by rewrite lookup_delete_eq.
    + done.
Qed.

Lemma stale_completion_rejected_witness :
  finish (table_run RequestTable_new [Begin 9; Begin 1; Flush 1; Begin 1]) (RequestKey_mk 1 1) =
    (false, table_run RequestTable_new [Begin 9; Begin 1; Flush 1; Begin 1]).
Proof.
  apply (stale_completion_rejected [Begin 9] 1 (RequestKey_mk 1 1) (Flush 1) [Begin 1]).
  - vm_compute. reflexivity.
  - set_solver.
  - vm_compute. reflexivity.
Defined.
