(* ===== verification/Session.v ===== *)
(** A connection's session: [crates/core/src/server/config.rs] and
    [crates/core/src/server/session.rs].  The fid table, the reservations that
    requests in flight hold on fids, the negotiated size and dialect, and the
    table of live requests. *)
From S2P Require Import Prelude Errors Qid Codec RequestTable.

(** ** config.rs *)

Record ServerConfig := ServerConfig_mk {
  default_msize : Z;
  max_msize : Z;
  max_fids : Z;
  max_async_requests : Z;
  config_variant : Variant;
  session_uname : option bytes;
}.

Definition ServerConfig_default : ServerConfig :=
  ServerConfig_mk DEFAULT_MSIZE MAX_MSIZE 4096 256 Plain None.

(** ** session.rs *)

Record FidReservation := FidReservation_mk {
  res_request : RequestKey;
  new_fid : bool;
}.

#[export] Instance FidReservation_eq_dec : EqDecision FidReservation.
Proof. solve_decision. Defined.

Record FidReservations := FidReservations_mk {
  exclusive : option FidReservation;
  shared : gset RequestKey;
}.

#[export] Instance FidReservations_eq_dec : EqDecision FidReservations.
Proof. solve_decision. Defined.

Definition FidReservations_default : FidReservations := FidReservations_mk None ∅.

Definition is_empty (r : FidReservations) : bool :=
  bool_decide (exclusive r = None) && bool_decide (shared r = ∅).

Inductive VersionNegotiation := Accepted | UnknownVersion.

Record Session := Session_mk {
  config : ServerConfig;
  s_msize : Z;
  s_version : bytes;
  s_variant : option Variant;
  negotiated : bool;
  fids : gmap Z FidState;
  reservations : gmap Z FidReservations;
  requests : RequestTable;
}.

Definition Session_new (c : ServerConfig) : Session :=
  Session_mk c (default_msize c) (bstr "unknown") None false ∅ ∅ RequestTable_new.

(** Assignments to one field of [self]. *)
Definition set_fids (f : gmap Z FidState) (s : Session) : Session :=
  Session_mk (config s) (s_msize s) (s_version s) (s_variant s) (negotiated s)
    f (reservations s) (requests s).
Definition set_reservations (r : gmap Z FidReservations) (s : Session) : Session :=
  Session_mk (config s) (s_msize s) (s_version s) (s_variant s) (negotiated s)
    (fids s) r (requests s).
Definition set_requests (t : RequestTable) (s : Session) : Session :=
  Session_mk (config s) (s_msize s) (s_version s) (s_variant s) (negotiated s)
    (fids s) (reservations s) t.

(** [reservations.exclusive.is_some_and(|r| r.new_fid)] *)
Definition reserves_new (r : FidReservations) : bool :=
  match exclusive r with Some x => new_fid x | None => false end.

Definition fid_count (s : Session) : Z :=
  Z.of_nat (size (fids s)) +
  Z.of_nat (size (filter (λ '(_, r), reserves_new r = true) (reservations s))).

Definition authorize_uname (s : Session) (uname : bytes) : Result unit :=
  match session_uname (config s) with
  | Some authenticated =>
      if bool_decide (authenticated = uname) then Ok () else Err (from_static ENOAUTH)
  | None => Ok ()
  end.

Definition contains_fid (s : Session) (f : Z) : bool :=
  bool_decide (is_Some (fids s !! f)) ||
  match reservations s !! f with Some r => reserves_new r | None => false end.

Definition invalidate (s : Session) : Session :=
  Session_mk (config s) MIN_MSIZE (bstr "unknown") None false ∅ ∅ (reset (requests s)).

Definition reset_for_version (requested_msize : Z) (version : bytes) :
    M Session VersionNegotiation := λ s,
  let s := invalidate s in
  if requested_msize <? MIN_MSIZE then (Err (from_static EBADMSIZE), s)
  else
    match accept (config_variant (config s)) version with
    | Some accepted =>
        (Ok Accepted,
         Session_mk (config s) (Z.min requested_msize (max_msize (config s)))
           (wire_name accepted) (Some accepted) true (fids s) (reservations s) (requests s))
    | None => (Ok UnknownVersion, s)
    end.

Definition ensure_available (s : Session) (f : Z) : Result unit :=
  match reservations s !! f with
  | Some r =>
      if bool_decide (is_Some (exclusive r)) then Err (from_static EFIDBUSY) else Ok ()
  | None => Ok ()
  end.

Definition ensure_unreserved (s : Session) (f : Z) : Result unit :=
  match reservations s !! f with
  | Some r => if is_empty r then Ok () else Err (from_static EFIDBUSY)
  | None => Ok ()
  end.

Definition bind_fid (f : Z) (state : FidState) : M Session unit := λ s,
  match ensure_unreserved s f with
  | Err e => (Err e, s)
  | Ok _ =>
      if bool_decide (fids s !! f = None) &&
         (max_fids (config s) <=? Z.of_nat (size (fids s)))
      then (Err (from_static EFIDLIMIT), s)
      else (Ok (), set_fids (<[f := state]> (fids s)) s)
  end.

Definition insert_new_fid (f : Z) (state : FidState) : M Session unit := λ s,
  if bool_decide (is_Some (fids s !! f)) then (Err (from_static EFIDINUSE), s)
  else bind_fid f state s.

Definition retire_fid (request : RequestKey) (f : Z) : M Session FidState := λ s,
  match ensure_unreserved s f with
  | Err e => (Err e, s)
  | Ok _ =>
      match fids s !! f with
      | None => (Err (from_static EBADFID), s)
      | Some state =>
          (Ok state,
           set_reservations
             (<[f := FidReservations_mk (Some (FidReservation_mk request false)) ∅]>
                (reservations s))
             (set_fids (delete f (fids s)) s))
      end
  end.

Definition fid (s : Session) (f : Z) : Result FidState :=
  _ ← ensure_available s f;
  ok_or (fids s !! f) (from_static EBADFID).

(** [self.reservations.entry(fid).or_default()]: the entry is created whether
    or not the reservation then succeeds. *)
Definition entry_or_default (s : Session) (f : Z) : FidReservations :=
  default FidReservations_default (reservations s !! f).

Definition reserve_existing_fid (request : RequestKey) (f : Z) : M Session unit := λ s,
  if bool_decide (fids s !! f = None) then (Err (from_static EBADFID), s)
  else
    let r := entry_or_default s f in
    if is_empty r
    then (Ok (), set_reservations
                   (<[f := FidReservations_mk (Some (FidReservation_mk request false)) (shared r)]>
                      (reservations s)) s)
    else (Err (from_static EFIDBUSY), set_reservations (<[f := r]> (reservations s)) s).

Definition reserve_shared_fid (request : RequestKey) (f : Z) : M Session unit := λ s,
  if bool_decide (fids s !! f = None) then (Err (from_static EBADFID), s)
  else
    let r := entry_or_default s f in
    if bool_decide (is_Some (exclusive r))
    then (Err (from_static EFIDBUSY), set_reservations (<[f := r]> (reservations s)) s)
    else (Ok (), set_reservations
                   (<[f := FidReservations_mk (exclusive r) ({[request]} ∪ shared r)]>
                      (reservations s)) s).

Definition reserve_new_fid (request : RequestKey) (f : Z) : M Session unit := λ s,
  if contains_fid s f || bool_decide (is_Some (reservations s !! f))
  then (Err (from_static EFIDINUSE), s)
  else if max_fids (config s) <=? fid_count s
  then (Err (from_static EFIDLIMIT), s)
  else (Ok (), set_reservations
                 (<[f := FidReservations_mk (Some (FidReservation_mk request true)) ∅]>
                    (reservations s)) s).

(** The body of the loop of [release_reservations]. *)
Definition release_one (request : RequestKey) (r : FidReservations) : FidReservations :=
  FidReservations_mk
    match exclusive r with
    | Some x => if bool_decide (res_request x = request) then None else Some x
    | None => None
    end
    (shared r ∖ {[request]}).

Definition release_reservations (request : RequestKey) (s : Session) : Session :=
  set_reservations
    (filter (λ '(_, r), is_empty r = false) (release_one request <$> reservations s)) s.
