(* ===== verification/Server.v ===== *)
(** The protocol server: [crates/core/src/server/types.rs],
    [crates/core/src/server/validation.rs], the [FileTree] trait of
    [crates/core/src/server/mod.rs] and [crates/core/src/server/handlers.rs].

    [admit] and [complete] change the session only, so they are written over
    [Session]; [handle] also runs the application's file tree. *)
From S2P Require Import Prelude Errors Qid Stat Referral Message Codec RequestTable Session.

(** ** types.rs *)

Record OpenFile := OpenFile_mk { of_qid : Qid; of_iounit : Z }.

Inductive ReadData :=
| Bytes (data : bytes)
| Directory (stats : list Stat).

Inductive ServerRequestKind :=
| KAuth (afid : Z) (uname aname : bytes)
| KAttach (fid afid : Z) (uname aname : bytes)
| KWalk (fid newfid : Z) (start : Qid) (wnames : list bytes)
| KOpen (fid : Z) (qid : Qid) (mode : Z)
| KCreate (fid : Z) (qid : Qid) (name : bytes) (perm mode : Z)
| KRead (fid : Z) (qid : Qid) (offset count : Z)
| KWrite (fid : Z) (qid : Qid) (offset : Z) (data : bytes)
| KClunk (fid : Z) (qid : Qid)
| KRemove (fid : Z) (qid : Qid)
| KStat (fid : Z) (qid : Qid)
| KWstat (fid : Z) (qid : Qid) (stat : Stat)
| KRenameAt (olddirfid : Z) (olddir_qid : Qid) (oldname : bytes)
            (newdirfid : Z) (newdir_qid : Qid) (newname : bytes)
| KReferrals (fid : Z) (qid : Qid).

Record ServerRequest := ServerRequest_mk { req_key : RequestKey; req_kind : ServerRequestKind }.

Definition req_tag (r : ServerRequest) : Z := key_tag (req_key r).

Inductive ServerCompletion :=
| CAuth (qid : Qid)
| CAttach (qid : Qid)
| CWalk (qids : list Qid)
| COpen (opened : OpenFile)
| CCreate (opened : OpenFile)
| CRead (data : ReadData)
| CWrite (count : Z)
| CClunk
| CRemove
| CStat (stat : Stat)
| CWstat
| CRenameAt
| CReferrals (referrals : list NamespaceReferral).

Inductive ServerEvent :=
| Reply (r : RMessage)
| Dispatch (request : ServerRequest)
| FlushEvent (reply : RMessage) (outcome : FlushOutcome).

#[export] Instance OpenFile_eq_dec : EqDecision OpenFile.
Proof. solve_decision. Defined.
#[export] Instance ReadData_eq_dec : EqDecision ReadData.
Proof. solve_decision. Defined.
#[export] Instance ServerRequestKind_eq_dec : EqDecision ServerRequestKind.
Proof. solve_decision. Defined.
#[export] Instance ServerRequest_eq_dec : EqDecision ServerRequest.
Proof. solve_decision. Defined.

(** ** validation.rs *)

Definition bad_walk_name (name : bytes) : bool :=
  bool_decide (name = []) || bool_decide (x2f ∈ name) || bool_decide (x00 ∈ name) ||
  (u16_max <? vlen name).

Definition validate_walk_names (wnames : list bytes) : Result unit :=
  if MAXWELEM <? vlen wnames then Err (from_static "name too long")
  else if existsb bad_walk_name wnames then Err (from_static EBADWNAME)
  else Ok ().

Definition validate_wstat (qid : Qid) (stat : Stat) (variant : Variant) : Result unit :=
  _ ← guard_or (st_type stat =? u16_max) (from_static EWSTATTYPE);
  _ ← guard_or (st_dev stat =? u32_max) (from_static EWSTATDEV);
  _ ← guard_or (bool_decide (st_qid stat = Qid_new u8_max u32_max u64_max)) (from_static EWSTATQID);
  _ ← guard_or (st_atime stat =? u32_max) (from_static EWSTATATIME);
  _ ← guard_or (bool_decide (st_uid stat = [])) (from_static EWSTATUID);
  _ ← guard_or (bool_decide (st_muid stat = [])) (from_static EWSTATMUID);
  _ ← guard_or (negb (negb (st_mode stat =? u32_max) &&
                      negb (Bool.eqb (has_bits (st_mode stat) DMDIR) (is_dir qid))))
        (from_static EWSTATDMDIR);
  _ ← (if negb (st_mode stat =? u32_max) then
         let requested_symlink := has_bits (st_mode stat) DMSYMLINK in
         if negb (Bool.eqb requested_symlink (is_symlink qid)) ||
            (requested_symlink && negb (supports_symlinks variant))
         then Err (from_static EWSTATDMSYMLINK) else Ok ()
       else Ok ());
  if is_dir qid && negb (st_length stat =? u64_max) && negb (st_length stat =? 0)
  then Err (from_static EWSTATDIRLENGTH) else Ok ().

Definition take_count (bs : bytes) (count : Z) : Result bytes :=
  limit ← ok_or (try_from usize_max count) (from_static "count too large");
  Ok (if limit <? vlen bs then ztake limit bs else bs).

Definition error_reply (tag : Z) (error : Error) : RMessage :=
  let ename :=
    if (tag =? NOTAG) && bool_decide (message error = bstr EBADTAG)
    then bstr EBADTAG else message error in
  RError tag ename.

(** ** mod.rs: the [FileTree] trait *)

(** A method that takes [&mut self] and returns a [Result]. *)
Class FileTree (T : Type) := {
  ft_attach : Z → bytes → bytes → M T Qid;
  ft_walk : Z → Z → Qid → list bytes → M T (list Qid);
  ft_open : Z → Qid → Z → M T OpenFile;
  ft_read : Z → Qid → Z → Z → M T ReadData;
  ft_stat : Qid → M T Stat;
  ft_referrals : Z → Qid → M T (list NamespaceReferral);
  ft_reset : M T unit;
  ft_auth : Z → bytes → bytes → M T Qid;
  ft_attach_with_auth : Z → Z → bytes → bytes → M T Qid;
  ft_create : Z → Qid → bytes → Z → Z → M T OpenFile;
  ft_write : Z → Qid → Z → bytes → M T Z;
  ft_clunk : Z → Qid → M T unit;
  ft_remove : Z → Qid → M T unit;
  ft_wstat : Z → Qid → Stat → M T unit;
  ft_rename_at : Z → Qid → bytes → Z → Qid → bytes → M T unit;
}.

(** The trait's provided methods, for a tree that defines only the five
    required ones. *)
Definition FileTree_defaults {T}
    (attach : Z → bytes → bytes → M T Qid) (walk : Z → Z → Qid → list bytes → M T (list Qid))
    (open : Z → Qid → Z → M T OpenFile) (read : Z → Qid → Z → Z → M T ReadData)
    (stat : Qid → M T Stat) : FileTree T := {|
  ft_attach := attach; ft_walk := walk; ft_open := open; ft_read := read; ft_stat := stat;
  ft_referrals := λ _ _, mret [];
  ft_reset := mret ();
  ft_auth := λ _ _ _, throw (from_static ENOAUTH);
  ft_attach_with_auth := λ _ _ _ _, throw (from_static ENOAUTH);
  ft_create := λ _ _ _ _ _, throw (from_static EPERM);
  ft_write := λ _ _ _ _, throw (from_static EPERM);
  ft_clunk := λ _ _, mret ();
  ft_remove := λ _ _, throw (from_static EPERM);
  ft_wstat := λ _ _ _, throw (from_static EPERM);
  ft_rename_at := λ _ _ _ _ _ _, throw (from_static EPERM);
|}.

Record Server (T : Type) := Server_mk { session : Session; tree : T }.
Arguments Server_mk {T} session tree.
Arguments session {T} s.
Arguments tree {T} s.

Definition Server_with_config {T} (t : T) (c : ServerConfig) : Server T :=
  Server_mk (Session_new c) t.

Definition Server_new {T} (t : T) : Server T := Server_with_config t ServerConfig_default.

(** ** handlers.rs: validation of one request against its fid *)

Definition validate_qid_variant (variant : Variant) (qid : Qid) : Result unit :=
  if is_symlink qid && negb (supports_symlinks variant)
  then Err (from_static ESYMLINKDIALECT) else Ok ().

Definition validate_stat_variant (variant : Variant) (stat : Stat) : Result unit :=
  _ ← validate_qid_variant variant (st_qid stat);
  if has_bits (st_mode stat) DMSYMLINK && negb (supports_symlinks variant)
  then Err (from_static ESYMLINKDIALECT) else Ok ().

(** [for x in xs { f(x)?; }] *)
Fixpoint for_each {A} (f : A → Result unit) (xs : list A) : Result unit :=
  match xs with
  | [] => Ok ()
  | x :: xs => _ ← f x; for_each f xs
  end.

Definition validate_open (state : FidState) (mode : Z) : Result unit :=
  _ ← guard_or (bool_decide (open_mode state = None)) (from_static EFIDOPEN);
  _ ← guard_or (mode_is_valid mode) (from_static EBADMODE);
  guard_or (negb (is_dir (fid_qid state) && negb (is_directory_mode mode))) (from_static EBADMODE).

Definition validate_create (state : FidState) (perm mode : Z) : Result unit :=
  _ ← guard_or (bool_decide (open_mode state = None)) (from_static EFIDOPEN);
  _ ← guard_or (is_dir (fid_qid state)) (from_static ENOTDIR);
  _ ← guard_or (mode_is_valid mode) (from_static EBADMODE);
  guard_or (negb (has_bits perm DMDIR && negb (is_directory_mode mode))) (from_static EBADMODE).

Definition validate_read (state : FidState) (offset : Z) : Result unit :=
  if is_auth (fid_qid state) then Ok ()
  else
    mode ← ok_or (open_mode state) (from_static EFIDNOTOPEN);
    _ ← guard_or (permits_read mode) (from_static EFIDNOTOPEN);
    guard_or (negb (is_dir (fid_qid state) && negb (offset =? 0) &&
                    negb (offset =? directory_offset state))) (from_static EBADDIROFFSET).

Definition validate_write (state : FidState) : Result unit :=
  if is_auth (fid_qid state) then Ok ()
  else
    mode ← ok_or (open_mode state) (from_static EFIDNOTOPEN);
    guard_or (negb (is_dir (fid_qid state) || negb (permits_write mode))) (from_static EFIDNOTOPEN).

Definition clamp_iounit (msize iounit : Z) : Z :=
  if iounit =? 0 then 0 else Z.min iounit (max_iounit msize).

(** ** handlers.rs: admission *)

(** [self.session.requests.op()] and [&self] methods of the session that can fail. *)
Definition on_requests {A} (m : M RequestTable A) : M Session A := λ s,
  let '(r, t) := m (requests s) in (r, set_requests t s).

Definition finish_request (key : RequestKey) (s : Session) : bool * Session :=
  let '(b, t) := finish (requests s) key in (b, set_requests t s).

Definition session_fid (f : Z) : M Session FidState := λ s, (fid s f, s).

Definition session_variant : M Session Variant := λ s,
  (ok_or (s_variant s) (from_static "version not negotiated"), s).

Definition dispatch (key : RequestKey) (kind : ServerRequestKind) : ServerEvent :=
  Dispatch (ServerRequest_mk key kind).

Definition admit_after_begin (m : TMessage) (key : RequestKey) : M Session ServerEvent :=
  match m with
  | TVersion _ _ _ => throw (from_static "Tversion handled before admission")
  | TAuth _ afid uname aname =>
      s ← get;
      _ ← lift (authorize_uname s uname);
      if afid =? NOFID then throw (from_static ENOAUTH)
      else
        _ ← reserve_new_fid key afid;
        mret (dispatch key (KAuth afid uname aname))
  | TAttach _ f afid uname aname =>
      s ← get;
      _ ← lift (authorize_uname s uname);
      _ ← (if negb (afid =? NOFID) then
             auth_state ← session_fid afid;
             if negb (is_auth (fid_qid auth_state)) then throw (from_static ENOAUTH)
             else reserve_existing_fid key afid
           else mret ());
      _ ← reserve_new_fid key f;
      mret (dispatch key (KAttach f afid uname aname))
  | TFlush _ oldtag =>
      outcome ← on_requests (flush oldtag);
      _ ← modify match outcome with
                 | Cancelled cancelled => release_reservations cancelled
                 | Unknown => λ s, s
                 end;
      let reply := RFlush (key_tag key) in
      _ ← modify (λ s, (finish_request key s).2);
      mret (FlushEvent reply outcome)
  | TWalk _ f newfid wnames =>
      _ ← lift (validate_walk_names wnames);
      source ← session_fid f;
      if negb (bool_decide (open_mode source = None)) then throw (from_static EFIDOPEN)
      else if negb (bool_decide (wnames = [])) && negb (is_dir (fid_qid source))
      then throw (from_static ENOTDIR)
      else
        _ ← (if newfid =? f then reserve_existing_fid key f
             else _ ← reserve_shared_fid key f; reserve_new_fid key newfid);
        mret (dispatch key (KWalk f newfid (fid_qid source) wnames))
  | TOpen _ f mode =>
      state ← session_fid f;
      _ ← lift (validate_open state mode);
      _ ← reserve_existing_fid key f;
      mret (dispatch key (KOpen f (fid_qid state) mode))
  | TCreate _ f name perm mode =>
      state ← session_fid f;
      _ ← lift (validate_create state perm mode);
      _ ← reserve_existing_fid key f;
      mret (dispatch key (KCreate f (fid_qid state) name perm mode))
  | TRead _ f offset count =>
      state ← session_fid f;
      _ ← lift (validate_read state offset);
      _ ← (if is_dir (fid_qid state) then reserve_existing_fid key f else mret ());
      s ← get;
      mret (dispatch key (KRead f (fid_qid state) offset (clamp_read_count (s_msize s) count)))
  | TWrite _ f offset data =>
      s ← get;
      max ← lift (ok_or (try_from usize_max (max_write_payload (s_msize s)))
                    (from_static "msize too large"));
      if max <? vlen data then throw (from_static "write exceeds msize")
      else
        state ← session_fid f;
        _ ← lift (validate_write state);
        mret (dispatch key (KWrite f (fid_qid state) offset data))
  | TClunk _ f =>
      state ← retire_fid key f;
      mret (dispatch key (KClunk f (fid_qid state)))
  | TRemove _ f =>
      state ← retire_fid key f;
      mret (dispatch key (KRemove f (fid_qid state)))
  | TStat _ f =>
      state ← session_fid f;
      mret (dispatch key (KStat f (fid_qid state)))
  | TWstat _ f stat =>
      state ← session_fid f;
      variant ← session_variant;
      _ ← lift (validate_wstat (fid_qid state) stat variant);
      _ ← reserve_existing_fid key f;
      mret (dispatch key (KWstat f (fid_qid state) stat))
  | TRenameAt _ olddirfid oldname newdirfid newname =>
      variant ← session_variant;
      if negb (supports_rename_at variant)
      then throw (from_static "renameat requires negotiated 9P2000.R")
      else
        _ ← lift (validate_walk_names [oldname; newname]);
        olddir ← session_fid olddirfid;
        newdir ← session_fid newdirfid;
        if negb (is_dir (fid_qid olddir)) || negb (is_dir (fid_qid newdir))
        then throw (from_static ENOTDIR)
        else
          _ ← reserve_shared_fid key olddirfid;
          _ ← (if negb (newdirfid =? olddirfid) then reserve_shared_fid key newdirfid else mret ());
          mret (dispatch key (KRenameAt olddirfid (fid_qid olddir) oldname
                                newdirfid (fid_qid newdir) newname))
  | TReferrals _ f =>
      variant ← session_variant;
      if negb (supports_referrals variant)
      then throw (from_static "namespace referrals require negotiated 9P2000.R")
      else
        state ← session_fid f;
        _ ← reserve_shared_fid key f;
        mret (dispatch key (KReferrals f (fid_qid state)))
  end.

Definition finish_with_reply (key : RequestKey) (reply : RMessage) (s : Session) :
    ServerEvent * Session :=
  let s := (finish_request key s).2 in
  (Reply reply, release_reservations key s).

Definition admit_message (m : TMessage) (s : Session) : ServerEvent * Session :=
  match m with
  | TVersion tag msize version =>
      match reset_for_version msize version s with
      | (Ok _, s') => (Reply (RVersion tag (s_msize s') (s_version s')), s')
      | (Err error, s') => (Reply (error_reply tag error), s')
      end
  | _ =>
      if negb (negotiated s)
      then (Reply (error_reply (t_tag m) (from_static "version not negotiated")), s)
      else
        let tag := t_tag m in
        match on_requests (begin tag) s with
        | (Err error, s1) => (Reply (error_reply tag error), s1)
        | (Ok key, s1) =>
            match admit_after_begin m key s1 with
            | (Ok event, s2) => (event, s2)
            | (Err error, s2) => finish_with_reply key (error_reply tag error) s2
            end
        end
  end.

(** ** handlers.rs: completion *)

Definition apply_read (variant : Variant) (data : ReadData) (offset count : Z) : Result bytes :=
  match data with
  | Bytes bs => take_count bs count
  | Directory stats =>
      _ ← for_each (validate_stat_variant variant) stats;
      dirread_chunk stats offset count
  end.

Definition apply_completion (tag : Z) (request : ServerRequestKind) (c : ServerCompletion) :
    M Session RMessage :=
  variant ← session_variant;
  match request, c with
  | KAuth afid _ _, CAuth qid =>
      if negb (is_auth qid) then throw (from_static ENOAUTH)
      else
        _ ← lift (validate_qid_variant variant qid);
        _ ← insert_new_fid afid (FidState_opened qid ORDWR);
        mret (RAuth tag qid)
  | KAttach f _ _ _, CAttach qid =>
      _ ← lift (validate_qid_variant variant qid);
      _ ← insert_new_fid f (FidState_new qid);
      mret (RAttach tag qid)
  | KWalk f newfid start wnames, CWalk qids =>
      if vlen wnames <? vlen qids then throw (from_static "walk returned too many qids")
      else
        _ ← lift (for_each (validate_qid_variant variant) qids);
        if bool_decide (wnames = []) then
          _ ← (if negb (newfid =? f) then insert_new_fid newfid (FidState_new start) else mret ());
          mret (RWalk tag [])
        else
          match last qids with
          | None => throw (from_static ENOENT)
          | Some qid =>
              _ ← (if vlen qids =? vlen wnames then
                     if newfid =? f then bind_fid f (FidState_new qid)
                     else insert_new_fid newfid (FidState_new qid)
                   else mret ());
              mret (RWalk tag qids)
          end
  | KOpen f _ mode, COpen opened =>
      _ ← lift (validate_qid_variant variant (of_qid opened));
      _ ← bind_fid f (FidState_opened (of_qid opened) mode);
      s ← get;
      mret (ROpen tag (of_qid opened) (clamp_iounit (s_msize s) (of_iounit opened)))
  | KCreate f _ _ _ mode, CCreate opened =>
      _ ← lift (validate_qid_variant variant (of_qid opened));
      _ ← bind_fid f (FidState_opened (of_qid opened) mode);
      s ← get;
      mret (RCreate tag (of_qid opened) (clamp_iounit (s_msize s) (of_iounit opened)))
  | KRead f qid offset count, CRead data =>
      data ← lift (apply_read variant data offset count);
      _ ← (if is_dir qid then
             state ← session_fid f;
             n ← lift (ok_or (try_from u64_max (vlen data))
                         (from_static "directory read count too large"));
             next_offset ← lift (ok_or (checked_add u64_max offset n)
                                   (from_static "directory offset overflow"));
             bind_fid f (with_directory_offset state next_offset)
           else mret ());
      mret (RRead tag data)
  | KWrite _ _ _ data, CWrite count =>
      if match try_from usize_max count with
         | Some count => vlen data <? count
         | None => true
         end
      then throw (from_static "write completion exceeds request count")
      else mret (RWrite tag count)
  | KClunk _ _, CClunk => mret (RClunk tag)
  | KRemove _ _, CRemove => mret (RRemove tag)
  | KStat _ _, CStat stat =>
      _ ← lift (validate_stat_variant variant stat);
      mret (RStat tag stat)
  | KWstat _ _ _, CWstat => mret (RWstat tag)
  | KRenameAt _ _ _ _ _ _, CRenameAt => mret (RRenameAt tag)
  | KReferrals _ _, CReferrals referrals =>
      _ ← lift (for_each validate referrals);
      mret (RReferrals tag referrals)
  | _, _ => throw (from_static "completion kind does not match request")
  end.

Definition complete (request : ServerRequest) (completion : Result ServerCompletion)
    (s : Session) : option RMessage * Session :=
  match finish_request (req_key request) s with
  | (false, s1) => (None, s1)
  | (true, s1) =>
      let s2 := release_reservations (req_key request) s1 in
      let tag := req_tag request in
      let '(result, s3) :=
        match completion with
        | Ok c => apply_completion tag (req_kind request) c s2
        | Err error => (Err error, s2)
        end in
      (Some match result with Ok r => r | Err error => error_reply tag error end, s3)
  end.

(** ** handlers.rs: the file-tree dispatcher and the synchronous server *)

Section handle.
Context {T : Type} `{FileTree T}.

Definition map_result {A B} (f : A → B) (m : M T A) : M T B := λ t,
  let '(r, t') := m t in (f <$> r, t').

Definition perform_file_tree_request (request : ServerRequest) : M T ServerCompletion :=
  match req_kind request with
  | KAuth afid uname aname => map_result CAuth (ft_auth afid uname aname)
  | KAttach f afid uname aname =>
      qid ← (if afid =? NOFID then ft_attach f uname aname
             else ft_attach_with_auth f afid uname aname);
      mret (CAttach qid)
  | KWalk f newfid start wnames => map_result CWalk (ft_walk f newfid start wnames)
  | KOpen f qid mode => map_result COpen (ft_open f qid mode)
  | KCreate f qid name perm mode => map_result CCreate (ft_create f qid name perm mode)
  | KRead f qid offset count => map_result CRead (ft_read f qid offset count)
  | KWrite f qid offset data => map_result CWrite (ft_write f qid offset data)
  | KClunk f qid => map_result (λ _, CClunk) (ft_clunk f qid)
  | KRemove f qid => map_result (λ _, CRemove) (ft_remove f qid)
  | KStat _ qid => map_result CStat (ft_stat qid)
  | KWstat f qid stat => map_result (λ _, CWstat) (ft_wstat f qid stat)
  | KRenameAt olddirfid olddir_qid oldname newdirfid newdir_qid newname =>
      map_result (λ _, CRenameAt)
        (ft_rename_at olddirfid olddir_qid oldname newdirfid newdir_qid newname)
  | KReferrals f qid => map_result CReferrals (ft_referrals f qid)
  end.

Definition is_tversion (m : TMessage) : bool :=
  match m with TVersion _ _ _ => true | _ => false end.

Definition handle (m : TMessage) (srv : Server T) : RMessage * Server T :=
  let tag := t_tag m in
  let '(event, s1) := admit_message m (session srv) in
  let '(reset, t1) := if is_tversion m then ft_reset (tree srv) else (Ok (), tree srv) in
  match reset with
  | Err error => (error_reply tag error, Server_mk (invalidate s1) t1)
  | Ok _ =>
      match event with
      | Reply reply | FlushEvent reply _ => (reply, Server_mk s1 t1)
      | Dispatch request =>
          let '(result, t2) := perform_file_tree_request request t1 in
          let '(reply, s2) := complete request result s1 in
          (default (error_reply (req_tag request) (from_static "stale server completion")) reply,
           Server_mk s2 t2)
      end
  end.

End handle.
