(* ===== verification/Reservations.v ===== *)
(** The algebra of fid reservations: what [release_reservations] does to the
    reservation map, what a request holds, and which changes of a session leave
    the holdings of the other requests alone.  The session methods of
    [crates/core/src/server/session.rs] are characterised once here; the proofs
    about [admit] and [complete] use these facts only. *)
From S2P Require Import Prelude Errors Qid Codec RequestTable Session.

(** ** The reservation map after a release *)

Definition strip (k : RequestKey) (m : gmap Z FidReservations) : gmap Z FidReservations :=
  filter (λ '(_, r), is_empty r = false) (release_one k <$> m).

Lemma release_is_strip k s :
  release_reservations k s = set_reservations (strip k (reservations s)) s.
Proof. done. Qed.

Lemma is_empty_true r : is_empty r = true ↔ r = FidReservations_default.
Proof.
  unfold is_empty. destruct r as [e sh]. simpl. rewrite andb_true_iff, !bool_decide_eq_true.
  unfold FidReservations_default. naive_solver.
Qed.

Lemma is_empty_false r : is_empty r = false ↔ r ≠ FidReservations_default.
Proof. rewrite <- is_empty_true. destruct (is_empty r); naive_solver. Qed.

Lemma strip_lookup k m f :
  strip k m !! f =
  match m !! f with
  | Some r => if is_empty (release_one k r) then None else Some (release_one k r)
  | None => None
  end.
Proof.
  unfold strip. destruct (m !! f) as [r|] eqn:E.
  - destruct (is_empty (release_one k r)) eqn:Er.
    + apply map_lookup_filter_None. right. intros r' H. rewrite lookup_fmap, E in H.
      simpl in H. simplify_eq. congruence.
    + apply map_lookup_filter_Some. rewrite lookup_fmap, E. naive_solver.
  - apply map_lookup_filter_None. left. by rewrite lookup_fmap, E.
Qed.

Lemma strip_insert k m f r :
  release_one k r = release_one k (default FidReservations_default (m !! f)) →
  strip k (<[f := r]> m) = strip k m.
Proof.
  intros H. apply map_eq. intros g. rewrite !strip_lookup.
  destruct (decide (g = f)) as [->|]; [|by rewrite lookup_insert_ne].
  rewrite lookup_insert_eq. destruct (m !! f) as [r'|]; simpl in H; [by rewrite H|].
  destruct (is_empty (release_one k r)) eqn:E; [done|]. exfalso.
  apply is_empty_false in E. apply E. rewrite H. unfold release_one. simpl.
  unfold FidReservations_default. f_equal. set_solver.
Qed.

(** A reservation that [k] has no part in. *)
Definition free_of (k : RequestKey) (r : FidReservations) : Prop :=
  (∀ x, exclusive r = Some x → res_request x ≠ k) ∧ k ∉ shared r.

Lemma release_one_free k r : free_of k r → release_one k r = r.
Proof.
  intros [He Hs]. destruct r as [e sh]. unfold release_one. simpl in *. f_equal; [|set_solver].
  destruct e as [x|]; [|done]. rewrite bool_decide_false; [done|]. naive_solver.
Qed.

Lemma strip_free k m :
  (∀ f r, m !! f = Some r → free_of k r ∧ is_empty r = false) → strip k m = m.
Proof.
  intros H. apply map_eq. intros f. rewrite strip_lookup. destruct (m !! f) as [r|] eqn:E; [|done].
  destruct (H _ _ E) as [Hf He]. by rewrite (release_one_free k r Hf), He.
Qed.

(** ** Well-formed reservations *)

Definition key_live (s : Session) (k : RequestKey) : Prop :=
  live (requests s) !! key_tag k = Some k.

#[export] Instance key_live_dec s k : Decision (key_live s k).
Proof. unfold key_live. apply _. Defined.

(** Every entry is held by some live request; an exclusive holder excludes
    shared ones; a fid reserved for creation is not bound; a shared fid is. *)
Record res_ok (s : Session) (f : Z) (r : FidReservations) : Prop := {
  res_nonempty : is_empty r = false;
  res_excludes x : exclusive r = Some x → shared r = ∅;
  res_excl_live x : exclusive r = Some x → key_live s (res_request x);
  res_shared_live k : k ∈ shared r → key_live s k;
  res_new_unbound x : exclusive r = Some x → new_fid x = true → fids s !! f = None;
  res_shared_bound k : k ∈ shared r → is_Some (fids s !! f);
}.

Record session_ok (s : Session) : Prop := {
  ok_table : RequestTable_wf (requests s);
  ok_res f r : reservations s !! f = Some r → res_ok s f r;
  ok_limit : fid_count s ≤ max_fids (config s);
}.

(** The fields that only Tversion changes. *)
Definition same_dialect (s s' : Session) : Prop :=
  config s' = config s ∧ s_msize s' = s_msize s ∧ s_version s' = s_version s ∧
  s_variant s' = s_variant s ∧ negotiated s' = negotiated s.

#[export] Instance same_dialect_preorder : PreOrder same_dialect.
Proof. split; [done|]. intros x y z. unfold same_dialect. intuition congruence. Qed.

(** ** Holdings *)

Definition holds_new (s : Session) (k : RequestKey) (f : Z) : Prop :=
  reservations s !! f = Some (FidReservations_mk (Some (FidReservation_mk k true)) ∅).
Definition holds_excl (s : Session) (k : RequestKey) (f : Z) : Prop :=
  reservations s !! f = Some (FidReservations_mk (Some (FidReservation_mk k false)) ∅) ∧
  is_Some (fids s !! f).
Definition holds_retired (s : Session) (k : RequestKey) (f : Z) : Prop :=
  reservations s !! f = Some (FidReservations_mk (Some (FidReservation_mk k false)) ∅) ∧
  fids s !! f = None.
Definition holds_shared (s : Session) (k : RequestKey) (f : Z) : Prop :=
  (∃ r, reservations s !! f = Some r ∧ exclusive r = None ∧ k ∈ shared r) ∧
  is_Some (fids s !! f).

(** [frame s s']: whoever held something in [s] still holds it in [s']. *)
Definition frame (s s' : Session) : Prop :=
  ∀ f r, reservations s !! f = Some r →
    (∃ r', reservations s' !! f = Some r' ∧ exclusive r' = exclusive r ∧
           shared r ⊆ shared r' ∧ (is_Some (exclusive r) → shared r' = shared r)) ∧
    (is_Some (fids s' !! f) ↔ is_Some (fids s !! f)).

#[export] Instance frame_preorder : PreOrder frame.
Proof.
  split.
  - intros s f r H. naive_solver.
  - intros s1 s2 s3 H12 H23 f r Hr. destruct (H12 _ _ Hr) as [(r2 & Hr2 & He & Hs & Hx) Hf].
    destruct (H23 _ _ Hr2) as [(r3 & Hr3 & He' & Hs' & Hx') Hf']. split; [|by rewrite Hf'].
    exists r3. split_and!; [done|congruence|set_solver|]. intros Hi.
    rewrite Hx' by (by rewrite He). auto.
Qed.

Lemma frame_exact s s' f e :
  frame s s' → reservations s !! f = Some (FidReservations_mk (Some e) ∅) →
  reservations s' !! f = Some (FidReservations_mk (Some e) ∅).
Proof.
  intros H Hr. destruct (H _ _ Hr) as [([e' sh] & Hr' & He & Hs & Hx) _]. simpl in *.
  rewrite Hr', He, (Hx (mk_is_Some _ _ eq_refl)). done.
Qed.

Lemma frame_new s s' k f : frame s s' → holds_new s k f → holds_new s' k f.
Proof. intros H Hr. by eapply frame_exact. Qed.

Lemma frame_excl s s' k f : frame s s' → holds_excl s k f → holds_excl s' k f.
Proof.
  intros H [Hr Hf]. split; [by eapply frame_exact|]. by apply (H _ _ Hr).
Qed.

Lemma frame_retired s s' k f : frame s s' → holds_retired s k f → holds_retired s' k f.
Proof.
  intros H [Hr Hf]. split; [by eapply frame_exact|].
  destruct (H _ _ Hr) as [_ Hi]. apply eq_None_not_Some. rewrite Hi. by apply eq_None_not_Some.
Qed.

Lemma frame_shared s s' k f : frame s s' → holds_shared s k f → holds_shared s' k f.
Proof.
  intros H [(r & Hr & He & Hk) Hf]. destruct (H _ _ Hr) as [(r' & Hr' & He' & Hs & _) Hi].
  split; [|by apply Hi]. exists r'. split_and!; [done|congruence|set_solver].
Qed.

#[export] Hint Resolve frame_new frame_excl frame_retired frame_shared : r9p.

(** ** Releasing one request leaves the others' holdings alone *)

Lemma strip_other k k' m f b :
  k' ≠ k →
  m !! f = Some (FidReservations_mk (Some (FidReservation_mk k' b)) ∅) →
  strip k m !! f = Some (FidReservations_mk (Some (FidReservation_mk k' b)) ∅).
Proof.
  intros Hk H. rewrite strip_lookup, H, release_one_free; [done|]. split; set_solver.
Qed.

Lemma strip_own k m f b :
  m !! f = Some (FidReservations_mk (Some (FidReservation_mk k b)) ∅) → strip k m !! f = None.
Proof.
  intros H. rewrite strip_lookup, H. unfold release_one. simpl. rewrite bool_decide_true by done.
  rewrite (proj2 (is_empty_true _)); [done|]. unfold FidReservations_default. f_equal. set_solver.
Qed.

Lemma release_new s k k' f : k' ≠ k → holds_new s k' f → holds_new (release_reservations k s) k' f.
Proof. intros. by apply strip_other. Qed.

Lemma release_excl s k k' f :
  k' ≠ k → holds_excl s k' f → holds_excl (release_reservations k s) k' f.
Proof. intros ? []. split; [by apply strip_other|done]. Qed.

Lemma release_retired s k k' f :
  k' ≠ k → holds_retired s k' f → holds_retired (release_reservations k s) k' f.
Proof. intros ? []. split; [by apply strip_other|done]. Qed.

Lemma release_shared s k k' f :
  k' ≠ k → holds_shared s k' f → holds_shared (release_reservations k s) k' f.
Proof.
  intros Hk [(r & Hr & He & Hs) Hf]. split; [|done].
  assert (strip k (reservations s) !! f = Some (release_one k r)) as Hl.
  { rewrite strip_lookup, Hr. destruct (is_empty _) eqn:E; [|done].
    apply is_empty_true, (f_equal shared) in E. simpl in E. set_solver. }
  exists (release_one k r). split_and!; [exact Hl|simpl; by rewrite He|simpl; set_solver].
Qed.

#[export] Hint Resolve release_new release_excl release_retired release_shared : r9p.

(** ** Counting fids *)

Definition new_part (m : gmap Z FidReservations) : gmap Z FidReservations :=
  filter (λ '(_, r), reserves_new r = true) m.

Lemma fid_count_eq s :
  fid_count s = Z.of_nat (size (fids s)) + Z.of_nat (size (new_part (reservations s))).
Proof. done. Qed.

Lemma size_new_part_insert m f r :
  (size (new_part (<[f := r]> m)) ≤ size (new_part m) + if reserves_new r then 1 else 0)%nat.
Proof.
  unfold new_part. destruct (reserves_new r) eqn:E.
  - rewrite map_filter_insert_True by done. rewrite map_size_insert. case_match; simpl; lia.
  - rewrite map_filter_insert_False by (simpl; congruence).
    rewrite map_filter_delete, map_size_delete. case_match; simpl; lia.
Qed.

Lemma new_part_strip_lookup k m f :
  is_Some (new_part (strip k m) !! f) →
  is_Some (new_part m !! f) ∧
  m !! f ≠ Some (FidReservations_mk (Some (FidReservation_mk k true)) ∅).
Proof.
  intros [r Hr]. apply map_lookup_filter_Some in Hr as [Hr Hn]. rewrite strip_lookup in Hr.
  destruct (m !! f) as [r0|] eqn:E; [|done].
  destruct (is_empty _) eqn:Ee; [done|]. simplify_eq. unfold reserves_new in Hn. simpl in Hn.
  destruct r0 as [[x|] sh]; simpl in *; [|done]. case_bool_decide as Hk; [done|].
  split; [|by intros [= -> ->]].
  exists (FidReservations_mk (Some x) sh). by apply map_lookup_filter_Some.
Qed.

Lemma size_new_part_strip k m : (size (new_part (strip k m)) ≤ size (new_part m))%nat.
Proof.
  rewrite <- !size_dom. apply subseteq_size. intros f Hf. apply elem_of_dom in Hf.
  apply elem_of_dom. by apply new_part_strip_lookup in Hf as [? _].
Qed.

Lemma size_new_part_strip_lt k m f :
  m !! f = Some (FidReservations_mk (Some (FidReservation_mk k true)) ∅) →
  (size (new_part (strip k m)) < size (new_part m))%nat.
Proof.
  intros H. rewrite <- !size_dom. apply subset_size. split.
  - intros g Hg. apply elem_of_dom in Hg. apply elem_of_dom.
    by apply new_part_strip_lookup in Hg as [? _].
  - intros Hsub. assert (f ∈ dom (new_part m)) as Hf.
    { apply elem_of_dom. eexists. by apply map_lookup_filter_Some. }
    apply Hsub, elem_of_dom, new_part_strip_lookup in Hf as [_ ?]. done.
Qed.

(** ** The reservation methods, on their success branches *)

Lemma unreserved_None s f :
  session_ok s → ensure_unreserved s f = Ok () ↔ reservations s !! f = None.
Proof.
  intros Hs. unfold ensure_unreserved. destruct (reservations s !! f) as [r|] eqn:E; [|done].
  by rewrite (res_nonempty _ _ _ (ok_res _ Hs _ _ E)).
Qed.

Lemma available_None s f :
  ensure_available s f = Ok () ↔ ∀ r, reservations s !! f = Some r → exclusive r = None.
Proof.
  unfold ensure_available. destruct (reservations s !! f) as [[e sh]|]; [|naive_solver].
  simpl. case_bool_decide as H.
  - destruct H as [x ->]. naive_solver.
  - apply eq_None_not_Some in H. naive_solver.
Qed.

Lemma reserve_new_Ok k f s s' :
  reserve_new_fid k f s = (Ok (), s') ↔
  fids s !! f = None ∧ reservations s !! f = None ∧ fid_count s < max_fids (config s) ∧
  s' = set_reservations (<[f := FidReservations_mk (Some (FidReservation_mk k true)) ∅]>
                           (reservations s)) s.
Proof.
  unfold reserve_new_fid, contains_fid.
  destruct (fids s !! f) eqn:E1; simpl; [naive_solver|].
  destruct (reservations s !! f) as [r|] eqn:E2; simpl.
  { rewrite orb_true_r. naive_solver. }
  destruct (Z.leb_spec (max_fids (config s)) (fid_count s)); naive_solver lia.
Qed.

Lemma reserve_existing_Ok k f s s' :
  session_ok s →
  reserve_existing_fid k f s = (Ok (), s') ↔
  is_Some (fids s !! f) ∧ reservations s !! f = None ∧
  s' = set_reservations (<[f := FidReservations_mk (Some (FidReservation_mk k false)) ∅]>
                           (reservations s)) s.
Proof.
  intros Hs. unfold reserve_existing_fid, entry_or_default.
  destruct (fids s !! f) eqn:E1; simpl; [|naive_solver].
  destruct (reservations s !! f) as [r|] eqn:E2; simpl.
  - rewrite (res_nonempty _ _ _ (ok_res _ Hs _ _ E2)). naive_solver.
  - split; [by intros [= <-]|by intros (_ & _ & ->)].
Qed.

Lemma reserve_shared_Ok k f s s' :
  reserve_shared_fid k f s = (Ok (), s') ↔
  is_Some (fids s !! f) ∧ exclusive (entry_or_default s f) = None ∧
  s' = set_reservations
         (<[f := FidReservations_mk None ({[k]} ∪ shared (entry_or_default s f))]>
            (reservations s)) s.
Proof.
  unfold reserve_shared_fid. destruct (fids s !! f) eqn:E1; simpl; [|naive_solver].
  case_bool_decide as H.
  - destruct H as [x H]. rewrite H. naive_solver.
  - apply eq_None_not_Some in H. rewrite H. naive_solver.
Qed.

Lemma retire_Ok k f s st s' :
  session_ok s →
  retire_fid k f s = (Ok st, s') ↔
  reservations s !! f = None ∧ fids s !! f = Some st ∧
  s' = set_reservations (<[f := FidReservations_mk (Some (FidReservation_mk k false)) ∅]>
                           (reservations s)) (set_fids (delete f (fids s)) s).
Proof.
  intros Hs. unfold retire_fid. destruct (ensure_unreserved s f) as [[]|e] eqn:E.
  - apply (unreserved_None _ _ Hs) in E. destruct (fids s !! f); naive_solver.
  - split; [done|]. intros (H & _). apply (unreserved_None _ _ Hs) in H. congruence.
Qed.

(** ** What one reservation establishes and keeps *)

(** The effect of a reservation by [k]: the new session is well formed and
    frames the old one, with the same dialect and the same live requests. *)
Record extends (s s' : Session) : Prop := {
  ext_ok : session_ok s';
  ext_frame : frame s s';
  ext_dialect : same_dialect s s';
  ext_requests : requests s' = requests s;
}.

#[export] Instance extends_trans : Transitive extends.
Proof. intros s1 s2 s3 [] []. split; [done|by etrans|by etrans|congruence]. Qed.

Lemma extends_refl s : session_ok s → extends s s.
Proof. by split. Qed.

Lemma extends_key s s' k : extends s s' → key_live s k → key_live s' k.
Proof. intros E. unfold key_live. by rewrite (ext_requests _ _ E). Qed.

#[export] Hint Resolve ext_ok ext_frame ext_dialect extends_refl extends_key : r9p.

Lemma res_ok_same s s' f r :
  (∀ k, key_live s k → key_live s' k) → (is_Some (fids s' !! f) ↔ is_Some (fids s !! f)) →
  res_ok s f r → res_ok s' f r.
Proof.
  intros Hr Hf []. split; try done; [by eauto..| |].
  - intros x H1 H2. specialize (res_new_unbound0 x H1 H2).
    apply eq_None_not_Some. rewrite Hf. by apply eq_None_not_Some.
  - intros k Hk. rewrite Hf. eauto.
Qed.

Lemma set_requests_ok s t :
  session_ok s → RequestTable_wf t → (∀ k, key_live s k → live t !! key_tag k = Some k) →
  session_ok (set_requests t s).
Proof.
  intros Hs Ht Hl. split; [done| |exact (ok_limit _ Hs)].
  intros f r H. apply res_ok_same with s; [done..|by apply Hs].
Qed.

Lemma insert_reservation s f r :
  session_ok s → res_ok s f r →
  (∀ r0, reservations s !! f = Some r0 →
     exclusive r = exclusive r0 ∧ exclusive r0 = None ∧ shared r0 ⊆ shared r) →
  (reserves_new r = true → fid_count s < max_fids (config s)) →
  extends s (set_reservations (<[f := r]> (reservations s)) s).
Proof.
  intros Hs Hr Hold Hcount. split; [split| |done..].
  - exact (ok_table _ Hs).
  - simpl. intros g r' [[<- <-]|[Hg H]]%lookup_insert_Some; [by apply res_ok_same with s|].
    apply res_ok_same with s; try done. by apply Hs.
  - pose proof (ok_limit _ Hs) as Hl. pose proof (size_new_part_insert (reservations s) f r).
    rewrite fid_count_eq in *. simpl. destruct (reserves_new r); [specialize (Hcount eq_refl)|]; lia.
  - intros g r0 Hg. simpl. split; [|done]. destruct (decide (g = f)) as [->|].
    + rewrite lookup_insert_eq. exists r. destruct (Hold _ Hg) as (H1 & H2 & H3).
      split_and!; [done..|]. rewrite H2. by intros [].
    + rewrite lookup_insert_ne by done. naive_solver.
Qed.

Lemma reserve_new_extends k f s s' :
  session_ok s → key_live s k → reserve_new_fid k f s = (Ok (), s') →
  extends s s' ∧ holds_new s' k f.
Proof.
  intros Hs Hk (Hf & Hr & Hc & ->)%reserve_new_Ok. split; [|apply lookup_insert_eq].
  apply insert_reservation; [done| |by rewrite Hr|done].
  split; simpl; try done; naive_solver.
Qed.

Lemma reserve_existing_extends k f s s' :
  session_ok s → key_live s k → reserve_existing_fid k f s = (Ok (), s') →
  extends s s' ∧ holds_excl s' k f.
Proof.
  intros Hs Hk (Hf & Hr & ->)%(reserve_existing_Ok _ _ _ _ Hs).
  split; [|split; [apply lookup_insert_eq|done]].
  apply insert_reservation; [done| |by rewrite Hr|done].
  split; simpl; try done; naive_solver.
Qed.

Lemma reserve_shared_extends k f s s' :
  session_ok s → key_live s k → reserve_shared_fid k f s = (Ok (), s') →
  extends s s' ∧ holds_shared s' k f.
Proof.
  intros Hs Hk (Hf & He & ->)%reserve_shared_Ok. split.
  - apply insert_reservation; [done| | |done].
    + split; simpl; try done.
      * apply is_empty_false. intros [= H]. set_solver.
      * intros k' [->%elem_of_singleton|Hk']%elem_of_union; [done|].
        unfold entry_or_default in Hk'. destruct (reservations s !! f) as [r|] eqn:E; [|set_solver].
        by eapply res_shared_live; [apply Hs|].
    + intros r0 Hr0. unfold entry_or_default in *. rewrite Hr0 in *. simpl in *. set_solver.
  - split; [|done]. eexists. split; [apply lookup_insert_eq|]. simpl. set_solver.
Qed.

Lemma retire_extends k f s st s' :
  session_ok s → key_live s k → retire_fid k f s = (Ok st, s') →
  extends s s' ∧ holds_retired s' k f ∧ fids s !! f = Some st.
Proof.
  intros Hs Hk (Hr & Hf & ->)%(retire_Ok _ _ _ _ _ Hs).
  split_and!; [|split; [apply lookup_insert_eq|apply lookup_delete_eq]|done].
  split; [split| |done..].
  - exact (ok_table _ Hs).
  - simpl. intros g r [[<- <-]|[Hg H]]%lookup_insert_Some.
    + split; simpl; try done; naive_solver.
    + apply res_ok_same with s; [done| |by apply Hs]. simpl. by rewrite lookup_delete_ne.
  - pose proof (ok_limit _ Hs) as Hl.
    pose proof (size_new_part_insert (reservations s) f
      (FidReservations_mk (Some (FidReservation_mk k false)) ∅)) as Hi.
    rewrite fid_count_eq in *. simpl in *. rewrite map_size_delete, Hf. lia.
  - intros g r Hg. simpl. assert (g ≠ f) by congruence.
    rewrite lookup_insert_ne, lookup_delete_ne by done. naive_solver.
Qed.

(** ** What a release undoes *)

(** [s'] differs from [s] at most in reservations made by [k]. *)
Record undoes (k : RequestKey) (s s' : Session) : Prop := {
  und_fids : fids s' = fids s;
  und_requests : requests s' = requests s;
  und_dialect : same_dialect s s';
  und_strip : strip k (reservations s') = strip k (reservations s);
}.

#[export] Instance undoes_preorder k : PreOrder (undoes k).
Proof.
  split; [done|]. intros s1 s2 s3 [] []. split; try congruence. by etrans.
Qed.

Lemma undoes_insert k f r s :
  release_one k r = release_one k (entry_or_default s f) →
  undoes k s (set_reservations (<[f := r]> (reservations s)) s).
Proof. intros H. split; try done. simpl. by apply strip_insert. Qed.

Lemma reserve_new_undo k f s r s' : reserve_new_fid k f s = (r, s') → undoes k s s'.
Proof.
  unfold reserve_new_fid. destruct (_ || _) eqn:E; [by intros [= _ <-]|].
  case_match; intros [= _ <-]; [done|]. apply undoes_insert.
  apply orb_false_iff in E as [_ E]. apply bool_decide_eq_false, eq_None_not_Some in E.
  unfold entry_or_default, release_one. rewrite E. simpl. by rewrite bool_decide_true.
Qed.

Lemma reserve_existing_undo k f s r s' : reserve_existing_fid k f s = (r, s') → undoes k s s'.
Proof.
  unfold reserve_existing_fid. case_bool_decide; [by intros [= _ <-]|].
  destruct (is_empty _) eqn:E; intros [= _ <-]; apply undoes_insert; [|done].
  apply is_empty_true in E. rewrite E. unfold release_one. simpl. by rewrite bool_decide_true.
Qed.

Lemma reserve_shared_undo k f s r s' : reserve_shared_fid k f s = (r, s') → undoes k s s'.
Proof.
  unfold reserve_shared_fid. case_bool_decide; [by intros [= _ <-]|].
  case_bool_decide; intros [= _ <-]; apply undoes_insert; [done|].
  unfold release_one. simpl. f_equal. set_solver.
Qed.

Lemma retire_Err k f s e s' : retire_fid k f s = (Err e, s') → s' = s.
Proof. unfold retire_fid. repeat case_match; naive_solver. Qed.

#[export] Hint Resolve reserve_new_undo reserve_existing_undo reserve_shared_undo : r9p.

(** ** Binding a fid *)

Lemma set_fids_extends s f st :
  session_ok s → reservations s !! f = None →
  (fids s !! f = None → fid_count s < max_fids (config s)) →
  extends s (set_fids (<[f := st]> (fids s)) s).
Proof.
  intros Hs Hr Hc.
  assert (∀ g r, reservations s !! g = Some r →
            fids (set_fids (<[f := st]> (fids s)) s) !! g = fids s !! g) as Hg.
  { intros g r Hg. simpl. rewrite lookup_insert_ne; congruence. }
  split; [split| |done..].
  - exact (ok_table _ Hs).
  - intros g r H. apply res_ok_same with s; [done| |by apply Hs]. by rewrite (Hg _ _ H).
  - pose proof (ok_limit _ Hs) as Hl. rewrite fid_count_eq in *. simpl.
    rewrite map_size_insert. destruct (fids s !! f) eqn:E; simpl; [lia|]. specialize (Hc eq_refl). lia.
  - intros g r H. rewrite (Hg _ _ H). simpl. naive_solver.
Qed.

Lemma bind_bound f st s :
  session_ok s → is_Some (fids s !! f) → reservations s !! f = None →
  bind_fid f st s = (Ok (), set_fids (<[f := st]> (fids s)) s) ∧
  extends s (set_fids (<[f := st]> (fids s)) s).
Proof.
  intros Hs [x Hf] Hr. split; [|apply set_fids_extends; [done..|congruence]].
  unfold bind_fid. rewrite (proj2 (unreserved_None _ f Hs) Hr), Hf. done.
Qed.

Lemma insert_free f st s :
  session_ok s → fids s !! f = None → reservations s !! f = None →
  fid_count s < max_fids (config s) →
  insert_new_fid f st s = (Ok (), set_fids (<[f := st]> (fids s)) s) ∧
  extends s (set_fids (<[f := st]> (fids s)) s).
Proof.
  intros Hs Hf Hr Hc. split; [|by apply set_fids_extends].
  unfold insert_new_fid, bind_fid. rewrite (proj2 (unreserved_None _ f Hs) Hr), Hf. simpl.
  rewrite (proj2 (Z.leb_gt _ _)); [done|]. rewrite fid_count_eq in Hc. lia.
Qed.

(** ** Ending a request: its key leaves the table and its reservations go *)

Definition drop_key (k : RequestKey) (s : Session) : Session :=
  set_requests (RequestTable_mk (next_generation (requests s))
                  (delete (key_tag k) (live (requests s)))) s.

Definition settle (k : RequestKey) (s : Session) : Session :=
  release_reservations k (drop_key k s).

Lemma drop_key_other k k' s : key_live s k → key_live s k' → k' ≠ k → key_live (drop_key k s) k'.
Proof.
  unfold key_live. simpl. intros Hk Hk' Hn. rewrite lookup_delete_ne; [done|].
  intros E. rewrite E in Hk. congruence.
Qed.

Lemma settle_other k k' s : key_live s k → key_live s k' → k' ≠ k → key_live (settle k s) k'.
Proof. apply drop_key_other. Qed.

Lemma settle_live k k' s : key_live (settle k s) k' → key_live s k' ∧ k' ≠ k.
Proof.
  unfold key_live. simpl. intros [Hn H]%lookup_delete_Some. split; [done|congruence].
Qed.

Lemma free_of_released k r k' :
  (∃ x, exclusive (release_one k r) = Some x ∧ res_request x = k') ∨ k' ∈ shared (release_one k r) →
  k' ≠ k.
Proof.
  unfold release_one. simpl. intros [(x & H & <-)|H]; [|set_solver].
  destruct (exclusive r); [|done]. case_bool_decide; naive_solver.
Qed.

Lemma settle_ok k s : session_ok s → key_live s k → session_ok (settle k s).
Proof.
  intros Hs Hk. split.
  - pose proof (table_step_wf _ (Finish k) (ok_table _ Hs)) as H. simpl in H.
    unfold finish in H. rewrite Hk, bool_decide_true in H by done. exact H.
  - intros f r H. change (strip k (reservations s) !! f = Some r) in H.
    rewrite strip_lookup in H. destruct (reservations s !! f) as [r0|] eqn:E; [|done].
    destruct (is_empty _) eqn:Ee; [done|]. simplify_eq.
    destruct (ok_res _ Hs _ _ E) as [H1 H2 H3 H4 H5 H6].
    assert (∀ x, exclusive (release_one k r0) = Some x → exclusive r0 = Some x) as Hx.
    { simpl. intros x. destruct (exclusive r0); [|done]. by case_bool_decide. }
    split.
    + done.
    + intros x Hx'. simpl. rewrite (H2 x) by auto. set_solver.
    + intros x Hx'. apply settle_other; [done|by apply H3, Hx|].
      eapply free_of_released. left. eauto.
    + intros k' Hk'. apply settle_other; [done|apply H4; set_solver|].
      eapply free_of_released. by right.
    + intros x Hx'. apply H5. auto.
    + intros k' Hk'. apply (H6 k'). set_solver.
  - pose proof (ok_limit _ Hs) as Hl. pose proof (size_new_part_strip k (reservations s)).
    rewrite fid_count_eq in *. change (reservations (settle k s)) with (strip k (reservations s)).
    simpl. lia.
Qed.

Lemma settle_new s k f :
  session_ok s → holds_new s k f →
  fids (settle k s) !! f = None ∧ reservations (settle k s) !! f = None ∧
  fid_count (settle k s) < max_fids (config (settle k s)).
Proof.
  intros Hs Hh. split_and!.
  - exact (res_new_unbound _ _ _ (ok_res _ Hs _ _ Hh) _ eq_refl eq_refl).
  - exact (strip_own _ _ _ _ Hh).
  - pose proof (ok_limit _ Hs) as Hl. pose proof (size_new_part_strip_lt k (reservations s) f Hh).
    rewrite fid_count_eq in *. change (reservations (settle k s)) with (strip k (reservations s)).
    simpl. lia.
Qed.

Lemma settle_excl s k f :
  holds_excl s k f → is_Some (fids (settle k s) !! f) ∧ reservations (settle k s) !! f = None.
Proof.
  intros [Hh Hf]. split; [done|exact (strip_own _ _ _ _ Hh)].
Qed.

(** Nothing is reserved for a key that no reservation mentions. *)
Lemma settle_unused k s :
  (∀ f r, reservations s !! f = Some r → free_of k r ∧ is_empty r = false) →
  settle k s = drop_key k s.
Proof.
  intros H. unfold settle. rewrite release_is_strip. simpl. rewrite (strip_free _ _ H).
  by destruct s.
Qed.

Lemma dead_key_unused s k :
  session_ok s → ¬ key_live s k →
  ∀ f r, reservations s !! f = Some r → free_of k r ∧ is_empty r = false.
Proof.
  intros Hs Hk f r H. destruct (ok_res _ Hs _ _ H). split; [|done]. split.
  - intros x Hx <-. by apply Hk, res_excl_live0.
  - intros Hin. by apply Hk, res_shared_live0.
Qed.
