(* ===== verification/ServerInv.v ===== *)
(** Requests in flight: the invariant that [admit] and [complete] of
    [crates/core/src/server/handlers.rs] keep, whatever the client sends and in
    whatever order the application's answers arrive. *)
From S2P Require Import Prelude Errors Qid Stat Referral Message Codec.
From S2P Require Import RequestTable Session Server Reservations.

(** ** What a request in flight holds *)

Definition holds (s : Session) (req : ServerRequest) : Prop :=
  let k := req_key req in
  match req_kind req with
  | KAuth afid _ _ => holds_new s k afid
  | KAttach f afid _ _ => holds_new s k f ∧ (afid ≠ NOFID → holds_excl s k afid)
  | KWalk f newfid _ _ =>
      if newfid =? f then holds_excl s k f else holds_shared s k f ∧ holds_new s k newfid
  | KOpen f _ _ | KCreate f _ _ _ _ | KWstat f _ _ => holds_excl s k f
  | KRead f qid _ _ => is_dir qid = true → holds_excl s k f
  | KClunk f _ | KRemove f _ => holds_retired s k f
  | KRenameAt olddirfid _ _ newdirfid _ _ => holds_shared s k olddirfid ∧ holds_shared s k newdirfid
  | KReferrals f _ => holds_shared s k f
  | KWrite _ _ _ _ | KStat _ _ => True
  end.

(** What the admission checks established about the request itself. *)
Definition admitted (s : Session) (kind : ServerRequestKind) : Prop :=
  match kind with
  | KWalk _ _ start wnames =>
      validate_walk_names wnames = Ok () ∧ (wnames ≠ [] → is_dir start = true)
  | KRead _ _ _ count => count ≤ saturating_sub (s_msize s) RREAD_HEADER_SIZE
  | KWrite _ _ _ data => vlen data ≤ max_write_payload (s_msize s)
  | KRenameAt _ _ _ _ _ _ | KReferrals _ _ => s_variant s = Some R
  | _ => True
  end.

Lemma holds_frame s s' req : frame s s' → holds s req → holds s' req.
Proof.
  intros Hf. unfold holds. destruct (req_kind req); try case_match; naive_solver eauto with r9p.
Qed.

Lemma holds_release s k req :
  req_key req ≠ k → holds s req → holds (release_reservations k s) req.
Proof.
  intros Hk. unfold holds. destruct (req_kind req); try case_match; naive_solver eauto with r9p.
Qed.

Lemma admitted_dialect s s' kind : same_dialect s s' → admitted s kind → admitted s' kind.
Proof.
  intros (_ & Hm & _ & Hv & _). unfold admitted. destruct kind; by rewrite ?Hm, ?Hv.
Qed.

(** ** Admission *)

Lemma set_requests_eta s : set_requests (requests s) s = s.
Proof. by destruct s. Qed.

Lemma set_fids_eta s : set_fids (fids s) s = s.
Proof. by destruct s. Qed.

Lemma lift_Ok {S A} (r : Result A) (s s' : S) a : lift r s = (Ok a, s') ↔ r = Ok a ∧ s' = s.
Proof. unfold lift. split; [by intros [= -> ->]|by intros [-> ->]]. Qed.

Lemma session_fid_Ok f s st s' :
  session_fid f s = (Ok st, s') ↔ fid s f = Ok st ∧ s' = s.
Proof. unfold session_fid. split; [by intros [= -> ->]|by intros [-> ->]]. Qed.

Lemma session_variant_Ok s v s' :
  session_variant s = (Ok v, s') ↔ s_variant s = Some v ∧ s' = s.
Proof.
  unfold session_variant. destruct (s_variant s); simpl.
  - split; [by intros [= -> ->]|by intros [[= ->] ->]].
  - naive_solver.
Qed.

(** Walks down a successful run of a session method. *)
Ltac run_ok :=
  repeat match goal with
  | H : (_ ≫= _) _ = (Ok _, _) |- _ => apply M_bind_Ok in H as (? & ? & ? & H)
  | H : get _ = (Ok _, _) |- _ => injection H as ??; subst
  | H : mret _ _ = (Ok _, _) |- _ => injection H as ??; subst
  | H : throw _ _ = (Ok _, _) |- _ => discriminate H
  | H : lift _ _ = (Ok _, _) |- _ => apply lift_Ok in H as [? ->]
  | H : session_fid _ _ = (Ok _, _) |- _ => apply session_fid_Ok in H as [? ->]
  | H : session_variant _ = (Ok _, _) |- _ => apply session_variant_Ok in H as [? ->]
  | H : (if ?b then _ else _) _ = (Ok _, _) |- _ => destruct b eqn:?
  | x : () |- _ => destruct x
  end.

(** Chains the reservations of a successful admission. *)
Ltac chain_reservations :=
  repeat match goal with
  | Hs : session_ok ?s, Hk : key_live ?s ?k, H : reserve_new_fid ?k _ ?s = _ |- _ =>
      destruct (reserve_new_extends _ _ _ _ Hs Hk H) as [? ?]; clear H
  | Hs : session_ok ?s, Hk : key_live ?s ?k, H : reserve_existing_fid ?k _ ?s = _ |- _ =>
      destruct (reserve_existing_extends _ _ _ _ Hs Hk H) as [? ?]; clear H
  | Hs : session_ok ?s, Hk : key_live ?s ?k, H : reserve_shared_fid ?k _ ?s = _ |- _ =>
      destruct (reserve_shared_extends _ _ _ _ Hs Hk H) as [? ?]; clear H
  | Hs : session_ok ?s, Hk : key_live ?s ?k, H : retire_fid ?k _ ?s = _ |- _ =>
      destruct (retire_extends _ _ _ _ _ Hs Hk H) as (? & ? & ?); clear H
  | E : extends ?s ?s', Hk : key_live ?s ?k |- _ =>
      lazymatch goal with _ : key_live s' k |- _ => fail | _ => idtac end;
      pose proof (ext_ok _ _ E); pose proof (extends_key _ _ _ E Hk)
  end.

Definition is_tflush (m : TMessage) : bool :=
  match m with TFlush _ _ => true | _ => false end.

(** Turns the boolean guards that a run has passed into propositions. *)
Ltac guards :=
  repeat match goal with
  | H : negb _ = true |- _ => apply negb_true_iff in H
  | H : negb _ = false |- _ => apply negb_false_iff in H
  | H : (_ =? _) = true |- _ => apply Z.eqb_eq in H
  | H : (_ =? _) = false |- _ => apply Z.eqb_neq in H
  | H : (_ <? _) = false |- _ => apply Z.ltb_ge in H
  | H : _ && _ = false |- _ => apply andb_false_iff in H
  | H : bool_decide _ = true |- _ => apply bool_decide_eq_true in H
  | H : bool_decide _ = false |- _ => apply bool_decide_eq_false in H
  end.

Lemma dialect_msize s s' : same_dialect s s' → s_msize s' = s_msize s.
Proof. by intros (_ & ? & _). Qed.

Lemma dialect_variant s s' : same_dialect s s' → s_variant s' = s_variant s.
Proof. by intros (_ & _ & _ & ? & _). Qed.

Lemma admit_dispatches m k s ev s' :
  session_ok s → key_live s k → is_tflush m = false →
  admit_after_begin m k s = (Ok ev, s') →
  ∃ kind, ev = dispatch k kind ∧ extends s s' ∧ holds s' (ServerRequest_mk k kind).
Proof.
  intros Hs Hk Hm H. destruct m; cbn [admit_after_begin] in H; try done; run_ok;
    chain_reservations; guards; eexists; (split; [done|]); unfold holds; cbn [req_kind req_key];
    (split; [solve [eauto with r9p|etrans; eauto with r9p]|]);
    repeat case_match; guards; subst; intuition (eauto with r9p; congruence).
Qed.

Lemma admit_admitted m k s kind s' :
  same_dialect s s' → admit_after_begin m k s = (Ok (dispatch k kind), s') → admitted s' kind.
Proof.
  intros Hd H. pose proof (dialect_msize _ _ Hd) as Em. pose proof (dialect_variant _ _ Hd) as Ev.
  destruct m; cbn [admit_after_begin] in H; run_ok; guards;
    try match goal with H : dispatch _ _ = _ |- _ => injection H as <- end;
    unfold admitted; rewrite ?Em, ?Ev; try done;
    try (unfold clamp_read_count; lia);
    try (unfold supports_rename_at, supports_referrals in *; guards; congruence).
  1,2: split; [done|]; intros; destruct_or!; guards; congruence.
  match goal with H : ok_or _ _ = Ok _ |- _ => apply ok_or_Ok, try_from_Some in H as [-> _] end.
  done.
Qed.

Lemma admit_flush tag oldtag k s ev s' :
  admit_after_begin (TFlush tag oldtag) k s = (Ok ev, s') →
  oldtag ≠ NOTAG ∧
  ∃ outcome, ev = FlushEvent (RFlush (key_tag k)) outcome ∧
    match live (requests s) !! oldtag with
    | Some c => outcome = Cancelled c ∧
        s' = (finish_request k (release_reservations c
               (set_requests (flush oldtag (requests s)).2 s))).2
    | None => outcome = Unknown ∧
        s' = (finish_request k (set_requests (flush oldtag (requests s)).2 s)).2
    end.
Proof.
  cbn [admit_after_begin]. intros H. run_ok. unfold on_requests, flush in *.
  destruct (oldtag =? NOTAG) eqn:E; [done|]. guards. split; [done|].
  destruct (live (requests s) !! oldtag) as [c|]; unfold modify in *; simplify_eq;
    eexists; split_and!; done.
Qed.

(** A request that is refused leaves at most reservations of its own. *)
Ltac undo_step :=
  match goal with
  | H : (_ ≫= _) _ = (Err _, _) |- _ => apply M_bind_Err in H as [H|(? & ? & ? & H)]
  | H : (_ ≫= _) _ = (Ok _, _) |- _ => apply M_bind_Ok in H as (? & ? & ? & H)
  | H : get _ = (_, _) |- _ => injection H as ??; subst
  | H : mret _ _ = (_, _) |- _ => injection H as ??; subst
  | H : throw _ _ = (_, _) |- _ => injection H as ??; subst
  | H : lift _ _ = (_, _) |- _ => injection H as ??; subst
  | H : session_fid _ _ = (_, _) |- _ => injection H as ??; subst
  | H : session_variant _ = (_, _) |- _ => injection H as ??; subst
  | H : retire_fid _ _ _ = (Err _, _) |- _ => apply retire_Err in H as ->
  | H : (if ?b then _ else _) _ = (_, _) |- _ => destruct b eqn:?
  end.

Lemma admit_refuses m k s e s' :
  admit_after_begin m k s = (Err e, s') → undoes k s s'.
Proof.
  intros H. destruct m; cbn [admit_after_begin] in H; repeat undo_step; try done;
    try solve [eauto with r9p|etrans; eauto with r9p].
  all: unfold on_requests, flush, modify, dispatch in *; repeat case_match; simplify_eq; done.
Qed.

(** ** Completion, without reservations

    What a completion means for the client: the reply and the fid table it
    leaves, as a function of the dialect, the message size, the fid table and
    the request alone.  Neither reservations nor limits appear. *)
Definition spec_completion (v : Variant) (msize tag : Z) (fs : gmap Z FidState)
    (kind : ServerRequestKind) (c : ServerCompletion) : Result (RMessage * gmap Z FidState) :=
  match kind, c with
  | KAuth afid _ _, CAuth qid =>
      _ ← guard_or (is_auth qid) (from_static ENOAUTH);
      _ ← validate_qid_variant v qid;
      Ok (RAuth tag qid, <[afid := FidState_opened qid ORDWR]> fs)
  | KAttach f _ _ _, CAttach qid =>
      _ ← validate_qid_variant v qid;
      Ok (RAttach tag qid, <[f := FidState_new qid]> fs)
  | KWalk f newfid start wnames, CWalk qids =>
      _ ← guard_or (vlen qids <=? vlen wnames) (from_static "walk returned too many qids");
      _ ← for_each (validate_qid_variant v) qids;
      if bool_decide (wnames = []) then
        Ok (RWalk tag [], if newfid =? f then fs else <[newfid := FidState_new start]> fs)
      else
        qid ← ok_or (last qids) (from_static ENOENT);
        Ok (RWalk tag qids,
            if vlen qids =? vlen wnames then <[newfid := FidState_new qid]> fs else fs)
  | KOpen f _ mode, COpen o =>
      _ ← validate_qid_variant v (of_qid o);
      Ok (ROpen tag (of_qid o) (clamp_iounit msize (of_iounit o)),
          <[f := FidState_opened (of_qid o) mode]> fs)
  | KCreate f _ _ _ mode, CCreate o =>
      _ ← validate_qid_variant v (of_qid o);
      Ok (RCreate tag (of_qid o) (clamp_iounit msize (of_iounit o)),
          <[f := FidState_opened (of_qid o) mode]> fs)
  | KRead f qid offset count, CRead data =>
      data ← apply_read v data offset count;
      if is_dir qid then
        state ← ok_or (fs !! f) (from_static EBADFID);
        n ← ok_or (try_from u64_max (vlen data)) (from_static "directory read count too large");
        next ← ok_or (checked_add u64_max offset n) (from_static "directory offset overflow");
        Ok (RRead tag data, <[f := with_directory_offset state next]> fs)
      else Ok (RRead tag data, fs)
  | KWrite _ _ _ data, CWrite count =>
      n ← ok_or (try_from usize_max count) (from_static "write completion exceeds request count");
      _ ← guard_or (n <=? vlen data) (from_static "write completion exceeds request count");
      Ok (RWrite tag count, fs)
  | KClunk _ _, CClunk => Ok (RClunk tag, fs)
  | KRemove _ _, CRemove => Ok (RRemove tag, fs)
  | KStat _ _, CStat stat => _ ← validate_stat_variant v stat; Ok (RStat tag stat, fs)
  | KWstat _ _ _, CWstat => Ok (RWstat tag, fs)
  | KRenameAt _ _ _ _ _ _, CRenameAt => Ok (RRenameAt tag, fs)
  | KReferrals _ _, CReferrals rs => _ ← for_each validate rs; Ok (RReferrals tag rs, fs)
  | _, _ => Err (from_static "completion kind does not match request")
  end.

(** The fids a settled request is about to bind can be bound. *)
Definition bindable (s : Session) (f : Z) : Prop :=
  fids s !! f = None ∧ reservations s !! f = None ∧ fid_count s < max_fids (config s).
Definition rebindable (s : Session) (f : Z) : Prop :=
  is_Some (fids s !! f) ∧ reservations s !! f = None.

Definition ready (s : Session) (kind : ServerRequestKind) : Prop :=
  match kind with
  | KAuth f _ _ | KAttach f _ _ _ => bindable s f
  | KWalk f newfid _ _ => if newfid =? f then rebindable s f else bindable s newfid
  | KOpen f _ _ | KCreate f _ _ _ _ => rebindable s f
  | KRead f qid _ _ => is_dir qid = true → rebindable s f
  | _ => True
  end.

Lemma settle_ready s req :
  session_ok s → holds s req → ready (settle (req_key req) s) (req_kind req).
Proof.
  intros Hs Hh. unfold holds, ready in *.
  destruct (req_kind req); try case_match; unfold bindable, rebindable; try done;
    try solve [apply settle_new; naive_solver|apply settle_excl; naive_solver].
  intros. apply settle_excl; auto.
Qed.

(** The result of running [apply_completion] against its specification. *)
Definition settles_to (s : Session) (r : Result (RMessage * gmap Z FidState)) : Result RMessage * Session :=
  match r with
  | Ok (reply, fs) => (Ok reply, set_fids fs s)
  | Err e => (Err e, s)
  end.

Lemma lift_bind {S A B} (r : Result A) (k : A → M S B) s :
  (x ← lift r; k x) s = match r with Ok a => k a s | Err e => (Err e, s) end.
Proof. by destruct r. Qed.

Lemma fid_rebindable s f : rebindable s f → fid s f = ok_or (fids s !! f) (from_static EBADFID).
Proof.
  intros [_ Hr]. unfold fid. unfold ensure_available. by rewrite Hr.
Qed.

Lemma insert_bindable s f st :
  session_ok s → bindable s f → insert_new_fid f st s = (Ok (), set_fids (<[f := st]> (fids s)) s).
Proof. intros Hs (? & ? & ?). by apply insert_free. Qed.

Lemma bind_rebindable s f st :
  session_ok s → rebindable s f → bind_fid f st s = (Ok (), set_fids (<[f := st]> (fids s)) s).
Proof. intros Hs (? & ?). by apply bind_bound. Qed.

Lemma negb_ltb_leb a b : (a <=? b) = negb (b <? a).
Proof. rewrite Z.leb_antisym. done. Qed.

Lemma apply_completion_spec tag kind c s v :
  session_ok s → s_variant s = Some v → ready s kind →
  apply_completion tag kind c s = settles_to s (spec_completion v (s_msize s) tag (fids s) kind c).
Proof.
  intros Hs Hv Hr. unfold apply_completion, mbind, M_bind, session_variant at 1. rewrite Hv. simpl.
  destruct kind, c; cbn [spec_completion ready] in *; try (by destruct s).
  - destruct (is_auth qid); [|done]. simpl. destruct (validate_qid_variant _ _); [|done].
    simpl. by rewrite insert_bindable.
  - destruct (validate_qid_variant _ _); [|done]. simpl. by rewrite insert_bindable.
  - rewrite negb_ltb_leb. destruct (_ <? _); [done|]. simpl.
    destruct (for_each _ _); [|done]. simpl. case_bool_decide.
    + destruct (_ =? _); simpl; [by destruct s|]. by rewrite insert_bindable.
    + destruct (last qids); [|done]. simpl. destruct (_ =? vlen wnames); simpl; [|by destruct s].
      destruct (Z.eqb_spec newfid fid) as [->|]; [by rewrite bind_rebindable|].
      by rewrite insert_bindable.
  - destruct (validate_qid_variant _ _); [|done]. simpl. by rewrite bind_rebindable.
  - destruct (validate_qid_variant _ _); [|done]. simpl. by rewrite bind_rebindable.
  - destruct (apply_read _ _ _ _) as [bs|]; [|done]. simpl.
    destruct (is_dir qid); simpl; [|by destruct s]. specialize (Hr eq_refl).
    unfold session_fid. rewrite (fid_rebindable _ _ Hr). destruct (_ !! _); simpl; [|done].
    destruct (try_from _ _); simpl; [|done]. destruct (checked_add _ _ _); simpl; [|done].
    by rewrite bind_rebindable.
  - destruct (try_from _ _); simpl; [|done]. rewrite negb_ltb_leb.
    destruct (_ <? _); simpl; [done|]. by destruct s.
  - destruct (validate_stat_variant _ _); simpl; [by destruct s|done].
  - destruct (for_each _ _); simpl; [by destruct s|done].
Qed.

Lemma spec_extends tag kind c s v reply fs :
  session_ok s → ready s kind →
  spec_completion v (s_msize s) tag (fids s) kind c = Ok (reply, fs) →
  extends s (set_fids fs s).
Proof.
  intros Hs Hr H.
  assert (∀ f st, bindable s f → extends s (set_fids (<[f := st]> (fids s)) s)) as Hb.
  { intros f st (? & ? & ?). by apply insert_free. }
  assert (∀ f st, rebindable s f → extends s (set_fids (<[f := st]> (fids s)) s)) as Hrb.
  { intros f st (? & ?). by apply bind_bound. }
  destruct kind, c; cbn [spec_completion ready] in *; try done; inv_ok; simplify_eq;
    rewrite ?set_fids_eta; auto using extends_refl.
  - case_bool_decide; inv_ok; simplify_eq.
    + destruct (_ =? _); rewrite ?set_fids_eta; auto using extends_refl.
    + destruct (_ =? vlen wnames); rewrite ?set_fids_eta; [|auto using extends_refl].
      destruct (Z.eqb_spec newfid fid) as [->|]; auto.
  - destruct (is_dir qid); inv_ok; simplify_eq; rewrite ?set_fids_eta; auto using extends_refl.
Qed.

(** ** The running server

    The session and every request it has ever handed to the application.  The
    client sends any message at any time; the application completes any request
    it was handed, with any answer, in any order, late and repeatedly; a
    transport whose backend failed to reset invalidates the session. *)
Record Sys := Sys_mk { sys_session : Session; sent : list ServerRequest }.

Definition hand_over (ev : ServerEvent) (out : list ServerRequest) : list ServerRequest :=
  match ev with Dispatch req => req :: out | _ => out end.

Inductive sys_step : Sys → Sys → Prop :=
| step_admit m s out ev s' :
    admit_message m s = (ev, s') → sys_step (Sys_mk s out) (Sys_mk s' (hand_over ev out))
| step_complete req c s out reply s' :
    req ∈ out → complete req c s = (reply, s') → sys_step (Sys_mk s out) (Sys_mk s' out)
| step_invalidate s out : sys_step (Sys_mk s out) (Sys_mk (invalidate s) out).

Definition reachable (c : ServerConfig) : Sys → Prop :=
  rtc sys_step (Sys_mk (Session_new c) []).

Definition generation_of (st : Sys) : Z := next_generation (requests (sys_session st)).

(** The invariant, but for the origin of the live keys. *)
Record Inv0 (s : Session) (out : list ServerRequest) : Prop := {
  inv_ok : session_ok s;
  inv_variant : negotiated s = true → is_Some (s_variant s);
  inv_quiet : negotiated s = false → live (requests s) = ∅;
  inv_old req : req ∈ out → key_generation (req_key req) < next_generation (requests s);
  inv_unique r1 r2 : r1 ∈ out → r2 ∈ out → req_key r1 = req_key r2 → r1 = r2;
  inv_holds req : req ∈ out → key_live s (req_key req) → holds s req ∧ admitted s (req_kind req);
}.

Definition all_sent (s : Session) (out : list ServerRequest) : Prop :=
  ∀ k, key_live s k → ∃ req, req ∈ out ∧ req_key req = k.

Definition Inv (s : Session) (out : list ServerRequest) : Prop := Inv0 s out ∧ all_sent s out.

Lemma same_dialect_keeps s s' : same_dialect s s' →
  negotiated s' = negotiated s ∧ s_variant s' = s_variant s.
Proof. intros (_ & _ & _ & ? & ?). done. Qed.

Lemma Inv0_extends s s' out : extends s s' → Inv0 s out → Inv0 s' out.
Proof.
  intros E []. destruct E as [Ho Hf Hd Hr]. destruct (same_dialect_keeps _ _ Hd) as [Hn Hv].
  split; rewrite ?Hn, ?Hv, ?Hr; try done.
  unfold key_live. intros req Hreq. rewrite Hr. intros Hl.
  destruct (inv_holds0 req Hreq Hl). split; [by eapply holds_frame|by eapply admitted_dialect].
Qed.

Lemma Inv_extends s s' out : extends s s' → Inv s out → Inv s' out.
Proof.
  intros E [H0 H1]. split; [by eapply Inv0_extends|]. unfold all_sent, key_live.
  by rewrite (ext_requests _ _ E).
Qed.

Lemma Inv0_settle s out k : key_live s k → Inv0 s out → Inv0 (settle k s) out.
Proof.
  intros Hk []. split; try done.
  - by apply settle_ok.
  - intros Hn. simpl. rewrite (inv_quiet0 Hn). apply delete_empty.
  - intros req Hreq [Hl Hne]%settle_live. destruct (inv_holds0 req Hreq Hl) as [Hh Ha].
    split; [|done]. apply holds_release; [done|exact Hh].
Qed.

Lemma Inv_settle s out k : key_live s k → Inv s out → Inv (settle k s) out.
Proof.
  intros Hk [H0 H1]. split; [by apply Inv0_settle|]. intros k' [Hl _]%settle_live. by apply H1.
Qed.

Lemma empty_session_ok s :
  fids s = ∅ → reservations s = ∅ → live (requests s) = ∅ →
  0 ≤ next_generation (requests s) ≤ u64_max → 0 ≤ max_fids (config s) → session_ok s.
Proof.
  intros Hf Hr Hl Hg Hm. split.
  - split; [done|]. rewrite Hl. intros tag k H. by rewrite lookup_empty in H.
  - rewrite Hr. intros f r H. by rewrite lookup_empty in H.
  - rewrite fid_count_eq, Hf, Hr. unfold new_part. by rewrite map_filter_empty, !map_size_empty.
Qed.

(** A session that Tversion or [invalidate] has emptied. *)
Lemma Inv_emptied s out s' :
  Inv s out → fids s' = ∅ → reservations s' = ∅ → requests s' = reset (requests s) →
  config s' = config s → (negotiated s' = true → is_Some (s_variant s')) → Inv s' out.
Proof.
  intros [[Hs _ _ Ho Hu _] _] Hf Hr Hq Hc Hv.
  pose proof (table_generation _ (ok_table _ Hs)) as Hg. pose proof (ok_limit _ Hs) as Hl.
  pose proof (saturating_add_le u64_max (next_generation (requests s)) 1) as Hn.
  assert (∀ k, ¬ key_live s' k) as Hnone.
  { intros k. unfold key_live. rewrite Hq. simpl. by rewrite lookup_empty. }
  split; [split|].
  - apply empty_session_ok; rewrite ?Hq, ?Hc; try done; simpl; [lia|].
    rewrite fid_count_eq in Hl. lia.
  - done.
  - by rewrite Hq.
  - intros req Hreq. rewrite Hq. simpl. specialize (Ho _ Hreq). lia.
  - done.
  - intros req _ Hk. by apply Hnone in Hk.
  - intros k Hk. by apply Hnone in Hk.
Qed.

(** Admission consumes a generation even when it is refused. *)
Definition bump (s : Session) : Session :=
  set_requests (RequestTable_mk (saturating_add u64_max (next_generation (requests s)) 1)
                  (live (requests s))) s.

Lemma bump_wf t :
  RequestTable_wf t →
  RequestTable_wf (RequestTable_mk (saturating_add u64_max (next_generation t) 1) (live t)).
Proof.
  intros [Hg Hl]. split; simpl.
  - pose proof (saturating_add_le u64_max (next_generation t) 1). lia.
  - intros tag k H. destruct (Hl _ _ H) as (? & ? & ?). split_and!; try done.
    unfold saturating_add. lia.
Qed.

Lemma Inv_bump s out : Inv s out → Inv (bump s) out.
Proof.
  intros [[Hs Hv Hq Ho Hu Hh] Hsent].
  pose proof (table_generation _ (ok_table _ Hs)) as Hg.
  pose proof (saturating_add_le u64_max (next_generation (requests s)) 1) as Hn.
  split; [split; try done|done].
  - apply set_requests_ok; [done|by apply bump_wf, Hs|done].
  - intros req Hreq. specialize (Ho _ Hreq). simpl. lia.
Qed.

(** *** Beginning a request *)

Record begun (s : Session) (k : RequestKey) (s1 : Session) : Prop := {
  bg_dead : ¬ key_live s k;
  bg_tag : key_tag k ≠ NOTAG;
  bg_gen : key_generation k = next_generation (requests s);
  bg_state : s1 = set_requests
    (RequestTable_mk (saturating_add u64_max (next_generation (requests s)) 1)
       (<[key_tag k := k]> (live (requests s)))) s;
  bg_free : live (requests s) !! key_tag k = None;
}.

Lemma begin_begun tag s k s1 :
  on_requests (begin tag) s = (Ok k, s1) → begun s k s1 ∧ key_tag k = tag.
Proof.
  unfold on_requests. destruct (begin tag (requests s)) as [r t] eqn:E. intros [= -> <-].
  apply begin_Ok in E as (? & Hn & -> & ->). split; [|done]. split; try done.
  unfold key_live. simpl. by rewrite Hn.
Qed.

Lemma begun_live s k s1 : begun s k s1 → key_live s1 k.
Proof. intros [_ _ _ -> _]. apply lookup_insert_eq. Qed.

Lemma begun_other s k s1 k' : begun s k s1 → key_live s1 k' → k' ≠ k → key_live s k'.
Proof.
  intros [_ _ _ -> _] H Hne. unfold key_live in H. simpl in H.
  apply lookup_insert_Some in H as [[_ ?]|[_ ?]]; congruence.
Qed.

Lemma begun_unused s k s1 :
  session_ok s → begun s k s1 →
  ∀ f r, reservations s1 !! f = Some r → free_of k r ∧ is_empty r = false.
Proof. intros Hs [Hd _ _ -> _]. simpl. by apply dead_key_unused. Qed.

Lemma begun_Inv0 s k s1 out : negotiated s = true → begun s k s1 → Inv s out → Inv0 s1 out.
Proof.
  intros Hneg Hb [[Hs Hv Hq Ho Hu Hh] _].
  assert (∀ req, req ∈ out → key_live s1 (req_key req) → key_live s (req_key req)) as Hother.
  { intros req Hreq Hl. apply (begun_other _ _ _ _ Hb Hl). intros E.
    specialize (Ho _ Hreq). rewrite E, (bg_gen _ _ _ Hb) in Ho. lia. }
  destruct Hb as [Hd Ht Hgen -> Hn].
  pose proof (table_generation _ (ok_table _ Hs)) as Hg.
  pose proof (saturating_add_le u64_max (next_generation (requests s)) 1) as Hsat.
  split; try done.
  - apply set_requests_ok; [done| |].
    + pose proof (table_step_wf _ (Begin (key_tag k)) (ok_table _ Hs)) as Hw. simpl in Hw.
      unfold begin, is_live in Hw. rewrite (proj2 (Z.eqb_neq _ _) Ht), Hn in Hw. simpl in Hw.
      destruct k as [tg g]. simpl in *. by subst g.
    + intros k' Hk'. simpl. rewrite lookup_insert_ne; [done|]. intros E.
      unfold key_live in Hk'. congruence.
  - simpl. congruence.
  - intros req Hreq. simpl. specialize (Ho _ Hreq). lia.
  - intros req Hreq Hl. exact (Hh req Hreq (Hother req Hreq Hl)).
Qed.

(** *** Ending a request *)

Lemma finish_request_live k s :
  key_live s k → finish_request k s = (true, drop_key k s).
Proof. intros Hk. unfold finish_request, finish. by rewrite Hk, bool_decide_true. Qed.

Lemma finish_request_dead k s : ¬ key_live s k → finish_request k s = (false, s).
Proof.
  intros Hk. unfold finish_request.
  rewrite (proj2 (finish_false (requests s) k (requests s))); [|done].
  by rewrite set_requests_eta.
Qed.

Lemma refused_is_bump s k s1 s2 reply :
  session_ok s → begun s k s1 → undoes k s1 s2 → finish_with_reply k reply s2 = (Reply reply, bump s).
Proof.
  intros Hs Hb [Hf Hr Hd Hst]. unfold finish_with_reply. f_equal.
  rewrite finish_request_live; [|unfold key_live; rewrite Hr; apply (begun_live _ _ _ Hb)].
  rewrite release_is_strip. simpl. rewrite Hst.
  rewrite (strip_free _ _ (begun_unused _ _ _ Hs Hb)). destruct Hb as [_ _ _ -> Hn].
  unfold bump, drop_key. simpl in *. rewrite Hr. simpl. rewrite delete_insert_id by done.
  destruct s, s2, Hd as (? & ? & ? & ? & ?). unfold set_requests, set_reservations. simpl in *.
  by subst.
Qed.

Lemma flush_session oldtag s :
  oldtag ≠ NOTAG →
  set_requests (flush oldtag (requests s)).2 s =
  set_requests (RequestTable_mk (next_generation (requests s))
                  (delete oldtag (live (requests s)))) s.
Proof. intros H. unfold flush. by rewrite (proj2 (Z.eqb_neq _ _) H). Qed.

Lemma free_of_release k c r : free_of k r → free_of k (release_one c r).
Proof.
  intros [He Hs]. split; simpl; [|set_solver].
  intros x. destruct (exclusive r); [|done]. case_bool_decide; naive_solver.
Qed.

Lemma settle_keeps_unused k c s :
  (∀ f r, reservations s !! f = Some r → free_of k r ∧ is_empty r = false) →
  ∀ f r, reservations (settle c s) !! f = Some r → free_of k r ∧ is_empty r = false.
Proof.
  intros H f r Hr. change (strip c (reservations s) !! f = Some r) in Hr.
  rewrite strip_lookup in Hr. destruct (reservations s !! f) as [r0|] eqn:E; [|done].
  destruct (is_empty _) eqn:Ee; [done|]. simplify_eq. split; [|done].
  apply free_of_release. by eapply H.
Qed.

(** A Tflush ends the request it names, if that is live, and itself. *)
Lemma flush_settles s k s1 tag oldtag ev s' :
  session_ok s1 → session_ok s → begun s k s1 →
  admit_after_begin (TFlush tag oldtag) k s1 = (Ok ev, s') →
  (∃ c, live (requests s1) !! oldtag = Some c ∧ key_live s1 c ∧
        ev = FlushEvent (RFlush (key_tag k)) (Cancelled c) ∧
        s' = if decide (c = k) then settle k s1 else settle k (settle c s1)) ∨
  (live (requests s1) !! oldtag = None ∧ ev = FlushEvent (RFlush (key_tag k)) Unknown ∧
   s' = settle k s1).
Proof.
  intros Hs1 Hs Hb (Hn & outcome & -> & H)%admit_flush. rewrite flush_session in H by done.
  pose proof (begun_live _ _ _ Hb) as Hk. pose proof (begun_unused _ _ _ Hs Hb) as Hu.
  destruct (live (requests s1) !! oldtag) as [c|] eqn:E; destruct H as [-> ->].
  - left. exists c. destruct (table_live _ (ok_table _ Hs1) _ _ E) as (Ht & _).
    assert (key_live s1 c) as Hc by (unfold key_live; by rewrite Ht).
    split_and!; [done..|]. rewrite <- Ht.
    change (release_reservations c _) with (settle c s1). case_decide as Hck.
    + subst c. rewrite finish_request_dead; [done|]. by intros [_ ?]%settle_live.
    + rewrite finish_request_live by (apply settle_other; auto).
      by rewrite (settle_unused k (settle c s1)) by (by apply settle_keeps_unused).
  - right. split_and!; [done..|]. rewrite delete_id by done.
    assert (set_requests (RequestTable_mk (next_generation (requests s1)) (live (requests s1))) s1
            = s1) as -> by (by destruct s1 as [???????[]]).
    by rewrite finish_request_live, (settle_unused k s1).
Qed.

(** ** Every step keeps the invariant *)

Lemma admit_request m s :
  is_tversion m = false →
  admit_message m s =
  if negb (negotiated s)
  then (Reply (error_reply (t_tag m) (from_static "version not negotiated")), s)
  else
    match on_requests (begin (t_tag m)) s with
    | (Err error, s1) => (Reply (error_reply (t_tag m) error), s1)
    | (Ok key, s1) =>
        match admit_after_begin m key s1 with
        | (Ok event, s2) => (event, s2)
        | (Err error, s2) => finish_with_reply key (error_reply (t_tag m) error) s2
        end
    end.
Proof. by destruct m. Qed.

(** The ways a message other than Tversion is admitted. *)
Inductive admission (s : Session) (out : list ServerRequest) (m : TMessage) :
  ServerEvent → Session → Prop :=
| adm_refused e : admission s out m (Reply (error_reply (t_tag m) e)) s
| adm_bumped e : admission s out m (Reply (error_reply (t_tag m) e)) (bump s)
| adm_dispatched k s1 kind s' :
    begun s k s1 → key_tag k = t_tag m → Inv0 s1 out → extends s1 s' →
    holds s' (ServerRequest_mk k kind) → admitted s' kind →
    admission s out m (dispatch k kind) s'
| adm_flushed oldtag k s1 c :
    m = TFlush (t_tag m) oldtag → begun s k s1 → key_tag k = t_tag m → Inv0 s1 out →
    live (requests s1) !! oldtag = Some c → key_live s1 c →
    admission s out m (FlushEvent (RFlush (t_tag m)) (Cancelled c))
      (if decide (c = k) then settle k s1 else settle k (settle c s1))
| adm_flush_unknown oldtag k s1 :
    m = TFlush (t_tag m) oldtag → begun s k s1 → key_tag k = t_tag m → Inv0 s1 out →
    live (requests s1) !! oldtag = None →
    admission s out m (FlushEvent (RFlush (t_tag m)) Unknown) (settle k s1).

Lemma admit_admission m s out ev s' :
  Inv s out → is_tversion m = false → admit_message m s = (ev, s') → admission s out m ev s'.
Proof.
  intros HI Hm. rewrite admit_request by done. destruct (negotiated s) eqn:Hn; simpl.
  2:{ intros [= <- <-]. constructor. }
  destruct (on_requests _ s) as [[k|e] s1] eqn:Eb.
  2:{ intros [= <- <-]. unfold on_requests in Eb.
      destruct (begin _ _) as [r t] eqn:E. simplify_eq. apply begin_Err in E as ->.
      rewrite set_requests_eta. constructor. }
  apply begin_begun in Eb as [Hb Ht]. pose proof (begun_Inv0 _ _ _ _ Hn Hb HI) as HI1.
  pose proof (inv_ok _ _ HI1) as Hs1. pose proof (inv_ok _ _ (proj1 HI)) as Hs.
  destruct (admit_after_begin m k s1) as [[ev'|e] s2] eqn:Ea.
  2:{ apply admit_refuses in Ea. rewrite (refused_is_bump _ _ _ _ _ Hs Hb Ea).
      intros [= <- <-]. constructor. }
  intros [= -> ->]. destruct (is_tflush m) eqn:Hf.
  - destruct m; try done.
    destruct (flush_settles _ _ _ _ _ _ _ Hs1 Hs Hb Ea) as [(c & ? & ? & -> & ->)|(? & -> & ->)].
    + rewrite Ht. by eapply adm_flushed.
    + rewrite Ht. by eapply adm_flush_unknown.
  - destruct (admit_dispatches _ _ _ _ _ Hs1 (begun_live _ _ _ Hb) Hf Ea) as (kind & -> & He & Hh).
    eapply adm_dispatched; try done. by eapply admit_admitted; [apply He|].
Qed.

Lemma begun_settle_sent s k s1 out :
  begun s k s1 → all_sent s out →
  ∀ k', key_live s1 k' → k' ≠ k → ∃ req, req ∈ out ∧ req_key req = k'.
Proof. intros Hb Hs k' Hl Hne. apply Hs. by eapply begun_other. Qed.

Lemma dispatched_Inv s out k s1 kind s' :
  Inv s out → begun s k s1 → Inv0 s1 out → extends s1 s' →
  holds s' (ServerRequest_mk k kind) → admitted s' kind →
  next_generation (requests s') < u64_max → Inv s' (ServerRequest_mk k kind :: out).
Proof.
  intros [[_ _ _ Hold _ _] Hsent] Hb HI1 He Hh Ha Hlt.
  pose proof (Inv0_extends _ _ _ He HI1) as [Hs Hv Hq Ho Hu Hhold].
  assert (∀ req, req ∈ out → req_key req ≠ k) as Hne.
  { intros req Hreq E. specialize (Hold _ Hreq). rewrite E, (bg_gen _ _ _ Hb) in Hold. lia. }
  split; [split; try done|].
  - intros req [->|Hreq]%elem_of_cons; [|by apply Ho]. simpl.
    rewrite (ext_requests _ _ He) in *. rewrite (bg_gen _ _ _ Hb).
    rewrite (bg_state _ _ _ Hb) in *. simpl in *. unfold saturating_add in *. lia.
  - intros r1 r2 [->|H1]%elem_of_cons [->|H2]%elem_of_cons E; try done.
    + by destruct (Hne _ H2).
    + by destruct (Hne _ H1).
    + by apply Hu.
  - intros req [->|Hreq]%elem_of_cons Hl; [done|]. by apply Hhold.
  - intros k' Hl. destruct (decide (k' = k)) as [->|Hk].
    + eexists. split; [apply elem_of_cons; by left|done].
    + unfold key_live in Hl. rewrite (ext_requests _ _ He) in Hl.
      destruct (begun_settle_sent _ _ _ _ Hb Hsent k' Hl Hk) as (req & ? & ?).
      exists req. split; [by apply elem_of_cons; right|done].
Qed.

Lemma admission_Inv m s out ev s' :
  Inv s out → admission s out m ev s' → next_generation (requests s') < u64_max →
  Inv s' (hand_over ev out).
Proof.
  intros HI [e|e|k s1 kind s2 Hb Ht HI1 He Hh Ha|oldtag k s1 c Em Hb Ht HI1 Hl Hc
            |oldtag k s1 Em Hb Ht HI1 Hl] Hlt; simpl hand_over.
  - done.
  - by apply Inv_bump.
  - by eapply dispatched_Inv.
  - pose proof (begun_settle_sent _ _ _ _ Hb (proj2 HI)) as Hsent.
    pose proof (begun_live _ _ _ Hb) as Hk. case_decide as Hck.
    + split; [by apply Inv0_settle|]. intros k' [? ?]%settle_live. by apply Hsent.
    + split.
      * apply Inv0_settle; [by apply settle_other; auto|by apply Inv0_settle].
      * intros k' [[? ?]%settle_live ?]%settle_live. by apply Hsent.
  - pose proof (begun_settle_sent _ _ _ _ Hb (proj2 HI)) as Hsent.
    pose proof (begun_live _ _ _ Hb) as Hk.
    split; [by apply Inv0_settle|]. intros k' [? ?]%settle_live. by apply Hsent.
Qed.

Lemma version_Inv tag msize version s out ev s' :
  Inv s out → admit_message (TVersion tag msize version) s = (ev, s') → Inv s' (hand_over ev out).
Proof.
  intros HI. unfold admit_message, reset_for_version.
  destruct (msize <? MIN_MSIZE); [|destruct (accept _ _)]; intros [= <- <-]; simpl hand_over;
    by eapply Inv_emptied.
Qed.

(** What completing a request does, in terms of the specification. *)
Lemma complete_spec req c s out :
  Inv s out → req ∈ out →
  complete req c s =
  if decide (key_live s (req_key req)) then
    let s2 := settle (req_key req) s in
    let r := match c with
             | Ok c => spec_completion (default Plain (s_variant s)) (s_msize s) (req_tag req)
                         (fids s) (req_kind req) c
             | Err e => Err e
             end in
    match r with
    | Ok (reply, fs) => (Some reply, set_fids fs s2)
    | Err e => (Some (error_reply (req_tag req) e), s2)
    end
  else (None, s).
Proof.
  intros [HI _] Hreq. unfold complete. case_decide as Hl.
  2:{ by rewrite finish_request_dead. }
  rewrite finish_request_live by done. change (release_reservations _ _) with (settle (req_key req) s).
  destruct c as [c|e]; [|done].
  destruct (inv_holds _ _ HI _ Hreq Hl) as [Hh _].
  assert (is_Some (s_variant s)) as [v Hv].
  { apply (inv_variant _ _ HI). destruct (negotiated s) eqn:E; [done|].
    unfold key_live in Hl. by rewrite (inv_quiet _ _ HI E), lookup_empty in Hl. }
  rewrite (apply_completion_spec _ _ _ _ v);
    [|by apply settle_ok; [apply HI|]|done|by apply settle_ready; [apply HI|]].
  rewrite Hv. simpl. destruct (spec_completion _ _ _ _ _ _) as [[]|]; done.
Qed.

Lemma complete_Inv req c s out reply s' :
  Inv s out → req ∈ out → complete req c s = (reply, s') → Inv s' out.
Proof.
  intros HI Hreq H. rewrite (complete_spec _ _ _ _ HI Hreq) in H.
  case_decide as Hl; [|by simplify_eq]. pose proof (Inv_settle _ _ _ Hl HI) as HI2.
  destruct c as [c|e]; simpl in H; [|by simplify_eq].
  destruct (spec_completion _ _ _ _ _ _) as [[r fs]|] eqn:E; simplify_eq; [|done].
  eapply Inv_extends; [|exact HI2].
  eapply spec_extends; [apply HI2| |exact E].
  destruct (inv_holds _ _ (proj1 HI) _ Hreq Hl) as [Hh _]. apply settle_ready; [apply HI|done].
Qed.

(** ** Generations only grow *)

Lemma bind_fid_requests f st s r s' : bind_fid f st s = (r, s') → requests s' = requests s.
Proof. unfold bind_fid. repeat case_match; intros [= _ <-]; done. Qed.

Lemma insert_new_fid_requests f st s r s' :
  insert_new_fid f st s = (r, s') → requests s' = requests s.
Proof.
  unfold insert_new_fid. case_match; [by intros [= _ <-]|]. apply bind_fid_requests.
Qed.

Lemma retire_requests k f s r s' : retire_fid k f s = (r, s') → requests s' = requests s.
Proof. unfold retire_fid. repeat case_match; intros [= _ <-]; done. Qed.

Ltac requests_eq :=
  repeat match goal with
  | H : reserve_new_fid _ _ _ = _ |- _ => apply reserve_new_undo, und_requests in H
  | H : reserve_existing_fid _ _ _ = _ |- _ => apply reserve_existing_undo, und_requests in H
  | H : reserve_shared_fid _ _ _ = _ |- _ => apply reserve_shared_undo, und_requests in H
  | H : retire_fid _ _ _ = _ |- _ => apply retire_requests in H
  | H : bind_fid _ _ _ = _ |- _ => apply bind_fid_requests in H
  | H : insert_new_fid _ _ _ = _ |- _ => apply insert_new_fid_requests in H
  end; congruence.

Lemma admit_ok_generation m k s ev s' :
  admit_after_begin m k s = (Ok ev, s') →
  next_generation (requests s') = next_generation (requests s).
Proof.
  intros H. destruct (is_tflush m) eqn:Hf.
  - destruct m; try done. apply admit_flush in H as (Hn & o & _ & H).
    rewrite flush_session in H by done. unfold finish_request in H.
    case_match; destruct H as [_ ->]; case_match; simpl in *;
      by match goal with H : finish ?t ?k = _ |- _ =>
           pose proof (finish_next t k) as E; rewrite H in E end.
  - assert (requests s' = requests s) as ->; [|done].
    destruct m; cbn [admit_after_begin] in H; try done; run_ok; requests_eq.
Qed.

Lemma apply_completion_requests tag kind c s r s' :
  apply_completion tag kind c s = (r, s') → requests s' = requests s.
Proof.
  unfold apply_completion. intros H. destruct r as [r|e].
  - destruct kind, c; run_ok; try done; try requests_eq.
    destruct (last qids); run_ok; requests_eq.
  - destruct kind, c; repeat undo_step; try done; try requests_eq.
    destruct (last qids); repeat undo_step; requests_eq.
Qed.

Lemma begin_generation tag s r s1 :
  on_requests (begin tag) s = (r, s1) → next_generation (requests s) ≤ u64_max →
  next_generation (requests s) ≤ next_generation (requests s1) ≤ u64_max.
Proof.
  unfold on_requests. pose proof (table_step_mono (requests s) (Begin tag)) as H. simpl in H.
  destruct (begin tag (requests s)) as [r' t]. intros [= -> <-]. exact H.
Qed.

Lemma admit_generation m s ev s' :
  admit_message m s = (ev, s') → next_generation (requests s) ≤ u64_max →
  next_generation (requests s) ≤ next_generation (requests s') ≤ u64_max.
Proof.
  destruct (is_tversion m) eqn:Hm.
  - destruct m; try done. unfold admit_message, reset_for_version.
    pose proof (saturating_add_le u64_max (next_generation (requests s)) 1).
    destruct (_ <? MIN_MSIZE); [|destruct (accept _ _)]; intros [= _ <-]; simpl; lia.
  - rewrite admit_request by done. destruct (negb _); [intros [= _ <-]; lia|].
    destruct (on_requests _ s) as [[k|e] s1] eqn:Eb; [|intros [= _ <-]; by eapply begin_generation].
    intros H Hle. pose proof (begin_generation _ _ _ _ Eb Hle).
    destruct (admit_after_begin m k s1) as [[ev'|e] s2] eqn:Ea.
    + apply admit_ok_generation in Ea. simplify_eq. lia.
    + apply admit_refuses, und_requests in Ea. unfold finish_with_reply, finish_request in H.
      destruct (finish (requests s2) k) as [b t] eqn:Ef. simplify_eq. simpl.
      pose proof (finish_next (requests s2) k) as En. rewrite Ef in En. simpl in En.
      rewrite En, Ea. lia.
Qed.

Lemma complete_generation req c s reply s' :
  complete req c s = (reply, s') → next_generation (requests s') = next_generation (requests s).
Proof.
  unfold complete, finish_request. pose proof (finish_next (requests s) (req_key req)) as En.
  destruct (finish _ _) as [[] t]; simpl in En.
  - destruct c as [c|e]; [|intros [= _ <-]; done].
    destruct (apply_completion _ _ _ _) as [r s3] eqn:E. intros [= _ <-].
    apply apply_completion_requests in E. rewrite E. done.
  - intros [= _ <-]. done.
Qed.

Lemma sys_step_generation st st' :
  sys_step st st' → generation_of st ≤ u64_max → generation_of st ≤ generation_of st' ≤ u64_max.
Proof.
  intros [m s out ev s' H|req c s out reply s' _ H|s out] Hle; unfold generation_of in *; simpl in *.
  - by eapply admit_generation.
  - apply complete_generation in H. lia.
  - apply saturating_add_le; lia.
Qed.

Lemma reachable_generation c st : reachable c st → generation_of st ≤ u64_max.
Proof.
  revert st. apply rtc_ind_r; [by vm_compute|]. intros st st' _ Hs IH.
  by eapply sys_step_generation.
Qed.

(** ** The invariant holds in every reachable state *)

Lemma Inv_init c : 0 ≤ max_fids c → Inv (Session_new c) [].
Proof.
  intros Hm. split; [split|].
  - by apply empty_session_ok.
  - done.
  - done.
  - intros req H. by apply elem_of_nil in H.
  - intros r1 r2 H. by apply elem_of_nil in H.
  - intros req H. by apply elem_of_nil in H.
  - intros k H. unfold key_live in H. simpl in H. by rewrite lookup_empty in H.
Qed.

Lemma sys_step_Inv st st' :
  sys_step st st' → Inv (sys_session st) (sent st) → generation_of st' < u64_max →
  Inv (sys_session st') (sent st').
Proof.
  intros [m s out ev s' H|req c s out reply s' Hr H|s out] HI Hlt; simpl in *.
  - destruct (is_tversion m) eqn:Hm.
    + destruct m; try done. by eapply version_Inv.
    + eapply admission_Inv; [done|by apply admit_admission|done].
  - by eapply complete_Inv.
  - by eapply Inv_emptied.
Qed.

Lemma reachable_Inv c st :
  0 ≤ max_fids c → reachable c st → generation_of st < u64_max → Inv (sys_session st) (sent st).
Proof.
  intros Hm. revert st. apply (rtc_ind_r (λ st, generation_of st < u64_max → Inv _ _)).
  - intros _. by apply Inv_init.
  - intros st st' Hr Hs IH Hlt. pose proof (reachable_generation _ _ Hr). pose proof (sys_step_generation _ _ Hs).
    eapply sys_step_Inv; [done|apply IH; lia|done].
Qed.
