(* ===== verification/ServerProps.v ===== *)
(** What the protocol server guarantees: the theorems about [admit],
    [complete] and [handle] of [crates/core/src/server/handlers.rs] over every
    reachable state of a running server. *)
From S2P Require Import Prelude Errors Qid Stat StatProps Referral Message Codec CodecProps.
From S2P Require Import RequestTable Session Server Reservations ServerInv.

(** ** A concrete server to instantiate the theorems with *)

Definition sample_config : ServerConfig := ServerConfig_mk 8192 65536 2 16 Plain None.

(** The client sends these messages, and the application has not answered yet. *)
Definition sys_admits (st : Sys) (ms : list TMessage) : Sys :=
  foldl (λ st m, let '(ev, s') := admit_message m (sys_session st) in Sys_mk s' (hand_over ev (sent st)))
    st ms.

Lemma sys_admits_reachable c ms : reachable c (sys_admits (Sys_mk (Session_new c) []) ms).
Proof.
  unfold reachable. generalize (Sys_mk (Session_new c) []). induction ms as [|m ms IH]; intros st; [done|].
  cbn [sys_admits foldl]. destruct st as [s out]. destruct (admit_message m _) as [ev s'] eqn:E. simpl in E.
  eapply rtc_l; [eapply step_admit; exact E|]. apply IH.
Qed.

Definition sample_version : TMessage := TVersion NOTAG 8192 (bstr "9P2000").
Definition sample_attach : TMessage := TAttach 1 0 NOFID (bstr "glenda") [].

(** One attach in flight. *)
Definition sample_sys : Sys :=
  sys_admits (Sys_mk (Session_new sample_config) []) [sample_version; sample_attach].
Definition sample_request : ServerRequest :=
  ServerRequest_mk (RequestKey_mk 1 1) (KAttach 0 NOFID (bstr "glenda") []).

Lemma sample_reachable : reachable sample_config sample_sys.
Proof. apply sys_admits_reachable. Qed.

Lemma sample_sent : sent sample_sys = [sample_request].
Proof. vm_compute. reflexivity. Qed.

Lemma sample_live : key_live (sys_session sample_sys) (req_key sample_request).
Proof. vm_compute. reflexivity. Qed.

Lemma sample_generation : generation_of sample_sys < u64_max.
Proof. vm_compute. reflexivity. Qed.

Lemma sample_in : sample_request ∈ sent sample_sys.
Proof. rewrite sample_sent. by apply list_elem_of_singleton. Qed.

(** ** The dialect fields along a run *)

Lemma admission_dialect s out m ev s' : admission s out m ev s' → same_dialect s s'.
Proof.
  intros [| |k s1 kind s2 Hb _ _ He _ _|oldtag k s1 c _ Hb _ _ _ _|oldtag k s1 _ Hb _ _ _]; try done.
  - etrans; [|apply He]. by rewrite (bg_state _ _ _ Hb).
  - rewrite (bg_state _ _ _ Hb). by case_decide.
  - by rewrite (bg_state _ _ _ Hb).
Qed.

Lemma complete_dialect req c s out reply s' :
  Inv s out → req ∈ out → complete req c s = (reply, s') → same_dialect s s'.
Proof.
  intros HI Hr. rewrite (complete_spec _ _ _ _ HI Hr). case_decide; [|by intros [= _ <-]].
  destruct c as [a|e]; simpl; [|by intros [= _ <-]].
  destruct (spec_completion _ _ _ _ _ _) as [[]|]; by intros [= _ <-].
Qed.

Definition msize_ok (c : ServerConfig) (s : Session) : Prop :=
  config s = c ∧ (negotiated s = true → Z.min MIN_MSIZE (max_msize c) ≤ s_msize s ≤ max_msize c).

Lemma sys_step_msize c st st' :
  sys_step st st' → Inv (sys_session st) (sent st) → msize_ok c (sys_session st) →
  msize_ok c (sys_session st').
Proof.
  intros [m s out ev s' H|req k s out reply s' Hr H|s out] HI [Hc Hm]; simpl in *.
  - destruct (is_tversion m) eqn:Hv.
    + destruct m; try done. unfold admit_message, reset_for_version in H.
      destruct (Z.ltb_spec msize MIN_MSIZE); [|destruct (accept _ _)]; simplify_eq; split; try done.
      simpl. lia.
    + apply (admit_admission _ _ _ _ _ HI Hv), admission_dialect in H as (E1 & E2 & _ & _ & E5).
      split; [congruence|]. by rewrite E2, E5.
  - apply (complete_dialect _ _ _ _ _ _ HI Hr) in H as (E1 & E2 & _ & _ & E5).
    split; [congruence|]. by rewrite E2, E5.
  - done.
Qed.

Lemma reachable_msize c st :
  0 ≤ max_fids c → reachable c st → generation_of st < u64_max → msize_ok c (sys_session st).
Proof.
  intros Hm. revert st.
  apply (rtc_ind_r (λ st, generation_of st < u64_max → msize_ok c (sys_session st))).
  - done.
  - intros st st' Hr Hs IH Hlt. pose proof (reachable_generation _ _ Hr).
    pose proof (sys_step_generation _ _ Hs).
    eapply sys_step_msize; [done|apply reachable_Inv with c; [done..|lia]|apply IH; lia].
Qed.

(** ** Fids and reservations *)

Lemma quiet_reservations s : session_ok s → live (requests s) = ∅ → reservations s = ∅.
Proof.
  intros Hs Hl. apply map_empty. intros f. destruct (reservations s !! f) as [r|] eqn:E; [|done].
  destruct (ok_res _ Hs _ _ E) as [H1 _ H3 H4 _ _]. exfalso.
  apply is_empty_false in H1. apply H1. destruct r as [e sh]. unfold FidReservations_default. simpl in *.
  unfold key_live in *. setoid_rewrite Hl in H3. setoid_rewrite Hl in H4. f_equal.
  - destruct e as [x|]; [|done]. specialize (H3 x eq_refl). by rewrite lookup_empty in H3.
  - apply set_eq. intros k. split; [|set_solver]. intros Hk%H4. by rewrite lookup_empty in Hk.
Qed.

Section reachable_states.
Context (c : ServerConfig) (st : Sys).
Hypothesis Hmax : 0 ≤ max_fids c.
Hypothesis Hreach : reachable c st.
Hypothesis Hgen : generation_of st < u64_max.

Local Abbreviation s := (sys_session st).

Lemma st_Inv : Inv s (sent st).
Proof. by eapply reachable_Inv. Qed.

Lemma st_ok : session_ok s.
Proof. apply st_Inv. Qed.

Lemma st_config : config s = c.
Proof. by destruct (reachable_msize _ _ Hmax Hreach Hgen). Qed.

(** C33: the fid limit holds at every moment: bound fids together with the fids
    that requests in flight are about to bind never exceed [max_fids], whatever
    the client sends and however the application answers. *)
Theorem fid_limit_respected : fid_count s ≤ max_fids c.
Proof. rewrite <- st_config. apply st_ok. Qed.

(** C5: no reservation outlives its request: whoever holds a fid, exclusively or
    shared, is a request that is still live and that the application was handed,
    an exclusive holder is alone, and with no live request every fid is free. *)
Theorem reservations_have_live_owners :
  (∀ f r, reservations s !! f = Some r →
     (∀ x, exclusive r = Some x →
        shared r = ∅ ∧ ∃ req, req ∈ sent st ∧ req_key req = res_request x ∧ key_live s (req_key req)) ∧
     (∀ k, k ∈ shared r →
        exclusive r = None ∧ ∃ req, req ∈ sent st ∧ req_key req = k ∧ key_live s (req_key req))) ∧
  (live (requests s) = ∅ → reservations s = ∅).
Proof.
  destruct st_Inv as [HI Hsent]. pose proof (inv_ok _ _ HI) as Hs. split.
  - intros f r Hr. destruct (ok_res _ Hs _ _ Hr) as [_ H2 H3 H4 _ _]. split.
    + intros x Hx. split; [by eapply H2|]. destruct (Hsent _ (H3 _ Hx)) as (req & ? & E).
      exists req. rewrite E. auto.
    + intros k Hk. split.
      * destruct (exclusive r) as [x|] eqn:E; [|done]. rewrite (H2 x) in Hk by done. set_solver.
      * destruct (Hsent _ (H4 _ Hk)) as (req & ? & E). exists req. rewrite E. auto.
  - by apply quiet_reservations.
Qed.

(** C1: an application's answer always takes effect: the completion of a live
    request answers the client and updates the fid table exactly as the
    reservation-free specification says, so a fid that was promised at admission
    is never refused later as busy, taken, unknown or over the limit. *)
Theorem completion_refines_spec req answer v :
  req ∈ sent st → key_live s (req_key req) → s_variant s = Some v →
  complete req (Ok answer) s =
  match spec_completion v (s_msize s) (req_tag req) (fids s) (req_kind req) answer with
  | Ok (reply, fs) => (Some reply, set_fids fs (settle (req_key req) s))
  | Err e => (Some (error_reply (req_tag req) e), settle (req_key req) s)
  end.
Proof.
  intros Hr Hl Hv. rewrite (complete_spec _ _ _ _ st_Inv Hr), decide_True, Hv by done. done.
Qed.

(** C36: a refused request leaves no trace: when the admission of a message other than
    Tversion ends in the event [Reply], the reply is an Rerror with its tag, and the fid
    table, the reservations, the live requests, the message size and the dialect are
    what they were.  A Tflush that is admitted is not refused: it is answered at once
    too, with an Rflush, but by the event [FlushEvent], and it does change the live
    requests and the reservations; only a Tflush that is answered with an Rerror (its
    tag is in use, or no version was negotiated) is meant here. *)
Theorem refused_request_no_trace m r s' :
  is_tversion m = false → admit_message m s = (Reply r, s') →
  (∃ ename, r = RError (t_tag m) ename) ∧
  fids s' = fids s ∧ reservations s' = reservations s ∧
  live (requests s') = live (requests s) ∧ same_dialect s s'.
Proof.
  intros Hm H. apply (admit_admission _ _ _ _ _ st_Inv Hm) in H.
  inversion H; subst; split_and!; try done; eexists; reflexivity.
Qed.

End reachable_states.

Lemma fid_limit_respected_witness : fid_count (sys_session sample_sys) ≤ 2.
Proof.
  exact (fid_limit_respected sample_config sample_sys ltac:(done) sample_reachable sample_generation).
Defined.

Lemma reservations_have_live_owners_witness :
  ∃ req, req ∈ sent sample_sys ∧ req_key req = RequestKey_mk 1 1 ∧
         key_live (sys_session sample_sys) (req_key req).
Proof.
  exact (proj2 (proj1 (proj1 (reservations_have_live_owners sample_config sample_sys ltac:(done)
    sample_reachable sample_generation) 0
    (FidReservations_mk (Some (FidReservation_mk (RequestKey_mk 1 1) true)) ∅) eq_refl)
    (FidReservation_mk (RequestKey_mk 1 1) true) eq_refl)).
Defined.

Lemma completion_refines_spec_witness :
  complete sample_request (Ok (CAttach (Qid_dir 7))) (sys_session sample_sys) =
  (Some (RAttach 1 (Qid_dir 7)),
   set_fids {[ 0 := FidState_new (Qid_dir 7) ]}
     (settle (req_key sample_request) (sys_session sample_sys))).
Proof.
  exact (completion_refines_spec sample_config sample_sys ltac:(done) sample_reachable
           sample_generation sample_request (CAttach (Qid_dir 7)) Plain sample_in sample_live
           eq_refl).
Defined.

(** The same tag again, while the attach is in flight. *)
Lemma refused_request_no_trace_witness :
  let '(_, s') := admit_message (TStat 1 0) (sys_session sample_sys) in
  fids s' = fids (sys_session sample_sys).
Proof.
  exact (proj1 (proj2 (refused_request_no_trace sample_config sample_sys ltac:(done)
           sample_reachable sample_generation (TStat 1 0) (error_reply 1 (from_static EDUPTAG))
           (sys_session sample_sys) eq_refl eq_refl))).
Defined.

(** ** Isolation of requests in flight *)

(** The fids a request works on alone, and those it shares. *)
Definition exclusive_fids (kind : ServerRequestKind) : list Z :=
  match kind with
  | KAuth afid _ _ => [afid]
  | KAttach f afid _ _ => f :: (if afid =? NOFID then [] else [afid])
  | KWalk _ newfid _ _ => [newfid]
  | KOpen f _ _ | KCreate f _ _ _ _ | KWstat f _ _ | KClunk f _ | KRemove f _ => [f]
  | KRead f qid _ _ => if is_dir qid then [f] else []
  | _ => []
  end.

Definition shared_fids (kind : ServerRequestKind) : list Z :=
  match kind with
  | KWalk f newfid _ _ => if newfid =? f then [] else [f]
  | KRenameAt olddirfid _ _ newdirfid _ _ => [olddirfid; newdirfid]
  | KReferrals f _ => [f]
  | _ => []
  end.

Lemma holds_exclusive s req f :
  holds s req → f ∈ exclusive_fids (req_kind req) →
  ∃ b, reservations s !! f = Some (FidReservations_mk (Some (FidReservation_mk (req_key req) b)) ∅).
Proof.
  unfold holds, exclusive_fids, holds_new, holds_excl, holds_retired.
  destruct (req_kind req); intros Hh Hf; repeat case_match; guards; set_unfold in Hf;
    destruct_or?; subst; naive_solver.
Qed.

Lemma holds_shares s req f :
  holds s req → f ∈ shared_fids (req_kind req) →
  ∃ r, reservations s !! f = Some r ∧ exclusive r = None ∧ req_key req ∈ shared r.
Proof.
  unfold holds, shared_fids, holds_shared.
  destruct (req_kind req); intros Hh Hf; repeat case_match; guards; set_unfold in Hf;
    destruct_or?; subst; naive_solver.
Qed.

(** requests in flight are isolated: while a request that changes a fid
    (auth, attach, walk to a new fid, open, create, clunk, remove, wstat, a
    directory read) is in flight, no other live request uses that fid, neither
    exclusively nor shared. *)
Theorem exclusive_requests_isolated c st r1 r2 f :
  0 ≤ max_fids c → reachable c st → generation_of st < u64_max →
  r1 ∈ sent st → r2 ∈ sent st →
  key_live (sys_session st) (req_key r1) → key_live (sys_session st) (req_key r2) →
  f ∈ exclusive_fids (req_kind r1) →
  f ∈ exclusive_fids (req_kind r2) ++ shared_fids (req_kind r2) → r1 = r2.
Proof.
  intros Hm Hreach Hg H1 H2 L1 L2 E1 E2.
  pose proof (reachable_Inv _ _ Hm Hreach Hg) as [HI _].
  destruct (inv_holds _ _ HI _ H1 L1) as [Hh1 _]. destruct (inv_holds _ _ HI _ H2 L2) as [Hh2 _].
  destruct (holds_exclusive _ _ _ Hh1 E1) as [b1 R1].
  apply elem_of_app in E2 as [E2|E2].
  - destruct (holds_exclusive _ _ _ Hh2 E2) as [b2 R2]. rewrite R1 in R2.
    apply (inv_unique _ _ HI); [done..|congruence].
  - destruct (holds_shares _ _ _ Hh2 E2) as (r & R2 & Hn & _). rewrite R1 in R2.
    by simplify_eq.
Qed.

Lemma exclusive_requests_isolated_witness :
  0 ∈ exclusive_fids (req_kind sample_request) ∧ sample_request = sample_request.
Proof.
  assert (0 ∈ exclusive_fids (req_kind sample_request)) as Hin by set_solver.
  split; [exact Hin|].
  exact (exclusive_requests_isolated sample_config sample_sys sample_request sample_request 0
    ltac:(done) sample_reachable sample_generation sample_in sample_in sample_live sample_live
    Hin (proj2 (elem_of_app _ _ _) (or_introl Hin))).
Defined.

(** ** Requests that are over stay silent *)

Lemma dead_step st st' req :
  sys_step st st' → Inv (sys_session st) (sent st) → req ∈ sent st →
  ¬ key_live (sys_session st) (req_key req) →
  req ∈ sent st' ∧ ¬ key_live (sys_session st') (req_key req).
Proof.
  intros Hstep HI Hreq Hd.
  assert (∀ k s1, begun (sys_session st) k s1 → ¬ key_live s1 (req_key req)) as Hb.
  { intros k s1 Hb Hl. apply Hd, (begun_other _ _ _ _ Hb Hl). intros E.
    pose proof (inv_old _ _ (proj1 HI) _ Hreq) as Ho. rewrite E, (bg_gen _ _ _ Hb) in Ho. lia. }
  destruct Hstep as [m s out ev s' H|r k s out reply s' Hr H|s out]; simpl in *.
  - split; [destruct ev; simpl; [done|by apply elem_of_cons; right|done]|].
    destruct (is_tversion m) eqn:Hv.
    + destruct m; try done. unfold admit_message, reset_for_version in H. unfold key_live.
      destruct (_ <? MIN_MSIZE); [|destruct (accept _ _)]; simplify_eq; simpl;
        by rewrite lookup_empty.
    + apply (admit_admission _ _ _ _ _ HI Hv) in H.
      inversion H; subst; try done.
      * unfold key_live. rewrite (ext_requests s1 s') by done. by eapply Hb.
      * case_decide; [by intros [? _]%settle_live; eapply Hb|].
        intros [[? _]%settle_live _]%settle_live. by eapply Hb.
      * intros [? _]%settle_live. by eapply Hb.
  - split; [done|]. rewrite (complete_spec _ _ _ _ HI Hr) in H.
    case_decide; [|by simplify_eq].
    assert (¬ key_live (settle (req_key r) s) (req_key req)) by (by intros [? _]%settle_live).
    destruct k as [a|e]; simpl in H; [|by simplify_eq].
    destruct (spec_completion _ _ _ _ _ _) as [[]|]; by simplify_eq.
  - split; [done|]. unfold key_live. simpl. by rewrite lookup_empty.
Qed.

Lemma reachable_run c st st' : reachable c st → rtc sys_step st st' → reachable c st'.
Proof. unfold reachable. by etrans. Qed.

Lemma run_generation c st st' :
  reachable c st → rtc sys_step st st' → generation_of st ≤ generation_of st'.
Proof.
  intros Hr. revert st'. apply (rtc_ind_r (λ st', _ ≤ generation_of st')); [lia|].
  intros y z Hy Hyz ?. pose proof (sys_step_generation _ _ Hyz).
  pose proof (reachable_generation c y (reachable_run _ _ _ Hr Hy)). lia.
Qed.

Lemma dead_forever c st st' req :
  0 ≤ max_fids c → reachable c st → req ∈ sent st → ¬ key_live (sys_session st) (req_key req) →
  rtc sys_step st st' → generation_of st' < u64_max →
  req ∈ sent st' ∧ ¬ key_live (sys_session st') (req_key req).
Proof.
  intros Hm Hr Hreq Hd Hrun. revert st' Hrun.
  apply (rtc_ind_r (λ st', generation_of st' < u64_max →
    req ∈ sent st' ∧ ¬ key_live (sys_session st') (req_key req))); [done|].
  intros st1 st2 Hrun Hs IH Hg.
  assert (reachable c st1) as Hr1 by (by eapply reachable_run).
  pose proof (reachable_generation _ _ Hr1). pose proof (sys_step_generation _ _ Hs).
  destruct IH; [lia|]. eapply dead_step; [done| |done..]. apply reachable_Inv with c; [done..|lia].
Qed.

Lemma dead_completion req answer s : ¬ key_live s (req_key req) → complete req answer s = (None, s).
Proof. intros Hd. unfold complete. by rewrite finish_request_dead. Qed.

(** A Tflush that is answered kills the live request it names. *)
Lemma flush_kills tag req r outcome s out s' :
  Inv s out → req ∈ out → key_live s (req_key req) →
  admit_message (TFlush tag (req_tag req)) s = (FlushEvent r outcome, s') →
  r = RFlush tag ∧ outcome = Cancelled (req_key req) ∧ ¬ key_live s' (req_key req).
Proof.
  intros HI Hreq Hl Ha. apply (admit_admission (TFlush tag _) _ _ _ _ HI eq_refl) in Ha.
  assert (∀ k s1, begun s k s1 → live (requests s1) !! req_tag req = Some (req_key req)) as Hb.
  { intros k s1 Hb. rewrite (bg_state _ _ _ Hb). simpl. rewrite lookup_insert_ne; [done|].
    intros E. pose proof (bg_free _ _ _ Hb). unfold key_live, req_tag in *. congruence. }
  inversion Ha as [| | |oldtag k s1 c' Em Hbg Ht HI1 Hc Hcl Er Es|oldtag k s1 Em Hbg Ht HI1 Hc Er Es];
    subst; injection Em as <-; rewrite (Hb _ _ Hbg) in Hc; [|done].
  injection Hc as <-. split_and!; [done..|].
  case_decide as E; [rewrite E; by intros [_ ?]%settle_live|].
  by intros [[_ ?]%settle_live _]%settle_live.
Qed.

(** Tflush means silence: once the server has answered a Tflush that named a
    live request, that request is cancelled, and whatever messages and answers
    follow (its tag reused included) its late completion produces no reply and
    does not touch the session. *)
Theorem flush_silences c st tag req r outcome s' st' answer :
  0 ≤ max_fids c → reachable c st → req ∈ sent st → key_live (sys_session st) (req_key req) →
  admit_message (TFlush tag (req_tag req)) (sys_session st) = (FlushEvent r outcome, s') →
  rtc sys_step (Sys_mk s' (sent st)) st' → generation_of st' < u64_max →
  r = RFlush tag ∧ outcome = Cancelled (req_key req) ∧
  complete req answer (sys_session st') = (None, sys_session st').
Proof.
  intros Hm Hr Hreq Hl Ha Hrun Hg. destruct st as [s out]. cbn [sys_session sent] in *.
  pose proof (step_admit _ _ out _ _ Ha : sys_step (Sys_mk s out) (Sys_mk s' out)) as Hstep.
  pose proof (rtc_l _ _ _ _ Hstep Hrun) as Hrun0.
  pose proof (run_generation _ _ _ Hr Hrun0).
  pose proof (reachable_Inv _ _ Hm Hr ltac:(lia)) as HI.
  destruct (flush_kills _ _ _ _ _ _ _ HI Hreq Hl Ha) as (-> & -> & Hd). split_and!; [done..|].
  apply dead_completion.
  by eapply dead_forever; [exact Hm|exact (reachable_run _ _ _ Hr (rtc_once _ _ Hstep))|..].
Qed.

Lemma flush_silences_witness :
  let '(ev, s') := admit_message (TFlush 2 1) (sys_session sample_sys) in
  ev = FlushEvent (RFlush 2) (Cancelled (RequestKey_mk 1 1)) ∧
  complete sample_request (Ok (CAttach (Qid_dir 7))) s' = (None, s').
Proof.
  destruct (admit_message (TFlush 2 1) (sys_session sample_sys)) as [ev s'] eqn:E.
  assert (ev = FlushEvent (RFlush 2) (Cancelled (RequestKey_mk 1 1))) as ->.
  { apply (f_equal fst) in E. vm_compute in E. symmetry. exact E. }
  assert (generation_of (Sys_mk s' (sent sample_sys)) < u64_max) as Hg.
  { apply (f_equal snd) in E. simpl in E. rewrite <- E. vm_compute. reflexivity. }
  split; [reflexivity|].
  exact (proj2 (proj2 (flush_silences sample_config sample_sys 2 sample_request (RFlush 2)
    (Cancelled (RequestKey_mk 1 1)) s' (Sys_mk s' (sent sample_sys)) (Ok (CAttach (Qid_dir 7)))
    ltac:(done) sample_reachable sample_in sample_live E (rtc_refl _ _) Hg))).
Defined.

(** C34: Tversion starts a new session: it drops every fid, reservation and live
    request, and no answer to a request of the old session ever reaches the
    client or changes the new one. *)
Theorem version_discards_session c st tag msize version ev s' st' req answer :
  0 ≤ max_fids c → reachable c st → req ∈ sent st →
  admit_message (TVersion tag msize version) (sys_session st) = (ev, s') →
  rtc sys_step (Sys_mk s' (sent st)) st' → generation_of st' < u64_max →
  fids s' = ∅ ∧ reservations s' = ∅ ∧ live (requests s') = ∅ ∧
  complete req answer (sys_session st') = (None, sys_session st').
Proof.
  intros Hm Hr Hreq Ha Hrun Hg. destruct st as [s out]. cbn [sys_session sent] in *.
  assert (fids s' = ∅ ∧ reservations s' = ∅ ∧ live (requests s') = ∅ ∧ hand_over ev out = out)
    as (Hf & Hre & Hl & Hev).
  { unfold admit_message, reset_for_version in Ha.
    destruct (_ <? MIN_MSIZE); [|destruct (accept _ _)]; by simplify_eq. }
  pose proof (step_admit _ _ out _ _ Ha) as Hstep. rewrite Hev in Hstep.
  split_and!; [done..|]. apply dead_completion.
  eapply dead_forever; [exact Hm|exact (reachable_run _ _ _ Hr (rtc_once _ _ Hstep))|done| |done..].
  unfold key_live. simpl. by rewrite Hl, lookup_empty.
Qed.

Lemma version_discards_session_witness :
  let s' := (admit_message sample_version (sys_session sample_sys)).2 in
  complete sample_request (Ok (CAttach (Qid_dir 7))) s' = (None, s').
Proof.
  exact (proj2 (proj2 (proj2 (version_discards_session sample_config sample_sys NOTAG 8192
    (bstr "9P2000") _ _ (Sys_mk _ (sent sample_sys)) sample_request (Ok (CAttach (Qid_dir 7)))
    ltac:(done) sample_reachable sample_in (surjective_pairing _) (rtc_refl _ _)
    ltac:(vm_compute; reflexivity))))).
Defined.

(** ** The synchronous server *)

Lemma spec_reply_tag v msize tag fs kind answer reply fs' :
  spec_completion v msize tag fs kind answer = Ok (reply, fs') → r_tag reply = tag.
Proof.
  intros H. destruct kind, answer; cbn [spec_completion] in H; try done; inv_ok; simplify_eq;
    try done; repeat case_match; inv_ok; by simplify_eq.
Qed.

Lemma no_live s : session_ok s → (∀ k, ¬ key_live s k) → live (requests s) = ∅.
Proof.
  intros Hs Hn. apply map_empty. intros tag. destruct (live _ !! tag) as [k|] eqn:E; [|done].
  destruct (table_live _ (ok_table _ Hs) _ _ E) as [Ht _]. destruct (Hn k).
  unfold key_live. by rewrite Ht.
Qed.

(** Between two messages of the synchronous server nothing is in flight. *)
Definition idle (s : Session) : Prop := (∃ out, Inv s out) ∧ live (requests s) = ∅.

Lemma idle_no_live s k : live (requests s) = ∅ → ¬ key_live s k.
Proof. intros Hl. unfold key_live. by rewrite Hl, lookup_empty. Qed.

Lemma begun_only s k s1 k' : live (requests s) = ∅ → begun s k s1 → key_live s1 k' → k' = k.
Proof.
  intros Hl Hb Hk. destruct (decide (k' = k)) as [|Hne]; [done|].
  destruct (idle_no_live s k' Hl). by eapply begun_other.
Qed.

Lemma begun_next s k s1 :
  begun s k s1 → next_generation (requests s1) ≤ next_generation (requests s) + 1.
Proof. intros Hb. rewrite (bg_state _ _ _ Hb). simpl. unfold saturating_add. lia. Qed.

Lemma complete_live req answer s out reply s' :
  Inv s out → req ∈ out → key_live s (req_key req) → complete req answer s = (reply, s') →
  (∃ r, reply = Some r ∧ r_tag r = req_tag req) ∧
  requests s' = requests (settle (req_key req) s).
Proof.
  intros HI Hr Hl. rewrite (complete_spec _ _ _ _ HI Hr), decide_True by done.
  destruct answer as [a|e]; simpl; [|intros [= <- <-]; eauto].
  destruct (spec_completion _ _ _ _ _ _) as [[r fs]|e] eqn:E; intros [= <- <-]; [|eauto].
  split; [|done]. exists r. split; [done|]. by eapply spec_reply_tag.
Qed.

Lemma next_settle k s : next_generation (requests (settle k s)) = next_generation (requests s).
Proof. done. Qed.

(** What one admission does to an idle session: it either ends there, or hands
    over one request, which is then the only live one. *)
Lemma idle_admit m s ev s' :
  idle s → is_tversion m = false → next_generation (requests s) + 1 < u64_max →
  admit_message m s = (ev, s') →
  next_generation (requests s') ≤ next_generation (requests s) + 1 ∧
  match ev with
  | Reply r | FlushEvent r _ => idle s' ∧ r_tag r = t_tag m
  | Dispatch req => ∃ out, Inv s' out ∧ req ∈ out ∧ key_live s' (req_key req) ∧
      (∀ k, key_live s' k → k = req_key req) ∧ req_tag req = t_tag m
  end.
Proof.
  intros [[out HI] Hl] Hm Hg Ha. pose proof (admit_admission _ _ _ _ _ HI Hm Ha) as H.
  assert (next_generation (requests s') ≤ next_generation (requests s) + 1) as Hn.
  { destruct H as [| |k s1 kind s2 Hb _ _ He _ _|oldtag k s1 c _ Hb _ _ _ _|oldtag k s1 _ Hb _ _ _].
    - lia.
    - simpl. unfold saturating_add. lia.
    - rewrite (ext_requests _ _ He). exact (begun_next _ _ _ Hb).
    - case_decide; rewrite ?next_settle; exact (begun_next _ _ _ Hb).
    - rewrite next_settle. exact (begun_next _ _ _ Hb). }
  split; [done|]. pose proof (admission_Inv _ _ _ _ _ HI H ltac:(lia)) as HI'.
  destruct H as [| |k s1 kind s2 Hb Ht _ He _ _|oldtag k s1 c _ Hb _ _ _ Hc|oldtag k s1 _ Hb _ _ _];
    simpl in HI'.
  - split; [|done]. by split; [exists out|].
  - split; [|done]. by split; [exists out|].
  - eexists. split_and!; [exact HI'|apply elem_of_cons; by left| | |done].
    + exact (extends_key _ _ _ He (begun_live _ _ _ Hb)).
    + intros k'. unfold key_live at 1. rewrite (ext_requests _ _ He). by apply (begun_only _ _ _ _ Hl Hb).
  - split; [|done]. split; [by exists out|]. apply no_live; [apply HI'|]. intros k'.
    case_decide as Hck; [intros [E%(begun_only _ _ _ _ Hl Hb) ?]%settle_live; done|].
    intros [[E%(begun_only _ _ _ _ Hl Hb) _]%settle_live ?]%settle_live. done.
  - split; [|done]. split; [by exists out|]. apply no_live; [apply HI'|].
    intros k' [E%(begun_only _ _ _ _ Hl Hb) ?]%settle_live. done.
Qed.

Section synchronous.
Context {T : Type} `{FileTree T}.

(** The messages of a connection, handled one after the other. *)
Fixpoint handle_all (ms : list TMessage) (srv : Server T) : list RMessage * Server T :=
  match ms with
  | [] => ([], srv)
  | m :: ms =>
      let '(r, srv1) := handle m srv in
      let '(rs, srv2) := handle_all ms srv1 in
      (r :: rs, srv2)
  end.

Lemma idle_version tag msize version s ev s' :
  idle s → admit_message (TVersion tag msize version) s = (ev, s') →
  idle s' ∧ next_generation (requests s') ≤ next_generation (requests s) + 1 ∧
  ∃ r, ev = Reply r ∧ r_tag r = tag.
Proof.
  intros [[out HI] _] Ha. pose proof (version_Inv _ _ _ _ _ _ _ HI Ha) as HI'.
  unfold admit_message, reset_for_version in Ha.
  destruct (_ <? MIN_MSIZE); [|destruct (accept _ _)]; simplify_eq;
    (split_and!; [split; [by exists out|done]|simpl; unfold saturating_add; lia|by eexists]).
Qed.

Lemma idle_invalidate s : idle s → idle (invalidate s).
Proof. intros [[out HI] _]. split; [|done]. exists out. by eapply Inv_emptied. Qed.

Lemma handle_idle m srv r srv' :
  idle (session srv) → next_generation (requests (session srv)) + 2 < u64_max →
  handle m srv = (r, srv') →
  r_tag r = t_tag m ∧ idle (session srv') ∧
  next_generation (requests (session srv')) ≤ next_generation (requests (session srv)) + 2.
Proof.
  intros Hi Hg. unfold handle. destruct (admit_message m (session srv)) as [ev s1] eqn:Ea.
  destruct (is_tversion m) eqn:Hv.
  - destruct m; try done. destruct (idle_version _ _ _ _ _ _ Hi Ea) as (Hi1 & Hn & r0 & -> & Hr0).
    destruct (ft_reset (tree srv)) as [[[]|e] t1]; intros [= <- <-]; simpl session.
    + split_and!; [done..|lia].
    + split_and!; [done|by apply idle_invalidate|]. simpl. unfold saturating_add. lia.
  - destruct (idle_admit _ _ _ _ Hi Hv ltac:(lia) Ea) as [Hn Hev].
    destruct ev as [r0|req|r0 o]; cbn.
    + intros [= <- <-]. destruct Hev. split_and!; [done..|simpl; lia].
    + destruct Hev as (out & HI & Hin & Hl & Honly & Ht).
      destruct (perform_file_tree_request req (tree srv)) as [answer t2].
      destruct (complete req answer s1) as [reply s2] eqn:Ec. intros [= <- <-].
      pose proof (complete_Inv _ _ _ _ _ _ HI Hin Ec) as HI2.
      destruct (complete_live _ _ _ _ _ _ HI Hin Hl Ec) as ((r1 & -> & Hr1) & Hq).
      split_and!; simpl; [congruence| |rewrite Hq, next_settle; lia].
      split; [by exists out|]. apply no_live; [apply HI2|]. intros k. unfold key_live.
      rewrite Hq. intros [Hk ?]%settle_live. apply Honly in Hk. congruence.
    + intros [= <- <-]. destruct Hev. split_and!; [done..|simpl; lia].
Qed.

Lemma handle_all_idle ms srv :
  idle (session srv) →
  next_generation (requests (session srv)) + 2 * vlen ms < u64_max →
  r_tag <$> (handle_all ms srv).1 = t_tag <$> ms ∧ idle (session (handle_all ms srv).2).
Proof.
  revert srv. induction ms as [|m ms IH]; intros srv Hi Hg; [done|]. cbn [handle_all].
  destruct (handle m srv) as [r srv1] eqn:E. rewrite vlen_cons in Hg.
  pose proof (vlen_nonneg ms).
  destruct (handle_idle _ _ _ _ Hi ltac:(lia) E) as (Hr & Hi1 & Hn).
  destruct (IH srv1 Hi1 ltac:(lia)) as [IH1 IH2].
  destruct (handle_all ms srv1) as [rs srv2]. cbn [fst snd] in *.
  split; [|done]. by rewrite !fmap_cons, Hr, IH1.
Qed.

(** The synchronous server answers every message once, in order and under
    its own tag, whatever file tree is behind it, and after each batch of
    messages no request is live, no fid is reserved and the fid table is within
    its limit. *)
Theorem synchronous_server_answers c (t : T) ms :
  0 ≤ max_fids c → 2 * vlen ms < u64_max →
  let '(replies, srv) := handle_all ms (Server_with_config t c) in
  r_tag <$> replies = t_tag <$> ms ∧
  live (requests (session srv)) = ∅ ∧ reservations (session srv) = ∅ ∧
  Z.of_nat (size (fids (session srv))) ≤ max_fids (config (session srv)).
Proof.
  intros Hm Hg.
  destruct (handle_all_idle ms (Server_with_config t c)) as [Ht [[out HI] Hl]].
  { split; [|done]. exists []. by apply Inv_init. }
  { done. }
  destruct (handle_all ms _) as [replies srv]. simpl in *.
  pose proof (inv_ok _ _ (proj1 HI)) as Hs. split_and!; [done..|by apply quiet_reservations|].
  pose proof (ok_limit _ Hs) as Hlim. rewrite fid_count_eq in Hlim. lia.
Qed.

End synchronous.

(** A tree that holds one directory with nothing in it, on the trait's defaults. *)
#[export] Instance empty_tree : FileTree unit :=
  FileTree_defaults (λ _ _ _, mret (Qid_dir 0)) (λ _ _ _ _, throw (from_static ENOENT))
    (λ _ q _, mret (OpenFile_mk q 0)) (λ _ _ _ _, mret (Directory []))
    (λ _, throw (from_static EPERM)).

Lemma synchronous_server_answers_witness :
  let ms := [sample_version; sample_attach; TOpen 2 0 OREAD; TRead 3 0 0 100; TClunk 4 0] in
  r_tag <$> (handle_all ms (Server_with_config () sample_config)).1 = [NOTAG; 1; 2; 3; 4].
Proof.
  cbv zeta. pose proof (synchronous_server_answers sample_config ()
    [sample_version; sample_attach; TOpen 2 0 OREAD; TRead 3 0 0 100; TClunk 4 0]
    ltac:(done) ltac:(done)) as H.
  destruct (handle_all _ _) as [rs srv] in H |- *. exact (proj1 H).
Defined.

(** ** What replies may contain *)

(** No symlink metadata and no message of the R dialect. *)
Definition reply_is_plain (r : RMessage) : bool :=
  match r with
  | RAuth _ q | RAttach _ q | ROpen _ q _ | RCreate _ q _ => negb (is_symlink q)
  | RWalk _ qs => forallb (λ q, negb (is_symlink q)) qs
  | RStat _ st => negb (is_symlink (st_qid st)) && negb (has_bits (st_mode st) DMSYMLINK)
  | RRenameAt _ | RReferrals _ _ => false
  | _ => true
  end.

Lemma validate_qid_plain q : validate_qid_variant Plain q = Ok () → is_symlink q = false.
Proof. unfold validate_qid_variant. simpl. rewrite andb_true_r. by case_match. Qed.

Lemma for_each_Forall {A} (f : A → Result unit) xs :
  for_each f xs = Ok () → Forall (λ x, f x = Ok ()) xs.
Proof.
  induction xs as [|x xs IH]; simpl; [by constructor|].
  destruct (f x) as [[]|] eqn:E; simpl; [|done]. auto.
Qed.

Lemma spec_plain msize tag fs kind answer reply fs' s :
  s_variant s = Some Plain → admitted s kind →
  spec_completion Plain msize tag fs kind answer = Ok (reply, fs') → reply_is_plain reply = true.
Proof.
  intros Hv Ha H. destruct kind, answer; cbn [spec_completion admitted] in *; try done; inv_ok;
    repeat match goal with
    | x : () |- _ => destruct x
    | H : validate_qid_variant Plain _ = Ok () |- _ => apply validate_qid_plain in H
    end; simplify_eq; simpl; try done; try (apply negb_true_iff; done); try congruence.
  - match goal with H : for_each _ _ = _ |- _ => apply for_each_Forall in H as Hq end.
    case_bool_decide; inv_ok; simplify_eq; simpl; [done|]. apply forallb_forall. intros q Hq'.
    apply list_elem_of_In in Hq'. rewrite Forall_forall in Hq.
    by apply negb_true_iff, validate_qid_plain, Hq.
  - destruct (is_dir qid); inv_ok; by simplify_eq.
  - match goal with H : validate_stat_variant _ _ = _ |- _ =>
      unfold validate_stat_variant in H end. inv_ok.
    repeat match goal with
    | x : () |- _ => destruct x
    | H : validate_qid_variant Plain _ = Ok () |- _ => apply validate_qid_plain in H as ->
    end. simpl in *. destruct (has_bits _ _); done.
Qed.

(** on a connection that negotiated plain 9P2000 no completion, whatever the
    application answers, produces a reply with a symlink qid or a symlink stat,
    or a message of the 9P2000.R extension. *)
Theorem plain_dialect_respected c st req answer r s' :
  0 ≤ max_fids c → reachable c st → generation_of st < u64_max →
  s_variant (sys_session st) = Some Plain → req ∈ sent st →
  complete req answer (sys_session st) = (Some r, s') → reply_is_plain r = true.
Proof.
  intros Hm Hreach Hg Hv Hreq Hc. pose proof (reachable_Inv _ _ Hm Hreach Hg) as HI.
  rewrite (complete_spec _ _ _ _ HI Hreq), Hv in Hc. case_decide as Hl; [|done].
  destruct (inv_holds _ _ (proj1 HI) _ Hreq Hl) as [_ Ha].
  destruct answer as [a|e]; simpl in Hc; [|by simplify_eq].
  destruct (spec_completion _ _ _ _ _ _) as [[r' fs]|e] eqn:E; simplify_eq; [|done].
  by eapply spec_plain.
Qed.

Lemma plain_dialect_respected_witness :
  reply_is_plain (RAttach 1 (Qid_dir 7)) = true.
Proof.
  exact (plain_dialect_respected sample_config sample_sys sample_request
    (Ok (CAttach (Qid_dir 7))) _ _ ltac:(done) sample_reachable sample_generation eq_refl sample_in
    eq_refl).
Defined.

(** ** Replies fit the negotiated size *)

Lemma guard_or_Ok b e u : guard_or b e = Ok u → b = true.
Proof. by destruct b. Qed.

Lemma dirread_loop_le stats offset limit out position bs :
  limit < usize_max → vlen out ≤ limit →
  dirread_loop stats offset limit out position = Ok bs → vlen bs ≤ limit.
Proof.
  intros Hl. revert out position. induction stats as [|st stats IH]; intros out position Ho H; simpl in H.
  { by simplify_eq. }
  inv_ok. cbv zeta in H. destruct (_ <=? offset); [by eapply IH|].
  destruct (position <? offset); [by simplify_eq|].
  destruct (limit <? _) eqn:E; [by simplify_eq|]. apply Z.ltb_ge in E.
  eapply IH; [|exact H]. rewrite vlen_app. unfold saturating_add in E. lia.
Qed.

Lemma apply_read_le v data offset count bs :
  count < usize_max → apply_read v data offset count = Ok bs → vlen bs ≤ count.
Proof.
  intros Hc. destruct data as [b|stats]; simpl.
  - unfold take_count. intros H. inv_ok. case_match; guards; [|lia].
    rewrite vlen_ztake; lia.
  - unfold dirread_chunk. intros H. inv_ok. eapply dirread_loop_le; [done| |done].
    rewrite vlen_nil. lia.
Qed.

Lemma validate_walk_names_len wnames : validate_walk_names wnames = Ok () → vlen wnames ≤ MAXWELEM.
Proof. unfold validate_walk_names. destruct (Z.ltb_spec MAXWELEM (vlen wnames)); [done|lia]. Qed.

Lemma checked_fits m msize :
  rbody_ok m → 7 + vlen (rbody m) ≤ msize → msize ≤ u32_max →
  encode_rmessage_checked m msize = Ok (frame_of (r_message_type m) (r_tag m) (rbody m)).
Proof.
  intros Hok Hle Hmax. unfold encode_rmessage_checked. pose proof (vlen_nonneg (rbody m)).
  rewrite (proj2 (encode_rmessage_Ok m _)) by (split_and!; [done|lia|done]). simpl.
  unfold check_msize. rewrite vlen_frame_of, try_from_in by lia. simpl.
  by rewrite (proj2 (Z.ltb_ge _ _)) by lia.
Qed.

Lemma vlen_concat_qids qs : vlen (concat (map StatProps.enc_qid qs)) = 13 * vlen qs.
Proof.
  induction qs as [|q qs IH]; [done|]. cbn [map concat]. rewrite vlen_app, IH, vlen_enc_qid, vlen_cons. lia.
Qed.

(** The replies whose size the protocol itself bounds. *)
Definition bounded_reply (r : RMessage) : bool :=
  match r with RStat _ _ | RReferrals _ _ | RError _ _ => false | _ => true end.

Lemma spec_fits v s tag kind answer reply fs' fs :
  MIN_MSIZE ≤ s_msize s ≤ u32_max → admitted s kind → bounded_reply reply = true →
  spec_completion v (s_msize s) tag fs kind answer = Ok (reply, fs') →
  rbody_ok reply ∧ 7 + vlen (rbody reply) ≤ s_msize s.
Proof.
  intros Hms Ha Hb H. unfold MIN_MSIZE in Hms.
  destruct kind, answer; cbn [spec_completion admitted] in *; try done; inv_ok; simplify_eq; try done;
    cbn [rbody_ok rbody]; rewrite ?vlen_app, ?vlen_enc_qid, ?vlen_le_bytes, ?vlen_nil; try (split; [done|lia]).
  - destruct Ha as [Hw%validate_walk_names_len _]. unfold MAXWELEM in *.
    case_bool_decide; inv_ok; simplify_eq; cbn [rbody_ok rbody];
      rewrite ?vlen_app, ?vlen_le_bytes, ?vlen_concat_qids; unfold MAXWELEM.
    + vlia.
    + match goal with H : guard_or _ _ = Ok _ |- _ => apply guard_or_Ok, Z.leb_le in H end. lia.
  - match goal with H : apply_read _ _ _ _ = Ok ?bs |- _ =>
      assert (vlen bs ≤ count) by (eapply apply_read_le; [|exact H];
        unfold saturating_sub, RREAD_HEADER_SIZE, usize_max, u64_max, u32_max in *; lia) end.
    assert (∃ bs, reply = RRead tag bs ∧ vlen bs ≤ count) as (bs & -> & Hbs).
    { destruct (is_dir qid); inv_ok; simplify_eq; eauto. }
    cbn [rbody_ok rbody]. rewrite vlen_app, vlen_le_bytes.
    unfold saturating_sub, RREAD_HEADER_SIZE, u32_max in *. lia.
Qed.

(** A reply fits the negotiated message size: whatever the application
    answers, every reply of a completion (Rread of a file or of a directory
    included) other than Rstat, Rreferrals and Rerror encodes and passes the
    transport's size check. *)
Theorem replies_fit_msize c st req answer r s' :
  0 ≤ max_fids c → MIN_MSIZE ≤ max_msize c ≤ u32_max →
  reachable c st → generation_of st < u64_max → req ∈ sent st →
  complete req answer (sys_session st) = (Some r, s') → bounded_reply r = true →
  ∃ frame, encode_rmessage_checked r (s_msize (sys_session st)) = Ok frame ∧
           vlen frame ≤ s_msize (sys_session st).
Proof.
  intros Hm Hmax Hreach Hg Hreq Hc Hb. pose proof (reachable_Inv _ _ Hm Hreach Hg) as HI.
  rewrite (complete_spec _ _ _ _ HI Hreq) in Hc. case_decide as Hl; [|done].
  destruct (inv_holds _ _ (proj1 HI) _ Hreq Hl) as [_ Ha].
  destruct (reachable_msize _ _ Hm Hreach Hg) as [_ Hms].
  destruct (negotiated (sys_session st)) eqn:Hn.
  2:{ unfold key_live in Hl. by rewrite (inv_quiet _ _ (proj1 HI) Hn), lookup_empty in Hl. }
  specialize (Hms eq_refl).
  destruct answer as [a|e]; simpl in Hc; [|by simplify_eq].
  destruct (spec_completion _ _ _ _ _ _) as [[r' fs]|e] eqn:E; simplify_eq.
  assert (MIN_MSIZE ≤ s_msize (sys_session st) ≤ u32_max) as Hr by lia.
  destruct (spec_fits _ _ _ _ _ _ _ _ Hr Ha Hb E) as [Hok Hle].
  eexists. split; [apply checked_fits; [done|done|lia]|]. by rewrite vlen_frame_of.
Qed.

Lemma replies_fit_msize_witness :
  ∃ frame, encode_rmessage_checked (RAttach 1 (Qid_dir 7)) 8192 = Ok frame ∧ vlen frame ≤ 8192.
Proof.
  exact (replies_fit_msize sample_config sample_sys sample_request
    (Ok (CAttach (Qid_dir 7))) (RAttach 1 (Qid_dir 7)) _ ltac:(done) ltac:(done) sample_reachable
    sample_generation sample_in eq_refl eq_refl).
Defined.
