(* ===== verification/Client.v ===== *)
(** The transport-free protocol client: [crates/core/src/client.rs].  It
    allocates tags and fids, builds T-messages, and matches R-messages to the
    requests in flight. *)
From S2P Require Import Prelude Errors Qid Stat Referral Message Codec RequestTable.

Inductive Completion :=
| CompVersion (msize : Z) (version : bytes)
| CompAttach (qid : Qid)
| CompAuth (aqid : Qid)
| CompFlush
| CompWalk (qids : list Qid)
| CompOpen (qid : Qid) (iounit : Z)
| CompCreate (qid : Qid) (iounit : Z)
| CompRead (data : bytes)
| CompWrite (count : Z)
| CompClunk
| CompRemove
| CompStat (stat : Stat)
| CompWstat
| CompRenameAt
| CompReferrals (referrals : list NamespaceReferral).

Inductive ClientResponse :=
| ClientCompletion (tag : Z) (completion : Completion)
| ClientError (tag : Z) (ename : bytes).

(** [multiplex/util.rs: response_tag] *)
Definition response_tag (r : ClientResponse) : Z :=
  match r with ClientCompletion tag _ | ClientError tag _ => tag end.

Record Client := Client_mk {
  c_msize : Z;
  c_version : bytes;
  requested_msize : option Z;
  next_tag : Z;
  next_fid : Z;
  pending : RequestTable;
  flush_targets : gmap Z Z;
}.

Record Op := Op_mk { op_tag : Z; op_fid_field : option Z; op_message : TMessage }.

Definition Client_new : Client :=
  Client_mk DEFAULT_MSIZE (bstr "9P2000") None 0 1 RequestTable_new ∅.

Definition set_pending (t : RequestTable) (c : Client) : Client :=
  Client_mk (c_msize c) (c_version c) (requested_msize c) (next_tag c) (next_fid c) t
    (flush_targets c).
Definition set_next_tag (n : Z) (c : Client) : Client :=
  Client_mk (c_msize c) (c_version c) (requested_msize c) n (next_fid c) (pending c)
    (flush_targets c).
Definition set_next_fid (n : Z) (c : Client) : Client :=
  Client_mk (c_msize c) (c_version c) (requested_msize c) (next_tag c) n (pending c)
    (flush_targets c).
Definition set_flush_targets (f : gmap Z Z) (c : Client) : Client :=
  Client_mk (c_msize c) (c_version c) (requested_msize c) (next_tag c) (next_fid c) (pending c) f.
Definition set_requested (r : option Z) (c : Client) : Client :=
  Client_mk (c_msize c) (c_version c) r (next_tag c) (next_fid c) (pending c) (flush_targets c).

Definition on_pending {A} (m : M RequestTable A) : M Client A := λ c,
  let '(r, t) := m (pending c) in (r, set_pending t c).

(** ** Negotiation *)

Definition version_request_for (msize : Z) (variant : Variant) (c : Client) : TMessage * Client :=
  (TVersion NOTAG msize (wire_name variant),
   Client_mk (c_msize c) (bstr "unknown") (Some msize) (next_tag c) (next_fid c)
     (reset (pending c)) ∅).

Definition version_request (msize : Z) (c : Client) : TMessage * Client :=
  version_request_for msize Plain c.

(** ** Tags and fids *)

(** The turns of [for _ in 0..u16::MAX]. *)
Fixpoint alloc_tag_loop (turns : nat) (c : Client) : Result Z * Client :=
  match turns with
  | O => (Err (from_static EDUPTAG), c)
  | S turns =>
      let tag := next_tag c in
      let c := set_next_tag (wrapping_add u16_max (next_tag c) 1) c in
      if tag =? NOTAG then alloc_tag_loop turns c
      else if negb (is_live (pending c) tag) then
        match on_pending (begin tag) c with
        | (Ok _, c) => (Ok tag, c)
        | (Err e, c) => (Err e, c)
        end
      else alloc_tag_loop turns c
  end.

Definition alloc_tag : M Client Z := alloc_tag_loop (Z.to_nat u16_max).

Definition alloc_fid (c : Client) : Z * Client :=
  let f := next_fid c in
  let n := wrapping_add u32_max (next_fid c) 1 in
  let n := if n =? NOFID then 1 else n in
  (f, set_next_fid n c).

Definition fresh_fid : M Client Z := λ c, let '(f, c) := alloc_fid c in (Ok f, c).

(** ** Requests *)

Definition client_attach (uname aname : bytes) : M Client Op :=
  tag ← alloc_tag;
  f ← fresh_fid;
  mret (Op_mk tag (Some f) (TAttach tag f NOFID uname aname)).

Definition client_walk (f : Z) (wnames : list bytes) : M Client Op :=
  tag ← alloc_tag;
  newfid ← fresh_fid;
  mret (Op_mk tag (Some newfid) (TWalk tag f newfid wnames)).

Definition client_open (f mode : Z) : M Client Op :=
  tag ← alloc_tag; mret (Op_mk tag (Some f) (TOpen tag f mode)).

Definition client_read (f offset count : Z) : M Client Op :=
  tag ← alloc_tag; mret (Op_mk tag (Some f) (TRead tag f offset count)).

Definition client_write (f offset : Z) (data : bytes) : M Client Op :=
  tag ← alloc_tag; mret (Op_mk tag (Some f) (TWrite tag f offset data)).

Definition client_create (f : Z) (name : bytes) (perm mode : Z) : M Client Op :=
  tag ← alloc_tag; mret (Op_mk tag (Some f) (TCreate tag f name perm mode)).

Definition client_clunk (f : Z) : M Client Op :=
  tag ← alloc_tag; mret (Op_mk tag (Some f) (TClunk tag f)).

Definition client_remove (f : Z) : M Client Op :=
  tag ← alloc_tag; mret (Op_mk tag (Some f) (TRemove tag f)).

Definition client_stat (f : Z) : M Client Op :=
  tag ← alloc_tag; mret (Op_mk tag (Some f) (TStat tag f)).

Definition client_wstat (f : Z) (stat : Stat) : M Client Op :=
  tag ← alloc_tag; mret (Op_mk tag (Some f) (TWstat tag f stat)).

Definition client_rename_at (olddirfid : Z) (oldname : bytes) (newdirfid : Z) (newname : bytes) :
    M Client Op :=
  tag ← alloc_tag;
  mret (Op_mk tag (Some olddirfid) (TRenameAt tag olddirfid oldname newdirfid newname)).

Definition client_referrals (f : Z) : M Client Op :=
  tag ← alloc_tag; mret (Op_mk tag (Some f) (TReferrals tag f)).

Definition client_flush (oldtag : Z) : M Client Op := λ c,
  if oldtag =? NOTAG then (Err (from_static EBADTAG), c)
  else
    (tag ← alloc_tag;
     _ ← modify (λ c, set_flush_targets (<[tag := oldtag]> (flush_targets c)) c);
     mret (Op_mk tag None (TFlush tag oldtag))) c.

(** [let _ = self.pending.flush(tag)] *)
Definition forget (tag : Z) (c : Client) : Client := set_pending (flush tag (pending c)).2 c.

Definition abandon (tag : Z) (c : Client) : Client :=
  if tag =? NOTAG then set_requested None c
  else
    let c := forget tag c in
    set_flush_targets (delete tag (flush_targets c)) c.

(** ** Responses *)

Definition client_finish (tag : Z) : M Client unit :=
  outcome ← on_pending (flush tag);
  match outcome with
  | Cancelled _ => mret ()
  | Unknown => throw (from_static "unknown response tag")
  end.

Definition validate_iounit (msize iounit : Z) : Result unit :=
  if negb (iounit =? 0) && (max_iounit msize <? iounit)
  then Err (Error_new (bstr "iounit " ++ dec iounit ++ bstr " exceeds negotiated msize " ++ dec msize))
  else Ok ().

Definition finish_as (tag : Z) (completion : Completion) : M Client ClientResponse :=
  _ ← client_finish tag;
  mret (ClientCompletion tag completion).

Definition receive (response : RMessage) : M Client ClientResponse := λ c,
  match response with
  | RVersion tag msize version =>
      if negb (tag =? NOTAG) then (Err (from_static "Rversion did not use NOTAG"), c)
      else
        let requested := requested_msize c in
        let c := set_requested None c in
        match requested with
        | None => (Err (from_static "unsolicited Rversion"), c)
        | Some requested =>
            if (msize <? MIN_MSIZE) || (requested <? msize)
            then (Err (Error_new (bstr "invalid negotiated msize " ++ dec msize ++
                                  bstr " for request " ++ dec requested)), c)
            else
              (Ok (ClientCompletion tag (CompVersion msize version)),
               Client_mk msize version (requested_msize c) (next_tag c) (next_fid c)
                 (reset (pending c)) ∅)
        end
  | RError tag ename =>
      (_ ← (λ c, if tag =? NOTAG then
                   let requested := requested_msize c in
                   (match requested with
                    | Some _ => Ok ()
                    | None => Err (from_static "unknown response tag")
                    end, set_requested None c)
                 else client_finish tag c);
       _ ← modify (λ c, set_flush_targets (delete tag (flush_targets c)) c);
       mret (ClientError tag ename)) c
  | RAttach tag qid => finish_as tag (CompAttach qid) c
  | RAuth tag aqid => finish_as tag (CompAuth aqid) c
  | RFlush tag =>
      (_ ← client_finish tag;
       _ ← modify (λ c,
             match flush_targets c !! tag with
             | Some oldtag => forget oldtag (set_flush_targets (delete tag (flush_targets c)) c)
             | None => c
             end);
       mret (ClientCompletion tag CompFlush)) c
  | RWalk tag qids => finish_as tag (CompWalk qids) c
  | ROpen tag qid iounit =>
      (_ ← client_finish tag;
       c ← get;
       _ ← lift (validate_iounit (c_msize c) iounit);
       mret (ClientCompletion tag (CompOpen qid iounit))) c
  | RCreate tag qid iounit =>
      (_ ← client_finish tag;
       c ← get;
       _ ← lift (validate_iounit (c_msize c) iounit);
       mret (ClientCompletion tag (CompCreate qid iounit))) c
  | RRead tag data => finish_as tag (CompRead data) c
  | RWrite tag count => finish_as tag (CompWrite count) c
  | RClunk tag => finish_as tag CompClunk c
  | RRemove tag => finish_as tag CompRemove c
  | RStat tag stat => finish_as tag (CompStat stat) c
  | RWstat tag => finish_as tag CompWstat c
  | RRenameAt tag => finish_as tag CompRenameAt c
  | RReferrals tag referrals => finish_as tag (CompReferrals referrals) c
  end.
