(* ===== verification/ClientProps.v ===== *)
(** What the protocol client guarantees: tag and fid allocation, flushing, and
    matching of responses ([crates/core/src/client.rs]). *)
From S2P Require Import Prelude Errors Qid Stat Referral Message Codec RequestTable Client.

(** ** Tag allocation *)

(** The tag the [i]-th turn of the loop looks at. *)
Definition turn_tag (c : Client) (i : nat) : Z := (next_tag c + Z.of_nat i) `mod` (u16_max + 1).

Definition usable (c : Client) (tag : Z) : Prop := tag ≠ NOTAG ∧ live (pending c) !! tag = None.

#[export] Instance usable_dec c tag : Decision (usable c tag).
Proof. unfold usable. apply _. Defined.

Lemma turn_tag_0 c : is_u16 (next_tag c) → turn_tag c 0 = next_tag c.
Proof. intros H. unfold turn_tag. rewrite Z.mod_small; [simpl; lia|]. vlia. Qed.

Lemma turn_tag_S c i :
  turn_tag (set_next_tag (wrapping_add u16_max (next_tag c) 1) c) i = turn_tag c (S i).
Proof.
  unfold turn_tag, wrapping_add. simpl next_tag. rewrite Zplus_mod_idemp_l. f_equal. lia.
Qed.

Lemma turn_tag_u16 c i : is_u16 (turn_tag c i).
Proof. unfold turn_tag. pose proof (Z.mod_pos_bound (next_tag c + Z.of_nat i) (u16_max + 1)). vlia. Qed.

(** The loop takes the first usable tag among those its turns look at. *)
Lemma alloc_tag_loop_spec turns c :
  is_u16 (next_tag c) →
  (∃ i key c', (i < turns)%nat ∧ usable c (turn_tag c i) ∧
     (∀ j, (j < i)%nat → ¬ usable c (turn_tag c j)) ∧
     key = RequestKey_mk (turn_tag c i) (next_generation (pending c)) ∧
     alloc_tag_loop turns c = (Ok (turn_tag c i), c') ∧
     c' = set_pending (RequestTable_mk (saturating_add u64_max (next_generation (pending c)) 1)
                         (<[turn_tag c i := key]> (live (pending c))))
            (set_next_tag (turn_tag c (S i)) c)) ∨
  ((∀ i, (i < turns)%nat → ¬ usable c (turn_tag c i)) ∧
   ∃ c', alloc_tag_loop turns c = (Err (from_static EDUPTAG), c')).
Proof.
  revert c. induction turns as [|turns IH]; intros c Hc.
  { right. split; [lia|]. by eexists. }
  cbn [alloc_tag_loop]. set (c1 := set_next_tag _ c).
  assert (is_u16 (next_tag c1)) as Hc1.
  { pose proof (turn_tag_u16 c 1) as H. unfold turn_tag in H. exact H. }
  assert (¬ usable c (next_tag c) →
    alloc_tag_loop (S turns) c = alloc_tag_loop turns c1) as Hskip.
  { intros Hu. cbn [alloc_tag_loop]. fold c1. destruct (next_tag c =? NOTAG) eqn:E1; [done|].
    apply Z.eqb_neq in E1. destruct (is_live (pending c1) (next_tag c)) eqn:E2; [done|].
    apply bool_decide_eq_false, eq_None_not_Some in E2. by destruct Hu. }
  destruct (decide (usable c (next_tag c))) as [Hu|Hu].
  - left. exists 0%nat. rewrite turn_tag_0 by done. destruct Hu as [Hn Hl].
    eexists _, _. split_and!; [lia|done|lia|done| |done].
    rewrite (proj2 (Z.eqb_neq _ _) Hn). unfold is_live at 1. simpl pending. rewrite Hl. simpl.
    unfold on_pending, begin. simpl pending. rewrite (proj2 (Z.eqb_neq _ _) Hn).
    unfold is_live. rewrite Hl. simpl. by unfold turn_tag.
  - specialize (Hskip Hu). cbn [alloc_tag_loop] in Hskip. fold c1 in Hskip. rewrite Hskip.
    assert (∀ i, usable c1 (turn_tag c1 i) ↔ usable c (turn_tag c (S i))) as Hshift.
    { intros i. unfold c1. by rewrite turn_tag_S. }
    destruct (IH c1 Hc1) as [(i & key & c' & Hi & Hui & Hbefore & -> & -> & ->)|[Hall [c' ->]]].
    + left. exists (S i). eexists _, _. split_and!; [lia|by apply Hshift| |done| |done].
      * intros [|j] Hj; [by rewrite turn_tag_0|]. rewrite <- Hshift. apply Hbefore. lia.
      * unfold c1. rewrite !turn_tag_S. done.
    + right. split; [|by eexists]. intros [|i] Hi; [by rewrite turn_tag_0|].
      rewrite <- Hshift. apply Hall. lia.
Qed.

(** The turns look at every tag but the one just before [next_tag]. *)
Lemma turn_tag_covers c tag :
  is_u16 (next_tag c) → is_u16 tag → tag ≠ (next_tag c - 1) `mod` (u16_max + 1) →
  ∃ i, (i < Z.to_nat u16_max)%nat ∧ turn_tag c i = tag.
Proof.
  intros Hn Ht Hne. unfold turn_tag, in_range, u16_max in *.
  exists (Z.to_nat ((tag - next_tag c) `mod` 65536)).
  pose proof (Z.mod_pos_bound (tag - next_tag c) 65536 ltac:(lia)).
  rewrite Z2Nat.id by lia. split.
  - apply Z2Nat.inj_lt; [lia..|].
    destruct (Z.eq_dec ((tag - next_tag c) `mod` 65536) 65535) as [E|E]; [|lia].
    exfalso. apply Hne. change (65535 + 1) with 65536.
    pose proof (Z.div_mod (tag - next_tag c) 65536 ltac:(lia)).
    rewrite <- (Z.mod_small tag 65536) by lia.
    replace tag with (next_tag c - 1 + (1 + (tag - next_tag c) `div` 65536) * 65536) by lia.
    by rewrite Z.mod_add by lia.
  - change (65535 + 1) with 65536. rewrite Zplus_mod_idemp_r.
    rewrite Z.mod_small; lia.
Qed.

Lemma turn_tag_misses c i :
  is_u16 (next_tag c) → (i < Z.to_nat u16_max)%nat →
  turn_tag c i ≠ (next_tag c - 1) `mod` (u16_max + 1).
Proof.
  intros Hn Hi E. unfold turn_tag, in_range, u16_max in *. change (65535 + 1) with 65536 in E.
  assert (0 ≤ Z.of_nat i < 65535) as Hi' by lia. clear Hi.
  pose proof (Z.div_mod (next_tag c + Z.of_nat i) 65536 ltac:(lia)).
  pose proof (Z.div_mod (next_tag c - 1) 65536 ltac:(lia)). lia.
Qed.

(** exactly when tag allocation succeeds: iff some tag other than NOTAG and
    other than the one just before [next_tag] (modulo 2^16) is free.  The loop
    makes 65535 turns and spends one of them on NOTAG, so one real tag is never
    tried. *)
Theorem alloc_tag_succeeds_iff c :
  is_u16 (next_tag c) →
  is_ok (alloc_tag c).1 = true ↔
  ∃ tag, is_u16 tag ∧ usable c tag ∧ tag ≠ (next_tag c - 1) `mod` (u16_max + 1).
Proof.
  intros Hn. unfold alloc_tag.
  destruct (alloc_tag_loop_spec (Z.to_nat u16_max) c Hn)
    as [(i & key & c' & Hi & Hu & _ & _ & -> & _)|[Hall [c' ->]]]; simpl.
  - split; [|done]. intros _. exists (turn_tag c i).
    split_and!; [apply turn_tag_u16|done|by apply turn_tag_misses].
  - split; [done|]. intros (tag & Ht & Hu & Hne). exfalso.
    destruct (turn_tag_covers c tag Hn Ht Hne) as (i & Hi & <-). by eapply Hall.
Qed.

Lemma alloc_tag_succeeds_iff_witness : is_ok (alloc_tag Client_new).1 = true.
Proof.
  apply (alloc_tag_succeeds_iff Client_new); [vm_compute; split; discriminate|].
  exists 7. split_and!; [vm_compute; split; discriminate|split; [discriminate|reflexivity]|].
  vm_compute. discriminate.
Defined.

Lemma alloc_tag_Ok c tag c' :
  is_u16 (next_tag c) → alloc_tag c = (Ok tag, c') →
  is_u16 tag ∧ usable c tag ∧ is_u16 (next_tag c') ∧
  live (pending c') = <[tag := RequestKey_mk tag (next_generation (pending c))]> (live (pending c)) ∧
  next_generation (pending c') = saturating_add u64_max (next_generation (pending c)) 1 ∧
  c_msize c' = c_msize c ∧ c_version c' = c_version c ∧ requested_msize c' = requested_msize c ∧
  next_fid c' = next_fid c ∧ flush_targets c' = flush_targets c.
Proof.
  intros Hn H. unfold alloc_tag in H.
  destruct (alloc_tag_loop_spec (Z.to_nat u16_max) c Hn)
    as [(i & key & c'' & Hi & Hu & _ & -> & E & Ec)|[_ [c'' E]]]; rewrite E in H; simplify_eq.
  split_and!; try done; apply turn_tag_u16.
Qed.

(** Requests in flight on the tags [0..n). *)
Definition in_flight (n : nat) : gmap Z RequestKey :=
  list_to_map ((λ n, (Z.of_nat n, RequestKey_mk (Z.of_nat n) (Z.of_nat n))) <$> seq 0 n).

Lemma in_flight_lookup n tag :
  0 ≤ tag →
  in_flight n !! tag = if tag <? Z.of_nat n then Some (RequestKey_mk tag tag) else None.
Proof.
  intros H0. unfold in_flight. destruct (Z.ltb_spec tag (Z.of_nat n)).
  - apply elem_of_list_to_map_1.
    + rewrite <- list_fmap_compose. apply NoDup_fmap_2; [|apply NoDup_seq].
      intros a b. simpl. lia.
    + apply list_elem_of_fmap. exists (Z.to_nat tag). rewrite Z2Nat.id by lia.
      split; [done|]. apply elem_of_seq. lia.
  - apply not_elem_of_list_to_map_1. rewrite <- list_fmap_compose.
    intros (i & E & Hi%elem_of_seq)%list_elem_of_fmap. simpl in E. lia.
Qed.

(** The state in which the skipped tag is the only free one: [0..65533] are in
    flight, 65534 was the last allocated and has completed. *)
Definition crowded_client : Client :=
  Client_mk DEFAULT_MSIZE (bstr "9P2000") None 65535 1
    (RequestTable_mk 65535 (in_flight (Z.to_nat 65534))) ∅.

Lemma crowded_lookup tag :
  0 ≤ tag → live (pending crowded_client) !! tag =
            if tag <? 65534 then Some (RequestKey_mk tag tag) else None.
Proof.
  intros H0. unfold crowded_client. cbn [pending live].
  rewrite in_flight_lookup, Z2Nat.id by lia. reflexivity.
Qed.

(** A client that has sent [n] Tclunk requests. *)
Fixpoint send_clunks (n : nat) (c : Client) : Client :=
  match n with O => c | S n => (client_clunk 7 (send_clunks n c)).2 end.

Lemma in_flight_S n :
  in_flight (S n) = <[Z.of_nat n := RequestKey_mk (Z.of_nat n) (Z.of_nat n)]> (in_flight n).
Proof.
  unfold in_flight. rewrite seq_S, fmap_app. cbn [Nat.add].
  apply list_to_map_snoc. rewrite <- list_fmap_compose.
  intros (i & E & Hi%elem_of_seq)%list_elem_of_fmap. simpl in E. lia.
Qed.

Lemma alloc_tag_first c :
  is_u16 (next_tag c) → usable c (next_tag c) →
  alloc_tag c =
  (Ok (next_tag c),
   set_pending (RequestTable_mk (saturating_add u64_max (next_generation (pending c)) 1)
       (<[next_tag c := RequestKey_mk (next_tag c) (next_generation (pending c))]> (live (pending c))))
     (set_next_tag (wrapping_add u16_max (next_tag c) 1) c)).
Proof.
  intros Hn Hu. unfold alloc_tag.
  assert (0 < Z.to_nat u16_max)%nat as H0 by (unfold u16_max; lia).
  destruct (alloc_tag_loop_spec (Z.to_nat u16_max) c Hn)
    as [(i & key & c' & Hi & _ & Hb & -> & -> & ->)|[Hall _]].
  - destruct i as [|i]; [by rewrite turn_tag_0|]. exfalso. apply (Hb 0%nat); [lia|].
    by rewrite turn_tag_0.
  - exfalso. apply (Hall 0%nat H0). by rewrite turn_tag_0.
Qed.

Lemma send_clunks_state n :
  (n ≤ Z.to_nat 65535)%nat →
  send_clunks n Client_new =
  Client_mk DEFAULT_MSIZE (bstr "9P2000") None (Z.of_nat n) 1
    (RequestTable_mk (Z.of_nat n) (in_flight n)) ∅.
Proof.
  induction n as [|n IH]; intros Hn; [done|]. cbn [send_clunks]. rewrite IH by lia.
  assert (Z.of_nat n < 65535) as Hlt.
  { rewrite <- (Z2Nat.id 65535) by lia. apply Nat2Z.inj_lt. lia. }
  unfold client_clunk, mbind, M_bind. rewrite alloc_tag_first; cbn [next_tag pending live next_generation].
  - cbn -[Z.of_nat in_flight saturating_add wrapping_add]. rewrite in_flight_S. unfold wrapping_add, saturating_add, u16_max, u64_max.
    rewrite Z.mod_small by lia. rewrite Z.min_r by lia.
    replace (Z.of_nat n + 1) with (Z.of_nat (S n)) by lia. done.
  - vlia.
  - split; [unfold NOTAG, u16_max; lia|]. cbn [pending live].
    rewrite in_flight_lookup by lia. by rewrite Z.ltb_irrefl.
Qed.

Lemma last_clunk_answered n :
  (S n ≤ Z.to_nat 65535)%nat →
  (receive (RClunk (Z.of_nat n)) (send_clunks (S n) Client_new)).2 =
  Client_mk DEFAULT_MSIZE (bstr "9P2000") None (Z.of_nat (S n)) 1
    (RequestTable_mk (Z.of_nat (S n)) (in_flight n)) ∅.
Proof.
  intros Hn. rewrite send_clunks_state by done.
  unfold receive, finish_as, client_finish, on_pending, flush, mbind, M_bind.
  cbn [pending live next_generation].
  rewrite (proj2 (Z.eqb_neq (Z.of_nat n) NOTAG)) by (unfold NOTAG, u16_max; lia).
  rewrite in_flight_lookup by lia. rewrite (proj2 (Z.ltb_lt (Z.of_nat n) (Z.of_nat (S n)))) by lia.
  cbn -[Z.of_nat in_flight]. rewrite in_flight_S, delete_insert_id; [done|].
  rewrite in_flight_lookup by lia. by rewrite Z.ltb_irrefl.
Qed.

Lemma crowded_reached :
  crowded_client = (receive (RClunk 65534) (send_clunks (Z.to_nat 65535) Client_new)).2.
Proof.
  replace (Z.to_nat 65535) with (S (Z.to_nat 65534)) by lia.
  rewrite <- (Z2Nat.id 65534) at 1 by lia. rewrite last_clunk_answered by lia.
  unfold crowded_client. replace (Z.of_nat (S (Z.to_nat 65534))) with 65535 by lia. reflexivity.
Qed.

(** the tag that the loop never tries can be the only free one: a new client
    that sends 65535 requests and receives the answer to the last of them has
    tag 65534 free, and its next request still fails with "duplicate tag". *)
Theorem alloc_tag_spurious_exhaustion :
  let c := (receive (RClunk 65534) (send_clunks (Z.to_nat 65535) Client_new)).2 in
  usable c 65534 ∧ (alloc_tag c).1 = Err (from_static EDUPTAG).
Proof.
  cbv zeta. rewrite <- crowded_reached. assert (is_u16 (next_tag crowded_client)) as Hn.
  { unfold crowded_client, in_range, u16_max. cbn [next_tag]. lia. }
  split.
  - split; [vm_compute; discriminate|]. by rewrite crowded_lookup by lia.
  - unfold alloc_tag. destruct (alloc_tag_loop_spec (Z.to_nat u16_max) crowded_client Hn)
      as [(i & key & c' & Hi & [Hu1 Hu2] & _ & _ & _ & _)|[_ [c' ->]]]; [exfalso|done].
    pose proof (turn_tag_misses _ i Hn Hi) as Hm. pose proof (turn_tag_u16 crowded_client i) as Hr.
    rewrite crowded_lookup in Hu2 by (destruct Hr; lia).
    change ((next_tag crowded_client - 1) `mod` (u16_max + 1)) with 65534 in Hm.
    unfold NOTAG, in_range, u16_max in *. destruct (Z.ltb_spec (turn_tag crowded_client i) 65534); [done|].
    lia.
Qed.

(** ** Fid allocation *)

Fixpoint alloc_fids (n : nat) (c : Client) : list Z :=
  match n with
  | O => []
  | S n => let '(f, c) := alloc_fid c in f :: alloc_fids n c
  end.

Lemma alloc_fid_from c f :
  next_fid c = f → 1 ≤ f < NOFID →
  (alloc_fid c).1 = f ∧ next_fid (alloc_fid c).2 = if f =? NOFID - 1 then 1 else f + 1.
Proof.
  intros <- Hf. unfold alloc_fid, wrapping_add, NOFID in *. simpl. split; [done|].
  rewrite Z.mod_small by (unfold u32_max in *; lia).
  destruct (Z.eqb_spec (next_fid c + 1) u32_max), (Z.eqb_spec (next_fid c) (u32_max - 1)); lia.
Qed.

Lemma alloc_fids_seq n c f :
  next_fid c = f → 1 ≤ f → f + Z.of_nat n ≤ NOFID →
  alloc_fids n c = (λ i, f + Z.of_nat i) <$> seq 0 n.
Proof.
  revert c f. induction n as [|n IH]; intros c f Hc H1 Hle; [done|].
  destruct (alloc_fid_from c f Hc ltac:(lia)) as [Hf Hn]. cbn [alloc_fids].
  destruct (alloc_fid c) as [f' c'] eqn:E. simpl in Hf, Hn. subst f'.
  cbn [seq]. rewrite fmap_cons, Z.add_0_r. f_equal.
  destruct (Z.eqb_spec f (NOFID - 1)).
  - destruct n; [done|]. unfold NOFID, u32_max in *. lia.
  - rewrite (IH c' (f + 1)) by lia. rewrite <- fmap_S_seq, <- list_fmap_compose.
    apply list_fmap_ext. intros i x _. simpl. lia.
Qed.

(** The first 2^32-2 fids a client allocates are pairwise distinct, and
    neither 0 nor NOFID is among them. *)
Theorem allocated_fids_distinct n :
  Z.of_nat n ≤ NOFID - 1 →
  NoDup (alloc_fids n Client_new) ∧
  Forall (λ f, 1 ≤ f < NOFID) (alloc_fids n Client_new).
Proof.
  intros Hn. rewrite (alloc_fids_seq n Client_new 1) by (done || lia). split.
  - apply NoDup_fmap_2; [intros a b; lia|apply NoDup_seq].
  - apply Forall_fmap, Forall_forall. intros i Hi%elem_of_seq. simpl. lia.
Qed.

Lemma allocated_fids_distinct_witness : NoDup (alloc_fids 100 Client_new).
Proof. apply (allocated_fids_distinct 100). vm_compute. discriminate. Defined.

(** ** Responses and flushing *)

Definition is_rversion (m : RMessage) : bool :=
  match m with RVersion _ _ _ => true | _ => false end.

Lemma client_finish_live tag c k :
  tag ≠ NOTAG → live (pending c) !! tag = Some k →
  client_finish tag c = (Ok (), forget tag c).
Proof.
  intros Hn Hl. unfold client_finish, on_pending, forget, mbind, M_bind, flush.
  by rewrite (proj2 (Z.eqb_neq _ _) Hn), Hl.
Qed.

Lemma client_finish_unknown tag c :
  tag ≠ NOTAG → live (pending c) !! tag = None →
  client_finish tag c = (Err (from_static "unknown response tag"), c).
Proof.
  intros Hn Hl. unfold client_finish, on_pending, mbind, M_bind, flush.
  rewrite (proj2 (Z.eqb_neq _ _) Hn), Hl. simpl. rewrite delete_id by done.
  by destruct c as [?????[]?].
Qed.

Lemma flush_live tag t : tag ≠ NOTAG → live (flush tag t).2 = delete tag (live t).
Proof. intros Hn. unfold flush. by rewrite (proj2 (Z.eqb_neq _ _) Hn). Qed.

Lemma receive_unknown m c :
  is_rversion m = false → r_tag m ≠ NOTAG → live (pending c) !! r_tag m = None →
  receive m c = (Err (from_static "unknown response tag"), c).
Proof.
  intros Hm Hn Hl. destruct m; try done; cbn [r_tag receive] in *;
    unfold finish_as, mbind, M_bind; rewrite ?client_finish_unknown by done; try done.
  cbv beta. by rewrite (proj2 (Z.eqb_neq _ _) Hn).
Qed.

(** an answered Tflush frees both tags: the flush and the request it named
    leave the table, the other requests stay, and a reply to the flushed request
    that arrives after the Rflush is refused without changing the client. *)
Theorem flush_frees_both_tags c oldtag op c1 :
  is_u16 (next_tag c) → client_flush oldtag c = (Ok op, c1) →
  ∃ c2, receive (RFlush (op_tag op)) c1 = (Ok (ClientCompletion (op_tag op) CompFlush), c2) ∧
    (∀ tag, live (pending c2) !! tag =
            if decide (tag = oldtag ∨ tag = op_tag op) then None else live (pending c) !! tag) ∧
    ∀ late, is_rversion late = false → r_tag late = oldtag →
      receive late c2 = (Err (from_static "unknown response tag"), c2).
Proof.
  intros Hn H. unfold client_flush in H. destruct (Z.eqb_spec oldtag NOTAG) as [|Ho]; [done|].
  apply M_bind_Ok in H as (tag & c0 & Ha & H). apply M_bind_Ok in H as ([] & c0' & Hm & H).
  injection Hm as <-. injection H as <- <-. simpl op_tag.
  apply alloc_tag_Ok in Ha as (_ & [Ht _] & _ & Hl & _); [|done].
  eexists. split.
  { unfold receive, mbind, M_bind. erewrite client_finish_live; [|done|].
    2:{ simpl. rewrite Hl. apply lookup_insert_eq. }
    unfold modify. simpl. rewrite lookup_insert_eq. reflexivity. }
  assert (∀ t, live (pending (forget oldtag (set_flush_targets
      (delete tag (<[tag:=oldtag]> (flush_targets c0)))
      (forget tag (set_flush_targets (<[tag:=oldtag]> (flush_targets c0)) c0))))) !! t =
      if decide (t = oldtag ∨ t = tag) then None else live (pending c) !! t) as Hlive.
  { intros t. simpl. rewrite !flush_live, Hl by done. case_decide as Hd.
    - destruct Hd as [->| ->]; [apply lookup_delete_eq|].
      destruct (decide (tag = oldtag)) as [->|]; [apply lookup_delete_eq|].
      by rewrite lookup_delete_ne, lookup_delete_eq.
    - by rewrite !lookup_delete_ne, lookup_insert_ne by naive_solver. }
  split; [exact Hlive|]. intros late Hv <-. apply receive_unknown; [done..|].
  rewrite Hlive, decide_True by auto. done.
Qed.

Lemma flush_frees_both_tags_witness :
  ∃ c2, receive (RFlush 1) (client_flush 0 (client_stat 5 Client_new).2).2 =
          (Ok (ClientCompletion 1 CompFlush), c2) ∧ live (pending c2) !! 0 = None.
Proof.
  destruct (flush_frees_both_tags (client_stat 5 Client_new).2 0 (Op_mk 1 None (TFlush 1 0))
    (client_flush 0 (client_stat 5 Client_new).2).2) as (c2 & H1 & H2 & _).
  - vm_compute. split; discriminate.
  - vm_compute. reflexivity.
  - exists c2. split; [exact H1|]. rewrite H2. reflexivity.
Defined.
