(* ===== verification/EndToEnd.v ===== *)
(** Client and server together: [crates/core/src/client.rs] against
    [crates/core/src/server/handlers.rs].  The two ends negotiate the same
    message size and dialect, and every call of the client is answered with a
    response the client accepts. *)
From S2P Require Import Prelude Errors Qid Stat Referral Message Codec CodecProps.
From S2P Require Import RequestTable Session Server Reservations ServerInv ServerProps.
From S2P Require Import Client ClientProps.

(** ** Negotiation *)

Lemma accept_wire_name offered v :
  accept offered (wire_name v) =
  Some (if decide (offered = R ∧ v = R) then R else Plain).
Proof. destruct offered, v; vm_compute; reflexivity. Qed.

Lemma accept_response_wire_name asked v :
  accept_response asked (wire_name v) =
  if decide (v = R → asked = R) then Some v else None.
Proof. destruct asked, v; vm_compute; reflexivity. Qed.

(** The two ends agree: whatever state they were in, when the client's
    Tversion is admitted and the answer received, both use the smaller of the
    requested and the server's maximal size, the client accepts the version the
    server chose, both run the same dialect, and that is 9P2000.R exactly when
    both ends offer it. *)
Theorem negotiation_agrees c s msize v :
  MIN_MSIZE ≤ msize → MIN_MSIZE ≤ max_msize (config s) →
  let '(request, c1) := version_request_for msize v c in
  let '(ev, s') := admit_message request s in
  ∃ reply c2, ev = Reply reply ∧
    receive reply c1 = (Ok (ClientCompletion NOTAG
      (CompVersion (s_msize s') (s_version s'))), c2) ∧
    c_msize c2 = s_msize s' ∧ s_msize s' = Z.min msize (max_msize (config s)) ∧
    negotiated s' = true ∧
    s_variant s' = Some (if decide (config_variant (config s) = R ∧ v = R) then R else Plain) ∧
    accept_response v (c_version c2) = s_variant s'.
Proof.
  intros H1 H2. unfold version_request_for, admit_message, reset_for_version. simpl config.
  rewrite (proj2 (Z.ltb_ge msize MIN_MSIZE)) by lia. rewrite accept_wire_name.
  set (w := if decide _ then R else Plain).
  eexists _, _. split; [done|]. split.
  { unfold receive. simpl.
    rewrite (proj2 (Z.ltb_ge (Z.min msize (max_msize (config s))) MIN_MSIZE)) by lia.
    rewrite (proj2 (Z.ltb_ge msize (Z.min msize (max_msize (config s))))) by lia. reflexivity. }
  split_and!; try done. simpl. rewrite accept_response_wire_name, decide_True; [done|].
  subst w. case_decide; naive_solver.
Qed.

Lemma negotiation_agrees_witness :
  ∃ c2, receive (RVersion NOTAG 8192 (bstr "9P2000")) (version_request_for 8192 R Client_new).2 =
    (Ok (ClientCompletion NOTAG (CompVersion 8192 (bstr "9P2000"))), c2) ∧ c_msize c2 = 8192.
Proof.
  destruct (negotiation_agrees Client_new (Session_new sample_config) 8192 R ltac:(done) ltac:(done))
    as (reply & c2 & H1 & H2 & H3 & _).
  exists c2. injection H1 as <-. split; [exact H2|exact H3].
Defined.

(** ** Calls *)

(** A reply to a request other than Tversion that a client with message size
    [msize] accepts. *)
Definition acceptable (msize : Z) (r : RMessage) : Prop :=
  match r with
  | RVersion _ _ _ => False
  | ROpen _ _ iounit | RCreate _ _ iounit => validate_iounit msize iounit = Ok ()
  | _ => True
  end.

Lemma clamp_iounit_valid msize iounit : validate_iounit msize (clamp_iounit msize iounit) = Ok ().
Proof.
  unfold validate_iounit, clamp_iounit. destruct (Z.eqb_spec iounit 0) as [|]; [done|].
  rewrite (proj2 (Z.ltb_ge (max_iounit msize) _)) by lia. by rewrite andb_false_r.
Qed.

Lemma spec_acceptable v msize tag fs kind answer reply fs' :
  spec_completion v msize tag fs kind answer = Ok (reply, fs') → acceptable msize reply.
Proof.
  intros H. destruct kind, answer; cbn [spec_completion] in H; try done; inv_ok; simplify_eq;
    try done; try apply clamp_iounit_valid; repeat case_match; inv_ok; by simplify_eq.
Qed.

(** The response a client makes of an acceptable reply. *)
Definition response_of (r : RMessage) : ClientResponse :=
  match r with
  | RError tag ename => ClientError tag ename
  | RVersion tag msize version => ClientCompletion tag (CompVersion msize version)
  | RAttach tag qid => ClientCompletion tag (CompAttach qid)
  | RAuth tag aqid => ClientCompletion tag (CompAuth aqid)
  | RFlush tag => ClientCompletion tag CompFlush
  | RWalk tag qids => ClientCompletion tag (CompWalk qids)
  | ROpen tag qid iounit => ClientCompletion tag (CompOpen qid iounit)
  | RCreate tag qid iounit => ClientCompletion tag (CompCreate qid iounit)
  | RRead tag data => ClientCompletion tag (CompRead data)
  | RWrite tag count => ClientCompletion tag (CompWrite count)
  | RClunk tag => ClientCompletion tag CompClunk
  | RRemove tag => ClientCompletion tag CompRemove
  | RStat tag stat => ClientCompletion tag (CompStat stat)
  | RWstat tag => ClientCompletion tag CompWstat
  | RRenameAt tag => ClientCompletion tag CompRenameAt
  | RReferrals tag referrals => ClientCompletion tag (CompReferrals referrals)
  end.

Lemma response_of_tag r : response_tag (response_of r) = r_tag r.
Proof. by destruct r. Qed.

(** What receiving a response leaves alone. *)
Definition steady (c c' : Client) : Prop :=
  c_msize c' = c_msize c ∧ next_fid c' = next_fid c ∧ next_tag c' = next_tag c.

Section calls.
Context {T : Type} `{FileTree T}.

Lemma handle_acceptable m (srv : Server T) r srv' :
  idle (session srv) → is_tversion m = false →
  next_generation (requests (session srv)) + 1 < u64_max →
  handle m srv = (r, srv') →
  acceptable (s_msize (session srv)) r ∧ same_dialect (session srv) (session srv').
Proof.
  intros Hi Hv Hg. unfold handle. destruct (admit_message m (session srv)) as [ev s1] eqn:Ea. rewrite Hv.
  destruct (idle_admit _ _ _ _ Hi Hv Hg Ea) as [_ Hev]. destruct Hi as [[out HI] _].
  pose proof (admit_admission _ _ _ _ _ HI Hv Ea) as Hadm.
  pose proof (admission_dialect _ _ _ _ _ Hadm) as Hd.
  destruct ev as [r0|req|r0 o].
  - intros [= <- <-]. split; [|done]. by inversion Hadm.
  - destruct Hev as (out' & HI' & Hin & Hl & _ & _).
    destruct (perform_file_tree_request req (tree srv)) as [answer t2].
    destruct (complete req answer s1) as [reply s2] eqn:Ec. intros [= <- <-].
    pose proof (complete_dialect _ _ _ _ _ _ HI' Hin Ec) as Hd2.
    split; [|simpl; by etrans].
    rewrite (complete_spec _ _ _ _ HI' Hin), decide_True in Ec by done.
    destruct answer as [a|e]; simpl in Ec; [|by simplify_eq].
    destruct (spec_completion _ _ _ _ _ _) as [[r' fs]|e] eqn:E; simplify_eq; [|done].
    rewrite <- (dialect_msize _ _ Hd). by eapply spec_acceptable.
  - intros [= <- <-]. split; [|done]. by inversion Hadm.
Qed.

(** Both ends of a connection between two calls. *)
Record paired (c : Client) (srv : Server T) : Prop := {
  pair_msize : c_msize c = s_msize (session srv);
  pair_idle : idle (session srv);
}.

Lemma receive_acceptable r c k :
  acceptable (c_msize c) r → r_tag r ≠ NOTAG → live (pending c) !! r_tag r = Some k →
  ∃ c', receive r c = (Ok (response_of r), c') ∧ live (pending c') !! r_tag r = None ∧
    steady c c' ∧
    (flush_targets c = ∅ → live (pending c') = delete (r_tag r) (live (pending c)) ∧ flush_targets c' = ∅).
Proof.
  intros Ha Hn Hl.
  assert (live (pending (forget (r_tag r) c)) = delete (r_tag r) (live (pending c))) as Hlive.
  { simpl. by rewrite flush_live. }
  assert (live (pending (forget (r_tag r) c)) !! r_tag r = None) as Hnone.
  { rewrite Hlive. apply lookup_delete_eq. }
  destruct r; try done; cbn [receive r_tag] in *; unfold finish_as, mbind, M_bind;
    rewrite ?(client_finish_live _ _ _ Hn Hl);
    try (eexists; split_and!; [reflexivity|exact Hnone|done|intros E; by split]).
  - cbv beta. rewrite (proj2 (Z.eqb_neq _ _) Hn).
    eexists. split_and!; [reflexivity|exact Hnone|done|]. simpl. intros E. rewrite E. split; [exact Hlive|apply delete_empty].
  - unfold modify. destruct (flush_targets (forget tag c) !! tag) as [old|] eqn:Eo.
    + eexists. split_and!; [reflexivity| |done|].
      * simpl. destruct (decide (old = NOTAG)) as [->|Hold]; [exact Hnone|].
        rewrite flush_live by done. rewrite lookup_delete_None. by right.
      * simpl in Eo. intros E. by rewrite E, lookup_empty in Eo.
    + eexists. split_and!; [reflexivity|exact Hnone|done|intros E; by split].
  - unfold get, lift. simpl c_msize. simpl in Ha. rewrite Ha.
    eexists. split_and!; [reflexivity|exact Hnone|done|intros E; by split].
  - unfold get, lift. simpl c_msize. simpl in Ha. rewrite Ha.
    eexists. split_and!; [reflexivity|exact Hnone|done|intros E; by split].
Qed.

(** C35: every call is answered: on a connection whose two ends agree on the
    message size, the server's reply to any request that the client has in
    flight is accepted by the client as the response to that request, its tag
    becomes free again, and the two ends still agree, so the next call starts
    from the same situation, whatever file tree is served. *)
Theorem calls_are_answered c (srv : Server T) m k :
  paired c srv → is_tversion m = false → t_tag m ≠ NOTAG →
  live (pending c) !! t_tag m = Some k →
  next_generation (requests (session srv)) + 2 < u64_max →
  let '(reply, srv') := handle m srv in
  ∃ resp c', receive reply c = (Ok resp, c') ∧ response_tag resp = t_tag m ∧
    live (pending c') !! t_tag m = None ∧ paired c' srv'.
Proof.
  intros [Hm Hi] Hv Hn Hl Hg. destruct (handle m srv) as [reply srv'] eqn:E.
  destruct (handle_idle _ _ _ _ Hi Hg E) as (Ht & Hi' & _).
  destruct (handle_acceptable _ _ _ _ Hi Hv ltac:(lia) E) as [Ha Hd].
  rewrite <- Hm in Ha. rewrite <- Ht in *.
  destruct (receive_acceptable _ _ _ Ha Hn Hl) as (c' & Hr & Hfree & (Hms & _) & _).
  exists (response_of reply), c'. split_and!; [done|apply response_of_tag|done|]. split; [|done].
  rewrite Hms, Hm. symmetry. by apply dialect_msize.
Qed.

End calls.

(** A client and a server that have just negotiated. *)
Definition sample_client : Client :=
  (receive (RVersion NOTAG 8192 (bstr "9P2000")) (version_request_for 8192 Plain Client_new).2).2.
Definition sample_server : Server unit :=
  (handle (version_request_for 8192 Plain Client_new).1 (Server_with_config () sample_config)).2.

Lemma sample_paired op c :
  client_attach [] [] sample_client = (Ok op, c) → paired c sample_server.
Proof.
  intros E. split.
  - assert (c = (client_attach [] [] sample_client).2) as -> by (by rewrite E).
    vm_compute. reflexivity.
  - eapply (handle_idle _ (Server_with_config () sample_config)); [| |apply surjective_pairing].
    + split; [|done]. exists []. by apply Inv_init.
    + done.
Qed.

Lemma calls_are_answered_witness :
  let '(op, c) := client_attach [] [] sample_client in
  let m := TAttach 0 1 NOFID [] [] in
  op = Ok (Op_mk 0 (Some 1) m) ∧
  let '(reply, _) := handle m sample_server in
  ∃ resp c', receive reply c = (Ok resp, c') ∧ response_tag resp = 0.
Proof.
  destruct (client_attach [] [] sample_client) as [op c] eqn:E. cbv zeta.
  assert (op = Ok (Op_mk 0 (Some 1) (TAttach 0 1 NOFID [] []))) as ->.
  { change op with (fst (op, c)). rewrite <- E. vm_compute. reflexivity. }
  split; [reflexivity|].
  assert (live (pending c) !! 0 = Some (RequestKey_mk 0 2)) as Hl.
  { assert (c = (client_attach [] [] sample_client).2) as -> by (by rewrite E).
    vm_compute. reflexivity. }
  pose proof (calls_are_answered c sample_server (TAttach 0 1 NOFID [] []) (RequestKey_mk 0 2)
    (sample_paired _ _ E) eq_refl ltac:(discriminate) Hl ltac:(vm_compute; reflexivity)) as H.
  destruct (handle _ _) as [reply srv']. destruct H as (resp & c' & H1 & H2 & _).
  exists resp, c'. split; [exact H1|exact H2].
Defined.
