(* ===== verification/ClientSupport.v ===== *)
(** Helpers shared by the blocking and the multiplexed client:
    [crates/core/src/client_support.rs].  A callback [FnMut] is a function over
    the state [W] of whatever it talks to. *)
From S2P Require Import Prelude Errors Utf8 Codec Client.

Definition op_fid (op : Op) : Result Z :=
  ok_or (op_fid_field op) (from_static "9P operation did not allocate a fid").

Definition protocol_error (error : Error) : Error :=
  Error_new (bstr "9P client state: " ++ display_lossy error).

Definition checked_read_data (data : bytes) (requested : Z) : Result bytes :=
  actual ← ok_or (try_from u32_max (vlen data)) (from_static "read count overflow");
  if requested <? actual
  then Err (from_static "9P server reported more bytes read than requested")
  else Ok data.

Definition checked_write_count (count requested : Z) : Result Z :=
  if match try_from usize_max count with
     | Some count => requested <? count
     | None => true
     end
  then Err (from_static "9P server reported more bytes written than requested")
  else Ok count.

Definition checked_advance_offset (offset count : Z) : Result Z :=
  ok_or (checked_add u64_max offset count) (from_static "9P offset overflow").

(** [data.iter().position(|byte| *byte == delimiter)] *)
Fixpoint position (delimiter : byte) (data : bytes) : option Z :=
  match data with
  | [] => None
  | b :: data =>
      if decide (b = delimiter) then Some 0
      else match position delimiter data with Some i => Some (i + 1) | None => None end
  end.

Section loops.
Context {W : Type}.

(** [checked_read_data(read_once(offset, remaining)?, remaining)?] *)
Definition read_turn (read_once : Z → Z → M W bytes) (offset remaining : Z) : M W bytes :=
  data ← read_once offset remaining;
  lift (checked_read_data data remaining).

(** One turn of [while remaining > 0] per unit of fuel; each turn that does not
    return reads at least one byte, so [count] turns are enough
    ([read_delimited_total]). *)
Fixpoint read_delimited_loop (fuel : nat) (read_once : Z → Z → M W bytes) (delimiter : byte)
    (offset remaining : Z) (out : bytes) : W → option (Result bytes * W) := λ w,
  match fuel with
  | O => None
  | S fuel =>
      if remaining <=? 0
      then Some (Err (from_static "9P read reached its byte bound before the record delimiter"), w)
      else
        match read_turn read_once offset remaining w with
        | (Err e, w) => Some (Err e, w)
        | (Ok data, w) =>
            if bool_decide (data = [])
            then Some (Err (from_static "9P read reached EOF before the record delimiter"), w)
            else
              match position delimiter data with
              | Some p =>
                  if p + 1 =? vlen data then Some (Ok (out ++ data), w)
                  else Some (Err (from_static "9P read returned bytes after the record delimiter"), w)
              | None =>
                  match ok_or (try_from u32_max (vlen data)) (from_static "read count overflow") with
                  | Err e => Some (Err e, w)
                  | Ok read_count =>
                      match checked_advance_offset offset read_count with
                      | Err e => Some (Err e, w)
                      | Ok offset =>
                          read_delimited_loop fuel read_once delimiter offset
                            (saturating_sub remaining read_count) (out ++ data) w
                      end
                  end
              end
        end
  end.

Definition read_delimited_with (offset count : Z) (delimiter : byte)
    (read_once : Z → Z → M W bytes) (w : W) : option (Result bytes * W) :=
  if count =? 0
  then Some (Err (from_static "delimiter-terminated 9P read requires a nonzero byte bound"), w)
  else read_delimited_loop (S (Z.to_nat count)) read_once delimiter offset count [] w.

(** The body of the write loop up to the new offset. *)
Definition write_turn (write_once : Z → bytes → M W Z) (offset : Z) (chunk : bytes)
    (chunk_len total : Z) : M W (Z * Z * Z) :=
  count ← write_once offset chunk;
  if count =? 0 then throw (from_static "zero-length 9P write progress")
  else
    count ← lift (checked_write_count count chunk_len);
    count_usize ← lift (ok_or (try_from usize_max count) (from_static "write count overflow"));
    total ← lift (ok_or (checked_add u32_max total count)
                    (from_static "aggregate write count overflow"));
    offset ← lift (checked_advance_offset offset count);
    mret (count_usize, total, offset).

(** One turn of [while !data.is_empty()] per unit of fuel; each turn writes at
    least one byte, so [S (length data)] turns are enough
    ([write_in_chunks_total]). *)
Fixpoint write_chunks_loop (fuel : nat) (max : Z) (write_once : Z → bytes → M W Z)
    (offset : Z) (data : bytes) (total : Z) : W → option (Result Z * W) := λ w,
  match fuel with
  | O => None
  | S fuel =>
      if bool_decide (data = []) then Some (Ok total, w)
      else
        let chunk_len := Z.min (vlen data) max in
        let chunk := ztake chunk_len data in
        match write_turn write_once offset chunk chunk_len total w with
        | (Err e, w) => Some (Err e, w)
        | (Ok (count, total, offset), w) =>
            let data := zdrop count data in
            if count <? chunk_len then Some (Ok total, w)
            else write_chunks_loop fuel max write_once offset data total w
        end
  end.

Definition write_in_chunks (max_payload offset : Z) (data : bytes)
    (write_once : Z → bytes → M W Z) (w : W) : option (Result Z * W) :=
  if bool_decide (data = []) then Some (write_once offset data w)
  else
    let max := default usize_max (try_from usize_max max_payload) in
    write_chunks_loop (S (length data)) max write_once offset data 0 w.

End loops.

(** ** Properties *)

Lemma checked_read_data_Ok data n d :
  checked_read_data data n = Ok d → d = data ∧ vlen data ≤ n ∧ vlen data ≤ u32_max.
Proof.
  unfold checked_read_data. intros H. inv_ok. destruct (Z.ltb_spec n (vlen data)); [done|].
  simplify_eq. split; [done|lia].
Qed.

Lemma checked_write_count_Ok count n c : checked_write_count count n = Ok c → c = count ∧ 0 ≤ count ≤ n.
Proof.
  unfold checked_write_count. destruct (try_from usize_max count) as [k|] eqn:E; [|done].
  apply try_from_Some in E as [-> ?]. destruct (Z.ltb_spec n count); [done|]. intros [= <-]. lia.
Qed.

Lemma position_None d data : position d data = None ↔ d ∉ data.
Proof.
  induction data as [|b data IH]; simpl; [set_solver|]. case_decide; [set_solver|].
  destruct (position d data); set_solver.
Qed.

Lemma position_Some d data p :
  position d data = Some p →
  (0 ≤ p < vlen data) ∧ (d ∉ ztake p data) ∧ data !! Z.to_nat p = Some d.
Proof.
  revert p. induction data as [|b data IH]; intros p; simpl; [done|]. case_decide.
  - intros [= <-]. rewrite vlen_cons. pose proof (vlen_nonneg data).
    split_and!; [lia..|unfold ztake; set_solver|by subst].
  - destruct (position d data) as [i|]; [|done]. intros [= <-].
    destruct (IH i eq_refl) as (Hi & Hn & Hl). rewrite vlen_cons. split_and!; [lia..| |].
    + unfold ztake in *. replace (Z.to_nat (i + 1)) with (S (Z.to_nat i)) by lia. simpl. set_solver.
    + replace (Z.to_nat (i + 1)) with (S (Z.to_nat i)) by lia. done.
Qed.

Lemma position_last d data p :
  position d data = Some p → p + 1 = vlen data → ∃ rec, data = rec ++ [d] ∧ (d ∉ rec).
Proof.
  intros (Hp & Hn & Hl)%position_Some E. exists (ztake p data). split; [|done].
  rewrite <- (ztake_zdrop p data) at 1. f_equal. unfold zdrop.
  rewrite (drop_S _ _ _ Hl), drop_ge; [done|]. unfold vlen in *. lia.
Qed.

Section loop_props.
Context {W : Type}.

(** A reader that serves a file: what it returns, however short, is what the
    file holds at the offset. *)
Definition serves (content : bytes) (read_once : Z → Z → M W bytes) : Prop :=
  ∀ offset n w bs w', read_once offset n w = (Ok bs, w') → ∃ rest, zdrop offset content = bs ++ rest.

Lemma read_delimited_loop_total fuel ro d offset remaining out (w : W) :
  (Z.to_nat remaining < fuel)%nat →
  ∃ x, read_delimited_loop fuel ro d offset remaining out w = Some x.
Proof.
  revert offset remaining out w. induction fuel as [|fuel IH]; intros offset remaining out w Hf; [lia|].
  cbn [read_delimited_loop]. destruct (Z.leb_spec remaining 0); [eauto|].
  destruct (read_turn _ _ _ w) as [[data|e] w1]; [|eauto]. case_bool_decide as Hd; [eauto|].
  destruct (position d data); [case_match; eauto|].
  destruct (try_from u32_max (vlen data)) as [n|] eqn:E; simpl; [|eauto].
  apply try_from_Some in E as [-> Hn].
  destruct (checked_advance_offset offset (vlen data)); [|eauto]. apply IH.
  destruct data; [done|]. rewrite vlen_cons in *. pose proof (vlen_nonneg data).
  unfold saturating_sub. lia.
Qed.

Lemma read_delimited_loop_Ok fuel ro d content offset remaining out (w : W) res w' :
  serves content ro → 0 ≤ offset →
  read_delimited_loop fuel ro d offset remaining out w = Some (Ok res, w') →
  ∃ rec rest, res = out ++ rec ++ [d] ∧ (d ∉ rec) ∧ vlen rec + 1 ≤ remaining ∧
    zdrop offset content = rec ++ [d] ++ rest.
Proof.
  intros Hs. revert offset remaining out w. induction fuel as [|fuel IH]; intros offset remaining out w Ho; [done|].
  cbn [read_delimited_loop]. destruct (Z.leb_spec remaining 0); [done|].
  destruct (read_turn _ _ _ w) as [[data|e] w1] eqn:Er; [|done].
  apply M_bind_Ok in Er as (data' & w2 & Er & El).
  injection El as El <-. apply checked_read_data_Ok in El as (-> & Hle & Hu).
  destruct (Hs _ _ _ _ _ Er) as [rest Hrest]. case_bool_decide as Hd; [done|].
  destruct (position d data') as [p|] eqn:Ep.
  - destruct (Z.eqb_spec (p + 1) (vlen data')) as [Hp|]; [|done]. intros [= <- <-].
    destruct (position_last _ _ _ Ep Hp) as (rec & -> & Hn). exists rec, rest.
    rewrite vlen_app, vlen_cons, vlen_nil in Hle. rewrite Hrest, <- app_assoc.
    split_and!; [done..|lia|done].
  - apply position_None in Ep. rewrite try_from_in by (pose proof (vlen_nonneg data'); lia). simpl.
    unfold checked_advance_offset, checked_add.
    destruct (Z.leb_spec (offset + vlen data') u64_max); [|done]. simpl. intros Hrec.
    apply IH in Hrec as (rec & rest' & -> & Hn & Hle' & Hrest'); [|pose proof (vlen_nonneg data'); lia].
    exists (data' ++ rec), rest'. rewrite vlen_app, <- !app_assoc. split_and!; [done|set_solver| |].
    + unfold saturating_sub in Hle'. lia.
    + rewrite <- zdrop_zdrop in Hrest' by (pose proof (vlen_nonneg data'); lia).
      rewrite Hrest, zdrop_app_vlen in Hrest'. by rewrite Hrest, Hrest'.
Qed.

(** A delimited read returns one record: against a server that serves a
    file, however it splits its answers, the loop ends, and if it succeeds the
    result is the bytes of the file from the offset up to and including the
    first delimiter, no longer than the bound. *)
Theorem read_delimited_returns_record content ro d offset count (w : W) :
  serves content ro → 0 ≤ offset → 0 ≤ count →
  ∃ r w', read_delimited_with offset count d ro w = Some (r, w') ∧
    ∀ res, r = Ok res →
      ∃ rec rest, res = rec ++ [d] ∧ (d ∉ rec) ∧ vlen res ≤ count ∧
        zdrop offset content = res ++ rest.
Proof.
  intros Hs Ho Hc. unfold read_delimited_with. destruct (Z.eqb_spec count 0).
  { eexists _, _. split; [done|]. done. }
  destruct (read_delimited_loop_total (S (Z.to_nat count)) ro d offset count [] w ltac:(lia))
    as [[r w'] E].
  exists r, w'. split; [done|]. intros res ->.
  apply (read_delimited_loop_Ok _ _ _ content) in E as (rec & rest & -> & Hn & Hle & Hrest); [|done..].
  exists rec, rest. rewrite app_nil_l, vlen_app, vlen_cons, vlen_nil, <- app_assoc.
  split_and!; [done..|lia|done].
Qed.

(** *** Chunked writes *)

(** Each of [ws] starts where the one before it ended. *)
Fixpoint contiguous (offset : Z) (ws : list (Z * bytes)) : Prop :=
  match ws with
  | [] => True
  | (o, bs) :: ws => o = offset ∧ contiguous (offset + vlen bs) ws
  end.

(** A server that logs what it stores, which is a prefix of what it was sent. *)
Definition logs (log : W → list (Z * bytes)) (write_once : Z → bytes → M W Z) : Prop :=
  ∀ offset chunk w n w', write_once offset chunk w = (Ok n, w') →
    log w' = log w ++ [(offset, ztake n chunk)].

Lemma write_step wo offset chunk chunk_len total (w : W) count total' offset' w' :
  write_turn wo offset chunk chunk_len total w = (Ok (count, total', offset'), w') →
  wo offset chunk w = (Ok count, w') ∧ 0 < count ≤ chunk_len ∧ total' = total + count ∧
  offset' = offset + count.
Proof.
  intros E. apply M_bind_Ok in E as (n & w2 & Hw & E). destruct (Z.eqb_spec n 0); [done|].
  apply M_bind_Ok in E as (n' & w3 & E1 & E). injection E1 as E1 <-.
  apply checked_write_count_Ok in E1 as [-> Hn].
  apply M_bind_Ok in E as (k & w4 & E1 & E). injection E1 as E1 <-.
  apply ok_or_Ok, try_from_Some in E1 as [-> _].
  apply M_bind_Ok in E as (t & w5 & E1 & E). injection E1 as E1 <-.
  apply M_bind_Ok in E as (o & w6 & E2 & E). injection E2 as E2 <-. injection E as <- <- <- <-.
  apply ok_or_Ok in E1, E2. unfold checked_add in *. repeat case_match; simplify_eq.
  split_and!; [done|lia..].
Qed.
Lemma write_chunks_loop_total fuel max wo offset data total (w : W) :
  (length data < fuel)%nat → ∃ x, write_chunks_loop fuel max wo offset data total w = Some x.
Proof.
  revert offset data total w. induction fuel as [|fuel IH]; intros offset data total w Hf; [lia|].
  cbn [write_chunks_loop]. case_bool_decide as Hd; [eauto|]. cbv zeta.
  destruct (write_turn _ _ _ _ _ w) as [[[[count total'] offset']|e] w1] eqn:E; [|eauto].
  case_match; [eauto|]. apply IH. apply write_step in E as (_ & Hn & _ & _).
  unfold zdrop. rewrite length_drop. unfold vlen in *.
  destruct data; simpl in *; [done|lia].
Qed.


Lemma write_chunks_loop_Ok fuel max wo log offset data total (w : W) sum w' :
  logs log wo →
  write_chunks_loop fuel max wo offset data total w = Some (Ok sum, w') →
  ∃ ws, log w' = log w ++ ws ∧ contiguous offset ws ∧
    concat (snd <$> ws) = ztake (sum - total) data ∧ total ≤ sum ≤ total + vlen data ∧
    Forall (λ x, vlen x.2 ≤ max) ws.
Proof.
  intros Hlog. revert offset data total w. induction fuel as [|fuel IH]; intros offset data total w; [done|].
  cbn [write_chunks_loop]. case_bool_decide as Hd.
  { intros [= <- <-]. exists []. subst data. rewrite vlen_nil, app_nil_r, Z.sub_diag.
    split_and!; [done..|lia|lia|done]. }
  cbv zeta. destruct (write_turn _ _ _ _ _ w) as [[[[count total'] offset']|e] w1] eqn:E; [|done].
  apply write_step in E as (Hw & Hn & -> & ->). apply Hlog in Hw as Hl.
  pose proof (vlen_nonneg data). assert (vlen (ztake count data) = count) as Hv by (apply vlen_ztake; lia).
  assert (ztake count (ztake (Z.min (vlen data) max) data) = ztake count data) as Ht.
  { unfold ztake. rewrite take_take. f_equal. lia. }
  rewrite Ht in Hl. destruct (Z.ltb_spec count (Z.min (vlen data) max)) as [Hlt|Hge].
  - intros [= <- <-]. exists [(offset, ztake count data)]. replace (total + count - total) with count by lia.
    split_and!; [done..|simpl; by rewrite app_nil_r|lia|lia|].
    apply Forall_singleton. simpl. lia.
  - intros Hrec. apply IH in Hrec as (ws & Hw' & Hc & Hcat & Hs & Hf).
    exists ((offset, ztake count data) :: ws). rewrite vlen_zdrop in Hs by lia.
    split_and!; [by rewrite Hw', Hl, <- app_assoc|split; [done|by rewrite Hv]| |lia|lia|].
    + rewrite fmap_cons. cbn [concat snd]. rewrite Hcat.
      rewrite <- (ztake_zdrop count (ztake (sum - total) data)). f_equal.
      * unfold ztake. rewrite take_take. f_equal. lia.
      * unfold ztake, zdrop. rewrite take_drop_commute. do 2 f_equal. lia.
    + constructor; [simpl; lia|done].
Qed.

(** A chunked write stores a prefix: whatever short writes the server makes,
    the loop ends, and if it reports [sum] bytes then the server stored exactly
    the first [sum] bytes of the data, in contiguous writes from the offset, none
    longer than the payload limit. *)
Theorem write_in_chunks_stores_prefix log max offset data wo (w : W) :
  logs log wo → 0 ≤ max ≤ u32_max → data ≠ [] →
  ∃ r w', write_in_chunks max offset data wo w = Some (r, w') ∧
    ∀ sum, r = Ok sum →
      ∃ ws, log w' = log w ++ ws ∧ contiguous offset ws ∧ concat (snd <$> ws) = ztake sum data ∧
        0 ≤ sum ≤ vlen data ∧ Forall (λ x, vlen x.2 ≤ max) ws.
Proof.
  intros Hlog Hmax Hd. unfold write_in_chunks. rewrite bool_decide_false by done.
  rewrite try_from_in by (unfold usize_max, u64_max, u32_max in *; lia). cbv zeta. simpl default.
  destruct (write_chunks_loop_total (S (length data)) max wo offset data 0 w ltac:(lia)) as [[r w'] E].
  exists r, w'. split; [done|]. intros sum ->.
  apply (write_chunks_loop_Ok _ _ _ log) in E as (ws & H1 & H2 & H3 & H4 & H5); [|done].
  rewrite Z.sub_0_r in H3. exists ws. split_and!; [done..|lia|lia|done].
Qed.

End loop_props.

(** A server of one file that answers at most three bytes at a time. *)
Definition slow_file (content : bytes) : Z → Z → M unit bytes := λ offset n w,
  (Ok (ztake (Z.min n 3) (zdrop offset content)), w).

Lemma slow_file_serves content : serves content (slow_file content).
Proof.
  intros offset n w bs w' [= <- _]. exists (zdrop (Z.min n 3) (zdrop offset content)).
  by rewrite ztake_zdrop.
Qed.

Lemma read_delimited_returns_record_witness :
  ∃ r w', read_delimited_with 2 100 x0a (slow_file (bstr "ab" ++ [x63; x64; x65; x66; x67; x0a])) ()
            = Some (r, w') ∧ r = Ok [x63; x64; x65; x66; x67; x0a].
Proof.
  destruct (read_delimited_returns_record (bstr "ab" ++ [x63; x64; x65; x66; x67; x0a])
    (slow_file (bstr "ab" ++ [x63; x64; x65; x66; x67; x0a])) x0a 2 100 ()
    (slow_file_serves _) ltac:(done) ltac:(done)) as (r & w' & E & _).
  exists r, w'. split; [exact E|]. vm_compute in E. injection E as <- _. reflexivity.
Defined.

(** A server that stores at most four bytes per write. *)
Definition short_writer : Z → bytes → M (list (Z * bytes)) Z := λ offset chunk w,
  let n := Z.min 4 (vlen chunk) in (Ok n, w ++ [(offset, ztake n chunk)]).

Lemma write_in_chunks_stores_prefix_witness :
  ∃ w', write_in_chunks 4 10 (bstr "abcdef") short_writer [] = Some (Ok 6, w') ∧
        concat (snd <$> w') = bstr "abcdef".
Proof.
  destruct (write_in_chunks_stores_prefix (λ w, w) 4 10 (bstr "abcdef") short_writer [])
    as (r & w' & E & H).
  - intros offset chunk w n w' [= <- <-]. reflexivity.
  - unfold u32_max. lia.
  - vm_compute. discriminate.
  - assert (r = Ok 6) as -> by (vm_compute in E; injection E as <- _; reflexivity).
    exists w'. split; [exact E|].
    destruct (H 6 eq_refl) as (ws & H1 & _ & H3 & _). cbn in H1. subst w'. rewrite H3.
    vm_compute. reflexivity.
Defined.
