(* ===== verification/Backend.v ===== *)
(** Helpers for applications: the per-fid read snapshots of
    [crates/core/src/server/read_snapshot.rs], the broadcast stream of
    [crates/core/src/server/stream.rs] and the chunk validation of
    [crates/core/src/rpc.rs]. *)
From S2P Require Import Prelude Errors.

(** ** read_snapshot.rs *)

Module Snapshots.

Record FidReadSnapshots := FidReadSnapshots_mk {
  snapshots : gmap Z bytes;
  snapshot_bytes : Z;
  max_bytes : Z;
}.

Definition new (max_bytes : Z) : FidReadSnapshots := FidReadSnapshots_mk ∅ 0 max_bytes.

Definition contains (s : FidReadSnapshots) (fid : Z) : bool :=
  bool_decide (is_Some (snapshots s !! fid)).

Definition capture (fid : Z) (bs : bytes) : M FidReadSnapshots unit := λ s,
  if contains s fid then (Err (from_static "read snapshot already captured"), s)
  else
    match checked_add usize_max (snapshot_bytes s) (vlen bs) with
    | Some projected =>
        if projected <=? max_bytes s
        then (Ok (), FidReadSnapshots_mk (<[fid := bs]> (snapshots s)) projected (max_bytes s))
        else (Err (from_static "read snapshot capacity exhausted"), s)
    | None => (Err (from_static "read snapshot capacity exhausted"), s)
    end.

Definition read (s : FidReadSnapshots) (fid offset count : Z) : Result bytes :=
  bs ← ok_or (snapshots s !! fid) (from_static EBADFID);
  offset ← ok_or (try_from usize_max offset) (from_static "read offset too large");
  if (vlen bs <=? offset) || (count =? 0) then Ok []
  else
    count ← ok_or (try_from usize_max count) (from_static "read count too large");
    let stop := Z.min (saturating_add usize_max offset count) (vlen bs) in
    Ok (ztake (stop - offset) (zdrop offset bs)).

Definition remove (fid : Z) (s : FidReadSnapshots) : FidReadSnapshots :=
  match snapshots s !! fid with
  | Some bs =>
      FidReadSnapshots_mk (delete fid (snapshots s))
        (saturating_sub (snapshot_bytes s) (vlen bs)) (max_bytes s)
  | None => s
  end.

Definition clear (s : FidReadSnapshots) : FidReadSnapshots := FidReadSnapshots_mk ∅ 0 (max_bytes s).

(** The operations of an application on its store. *)
Inductive op := Capture (fid : Z) (bs : bytes) | Remove (fid : Z) | Clear.

Definition step (s : FidReadSnapshots) (o : op) : FidReadSnapshots :=
  match o with
  | Capture fid bs => (capture fid bs s).2
  | Remove fid => remove fid s
  | Clear => clear s
  end.

(** The bytes the store really holds. *)
Definition add_len (_ : Z) (bs : bytes) (n : Z) : Z := vlen bs + n.

Definition held (s : FidReadSnapshots) : Z :=
  map_fold add_len 0 (snapshots s).

Definition accounted (s : FidReadSnapshots) : Prop :=
  snapshot_bytes s = held s ∧ 0 ≤ snapshot_bytes s ≤ max_bytes s.

Lemma held_insert m fid bs :
  m !! fid = None →
  map_fold add_len 0 (<[fid := bs]> m) =
  vlen bs + map_fold add_len 0 m.
Proof.
  intros H. rewrite (map_fold_insert_L add_len); [done|unfold add_len; intros; lia|done].
Qed.

Lemma held_delete m fid bs :
  m !! fid = Some bs →
  map_fold add_len 0 m =
  vlen bs + map_fold add_len 0 (delete fid m).
Proof.
  intros H. rewrite <- (held_insert _ fid) by apply lookup_delete_eq. by rewrite insert_delete_id.
Qed.

Lemma held_nonneg (m : gmap Z bytes) : 0 ≤ map_fold add_len 0 m.
Proof.
  apply (map_fold_weak_ind (λ n _, 0 ≤ n)); [lia|]. intros i bs _ n _ ?.
  unfold add_len. pose proof (vlen_nonneg bs). lia.
Qed.

Lemma step_accounted s o : accounted s → accounted (step s o).
Proof.
  unfold accounted, held. intros [He Hb]. destruct o as [fid bs|fid|]; simpl.
  - unfold capture, contains. case_bool_decide as Hc; [done|]. apply eq_None_not_Some in Hc.
    unfold checked_add. destruct (Z.leb_spec (snapshot_bytes s + vlen bs) usize_max); [|done].
    destruct (Z.leb_spec (snapshot_bytes s + vlen bs) (max_bytes s)); [|done]. simpl.
    rewrite held_insert by done. pose proof (vlen_nonneg bs). lia.
  - unfold remove. destruct (snapshots s !! fid) as [bs|] eqn:E; [|done]. simpl.
    rewrite (held_delete _ _ _ E) in He. pose proof (held_nonneg (delete fid (snapshots s))).
    unfold saturating_sub. pose proof (vlen_nonneg bs). lia.
  - rewrite map_fold_empty. lia.
Qed.

(** The snapshot store accounts for every byte it holds and stays within its
    capacity, over any sequence of captures, removals and clears. *)
Theorem snapshots_accounted max ops :
  0 ≤ max →
  let s := foldl step (new max) ops in
  snapshot_bytes s = held s ∧ held s ≤ max_bytes s ∧ max_bytes s = max.
Proof.
  intros Hm. cbv zeta.
  assert (accounted (new max) ∧ max_bytes (new max) = max) as H.
  { split; [|done]. unfold accounted, held. simpl. rewrite map_fold_empty. lia. }
  revert H. generalize (new max). induction ops as [|o ops IH]; intros s [Ha He].
  - destruct Ha. simpl. split_and!; [done|lia|done].
  - simpl. apply IH. split; [by apply step_accounted|]. rewrite <- He. destruct o; simpl.
    + unfold capture. repeat case_match; done.
    + unfold remove. by case_match.
    + done.
Qed.

Lemma snapshots_accounted_witness :
  held (foldl step (new 4) [Capture 1 (bstr "abc"); Capture 2 (bstr "de"); Remove 1; Capture 2 (bstr "d")])
  ≤ 4.
Proof.
  exact (proj1 (proj2 (snapshots_accounted 4
    [Capture 1 (bstr "abc"); Capture 2 (bstr "de"); Remove 1; Capture 2 (bstr "d")] ltac:(done)))).
Defined.

(** A captured snapshot reads back like a file: a read returns the bytes of
    the snapshot between the offset and the count, clipped at its end, and never
    fails for a 64-bit offset and a 32-bit count. *)
Theorem snapshot_reads_captured s fid bs s' offset count :
  capture fid bs s = (Ok (), s') → is_u64 offset → is_u32 count → vlen bs ≤ usize_max →
  read s' fid offset count = Ok (ztake count (zdrop offset bs)).
Proof.
  unfold capture. destruct (contains s fid); [done|].
  destruct (checked_add _ _ _); [|done]. destruct (_ <=? _); [|done]. intros [= <-] Ho Hc Hu.
  unfold read. simpl. rewrite lookup_insert_eq. simpl.
  rewrite (try_from_in usize_max offset) by (unfold usize_max; vlia). simpl.
  destruct (Z.leb_spec (vlen bs) offset) as [Hle|Hgt]; simpl.
  { f_equal. symmetry. unfold ztake, zdrop. rewrite drop_ge by (unfold vlen in *; lia). apply take_nil. }
  destruct (Z.eqb_spec count 0) as [->|Hnz]; [done|].
  rewrite (try_from_in usize_max count) by (unfold usize_max; vlia). simpl. f_equal.
  unfold saturating_add. destruct (Z.le_gt_cases (offset + count) (vlen bs)).
  - f_equal. lia.
  - unfold ztake, zdrop. rewrite !take_ge; [done|rewrite length_drop; unfold vlen in *; lia..].
Qed.

Lemma snapshot_reads_captured_witness :
  read (capture 1 (bstr "hello") (new 16)).2 1 1 3 = Ok (bstr "ell").
Proof.
  exact (snapshot_reads_captured (new 16) 1 (bstr "hello") _ 1 3 eq_refl
    ltac:(vm_compute; split; discriminate) ltac:(vm_compute; split; discriminate)
    ltac:(vm_compute; discriminate)).
Defined.

End Snapshots.

(** ** stream.rs *)

Module Broadcast.

Record Broadcaster := Broadcaster_mk {
  readers : gmap Z bytes;
  total_pushed : Z;
}.

Definition new : Broadcaster := Broadcaster_mk ∅ 0.

Definition push (bs : bytes) (b : Broadcaster) : Broadcaster :=
  if bool_decide (bs = []) then b
  else
    Broadcaster_mk ((λ queue, queue ++ bs) <$> readers b)
      (saturating_add u64_max (total_pushed b) (vlen bs)).

Definition add_reader (fid : Z) (b : Broadcaster) : Broadcaster :=
  Broadcaster_mk (<[fid := []]> (readers b)) (total_pushed b).

Definition remove_reader (fid : Z) (b : Broadcaster) : Broadcaster :=
  Broadcaster_mk (delete fid (readers b)) (total_pushed b).

Definition read (fid offset count : Z) : M Broadcaster bytes := λ b,
  match readers b !! fid with
  | None => (Err (from_static EBADFID), b)
  | Some queue =>
      let n := Z.min count (vlen queue) in
      (Ok (ztake n queue), Broadcaster_mk (<[fid := zdrop n queue]> (readers b)) (total_pushed b))
  end.

Inductive op := Push (bs : bytes) | AddReader (fid : Z) | RemoveReader (fid : Z)
  | ReadFrom (fid count : Z).

Definition step (b : Broadcaster) (o : op) : Broadcaster :=
  match o with
  | Push bs => push bs b
  | AddReader fid => add_reader fid b
  | RemoveReader fid => remove_reader fid b
  | ReadFrom fid count => (read fid 0 count b).2
  end.

(** What reader [fid] has received along a run, oldest first. *)
Fixpoint received (fid : Z) (b : Broadcaster) (ops : list op) : bytes :=
  match ops with
  | [] => []
  | o :: ops =>
      match o with
      | ReadFrom f count =>
          if decide (f = fid) then match (read fid 0 count b).1 with Ok bs => bs | Err _ => [] end
          else []
      | _ => []
      end ++ received fid (step b o) ops
  end.

Definition pushed (ops : list op) : bytes :=
  concat ((λ o, match o with Push bs => bs | _ => [] end) <$> ops).

(** The operations that leave reader [fid] joined. *)
Definition keeps (fid : Z) (o : op) : Prop :=
  match o with AddReader f | RemoveReader f => f ≠ fid | _ => True end.

Lemma read_joined b fid offset count queue :
  readers b !! fid = Some queue →
  read fid offset count b =
  (Ok (ztake (Z.min count (vlen queue)) queue),
   Broadcaster_mk (<[fid := zdrop (Z.min count (vlen queue)) queue]> (readers b)) (total_pushed b)).
Proof. intros H. unfold read. by rewrite H. Qed.

Lemma received_prefix fid b ops queue :
  readers b !! fid = Some queue → Forall (keeps fid) ops →
  ∃ rest, readers (foldl step b ops) !! fid = Some rest ∧
    queue ++ pushed ops = received fid b ops ++ rest.
Proof.
  revert b queue. induction ops as [|o ops IH]; intros b queue Hq Hk.
  { exists queue. simpl. by rewrite app_nil_r. }
  apply Forall_cons in Hk as [Ho Hk]. cbn [foldl received].
  change (pushed (o :: ops)) with (match o with Push bs => bs | _ => [] end ++ pushed ops).
  destruct o as [bs|f|f|f count]; cbn [step]; simpl in Ho.
  - destruct (decide (bs = [])) as [->|Hne]; [by apply (IH b)|].
    rewrite app_assoc. apply IH; [|done]. unfold push. rewrite bool_decide_false by done.
    simpl. by rewrite lookup_fmap, Hq.
  - apply IH; [|done]. simpl. by rewrite lookup_insert_ne.
  - apply IH; [|done]. simpl. by rewrite lookup_delete_ne.
  - destruct (decide (f = fid)) as [->|Hf].
    + rewrite (read_joined _ _ _ _ _ Hq). cbn [fst snd].
      set (n := Z.min count (vlen queue)).
      destruct (IH (Broadcaster_mk (<[fid := zdrop n queue]> (readers b)) (total_pushed b))
                  (zdrop n queue)) as (rest & Hr & E); [apply lookup_insert_eq|done|].
      exists rest. split; [done|]. rewrite app_nil_l, <- app_assoc, <- E, app_assoc, ztake_zdrop. done.
    + apply IH; [|done]. unfold read. destruct (readers b !! f); [|done]. simpl.
      by rewrite lookup_insert_ne.
Qed.

(** A broadcast reader misses nothing and sees nothing twice: after it joins,
    what it has received followed by what is still queued for it is exactly what
    was pushed since, whatever the other readers do and however it sizes its
    reads. *)
Theorem broadcast_in_order fid b ops :
  Forall (keeps fid) ops →
  ∃ queue, readers (foldl step (add_reader fid b) ops) !! fid = Some queue ∧
    pushed ops = received fid (add_reader fid b) ops ++ queue.
Proof.
  intros Hk. apply (received_prefix fid (add_reader fid b) ops []); [apply lookup_insert_eq|done].
Qed.

Lemma broadcast_in_order_witness :
  ∃ queue, pushed [Push (bstr "he"); ReadFrom 1 1; AddReader 2; Push (bstr "llo")] =
    received 1 (add_reader 1 new) [Push (bstr "he"); ReadFrom 1 1; AddReader 2; Push (bstr "llo")]
    ++ queue.
Proof.
  destruct (broadcast_in_order 1 new [Push (bstr "he"); ReadFrom 1 1; AddReader 2; Push (bstr "llo")])
    as (queue & _ & H).
  - repeat constructor. simpl. lia.
  - exists queue. exact H.
Defined.

End Broadcast.

(** ** rpc.rs *)

Module Rpc.

Record RequestLimits := RequestLimits_mk { max_request_bytes : Z; max_connection_bytes : Z }.

Definition RequestLimits_new (max_request max_connection : Z) : Result RequestLimits :=
  if (max_request =? 0) || (max_connection =? 0) || (max_connection <? max_request)
  then Err (from_static "invalid RPC request limits")
  else Ok (RequestLimits_mk max_request max_connection).

Record RequestChunk := RequestChunk_mk {
  starts_request : bool;
  resulting_request_bytes : Z;
  chunk_count : Z;
}.

Definition validate_request_chunk (current : option Z) (buffered_elsewhere offset chunk_bytes : Z)
    (limits : RequestLimits) : Result RequestChunk :=
  offset ← ok_or (try_from usize_max offset) (from_static "RPC offset too large");
  let starts := offset =? 0 in
  base ← (if starts then Ok 0
          else
            current ← ok_or current (from_static "RPC request must begin at offset zero");
            if negb (offset =? current)
            then Err (from_static "RPC write offset is not contiguous") else Ok current);
  resulting ← ok_or (checked_add usize_max base chunk_bytes) (from_static "RPC request size overflow");
  if max_request_bytes limits <? resulting then Err (from_static "RPC request too large")
  else
    connection ← ok_or (checked_add usize_max buffered_elsewhere resulting)
                   (from_static "RPC connection buffer size overflow");
    if max_connection_bytes limits <? connection
    then Err (from_static "RPC connection buffer limit exceeded")
    else
      count ← ok_or (try_from u32_max chunk_bytes) (from_static "RPC request chunk too large");
      Ok (RequestChunk_mk starts resulting count).

Lemma validate_request_chunk_Ok current elsewhere offset n limits r :
  validate_request_chunk current elsewhere offset n limits = Ok r →
  starts_request r = (offset =? 0) ∧ (offset ≠ 0 → current = Some offset) ∧
  resulting_request_bytes r = offset + n ∧ chunk_count r = n ∧
  offset + n ≤ max_request_bytes limits ∧
  elsewhere + (offset + n) ≤ max_connection_bytes limits.
Proof.
  intros H. unfold validate_request_chunk in H. inv_ok. cbv zeta in *.
  assert (x0 = offset ∧ (offset ≠ 0 → current = Some offset)) as [-> Hcur].
  { destruct (Z.eqb_spec offset 0) as [->|]; [by simplify_eq|]. inv_ok.
    match goal with H : (if negb (offset =? ?y) then _ else _) = _ |- _ =>
      destruct (Z.eqb_spec offset y); [|done] end. simpl in *. simplify_eq. done. }
  match goal with H : checked_add _ offset n = Some _ |- _ =>
    apply checked_add_Some in H as [-> _] end.
  destruct (Z.ltb_spec (max_request_bytes limits) (offset + n)); [done|]. inv_ok.
  match goal with H : checked_add _ elsewhere _ = Some _ |- _ =>
    apply checked_add_Some in H as [-> _] end.
  destruct (Z.ltb_spec (max_connection_bytes limits) (elsewhere + (offset + n))); [done|].
  inv_ok. done.
Qed.

(** A connection whose server buffers one request per fid and validates each
    Twrite: offset zero starts the request anew, a later chunk extends it. *)
Definition buffered (except : Z) (m : gmap Z bytes) : Z :=
  map_fold Snapshots.add_len 0 (delete except m).

Definition accept_chunk (limits : RequestLimits) (fid offset : Z) (chunk : bytes)
    (m : gmap Z bytes) : Result (gmap Z bytes) :=
  r ← validate_request_chunk (vlen <$> m !! fid) (buffered fid m) offset (vlen chunk) limits;
  Ok (<[fid := (if starts_request r then [] else default [] (m !! fid)) ++ chunk]> m).

Definition within (limits : RequestLimits) (m : gmap Z bytes) : Prop :=
  map_fold Snapshots.add_len 0 m ≤ max_connection_bytes limits ∧
  map_Forall (λ _ bs, vlen bs ≤ max_request_bytes limits) m.

(** The chunk check keeps an RPC server within its limits: buffers that start
    within the per-request and the per-connection bound stay within them when a
    validated chunk is stored, and the stored request is the previous one
    extended at its end, or a fresh one at offset zero. *)
Theorem accepted_chunks_within_limits limits fid offset chunk m m' :
  within limits m → accept_chunk limits fid offset chunk m = Ok m' →
  within limits m' ∧
  m' !! fid = Some ((if offset =? 0 then [] else default [] (m !! fid)) ++ chunk) ∧
  (offset ≠ 0 → ∃ prev, m !! fid = Some prev ∧ offset = vlen prev).
Proof.
  intros [Hsum Hall] H. unfold accept_chunk in H. apply Result_bind_Ok in H as (r & Hr & [= <-]).
  apply validate_request_chunk_Ok in Hr as (-> & Hcur & _ & _ & Hreq & Hconn).
  assert (vlen ((if offset =? 0 then [] else default [] (m !! fid)) ++ chunk) = offset + vlen chunk)
    as Hlen.
  { rewrite vlen_app. destruct (Z.eqb_spec offset 0) as [->|Hne]; [done|].
    specialize (Hcur Hne). destruct (m !! fid); [|done]. injection Hcur as <-. done. }
  split_and!; [split| |].
  - rewrite <- insert_delete_eq, Snapshots.held_insert by apply lookup_delete_eq.
    rewrite Hlen. unfold buffered in Hconn. lia.
  - apply map_Forall_insert_2; [by rewrite Hlen|done].
  - apply lookup_insert_eq.
  - intros Hne. specialize (Hcur Hne). destruct (m !! fid) as [l|]; [|done]. injection Hcur as <-. eauto.
Qed.

Lemma accepted_chunks_within_limits_witness :
  ∃ m', accept_chunk (RequestLimits_mk 16 24) 3 2 (bstr "cd") {[ 3 := bstr "ab" ]} = Ok m' ∧
        within (RequestLimits_mk 16 24) m'.
Proof.
  destruct (accept_chunk (RequestLimits_mk 16 24) 3 2 (bstr "cd") {[ 3 := bstr "ab" ]})
    as [m'|e] eqn:E; [|vm_compute in E; discriminate E].
  exists m'. split; [reflexivity|].
  apply (accepted_chunks_within_limits (RequestLimits_mk 16 24) 3 2 (bstr "cd")
    {[ 3 := bstr "ab" ]} m'); [|exact E].
  split; [vm_compute; discriminate|]. apply map_Forall_singleton. vm_compute. discriminate.
Defined.

End Rpc.
