(* ===== verification/Connection.v ===== *)
(** The connection driver: [crates/core/src/server/connection.rs].  One reader
    thread admits messages; a request the handler declares asynchronous runs on
    a worker thread of its own; replies go through one mutex-protected writer.

    The model is a step relation whose steps are the driver's critical sections:
    a thread takes the writer lock, runs a session method under the server lock,
    or writes a frame while it holds the writer.  Between steps any other thread
    may run.  The handler is a parameter: [is_async] classifies requests and
    [perform] answers anything at any time. *)
From S2P Require Import Prelude Errors Qid Stat Referral Message Codec.
From S2P Require Import RequestTable Session Server Reservations ServerInv.

(** ** Threads *)

Inductive ReaderPhase :=
| RdRead                                                  (* [read_tmessage_checked] *)
| RdReset (m : TMessage)                                  (* [wait_until_idle] in [reset_connection] *)
| RdAdmit (m : TMessage)                                  (* before [admit] *)
| RdReply (r : RMessage)                                  (* [write_reply], before the lock *)
| RdDispatch (req : ServerRequest)                        (* [dispatch_async], before its locks *)
| RdPerform (req : ServerRequest)                         (* [handler.perform(&request, None)] *)
| RdComplete (req : ServerRequest) (c : Result ServerCompletion)   (* before the writer lock *)
| RdLocked (req : ServerRequest) (c : Result ServerCompletion)     (* holds the writer lock *)
| RdWrite (r : option RMessage)                           (* holds it, has the reply *)
| RdClosed.                                               (* [serve_loop] has returned *)

Inductive WorkerPhase :=
| WkPerform
| WkComplete (c : Result ServerCompletion)
| WkLocked (c : Result ServerCompletion)
| WkWrite (r : option RMessage)
| WkDone.                                                 (* before [ActiveAsyncWorker] drops *)

Record Worker := Worker_mk { w_req : ServerRequest; w_phase : WorkerPhase }.

Inductive Event := In (m : TMessage) | Out (r : RMessage).

Record Conn := Conn_mk {
  cn_session : Session;
  cn_reader : ReaderPhase;
  cn_workers : list Worker;
  cn_active : Z;                                          (* [AsyncWorkerTracker.active] *)
  cn_pending : gmap RequestKey (option Z);                (* the [CancelMap], with its fids *)
  cn_cancelled : gset RequestKey;                         (* the flags that were raised *)
  cn_trace : list Event;                                  (* the wire, oldest first *)
}.

(** Who holds the writer. *)
Definition reader_writes (p : ReaderPhase) : bool :=
  match p with RdLocked _ _ | RdWrite _ => true | _ => false end.
Definition worker_writes (w : Worker) : bool :=
  match w_phase w with WkLocked _ | WkWrite _ => true | _ => false end.

Definition writer_free (c : Conn) : bool :=
  negb (reader_writes (cn_reader c)) && forallb (λ w, negb (worker_writes w)) (cn_workers c).

(** ** The cancellation map *)

Definition cancel_key (key : RequestKey) (c : Conn) : Conn :=
  match cn_pending c !! key with
  | Some _ =>
      Conn_mk (cn_session c) (cn_reader c) (cn_workers c) (cn_active c)
        (delete key (cn_pending c)) ({[key]} ∪ cn_cancelled c) (cn_trace c)
  | None => c
  end.

Definition cancel_fid (f : Z) (c : Conn) : Conn :=
  let doomed := filter (λ '(_, fid), fid = Some f) (cn_pending c) in
  Conn_mk (cn_session c) (cn_reader c) (cn_workers c) (cn_active c)
    (cn_pending c ∖ doomed) (dom doomed ∪ cn_cancelled c) (cn_trace c).

Definition cancel_all (c : Conn) : Conn :=
  Conn_mk (cn_session c) (cn_reader c) (cn_workers c) (cn_active c)
    ∅ (dom (cn_pending c) ∪ cn_cancelled c) (cn_trace c).

(** ** The steps *)

Definition set_reader (p : ReaderPhase) (c : Conn) : Conn :=
  Conn_mk (cn_session c) p (cn_workers c) (cn_active c) (cn_pending c) (cn_cancelled c) (cn_trace c).
Definition set_session (s : Session) (c : Conn) : Conn :=
  Conn_mk s (cn_reader c) (cn_workers c) (cn_active c) (cn_pending c) (cn_cancelled c) (cn_trace c).
Definition set_workers (ws : list Worker) (c : Conn) : Conn :=
  Conn_mk (cn_session c) (cn_reader c) ws (cn_active c) (cn_pending c) (cn_cancelled c) (cn_trace c).
Definition emit (e : Event) (c : Conn) : Conn :=
  Conn_mk (cn_session c) (cn_reader c) (cn_workers c) (cn_active c) (cn_pending c) (cn_cancelled c)
    (cn_trace c ++ [e]).

(** [server.session_mut().request_table().reset(); cancel_all(pending)] *)
Definition reset_requests (c : Conn) : Conn :=
  cancel_all (set_session (set_requests (reset (requests (cn_session c))) (cn_session c)) c).

(** The reader's next phase after [admit]; a flush or a clunk raises flags. *)
Definition after_admit (is_async : ServerRequest → bool) (ev : ServerEvent) (c : Conn) : Conn :=
  match ev with
  | Reply r => set_reader (RdReply r) c
  | FlushEvent r (Cancelled key) => set_reader (RdReply r) (cancel_key key c)
  | FlushEvent r Unknown => set_reader (RdReply r) c
  | Dispatch req =>
      let c := match req_kind req with KClunk f _ => cancel_fid f c | _ => c end in
      set_reader (if is_async req then RdDispatch req else RdPerform req) c
  end.

(** [dispatch_async] up to the spawn. *)
Definition start_worker (req : ServerRequest) (fid : option Z) (c : Conn) : Conn :=
  Conn_mk (cn_session c) RdRead (cn_workers c ++ [Worker_mk req WkPerform]) (cn_active c + 1)
    (<[req_key req := fid]> (cn_pending c)) (cn_cancelled c) (cn_trace c).

(** [Drop for ActiveAsyncWorker] *)
Definition drop_worker (before after : list Worker) (req : ServerRequest) (c : Conn) : Conn :=
  Conn_mk (cn_session c) (cn_reader c) (before ++ after) (saturating_sub (cn_active c) 1)
    (delete (req_key req) (cn_pending c)) (cn_cancelled c) (cn_trace c).

Definition write_out (r : option RMessage) (c : Conn) : Conn :=
  match r with Some r => emit (Out r) c | None => c end.

Section driver.
Context (is_async : ServerRequest → bool) (max_async : Z).

Inductive conn_step : Conn → Conn → Prop :=
(* the reader *)
| cs_read c m :
    cn_reader c = RdRead → is_tversion m = false →
    conn_step c (set_reader (RdAdmit m) (emit (In m) c))
| cs_read_version c m :
    cn_reader c = RdRead → is_tversion m = true →
    conn_step c (set_reader (RdReset m) (reset_requests (emit (In m) c)))
| cs_read_ends c :
    cn_reader c = RdRead → conn_step c (set_reader RdClosed (reset_requests c))
| cs_backend_reset c m :
    cn_reader c = RdReset m → cn_active c = 0 → conn_step c (set_reader (RdAdmit m) c)
| cs_backend_failed c m :
    cn_reader c = RdReset m → cn_active c = 0 →
    conn_step c (set_reader RdClosed (reset_requests c))
| cs_admit c m ev s' :
    cn_reader c = RdAdmit m → admit_message m (cn_session c) = (ev, s') →
    conn_step c (after_admit is_async ev (set_session s' c))
| cs_reply_lock c r :
    cn_reader c = RdReply r → writer_free c = true → conn_step c (set_reader (RdWrite (Some r)) c)
| cs_dispatch_full c req :
    cn_reader c = RdDispatch req → max_async ≤ cn_active c →
    conn_step c (set_reader (RdComplete req
      (Err (from_static "too many asynchronous 9P requests"))) c)
| cs_dispatch c req fid :
    cn_reader c = RdDispatch req → cn_active c < max_async → conn_step c (start_worker req fid c)
| cs_dispatch_spawn_failed c req e :
    cn_reader c = RdDispatch req → cn_active c < max_async →
    conn_step c (set_reader (RdComplete req (Err e)) c)
| cs_perform c req a :
    cn_reader c = RdPerform req → conn_step c (set_reader (RdComplete req a) c)
| cs_lock c req a :
    cn_reader c = RdComplete req a → writer_free c = true →
    conn_step c (set_reader (RdLocked req a) c)
| cs_complete c req a r s' :
    cn_reader c = RdLocked req a → complete req a (cn_session c) = (r, s') →
    conn_step c (set_reader (RdWrite r) (set_session s' c))
| cs_write c r :
    cn_reader c = RdWrite r → conn_step c (set_reader RdRead (write_out r c))
| cs_write_failed c r :
    cn_reader c = RdWrite r → conn_step c (set_reader RdClosed (reset_requests c))
(* the workers *)
| cs_worker_performed c ws1 req ws2 a :
    cn_workers c = ws1 ++ Worker_mk req WkPerform :: ws2 →
    conn_step c (set_workers (ws1 ++ Worker_mk req (WkComplete a) :: ws2) c)
| cs_worker_lock c ws1 req a ws2 :
    cn_workers c = ws1 ++ Worker_mk req (WkComplete a) :: ws2 → writer_free c = true →
    conn_step c (set_workers (ws1 ++ Worker_mk req (WkLocked a) :: ws2) c)
| cs_worker_complete c ws1 req a ws2 r s' :
    cn_workers c = ws1 ++ Worker_mk req (WkLocked a) :: ws2 →
    complete req a (cn_session c) = (r, s') →
    conn_step c (set_workers (ws1 ++ Worker_mk req (WkWrite r) :: ws2) (set_session s' c))
| cs_worker_write c ws1 req r ws2 :
    cn_workers c = ws1 ++ Worker_mk req (WkWrite r) :: ws2 →
    conn_step c (set_workers (ws1 ++ Worker_mk req WkDone :: ws2) (write_out r c))
| cs_worker_write_failed c ws1 req r ws2 :
    cn_workers c = ws1 ++ Worker_mk req (WkWrite r) :: ws2 →
    conn_step c (set_workers (ws1 ++ Worker_mk req WkDone :: ws2) c)
| cs_worker_done c ws1 req ws2 :
    cn_workers c = ws1 ++ Worker_mk req WkDone :: ws2 →
    conn_step c (drop_worker ws1 ws2 req c).

End driver.

Definition Conn_new (config : ServerConfig) : Conn :=
  Conn_mk (Session_new config) RdRead [] 0 ∅ ∅ [].

Definition conn_reachable is_async (config : ServerConfig) : Conn → Prop :=
  rtc (conn_step is_async (max_async_requests config)) (Conn_new config).
