(* ===== verification/ConnectionProps.v ===== *)
(** What the connection driver guarantees on the wire, for every interleaving of
    the reader and the workers ([crates/core/src/server/connection.rs]). *)
From S2P Require Import Prelude Errors Qid Stat Referral Message Codec.
From S2P Require Import RequestTable Session Server Reservations ServerInv ServerProps Connection.

(** ** What session methods do to the live requests, in any state *)

Definition is_rflush (r : RMessage) : bool := match r with RFlush _ => true | _ => false end.

Lemma apply_completion_reply tag kind a s r s' :
  apply_completion tag kind a s = (Ok r, s') → r_tag r = tag ∧ is_rflush r = false.
Proof.
  unfold apply_completion. intros H. destruct kind, a; run_ok; try done.
  destruct (last qids); run_ok; done.
Qed.

Lemma complete_reply req a s r s' :
  complete req a s = (Some r, s') →
  r_tag r = req_tag req ∧ is_rflush r = false ∧ key_live s (req_key req).
Proof.
  unfold complete. destruct (finish_request (req_key req) s) as [[] s1] eqn:Ef; [|done].
  assert (key_live s (req_key req)) as Hl.
  { unfold finish_request in Ef. destruct (finish _ _) as [b t] eqn:E. simplify_eq.
    by apply finish_true in E as [? _]. }
  destruct a as [a|e]; [|by intros [= <- _]].
  destruct (apply_completion _ _ _ _) as [[r'|e] s3] eqn:E; [|by intros [= <- _]].
  apply apply_completion_reply in E as [? ?]. by intros [= <- _].
Qed.

Lemma complete_no_new req a s r s' tag :
  complete req a s = (r, s') → live (requests s) !! tag = None → live (requests s') !! tag = None.
Proof.
  unfold complete. intros H Hn. destruct (finish_request (req_key req) s) as [b s1] eqn:Ef.
  assert (live (requests s1) !! tag = None) as Hn1.
  { unfold finish_request in Ef. destruct (finish _ _) as [b' t] eqn:E. simplify_eq. simpl.
    destruct b; [apply finish_true in E as [_ ->]|apply finish_false in E as [_ ->]]; [|done].
    simpl. rewrite lookup_delete_None. by right. }
  destruct b; [|by simplify_eq]. destruct a as [a|e]; [|by simplify_eq].
  destruct (apply_completion _ _ _ _) as [r' s3] eqn:E. simplify_eq.
  apply apply_completion_requests in E. by rewrite E.
Qed.

Lemma finish_request_no_new k s tag :
  live (requests s) !! tag = None → live (requests (finish_request k s).2) !! tag = None.
Proof.
  intros Hn. unfold finish_request. destruct (finish (requests s) k) as [b t] eqn:E. simpl.
  destruct b; [apply finish_true in E as [_ ->]|apply finish_false in E as [_ ->]]; [|done].
  simpl. rewrite lookup_delete_None. by right.
Qed.

Lemma finish_request_gone k s : live (requests (finish_request k s).2) !! key_tag k ≠ Some k.
Proof.
  unfold finish_request. destruct (finish (requests s) k) as [b t] eqn:E. simpl.
  destruct b; [apply finish_true in E as [_ ->]; simpl; by rewrite lookup_delete_eq|].
  by apply finish_false in E as [? ->].
Qed.

(** What [admit_after_begin] does to the live requests. *)
Lemma admit_after_begin_live m k s ev s' :
  admit_after_begin m k s = (Ok ev, s') →
  (∃ kind, ev = dispatch k kind ∧ requests s' = requests s ∧ is_tflush m = false) ∨
  (∃ tag old o, m = TFlush tag old ∧ ev = FlushEvent (RFlush (key_tag k)) o ∧
     live (requests s') !! old = None ∧
     ∀ t, live (requests s) !! t = None → live (requests s') !! t = None).
Proof.
  intros H. destruct (is_tflush m) eqn:Hf.
  - right. destruct m; try done. apply admit_flush in H as (Hn & o & -> & H).
    exists tag, oldtag, o. rewrite flush_session in H by done.
    assert (∀ t s1, live (requests s1) = delete oldtag (live (requests s)) →
              (t = oldtag ∨ live (requests s) !! t = None) →
              live (requests (finish_request k s1).2) !! t = None) as Hd.
    { intros t s1 E Ht. apply finish_request_no_new. rewrite E, lookup_delete_None. naive_solver. }
    split_and!; [done..| |]; case_match; destruct H as [_ ->]; intros; apply Hd; auto.
  - left. destruct m; cbn [admit_after_begin] in H; try done; run_ok;
      (eexists; split_and!; [reflexivity|requests_eq|done]).
Qed.

Lemma admit_live m s ev s' t :
  admit_message m s = (ev, s') → t ≠ t_tag m → live (requests s) !! t = None →
  live (requests s') !! t = None.
Proof.
  intros H Ht Hn. destruct (is_tversion m) eqn:Hv.
  { destruct m; try done. unfold admit_message, reset_for_version in H.
    destruct (_ <? MIN_MSIZE); [|destruct (accept _ _)]; by simplify_eq. }
  rewrite admit_request in H by done. destruct (negb _); [by simplify_eq|].
  destruct (on_requests _ s) as [[k|e] s1] eqn:Eb.
  2:{ unfold on_requests in Eb. destruct (begin _ _) as [r t'] eqn:E. simplify_eq.
      by apply begin_Err in E as ->. }
  apply begin_begun in Eb as [Hb Hk].
  assert (live (requests s1) !! t = None) as Hn1.
  { rewrite (bg_state _ _ _ Hb). simpl. rewrite lookup_insert_ne; congruence. }
  destruct (admit_after_begin m k s1) as [[ev'|e] s2] eqn:Ea; simplify_eq.
  - apply admit_after_begin_live in Ea as [(kind & _ & -> & _)|(? & ? & ? & _ & _ & _ & Hl)]; auto.
  - apply admit_refuses, und_requests in Ea. unfold finish_with_reply in H. simplify_eq. simpl.
    apply finish_request_no_new. by rewrite Ea.
Qed.

(** The event of an admission answers the message that was admitted. *)
Definition reply_to (s : Session) (m : TMessage) (r : RMessage) : Prop :=
  r_tag r = t_tag m ∧
  (is_rflush r = true → ∃ old, m = TFlush (t_tag m) old ∧ live (requests s) !! old = None).

Lemma admit_event m s ev s' :
  admit_message m s = (ev, s') →
  match ev with
  | Reply r | FlushEvent r _ => reply_to s' m r
  | Dispatch req => req_tag req = t_tag m
  end.
Proof.
  intros H. destruct (is_tversion m) eqn:Hv.
  { destruct m; try done. unfold admit_message, reset_for_version in H.
    destruct (_ <? MIN_MSIZE); [|destruct (accept _ _)]; by simplify_eq. }
  rewrite admit_request in H by done. destruct (negb _); [by simplify_eq|].
  destruct (on_requests _ s) as [[k|e] s1] eqn:Eb; [|by simplify_eq].
  apply begin_begun in Eb as [_ Hk].
  destruct (admit_after_begin m k s1) as [[ev'|e] s2] eqn:Ea.
  2:{ unfold finish_with_reply in H. by simplify_eq. }
  simplify_eq.
  apply admit_after_begin_live in Ea as [(kind & -> & _ & _)|(tag & old & o & -> & -> & Hl & _)].
  - done.
  - split; [done|]. intros _. by exists old.
Qed.

(** ** Traces *)

(** A Tflush of [old] was answered, and the client has not used the tag since. *)
Definition flushed_quiet (old : Z) (tr : list Event) : Prop :=
  ∃ pre ft gap mid,
    tr = pre ++ In (TFlush ft old) :: gap ++ Out (RFlush ft) :: mid ∧
    (∀ m, In m ∉ gap) ∧ (∀ m, In m ∈ mid → t_tag m ≠ old).

(** Wherever the trace is cut before a reply, that reply is not to a flushed tag. *)
Definition respects_flush (tr : list Event) : Prop :=
  ∀ pre r post old, tr = pre ++ Out r :: post → flushed_quiet old pre → r_tag r ≠ old.

(** The last message received is [m], and no Rflush was written since. *)
Definition last_in (tr : list Event) (m : TMessage) : Prop :=
  ∃ pre gap, tr = pre ++ In m :: gap ∧ (∀ m', In m' ∉ gap) ∧ (∀ ft, Out (RFlush ft) ∉ gap).

Lemma last_in_not_flushed tr m old : last_in tr m → flushed_quiet old tr → t_tag m ≠ old.
Proof.
  intros (pre & gap & -> & Hg & Hf) (pre' & ft & gap' & mid & E & Hg' & Hm).
  change (In (TFlush ft old) :: gap' ++ Out (RFlush ft) :: mid)
    with ((In (TFlush ft old) :: gap') ++ Out (RFlush ft) :: mid) in E.
  rewrite app_assoc in E. apply app_eq_app in E as [l [[-> E]|[E1 E]]].
  - destruct l as [|e l]; [done|]. injection E as <- ->. apply Hm. set_solver.
  - destruct l as [|e l]; [done|]. injection E as <- E. exfalso. apply (Hf ft). rewrite E. set_solver.
Qed.

Lemma flushed_quiet_snoc old tr e :
  flushed_quiet old (tr ++ [e]) →
  (flushed_quiet old tr ∧ ∀ m, e = In m → t_tag m ≠ old) ∨
  ∃ pre ft gap, e = Out (RFlush ft) ∧ tr = pre ++ In (TFlush ft old) :: gap ∧ ∀ m, In m ∉ gap.
Proof.
  intros (pre & ft & gap & mid & E & Hg & Hm). destruct mid as [|x mid _] using rev_ind.
  - right. exists pre, ft, gap.
    change (pre ++ In (TFlush ft old) :: gap ++ [Out (RFlush ft)]) with
      (pre ++ (In (TFlush ft old) :: gap) ++ [Out (RFlush ft)]) in E.
    rewrite app_assoc in E. apply app_inj_tail in E as [-> ->]. done.
  - left. change (pre ++ In (TFlush ft old) :: gap ++ Out (RFlush ft) :: mid ++ [x]) with
      (pre ++ (In (TFlush ft old) :: gap) ++ (Out (RFlush ft) :: mid) ++ [x]) in E.
    rewrite !app_assoc in E. apply app_inj_tail in E as [-> ->]. split.
    + exists pre, ft, gap, mid. rewrite <- !app_assoc. split_and!; [done..|]. intros m Hin.
      apply Hm. set_solver.
    + intros m ->. apply Hm. set_solver.
Qed.

Lemma respects_flush_snoc tr e :
  respects_flush tr → (∀ r old, e = Out r → flushed_quiet old tr → r_tag r ≠ old) →
  respects_flush (tr ++ [e]).
Proof.
  intros Hr He pre r post old E Hq. destruct post as [|x post _] using rev_ind.
  - apply app_inj_tail in E as [-> ->]. by eapply He.
  - rewrite app_comm_cons, app_assoc in E. apply app_inj_tail in E as [-> _]. by eapply Hr.
Qed.

Lemma last_in_snoc_out tr m r :
  last_in tr m → is_rflush r = false → last_in (tr ++ [Out r]) m.
Proof.
  intros (pre & gap & -> & Hg & Hf) Hr. exists pre, (gap ++ [Out r]). rewrite <- app_assoc.
  split_and!; [done|intros m' [?|?%list_elem_of_singleton]%elem_of_app; [by eapply Hg|done]|].
  intros ft [?|E%list_elem_of_singleton]%elem_of_app; [by eapply Hf|]. by simplify_eq.
Qed.

Lemma last_in_snoc_in tr m : last_in (tr ++ [In m]) m.
Proof. exists tr, []. split_and!; [done|set_solver|set_solver]. Qed.

Lemma last_in_flush tr m ft old pre gap :
  last_in tr m → tr = pre ++ In (TFlush ft old) :: gap → (∀ m', In m' ∉ gap) → m = TFlush ft old.
Proof.
  intros (pre' & gap' & -> & Hg & _) E Hg'.
  apply app_eq_app in E as [l [[-> E]|[-> E]]]; destruct l as [|e l]; try (by injection E);
    injection E as <- E.
  - exfalso. apply (Hg' m). rewrite E. set_solver.
  - exfalso. apply (Hg (TFlush ft old)). rewrite E. set_solver.
Qed.

(** ** The invariant *)

Definition phase_ok (tr : list Event) (s : Session) (p : ReaderPhase) : Prop :=
  match p with
  | RdRead | RdClosed | RdWrite None => True
  | RdReset m | RdAdmit m => last_in tr m
  | RdReply r | RdWrite (Some r) => ∃ m, last_in tr m ∧ reply_to s m r
  | RdDispatch req | RdPerform req | RdComplete req _ | RdLocked req _ =>
      ∃ m, last_in tr m ∧ req_tag req = t_tag m
  end.

(** A worker's reply in hand. *)
Definition holds_reply (w : Worker) (r : RMessage) : Prop := w_phase w = WkWrite (Some r).

(** How many threads hold the writer. *)
Definition worker_writers (ws : list Worker) : nat := length (List.filter worker_writes ws).
Definition writers (c : Conn) : nat :=
  ((if reader_writes (cn_reader c) then 1 else 0) + worker_writers (cn_workers c))%nat.

Record wire_ok (c : Conn) : Prop := {
  wo_phase : phase_ok (cn_trace c) (cn_session c) (cn_reader c);
  wo_exclusion : (writers c ≤ 1)%nat;
  wo_no_rflush w r : w ∈ cn_workers c → holds_reply w r → is_rflush r = false;
  wo_quiet old : flushed_quiet old (cn_trace c) →
    live (requests (cn_session c)) !! old = None ∧
    ∀ w r, w ∈ cn_workers c → holds_reply w r → r_tag r ≠ old;
  wo_trace : respects_flush (cn_trace c);
}.

Lemma worker_writers_cons w ws :
  worker_writers (w :: ws) = ((if worker_writes w then 1 else 0) + worker_writers ws)%nat.
Proof. unfold worker_writers. simpl. by destruct (worker_writes w). Qed.

Lemma worker_writers_app ws1 ws2 :
  worker_writers (ws1 ++ ws2) = (worker_writers ws1 + worker_writers ws2)%nat.
Proof. unfold worker_writers. by rewrite List.filter_app, length_app. Qed.

Lemma worker_writers_0 ws : worker_writers ws = 0%nat ↔ forallb (λ w, negb (worker_writes w)) ws = true.
Proof.
  induction ws as [|w ws IH]; [done|]. rewrite worker_writers_cons. simpl.
  destruct (worker_writes w); simpl; [split; [lia|done]|exact IH].
Qed.

Lemma writer_free_spec c : writer_free c = true ↔ writers c = 0%nat.
Proof.
  unfold writer_free, writers. rewrite andb_true_iff, <- worker_writers_0.
  destruct (reader_writes (cn_reader c)); simpl; [split; [by intros []|lia]|naive_solver].
Qed.

Lemma no_worker_reply ws w r : worker_writers ws = 0%nat → w ∈ ws → ¬ holds_reply w r.
Proof.
  intros H Hin Hr. apply worker_writers_0 in H. rewrite forallb_forall in H.
  apply list_elem_of_In, H in Hin. unfold worker_writes in Hin. by rewrite Hr in Hin.
Qed.

(** Steps of the reader that neither write to the wire nor touch the workers. *)
Lemma reader_step c c' :
  wire_ok c → cn_workers c' = cn_workers c → cn_trace c' = cn_trace c →
  phase_ok (cn_trace c) (cn_session c') (cn_reader c') →
  (reader_writes (cn_reader c') = true →
     reader_writes (cn_reader c) = true ∨ writer_free c = true) →
  (∀ old, flushed_quiet old (cn_trace c) → live (requests (cn_session c')) !! old = None) →
  wire_ok c'.
Proof.
  intros [Hph Hex Hnr Hq Htr] Ew Et Hp Hw Hl. split; rewrite ?Ew, ?Et; try done.
  - unfold writers in *. rewrite Ew. destruct (reader_writes (cn_reader c')); [|lia].
    destruct (Hw eq_refl) as [E|Hf]; [by rewrite E in Hex|].
    apply writer_free_spec in Hf. unfold writers in Hf. lia.
  - intros old Hold. split; [by apply Hl|]. by apply Hq.
Qed.

Lemma phase_ok_session tr s s' p :
  (∀ t, live (requests s) !! t = None → live (requests s') !! t = None) →
  phase_ok tr s p → phase_ok tr s' p.
Proof.
  intros Hl. destruct p as [|m|m|r|req|req|req a|req a|[r|]|]; simpl; try done;
    intros (m & Hm & Ht & Hf); exists m; (split; [done|split; [done|]]); intros E;
    destruct (Hf E) as (old & ? & ?); eauto.
Qed.

Lemma phase_ok_out tr s p r :
  is_rflush r = false → phase_ok tr s p → phase_ok (tr ++ [Out r]) s p.
Proof.
  intros Hr. destruct p as [|m|m|r'|req|req|req a|req a|[r'|]|]; simpl; try done;
    eauto using last_in_snoc_out; intros (m & ? & ?); eauto using last_in_snoc_out.
Qed.

(** A worker moves to a new phase, with the writer if it needs it. *)
Lemma worker_step c ws1 req p p' ws2 c' :
  wire_ok c → cn_workers c = ws1 ++ Worker_mk req p :: ws2 →
  cn_workers c' = ws1 ++ Worker_mk req p' :: ws2 →
  cn_reader c' = cn_reader c → cn_trace c' = cn_trace c →
  (worker_writes (Worker_mk req p') = true →
     worker_writes (Worker_mk req p) = true ∨ writer_free c = true) →
  (∀ t, live (requests (cn_session c)) !! t = None → live (requests (cn_session c')) !! t = None) →
  (∀ r, holds_reply (Worker_mk req p') r →
     is_rflush r = false ∧ ∀ old, flushed_quiet old (cn_trace c) → r_tag r ≠ old) →
  wire_ok c'.
Proof.
  intros [Hph Hex Hnr Hq Htr] Hws Ew Er Et Hw Hl Hr.
  assert (∀ w, w ∈ cn_workers c' → w = Worker_mk req p' ∨ w ∈ cn_workers c) as Hin.
  { rewrite Ew, Hws. set_solver. }
  split; rewrite ?Er, ?Et.
  - by eapply phase_ok_session.
  - unfold writers in *. rewrite Er, Ew. rewrite Hws in Hex.
    rewrite worker_writers_app, worker_writers_cons in *.
    destruct (worker_writes (Worker_mk req p')); [|lia].
    destruct (Hw eq_refl) as [E|Hf]; [by rewrite E in Hex|].
    apply writer_free_spec in Hf. unfold writers in Hf.
    rewrite Hws, worker_writers_app, worker_writers_cons in Hf. lia.
  - intros w r [->|Hin']%Hin Hh; [by apply Hr|by eapply Hnr].
  - intros old Hold. destruct (Hq old Hold) as [Hn Hrep]. split; [by apply Hl|].
    intros w r [->|Hin']%Hin Hh; [by apply Hr|by eapply Hrep].
  - done.
Qed.

(** A thread that holds the writer writes [r] and lets the writer go. *)
Lemma conn_write_step c r c' :
  wire_ok c →
  (∀ old, flushed_quiet old (cn_trace c) → r_tag r ≠ old) →
  cn_session c' = cn_session c → cn_trace c' = cn_trace c ++ [Out r] →
  phase_ok (cn_trace c') (cn_session c') (cn_reader c') →
  (writers c' ≤ 1)%nat →
  (∀ w r', w ∈ cn_workers c' → holds_reply w r' → w ∈ cn_workers c) →
  (∀ pre ft gap old, r = RFlush ft → cn_trace c = pre ++ In (TFlush ft old) :: gap →
     (∀ m, In m ∉ gap) →
     live (requests (cn_session c)) !! old = None ∧ worker_writers (cn_workers c) = 0%nat) →
  wire_ok c'.
Proof.
  intros [Hph Hex Hnr Hq Htr] Hnot Es Et Hp Hw Hin Hfl. split; [done|done| | |].
  - intros w r' Hw' Hh. by eapply Hnr; [eapply Hin|].
  - intros old Hold. rewrite Et in Hold.
    apply flushed_quiet_snoc in Hold as [[Hold _]|(pre & ft & gap & E & Htr' & Hg)].
    + rewrite Es. destruct (Hq old Hold) as [Hn Hrep]. split; [done|].
      intros w r' Hw' Hh. by eapply Hrep; [eapply Hin|].
    + injection E as ->. destruct (Hfl _ _ _ _ eq_refl Htr' Hg) as [Hn Hz]. rewrite Es.
      split; [done|]. intros w r' Hw' Hh. exfalso.
      by eapply (no_worker_reply _ w r' Hz); [eapply Hin|].
  - rewrite Et. apply respects_flush_snoc; [done|]. intros r' old [= <-]. apply Hnot.
Qed.

(** The reader receives a message. *)
Lemma receive_step c m c' :
  wire_ok c → cn_reader c = RdRead → (cn_reader c' = RdAdmit m ∨ cn_reader c' = RdReset m) →
  cn_workers c' = cn_workers c → cn_trace c' = cn_trace c ++ [In m] →
  (∀ t, live (requests (cn_session c)) !! t = None → live (requests (cn_session c')) !! t = None) →
  wire_ok c'.
Proof.
  intros [Hph Hex Hnr Hq Htr] Hrd Hp Ew Et Hl. split; rewrite ?Ew, ?Et; try done.
  - destruct Hp as [->| ->]; apply last_in_snoc_in.
  - unfold writers in *. rewrite Ew, Hrd in *. by destruct Hp as [->| ->].
  - intros old [[Hold _]|(pre & ft & gap & [=] & _)]%flushed_quiet_snoc.
    destruct (Hq old Hold). split; [by apply Hl|done].
  - apply respects_flush_snoc; [done|]. by intros r old [=].
Qed.

(** Workers that hold nothing come and go. *)
Lemma workers_step c c' :
  wire_ok c → cn_session c' = cn_session c → cn_trace c' = cn_trace c →
  phase_ok (cn_trace c) (cn_session c) (cn_reader c') → (writers c' ≤ writers c)%nat →
  (∀ w r, w ∈ cn_workers c' → holds_reply w r → w ∈ cn_workers c) → wire_ok c'.
Proof.
  intros [Hph Hex Hnr Hq Htr] Es Et Hp Hw Hin. split; rewrite ?Es, ?Et; try done.
  - lia.
  - intros w r Hw' Hh. by eapply Hnr; [eapply Hin|].
  - intros old Hold. destruct (Hq old Hold) as [Hn Hrep]. split; [done|].
    intros w r Hw' Hh. by eapply Hrep; [eapply Hin|].
Qed.

Lemma reset_quiet (s : Session) old :
  live (requests (set_requests (reset (requests s)) s)) !! old = None.
Proof. done. Qed.

Lemma after_admit_fields is_async ev c :
  let c' := after_admit is_async ev c in
  cn_session c' = cn_session c ∧ cn_workers c' = cn_workers c ∧ cn_trace c' = cn_trace c ∧
  cn_reader c' = match ev with
                 | Reply r | FlushEvent r _ => RdReply r
                 | Dispatch req => if is_async req then RdDispatch req else RdPerform req
                 end.
Proof.
  unfold after_admit. destruct ev as [r|req|r [key|]]; simpl; try done.
  - destruct (req_kind req); done.
  - unfold cancel_key. by case_match.
Qed.

Section steps.
Context (is_async : ServerRequest → bool) (max_async : Z).

Lemma admit_step c m ev s' :
  wire_ok c → cn_reader c = RdAdmit m → admit_message m (cn_session c) = (ev, s') →
  wire_ok (after_admit is_async ev (set_session s' c)).
Proof.
  intros Hc Hrd Ha. pose proof (wo_phase _ Hc) as Hp. rewrite Hrd in Hp. simpl in Hp.
  destruct (after_admit_fields is_async ev (set_session s' c)) as (Es & Ew & Et & Er).
  eapply reader_step; [exact Hc|exact Ew|exact Et|..]; rewrite ?Es, ?Er; cbn [set_session cn_session].
  - pose proof (admit_event _ _ _ _ Ha) as He. destruct ev as [r|req|r o]; simpl; eauto.
    destruct (is_async req); simpl; eauto.
  - destruct ev as [r|req|r o]; try done. by destruct (is_async req).
  - intros old Hold. eapply admit_live; [exact Ha| |by apply Hc].
    intros ->. by apply (last_in_not_flushed _ _ _ Hp Hold).
Qed.

Lemma reader_write_step c r :
  wire_ok c → cn_reader c = RdWrite r → wire_ok (set_reader RdRead (write_out r c)).
Proof.
  intros Hc Hrd. pose proof (wo_phase _ Hc) as Hp. rewrite Hrd in Hp. destruct r as [r|]; simpl in *.
  - destruct Hp as (m & Hlast & Ht & Hfl). pose proof (wo_exclusion _ Hc) as Hex.
    unfold writers in Hex. rewrite Hrd in Hex. simpl in Hex.
    eapply (conn_write_step c r); try done.
    + intros old Hold. rewrite Ht. by eapply last_in_not_flushed.
    + unfold writers. simpl. lia.
    + intros pre ft gap old -> Htr Hg. simpl in *. destruct (Hfl eq_refl) as (old' & E & Hn).
      rewrite (last_in_flush _ _ _ _ _ _ Hlast Htr Hg) in E. injection E as <-. split; [done|lia].
  - eapply reader_step; try done; simpl; try done. intros old Hold. by apply Hc.
Qed.

Lemma worker_complete_step c ws1 req a ws2 r s' :
  wire_ok c → cn_workers c = ws1 ++ Worker_mk req (WkLocked a) :: ws2 →
  complete req a (cn_session c) = (r, s') →
  wire_ok (set_workers (ws1 ++ Worker_mk req (WkWrite r) :: ws2) (set_session s' c)).
Proof.
  intros Hc Hws Hcomp. eapply worker_step; [exact Hc|exact Hws|reflexivity|done|done|..].
  - intros _. by left.
  - intros t. by eapply complete_no_new.
  - intros r' [= ->]. destruct (complete_reply _ _ _ _ _ Hcomp) as (Ht & Hr & Hl).
    split; [done|]. intros old Hold E. destruct (wo_quiet _ Hc old Hold) as [Hn _].
    unfold key_live in Hl. fold (req_tag req) in Hl. rewrite <- Ht, E in Hl. congruence.
Qed.

Lemma worker_write_step c ws1 req r ws2 :
  wire_ok c → cn_workers c = ws1 ++ Worker_mk req (WkWrite r) :: ws2 →
  wire_ok (set_workers (ws1 ++ Worker_mk req WkDone :: ws2) (write_out r c)).
Proof.
  intros Hc Hws. destruct r as [r|].
  2:{ by eapply worker_step; [exact Hc|exact Hws|reflexivity|..]. }
  assert (Worker_mk req (WkWrite (Some r)) ∈ cn_workers c) as Hin by (rewrite Hws; set_solver).
  pose proof (wo_no_rflush _ Hc _ r Hin eq_refl) as Hr.
  eapply (conn_write_step c r); try done.
  - intros old Hold. destruct (wo_quiet _ Hc old Hold) as [_ H]. by apply (H _ _ Hin).
  - simpl. apply phase_ok_out; [done|apply Hc].
  - pose proof (wo_exclusion _ Hc) as Hex. unfold writers in *. simpl.
    rewrite Hws in Hex. rewrite worker_writers_app, worker_writers_cons in *. simpl in *. lia.
  - simpl. rewrite Hws. intros w r' [?|[->|?]%elem_of_cons]%elem_of_app Hh; [set_solver|done|set_solver].
  - intros pre ft gap old ->. done.
Qed.

Lemma conn_step_wire c c' : wire_ok c → conn_step is_async max_async c c' → wire_ok c'.
Proof.
  intros Hc Hstep. pose proof (wo_phase _ Hc) as Hp.
  assert (∀ old, flushed_quiet old (cn_trace c) → live (requests (cn_session c)) !! old = None) as Hq
    by (intros; by apply Hc).
  destruct Hstep as [c m Hrd Hv|c m Hrd Hv|c Hrd|c m Hrd Ha|c m Hrd Ha|c m ev s' Hrd Ha|c r Hrd Hf
    |c req Hrd Hm|c req f Hrd Hm|c req e Hrd Hm|c req a Hrd|c req a Hrd Hf|c req a r s' Hrd Hcomp
    |c r Hrd|c r Hrd|c ws1 req ws2 a Hws|c ws1 req a ws2 Hws Hf|c ws1 req a ws2 r s' Hws Hcomp
    |c ws1 req r ws2 Hws|c ws1 req r ws2 Hws|c ws1 req ws2 Hws];
    try rewrite Hrd in Hp; simpl in Hp.
  - eapply (receive_step c m); try done. by left.
  - eapply (receive_step c m); try done. by right.
  - by eapply reader_step.
  - by eapply reader_step.
  - by eapply reader_step.
  - by eapply admit_step.
  - eapply reader_step; try done. by right.
  - by eapply reader_step.
  - eapply workers_step; try done; unfold writers; simpl.
    + rewrite Hrd, worker_writers_app. simpl. unfold worker_writers at 2. simpl. lia.
    + intros w r [?|E%list_elem_of_singleton]%elem_of_app Hh; [done|by subst w].
  - by eapply reader_step.
  - by eapply reader_step.
  - eapply reader_step; try done. by right.
  - destruct Hp as (m & Hlast & Ht).
    eapply reader_step; try done; simpl.
    + destruct r as [r|]; [|done]. destruct (complete_reply _ _ _ _ _ Hcomp) as (Hrt & Hr & _).
      exists m. split; [done|]. split; [congruence|]. by rewrite Hr.
    + intros _. left. by rewrite Hrd.
    + intros old Hold. eapply complete_no_new; [done|auto].
  - by eapply reader_write_step.
  - by eapply reader_step.
  - by eapply worker_step; [exact Hc|exact Hws|reflexivity|..].
  - eapply worker_step; [exact Hc|exact Hws|reflexivity|done|done| |done|done]. by right.
  - by eapply worker_complete_step.
  - by eapply worker_write_step.
  - by eapply worker_step; [exact Hc|exact Hws|reflexivity|..].
  - eapply workers_step; try done; unfold writers, drop_worker; simpl.
    + rewrite Hws, !worker_writers_app, worker_writers_cons. simpl. lia.
    + intros w r Hin _. rewrite Hws. set_solver.
Qed.

End steps.

Lemma wire_ok_new config : wire_ok (Conn_new config).
Proof.
  split; simpl; try done.
  - unfold writers. simpl. unfold worker_writers. simpl. lia.
  - intros w r H. by apply elem_of_nil in H.
  - intros old (pre & ft & gap & mid & E & _). by destruct pre.
  - intros pre r post old E. by destruct pre.
Qed.

(** C2: after an Rflush the flushed tag is silent on the wire: for every handler
    and every interleaving of the reader thread and the worker threads, once the
    answer to a Tflush of [old] has been written, no reply with tag [old] is
    written until the client has sent a new message with that tag. *)
Theorem no_reply_after_rflush is_async config c :
  conn_reachable is_async config c → respects_flush (cn_trace c).
Proof.
  intros H. apply wo_trace. revert c H. apply rtc_ind_r; [apply wire_ok_new|].
  intros c c' _ Hstep Hc. by eapply conn_step_wire.
Qed.

(** A connection on which the client negotiates and then flushes tag 5. *)
Lemma sample_connection :
  ∃ c, conn_reachable (λ _, true) sample_config c ∧
    cn_trace c = [In sample_version; Out (RVersion NOTAG 8192 (bstr "9P2000"));
                  In (TFlush 1 5); Out (RFlush 1)].
Proof.
  eexists. split.
  - eapply rtc_l; [eapply (cs_read_version _ _ _ sample_version); reflexivity|].
    eapply rtc_l; [eapply cs_backend_reset; reflexivity|].
    eapply rtc_l; [eapply cs_admit; reflexivity|].
    eapply rtc_l; [eapply cs_reply_lock; reflexivity|].
    eapply rtc_l; [eapply cs_write; reflexivity|].
    eapply rtc_l; [eapply (cs_read _ _ _ (TFlush 1 5)); reflexivity|].
    eapply rtc_l; [eapply cs_admit; reflexivity|].
    eapply rtc_l; [eapply cs_reply_lock; reflexivity|].
    eapply rtc_l; [eapply cs_write; reflexivity|].
    apply rtc_refl.
  - vm_compute. reflexivity.
Qed.

Lemma no_reply_after_rflush_witness :
  respects_flush [In sample_version; Out (RVersion NOTAG 8192 (bstr "9P2000"));
                  In (TFlush 1 5); Out (RFlush 1)].
Proof.
  destruct sample_connection as (c & Hc & Ht). rewrite <- Ht.
  exact (no_reply_after_rflush _ _ c Hc).
Defined.

(** ** Worker threads *)

(** A Tversion about to be admitted has the connection to itself. *)
Definition alone (c : Conn) : Prop :=
  match cn_reader c with RdAdmit m => is_tversion m = true → cn_workers c = [] | _ => True end.

Record pool_ok (max_async : Z) (c : Conn) : Prop := {
  po_active : cn_active c = vlen (cn_workers c);
  po_bound : vlen (cn_workers c) ≤ max_async;
  po_alone : alone c;
}.

Lemma pool_ok_same max_async c c' :
  pool_ok max_async c → cn_active c' = cn_active c → vlen (cn_workers c') = vlen (cn_workers c) →
  alone c' → pool_ok max_async c'.
Proof. intros [] ? ? ?. split; [congruence|lia|done]. Qed.

Lemma alone_worker c ws1 w w' ws2 c' :
  alone c → cn_workers c = ws1 ++ w :: ws2 → cn_workers c' = ws1 ++ w' :: ws2 →
  cn_reader c' = cn_reader c → alone c'.
Proof.
  unfold alone. intros Ha Hw Hw' ->. case_match; try done. intros E%Ha. rewrite Hw in E.
  by apply app_eq_nil in E as [_ ?].
Qed.

Lemma vlen_replace {A} (ws1 : list A) w w' ws2 : vlen (ws1 ++ w' :: ws2) = vlen (ws1 ++ w :: ws2).
Proof. autorewrite with vlen. lia. Qed.

Lemma after_admit_pool is_async ev c :
  cn_active (after_admit is_async ev c) = cn_active c ∧ alone (after_admit is_async ev c).
Proof.
  unfold after_admit, alone. destruct ev as [r|req|r [key|]]; simpl; try done.
  - destruct (req_kind req); simpl; destruct (is_async req); done.
  - unfold cancel_key. by case_match.
Qed.

Lemma write_out_pool r c :
  cn_active (write_out r c) = cn_active c ∧ cn_workers (write_out r c) = cn_workers c ∧
  cn_reader (write_out r c) = cn_reader c.
Proof. by destruct r. Qed.

Lemma conn_step_pool is_async max_async c c' :
  pool_ok max_async c → conn_step is_async max_async c c' → pool_ok max_async c'.
Proof.
  intros Hc Hstep. pose proof (po_alone _ _ Hc) as Hal.
  destruct Hstep as [c m Hrd Hv|c m Hrd Hv|c Hrd|c m Hrd Ha|c m Hrd Ha|c m ev s' Hrd Ha|c r Hrd Hf
    |c req Hrd Hm|c req f Hrd Hm|c req e Hrd Hm|c req a Hrd|c req a Hrd Hf|c req a r s' Hrd Hcomp
    |c r Hrd|c r Hrd|c ws1 req ws2 a Hws|c ws1 req a ws2 Hws Hf|c ws1 req a ws2 r s' Hws Hcomp
    |c ws1 req r ws2 Hws|c ws1 req r ws2 Hws|c ws1 req ws2 Hws];
    try (apply (pool_ok_same _ c); done).
  - apply (pool_ok_same _ c); try done. unfold alone. simpl. congruence.
  - apply (pool_ok_same _ c); try done. unfold alone. simpl. intros _.
    pose proof (po_active _ _ Hc) as E. rewrite Ha in E. unfold vlen in E.
    destruct (cn_workers c); [done|]. simpl in E. lia.
  - destruct (after_admit_fields is_async ev (set_session s' c)) as (_ & Ew & _ & _).
    destruct (after_admit_pool is_async ev (set_session s' c)) as [Ea Hal'].
    apply (pool_ok_same _ c); [done|done|by rewrite Ew|done].
  - destruct Hc as [E B A]. split; [..|done]; simpl; autorewrite with vlen; lia.
  - destruct (write_out_pool r c) as (E1 & E2 & E3). apply (pool_ok_same _ c); try done.
    simpl. by rewrite E2.
  - apply (pool_ok_same _ c); [done|done|rewrite Hws; apply vlen_replace|].
    by eapply alone_worker; [exact Hal|exact Hws|reflexivity|].
  - apply (pool_ok_same _ c); [done|done|rewrite Hws; apply vlen_replace|].
    by eapply alone_worker; [exact Hal|exact Hws|reflexivity|].
  - apply (pool_ok_same _ c); [done|done|rewrite Hws; apply vlen_replace|].
    by eapply alone_worker; [exact Hal|exact Hws|reflexivity|].
  - destruct (write_out_pool r c) as (E1 & E2 & E3).
    apply (pool_ok_same _ c); [done|done|rewrite Hws; apply vlen_replace|].
    by eapply alone_worker; [exact Hal|exact Hws|reflexivity|].
  - apply (pool_ok_same _ c); [done|done|rewrite Hws; apply vlen_replace|].
    by eapply alone_worker; [exact Hal|exact Hws|reflexivity|].
  - destruct Hc as [E B A]. rewrite Hws in E, B. autorewrite with vlen in *. split; simpl.
    + autorewrite with vlen. pose proof (vlen_nonneg ws1). pose proof (vlen_nonneg ws2).
      unfold saturating_sub. lia.
    + autorewrite with vlen. lia.
    + unfold alone in *. simpl. case_match; try done. intros Hnil%A. rewrite Hws in Hnil.
      by apply app_eq_nil in Hnil as [_ ?].
Qed.

(** The connection never runs more worker threads than configured, its
    counter is the number of workers at every moment, and a Tversion reaches the
    session (after the backend reset) only when no worker is left. *)
Theorem workers_bounded is_async config c :
  0 ≤ max_async_requests config → conn_reachable is_async config c →
  cn_active c = vlen (cn_workers c) ∧ vlen (cn_workers c) ≤ max_async_requests config ∧
  ∀ m, cn_reader c = RdAdmit m → is_tversion m = true → cn_workers c = [].
Proof.
  intros Hm H. assert (pool_ok (max_async_requests config) c) as [Ha Hb Hc].
  { revert c H. apply rtc_ind_r; [by split|]. intros c c' _ Hstep Hc. by eapply conn_step_pool. }
  split_and!; [done..|]. intros m E. unfold alone in Hc. by rewrite E in Hc.
Qed.

Lemma workers_bounded_witness :
  ∃ c, cn_trace c = [In sample_version; Out (RVersion NOTAG 8192 (bstr "9P2000"));
                     In (TFlush 1 5); Out (RFlush 1)] ∧
       vlen (cn_workers c) ≤ 16.
Proof.
  destruct sample_connection as (c & Hc & Ht). exists c. split; [exact Ht|].
  exact (proj1 (proj2 (workers_bounded (λ _, true) sample_config c ltac:(done) Hc))).
Defined.
