(* ===== verification/Blocking.v ===== *)
(** The blocking client: [crates/core/src/blocking.rs].  It sends one request,
    waits for its response, and builds the operations on paths from such calls.

    The stream is anything with the two operations the code uses it for, a
    checked frame out and a checked frame in: the class [Transport].  The bytes
    of a [Debug] formatting inside an error text are a parameter, [DebugText]. *)
From S2P Require Import Prelude Errors Utf8 Qid Stat Referral Message Codec FrameIO.
From S2P Require Import RequestTable Client ClientSupport.

Class Transport (S : Type) := {
  send_tmessage : Z → TMessage → M S unit;
  recv_rmessage : Z → M S (option RMessage);
}.

(** A byte stream, with the frame functions of [codec.rs]. *)
Record ByteStream := ByteStream_mk { bs_in : Reader; bs_out : Writer }.

#[export] Instance ByteStream_transport : Transport ByteStream := {
  send_tmessage msize m s :=
    let '(r, w) := write_tmessage_checked msize m (bs_out s) in (r, ByteStream_mk (bs_in s) w);
  recv_rmessage msize s :=
    let '(r, i) := read_rmessage_checked msize (bs_in s) in (r, ByteStream_mk i (bs_out s));
}.

(** The derived [Debug] texts of responses, and the one of [str]. *)
Class DebugText := {
  debug_response : ClientResponse → bytes;
  debug_completion : Completion → bytes;
  debug_str : bytes → bytes;
}.

(** ** client_support.rs: error texts *)

Definition unexpected (expected : string) (got : bytes) : Error :=
  Error_new (bstr "expected " ++ bstr expected ++ bstr ", got " ++ got).

Definition partial_walk `{DebugText} (names : list bytes) (walked : Z) (reason : option Error) : Error :=
  let stopped := match names !! Z.to_nat walked with
                 | Some name => from_utf8_lossy name
                 | None => bstr "?"
                 end in
  let position := saturating_add usize_max walked 1 in
  let total := vlen names in
  let head := bstr "partial walk: stopped at " ++ debug_str stopped ++ bstr " (" ++ dec position ++
              bstr " of " ++ dec total in
  match reason with
  | Some reason => Error_new (head ++ bstr "): " ++ display_lossy reason)
  | None => Error_new (head ++ bstr "), and walking it alone did not say why")
  end.

(** ** The client *)

Definition DEFAULT_READ_CHUNK : Z := 65536.

Record Blocking (S : Type) := Blocking_mk {
  b_stream : S;
  protocol : Client;
  b_variant : Variant;
  root_fid : Z;
  root_qid : Qid;
}.
Arguments Blocking_mk {S} _ _ _ _ _.
Arguments b_stream {S} _.
Arguments protocol {S} _.
Arguments b_variant {S} _.
Arguments root_fid {S} _.
Arguments root_qid {S} _.

Section client.
Context {S : Type} `{Transport S} `{DebugText}.

Definition on_stream {A} (m : M S A) : M (Blocking S) A := λ b,
  let '(r, s) := m (b_stream b) in
  (r, Blocking_mk s (protocol b) (b_variant b) (root_fid b) (root_qid b)).

Definition on_protocol {A} (m : M Client A) : M (Blocking S) A := λ b,
  let '(r, c) := m (protocol b) in
  (r, Blocking_mk (b_stream b) c (b_variant b) (root_fid b) (root_qid b)).

(** [.map_err(f)] *)
Definition map_err {X A} (f : Error → Error) (m : M X A) : M X A := λ x,
  match m x with
  | (Ok a, x) => (Ok a, x)
  | (Err e, x) => (Err (f e), x)
  end.

(** [let _ = m] and [let r = m] *)
Definition attempt {X A} (m : M X A) : M X (Result A) := λ x, let '(r, x) := m x in (Ok r, x).

Definition request (m : M Client Op) : M (Blocking S) Op := map_err protocol_error (on_protocol m).

Definition read_response : M (Blocking S) RMessage :=
  b ← get;
  m ← on_stream (recv_rmessage (c_msize (protocol b)));
  lift (ok_or m (from_static "9P transport closed before response")).

Definition call_message (message : TMessage) : M (Blocking S) ClientResponse :=
  let tag := t_tag message in
  b ← get;
  written ← attempt (on_stream (send_tmessage (c_msize (protocol b)) message));
  match written with
  | Err error =>
      _ ← on_protocol (modify (abandon tag));
      throw error
  | Ok _ =>
      response ← read_response;
      map_err protocol_error (on_protocol (receive response))
  end.

Definition call_op (op : Op) : M (Blocking S) Completion :=
  let expected_tag := op_tag op in
  response ← call_message (op_message op);
  let other := throw (Error_new (bstr "response tag mismatch or unexpected response: " ++
                                 debug_response response)) in
  match response with
  | ClientCompletion tag completion => if tag =? expected_tag then mret completion else other
  | ClientError tag ename => if tag =? expected_tag then throw (Error_new ename) else other
  end.

(** [other => Err(unexpected(expected, other))] *)
Definition not_expected {A} (expected : string) (got : Completion) : M (Blocking S) A :=
  throw (unexpected expected (debug_completion got)).

(** ** Calls on fids *)

Definition clunk (fid : Z) : M (Blocking S) unit :=
  op ← request (client_clunk fid);
  reply ← call_op op;
  match reply with CompClunk => mret () | other => not_expected "Rclunk" other end.

(** The inner result is the code's [Result<Fid, usize>]. *)
Definition walk_short (fid : Z) (names : list bytes) : M (Blocking S) (Z + Z) :=
  op ← request (client_walk fid names);
  newfid ← lift (op_fid op);
  reply ← call_op op;
  match reply with
  | CompWalk qids =>
      if vlen qids =? vlen names then mret (inl newfid)
      else
        _ ← attempt (clunk newfid);
        mret (inr (vlen qids))
  | other =>
      _ ← attempt (clunk newfid);
      not_expected "Rwalk" other
  end.

Definition walk_refusal (fid : Z) (names : list bytes) (walked : Z) : M (Blocking S) (option Error) :=
  match names !! Z.to_nat walked with
  | None => mret None
  | Some stopped =>
      prefix ← attempt (walk_short fid (ztake walked names));
      match prefix with
      | Ok (inl prefix) =>
          reached ← attempt (walk_short prefix [stopped]);
          refusal ← match reached with
                    | Ok (inl reached) => _ ← attempt (clunk reached); mret None
                    | Ok (inr _) => mret None
                    | Err error => mret (Some error)
                    end;
          _ ← attempt (clunk prefix);
          mret refusal
      | _ => mret None
      end
  end.

Definition walk (fid : Z) (names : list bytes) : M (Blocking S) Z :=
  walked ← walk_short fid names;
  match walked with
  | inl newfid => mret newfid
  | inr walked =>
      refusal ← walk_refusal fid names walked;
      throw (partial_walk names walked refusal)
  end.

Definition walk_one (fid : Z) (name : bytes) : M (Blocking S) Z := walk fid [name].

Definition clone_fid (fid : Z) : M (Blocking S) Z := walk fid [].

Definition open (fid mode : Z) : M (Blocking S) Qid :=
  op ← request (client_open fid mode);
  reply ← call_op op;
  match reply with CompOpen qid _ => mret qid | other => not_expected "Ropen" other end.

Definition create (parent_fid : Z) (name : bytes) (perm mode : Z) : M (Blocking S) (Z * Qid) :=
  fid ← clone_fid parent_fid;
  op ← request (client_create fid name perm mode);
  reply ← attempt (call_op op);
  match reply with
  | Ok (CompCreate qid _) => mret (fid, qid)
  | Ok other =>
      _ ← attempt (clunk fid);
      not_expected "Rcreate" other
  | Err error =>
      _ ← attempt (clunk fid);
      throw error
  end.

Definition read (fid offset count : Z) : M (Blocking S) bytes :=
  b ← get;
  let count := clamp_read_count (c_msize (protocol b)) count in
  op ← request (client_read fid offset count);
  reply ← call_op op;
  match reply with
  | CompRead data => lift (checked_read_data data count)
  | other => not_expected "Rread" other
  end.

Definition write_once (fid offset : Z) (data : bytes) : M (Blocking S) Z :=
  op ← request (client_write fid offset data);
  reply ← call_op op;
  match reply with
  | CompWrite count => lift (checked_write_count count (vlen data))
  | other => not_expected "Rwrite" other
  end.

Definition max_payload (b : Blocking S) : Z := Z.max (max_write_payload (c_msize (protocol b))) 1.

(** The chunk loop always ends ([write_in_chunks_total]). *)
Definition write (fid offset : Z) (data : bytes) : M (Blocking S) Z := λ b,
  match write_in_chunks (max_payload b) offset data (write_once fid) b with
  | Some result => result
  | None => (Err unreachable_error, b)
  end.

Definition remove (fid : Z) : M (Blocking S) unit :=
  op ← request (client_remove fid);
  reply ← call_op op;
  match reply with CompRemove => mret () | other => not_expected "Rremove" other end.

Definition stat (fid : Z) : M (Blocking S) Stat :=
  op ← request (client_stat fid);
  reply ← call_op op;
  match reply with CompStat stat => mret stat | other => not_expected "Rstat" other end.

Definition wstat (fid : Z) (st : Stat) : M (Blocking S) unit :=
  op ← request (client_wstat fid st);
  reply ← call_op op;
  match reply with CompWstat => mret () | other => not_expected "Rwstat" other end.

Definition rename_at (olddirfid : Z) (oldname : bytes) (newdirfid : Z) (newname : bytes) :
    M (Blocking S) unit :=
  b ← get;
  if negb (supports_rename_at (b_variant b))
  then throw (from_static "server did not negotiate atomic renameat")
  else
    op ← request (client_rename_at olddirfid oldname newdirfid newname);
    reply ← call_op op;
    match reply with CompRenameAt => mret () | other => not_expected "Rrenameat" other end.

(** ** Reading to the end *)

(** One turn of [read_all]: what is read, or the end. *)
Definition read_all_turn {W} (read_at : Z → M W bytes) (st : Z * bytes * W) :
    (Z * bytes * W) + (Result bytes * W) :=
  let '(offset, out, w) := st in
  match read_at offset w with
  | (Err e, w) => inr (Err e, w)
  | (Ok data, w) =>
      if bool_decide (data = []) then inr (Ok out, w)
      else
        match (n ← ok_or (try_from u64_max (vlen data)) (from_static "read count overflow");
               checked_advance_offset offset n) with
        | Err e => inr (Err e, w)
        | Ok offset => inl (offset, out ++ data, w)
        end
  end.

(** Every turn moves the 64-bit offset, so 2^64 turns are enough
    ([read_all_with_total]). *)
Definition read_all_with {W} (read_at : Z → M W bytes) : M W bytes := λ w,
  match loop 64 (read_all_turn read_at) (0, [], w) with
  | inl (_, _, w) => (Err unreachable_error, w)
  | inr result => result
  end.

Definition read_all (fid : Z) : M (Blocking S) bytes :=
  read_all_with (λ offset, read fid offset DEFAULT_READ_CHUNK).

Definition read_dir_stats (fid : Z) : M (Blocking S) (list Stat) :=
  data ← read_all fid;
  lift (decode_dir_entries data).

(** ** Paths *)

Definition path_names (path : bytes) : list bytes :=
  List.filter (λ name, negb (bool_decide (name = [])) && negb (bool_decide (name = bstr ".")))
    (split_on slash path).

Definition walk_path (path : bytes) : M (Blocking S) Z :=
  let names := path_names path in
  b ← get;
  if bool_decide (names = []) then clone_fid (root_fid b) else walk (root_fid b) names.

Definition stat_path (path : bytes) : M (Blocking S) Stat :=
  fid ← walk_path path;
  result ← attempt (stat fid);
  _ ← attempt (clunk fid);
  lift result.

Definition list_path (path : bytes) : M (Blocking S) (list Stat) :=
  fid ← walk_path path;
  st ← stat fid;
  result ← (if negb (Z.land (st_mode st) DMDIR =? 0)
            then _ ← open fid OREAD; attempt (read_dir_stats fid)
            else mret (Err (from_static ENOTDIR)));
  _ ← attempt (clunk fid);
  lift result.

Definition read_path (path : bytes) : M (Blocking S) bytes :=
  fid ← walk_path path;
  opened ← attempt (open fid OREAD);
  result ← match opened with
           | Ok _ => attempt (read_all fid)
           | Err error => mret (Err error)
           end;
  _ ← attempt (clunk fid);
  lift result.

Definition read_path_range (path : bytes) (offset count : Z) : M (Blocking S) bytes :=
  fid ← walk_path path;
  opened ← attempt (open fid OREAD);
  result ← match opened with
           | Ok _ => attempt (read fid offset count)
           | Err error => mret (Err error)
           end;
  _ ← attempt (clunk fid);
  lift result.

(** The common tail of the writing operations: a failing clunk is reported only
    when the operation itself succeeded. *)
Definition clunk_after {A} (fid : Z) (result : Result A) : M (Blocking S) A :=
  match result with
  | Ok a => _ ← clunk fid; mret a
  | Err error => _ ← attempt (clunk fid); throw error
  end.

Definition write_path (path : bytes) (offset : Z) (data : bytes) : M (Blocking S) Z :=
  fid ← walk_path path;
  opened ← attempt (open fid OWRITE);
  result ← match opened with
           | Ok _ => attempt (write fid offset data)
           | Err error => mret (Err error)
           end;
  clunk_after fid result.

Definition write_file (path : bytes) (data : bytes) : M (Blocking S) Z :=
  fid ← walk_path path;
  opened ← attempt (open fid (Z.lor OWRITE OTRUNC));
  result ← match opened with
           | Ok _ => attempt (write fid 0 data)
           | Err error => mret (Err error)
           end;
  clunk_after fid result.

Definition create_at (parent name : bytes) (perm mode : Z) : M (Blocking S) Qid :=
  parent_fid ← walk_path parent;
  result ← attempt (create parent_fid name perm mode);
  result ← match result with
           | Ok (fid, qid) =>
               clunked ← attempt (clunk fid);
               mret match clunked with Ok _ => Ok qid | Err error => Err error end
           | Err error => mret (Err error)
           end;
  clunk_after parent_fid result.

Definition create_write_at (parent name : bytes) (perm mode offset : Z) (data : bytes) :
    M (Blocking S) Z :=
  parent_fid ← walk_path parent;
  created ← attempt (create parent_fid name perm mode);
  parent_clunk ← attempt (clunk parent_fid);
  created ← lift created;
  let fid := created.1 in
  match parent_clunk with
  | Err error => _ ← attempt (clunk fid); throw error
  | Ok _ =>
      written ← attempt (write fid offset data);
      clunked ← attempt (clunk fid);
      match written with
      | Ok count => _ ← lift clunked; mret count
      | Err error => throw error
      end
  end.

Definition remove_path (path : bytes) : M (Blocking S) unit :=
  fid ← walk_path path;
  remove fid.

Definition rpc_path (path data : bytes) : M (Blocking S) bytes :=
  fid ← walk_path path;
  opened ← attempt (open fid ORDWR);
  result ← match opened with
           | Ok _ =>
               count ← write fid 0 data;
               if negb (default usize_max (try_from usize_max count) =? vlen data)
               then mret (Err (from_static "short rpc request write"))
               else attempt (read_all fid)
           | Err error => mret (Err error)
           end;
  _ ← attempt (clunk fid);
  lift result.

(** ** Connecting *)

(** The half-connected client is dropped when a step fails. *)
Definition connect_with_variant (stream : S) (uname aname : bytes) (msize : Z)
    (requested_variant : Variant) : Result (Blocking S) :=
  let client := Blocking_mk stream Client_new Plain NOFID (Qid_file 0) in
  let '(version_request, c) := version_request_for msize requested_variant (protocol client) in
  let client := Blocking_mk stream c Plain NOFID (Qid_file 0) in
  let '(result, client) :=
    (response ← call_message version_request;
     negotiated_variant ← match response with
       | ClientCompletion _ (CompVersion _ version) =>
           lift (ok_or (accept_response requested_variant version)
                   (Error_new (bstr "server negotiated unsupported version " ++
                               from_utf8_lossy version)))
       | other => throw (unexpected "Rversion" (debug_response other))
       end;
     _ ← modify (λ b, Blocking_mk (b_stream b) (protocol b) negotiated_variant (root_fid b) (root_qid b));
     attach ← request (client_attach uname aname);
     fid ← lift (op_fid attach);
     reply ← call_op attach;
     match reply with
     | CompAttach qid =>
         modify (λ b, Blocking_mk (b_stream b) (protocol b) (b_variant b) fid qid)
     | other => not_expected "Rattach" other
     end) client in
  _ ← result; Ok client.

Definition connect (stream : S) (uname aname : bytes) (msize : Z) : Result (Blocking S) :=
  connect_with_variant stream uname aname msize Plain.

End client.

(** ** Addresses and timeouts *)

Definition bang : byte := x21.
Definition colon : byte := x3a.

Definition parse_tcp_address (address : bytes) : Result bytes :=
  match strip_prefix (bstr "tcp!") address with
  | Some rest =>
      match split_on bang rest with
      | [host; port] =>
          if negb (bool_decide (host = [])) && negb (bool_decide (port = []))
          then Ok (host ++ [colon] ++ port)
          else Err (Error_new (bstr "invalid tcp address " ++ address))
      | _ => Err (Error_new (bstr "invalid tcp address " ++ address))
      end
  | None =>
      if bool_decide (bang ∈ address)
      then Err (Error_new (bstr "unsupported 9P address " ++ address))
      else if bool_decide (colon ∈ address) then Ok address
      else Ok (address ++ bstr ":564")
  end.

(** Durations in nanoseconds. *)
Record ConnectionTimeouts := ConnectionTimeouts_mk {
  connect_timeout : Z;
  read_timeout : Z;
  write_timeout : Z;
}.

Definition validate_nonzero_timeout (label : string) (timeout : Z) : Result unit :=
  if timeout =? 0
  then Err (Error_new (bstr label ++ bstr " timeout must be greater than zero"))
  else Ok ().

Definition validate_timeouts (t : ConnectionTimeouts) : Result ConnectionTimeouts :=
  _ ← validate_nonzero_timeout "connect" (connect_timeout t);
  _ ← validate_nonzero_timeout "read" (read_timeout t);
  _ ← validate_nonzero_timeout "write" (write_timeout t);
  Ok t.
