(* ===== verification/Loopback.v ===== *)
(** The blocking client against the server: [crates/core/src/blocking.rs] over a
    connection whose other end runs [Server::handle] of
    [crates/core/src/server/handlers.rs] on every message.  A small program
    logic on the server's fid table carries the proofs about path operations. *)
From S2P Require Import Prelude Errors Qid Stat StatProps Referral Message Codec CodecProps.
From S2P Require Import FrameIO RequestTable Session Server Reservations ServerInv ServerProps.
From S2P Require Import Client ClientProps EndToEnd ClientSupport Blocking.

(** What handling one message does to the server's fid table, for any file tree:
    the effects of [handle] of [crates/core/src/server/handlers.rs] that a
    sequential client can rely on. *)

(** The request a message asks for. *)
Definition asks (m : TMessage) (kind : ServerRequestKind) : Prop :=
  match m, kind with
  | TWalk _ f newfid names, KWalk f' newfid' _ names' => f' = f ∧ newfid' = newfid ∧ names' = names
  | TOpen _ f _, KOpen f' _ _ | TCreate _ f _ _ _, KCreate f' _ _ _ _ => f' = f
  | TRead _ f offset _, KRead f' _ offset' _ => f' = f ∧ offset' = offset
  | TClunk _ f, KClunk f' _ | TRemove _ f, KRemove f' _ => f' = f
  | TStat _ _, KStat _ _ | TWrite _ _ _ _, KWrite _ _ _ _ | TWstat _ _ _, KWstat _ _ _
  | TRenameAt _ _ _ _ _, KRenameAt _ _ _ _ _ _ | TReferrals _ _, KReferrals _ _
  | TAuth _ _ _ _, KAuth _ _ _ | TAttach _ _ _ _ _, KAttach _ _ _ _ => True
  | _, _ => False
  end.

(** Clunk and remove retire their fid when they are admitted. *)
Definition retired (m : TMessage) (fs : gmap Z FidState) : gmap Z FidState :=
  match m with TClunk _ f | TRemove _ f => delete f fs | _ => fs end.

(** What admission established about the fids it names. *)
Definition named_fids (m : TMessage) (fs : gmap Z FidState) : Prop :=
  match m with
  | TWalk _ f newfid _ => is_Some (fs !! f) ∧ (newfid ≠ f → fs !! newfid = None)
  | TOpen _ f _ | TCreate _ f _ _ _ => is_Some (fs !! f)
  | _ => True
  end.

Definition fids_after (m : TMessage) (fs : gmap Z FidState) (r : RMessage) (fs' : gmap Z FidState) :
    Prop :=
  match m with
  | TWalk _ f newfid names =>
      fs !! newfid = None →
      (∃ tag qids st, r = RWalk tag qids ∧ vlen qids = vlen names ∧
         fs' = <[newfid := st]> fs) ∨
      (fs' = fs ∧ ∀ tag qids, r = RWalk tag qids → vlen qids ≠ vlen names)
  | TOpen _ f _ | TCreate _ f _ _ _ | TRead _ f _ _ =>
      fs' = fs ∨ (is_Some (fs !! f) ∧ ∃ st, fs' = <[f := st]> fs)
  | TClunk _ f | TRemove _ f => fs' = delete f fs
  | TStat _ _ | TWrite _ _ _ _ | TWstat _ _ _ | TRenameAt _ _ _ _ _ | TReferrals _ _ => fs' = fs
  | _ => True
  end.

Lemma fid_Ok s f st : fid s f = Ok st → fids s !! f = Some st.
Proof. unfold fid. intros. by inv_ok. Qed.

Lemma reserve_fids k f s r s' :
  reserve_new_fid k f s = (r, s') ∨ reserve_existing_fid k f s = (r, s') ∨
  reserve_shared_fid k f s = (r, s') → fids s' = fids s.
Proof.
  unfold reserve_new_fid, reserve_existing_fid, reserve_shared_fid.
  intros [E|[E|E]]; repeat case_match; by simplify_eq.
Qed.

Lemma retire_fids k f s st s' : retire_fid k f s = (Ok st, s') → fids s' = delete f (fids s).
Proof. unfold retire_fid. repeat case_match; by intros [= <- <-]. Qed.

(** Replaces the fid table of every intermediate session by that of the first. *)
Ltac same_fids :=
  repeat match goal with
  | E : reserve_new_fid _ _ _ = (Ok _, _) |- _ =>
      pose proof (proj1 (reserve_new_Ok _ _ _ _) E); apply (λ H, reserve_fids _ _ _ _ _ (or_introl H)) in E
  | E : reserve_existing_fid _ _ _ = _ |- _ =>
      apply (λ H, reserve_fids _ _ _ _ _ (or_intror (or_introl H))) in E
  | E : reserve_shared_fid _ _ _ = _ |- _ =>
      apply (λ H, reserve_fids _ _ _ _ _ (or_intror (or_intror H))) in E
  | E : retire_fid _ _ _ = _ |- _ => apply retire_fids in E
  | E : fid _ _ = Ok _ |- _ => apply fid_Ok in E
  end.

Lemma admit_fids m k s ev s' :
  admit_after_begin m k s = (Ok ev, s') → is_tflush m = false →
  ∃ kind, ev = dispatch k kind ∧ asks m kind ∧ fids s' = retired m (fids s) ∧ named_fids m (fids s).
Proof.
  intros E Hf. destruct m; cbn [admit_after_begin] in E; try done; run_ok; guards; same_fids;
    eexists; (split; [reflexivity|]); cbn [asks retired named_fids];
    (split; [done|]); split_and?; try congruence; try done; try (by eexists);
    intros; destruct_and?; congruence.
Qed.

Lemma spec_fids v msize tag m kind answer fs r fs' :
  asks m kind → named_fids m fs →
  spec_completion v msize tag (retired m fs) kind answer = Ok (r, fs') → fids_after m fs r fs'.
Proof.
  intros Ha Hn E. destruct m, kind; try done; cbn [asks named_fids retired fids_after] in *;
    destruct answer; cbn [spec_completion] in E; try done; inv_ok; destruct_and?; subst;
    try (by simplify_eq); try (simplify_eq; right; by eauto).
  - intros Hnew. assert (newfid ≠ fid) as Hne.
    { intros ->. match goal with H : is_Some _ |- _ => rewrite Hnew in H; by destruct H end. }
    case_bool_decide as Hw.
    + injection E as <- <-. left. eexists _, _, _. split_and!; [done|by subst|].
      by rewrite (proj2 (Z.eqb_neq _ _) Hne).
    + inv_ok. simplify_eq. destruct (Z.eqb_spec (vlen qids) (vlen wnames)) as [Hq|Hq].
      * left. by eexists _, _, _.
      * right. split; [done|]. by intros ? ? [= <- <-].
  - case_match; inv_ok; simplify_eq; [|by left]. right. eauto.
Qed.

Lemma refused_fids m fs tag e :
  (∀ f, m = TClunk (t_tag m) f ∨ m = TRemove (t_tag m) f → fs !! f = None) →
  fids_after m fs (error_reply tag e) fs.
Proof.
  intros Hc. destruct m; simpl; try done; try (by left); try (by right).
  - symmetry. apply delete_id. apply Hc. by left.
  - symmetry. apply delete_id. apply Hc. by right.
Qed.

Lemma failed_fids m fs tag e :
  fids_after m fs (error_reply tag e) (retired m fs).
Proof. destruct m; simpl; try done; try (by left); by right. Qed.

Section handle_fids.
Context {T : Type} `{FileTree T}.

(** For a session with nothing in flight, whatever the tree answers. *)
Lemma handle_fids m (srv : Server T) r srv' :
  idle (session srv) → negotiated (session srv) = true →
  next_generation (requests (session srv)) + 1 < u64_max →
  is_tversion m = false → is_tflush m = false → t_tag m ≠ NOTAG →
  handle m srv = (r, srv') → fids_after m (fids (session srv)) r (fids (session srv')).
Proof.
  intros Hid Hng Hg Hv Hf Ht. pose proof Hid as [[out HI] Hl].
  pose proof (inv_ok _ _ (proj1 HI)) as Hs. unfold handle.
  destruct (admit_message m (session srv)) as [ev s1] eqn:Ea. rewrite Hv.
  destruct (idle_admit _ _ _ _ Hid Hv Hg Ea) as [_ Hev].
  rewrite admit_request, Hng in Ea by done. simpl in Ea.
  destruct (on_requests _ (session srv)) as [[k|e] s0] eqn:Eb.
  2:{ exfalso. unfold on_requests, begin, is_live in Eb. rewrite Hl, lookup_empty in Eb.
      by rewrite (proj2 (Z.eqb_neq _ _) Ht) in Eb. }
  apply begin_begun in Eb as [Hb _].
  assert (fids s0 = fids (session srv)) as Hf0 by (by rewrite (bg_state _ _ _ Hb)).
  assert (reservations s0 = reservations (session srv)) as Hr0 by (by rewrite (bg_state _ _ _ Hb)).
  destruct (admit_after_begin m k s0) as [[ev'|e] s2] eqn:Eaa.
  - destruct (admit_fids _ _ _ _ _ Eaa Hf) as (kind & -> & Ha & Hfs & Hn). simplify_eq.
    rewrite Hf0 in *. destruct Hev as (out' & HI' & Hin & Hlive & _). unfold dispatch in *.
    destruct (perform_file_tree_request _ _) as [answer t2].
    rewrite (complete_spec _ _ _ _ HI' Hin), decide_True by done. rewrite Hfs.
    destruct answer as [a|e]; [|intros [= <- <-]; simpl; rewrite Hfs; apply failed_fids].
    destruct (spec_completion _ _ _ _ _ _) as [[r' fs']|e] eqn:E; intros [= <- <-]; simpl.
    + by eapply spec_fids.
    + rewrite Hfs. apply failed_fids.
  - pose proof (admit_refuses _ _ _ _ _ Eaa) as Hu.
    rewrite (refused_is_bump _ _ _ _ _ Hs Hb Hu) in Ea. simplify_eq. intros [= <- <-]. simpl.
    apply refused_fids. intros f Hm.
    assert (reservations s0 !! f = None) as Hres.
    { by rewrite Hr0, (quiet_reservations _ Hs Hl), lookup_empty. }
    assert (ensure_unreserved s0 f = Ok ()) as Hun by (unfold ensure_unreserved; by rewrite Hres).
    rewrite <- Hf0. destruct (fids s0 !! f) as [st|] eqn:E; [|done]. exfalso.
    destruct Hm as [Hm|Hm]; rewrite Hm in Eaa; cbn [admit_after_begin] in Eaa;
      unfold mbind, M_bind, retire_fid in Eaa; by rewrite Hun, E in Eaa.
Qed.

(** Reading an open directory at the offset where the last read ended. *)
Lemma handle_dir_read tag f offset count st mode stats data v t' (srv : Server T) :
  idle (session srv) → negotiated (session srv) = true →
  next_generation (requests (session srv)) + 1 < u64_max → tag ≠ NOTAG →
  s_variant (session srv) = Some v → for_each (validate_stat_variant v) stats = Ok () →
  fids (session srv) !! f = Some st → is_dir (fid_qid st) = true →
  open_mode st = Some mode → permits_read mode = true → directory_offset st = offset →
  let n := clamp_read_count (s_msize (session srv)) count in
  ft_read f (fid_qid st) offset n (tree srv) = (Ok (Directory stats), t') →
  dirread_chunk stats offset n = Ok data → 0 ≤ offset → offset + vlen data ≤ u64_max →
  ∃ s', handle (TRead tag f offset count) srv = (RRead tag data, Server_mk s' t') ∧
    fids s' = <[f := with_directory_offset st (offset + vlen data)]> (fids (session srv)) ∧
    same_dialect (session srv) s'.
Proof.
  intros Hid Hng Hg Ht Hv Hst Hf Hdir Hmode Hread Hoff n Hft Hchunk H0 Hmax.
  pose proof Hid as [[out HI] Hl]. pose proof (inv_ok _ _ (proj1 HI)) as Hs.
  assert (admit_message (TRead tag f offset count) (session srv) =
    let k := RequestKey_mk tag (next_generation (requests (session srv))) in
    let s1 := set_requests (RequestTable_mk
        (saturating_add u64_max (next_generation (requests (session srv))) 1) {[tag := k]}) (session srv) in
    (dispatch k (KRead f (fid_qid st) offset n),
     set_reservations {[f := FidReservations_mk (Some (FidReservation_mk k false)) ∅]} s1)) as Ea.
  { rewrite admit_request, Hng by done. simpl. unfold on_requests, begin, is_live.
    rewrite (proj2 (Z.eqb_neq _ _) Ht), Hl, lookup_empty. simpl.
    unfold mbind, M_bind, session_fid, fid, ensure_available. simpl.
    rewrite (quiet_reservations _ Hs Hl), lookup_empty. simpl. rewrite Hf. simpl.
    unfold lift, validate_read. rewrite Hmode. simpl. rewrite Hread. simpl. rewrite Hoff, Z.eqb_refl. simpl.
    rewrite andb_false_r. simpl. assert ((if is_auth (fid_qid st) then Ok () else Ok ()) = Ok ()) as -> by (by destruct (is_auth _)).
    rewrite Hdir.
    unfold reserve_existing_fid, entry_or_default. simpl.
    rewrite (quiet_reservations _ Hs Hl), lookup_empty, Hf. simpl. done. }
  cbv zeta in Ea.
  destruct (idle_admit (TRead tag f offset count) _ _ _ Hid eq_refl Hg Ea) as [_ Hev].
  unfold handle. rewrite Ea. unfold perform_file_tree_request, map_result. simpl.
  destruct Hev as (out' & HI' & Hin & Hlive & _). rewrite Hft. unfold dispatch in *. simpl.
  rewrite (complete_spec _ _ _ _ HI' Hin), decide_True by done. simpl. rewrite Hv. simpl.
  rewrite Hst. simpl. rewrite Hchunk. simpl. rewrite Hdir, Hf. simpl.
  pose proof (vlen_nonneg data).
  rewrite try_from_in by lia. simpl. unfold checked_add.
  rewrite (proj2 (Z.leb_le (offset + vlen data) u64_max)) by lia. simpl.
  eexists. split; [reflexivity|]. done.
Qed.

End handle_fids.

(** What the blocking client's loop and path functions guarantee whatever the
    server does ([crates/core/src/blocking.rs]). *)

(** ** Reading to the end *)

Section read_all_facts.
Context {W : Type} (read_at : Z → M W bytes).

Lemma read_all_turn_inl st st' :
  read_all_turn read_at st = inl st' →
  ∃ offset out w data w',
    st = (offset, out, w) ∧ st' = (offset + vlen data, out ++ data, w') ∧
    read_at offset w = (Ok data, w') ∧ data ≠ [] ∧ offset + vlen data ≤ u64_max.
Proof.
  destruct st as [[offset out] w]. unfold read_all_turn.
  destruct (read_at offset w) as [[data|e] w'] eqn:E; [|done]. case_bool_decide; [done|].
  destruct (_ ≫= _) as [o|e] eqn:Eo; [|done]. intros [= <-]. inv_ok.
  unfold checked_advance_offset in *. inv_ok. unfold checked_add in *.
  destruct (Z.leb_spec (offset + vlen data) u64_max); simplify_eq.
  by eexists _, _, _, _, _.
Qed.

Lemma read_all_turn_inr st r w' :
  0 ≤ st.1.1 → read_all_turn read_at st = inr (r, w') →
  ∃ offset out w x, st = (offset, out, w) ∧ read_at offset w = (x, w') ∧
    match x with
    | Err e => r = Err e
    | Ok data => (data = [] ∧ r = Ok out) ∨
                 (data ≠ [] ∧ u64_max < offset + vlen data ∧ ∃ e, r = Err e)
    end.
Proof.
  destruct st as [[offset out] w]. simpl. intros Ho.
  destruct (read_at offset w) as [[data|e] w1] eqn:E.
  2:{ intros [= <- <-]. by eexists _, _, _, _. }
  case_bool_decide as Hd.
  { intros [= <- <-]. eexists _, _, _, _. split_and!; [done..|by left]. }
  destruct (_ ≫= _) as [o|e] eqn:Eo; [done|]. intros [= <- <-].
  eexists _, _, _, _. split_and!; [done..|]. right. split_and!; [done| |by eexists].
  unfold checked_advance_offset, checked_add, ok_or in Eo. pose proof (vlen_nonneg data).
  destruct (Z.ltb_spec u64_max (offset + vlen data)); [lia|]. exfalso. revert Eo.
  rewrite try_from_in by lia. simpl. by rewrite (proj2 (Z.leb_le (offset + vlen data) u64_max)) by lia.
Qed.

(** The loop never runs out of turns. *)
Lemma read_all_with_total w : ∃ x, loop 64 (read_all_turn read_at) (0, [], w) = inr x.
Proof.
  destruct (loop _ _ _) as [[[o out] w']|x] eqn:E; [|by eexists]. exfalso.
  assert (0 + 2 ^ Z.of_nat 64 ≤ o) as Hlow.
  { apply (loop_progress (read_all_turn read_at) (λ _, True)
      (λ _ _ _ _, I) (λ st : Z * bytes * W, st.1.1) 64 (0, [], w) (o, out, w')); [|done..].
    intros st st' _ (? & ? & ? & data & ? & -> & -> & _ & Hd & _)%read_all_turn_inl. simpl.
    destruct data; [done|]. rewrite vlen_cons. pose proof (vlen_nonneg data). lia. }
  assert (o ≤ u64_max).
  { apply (loop_keeps (read_all_turn read_at) (λ st : Z * bytes * W, st.1.1 ≤ u64_max)) in E.
    - done.
    - intros st st' _ (? & ? & ? & data & ? & -> & -> & _ & _ & ?)%read_all_turn_inl. done.
    - done. }
  unfold u64_max in *. simpl Z.of_nat in *. lia.
Qed.

End read_all_facts.

(** A reader of a file, in states that [I offset] describes: an answer is what
    the file holds at the offset, and it is empty only at the end. *)
Definition reads_file {W} (I : Z → W → Prop) (content : bytes) (read_at : Z → M W bytes) : Prop :=
  ∀ offset w bs w', I offset w → read_at offset w = (Ok bs, w') →
    (∃ rest, zdrop offset content = bs ++ rest) ∧ (bs = [] → vlen content ≤ offset) ∧
    (bs ≠ [] → I (offset + vlen bs) w').

Lemma reads_file_step {W} I content (read_at : Z → M W bytes) offset w bs w' :
  reads_file I content read_at → I offset w → read_at offset w = (Ok bs, w') →
  0 ≤ offset ≤ vlen content →
  offset + vlen bs ≤ vlen content ∧ ztake offset content ++ bs = ztake (offset + vlen bs) content.
Proof.
  intros Hf Hi Er Ho. destruct (Hf _ _ _ _ Hi Er) as ([rest Hrest] & _ & _).
  pose proof (f_equal vlen Hrest) as Hv. rewrite vlen_zdrop, vlen_app in Hv by lia.
  pose proof (vlen_nonneg rest). split; [lia|].
  rewrite <- (ztake_zdrop offset content) at 2. rewrite Hrest, app_assoc.
  assert (vlen (ztake offset content ++ bs) = offset + vlen bs) as <-
    by (rewrite vlen_app, vlen_ztake by lia; lia).
  by rewrite ztake_app_vlen.
Qed.

Lemma read_all_with_file {W} I content (read_at : Z → M W bytes) w r w' :
  reads_file I content read_at → vlen content ≤ u64_max → I 0 w →
  read_all_with read_at w = (r, w') →
  (r = Ok content ∧ ∃ offset w1, I offset w1 ∧ read_at offset w1 = (Ok [], w')) ∨
  ∃ e offset w1, r = Err e ∧ I offset w1 ∧ read_at offset w1 = (Err e, w').
Proof.
  intros Hf Hlen Hi. unfold read_all_with.
  destruct (read_all_with_total read_at w) as [[r1 w1] E]. rewrite E. intros [= -> ->].
  apply (loop_exit (read_all_turn read_at)
    (λ st : Z * bytes * W, 0 ≤ st.1.1 ≤ vlen content ∧ st.1.2 = ztake st.1.1 content ∧ I st.1.1 st.2)
    (λ x : Result bytes * W, 
       (x.1 = Ok content ∧ ∃ offset w1, I offset w1 ∧ read_at offset w1 = (Ok [], x.2)) ∨
       ∃ e offset w1, x.1 = Err e ∧ I offset w1 ∧ read_at offset w1 = (Err e, x.2))) in E; [done| | |].
  - intros st st' (Ho & Hout & Hst) (offset & out & w0 & data & w2 & -> & -> & Er & Hd & _)%read_all_turn_inl.
    simpl in *. destruct (reads_file_step _ _ _ _ _ _ _ Hf Hst Er Ho) as [Hle Htake].
    pose proof (vlen_nonneg data). split_and!; [lia|done|by rewrite Hout|by eapply Hf].
  - intros st [r0 w0] (Ho & Hout & Hst) Et.
    destruct (read_all_turn_inr _ _ _ _ (proj1 Ho) Et) as (offset & out & w2 & x & -> & Er & Hx).
    simpl in *. destruct x as [data|e]; [|subst; right; by eexists _, _, _].
    destruct (reads_file_step _ _ _ _ _ _ _ Hf Hst Er Ho) as [Hle _].
    destruct (Hf _ _ _ _ Hst Er) as (_ & Hend & _).
    destruct Hx as [[-> ->]|(_ & Hbig & _)]; [|lia]. left. split; [|by eexists _, _].
    rewrite Hout. specialize (Hend eq_refl). f_equal. unfold ztake, vlen in *. rewrite take_ge; [done|lia].
  - simpl. pose proof (vlen_nonneg content). split_and!; [lia|done..].
Qed.

(** ** The connection

    The server reads a frame within its message size, answers it and writes the
    reply if it fits; otherwise it hangs up.  The client finds the replies in
    order.  (That bytes and messages correspond is [CodecProps] and [FrameIO].) *)
Record Loopback (T : Type) := Loopback_mk {
  lb_server : Server T;
  lb_replies : list RMessage;
  lb_open : bool;
}.
Arguments Loopback_mk {T} _ _ _.
Arguments lb_server {T} _.
Arguments lb_replies {T} _.
Arguments lb_open {T} _.

Definition lb_send {T} `{FileTree T} (msize : Z) (m : TMessage) : M (Loopback T) unit := λ l,
  match encode_tmessage_checked m msize with
  | Err e => (Err e, l)
  | Ok frame =>
      if negb (lb_open l) then (Err (from_static "write 9P request frame: broken pipe"), l)
      else if s_msize (session (lb_server l)) <? vlen frame
      then (Ok (), Loopback_mk (lb_server l) (lb_replies l) false)
      else
        let '(reply, srv) := handle m (lb_server l) in
        if is_ok (encode_rmessage_checked reply (s_msize (session srv)))
        then (Ok (), Loopback_mk srv (lb_replies l ++ [reply]) true)
        else (Ok (), Loopback_mk srv (lb_replies l) false)
  end.

Definition lb_recv {T} (msize : Z) : M (Loopback T) (option RMessage) := λ l,
  match lb_replies l with
  | [] => (Ok None, l)
  | r :: rs =>
      match encode_rmessage_checked r msize with
      | Ok _ => (Ok (Some r), Loopback_mk (lb_server l) rs (lb_open l))
      | Err e => (Err e, Loopback_mk (lb_server l) rs false)
      end
  end.

#[export] Instance Loopback_transport {T} `{FileTree T} : Transport (Loopback T) := {
  send_tmessage := lb_send;
  recv_rmessage := lb_recv;
}.

(** The result of a call, from the server's reply. *)
Definition result_of (r : RMessage) : Result Completion :=
  match response_of r with
  | ClientCompletion _ completion => Ok completion
  | ClientError _ ename => Err (Error_new ename)
  end.

Section loopback.
Context {T : Type} `{FileTree T} `{DebugText}.
Abbreviation B := (Blocking (Loopback T)).

Definition closed (b : B) : Prop := lb_open (b_stream b) = false.

(** ** One call *)

(** The two ends of a connection that can take [n] more calls. *)
Record wired (n : Z) (b : B) (srv : Server T) : Prop := {
  wired_stream : b_stream b = Loopback_mk srv [] true;
  wired_msize : c_msize (protocol b) = s_msize (session srv);
  wired_size : MIN_MSIZE ≤ s_msize (session srv) ≤ u32_max;
  wired_idle : idle (session srv);
  wired_negotiated : negotiated (session srv) = true;
  wired_gen : 0 ≤ n ∧ next_generation (requests (session srv)) + 2 * n < u64_max;
  wired_flush : flush_targets (protocol b) = ∅;
  wired_tag : is_u16 (next_tag (protocol b));
}.

(** Between calls nothing is pending; during a call its tag is. *)
Definition ready (n : Z) (b : B) (srv : Server T) : Prop :=
  wired n b srv ∧ live (pending (protocol b)) = ∅.
Definition issued (n tag : Z) (b : B) (srv : Server T) : Prop :=
  wired n b srv ∧ tag ≠ NOTAG ∧ ∃ k, live (pending (protocol b)) = {[tag := k]}.

(** Once the server has hung up every call fails. *)
Lemma closed_call m b : closed b → closed (call_message m b).2.
Proof.
  intros Hc. unfold call_message, attempt, on_stream, mbind, M_bind, get. simpl. unfold lb_send.
  destruct (encode_tmessage_checked _ _); simpl; [by rewrite Hc|done].
Qed.

Lemma closed_call_op op b : closed b → closed (call_op op b).2.
Proof.
  intros Hc. apply (closed_call (op_message op)) in Hc. unfold call_op, mbind, M_bind.
  destruct (call_message _ b) as [[[tag c|tag e]|e] b1]; simpl in *; [by destruct (tag =? _)..|done].
Qed.

Lemma call_op_result m fo (b : B) reply (b' : B) :
  call_message m b = (Ok (response_of reply), b') →
  call_op (Op_mk (r_tag reply) fo m) b = (result_of reply, b').
Proof.
  intros E. unfold call_op, mbind, M_bind. simpl. rewrite E. unfold result_of.
  destruct reply; simpl; by rewrite Z.eqb_refl.
Qed.

Lemma abandon_issued n tag b srv :
  issued n tag b srv → ready n (on_protocol (modify (abandon tag)) b).2 srv.
Proof.
  intros ([] & Hn & k & Hl). unfold on_protocol, modify, abandon. simpl.
  rewrite (proj2 (Z.eqb_neq _ _) Hn). split; [split|]; simpl; try done.
  - rewrite wired_flush0. apply delete_empty.
  - rewrite flush_live by done. rewrite Hl. apply delete_singleton_eq.
Qed.

(** The server hangs up because its reply does not fit. *)
Definition hung_up (m : TMessage) (srv : Server T) (b' : B) : Prop :=
  closed b' ∧ ∃ e, encode_rmessage_checked (handle m srv).1 (s_msize (session srv)) = Err e.

(** A call is refused locally, or the server handles it and its reply is the
    result, or the server hangs up. *)
Lemma call_message_loopback n tag m b srv r b' :
  issued (n + 1) tag b srv → 0 ≤ n → t_tag m = tag → is_tversion m = false →
  call_message m b = (r, b') →
  (∃ e, encode_tmessage_checked m (s_msize (session srv)) = Err e ∧ r = Err e ∧ ready (n + 1) b' srv ∧
        next_fid (protocol b') = next_fid (protocol b)) ∨
  (∃ reply srv', handle m srv = (reply, srv') ∧ r = Ok (response_of reply) ∧ r_tag reply = tag ∧
        ready n b' srv' ∧ next_fid (protocol b') = next_fid (protocol b)) ∨
  hung_up m srv b'.
Proof.
  intros Hi Hn0 Ht Hv. pose proof Hi as ([Hst Hms Hsz Hid Hng [_ Hg] Hfl Htag] & Hn & k & Hl).
  unfold call_message, attempt, on_stream at 1, mbind, M_bind, get. simpl. rewrite Hst, Hms.
  unfold lb_send. destruct (encode_tmessage_checked m _) as [f|e] eqn:Ee.
  2:{ simpl. intros [= <- <-]. left. exists e. split_and!; [done..| |by rewrite Ht; unfold abandon; case_match].
      rewrite Ht. destruct b as [st pr v rf rq]; simpl in *. subst st. exact (abandon_issued _ _ _ _ Hi). }
  unfold encode_tmessage_checked in Ee. apply Result_bind_Ok in Ee as (g & _ & (-> & Hle & _)%check_msize_Ok).
  simpl. rewrite (proj2 (Z.ltb_ge _ _)) by done.
  destruct (handle m srv) as [reply srv'] eqn:Eh.
  destruct (handle_idle _ _ _ _ Hid ltac:(lia) Eh) as (Hrt & Hid' & Hgen).
  destruct (handle_acceptable _ _ _ _ Hid Hv ltac:(lia) Eh) as [Hacc Hd].
  rewrite (dialect_msize _ _ Hd).
  destruct (encode_rmessage_checked reply _) as [fr|e] eqn:Er; simpl.
  2:{ unfold read_response, on_stream, mbind, M_bind, get. simpl. intros [= <- <-].
      right; right. split; [done|]. rewrite Eh. by eexists. }
  unfold read_response, on_stream, mbind, M_bind, get. simpl. rewrite Hms. unfold lb_recv. simpl.
  rewrite Er. simpl. unfold map_err, on_protocol. simpl. rewrite <- Hms in Hacc.
  destruct (receive_acceptable reply (protocol b) k) as (c' & Hrec & _ & (Hm' & Hf' & Ht') & Hfl');
    [done|congruence|by rewrite Hrt, Ht, Hl, lookup_singleton_eq|].
  destruct (Hfl' Hfl) as [Hl' Hflush]. rewrite Hrec. intros [= <- <-]. right; left.
  exists reply, srv'. split_and!; [done..|congruence| |done].
  split; [split; simpl|].
  - done.
  - by rewrite Hm', Hms, (dialect_msize _ _ Hd).
  - by rewrite (dialect_msize _ _ Hd).
  - done.
  - by rewrite (proj1 (same_dialect_keeps _ _ Hd)).
  - lia.
  - done.
  - by rewrite Ht'.
  - simpl. rewrite Hl', Hl, Hrt, Ht. apply delete_singleton_eq.
Qed.

Lemma alloc_tag_idle c :
  is_u16 (next_tag c) → live (pending c) = ∅ → ∃ tag c', alloc_tag c = (Ok tag, c').
Proof.
  intros Hn Hl. unfold alloc_tag.
  destruct (alloc_tag_loop_spec (Z.to_nat u16_max) c Hn) as [(i & k & c' & _ & _ & _ & _ & E & _)|[Hall _]].
  { rewrite E. by eexists _, _. }
  exfalso. assert (∀ i, (i < 2)%nat → turn_tag c i = NOTAG) as Hno.
  { intros i Hi. destruct (decide (turn_tag c i = NOTAG)) as [|Hne]; [done|].
    destruct (Hall i ltac:(unfold u16_max; lia)). split; [done|]. by rewrite Hl, lookup_empty. }
  pose proof (Hno 0%nat ltac:(lia)) as H0'. pose proof (Hno 1%nat ltac:(lia)) as H1'.
  unfold turn_tag, NOTAG, u16_max in *. simpl Z.of_nat in *. change (65535 + 1) with 65536 in *.
  pose proof (Z.div_mod (next_tag c + 0) 65536 ltac:(lia)).
  pose proof (Z.div_mod (next_tag c + 1) 65536 ltac:(lia)). unfold in_range in *. lia.
Qed.

(** Issuing a request that needs no new fid, and one that does. *)
Lemma issue_tag n b srv :
  ready n b srv →
  ∃ tag c, alloc_tag (protocol b) = (Ok tag, c) ∧
    next_fid c = next_fid (protocol b) ∧
    ∀ f, issued n tag (Blocking_mk (b_stream b) (set_next_fid f c) (b_variant b) (root_fid b) (root_qid b)) srv.
Proof.
  intros [[] Hl]. destruct (alloc_tag_idle (protocol b)) as (tag & c & E); [done..|].
  exists tag, c. apply alloc_tag_Ok in E as E'; [|done].
  destruct E' as (_ & [Hne _] & Ht & Hl' & _ & Hm & _ & _ & Hf & Hfl). split_and!; [done..|].
  intros f. split; [split; simpl; try done; congruence|]. split; [done|].
  eexists. simpl. rewrite Hl', Hl. reflexivity.
Qed.

Definition fid_now (b : B) : Z := next_fid (protocol b).

(** A request that is issued and called. *)
Definition ask (m : M Client Op) : M B Completion := op ← request m; call_op op.

Definition issues (m : M Client Op) (mk : Z → TMessage) : Prop :=
  ∃ fo, m = (tag ← alloc_tag; mret (Op_mk tag fo (mk tag))).

Definition asked (n tag : Z) (m : TMessage) (next : Z) (srv : Server T) (r : Result Completion)
    (b' : B) : Prop :=
  (∃ e, encode_tmessage_checked m (s_msize (session srv)) = Err e ∧ r = Err e ∧
        ready (n + 1) b' srv ∧ fid_now b' = next) ∨
  (∃ reply srv', handle m srv = (reply, srv') ∧ r = result_of reply ∧ r_tag reply = tag ∧
        ready n b' srv' ∧ fid_now b' = next) ∨
  hung_up m srv b'.

Lemma call_op_loopback n tag fo m b srv r b' :
  issued (n + 1) tag b srv → 0 ≤ n → t_tag m = tag → is_tversion m = false →
  call_op (Op_mk tag fo m) b = (r, b') → asked n tag m (fid_now b) srv r b'.
Proof.
  intros Hi Hn Ht Hv E. destruct (call_message m b) as [r1 b1] eqn:Em.
  destruct (call_message_loopback _ _ _ _ _ _ _ Hi Hn Ht Hv Em)
    as [(e & Hu & -> & Hr & Hf)|[(reply & srv' & Hh & -> & Hrt & Hr & Hf)|Hc]].
  - left. exists e. revert E. unfold call_op, mbind, M_bind. simpl. rewrite Em. intros [= <- <-].
    by split_and!.
  - right; left. exists reply, srv'. rewrite <- Hrt in E. rewrite (call_op_result _ _ _ _ _ Em) in E.
    simplify_eq. by split_and!.
  - right; right. destruct Hc as [Hc He]. split; [|done]. revert E. unfold call_op, mbind, M_bind. simpl.
    rewrite Em. destruct r1 as [[t c|t e]|e]; simpl; [destruct (t =? tag)..|]; by intros [= <- <-].
Qed.

Lemma ask_loopback n m mk b srv r b' :
  issues m mk → ready (n + 1) b srv → 0 ≤ n →
  (∀ tag, t_tag (mk tag) = tag ∧ is_tversion (mk tag) = false) →
  ask m b = (r, b') → ∃ tag, tag ≠ NOTAG ∧ asked n tag (mk tag) (fid_now b) srv r b'.
Proof.
  intros [fo ->] Hr Hn Hmk. destruct (issue_tag _ _ _ Hr) as (tag & c & Ea & Hf & Hi).
  unfold ask, request, map_err, on_protocol, mbind, M_bind. rewrite Ea. simpl. intros E.
  specialize (Hi (next_fid c)). assert (set_next_fid (next_fid c) c = c) as Hc by (by destruct c).
  rewrite Hc in Hi. destruct (Hmk tag) as [Ht Hv]. exists tag. split; [by apply Hi|].
  unfold fid_now. rewrite <- Hf. by eapply (call_op_loopback _ _ _ _ _ _ _ _ Hi).
Qed.

(** ** A program logic on the server's fid table

    [triple n P m Q]: the client computation [m] makes at most [n] calls; from a
    connection whose fid table satisfies [P] it ends, with result [r], on one
    whose table satisfies [Q r], or the server has hung up. *)

(** The fids in use lie below the client's counter, which has room for [n] more. *)
Definition roomy (n : Z) (b : B) (srv : Server T) : Prop :=
  (∀ f, is_Some (fids (session srv) !! f) → f < fid_now b) ∧ 0 ≤ fid_now b ∧ fid_now b + n < NOFID.

Definition connected (n : nat) (P : gmap Z FidState → Prop) (b : B) : Prop :=
  closed b ∨
  ∃ srv, ready (Z.of_nat n) b srv ∧ roomy (Z.of_nat n) b srv ∧ P (fids (session srv)).

Definition triple {A} (n : nat) (P : gmap Z FidState → Prop) (m : M B A)
    (Q : Result A → gmap Z FidState → Prop) : Prop :=
  (∀ b, closed b → closed (m b).2) ∧
  ∀ k b, connected (n + k) P b → connected k (Q (m b).1) (m b).2.

Lemma ready_le n n' b srv : ready n b srv → 0 ≤ n' ≤ n → ready n' b srv.
Proof. intros [[] Hl] Hn. split; [|done]. split; try done. lia. Qed.

Lemma connected_weaken n n' P P' b :
  connected n P b → (n' ≤ n)%nat → (∀ fs, P fs → P' fs) → connected n' P' b.
Proof.
  intros [Hc|(srv & Hr & (Hf & H0' & H1') & Hp)] Hn HP; [by left|]. right. exists srv.
  split_and!; [eapply ready_le; [exact Hr|lia]| |by apply HP]. split_and!; [done..|lia].
Qed.

Lemma triple_conseq {A} n n' P P' (m : M B A) Q Q' :
  triple n P m Q → (n ≤ n')%nat → (∀ fs, P' fs → P fs) → (∀ r fs, Q r fs → Q' r fs) →
  triple n' P' m Q'.
Proof.
  intros [Hs Ht] Hn HP HQ. split; [done|]. intros k b Hc.
  eapply connected_weaken; [|done|apply HQ]. apply Ht. eapply connected_weaken; [done|lia|done].
Qed.

Lemma triple_ext {A} n P (m m' : M B A) Q : (∀ b, m b = m' b) → triple n P m Q → triple n P m' Q.
Proof.
  intros E [Hs Ht]. split; [intros b; rewrite <- E; apply Hs|]. intros k b. rewrite <- E. apply Ht.
Qed.

Lemma triple_bind {A A'} n1 n2 P (m : M B A) Q (f : A → M B A') R :
  triple n1 P m Q → (∀ a, triple n2 (Q (Ok a)) (f a) R) → (∀ e fs, Q (Err e) fs → R (Err e) fs) →
  triple (n1 + n2) P (m ≫= f) R.
Proof.
  intros [Hs Hm] Hf He. unfold mbind, M_bind. split.
  - intros b Hc. specialize (Hs _ Hc). destruct (m b) as [[a|e] b1]; [by apply Hf|done].
  - intros k b Hc. rewrite <- Nat.add_assoc in Hc. specialize (Hm _ _ Hc).
    destruct (m b) as [[a|e] b1]; simpl in *; [by apply Hf|].
    eapply connected_weaken; [done|lia|apply He].
Qed.

Lemma triple_attempt {A} n P (m : M B A) Q :
  triple n P m Q → triple n P (attempt m) (λ r fs, ∃ x, r = Ok x ∧ Q x fs).
Proof.
  intros [Hs Hm]. unfold attempt. split.
  - intros b Hc. specialize (Hs _ Hc). by destruct (m b).
  - intros k b Hc. specialize (Hm _ _ Hc). destruct (m b) as [r b1]. simpl in *.
    eapply connected_weaken; [done..|]. by eexists.
Qed.

Lemma triple_lift {A} n P (r : Result A) Q :
  (∀ fs, P fs → Q r fs) → triple n P (lift r) Q.
Proof.
  intros HP. split; [done|]. intros k b Hc. eapply connected_weaken; [exact Hc|lia|exact HP].
Qed.

Lemma triple_get {A} n P (f : B → M B A) Q :
  (∀ b, triple n P (f b) Q) → triple n P (get ≫= f) Q.
Proof. intros Hf. split; [intros b; apply (Hf b)|]. intros k b Hc. by apply Hf. Qed.

(** [lift r ≫= f] once [r] is known. *)
Lemma triple_lift_bind {A A'} n P (r : Result A) (f : A → M B A') Q :
  match r with Ok a => triple n P (f a) Q | Err e => ∀ fs, P fs → Q (Err e) fs end →
  triple n P (lift r ≫= f) Q.
Proof.
  destruct r as [a|e]; intros Ht; [exact (triple_ext _ _ (f a) _ _ (λ b, eq_refl) Ht)|].
  by apply (triple_ext _ _ (lift (Err e)) _ _ (λ b, eq_refl)), triple_lift.
Qed.

(** A fact about the program's values that the precondition records. *)
Lemma triple_pure {A} n (φ : Prop) P P' (m : M B A) Q Q' :
  triple n P' m Q' → (φ → triple n P m Q) → triple n (λ fs, φ ∧ P fs) m Q.
Proof.
  intros [Hs _] Ht. split; [done|]. intros k b [Hc|(srv & Hr & Hroom & Hφ & Hp)]; [left; by apply Hs|].
  apply (Ht Hφ). right. by exists srv.
Qed.

(** It is enough to start from each table that satisfies the precondition. *)
Lemma triple_exact {A} n P (m : M B A) Q :
  (∀ fs0, triple n (λ fs, fs = fs0) m (λ r fs, P fs0 → Q r fs)) → triple n P m Q.
Proof.
  intros Ht. split; [apply (Ht ∅)|]. intros k b [Hc|(srv & Hr & Hroom & Hp)].
  - left. by apply (Ht ∅).
  - apply (connected_weaken k k (λ fs, P (fids (session srv)) → Q (m b).1 fs)); [|done|auto].
    apply (Ht (fids (session srv))). right. by exists srv.
Qed.

(** Every call sees one message of the server handled. *)
Lemma asked_connected n tag m (b b' : B) srv r P (Q : Result Completion → gmap Z FidState → Prop) :
  ready (Z.of_nat (S n)) b srv → P (fids (session srv)) → asked (Z.of_nat n) tag m (fid_now b') srv r b' →
  t_tag m = tag → tag ≠ NOTAG → is_tversion m = false → is_tflush m = false →
  roomy (Z.of_nat n) b' srv →
  (∀ e fs, encode_tmessage_checked m (s_msize (session srv)) = Err e → P fs → Q (Err e) fs) →
  (∀ fs reply fs', P fs → fids_after m fs reply fs' → Q (result_of reply) fs') →
  (∀ fs reply fs' f, P fs → fids_after m fs reply fs' → is_Some (fs' !! f) →
     is_Some (fs !! f) ∨ f < fid_now b') →
  connected n (Q r) b'.
Proof.
  intros [[] _] Hp Ha Ht Hne Hv Hf (Hfids & H0' & Hroom) Hunsent Hsent Hdom.
  destruct Ha as [(e & He & -> & Hr & _)|[(reply & srv' & Hh & -> & Hrt & Hr & _)|[Hc _]]]; [..|by left].
  - right. exists srv. split_and!; [eapply ready_le; [exact Hr|lia]|done|by eapply Hunsent].
  - right. exists srv'.
    pose proof (handle_fids _ _ _ _ wired_idle0 wired_negotiated0 ltac:(lia) Hv Hf
      ltac:(congruence) Hh) as Hafter.
    split_and!; [done| |by eapply Hsent]. split_and!; [|done..].
    intros f Hsome. destruct (Hdom _ _ _ f Hp Hafter Hsome); auto.
Qed.

Lemma request_stream m (b : B) r b' : request m b = (r, b') → b_stream b' = b_stream b.
Proof. unfold request, map_err, on_protocol. destruct (m (protocol b)) as [[] c]; by intros [= <- <-]. Qed.

Lemma closed_ask m b : closed b → closed (ask m b).2.
Proof.
  intros Hc. unfold ask, mbind, M_bind. destruct (request m b) as [[op|e] b1] eqn:E;
    apply request_stream in E; [apply closed_call_op|]; unfold closed; simpl; by rewrite E.
Qed.

(** A message that binds no new fid. *)
Definition binds_nothing (m : TMessage) : bool :=
  match m with
  | TVersion _ _ _ | TFlush _ _ | TWalk _ _ _ _ | TAuth _ _ _ _ | TAttach _ _ _ _ _ => false
  | _ => true
  end.

Lemma binds_nothing_dom m fs reply fs' f :
  binds_nothing m = true → fids_after m fs reply fs' → is_Some (fs' !! f) → is_Some (fs !! f).
Proof.
  intros Hb Ha. destruct m; try done; simpl in Ha; subst; try done;
    try (rewrite lookup_delete_is_Some; naive_solver);
    destruct Ha as [->|[Hs [st ->]]]; try done; rewrite lookup_insert_is_Some'; naive_solver.
Qed.

Lemma triple_ask m mk P Q :
  issues m mk → (∀ tag, t_tag (mk tag) = tag ∧ binds_nothing (mk tag) = true) →
  (∀ tag msize e fs, MIN_MSIZE ≤ msize ≤ u32_max → encode_tmessage_checked (mk tag) msize = Err e →
     P fs → Q (Err e) fs) →
  (∀ tag fs reply fs', P fs → fids_after (mk tag) fs reply fs' → Q (result_of reply) fs') →
  triple 1 P (ask m) Q.
Proof.
  intros Hi Hmk Hunsent Hsent. split; [apply closed_ask|].
  intros n b [Hc|(srv & Hr & Hroom & Hp)]; [left; by apply closed_ask|].
  assert (∀ tag, t_tag (mk tag) = tag ∧ is_tversion (mk tag) = false ∧ is_tflush (mk tag) = false) as Hmk'.
  { intros tag. destruct (Hmk tag) as [Ht Hb]. by destruct (mk tag). }
  destruct (ask m b) as [r b'] eqn:E.
  assert (1 + n = S n)%nat as Hn by lia. rewrite Hn in *.
  destruct (ask_loopback (Z.of_nat n) m mk b srv r b' Hi) as (tag & Hne & Ha); try done; [|lia| |].
  { by replace (Z.of_nat n + 1) with (Z.of_nat (S n)) by lia. }
  { intros tag. by destruct (Hmk' tag) as (? & ? & ?). }
  destruct (Hmk' tag) as (Ht & Hv & Hf). simpl.
  assert (closed b' ∨ fid_now b' = fid_now b) as [?|Hnow].
  { destruct Ha as [(e & _ & _ & _ & ?)|[(reply & srv' & _ & _ & _ & _ & ?)|[? _]]]; auto. }
  { by left. }
  rewrite <- Hnow in Ha. pose proof Hroom as (Hr1 & Hr2 & Hr3). rewrite <- Hnow in Hr1, Hr2, Hr3.
  eapply (asked_connected n tag (mk tag) b b' srv r P Q Hr Hp Ha); try done.
  - by split_and!; [..|lia].
  - intros e fs He Hpf. eapply Hunsent; [|done..]. by apply Hr.
  - intros fs reply fs'. apply Hsent.
  - intros fs reply fs' f _ Hfa Hs. left. eapply binds_nothing_dom; [|done..]. by destruct (Hmk tag).
Qed.

(** ** The calls *)

Lemma triple_ask_then {A} n P m (K : Completion → M B A) Q :
  triple n P (reply ← ask m; K reply) Q → triple n P (op ← request m; reply ← call_op op; K reply) Q.
Proof.
  apply triple_ext. intros b. unfold ask, mbind, M_bind. by destruct (request m b) as [[op|e] b1].
Qed.

Lemma small_request_encodes m msize e :
  tbody_ok m → vlen (tbody m) ≤ 16 → MIN_MSIZE ≤ msize ≤ u32_max →
  encode_tmessage_checked m msize ≠ Err e.
Proof.
  intros Hok Hle Hm. unfold encode_tmessage_checked, MIN_MSIZE, u32_max in *.
  pose proof (vlen_nonneg (tbody m)).
  rewrite (proj2 (encode_tmessage_Ok m _)) by (split_and!; [done|vlia|done]). simpl.
  by rewrite (proj2 (check_msize_Ok _ _ _)) by (rewrite vlen_frame_of; split_and!; [done|vlia|vlia]).
Qed.

(** Whatever happens, a clunk leaves the fid unbound. *)
Lemma triple_clunk f P : triple 1 P (clunk f) (λ _ fs, ∃ fs0, P fs0 ∧ fs = delete f fs0).
Proof.
  apply triple_ask_then. eapply (triple_bind 1 0).
  - eapply (triple_ask _ (λ tag, TClunk tag f)); [by eexists|done| |].
    + intros tag msize e fs Hm He _. exfalso. by eapply small_request_encodes in He.
    + intros tag fs reply fs' Hp Ha. cbn in Ha. instantiate (1 := λ _ fs', ∃ fs0, P fs0 ∧ fs' = delete f fs0).
      by exists fs.
  - intros a. destruct a; by apply triple_lift.
  - done.
Qed.

(** A table that differs from [fs0] by one new fid. *)
Definition bound_at (f : Z) (fs0 fs : gmap Z FidState) : Prop :=
  fs0 !! f = None ∧ ∃ st, fs = <[f := st]> fs0.

Lemma bound_at_delete f fs0 fs : bound_at f fs0 fs → delete f fs = fs0.
Proof. intros [Hn [st ->]]. by rewrite delete_insert_id. Qed.

Lemma bound_at_update f fs0 fs st : bound_at f fs0 fs → bound_at f fs0 (<[f := st]> fs).
Proof. intros [Hn [st' ->]]. split; [done|]. exists st. by rewrite insert_insert_eq. Qed.

(** Issuing a walk takes the client's next fid, which the server has not bound. *)
Lemma issue_walk n b srv fid names :
  ready n b srv → roomy n b srv → 0 < n →
  ∃ tag b1, request (client_walk fid names) b =
      (Ok (Op_mk tag (Some (fid_now b)) (TWalk tag fid (fid_now b) names)), b1) ∧
    issued n tag b1 srv ∧ fid_now b1 = fid_now b + 1.
Proof.
  intros Hr (_ & H0' & Hn) Hpos. destruct (issue_tag _ _ _ Hr) as (tag & c & Ea & Hf & Hi).
  specialize (Hi (next_fid c + 1)). exists tag. eexists. split; [|split; [exact Hi|]].
  - unfold request, map_err, on_protocol, client_walk, mbind, M_bind. rewrite Ea. simpl.
    unfold alloc_fid. unfold fid_now in *. rewrite Hf. simpl.
    assert (wrapping_add u32_max (next_fid (protocol b)) 1 = next_fid (protocol b) + 1) as ->.
    { unfold wrapping_add. apply Z.mod_small. unfold NOFID, u32_max in *. lia. }
    by rewrite (proj2 (Z.eqb_neq _ _)) by (unfold NOFID in *; lia).
  - unfold fid_now. simpl. by rewrite Hf.
Qed.

Lemma walk_answers fs0 newfid tag fid names reply fs' :
  fs0 !! newfid = None → fids_after (TWalk tag fid newfid names) fs0 reply fs' →
  match result_of reply with
  | Ok (CompWalk qids) => if vlen qids =? vlen names then bound_at newfid fs0 fs' else fs' = fs0
  | _ => fs' = fs0
  end.
Proof.
  intros Hn Ha. destruct (Ha Hn) as [(t & qids & st & -> & Hq & ->)|[-> Hno]].
  - simpl. rewrite (proj2 (Z.eqb_eq _ _) Hq). split; [done|by eexists].
  - destruct reply; simpl; try done. by rewrite (proj2 (Z.eqb_neq _ _) (Hno _ _ eq_refl)).
Qed.

(** Both failing branches of [walk_short] clunk a fid that is not bound. *)
Lemma clunk_unbound newfid fs0 :
  fs0 !! newfid = None →
  triple 1 (λ fs, fs = fs0) (attempt (clunk newfid)) (λ _ fs, fs = fs0).
Proof.
  intros Hn. eapply triple_conseq; [apply triple_attempt, (triple_clunk newfid (λ fs, fs = fs0))|done|done|].
  intros r fs (x & _ & fs1 & -> & ->). by apply delete_id.
Qed.

Definition walked_to (fs0 : gmap Z FidState) (r : Result (Z + Z)) (fs : gmap Z FidState) : Prop :=
  match r with Ok (inl newfid) => bound_at newfid fs0 fs | _ => fs = fs0 end.

Lemma triple_walk_reply newfid (names : list bytes) reply fs0 :
  fs0 !! newfid = None →
  triple 1 (λ fs, match reply with
                  | CompWalk qids => if vlen qids =? vlen names then bound_at newfid fs0 fs else fs = fs0
                  | _ => fs = fs0
                  end)
    (match reply with
     | CompWalk qids =>
         if vlen qids =? vlen names then mret (inl newfid)
         else _ ← attempt (clunk newfid); mret (inr (vlen qids))
     | other => _ ← attempt (clunk newfid); not_expected "Rwalk" other
     end) (walked_to fs0).
Proof.
  intros Hn.
  assert (∀ r : Result (Z + Z), (∀ nf, r ≠ Ok (inl nf)) →
    triple 1 (λ fs, fs = fs0) (_ ← attempt (clunk newfid); lift r) (walked_to fs0)) as Hfail.
  { intros r Hr. eapply (triple_bind 1 0); [by apply clunk_unbound| |by intros e fs Hfs; exact Hfs].
    intros x. apply triple_lift. intros fs ->. destruct r as [[nf|]|]; try done. by destruct (Hr nf). }
  destruct reply; try (by apply (Hfail (Err _))). destruct (vlen qids =? vlen names).
  - by apply (triple_lift _ _ (Ok (inl newfid))).
  - by apply (Hfail (Ok (inr _))).
Qed.

(** The call of a walk, with the fid it asked for. *)
Definition ask_walk (fid : Z) (names : list bytes) : M B (Z * Completion) :=
  op ← request (client_walk fid names);
  newfid ← lift (op_fid op);
  reply ← call_op op;
  mret (newfid, reply).

Definition walk_replied (names : list bytes) (fs0 : gmap Z FidState) (r : Result (Z * Completion))
    (fs : gmap Z FidState) : Prop :=
  match r with
  | Ok (newfid, reply) =>
      fs0 !! newfid = None ∧
      match reply with
      | CompWalk qids => if vlen qids =? vlen names then bound_at newfid fs0 fs else fs = fs0
      | _ => fs = fs0
      end
  | Err _ => fs = fs0
  end.

Lemma closed_ask_walk fid names b : closed b → closed (ask_walk fid names b).2.
Proof.
  intros Hc. unfold ask_walk, mbind, M_bind. destruct (request _ b) as [[op|e] b1] eqn:E;
    apply request_stream in E; [|unfold closed; simpl; by rewrite E].
  assert (closed b1) as Hc1 by (unfold closed; by rewrite E). simpl.
  destruct (op_fid op); simpl; [|done]. apply (closed_call_op op) in Hc1.
  by destruct (call_op op b1) as [[] b2].
Qed.

Lemma triple_ask_walk fid names fs0 :
  triple 1 (λ fs, fs = fs0) (ask_walk fid names) (walk_replied names fs0).
Proof.
  split; [apply closed_ask_walk|].
  intros n b [Hc|(srv & Hr & Hroom & Hp)]; [by left; apply closed_ask_walk|].
  assert (Z.of_nat (1 + n) = Z.of_nat n + 1) as Hn by lia. rewrite Hn in *.
  destruct (issue_walk _ _ _ fid names Hr Hroom ltac:(lia)) as (tag & b1 & Eq & Hi & Hnow).
  pose proof Hroom as (Hlt & H0' & Hmax).
  assert (fs0 !! fid_now b = None) as Hfree.
  { destruct (fs0 !! fid_now b) eqn:E; [|done].
    specialize (Hlt (fid_now b)). rewrite Hp, E in Hlt. specialize (Hlt ltac:(by eexists)). lia. }
  set (m := TWalk tag fid (fid_now b) names) in *. set (op := Op_mk tag (Some (fid_now b)) m) in *.
  destruct (call_op op b1) as [r b2] eqn:Ec.
  pose proof (call_op_loopback (Z.of_nat n) _ _ m _ _ _ _ Hi ltac:(lia) eq_refl eq_refl Ec) as Ha.
  assert (ask_walk fid names b = (reply ← lift r; mret (fid_now b, reply)) b2) as ->.
  { unfold ask_walk, mbind, M_bind. rewrite Eq. simpl. fold op. rewrite Ec. by destruct r. }
  assert (connected n (λ fs, match r with
            | Ok reply => walk_replied names fs0 (Ok (fid_now b, reply)) fs
            | Err _ => fs = fs0 end) b2) as Hconn.
  { assert (closed b2 ∨ fid_now b2 = fid_now b1) as [?|Hnow2].
    { destruct Ha as [(e & _ & _ & _ & ?)|[(reply & srv' & _ & _ & _ & _ & ?)|[? _]]]; auto. }
    { by left. }
    rewrite <- Hnow2 in Ha.
    apply (asked_connected n tag m b b2 srv r (λ fs, fs = fs0)
      (λ r fs, match r with
            | Ok reply => walk_replied names fs0 (Ok (fid_now b, reply)) fs
            | Err _ => fs = fs0 end)); try done.
    - by replace (Z.of_nat (S n)) with (Z.of_nat n + 1) by lia.
    - by destruct Hi as (_ & ? & _).
    - split_and!; [|lia..]. intros f Hf. specialize (Hlt f Hf). lia.
    - intros fs reply fs' -> Hfa. pose proof (walk_answers _ _ _ _ _ _ _ Hfree Hfa) as Hw.
      destruct (result_of reply); [|done]. by split.
    - intros fs reply fs' f -> Hfa Hs. destruct (decide (f = fid_now b)) as [->|Hne]; [lia|]. left.
      pose proof (walk_answers _ _ _ _ _ _ _ Hfree Hfa) as Hw.
      assert (fs' = fs0 ∨ bound_at (fid_now b) fs0 fs') as [->|[_ [st ->]]] by (repeat case_match; auto).
      + done.
      + by rewrite lookup_insert_ne in Hs. }
  by destruct r as [reply|e].
Qed.

Lemma triple_walk_short fid names fs0 :
  triple 2 (λ fs, fs = fs0) (walk_short fid names) (walked_to fs0).
Proof.
  apply (triple_ext _ _ ('(newfid, reply) ← ask_walk fid names;
     match reply with
     | CompWalk qids =>
         if vlen qids =? vlen names then mret (inl newfid)
         else _ ← attempt (clunk newfid); mret (inr (vlen qids))
     | other => _ ← attempt (clunk newfid); not_expected "Rwalk" other
     end)).
  { intros b. unfold walk_short, ask_walk, mbind, M_bind.
    destruct (request _ b) as [[op|e] b1]; [|done]. simpl. destruct (op_fid op); [|done]. simpl.
    by destruct (call_op op b1) as [[] b2]. }
  eapply (triple_bind 1 1); [apply triple_ask_walk| |by intros e fs Hfs; exact Hfs].
  intros [newfid reply]. eapply triple_pure; [|by apply triple_walk_reply].
  by apply (triple_walk_reply newfid names reply ∅).
Qed.

(** [let x = m; f x]: the failure of [m] is a value like any other. *)
Lemma triple_seq {A A'} n1 n2 P (m : M B A) Q (f : Result A → M B A') R :
  triple n1 P m Q → (∀ x, triple n2 (Q x) (f x) R) → triple (n1 + n2) P (attempt m ≫= f) R.
Proof.
  intros Hm Hf. eapply triple_bind; [by apply triple_attempt| |by intros e fs (x & ? & _)].
  intros x. eapply triple_conseq; [apply (Hf x)|done| |done]. by intros fs (y & [= <-] & Hq).
Qed.

Lemma triple_then {A A'} n1 n2 P (m : M B A) Q (f : A → M B A') R :
  triple n1 P m (λ _, Q) → (∀ a, triple n2 Q (f a) R) → (∀ e fs, Q fs → R (Err e) fs) →
  triple (n1 + n2) P (m ≫= f) R.
Proof. intros Hm Hf He. by eapply triple_bind. Qed.

(** Tables that add the fid [f] to one that satisfies [I]. *)
Definition with_new (I : gmap Z FidState → Prop) (f : Z) (fs : gmap Z FidState) : Prop :=
  ∃ fs0, I fs0 ∧ bound_at f fs0 fs.

Lemma triple_clunk_new I f : triple 1 (with_new I f) (clunk f) (λ _, I).
Proof.
  eapply triple_conseq; [apply (triple_clunk f (with_new I f))|done|done|].
  intros r fs (fs1 & (fs0 & Hi & Hb) & ->). by rewrite (bound_at_delete _ _ _ Hb).
Qed.

(** A call on the new fid that leaves it bound. *)
Lemma triple_ask_new m mk I f :
  issues m mk → (∀ tag, t_tag (mk tag) = tag ∧ binds_nothing (mk tag) = true) →
  (∀ tag fs reply fs', fids_after (mk tag) fs reply fs' → fs' = fs ∨ ∃ st, fs' = <[f := st]> fs) →
  triple 1 (with_new I f) (ask m) (λ _, with_new I f).
Proof.
  intros Hi Hmk Hfa. apply (triple_ask _ mk); [done..|]. intros tag fs reply fs' (fs0 & Hi0 & Hb) Ha.
  exists fs0. split; [done|]. destruct (Hfa _ _ _ _ Ha) as [->|[st ->]]; [done|by apply bound_at_update].
Qed.

Lemma triple_on_fid {A} m mk I f (K : Completion → M B A) :
  issues m mk → (∀ tag, t_tag (mk tag) = tag ∧ binds_nothing (mk tag) = true) →
  (∀ tag fs reply fs', fids_after (mk tag) fs reply fs' → fs' = fs ∨ ∃ st, fs' = <[f := st]> fs) →
  (∀ reply, ∃ r, K reply = lift r) →
  triple 1 (with_new I f) (op ← request m; reply ← call_op op; K reply) (λ _, with_new I f).
Proof.
  intros Hi Hmk Hfa HK. apply triple_ask_then.
  eapply (triple_then 1 0); [by apply (triple_ask_new _ mk)|intros a|done].
  destruct (HK a) as [r ->]. by apply triple_lift.
Qed.

Lemma triple_stat I f : triple 1 (with_new I f) (stat f) (λ _, with_new I f).
Proof.
  apply (triple_on_fid _ (λ tag, TStat tag f)); [by eexists|done|by left|].
  intros []; by eexists.
Qed.

Lemma triple_open I f mode : triple 1 (with_new I f) (open f mode) (λ _, with_new I f).
Proof.
  apply (triple_on_fid _ (λ tag, TOpen tag f mode)); [by eexists|done| |].
  - intros tag fs reply fs' [?|[_ ?]]; auto.
  - intros []; by eexists.
Qed.

Lemma triple_read I f offset count : triple 1 (with_new I f) (read f offset count) (λ _, with_new I f).
Proof.
  apply triple_get. intros b.
  apply (triple_on_fid _ (λ tag, TRead tag f offset (clamp_read_count (c_msize (protocol b)) count)));
    [by eexists|done| |].
  - intros tag fs reply fs' [?|[_ ?]]; auto.
  - intros []; by eexists.
Qed.

Lemma triple_write_once I f offset data :
  triple 1 (with_new I f) (write_once f offset data) (λ _, with_new I f).
Proof.
  apply (triple_on_fid _ (λ tag, TWrite tag f offset data)); [by eexists|done|by left|].
  intros []; by eexists.
Qed.

(** ** Walks *)

(** From any tables [I]: a walk that succeeds adds its fid, any other outcome adds
    nothing. *)
Lemma triple_walk_from (I : gmap Z FidState → Prop) fid names :
  triple 2 I (walk_short fid names)
    (λ r fs, match r with Ok (inl newfid) => with_new I newfid fs | _ => I fs end).
Proof.
  apply triple_exact. intros fs0. eapply triple_conseq; [apply (triple_walk_short fid names fs0)|done|done|].
  intros [[newfid|]|] fs Hw Hi; simpl in Hw; [by eexists|by subst..].
Qed.

Lemma triple_walk_refusal I fid names walked :
  triple 6 I (walk_refusal fid names walked) (λ _, I).
Proof.
  unfold walk_refusal. destruct (names !! Z.to_nat walked) as [stopped|].
  2:{ by apply (triple_lift _ _ (Ok None)). }
  eapply (triple_seq 2 4); [apply (triple_walk_from I)|].
  intros [[prefix|n]|e]; [|by apply (triple_lift _ _ (Ok None))..].
  set (J := with_new I prefix).
  eapply (triple_seq 2 2); [apply (triple_walk_from J)|]. intros reached.
  eapply (triple_bind 1 1 _ _ (λ r fs, is_ok r = true ∧ J fs)); [| |by intros e fs [? _]].
  - destruct reached as [[reached|n]|e]; [|by apply (triple_lift _ _ (Ok _))..].
    eapply (triple_seq 1 0); [apply (triple_clunk_new J)|]. intros x. by apply (triple_lift _ _ (Ok None)).
  - intros refusal. eapply (triple_seq 1 0).
    + eapply triple_conseq; [apply (triple_clunk_new I)|done|by intros fs [_ Hj]|].
      instantiate (1 := λ _, I). done.
    + intros x. by apply (triple_lift _ _ (Ok refusal)).
Qed.

Lemma triple_walk I fid names :
  triple 8 I (walk fid names) (λ r fs, match r with Ok newfid => with_new I newfid fs | Err _ => I fs end).
Proof.
  eapply (triple_bind 2 6); [apply triple_walk_from| |done]. intros [newfid|walked].
  - by apply (triple_lift _ _ (Ok newfid)).
  - eapply (triple_then 6 0); [apply triple_walk_refusal| |done].
    intros refusal. by apply (triple_lift _ _ (Err _)).
Qed.

Lemma triple_walk_path I path :
  triple 8 I (walk_path path) (λ r fs, match r with Ok newfid => with_new I newfid fs | Err _ => I fs end).
Proof. apply triple_get. intros b. case_bool_decide; apply triple_walk. Qed.

(** ** Operations on paths *)

Lemma triple_ask_attempt {A} n m mk P Q (K : Result Completion → M B A) R :
  issues m mk → triple 1 P (ask m) Q → (∀ x, triple n (Q x) (K x) R) →
  triple (1 + n) P (op ← request m; reply ← attempt (call_op op); K reply) R.
Proof.
  intros Hi [_ Hm] HK. set (prog := op ← request m; _).
  assert (∀ b, closed b → closed (prog b).2) as Hstay.
  { intros b Hc. unfold prog, mbind, M_bind. destruct (request m b) as [[op|e] b1] eqn:E;
      apply request_stream in E; [|unfold closed; simpl; by rewrite E].
    assert (closed b1) as Hc1 by (unfold closed; by rewrite E). unfold attempt.
    apply (closed_call_op op) in Hc1. destruct (call_op op b1). by apply HK. }
  split; [done|]. intros k b Hc. destruct (decide (lb_open (b_stream b) = false)) as [Hcl|Hop].
  { left. by apply Hstay. }
  assert (∃ op b1, request m b = (Ok op, b1)) as (op & b1 & Eq).
  { destruct Hc as [Hc|(srv & Hr & _)]; [done|]. destruct Hi as [fo ->].
    destruct (issue_tag _ _ _ Hr) as (tag & c & Ea & _). eexists _, _.
    unfold request, map_err, on_protocol, mbind, M_bind. by rewrite Ea. }
  rewrite <- Nat.add_assoc in Hc. specialize (Hm _ _ Hc). revert Hm.
  unfold prog, ask, mbind, M_bind, attempt. rewrite Eq.
  destruct (call_op op b1) as [x b2]. simpl. intros Hm. by apply HK.
Qed.

Lemma triple_create I parent name perm mode :
  triple 10 I (create parent name perm mode)
    (λ r fs, match r with Ok (f, _) => with_new I f fs | Err _ => I fs end).
Proof.
  eapply (triple_bind 8 2); [apply triple_walk| |done]. intros f.
  apply (triple_ask_attempt 1 _ (λ tag, TCreate tag f name perm mode) _ (λ _, with_new I f)).
  - by eexists.
  - apply (triple_ask_new _ (λ tag, TCreate tag f name perm mode)); [by eexists|done|].
    intros tag fs reply fs' [?|[_ ?]]; auto.
  - assert (∀ e, triple 1 (with_new I f) (_ ← attempt (clunk f); lift (A := Z * Qid) (Err e))
      (λ r fs, match r with Ok (f, _) => with_new I f fs | Err _ => I fs end)) as Hfail.
    { intros e. eapply (triple_seq 1 0); [apply triple_clunk_new|]. intros x.
      by apply (triple_lift _ _ (Err e)). }
    intros [[]|e]; try apply Hfail. by apply (triple_lift _ _ (Ok (f, qid))).
Qed.

Lemma write_turn_state {W} (wo : Z → bytes → M W Z) offset chunk len total w :
  (write_turn wo offset chunk len total w).2 = (wo offset chunk w).2.
Proof.
  unfold write_turn, mbind, M_bind, lift, throw, mret, M_ret.
  destruct (wo offset chunk w) as [[count|e] w']; [|done]. repeat case_match; by simplify_eq.
Qed.

Section chunks.
Context (J : gmap Z FidState → Prop) (wo : Z → bytes → M B Z).
Hypothesis wo_keeps : ∀ offset data, triple 1 J (wo offset data) (λ _, J).

Lemma chunks_loop_closed fuel max offset data total b x :
  closed b → write_chunks_loop fuel max wo offset data total b = Some x → closed x.2.
Proof using wo_keeps.
  revert offset data total b. induction fuel as [|fuel IH]; intros offset data total b Hc E; [done|].
  cbn [write_chunks_loop] in E. case_bool_decide; [by simplify_eq|].
  pose proof (proj1 (wo_keeps offset (ztake (Z.min (vlen data) max) data)) b Hc) as Hw.
  rewrite <- (write_turn_state wo _ _ (Z.min (vlen data) max) total) in Hw.
  destruct (write_turn _ _ _ _ _ b) as [[[[n t] o]|e] b1]; simpl in Hw; [|by simplify_eq].
  destruct (n <? _); [by simplify_eq|by eapply IH].
Qed.

Lemma chunks_loop_keeps fuel k max offset data total b x :
  connected (fuel + k) J b → write_chunks_loop fuel max wo offset data total b = Some x →
  connected k J x.2.
Proof using wo_keeps.
  revert offset data total b. induction fuel as [|fuel IH]; intros offset data total b Hc E; [done|].
  cbn [write_chunks_loop] in E. case_bool_decide.
  { simplify_eq. eapply connected_weaken; [exact Hc|lia|done]. }
  pose proof (proj2 (wo_keeps offset (ztake (Z.min (vlen data) max) data)) (fuel + k)%nat b Hc) as Hw.
  cbv beta in Hw. rewrite <- (write_turn_state wo _ _ (Z.min (vlen data) max) total) in Hw.
  destruct (write_turn _ _ _ _ _ b) as [[[[n t] o]|e] b1]; simpl in Hw.
  - destruct (n <? _); [simplify_eq|by eapply IH]. eapply connected_weaken; [exact Hw|lia|done].
  - simplify_eq. eapply connected_weaken; [exact Hw|lia|done].
Qed.

End chunks.

Lemma triple_write I f offset data :
  triple (S (length data)) (with_new I f) (write f offset data) (λ _, with_new I f).
Proof.
  pose proof (triple_write_once I f) as Hw. unfold write, write_in_chunks.
  case_bool_decide as Hd.
  { eapply triple_conseq; [apply (Hw offset data)|lia|done|done]. }
  split.
  - intros b Hc. destruct (write_chunks_loop _ _ _ _ _ _ b) as [x|] eqn:E; [|done].
    by eapply (chunks_loop_closed _ _ Hw).
  - intros k b Hc. destruct (write_chunks_loop _ _ _ _ _ _ b) as [x|] eqn:E.
    + by eapply (chunks_loop_keeps _ _ Hw).
    + eapply connected_weaken; [exact Hc|lia|done].
Qed.

(** An operation on paths ends with the fid table it found. *)
Definition tidy {A} (n : nat) (op : M B A) : Prop := ∀ I, triple n I op (λ _, I).

Lemma tidy_stat_path path : tidy 10 (stat_path path).
Proof.
  intros I. eapply (triple_bind 8 2); [apply triple_walk_path| |done]. intros f.
  eapply (triple_seq 1 1); [apply triple_stat|]. intros result.
  eapply (triple_seq 1 0); [apply triple_clunk_new|]. intros x. by apply triple_lift.
Qed.

(** [open] and, if it succeeded, one more operation on the fid. *)
Lemma triple_open_then {A} n I f (m : M B A) :
  triple n (with_new I f) m (λ _, with_new I f) →
  ∀ opened : Result Qid,
  triple n (with_new I f)
    match opened with Ok _ => attempt m | Err error => mret (Err error) end
    (λ r fs, is_ok r = true ∧ with_new I f fs).
Proof.
  intros Hm [q|e]; [|by apply (triple_lift _ _ (Ok (Err e)))].
  eapply triple_conseq; [apply triple_attempt, Hm|done|done|]. by intros r fs (x & -> & Hq).
Qed.

Lemma tidy_read_path_range path offset count : tidy 11 (read_path_range path offset count).
Proof.
  intros I. eapply (triple_bind 8 3); [apply triple_walk_path| |done]. intros f.
  eapply (triple_seq 1 2); [apply triple_open|]. intros opened.
  eapply (triple_bind 1 1); [apply triple_open_then, triple_read| |by intros e fs [? _]]. intros result.
  eapply (triple_seq 1 0).
  - eapply triple_conseq; [apply triple_clunk_new|done|by intros fs [_ Hq]|by intros r fs Hq; exact Hq].
  - intros x. by apply triple_lift.
Qed.

Lemma triple_clunk_after {A} I f (r : Result A) :
  triple 1 (with_new I f) (clunk_after f r) (λ _, I).
Proof.
  destruct r as [a|e]; simpl.
  - eapply (triple_then 1 0); [apply triple_clunk_new| |done]. intros x. by apply (triple_lift _ _ (Ok a)).
  - eapply (triple_seq 1 0); [apply triple_clunk_new|]. intros x. by apply (triple_lift _ _ (Err e)).
Qed.

(** [write_path] and [write_file] differ in the open mode and the offset. *)
Lemma tidy_write_at path mode offset data :
  tidy (11 + length data)
    (fid ← walk_path path;
     opened ← attempt (open fid mode);
     result ← match opened with
              | Ok _ => attempt (write fid offset data)
              | Err error => mret (Err error)
              end;
     clunk_after fid result).
Proof.
  intros I. apply (triple_conseq (8 + (1 + (S (length data) + 1))) _ I _ _ (λ _, I) _);
    [|lia|done|done].
  eapply triple_bind; [apply triple_walk_path| |done]. intros f.
  eapply triple_seq; [apply triple_open|]. intros opened.
  eapply triple_bind; [apply triple_open_then, triple_write| |by intros e fs [? _]]. intros result.
  eapply triple_conseq; [apply triple_clunk_after|done|by intros fs [_ Hq]|done].
Qed.

Lemma tidy_create_at parent name perm mode : tidy 20 (create_at parent name perm mode).
Proof.
  intros I. eapply (triple_bind 8 12); [apply triple_walk_path| |done]. intros p.
  eapply (triple_seq 10 2); [apply triple_create|]. intros result.
  eapply (triple_bind 1 1 _ _ (λ r fs, is_ok r = true ∧ with_new I p fs)); [| |by intros e fs [? _]].
  - destruct result as [[f q]|e]; [|by apply (triple_lift _ _ (Ok _))].
    eapply (triple_seq 1 0); [apply triple_clunk_new|]. intros x. by apply (triple_lift _ _ (Ok _)).
  - intros r. eapply triple_conseq; [apply triple_clunk_after|done|by intros fs [_ Hq]|done].
Qed.

(** Clunking the older of two new fids. *)
Lemma triple_clunk_older I p f :
  triple 1 (with_new (with_new I p) f) (clunk p) (λ _, with_new I f).
Proof.
  eapply triple_conseq; [apply (triple_clunk p (with_new (with_new I p) f))|done|done|].
  intros r fs (fs2 & (fs1 & (fs0 & Hi & Hp & st & ->) & Hf & st' & ->) & ->).
  apply lookup_insert_None in Hf as [Hf Hne]. exists fs0. split; [done|]. split; [done|]. exists st'.
  rewrite delete_insert_ne by done. by rewrite delete_insert_id.
Qed.

Lemma tidy_create_write_at parent name perm mode offset data :
  tidy (21 + length data) (create_write_at parent name perm mode offset data).
Proof.
  intros I. apply (triple_conseq (8 + (10 + (1 + (S (length data) + 1)))) _ I _ _ (λ _, I) _);
    [|lia|done|done].
  eapply triple_bind; [apply triple_walk_path| |done]. intros p.
  eapply triple_seq; [apply triple_create|]. intros [[f q]|e].
  - eapply triple_seq; [apply triple_clunk_older|]. intros parent_clunk.
    apply triple_lift_bind. simpl. destruct parent_clunk as [x|e].
    + eapply (triple_seq (S (length data)) 1); [apply triple_write|]. intros written.
      eapply (triple_seq 1 0); [apply triple_clunk_new|]. intros clunked.
      destruct written as [count|e]; [|by apply (triple_lift _ _ (Err e))].
      apply triple_lift_bind. destruct clunked; [|done]. by apply (triple_lift _ _ (Ok count)).
    + apply (triple_conseq (1 + 0) _ (with_new I f) _ _ (λ _, I) _); [|lia|done|done].
      eapply triple_seq; [apply triple_clunk_new|]. intros x. by apply (triple_lift _ _ (Err e)).
  - eapply triple_seq; [apply triple_clunk_new|]. intros parent_clunk. by apply triple_lift_bind.
Qed.

(** ** Listing a directory *)

(** A call that is well formed and whose reply fits takes place. *)
Lemma ask_answered n m mk b srv :
  issues m mk → ready (n + 1) b srv → 0 ≤ n →
  (∀ tag, t_tag (mk tag) = tag ∧ is_tversion (mk tag) = false) →
  (∀ tag, tag ≠ NOTAG → is_ok (encode_tmessage_checked (mk tag) (s_msize (session srv))) = true ∧
     is_ok (encode_rmessage_checked (handle (mk tag) srv).1 (s_msize (session srv))) = true) →
  ∃ tag b', tag ≠ NOTAG ∧ ask m b = (result_of (handle (mk tag) srv).1, b') ∧
    ready n b' (handle (mk tag) srv).2.
Proof.
  intros Hi Hr Hn Hmk Hfit. destruct (ask m b) as [r b'] eqn:E.
  destruct (ask_loopback _ _ _ _ _ _ _ Hi Hr Hn Hmk E) as (tag & Hne & Ha).
  destruct (Hfit tag Hne) as [Ht Hrep]. exists tag, b'.
  destruct Ha as [(e & He & _)|[(reply & srv' & Hh & -> & _ & Hr' & _)|(_ & e & He)]].
  - by rewrite He in Ht.
  - by rewrite Hh.
  - by rewrite He in Hrep.
Qed.

Section listing.
Context (f mode : Z) (q : Qid) (v : Variant) (msize : Z) (stats : list Stat) (es : list bytes).
Hypothesis stats_encode : Forall2 encodes stats es.
Hypothesis stats_short : vlen (concat es) ≤ u64_max.
Hypothesis stats_dialect : for_each (validate_stat_variant v) stats = Ok ().
Hypothesis tree_lists : ∀ t offset count, ∃ t', ft_read f q offset count t = (Ok (Directory stats), t').
Hypothesis q_dir : is_dir q = true.
Hypothesis mode_reads : permits_read mode = true.

(** What one read can carry. *)
Definition room : Z := clamp_read_count msize DEFAULT_READ_CHUNK.

(** The server has the directory open on [f] and has served it up to [offset];
    the connection can take [n] more calls. *)
Definition listing_at (n offset : Z) (b : B) : Prop :=
  ∃ srv st, ready n b srv ∧ s_msize (session srv) = msize ∧ s_variant (session srv) = Some v ∧
    fids (session srv) !! f = Some st ∧ fid_qid st = q ∧ open_mode st = Some mode ∧
    directory_offset st = offset.

Lemma room_u32 n offset b : listing_at n offset b → is_u32 room ∧ room ≤ msize - RREAD_HEADER_SIZE.
Proof.
  intros (srv & st & [[] _] & Hm & _). unfold room, clamp_read_count, DEFAULT_READ_CHUNK.
  unfold saturating_sub, RREAD_HEADER_SIZE, MIN_MSIZE, in_range, u32_max in *. lia.
Qed.

Lemma clamp_room : clamp_read_count msize room = room.
Proof. unfold room, clamp_read_count. lia. Qed.

Lemma list_read n offset b data :
  listing_at (n + 1) offset b → 0 ≤ n → 0 ≤ offset → dirread_chunk stats offset room = Ok data →
  vlen data ≤ room → offset + vlen data ≤ u64_max →
  ∃ b', read f offset DEFAULT_READ_CHUNK b = (Ok data, b') ∧ listing_at n (offset + vlen data) b'.
Proof using stats_dialect tree_lists q_dir mode_reads.
  intros Hat Hn Ho Hd Hle Hmax. destruct (room_u32 _ _ _ Hat) as [Hu Hroom].
  destruct Hat as (srv & st & Hr & Hm & Hv & Hf & Hq & Hmode & Hoff). pose proof Hr as [[] _].
  pose proof (vlen_nonneg data).
  destruct (tree_lists (tree srv) offset room) as [t' Hft].
  assert (∀ tag, tag ≠ NOTAG → ∃ s', handle (TRead tag f offset room) srv = (RRead tag data, Server_mk s' t') ∧
    fids s' = <[f := with_directory_offset st (offset + vlen data)]> (fids (session srv)) ∧
    same_dialect (session srv) s') as Hh.
  { intros tag Ht. eapply handle_dir_read; try done; try lia; rewrite ?Hq, ?Hm, ?clamp_room; done. }
  destruct (ask_answered n (client_read f offset room) (λ tag, TRead tag f offset room) b srv)
    as (tag & b' & Hne & Ea & Hr'); [by eexists|done..| |].
  { intros tag Ht. destruct (Hh tag Ht) as (s' & -> & _). simpl. rewrite Hm. split.
    - destruct (encode_tmessage_checked _ msize) eqn:E; [done|].
      apply small_request_encodes in E; [done|done|done|lia].
    - rewrite checked_fits; [done|cbn; unfold in_range in Hu; lia|cbn [rbody]; rewrite vlen_app, vlen_le_bytes|lia].
      unfold RREAD_HEADER_SIZE in *. lia. }
  destruct (Hh tag Hne) as (s' & Hhandle & Hfids & Hdial). rewrite Hhandle in Ea, Hr'. simpl in *.
  exists b'. split.
  - unfold read, mbind, M_bind, get. rewrite wired_msize0, Hm. fold room.
    unfold ask, mbind, M_bind in Ea. destruct (request _ b) as [[op|e] b1]; [|done].
    rewrite Ea. simpl. unfold lift, checked_read_data.
    rewrite try_from_in by (unfold in_range in *; lia). simpl.
    by rewrite (proj2 (Z.ltb_ge _ _)) by lia.
  - exists (Server_mk s' t'), (with_directory_offset st (offset + vlen data)). simpl.
    split_and!; [done|by rewrite (dialect_msize _ _ Hdial)|by rewrite (dialect_variant _ _ Hdial)| |done..].
    rewrite Hfids. apply lookup_insert_eq.
Qed.

(** Between reads, [k] entries have been served. *)
Definition listed (offset : Z) (b : B) : Prop :=
  ∃ k, (k ≤ leading room es)%nat ∧ offset = vlen (concat (take k es)) ∧
    listing_at (1 + Z.of_nat (leading room es - k)) offset b.

Lemma listed_read offset b :
  listed offset b →
  ∃ k m b', (k + m ≤ leading room es)%nat ∧ offset = vlen (concat (take k es)) ∧
    read f offset DEFAULT_READ_CHUNK b = (Ok (concat (take m (drop k es))), b') ∧
    (m = 0%nat → k = leading room es) ∧
    (m ≠ 0%nat → listed (offset + vlen (concat (take m (drop k es)))) b').
Proof using stats_encode stats_short stats_dialect tree_lists q_dir mode_reads.
  intros (k & Hk & -> & Hat). destruct (room_u32 _ _ _ Hat) as [Hu _].
  destruct (dirread_chunk_leading stats es k room) as (m & Hm & Hd & Hle & Hend); [done..|].
  assert (vlen (concat (take k es)) + vlen (concat (take m (drop k es))) = vlen (concat (take (k + m) es)))
    as Hsum by (by rewrite <- vlen_app, <- concat_app, take_take_drop).
  pose proof (vlen_nonneg (concat (take k es))).
  assert (vlen (concat (take (k + m) es)) ≤ u64_max).
  { rewrite <- (take_drop (k + m) es), concat_app, vlen_app in stats_short.
    pose proof (vlen_nonneg (concat (drop (k + m) es))). lia. }
  set (n := Z.of_nat (leading room es - k)) in *.
  destruct (list_read n _ b _ ltac:(by replace (n + 1) with (1 + n) by lia) ltac:(lia) ltac:(done) Hd Hle
    ltac:(lia)) as (b' & Er & Hat').
  exists k, m, b'. split_and!; [done..|]. intros Hm0. exists (k + m)%nat. split_and!; [done..|].
  rewrite Hsum in Hat' |- *. destruct Hat' as (srv & st & Hr & Hrest). exists srv, st. split; [|done].
  eapply ready_le; [exact Hr|lia].
Qed.

Lemma listed_reads_file :
  reads_file listed (concat (take (leading room es) es)) (λ offset, read f offset DEFAULT_READ_CHUNK).
Proof using stats_encode stats_short stats_dialect tree_lists q_dir mode_reads.
  intros offset b bs b' Hl Er.
  destruct (listed_read _ _ Hl) as (k & m & b1 & Hm & -> & Er' & Hend & Hnext).
  rewrite Er' in Er. simplify_eq. split_and!.
  - exists (concat (take (leading room es - k - m) (drop (k + m) es))).
    assert (take (leading room es) es = take k es ++ take m (drop k es) ++
      take (leading room es - k - m) (drop (k + m) es)) as Hsplit.
    { rewrite <- (take_drop k (take (leading room es) es)) at 1. rewrite take_take, Nat.min_l by lia. f_equal.
      rewrite <- (take_drop m (drop k _)) at 1. rewrite drop_drop, skipn_firstn_comm, take_take, Nat.min_l by lia.
      f_equal. rewrite skipn_firstn_comm. f_equal. lia. }
    rewrite Hsplit, !concat_app. apply zdrop_app_vlen.
  - intros Hnil. destruct (decide (m = 0%nat)) as [Hm0|Hm0]; [by rewrite (Hend Hm0)|]. exfalso.
    pose proof (leading_le room es). destruct (lookup_lt_is_Some_2 es k) as [e He]; [lia|].
    destruct (Forall2_lookup_r _ _ _ _ _ stats_encode He) as (st & _ & Hlen%encodes_len).
    rewrite (drop_S _ _ _ He) in Hnil. destruct m as [|m]; [done|]. simpl in Hnil.
    apply app_eq_nil in Hnil as [-> _]. by rewrite vlen_nil in Hlen.
  - intros Hne. apply Hnext. intros ->. by apply Hne.
Qed.

(** a directory is listed up to the first entry that does not fit a read:
    [read_dir_stats] on a directory that the server has open returns exactly the
    leading stats whose encodings fit one read of the negotiated size, which are
    all of them unless one is too large; it always returns and never fails. *)
Theorem directory_listing b :
  Forall Stat_wf stats →
  listing_at (1 + vlen es) 0 b →
  ∃ b', read_dir_stats f b = (Ok (take (leading room es) stats), b').
Proof using stats_encode stats_short stats_dialect tree_lists q_dir mode_reads.
  intros Hwf Hat. set (n := leading room es).
  assert (listed 0 b) as Hl.
  { exists 0%nat. split_and!; [lia|done|]. destruct Hat as (srv & st & Hr & Hrest). exists srv, st.
    split; [|done]. eapply ready_le; [exact Hr|]. pose proof (leading_le room es). unfold vlen. lia. }
  assert (vlen (concat (take n es)) ≤ u64_max) as Hlen.
  { rewrite <- (take_drop n es), concat_app, vlen_app in stats_short.
    pose proof (vlen_nonneg (concat (drop n es))). lia. }
  destruct (read_all_with (λ offset, read f offset DEFAULT_READ_CHUNK) b) as [r b'] eqn:E.
  destruct (read_all_with_file _ _ _ _ _ _ listed_reads_file Hlen Hl E) as [[-> _]|(e & o & b1 & -> & Hl1 & Er)].
  - exists b'. unfold read_dir_stats, read_all, mbind, M_bind. rewrite E. unfold lift.
    rewrite (decode_dir_entries_enc (take n stats)); [done|done|by apply Forall_take|by apply Forall2_take].
  - destruct (listed_read _ _ Hl1) as (k & m & b2 & _ & _ & Er' & _). rewrite Er in Er'. done.
Qed.

End listing.

(** ** What path operations leave behind *)

Definition bound_fids (b : B) : gmap Z FidState := fids (session (lb_server (b_stream b))).

(** Unless the server has hung up, its fid table is what it was. *)
Definition keeps_fids {A} (op : M B A) (b : B) : Prop :=
  lb_open (b_stream (op b).2) = true → bound_fids (op b).2 = bound_fids b.

Lemma tidy_keeps_fids {A} n n' (op : M B A) b srv :
  tidy n op → (n ≤ n')%nat → ready (Z.of_nat n') b srv → roomy (Z.of_nat n') b srv → keeps_fids op b.
Proof.
  intros Ht Hn Hr Hroom Hopen. destruct (Ht (λ fs, fs = fids (session srv))) as [_ Hconn].
  specialize (Hconn (n' - n)%nat b). replace (n + (n' - n))%nat with n' in Hconn by lia.
  destruct Hconn as [Hc|(srv' & [[] _] & _ & Hfs)].
  - right. by exists srv.
  - unfold closed in Hc. congruence.
  - unfold bound_fids. destruct Hr as [[] _]. by rewrite wired_stream0, wired_stream1.
Qed.

(** operations on paths leave no fid behind: whatever file tree is served and
    however its answers turn out, a stat, a ranged read, a write, a rewrite, a
    creation and a creation with a write each end with the server's fid table as
    they found it (partial walks, refused opens and failed writes included). *)
Theorem path_operations_leave_no_fid b srv path name perm mode offset count data :
  ready (21 + vlen data) b srv → roomy (21 + vlen data) b srv →
  keeps_fids (stat_path path) b ∧
  keeps_fids (read_path_range path offset count) b ∧
  keeps_fids (write_path path offset data) b ∧
  keeps_fids (write_file path data) b ∧
  keeps_fids (create_at path name perm mode) b ∧
  keeps_fids (create_write_at path name perm mode offset data) b.
Proof.
  replace (21 + vlen data) with (Z.of_nat (21 + length data)) by (unfold vlen; lia). intros Hr Hroom.
  assert (∀ A n (op : M B A), tidy n op → (n ≤ 21 + length data)%nat → keeps_fids op b) as Hk.
  { intros A n op Ht Hn. by eapply tidy_keeps_fids. }
  split_and!.
  - eapply Hk; [apply tidy_stat_path|lia].
  - eapply Hk; [apply tidy_read_path_range|lia].
  - eapply Hk; [apply tidy_write_at|lia].
  - eapply Hk; [apply tidy_write_at|lia].
  - eapply Hk; [apply tidy_create_at|lia].
  - eapply Hk; [apply tidy_create_write_at|lia].
Qed.

End loopback.

(** ** A concrete connection *)

#[export] Instance no_debug_text : DebugText :=
  { debug_response := λ _, []; debug_completion := λ _, []; debug_str := λ _, [] }.

(** A directory of read-only files; its root lists the sample entries. *)
Inductive Shelf := Books.

#[export] Instance shelf_tree : FileTree Shelf :=
  FileTree_defaults (λ _ _ _, mret (Qid_dir 0)) (λ _ _ _ names, mret ((λ _, Qid_file 1) <$> names))
    (λ _ q _, mret (OpenFile_mk q 0)) (λ _ _ _ _, mret (Directory [sample_stat; sample_stat]))
    (λ _, mret sample_stat).

Definition shelf_server : Server Shelf := Server_with_config Books sample_config.

(** The client after version and attach. *)
Definition shelf_client : Blocking (Loopback Shelf) :=
  match connect (Loopback_mk shelf_server [] true) (bstr "glenda") [] 8192 with
  | Ok b => b
  | Err _ => Blocking_mk (Loopback_mk shelf_server [] false) Client_new Plain NOFID (Qid_file 0)
  end.

Definition shelf_attached : Server Shelf :=
  (handle (TAttach 0 1 NOFID (bstr "glenda") []) (handle (TVersion NOTAG 8192 (bstr "9P2000")) shelf_server).2).2.

Lemma shelf_idle : idle (session shelf_attached).
Proof.
  eapply handle_idle; [| |apply surjective_pairing]; [|vm_compute; done].
  eapply handle_idle; [| |apply surjective_pairing]; [|done].
  split; [|done]. exists []. by apply Inv_init.
Qed.

(** Readiness of a concrete client is decided by computation, but for [idle]. *)
Lemma ready_concrete n g t (b : Blocking (Loopback Shelf)) srv :
  idle (session srv) → b_stream b = Loopback_mk srv [] true → c_msize (protocol b) = 8192 →
  s_msize (session srv) = 8192 → negotiated (session srv) = true →
  next_generation (requests (session srv)) = g → flush_targets (protocol b) = ∅ →
  next_tag (protocol b) = t → live (pending (protocol b)) = ∅ →
  0 ≤ n ≤ 1000 → 0 ≤ g ≤ 1000 → 0 ≤ t ≤ 1000 → ready n b srv.
Proof.
  intros Hi Hs Hc Hm Hn Hg Hf Ht Hp ???. split; [split|done]; try done; try congruence.
  - rewrite Hm. unfold MIN_MSIZE, u32_max. lia.
  - rewrite Hg. unfold u64_max. lia.
  - rewrite Ht. unfold in_range, u16_max. lia.
Qed.

Lemma shelf_ready n :
  0 ≤ n ≤ 1000 → ready n shelf_client shelf_attached ∧ roomy n shelf_client shelf_attached.
Proof.
  intros Hn. split.
  - apply (ready_concrete n 2 1); [exact shelf_idle|vm_compute; reflexivity..|done|lia|lia].
  - assert (fids (session shelf_attached) = {[1 := FidState_new (Qid_dir 0)]}) as E by (vm_compute; reflexivity).
    assert (fid_now shelf_client = 2) as Hf by (vm_compute; reflexivity).
    unfold roomy. rewrite Hf, E. split_and!; [|lia|unfold NOFID, u32_max; lia].
    intros f [st Hst]. apply lookup_singleton_Some in Hst as [<- _]. lia.
Qed.

Lemma path_operations_leave_no_fid_witness :
  keeps_fids (stat_path (bstr "/a/b")) shelf_client ∧
  keeps_fids (write_path (bstr "/a") 0 (bstr "x")) shelf_client.
Proof.
  destruct (shelf_ready 22 ltac:(lia)) as [Hr Hroom].
  destruct (path_operations_leave_no_fid shelf_client shelf_attached (bstr "/a/b") [] 0 0 0 0 (bstr "x") Hr Hroom)
    as (H1 & _).
  destruct (path_operations_leave_no_fid shelf_client shelf_attached (bstr "/a") [] 0 0 0 0 (bstr "x") Hr Hroom)
    as (_ & _ & H3 & _).
  split; [exact H1|exact H3].
Defined.

(** a failed RPC leaves its fid behind: when the write is refused, [rpc_path]
    returns the error without clunking the fid it walked to, and the server keeps
    the fid bound on a connection that is still open. *)
Theorem rpc_path_leaks_fid :
  let '(r, b) := rpc_path (bstr "ctl") (bstr "go") shelf_client in
  r = Err (from_static EPERM) ∧ lb_open (b_stream b) = true ∧
  bound_fids shelf_client !! 2 = None ∧ is_Some (bound_fids b !! 2).
Proof.
  vm_compute. split; [reflexivity|]. split; [reflexivity|]. split; [reflexivity|]. by eexists.
Qed.

(** The client with the root opened on a new fid. *)
Definition shelf_opened : Blocking (Loopback Shelf) := (open 1 OREAD shelf_client).2.

Definition sample_entry : bytes := match Stat_encode sample_stat with Ok e => e | Err _ => [] end.

Lemma shelf_opened_at : listing_at 1 OREAD (Qid_dir 0) Plain 8192 3 0 shelf_opened.
Proof.
  exists (handle (TOpen 1 1 OREAD) shelf_attached).2, (FidState_opened (Qid_dir 0) OREAD).
  split; [|split; [vm_compute; reflexivity|split; [vm_compute; reflexivity|
    split; [vm_compute; reflexivity|by split_and!]]]].
  apply (ready_concrete 3 3 2); [|vm_compute; reflexivity..|lia|lia|lia].
  eapply handle_idle; [exact shelf_idle| |apply surjective_pairing]. vm_compute. reflexivity.
Qed.

Lemma directory_listing_witness :
  ∃ b', read_dir_stats 1 shelf_opened = (Ok [sample_stat; sample_stat], b').
Proof.
  assert (Forall2 encodes [sample_stat; sample_stat] [sample_entry; sample_entry]) as He.
  { constructor; [vm_compute; reflexivity|]. constructor; [vm_compute; reflexivity|constructor]. }
  destruct (directory_listing 1 OREAD (Qid_dir 0) Plain 8192 [sample_stat; sample_stat]
    [sample_entry; sample_entry] He) with (b := shelf_opened) as [b' Hb].
  - vm_compute. discriminate.
  - vm_compute. reflexivity.
  - intros t offset count. exists t. reflexivity.
  - vm_compute. reflexivity.
  - vm_compute. reflexivity.
  - assert (Stat_wf sample_stat) as Hwf by (vm_compute; repeat split; discriminate).
    constructor; [exact Hwf|constructor; [exact Hwf|constructor]].
  - exact shelf_opened_at.
  - exists b'. exact Hb.
Defined.
