(* ===== verification/Multiplex.v ===== *)
(** The multiplexed client's core: [crates/core/src/multiplex/reader.rs],
    [multiplex/util.rs], [multiplex/client/calls.rs] and the submission and
    flushing half of [multiplex/client.rs].  Many threads share one connection:
    each registers a waiter under its tag and writes its request, and one reader
    thread hands every response to the waiter of its tag.

    The model is a step relation whose steps are the critical sections of the
    three mutexes (the protocol client, the response state, the writer); between
    two steps any other thread may run.  A call is identified by a number that
    the code does not have: it is also the identity of the call's channel, and
    requests and replies on the wire carry it so that theorems can say whose
    answer a response is.  The frames on the wire are the messages they decode
    to ([CodecProps], [FrameIO]). *)
From S2P Require Import Prelude Errors Utf8 Qid Stat Referral Message Codec.
From S2P Require Import RequestTable Client ClientSupport.

(** ** The response state *)

(** A [Sender] is the identity of its channel. *)
Abbreviation Sender := nat.
Abbreviation ReplyResult := (Result ClientResponse).

Record ResponseState := ResponseState_mk {
  waiters : gmap Z Sender;
  terminal_error : option Error;
}.

Definition ResponseState_default : ResponseState := ResponseState_mk ∅ None.

(** The second component of an answer is what the code drops or takes out. *)
Definition register (tag : Z) (sender : Sender) (s : ResponseState) :
    Result unit * option Sender * ResponseState :=
  match terminal_error s with
  | Some error => (Err error, None, s)
  | None =>
      let replaced := waiters s !! tag in
      let s := ResponseState_mk (<[tag := sender]> (waiters s)) (terminal_error s) in
      match replaced with
      | Some old => (Err (Error_new (bstr "duplicate waiter for tag " ++ dec tag)), Some old, s)
      | None => (Ok (), None, s)
      end
  end.

Definition remove (tag : Z) (s : ResponseState) : option Sender * ResponseState :=
  (waiters s !! tag, ResponseState_mk (delete tag (waiters s)) (terminal_error s)).

Definition terminate (error : Error) (s : ResponseState) : list Sender * ResponseState :=
  let terminal := match terminal_error s with None => Some error | some => some end in
  ((map_to_list (waiters s)).*2, ResponseState_mk ∅ terminal).

(** ** Calls, channels, the reader *)

(** An [mpsc] channel of which one message is ever sent. *)
Inductive Channel := Open | Sent (reply : ReplyResult) | Disconnected.

Inductive CallPhase :=
| Built                                   (* [submit_message], before the waiter is registered *)
| Registered                              (* before the write *)
| Refused (e : Error)                     (* not registered, before [abandon] *)
| WriteFailed (e : Error)                 (* before [fail_all] *)
| Abandoning (e : Error)                  (* after [fail_all], before [abandon] *)
| Waiting                                 (* on the receiver *)
| TimedOut                                (* before [flush_tag_timeout] *)
| Flushing (f : Sender)                   (* waits for its own Tflush, the call [f] *)
| FlushDone (r : ClientResponse)          (* a flush, before [cancel_waiter(oldtag)] *)
| Cancelling (e : Error)                  (* before [cancel_waiter] of its own tag *)
| Done (r : ReplyResult).

Record Call := Call_mk { call_message : TMessage; call_phase : CallPhase }.

Definition call_tag (k : Call) : Z := t_tag (call_message k).

Inductive MuxReader :=
| Reading                                 (* [read_response] *)
| Received (c : Sender) (r : RMessage)    (* before [protocol.receive] *)
| Dispatching (c : Sender) (r : ClientResponse)   (* before [responses.remove] *)
| Failing (e : Error)                     (* before [fail_all] *)
| Stopped.

Record Mux := Mux_mk {
  mx_protocol : Client;
  mx_responses : ResponseState;
  mx_channels : gmap Sender Channel;
  mx_calls : gmap Sender Call;
  mx_reader : MuxReader;
  mx_wire : list (Sender * TMessage);     (* written, not yet read by the server *)
  mx_serving : list (Sender * TMessage);  (* read by the server, not yet answered *)
  mx_replies : list (Sender * RMessage);  (* answered, not yet read by the client *)
  mx_answers : gmap Sender RMessage;      (* what the server has answered to which call *)
}.

Definition Mux_new (protocol : Client) : Mux :=
  Mux_mk protocol ResponseState_default ∅ ∅ Reading [] [] [] ∅.

Definition set_protocol (p : Client) (s : Mux) : Mux :=
  Mux_mk p (mx_responses s) (mx_channels s) (mx_calls s) (mx_reader s) (mx_wire s) (mx_serving s)
    (mx_replies s) (mx_answers s).
Definition set_responses (r : ResponseState) (s : Mux) : Mux :=
  Mux_mk (mx_protocol s) r (mx_channels s) (mx_calls s) (mx_reader s) (mx_wire s) (mx_serving s)
    (mx_replies s) (mx_answers s).
Definition set_channels (ch : gmap Sender Channel) (s : Mux) : Mux :=
  Mux_mk (mx_protocol s) (mx_responses s) ch (mx_calls s) (mx_reader s) (mx_wire s) (mx_serving s)
    (mx_replies s) (mx_answers s).
Definition set_call (c : Sender) (k : Call) (s : Mux) : Mux :=
  Mux_mk (mx_protocol s) (mx_responses s) (mx_channels s) (<[c := k]> (mx_calls s)) (mx_reader s)
    (mx_wire s) (mx_serving s) (mx_replies s) (mx_answers s).
Definition set_reader (r : MuxReader) (s : Mux) : Mux :=
  Mux_mk (mx_protocol s) (mx_responses s) (mx_channels s) (mx_calls s) r (mx_wire s) (mx_serving s)
    (mx_replies s) (mx_answers s).
Definition set_stream (wire serving : list (Sender * TMessage)) (replies : list (Sender * RMessage))
    (s : Mux) : Mux :=
  Mux_mk (mx_protocol s) (mx_responses s) (mx_channels s) (mx_calls s) (mx_reader s) wire serving
    replies (mx_answers s).
Definition set_answer (c : Sender) (r : RMessage) (s : Mux) : Mux :=
  Mux_mk (mx_protocol s) (mx_responses s) (mx_channels s) (mx_calls s) (mx_reader s) (mx_wire s)
    (mx_serving s) (mx_replies s) (<[c := r]> (mx_answers s)).

Definition set_phase (c : Sender) (k : Call) (p : CallPhase) : Mux → Mux :=
  set_call c (Call_mk (call_message k) p).

(** ** Critical sections *)

Definition send (reply : ReplyResult) (c : Sender) (s : Mux) : Mux :=
  set_channels (<[c := Sent reply]> (mx_channels s)) s.

(** Dropping a sender that was not used. *)
Definition disconnect (c : Sender) (s : Mux) : Mux :=
  set_channels (<[c := Disconnected]> (mx_channels s)) s.

(** [lock(protocol).abandon(tag)] *)
Definition abandon_tag (tag : Z) (s : Mux) : Mux :=
  set_protocol (abandon tag (mx_protocol s)) s.

Definition fail_all (error : Error) (s : Mux) : Mux :=
  let '(pending, responses) := terminate error (mx_responses s) in
  foldr (send (Err error)) (set_responses responses s) pending.

Definition cancel_waiter (tag : Z) (error : Error) (s : Mux) : Mux :=
  let '(sender, responses) := remove tag (mx_responses s) in
  let s := set_responses responses s in
  match sender with
  | Some sender => send (Err error) sender s
  | None => s
  end.

(** [mpsc::channel()] and [register], in [submit_message]. *)
Definition submit_register (c : Sender) (k : Call) (s : Mux) : Mux :=
  let s := set_channels (<[c := Open]> (mx_channels s)) s in
  let '(result, dropped, responses) := register (call_tag k) c (mx_responses s) in
  let s := set_responses responses s in
  let s := match dropped with Some old => disconnect old s | None => s end in
  set_phase c k (match result with Ok _ => Registered | Err e => Refused e end) s.

(** The reader, after [protocol.receive]. *)
Definition reader_receive (c : Sender) (r : RMessage) (s : Mux) : Mux :=
  let '(received, protocol) := receive r (mx_protocol s) in
  let s := set_protocol protocol s in
  match received with
  | Ok response => set_reader (Dispatching c response) s
  | Err error =>
      let error := protocol_error error in
      if bool_decide (message error = bstr "9P client state: unknown response tag")
      then set_reader Reading s
      else set_reader (Failing error) s
  end.

(** [responses.remove(tag)] and the send. *)
Definition reader_dispatch (response : ClientResponse) (s : Mux) : Mux :=
  let '(sender, responses) := remove (response_tag response) (mx_responses s) in
  let s := set_reader Reading (set_responses responses s) in
  match sender with
  | Some sender => send (Ok response) sender s
  | None => s
  end.

(** ** Requests *)

(** The methods of the protocol client that a closure given to [submit] calls. *)
Inductive Request :=
| RqWalk (f : Z) (names : list bytes)
| RqOpen (f mode : Z)
| RqRead (f offset count : Z)
| RqWrite (f offset : Z) (data : bytes)
| RqCreate (f : Z) (name : bytes) (perm mode : Z)
| RqClunk (f : Z)
| RqRemove (f : Z)
| RqStat (f : Z)
| RqWstat (f : Z) (stat : Stat)
| RqRenameAt (olddirfid : Z) (oldname : bytes) (newdirfid : Z) (newname : bytes)
| RqReferrals (f : Z)
| RqFlush (oldtag : Z).

Definition build (rq : Request) : M Client Op :=
  match rq with
  | RqWalk f names => client_walk f names
  | RqOpen f mode => client_open f mode
  | RqRead f offset count => client_read f offset count
  | RqWrite f offset data => client_write f offset data
  | RqCreate f name perm mode => client_create f name perm mode
  | RqClunk f => client_clunk f
  | RqRemove f => client_remove f
  | RqStat f => client_stat f
  | RqWstat f stat => client_wstat f stat
  | RqRenameAt od on nd nn => client_rename_at od on nd nn
  | RqReferrals f => client_referrals f
  | RqFlush oldtag => client_flush oldtag
  end.

Definition is_flush (m : TMessage) : bool := match m with TFlush _ _ => true | _ => false end.

(** Where a call goes with what it received: [flush_tag_with] still has to cancel
    the flushed waiter. *)
Definition after_wait (k : Call) (reply : ReplyResult) : CallPhase :=
  match reply with
  | Ok (ClientCompletion tag CompFlush) =>
      if is_flush (call_message k) && (tag =? call_tag k)
      then FlushDone (ClientCompletion tag CompFlush) else Done reply
  | _ => Done reply
  end.

(** A flush that times out is not flushed itself. *)
Definition after_timeout (k : Call) (e : Error) : CallPhase :=
  if is_flush (call_message k) then Cancelling e else TimedOut.

(** ** The server

    What 9P says of any server: it reads requests in order and answers them in
    any order, under their tags; Rflush answers Tflush only, and once it is sent
    nothing answers the flushed request. *)

Definition fits (m : TMessage) (r : RMessage) : bool :=
  (r_tag r =? t_tag m) &&
  match m, r with
  | TFlush _ _, (RFlush _ | RError _ _) => true
  | TFlush _ _, _ => false
  | _, RFlush _ => false
  | _, _ => true
  end.

Definition without_tag (tag : Z) (l : list (Sender * TMessage)) : list (Sender * TMessage) :=
  filter (λ x, t_tag x.2 ≠ tag) l.

Definition served (m : TMessage) (r : RMessage) (l : list (Sender * TMessage)) :
    list (Sender * TMessage) :=
  match m, r with
  | TFlush _ old, RFlush _ => without_tag old l
  | _, _ => l
  end.

(** ** The steps *)

Section steps.
(** Which requests the threads may start. *)
Context (may_start : Mux → Op → Prop).

Inductive mux_step : Mux → Mux → Prop :=
(* a thread starts a call *)
| ms_build s rq op p c :
    build rq (mx_protocol s) = (Ok op, p) → mx_calls s !! c = None → may_start s op →
    mux_step s (set_call c (Call_mk (op_message op) Built) (set_protocol p s))
| ms_build_failed s rq e p :
    build rq (mx_protocol s) = (Err e, p) → mux_step s (set_protocol p s)
| ms_encode_failed s c k e :
    mx_calls s !! c = Some k → call_phase k = Built →
    encode_tmessage_checked (call_message k) (c_msize (mx_protocol s)) = Err e →
    mux_step s (set_phase c k (Done (Err (Error_new (bstr "encode 9P frame: " ++ display_lossy e))))
                  (abandon_tag (call_tag k) s))
| ms_dropped s c k e :
    (* [write_once_then_read_timeout]: the read of a pair whose write was not submitted *)
    mx_calls s !! c = Some k → call_phase k = Built →
    mux_step s (set_phase c k (Done (Err e)) (abandon_tag (call_tag k) s))
| ms_register s c k frame :
    mx_calls s !! c = Some k → call_phase k = Built →
    encode_tmessage_checked (call_message k) (c_msize (mx_protocol s)) = Ok frame →
    mux_step s (submit_register c k s)
| ms_refused s c k e :
    mx_calls s !! c = Some k → call_phase k = Refused e →
    mux_step s (set_phase c k (Done (Err e)) (abandon_tag (call_tag k) s))
| ms_write s c k :
    mx_calls s !! c = Some k → call_phase k = Registered →
    mux_step s (set_phase c k Waiting
                  (set_stream (mx_wire s ++ [(c, call_message k)]) (mx_serving s) (mx_replies s) s))
| ms_write_failed s c k e wire :
    (* the frame may have gone out before the error *)
    mx_calls s !! c = Some k → call_phase k = Registered →
    wire = mx_wire s ∨ wire = mx_wire s ++ [(c, call_message k)] →
    mux_step s (set_phase c k (WriteFailed e) (set_stream wire (mx_serving s) (mx_replies s) s))
| ms_write_fail_all s c k e :
    mx_calls s !! c = Some k → call_phase k = WriteFailed e →
    mux_step s (set_phase c k (Abandoning e) (fail_all e s))
| ms_write_abandon s c k e :
    mx_calls s !! c = Some k → call_phase k = Abandoning e →
    mux_step s (set_phase c k (Done (Err e)) (abandon_tag (call_tag k) s))
(* it waits *)
| ms_wait s c k reply :
    mx_calls s !! c = Some k → call_phase k = Waiting → mx_channels s !! c = Some (Sent reply) →
    mux_step s (set_phase c k (after_wait k reply) s)
| ms_wait_disconnected s c k :
    mx_calls s !! c = Some k → call_phase k = Waiting → mx_channels s !! c = Some Disconnected →
    mux_step s (set_phase c k (Done (Err (from_static "9P reader stopped before response"))) s)
| ms_timeout s c k e :
    mx_calls s !! c = Some k → call_phase k = Waiting → mx_channels s !! c = Some Open →
    mux_step s (set_phase c k (after_timeout k e) s)
| ms_give_up s c k :
    (* [write_once_then_read_timeout]: the write of a pair whose read was not submitted *)
    mx_calls s !! c = Some k → call_phase k = Waiting →
    mux_step s (set_phase c k (Cancelling (from_static "pipelined 9P read could not be submitted")) s)
| ms_flush_start s c k op p f :
    mx_calls s !! c = Some k → call_phase k = TimedOut →
    client_flush (call_tag k) (mx_protocol s) = (Ok op, p) → mx_calls s !! f = None → may_start s op →
    mux_step s (set_phase c k (Flushing f)
                  (set_call f (Call_mk (op_message op) Built) (set_protocol p s)))
| ms_flush_not_started s c k e e' p :
    mx_calls s !! c = Some k → call_phase k = TimedOut →
    client_flush (call_tag k) (mx_protocol s) = (Err e, p) →
    mux_step s (set_phase c k (Cancelling e') (set_protocol p s))
| ms_flush_over s c k f kf r e :
    mx_calls s !! c = Some k → call_phase k = Flushing f →
    mx_calls s !! f = Some kf → call_phase kf = Done r →
    mux_step s (set_phase c k (Cancelling e) s)
| ms_flush_cancel s f k r tag old :
    mx_calls s !! f = Some k → call_phase k = FlushDone r → call_message k = TFlush tag old →
    mux_step s (set_phase f k (Done (Ok r)) (cancel_waiter old (from_static "9P request flushed") s))
| ms_cancel s c k e :
    mx_calls s !! c = Some k → call_phase k = Cancelling e →
    mux_step s (set_phase c k (Done (Err e)) (cancel_waiter (call_tag k) e s))
(* [shutdown] and [drop] *)
| ms_shutdown s : mux_step s (fail_all (from_static "9P transport closed by client") s)
(* the reader thread *)
| ms_read s c r replies :
    mx_reader s = Reading → mx_replies s = (c, r) :: replies →
    mux_step s (set_reader (Received c r) (set_stream (mx_wire s) (mx_serving s) replies s))
| ms_read_failed s e : mx_reader s = Reading → mux_step s (set_reader (Failing e) s)
| ms_receive s c r : mx_reader s = Received c r → mux_step s (reader_receive c r s)
| ms_dispatch s c r : mx_reader s = Dispatching c r → mux_step s (reader_dispatch r s)
| ms_fail s e : mx_reader s = Failing e → mux_step s (set_reader Stopped (fail_all e s))
(* the server *)
| ms_serve s c m wire :
    mx_wire s = (c, m) :: wire →
    mux_step s (set_stream wire (mx_serving s ++ [(c, m)]) (mx_replies s) s)
| ms_answer s before c m after r :
    mx_serving s = before ++ (c, m) :: after → fits m r = true →
    mux_step s (set_answer c r (set_stream (mx_wire s) (served m r (before ++ after))
                                  (mx_replies s ++ [(c, r)]) s)).

Definition mux_reachable (protocol : Client) : Mux → Prop := rtc mux_step (Mux_new protocol).

End steps.
