(* ===== verification/MultiplexInv.v ===== *)
(** The invariants of the multiplexed client ([multiplex/reader.rs],
    [multiplex/client.rs], [multiplex/client/calls.rs]): what the protocol client
    does under its lock, who is owed a response ([awaited], in every run), and
    whose response is where ([orderly], in runs that do not reuse a tag while
    something still refers to it). *)
From stdpp Require Import sorting.
From S2P Require Import Prelude Errors Utf8 Qid Stat Referral Message Codec.
From S2P Require Import RequestTable Client ClientProps ClientSupport EndToEnd Multiplex.

(** ** What the protocol client does under its lock *)

(** A request takes a tag that is not in use. *)
Record builds (p : Client) (op : Op) (p' : Client) : Prop := {
  builds_tag : op_tag op = t_tag (op_message op);
  builds_usable : usable p (op_tag op);
  builds_next : is_u16 (next_tag p');
  builds_live t : is_Some (live (pending p') !! t) ↔ t = op_tag op ∨ is_Some (live (pending p) !! t);
  builds_targets : flush_targets p' =
    match op_message op with
    | TFlush t old => <[t := old]> (flush_targets p)
    | _ => flush_targets p
    end;
}.

Lemma is_Some_insert {A} (m : gmap Z A) i x t :
  is_Some (<[i := x]> m !! t) ↔ t = i ∨ is_Some (m !! t).
Proof. rewrite lookup_insert_is_Some'. naive_solver. Qed.

Lemma alloc_builds p tag p1 op p' :
  is_u16 (next_tag p) → alloc_tag p = (Ok tag, p1) →
  op_tag op = tag → t_tag (op_message op) = tag →
  pending p' = pending p1 → next_tag p' = next_tag p1 →
  flush_targets p' = match op_message op with
                     | TFlush t old => <[t := old]> (flush_targets p1)
                     | _ => flush_targets p1
                     end →
  builds p op p'.
Proof.
  intros Hn Ha <- Ht Hp Hnt Hf. apply alloc_tag_Ok in Ha as (_ & Hu & Hn' & Hl & _ & _ & _ & _ & _ & Hft); [|done].
  constructor; [done..|by rewrite Hnt| |by rewrite Hf, Hft].
  intros t. by rewrite Hp, Hl, is_Some_insert.
Qed.

Lemma flush_builds old p op p' :
  is_u16 (next_tag p) → client_flush old p = (Ok op, p') → builds p op p' ∧ ∃ t, op_message op = TFlush t old.
Proof.
  intros Hn H. unfold client_flush in H. case_match; [done|]. inv_ok.
  repeat match goal with H : modify _ _ = _ |- _ => unfold modify in H; injection H as <- <- end.
  injection H as <- <-. split; [|by eexists]. by eapply alloc_builds.
Qed.

Lemma build_builds rq p op p' :
  is_u16 (next_tag p) → build rq p = (Ok op, p') → builds p op p'.
Proof.
  intros Hn H. destruct rq; cbn [build] in H; [..|by eapply flush_builds].
  all: unfold client_walk, client_open, client_read, client_write, client_create, client_clunk,
         client_remove, client_stat, client_wstat, client_rename_at, client_referrals, fresh_fid in H;
       inv_ok; repeat case_match; simplify_eq; injection H as <- <-; by eapply alloc_builds.
Qed.

(** A failed allocation only moves [next_tag]. *)
Record unbuilt (p p' : Client) : Prop := {
  unbuilt_next : is_u16 (next_tag p');
  unbuilt_live : live (pending p') = live (pending p);
  unbuilt_targets : flush_targets p' = flush_targets p;
}.

Lemma alloc_tag_loop_Err turns p e p' :
  is_u16 (next_tag p) → alloc_tag_loop turns p = (Err e, p') → unbuilt p p'.
Proof.
  revert p. induction turns as [|turns IH]; intros p Hn; cbn [alloc_tag_loop].
  { intros [= <- <-]. by constructor. }
  assert (is_u16 (next_tag (set_next_tag (wrapping_add u16_max (next_tag p) 1) p))) as Hn1.
  { pose proof (turn_tag_u16 p 1) as H. exact H. }
  intros H. assert (∀ q, unbuilt (set_next_tag (wrapping_add u16_max (next_tag p) 1) p) q → unbuilt p q) as Hq.
  { intros q [? ? ?]. by constructor. }
  case_match; [by apply Hq, IH|]. case_match eqn:El; [|by apply Hq, IH].
  unfold on_pending, begin in H. simpl in *. by repeat (case_match; simplify_eq).
Qed.

Lemma build_unbuilt rq p e p' :
  is_u16 (next_tag p) → build rq p = (Err e, p') → unbuilt p p'.
Proof.
  intros Hn H. assert (∀ A (k : Z → M Client A), (∀ t q, ∃ a q', k t q = (Ok a, q')) →
    (alloc_tag ≫= k) p = (Err e, p') → unbuilt p p') as Hk.
  { intros A k Hok E. apply M_bind_Err in E as [E|(a & q & _ & E)]; [by eapply alloc_tag_loop_Err|].
    destruct (Hok a q) as (x & q' & Hx). by rewrite Hx in E. }
  destruct rq; cbn [build] in H; try (eapply Hk; [|exact H]; intros t q; by eexists _, _).
  unfold client_flush in H. case_match; [simplify_eq; by constructor|].
  eapply Hk; [|exact H]. intros t q. by eexists _, _.
Qed.

Lemma abandon_spec t p :
  t ≠ NOTAG →
  live (pending (abandon t p)) = delete t (live (pending p)) ∧
  flush_targets (abandon t p) = delete t (flush_targets p) ∧ next_tag (abandon t p) = next_tag p.
Proof.
  intros Hn. unfold abandon. rewrite (proj2 (Z.eqb_neq _ _) Hn). simpl. by rewrite flush_live.
Qed.

Definition is_rflush (r : RMessage) : bool := match r with RFlush _ => true | _ => false end.

(** Receiving a response frees its tag, and the flushed tag if it is an Rflush. *)
Record receives (r : RMessage) (p : Client) (res : Result ClientResponse) (p' : Client) : Prop := {
  receives_ok resp : res = Ok resp → resp = response_of r;
  receives_next : next_tag p' = next_tag p;
  receives_live t : is_Some (live (pending p) !! t) → t ≠ r_tag r →
    (is_rflush r = true → flush_targets p !! r_tag r ≠ Some t) → is_Some (live (pending p') !! t);
  receives_targets t : t ≠ r_tag r → flush_targets p' !! t = flush_targets p !! t;
  receives_fewer t old : flush_targets p' !! t = Some old → flush_targets p !! t = Some old;
}.

Lemma client_finish_cases tag p :
  tag ≠ NOTAG → ∃ res, client_finish tag p = (res, forget tag p).
Proof.
  intros Hn. unfold client_finish, on_pending, forget, mbind, M_bind, flush.
  rewrite (proj2 (Z.eqb_neq _ _) Hn). destruct (live (pending p) !! tag); by eexists.
Qed.

Lemma forget_live tag p t :
  tag ≠ NOTAG → is_Some (live (pending p) !! t) → t ≠ tag → is_Some (live (pending (forget tag p)) !! t).
Proof. intros Hn Hl Ht. simpl. rewrite flush_live by done. by rewrite lookup_delete_ne. Qed.

(** Everything but a version response, an error and an Rflush. *)
Lemma forget_receives r p res :
  (∀ resp, res = Ok resp → resp = response_of r) → r_tag r ≠ NOTAG →
  receives r p res (forget (r_tag r) p).
Proof. intros Hok Hn. constructor; [done..|by intros; apply forget_live|done|done]. Qed.

Lemma receive_receives r p res p' :
  r_tag r ≠ NOTAG → receive r p = (res, p') → receives r p res p'.
Proof.
  intros Hn H. destruct (client_finish_cases (r_tag r) p Hn) as [fin Hfin].
  destruct r; cbn [r_tag receive] in *; unfold finish_as, mbind, M_bind, get, lift, modify, mret, M_ret in H;
    rewrite ?Hfin in H; try (destruct fin; simplify_eq; by apply forget_receives; [intros ? [= <-]|]).
  - rewrite (proj2 (Z.eqb_neq _ _) Hn) in H. simpl in H. simplify_eq. by constructor.
  - rewrite (proj2 (Z.eqb_neq _ _) Hn) in H. destruct fin; simplify_eq; [|by apply forget_receives].
    constructor; cbn [r_tag is_rflush]; [by intros ? [= <-]|done|by intros; apply forget_live| |].
    + intros t Ht. simpl. by rewrite lookup_delete_ne.
    + intros t old. simpl. by intros [_ ?]%lookup_delete_Some.
  - destruct fin; simplify_eq; [|by apply forget_receives].
    destruct (flush_targets (forget tag p) !! tag) as [old|] eqn:Eo; simplify_eq;
      [|by apply forget_receives; [intros ? [= <-]|]].
    simpl in Eo. constructor; cbn [r_tag is_rflush]; [by intros ? [= <-]|done| | |].
    + intros t Hl Ht Hold. specialize (Hold eq_refl). rewrite Eo in Hold. simpl.
      destruct (decide (old = NOTAG)) as [->|Hno].
      * simpl. rewrite flush_live by done. by rewrite lookup_delete_ne.
      * rewrite !flush_live by done. rewrite !lookup_delete_ne; congruence.
    + intros t Ht. simpl. by rewrite lookup_delete_ne.
    + intros t o. simpl. by intros [_ ?]%lookup_delete_Some.
  - destruct fin; simplify_eq; [|by apply forget_receives].
    destruct (validate_iounit _ _); simplify_eq; apply forget_receives; by try intros ? [= <-].
  - destruct fin; simplify_eq; [|by apply forget_receives].
    destruct (validate_iounit _ _); simplify_eq; apply forget_receives; by try intros ? [= <-].
Qed.

(** ** Waking up *)

Definition with_responses (ch : gmap Sender Channel) (rs : ResponseState) (s : Mux) : Mux :=
  set_channels ch (set_responses rs s).

Lemma foldr_send r l s :
  ∃ ch, foldr (send r) s l = set_channels ch s ∧
    ∀ c, ch !! c = if decide (c ∈ l) then Some (Sent r) else mx_channels s !! c.
Proof.
  induction l as [|c l (ch & E & Hch)].
  - exists (mx_channels s). split; [by destruct s|]. intros c. by rewrite decide_False by set_solver.
  - simpl. rewrite E. exists (<[c := Sent r]> ch). split; [done|]. intros c'.
    destruct (decide (c' = c)) as [->|Hne].
    + by rewrite lookup_insert_eq, decide_True by set_solver.
    + rewrite lookup_insert_ne, Hch by done. repeat case_decide; set_solver.
Qed.

(** [fail_all] answers every waiter and leaves none. *)
Lemma fail_all_spec e s :
  ∃ ch terminal, fail_all e s = with_responses ch (ResponseState_mk ∅ (Some terminal)) s ∧
    (∀ t c, waiters (mx_responses s) !! t = Some c → ch !! c = Some (Sent (Err e))) ∧
    (∀ c, ch !! c = mx_channels s !! c ∨ ch !! c = Some (Sent (Err e))).
Proof.
  unfold fail_all, terminate. set (l := (map_to_list _).*2). set (rs := ResponseState_mk _ _).
  destruct (foldr_send (Err e) l (set_responses rs s)) as (ch & -> & Hch).
  exists ch. assert (∃ x, terminal_error rs = Some x) as [x Hx] by (unfold rs; simpl; case_match; eauto).
  exists x. split_and!.
  - unfold with_responses. do 2 f_equal. unfold rs in *. simpl in *. by rewrite Hx.
  - intros t c Hw. rewrite Hch, decide_True; [done|]. apply list_elem_of_fmap.
    exists (t, c). by rewrite elem_of_map_to_list.
  - intros c. rewrite Hch. case_decide; eauto.
Qed.

(** The same for the waiter of one tag. *)
Lemma cancel_waiter_spec t e s :
  ∃ ch, cancel_waiter t e s =
          with_responses ch (ResponseState_mk (delete t (waiters (mx_responses s)))
                               (terminal_error (mx_responses s))) s ∧
    (∀ c, waiters (mx_responses s) !! t = Some c → ch !! c = Some (Sent (Err e))) ∧
    (∀ c, ch !! c = mx_channels s !! c ∨ ch !! c = Some (Sent (Err e))).
Proof.
  unfold cancel_waiter, remove. destruct (waiters (mx_responses s) !! t) as [c0|].
  - exists (<[c0 := Sent (Err e)]> (mx_channels s)). split_and!; [done| |].
    + intros c [= ->]. by rewrite lookup_insert_eq.
    + intros c. destruct (decide (c = c0)) as [->|Hne]; [rewrite lookup_insert_eq; by right|].
      rewrite lookup_insert_ne by done. by left.
  - exists (mx_channels s). split_and!; [done|done|by left].
Qed.

(** A call that a response is owed to. *)
Definition owed (p : CallPhase) : bool := match p with Registered | Waiting => true | _ => false end.

(** Whoever is owed a response is registered, or the response is in its channel. *)
Record awaited (s : Mux) : Prop := {
  aw_channel c k : mx_calls s !! c = Some k → owed (call_phase k) = true → is_Some (mx_channels s !! c);
  aw_open c k : mx_calls s !! c = Some k → owed (call_phase k) = true →
    mx_channels s !! c = Some Open → waiters (mx_responses s) !! call_tag k = Some c;
  aw_terminal : terminal_error (mx_responses s) ≠ None → waiters (mx_responses s) = ∅;
}.

(** Steps that do not touch channels and waiters, and that make no call wait that
    did not. *)
Lemma awaited_frame s s' :
  awaited s → mx_responses s' = mx_responses s → mx_channels s' = mx_channels s →
  (∀ c k', mx_calls s' !! c = Some k' → owed (call_phase k') = true →
     ∃ k, mx_calls s !! c = Some k ∧ owed (call_phase k) = true ∧ call_message k = call_message k') →
  awaited s'.
Proof.
  intros [H1 H2 H3] Hr Hc Hk. constructor; rewrite ?Hr, ?Hc; [| |done].
  - intros c k' Hk' Ho. destruct (Hk _ _ Hk' Ho) as (k & ? & ? & _). by eapply H1.
  - intros c k' Hk' Ho Hopen. destruct (Hk _ _ Hk' Ho) as (k & E & Ho' & Em).
    unfold call_tag. rewrite <- Em. by eapply H2.
Qed.

Lemma awaited_phase s c k p :
  awaited s → mx_calls s !! c = Some k → owed p = true → owed (call_phase k) = true →
  awaited (set_phase c k p s).
Proof.
  intros H Hk Hp Ho. eapply awaited_frame; [exact H|done|done|]. intros c' k'. simpl.
  rewrite lookup_insert_Some. intros [[<- <-]|[_ ?]]; eauto.
Qed.

Lemma awaited_over s c k p : awaited s → owed p = false → awaited (set_phase c k p s).
Proof.
  intros H Hp. eapply awaited_frame; [exact H|done|done|]. intros c' k'. simpl.
  rewrite lookup_insert_Some. intros [[<- <-]|[_ ?]] ?; [simpl in *; congruence|eauto].
Qed.

(** Steps that take waiters out and answer them. *)
Lemma awaited_answered s ch rs r :
  awaited s →
  (∀ t c, waiters (mx_responses s) !! t = Some c →
     waiters rs !! t = Some c ∨ ch !! c = Some (Sent r)) →
  (∀ c, ch !! c = mx_channels s !! c ∨ ch !! c = Some (Sent r)) →
  (terminal_error rs ≠ None → waiters rs = ∅) →
  awaited (with_responses ch rs s).
Proof.
  intros [H1 H2 H3] Hw Hch Ht. constructor; simpl; [| |done].
  - intros c k Hk Ho. destruct (Hch c) as [->| ->]; [by eapply H1|by eexists].
  - intros c k Hk Ho Hopen. destruct (Hch c) as [E|E]; [|congruence].
    rewrite E in Hopen. destruct (Hw _ _ (H2 _ _ Hk Ho Hopen)); [done|congruence].
Qed.

Lemma awaited_fail_all e s : awaited s → awaited (fail_all e s).
Proof.
  intros H. destruct (fail_all_spec e s) as (ch & x & -> & Hw & Hch).
  eapply awaited_answered; [done|by eauto|done|done].
Qed.

Lemma awaited_cancel t e s : awaited s → awaited (cancel_waiter t e s).
Proof.
  intros H. destruct (cancel_waiter_spec t e s) as (ch & -> & Hw & Hch).
  eapply awaited_answered; [done| |done|].
  - intros t' c Hc. destruct (decide (t' = t)) as [->|Hne]; [by eauto|]. left. simpl. by rewrite lookup_delete_ne.
  - simpl. intros Ht. by rewrite (aw_terminal _ H Ht), delete_empty.
Qed.

Lemma dispatch_spec r s :
  ∃ ch, reader_dispatch r s =
          set_reader Reading
            (with_responses ch (ResponseState_mk (delete (response_tag r) (waiters (mx_responses s)))
                                  (terminal_error (mx_responses s))) s) ∧
    (∀ c, waiters (mx_responses s) !! response_tag r = Some c → ch !! c = Some (Sent (Ok r))) ∧
    (∀ c, waiters (mx_responses s) !! response_tag r ≠ Some c → ch !! c = mx_channels s !! c).
Proof.
  unfold reader_dispatch, remove. destruct (waiters (mx_responses s) !! response_tag r) as [c0|].
  - exists (<[c0 := Sent (Ok r)]> (mx_channels s)). split_and!; [done| |].
    + intros c [= ->]. by rewrite lookup_insert_eq.
    + intros c Hne. rewrite lookup_insert_ne; congruence.
  - exists (mx_channels s). by split_and!.
Qed.

Lemma awaited_dispatch r s : awaited s → awaited (reader_dispatch r s).
Proof.
  intros H. destruct (dispatch_spec r s) as (ch & -> & Hw & Hch).
  eapply awaited_frame; [eapply (awaited_answered _ ch _ (Ok r)); [exact H|..]|done|done|by eauto].
  - intros t c Hc. destruct (decide (t = response_tag r)) as [->|Hne]; [by eauto|]. left. simpl. by rewrite lookup_delete_ne.
  - intros c. destruct (decide (waiters (mx_responses s) !! response_tag r = Some c)); eauto.
  - simpl. intros Ht. by rewrite (aw_terminal _ H Ht), delete_empty.
Qed.

(** The outcome of a registration: refused by a connection that failed, refused
    as a duplicate, or registered. *)
Inductive registration (c : Sender) (k : Call) (s : Mux) : Mux → Prop :=
| reg_terminal e :
    terminal_error (mx_responses s) = Some e →
    registration c k s
      (set_phase c k (Refused e)
         (with_responses (<[c := Open]> (mx_channels s)) (mx_responses s) s))
| reg_duplicate old e :
    terminal_error (mx_responses s) = None → waiters (mx_responses s) !! call_tag k = Some old →
    registration c k s
      (set_phase c k (Refused e)
         (with_responses (<[old := Disconnected]> (<[c := Open]> (mx_channels s)))
            (ResponseState_mk (<[call_tag k := c]> (waiters (mx_responses s))) None) s))
| reg_ok :
    terminal_error (mx_responses s) = None → waiters (mx_responses s) !! call_tag k = None →
    registration c k s
      (set_phase c k Registered
         (with_responses (<[c := Open]> (mx_channels s))
            (ResponseState_mk (<[call_tag k := c]> (waiters (mx_responses s))) None) s)).

Lemma submit_register_cases c k s : registration c k s (submit_register c k s).
Proof.
  unfold submit_register, register. simpl mx_responses.
  destruct (terminal_error (mx_responses s)) as [e|] eqn:Et; [by apply reg_terminal|].
  destruct (waiters (mx_responses s) !! call_tag k) as [old|] eqn:Ew; [by eapply reg_duplicate|by apply reg_ok].
Qed.

Lemma awaited_register c k s :
  awaited s → mx_calls s !! c = Some k → call_phase k = Built → awaited (submit_register c k s).
Proof.
  intros [H1 H2 H3] Hk Hp. destruct (submit_register_cases c k s) as [e Ht|old e Ht Hw|Ht Hw].
  - constructor; simpl; [| |done]; intros c' k'; rewrite lookup_insert_Some.
    + intros [[<- <-]|[Hne Hk']] Ho; [done|]. rewrite lookup_insert_ne by done. by eapply H1.
    + intros [[<- <-]|[Hne Hk']] Ho; [done|]. rewrite lookup_insert_ne by done. by eapply H2.
  - constructor; simpl; [| |done]; intros c' k'; rewrite lookup_insert_Some.
    + intros [[<- <-]|[Hne Hk']] Ho; [done|]. rewrite !lookup_insert_is_Some'. right. right. by eapply H1.
    + intros [[<- <-]|[Hne Hk']] Ho; [done|].
      destruct (decide (old = c')) as [->|Hold]; [by rewrite lookup_insert_eq|].
      rewrite !lookup_insert_ne by done. intros Hopen.
      pose proof (H2 _ _ Hk' Ho Hopen) as Hw'. rewrite lookup_insert_ne; [done|]. intros E. congruence.
  - constructor; simpl; [| |done]; intros c' k'; rewrite lookup_insert_Some.
    + intros [[<- <-]|[Hne Hk']] Ho; [by rewrite lookup_insert_eq|]. rewrite lookup_insert_ne by done. by eapply H1.
    + intros [[<- <-]|[Hne Hk']] Ho; [intros _; by rewrite lookup_insert_eq|].
      rewrite lookup_insert_ne by done. intros Hopen.
      pose proof (H2 _ _ Hk' Ho Hopen) as Hw'. rewrite lookup_insert_ne; [done|]. intros E. congruence.
Qed.

Lemma after_wait_over k r : owed (after_wait k r) = false.
Proof. unfold after_wait. by repeat case_match. Qed.
Lemma after_timeout_over k e : owed (after_timeout k e) = false.
Proof. unfold after_timeout. by case_match. Qed.

Lemma awaited_new s c m p :
  awaited s → mx_calls s !! c = None → awaited (set_call c (Call_mk m Built) (set_protocol p s)).
Proof.
  intros H Hc. eapply awaited_frame; [exact H|done|done|]. intros c' k'. simpl.
  rewrite lookup_insert_Some. intros [[<- <-]|[_ ?]] ?; [done|eauto].
Qed.

Lemma awaited_step ok s s' : awaited s → mux_step ok s s' → awaited s'.
Proof.
  intros H. assert (∀ s', mx_responses s' = mx_responses s → mx_channels s' = mx_channels s →
    mx_calls s' = mx_calls s → awaited s') as Hsame.
  { intros s1 E1 E2 E3. eapply awaited_frame; [exact H|done|done|]. rewrite E3. eauto. }
  destruct 1; try (by apply Hsame);
    try (apply awaited_over; [|by rewrite ?after_wait_over, ?after_timeout_over]);
    try (by apply Hsame); try exact H.
  - by apply awaited_new.
  - by apply awaited_register.
  - change (awaited (set_stream (mx_wire s ++ [(c, call_message k)]) (mx_serving s) (mx_replies s)
                       (set_phase c k Waiting s))).
    apply (awaited_frame (set_phase c k Waiting s)); [|done|done|by eauto].
    apply awaited_phase; [done..|]. by rewrite H1.
  - by apply awaited_fail_all.
  - by apply awaited_new.
  - by apply awaited_cancel.
  - by apply awaited_cancel.
  - by apply awaited_fail_all.
  - unfold reader_receive. by repeat case_match; apply Hsame.
  - by apply awaited_dispatch.
  - eapply awaited_frame; [by apply awaited_fail_all|done|done|]. simpl. eauto.
Qed.

Lemma awaited_reachable ok p s : mux_reachable ok p s → awaited s.
Proof.
  intros Hr. unfold mux_reachable in Hr. remember (Mux_new p) as s0 eqn:E0.
  assert (awaited s0) as H0 by (subst; constructor; simpl; set_solver).
  clear E0. induction Hr as [|s1 s2 s3 Hs _ IH]; [done|]. by eapply IH, awaited_step.
Qed.

(** ** Whose response it is *)

(** A tag that nothing refers to any more: no call in progress has it, the reader
    is not about to look for its waiter, and no unanswered flush names it. *)
Definition active (k : Call) : bool := match call_phase k with Done _ => false | _ => true end.

Definition quiet (s : Mux) (t : Z) : Prop :=
  (∀ c k, mx_calls s !! c = Some k → active k = true → call_tag k ≠ t) ∧
  (∀ c r, mx_reader s = Dispatching c r → response_tag r ≠ t) ∧
  (∀ f old, flush_targets (mx_protocol s) !! f = Some old → old ≠ t).

Definition unwritten (k : Call) : bool :=
  match call_phase k with Built | Registered => true | _ => false end.

(** Requests take quiet tags, and flushes name requests that are not waiting to be
    written. *)
Definition disciplined (s : Mux) (op : Op) : Prop :=
  quiet s (op_tag op) ∧
  match op_message op with
  | TFlush tag old =>
      old ≠ tag ∧ ∀ c k, mx_calls s !! c = Some k → call_tag k = old → unwritten k = false
  | _ => True
  end.

(** What is on its way, the reader's end first. *)
Inductive Item := Req (m : TMessage) | Rep (r : RMessage).

Definition item_tag (it : Item) : Z := match it with Req m => t_tag m | Rep r => r_tag r end.
Definition is_flush_item (it : Item) : bool :=
  match it with Req m => is_flush m | Rep r => is_rflush r end.

Definition as_req (x : Sender * TMessage) : Sender * Item := (x.1, Req x.2).
Definition as_rep (x : Sender * RMessage) : Sender * Item := (x.1, Rep x.2).

Definition in_hand (r : MuxReader) : list (Sender * Item) :=
  match r with Received c r => [(c, Rep r)] | _ => [] end.

Definition pipeline (s : Mux) : list (Sender * Item) :=
  in_hand (mx_reader s) ++ (as_rep <$> mx_replies s) ++ (as_req <$> mx_serving s) ++
  (as_req <$> mx_wire s).

(** [x] does not flush the request of [y]. *)
Definition spares (targets : gmap Z Z) (x y : Sender * Item) : Prop :=
  is_flush_item x.2 = true → targets !! item_tag x.2 ≠ Some (item_tag y.2).

Definition refusing (k : Call) : bool :=
  match call_phase k with Built | Registered | Refused _ => true | _ => false end.

(** [r] is the server's answer to the call [c], as the client reads it. *)
Definition answered (s : Mux) (c : Sender) (resp : ClientResponse) : Prop :=
  ∃ r, mx_answers s !! c = Some r ∧ resp = response_of r.

(** The invariant: [owner] is the last call that took a tag. *)
Record orderly (owner : gmap Z Sender) (s : Mux) : Prop := {
  or_next : is_u16 (next_tag (mx_protocol s));
  or_tag c k : mx_calls s !! c = Some k → call_tag k ≠ NOTAG;
  or_active c k : mx_calls s !! c = Some k → active k = true → owner !! call_tag k = Some c;
  or_waiters t c : waiters (mx_responses s) !! t = Some c →
    ∃ k, mx_calls s !! c = Some k ∧ call_tag k = t;
  or_terminal : terminal_error (mx_responses s) ≠ None → waiters (mx_responses s) = ∅;
  or_abandoning c k e : mx_calls s !! c = Some k → call_phase k = Abandoning e →
    terminal_error (mx_responses s) ≠ None;
  or_unique : NoDup (pipeline s).*1;
  or_written c it : (c, it) ∈ pipeline s →
    ∃ k, mx_calls s !! c = Some k ∧ call_tag k = item_tag it ∧ refusing k = false;
  or_reply c r : (c, Rep r) ∈ pipeline s → mx_answers s !! c = Some r;
  or_request c m : (c, Req m) ∈ pipeline s → mx_answers s !! c = None;
  or_fresh c : mx_calls s !! c = None → mx_answers s !! c = None;
  or_unsent c k : mx_calls s !! c = Some k → refusing k = true → mx_answers s !! c = None;
  or_owner c it : terminal_error (mx_responses s) = None → (c, it) ∈ pipeline s →
    owner !! item_tag it = Some c ∧ is_Some (live (pending (mx_protocol s)) !! item_tag it);
  or_target c t old : terminal_error (mx_responses s) = None → (c, Req (TFlush t old)) ∈ pipeline s →
    flush_targets (mx_protocol s) !! t = Some old;
  or_spares : terminal_error (mx_responses s) = None →
    StronglySorted (spares (flush_targets (mx_protocol s))) (pipeline s);
  or_named t old c k : flush_targets (mx_protocol s) !! t = Some old →
    mx_calls s !! c = Some k → call_tag k = old → unwritten k = false;
  or_reserved c k : terminal_error (mx_responses s) = None → mx_calls s !! c = Some k →
    unwritten k = true →
    is_Some (live (pending (mx_protocol s)) !! call_tag k) ∧
    (∀ t old, call_message k = TFlush t old → flush_targets (mx_protocol s) !! t = Some old);
  or_dispatch c resp : mx_reader s = Dispatching c resp →
    answered s c resp ∧
    (terminal_error (mx_responses s) = None → owner !! response_tag resp = Some c);
  or_channel c k resp : mx_calls s !! c = Some k → owed (call_phase k) = true →
    mx_channels s !! c = Some (Sent (Ok resp)) → answered s c resp;
  or_done c k resp : mx_calls s !! c = Some k →
    call_phase k = Done (Ok resp) ∨ call_phase k = FlushDone resp → answered s c resp;
}.

Lemma answered_keep s s' c resp : mx_answers s' = mx_answers s → answered s c resp → answered s' c resp.
Proof. unfold answered. by intros ->. Qed.

(** A call moves on. *)
Lemma orderly_phase owner s c k p :
  orderly owner s → mx_calls s !! c = Some k →
  (active (Call_mk (call_message k) p) = true → active k = true) →
  (refusing (Call_mk (call_message k) p) = true → refusing k = true) →
  (unwritten (Call_mk (call_message k) p) = true → unwritten k = true) →
  (owed p = true → ∀ resp, mx_channels s !! c = Some (Sent (Ok resp)) → answered s c resp) →
  (∀ e, p = Abandoning e → terminal_error (mx_responses s) ≠ None) →
  (∀ resp, p = Done (Ok resp) ∨ p = FlushDone resp → answered s c resp) →
  orderly owner (set_phase c k p s).
Proof.
  intros H Hk Ha Hr Hu Ho He Hd.
  assert (∀ c' k', mx_calls (set_phase c k p s) !! c' = Some k' →
    ∃ k0, mx_calls s !! c' = Some k0 ∧ call_message k' = call_message k0 ∧
      (c' = c ∧ k0 = k ∧ call_phase k' = p ∨ k' = k0)) as Hcalls.
  { intros c' k'. simpl. rewrite lookup_insert_Some. intros [[<- <-]|[_ ?]]; [exists k; naive_solver|eauto 10]. }
  assert (∀ c' k', mx_calls s !! c' = Some k' → ∃ k0, mx_calls (set_phase c k p s) !! c' = Some k0 ∧
    call_message k0 = call_message k' ∧ (c' = c ∧ k' = k ∧ k0 = Call_mk (call_message k) p ∨ k0 = k')) as Hback.
  { intros c' k' Hk'. simpl. destruct (decide (c' = c)) as [->|Hne].
    - rewrite lookup_insert_eq. rewrite Hk in Hk'. injection Hk' as <-. eexists. naive_solver.
    - rewrite lookup_insert_ne by done. eauto 10. }
  assert (∀ c' k' k0, mx_calls s !! c' = Some k0 → c' = c ∧ k0 = k ∧ call_phase k' = p ∨ k' = k0 →
    call_message k' = call_message k0 →
    (active k' = true → active k0 = true) ∧ (refusing k' = true → refusing k0 = true) ∧
    (unwritten k' = true → unwritten k0 = true)) as Hmono.
  { intros c' [m' p'] k0 Hk0 [(-> & -> & E)| ->] Em; [|done]. simpl in E, Em. subst m' p'. done. }
  destruct H. constructor; try done.
  - intros c' k' (k0 & E & Em & _)%Hcalls. unfold call_tag. rewrite Em. by eapply or_tag0.
  - intros c' k' (k0 & E & Em & Hc)%Hcalls Hact. unfold call_tag. rewrite Em. eapply or_active0; [done|].
    by eapply Hmono.
  - intros t c' Hw. destruct (or_waiters0 _ _ Hw) as (k' & (k0 & E & Em & _)%Hback & <-).
    exists k0. split; [done|]. unfold call_tag. by rewrite Em.
  - intros c' k' e (k0 & E & Em & [(-> & -> & Ep)| ->])%Hcalls Hp; [|by eapply or_abandoning0].
    apply (He e). congruence.
  - intros c' it Hin. destruct (or_written0 _ _ Hin) as (k' & Hk' & Et & Href).
    destruct (Hback _ _ Hk') as (k0 & E & Em & Hc). exists k0. unfold call_tag in *. rewrite Em.
    split_and!; [done..|]. destruct Hc as [(-> & -> & ->)| ->]; [|done].
    destruct (refusing (Call_mk _ p)) eqn:Er; [|done]. by rewrite Hr in Href.
  - intros c'. simpl. rewrite lookup_insert_None. intros [? _]. by apply or_fresh0.
  - intros c' k' (k0 & E & Em & Hc)%Hcalls Href. eapply or_unsent0; [done|]. by eapply Hmono.
  - intros t old c' k' Ht (k0 & E & Em & Hc)%Hcalls Etag. unfold call_tag in Etag. rewrite Em in Etag.
    pose proof (or_named0 _ _ _ _ Ht E Etag) as Hn. destruct (unwritten k') eqn:Eu; [|done].
    rewrite <- Hn. symmetry. by eapply Hmono.
  - intros c' k' En (k0 & E & Em & Hc)%Hcalls Hun. unfold call_tag. rewrite Em.
    eapply or_reserved0; [done..|]. by eapply Hmono.
  - intros c' k' resp (k0 & E & Em & [(-> & -> & Ep)| ->])%Hcalls Howed Hch; [|by eapply or_channel0].
    apply Ho; [by rewrite <- Ep|done].
  - intros c' k' resp (k0 & E & Em & [(-> & -> & Ep)| ->])%Hcalls Hp; [|by eapply or_done0].
    apply Hd. by rewrite Ep in Hp.
Qed.

(** Waiters and channels change. *)
Lemma orderly_responses owner s ch rs :
  orderly owner s →
  (∀ t c, waiters rs !! t = Some c → ∃ k, mx_calls s !! c = Some k ∧ call_tag k = t) →
  (terminal_error rs ≠ None → waiters rs = ∅) →
  (terminal_error (mx_responses s) ≠ None → terminal_error rs ≠ None) →
  (∀ c k resp, mx_calls s !! c = Some k → owed (call_phase k) = true →
     ch !! c = Some (Sent (Ok resp)) → answered s c resp) →
  orderly owner (with_responses ch rs s).
Proof.
  intros [] Hw Ht Hm Hch.
  assert (terminal_error rs = None → terminal_error (mx_responses s) = None) as Hn.
  { intros E. destruct (terminal_error (mx_responses s)) eqn:E'; [|done]. by destruct Hm. }
  constructor; try done; simpl.
  - intros c k e Hk Hp. by eapply Hm, or_abandoning0.
  - intros c it E. by apply or_owner0, Hn.
  - intros c t old E. by apply or_target0, Hn.
  - intros E. by apply or_spares0, Hn.
  - intros c k E. by apply or_reserved0, Hn.
  - intros c resp E. destruct (or_dispatch0 _ _ E) as [? Hown]. split; [done|]. intros E'. by apply Hown, Hn.
Qed.

Lemma StronglySorted_weaken {A} (R R' : A → A → Prop) l :
  (∀ x y, x ∈ l → y ∈ l → R x y → R' x y) → StronglySorted R l → StronglySorted R' l.
Proof.
  intros HR. induction 1 as [|x l Hs IH Hx]; constructor.
  - apply IH. set_solver.
  - rewrite Forall_forall in Hx |- *. set_solver.
Qed.

Lemma StronglySorted_sublist {A} (R : A → A → Prop) l1 l2 :
  sublist l1 l2 → StronglySorted R l2 → StronglySorted R l1.
Proof.
  induction 1 as [|x l1 l2 Hs IH|x l1 l2 Hs IH]; [done|..]; intros [Hx Hl]%StronglySorted_cons; [|by apply IH].
  constructor; [by apply IH|]. rewrite Forall_forall in Hx |- *. intros y Hy. by eapply Hx, elem_of_sublist.
Qed.

(** Tags are freed. *)
Lemma orderly_protocol owner s p :
  orderly owner s → is_u16 (next_tag p) →
  (∀ t old, flush_targets p !! t = Some old → flush_targets (mx_protocol s) !! t = Some old) →
  (terminal_error (mx_responses s) = None → ∀ c it, (c, it) ∈ pipeline s →
     is_Some (live (pending p) !! item_tag it) ∧
     flush_targets p !! item_tag it = flush_targets (mx_protocol s) !! item_tag it) →
  (terminal_error (mx_responses s) = None → ∀ c k, mx_calls s !! c = Some k → unwritten k = true →
     is_Some (live (pending p) !! call_tag k) ∧
     flush_targets p !! call_tag k = flush_targets (mx_protocol s) !! call_tag k) →
  orderly owner (set_protocol p s).
Proof.
  intros [] Hn Hf Hl Hu. constructor; try done; simpl.
  - intros c it E Hin. split; [by apply or_owner0|by apply (Hl E c it)].
  - intros c t old E Hin. destruct (Hl E _ _ Hin) as [_ Ht]. simpl in Ht. rewrite Ht. by eapply or_target0.
  - intros E. eapply StronglySorted_weaken; [|by apply or_spares0]. intros x y _ _ Hxy Hfl E'.
    by apply Hxy, Hf.
  - intros t old c k Ht. by eapply or_named0, Hf.
  - intros c k E Hk Hun. destruct (Hu E _ _ Hk Hun) as [Hlive Ht]. split; [done|]. intros t old Em.
    unfold call_tag in Ht. rewrite Em in Ht. simpl in Ht. rewrite Ht. by eapply or_reserved0.
Qed.

Lemma orderly_unbuilt owner s p :
  orderly owner s → unbuilt (mx_protocol s) p → orderly owner (set_protocol p s).
Proof.
  intros H [Hn Hl Hf]. apply orderly_protocol; [done|done|by rewrite Hf|..]; intros E; rewrite Hl, Hf.
  - intros c it Hin. split; [by apply (or_owner _ _ H c it)|done].
  - intros c k Hk Hu. split; [by apply (or_reserved _ _ H c k)|done].
Qed.

(** A call that is refused gives its tag back. *)
Lemma orderly_abandon owner s c k :
  orderly owner s → mx_calls s !! c = Some k → (∃ e, call_phase k = Refused e) →
  orderly owner (abandon_tag (call_tag k) s).
Proof.
  intros H Hk [e Hp]. assert (active k = true) as Ha by (unfold active; by rewrite Hp).
  destruct (abandon_spec (call_tag k) (mx_protocol s) (or_tag _ _ H _ _ Hk)) as (El & Ef & En).
  apply orderly_protocol; [done|rewrite En; apply H|..]; rewrite Ef.
  - intros t old. by intros [_ ?]%lookup_delete_Some.
  - intros E c' it Hin. destruct (or_owner _ _ H _ _ E Hin) as [Ho Hlive].
    assert (call_tag k ≠ item_tag it) as Hne.
    { intros Et. rewrite <- Et, (or_active _ _ H _ _ Hk Ha) in Ho. injection Ho as ->.
      destruct (or_written _ _ H _ _ Hin) as (k' & ? & _ & Hr). simplify_eq. unfold refusing in Hr. by rewrite Hp in Hr. }
    by rewrite El, !lookup_delete_ne.
  - intros E c' k' Hk' Hu. destruct (or_reserved _ _ H _ _ E Hk' Hu) as [Hlive _].
    assert (call_tag k ≠ call_tag k') as Hne.
    { intros Et. assert (active k' = true) as Ha'.
      { unfold unwritten in Hu. unfold active. by destruct (call_phase k'). }
      pose proof (or_active _ _ H _ _ Hk Ha) as Ho. rewrite Et, (or_active _ _ H _ _ Hk' Ha') in Ho.
      simplify_eq. unfold unwritten in Hu. by rewrite Hp in Hu. }
    by rewrite El, !lookup_delete_ne.
Qed.

Lemma orderly_abandon_failed owner s t :
  orderly owner s → t ≠ NOTAG → terminal_error (mx_responses s) ≠ None → orderly owner (abandon_tag t s).
Proof.
  intros H Hn Ht. destruct (abandon_spec t (mx_protocol s) Hn) as (El & Ef & En).
  apply orderly_protocol; [done|rewrite En; apply H| |done..].
  rewrite Ef. intros t' old. by intros [_ ?]%lookup_delete_Some.
Qed.

(** A new call takes a quiet tag. *)
Lemma orderly_new owner s op p c :
  orderly owner s → builds (mx_protocol s) op p → mx_calls s !! c = None → disciplined s op →
  orderly (<[op_tag op := c]> owner) (set_call c (Call_mk (op_message op) Built) (set_protocol p s)).
Proof.
  intros H [Ht [Hno Hdead] Hn Hl Hf] Hc [(Hq1 & Hq2 & Hq3) Hfl].
  assert (terminal_error (mx_responses s) = None → ∀ c' it, (c', it) ∈ pipeline s → item_tag it ≠ op_tag op) as Hitem.
  { intros E c' it Hin Et. destruct (or_owner _ _ H _ _ E Hin) as [_ Hlive]. rewrite Et, Hdead in Hlive. by destruct Hlive. }
  assert (∀ t, t ≠ op_tag op → flush_targets p !! t = flush_targets (mx_protocol s) !! t) as Hother.
  { intros t Hne. rewrite Hf. destruct (op_message op); try done. simpl in Ht. rewrite lookup_insert_ne; congruence. }
  destruct H. constructor; try done; simpl.
  - intros c' k'. rewrite lookup_insert_Some. intros [[<- <-]|[_ ?]]; [|by eapply or_tag0].
    unfold call_tag. simpl. by rewrite <- Ht.
  - intros c' k'. rewrite lookup_insert_Some. intros [[<- <-]|[_ Hk']] Hact.
    + unfold call_tag. simpl. by rewrite <- Ht, lookup_insert_eq.
    + rewrite lookup_insert_ne; [by eapply or_active0|]. symmetry. by eapply Hq1.
  - intros t c' Hw. destruct (or_waiters0 _ _ Hw) as (k' & Hk' & <-). exists k'. split; [|done].
    rewrite lookup_insert_ne; [done|]. congruence.
  - intros c' k' e. rewrite lookup_insert_Some. intros [[<- <-]|[_ ?]] ?; [done|by eapply or_abandoning0].
  - intros c' it Hin. destruct (or_written0 _ _ Hin) as (k' & Hk' & ?). exists k'.
    rewrite lookup_insert_ne; [done|]. congruence.
  - intros c'. rewrite lookup_insert_None. intros [? _]. by apply or_fresh0.
  - intros c' k'. rewrite lookup_insert_Some. intros [[<- <-]|[_ ?]] ?; [by apply or_fresh0|by eapply or_unsent0].
  - intros c' it E Hin. pose proof (Hitem E _ _ Hin) as Hne. rewrite lookup_insert_ne by done.
    destruct (or_owner0 _ _ E Hin) as [? Hlive]. split; [done|]. apply Hl. by right.
  - intros c' t old E Hin. rewrite Hother; [by eapply or_target0|]. by apply (Hitem E _ _ Hin).
  - intros E. eapply StronglySorted_weaken; [|by apply or_spares0]. intros [c1 i1] y Hx _ Hxy Hflush.
    simpl in *. rewrite Hother; [by apply Hxy|]. by eapply Hitem.
  - intros t old c' k' Hto Hk' Etag. apply lookup_insert_Some in Hk'.
    destruct (decide (t = op_tag op)) as [->|Hne].
    + destruct (op_message op) eqn:Em; try (rewrite Hf in Hto; destruct Hk' as [[<- <-]|[_ Hk']];
        [unfold call_tag in Etag; simpl in Etag, Ht; exfalso; eapply Hq3; [exact Hto|congruence]|by eapply or_named0]).
      rewrite Hf in Hto. simpl in Ht. rewrite <- Ht, lookup_insert_eq in Hto. injection Hto as ->.
      destruct Hfl as [Hne Hun]. destruct Hk' as [[<- <-]|[_ Hk']]; [|by eapply Hun].
      unfold call_tag in Etag. simpl in Etag. congruence.
    + rewrite Hother in Hto by done. destruct Hk' as [[<- <-]|[_ Hk']]; [|by eapply or_named0].
      exfalso. eapply Hq3; [exact Hto|]. unfold call_tag in Etag. simpl in Etag. congruence.
  - intros c' k' E Hk' Hu. apply lookup_insert_Some in Hk' as [[<- <-]|[_ Hk']].
    + unfold call_tag. simpl. rewrite <- Ht. split; [apply Hl; by left|]. intros t old Em. rewrite Hf, Em.
      by rewrite lookup_insert_eq.
    + destruct (or_reserved0 _ _ E Hk' Hu) as [Hlive Htg]. split; [apply Hl; by right|]. intros t old Em.
      rewrite Hother; [by apply Htg|]. intros ->. eapply Hq1; [exact Hk'| |unfold call_tag; by rewrite Em].
      unfold unwritten in Hu. unfold active. by destruct (call_phase k').
  - intros c' resp E. destruct (or_dispatch0 _ _ E) as [? Hown]. split; [done|]. intros E'.
    rewrite lookup_insert_ne; [by apply Hown|]. symmetry. by eapply Hq2.
  - intros c' k' resp. rewrite lookup_insert_Some. intros [[<- <-]|[_ ?]] Ho Hch; [done|by eapply or_channel0].
  - intros c' k' resp. rewrite lookup_insert_Some. intros [[<- <-]|[_ ?]] Hp; [by destruct Hp|by eapply or_done0].
Qed.

(** Items move along, or leave: what stays is what was there, in order. *)
Lemma orderly_stream owner s s' :
  orderly owner s →
  mx_protocol s' = mx_protocol s → mx_responses s' = mx_responses s → mx_channels s' = mx_channels s →
  mx_calls s' = mx_calls s → mx_answers s' = mx_answers s →
  sublist (pipeline s') (pipeline s) →
  (∀ c resp, mx_reader s' = Dispatching c resp → mx_reader s = Dispatching c resp) →
  orderly owner s'.
Proof.
  intros [] Ep Er Ec Ek Ea Hsub Hd.
  assert (∀ x, x ∈ pipeline s' → x ∈ pipeline s) as Hin by (intros x Hx; by eapply elem_of_sublist).
  assert (∀ c resp, answered s c resp → answered s' c resp) as Hans by (intros c resp; by apply answered_keep).
  constructor; rewrite ?Ep, ?Er, ?Ec, ?Ek, ?Ea; try done; eauto.
  - eapply sublist_NoDup; [exact or_unique0|]. by apply fmap_sublist.
  - intros E. eapply StronglySorted_sublist; [exact Hsub|by apply or_spares0].
  - intros c resp E. destruct (or_dispatch0 _ _ (Hd _ _ E)) as [? ?]. eauto.
Qed.

(** A request goes out. *)
Lemma orderly_append owner s c k :
  orderly owner s → mx_calls s !! c = Some k → active k = true → refusing k = false →
  c ∉ (pipeline s).*1 → mx_answers s !! c = None →
  (terminal_error (mx_responses s) = None →
   is_Some (live (pending (mx_protocol s)) !! call_tag k) ∧
   (∀ t old, call_message k = TFlush t old → flush_targets (mx_protocol s) !! t = Some old) ∧
   (∀ t, flush_targets (mx_protocol s) !! t ≠ Some (call_tag k))) →
  orderly owner (set_stream (mx_wire s ++ [(c, call_message k)]) (mx_serving s) (mx_replies s) s).
Proof.
  intros H Hk Ha Hr Hc Hans Hl. set (s' := set_stream _ _ _ _).
  assert (pipeline s' = pipeline s ++ [(c, Req (call_message k))]) as Hp.
  { unfold pipeline, s'. simpl. by rewrite fmap_app, <- !app_assoc. }
  assert (∀ x, x ∈ pipeline s' → x ∈ pipeline s ∨ x = (c, Req (call_message k))) as Hin by (rewrite Hp; set_solver).
  pose proof (or_active _ _ H _ _ Hk Ha) as Ho. destruct H. constructor; try done.
  - rewrite Hp, fmap_app. apply NoDup_app. split_and!; [done| |apply NoDup_singleton].
    by intros x Hx ->%list_elem_of_singleton.
  - intros c' it [?| [= -> ->]]%Hin; [by eapply or_written0|by exists k].
  - intros c' r [?|?]%Hin; [by eapply or_reply0|done].
  - intros c' m [?| [= -> ->]]%Hin; [by eapply or_request0|done].
  - intros c' it E [?| [= -> ->]]%Hin; [by eapply or_owner0|]. split; [done|]. by apply Hl.
  - intros c' t old E [?| [= -> Em]]%Hin; [by eapply or_target0|]. by apply Hl.
  - intros E. rewrite Hp. apply StronglySorted_app_2; [|by apply or_spares0|by repeat constructor].
    intros x y _ ->%list_elem_of_singleton _. by apply Hl.
Qed.

Lemma orderly_write owner s c k p wire :
  orderly owner s → mx_calls s !! c = Some k → call_phase k = Registered →
  p = Waiting ∨ (∃ e, p = WriteFailed e) →
  wire = mx_wire s ∨ wire = mx_wire s ++ [(c, call_message k)] →
  orderly owner (set_phase c k p (set_stream wire (mx_serving s) (mx_replies s) s)).
Proof.
  intros H Hk Hp Hphase Hwire.
  assert (orderly owner (set_phase c k p s)) as H1.
  { apply orderly_phase; [done|done|..]; unfold active, refusing, unwritten; rewrite ?Hp; simpl;
      destruct Hphase as [->|[e ->]]; try done;
      try (by intros ? [?|?]). intros _ resp Hch. eapply (or_channel _ _ H); [done|by rewrite Hp|done]. }
  destruct Hwire as [->| ->]; [by destruct s|].
  assert (unwritten k = true) as Hu by (unfold unwritten; by rewrite Hp).
  assert (refusing k = true) as Hr by (unfold refusing; by rewrite Hp).
  apply (orderly_append owner (set_phase c k p s) c (Call_mk (call_message k) p));
    [done|simpl; by rewrite lookup_insert_eq|..].
  - destruct Hphase as [->|[e ->]]; done.
  - destruct Hphase as [->|[e ->]]; done.
  - intros ([c' it] & -> & Hin)%list_elem_of_fmap. simpl in Hk.
    destruct (or_written _ _ H _ _ Hin) as (k' & ? & _ & ?). congruence.
  - by eapply (or_unsent _ _ H).
  - intros E. destruct (or_reserved _ _ H _ _ E Hk Hu) as [Hlive Htg]. split_and!; [done..|].
    intros t Et. by rewrite (or_named _ _ H _ _ _ _ Et Hk eq_refl) in Hu.
Qed.

(** The server answers. *)
Lemma served_sublist m r l : sublist (served m r l) l.
Proof.
  assert (∀ old, sublist (without_tag old l) l) as H by (intros old; apply sublist_filter).
  destruct m; try done. destruct r; try done. apply H.
Qed.

(** The reply to a flush leaves nothing behind it that it flushes. *)
Lemma served_spares targets c m r l w :
  fits m r = true →
  (∀ t old, m = TFlush t old → targets !! t = Some old) →
  Forall (spares targets (c, Req m)) w →
  Forall (spares targets (c, Rep r)) ((as_req <$> served m r l) ++ w).
Proof.
  intros Hfit Ht Hw. unfold fits in Hfit. apply andb_true_iff in Hfit as [Etag Hfit]. apply Z.eqb_eq in Etag.
  apply Forall_app. split; apply Forall_forall; intros y Hy Hfl; simpl in *; rewrite Etag;
    destruct r; try done; destruct m; try done.
  - simpl. rewrite (Ht _ _ eq_refl). intros [= E]. apply list_elem_of_fmap in Hy as (z & -> & Hz).
    by apply list_elem_of_filter in Hz as [Hz _].
  - rewrite Forall_forall in Hw. by apply (Hw y Hy).
Qed.

Lemma spares_answer targets a before c m after w r :
  fits m r = true → (∀ t old, m = TFlush t old → targets !! t = Some old) →
  StronglySorted (spares targets) (a ++ (as_req <$> before) ++ (c, Req m) :: (as_req <$> after) ++ w) →
  StronglySorted (spares targets) (a ++ (c, Rep r) :: (as_req <$> served m r (before ++ after)) ++ w).
Proof.
  intros Hfit Ht (Ha & Hsa & Hss)%StronglySorted_app.
  assert (sublist ((as_req <$> served m r (before ++ after)) ++ w)
            ((as_req <$> before) ++ (c, Req m) :: (as_req <$> after) ++ w)) as Hsub.
  { etrans; [apply sublist_app; [apply fmap_sublist, served_sublist|done]|].
    rewrite fmap_app, <- app_assoc. apply sublist_app; [done|]. by apply sublist_cons. }
  assert (r_tag r = t_tag m) as Etag by (unfold fits in Hfit; by apply andb_true_iff in Hfit as [?%Z.eqb_eq _]).
  apply StronglySorted_app. split_and!; [|done|].
  - intros x y Hx [->|Hy]%elem_of_cons.
    + specialize (Ha x (c, Req m) Hx ltac:(set_solver)). unfold spares in *. simpl in *. by rewrite Etag.
    + apply Ha; [done|]. by eapply elem_of_sublist.
  - constructor; [by eapply StronglySorted_sublist|]. apply served_spares; [done..|].
    apply StronglySorted_app in Hss as (_ & _ & [Hx _]%StronglySorted_cons). by apply Forall_app in Hx as [_ ?].
Qed.

Lemma orderly_answer owner s before c m after r :
  orderly owner s → mx_serving s = before ++ (c, m) :: after → fits m r = true →
  orderly owner (set_answer c r (set_stream (mx_wire s) (served m r (before ++ after))
                                   (mx_replies s ++ [(c, r)]) s)).
Proof.
  intros H Hs Hfit. set (s' := set_answer _ _ _).
  set (a := in_hand (mx_reader s) ++ (as_rep <$> mx_replies s)).
  set (rest := (as_req <$> (before ++ after)) ++ (as_req <$> mx_wire s)).
  assert (pipeline s = a ++ (as_req <$> before) ++ (c, Req m) :: (as_req <$> after) ++ (as_req <$> mx_wire s)) as Hp.
  { unfold pipeline, a. by rewrite Hs, fmap_app, <- !app_assoc. }
  assert (pipeline s' = a ++ (c, Rep r) :: (as_req <$> served m r (before ++ after)) ++ (as_req <$> mx_wire s)) as Hp'.
  { unfold pipeline, s', a. simpl. by rewrite fmap_app, <- !app_assoc. }
  assert (sublist ((as_req <$> served m r (before ++ after)) ++ (as_req <$> mx_wire s)) rest) as Hsub.
  { unfold rest. apply sublist_app; [|done]. apply fmap_sublist, served_sublist. }
  assert (pipeline s ≡ₚ (c, Req m) :: a ++ rest) as Hperm.
  { rewrite Hp. unfold rest. rewrite fmap_app. solve_Permutation. }
  pose proof (or_unique _ _ H) as Hnd. rewrite Hperm in Hnd. apply NoDup_cons in Hnd as [Hc Hnd].
  set (q := (as_req <$> served m r (before ++ after)) ++ (as_req <$> mx_wire s)) in *.
  assert (sublist (a ++ q) (a ++ rest)) as Hsub' by (by apply sublist_app).
  assert (∀ x, x ∈ pipeline s' → x = (c, Rep r) ∨ x ∈ pipeline s ∧ x.1 ≠ c) as Hin.
  { intros x Hx. rewrite Hp' in Hx. assert (x = (c, Rep r) ∨ x ∈ a ++ q) as [->|Hxq] by set_solver; [by left|].
    right. eapply elem_of_sublist in Hxq; [|exact Hsub']. split; [rewrite Hperm; set_solver|].
    intros E. apply Hc, list_elem_of_fmap. by exists x. }
  assert ((c, Req m) ∈ pipeline s) as Hm by (rewrite Hperm; set_solver).
  assert (∀ c' resp, answered s c' resp → answered s' c' resp) as Hans.
  { intros c' resp (r' & Hr' & ->). exists r'. simpl. rewrite lookup_insert_ne; [done|].
    intros <-. by rewrite (or_request _ _ H _ _ Hm) in Hr'. }
  assert (r_tag r = t_tag m) as Etag.
  { unfold fits in Hfit. by apply andb_true_iff in Hfit as [?%Z.eqb_eq _]. }
  destruct H. constructor; try done.
  - rewrite Hp', fmap_app. cbn [fmap list_fmap fst]. rewrite <- Permutation_middle, <- fmap_app.
    apply NoDup_cons. split; [|by eapply sublist_NoDup, fmap_sublist].
    intros Hc'. apply Hc. eapply elem_of_sublist; [exact Hc'|]. by apply fmap_sublist.
  - intros c' it [[= -> ->]|[? _]]%Hin; [|by eapply or_written0].
    simpl. rewrite Etag. by apply (or_written0 _ _ Hm).
  - intros c' r' [[= -> ->]|[? Hne]]%Hin; simpl; [by rewrite lookup_insert_eq|].
    rewrite lookup_insert_ne by done. by apply or_reply0.
  - intros c' m' [?|[? Hne]]%Hin; [done|]. simpl. rewrite lookup_insert_ne by done. by eapply or_request0.
  - intros c'. simpl. intros Hc'. destruct (or_written0 _ _ Hm) as (k & Hk & _). rewrite lookup_insert_ne by congruence.
    by apply or_fresh0.
  - intros c' k Hk Hr. destruct (or_written0 _ _ Hm) as (k' & Hk' & _ & ?). simpl.
    rewrite lookup_insert_ne; [by eapply or_unsent0|]. intros <-. simpl in Hk. congruence.
  - intros c' it E [[= -> ->]|[? _]]%Hin; [|by eapply or_owner0].
    simpl. rewrite Etag. by apply (or_owner0 c (Req m)).
  - intros c' t old E [?|[? _]]%Hin; [done|by eapply or_target0].
  - intros E. rewrite Hp'. apply spares_answer; [done| |rewrite <- Hp; by apply or_spares0].
    intros t old ->. by eapply or_target0.
  - intros c' resp E. destruct (or_dispatch0 _ _ E) as [? ?]. by auto.
  - intros c' k resp Hk Ho Hch. by eapply Hans, or_channel0.
  - intros c' k resp Hk Hd. by eapply Hans, or_done0.
Qed.

Lemma orderly_fail_all owner e s : orderly owner s → orderly owner (fail_all e s).
Proof.
  intros H. destruct (fail_all_spec e s) as (ch & x & -> & _ & Hch).
  apply orderly_responses; [done|done|done|done|].
  intros c k resp Hk Ho E. destruct (Hch c) as [E'|E']; [|congruence]. rewrite E' in E. by eapply (or_channel _ _ H).
Qed.

Lemma delete_waiters owner s t :
  orderly owner s →
  let rs := ResponseState_mk (delete t (waiters (mx_responses s))) (terminal_error (mx_responses s)) in
  (∀ t' c, waiters rs !! t' = Some c → ∃ k, mx_calls s !! c = Some k ∧ call_tag k = t') ∧
  (terminal_error rs ≠ None → waiters rs = ∅).
Proof.
  intros H rs. split.
  - intros t' c. simpl. intros [_ Hw]%lookup_delete_Some. by eapply (or_waiters _ _ H).
  - intros E. simpl. by rewrite (or_terminal _ _ H E), delete_empty.
Qed.

Lemma orderly_cancel owner t e s : orderly owner s → orderly owner (cancel_waiter t e s).
Proof.
  intros H. destruct (cancel_waiter_spec t e s) as (ch & -> & _ & Hch). destruct (delete_waiters _ _ t H).
  apply orderly_responses; [done..|].
  intros c k resp Hk Ho E. destruct (Hch c) as [E'|E']; [|congruence]. rewrite E' in E. by eapply (or_channel _ _ H).
Qed.

Lemma orderly_dispatch owner c r s :
  orderly owner s → mx_reader s = Dispatching c r → orderly owner (reader_dispatch r s).
Proof.
  intros H Hr. destruct (dispatch_spec r s) as (ch & -> & Hw & Hch). destruct (delete_waiters _ _ (response_tag r) H).
  destruct (or_dispatch _ _ H _ _ Hr) as [Hans Hown].
  assert (orderly owner (with_responses ch (ResponseState_mk (delete (response_tag r) (waiters (mx_responses s)))
                                             (terminal_error (mx_responses s))) s)) as H'.
  { apply orderly_responses; [done..|]. intros c' k resp Hk Ho Hsent.
    destruct (decide (waiters (mx_responses s) !! response_tag r = Some c')) as [Ew|Ew].
    + rewrite (Hw _ Ew) in Hsent. injection Hsent as <-.
      destruct (or_waiters _ _ H _ _ Ew) as (k' & Hk' & Et). simplify_eq.
      assert (terminal_error (mx_responses s) = None) as En.
      { destruct (terminal_error (mx_responses s)) eqn:E'; [|done].
        by rewrite (or_terminal _ _ H), lookup_empty in Ew by by rewrite E'. }
      assert (active k = true) as Ha by (unfold active; by destruct (call_phase k)).
      pose proof (or_active _ _ H _ _ Hk Ha) as Ho'. rewrite Et, (Hown En) in Ho'. by simplify_eq.
    + rewrite (Hch _ Ew) in Hsent. by eapply (or_channel _ _ H). }
  eapply orderly_stream; [exact H'|try done..]. unfold pipeline. simpl. by rewrite Hr.
Qed.

Lemma orderly_register owner c k s :
  orderly owner s → mx_calls s !! c = Some k → call_phase k = Built → orderly owner (submit_register c k s).
Proof.
  intros H Hk Hp.
  assert (∀ ch rs p, orderly owner (with_responses ch rs s) → (∃ e, p = Refused e) ∨ p = Registered ∧ ch !! c = Some Open →
    orderly owner (set_phase c k p (with_responses ch rs s))) as Hphase.
  { intros ch rs p H' Hc. apply orderly_phase; [done|done|..]; unfold active, refusing, unwritten; rewrite ?Hp; simpl;
      destruct Hc as [[e ->]|[-> Hopen]]; try done; try (by intros ? [?|?]). by rewrite Hopen. }
  assert (∀ t c', <[call_tag k := c]> (waiters (mx_responses s)) !! t = Some c' →
    ∃ k', mx_calls s !! c' = Some k' ∧ call_tag k' = t) as Hw.
  { intros t c'. rewrite lookup_insert_Some. intros [[<- <-]|[_ ?]]; [by exists k|by eapply (or_waiters _ _ H)]. }
  assert (∀ c' k' resp, mx_calls s !! c' = Some k' → owed (call_phase k') = true →
    <[c := Open]> (mx_channels s) !! c' = Some (Sent (Ok resp)) → answered s c' resp) as Hch.
  { intros c' k' resp Hk' Ho. rewrite lookup_insert_Some. intros [[<- [=]]|[_ Hch]]. by eapply (or_channel _ _ H). }
  destruct (submit_register_cases c k s) as [e Ht|old e Ht Hold|Ht Hold]; apply Hphase;
    try (left; by eexists); try (right; by rewrite lookup_insert_eq); apply orderly_responses;
    try done; try (by rewrite Ht).
  - intros t c' Hw'. by eapply (or_waiters _ _ H).
  - apply H.
  - intros c' k' resp Hk' Ho. rewrite lookup_insert_Some. intros [[<- [=]]|[_ ?]]. by eapply Hch.
Qed.

Lemma orderly_dispatching owner s c resp :
  orderly owner s → in_hand (mx_reader s) = [] → answered s c resp →
  (terminal_error (mx_responses s) = None → owner !! response_tag resp = Some c) →
  orderly owner (set_reader (Dispatching c resp) s).
Proof.
  intros H Hr Ha Ho.
  assert (pipeline (set_reader (Dispatching c resp) s) = pipeline s) as Hp by (unfold pipeline; by rewrite Hr).
  destruct H. constructor; rewrite ?Hp; try done. by intros c' resp' [= <- <-].
Qed.

(** The reader takes a response in. *)
Lemma orderly_receive owner c r s :
  orderly owner s → mx_reader s = Received c r → orderly owner (reader_receive c r s).
Proof.
  intros H Hr. assert (pipeline s = (c, Rep r) :: pipeline (set_reader Reading s)) as Hp.
  { unfold pipeline. by rewrite Hr. }
  assert ((c, Rep r) ∈ pipeline s) as Hin by (rewrite Hp; set_solver).
  destruct (or_written _ _ H _ _ Hin) as (k & Hk & Etag & Href). simpl in Etag.
  assert (r_tag r ≠ NOTAG) as Hno by (rewrite <- Etag; by eapply (or_tag _ _ H)).
  unfold reader_receive. destruct (receive r (mx_protocol s)) as [res p'] eqn:E.
  apply receive_receives in E as [Hok Hnext Hlive Htg Hfew]; [|done].
  assert (orderly owner (set_protocol p' (set_reader Reading s))) as H1.
  { apply orderly_protocol.
    - eapply orderly_stream; [exact H|try done..]. rewrite Hp. by apply sublist_cons.
    - rewrite Hnext. apply H.
    - done.
    - simpl. intros En c' it Hin'. destruct (or_owner _ _ H _ _ En Hin) as [Ho _].
      assert ((c', it) ∈ pipeline s) as Hin2 by (rewrite Hp; set_solver).
      destruct (or_owner _ _ H _ _ En Hin2) as [Ho' Hl].
      assert (item_tag it ≠ r_tag r) as Hne.
      { intros Et. simpl in Ho. rewrite Et, Ho in Ho'. injection Ho' as <-.
        pose proof (or_unique _ _ H) as Hnd. rewrite Hp in Hnd. apply NoDup_cons in Hnd as [Hc _].
        apply Hc, list_elem_of_fmap. by exists (c, it). }
      rewrite Htg by done. split; [|done]. apply Hlive; [done..|]. intros Hfl.
      pose proof (or_spares _ _ H En) as Hss. rewrite Hp in Hss. apply StronglySorted_cons in Hss as [Hx _].
      rewrite Forall_forall in Hx. by apply (Hx _ Hin').
    - simpl. intros En c' k' Hk' Hu. destruct (or_owner _ _ H _ _ En Hin) as [Ho _].
      destruct (or_reserved _ _ H _ _ En Hk' Hu) as [Hl _].
      assert (call_tag k' ≠ r_tag r) as Hne.
      { intros Et. assert (active k' = true) as Ha by (unfold unwritten, active in *; by destruct (call_phase k')).
        pose proof (or_active _ _ H _ _ Hk' Ha) as Ho'. rewrite Et in Ho'. simpl in Ho. simplify_eq.
        unfold unwritten, refusing in *. by destruct (call_phase k). }
      rewrite Htg by done. split; [|done]. apply Hlive; [done..|]. intros _ Et.
      by rewrite (or_named _ _ H _ _ _ _ Et Hk' eq_refl) in Hu. }
  destruct res as [resp|e]; [|case_match; (eapply orderly_stream; [exact H1|done..])].
  rewrite (Hok _ eq_refl).
  apply (orderly_dispatching _ (set_protocol p' (set_reader Reading s))); [done|done|..].
  - exists r. split; [by eapply (or_reply _ _ H)|done].
  - rewrite response_of_tag. intros En. by apply (or_owner _ _ H c (Rep r)).
Qed.

Lemma set_phase_twice c k p p' s :
  set_phase c (Call_mk (call_message k) p) p' (set_phase c k p s) = set_phase c k p' s.
Proof. unfold set_phase, set_call. simpl. by rewrite insert_insert_eq. Qed.

(** A call ends with an error. *)
Lemma orderly_over owner s c k p :
  orderly owner s → mx_calls s !! c = Some k → active k = true → refusing (Call_mk (call_message k) p) = false →
  owed p = false → (∀ e, p ≠ Abandoning e) → (∀ resp, p ≠ Done (Ok resp) ∧ p ≠ FlushDone resp) →
  orderly owner (set_phase c k p s).
Proof.
  intros H Hk Ha Hr Ho Hab Hd. apply orderly_phase; [done..| | | | |].
  - by rewrite Hr.
  - unfold unwritten, refusing in *. by destruct p.
  - by rewrite Ho.
  - intros e ->. by destruct (Hab e).
  - intros resp [->| ->]; by destruct (Hd resp).
Qed.

(** It gives its tag back first. *)
Lemma orderly_gives_back owner s c k e :
  orderly owner s → mx_calls s !! c = Some k → call_phase k = Built ∨ (∃ e', call_phase k = Refused e') →
  orderly owner (set_phase c k (Done (Err e)) (abandon_tag (call_tag k) s)).
Proof.
  intros H Hk Hp. set (k' := Call_mk (call_message k) (Refused e)).
  assert (orderly owner (set_phase c k (Refused e) s)) as H1.
  { apply orderly_phase; try done; [unfold active|unfold refusing|by intros ? [?|?]];
      by destruct Hp as [->|[e' ->]]. }
  apply (orderly_abandon _ _ c k') in H1; [|simpl; by rewrite lookup_insert_eq|by eexists].
  apply (orderly_over _ _ c k' (Done (Err e))) in H1; [|simpl; by rewrite lookup_insert_eq|done..].
  by rewrite <- (set_phase_twice c k (Refused e)).
Qed.

Lemma fail_all_calls e s : mx_calls (fail_all e s) = mx_calls s.
Proof. by destruct (fail_all_spec e s) as (ch & x & -> & _). Qed.

Lemma fail_all_terminal e s : terminal_error (mx_responses (fail_all e s)) ≠ None.
Proof. by destruct (fail_all_spec e s) as (ch & x & -> & _). Qed.

Lemma cancel_waiter_keeps t e s :
  mx_calls (cancel_waiter t e s) = mx_calls s ∧ mx_answers (cancel_waiter t e s) = mx_answers s.
Proof. by destruct (cancel_waiter_spec t e s) as (ch & -> & _). Qed.

(** A call takes what is in its channel. *)
Lemma orderly_wait owner s c k reply :
  orderly owner s → mx_calls s !! c = Some k → call_phase k = Waiting →
  mx_channels s !! c = Some (Sent reply) → orderly owner (set_phase c k (after_wait k reply) s).
Proof.
  intros H Hk Hp Hch.
  assert (∀ resp, reply = Ok resp → answered s c resp) as Hans.
  { intros resp ->. eapply (or_channel _ _ H); [done|by rewrite Hp|done]. }
  apply orderly_phase; [done..| | | | | |]; unfold after_wait; try (repeat case_match; done).
  - intros _. unfold active. by rewrite Hp.
  - intros resp Hd. apply Hans. repeat case_match; naive_solver.
Qed.

(** The call of a timeout starts its flush. *)
Lemma orderly_flush owner s c k op p f :
  orderly owner s → mx_calls s !! c = Some k → call_phase k = TimedOut →
  client_flush (call_tag k) (mx_protocol s) = (Ok op, p) → mx_calls s !! f = None → disciplined s op →
  ∃ owner', orderly owner' (set_phase c k (Flushing f)
                              (set_call f (Call_mk (op_message op) Built) (set_protocol p s))).
Proof.
  intros H Hk Hp E Hf Hd. eexists. apply orderly_over.
  - eapply orderly_new; [done|by eapply flush_builds; [apply H|]|done..].
  - simpl. rewrite lookup_insert_ne; [done|]. congruence.
  - unfold active. by rewrite Hp.
  - done.
  - done.
  - done.
  - done.
Qed.

(** A flush has cancelled the waiter it names. *)
Lemma orderly_flushed owner s f k r t e :
  orderly owner s → mx_calls s !! f = Some k → call_phase k = FlushDone r →
  orderly owner (set_phase f k (Done (Ok r)) (cancel_waiter t e s)).
Proof.
  intros H Hk Hp. destruct (cancel_waiter_keeps t e s) as [Ek Ea].
  apply orderly_phase; [by apply orderly_cancel|by rewrite Ek|unfold active; by rewrite Hp|done..|].
  intros resp [[= <-]|[=]]. eapply answered_keep; [done|]. eapply (or_done _ _ H); [done|by right].
Qed.

Lemma orderly_step owner s s' :
  orderly owner s → mux_step disciplined s s' → ∃ owner', orderly owner' s'.
Proof.
  intros H Hs.
  assert (∀ k p, call_phase k = p → active k = match p with Done _ => false | _ => true end) as Hact.
  { intros k p <-. done. }
  destruct Hs; try (by eapply orderly_flush);
    try (exists owner; by apply orderly_over; [done|done|by erewrite Hact by eassumption|..]).
  - eexists. eapply orderly_new; [done|by eapply build_builds; [apply H|]|done..].
  - exists owner. apply orderly_unbuilt; [done|]. by eapply build_unbuilt; [apply H|].
  - exists owner. apply orderly_gives_back; auto.
  - exists owner. apply orderly_gives_back; auto.
  - exists owner. by apply orderly_register.
  - exists owner. apply orderly_gives_back; eauto.
  - exists owner. apply orderly_write; auto.
  - exists owner. apply orderly_write; eauto.
  - exists owner. apply orderly_phase; try done;
      [by apply orderly_fail_all|by rewrite fail_all_calls|intros _; by erewrite Hact by eassumption|by intros; apply fail_all_terminal|by intros ? [?|?]].
  - exists owner. apply orderly_over; try done; [|by erewrite Hact by eassumption].
    apply orderly_abandon_failed; [done|by eapply (or_tag _ _ H)|by eapply (or_abandoning _ _ H)].
  - exists owner. by apply orderly_wait.
  - exists owner. unfold after_timeout. destruct (is_flush (call_message k)); apply orderly_over; try done; by erewrite Hact by eassumption.
  - exists owner. apply orderly_over; try done; [|by erewrite Hact by eassumption].
    apply orderly_unbuilt; [done|]. by eapply (build_unbuilt (RqFlush _)); [apply H|].
  - exists owner. by apply orderly_flushed.
  - exists owner. apply orderly_over; try done; [by apply orderly_cancel| |by erewrite Hact by eassumption].
    by rewrite (proj1 (cancel_waiter_keeps _ _ _)).
  - exists owner. by apply orderly_fail_all.
  - exists owner. eapply orderly_stream; [exact H|done..| |done]. unfold pipeline. simpl. by rewrite H0, H1.
  - exists owner. eapply orderly_stream; [exact H|done..| |done]. unfold pipeline. simpl. by rewrite H0.
  - exists owner. by apply orderly_receive.
  - exists owner. by eapply orderly_dispatch.
  - exists owner. eapply orderly_stream; [by apply (orderly_fail_all _ e)|done..| |done].
    unfold pipeline. simpl. by apply sublist_inserts_l.
  - exists owner. eapply orderly_stream; [exact H|done..| |done]. unfold pipeline. simpl.
    by rewrite H0, fmap_app, <- !app_assoc.
  - exists owner. by apply orderly_answer.
Qed.

Lemma orderly_reachable p s :
  is_u16 (next_tag p) → mux_reachable disciplined p s → ∃ owner, orderly owner s.
Proof.
  intros Hn Hr. unfold mux_reachable in Hr. remember (Mux_new p) as s0 eqn:E0.
  assert (orderly ∅ s0) as H0.
  { subst. constructor; simpl; try done; try (intros *; by rewrite lookup_empty); try set_solver.
    - apply NoDup_nil_2.
    - by constructor. }
  clear E0. revert H0. generalize (∅ : gmap Z Sender). induction Hr as [|s1 s2 s3 Hs _ IH]; intros owner H0.
  { by exists owner. }
  destruct (orderly_step _ _ _ H0 Hs) as [owner' H1]. by eapply IH.
Qed.
