(* ===== verification/MultiplexProps.v ===== *)
(** What the multiplexed client guarantees: no call hangs on a connection that
    failed, every interleaving of its threads hands a response to the call it
    answers as long as no tag is reused while something still refers to it, and
    a tag reused too early can break that. *)
From stdpp Require Import sorting.
From S2P Require Import Prelude Errors Utf8 Qid Stat Referral Message Codec.
From S2P Require Import RequestTable Client ClientProps ClientSupport EndToEnd Multiplex MultiplexInv.

(** A call with an outcome ([FlushDone] has one lock to take before it returns). *)
Definition concluded (k : Call) : Prop :=
  match call_phase k with Done _ | FlushDone _ => True | _ => False end.

(** C22: no call hangs on a connection that failed: in every state that any
    interleaving of the threads, the reader and the server reaches, a waiting
    call can take its outcome at once, unless nothing has ended the connection
    and the call is still registered under its tag, where the reader will find
    it.  So once the reader stops, a write fails or the client shuts down, every
    waiting call can return. *)
Theorem no_call_hangs ok p s c k :
  mux_reachable ok p s → mx_calls s !! c = Some k → call_phase k = Waiting →
  (∃ s' k', mux_step ok s s' ∧ mx_calls s' !! c = Some k' ∧ concluded k') ∨
  (terminal_error (mx_responses s) = None ∧ mx_channels s !! c = Some Open ∧
   waiters (mx_responses s) !! call_tag k = Some c).
Proof.
  intros [H1 H2 H3]%awaited_reachable Hk Hp. destruct (H1 _ _ Hk) as [ch Hch]; [by rewrite Hp|].
  destruct ch as [|reply|].
  - right. pose proof (H2 _ _ Hk) as Hw. rewrite Hp in Hw. specialize (Hw eq_refl Hch). split_and!; [|done..].
    destruct (terminal_error (mx_responses s)); [|done]. by rewrite H3, lookup_empty in Hw.
  - left. eexists _, _. split_and!; [by eapply ms_wait|simpl; by rewrite lookup_insert_eq|].
    unfold concluded, after_wait. simpl. by repeat case_match.
  - left. eexists _, _. split_and!; [by eapply ms_wait_disconnected|simpl; by rewrite lookup_insert_eq|done].
Qed.

(** C3: responses reach the calls they answer: for every interleaving of the
    calling threads, the reader and the server, timeouts, flushes and failures
    included, a response that a call returns is the server's answer to that
    call's own request, provided that requests take tags nothing refers to any
    more and flushes name requests that were written. *)
Theorem responses_reach_their_calls p s c k resp :
  is_u16 (next_tag p) → mux_reachable disciplined p s →
  mx_calls s !! c = Some k → call_phase k = Done (Ok resp) →
  ∃ r, mx_answers s !! c = Some r ∧ resp = response_of r.
Proof.
  intros Hn Hr Hk Hp. destruct (orderly_reachable _ _ Hn Hr) as [owner H].
  eapply (or_done _ _ H); [done|by left].
Qed.

(** ** Concrete runs *)

(** A client after negotiation and attach, with the smallest message size. *)
Definition attached_client : Client :=
  let '(_, c) := version_request_for 256 Plain Client_new in
  let '(_, c) := receive (RVersion NOTAG 256 (bstr "9P2000")) c in
  let '(_, c) := client_attach (bstr "glenda") [] c in
  (receive (RAttach 0 (Qid_dir 1)) c).2.

Lemma attached_client_state :
  attached_client =
  Client_mk 256 (bstr "9P2000") None 1 2 (RequestTable_mk 3 ∅) ∅.
Proof. vm_compute. reflexivity. Qed.

Definition any_request (s : Mux) (op : Op) : Prop := True.

(** The state [s] after some calls that came and went: [next_tag] has moved on. *)
Definition later (tag generation : Z) (calls : gmap Sender Call) (s : Mux) : Mux :=
  let p := mx_protocol s in
  Mux_mk (set_pending (RequestTable_mk generation (live (pending p))) (set_next_tag tag p))
    (mx_responses s) (mx_channels s) calls (mx_reader s) (mx_wire s) (mx_serving s) (mx_replies s)
    (mx_answers s).

(** A write that is too large for the connection takes a tag and gives it back. *)
Lemma oversized_write s i :
  c_msize (mx_protocol s) = 256 → is_u16 (next_tag (mx_protocol s)) →
  (i < Z.to_nat u16_max)%nat →
  usable (mx_protocol s) (turn_tag (mx_protocol s) i) →
  (∀ j, (j < i)%nat → ¬ usable (mx_protocol s) (turn_tag (mx_protocol s) j)) →
  flush_targets (mx_protocol s) !! turn_tag (mx_protocol s) i = None →
  ∃ generation calls,
    rtc (mux_step any_request) s (later (turn_tag (mx_protocol s) (S i)) generation calls s) ∧
    mx_calls s ⊆ calls.
Proof.
  intros Hm Hn Hi Hu Hb Hf. set (p := mx_protocol s) in *. set (t := turn_tag p i) in *.
  set (data := replicate 300 x00). set (c := fresh (dom (mx_calls s))).
  assert (mx_calls s !! c = None) as Hc by (apply not_elem_of_dom, is_fresh).
  destruct (alloc_tag_loop_spec (Z.to_nat u16_max) p Hn) as [(i' & key & p1 & Hi' & Hu' & Hb' & Hkey & Ha & Hp1)|[Hall _]];
    [|by destruct (Hall i)].
  assert (i' = i) as -> by (destruct (Nat.lt_total i i') as [?|[?|?]]; [by destruct (Hb' i)|done|by destruct (Hb i')]).
  fold t in Ha, Hp1, Hkey, Hu.
  assert (build (RqWrite 2 0 data) p = (Ok (Op_mk t (Some 2) (TWrite t 2 0 data)), p1)) as Hbuild.
  { cbn [build]. unfold client_write, mbind, M_bind. change alloc_tag with (alloc_tag_loop (Z.to_nat u16_max)). by rewrite Ha. }
  assert (∃ e, encode_tmessage_checked (TWrite t 2 0 data) 256 = Err e) as [e He].
  { eexists. vm_compute. reflexivity. }
  assert (abandon t p1 = set_pending (RequestTable_mk (next_generation (pending p1)) (live (pending p)))
            (set_next_tag (turn_tag p (S i)) p)) as Hab.
  { destruct Hu as [Hno Hdead]. unfold abandon. rewrite (proj2 (Z.eqb_neq _ _) Hno). subst p1.
    unfold forget, flush. simpl. rewrite (proj2 (Z.eqb_neq _ _) Hno). simpl.
    unfold set_flush_targets, set_pending, set_next_tag. simpl.
    by rewrite delete_insert_id, (delete_id (flush_targets p)) by done. }
  eexists (next_generation (pending p1)), _. split.
  - eapply rtc_l; [by eapply (ms_build _ s (RqWrite 2 0 data) _ _ c)|]. apply rtc_once.
    match goal with |- mux_step _ ?s1 _ =>
      assert (mux_step any_request s1 (set_phase c (Call_mk (TWrite t 2 0 data) Built)
        (Done (Err (Error_new (bstr "encode 9P frame: " ++ display_lossy e)))) (abandon_tag t s1))) as Hstep end.
    { apply ms_encode_failed; [simpl; by rewrite lookup_insert_eq|done|]. simpl. subst p1. simpl. by rewrite Hm. }
    unfold abandon_tag in Hstep. simpl mx_protocol in Hstep. rewrite Hab in Hstep. exact Hstep.
  - simpl. rewrite insert_insert_eq. by apply insert_subseteq.
Qed.

Lemma later_later t g cs t' g' cs' s : later t g cs (later t' g' cs' s) = later t g cs s.
Proof. done. Qed.

(** Such writes, one after the other, take [next_tag] up to the end. *)
Lemma oversized_writes n s :
  c_msize (mx_protocol s) = 256 → 0 ≤ next_tag (mx_protocol s) → next_tag (mx_protocol s) + Z.of_nat n ≤ 65535 →
  (∀ t, next_tag (mx_protocol s) ≤ t → t ≠ NOTAG →
     live (pending (mx_protocol s)) !! t = None ∧ flush_targets (mx_protocol s) !! t = None) →
  ∃ generation calls,
    rtc (mux_step any_request) s (later (next_tag (mx_protocol s) + Z.of_nat n) generation calls s) ∧
    mx_calls s ⊆ calls.
Proof.
  intros Hm H0 Hn Hfree. induction n as [|n IH].
  - exists (next_generation (pending (mx_protocol s))), (mx_calls s). split; [|done].
    rewrite Z.add_0_r. by destruct s as [[? ? ? ? ? [] ?] ? ? ? ? ? ? ? ?].
  - destruct IH as (g & cs & Hr & Hcs); [lia|]. set (s1 := later _ _ _ _) in Hr.
    set (t := next_tag (mx_protocol s) + Z.of_nat n) in *.
    assert (turn_tag (mx_protocol s1) 0 = t) as Ht.
    { unfold turn_tag. simpl. rewrite Z.add_0_r. apply Z.mod_small. unfold u16_max. lia. }
    assert (turn_tag (mx_protocol s1) 1 = next_tag (mx_protocol s) + Z.of_nat (S n)) as Ht1.
    { unfold turn_tag. simpl. rewrite Z.mod_small; unfold t, u16_max; lia. }
    assert (t ≠ NOTAG) as Hno by (unfold NOTAG, u16_max, t; lia).
    destruct (Hfree t ltac:(unfold t; lia) Hno) as [Hl Hf].
    destruct (oversized_write s1 0) as (g' & cs' & Hr' & Hcs'); rewrite ?Ht; try done.
    { simpl. unfold t. vlia. }
    { unfold u16_max. lia. }
    { lia. }
    exists g', cs'. split; [|by etrans]. etrans; [exact Hr|]. by rewrite Ht1 in Hr'.
Qed.

(** Replaces the state a run has reached by its value. *)
Ltac settle := match goal with |- rtc _ ?s _ => let v := eval vm_compute in s in change s with v end.
Tactic Notation "run" uconstr(step) :=
  eapply rtc_l; [eapply step; match goal with
                          | |- any_request _ _ => exact I
                          | |- _ => vm_compute; reflexivity
                          end|settle].

(** A read (call 0) times out and so does its flush (call 1): both tags stay in
    flight, and nobody waits for them any more. *)
Lemma timed_out_read :
  ∃ s, mux_reachable any_request attached_client s ∧
    mx_protocol s = Client_mk 256 (bstr "9P2000") None 3 2
      (RequestTable_mk 5 {[1 := RequestKey_mk 1 3; 2 := RequestKey_mk 2 4]}) {[2 := 1]} ∧
    mx_responses s = ResponseState_default ∧ mx_reader s = Reading ∧ mx_replies s = [] ∧
    mx_serving s = [(0%nat, TRead 1 1 0 10)] ∧ mx_answers s = ∅ ∧
    is_Some (mx_calls s !! 0%nat).
Proof.
  eexists. split.
  { unfold mux_reachable. settle.
    run (ms_build any_request _ (RqRead 1 0 10) _ _ 0%nat).
    run (ms_register any_request _ 0%nat).
    run (ms_write any_request _ 0%nat).
    run (ms_serve any_request).
    run (ms_timeout any_request _ 0%nat _ (from_static "9P response timeout")).
    run (ms_flush_start any_request _ 0%nat _ _ _ 1%nat).
    run (ms_register any_request _ 1%nat).
    run (ms_write any_request _ 1%nat).
    run (ms_timeout any_request _ 1%nat _ (from_static "9P response timeout")).
    run (ms_cancel any_request _ 1%nat).
    run (ms_flush_over any_request _ 0%nat _ 1%nat _ _ (from_static "9P response timeout")).
    run (ms_cancel any_request _ 0%nat).
    apply rtc_refl. }
  split_and!; vm_compute; try reflexivity. by eexists.
Qed.

(** Tags go around once: the next request would take the tag of the read. *)
Lemma tags_went_around s :
  mx_protocol s = Client_mk 256 (bstr "9P2000") None 3 2
    (RequestTable_mk 5 {[1 := RequestKey_mk 1 3; 2 := RequestKey_mk 2 4]}) {[2 := 1]} →
  ∃ g calls, rtc (mux_step any_request) s (later 1 g calls s) ∧ mx_calls s ⊆ calls.
Proof.
  intros Hp. destruct (oversized_writes (Z.to_nat 65532) s) as (g & cs & Hr & Hcs);
    rewrite ?Hp, ?Z2Nat.id by lia; [done|done|done| |].
  { intros t Ht _. cbn [next_tag pending live flush_targets] in *.
    rewrite lookup_insert_ne, !lookup_singleton_ne by lia. done. }
  rewrite Hp, Z2Nat.id in Hr by lia. change (next_tag _ + 65532) with 65535 in Hr.
  set (s1 := later _ _ _ _) in Hr.
  assert (turn_tag (mx_protocol s1) 0 = 65535 ∧ turn_tag (mx_protocol s1) 1 = 0 ∧
          turn_tag (mx_protocol s1) 2 = 1) as (T0 & T1 & T2) by done.
  assert (live (pending (mx_protocol s1)) = {[1 := RequestKey_mk 1 3; 2 := RequestKey_mk 2 4]}) as Hl
    by (unfold s1, later; simpl; by rewrite Hp).
  destruct (oversized_write s1 1) as (g' & cs' & Hr' & Hcs'); rewrite ?T1.
  - unfold s1, later. simpl. by rewrite Hp.
  - change (is_u16 65535). vlia.
  - unfold u16_max. lia.
  - unfold usable. by rewrite Hl.
  - intros j Hj. assert (j = 0%nat) as -> by lia. rewrite T0. by intros [? _].
  - unfold s1, later. simpl. by rewrite Hp.
  - rewrite T2 in Hr'. exists g', cs'. split; [by etrans|by etrans].
Qed.

(** The state of the run after the server has answered the read and the reader
    has freed its tag. *)
Definition freed_tag (g : Z) (ch : gmap Sender Channel) (calls : gmap Sender Call)
    (wire : list (Sender * TMessage)) (old : RMessage) : Mux :=
  Mux_mk (Client_mk 256 (bstr "9P2000") None 1 2 (RequestTable_mk g {[2 := RequestKey_mk 2 4]}) {[2 := 1]})
    ResponseState_default ch calls (Dispatching 0%nat (response_of old)) wire [] [] {[0%nat := old]}.

Lemma submit_register_ok c k s :
  terminal_error (mx_responses s) = None → waiters (mx_responses s) !! call_tag k = None →
  submit_register c k s =
  set_phase c k Registered
    (with_responses (<[c := Open]> (mx_channels s))
       (ResponseState_mk (<[call_tag k := c]> (waiters (mx_responses s))) None) s).
Proof.
  intros Ht Hw. destruct (submit_register_cases c k s) as [e Ht'|old e Ht' Hw'|? ?]; congruence.
Qed.

Lemma reader_dispatch_waiter c r s :
  waiters (mx_responses s) !! response_tag r = Some c →
  reader_dispatch r s =
  send (Ok r) c (set_reader Reading (set_responses
    (ResponseState_mk (delete (response_tag r) (waiters (mx_responses s))) (terminal_error (mx_responses s))) s)).
Proof. intros Hw. unfold reader_dispatch, remove. by rewrite Hw. Qed.

(** A request that takes the freed tag now gets the old response. *)
Lemma freed_tag_taken g ch calls wire old c :
  calls !! c = None → r_tag old = 1 →
  ∃ s k, rtc (mux_step any_request) (freed_tag g ch calls wire old) s ∧
    mx_calls s !! c = Some k ∧ call_phase k = after_wait (Call_mk (TRead 1 1 0 10) Waiting) (Ok (response_of old)) ∧
    mx_answers s = {[0%nat := old]}.
Proof.
  intros Hc Ht. set (m := TRead 1 1 0 10). eexists _, _. split.
  { eapply rtc_l; [by eapply (ms_build _ _ (RqRead 1 0 10) (Op_mk 1 (Some 1) m) _ c);
      [vm_compute; reflexivity| |]|].
    eapply rtc_l; [eapply (ms_register _ _ c (Call_mk m Built));
      [simpl; by rewrite lookup_insert_eq|done|vm_compute; reflexivity]|].
    rewrite submit_register_ok by done.
    eapply rtc_l; [apply (ms_write _ _ c (Call_mk m Registered)); [simpl; by rewrite lookup_insert_eq|done]|].
    eapply rtc_l; [by eapply ms_dispatch|]. rewrite (reader_dispatch_waiter c).
    2:{ rewrite response_of_tag, Ht. simpl. by rewrite lookup_insert_eq. }
    apply rtc_once, (ms_wait _ _ c (Call_mk m Waiting)); [simpl; by rewrite lookup_insert_eq|done|].
    simpl. by rewrite lookup_insert_eq. }
  split_and!; [simpl; by rewrite lookup_insert_eq|done|done].
Qed.

(** A late response can reach the wrong call: the reader frees the tag of a
    response under one lock and looks for its waiter under another.  When the
    call it belongs to has timed out, and a new request takes the freed tag in
    between, the new call returns the old response, although the server has not
    answered it. *)
Theorem late_response_misdelivered :
  ∃ s c k c' resp,
    mux_reachable any_request attached_client s ∧
    mx_calls s !! c = Some k ∧ call_phase k = Done (Ok resp) ∧ mx_answers s !! c = None ∧
    c' ≠ c ∧ answered s c' resp.
Proof.
  destruct timed_out_read as (s & Hr & Hp & Hrs & Hrd & Hrep & Hserv & Hans & Hc0).
  destruct (tags_went_around s Hp) as (g & calls & Hr1 & Hcalls).
  destruct Hc0 as [k0 Hc0]. eapply lookup_weaken in Hc0; [|exact Hcalls].
  destruct s as [p rs ch cs rd wire serving replies answers]. simpl in *. subst. unfold later in Hr1. simpl in Hr1.
  set (c := fresh (dom calls)).
  assert (calls !! c = None) as Hc by (apply not_elem_of_dom, is_fresh).
  assert (c ≠ 0%nat) as Hne by congruence.
  set (old := RRead 1 (bstr "old")).
  destruct (freed_tag_taken g ch calls wire old c Hc eq_refl) as (s & k & Hr2 & Hk & Hphase & Ha).
  exists s, c, k, 0%nat, (response_of old). split_and!; [|done|by rewrite Hphase| |done|].
  - unfold mux_reachable. etrans; [exact Hr|]. etrans; [exact Hr1|].
    eapply rtc_l; [by apply (ms_answer _ _ [] 0%nat (TRead 1 1 0 10) [] old)|].
    eapply rtc_l; [by apply (ms_read _ _ 0%nat old [])|].
    eapply rtc_l; [by apply (ms_receive _ _ 0%nat old)|]. exact Hr2.
  - rewrite Ha. by rewrite lookup_singleton_ne.
  - exists old. by rewrite Ha, lookup_singleton_eq.
Qed.

(** A read that is answered, and one that is still waiting when the client shuts
    the connection down. *)
Lemma disciplined_first rq op p' :
  build rq attached_client = (Ok op, p') → is_flush (op_message op) = false → disciplined (Mux_new attached_client) op.
Proof.
  intros _ Hm. split; [split_and!|by destruct (op_message op)].
  - intros c k. simpl. by rewrite lookup_empty.
  - done.
  - intros f old. by rewrite attached_client_state.
Qed.

Ltac start_read :=
  unfold mux_reachable; eapply rtc_l;
  [eapply (ms_build _ _ (RqRead 1 0 10) _ _ 0%nat);
   [vm_compute; reflexivity|reflexivity|eapply (disciplined_first (RqRead 1 0 10)); [vm_compute; reflexivity|reflexivity]]|settle];
  run (ms_register disciplined _ 0%nat); run (ms_write disciplined _ 0%nat).

Lemma answered_read :
  ∃ s, mux_reachable disciplined attached_client s ∧
    mx_calls s !! 0%nat = Some (Call_mk (TRead 1 1 0 10) (Done (Ok (ClientCompletion 1 (CompRead (bstr "new")))))).
Proof.
  eexists. split.
  { start_read. run (ms_serve disciplined). run (ms_answer disciplined _ [] _ _ [] (RRead 1 (bstr "new"))).
    run (ms_read disciplined). run (ms_receive disciplined). run (ms_dispatch disciplined).
    run (ms_wait disciplined _ 0%nat). apply rtc_refl. }
  reflexivity.
Qed.

Lemma shut_down_read :
  ∃ s, mux_reachable disciplined attached_client s ∧
    mx_calls s !! 0%nat = Some (Call_mk (TRead 1 1 0 10) Waiting) ∧ terminal_error (mx_responses s) ≠ None.
Proof.
  eexists. split.
  { start_read. run (ms_shutdown disciplined). apply rtc_refl. }
  split; [reflexivity|discriminate].
Qed.

Lemma responses_reach_their_calls_witness :
  ∃ s r, mux_reachable disciplined attached_client s ∧ mx_answers s !! 0%nat = Some r ∧
    ClientCompletion 1 (CompRead (bstr "new")) = response_of r.
Proof.
  destruct answered_read as (s & Hr & Hk).
  assert (is_u16 (next_tag attached_client)) as Hn by (vm_compute; split; discriminate).
  destruct (responses_reach_their_calls _ _ _ _ _ Hn Hr Hk eq_refl) as (r & Hr1 & Hr2).
  by exists s, r.
Defined.

Lemma no_call_hangs_witness :
  ∃ s s' k', mux_reachable disciplined attached_client s ∧ mux_step disciplined s s' ∧
    mx_calls s' !! 0%nat = Some k' ∧ concluded k'.
Proof.
  destruct shut_down_read as (s & Hr & Hk & Ht).
  destruct (no_call_hangs disciplined attached_client s 0%nat _ Hr Hk eq_refl) as [(s' & k' & H)|[? _]]; [|done].
  by exists s, s', k'.
Defined.
