(* ===== verification/MultiplexClient.v ===== *)
(** The operations of the multiplexed client: [crates/core/src/multiplex/client.rs],
    [multiplex/client/calls.rs] and the handshake of [multiplex/reader.rs].

    What happens underneath a call, with other threads running, is [Multiplex];
    here a thread sees it through the class [Caller]: it runs protocol methods
    under their lock, submits a request, and waits for its response.  The state
    [W] is that of everything else, other threads included.  Where the code has
    a function and its [_timeout] twin, the two are one definition with an
    optional timeout, and both names are kept.  Durations are nanoseconds; the
    call observer, a diagnostic hook, is not modelled. *)
From S2P Require Import Prelude Errors Utf8 Qid Stat Referral Message Codec FrameIO.
From S2P Require Import RequestTable Client ClientSupport Blocking.

(** [client_support.rs: io_error] *)
Definition io_error (context : bytes) (error : IoError) : Error :=
  match io_kind error with
  | TimedOut | WouldBlock =>
      Error_new (context ++ bstr ": 9P transport timeout or would-block: " ++ io_display error)
  | _ => Error_new (context ++ bstr ": " ++ io_display error)
  end.

(** ** Connecting *)

Section handshake.
Context `{DebugText}.

(** Writer, reader and protocol client. *)
Definition Handshake : Type := ByteStream * Client.

Definition sync_protocol {A} (m : M Client A) : M Handshake A := λ h,
  let '(r, c) := m h.2 in (r, (h.1, c)).

Definition sync_stream {A} (m : M ByteStream A) : M Handshake A := λ h,
  let '(r, s) := m h.1 in (r, (s, h.2)).

Definition sync_write (frame : bytes) : M ByteStream unit := λ s,
  let '(failed, w) := write_all frame (bs_out s) in
  (match failed with
   | Some error => Err (io_error (bstr "write 9P frame") error)
   | None => Ok ()
   end, ByteStream_mk (bs_in s) w).

Definition sync_read (max_frame_size : Z) : M ByteStream RMessage :=
  m ← recv_rmessage max_frame_size;
  lift (ok_or m (from_static "9P transport closed before response")).

Definition call_message_sync (m : TMessage) : M Handshake ClientResponse :=
  let tag := t_tag m in
  h ← get;
  match encode_tmessage_checked m (c_msize h.2) with
  | Err error =>
      _ ← sync_protocol (modify (abandon tag));
      throw (Error_new (bstr "encode 9P frame: " ++ display_lossy error))
  | Ok frame =>
      written ← attempt (sync_stream (sync_write frame));
      match written with
      | Err error =>
          _ ← sync_protocol (modify (abandon tag));
          throw error
      | Ok _ =>
          response ← sync_stream (sync_read (c_msize h.2));
          map_err protocol_error (sync_protocol (receive response))
      end
  end.

(** The response is the one to the request, or an error. *)
Definition expect_tag {X} (expected_tag : Z) (response : ClientResponse) : M X Completion :=
  let other := throw (Error_new (bstr "response tag mismatch or unexpected response: " ++
                                 debug_response response)) in
  match response with
  | ClientCompletion tag completion => if tag =? expected_tag then mret completion else other
  | ClientError tag ename => if tag =? expected_tag then throw (Error_new ename) else other
  end.

Definition call_op_sync (op : Op) : M Handshake Completion :=
  response ← call_message_sync (op_message op);
  expect_tag (op_tag op) response.

(** What [connect_with_variant] knows when it starts the reader thread: the
    protocol client, the negotiated variant, the root fid and its qid. *)
Definition connect_with_variant (uname aname : bytes) (msize : Z) (requested_variant : Variant) :
    M Handshake (Variant * Z * Qid) :=
  version_request ← (λ h, let '(m, c) := version_request_for msize requested_variant h.2 in (Ok m, (h.1, c)));
  response ← call_message_sync version_request;
  negotiated_variant ← match response with
    | ClientCompletion _ (CompVersion _ version) =>
        lift (ok_or (accept_response requested_variant version)
                (Error_new (bstr "server negotiated unsupported version " ++ from_utf8_lossy version)))
    | other => throw (unexpected "Rversion" (debug_response other))
    end;
  attach ← map_err protocol_error (sync_protocol (client_attach uname aname));
  root_fid ← lift (op_fid attach);
  reply ← call_op_sync attach;
  match reply with
  | CompAttach qid => mret (negotiated_variant, root_fid, qid)
  | other => throw (unexpected "Rattach" (debug_completion other))
  end.

Definition connect (uname aname : bytes) (msize : Z) : M Handshake (Variant * Z * Qid) :=
  connect_with_variant uname aname msize Plain.

End handshake.

(** ** Calls *)

Record PendingCall := PendingCall_mk { pending_tag : Z; receiver : nat }.

Inductive Received := Arrived (reply : Result ClientResponse) | Timeout | Disconnected.

(** What a thread needs of the connection. *)
Class Caller (W : Type) := {
  with_protocol {A} : M Client A → M W A;          (* under [inner.protocol]'s lock *)
  submit_message : TMessage → M W PendingCall;
  recv : PendingCall → M W Received;               (* [receiver.recv()] *)
  recv_timeout : PendingCall → Z → M W Received;   (* [receiver.recv_timeout(timeout)] *)
  cancel_waiter : Z → Error → M W unit;
  now : M W Z;                                     (* [Instant::now()] *)
  inner_variant : W → Variant;
  inner_root_fid : W → Z;
}.

(** [format!("{:.3}", timeout.as_secs_f64())] *)
Class DurationText := { seconds_text : Z → bytes }.

Definition bounded_flush_timeout (timeout : Z) : Z := Z.min timeout 250000000.

Inductive WriteThenReadError := Rejected (e : Error) | DeliveryUnknown (e : Error).

Definition into_error (e : WriteThenReadError) : Error :=
  match e with Rejected e | DeliveryUnknown e => e end.

Record DelimitedRead := DelimitedRead_mk { dr_offset : Z; dr_count : Z; dr_delimiter : byte }.

Record PendingRead := PendingRead_mk { pr_call : PendingCall; pr_requested : Z }.

Fixpoint exact_segments_loop (fuel : nat) (offset count max_iounit consumed : Z)
    (segments : list (Z * Z)) : option (Result (list (Z * Z))) :=
  match fuel with
  | O => None
  | S fuel =>
      if consumed <? count then
        let segment_count := Z.min max_iounit (count - consumed) in
        match checked_add u64_max offset consumed with
        | None => Some (Err (from_static "parallel read offset overflow"))
        | Some segment_offset =>
            exact_segments_loop fuel offset count max_iounit
              (saturating_add u32_max consumed segment_count)
              (segments ++ [(segment_offset, segment_count)])
        end
      else Some (Ok segments)
  end.

(** Every turn consumes at least one byte, so [count] turns and the last test are
    enough ([exact_read_segments_spec]). *)
Definition exact_read_segments (offset count max_iounit : Z) : Result (list (Z * Z)) :=
  if max_iounit =? 0 then Err (from_static "invalid 9P read payload limit: zero")
  else default (Err unreachable_error)
         (exact_segments_loop (S (Z.to_nat count)) offset count max_iounit 0 []).

(** [slice.chunks(n)], for a nonzero [n] *)
Fixpoint chunks_loop {A} (fuel : nat) (n : nat) (l : list A) : list (list A) :=
  match fuel, l with
  | _, [] | O, _ => []
  | S fuel, l => take n l :: chunks_loop fuel n (drop n l)
  end.

Definition chunks {A} (n : Z) (l : list A) : list (list A) :=
  chunks_loop (length l) (Z.to_nat (Z.min n (vlen l))) l.

Section client.
Context {W : Type} `{Caller W} `{DebugText} `{DurationText}.

Definition request (m : M Client Op) : M W Op := map_err protocol_error (with_protocol m).

Definition msize : M W Z := with_protocol (gets c_msize).

Definition variant : M W Variant := gets inner_variant.

Definition root_fid : M W Z := gets inner_root_fid.

Definition max_payload : M W Z := n ← msize; mret (Z.max (max_write_payload n) 1).

Definition submit_op (op : Op) : M W PendingCall := submit_message (op_message op).

Definition submit (build : M Client Op) : M W PendingCall := op ← request build; submit_op op.

(** [PendingCall::wait] *)
Definition wait (pending : PendingCall) : M W ClientResponse :=
  r ← recv pending;
  match r with
  | Arrived reply => lift reply
  | _ => throw (from_static "9P reader stopped before response")
  end.

Definition call_op (op : Op) : M W Completion :=
  pending ← submit_op op;
  response ← wait pending;
  expect_tag (op_tag op) response.

(** [wait_pending_response_timeout], with what a timeout does first. *)
Definition wait_response (flush : M W unit) (pending : PendingCall) (timeout : Z) : M W ClientResponse :=
  r ← recv_timeout pending timeout;
  match r with
  | Arrived reply => lift reply
  | Timeout =>
      let error := Error_new (bstr "9P response timeout after " ++ seconds_text timeout ++ bstr "s") in
      _ ← attempt flush;
      _ ← cancel_waiter (pending_tag pending) error;
      throw error
  | Disconnected => throw (from_static "9P reader stopped before response")
  end.

Definition wait_pending_with (flush : M W unit) (pending : PendingCall) (timeout : Z) : M W Completion :=
  response ← wait_response flush pending timeout;
  expect_tag (pending_tag pending) response.

(** [flush_tag_with]: a flush that times out is not flushed. *)
Definition flush_tag_with (oldtag : Z) (timeout : option Z) : M W unit :=
  op ← request (client_flush oldtag);
  completion ← match timeout with
               | Some timeout => pending ← submit_op op; wait_pending_with (mret ()) pending timeout
               | None => call_op op
               end;
  match completion with
  | CompFlush => cancel_waiter oldtag (from_static "9P request flushed")
  | other => throw (unexpected "Rflush" (debug_completion other))
  end.

Definition flush_tag (oldtag : Z) : M W unit := flush_tag_with oldtag None.
Definition flush_tag_timeout (oldtag timeout : Z) : M W unit := flush_tag_with oldtag (Some timeout).

Definition wait_pending_response_timeout (pending : PendingCall) (timeout : Z) (flush_on_timeout : bool) :
    M W ClientResponse :=
  wait_response (if flush_on_timeout
                 then flush_tag_timeout (pending_tag pending) (bounded_flush_timeout timeout)
                 else mret ()) pending timeout.

Definition wait_pending_timeout (pending : PendingCall) (timeout : Z) (flush_on_timeout : bool) :
    M W Completion :=
  response ← wait_pending_response_timeout pending timeout flush_on_timeout;
  expect_tag (pending_tag pending) response.

Definition call_op_timeout_inner (op : Op) (timeout : Z) (flush_on_timeout : bool) : M W Completion :=
  pending ← submit_op op;
  wait_pending_timeout pending timeout flush_on_timeout.

Definition call_op_timeout (op : Op) (timeout : Z) : M W Completion := call_op_timeout_inner op timeout true.

Definition call_timeout (build : M Client Op) (timeout : Z) : M W Completion :=
  op ← request build;
  call_op_timeout op timeout.

(** The two ways to make a call. *)
Definition call_with (timeout : option Z) (op : Op) : M W Completion :=
  match timeout with
  | Some timeout => call_op_timeout op timeout
  | None => call_op op
  end.

Definition not_expected {A} (expected : string) (got : Completion) : M W A :=
  throw (unexpected expected (debug_completion got)).

(** ** Operations on fids *)

Definition clunk_with (timeout : option Z) (fid : Z) : M W unit :=
  op ← request (client_clunk fid);
  reply ← call_with timeout op;
  match reply with CompClunk => mret () | other => not_expected "Rclunk" other end.
Definition clunk (fid : Z) : M W unit := clunk_with None fid.
Definition clunk_timeout (fid timeout : Z) : M W unit := clunk_with (Some timeout) fid.

Definition release (fid : Z) (timeout : option Z) : M W unit :=
  _ ← match timeout with
      | Some timeout => attempt (clunk_timeout fid timeout)
      | None => attempt (clunk fid)
      end;
  mret ().

Definition walk_short (fid : Z) (names : list bytes) (timeout : option Z) : M W (Z + Z) :=
  op ← request (client_walk fid names);
  newfid ← lift (op_fid op);
  completion ← call_with timeout op;
  match completion with
  | CompWalk qids =>
      if vlen qids =? vlen names then mret (inl newfid)
      else
        _ ← release newfid timeout;
        mret (inr (vlen qids))
  | other =>
      _ ← release newfid timeout;
      not_expected "Rwalk" other
  end.

Definition walk_refusal (fid : Z) (names : list bytes) (walked : Z) (timeout : option Z) :
    M W (option Error) :=
  match names !! Z.to_nat walked with
  | None => mret None
  | Some stopped =>
      prefix ← attempt (walk_short fid (ztake walked names) timeout);
      match prefix with
      | Ok (inl prefix) =>
          reached ← attempt (walk_short prefix [stopped] timeout);
          refusal ← match reached with
                    | Ok (inl reached) => _ ← release reached timeout; mret None
                    | Ok (inr _) => mret None
                    | Err error => mret (Some error)
                    end;
          _ ← release prefix timeout;
          mret refusal
      | _ => mret None
      end
  end.

Definition walk_with (timeout : option Z) (fid : Z) (names : list bytes) : M W Z :=
  walked ← walk_short fid names timeout;
  match walked with
  | inl newfid => mret newfid
  | inr walked =>
      refusal ← walk_refusal fid names walked timeout;
      throw (partial_walk names walked refusal)
  end.
Definition walk (fid : Z) (names : list bytes) : M W Z := walk_with None fid names.
Definition walk_timeout (fid : Z) (names : list bytes) (timeout : Z) : M W Z :=
  walk_with (Some timeout) fid names.

Definition clone_fid (fid : Z) : M W Z := walk fid [].
Definition clone_fid_timeout (fid timeout : Z) : M W Z := walk_timeout fid [] timeout.
Definition walk_one (fid : Z) (name : bytes) : M W Z := walk fid [name].
Definition walk_one_timeout (fid : Z) (name : bytes) (timeout : Z) : M W Z := walk_timeout fid [name] timeout.

Definition walk_path (path : bytes) : M W Z :=
  let names := path_names path in
  root ← root_fid;
  if bool_decide (names = []) then clone_fid root else walk root names.

Definition referrals_timeout (fid timeout : Z) : M W (list NamespaceReferral) :=
  v ← variant;
  if negb (supports_referrals v) then throw (from_static "server did not negotiate namespace referrals")
  else
    op ← request (client_referrals fid);
    reply ← call_op_timeout op timeout;
    match reply with CompReferrals referrals => mret referrals | other => not_expected "Rreferrals" other end.

Definition open_with (timeout : option Z) (fid mode : Z) : M W Qid :=
  op ← request (client_open fid mode);
  reply ← call_with timeout op;
  match reply with CompOpen qid _ => mret qid | other => not_expected "Ropen" other end.
Definition open (fid mode : Z) : M W Qid := open_with None fid mode.
Definition open_timeout (fid mode timeout : Z) : M W Qid := open_with (Some timeout) fid mode.

Definition create_with (timeout : option Z) (parent_fid : Z) (name : bytes) (perm mode : Z) : M W (Z * Qid) :=
  fid ← walk_with timeout parent_fid [];
  op ← request (client_create fid name perm mode);
  reply ← attempt (call_with timeout op);
  match reply with
  | Ok (CompCreate qid _) => mret (fid, qid)
  | Ok other =>
      _ ← attempt (clunk_with timeout fid);
      not_expected "Rcreate" other
  | Err error =>
      _ ← attempt (clunk_with timeout fid);
      throw error
  end.
Definition create (parent_fid : Z) (name : bytes) (perm mode : Z) : M W (Z * Qid) :=
  create_with None parent_fid name perm mode.
Definition create_timeout (parent_fid : Z) (name : bytes) (perm mode timeout : Z) : M W (Z * Qid) :=
  create_with (Some timeout) parent_fid name perm mode.

Definition remove_with (timeout : option Z) (fid : Z) : M W unit :=
  op ← request (client_remove fid);
  reply ← call_with timeout op;
  match reply with CompRemove => mret () | other => not_expected "Rremove" other end.
Definition remove (fid : Z) : M W unit := remove_with None fid.
Definition remove_timeout (fid timeout : Z) : M W unit := remove_with (Some timeout) fid.

Definition stat_with (timeout : option Z) (fid : Z) : M W Stat :=
  op ← request (client_stat fid);
  reply ← call_with timeout op;
  match reply with CompStat stat => mret stat | other => not_expected "Rstat" other end.
Definition stat (fid : Z) : M W Stat := stat_with None fid.
Definition stat_timeout (fid timeout : Z) : M W Stat := stat_with (Some timeout) fid.

Definition wstat_with (timeout : option Z) (fid : Z) (st : Stat) : M W unit :=
  op ← request (client_wstat fid st);
  reply ← call_with timeout op;
  match reply with CompWstat => mret () | other => not_expected "Rwstat" other end.
Definition wstat (fid : Z) (st : Stat) : M W unit := wstat_with None fid st.
Definition wstat_timeout (fid : Z) (st : Stat) (timeout : Z) : M W unit := wstat_with (Some timeout) fid st.

Definition rename_at_with (timeout : option Z) (olddirfid : Z) (oldname : bytes) (newdirfid : Z)
    (newname : bytes) : M W unit :=
  v ← variant;
  if negb (supports_rename_at v) then throw (from_static "server did not negotiate atomic renameat")
  else
    op ← request (client_rename_at olddirfid oldname newdirfid newname);
    reply ← call_with timeout op;
    match reply with CompRenameAt => mret () | other => not_expected "Rrenameat" other end.
Definition rename_at (olddirfid : Z) (oldname : bytes) (newdirfid : Z) (newname : bytes) : M W unit :=
  rename_at_with None olddirfid oldname newdirfid newname.
Definition rename_at_timeout (olddirfid : Z) (oldname : bytes) (newdirfid : Z) (newname : bytes)
    (timeout : Z) : M W unit :=
  rename_at_with (Some timeout) olddirfid oldname newdirfid newname.

(** ** Reading *)

Definition submit_read (fid offset count : Z) : M W PendingRead :=
  n ← msize;
  let count := clamp_read_count n count in
  op ← request (client_read fid offset count);
  call ← submit_op op;
  mret (PendingRead_mk call count).

Definition wait_read_timeout (pending : PendingRead) (timeout : Z) : M W bytes :=
  reply ← wait_pending_timeout (pr_call pending) timeout true;
  match reply with
  | CompRead data => lift (checked_read_data data (pr_requested pending))
  | other => not_expected "Rread" other
  end.

Definition wait_read (pending : PendingRead) : M W bytes :=
  response ← wait (pr_call pending);
  completion ← expect_tag (pending_tag (pr_call pending)) response;
  match completion with
  | CompRead data => lift (checked_read_data data (pr_requested pending))
  | other => not_expected "Rread" other
  end.

Definition read (fid offset count : Z) : M W bytes :=
  n ← msize;
  let count := clamp_read_count n count in
  op ← request (client_read fid offset count);
  reply ← call_op op;
  match reply with
  | CompRead data => lift (checked_read_data data count)
  | other => not_expected "Rread" other
  end.

Definition read_timeout (fid offset count timeout : Z) : M W bytes :=
  pending ← submit_read fid offset count;
  wait_read_timeout pending timeout.

(** One turn of [while remaining > 0] per unit of fuel; a turn that goes on has
    read at least one byte, so [count] turns and the last test are enough
    ([read_full_total]). *)
Fixpoint read_full_loop (fuel : nat) (read_once : Z → Z → M W bytes) (offset remaining : Z) (out : bytes) :
    W → option (Result bytes * W) := λ w,
  match fuel with
  | O => None
  | S fuel =>
      if 0 <? remaining then
        match read_once offset remaining w with
        | (Err e, w) => Some (Err e, w)
        | (Ok data, w) =>
            if bool_decide (data = []) then Some (Ok out, w)
            else
              match (n ← ok_or (try_from u32_max (vlen data)) (from_static "read count overflow");
                     offset ← checked_advance_offset offset n;
                     Ok (n, offset)) with
              | Err e => Some (Err e, w)
              | Ok (n, offset) =>
                  read_full_loop fuel read_once offset (saturating_sub remaining n) (out ++ data) w
              end
        end
      else Some (Ok out, w)
  end.

Definition read_full_with (read_once : Z → Z → M W bytes) (offset count : Z) : M W bytes := λ w,
  default (Err unreachable_error, w) (read_full_loop (S (Z.to_nat count)) read_once offset count [] w).

Definition read_full (fid offset count : Z) : M W bytes := read_full_with (read fid) offset count.
Definition read_full_timeout (fid offset count timeout : Z) : M W bytes :=
  read_full_with (λ offset remaining, read_timeout fid offset remaining timeout) offset count.

(** The window's requests, with the bytes each should bring. *)
Fixpoint submit_window (fid : Z) (segments : list (Z * Z)) : M W (list (Z * Result PendingRead)) :=
  match segments with
  | [] => mret []
  | (segment_offset, segment_count) :: segments =>
      p ← attempt (submit_read fid segment_offset segment_count);
      rest ← submit_window fid segments;
      mret ((segment_count, p) :: rest)
  end.

(** What is left of the deadline, at least one nanosecond. *)
Definition wait_segment (started timeout : Z) (pending : Result PendingRead) : M W bytes :=
  match pending with
  | Ok pending =>
      if timeout =? 0 then wait_read pending
      else
        t ← now;
        wait_read_timeout pending (Z.max (saturating_sub timeout (t - started)) 1)
  | Err error => throw error
  end.

(** Every request of the window is waited for; the first error is kept. *)
Fixpoint drain_window (started timeout : Z) (pending : list (Z * Result PendingRead))
    (output : bytes) (first_error : option Error) : M W (bytes * option Error) :=
  match pending with
  | [] => mret (output, first_error)
  | (expected, p) :: pending =>
      got ← attempt (wait_segment started timeout p);
      match got with
      | Ok data =>
          if vlen data =? expected
          then drain_window started timeout pending (output ++ data) first_error
          else drain_window started timeout pending output
                 (Some (default (from_static "parallel read input/output incomplete") first_error))
      | Err error => drain_window started timeout pending output (Some (default error first_error))
      end
  end.

Fixpoint read_windows (fid started timeout : Z) (windows : list (list (Z * Z))) (output : bytes) :
    M W bytes :=
  match windows with
  | [] => mret output
  | segments :: windows =>
      pending ← submit_window fid segments;
      drained ← drain_window started timeout pending output None;
      match drained with
      | (_, Some error) => throw error
      | (output, None) => read_windows fid started timeout windows output
      end
  end.

Definition read_exact_parallel_timeout (fid offset count max_in_flight timeout : Z) : M W bytes :=
  if count =? 0 then mret []
  else if max_in_flight =? 0
  then throw (from_static "invalid parallel read in-flight bound: expected nonzero")
  else
    n ← msize;
    segments ← lift (exact_read_segments offset count (max_iounit n));
    started ← now;
    read_windows fid started timeout (chunks max_in_flight segments) [].

(** The loops of [client_support.rs] always end ([read_delimited_loop_total],
    [write_chunks_loop_total]). *)
Definition ended {A} (m : W → option (Result A * W)) : M W A := λ w,
  default (Err unreachable_error, w) (m w).

Definition read_delimited (fid offset count : Z) (delimiter : byte) : M W bytes :=
  ended (read_delimited_with offset count delimiter (read fid)).
Definition read_delimited_timeout (fid offset count : Z) (delimiter : byte) (timeout : Z) : M W bytes :=
  ended (read_delimited_with offset count delimiter
           (λ offset remaining, read_timeout fid offset remaining timeout)).

(** ** Writing *)

Definition write_once_with (timeout : option Z) (fid offset : Z) (data : bytes) : M W Z :=
  op ← request (client_write fid offset data);
  reply ← call_with timeout op;
  match reply with
  | CompWrite count => lift (checked_write_count count (vlen data))
  | other => not_expected "Rwrite" other
  end.
Definition write_once (fid offset : Z) (data : bytes) : M W Z := write_once_with None fid offset data.
Definition write_once_timeout (fid offset : Z) (data : bytes) (timeout : Z) : M W Z :=
  write_once_with (Some timeout) fid offset data.

Definition write (fid offset : Z) (data : bytes) : M W Z :=
  max ← max_payload;
  ended (write_in_chunks max offset data (write_once fid)).
Definition write_timeout (fid offset : Z) (data : bytes) (timeout : Z) : M W Z :=
  max ← max_payload;
  ended (write_in_chunks max offset data (λ offset chunk, write_once_timeout fid offset chunk timeout)).

(** *** A write and the read after it *)

(** [std::result::Result<A, WriteThenReadError>] *)
Definition Pipelined (A : Type) : Type := W → (WriteThenReadError + A) * W.

Definition or_else {A B} (e : Error → WriteThenReadError) (m : M W A) (k : A → Pipelined B) : Pipelined B := λ w,
  match m w with
  | (Ok a, w) => k a w
  | (Err error, w) => (inl (e error), w)
  end.

Definition pipelined_then {A B} (m : Pipelined A) (k : A → Pipelined B) : Pipelined B := λ w,
  match m w with
  | (inr a, w) => k a w
  | (inl error, w) => (inl error, w)
  end.

Definition read_or_abandon (fid read_offset read_count : Z) (write_tag : Z) : M Client Op := λ c,
  match client_read fid read_offset read_count c with
  | (Ok read, c) => (Ok read, c)
  | (Err error, c) => (Err error, abandon write_tag c)
  end.

(** Both requests are made under one lock. *)
Definition build_pair (fid write_offset : Z) (data : bytes) (read_offset read_count : Z) :
    M Client (Op * Op) :=
  write ← client_write fid write_offset data;
  read ← read_or_abandon fid read_offset read_count (op_tag write);
  mret (write, read).

Definition pair_written (write_tag : Z) (data : bytes) (r : Result ClientResponse) :
    WriteThenReadError + Z :=
  match r with
  | Ok (ClientCompletion tag (CompWrite count) as other) =>
      if tag =? write_tag then
        match checked_write_count count (vlen data) with
        | Ok count => inr count
        | Err error => inl (DeliveryUnknown error)
        end
      else inl (DeliveryUnknown (unexpected "Rwrite" (debug_response other)))
  | Ok (ClientError tag ename as other) =>
      if tag =? write_tag then inl (Rejected (Error_new ename))
      else inl (DeliveryUnknown (unexpected "Rwrite" (debug_response other)))
  | Ok other => inl (DeliveryUnknown (unexpected "Rwrite" (debug_response other)))
  | Err error => inl (DeliveryUnknown error)
  end.

Definition pair_read (read_tag read_count : Z) (r : Result ClientResponse) : WriteThenReadError + bytes :=
  match r with
  | Ok (ClientCompletion tag (CompRead data) as other) =>
      if tag =? read_tag then
        match checked_read_data data read_count with
        | Ok data => inr data
        | Err error => inl (DeliveryUnknown error)
        end
      else inl (DeliveryUnknown (unexpected "Rread" (debug_response other)))
  | Ok (ClientError tag ename as other) =>
      if tag =? read_tag then inl (DeliveryUnknown (Error_new ename))
      else inl (DeliveryUnknown (unexpected "Rread" (debug_response other)))
  | Ok other => inl (DeliveryUnknown (unexpected "Rread" (debug_response other)))
  | Err error => inl (DeliveryUnknown error)
  end.

Definition write_once_then_read_timeout (fid write_offset : Z) (data : bytes) (read_offset read_count timeout : Z) :
    Pipelined (Z * bytes) :=
  or_else Rejected msize (λ n,
  let read_count := clamp_read_count n read_count in
  or_else Rejected (map_err protocol_error (with_protocol (build_pair fid write_offset data read_offset read_count)))
    (λ '(write, read), λ w,
  match submit_op write w with
  | (Err error, w) =>
      (inl (DeliveryUnknown error), (with_protocol (modify (abandon (op_tag read))) w).2)
  | (Ok write_pending, w) =>
      match submit_op read w with
      | (Err error, w) =>
          (inl (DeliveryUnknown error),
           (cancel_waiter (op_tag write) (from_static "pipelined 9P read could not be submitted") w).2)
      | (Ok read_pending, w) =>
          let '(write_result, w) := wait_pending_response_timeout write_pending timeout true w in
          let '(read_result, w) := wait_pending_response_timeout read_pending timeout true w in
          (match pair_written (op_tag write) data write_result with
           | inl error => inl error
           | inr written =>
               match pair_read (op_tag read) read_count read_result with
               | inl error => inl error
               | inr response => inr (written, response)
               end
           end, w)
      end
  end)).

(** The chunks before the last; [max] is at least one, so the length of the data
    bounds the turns. *)
Fixpoint write_prefix (fuel : nat) (fid max timeout write_offset : Z) (data : bytes) (total : Z) :
    Pipelined (Z * Z * bytes) :=
  match fuel with
  | O => λ w, (inr (total, write_offset, data), w)
  | S fuel =>
      if max <? vlen data then
        let chunk := ztake max data in
        or_else DeliveryUnknown (write_once_timeout fid write_offset chunk timeout) (λ count,
        if negb (bool_decide (try_from usize_max count = Some (vlen chunk)))
        then λ w, (inl (DeliveryUnknown (from_static "short 9P write before pipelined read")), w)
        else
        or_else DeliveryUnknown
          (lift (ok_or (checked_add u32_max total count) (from_static "aggregate write count overflow"))) (λ total,
        or_else DeliveryUnknown (lift (checked_advance_offset write_offset count)) (λ write_offset,
        write_prefix fuel fid max timeout write_offset (zdrop max data) total)))
      else λ w, (inr (total, write_offset, data), w)
  end.

Definition write_then_read_timeout (fid write_offset : Z) (data : bytes) (read_offset read_count timeout : Z) :
    Pipelined (Z * bytes) :=
  or_else DeliveryUnknown max_payload (λ max,
  pipelined_then (write_prefix (length data) fid max timeout write_offset data 0) (λ '(total, write_offset, data),
  pipelined_then (write_once_then_read_timeout fid write_offset data read_offset read_count timeout)
    (λ '(count, response),
  or_else DeliveryUnknown
    (lift (ok_or (checked_add u32_max total count) (from_static "aggregate write count overflow"))) (λ total,
  λ w, (inr (total, response), w))))).
(** [first.take()]: the bytes already read answer the first read. *)
Definition write_then_read_delimited_timeout (fid write_offset : Z) (data : bytes) (read : DelimitedRead)
    (timeout : Z) : Pipelined (Z * bytes) :=
  pipelined_then (write_then_read_timeout fid write_offset data (dr_offset read) (dr_count read) timeout)
    (λ '(written, first),
  let read_once offset remaining : M (option bytes * W) bytes := λ '(first, w),
    match first with
    | Some data => (Ok data, (None, w))
    | None => let '(r, w) := read_timeout fid offset remaining timeout w in (r, (None, w))
    end in
  λ w,
  match read_delimited_with (dr_offset read) (dr_count read) (dr_delimiter read) read_once (Some first, w) with
  | Some (Ok response, (_, w)) => (inr (written, response), w)
  | Some (Err error, (_, w)) => (inl (DeliveryUnknown error), w)
  | None => (inl (DeliveryUnknown unreachable_error), w)
  end).

End client.
