(* ===== verification/MultiplexReads.v ===== *)
(** Parallel reads return the file ([read_exact_parallel_timeout] of
    [multiplex/client.rs]): whatever window of requests is in flight and however
    they are split, the result is the bytes a sequential read would return, and
    every request is waited for before the function returns. *)
From S2P Require Import Prelude Errors Utf8 Qid Stat Referral Message Codec FrameIO.
From S2P Require Import RequestTable Client ClientProps ClientSupport Blocking MultiplexClient.

(** ** Segments *)

(** [segments] cover [count] bytes from [offset], one after the other. *)
Fixpoint tiles (offset count : Z) (segments : list (Z * Z)) : Prop :=
  match segments with
  | [] => count = 0
  | (o, n) :: segments => o = offset ∧ 0 < n ≤ count ∧ tiles (offset + n) (count - n) segments
  end.

Lemma exact_segments_loop_spec fuel offset count unit consumed segments :
  (Z.to_nat (count - consumed) < fuel)%nat → 0 ≤ consumed ≤ count → count ≤ u32_max → 0 < unit →
  (∃ more, exact_segments_loop fuel offset count unit consumed segments = Some (Ok (segments ++ more)) ∧
     tiles (offset + consumed) (count - consumed) more ∧ Forall (λ x, x.2 ≤ unit) more) ∨
  (exact_segments_loop fuel offset count unit consumed segments =
     Some (Err (from_static "parallel read offset overflow")) ∧ u64_max < offset + count).
Proof.
  revert consumed segments. induction fuel as [|fuel IH]; intros consumed segments Hf Hc Hmax Hu; [lia|].
  cbn [exact_segments_loop]. destruct (Z.ltb_spec consumed count).
  2:{ left. exists []. rewrite app_nil_r. split_and!; [done|simpl; lia|constructor]. }
  unfold checked_add. destruct (Z.leb_spec (offset + consumed) u64_max); [|right; split; [done|lia]].
  set (n := Z.min unit (count - consumed)). assert (0 < n ≤ count - consumed) as Hn by lia.
  assert (saturating_add u32_max consumed n = consumed + n) as Hs by (unfold saturating_add; lia). rewrite Hs.
  destruct (IH (consumed + n) (segments ++ [(offset + consumed, n)])) as [(more & E & Ht & Hle)|[E Ho]]; [lia..| |].
  - left. exists ((offset + consumed, n) :: more). rewrite E, <- app_assoc. split_and!; [done| |].
    + simpl. split_and!; [done|lia|lia|]. by rewrite <- Z.add_assoc, <- Z.sub_add_distr.
    + constructor; [simpl; lia|done].
  - right. by split.
Qed.

Lemma exact_read_segments_spec offset count unit :
  0 ≤ count ≤ u32_max → 0 < unit →
  (∃ segments, exact_read_segments offset count unit = Ok segments ∧ tiles offset count segments ∧
     Forall (λ x, x.2 ≤ unit) segments) ∨
  (exact_read_segments offset count unit = Err (from_static "parallel read offset overflow") ∧
   u64_max < offset + count).
Proof.
  intros Hc Hu. unfold exact_read_segments. destruct (Z.eqb_spec unit 0); [lia|].
  destruct (exact_segments_loop_spec (S (Z.to_nat count)) offset count unit 0 [])
    as [(more & E & Ht & Hle)|[E Ho]]; [lia..| |]; rewrite E.
  - left. exists more. rewrite Z.add_0_r, Z.sub_0_r in Ht. done.
  - by right.
Qed.

Lemma tiles_length offset count segments : tiles offset count segments → vlen segments ≤ Z.max 0 count.
Proof.
  revert offset count. induction segments as [|[o n] segments IH]; intros offset count; cbn [tiles].
  - intros ->. by rewrite vlen_nil.
  - intros (_ & Hn & Ht). apply IH in Ht. rewrite vlen_cons. lia.
Qed.

Lemma concat_chunks_loop {A} fuel n (l : list A) :
  (length l ≤ fuel)%nat → (0 < n)%nat → concat (chunks_loop fuel n l) = l.
Proof.
  revert l. induction fuel as [|fuel IH]; intros [|x l] Hf Hn; simpl in *; try done; [lia|].
  destruct n as [|n]; [lia|]. simpl. rewrite IH; [by rewrite take_drop| |lia]. rewrite length_drop. lia.
Qed.

Lemma concat_chunks {A} n (l : list A) : 0 < n → concat (chunks n l) = l.
Proof.
  intros Hn. destruct l as [|x l]; [done|]. apply concat_chunks_loop; [done|]. rewrite vlen_cons.
  pose proof (vlen_nonneg l). lia.
Qed.

(** ** A connection to a server of a file *)

(** [asked] are the reads somebody holds a receiver for: where, and how much. *)
Class FileReads {W} `{Caller W} (fid size : Z) (content : bytes) (asked : W → gmap nat (Z * Z)) := {
  fr_msize w : with_protocol (gets c_msize) w = (Ok size, w);
  fr_read o n w : ∃ r w', with_protocol (client_read fid o n) w = (r, w') ∧ asked w' = asked w ∧
    ∀ op, r = Ok op → op_message op = TRead (op_tag op) fid o n;
  fr_flush old w : ∃ r w', with_protocol (client_flush old) w = (r, w') ∧ asked w' = asked w ∧
    ∀ op, r = Ok op → op_message op = TFlush (op_tag op) old;
  fr_submit tag o n w : ∃ r w', submit_message (TRead tag fid o n) w = (r, w') ∧
    match r with
    | Ok p => asked w !! receiver p = None ∧ asked w' = <[receiver p := (o, n)]> (asked w)
    | Err _ => asked w' = asked w
    end;
  fr_submit_flush tag old w : ∃ r w', submit_message (TFlush tag old) w = (r, w') ∧ asked w' = asked w ∧
    ∀ p, r = Ok p → asked w !! receiver p = None;
  fr_recv p w : ∃ r w', recv p w = (Ok r, w') ∧ asked w' = delete (receiver p) (asked w) ∧
    ∀ o n tag data, asked w !! receiver p = Some (o, n) →
      r = Arrived (Ok (ClientCompletion tag (CompRead data))) → ∃ rest, zdrop o content = data ++ rest;
  fr_recv_timeout p t w : ∃ r w', recv_timeout p t w = (Ok r, w') ∧ asked w' = delete (receiver p) (asked w) ∧
    ∀ o n tag data, asked w !! receiver p = Some (o, n) →
      r = Arrived (Ok (ClientCompletion tag (CompRead data))) → ∃ rest, zdrop o content = data ++ rest;
  fr_cancel tag e w : asked (cancel_waiter tag e w).2 = asked w;
  fr_now w : ∃ t w', now w = (Ok t, w') ∧ asked w' = asked w;
}.

Section parallel.
Context {W : Type} `{Caller W} `{DebugText} `{DurationText}.
Context (fid size : Z) (content : bytes) (asked : W → gmap nat (Z * Z)) `{!FileReads fid size content asked}.

(** [m] leaves the reads that are asked for alone. *)
Definition keeps {A} (m : M W A) : Prop := ∀ w, asked (m w).2 = asked w.

Lemma keeps_bind {A B} (m : M W A) (k : A → M W B) : keeps m → (∀ a, keeps (k a)) → keeps (m ≫= k).
Proof.
  intros Hm Hk w. unfold mbind, M_bind. specialize (Hm w). destruct (m w) as [[a|e] w1]; simpl in *; [|done].
  by rewrite Hk.
Qed.

Lemma keeps_lift {A} (r : Result A) : keeps (lift r).
Proof. done. Qed.

Lemma keeps_attempt {A} (m : M W A) : keeps m → keeps (attempt m).
Proof. intros Hm w. unfold attempt. specialize (Hm w). by destruct (m w). Qed.

Lemma keeps_request m : keeps (with_protocol m) → keeps (request m).
Proof. intros Hm w. unfold request, map_err. specialize (Hm w). by destruct (with_protocol m w) as [[]]. Qed.

Lemma keeps_expect_tag tag r : keeps (expect_tag tag r).
Proof. unfold expect_tag. by repeat case_match. Qed.

(** What a request in flight becomes: its receiver is gone, and read data is the
    file's. *)
Definition resolves (p : PendingCall) (m : M W ClientResponse) : Prop := ∀ w r w',
  m w = (r, w') → asked w' = delete (receiver p) (asked w) ∧
  ∀ o n tag data, asked w !! receiver p = Some (o, n) →
    r = Ok (ClientCompletion tag (CompRead data)) → ∃ rest, zdrop o content = data ++ rest.

Lemma wait_resolves p : resolves p (wait p).
Proof.
  intros w r w' E. unfold wait, mbind, M_bind in E. destruct (fr_recv p w) as (x & w1 & Ex & Ha & Hd).
  rewrite Ex in E. destruct x as [reply| |]; simpl in E; injection E as <- <-; split; try done.
  intros o n tag data Hp ->. by eapply Hd.
Qed.

Lemma wait_response_resolves p timeout flush : keeps flush → resolves p (wait_response flush p timeout).
Proof.
  intros Hf w r w' E. unfold wait_response, mbind, M_bind in E.
  destruct (fr_recv_timeout p timeout w) as (x & w1 & Ex & Ha & Hd). rewrite Ex in E.
  destruct x as [reply| |]; simpl in E.
  - injection E as <- <-. split; [done|]. intros o n tag data Hp ->. by eapply Hd.
  - pose proof (keeps_attempt _ Hf w1) as Hf1. unfold attempt in *. destruct (flush w1) as [rf w2]. simpl in Hf1.
    set (e := Error_new _) in E. pose proof (fr_cancel (pending_tag p) e w2) as Hc.
    destruct (cancel_waiter (pending_tag p) e w2) as [[]]; simpl in *; injection E as <- <-; split; try done; congruence.
  - injection E as <- <-. by split.
Qed.

Lemma flush_keeps old timeout : keeps (flush_tag_timeout old timeout).
Proof.
  intros w. unfold flush_tag_timeout, flush_tag_with, request, map_err.
  destruct (fr_flush old w) as (r & w1 & E1 & Ha1 & Hop). unfold mbind, M_bind. rewrite E1.
  destruct r as [op|e]; [|done]. unfold submit_op. rewrite (Hop op eq_refl).
  destruct (fr_submit_flush (op_tag op) old w1) as (r & w2 & E2 & Ha2 & Hp). rewrite E2.
  destruct r as [p|e]; [|simpl; congruence].
  assert (asked (wait_pending_with (mret ()) p timeout w2).2 = asked w2) as Hw.
  { unfold wait_pending_with, mbind, M_bind.
    destruct (wait_response (mret ()) p timeout w2) as [r w3] eqn:E3.
    destruct (wait_response_resolves p timeout (mret ()) (keeps_lift (Ok ())) _ _ _ E3) as [Ha3 _].
    rewrite delete_id in Ha3 by (rewrite Ha2; by apply Hp).
    destruct r as [resp|e]; [|done]. by rewrite (keeps_expect_tag (pending_tag p) resp w3). }
  destruct (wait_pending_with (mret ()) p timeout w2) as [r w3]. simpl in Hw.
  destruct r as [completion|e]; [|simpl; congruence].
  assert (asked w3 = asked w) as Ha by congruence.
  destruct completion; try done. by rewrite fr_cancel.
Qed.

(** What waiting for a read does. *)
Definition reads (p : PendingRead) (m : M W bytes) : Prop := ∀ w r w',
  m w = (r, w') → asked w' = delete (receiver (pr_call p)) (asked w) ∧
  ∀ o n data, asked w !! receiver (pr_call p) = Some (o, n) → r = Ok data →
    ∃ rest, zdrop o content = data ++ rest.

Lemma reads_response p (m : M W ClientResponse) (k : Completion → M W bytes) :
  resolves (pr_call p) m →
  (∀ completion, keeps (k completion)) →
  (∀ completion data w w', k completion w = (Ok data, w') → completion = CompRead data) →
  reads p (response ← m; completion ← expect_tag (pending_tag (pr_call p)) response; k completion).
Proof.
  intros Hm Hk Hdata w r w' E. unfold mbind, M_bind in E. destruct (m w) as [r1 w1] eqn:Em.
  destruct (Hm _ _ _ Em) as [Ha Hd]. destruct r1 as [resp|e]; [|injection E as <- <-; done].
  pose proof (keeps_expect_tag (pending_tag (pr_call p)) resp w1) as Hx.
  destruct (expect_tag (pending_tag (pr_call p)) resp w1) as [r2 w2] eqn:Ex. simpl in Hx.
  destruct r2 as [completion|e]; [|injection E as <- <-; split; [congruence|done]].
  pose proof (Hk completion w2) as Hk2. rewrite E in Hk2. simpl in Hk2. split; [congruence|].
  intros o n data Hp ->. apply Hdata in E as ->.
  unfold expect_tag, mret, M_ret, throw in Ex. destruct resp as [tag c|]; case_match; simplify_eq. by eapply Hd.
Qed.

Lemma read_reply_keeps n (completion : Completion) :
  keeps (match completion with
         | CompRead data => lift (checked_read_data data n)
         | other => not_expected "Rread" other
         end).
Proof. by destruct completion. Qed.

Lemma read_reply_data n (completion : Completion) data (w w' : W) :
  match completion with
  | CompRead data => lift (checked_read_data data n)
  | other => not_expected "Rread" other
  end w = (Ok data, w') → completion = CompRead data.
Proof. destruct completion; try done. intros [= E _]. by apply checked_read_data_Ok in E as [-> _]. Qed.

Lemma wait_segment_reads started timeout p : reads p (wait_segment started timeout (Ok p)).
Proof.
  cbn [wait_segment]. destruct (timeout =? 0).
  - apply reads_response; [apply wait_resolves|apply read_reply_keeps|intros *; apply read_reply_data].
  - intros w r w' E. unfold mbind, M_bind in E. destruct (fr_now w) as (t & w1 & Et & Ha). rewrite Et in E.
    rewrite <- Ha. revert E. set (left := Z.max _ _).
    assert (reads p (wait_read_timeout p left)) as Hr; [|apply Hr].
    pose proof (reads_response p (wait_pending_response_timeout (pr_call p) left true)
      _ (wait_response_resolves _ _ _ (flush_keeps _ _)) (read_reply_keeps (pr_requested p))
      (read_reply_data (pr_requested p))) as Hr.
    intros w2 r2 w3 E. apply (Hr w2 r2 w3). unfold wait_read_timeout, wait_pending_timeout in E. rewrite <- E.
    unfold mbind, M_bind. by destruct (wait_pending_response_timeout _ _ _ w2) as [[] ?].
Qed.

(** ** Windows *)

(** The requests of a window that was submitted: each with its segment, or not
    sent. *)
Inductive windowed : list (Z * Z) → list (Z * Result PendingRead) → gmap nat (Z * Z) → Prop :=
| windowed_nil : windowed [] [] ∅
| windowed_sent o n p segments pending reqs :
    reqs !! receiver (pr_call p) = None → pr_requested p = clamp_read_count size n →
    windowed segments pending reqs →
    windowed ((o, n) :: segments) ((n, Ok p) :: pending)
      (<[receiver (pr_call p) := (o, pr_requested p)]> reqs)
| windowed_failed o n e segments pending reqs :
    windowed segments pending reqs → windowed ((o, n) :: segments) ((n, Err e) :: pending) reqs.

Lemma submit_read_spec o n w r w' :
  submit_read fid o n w = (r, w') →
  match r with
  | Ok p => asked w !! receiver (pr_call p) = None ∧ pr_requested p = clamp_read_count size n ∧
            asked w' = <[receiver (pr_call p) := (o, pr_requested p)]> (asked w)
  | Err _ => asked w' = asked w
  end.
Proof.
  unfold submit_read, msize, request, map_err, mbind, M_bind. rewrite fr_msize.
  destruct (fr_read o (clamp_read_count size n) w) as (r1 & w1 & E1 & Ha1 & Hop). rewrite E1.
  destruct r1 as [op|e]; [|intros [= <- <-]; done]. unfold submit_op. rewrite (Hop op eq_refl).
  destruct (fr_submit (op_tag op) o (clamp_read_count size n) w1) as (r2 & w2 & E2 & H2). rewrite E2.
  destruct r2 as [p|e]; intros [= <- <-]; simpl; [|congruence]. rewrite <- Ha1. by destruct H2.
Qed.

Lemma submit_window_spec segments w :
  ∃ pending w' reqs, submit_window fid segments w = (Ok pending, w') ∧ windowed segments pending reqs ∧
    reqs ##ₘ asked w ∧ asked w' = reqs ∪ asked w.
Proof.
  revert w. induction segments as [|[o n] segments IH]; intros w; cbn [submit_window].
  { eexists [], w, ∅. split_and!; [done|constructor|apply map_disjoint_empty_l|by rewrite map_empty_union]. }
  unfold attempt, mbind, M_bind. destruct (submit_read fid o n w) as [r w1] eqn:E.
  apply submit_read_spec in E. destruct (IH w1) as (pending & w' & reqs & -> & Hw & Hd & Ha).
  destruct r as [p|e].
  - destruct E as (Hn & Hreq & E). rewrite E in Hd, Ha.
    apply map_disjoint_insert_r in Hd as [Hk Hd].
    eexists ((n, Ok p) :: pending), w', (<[receiver (pr_call p) := (o, pr_requested p)]> reqs).
    split_and!; [done|by constructor|by apply map_disjoint_insert_l|].
    by rewrite Ha, <- insert_union_r, insert_union_l.
  - rewrite E in Hd, Ha. eexists ((n, Err e) :: pending), w', reqs. split_and!; [done|by constructor|done|done].
Qed.

Definition slice (o n : Z) : bytes := ztake n (zdrop o content).

Definition segment_data (segments : list (Z * Z)) : bytes := concat ((λ x, slice x.1 x.2) <$> segments).

Definition all_there (segments : list (Z * Z)) : Prop := Forall (λ x, vlen (slice x.1 x.2) = x.2) segments.

Lemma slice_whole o n data rest : zdrop o content = data ++ rest → vlen data = n → slice o n = data.
Proof. intros E <-. unfold slice. by rewrite E, ztake_app_vlen. Qed.

Lemma drain_window_spec started timeout segments pending reqs base output first_error w :
  windowed segments pending reqs → reqs ##ₘ base → asked w = reqs ∪ base →
  ∃ out err w', drain_window started timeout pending output first_error w = (Ok (out, err), w') ∧
    asked w' = base ∧
    (err = None → first_error = None ∧ all_there segments ∧ out = output ++ segment_data segments).
Proof.
  intros Hw. revert base output first_error w.
  induction Hw as [|o n p segments pending reqs Hn Hreq Hw IH|o n e segments pending reqs Hw IH];
    intros base output first_error w Hd Ha; cbn [drain_window].
  - eexists output, first_error, w. rewrite map_empty_union in Ha. split_and!; [done|done|].
    intros ->. split_and!; [done|constructor|]. unfold segment_data. simpl. by rewrite app_nil_r.
  - apply map_disjoint_insert_l in Hd as [Hk Hd]. unfold attempt, mbind, M_bind.
    destruct (wait_segment started timeout (Ok p) w) as [r w1] eqn:E.
    destruct (wait_segment_reads _ _ _ _ _ _ E) as [Ha1 Hdata].
    rewrite Ha, <- insert_union_l, lookup_insert_eq in Hdata.
    rewrite Ha, <- insert_union_l, delete_insert_id in Ha1 by (by apply lookup_union_None).
    destruct r as [data|e].
    + destruct (Z.eqb_spec (vlen data) n) as [Hlen|Hlen].
      * destruct (IH base (output ++ data) first_error w1 Hd Ha1) as (out & err & w' & E' & Hb & Hok).
        exists out, err, w'. split_and!; [done|done|]. intros Herr.
        destruct (Hok Herr) as (Hf & Hall & ->). destruct (Hdata _ _ _ eq_refl eq_refl) as [rest Hrest].
        pose proof (slice_whole _ _ _ _ Hrest Hlen) as Hs. split_and!; [done|constructor; [by rewrite <- Hs in Hlen|done]|].
        unfold segment_data. simpl. by rewrite Hs, <- app_assoc.
      * destruct (IH base output (Some (default (from_static "parallel read input/output incomplete") first_error)) w1 Hd Ha1)
          as (out & err & w' & E' & Hb & Hok). exists out, err, w'. split_and!; [done|done|]. intros Herr. by destruct (Hok Herr).
    + destruct (IH base output (Some (default e first_error)) w1 Hd Ha1) as (out & err & w' & E' & Hb & Hok).
      exists out, err, w'. split_and!; [done|done|]. intros Herr. by destruct (Hok Herr).
  - unfold attempt, mbind, M_bind. cbn [wait_segment]. unfold throw.
    destruct (IH base output (Some (default e first_error)) w Hd Ha) as (out & err & w' & E' & Hb & Hok).
    exists out, err, w'. split_and!; [done|done|]. intros Herr. by destruct (Hok Herr).
Qed.

Lemma read_windows_spec started timeout windows output w :
  ∃ r w', read_windows fid started timeout windows output w = (r, w') ∧ asked w' = asked w ∧
    ∀ out, r = Ok out → all_there (concat windows) ∧ out = output ++ segment_data (concat windows).
Proof.
  revert output w. induction windows as [|segments windows IH]; intros output w; cbn [read_windows].
  { eexists _, w. split_and!; [done|done|]. intros out [= <-]. split; [constructor|].
    unfold segment_data. simpl. by rewrite app_nil_r. }
  destruct (submit_window_spec segments w) as (pending & w1 & reqs & E1 & Hw & Hd & Ha).
  destruct (drain_window_spec started timeout _ _ _ _ output None w1 Hw Hd Ha) as (o2 & err & w2 & E2 & Hb & Hok).
  unfold mbind, M_bind. rewrite E1, E2. destruct err as [e|].
  { eexists _, w2. by split_and!. }
  destruct (Hok eq_refl) as (_ & Hall & ->). destruct (IH (output ++ segment_data segments) w2) as (r & w' & E3 & Ha3 & Hr).
  exists r, w'. split_and!; [done|congruence|]. intros out ->. destruct (Hr _ eq_refl) as [Hall' ->]. split.
  - by apply Forall_app.
  - unfold segment_data. simpl. by rewrite fmap_app, concat_app, app_assoc.
Qed.

Lemma slice_add o n m :
  0 ≤ o → 0 ≤ n → 0 ≤ m → vlen (slice o n) = n → slice o (n + m) = slice o n ++ slice (o + n) m.
Proof.
  intros Ho Hn Hm Hl. unfold slice in *. rewrite <- (zdrop_zdrop o n) by lia.
  unfold ztake, zdrop, vlen in *. rewrite length_take in Hl.
  rewrite <- (take_drop (Z.to_nat n) (drop (Z.to_nat o) content)) at 1.
  rewrite take_app, length_take, (take_ge (take _ _)) by (rewrite length_take; lia).
  do 2 f_equal. lia.
Qed.

Lemma tiles_data offset count segments :
  0 ≤ offset → tiles offset count segments → all_there segments →
  0 ≤ count ∧ segment_data segments = slice offset count ∧ vlen (slice offset count) = count.
Proof.
  revert offset count. induction segments as [|[o n] segments IH]; intros offset count Ho; cbn [tiles].
  { intros -> _. split_and!; [done|done|]. done. }
  intros (-> & Hn & Ht) [Hx Hall]%Forall_cons. simpl in Hx.
  destruct (IH (offset + n) (count - n)) as (Hc & Hs & Hl); [lia|done|done|].
  replace count with (n + (count - n)) by lia. rewrite slice_add by (done || lia). split_and!; [lia| |].
  - rewrite <- Hs. done.
  - rewrite vlen_app, Hx, Hl. lia.
Qed.

(** Conversely, the pieces of bytes that are there are there. *)
Lemma tiles_all_there offset count segments :
  0 ≤ offset → tiles offset count segments → vlen (slice offset count) = count → all_there segments.
Proof.
  revert offset count. induction segments as [|[o n] segments IH]; intros offset count Ho; cbn [tiles]; [by constructor|].
  intros (-> & Hn & Ht) Hl.
  assert (vlen (slice offset n) = n) as Hx.
  { unfold slice, ztake, zdrop, vlen in *. rewrite length_take in *. lia. }
  constructor; [done|]. eapply IH; [|exact Ht|]; [lia|].
  replace count with (n + (count - n)) in Hl at 1 by lia. rewrite slice_add, vlen_app, Hx in Hl by (done || lia). lia.
Qed.

(** ** A server that answers every read in full *)

Class PromptReads (good : nat → W → Prop) := {
  pr_client b o n w : good (S b) w →
    ∃ tag w', with_protocol (client_read fid o n) w = (Ok (Op_mk tag (Some fid) (TRead tag fid o n)), w') ∧ good b w';
  pr_submit b tag o n w : good b w →
    ∃ p w', submit_message (TRead tag fid o n) w = (Ok p, w') ∧ pending_tag p = tag ∧ good b w';
  pr_recv b p o n w : good b w → asked w !! receiver p = Some (o, n) →
    ∃ w', recv p w = (Ok (Arrived (Ok (ClientCompletion (pending_tag p) (CompRead (slice o n))))), w') ∧ good b w';
  pr_recv_timeout b p t o n w : good b w → asked w !! receiver p = Some (o, n) →
    ∃ w', recv_timeout p t w = (Ok (Arrived (Ok (ClientCompletion (pending_tag p) (CompRead (slice o n))))), w') ∧
      good b w';
  pr_now b w : good b w → good b (now w).2;
}.

Context (good : nat → W → Prop) `{!PromptReads good}.

Lemma submit_window_prompt segments b w :
  good (length segments + b) w →
  ∃ pending w', submit_window fid segments w = (Ok pending, w') ∧ good b w' ∧
    Forall (λ x, is_ok x.2 = true) pending.
Proof.
  revert w. induction segments as [|[o n] segments IH]; intros w Hg; cbn [submit_window].
  { eexists [], w. split_and!; [done|done|constructor]. }
  simpl in Hg. unfold attempt, submit_read, msize, request, map_err, submit_op, mbind, M_bind. rewrite fr_msize.
  destruct (pr_client _ o (clamp_read_count size n) w Hg) as (tag & w1 & E1 & Hg1). rewrite E1. cbn [op_message].
  destruct (pr_submit _ tag o (clamp_read_count size n) w1 Hg1) as (p & w2 & E2 & Htag & Hg2). rewrite E2. unfold mret, M_ret.
  destruct (IH w2 Hg2) as (pending & w3 & E3 & Hg3 & Hall). rewrite E3.
  eexists _, w3. split_and!; [done|done|by constructor].
Qed.

Lemma expect_tag_own {X} tag c (w : X) : expect_tag tag (ClientCompletion tag c) w = (Ok c, w).
Proof. unfold expect_tag. by rewrite Z.eqb_refl. Qed.

Lemma checked_read_data_fits data n : vlen data ≤ n ≤ u32_max → checked_read_data data n = Ok data.
Proof.
  intros Hn. pose proof (vlen_nonneg data). unfold checked_read_data. rewrite try_from_in by lia. simpl.
  by rewrite (proj2 (Z.ltb_ge _ _)) by lia.
Qed.

Lemma wait_segment_prompt started timeout b p o n w :
  good b w → asked w !! receiver (pr_call p) = Some (o, n) → pr_requested p = n → vlen (slice o n) ≤ n ≤ u32_max →
  ∃ w', wait_segment started timeout (Ok p) w = (Ok (slice o n), w') ∧ good b w'.
Proof.
  intros Hg Hp Hreq Hn. cbn [wait_segment]. destruct (timeout =? 0).
  - unfold wait_read, wait, mbind, M_bind. destruct (pr_recv _ _ _ _ _ Hg Hp) as (w1 & E1 & Hg1). rewrite E1.
    unfold lift. rewrite expect_tag_own, Hreq, checked_read_data_fits by done. by exists w1.
  - unfold mbind, M_bind. pose proof (pr_now _ _ Hg) as Hg1. destruct (fr_now w) as (t & w1 & Et & Ha).
    rewrite Et in *. simpl in Hg1. rewrite <- Ha in Hp.
    unfold wait_read_timeout, wait_pending_timeout, wait_pending_response_timeout, wait_response, mbind, M_bind.
    destruct (pr_recv_timeout _ _ (Z.max (saturating_sub timeout (t - started)) 1) _ _ _ Hg1 Hp) as (w2 & E2 & Hg2).
    rewrite E2. unfold lift. rewrite expect_tag_own, Hreq, checked_read_data_fits by done. by exists w2.
Qed.

Lemma drain_window_prompt started timeout segments pending reqs base output b w :
  windowed segments pending reqs → Forall (λ x, is_ok x.2 = true) pending →
  Forall (λ x, clamp_read_count size x.2 = x.2 ∧ x.2 ≤ u32_max) segments → all_there segments →
  reqs ##ₘ base → asked w = reqs ∪ base → good b w →
  ∃ out w', drain_window started timeout pending output None w = (Ok (out, None), w') ∧ good b w'.
Proof.
  intros Hw. revert base output w.
  induction Hw as [|o n p segments pending reqs Hn Hreq Hw IH|o n e segments pending reqs Hw IH];
    intros base output w Hok Hfit Hall Hd Ha Hg; cbn [drain_window].
  - by eexists _, w.
  - apply Forall_cons in Hok as [_ Hok], Hfit as [[Hcl Hmax] Hfit], Hall as [Hx Hall]. simpl in Hcl, Hmax, Hx.
    rewrite Hcl in Hreq. apply map_disjoint_insert_l in Hd as [Hk Hd]. unfold attempt, mbind, M_bind.
    destruct (wait_segment_prompt started timeout b p o n w) as (w1 & E & Hg1); [done| |done|lia|].
    { by rewrite Ha, <- insert_union_l, lookup_insert_eq, Hreq. }
    destruct (wait_segment_reads _ _ _ _ _ _ E) as [Ha1 _].
    rewrite Ha, <- insert_union_l, delete_insert_id in Ha1 by (by apply lookup_union_None).
    rewrite E, Hx, Z.eqb_refl. by eapply IH.
  - by apply Forall_cons in Hok as [? _].
Qed.

Lemma read_windows_prompt started timeout windows output b w :
  Forall (λ x, clamp_read_count size x.2 = x.2 ∧ x.2 ≤ u32_max) (concat windows) → all_there (concat windows) →
  good (length (concat windows) + b) w →
  ∃ out w', read_windows fid started timeout windows output w = (Ok out, w').
Proof.
  revert output w. induction windows as [|segments windows IH]; intros output w Hfit Hall Hg; cbn [read_windows].
  { by eexists _, w. }
  simpl in Hfit, Hall, Hg. apply Forall_app in Hfit as [Hf1 Hf2]. apply Forall_app in Hall as [Ha1 Ha2].
  rewrite length_app, <- Nat.add_assoc in Hg.
  destruct (submit_window_prompt _ _ _ Hg) as (pending & w1 & E1 & Hg1 & Hok).
  destruct (submit_window_spec segments w) as (pending' & w1' & reqs & E1' & Hw & Hd & Ha). rewrite E1 in E1'. injection E1' as <- <-.
  destruct (drain_window_prompt started timeout _ _ _ _ output _ w1 Hw Hok Hf1 Ha1 Hd Ha Hg1) as (out & w2 & E2 & Hg2).
  unfold mbind, M_bind. rewrite E1, E2. by apply IH.
Qed.

(** C23: a parallel read returns what a sequential one would: for every window
    size and every way the answers come in, the call returns with no receiver of
    its own left over, and a result is exactly the [count] bytes of the file at
    [offset]; if the server answers every read in full and the file has the
    bytes, the call succeeds. *)
Theorem parallel_read_returns_slice offset count max_in_flight timeout w :
  0 ≤ offset → 0 ≤ count ≤ u32_max → 0 ≤ max_in_flight → IOUNIT_HEADER_SIZE < size ≤ u32_max →
  ∃ r w', read_exact_parallel_timeout fid offset count max_in_flight timeout w = (r, w') ∧
    asked w' = asked w ∧
    (∀ out, r = Ok out → out = slice offset count ∧ vlen out = count) ∧
    (0 < max_in_flight → offset + count ≤ u64_max → vlen (slice offset count) = count →
     good (Z.to_nat count) w → r = Ok (slice offset count)).
Proof.
  intros Ho Hc Hm Hsize. unfold read_exact_parallel_timeout. destruct (Z.eqb_spec count 0) as [->|Hc0].
  { eexists _, w. split_and!; [done|done|by intros out [= <-]|done]. }
  destruct (Z.eqb_spec max_in_flight 0) as [->|Hm0].
  { eexists _, w. split_and!; [done|done|done|lia]. }
  unfold msize, mbind, M_bind. rewrite fr_msize. unfold lift.
  assert (0 < max_iounit size) as Hu by (unfold max_iounit, saturating_sub; lia).
  destruct (exact_read_segments_spec offset count (max_iounit size)) as [(segments & -> & Ht & Hle)|[-> Hov]]; [lia|done| |].
  2:{ eexists _, w. split_and!; [done|done|done|lia]. }
  destruct (fr_now w) as (started & w1 & En & Ha). rewrite En.
  destruct (read_windows_spec started timeout (chunks max_in_flight segments) [] w1) as (r & w' & E & Ha' & Hr).
  rewrite concat_chunks in Hr by lia. exists r, w'. split_and!; [done|congruence| |].
  - intros out ->. destruct (Hr _ eq_refl) as [Hall ->]. by destruct (tiles_data offset count segments) as (_ & -> & Hl).
  - intros _ _ Hl Hg. pose proof (tiles_all_there _ _ _ Ho Ht Hl) as Hall. pose proof (pr_now _ _ Hg) as Hg1.
    rewrite En in Hg1. simpl in Hg1. pose proof (tiles_length _ _ _ Ht) as Hlen.
    destruct (read_windows_prompt started timeout (chunks max_in_flight segments) []
      (Z.to_nat count - length segments) w1) as (out & w2 & E').
    + rewrite concat_chunks by lia. eapply Forall_impl; [exact Hle|]. intros [o n] Hn. simpl in Hn.
      unfold clamp_read_count, max_iounit, saturating_sub, RREAD_HEADER_SIZE, IOUNIT_HEADER_SIZE in *. simpl. lia.
    + by rewrite concat_chunks by lia.
    + rewrite concat_chunks by lia. unfold vlen in Hlen. by replace (_ + _)%nat with (Z.to_nat count) by lia.
    + rewrite E in E'. injection E' as -> <-. destruct (Hr _ eq_refl) as [_ ->]. f_equal.
      by destruct (tiles_data offset count segments) as (_ & -> & _).
Qed.

End parallel.

(** ** A concrete connection *)

(** A server of one file behind a client with message size 256. *)
Record FileConn := FileConn_mk {
  fc_next_tag : Z; fc_next_fid : Z; fc_pending : RequestTable; fc_targets : gmap Z Z;
  fc_asked : gmap nat (Z * Z);
}.

Section file_conn.
Context (content : bytes).

Definition fc_client (w : FileConn) : Client :=
  Client_mk 256 (bstr "9P2000") None (fc_next_tag w) (fc_next_fid w) (fc_pending w) (fc_targets w).

Definition fc_answer (p : PendingCall) : M FileConn Received := λ w,
  (Ok match fc_asked w !! receiver p with
      | Some (o, n) => Arrived (Ok (ClientCompletion (pending_tag p) (CompRead (slice content o n))))
      | None => Disconnected
      end,
   FileConn_mk (fc_next_tag w) (fc_next_fid w) (fc_pending w) (fc_targets w) (delete (receiver p) (fc_asked w))).

#[local] Instance fc_caller : Caller FileConn := {
  with_protocol A m w :=
    let '(r, c) := m (fc_client w) in
    (r, FileConn_mk (next_tag c) (next_fid c) (pending c) (flush_targets c) (fc_asked w));
  submit_message m w :=
    let id := fresh (dom (fc_asked w)) in
    (Ok (PendingCall_mk (t_tag m) id),
     match m with
     | TRead _ _ o n => FileConn_mk (fc_next_tag w) (fc_next_fid w) (fc_pending w) (fc_targets w)
                          (<[id := (o, n)]> (fc_asked w))
     | _ => w
     end);
  recv := fc_answer;
  recv_timeout p _ := fc_answer p;
  cancel_waiter _ _ := mret ();
  now := mret 0;
  inner_variant _ := Plain;
  inner_root_fid _ := 1;
}.

Lemma fc_fresh w : fc_asked w !! fresh (dom (fc_asked w)) = None.
Proof. apply not_elem_of_dom, is_fresh. Qed.

Lemma fc_answer_file p w :
  ∃ r w', fc_answer p w = (Ok r, w') ∧ fc_asked w' = delete (receiver p) (fc_asked w) ∧
    ∀ o n tag data, fc_asked w !! receiver p = Some (o, n) →
      r = Arrived (Ok (ClientCompletion tag (CompRead data))) → ∃ rest, zdrop o content = data ++ rest.
Proof.
  eexists _, _. split_and!; [done|done|]. intros o n tag data ->. intros [= _ <-].
  exists (zdrop n (zdrop o content)). unfold slice. by rewrite ztake_zdrop.
Qed.

#[local] Instance fc_reads fid : FileReads fid 256 content fc_asked.
Proof.
  constructor; try (intros; apply fc_answer_file); intros; try done.
  - by destruct w.
  - simpl. destruct (client_read fid o n (fc_client w)) as [r c] eqn:E. eexists _, _. split_and!; [done|done|].
    intros op ->. unfold client_read in E. inv_ok. by injection E as <- <-.
  - simpl. destruct (client_flush old (fc_client w)) as [r c] eqn:E. eexists _, _. split_and!; [done|done|].
    intros op ->. unfold client_flush in E. case_match; [done|]. inv_ok. by injection E as <- <-.
  - eexists _, _. split; [done|]. split; [apply fc_fresh|done].
  - eexists _, _. split_and!; [done|done|]. intros p [= <-]. apply fc_fresh.
  - by eexists _, _.
Qed.

(** [b] more tags can be had. *)
Definition fc_good (b : nat) (w : FileConn) : Prop :=
  0 ≤ fc_next_tag w ∧ fc_next_tag w + Z.of_nat b ≤ 65535 ∧
  ∀ t, fc_next_tag w ≤ t → live (fc_pending w) !! t = None.

#[local] Instance fc_prompt fid : PromptReads fid content fc_asked fc_good.
Proof.
  constructor.
  - intros b o n w (H0 & Hb & Hfree). cbn [with_protocol fc_caller]. unfold client_read, mbind, M_bind.
    rewrite alloc_tag_first; [|simpl; vlia|split; [simpl; unfold NOTAG, u16_max; lia|by apply Hfree]].
    eexists _, _. split; [done|]. simpl.
    assert (wrapping_add u16_max (fc_next_tag w) 1 = fc_next_tag w + 1) as ->
      by (unfold wrapping_add, u16_max; rewrite Z.mod_small; lia).
    split_and!; simpl; [lia|lia|]. intros t Ht. rewrite lookup_insert_ne by lia. apply Hfree. lia.
  - intros b tag o n w Hg. by eexists _, _.
  - intros b p o n w Hg Hp. simpl. unfold fc_answer. rewrite Hp. by eexists.
  - intros b p t o n w Hg Hp. simpl. unfold fc_answer. rewrite Hp. by eexists.
  - done.
Qed.

End file_conn.

Definition sample_file : bytes := byte_of_Z ∘ Z.of_nat <$> seq 0 400.

Definition sample_conn : FileConn := FileConn_mk 1 2 (RequestTable_mk 3 ∅) ∅ ∅.

#[local] Instance no_duration_text : DurationText := { seconds_text _ := [] }.
#[local] Instance no_debug : DebugText :=
  { debug_response := λ _, []; debug_completion := λ _, []; debug_str := λ _, [] }.

Lemma parallel_read_returns_slice_witness :
  ∃ w', read_exact_parallel_timeout (W := FileConn) (H := fc_caller sample_file) 1 50 300 1 0 sample_conn =
        (Ok (slice sample_file 50 300), w') ∧ vlen (slice sample_file 50 300) = 300.
Proof.
  assert (vlen (slice sample_file 50 300) = 300) as Hl by (vm_compute; reflexivity).
  destruct (parallel_read_returns_slice (H := fc_caller sample_file) 1 256 sample_file fc_asked
    (FileReads0 := fc_reads sample_file 1) fc_good (PromptReads0 := fc_prompt sample_file 1) 50 300 1 0 sample_conn)
    as (r & w' & E & _ & _ & Hok); [lia|unfold u32_max; lia|lia|split; [reflexivity|discriminate]|].
  exists w'. split; [|exact Hl]. rewrite E. rewrite Hok; [reflexivity|lia|unfold u64_max; lia|exact Hl|].
  split; [discriminate|]. split; [discriminate|]. intros t _. reflexivity.
Defined.
