(* ===== verification/NamespaceCache.v ===== *)
(** The namespace cache of a session: [crates/session/src/cache.rs].  It keeps
    the stat of paths and the listings of directories until a change makes them
    stale.  Times ([Instant::now()]) are an argument of the operations; a path is
    the list of its segments. *)
From S2P Require Import Prelude Errors Qid Stat Referral.

#[export] Instance byte_countable : Countable byte.
Proof.
  refine (inj_countable Byte.to_N Byte.of_N _). intros b. apply Byte.of_to_N.
Defined.

(** ** Freshness *)

Inductive StaleReason :=
| Reconnect
| NamespaceChanged
| IdentityChange
| NotDirectory
| Explicit (text : bytes).

Record Freshness := Freshness_mk { observed_at : Z; stale_reason : option StaleReason }.

Definition fresh_now (now : Z) : Freshness := Freshness_mk now None.
Definition stale_now (now : Z) (reason : StaleReason) : Freshness := Freshness_mk now (Some reason).

Definition is_stale (f : Freshness) : bool :=
  match stale_reason f with Some _ => true | None => false end.

Definition mark_fresh (now : Z) (f : Freshness) : Freshness := Freshness_mk now None.
Definition mark_stale (now : Z) (reason : StaleReason) (f : Freshness) : Freshness :=
  Freshness_mk now (Some reason).

(** [saturating_duration_since] *)
Definition age_at (f : Freshness) (now : Z) : Z := saturating_sub now (observed_at f).

Definition is_fresh_at (f : Freshness) (now ttl : Z) : bool :=
  negb (ttl =? 0) && negb (is_stale f) && (age_at f now <=? ttl).

(** ** Entries *)

Record DirEntry := DirEntry_mk { de_name : bytes; de_qid : Qid; de_stat : Stat }.

Record DirCache := DirCache_mk { dc_entries : list DirEntry; dc_freshness : Freshness }.

Definition DirCache_fresh (now : Z) (entries : list DirEntry) : DirCache :=
  DirCache_mk entries (fresh_now now).

Record CachedNode := CachedNode_mk {
  cn_stat : Stat;
  stat_freshness : Freshness;
  dir_cache : option DirCache;
}.

(** [BTreeMap<Vec<Vec<u8>>, CachedNode>] *)
Abbreviation Path := (list bytes).
Abbreviation NamespaceCache := (gmap Path CachedNode).

Definition NamespaceCache_new : NamespaceCache := ∅.

Definition stat_is_dir (st : Stat) : bool :=
  has_bits (qtype (st_qid st)) QTDIR || has_bits (st_mode st) DMDIR.

Definition stat_is_symlink (st : Stat) : bool :=
  has_bits (qtype (st_qid st)) QTSYMLINK || has_bits (st_mode st) DMSYMLINK.

Definition same_qid (a b : Qid) : bool :=
  (qid_path a =? qid_path b) && (qid_version a =? qid_version b) && (qtype a =? qtype b).

Definition parent_path (path : Path) : option Path :=
  match path with [] => None | _ => Some (removelast path) end.

(** [path.iter().zip(prefix).all(..)] stops at the shorter of the two. *)
Fixpoint zip_all (path prefix : Path) : bool :=
  match path, prefix with
  | p :: path, q :: prefix => bool_decide (p = q) && zip_all path prefix
  | _, _ => true
  end.

Definition path_is_prefix (prefix path : Path) : bool :=
  (vlen prefix <=? vlen path) && zip_all path prefix.

Definition parse_absolute_path (path : bytes) : option Path :=
  if starts_with [slash] path
  then Some (List.filter (λ segment, negb (bool_decide (segment = []))) (split_on slash path))
  else None.

(** ** Lookups *)

Definition stat_if_fresh (path : Path) (c : NamespaceCache) : option Stat :=
  match c !! path with
  | Some node => if negb (is_stale (stat_freshness node)) then Some (cn_stat node) else None
  | None => None
  end.

Definition directory_if_fresh (path : Path) (c : NamespaceCache) : option (list DirEntry) :=
  match c !! path with
  | Some node =>
      if negb (is_stale (stat_freshness node)) then
        match dir_cache node with
        | Some cache => if negb (is_stale (dc_freshness cache)) then Some (dc_entries cache) else None
        | None => None
        end
      else None
  | None => None
  end.

Record NamespaceCacheStats := NamespaceCacheStats_mk {
  cs_entries : Z; cs_directories : Z; cs_stale_entries : Z;
}.

Definition stats (c : NamespaceCache) : NamespaceCacheStats :=
  let nodes := (map_to_list c).*2 in
  NamespaceCacheStats_mk (vlen nodes)
    (vlen (List.filter (λ node, match dir_cache node with Some _ => true | None => false end) nodes))
    (vlen (List.filter (λ node, is_stale (stat_freshness node)) nodes)).

(** ** Updates *)

(** The new node at a path whose stat has been observed. *)
Definition observed (now : Z) (stat : Stat) (old : option CachedNode) : CachedNode :=
  let entry := default (CachedNode_mk stat (fresh_now now) None) old in
  let identity_changed := negb (same_qid (st_qid (cn_stat entry)) (st_qid stat)) in
  CachedNode_mk stat (mark_fresh now (stat_freshness entry))
    (if identity_changed || negb (stat_is_dir stat) then None else dir_cache entry).

Definition update_stat (now : Z) (path : Path) (stat : Stat) (c : NamespaceCache) : NamespaceCache :=
  <[path := observed now stat (c !! path)]> c.

Definition dot : bytes := bstr ".".
Definition dotdot : bytes := bstr "..".

Fixpoint seed_child_stats (now : Z) (parent : Path) (entries : list DirEntry) (c : NamespaceCache) :
    NamespaceCache :=
  match entries with
  | [] => c
  | child :: entries =>
      if bool_decide (de_name child = dot) || bool_decide (de_name child = dotdot)
      then seed_child_stats now parent entries c
      else
        let child_path := parent ++ [de_name child] in
        seed_child_stats now parent entries
          (<[child_path := observed now (de_stat child) (c !! child_path)]> c)
  end.

Definition update_directory (now : Z) (path : Path) (entries : list DirEntry) (c : NamespaceCache) :
    NamespaceCache :=
  match c !! path with
  | None => c
  | Some entry =>
      if stat_is_dir (cn_stat entry) && negb (is_stale (stat_freshness entry)) then
        let c := <[path := CachedNode_mk (cn_stat entry) (stat_freshness entry)
                             (Some (DirCache_fresh now entries))]> c in
        seed_child_stats now path entries c
      else c
  end.

(** ** Invalidation *)

Definition stale_node (now : Z) (reason : StaleReason) (node : CachedNode) : CachedNode :=
  CachedNode_mk (cn_stat node) (mark_stale now reason (stat_freshness node)) None.

Definition forget_listing (path : Path) (c : NamespaceCache) : NamespaceCache :=
  match parent_path path with
  | Some parent => alter (λ node, CachedNode_mk (cn_stat node) (stat_freshness node) None) parent c
  | None => c
  end.

Definition mark_path_stale (now : Z) (path : Path) (reason : StaleReason) (c : NamespaceCache) :
    NamespaceCache :=
  map_imap (λ entry_path node,
    Some (if path_is_prefix path entry_path then stale_node now reason node else node))
    (forget_listing path c).

Definition mark_all_stale (now : Z) (reason : StaleReason) (c : NamespaceCache) : NamespaceCache :=
  stale_node now reason <$> c.

Definition mark_change (now : Z) (label : string) (path : bytes) (c : NamespaceCache) : NamespaceCache :=
  match parse_absolute_path path with
  | Some segments => mark_path_stale now segments NamespaceChanged c
  | None => mark_all_stale now (Explicit (bstr label ++ path)) c
  end.

Definition mark_namespace_change (now : Z) (path : bytes) (old_path : option bytes) (c : NamespaceCache) :
    NamespaceCache :=
  let c := mark_change now "invalid namespace change path " path c in
  match old_path with
  | Some old_path => mark_change now "invalid namespace change old_path " old_path c
  | None => c
  end.
