(* ===== verification/NamespaceCacheProps.v ===== *)
(** What the namespace cache serves ([crates/session/src/cache.rs]): a value it
    calls fresh is the current one, unless a change that touches it has not been
    announced yet.  The proviso is that no change is announced between the fetch
    of a value and its entry into the cache; a run shows that it is needed. *)
From S2P Require Import Prelude Errors Qid Stat Referral NamespaceCache.

(** ** Prefixes *)

Lemma zip_all_true path prefix :
  (length prefix ≤ length path)%nat → zip_all path prefix = true ↔ prefix `prefix_of` path.
Proof.
  revert prefix. induction path as [|p path IH]; intros [|q prefix] Hl; simpl in *; try lia.
  - split; [intros _; apply prefix_nil|done].
  - split; [intros _; apply prefix_nil|done].
  - rewrite andb_true_iff, bool_decide_eq_true, IH by lia. split.
    + intros [-> ?]. by apply prefix_cons.
    + intros Hp. split; [by apply prefix_cons_inv_1 in Hp|by apply prefix_cons_inv_2 in Hp].
Qed.

Lemma path_is_prefix_spec prefix path : path_is_prefix prefix path = true ↔ prefix `prefix_of` path.
Proof.
  unfold path_is_prefix, vlen. rewrite andb_true_iff, Z.leb_le. split.
  - intros [Hl Hz]. apply zip_all_true in Hz; [done|lia].
  - intros Hp. pose proof (prefix_length _ _ Hp). split; [lia|]. by apply zip_all_true; [lia|].
Qed.

(** ** Changes *)

Record Change := Change_mk { ch_path : bytes; ch_old_path : option bytes }.

(** A change at [path] may change every stat from there on, and the listing of
    the directory it is in. *)
Definition covers (path : bytes) (p : Path) : bool :=
  match parse_absolute_path path with
  | Some q => path_is_prefix q p
  | None => true
  end.

Definition lists (path : bytes) (p : Path) : bool :=
  covers path p ||
  match parse_absolute_path path with
  | Some q => bool_decide (parent_path q = Some p)
  | None => true
  end.

Definition either_path (f : bytes → Path → bool) (ch : Change) (p : Path) : bool :=
  f (ch_path ch) p || match ch_old_path ch with Some old => f old p | None => false end.

Definition touches_stat : Change → Path → bool := either_path covers.
Definition touches_list : Change → Path → bool := either_path lists.

Lemma removelast_parent (q : Path) p : parent_path q = Some p → ∃ x, q = p ++ [x].
Proof.
  destruct q as [|y q]; [done|]. intros [= <-].
  exists (List.last (y :: q) []). apply app_removelast_last. done.
Qed.

Lemma parent_path_snoc (p : Path) x : parent_path (p ++ [x]) = Some p.
Proof.
  unfold parent_path. rewrite removelast_last. by destruct p.
Qed.

(** A change of a listed child changes the listing. *)
Lemma covers_child path p x : covers path (p ++ [x]) = true → lists path p = true.
Proof.
  unfold lists, covers. destruct (parse_absolute_path path) as [q|]; [|done].
  rewrite path_is_prefix_spec. intros [k E]. apply orb_true_iff.
  destruct k as [|y k _] using rev_ind.
  - rewrite app_nil_r in E. right. apply bool_decide_eq_true. by rewrite <- E, parent_path_snoc.
  - left. rewrite app_assoc in E. apply app_inj_tail in E as [-> _]. apply path_is_prefix_spec. by eexists.
Qed.

Lemma touches_child ch p x : touches_list ch p = false → touches_stat ch (p ++ [x]) = false.
Proof.
  unfold touches_list, touches_stat, either_path. rewrite !orb_false_iff. intros [H1 H2]. split.
  - destruct (covers (ch_path ch) (p ++ [x])) eqn:E; [|done]. apply covers_child in E. congruence.
  - destruct (ch_old_path ch) as [old|]; [|done].
    destruct (covers old (p ++ [x])) eqn:E; [|done]. apply covers_child in E. congruence.
Qed.

Lemma touches_stat_list ch p : touches_list ch p = false → touches_stat ch p = false.
Proof.
  unfold touches_list, touches_stat, either_path, lists. rewrite !orb_false_iff. intros [[H1 _] H2]. split; [done|].
  destruct (ch_old_path ch); [|done]. by apply orb_false_iff in H2 as [? _].
Qed.

(** ** What an invalidation does *)

(** A node after an invalidation that covers it, lists it, or does neither. *)
Definition invalidated (covered listed : bool) (node node' : CachedNode) : Prop :=
  if covered then is_stale (stat_freshness node') = true ∧ dir_cache node' = None
  else cn_stat node' = cn_stat node ∧ stat_freshness node' = stat_freshness node ∧
       (dir_cache node' = None ∨ listed = false ∧ dir_cache node' = dir_cache node).

Lemma mark_change_Some now label path c p node' :
  mark_change now label path c !! p = Some node' →
  ∃ node, c !! p = Some node ∧ invalidated (covers path p) (lists path p) node node'.
Proof.
  unfold mark_change, lists, covers. destruct (parse_absolute_path path) as [q|].
  - unfold mark_path_stale, forget_listing. rewrite map_lookup_imap.
    destruct (parent_path q) as [parent|] eqn:Eq; simpl.
    + destruct (decide (parent = p)) as [->|Hne].
      * rewrite lookup_alter_eq. destruct (c !! p) as [node|]; [|done]. simpl. intros [= <-].
        exists node. split; [done|]. unfold invalidated. destruct (path_is_prefix q p); simpl; auto.
      * rewrite lookup_alter_ne by done. destruct (c !! p) as [node|]; [|done]. simpl. intros [= <-].
        exists node. split; [done|]. unfold invalidated. destruct (path_is_prefix q p); simpl; [auto|].
        rewrite bool_decide_false by congruence. auto.
    + destruct (c !! p) as [node|]; [|done]. simpl. intros [= <-].
      exists node. split; [done|]. unfold invalidated. destruct (path_is_prefix q p); simpl; auto.
  - unfold mark_all_stale. rewrite lookup_fmap. destruct (c !! p) as [node|]; [|done]. simpl. intros [= <-].
    exists node. split; [done|]. done.
Qed.

Lemma mark_namespace_change_Some now ch c p node' :
  mark_namespace_change now (ch_path ch) (ch_old_path ch) c !! p = Some node' →
  ∃ node, c !! p = Some node ∧ invalidated (touches_stat ch p) (touches_list ch p) node node'.
Proof.
  unfold mark_namespace_change, touches_stat, touches_list, either_path.
  destruct (ch_old_path ch) as [old|]; [|rewrite !orb_false_r; apply mark_change_Some].
  intros (n1 & (n0 & Hc & H1)%mark_change_Some & H2)%mark_change_Some. exists n0. split; [done|].
  unfold invalidated in *. destruct (covers (ch_path ch) p), (covers old p); simpl; try done.
  - destruct H1 as [Hs Hd], H2 as (_ & Ef & [?|[_ Ed]]); rewrite Ef; [done|]. by rewrite Ed.
  - destruct H1 as (E1 & F1 & D1), H2 as (E2 & F2 & D2). split_and!; [congruence..|].
    destruct D2 as [?|[-> D2]]; [by left|]. rewrite D2, orb_false_r. exact D1.
Qed.

(** ** The namespace behind the cache *)

Record Namespace := Namespace_mk {
  ns_stat : Path → option Stat;
  ns_list : Path → option (list DirEntry);
}.

(** Listings give the stats of the children. *)
Definition ns_wf (ns : Namespace) : Prop := ∀ p entries e,
  ns_list ns p = Some entries → e ∈ entries → de_name e ≠ dot → de_name e ≠ dotdot →
  ns_stat ns (p ++ [de_name e]) = Some (de_stat e).

Record changed (ch : Change) (ns ns' : Namespace) : Prop := {
  changed_wf : ns_wf ns';
  changed_stat p : touches_stat ch p = false → ns_stat ns' p = ns_stat ns p;
  changed_list p : touches_list ch p = false → ns_list ns' p = ns_list ns p;
}.

(** The cache, the namespace, the changes not yet announced, and the values that
    were fetched and not yet entered. *)
Record World := World_mk {
  w_cache : NamespaceCache;
  w_ns : Namespace;
  w_pending : list Change;
  w_stats : list (Path * Stat);
  w_lists : list (Path * list DirEntry);
}.

Definition World_new (ns : Namespace) : World := World_mk NamespaceCache_new ns [] [] [].

Section steps.
(** When a change may be announced. *)
Context (may_announce : World → Change → Prop).

Inductive cache_step : World → World → Prop :=
| cs_change w ch ns' :
    changed ch (w_ns w) ns' →
    cache_step w (World_mk (w_cache w) ns' (w_pending w ++ [ch]) (w_stats w) (w_lists w))
| cs_announce w now ch pending :
    w_pending w = ch :: pending → may_announce w ch →
    cache_step w (World_mk (mark_namespace_change now (ch_path ch) (ch_old_path ch) (w_cache w))
                    (w_ns w) pending (w_stats w) (w_lists w))
| cs_coarse w now reason :
    cache_step w (World_mk (mark_all_stale now reason (w_cache w)) (w_ns w) (w_pending w) (w_stats w) (w_lists w))
| cs_fetch_stat w p st :
    ns_stat (w_ns w) p = Some st →
    cache_step w (World_mk (w_cache w) (w_ns w) (w_pending w) ((p, st) :: w_stats w) (w_lists w))
| cs_enter_stat w now before p st after :
    w_stats w = before ++ (p, st) :: after →
    cache_step w (World_mk (update_stat now p st (w_cache w)) (w_ns w) (w_pending w) (before ++ after) (w_lists w))
| cs_fetch_list w p entries :
    ns_list (w_ns w) p = Some entries →
    cache_step w (World_mk (w_cache w) (w_ns w) (w_pending w) (w_stats w) ((p, entries) :: w_lists w))
| cs_enter_list w now before p entries after :
    w_lists w = before ++ (p, entries) :: after →
    cache_step w (World_mk (update_directory now p entries (w_cache w)) (w_ns w) (w_pending w) (w_stats w)
                    (before ++ after)).

End steps.

(** A change is announced when no value it touches is on its way into the cache. *)
Definition undisturbed (w : World) (ch : Change) : Prop :=
  (∀ p st, (p, st) ∈ w_stats w → touches_stat ch p = false) ∧
  (∀ p entries, (p, entries) ∈ w_lists w → touches_list ch p = false).

(** ** The invariant *)

Definition ok_stat (w : World) (p : Path) (st : Stat) : Prop :=
  ns_stat (w_ns w) p = Some st ∨ ∃ ch, ch ∈ w_pending w ∧ touches_stat ch p = true.

Definition ok_list (w : World) (p : Path) (entries : list DirEntry) : Prop :=
  ns_list (w_ns w) p = Some entries ∨ ∃ ch, ch ∈ w_pending w ∧ touches_list ch p = true.

Definition ok_children (w : World) (p : Path) (entries : list DirEntry) : Prop :=
  ∀ e, e ∈ entries → de_name e ≠ dot → de_name e ≠ dotdot → ok_stat w (p ++ [de_name e]) (de_stat e).

Definition ok_node (w : World) (p : Path) (node : CachedNode) : Prop :=
  (is_stale (stat_freshness node) = false → ok_stat w p (cn_stat node)) ∧
  (∀ dc, dir_cache node = Some dc →
     is_stale (stat_freshness node) = false ∧ ok_list w p (dc_entries dc)).

Record coherent (w : World) : Prop := {
  co_ns : ns_wf (w_ns w);
  co_cache p node : w_cache w !! p = Some node → ok_node w p node;
  co_stats p st : (p, st) ∈ w_stats w → ok_stat w p st;
  co_lists p entries : (p, entries) ∈ w_lists w → ok_list w p entries ∧ ok_children w p entries;
}.

(** ** The steps keep the invariant *)

Lemma ok_stat_weaken w w' p st :
  (∀ ch, ch ∈ w_pending w → touches_stat ch p = true → ch ∈ w_pending w') →
  (ns_stat (w_ns w') p = ns_stat (w_ns w) p ∨ ∃ ch, ch ∈ w_pending w' ∧ touches_stat ch p = true) →
  ok_stat w p st → ok_stat w' p st.
Proof.
  intros Hp Hns [E|(ch & Hin & Ht)]; [|right; eauto].
  destruct Hns as [E'|?]; [left; congruence|by right].
Qed.

Lemma ok_list_weaken w w' p entries :
  (∀ ch, ch ∈ w_pending w → touches_list ch p = true → ch ∈ w_pending w') →
  (ns_list (w_ns w') p = ns_list (w_ns w) p ∨ ∃ ch, ch ∈ w_pending w' ∧ touches_list ch p = true) →
  ok_list w p entries → ok_list w' p entries.
Proof.
  intros Hp Hns [E|(ch & Hin & Ht)]; [|right; eauto].
  destruct Hns as [E'|?]; [left; congruence|by right].
Qed.

Lemma ok_node_weaken w w' p node :
  (∀ st, ok_stat w p st → ok_stat w' p st) →
  (∀ entries, ok_list w p entries → ok_list w' p entries) →
  ok_node w p node → ok_node w' p node.
Proof. intros Hs Hl [H1 H2]. split; [auto|]. intros dc Hdc. destruct (H2 dc Hdc). auto. Qed.

Lemma observed_ok w now p st old :
  ok_stat w p st → (∀ node, old = Some node → ok_node w p node) → ok_node w p (observed now st old).
Proof.
  intros Hst Hold. unfold observed. split; cbn [stat_freshness cn_stat dir_cache]; [done|].
  intros dc. case_match; [done|]. destruct old as [node|]; simpl; [|done].
  intros Hdc. split; [done|]. by apply (Hold node eq_refl).
Qed.

Lemma seed_child_stats_ok w now p entries c :
  ok_children w p entries → (∀ q node, c !! q = Some node → ok_node w q node) →
  ∀ q node, seed_child_stats now p entries c !! q = Some node → ok_node w q node.
Proof.
  revert c. induction entries as [|e entries IH]; intros c Hch Hc; [exact Hc|].
  assert (ok_children w p entries) as Hch' by (intros e' He'; apply Hch; by right).
  cbn [seed_child_stats]. case_match eqn:E; [by apply IH|].
  apply orb_false_iff in E as [E1%bool_decide_eq_false E2%bool_decide_eq_false].
  apply IH; [done|]. intros q node [[<- <-]|[_ Hq]]%lookup_insert_Some; [|eauto].
  apply observed_ok; [apply Hch; [left|..]; done|]. eauto.
Qed.

Lemma update_directory_ok w now p entries c :
  ok_list w p entries → ok_children w p entries → (∀ q node, c !! q = Some node → ok_node w q node) →
  ∀ q node, update_directory now p entries c !! q = Some node → ok_node w q node.
Proof.
  intros Hl Hch Hc. unfold update_directory. destruct (c !! p) as [entry|] eqn:Ep; [|exact Hc].
  case_match eqn:E; [|exact Hc]. apply andb_true_iff in E as [_ E%negb_true_iff].
  apply seed_child_stats_ok; [done|]. intros q node [[<- <-]|[_ Hq]]%lookup_insert_Some; [|eauto].
  destruct (Hc _ _ Ep) as [Hs _]. split; [done|]. intros dc [= <-]. done.
Qed.

Lemma mark_namespace_change_ok w w' now ch c :
  w_ns w' = w_ns w → (∀ ch', ch' ∈ w_pending w → ch' = ch ∨ ch' ∈ w_pending w') →
  (∀ q node, c !! q = Some node → ok_node w q node) →
  ∀ q node, mark_namespace_change now (ch_path ch) (ch_old_path ch) c !! q = Some node → ok_node w' q node.
Proof.
  intros Ens Hpend Hc q node' (node & Hq & Hi)%mark_namespace_change_Some.
  destruct (Hc _ _ Hq) as [Hs Hl]. unfold invalidated in Hi.
  destruct (touches_stat ch q) eqn:Et.
  { destruct Hi as [E1 E2]. split; [congruence|]. rewrite E2. done. }
  destruct Hi as (Es & Ef & Hd). rewrite <- Es, <- Ef in Hs. split.
  - intros Hf. specialize (Hs Hf). revert Hs. apply ok_stat_weaken; [|left; by rewrite Ens].
    intros ch' [->|?]%Hpend ?; [congruence|done].
  - intros dc Hdc. destruct Hd as [Hd|[Hnl Hd]]; [congruence|]. rewrite Ef.
    destruct (Hl dc) as [Hf Hok]; [congruence|]. split; [done|]. revert Hok.
    apply ok_list_weaken; [|left; by rewrite Ens].
    intros ch' [->|?]%Hpend ?; [congruence|done].
Qed.

Lemma mark_all_stale_ok w now reason c :
  ∀ q node, mark_all_stale now reason c !! q = Some node → ok_node w q node.
Proof.
  intros q node. unfold mark_all_stale. rewrite lookup_fmap. destruct (c !! q); [|done]. intros [= <-].
  by split.
Qed.

Lemma changed_ok_stat w ch ns' p st :
  changed ch (w_ns w) ns' → ok_stat w p st →
  ok_stat (World_mk (w_cache w) ns' (w_pending w ++ [ch]) (w_stats w) (w_lists w)) p st.
Proof.
  intros Hch. apply ok_stat_weaken; simpl; [set_solver|]. destruct (touches_stat ch p) eqn:E.
  - right. exists ch. set_solver.
  - left. by apply (changed_stat _ _ _ Hch).
Qed.

Lemma changed_ok_list w ch ns' p entries :
  changed ch (w_ns w) ns' → ok_list w p entries →
  ok_list (World_mk (w_cache w) ns' (w_pending w ++ [ch]) (w_stats w) (w_lists w)) p entries.
Proof.
  intros Hch. apply ok_list_weaken; simpl; [set_solver|]. destruct (touches_list ch p) eqn:E.
  - right. exists ch. set_solver.
  - left. by apply (changed_list _ _ _ Hch).
Qed.

Lemma announced_ok_stat w w' ch p st :
  w_ns w' = w_ns w → (∀ ch', ch' ∈ w_pending w → ch' = ch ∨ ch' ∈ w_pending w') →
  touches_stat ch p = false → ok_stat w p st → ok_stat w' p st.
Proof.
  intros Ens Hp Ht. apply ok_stat_weaken; [|left; by rewrite Ens].
  intros ch' [->|?]%Hp ?; [congruence|done].
Qed.

Lemma announced_ok_list w w' ch p entries :
  w_ns w' = w_ns w → (∀ ch', ch' ∈ w_pending w → ch' = ch ∨ ch' ∈ w_pending w') →
  touches_list ch p = false → ok_list w p entries → ok_list w' p entries.
Proof.
  intros Ens Hp Ht. apply ok_list_weaken; [|left; by rewrite Ens].
  intros ch' [->|?]%Hp ?; [congruence|done].
Qed.

Lemma fetched_children ns p entries w :
  ns_wf ns → ns = w_ns w → ns_list ns p = Some entries → ok_children w p entries.
Proof. intros Hwf -> Hl e He H1 H2. left. by eapply Hwf. Qed.

Lemma change_coherent w ch ns' :
  changed ch (w_ns w) ns' → coherent w →
  coherent (World_mk (w_cache w) ns' (w_pending w ++ [ch]) (w_stats w) (w_lists w)).
Proof.
  intros Hch [Hns Hc Hs Hl]. split; cbn [w_ns w_cache w_stats w_lists].
  - by apply (changed_wf _ _ _ Hch).
  - intros p node Hp. eapply ok_node_weaken; [..|by eapply Hc].
    + intros st. by apply changed_ok_stat.
    + intros entries. by apply changed_ok_list.
  - intros p st Hp. apply changed_ok_stat; auto.
  - intros p entries Hp. destruct (Hl _ _ Hp) as [H1 H2]. split; [by apply changed_ok_list|].
    intros e He ??. apply changed_ok_stat; auto.
Qed.

Lemma announce_coherent w now ch pending :
  w_pending w = ch :: pending → undisturbed w ch → coherent w →
  coherent (World_mk (mark_namespace_change now (ch_path ch) (ch_old_path ch) (w_cache w))
              (w_ns w) pending (w_stats w) (w_lists w)).
Proof.
  intros Hp [Us Ul] [Hns Hc Hs Hl]. set (w' := World_mk _ _ _ _ _).
  assert (w_ns w' = w_ns w) as Ens by done.
  assert (∀ ch', ch' ∈ w_pending w → ch' = ch ∨ ch' ∈ w_pending w') as Hpend.
  { rewrite Hp. simpl. set_solver. }
  split; [done|..].
  - by apply (mark_namespace_change_ok w w').
  - intros p st Hin. apply (announced_ok_stat w w' ch); eauto.
  - intros p entries Hin. destruct (Hl _ _ Hin) as [H1 H2]. pose proof (Ul _ _ Hin) as Ht.
    split; [by apply (announced_ok_list w w' ch)|].
    intros e He ??. apply (announced_ok_stat w w' ch); auto using touches_child.
Qed.

Lemma cache_step_coherent w w' : cache_step undisturbed w w' → coherent w → coherent w'.
Proof.
  intros [w0 ch ns' Hch|w0 now ch pending Hp Hu|w0 now reason|w0 p st Hst|w0 now before p st after Hst
    |w0 p entries Hli|w0 now before p entries after Hli] Hco.
  - by apply change_coherent.
  - by apply announce_coherent.
  - destruct Hco as [Hns Hc Hs Hl]. split; try done. apply mark_all_stale_ok.
  - destruct Hco as [Hns Hc Hs Hl]. split; try done.
    intros q st' [[= -> ->]|?]%elem_of_cons; [by left|by apply Hs].
  - destruct Hco as [Hns Hc Hs Hl]. split; try done.
    + intros q node. cbn [w_cache]. unfold update_stat. intros [[<- <-]|[_ Hq]]%lookup_insert_Some; [|by apply Hc].
      apply observed_ok; [apply Hs; rewrite Hst; set_solver|]. intros node. apply Hc.
    + intros q st' Hq. apply Hs. rewrite Hst. set_solver.
  - destruct Hco as [Hns Hc Hs Hl]. split; try done.
    intros q es [[= -> ->]|?]%elem_of_cons; [|by apply Hl]. split; [by left|].
    by eapply fetched_children.
  - destruct Hco as [Hns Hc Hs Hl]. split; try done.
    + destruct (Hl p entries) as [H1 H2]; [rewrite Hli; set_solver|]. by apply update_directory_ok.
    + intros q es Hq. apply Hl. rewrite Hli. set_solver.
Qed.

Lemma reachable_coherent ns w :
  ns_wf ns → rtc (cache_step undisturbed) (World_new ns) w → coherent w.
Proof.
  intros Hns. apply (rtc_ind_r coherent).
  - split; try done; simpl; set_solver.
  - intros x y _ Hs Hc. by eapply cache_step_coherent.
Qed.

(** ** What is served *)

(** C7: whatever the operations of the cache and the changes of the namespace, in
    any order, a stat or a listing that the cache serves as fresh is the current
    one of the namespace, or a change that touches it is still unannounced,
    provided that no change is announced while a value it touches is between its
    fetch and its entry into the cache. *)
Theorem fresh_is_current ns w p :
  ns_wf ns → rtc (cache_step undisturbed) (World_new ns) w →
  (∀ st, stat_if_fresh p (w_cache w) = Some st →
     ns_stat (w_ns w) p = Some st ∨ ∃ ch, ch ∈ w_pending w ∧ touches_stat ch p = true) ∧
  (∀ entries, directory_if_fresh p (w_cache w) = Some entries →
     ns_list (w_ns w) p = Some entries ∨ ∃ ch, ch ∈ w_pending w ∧ touches_list ch p = true).
Proof.
  intros Hns Hr. destruct (reachable_coherent _ _ Hns Hr) as [_ Hc _ _].
  unfold stat_if_fresh, directory_if_fresh.
  destruct (w_cache w !! p) as [node|] eqn:E; [|done]. destruct (Hc _ _ E) as [H1 H2].
  destruct (is_stale (stat_freshness node)); simpl; [done|].
  split; [intros st [= <-]; by apply H1|].
  intros entries. destruct (dir_cache node) as [dc|]; [|done]. case_match; [|done].
  intros [= <-]. by apply H2.
Qed.

(** ** Runs *)

Module Runs.

(** A root directory with one file [a]. *)
Definition file_a : Path := [bstr "a"].
Definition stat_root : Stat := Stat_new [] (Qid_dir 1) 0.
Definition stat_a (version : Z) : Stat := Stat_new (bstr "a") (Qid_new QTFILE version 2) 0.

Definition ns_a (version : Z) : Namespace :=
  Namespace_mk
    (λ p, if bool_decide (p = []) then Some stat_root
          else if bool_decide (p = file_a) then Some (stat_a version) else None)
    (λ p, if bool_decide (p = []) then Some [DirEntry_mk (bstr "a") (Qid_new QTFILE version 2) (stat_a version)]
          else None).

Definition change_a : Change := Change_mk (bstr "/a") None.

Lemma ns_a_wf version : ns_wf (ns_a version).
Proof.
  intros p entries e. cbn [ns_list ns_a]. case_bool_decide as Hp; [|done]. subst p.
  intros [= <-] ->%list_elem_of_singleton _ _. reflexivity.
Qed.

Lemma change_a_changed v v' : changed change_a (ns_a v) (ns_a v').
Proof.
  split; [apply ns_a_wf|..]; intros p Hp; cbn [ns_stat ns_list ns_a].
  - case_bool_decide; [done|]. case_bool_decide as Hf; [|done]. subst p. by vm_compute in Hp.
  - case_bool_decide as Hf; [|done]. subst p. by vm_compute in Hp.
Qed.

(** The root is listed, [a] changes, the change is announced, [a] is looked up. *)
Definition settled_cache : NamespaceCache :=
  update_stat 5 file_a (stat_a 1)
    (mark_namespace_change 4 (bstr "/a") None
      (update_directory 3 [] [DirEntry_mk (bstr "a") (Qid_new QTFILE 0 2) (stat_a 0)]
        (update_stat 2 [] stat_root NamespaceCache_new))).

Lemma settled_run :
  rtc (cache_step undisturbed) (World_new (ns_a 0)) (World_mk settled_cache (ns_a 1) [] [] []).
Proof.
  eapply rtc_l; [eapply (cs_fetch_stat _ _ [] stat_root); reflexivity|].
  eapply rtc_l; [eapply (cs_enter_stat _ _ 2 [] [] stat_root []); reflexivity|].
  eapply rtc_l; [eapply (cs_fetch_list _ _ []); reflexivity|].
  eapply rtc_l; [eapply (cs_enter_list _ _ 3 [] [] _ []); reflexivity|].
  eapply rtc_l; [eapply (cs_change _ _ change_a (ns_a 1)); apply change_a_changed|].
  eapply rtc_l; [eapply (cs_announce _ _ 4 change_a []); [reflexivity|split; simpl; set_solver]|].
  eapply rtc_l; [eapply (cs_fetch_stat _ _ file_a (stat_a 1)); reflexivity|].
  eapply rtc_l; [eapply (cs_enter_stat _ _ 5 [] file_a (stat_a 1) []); reflexivity|].
  apply rtc_refl.
Qed.

(** The cache has the stat of [a] and no longer the listing of the root. *)
Lemma fresh_is_current_witness :
  stat_if_fresh file_a settled_cache = Some (stat_a 1) ∧ directory_if_fresh [] settled_cache = None ∧
  (ns_stat (ns_a 1) file_a = Some (stat_a 1) ∨ ∃ ch, ch ∈ @nil Change ∧ touches_stat ch file_a = true).
Proof.
  split; [vm_compute; reflexivity|]. split; [vm_compute; reflexivity|].
  apply (fresh_is_current (ns_a 0) (World_mk settled_cache (ns_a 1) [] [] []) file_a).
  - apply ns_a_wf.
  - apply settled_run.
  - vm_compute. reflexivity.
Defined.

(** The cache by itself does not keep a value from being entered after a change
    that touches it was announced: there is a run after which every change is
    announced and a stat served as fresh is not the current one. *)
Theorem stale_after_announce :
  ∃ w, rtc (cache_step (λ _ _, True)) (World_new (ns_a 0)) w ∧ w_pending w = [] ∧
       stat_if_fresh file_a (w_cache w) = Some (stat_a 0) ∧ ns_stat (w_ns w) file_a = Some (stat_a 1).
Proof.
  eexists. split.
  - eapply rtc_l; [eapply (cs_fetch_stat _ _ file_a (stat_a 0)); reflexivity|].
    eapply rtc_l; [eapply (cs_change _ _ change_a (ns_a 1)); apply change_a_changed|].
    eapply rtc_l; [eapply (cs_announce _ _ 1 change_a []); [reflexivity|exact I]|].
    eapply rtc_l; [eapply (cs_enter_stat _ _ 2 [] file_a (stat_a 0) []); reflexivity|].
    apply rtc_refl.
  - split; [reflexivity|]. split; vm_compute; reflexivity.
Qed.

End Runs.
