(* ===== verification/Text.v ===== *)
(** Text functions of the Rust standard library that the session crate uses, on
    [&str] as the bytes of its UTF-8: [str::from_utf8], [lines], [split_once],
    [replace] and [parse::<u64>]. *)
From S2P Require Import Prelude Errors Utf8 Referral.

Definition newline : byte := x0a.
Definition carriage_return : byte := x0d.
Definition tab : byte := x09.

(** [str::from_utf8(data).ok()]; every chunk spans a byte, so the length is fuel
    enough. *)
Fixpoint utf8_loop (fuel : nat) (bs : bytes) : bool :=
  match fuel, bs with
  | S fuel, _ :: _ => let '(n, valid) := utf8_chunk bs in valid && utf8_loop fuel (drop n bs)
  | _, _ => true
  end.

Definition from_utf8 (bs : bytes) : option bytes :=
  if utf8_loop (length bs) bs then Some bs else None.

(** [lines]: a line ends in [\n] or [\r\n]; what follows the last [\n] is a line
    unless it is empty, and keeps its [\r]. *)
Definition strip_cr (line : bytes) : bytes :=
  match last line with
  | Some b => if decide (b = carriage_return) then removelast line else line
  | None => line
  end.

Fixpoint terminated_lines (segments : list bytes) : list bytes :=
  match segments with
  | [] => []
  | [last] => match last with [] => [] | _ => [last] end
  | segment :: segments => strip_cr segment :: terminated_lines segments
  end.

Definition lines (bs : bytes) : list bytes := terminated_lines (split_on newline bs).

Fixpoint split_once (sep : byte) (bs : bytes) : option (bytes * bytes) :=
  match bs with
  | [] => None
  | b :: bs =>
      if decide (b = sep) then Some ([], bs)
      else match split_once sep bs with
           | Some (key, value) => Some (b :: key, value)
           | None => None
           end
  end.

(** [text.replace(from, to)] for a non-empty [from]: each turn takes a byte or
    more. *)
Fixpoint replace_loop (fuel : nat) (from to text : bytes) : bytes :=
  match fuel with
  | O => []
  | S fuel =>
      match strip_prefix from text with
      | Some rest => to ++ replace_loop fuel from to rest
      | None => match text with
                | [] => []
                | b :: text => b :: replace_loop fuel from to text
                end
      end
  end.

Definition str_replace (from to text : bytes) : bytes := replace_loop (S (length text)) from to text.

(** [parse::<u16>], [parse::<u32>], [parse::<u64>]: an optional [+], then digits,
    with checked arithmetic. *)
Fixpoint parse_digits (max acc : Z) (bs : bytes) : option Z :=
  match bs with
  | [] => Some acc
  | b :: bs =>
      let d := byte_to_Z b - 48 in
      if (0 <=? d) && (d <=? 9) then
        let acc := acc * 10 + d in
        if acc <=? max then parse_digits max acc bs else None
      else None
  end.

Definition plus : byte := x2b.

Definition parse_uint (max : Z) (bs : bytes) : option Z :=
  match bs with
  | [] => None
  | b :: rest =>
      if decide (b = plus) then match rest with [] => None | _ => parse_digits max 0 rest end
      else parse_digits max 0 bs
  end.

Definition parse_u64 : bytes → option Z := parse_uint u64_max.

(** [rsplit_once] *)
Definition rsplit_once (sep : byte) (bs : bytes) : option (bytes * bytes) :=
  match split_once sep (rev bs) with
  | Some (back, front) => Some (rev front, rev back)
  | None => None
  end.

(** [names.join(sep)] *)
Fixpoint join (sep : byte) (names : list bytes) : bytes :=
  match names with
  | [] => []
  | [name] => name
  | name :: names => name ++ sep :: join sep names
  end.

(** [trim]: the encodings of the characters with the property White_Space. *)
Definition white_space : list bytes :=
  [[x09]; [x0a]; [x0b]; [x0c]; [x0d]; [x20]; [xc2; x85]; [xc2; xa0]; [xe1; x9a; x80];
   [xe2; x80; x80]; [xe2; x80; x81]; [xe2; x80; x82]; [xe2; x80; x83]; [xe2; x80; x84]; [xe2; x80; x85];
   [xe2; x80; x86]; [xe2; x80; x87]; [xe2; x80; x88]; [xe2; x80; x89]; [xe2; x80; x8a];
   [xe2; x80; xa8]; [xe2; x80; xa9]; [xe2; x80; xaf]; [xe2; x81; x9f]; [xe3; x80; x80]].

(** The text after the first of the encodings that it starts with. *)
Fixpoint strip_any (encodings : list bytes) (bs : bytes) : option bytes :=
  match encodings with
  | [] => None
  | e :: encodings =>
      match strip_prefix e bs with
      | Some rest => Some rest
      | None => strip_any encodings bs
      end
  end.

(** Every turn takes a byte or more, so the length is fuel enough. *)
Fixpoint strip_all (fuel : nat) (encodings : list bytes) (bs : bytes) : bytes :=
  match fuel with
  | O => bs
  | S fuel =>
      match strip_any encodings bs with
      | Some rest => strip_all fuel encodings rest
      | None => bs
      end
  end.

Definition trim_start (bs : bytes) : bytes := strip_all (length bs) white_space bs.
Definition trim_end (bs : bytes) : bytes := rev (strip_all (length bs) (map (@rev byte) white_space) (rev bs)).
Definition trim (bs : bytes) : bytes := trim_end (trim_start bs).

(** ** Lemmas *)

Lemma parse_digits_range max acc bs n :
  0 ≤ acc ≤ max → parse_digits max acc bs = Some n → 0 ≤ n ≤ max.
Proof.
  revert acc. induction bs as [|b bs IH]; intros acc Ha; simpl.
  - intros [= <-]. done.
  - destruct (0 <=? byte_to_Z b - 48) eqn:E1; simpl; [|done].
    destruct (byte_to_Z b - 48 <=? 9) eqn:E2; [|done].
    destruct (acc * 10 + (byte_to_Z b - 48) <=? max) eqn:E3; [|done].
    apply IH. apply Z.leb_le in E1, E2, E3. lia.
Qed.

Lemma parse_uint_range max bs n : 0 ≤ max → parse_uint max bs = Some n → 0 ≤ n ≤ max.
Proof.
  intros Hm. destruct bs as [|b bs]; [done|]. unfold parse_uint. case_decide.
  - destruct bs; [done|]. apply parse_digits_range. lia.
  - apply parse_digits_range. lia.
Qed.

Lemma digit_val d : 0 ≤ d ≤ 9 → byte_to_Z (digit d) - 48 = d.
Proof. intros Hd. unfold digit. rewrite byte_to_of_Z, Z.mod_small; lia. Qed.

Lemma parse_digits_digit max acc d bs :
  0 ≤ d ≤ 9 → acc * 10 + d ≤ max → parse_digits max acc (digit d :: bs) = parse_digits max (acc * 10 + d) bs.
Proof.
  intros Hd Hm. cbn [parse_digits]. rewrite digit_val by done.
  replace (0 <=? d) with true by (symmetry; apply Z.leb_le; lia).
  replace (d <=? 9) with true by (symmetry; apply Z.leb_le; lia). simpl.
  by replace (acc * 10 + d <=? max) with true by (symmetry; apply Z.leb_le; lia).
Qed.

Lemma parse_dec_digits max fuel z rest :
  0 ≤ z < 10 ^ Z.of_nat fuel → z ≤ max → fuel ≠ O →
  parse_digits max 0 (dec_digits fuel z rest) = parse_digits max z rest.
Proof.
  revert z rest. induction fuel as [|fuel IH]; intros z rest Hz Hm Hf; [done|]. cbn [dec_digits].
  pose proof (Z.mod_pos_bound z 10 ltac:(lia)) as Hmod.
  pose proof (Z.div_mod z 10 ltac:(lia)) as Hdiv.
  destruct (z <? 10) eqn:E.
  - apply Z.ltb_lt in E. rewrite Z.mod_small by lia. by rewrite parse_digits_digit by lia.
  - apply Z.ltb_ge in E. rewrite Nat2Z.inj_succ, Z.pow_succ_r in Hz by lia.
    assert (1 ≤ z `div` 10) by (apply Z.div_le_lower_bound; lia).
    rewrite IH; [|split; [lia|apply Z.div_lt_upper_bound; lia]|lia|].
    + rewrite parse_digits_digit by lia. f_equal. lia.
    + intros ->. simpl in Hz. lia.
Qed.

(** A number that is printed is read back. *)
Lemma parse_uint_dec max z : 0 ≤ z ≤ max → max ≤ u64_max → parse_uint max (dec z) = Some z.
Proof.
  intros Hz Hm. assert (parse_digits max 0 (dec z) = Some z) as E.
  { unfold dec. rewrite parse_dec_digits; [done| |lia|lia].
    unfold u64_max in Hm. split; [lia|]. change (10 ^ Z.of_nat 20) with 100000000000000000000. lia. }
  destruct (dec z) as [|b bs] eqn:Ed.
  - assert (∀ fuel x acc, dec_digits (S fuel) x acc ≠ []) as Hne.
    { intros fuel. induction fuel as [|fuel IH]; intros x acc.
      - cbn [dec_digits]. by destruct (x <? 10).
      - change (dec_digits (S (S fuel)) x acc) with (if x <? 10 then digit (x `mod` 10) :: acc
          else dec_digits (S fuel) (x `div` 10) (digit (x `mod` 10) :: acc)).
        destruct (x <? 10); [done|apply IH]. }
    by apply Hne in Ed.
  - unfold parse_uint. rewrite decide_False; [done|]. intros ->. by vm_compute in E.
Qed.

Lemma from_utf8_Some bs text : from_utf8 bs = Some text → text = bs.
Proof. unfold from_utf8. case_match; [|done]. by intros [= <-]. Qed.

(** ** Trimming *)

Lemma strip_any_None encodings bs :
  strip_any encodings bs = None ↔ ∀ e, e ∈ encodings → ¬ (e `prefix_of` bs).
Proof.
  induction encodings as [|e encodings IH]; simpl.
  - split; [by intros _ e ?%elem_of_nil|done].
  - destruct (strip_prefix e bs) as [rest|] eqn:E.
    + split; [done|]. intros H. exfalso. apply (H e); [left|]. apply strip_prefix_Some in E. by exists rest.
    + rewrite IH. split; [|by intros H e' ?; apply H; right]. intros H e' [->|?]%elem_of_cons; [|by apply H].
      intros [rest Hr]. apply strip_prefix_Some in Hr. congruence.
Qed.

Lemma strip_any_Some encodings bs rest :
  strip_any encodings bs = Some rest → ∃ e, e ∈ encodings ∧ bs = e ++ rest.
Proof.
  induction encodings as [|e encodings IH]; simpl; [done|]. destruct (strip_prefix e bs) as [r|] eqn:E.
  - intros [= <-]. apply strip_prefix_Some in E. exists e. split; [left|done].
  - intros (e' & ? & ?)%IH. exists e'. split; [by right|done].
Qed.

Section strip.
Context (encodings : list bytes) (nonempty : [] ∉ encodings).

Lemma strip_any_shorter bs rest : strip_any encodings bs = Some rest → (length rest < length bs)%nat.
Proof.
  intros (e & He & ->)%strip_any_Some. destruct e; [done|]. simpl. rewrite length_app. lia.
Qed.

Lemma strip_all_suffix fuel bs : strip_all fuel encodings bs `suffix_of` bs.
Proof.
  revert bs. induction fuel as [|fuel IH]; intros bs; simpl; [done|].
  destruct (strip_any encodings bs) as [rest|] eqn:E; [|done].
  apply strip_any_Some in E as (e & _ & ->). etransitivity; [apply IH|]. by exists e.
Qed.

Lemma strip_all_done fuel bs : (length bs ≤ fuel)%nat → strip_any encodings (strip_all fuel encodings bs) = None.
Proof.
  revert bs. induction fuel as [|fuel IH]; intros bs Hl; simpl.
  - destruct bs; [|simpl in Hl; lia]. destruct (strip_any encodings []) as [rest|] eqn:E; [|done].
    apply strip_any_shorter in E. simpl in E. lia.
  - destruct (strip_any encodings bs) as [rest|] eqn:E; [|done]. apply IH. apply strip_any_shorter in E. lia.
Qed.

Lemma strip_all_id fuel bs : strip_any encodings bs = None → strip_all fuel encodings bs = bs.
Proof. intros E. destruct fuel; [done|]. simpl. by rewrite E. Qed.

End strip.

(** The text starts and ends with no white space. *)
Definition trimmed (bs : bytes) : Prop :=
  strip_any white_space bs = None ∧ strip_any (map (@rev byte) white_space) (rev bs) = None.

Lemma white_space_nonempty : [] ∉ white_space.
Proof. apply (bool_decide_eq_true_1 ([] ∉ white_space)). reflexivity. Qed.

Lemma rev_white_space_nonempty : [] ∉ map (@rev byte) white_space.
Proof. apply (bool_decide_eq_true_1 ([] ∉ map (@rev byte) white_space)). reflexivity. Qed.

Lemma trim_id bs : trimmed bs → trim bs = bs.
Proof.
  intros [H1 H2]. unfold trim, trim_end, trim_start. rewrite (strip_all_id _ _ bs) by done.
  rewrite strip_all_id by done. apply rev_involutive.
Qed.

Lemma trim_start_suffix bs : trim_start bs `suffix_of` bs.
Proof. apply strip_all_suffix. Qed.

Lemma trim_end_prefix bs : trim_end bs `prefix_of` bs.
Proof.
  unfold trim_end. destruct (strip_all_suffix (map (@rev byte) white_space) (length bs) (rev bs)) as [k E].
  exists (rev k). rewrite <- rev_app_distr, <- E. by rewrite rev_involutive.
Qed.

Lemma trim_trimmed bs : trimmed (trim bs).
Proof.
  unfold trim. split.
  - apply strip_any_None. intros e He [k E]. destruct (trim_end_prefix (trim_start bs)) as [k' E'].
    assert (strip_any white_space (trim_start bs) = None) as H.
    { apply strip_all_done; [apply white_space_nonempty|done]. }
    rewrite strip_any_None in H. apply (H e He). exists (k ++ k'). by rewrite E', E, app_assoc.
  - unfold trim_end. rewrite rev_involutive. apply strip_all_done; [apply rev_white_space_nonempty|].
    by rewrite length_rev.
Qed.

Lemma trim_elem b bs : b ∈ trim bs → b ∈ bs.
Proof.
  unfold trim. intros H. destruct (trim_end_prefix (trim_start bs)) as [k E].
  destruct (trim_start_suffix bs) as [k' E']. rewrite E', E. apply elem_of_app. right. apply elem_of_app. by left.
Qed.

Lemma trim_fixed bs : trim bs = bs → trimmed bs.
Proof. intros <-. apply trim_trimmed. Qed.
