(* ===== verification/SessionErrors.v ===== *)
(** The errors of the session crate: [crates/session/src/error.rs].  A 9P error is
    a text; the session gives it an [errno], by the words it finds in the text. *)
From S2P Require Import Prelude Errors Utf8 Text.

(** [crate::Error] *)
Record SessionError := SessionError_mk { errno : Z; se_message : bytes }.

#[export] Instance SessionError_eq_dec : EqDecision SessionError.
Proof. solve_decision. Defined.

(** The numbers of Linux. *)
Module libc.
Definition E2BIG : Z := 7.
Definition EACCES : Z := 13.
Definition EAGAIN : Z := 11.
Definition EBADF : Z := 9.
Definition EBADMSG : Z := 74.
Definition EBUSY : Z := 16.
Definition ECONNABORTED : Z := 103.
Definition ECONNREFUSED : Z := 111.
Definition ECONNRESET : Z := 104.
Definition EEXIST : Z := 17.
Definition EFBIG : Z := 27.
Definition EHOSTDOWN : Z := 112.
Definition EHOSTUNREACH : Z := 113.
Definition EINTR : Z := 4.
Definition EINVAL : Z := 22.
Definition EIO : Z := 5.
Definition EISDIR : Z := 21.
Definition EMFILE : Z := 24.
Definition EMSGSIZE : Z := 90.
Definition ENAMETOOLONG : Z := 36.
Definition ENETDOWN : Z := 100.
Definition ENETUNREACH : Z := 101.
Definition ENODEV : Z := 19.
Definition ENOENT : Z := 2.
Definition ENOMEM : Z := 12.
Definition ENOSPC : Z := 28.
Definition ENOTCONN : Z := 107.
Definition ENOTDIR : Z := 20.
Definition ENOTEMPTY : Z := 39.
Definition ENOTSUP : Z := 95.
Definition EOVERFLOW : Z := 75.
Definition EPERM : Z := 1.
Definition EPIPE : Z := 32.
Definition EPROTO : Z := 71.
Definition EREMOTEIO : Z := 121.
Definition EROFS : Z := 30.
Definition ESHUTDOWN : Z := 108.
Definition ESTALE : Z := 116.
Definition ETIMEDOUT : Z := 110.
Definition EXDEV : Z := 18.
End libc.

(** [Result<T>] of the crate, and the monad of code that may fail in a world. *)
Abbreviation SResult A := (SessionError + A)%type.

Definition session_error (errno : Z) (s : string) : SessionError := SessionError_mk errno (bstr s).

Definition S_ (W A : Type) : Type := W → SResult A * W.

#[export] Instance S_ret {W} : MRet (S_ W) := λ A a w, (inr a, w).
#[export] Instance S_bind {W} : MBind (S_ W) := λ A B k m w,
  match m w with
  | (inr a, w) => k a w
  | (inl e, w) => (inl e, w)
  end.

Definition sthrow {W A} (e : SessionError) : S_ W A := λ w, (inl e, w).
Definition slift {W A} (r : SResult A) : S_ W A := λ w, (r, w).
Definition sgets {W A} (f : W → A) : S_ W A := λ w, (inr (f w), w).
Definition smodify {W} (f : W → W) : S_ W unit := λ w, (inr (), f w).
(** [match m { Ok(..) => .., Err(..) => .. }] *)
Definition sattempt {W A} (m : S_ W A) : S_ W (SResult A) := λ w, let '(r, w) := m w in (inr r, w).

Definition some_or {A} (o : option A) (e : SessionError) : SResult A :=
  match o with Some a => inr a | None => inl e end.

Lemma S_bind_ok {W A B} (m : S_ W A) (k : A → S_ W B) w b w' :
  (m ≫= k) w = (inr b, w') ↔ ∃ a w1, m w = (inr a, w1) ∧ k a w1 = (inr b, w').
Proof. unfold mbind, S_bind. destruct (m w) as [[e|a] w1]; naive_solver. Qed.

Lemma S_bind_err {W A B} (m : S_ W A) (k : A → S_ W B) w e w' :
  (m ≫= k) w = (inl e, w') ↔ m w = (inl e, w') ∨ ∃ a w1, m w = (inr a, w1) ∧ k a w1 = (inl e, w').
Proof. unfold mbind, S_bind. destruct (m w) as [[e'|a] w1]; naive_solver. Qed.

Lemma sattempt_ok {W A} (m : S_ W A) w r w' : sattempt m w = (inr r, w') ↔ m w = (r, w').
Proof. unfold sattempt. destruct (m w); naive_solver. Qed.

(** ** Text *)

(** [text.contains(pattern)] *)
Fixpoint find_text (pattern text : bytes) : option bytes :=
  match strip_prefix pattern text with
  | Some rest => Some rest
  | None => match text with [] => None | _ :: text => find_text pattern text end
  end.

Definition contains_text (pattern text : bytes) : bool := bool_decide (is_Some (find_text pattern text)).

Definition ascii_lower (b : byte) : byte :=
  let z := byte_to_Z b in if (65 <=? z) && (z <=? 90) then byte_of_Z (z + 32) else b.

Definition to_ascii_lowercase (text : bytes) : bytes := map ascii_lower text.

Fixpoint take_digits (text : bytes) : bytes :=
  match text with
  | b :: rest => if (48 <=? byte_to_Z b) && (byte_to_Z b <=? 57) then b :: take_digits rest else []
  | [] => []
  end.

(** ** The classes of errors *)

Definition is_definitive_transport_failure (e : SessionError) : bool :=
  bool_decide (errno e ∈ [libc.EPIPE; libc.ECONNRESET; libc.ECONNABORTED; libc.ENOTCONN; libc.ESHUTDOWN]) ||
  ((errno e =? libc.EIO) &&
   (contains_text (bstr "9P frame") (se_message e) || contains_text (bstr "9P reader stopped") (se_message e) ||
    contains_text (bstr "9P transport closed") (se_message e) || contains_text (bstr "clone 9P stream") (se_message e))).

Definition is_transient_connection_failure (e : SessionError) : bool :=
  bool_decide (errno e ∈ [libc.ENOENT; libc.ECONNREFUSED; libc.ECONNRESET; libc.ECONNABORTED; libc.EAGAIN;
    libc.ETIMEDOUT; libc.ENETDOWN; libc.ENETUNREACH; libc.EHOSTDOWN; libc.EHOSTUNREACH]).

Definition PLAN9_ERRNO_PATTERNS : list (string * Z) :=
  [("unknown fid", libc.ESTALE);
   ("stale fid", libc.ESTALE);
   ("does not exist", libc.ENOENT);
   ("no such device", libc.ENODEV);
   ("not found", libc.ENOENT);
   ("not_found", libc.ENOENT);
   ("does_not_exist", libc.ENOENT);
   ("not exist", libc.ENOENT);
   ("no such file", libc.ENOENT);
   ("no such entry", libc.ENOENT);
   ("no such", libc.ENOENT);
   ("operation not permitted", libc.EPERM);
   ("not permitted", libc.EPERM);
   ("forbidden", libc.EACCES);
   ("unauthorized", libc.EACCES);
   ("permission_denied", libc.EACCES);
   ("permission", libc.EACCES);
   ("access", libc.EACCES);
   ("denied", libc.EACCES);
   ("not writable", libc.EACCES);
   ("not_writable", libc.EACCES);
   ("write not allowed", libc.EACCES);
   ("not readable", libc.EACCES);
   ("not_readable", libc.EACCES);
   ("bad walk", libc.ENOENT);
   ("walk_partial", libc.ENOENT);
   ("walk failed", libc.ENOENT);
   ("walk", libc.ENOENT);
   ("range", libc.ENOENT);
   ("already exists", libc.EEXIST);
   ("file exists", libc.EEXIST);
   (" exists", libc.EEXIST);
   ("duplicate", libc.EEXIST);
   ("not a directory", libc.ENOTDIR);
   ("not directory", libc.ENOTDIR);
   ("not dir", libc.ENOTDIR);
   ("is a directory", libc.EISDIR);
   ("is directory", libc.EISDIR);
   ("directory", libc.ENOTDIR);
   ("not empty", libc.ENOTEMPTY);
   ("preflight", libc.EINVAL);
   ("rejected", libc.EINVAL);
   ("decode", libc.EINVAL);
   ("decode_failed", libc.EINVAL);
   ("invalid", libc.EINVAL);
   ("illegal", libc.EINVAL);
   ("argument", libc.EINVAL);
   ("malformed", libc.EINVAL);
   ("parse", libc.EINVAL);
   ("parse_failed", libc.EINVAL);
   ("bad", libc.EINVAL);
   ("not implemented", libc.ENOTSUP);
   ("not_implemented", libc.ENOTSUP);
   ("unimplemented", libc.ENOTSUP);
   ("unsupported", libc.ENOTSUP);
   ("not_supported", libc.ENOTSUP);
   ("not supported", libc.ENOTSUP);
   ("op unsupported", libc.ENOTSUP);
   ("read-only", libc.EROFS);
   ("read only", libc.EROFS);
   ("timed out", libc.ETIMEDOUT);
   ("timed_out", libc.ETIMEDOUT);
   ("client_command_timeout", libc.ETIMEDOUT);
   ("timeout", libc.ETIMEDOUT);
   ("interrupt", libc.EINTR);
   ("bad message", libc.EBADMSG);
   ("bad file", libc.EBADF);
   ("not open", libc.EBADF);
   ("already open", libc.EBUSY);
   ("input/output", libc.EIO);
   ("i/o", libc.EIO);
   ("protocol", libc.EPROTO);
   ("proto", libc.EPROTO);
   ("no connection", libc.ENOTCONN);
   ("connection lost", libc.ECONNABORTED);
   ("connection reset", libc.ECONNRESET);
   ("pipe", libc.EPIPE);
   ("temporar", libc.EAGAIN);
   ("unavailable", libc.EAGAIN);
   ("generation_conflict", libc.EAGAIN);
   ("out of memory", libc.ENOMEM);
   ("memory", libc.ENOMEM);
   ("name too long", libc.ENAMETOOLONG);
   ("too long", libc.E2BIG);
   ("too large", libc.EFBIG);
   ("overflow", libc.EOVERFLOW);
   ("in use", libc.EBUSY);
   ("busy", libc.EBUSY)].

Fixpoint first_match (patterns : list (string * Z)) (lower : bytes) : option (string * Z) :=
  match patterns with
  | [] => None
  | p :: patterns => if contains_text (bstr p.1) lower then Some p else first_match patterns lower
  end.

Definition errno_for_9p_error (text : bytes) : Z :=
  match first_match PLAN9_ERRNO_PATTERNS (to_ascii_lowercase text) with
  | Some p => p.2
  | None => libc.EREMOTEIO
  end.

Definition p9_error (ename : bytes) : SessionError :=
  let text := from_utf8_lossy ename in SessionError_mk (errno_for_9p_error text) text.

Definition is_protocol_error (text : bytes) : bool :=
  starts_with (bstr "9P client state:") text || starts_with (bstr "response tag mismatch") text ||
  starts_with (bstr "unknown response") text || starts_with (bstr "duplicate waiter") text ||
  starts_with (bstr "multiplexed calls require") text || starts_with (bstr "expected ") text ||
  contains_text (bstr "reported more bytes written than requested") text.

Definition is_transport_message (text : bytes) : bool :=
  (starts_with (bstr "connect ") text && contains_text (bstr "(os error ") text) ||
  starts_with (bstr "read p9any ") text || starts_with (bstr "write p9any ") text ||
  contains_text (bstr "9P frame") text || contains_text (bstr "9P reader stopped") text ||
  contains_text (bstr "9P transport closed") text || contains_text (bstr "9P response timeout") text ||
  contains_text (bstr "clone 9P stream") text || contains_text (bstr "lock 9P") text.

Definition i32_max : Z := 2147483647.

Definition transport_errno (text : bytes) : option Z :=
  if contains_text (bstr "9P reader stopped") text || contains_text (bstr "9P transport closed") text
  then Some libc.ENOTCONN
  else if contains_text (bstr "9P response timeout") text then Some libc.ETIMEDOUT
  else
    match find_text (bstr "os error ") text with
    | Some rest => parse_uint i32_max (take_digits rest)
    | None =>
        if starts_with (bstr "read p9any ") text || starts_with (bstr "write p9any ") text
        then Some libc.ECONNRESET else None
    end.

Definition client_error (error : Error) : SessionError :=
  let text := display_lossy error in
  let local errno := SessionError_mk errno (bstr "9P client state: " ++ text) in
  if is_protocol_error text then local libc.EPROTO
  else if contains_text (bstr "zero-length 9P write progress") text then local libc.EIO
  else if contains_text (bstr "write count overflow") text then local libc.EOVERFLOW
  else if is_transport_message text then local (default libc.EIO (transport_errno text))
  else p9_error (message error).

(** What the classification of 9P errors does with the texts of servers: on SessionErrors.v. *)

Lemma find_text_prefix p q text : is_Some (find_text (p ++ q) text) → is_Some (find_text p text).
Proof.
  induction text as [|b text IH]; cbn [find_text]; intros [rest H];
    destruct (strip_prefix (p ++ q) _) as [x|] eqn:E.
  1, 3: apply strip_prefix_Some in E; rewrite <- app_assoc in E;
    rewrite (proj2 (strip_prefix_Some _ _ _) E); by eexists.
  - done.
  - destruct (strip_prefix p _); [by eexists|]. apply IH. by exists rest.
Qed.

Lemma contains_text_prefix p q text : contains_text (p ++ q) text = true → contains_text p text = true.
Proof. unfold contains_text. rewrite !bool_decide_eq_true. apply find_text_prefix. Qed.

(** The pattern that is found is in the text, and none before it is. *)
Lemma first_match_spec patterns lower p :
  first_match patterns lower = Some p →
  ∃ i, patterns !! i = Some p ∧ contains_text (bstr p.1) lower = true ∧
    ∀ j q, (j < i)%nat → patterns !! j = Some q → contains_text (bstr q.1) lower = false.
Proof.
  induction patterns as [|x patterns IH]; [done|]. simpl. destruct (contains_text (bstr x.1) lower) eqn:E.
  - intros [= ->]. exists 0%nat. split_and!; [done|done|]. lia.
  - intros (i & ? & ? & Hb)%IH. exists (S i). split_and!; [done|done|].
    intros [|j] q Hj Hq; simpl in Hq; [by simplify_eq|]. eapply Hb; [|done]. lia.
Qed.

(** An entry behind one whose pattern it begins with is never the answer. *)
Lemma shadowed patterns i j p q rest lower :
  NoDup patterns → patterns !! i = Some p → patterns !! j = Some q → (j < i)%nat → bstr p.1 = bstr q.1 ++ rest →
  first_match patterns lower ≠ Some p.
Proof.
  intros Hnd Hi Hj Hlt Hpre Hm. apply first_match_spec in Hm as (i' & Hi' & Hc & Hb).
  rewrite (NoDup_lookup _ i' i p Hnd Hi' Hi) in Hb. specialize (Hb j q Hlt Hj).
  rewrite Hpre in Hc. apply contains_text_prefix in Hc. congruence.
Qed.

Lemma patterns_distinct : NoDup PLAN9_ERRNO_PATTERNS.
Proof. apply (bool_decide_unpack _). vm_compute. exact I. Qed.

Lemma bad_shadows p rest lower :
  p ∈ [("bad message", libc.EBADMSG); ("bad file", libc.EBADF)] → bstr p.1 = bstr "bad" ++ rest →
  first_match PLAN9_ERRNO_PATTERNS lower ≠ Some p.
Proof.
  intros Hp Hpre. assert (∃ i, PLAN9_ERRNO_PATTERNS !! i = Some p ∧ (50 < i)%nat) as (i & Hi & Hlt).
  { apply elem_of_cons in Hp as [->|Hp]; [exists 65%nat; split; [reflexivity|lia]|].
    apply list_elem_of_singleton in Hp as ->. exists 66%nat. split; [reflexivity|lia]. }
  eapply (shadowed _ i 50 p ("bad", libc.EINVAL) rest); [apply patterns_distinct|done|reflexivity|done|done].
Qed.

(** The entries of the table for [EBADMSG] ("bad message") and for the texts of
    [EBADF] ("bad file") stand behind the entry "bad", so they are never the answer:
    no text is classified as [EBADMSG], and "bad file descriptor" is an [EINVAL]. *)
Theorem bad_entries_shadowed :
  (∀ text, errno_for_9p_error text ≠ libc.EBADMSG) ∧
  (∀ lower, first_match PLAN9_ERRNO_PATTERNS lower ≠ Some ("bad file", libc.EBADF)) ∧
  errno_for_9p_error (bstr "bad file descriptor") = libc.EINVAL.
Proof.
  split_and!; [|intros lower; apply (bad_shadows _ (bstr " file")); [by right; left|vm_compute; reflexivity]|vm_compute; reflexivity].
  intros text. unfold errno_for_9p_error. destruct (first_match _ _) as [p|] eqn:E; [|done]. intros Hp.
  apply (bad_shadows p (bstr " message") (to_ascii_lowercase text)) in E; [done| |].
  - apply first_match_spec in E as (i & Hi & _). apply list_elem_of_lookup_2 in Hi.
    assert (Forall (λ p, p.2 = libc.EBADMSG → p = ("bad message", libc.EBADMSG)) PLAN9_ERRNO_PATTERNS) as Hall.
    { apply (bool_decide_unpack _). vm_compute. exact I. }
    rewrite Forall_forall in Hall. rewrite (Hall _ Hi Hp). by left.
  - apply first_match_spec in E as (i & Hi & _). apply list_elem_of_lookup_2 in Hi.
    assert (Forall (λ p, p.2 = libc.EBADMSG → bstr p.1 = bstr "bad" ++ bstr " message") PLAN9_ERRNO_PATTERNS) as Hall.
    { apply (bool_decide_unpack _). vm_compute. exact I. }
    rewrite Forall_forall in Hall. by apply Hall.
Qed.

(** A refusal by the server whose text has "pipe" or "connection reset" in it counts
    as the failure of the connection, which carries on. *)
Theorem refusal_counts_as_lost_connection :
  let refusal := client_error (Error_new (bstr "named pipe has no reader")) in
  errno refusal = libc.EPIPE ∧ is_definitive_transport_failure refusal = true.
Proof. split; vm_compute; reflexivity. Qed.
