(* ===== verification/Feed.v ===== *)
(** The change feed of a session: [crates/session/src/feed/record.rs] (records),
    [feed/state.rs] (what is known of the feed) and [feed/event.rs] (the queues of
    the subscribers).  Subscribers are shared between the bus and the receivers:
    they live in a store, and a bus holds their addresses, which dangle once a
    receiver is dropped.  Poisoned locks are not modelled. *)
From S2P Require Import Prelude Errors Utf8 Referral Text.

(** ** Records *)

Record NamespaceChange := NamespaceChange_mk {
  nc_scope : bytes;
  nc_path : bytes;
  nc_change_kind : bytes;
  nc_generation : Z;
  nc_event_id : bytes;
  nc_old_path : option bytes;
}.

#[export] Instance NamespaceChange_eq_dec : EqDecision NamespaceChange.
Proof. solve_decision. Defined.

Record SelectedFeedRecords := SelectedFeedRecords_mk {
  sel_records : list NamespaceChange;
  cursor_advanced_to : option bytes;
  cursor_missed : bool;
}.

Definition valid_event_id (value : bytes) : bool :=
  negb (bool_decide (value = [])) && (vlen value <=? 256) &&
  negb (bool_decide (value = bstr ".")) && negb (bool_decide (value = bstr "..")) &&
  negb (existsb (λ b, bool_decide (b = slash) || (byte_to_Z b =? 0) || is_ascii_control b) value).

(** The variables of the loop over the fields. *)
Record KeyValues := KeyValues_mk {
  kv_scope : option bytes;
  kv_path : option bytes;
  kv_change_kind : option bytes;
  kv_generation : option Z;
  kv_event_id : option bytes;
  kv_old_path : option bytes;
}.

Definition key_value (kv : KeyValues) (field : bytes) : KeyValues :=
  match split_once x3d field with
  | None => kv
  | Some (key, value) =>
      let '(KeyValues_mk scope path kind generation event_id old_path) := kv in
      if bool_decide (key = bstr "scope")
      then KeyValues_mk (Some value) path kind generation event_id old_path
      else if bool_decide (key = bstr "path")
      then KeyValues_mk scope (Some value) kind generation event_id old_path
      else if bool_decide (key = bstr "change_kind") || bool_decide (key = bstr "kind")
      then KeyValues_mk scope path (Some value) generation event_id old_path
      else if bool_decide (key = bstr "generation")
      then KeyValues_mk scope path kind (parse_u64 value) event_id old_path
      else if bool_decide (key = bstr "event_id")
      then KeyValues_mk scope path kind generation (Some value) old_path
      else if bool_decide (key = bstr "old_path") || bool_decide (key = bstr "from")
      then KeyValues_mk scope path kind generation event_id (Some value)
      else kv
  end.

Definition parse_key_value_record (fields : list bytes) : option NamespaceChange :=
  let kv := fold_left key_value fields (KeyValues_mk None None None None None None) in
  match kv_scope kv, kv_path kv, kv_change_kind kv, kv_generation kv, kv_event_id kv with
  | Some scope, Some path, Some kind, Some generation, Some event_id =>
      Some (NamespaceChange_mk scope path kind generation event_id (kv_old_path kv))
  | _, _, _, _, _ => None
  end.

Definition parse_positional_record (fields : list bytes) : option NamespaceChange :=
  match fields with
  | [head; event_id; generation; scope; change_kind; path] =>
      if bool_decide (head = bstr "namespace_change") then
        match parse_u64 generation with
        | Some generation => Some (NamespaceChange_mk scope path change_kind generation event_id None)
        | None => None
        end
      else None
  | [head; event_id; generation; scope; renamed; old_path; path] =>
      if bool_decide (head = bstr "namespace_change") && bool_decide (renamed = bstr "renamed") then
        match parse_u64 generation with
        | Some generation =>
            Some (NamespaceChange_mk scope path (bstr "renamed") generation event_id (Some old_path))
        | None => None
        end
      else None
  | _ => None
  end.

Definition parse_namespace_change_record (line : bytes) : option NamespaceChange :=
  let fields := split_on tab line in
  let parsed := match parse_key_value_record fields with
                | Some change => Some change
                | None => parse_positional_record fields
                end in
  match parsed with
  | Some change => if valid_event_id (nc_event_id change) then Some change else None
  | None => None
  end.

Definition scope_matches (configured_scope : option bytes) (event_scope : bytes) : bool :=
  bool_decide (event_scope = bstr "shared") ||
  match configured_scope with Some scope => bool_decide (scope = event_scope) | None => true end.

Definition feed_catch_up_path (base_path : bytes) (since_event_id cursor_template : option bytes) : bytes :=
  match since_event_id, cursor_template with
  | Some event_id, Some template => str_replace (bstr "{event_id}") event_id template
  | _, _ => base_path
  end.

(** [records.iter().position(|record| record.event_id == cursor)] *)
Fixpoint cursor_position (cursor : bytes) (records : list NamespaceChange) : option nat :=
  match records with
  | [] => None
  | record :: records =>
      if decide (nc_event_id record = cursor) then Some O else S <$> cursor_position cursor records
  end.

Definition last_event (records : list NamespaceChange) : option bytes := nc_event_id <$> last records.

Definition select_feed_records (records : list NamespaceChange) (since_event_id : option bytes)
    (cursor_template_configured : bool) : SelectedFeedRecords :=
  if cursor_template_configured then SelectedFeedRecords_mk records None false
  else
    match since_event_id with
    | None => SelectedFeedRecords_mk records None false
    | Some cursor =>
        match cursor_position cursor records with
        | None =>
            SelectedFeedRecords_mk [] (last_event records)
              (negb (match records with [] => true | _ => false end))
        | Some index => SelectedFeedRecords_mk (drop (index + 1) records) None false
        end
    end.

Fixpoint collect {A} (l : list (option A)) : option (list A) :=
  match l with
  | [] => Some []
  | Some x :: l => (x ::.) <$> collect l
  | None :: _ => None
  end.

Definition parse_feed_records (data : bytes) : option (list NamespaceChange) :=
  match from_utf8 data with
  | Some text =>
      collect (map parse_namespace_change_record
        (List.filter (λ line, negb (bool_decide (line = []))) (lines text)))
  | None => None
  end.

(** ** The state of the feed *)

Record FeedSnapshot := FeedSnapshot_mk {
  f_state : string;
  f_source : option string;
  last_event_id : option bytes;
  last_generation : option Z;
  last_error : option bytes;
  fresh_instance : bool;
}.

Definition FeedState_new : FeedSnapshot := FeedSnapshot_mk "disabled" None None None None false.

Definition FeedState_with_cursor (event_id : bytes) (generation : Z) : FeedSnapshot :=
  FeedSnapshot_mk "disabled" None (Some event_id) (Some generation) None false.

Definition set_disabled (s : FeedSnapshot) : FeedSnapshot := FeedSnapshot_mk "disabled" None None None None false.

Definition set_connecting (s : FeedSnapshot) : FeedSnapshot :=
  FeedSnapshot_mk "connecting" None (last_event_id s) (last_generation s) None (fresh_instance s).

Definition set_connected (source : string) (event_id : option bytes) (generation : option Z)
    (s : FeedSnapshot) : FeedSnapshot :=
  FeedSnapshot_mk "connected" (Some source)
    (match event_id with Some _ => event_id | None => last_event_id s end)
    (match generation with Some _ => generation | None => last_generation s end)
    None (fresh_instance s).

Definition set_degraded (message : bytes) (s : FeedSnapshot) : FeedSnapshot :=
  FeedSnapshot_mk "degraded" (f_source s) (last_event_id s) (last_generation s) (Some message) (fresh_instance s).

Definition mark_fresh_instance (s : FeedSnapshot) : FeedSnapshot :=
  FeedSnapshot_mk (f_state s) (f_source s) (last_event_id s) (last_generation s) (last_error s) true.

(** ** The event bus *)

Inductive FeedEvent :=
| FeedChange (change : NamespaceChange) (source : string) (cursor_complete : bool)
| CoarseInvalidation (reason : string).

Record FeedSubscriber := FeedSubscriber_mk {
  fs_queue : list FeedEvent;
  fs_closed : bool;
  fs_capacity : Z;
}.

Record FeedStore := FeedStore_mk {
  next_address : nat;
  subscriber_at : gmap nat FeedSubscriber;
}.

Record FeedEventBus := FeedEventBus_mk {
  subscribers : list nat;
  bus_capacity : Z;
}.

Definition FeedEventBus_new (capacity : Z) : FeedEventBus := FeedEventBus_mk [] (Z.max capacity 1).

(** The receiver is the address. *)
Definition subscribe (bus : FeedEventBus) (store : FeedStore) : nat * FeedEventBus * FeedStore :=
  let a := next_address store in
  (a, FeedEventBus_mk (subscribers bus ++ [a]) (bus_capacity bus),
   FeedStore_mk (S a) (<[a := FeedSubscriber_mk [] false (bus_capacity bus)]> (subscriber_at store))).

(** The receiver holds the only strong reference. *)
Definition drop_receiver (a : nat) (store : FeedStore) : FeedStore :=
  FeedStore_mk (next_address store) (delete a (subscriber_at store)).

Definition subscriber_publish (event : FeedEvent) (s : FeedSubscriber) : bool * FeedSubscriber :=
  if fs_closed s || (fs_capacity s <=? vlen (fs_queue s)) then (false, s)
  else (true, FeedSubscriber_mk (fs_queue s ++ [event]) (fs_closed s) (fs_capacity s)).

Definition subscriber_close (s : FeedSubscriber) : FeedSubscriber :=
  FeedSubscriber_mk (fs_queue s) true (fs_capacity s).

(** [subscribers.retain(..)]: the addresses kept, the store, and whether every
    subscriber took the event. *)
Fixpoint publish_retain (event : FeedEvent) (addresses : list nat) (m : gmap nat FeedSubscriber) :
    list nat * gmap nat FeedSubscriber * bool :=
  match addresses with
  | [] => ([], m, true)
  | a :: addresses =>
      match m !! a with
      | None => publish_retain event addresses m
      | Some s =>
          match subscriber_publish event s with
          | (true, s) =>
              let '(kept, m, all_delivered) := publish_retain event addresses (<[a := s]> m) in
              (a :: kept, m, all_delivered)
          | (false, s) =>
              let '(kept, m, _) := publish_retain event addresses (<[a := subscriber_close s]> m) in
              (kept, m, false)
          end
      end
  end.

Definition bus_publish (event : FeedEvent) (bus : FeedEventBus) (store : FeedStore) :
    bool * FeedEventBus * FeedStore :=
  let '(kept, m, all_delivered) := publish_retain event (subscribers bus) (subscriber_at store) in
  (all_delivered, FeedEventBus_mk kept (bus_capacity bus), FeedStore_mk (next_address store) m).

(** [Drop for FeedEventBusInner] *)
Definition bus_drop (bus : FeedEventBus) (store : FeedStore) : FeedStore :=
  FeedStore_mk (next_address store)
    (foldr (λ a m, alter subscriber_close a m) (subscriber_at store) (subscribers bus)).

(** One turn of the loops that receive: what they return, or that they wait for
    [changed]. *)
Inductive RecvTurn := Received (event : FeedEvent) | Disconnected | TimedOut | Stopped | Waiting.

Definition recv_turn (s : FeedSubscriber) : RecvTurn * FeedSubscriber :=
  match fs_queue s with
  | event :: queue => (Received event, FeedSubscriber_mk queue (fs_closed s) (fs_capacity s))
  | [] => ((if fs_closed s then Disconnected else Waiting), s)
  end.

Definition recv_timeout_turn (remaining : Z) (s : FeedSubscriber) : RecvTurn * FeedSubscriber :=
  match recv_turn s with
  | (Waiting, s) => ((if remaining =? 0 then TimedOut else Waiting), s)
  | turn => turn
  end.

Definition recv_until_stopped_turn (stop : bool) (s : FeedSubscriber) : RecvTurn * FeedSubscriber :=
  if stop then (Stopped, s) else recv_turn s.

(** [FeedWake] *)
Record FeedWakeState := FeedWakeState_mk { wake_generation : Z; wake_closed : bool }.

Definition FeedWake_new : FeedWakeState := FeedWakeState_mk 0 false.
Definition wake_notify (s : FeedWakeState) : FeedWakeState :=
  FeedWakeState_mk (wrapping_add u64_max (wake_generation s) 1) (wake_closed s).
Definition wake_close (s : FeedWakeState) : FeedWakeState := FeedWakeState_mk (wake_generation s) true.

Inductive WaitTurn := Woken (generation : Z) | WakeClosed | WakeTimedOut | WakeWaiting.

Definition wait_after_turn (generation : Z) (s : FeedWakeState) : WaitTurn :=
  if negb (wake_generation s =? generation) then Woken (wake_generation s)
  else if wake_closed s then WakeClosed else WakeWaiting.

Definition wait_after_timeout_turn (generation remaining : Z) (s : FeedWakeState) : WaitTurn :=
  match wait_after_turn generation s with
  | WakeWaiting => if remaining =? 0 then WakeTimedOut else WakeWaiting
  | turn => turn
  end.
