(* ===== verification/FeedWorker.v ===== *)
(** The feed worker of a session: [crates/session/src/feed/worker.rs].  It reads
    the change feed, first the records since its cursor (catch-up) and then the
    stream, marks what they touch in the namespace cache and hands them to the
    subscribers.

    The answers of the 9P client ([Client], [ConcurrentReadFid], [ClientSession])
    are arguments: one [Attempt] holds those of one turn of [feed_loop], and the
    time of the turn.  The worker's thread, its handle and the cancellation of a
    blocked read are not modelled: a stopped worker sees its [stop] flag. *)
From S2P Require Import Prelude Errors Utf8 Referral Text SessionErrors NamespaceCache Feed.

(** ** Configuration and state *)

Record FeedWorkerConfig := FeedWorkerConfig_mk {
  fw_path : bytes;
  fw_stream_path : bytes;
  cursor_template : option bytes;
  backpressure_limit : Z;
}.

(** The objects the configuration shares with the rest of the session. *)
Record FeedWorld := FeedWorld_mk {
  fd_cache : option NamespaceCache;
  fd_bus : option FeedEventBus;
  fd_store : FeedStore;
  fd_wake : option FeedWakeState;
  fd_state : FeedSnapshot;
}.

Definition on_cache (f : NamespaceCache → NamespaceCache) (w : FeedWorld) : FeedWorld :=
  FeedWorld_mk (f <$> fd_cache w) (fd_bus w) (fd_store w) (fd_wake w) (fd_state w).

Definition on_state (f : FeedSnapshot → FeedSnapshot) (w : FeedWorld) : FeedWorld :=
  FeedWorld_mk (fd_cache w) (fd_bus w) (fd_store w) (fd_wake w) (f (fd_state w)).

Definition on_wake (f : FeedWakeState → FeedWakeState) (w : FeedWorld) : FeedWorld :=
  FeedWorld_mk (fd_cache w) (fd_bus w) (fd_store w) (f <$> fd_wake w) (fd_state w).

Definition backpressure : bytes := bstr "change feed event subscriber backpressure".

Definition publish_feed_event (now : Z) (event : FeedEvent) (w : FeedWorld) : FeedWorld :=
  let w := on_wake wake_notify w in
  match fd_bus w with
  | None => w
  | Some bus =>
      let '(delivered, bus, store) := bus_publish event bus (fd_store w) in
      let w := FeedWorld_mk (fd_cache w) (Some bus) store (fd_wake w) (fd_state w) in
      if delivered then w
      else on_state (set_degraded backpressure) (on_cache (mark_all_stale now (Explicit backpressure)) w)
  end.

(** Everything is stale, and the subscribers are told. *)
Definition coarse_invalidation (now : Z) (reason : StaleReason) (text : string) (w : FeedWorld) : FeedWorld :=
  publish_feed_event now (CoarseInvalidation text) (on_cache (mark_all_stale now reason) w).

(** ** A read of the feed *)

Inductive FeedReadMode := Stream | CatchUp (since_event_id : option bytes).

Definition mode_source (mode : FeedReadMode) : string :=
  match mode with Stream => "stream" | CatchUp _ => "catch_up" end.

Definition apply_record (now : Z) (source : string) (final : bool) (record : NamespaceChange)
    (w : FeedWorld) : FeedWorld :=
  let w := on_cache (mark_namespace_change now (nc_path record) (nc_old_path record)) w in
  let w := publish_feed_event now (FeedChange record source final) w in
  on_state (set_connected source (Some (nc_event_id record)) (Some (nc_generation record))) w.

(** [index == final_record] holds of the last record only. *)
Fixpoint apply_records (now : Z) (source : string) (records : list NamespaceChange) (w : FeedWorld) :
    FeedWorld :=
  match records with
  | [] => w
  | record :: records =>
      let final := match records with [] => true | _ => false end in
      apply_records now source records (apply_record now source final record w)
  end.

Definition malformed : string := "change feed record malformed".
Definition limit_exceeded : string := "change feed backpressure limit exceeded".

Definition process_records (now : Z) (config : FeedWorkerConfig) (source : string)
    (records : list NamespaceChange) (advanced_to : option bytes) (w : FeedWorld) :
    option bytes * FeedWorld :=
  let limit := if backpressure_limit config =? 0 then usize_max else backpressure_limit config in
  if limit <? vlen records then
    (last_event records,
     on_state (set_degraded (bstr limit_exceeded))
       (coarse_invalidation now (Explicit (bstr limit_exceeded)) limit_exceeded w))
  else
    (match advanced_to with Some _ => advanced_to | None => last_event records end,
     apply_records now source records w).

(** The event id of the new cursor, if there is one. *)
Definition process_feed_data (now : Z) (data : bytes) (mode : FeedReadMode) (config : FeedWorkerConfig)
    (w : FeedWorld) : option bytes * FeedWorld :=
  match parse_feed_records data with
  | None =>
      (None, on_state (set_degraded (bstr malformed))
               (coarse_invalidation now (Explicit (bstr malformed)) malformed w))
  | Some records =>
      match mode with
      | Stream => process_records now config (mode_source mode) records None w
      | CatchUp since_event_id =>
          let selected := select_feed_records records since_event_id
                            (match cursor_template config with Some _ => true | None => false end) in
          if cursor_missed selected then
            (cursor_advanced_to selected,
             on_state (set_connected (mode_source mode) (cursor_advanced_to selected) None)
               (on_state mark_fresh_instance
                 (coarse_invalidation now NamespaceChanged "change feed cursor fell outside recent window" w)))
          else process_records now config (mode_source mode) (sel_records selected)
                 (cursor_advanced_to selected) w
      end
  end.

(** ** The loop *)

Definition parse_namespace_path (path : bytes) : SessionError + Path :=
  match parse_absolute_path path with
  | None => inl (SessionError_mk libc.EINVAL (bstr "namespace change path must be absolute: " ++ path))
  | Some segments => inr segments
  end.

(** What the client answers in one turn. *)
Record Attempt := Attempt_mk {
  at_now : Z;
  at_session : SessionError + ();
  at_stream_open : SessionError + ();
  at_install : SessionError + ();
  (** the walk and open of the catch-up file, a read at offset 0, the clunk *)
  at_catch_up_open : SessionError + ();
  at_catch_up_read : SessionError + bytes;
  at_catch_up_clunk : SessionError + ();
  (** the reads of the stream, until [stop] is set *)
  at_reads : list (SessionError + bytes);
  (** [stop] when a failure of the turn is handled *)
  at_stop : bool;
  at_reconnect : SessionError + ();
}.

Definition consume_catch_up (a : Attempt) (config : FeedWorkerConfig) (path : bytes)
    (since_event_id : option bytes) (w : FeedWorld) : (SessionError + option bytes) * FeedWorld :=
  match parse_namespace_path path, at_catch_up_open a with
  | inl error, _ => (inl error, w)
  | inr _, inl error => (inl error, w)
  | inr _, inr _ =>
      match at_catch_up_read a, at_catch_up_clunk a with
      | inl error, _ => (inl error, w)
      | inr _, inl error => (inl error, w)
      | inr [], inr _ => (inr None, on_state (set_connected "catch_up" None None) w)
      | inr data, inr _ =>
          let '(next, w) := process_feed_data (at_now a) data (CatchUp since_event_id) config w in
          (inr next, w)
      end
  end.

Fixpoint consume_stream_until_error (now : Z) (config : FeedWorkerConfig) (reads : list (SessionError + bytes))
    (last_id : option bytes) (w : FeedWorld) : (SessionError + option bytes) * FeedWorld :=
  match reads with
  | [] => (inr last_id, w)
  | inr [] :: reads =>
      consume_stream_until_error now config reads last_id (on_state (set_connected "stream" None None) w)
  | inr data :: reads =>
      let '(next, w) := process_feed_data now data Stream config w in
      consume_stream_until_error now config reads
        (match next with Some _ => next | None => last_id end) w
  | inl error :: reads =>
      if errno error =? libc.ETIMEDOUT
      then consume_stream_until_error now config reads last_id (on_state (set_connected "stream" None None) w)
      else (inl error, w)
  end.

Definition publish_connection_loss (now : Z) (error : SessionError) (w : FeedWorld) : FeedWorld :=
  on_state (set_degraded (bstr "stream feed degraded: " ++ se_message error))
    (publish_feed_event now (CoarseInvalidation "change feed connection lost") w).

Definition reconnect_after_failure (a : Attempt) (w : FeedWorld) : FeedWorld :=
  match at_reconnect a with
  | inr _ => w
  | inl error => on_state (set_degraded (bstr "stream feed reconnect degraded: " ++ se_message error)) w
  end.

Definition lose_connection (a : Attempt) (error : SessionError) (w : FeedWorld) : FeedWorld :=
  let w := publish_connection_loss (at_now a) error w in
  if at_stop a then w else reconnect_after_failure a w.

(** [FeedWorkerStartup] and the variables of the loop. *)
Record FeedLoop := FeedLoop_mk {
  fl_ready : option FeedWakeState;
  fl_since : option bytes;
  fl_world : FeedWorld;
}.

(** The rest of a turn once the catch-up is done: whether the loop goes on. *)
Definition stream_turn (a : Attempt) (config : FeedWorkerConfig) (l : FeedLoop) : bool * FeedLoop :=
  let ready := wake_notify <$> fl_ready l in
  match consume_stream_until_error (at_now a) config (at_reads a) None (on_wake wake_notify (fl_world l)) with
  | (inr next, w) =>
      (false, FeedLoop_mk ready (match next with Some _ => next | None => fl_since l end) w)
  | (inl error, w) =>
      let since := match last_event_id (fd_state w) with Some id => Some id | None => fl_since l end in
      if at_stop a then (false, FeedLoop_mk ready since w)
      else (true, FeedLoop_mk ready since (reconnect_after_failure a (publish_connection_loss (at_now a) error w)))
  end.

(** One turn of the [while] loop. *)
Definition feed_turn (catch_up_initial : bool) (a : Attempt) (config : FeedWorkerConfig) (l : FeedLoop) :
    bool * FeedLoop :=
  let 'FeedLoop_mk ready since w := l in
  match at_session a with
  | inl error =>
      (negb (at_stop a), FeedLoop_mk ready since
         (on_state (set_degraded (bstr "9P client session unavailable: " ++ se_message error)) w))
  | inr _ =>
      match at_stream_open a with
      | inl error => (negb (at_stop a), FeedLoop_mk ready since (lose_connection a error w))
      | inr _ =>
          match at_install a with
          | inl error =>
              (false, FeedLoop_mk ready since
                        (if at_stop a then w else publish_connection_loss (at_now a) error w))
          | inr _ =>
              if match since with Some _ => true | None => catch_up_initial end then
                let path := feed_catch_up_path (fw_path config) since (cursor_template config) in
                match consume_catch_up a config path since w with
                | (inr next, w) =>
                    stream_turn a config
                      (FeedLoop_mk ready (match next with Some _ => next | None => since end) w)
                | (inl error, w) =>
                    if errno error =? libc.ETIMEDOUT then stream_turn a config (FeedLoop_mk ready since w)
                    else (negb (at_stop a), FeedLoop_mk ready since (lose_connection a error w))
                end
              else stream_turn a config (FeedLoop_mk ready since w)
          end
      end
  end.

(** The loop runs until a turn leaves it or [stop] is seen at the head, after the
    attempts given. *)
Fixpoint feed_turns (catch_up_initial : bool) (attempts : list Attempt) (config : FeedWorkerConfig)
    (l : FeedLoop) : FeedLoop :=
  match attempts with
  | [] => l
  | a :: attempts =>
      match feed_turn catch_up_initial a config l with
      | (true, l) => feed_turns catch_up_initial attempts config l
      | (false, l) => l
      end
  end.

Definition feed_loop (catch_up_initial : bool) (ready : option FeedWakeState) (attempts : list Attempt)
    (config : FeedWorkerConfig) (w : FeedWorld) : FeedLoop :=
  let w := on_state set_connecting w in
  let l := feed_turns catch_up_initial attempts config (FeedLoop_mk ready (last_event_id (fd_state w)) w) in
  FeedLoop_mk (wake_close <$> fl_ready l) (fl_since l) (on_wake wake_close (fl_world l)).
