(* ===== verification/FeedProps.v ===== *)
(** What the feed worker guarantees ([crates/session/src/feed/worker.rs]): once a
    read of the feed is processed, nothing that an unseen record touches is served
    as fresh from the cache, and every subscriber has been told or is closed; the
    worker's cursor never passes a record whose change was not applied. *)
From S2P Require Import Prelude Errors Qid Stat Utf8 Referral Text NamespaceCache NamespaceCacheProps Feed FeedWorker.

(** ** What a cache still serves *)

(** [c'] serves at most what [c] serves. *)
Definition dims (c c' : NamespaceCache) : Prop := ∀ p,
  (stat_if_fresh p c' = None ∨ stat_if_fresh p c' = stat_if_fresh p c) ∧
  (directory_if_fresh p c' = None ∨ directory_if_fresh p c' = directory_if_fresh p c).

(** [c] serves nothing that [ch] touches. *)
Definition hides (ch : Change) (c : NamespaceCache) : Prop := ∀ p,
  (touches_stat ch p = true → stat_if_fresh p c = None) ∧
  (touches_list ch p = true → directory_if_fresh p c = None).

#[export] Instance dims_preorder : PreOrder dims.
Proof.
  split.
  - intros c p. auto.
  - intros a b c Hab Hbc p. destruct (Hab p) as [H1 H2], (Hbc p) as [H3 H4].
    split; [destruct H3 as [-> | ->]; auto|destruct H4 as [-> | ->]; auto].
Qed.

Lemma hides_dims ch c c' : dims c c' → hides ch c → hides ch c'.
Proof.
  intros Hd Hh p. destruct (Hd p) as [H1 H2], (Hh p) as [H3 H4]. split; intros Ht.
  - destruct H1 as [? | ->]; auto.
  - destruct H2 as [? | ->]; auto.
Qed.

Lemma invalidated_served covered listed c c' p :
  (∀ node', c' !! p = Some node' → ∃ node, c !! p = Some node ∧ invalidated covered listed node node') →
  (stat_if_fresh p c' = None ∨ covered = false ∧ stat_if_fresh p c' = stat_if_fresh p c) ∧
  (directory_if_fresh p c' = None ∨
     covered = false ∧ listed = false ∧ directory_if_fresh p c' = directory_if_fresh p c).
Proof.
  unfold stat_if_fresh, directory_if_fresh. destruct (c' !! p) as [node'|]; [|auto].
  intros H. destruct (H node' eq_refl) as (node & -> & Hi). unfold invalidated in Hi. destruct covered.
  - destruct Hi as [-> ->]. auto.
  - destruct Hi as (-> & -> & Hd). split; [auto|]. destruct Hd as [->|[-> ->]]; [|auto].
    destruct (negb _); auto.
Qed.

Definition change_of (r : NamespaceChange) : Change := Change_mk (nc_path r) (nc_old_path r).

Lemma mark_namespace_change_served now r c :
  let c' := mark_namespace_change now (nc_path r) (nc_old_path r) c in
  dims c c' ∧ hides (change_of r) c'.
Proof.
  simpl. split; intros p;
    destruct (invalidated_served (touches_stat (change_of r) p) (touches_list (change_of r) p) c
      (mark_namespace_change now (nc_path r) (nc_old_path r) c) p) as [H1 H2];
    try apply (mark_namespace_change_Some now (change_of r)).
  - split; [destruct H1 as [?|[_ ?]]|destruct H2 as [?|(_ & _ & ?)]]; auto.
  - split; intros Ht; [destruct H1 as [?|[? _]]|destruct H2 as [?|(_ & ? & _)]]; congruence.
Qed.

Lemma mark_all_stale_served now reason c p :
  stat_if_fresh p (mark_all_stale now reason c) = None ∧
  directory_if_fresh p (mark_all_stale now reason c) = None.
Proof.
  unfold stat_if_fresh, directory_if_fresh, mark_all_stale. rewrite lookup_fmap.
  by destruct (c !! p).
Qed.

Lemma mark_all_stale_dims now reason c : dims c (mark_all_stale now reason c).
Proof. intros p. destruct (mark_all_stale_served now reason c p). auto. Qed.

Lemma mark_all_stale_hides now reason c ch : hides ch (mark_all_stale now reason c).
Proof. intros p. destruct (mark_all_stale_served now reason c p). auto. Qed.

(** ** The same of the worker's world *)

Definition wdims (w w' : FeedWorld) : Prop := option_Forall2 dims (fd_cache w) (fd_cache w').
Definition whides (ch : Change) (w : FeedWorld) : Prop := ∀ c, fd_cache w = Some c → hides ch c.

#[export] Instance wdims_preorder : PreOrder wdims.
Proof.
  unfold wdims. split.
  - intros w. destruct (fd_cache w); constructor. reflexivity.
  - intros a b c Hab Hbc. destruct Hab as [x y Hxy|]; inversion Hbc; subst; constructor. by etransitivity.
Qed.

Lemma same_cache_dims w w' : fd_cache w' = fd_cache w → wdims w w'.
Proof. intros E. unfold wdims. rewrite E. destruct (fd_cache w); constructor. reflexivity. Qed.

Lemma whides_dims ch w w' : wdims w w' → whides ch w → whides ch w'.
Proof.
  intros Hd Hh c' Hc'. unfold wdims in Hd. rewrite Hc' in Hd. inversion Hd as [c ? Hcc Hc|]; subst.
  eapply hides_dims; [done|]. by apply Hh.
Qed.

Lemma on_cache_dims f w : (∀ c, dims c (f c)) → wdims w (on_cache f w).
Proof. intros Hf. unfold wdims, on_cache. simpl. destruct (fd_cache w); constructor. apply Hf. Qed.

Lemma on_cache_hides f ch w : (∀ c, hides ch (f c)) → whides ch (on_cache f w).
Proof. intros Hf c. simpl. destruct (fd_cache w); [|done]. intros [= <-]. apply Hf. Qed.

Lemma publish_dims now event w : wdims w (publish_feed_event now event w).
Proof.
  unfold publish_feed_event. destruct (fd_bus (on_wake wake_notify w)) as [bus|]; [|by apply same_cache_dims].
  destruct (bus_publish event bus _) as [[delivered bus'] store]. destruct delivered; [by apply same_cache_dims|].
  unfold wdims. simpl. destruct (fd_cache w); constructor. apply mark_all_stale_dims.
Qed.

Lemma publish_last_event_id now event w :
  last_event_id (fd_state (publish_feed_event now event w)) = last_event_id (fd_state w).
Proof.
  unfold publish_feed_event. destruct (fd_bus (on_wake wake_notify w)) as [bus|]; [|reflexivity].
  destruct (bus_publish event bus _) as [[delivered bus'] store]. by destruct delivered.
Qed.

Lemma coarse_dims now reason text w : wdims w (coarse_invalidation now reason text w).
Proof.
  unfold coarse_invalidation. etransitivity; [|apply publish_dims].
  apply on_cache_dims. intros c. apply mark_all_stale_dims.
Qed.

Lemma coarse_hides now reason text w ch : whides ch (coarse_invalidation now reason text w).
Proof.
  unfold coarse_invalidation. eapply whides_dims; [apply publish_dims|].
  apply on_cache_hides. intros c. apply mark_all_stale_hides.
Qed.

Lemma apply_record_dims now source final r w : wdims w (apply_record now source final r w).
Proof.
  unfold apply_record. etransitivity; [apply (on_cache_dims (mark_namespace_change now (nc_path r) (nc_old_path r)))|].
  { intros c. apply mark_namespace_change_served. }
  apply (publish_dims now (FeedChange r source final)).
Qed.

Lemma apply_record_hides now source final r w : whides (change_of r) (apply_record now source final r w).
Proof.
  unfold apply_record. apply (whides_dims _ (on_cache (mark_namespace_change now (nc_path r) (nc_old_path r)) w)).
  { apply (publish_dims now (FeedChange r source final)). }
  apply on_cache_hides. intros c. apply mark_namespace_change_served.
Qed.

Lemma apply_records_dims now source records w : wdims w (apply_records now source records w).
Proof.
  revert w. induction records as [|r records IH]; intros w; [reflexivity|]. simpl.
  etransitivity; [|apply IH]. apply apply_record_dims.
Qed.

Lemma apply_records_hides now source records w r :
  r ∈ records → whides (change_of r) (apply_records now source records w).
Proof.
  revert w. induction records as [|r' records IH]; intros w; [by intros ?%elem_of_nil|]. simpl.
  intros [->|Hin]%elem_of_cons; [|by apply IH].
  eapply whides_dims; [apply apply_records_dims|]. apply apply_record_hides.
Qed.

(** ** A read of the feed *)

Lemma cursor_position_Some cursor records j :
  cursor_position cursor records = Some j → ∃ r, records !! j = Some r ∧ nc_event_id r = cursor.
Proof.
  revert j. induction records as [|r records IH]; intros j; simpl; [done|]. case_decide as E.
  - intros [= <-]. by exists r.
  - destruct (cursor_position cursor records) as [k|]; [|done]. intros [= <-]. by apply IH.
Qed.

(** Without a cursor template, a catch-up since an event has all the records up to
    that event besides the unseen ones. *)
Definition seen (mode : FeedReadMode) (config : FeedWorkerConfig) (records : list NamespaceChange) (i : nat) :
    Prop :=
  match mode with
  | CatchUp (Some cursor) =>
      cursor_template config = None ∧
      ∃ j r, (i ≤ j)%nat ∧ records !! j = Some r ∧ nc_event_id r = cursor
  | _ => False
  end.

Lemma process_records_spec now config source records advanced w next w' :
  process_records now config source records advanced w = (next, w') →
  wdims w w' ∧ ∀ r, r ∈ records → whides (change_of r) w'.
Proof.
  unfold process_records. case_match; intros [= <- <-].
  - split; [apply coarse_dims|]. intros r _. apply coarse_hides.
  - split; [apply apply_records_dims|]. intros r. apply apply_records_hides.
Qed.

Lemma selected_unseen config records since i r :
  let selected := select_feed_records records since
                    (match cursor_template config with Some _ => true | None => false end) in
  records !! i = Some r → ¬ seen (CatchUp since) config records i →
  cursor_missed selected = true ∨ r ∈ sel_records selected.
Proof.
  simpl. intros Hr Hs. unfold select_feed_records.
  destruct (cursor_template config) as [t|] eqn:Et; [right; by eapply list_elem_of_lookup_2|].
  destruct since as [cursor|]; [|right; by eapply list_elem_of_lookup_2].
  destruct (cursor_position cursor records) as [j|] eqn:Ec; simpl.
  - right. apply cursor_position_Some in Ec as (rj & Hj & Ej).
    destruct (decide (i ≤ j)%nat); [exfalso; apply Hs; split; eauto|].
    apply (list_elem_of_lookup_2 _ (i - (j + 1))). rewrite lookup_drop.
    replace (j + 1 + (i - (j + 1)))%nat with i by lia. done.
  - left. by destruct records.
Qed.

Lemma process_feed_data_hides now data mode config w next w' :
  process_feed_data now data mode config w = (next, w') →
  wdims w w' ∧ (parse_feed_records data = None → ∀ ch, whides ch w') ∧
  ∀ records i r, parse_feed_records data = Some records → records !! i = Some r →
    ¬ seen mode config records i → whides (change_of r) w'.
Proof.
  unfold process_feed_data. destruct (parse_feed_records data) as [records|].
  2:{ intros [= <- <-]. split; [apply coarse_dims|]. split; [|done]. intros _ ch. apply coarse_hides. }
  destruct mode as [|since].
  - intros [Hd Hh]%process_records_spec. split; [done|]. split; [done|].
    intros ? i r [= <-] Hr _. apply Hh. by eapply list_elem_of_lookup_2.
  - cbv zeta. destruct (cursor_missed _) eqn:Em.
    + intros [= <- <-]. split; [apply coarse_dims|]. split; [done|]. intros. apply coarse_hides.
    + intros [Hd Hh]%process_records_spec. split; [done|]. split; [done|].
      intros ? i r [= <-] Hr Hu. destruct (selected_unseen _ _ _ _ _ Hr Hu) as [?|?]; [congruence|by apply Hh].
Qed.

(** C24: a read of the feed is never lost on the cache.  After [process_feed_data], in
    every one of its branches, the cache serves as fresh at most what it served
    before; if the data is malformed it serves nothing as fresh, and otherwise it
    serves no stat or listing that a record of the data touches, except for
    records that a catch-up since a cursor places at or before that cursor. *)
Theorem feed_data_invalidates now data mode config w c :
  fd_cache w = Some c →
  ∃ c', fd_cache (process_feed_data now data mode config w).2 = Some c' ∧ dims c c' ∧
    (parse_feed_records data = None → ∀ p, stat_if_fresh p c' = None ∧ directory_if_fresh p c' = None) ∧
    (∀ records i r, parse_feed_records data = Some records → records !! i = Some r →
       ¬ seen mode config records i → hides (change_of r) c').
Proof.
  intros Hc. destruct (process_feed_data now data mode config w) as [next w'] eqn:E.
  apply process_feed_data_hides in E as (Hd & Hn & Hh). unfold wdims in Hd. rewrite Hc in Hd. simpl.
  inversion Hd as [? c' Hcc Hx Hc'|]; subst. symmetry in Hc'. exists c'. split_and!; [done|done|..].
  - intros Hp p. specialize (Hn Hp (Change_mk [] None) c' Hc').
    destruct (Hn p) as [H1 H2]. by split; [apply H1|apply H2].
  - intros records i r Hp Hr Hu. by eapply Hh.
Qed.

(** ** The subscribers *)

(** The subscriber at [a] is on the bus, its receiver is alive and it is open. *)
Definition listens (a : nat) (s : FeedSubscriber) (w : FeedWorld) : Prop :=
  ∃ bus, fd_bus w = Some bus ∧ NoDup (subscribers bus) ∧ a ∈ subscribers bus ∧
         subscriber_at (fd_store w) !! a = Some s ∧ fs_closed s = false.

(** What has become of the subscriber: it listens on with [events] added to its
    queue, or it is closed with a part of them added, and nothing reaches it any
    more. *)
Definition told (a : nat) (s : FeedSubscriber) (events : list FeedEvent) (w : FeedWorld) : Prop :=
  listens a (FeedSubscriber_mk (fs_queue s ++ events) false (fs_capacity s)) w ∨
  ∃ bus part, fd_bus w = Some bus ∧ NoDup (subscribers bus) ∧ (a ∉ subscribers bus) ∧
    (part `prefix_of` events) ∧
    subscriber_at (fd_store w) !! a = Some (FeedSubscriber_mk (fs_queue s ++ part) true (fs_capacity s)).

Lemma publish_retain_subset event addresses m kept m' delivered :
  publish_retain event addresses m = (kept, m', delivered) → (kept `sublist_of` addresses).
Proof.
  revert m kept m' delivered. induction addresses as [|a addresses IH]; intros m kept m' delivered; simpl.
  { intros [= <- <- <-]. constructor. }
  destruct (m !! a) as [s|]; [|by intros ?%IH; apply sublist_cons].
  destruct (subscriber_publish event s) as [[|] s'].
  - destruct (publish_retain _ _ _) as [[kept1 m1] d1] eqn:E. intros [= <- <- <-].
    apply sublist_skip. by eapply IH.
  - destruct (publish_retain _ _ _) as [[kept1 m1] d1] eqn:E. intros [= <- <- <-].
    apply sublist_cons. by eapply IH.
Qed.

Lemma publish_retain_other event addresses m kept m' delivered a :
  publish_retain event addresses m = (kept, m', delivered) → a ∉ addresses → m' !! a = m !! a.
Proof.
  revert m kept m' delivered. induction addresses as [|b addresses IH]; intros m kept m' delivered; simpl.
  { by intros [= <- <- <-]. }
  intros E [Hab Hin]%not_elem_of_cons. destruct (m !! b) as [s|]; [|by eapply IH].
  destruct (subscriber_publish event s) as [[|] s'];
    destruct (publish_retain _ _ _) as [[kept1 m1] d1] eqn:E1; simplify_eq;
    rewrite (IH _ _ _ _ E1 Hin); by rewrite lookup_insert_ne by done.
Qed.

(** The subscriber takes the event and stays, or is closed and dropped. *)
Lemma publish_retain_one event addresses m kept m' delivered a s :
  publish_retain event addresses m = (kept, m', delivered) → NoDup addresses → a ∈ addresses →
  m !! a = Some s → fs_closed s = false →
  ((a ∈ kept) ∧ m' !! a = Some (FeedSubscriber_mk (fs_queue s ++ [event]) false (fs_capacity s))) ∨
  ((a ∉ kept) ∧ m' !! a = Some (subscriber_close s)).
Proof.
  revert m kept m' delivered. induction addresses as [|b addresses IH]; intros m kept m' delivered E;
    [by intros _ ?%elem_of_nil|].
  intros [Hb Hnd]%NoDup_cons. simpl in E. intros Hin Hm Hcl.
  destruct (decide (a = b)) as [<-|Hne].
  - rewrite Hm in E. destruct (subscriber_publish event s) as [[|] s'] eqn:Ep;
      destruct (publish_retain _ _ _) as [[kept1 m1] d1] eqn:E1; simplify_eq;
      rewrite (publish_retain_other _ _ _ _ _ _ _ E1 Hb), lookup_insert_eq;
      unfold subscriber_publish in Ep; rewrite Hcl in Ep; case_match; simplify_eq.
    + left. split; [by left|done].
    + right. split; [|done]. intros Hk. apply Hb.
      eapply elem_of_sublist; [exact Hk|by eapply publish_retain_subset].
  - apply elem_of_cons in Hin as [?|Hin]; [done|].
    assert (∀ x, <[b := x]> m !! a = Some s) as Hm' by (intros; by rewrite lookup_insert_ne).
    destruct (m !! b) as [sb|]; [|by eapply IH].
    destruct (subscriber_publish event sb) as [[|] s'];
      destruct (publish_retain _ _ _) as [[kept1 m1] d1] eqn:E1; simplify_eq;
      destruct (IH _ _ _ _ E1 Hnd Hin (Hm' _) Hcl) as [[H1 H2]|[H1 H2]]; auto.
    + left. split; [by right|done].
    + right. split; [|done]. by apply not_elem_of_cons.
Qed.

Lemma publish_told now event w a s :
  listens a s w → told a s [event] (publish_feed_event now event w).
Proof.
  intros (bus & Hbus & Hnd & Hin & Hs & Hcl). unfold publish_feed_event, bus_publish. simpl. rewrite Hbus. simpl.
  destruct (publish_retain event (subscribers bus) (subscriber_at (fd_store w))) as [[kept m] d] eqn:E.
  pose proof (publish_retain_subset _ _ _ _ _ _ E) as Hsub.
  destruct (publish_retain_one _ _ _ _ _ _ _ _ E Hnd Hin Hs Hcl) as [[Hk Hm]|[Hk Hm]].
  - left. exists (FeedEventBus_mk kept (bus_capacity bus)).
    split_and!; [by destruct d|by eapply sublist_NoDup|done|by destruct d|done].
  - right. exists (FeedEventBus_mk kept (bus_capacity bus)), [].
    split_and!; [by destruct d|by eapply sublist_NoDup|done|apply prefix_nil|].
    rewrite app_nil_r. by destruct d.
Qed.

Lemma told_publish now event w a s events :
  told a s events w → told a s (events ++ [event]) (publish_feed_event now event w).
Proof.
  intros [Hl|(bus & part & Hbus & Hnd & Hin & Hp & Hs)].
  - destruct (publish_told now event w a _ Hl) as [H|(bus & part & ? & ? & ? & Hp & Hs)]; simpl in *.
    + left. by rewrite app_assoc.
    + right. exists bus, (events ++ part). rewrite app_assoc. split_and!; try done. by apply prefix_app.
  - right. unfold publish_feed_event, bus_publish. simpl. rewrite Hbus. simpl.
    destruct (publish_retain event (subscribers bus) (subscriber_at (fd_store w))) as [[kept m] d] eqn:E.
    pose proof (publish_retain_subset _ _ _ _ _ _ E) as Hsub.
    exists (FeedEventBus_mk kept (bus_capacity bus)), part.
    split_and!; [by destruct d|by eapply sublist_NoDup|..].
    + intros Hk. apply Hin. by eapply elem_of_sublist.
    + by apply prefix_app_r.
    + transitivity (m !! a); [by destruct d|]. by rewrite (publish_retain_other _ _ _ _ _ _ _ E Hin).
Qed.

Lemma told_nil a s w : listens a s w → told a s [] w.
Proof.
  intros (bus & Hbus & Hnd & Hin & Hs & Hcl). left. rewrite app_nil_r.
  exists bus. split_and!; try done. rewrite Hs. destruct s. simpl in Hcl. by subst.
Qed.

(** The events of a batch: the last one completes the cursor. *)
Fixpoint change_events (source : string) (records : list NamespaceChange) : list FeedEvent :=
  match records with
  | [] => []
  | r :: records => FeedChange r source (bool_decide (records = [])) :: change_events source records
  end.

Lemma apply_records_told now source records w a s events :
  told a s events w → told a s (events ++ change_events source records) (apply_records now source records w).
Proof.
  revert w events. induction records as [|r records IH]; intros w events Hw; simpl; [by rewrite app_nil_r|].
  rewrite cons_middle, app_assoc. apply IH. unfold apply_record.
  replace (bool_decide (records = [])) with (match records with [] => true | _ => false end)
    by (by destruct records).
  by apply (told_publish now _ (on_cache _ w)).
Qed.

Lemma select_suffix records since template :
  sel_records (select_feed_records records since template) `suffix_of` records.
Proof.
  unfold select_feed_records. destruct template; [done|]. destruct since; [|done].
  destruct (cursor_position _ _) as [j|]; simpl; [apply suffix_drop|apply suffix_nil].
Qed.

(** No subscriber misses a change silently.  A subscriber that listens before
    [process_feed_data] afterwards has one coarse invalidation more in its queue,
    or the records of the data, in order, from some point on that leaves out none
    that is unseen, the last one marked as completing the cursor; or it is closed
    after a part of them, and off the bus. *)
Theorem subscribers_are_told now data mode config w a s :
  listens a s w →
  ∃ events, told a s events (process_feed_data now data mode config w).2 ∧
    ((∃ reason, events = [CoarseInvalidation reason]) ∨
     ∃ records selected, parse_feed_records data = Some records ∧ (selected `suffix_of` records) ∧
       (∀ i r, records !! i = Some r → ¬ seen mode config records i → r ∈ selected) ∧
       events = change_events (mode_source mode) selected).
Proof.
  intros Hl. assert (∀ reason text, told a s [CoarseInvalidation text] (coarse_invalidation now reason text w)) as Hco.
  { intros reason text. by apply (publish_told now _ (on_cache _ w)). }
  assert (∀ advanced records source,
    ∃ events, told a s events (process_records now config source records advanced w).2 ∧
      ((∃ reason, events = [CoarseInvalidation reason]) ∨ events = change_events source records)) as Hpr.
  { intros advanced records source. unfold process_records. case_match; simpl.
    - eexists. split; [apply (Hco (Explicit (bstr limit_exceeded)) limit_exceeded)|]. left. by eexists.
    - eexists. split; [|by right]. apply (apply_records_told now source records w a s []). by apply told_nil. }
  unfold process_feed_data. destruct (parse_feed_records data) as [records|]; simpl.
  2:{ eexists. split; [apply (Hco (Explicit (bstr malformed)) malformed)|]. left. by eexists. }
  destruct mode as [|since].
  - destruct (Hpr None records (mode_source Stream)) as (events & Ht & [?|Ev]); [by eauto|]; rewrite Ev in Ht.
    eexists. split; [exact Ht|]. right. exists records, records. split_and!; try done.
    intros i r Hr _. by eapply list_elem_of_lookup_2.
  - destruct (cursor_missed _) eqn:Em.
    + eexists. split; [apply (Hco NamespaceChanged)|]. left. by eexists.
    + destruct (Hpr (cursor_advanced_to (select_feed_records records since
          (match cursor_template config with Some _ => true | None => false end)))
        (sel_records (select_feed_records records since
          (match cursor_template config with Some _ => true | None => false end)))
        (mode_source (CatchUp since))) as (events & Ht & [?|Ev]); [by eauto|]; rewrite Ev in Ht.
      eexists. split; [exact Ht|]. right. exists records. eexists. split; [done|].
      split; [apply select_suffix|]. split; [|done]. intros i r Hr Hu.
      destruct (selected_unseen _ _ _ _ _ Hr Hu) as [?|?]; [congruence|done].
Qed.

(** ** A batch of one rename *)

Module FeedBatch.

Definition rename : bytes :=
  bstr "namespace_change" ++ [tab] ++ bstr "e2" ++ [tab] ++ bstr "43" ++ [tab] ++ bstr "shared" ++ [tab] ++
  bstr "renamed" ++ [tab] ++ bstr "/a" ++ [tab] ++ bstr "/b" ++ [newline].

Definition renamed : NamespaceChange :=
  NamespaceChange_mk (bstr "shared") (bstr "/b") (bstr "renamed") 43 (bstr "e2") (Some (bstr "/a")).

Definition config : FeedWorkerConfig :=
  FeedWorkerConfig_mk (bstr "/changes/recent") (bstr "/changes/stream") None 16.

Definition cached : NamespaceCache := update_stat 0 Runs.file_a (Runs.stat_a 0) NamespaceCache_new.
Definition listener : FeedSubscriber := FeedSubscriber_mk [] false 16.

Definition world : FeedWorld :=
  FeedWorld_mk (Some cached) (Some (FeedEventBus_mk [O] 16)) (FeedStore_mk 1 {[O := listener]}) None FeedState_new.

Lemma feed_data_invalidates_witness :
  stat_if_fresh Runs.file_a cached = Some (Runs.stat_a 0) ∧
  ∃ c', fd_cache (process_feed_data 1 rename Stream config world).2 = Some c' ∧ hides (change_of renamed) c'.
Proof.
  split; [vm_compute; reflexivity|].
  destruct (feed_data_invalidates 1 rename Stream config world cached eq_refl) as (c' & Hc' & _ & _ & Hh).
  exists c'. split; [exact Hc'|]. apply (Hh [renamed] O renamed).
  - vm_compute. reflexivity.
  - reflexivity.
  - intros [].
Defined.

Lemma subscribers_are_told_witness :
  ∃ events, told O listener events (process_feed_data 1 rename Stream config world).2 ∧
    ((∃ reason, events = [CoarseInvalidation reason]) ∨
     ∃ records selected, parse_feed_records rename = Some records ∧ (selected `suffix_of` records) ∧
       (∀ i r, records !! i = Some r → ¬ seen Stream config records i → r ∈ selected) ∧
       events = change_events (mode_source Stream) selected).
Proof.
  apply (subscribers_are_told 1 rename Stream config world O listener).
  exists (FeedEventBus_mk [O] 16). split; [reflexivity|]. split; [apply NoDup_singleton|].
  split; [left|]. split; reflexivity.
Defined.

End FeedBatch.
