(* ===== verification/FeedCursor.v ===== *)
(** The cursor of the feed worker ([feed_loop] of [crates/session/src/feed/worker.rs])
    never passes a change that the cache has not been told of, whatever
    connections are lost and made again, as long as the worker has a cursor, no
    catch-up times out and the catch-up file fits in the one read that is made of
    it; runs show what happens without these. *)
From S2P Require Import Prelude Errors Qid Stat Utf8 Referral Text NamespaceCache NamespaceCacheProps SessionErrors Feed FeedWorker FeedProps.

(** ** What [process_feed_data] does to the cursor *)

(** [o] is the event id of one of the records. *)
Definition from_records (records : list NamespaceChange) (o : option bytes) : Prop :=
  ∀ id, o = Some id → ∃ r, r ∈ records ∧ nc_event_id r = id.

Lemma from_None records : from_records records None.
Proof. by intros id. Qed.









(** ** The log behind the feed *)

Section log.

(** All the changes of the namespace, in order, each with its own event id. *)
Context (log : list NamespaceChange) (log_ids : NoDup (nc_event_id <$> log)).





(** What one read returns at most: the 64 KiB that [consume_catch_up] asks for, or
    the payload of the negotiated message size where that is less. *)
Context (read_limit : Z).

(** One read from the start of a file that holds [text]. *)
Definition first_read (text : bytes) : bytes := ztake read_limit text.

(** The whole file fits in one read. *)
Definition fits (text : bytes) : Prop := vlen text ≤ read_limit.



(** ** The invariant *)
















(** ** The loop *)














End log.

(** ** Runs *)

Module FeedRuns.
Import NamespaceCacheProps.Runs.

Definition record (id path : bytes) (generation : Z) : NamespaceChange :=
  NamespaceChange_mk (bstr "shared") path (bstr "modified") generation id None.

Definition line (r : NamespaceChange) : bytes :=
  bstr "namespace_change" ++ [tab] ++ nc_event_id r ++ [tab] ++ dec (nc_generation r) ++ [tab] ++
  nc_scope r ++ [tab] ++ nc_change_kind r ++ [tab] ++ nc_path r ++ [newline].

Definition log3 : list NamespaceChange :=
  [record (bstr "e1") (bstr "/b") 1; record (bstr "e2") (bstr "/a") 2; record (bstr "e3") (bstr "/b") 3].

Definition config : FeedWorkerConfig :=
  FeedWorkerConfig_mk (bstr "/changes/recent") (bstr "/changes/stream") None 16.

(** The cache has the stat of [a]. *)
Definition start (state : FeedSnapshot) : FeedWorld :=
  FeedWorld_mk (Some (update_stat 0 file_a (stat_a 0) NamespaceCache_new))
    (Some (FeedEventBus_new 16)) (FeedStore_mk 0 ∅) None state.

Definition served (l : FeedLoop) : option Stat := fd_cache (fl_world l) ≫= stat_if_fresh file_a.

Definition broken : SessionError := SessionError_mk 32 (bstr "broken pipe").
Definition timed_out : SessionError := SessionError_mk libc.ETIMEDOUT (bstr "timed out").

Definition attempt (catch_up : SessionError + bytes) (reads : list (SessionError + bytes)) : Attempt :=
  Attempt_mk 1 (inr ()) (inr ()) (inr ()) (inr ()) catch_up (inr ()) reads false (inr ()).


Definition resume_from : FeedWorld := start (FeedState_with_cursor (bstr "e1") 1).




(** A worker that has not seen an event yet does not catch up: whatever the
    catch-up file holds after the connection was lost and made again, the feed is
    reported as connected and the cache goes on to serve what it had before the
    outage. *)
Theorem outage_before_first_event_is_missed data :
  let l := feed_loop false None
             [attempt (inr data) [inl timed_out; inl broken]; attempt (inr data) [inl timed_out]]
             config (start FeedState_new) in
  f_state (fd_state (fl_world l)) = "connected"%string ∧ served l = Some (stat_a 0).
Proof. split; vm_compute; reflexivity. Qed.

(** A catch-up that times out is passed over: the cursor moves on to the next
    event of the stream, past the change of [a] that the cache was not told of. *)
Lemma timed_out_catch_up_is_missed :
  let l := feed_loop false None
             [attempt (inl timed_out) [inr (line (record (bstr "e3") (bstr "/b") 3))]]
             config resume_from in
  fl_since l = Some (bstr "e3") ∧ served l = Some (stat_a 0).
Proof. split; vm_compute; reflexivity. Qed.

(** So is a catch-up file that does not fit in one read: the worker reads the part
    that fits, here the first record, takes it for the whole and moves its cursor on
    with the stream, past the change of [a] in the rest of the file. *)
Lemma truncated_catch_up_is_missed :
  let text := concat (line <$> take 2 log3) in
  let limit := vlen (line (record (bstr "e1") (bstr "/b") 1)) in
  let l := feed_loop false None
             [attempt (inr (first_read limit text)) [inr (line (record (bstr "e3") (bstr "/b") 3))]]
             config resume_from in
  parse_feed_records text = Some (take 2 log3) ∧ ~ fits limit text ∧
  fl_since l = Some (bstr "e3") ∧ served l = Some (stat_a 0).
Proof. split_and!; vm_compute; [reflexivity|by intros H|reflexivity..]. Qed.

End FeedRuns.
