(* ===== verification/Endpoint.v ===== *)
(** TCP endpoints: [crates/core/src/endpoint.rs], and the parser of IP and socket
    addresses of the Rust standard library ([core::net]) that it and the export
    descriptor use. *)
From S2P Require Import Prelude Errors Utf8 Referral Text.

(** ** Addresses *)

Inductive IpAddr := V4 (octets : list Z) | V6 (segments : list Z).

Definition ip_is_loopback (ip : IpAddr) : bool :=
  match ip with
  | V4 octets => bool_decide (head octets = Some 127)
  | V6 segments => bool_decide (segments = [0; 0; 0; 0; 0; 0; 0; 1])
  end.

Definition ip_is_unspecified (ip : IpAddr) : bool :=
  match ip with
  | V4 octets => bool_decide (octets = [0; 0; 0; 0])
  | V6 segments => bool_decide (segments = [0; 0; 0; 0; 0; 0; 0; 0])
  end.

(** The parsers take the text and return the value and the rest. *)
Definition read_given (c : byte) (bs : bytes) : option bytes :=
  match bs with
  | b :: bs => if decide (b = c) then Some bs else None
  | [] => None
  end.

Definition to_digit (radix : Z) (b : byte) : option Z :=
  let z := byte_to_Z b in
  let d := if between 48 57 z then z - 48
           else if between 97 102 z then z - 87
           else if between 65 70 z then z - 55 else 16 in
  if d <? radix then Some d else None.

(** [read_number]: the digits of a number up to [max], at most [max_digits] of
    them, without a leading zero unless [zeros] allows it. *)
Fixpoint number_loop (radix max : Z) (max_digits : option Z) (count acc : Z) (bs : bytes) :
    option (Z * Z * bytes) :=
  match bs with
  | [] => Some (count, acc, bs)
  | b :: rest =>
      match to_digit radix b with
      | None => Some (count, acc, bs)
      | Some d =>
          let acc := acc * radix + d in
          if (max <? acc) || match max_digits with Some m => m <? count + 1 | None => false end then None
          else number_loop radix max max_digits (count + 1) acc rest
      end
  end.

Definition read_number (radix max : Z) (max_digits : option Z) (zeros : bool) (bs : bytes) :
    option (Z * bytes) :=
  match number_loop radix max max_digits 0 0 bs with
  | Some (count, value, rest) =>
      if (count =? 0) || (negb zeros && bool_decide (head bs = Some x30) && (1 <? count)) then None
      else Some (value, rest)
  | None => None
  end.

(** [read_separator(sep, index, inner)] *)
Definition read_separator {A} (sep : byte) (index : nat) (inner : bytes → option (A * bytes)) (bs : bytes) :
    option (A * bytes) :=
  match index with
  | O => inner bs
  | S _ => match read_given sep bs with Some bs => inner bs | None => None end
  end.

Definition read_octet (index : nat) : bytes → option (Z * bytes) :=
  read_separator x2e index (read_number 10 255 (Some 3) false).

Definition read_ipv4 (bs : bytes) : option (list Z * bytes) :=
  match read_octet 0 bs with
  | Some (a, bs) =>
      match read_octet 1 bs with
      | Some (b, bs) =>
          match read_octet 2 bs with
          | Some (c, bs) =>
              match read_octet 3 bs with
              | Some (d, bs) => Some ([a; b; c; d], bs)
              | None => None
              end
          | None => None
          end
      | None => None
      end
  | None => None
  end.

(** [read_groups] from group [index] with [slots] left: the groups, whether an IPv4
    address ended them, and the rest. *)
Fixpoint read_groups (slots index : nat) (bs : bytes) : list Z * bool * bytes :=
  match slots with
  | O => ([], false, bs)
  | S slots =>
      let v4 := match slots with
                | O => None
                | S _ => read_separator x3a index read_ipv4 bs
                end in
      match v4 with
      | Some ([a; b; c; d], rest) => ([a * 256 + b; c * 256 + d], true, rest)
      | _ =>
          match read_separator x3a index (read_number 16 65535 (Some 4) true) bs with
          | Some (group, rest) =>
              let '(groups, ended, rest) := read_groups slots (S index) rest in
              (group :: groups, ended, rest)
          | None => ([], false, bs)
          end
      end
  end.

Definition read_ipv6 (bs : bytes) : option (list Z * bytes) :=
  let '(head_groups, ended, rest) := read_groups 8 0 bs in
  if decide (length head_groups = 8%nat) then Some (head_groups, rest)
  else if ended then None
  else
    match read_given x3a rest with
    | Some rest =>
        match read_given x3a rest with
        | Some rest =>
            let '(tail_groups, _, rest) := read_groups (8 - (length head_groups + 1)) 0 rest in
            Some (head_groups ++ repeat 0 (8 - length head_groups - length tail_groups) ++ tail_groups, rest)
        | None => None
        end
    | None => None
    end.

Definition read_port (bs : bytes) : option (Z * bytes) :=
  match read_given x3a bs with
  | Some bs => read_number 10 u16_max None true bs
  | None => None
  end.

Definition read_scope_id (bs : bytes) : option (Z * bytes) :=
  match read_given x25 bs with
  | Some bs => read_number 10 u32_max None true bs
  | None => None
  end.

(** [parse::<IpAddr>]: the whole text, an IPv4 address first. *)
Definition whole {A} (o : option (A * bytes)) : option A :=
  match o with Some (a, []) => Some a | _ => None end.

Definition read_ip (bs : bytes) : option (IpAddr * bytes) :=
  match read_ipv4 bs with
  | Some (octets, rest) => Some (V4 octets, rest)
  | None => match read_ipv6 bs with
            | Some (segments, rest) => Some (V6 segments, rest)
            | None => None
            end
  end.

Definition parse_ip_addr (bs : bytes) : option IpAddr := whole (read_ip bs).

(** [parse::<SocketAddr>] *)
Definition read_socket_v4 (bs : bytes) : option (IpAddr * Z * bytes) :=
  match read_ipv4 bs with
  | Some (octets, rest) =>
      match read_port rest with
      | Some (port, rest) => Some (V4 octets, port, rest)
      | None => None
      end
  | None => None
  end.

Definition read_socket_v6 (bs : bytes) : option (IpAddr * Z * bytes) :=
  match read_given x5b bs with
  | Some bs =>
      match read_ipv6 bs with
      | Some (segments, bs) =>
          let bs := match read_scope_id bs with Some (_, rest) => rest | None => bs end in
          match read_given x5d bs with
          | Some bs => match read_port bs with
                       | Some (port, rest) => Some (V6 segments, port, rest)
                       | None => None
                       end
          | None => None
          end
      | None => None
      end
  | None => None
  end.

Definition parse_socket_addr (bs : bytes) : option (IpAddr * Z) :=
  whole (match read_socket_v4 bs with Some r => Some r | None => read_socket_v6 bs end).

(** ** TCP endpoints *)

Definition MAX_HOST_BYTES : Z := 255.

Record TcpEndpoint := TcpEndpoint_mk { te_host : bytes; te_port : Z }.

#[export] Instance TcpEndpoint_eq_dec : EqDecision TcpEndpoint.
Proof. solve_decision. Defined.

Definition contains (b : byte) (bs : bytes) : bool := existsb (λ c, bool_decide (c = b)) bs.

Definition invalid_endpoint (value : bytes) : Error := Error_new (bstr "invalid TCP endpoint " ++ value).

(** [byte.is_ascii_control() || byte.is_ascii_whitespace()] *)
Definition control_or_space (b : byte) : bool := is_ascii_control b || (byte_to_Z b =? 32).

Definition split_host_port (value : bytes) : Result (bytes * bytes) :=
  match strip_prefix [x5b] value with
  | Some value =>
      '(host, suffix) ← ok_or (split_once x5d value) (invalid_endpoint value);
      port ← ok_or (strip_prefix [x3a] suffix) (invalid_endpoint value);
      mret (host, port)
  | None =>
      '(host, port) ← ok_or (rsplit_once x3a value) (invalid_endpoint value);
      if contains x3a host
      then Err (Error_new (bstr "IPv6 TCP endpoint must be bracketed: " ++ value))
      else mret (host, port)
  end.

Definition TcpEndpoint_parse (value : bytes) : Result TcpEndpoint :=
  if bool_decide (value = []) || (MAX_HOST_BYTES + 8 <? vlen value) || existsb control_or_space value
  then Err (invalid_endpoint value)
  else
    '(host, port) ← split_host_port value;
    if bool_decide (host = []) || (MAX_HOST_BYTES <? vlen host) ||
       existsb (λ b, bool_decide (b = slash) || bool_decide (b = x5b) || bool_decide (b = x5d)) host
    then Err (Error_new (bstr "invalid TCP endpoint host " ++ host))
    else
      match parse_uint u16_max port with
      | Some port' =>
          if 0 <? port' then mret (TcpEndpoint_mk host port')
          else Err (Error_new (bstr "invalid TCP endpoint port " ++ port))
      | None => Err (Error_new (bstr "invalid TCP endpoint port " ++ port))
      end.

Definition is_unspecified_ip (e : TcpEndpoint) : bool :=
  match parse_ip_addr (te_host e) with Some ip => ip_is_unspecified ip | None => false end.

(** [Display] *)
Definition TcpEndpoint_display (e : TcpEndpoint) : bytes :=
  if contains x3a (te_host e) then [x5b] ++ te_host e ++ [x5d; x3a] ++ dec (te_port e)
  else te_host e ++ [x3a] ++ dec (te_port e).

(** ** An accepted endpoint is read back from its display form *)

Lemma contains_false b bs : contains b bs = false ↔ b ∉ bs.
Proof.
  unfold contains. rewrite <- not_true_iff_false, existsb_exists. split.
  - intros H Hin. apply H. exists b. split; [by apply list_elem_of_In|]. by apply bool_decide_eq_true.
  - intros H (c & Hc & ->%bool_decide_eq_true). apply H. by apply list_elem_of_In.
Qed.

Lemma split_once_app sep a b : sep ∉ a → split_once sep (a ++ sep :: b) = Some (a, b).
Proof.
  induction a as [|x a IH]; intros H; simpl; [by rewrite decide_True|].
  apply not_elem_of_cons in H as [H1 H2]. rewrite decide_False by done. by rewrite IH.
Qed.

Lemma rsplit_once_app sep a b : sep ∉ b → rsplit_once sep (a ++ sep :: b) = Some (a, b).
Proof.
  intros H. unfold rsplit_once. rewrite rev_app_distr. simpl. rewrite <- app_assoc. simpl.
  rewrite split_once_app; [by rewrite !rev_involutive|].
  intros Hin%list_elem_of_In%in_rev. by apply H, list_elem_of_In.
Qed.

Lemma split_once_Some sep bs a b : split_once sep bs = Some (a, b) → bs = a ++ sep :: b ∧ sep ∉ a.
Proof.
  revert a b. induction bs as [|x bs IH]; intros a b; simpl; [done|]. case_decide as E.
  - intros [= <- <-]. subst x. split; [done|apply not_elem_of_nil].
  - destruct (split_once sep bs) as [[k v]|]; [|done]. intros [= <- <-].
    destruct (IH k v eq_refl) as [-> ?]. split; [done|]. apply not_elem_of_cons. auto.
Qed.

Definition is_digit (b : byte) : Prop := 48 ≤ byte_to_Z b ≤ 57.

Lemma dec_digits_digits fuel z acc : 0 ≤ z → Forall is_digit acc → Forall is_digit (dec_digits fuel z acc).
Proof.
  revert z acc. induction fuel as [|fuel IH]; intros z acc Hz Ha; [done|]. cbn [dec_digits].
  assert (Forall is_digit (digit (z `mod` 10) :: acc)).
  { constructor; [|done]. pose proof (Z.mod_pos_bound z 10 ltac:(lia)).
    pose proof (digit_val (z `mod` 10) ltac:(lia)). unfold is_digit. lia. }
  case_match; [done|]. apply IH; [apply Z.div_pos; lia|done].
Qed.

Lemma dec_is_digits z : 0 ≤ z → Forall is_digit (dec z).
Proof. intros Hz. by apply dec_digits_digits. Qed.

Lemma dec_digits_length fuel k z acc :
  0 ≤ z < 10 ^ Z.of_nat (S k) → (length (dec_digits fuel z acc) ≤ S k + length acc)%nat.
Proof.
  revert k z acc. induction fuel as [|fuel IH]; intros k z acc Hz; cbn [dec_digits]; [lia|].
  destruct (z <? 10) eqn:E; [simpl; lia|]. apply Z.ltb_ge in E.
  rewrite Nat2Z.inj_succ, Z.pow_succ_r in Hz by lia. destruct k as [|k]; [simpl in Hz; lia|].
  etransitivity; [apply (IH k)|simpl; lia].
  split; [apply Z.div_pos; lia|apply Z.div_lt_upper_bound; lia].
Qed.

Lemma not_in_digits b bs : ¬ is_digit b → Forall is_digit bs → b ∉ bs.
Proof. intros Hb Hf Hin. apply Hb. by eapply Forall_forall in Hf. Qed.

(** What [TcpEndpoint_parse] guarantees of an endpoint. *)
Record TcpEndpoint_wf (e : TcpEndpoint) : Prop := {
  host_nonempty : te_host e ≠ [];
  host_length : vlen (te_host e) ≤ MAX_HOST_BYTES;
  host_plain : existsb control_or_space (te_host e) = false;
  host_no_delimiter b : b ∈ te_host e → b ≠ slash ∧ b ≠ x5b ∧ b ≠ x5d;
  port_range : 0 < te_port e ≤ u16_max;
}.

Lemma existsb_app_inv {A} (f : A → bool) l1 l2 : existsb f (l1 ++ l2) = false ↔ existsb f l1 = false ∧ existsb f l2 = false.
Proof. by rewrite existsb_app, orb_false_iff. Qed.

Lemma existsb_all_false {A} (f : A → bool) l : (∀ x, x ∈ l → f x = false) → existsb f l = false.
Proof.
  induction l as [|x l IH]; intros H; [done|]. simpl. rewrite H by left. apply IH. intros y ?. apply H. by right.
Qed.

Lemma split_host_port_plain value host port :
  split_host_port value = Ok (host, port) → existsb control_or_space value = false →
  existsb control_or_space host = false.
Proof.
  unfold split_host_port. intros H Hv.
  destruct (strip_prefix [x5b] value) as [rest|] eqn:Es.
  - unfold strip_prefix in Es. destruct value as [|x value]; [done|]. case_decide; [|done]. simplify_eq.
    cbn [existsb] in Hv. apply orb_false_iff in Hv as [_ Hv].
    destruct (split_once x5d rest) as [[h suffix]|] eqn:E; [|done]. simpl in H.
    destruct suffix as [|y suffix]; [done|]. simpl in H. destruct (decide (x3a = y)); [|done].
    injection H as -> ->.
    apply split_once_Some in E as [-> _]. by apply existsb_app_inv in Hv as [? _].
  - destruct (rsplit_once x3a value) as [[h p]|] eqn:E; [|done]. simpl in H.
    destruct (contains x3a h); [done|]. injection H as -> ->.
    unfold rsplit_once in E. destruct (split_once x3a (rev value)) as [[back front]|] eqn:E1; [|done]. simplify_eq.
    apply split_once_Some in E1 as [E1 _]. apply (f_equal (@rev byte)) in E1. rewrite rev_involutive in E1.
    rewrite E1, rev_app_distr in Hv. simpl in Hv. rewrite <- app_assoc in Hv. by apply existsb_app_inv in Hv as [? _].
Qed.

Lemma TcpEndpoint_parse_wf value e : TcpEndpoint_parse value = Ok e → TcpEndpoint_wf e.
Proof.
  unfold TcpEndpoint_parse. case_match eqn:E1; [done|]. rewrite !orb_false_iff in E1. destruct E1 as [_ Hpl].
  destruct (split_host_port value) as [[host port]|] eqn:E2; [|done]. cbn [mbind Result_bind].
  case_match eqn:E3; [done|]. rewrite !orb_false_iff in E3. destruct E3 as [[Hne Hlen] Hno].
  destruct (parse_uint u16_max port) as [p|] eqn:E4; [|done]. case_match eqn:E5; [|done]. intros [= <-].
  split; cbn [te_host te_port].
  - by apply bool_decide_eq_false in Hne.
  - by apply Z.ltb_ge in Hlen.
  - by eapply split_host_port_plain.
  - intros b Hb. apply not_true_iff_false in Hno. rewrite existsb_exists in Hno.
    split_and!; intros ->; apply Hno; (eexists; split; [by apply list_elem_of_In|]); done.
  - apply Z.ltb_lt in E5. apply parse_uint_range in E4; [lia|done].
Qed.

Lemma digits_plain bs : Forall is_digit bs → existsb control_or_space bs = false.
Proof.
  induction 1 as [|b bs Hb _ IH]; [done|]. simpl. rewrite IH, orb_false_r.
  unfold is_digit in Hb. unfold control_or_space, is_ascii_control.
  rewrite !orb_false_iff. split_and!; [apply Z.ltb_ge|apply Z.eqb_neq|apply Z.eqb_neq]; lia.
Qed.

Lemma display_split e :
  TcpEndpoint_wf e → split_host_port (TcpEndpoint_display e) = Ok (te_host e, dec (te_port e)).
Proof.
  intros [Hne _ _ Hno Hp]. unfold split_host_port, TcpEndpoint_display.
  assert (x3a ∉ dec (te_port e)) as Hc.
  { apply not_in_digits; [by intros [_ H]|]. apply dec_is_digits. lia. }
  destruct (contains x3a (te_host e)) eqn:E.
  - cbn [app strip_prefix]. rewrite decide_True by done.
    rewrite split_once_app by (intros Hin; by destruct (Hno _ Hin) as (_ & _ & ?)). done.
  - assert (strip_prefix [x5b] (te_host e ++ [x3a] ++ dec (te_port e)) = None) as ->.
    { destruct (te_host e) as [|x h] eqn:Eh; [done|]. simpl. rewrite decide_False; [done|].
      intros <-. destruct (Hno x5b) as (_ & ? & _); [left|done]. }
    cbn [app]. rewrite rsplit_once_app by done. cbn [mbind Result_bind ok_or]. by rewrite E.
Qed.

Lemma display_plain e : TcpEndpoint_wf e →
  existsb control_or_space (TcpEndpoint_display e) = false ∧ vlen (TcpEndpoint_display e) ≤ MAX_HOST_BYTES + 8 ∧
  TcpEndpoint_display e ≠ [].
Proof.
  intros [Hne Hl Hpl _ Hp].
  assert (existsb control_or_space (dec (te_port e)) = false) as Hd by (apply digits_plain, dec_is_digits; lia).
  assert (length (dec (te_port e)) ≤ 5)%nat as Hlen.
  { apply (dec_digits_length 20 4 (te_port e) []). unfold u16_max in Hp.
    change (10 ^ Z.of_nat 5) with 100000. lia. }
  unfold vlen in *. unfold TcpEndpoint_display. case_match.
  - split_and!; [|simpl; rewrite length_app; simpl; unfold MAX_HOST_BYTES in *; lia|done].
    rewrite !existsb_app_inv. split_and!; done.
  - split_and!; [|rewrite !length_app; simpl; unfold MAX_HOST_BYTES in *; lia|by destruct (te_host e)].
    rewrite !existsb_app_inv. split_and!; done.
Qed.

Lemma display_parses e : TcpEndpoint_wf e → TcpEndpoint_parse (TcpEndpoint_display e) = Ok e.
Proof.
  intros Hwf. destruct (display_plain e Hwf) as (Hpl & Hl & Hne).
  unfold TcpEndpoint_parse. rewrite bool_decide_false by done. rewrite Hpl.
  replace (MAX_HOST_BYTES + 8 <? vlen (TcpEndpoint_display e)) with false by (symmetry; apply Z.ltb_ge; lia).
  cbn [orb]. rewrite display_split by done. cbn [mbind Result_bind].
  destruct Hwf as [Hh Hhl _ Hno Hp]. rewrite bool_decide_false by done.
  replace (MAX_HOST_BYTES <? vlen (te_host e)) with false by (symmetry; apply Z.ltb_ge; lia). cbn [orb].
  rewrite existsb_all_false.
  - rewrite parse_uint_dec by (unfold u16_max, u64_max in *; lia).
    replace (0 <? te_port e) with true by (symmetry; apply Z.ltb_lt; lia). by destruct e.
  - intros b Hb. destruct (Hno b Hb) as (H1 & H2 & H3). by rewrite !bool_decide_false.
Qed.
