(* ===== verification/ExportDescriptor.v ===== *)
(** The descriptor of an exported tree: [crates/core/src/export_descriptor.rs], its
    text form and the checks on endpoint and authentication.  A [BTreeMap] whose
    order shows is a list sorted by key; one that is only looked up is a [gmap]. *)
From S2P Require Import Prelude Errors Utf8 Referral NamespaceCache Text Endpoint.

(** ** Data *)

Inductive TransportClass := Tcp | Unix.
Inductive ExportMode := ReadOnly | ReadWrite.
Inductive Protocol := P9P2000 | P9P2000R | P9P2000L.
Inductive AuthClass := AuthNone | P9any | UnixPeerCred.

Record AuthBoundary := AuthBoundary_mk { ab_class : AuthClass; ab_details : bytes }.

#[export] Instance TransportClass_eq_dec : EqDecision TransportClass.
Proof. solve_decision. Defined.
#[export] Instance AuthClass_eq_dec : EqDecision AuthClass.
Proof. solve_decision. Defined.

#[export] Instance AuthBoundary_eq_dec : EqDecision AuthBoundary.
Proof. solve_decision. Defined.

(** [BTreeMap<String, String>] *)
Abbreviation Fields := (list (bytes * bytes)).

Record ExportDescriptor := ExportDescriptor_mk {
  endpoint_bind : bytes;
  ed_aname : bytes;
  ed_uname : bytes;
  ed_exported_root : bytes;
  transport_class : TransportClass;
  ed_mode : ExportMode;
  ed_auth : AuthBoundary;
  ed_pid : Z;
  ed_protocol : Protocol;
  ed_msize : Z;
  expires_at : option bytes;
  local_root_label : option bytes;
  namespace_mount_paths : list bytes;
  extra_fields : Fields;
}.

Record SessionEndpoint := SessionEndpoint_mk {
  se_endpoint_bind : bytes;
  se_aname : bytes;
  se_transport_class : TransportClass;
  se_auth : AuthBoundary;
}.

Record HostOwnership := HostOwnership_mk { service_unit : bytes; firewall_admission : bytes }.

Definition EXPORT_FORMAT_V1 : bytes := bstr "r9p-export.v1".
Definition P9ANY_NOISE_XX : bytes := bstr "noise-xx".
Definition SESSION_ENDPOINT_BIND_FIELD : bytes := bstr "session_endpoint_bind".
Definition SESSION_ANAME_FIELD : bytes := bstr "session_aname".
Definition SESSION_AUTH_FIELD : bytes := bstr "session_auth".
Definition SERVICE_UNIT_FIELD : bytes := bstr "service_unit".
Definition HOST_FIREWALL_ADMISSION_FIELD : bytes := bstr "host_firewall_admission".
Definition MAX_AUTH_DOMAIN_BYTES : Z := 255.

(** ** The ordered map *)

Fixpoint bytes_compare (a b : bytes) : comparison :=
  match a, b with
  | [], [] => Eq
  | [], _ :: _ => Lt
  | _ :: _, [] => Gt
  | x :: a, y :: b =>
      match byte_to_Z x ?= byte_to_Z y with Eq => bytes_compare a b | c => c end
  end.

Fixpoint fields_get (k : bytes) (m : Fields) : option bytes :=
  match m with
  | [] => None
  | (k', v) :: m => if decide (k = k') then Some v else fields_get k m
  end.

(** The map with the entry, and whether the key was there. *)
Fixpoint fields_insert (k v : bytes) (m : Fields) : bool * Fields :=
  match m with
  | [] => (false, [(k, v)])
  | (k', v') :: rest =>
      match bytes_compare k k' with
      | Lt => (false, (k, v) :: m)
      | Eq => (true, (k, v) :: rest)
      | Gt => let '(present, rest) := fields_insert k v rest in (present, (k', v') :: rest)
      end
  end.

(** ** Tokens *)

Definition error_text (parts : list bytes) : Error := Error_new (concat parts).

Definition validate_token (field value : bytes) : Result unit :=
  if contains tab value || contains newline value || contains carriage_return value
  then Err (error_text [bstr "descriptor field "; field; bstr " contains tab or newline"])
  else Ok ().

Definition is_ascii_lowercase (b : byte) : bool := between 97 122 (byte_to_Z b).
Definition is_ascii_digit (b : byte) : bool := between 48 57 (byte_to_Z b).
Definition is_ascii_alphanumeric (b : byte) : bool :=
  is_ascii_lowercase b || between 65 90 (byte_to_Z b) || is_ascii_digit b.

Definition validate_extension_field_name (field : bytes) : Result unit :=
  match field with
  | [] => Err (from_static "descriptor extension field is empty")
  | first :: chars =>
      if negb (is_ascii_lowercase first)
      then Err (error_text [bstr "descriptor extension field "; field; bstr " must start with lowercase ascii"])
      else if negb (forallb (λ ch, is_ascii_lowercase ch || is_ascii_digit ch || bool_decide (ch = x5f)) chars)
      then Err (error_text [bstr "descriptor extension field "; field;
                            bstr " must use lowercase ascii, digits, or underscore"])
      else Ok ()
  end.

Definition reserved_fields : list bytes :=
  map bstr ["format"; "endpoint_bind"; "aname"; "uname"; "exported_root"; "transport_class"; "mode"; "auth";
            "pid"; "protocol"; "msize"; "expires_at"; "local_root_label"; "namespace_mount_paths"]%string.

Definition is_reserved_field (field : bytes) : bool := bool_decide (field ∈ reserved_fields).

(** ** Enumerations *)

Definition TransportClass_as_str (c : TransportClass) : bytes :=
  match c with Tcp => bstr "tcp" | Unix => bstr "unix" end.

Definition TransportClass_parse (value : bytes) : Result TransportClass :=
  if decide (value = bstr "tcp") then Ok Tcp
  else if decide (value = bstr "unix") then Ok Unix
  else Err (error_text [bstr "unknown transport_class "; value]).

Definition ExportMode_as_str (m : ExportMode) : bytes :=
  match m with ReadOnly => bstr "ro" | ReadWrite => bstr "rw" end.

Definition ExportMode_parse (value : bytes) : Result ExportMode :=
  if decide (value = bstr "ro") then Ok ReadOnly
  else if decide (value = bstr "rw") then Ok ReadWrite
  else Err (error_text [bstr "unknown mode "; value]).

Definition Protocol_as_str (p : Protocol) : bytes :=
  match p with P9P2000 => bstr "9P2000" | P9P2000R => bstr "9P2000.R" | P9P2000L => bstr "9P2000.L" end.

Definition Protocol_parse (value : bytes) : Result Protocol :=
  if decide (value = bstr "9P2000") then Ok P9P2000
  else if decide (value = bstr "9P2000.R") then Ok P9P2000R
  else if decide (value = bstr "9P2000.L") then Ok P9P2000L
  else Err (error_text [bstr "unknown protocol "; value]).

Definition AuthClass_as_str (c : AuthClass) : bytes :=
  match c with AuthNone => bstr "none" | P9any => bstr "p9any" | UnixPeerCred => bstr "uds-peercred" end.

Definition AuthClass_parse (value : bytes) : Result AuthClass :=
  if decide (value = bstr "none") then Ok AuthNone
  else if decide (value = bstr "p9any") then Ok P9any
  else if decide (value = bstr "uds-peercred") then Ok UnixPeerCred
  else Err (error_text [bstr "unknown auth class "; value]).

(** ** Authentication *)

Definition validate_p9any_domain (domain : bytes) : Result unit :=
  if bool_decide (domain = []) || (MAX_AUTH_DOMAIN_BYTES <? vlen domain)
  then Err (error_text [bstr "auth domain must contain 1 to "; dec MAX_AUTH_DOMAIN_BYTES; bstr " bytes"])
  else if negb (forallb (λ b, is_ascii_alphanumeric b || bool_decide (b = x2e) || bool_decide (b = x2d) ||
                              bool_decide (b = x5f)) domain)
  then Err (from_static "auth domain must use ascii letters, digits, dot, dash, or underscore")
  else Ok ().

Definition AuthBoundary_none : AuthBoundary := AuthBoundary_mk AuthNone [].

Definition p9any_noise_xx (domain : bytes) : Result AuthBoundary :=
  _ ← validate_p9any_domain domain;
  mret (AuthBoundary_mk P9any (P9ANY_NOISE_XX ++ [x40] ++ domain)).

Definition p9any_domain (a : AuthBoundary) : option bytes :=
  match ab_class a with
  | P9any =>
      match strip_prefix P9ANY_NOISE_XX (ab_details a) with
      | Some value => strip_prefix [x40] value
      | None => None
      end
  | _ => None
  end.

Definition AuthBoundary_render (a : AuthBoundary) : bytes :=
  match ab_class a, ab_details a with
  | AuthNone, [] => bstr "none"
  | class, details => AuthClass_as_str class ++ [x3a] ++ details
  end.

Definition AuthBoundary_validate (a : AuthBoundary) : Result unit :=
  match ab_class a, ab_details a with
  | AuthNone, [] => Ok ()
  | P9any, _ =>
      domain ← ok_or (p9any_domain a)
                 (error_text [bstr "p9any auth boundary must use "; P9ANY_NOISE_XX; bstr "@domain"]);
      validate_p9any_domain domain
  | UnixPeerCred, _ :: _ => Ok ()
  | _, _ => Err (error_text [bstr "invalid auth boundary "; AuthBoundary_render a])
  end.

Definition AuthBoundary_parse (value : bytes) : Result AuthBoundary :=
  if decide (value = bstr "none") then Ok AuthBoundary_none
  else
    '(class, details) ← ok_or (split_once x3a value) (error_text [bstr "invalid auth boundary "; value]);
    class ← AuthClass_parse class;
    let boundary := AuthBoundary_mk class details in
    _ ← AuthBoundary_validate boundary;
    mret boundary.

Definition tcp_endpoint_is_loopback (endpoint : bytes) : bool :=
  starts_with (bstr "127.") endpoint || starts_with (bstr "localhost:") endpoint ||
  starts_with (bstr "[::1]:") endpoint ||
  match parse_socket_addr endpoint with Some (ip, _) => ip_is_loopback ip | None => false end.

Definition transport_class_for_endpoint (endpoint : bytes) : TransportClass :=
  if starts_with (bstr "unix:") endpoint || starts_with (bstr "unix!") endpoint then Unix else Tcp.

Definition validate_transport_auth (transport : TransportClass) (bind : bytes) (auth : AuthBoundary) :
    Result unit :=
  _ ← AuthBoundary_validate auth;
  _ ← (match transport with Tcp => _ ← TcpEndpoint_parse bind; mret () | Unix => mret () end);
  match transport, ab_class auth with
  | Tcp, AuthNone =>
      if negb (tcp_endpoint_is_loopback bind)
      then Err (from_static "descriptor auth=none is only admitted for loopback TCP") else Ok ()
  | Tcp, UnixPeerCred => Err (from_static "descriptor uds-peercred auth is not valid for TCP")
  | Unix, P9any => Err (from_static "descriptor p9any session auth is not valid for unix sockets")
  | _, _ => Ok ()
  end.

(** ** Session endpoint and host ownership *)

Definition SessionEndpoint_validate (e : SessionEndpoint) : Result unit :=
  _ ← validate_token SESSION_ENDPOINT_BIND_FIELD (se_endpoint_bind e);
  _ ← validate_token SESSION_ANAME_FIELD (se_aname e);
  if bool_decide (se_endpoint_bind e = []) then Err (from_static "session endpoint bind is empty")
  else if bool_decide (se_aname e = []) then Err (from_static "session endpoint aname is empty")
  else validate_transport_auth (se_transport_class e) (se_endpoint_bind e) (se_auth e).

Definition validate_ownership_field (field value : bytes) : Result unit :=
  _ ← validate_token field value;
  if bool_decide (value = []) || negb (bool_decide (trim value = value)) || contains x22 value
  then Err (error_text [bstr "descriptor host ownership field "; field; bstr " is invalid"])
  else Ok ().

Definition HostOwnership_validate (o : HostOwnership) : Result unit :=
  _ ← validate_ownership_field SERVICE_UNIT_FIELD (service_unit o);
  validate_ownership_field HOST_FIREWALL_ADMISSION_FIELD (firewall_admission o).

Definition HostOwnership_new (unit_name admission : bytes) : Result HostOwnership :=
  let ownership := HostOwnership_mk unit_name admission in
  _ ← HostOwnership_validate ownership;
  mret ownership.

Definition set_extra_fields (m : Fields) (d : ExportDescriptor) : ExportDescriptor :=
  ExportDescriptor_mk (endpoint_bind d) (ed_aname d) (ed_uname d) (ed_exported_root d) (transport_class d)
    (ed_mode d) (ed_auth d) (ed_pid d) (ed_protocol d) (ed_msize d) (expires_at d) (local_root_label d)
    (namespace_mount_paths d) m.

(** The loop that adds fields, refusing one that is there. *)
Fixpoint add_fields (what : bytes) (fields : Fields) (m : Fields) : Result Fields :=
  match fields with
  | [] => Ok m
  | (field, value) :: fields =>
      match fields_insert field value m with
      | (true, _) => Err (error_text [bstr "descriptor already contains "; what; bstr " field "; field])
      | (false, m) => add_fields what fields m
      end
  end.

Definition with_session_endpoint (endpoint : SessionEndpoint) (d : ExportDescriptor) : Result ExportDescriptor :=
  _ ← SessionEndpoint_validate endpoint;
  m ← add_fields (bstr "session endpoint")
        [(SESSION_ENDPOINT_BIND_FIELD, se_endpoint_bind endpoint);
         (SESSION_ANAME_FIELD, se_aname endpoint);
         (SESSION_AUTH_FIELD, AuthBoundary_render (se_auth endpoint))] (extra_fields d);
  mret (set_extra_fields m d).

Definition session_endpoint (d : ExportDescriptor) : Result (option SessionEndpoint) :=
  match fields_get SESSION_ENDPOINT_BIND_FIELD (extra_fields d),
        fields_get SESSION_ANAME_FIELD (extra_fields d), fields_get SESSION_AUTH_FIELD (extra_fields d) with
  | None, None, None => Ok None
  | Some bind, Some aname, Some auth =>
      auth ← AuthBoundary_parse auth;
      let endpoint := SessionEndpoint_mk bind aname (transport_class_for_endpoint bind) auth in
      _ ← SessionEndpoint_validate endpoint;
      mret (Some endpoint)
  | _, _, _ => Err (from_static "descriptor has an incomplete session endpoint")
  end.

Definition with_host_ownership (ownership : HostOwnership) (d : ExportDescriptor) : Result ExportDescriptor :=
  _ ← HostOwnership_validate ownership;
  m ← add_fields (bstr "host ownership")
        [(SERVICE_UNIT_FIELD, service_unit ownership);
         (HOST_FIREWALL_ADMISSION_FIELD, firewall_admission ownership)] (extra_fields d);
  mret (set_extra_fields m d).

Definition host_ownership (d : ExportDescriptor) : Result (option HostOwnership) :=
  match fields_get SERVICE_UNIT_FIELD (extra_fields d),
        fields_get HOST_FIREWALL_ADMISSION_FIELD (extra_fields d) with
  | None, None => Ok None
  | Some unit_name, Some admission =>
      let ownership := HostOwnership_mk unit_name admission in
      _ ← HostOwnership_validate ownership;
      mret (Some ownership)
  | _, _ => Err (from_static "descriptor has incomplete host ownership evidence")
  end.

Definition validate_authority_boundary (d : ExportDescriptor) : Result unit :=
  validate_transport_auth (transport_class d) (endpoint_bind d) (ed_auth d).

(** ** The text form *)

Definition comma : byte := x2c.

Definition core_fields (d : ExportDescriptor) : Fields :=
  [(bstr "format", EXPORT_FORMAT_V1); (bstr "endpoint_bind", endpoint_bind d); (bstr "aname", ed_aname d);
   (bstr "uname", ed_uname d); (bstr "exported_root", ed_exported_root d);
   (bstr "transport_class", TransportClass_as_str (transport_class d));
   (bstr "mode", ExportMode_as_str (ed_mode d)); (bstr "auth", AuthBoundary_render (ed_auth d));
   (bstr "pid", dec (ed_pid d)); (bstr "protocol", Protocol_as_str (ed_protocol d));
   (bstr "msize", dec (ed_msize d))] ++
  match expires_at d with Some v => [(bstr "expires_at", v)] | None => [] end ++
  match local_root_label d with Some v => [(bstr "local_root_label", v)] | None => [] end ++
  match namespace_mount_paths d with
  | [] => []
  | paths => [(bstr "namespace_mount_paths", join comma paths)]
  end.

(** The loop over the extension fields. *)
Fixpoint check_extensions (m : Fields) : Result unit :=
  match m with
  | [] => Ok ()
  | (field, _) :: m =>
      _ ← validate_extension_field_name field;
      if is_reserved_field field
      then Err (error_text [bstr "descriptor extension field "; field; bstr " is reserved"])
      else check_extensions m
  end.

Definition render_line (field value : bytes) : bytes := field ++ [tab] ++ value ++ [newline].

Fixpoint render_fields (fields : Fields) (out : bytes) : Result bytes :=
  match fields with
  | [] => Ok out
  | (field, value) :: fields =>
      _ ← validate_token field field;
      _ ← validate_token field value;
      render_fields fields (out ++ render_line field value)
  end.

Definition render (d : ExportDescriptor) : Result bytes :=
  _ ← validate_authority_boundary d;
  _ ← session_endpoint d;
  _ ← host_ownership d;
  _ ← check_extensions (extra_fields d);
  render_fields (core_fields d ++ extra_fields d) [].

(** ** Parsing *)

Definition required (fields : gmap bytes bytes) (field : string) : Result bytes :=
  ok_or (fields !! bstr field) (error_text [bstr "missing descriptor field "; bstr field]).

Definition parse_u32 (value : bytes) (field : string) : Result Z :=
  ok_or (parse_uint u32_max value) (error_text [bstr "invalid "; bstr field; bstr " "; value]).

Definition validate_namespace_mount_path (path : bytes) : Result unit :=
  if bool_decide (path = []) then Err (from_static "empty namespace_mount_paths entry")
  else if negb (starts_with [slash] path)
  then Err (error_text [bstr "namespace_mount_paths entry is not absolute: "; path])
  else if bool_decide (path = [slash]) then Err (from_static "namespace_mount_paths entry cannot be root")
  else Ok ().

(** [map(..).collect::<Result<Vec<_>>>()] *)
Fixpoint collect_paths (segments : list bytes) : Result (list bytes) :=
  match segments with
  | [] => Ok []
  | path :: segments =>
      let path := trim path in
      _ ← validate_namespace_mount_path path;
      paths ← collect_paths segments;
      mret (path :: paths)
  end.

Definition parse_namespace_mount_paths (value : option bytes) : Result (list bytes) :=
  match value with
  | None => Ok []
  | Some value =>
      let trimmed := trim value in
      if bool_decide (trimmed = []) then Ok [] else collect_paths (split_on comma trimmed)
  end.

(** One line of the text. *)
Definition parse_line (index : Z) (line : bytes) (maps : gmap bytes bytes * Fields) :
    Result (gmap bytes bytes * Fields) :=
  match line with
  | [] => Ok maps
  | _ =>
      match split_on tab line with
      | [field; value] =>
          _ ← validate_token field field;
          _ ← validate_token field value;
          let '(fields, extra) := maps in
          if is_reserved_field field then
            match fields !! field with
            | Some _ => Err (error_text [bstr "duplicate descriptor field "; field])
            | None => mret (<[field := value]> fields, extra)
            end
          else
            _ ← validate_extension_field_name field;
            match fields_insert field value extra with
            | (true, _) => Err (error_text [bstr "duplicate descriptor field "; field])
            | (false, extra) => mret (fields, extra)
            end
      | _ => Err (error_text [bstr "descriptor line "; dec (index + 1); bstr " is not field-tab-value"])
      end
  end.

Fixpoint parse_lines (index : Z) (ls : list bytes) (maps : gmap bytes bytes * Fields) :
    Result (gmap bytes bytes * Fields) :=
  match ls with
  | [] => Ok maps
  | line :: ls => maps ← parse_line index line maps; parse_lines (index + 1) ls maps
  end.

(** The descriptor of the fields read. *)
Definition descriptor_of (fields : gmap bytes bytes) (extra : Fields) : Result ExportDescriptor :=
  format ← required fields "format";
  if negb (bool_decide (format = EXPORT_FORMAT_V1))
  then Err (error_text [bstr "unknown descriptor format "; format])
  else
    bind ← required fields "endpoint_bind";
    aname ← required fields "aname";
    uname ← required fields "uname";
    root ← required fields "exported_root";
    transport ← required fields "transport_class";
    transport ← TransportClass_parse transport;
    mode ← required fields "mode";
    mode ← ExportMode_parse mode;
    auth ← required fields "auth";
    auth ← AuthBoundary_parse auth;
    pid ← required fields "pid";
    pid ← parse_u32 pid "pid";
    protocol ← required fields "protocol";
    protocol ← Protocol_parse protocol;
    msize ← required fields "msize";
    msize ← parse_u32 msize "msize";
    paths ← parse_namespace_mount_paths (fields !! bstr "namespace_mount_paths");
    mret (ExportDescriptor_mk bind aname uname root transport mode auth pid protocol msize
            (fields !! bstr "expires_at") (fields !! bstr "local_root_label") paths extra).

Definition parse (input : bytes) : Result ExportDescriptor :=
  '(fields, extra) ← parse_lines 0 (lines input) (∅, []);
  descriptor ← descriptor_of fields extra;
  _ ← validate_authority_boundary descriptor;
  _ ← session_endpoint descriptor;
  _ ← host_ownership descriptor;
  mret descriptor.
