(* ===== verification/ExportDescriptorProps.v ===== *)
(** The text form of export descriptors ([crates/core/src/export_descriptor.rs]):
    what [parse] accepts, [render] prints, and [parse] reads the same descriptor
    back. *)
From stdpp Require Import sorting.
From S2P Require Import Prelude Errors Utf8 Referral NamespaceCache Text Endpoint ExportDescriptor.

(** ** Splitting and joining *)

Lemma split_on_none sep a : sep ∉ a → split_on sep a = [a].
Proof.
  induction a as [|b a IH]; intros H; [done|]. apply not_elem_of_cons in H as [H1 H2]. simpl.
  rewrite decide_False by done. by rewrite IH.
Qed.

Lemma split_on_cons sep a rest : sep ∉ a → split_on sep (a ++ sep :: rest) = a :: split_on sep rest.
Proof.
  induction a as [|b a IH]; intros H; simpl; [by rewrite decide_True|].
  apply not_elem_of_cons in H as [H1 H2]. rewrite decide_False by done. by rewrite IH.
Qed.

Lemma split_on_elem sep bs segment : segment ∈ split_on sep bs → (sep ∉ segment) ∧ ∀ b, b ∈ segment → b ∈ bs.
Proof.
  revert segment. induction bs as [|b bs IH]; intros segment; simpl.
  - intros ->%list_elem_of_singleton. split; [apply not_elem_of_nil|by intros b ?%elem_of_nil].
  - case_decide as E.
    + intros [->|Hs]%elem_of_cons; [split; [apply not_elem_of_nil|by intros c ?%elem_of_nil]|].
      destruct (IH segment Hs) as [? H]. split; [done|]. intros c ?. right. by apply H.
    + destruct (split_on sep bs) as [|s segs] eqn:Es; [by apply split_on_nonempty in Es|].
      intros [->|Hs]%elem_of_cons.
      * destruct (IH s) as [Hn H]; [left|]. split; [by apply not_elem_of_cons|].
        intros c [->|?]%elem_of_cons; [left|right; by apply H].
      * destruct (IH segment) as [Hn H]; [by right|]. split; [done|]. intros c ?. right. by apply H.
Qed.

Lemma split_on_join_names sep names :
  names ≠ [] → (∀ name, name ∈ names → sep ∉ name) → split_on sep (join sep names) = names.
Proof.
  induction names as [|name names IH]; intros Hne H; [done|]. destruct names as [|name' names].
  - apply split_on_none, H. left.
  - change (join sep (name :: name' :: names)) with (name ++ sep :: join sep (name' :: names)).
    rewrite split_on_cons by (apply H; left). f_equal. apply IH; [done|]. intros x Hx. apply H. by right.
Qed.

Lemma join_elem sep names b : b ∈ join sep names → b = sep ∨ ∃ name, name ∈ names ∧ b ∈ name.
Proof.
  induction names as [|name names IH]; [by intros ?%elem_of_nil|]. destruct names as [|name' names].
  - intros H. right. exists name. split; [left|done].
  - change (join sep (name :: name' :: names)) with (name ++ sep :: join sep (name' :: names)).
    intros [H|[->|H]%elem_of_cons]%elem_of_app.
    + right. exists name. split; [left|done].
    + by left.
    + destruct (IH H) as [->|(x & ? & ?)]; [by left|]. right. exists x. split; [by right|done].
Qed.

(** ** Tokens and lines *)

Definition token (bs : bytes) : Prop := (tab ∉ bs) ∧ (newline ∉ bs) ∧ (carriage_return ∉ bs).

Lemma validate_token_Ok field value u : validate_token field value = Ok u ↔ token value.
Proof.
  unfold validate_token, token. rewrite <- !contains_false. destruct u.
  destruct (contains tab value), (contains newline value), (contains carriage_return value); simpl;
    (split; [intros [=]|intros (?&?&?)]); done.
Qed.

Lemma token_incl a b : (∀ x, x ∈ a → x ∈ b) → token b → token a.
Proof. intros H (H1 & H2 & H3). split_and!; auto. Qed.

Lemma token_app a b : token (a ++ b) ↔ token a ∧ token b.
Proof. unfold token. rewrite !not_elem_of_app. tauto. Qed.

Definition line_of (f : bytes * bytes) : bytes := f.1 ++ tab :: f.2.

Definition field_ok (f : bytes * bytes) : Prop := token f.1 ∧ token f.2.

Lemma strip_cr_id bs : carriage_return ∉ bs → strip_cr bs = bs.
Proof.
  intros H. unfold strip_cr. destruct (last bs) as [b|] eqn:E; [|done]. rewrite decide_False; [done|].
  intros ->. by apply H, last_Some_elem_of.
Qed.

Lemma line_no_break f b : field_ok f → b = newline ∨ b = carriage_return → b ∉ line_of f.
Proof.
  intros [(_ & H1 & H2) (_ & H3 & H4)] Hb. unfold line_of. rewrite not_elem_of_app, not_elem_of_cons.
  destruct Hb as [-> | ->]; done.
Qed.

Lemma lines_cons a rest : newline ∉ a → carriage_return ∉ a → lines (a ++ newline :: rest) = a :: lines rest.
Proof.
  intros Hn Hc. unfold lines. rewrite split_on_cons by done.
  destruct (split_on newline rest) as [|s segs] eqn:E; [by apply split_on_nonempty in E|].
  cbn [terminated_lines]. by rewrite strip_cr_id.
Qed.

Definition text_of (fields : Fields) : bytes := concat (map (λ f, line_of f ++ [newline]) fields).

Lemma lines_text fields : Forall field_ok fields → lines (text_of fields) = map line_of fields.
Proof.
  induction 1 as [|f fields Hf _ IH]; [done|]. unfold text_of in *. simpl. rewrite <- app_assoc. simpl.
  rewrite lines_cons by (apply line_no_break; auto). by rewrite IH.
Qed.

Lemma render_fields_Ok fields out text :
  render_fields fields out = Ok text ↔ Forall field_ok fields ∧ text = out ++ text_of fields.
Proof.
  revert out. induction fields as [|[k v] fields IH]; intros out; cbn [render_fields].
  - unfold text_of. simpl. rewrite app_nil_r. split; [by intros [= <-]|by intros [_ ->]].
  - rewrite Forall_cons. destruct (validate_token k k) as [[]|e] eqn:E1; cbn [mbind Result_bind].
    2:{ split; [done|]. intros [[[Hk _] _] _]. by rewrite (proj2 (validate_token_Ok k k ()) Hk) in E1. }
    destruct (validate_token k v) as [[]|e] eqn:E2.
    2:{ split; [done|]. intros [[[_ Hv] _] _]. by rewrite (proj2 (validate_token_Ok k v ()) Hv) in E2. }
    apply validate_token_Ok in E1, E2. cbn [mbind Result_bind]. rewrite IH. unfold text_of, render_line, line_of, field_ok. simpl.
    rewrite <- !app_assoc. simpl. rewrite <- !app_assoc. simpl. split; [intros [? ->]|intros [[_ ?] ->]]; auto.
Qed.

(** ** The ordered map *)

Lemma bytes_compare_eq a b : bytes_compare a b = Eq ↔ a = b.
Proof.
  revert b. induction a as [|x a IH]; intros [|y b]; simpl; try done.
  destruct (Z.compare_spec (byte_to_Z x) (byte_to_Z y)) as [E|E|E].
  - apply byte_to_Z_inj in E as ->. rewrite IH. split; [by intros ->|by intros [= ->]].
  - split; [done|]. intros [= -> _]. lia.
  - split; [done|]. intros [= -> _]. lia.
Qed.

Lemma bytes_compare_antisym a b : bytes_compare b a = CompOpp (bytes_compare a b).
Proof.
  revert b. induction a as [|x a IH]; intros [|y b]; simpl; try done.
  rewrite Z.compare_antisym. destruct (byte_to_Z x ?= byte_to_Z y); simpl; auto.
Qed.

Lemma bytes_compare_trans a b c : bytes_compare a b = Lt → bytes_compare b c = Lt → bytes_compare a c = Lt.
Proof.
  revert b c. induction a as [|x a IH]; intros [|y b] [|z c]; simpl; try done.
  destruct (Z.compare_spec (byte_to_Z x) (byte_to_Z y)) as [E|E|E]; [rewrite E| |done].
  - destruct (byte_to_Z y ?= byte_to_Z z); [apply IH|done|done].
  - intros _. destruct (Z.compare_spec (byte_to_Z y) (byte_to_Z z)) as [E'|E'|E']; [|..|done];
      intros _; (rewrite (proj2 (Z.compare_lt_iff _ _)); [done|lia]).
Qed.

Definition key_lt (f g : bytes * bytes) : Prop := bytes_compare f.1 g.1 = Lt.
Definition sorted (m : Fields) : Prop := StronglySorted key_lt m.

Lemma fields_insert_end k v m :
  Forall (λ f, key_lt f (k, v)) m → fields_insert k v m = (false, m ++ [(k, v)]).
Proof.
  induction 1 as [|[k' v'] m Hlt _ IH]; [done|]. simpl. unfold key_lt in Hlt. simpl in Hlt.
  rewrite bytes_compare_antisym, Hlt. simpl. by rewrite IH.
Qed.

Lemma fields_insert_elem k v m f : f ∈ (fields_insert k v m).2 → f = (k, v) ∨ f ∈ m.
Proof.
  induction m as [|[k' v'] m IH]; simpl; [by intros ->%list_elem_of_singleton; left|].
  destruct (bytes_compare k k').
  - intros [->|?]%elem_of_cons; [by left|by right; right].
  - intros [->|?]%elem_of_cons; [by left|by right].
  - destruct (fields_insert k v m) as [present rest] eqn:E. simpl.
    intros [->|?]%elem_of_cons; [right; left|]. destruct IH as [?|?]; [done|by left|by right; right].
Qed.

Lemma fields_insert_sorted k v m : sorted m → sorted (fields_insert k v m).2.
Proof.
  induction 1 as [|[k' v'] m Hs IH Hall]; [repeat constructor|]. simpl.
  destruct (bytes_compare k k') eqn:E.
  - apply bytes_compare_eq in E as ->. by constructor.
  - constructor; [by constructor|]. constructor; [done|].
    eapply Forall_impl; [exact Hall|]. intros [k2 v2] H. unfold key_lt in *. simpl in *. by eapply bytes_compare_trans.
  - destruct (fields_insert k v m) as [present rest] eqn:Ei. simpl. constructor; [done|].
    apply Forall_forall. intros f Hf. pose proof (fields_insert_elem k v m f) as Hin. rewrite Ei in Hin.
    destruct (Hin Hf) as [->|Hm]; [|by rewrite Forall_forall in Hall; apply Hall].
    unfold key_lt. simpl. by rewrite bytes_compare_antisym, E.
Qed.

(** ** Reading lines back *)

Definition extension_ok (f : bytes * bytes) : Prop :=
  field_ok f ∧ validate_extension_field_name f.1 = Ok () ∧ is_reserved_field f.1 = false.

Lemma parse_line_of index f maps :
  field_ok f →
  parse_line index (line_of f) maps =
  if is_reserved_field f.1 then
    match maps.1 !! f.1 with
    | Some _ => Err (error_text [bstr "duplicate descriptor field "; f.1])
    | None => Ok (<[f.1 := f.2]> maps.1, maps.2)
    end
  else
    _ ← validate_extension_field_name f.1;
    match fields_insert f.1 f.2 maps.2 with
    | (true, _) => Err (error_text [bstr "duplicate descriptor field "; f.1])
    | (false, extra) => Ok (maps.1, extra)
    end.
Proof.
  intros [Hk Hv]. destruct f as [k v], maps as [fields extra]. unfold parse_line, line_of. cbn [fst snd] in *.
  rewrite split_on_cons by apply Hk. rewrite split_on_none by apply Hv.
  rewrite (proj2 (validate_token_Ok k k ()) Hk), (proj2 (validate_token_Ok k v ()) Hv). cbn [mbind Result_bind].
  by destruct k.
Qed.

Lemma parse_extension_lines index fs fields extra :
  Forall extension_ok fs → sorted (extra ++ fs) →
  parse_lines index (map line_of fs) (fields, extra) = Ok (fields, extra ++ fs).
Proof.
  intros Hok. revert index extra. induction Hok as [|f fs (Hf & Hn & Hr) _ IH]; intros index extra Hs; simpl.
  - by rewrite app_nil_r.
  - rewrite parse_line_of by done. cbn [fst snd]. rewrite Hr, Hn. cbn [mbind Result_bind].
    destruct f as [k v]. cbn [fst snd]. rewrite fields_insert_end.
    + cbn [mbind Result_bind]. rewrite IH; [by rewrite <- app_assoc|by rewrite <- app_assoc].
    + apply Forall_forall. intros g Hg. unfold sorted in Hs. apply (StronglySorted_app_1_elem_of key_lt extra ((k, v) :: fs)); [done..|left].
Qed.

Lemma parse_reserved_lines index fs rest fields extra :
  Forall field_ok fs → Forall (λ f, is_reserved_field f.1 = true) fs → NoDup (fs.*1) →
  (∀ k, k ∈ fs.*1 → fields !! k = None) →
  ∃ fields' index', parse_lines index (map line_of fs ++ rest) (fields, extra) =
    parse_lines index' rest (fields', extra) ∧
    ∀ k, fields' !! k = match fields_get k fs with Some v => Some v | None => fields !! k end.
Proof.
  intros Hok. revert index fields. induction Hok as [|[k v] fs Hf _ IH]; intros index fields Hr Hnd Hnone.
  { exists fields, index. done. }
  apply Forall_cons in Hr as [Hk Hr]. apply NoDup_cons in Hnd as [Hni Hnd].
  cbn [map app parse_lines]. rewrite parse_line_of by done. cbn [fst snd] in *. rewrite Hk.
  rewrite Hnone by left. cbn [mbind Result_bind].
  destruct (IH (index + 1) (<[k := v]> fields)) as (fields' & index' & E & H); [done..| |].
  { intros k' Hk'. rewrite lookup_insert_ne by (intros ->; done). apply Hnone. by right. }
  exists fields', index'. split; [done|]. intros k'. rewrite H. simpl. destruct (decide (k' = k)) as [->|Hne].
  - rewrite lookup_insert_eq. destruct (fields_get k fs) as [v'|] eqn:Eg; [|done]. exfalso. apply Hni.
    clear -Eg. induction fs as [|[k1 v1] fs IH]; [done|]. simpl in Eg. case_decide; [subst; left|].
    right. by apply IH.
  - by rewrite lookup_insert_ne.
Qed.

(** ** Mount paths *)

Record canonical_path (p : bytes) : Prop := {
  cp_slash : ∃ rest, p = slash :: rest;
  cp_root : p ≠ [slash];
  cp_comma : comma ∉ p;
  cp_trimmed : trimmed p;
}.

Lemma white_space_no_slash e : e ∈ white_space → slash ∉ e.
Proof.
  intros He. assert (Forall (λ e, slash ∉ e) white_space) as H.
  { apply (bool_decide_eq_true_1 (Forall (λ e, slash ∉ e) white_space)). reflexivity. }
  by rewrite Forall_forall in H; apply H.
Qed.

Lemma prefix_app_cases (e a b : bytes) : e `prefix_of` (a ++ b) → e `prefix_of` a ∨ a `prefix_of` e.
Proof. intros [k E]. symmetry in E. apply app_eq_app in E as [l [[-> _]|[-> _]]]; [right|left]; by exists l. Qed.

Lemma trimmed_app p rest pre q :
  (∃ r, p = slash :: r) → (∃ r, q = slash :: r) → trimmed q → p ++ rest = pre ++ q → trimmed (p ++ rest).
Proof.
  intros [r ->] [r' Hq] [_ Hend] E. split.
  - apply strip_any_None. intros e He [k Hk]. apply (white_space_no_slash e He).
    destruct e as [|x e]; [by apply white_space_nonempty in He|]. simpl in Hk. injection Hk as <- _. left.
  - rewrite E, rev_app_distr. apply strip_any_None. intros e' He' Hpre.
    apply prefix_app_cases in Hpre as [Hpre|Hpre].
    + rewrite strip_any_None in Hend. by apply (Hend e').
    + apply list_elem_of_fmap in He' as (e & -> & He). apply (white_space_no_slash e He).
      destruct Hpre as [k Hk]. apply list_elem_of_In, in_rev. rewrite Hk. apply in_or_app. left.
      apply in_rev. rewrite rev_involutive. rewrite Hq. by left.
Qed.

Lemma join_ends sep names : names ≠ [] →
  (∃ p rest, p ∈ names ∧ join sep names = p ++ rest) ∧ (∃ pre q, q ∈ names ∧ join sep names = pre ++ q).
Proof.
  intros Hne. induction names as [|name names IH]; [done|]. destruct names as [|name' names].
  - split; [exists name, []|exists [], name]; (split; [left|]); simpl; by rewrite ?app_nil_r.
  - change (join sep (name :: name' :: names)) with (name ++ sep :: join sep (name' :: names)).
    destruct IH as [_ (pre & q & Hq & E)]; [done|]. split.
    + exists name, (sep :: join sep (name' :: names)). split; [left|done].
    + exists (name ++ sep :: pre), q. split; [by right|]. by rewrite E, <- app_assoc.
Qed.

Lemma trimmed_join paths : paths ≠ [] → Forall canonical_path paths → trimmed (join comma paths).
Proof.
  intros Hne Hall. rewrite Forall_forall in Hall.
  destruct (join_ends comma paths Hne) as [(p & rest & Hp & E1) (pre & q & Hq & E2)]. rewrite E1.
  apply (trimmed_app p rest pre q); [apply (cp_slash p), Hall, Hp|apply (cp_slash q), Hall, Hq
    |apply (cp_trimmed q), Hall, Hq|congruence].
Qed.

Lemma validate_mount_Ok p : (∃ rest, p = slash :: rest) → p ≠ [slash] → validate_namespace_mount_path p = Ok ().
Proof.
  intros [rest ->] Hr. unfold validate_namespace_mount_path. rewrite bool_decide_false by done.
  unfold starts_with. simpl. by rewrite bool_decide_false.
Qed.

Lemma collect_canonical paths : Forall canonical_path paths → collect_paths paths = Ok paths.
Proof.
  induction 1 as [|p paths [Hs Hr _ Ht] _ IH]; [done|]. simpl. rewrite trim_id by done.
  rewrite validate_mount_Ok by done. cbn [mbind Result_bind]. by rewrite IH.
Qed.

Lemma parse_mounts_join paths :
  paths ≠ [] → Forall canonical_path paths → parse_namespace_mount_paths (Some (join comma paths)) = Ok paths.
Proof.
  intros Hne Hall. unfold parse_namespace_mount_paths. rewrite trim_id by (by apply trimmed_join).
  rewrite bool_decide_false.
  - rewrite split_on_join_names; [by apply collect_canonical|done|].
    intros p Hp. rewrite Forall_forall in Hall. apply (cp_comma p), Hall, Hp.
  - destruct (join_ends comma paths Hne) as [(p & rest & Hp & ->) _]. rewrite Forall_forall in Hall.
    destruct (cp_slash p (Hall p Hp)) as [r ->]. done.
Qed.

Lemma collect_paths_canonical segments paths :
  Forall (λ s, comma ∉ s) segments → collect_paths segments = Ok paths → Forall canonical_path paths.
Proof.
  intros Hc. revert paths. induction Hc as [|s segments Hs _ IH]; intros paths; simpl; [by intros [= <-]|].
  destruct (validate_namespace_mount_path (trim s)) as [[]|] eqn:E; [|done]. cbn [mbind Result_bind].
  destruct (collect_paths segments) as [ps|] eqn:Ep; [|done]. intros [= <-]. constructor; [|by apply IH].
  unfold validate_namespace_mount_path in E. case_bool_decide; [done|].
  destruct (starts_with [slash] (trim s)) eqn:Es; [|done]. simpl in E. case_bool_decide; [done|].
  apply starts_with_spec in Es as [rest Es]. split; [by exists rest|done| |apply trim_trimmed].
  intros Hin%trim_elem. done.
Qed.

Lemma parse_mounts_canonical value paths :
  parse_namespace_mount_paths value = Ok paths → Forall canonical_path paths.
Proof.
  unfold parse_namespace_mount_paths. destruct value as [value|]; [|by intros [= <-]].
  case_bool_decide; [by intros [= <-]|]. apply collect_paths_canonical, Forall_forall.
  intros s Hs. by apply split_on_elem in Hs as [? _].
Qed.

(** Every byte of a path is one of the value. *)
Lemma collect_paths_elem segments paths p :
  collect_paths segments = Ok paths → p ∈ paths → ∃ s, s ∈ segments ∧ ∀ b, b ∈ p → b ∈ s.
Proof.
  revert paths. induction segments as [|s segments IH]; intros paths; simpl; [by intros [= <-] ?%elem_of_nil|].
  destruct (validate_namespace_mount_path (trim s)); [|done]. cbn [mbind Result_bind].
  destruct (collect_paths segments) as [ps|]; [|done]. intros [= <-] [->|Hp]%elem_of_cons.
  - exists s. split; [left|]. intros b. apply trim_elem.
  - destruct (IH ps eq_refl Hp) as (s' & ? & ?). exists s'. split; [by right|done].
Qed.

Lemma parse_mounts_token value paths :
  parse_namespace_mount_paths (Some value) = Ok paths → token value → token (join comma paths).
Proof.
  intros E Ht. unfold parse_namespace_mount_paths in E. case_bool_decide.
  { injection E as <-. split_and!; apply not_elem_of_nil. }
  assert (∀ b, b ∈ join comma paths → b = comma ∨ b ∈ value) as Hin.
  { intros b [->|(p & Hp & Hb)]%join_elem; [by left|]. right.
    destruct (collect_paths_elem _ _ p E Hp) as (s & Hs & Hsub). apply split_on_elem in Hs as [_ Hs].
    by apply trim_elem, Hs, Hsub. }
  destruct Ht as (H1 & H2 & H3).
  split_and!; intros [Hx|?]%Hin; try done; by vm_compute in Hx.
Qed.

(** ** Enumerations and authentication *)

Lemma TransportClass_roundtrip c : TransportClass_parse (TransportClass_as_str c) = Ok c.
Proof. by destruct c. Qed.

Lemma ExportMode_roundtrip m : ExportMode_parse (ExportMode_as_str m) = Ok m.
Proof. by destruct m. Qed.

Lemma Protocol_roundtrip p : Protocol_parse (Protocol_as_str p) = Ok p.
Proof. by destruct p. Qed.

Lemma AuthClass_roundtrip c : AuthClass_parse (AuthClass_as_str c) = Ok c.
Proof. by destruct c. Qed.

Lemma AuthClass_parse_Ok value c : AuthClass_parse value = Ok c → value = AuthClass_as_str c.
Proof. unfold AuthClass_parse. repeat case_decide; by intros [= <-]. Qed.

Lemma AuthClass_no_colon c : x3a ∉ AuthClass_as_str c.
Proof. apply contains_false. by destruct c. Qed.

Lemma AuthBoundary_parse_render a : AuthBoundary_validate a = Ok () → AuthBoundary_parse (AuthBoundary_render a) = Ok a.
Proof.
  intros Hv. destruct (decide (a = AuthBoundary_none)) as [->|Hne]; [done|].
  assert (AuthBoundary_render a = AuthClass_as_str (ab_class a) ++ x3a :: ab_details a) as ->.
  { destruct a as [[] [|]]; done. }
  unfold AuthBoundary_parse. rewrite decide_False.
  - rewrite split_once_app by apply AuthClass_no_colon. cbn [ok_or mbind Result_bind].
    rewrite AuthClass_roundtrip. cbn [mbind Result_bind].
    replace (AuthBoundary_mk (ab_class a) (ab_details a)) with a by (by destruct a). by rewrite Hv.
  - intros E. apply (f_equal (contains x3a)) in E. change (contains x3a (bstr "none")) with false in E.
    apply contains_false in E. apply E. apply elem_of_app. right. left.
Qed.

Lemma AuthBoundary_parse_Ok value a :
  AuthBoundary_parse value = Ok a →
  AuthBoundary_validate a = Ok () ∧ (token value → token (AuthBoundary_render a)).
Proof.
  unfold AuthBoundary_parse. case_decide as E.
  - subst. intros [= <-]. done.
  - assert (token (bstr "none")) as Hn by (apply (validate_token_Ok [] _ ()); reflexivity).
    destruct (split_once x3a value) as [[c details]|] eqn:Es; [|done]. cbn [ok_or mbind Result_bind].
    destruct (AuthClass_parse c) as [class|] eqn:Ec; [|done]. cbn [mbind Result_bind].
    destruct (AuthBoundary_validate (AuthBoundary_mk class details)) as [[]|] eqn:Ev; [|done]. intros [= <-].
    split; [done|]. apply split_once_Some in Es as [-> _]. apply AuthClass_parse_Ok in Ec as ->.
    unfold AuthBoundary_render. cbn [ab_class ab_details].
    by destruct class, details; intros Ht; try exact Ht.
Qed.

(** ** Descriptors *)

(** What the types of the fields guarantee, and mount paths as [parse] makes them. *)
Record canonical (d : ExportDescriptor) : Prop := {
  can_pid : is_u32 (ed_pid d);
  can_msize : is_u32 (ed_msize d);
  can_sorted : sorted (extra_fields d);
  can_paths : Forall canonical_path (namespace_mount_paths d);
}.

Lemma check_extensions_Ok m :
  check_extensions m = Ok () ↔
  Forall (λ f, validate_extension_field_name f.1 = Ok () ∧ is_reserved_field f.1 = false) m.
Proof.
  induction m as [|[k v] m IH]; [done|]. rewrite Forall_cons, <- IH. cbn [check_extensions fst].
  destruct (validate_extension_field_name k) as [[]|]; cbn [mbind Result_bind]; [|naive_solver].
  destruct (is_reserved_field k); naive_solver.
Qed.

Lemma render_Ok d text :
  render d = Ok text →
  validate_authority_boundary d = Ok () ∧ (∃ s, session_endpoint d = Ok s) ∧ (∃ o, host_ownership d = Ok o) ∧
  Forall extension_ok (extra_fields d) ∧ Forall field_ok (core_fields d) ∧
  text = text_of (core_fields d ++ extra_fields d).
Proof.
  unfold render. destruct (validate_authority_boundary d) as [[]|]; [|done]. cbn [mbind Result_bind].
  destruct (session_endpoint d) as [s|]; [|done]. destruct (host_ownership d) as [o|]; [|done].
  destruct (check_extensions (extra_fields d)) as [[]|] eqn:Ec; [|done]. cbn [mbind Result_bind].
  intros [Hf ->]%render_fields_Ok. apply check_extensions_Ok in Ec. apply Forall_app in Hf as [Hc He].
  split_and!; eauto. rewrite Forall_forall in Ec, He. apply Forall_forall. intros f Hin.
  split; [by apply He|by apply Ec].
Qed.

(** The key of a field that is looked up is compared with the literal ones. *)
Ltac get_fields :=
  unfold core_fields; cbn [app fields_get];
  repeat first [rewrite decide_True by reflexivity | rewrite decide_False by (intros H; vm_compute in H; discriminate H)].

Lemma core_fields_reserved d : Forall (λ f, is_reserved_field f.1 = true) (core_fields d).
Proof.
  unfold core_fields. repeat (apply Forall_cons_2; [reflexivity|]).
  apply Forall_app_2; [|apply Forall_app_2].
  - destruct (expires_at d); [|done]. apply Forall_cons_2; [reflexivity|done].
  - destruct (local_root_label d); [|done]. apply Forall_cons_2; [reflexivity|done].
  - destruct (namespace_mount_paths d); [done|]. apply Forall_cons_2; [reflexivity|done].
Qed.

Lemma core_fields_nodup d : NoDup ((core_fields d).*1).
Proof.
  assert (∀ l : list bytes, bool_decide (NoDup l) = true → NoDup l) as H by (intros l; apply bool_decide_eq_true_1).
  apply H. unfold core_fields. rewrite !fmap_app.
  destruct (expires_at d), (local_root_label d), (namespace_mount_paths d); reflexivity.
Qed.

Lemma core_fields_optional d :
  fields_get (bstr "expires_at") (core_fields d) = expires_at d ∧
  fields_get (bstr "local_root_label") (core_fields d) = local_root_label d ∧
  fields_get (bstr "namespace_mount_paths") (core_fields d) =
    match namespace_mount_paths d with [] => None | paths => Some (join comma paths) end.
Proof.
  unfold core_fields. destruct (expires_at d), (local_root_label d), (namespace_mount_paths d);
    split_and!; get_fields; reflexivity.
Qed.

(** The fields of a descriptor make the descriptor. *)
Lemma descriptor_of_core d fields :
  canonical d → AuthBoundary_validate (ed_auth d) = Ok () →
  (∀ k, fields !! k = fields_get k (core_fields d)) → descriptor_of fields (extra_fields d) = Ok d.
Proof.
  intros [Hpid Hms _ Hpaths] Hauth Hget. destruct (core_fields_optional d) as (E1 & E2 & E3).
  unfold descriptor_of, required. rewrite !Hget, E1, E2, E3. clear E1 E2 E3 Hget.
  get_fields. cbn [ok_or mbind Result_bind]. rewrite bool_decide_true by done. cbn [negb].
  rewrite TransportClass_roundtrip, ExportMode_roundtrip, Protocol_roundtrip.
  rewrite AuthBoundary_parse_render by done. cbn [mbind Result_bind].
  unfold parse_u32. unfold in_range in *.
  rewrite !parse_uint_dec by (unfold u32_max, u64_max in *; lia). cbn [ok_or mbind Result_bind].
  assert (parse_namespace_mount_paths
    (match namespace_mount_paths d with [] => None | paths => Some (join comma paths) end) =
    Ok (namespace_mount_paths d)) as ->.
  { destruct (namespace_mount_paths d) eqn:Ep; [done|]. by apply parse_mounts_join. }
  by destruct d.
Qed.

Lemma validate_authority_auth d : validate_authority_boundary d = Ok () → AuthBoundary_validate (ed_auth d) = Ok ().
Proof.
  unfold validate_authority_boundary, validate_transport_auth.
  by destruct (AuthBoundary_validate (ed_auth d)) as [[]|].
Qed.

Lemma render_parse d text : canonical d → render d = Ok text → parse text = Ok d.
Proof.
  intros Hc (Hva & [s Hs] & [o Ho] & Hext & Hcore & ->)%render_Ok. unfold parse.
  assert (Forall field_ok (extra_fields d)) as Hef.
  { eapply Forall_impl; [exact Hext|]. by intros f [? _]. }
  rewrite lines_text by (by apply Forall_app). rewrite map_app.
  destruct (parse_reserved_lines 0 (core_fields d) (map line_of (extra_fields d)) ∅ [])
    as (fields & index & -> & Hget); [done|apply core_fields_reserved|apply core_fields_nodup|done|].
  rewrite parse_extension_lines by (done || apply (can_sorted d Hc)). cbn [mbind Result_bind app].
  rewrite descriptor_of_core; [|done|by apply validate_authority_auth|].
  - cbn [mbind Result_bind]. by rewrite Hva, Hs, Ho.
  - intros k. rewrite Hget. by destruct (fields_get k (core_fields d)).
Qed.

(** ** What [parse] accepts can be rendered *)

Record maps_ok (maps : gmap bytes bytes * Fields) : Prop := {
  mo_fields k v : maps.1 !! k = Some v → token v;
  mo_sorted : sorted maps.2;
  mo_extra : Forall extension_ok maps.2;
}.

Lemma parse_line_ok index line maps maps' :
  maps_ok maps → parse_line index line maps = Ok maps' → maps_ok maps'.
Proof.
  intros [Hf Hs He]. unfold parse_line. destruct line as [|b line]; [by intros [= <-]|].
  destruct (split_on tab (b :: line)) as [|k [|v [|]]]; try done.
  destruct (validate_token k k) as [[]|] eqn:Ek; [|done]. destruct (validate_token k v) as [[]|] eqn:Ev; [|done].
  apply validate_token_Ok in Ek, Ev. cbn [mbind Result_bind]. destruct maps as [fields extra]. cbn [fst snd] in *.
  destruct (is_reserved_field k) eqn:Er.
  - destruct (fields !! k); [done|]. intros [= <-]. split; [|done..]. cbn [fst].
    intros k' v' [[<- <-]|[_ ?]]%lookup_insert_Some; [done|by eapply Hf].
  - destruct (validate_extension_field_name k) as [[]|] eqn:En; [|done]. cbn [mbind Result_bind].
    destruct (fields_insert k v extra) as [[|] extra'] eqn:Ei; [done|]. intros [= <-].
    assert (extra' = (fields_insert k v extra).2) as -> by (by rewrite Ei).
    split; [done|by apply fields_insert_sorted|]. apply Forall_forall. cbn [snd].
    intros f [->|Hin]%fields_insert_elem; [done|]. by rewrite Forall_forall in He; apply He.
Qed.

Lemma parse_lines_ok index ls maps maps' :
  maps_ok maps → parse_lines index ls maps = Ok maps' → maps_ok maps'.
Proof.
  revert index maps. induction ls as [|line ls IH]; intros index maps Hm; simpl; [by intros [= <-]|].
  destruct (parse_line index line maps) as [maps1|] eqn:E; [|done]. cbn [mbind Result_bind].
  apply IH. by eapply parse_line_ok.
Qed.

Lemma required_Ok fields field v : required fields field = Ok v → fields !! bstr field = Some v.
Proof. unfold required. destruct (fields !! bstr field); [|done]. by intros [= ->]. Qed.

Lemma bind_Ok {A B} (r : Result A) (f : A → Result B) b :
  mbind f r = Ok b → ∃ a, r = Ok a ∧ f a = Ok b.
Proof. destruct r as [a|]; [|done]. by exists a. Qed.

Lemma dec_token z : 0 ≤ z → token (dec z).
Proof.
  intros Hz. pose proof (dec_is_digits z Hz) as Hd.
  split_and!; apply not_in_digits; try done; intros [H1 H2]; by vm_compute in H1.
Qed.

Lemma literal_token s : validate_token [] (bstr s) = Ok () → token (bstr s).
Proof. by apply validate_token_Ok. Qed.

Lemma core_fields_tokens d :
  token (endpoint_bind d) → token (ed_aname d) → token (ed_uname d) → token (ed_exported_root d) →
  token (AuthBoundary_render (ed_auth d)) → 0 ≤ ed_pid d → 0 ≤ ed_msize d →
  (∀ v, expires_at d = Some v → token v) → (∀ v, local_root_label d = Some v → token v) →
  token (join comma (namespace_mount_paths d)) → Forall field_ok (core_fields d).
Proof.
  intros H1 H2 H3 H4 H5 H6 H7 H8 H9 H10.
  assert (∀ k v, validate_token [] (bstr k) = Ok () → token v → field_ok (bstr k, v)) as Hfield.
  { intros k v Hk Hv. split; [by apply literal_token|done]. }
  unfold core_fields. repeat (apply Forall_cons_2; [apply Hfield; [reflexivity|]|]); try done.
  - by apply literal_token.
  - by destruct (transport_class d); apply literal_token.
  - by destruct (ed_mode d); apply literal_token.
  - by apply dec_token.
  - by destruct (ed_protocol d); apply literal_token.
  - by apply dec_token.
  - apply Forall_app_2; [|apply Forall_app_2].
    + destruct (expires_at d); [|done]. apply Forall_singleton. apply Hfield; auto.
    + destruct (local_root_label d); [|done]. apply Forall_singleton. apply Hfield; auto.
    + destruct (namespace_mount_paths d); [done|]. apply Forall_singleton. by apply Hfield.
Qed.

Definition returns {A} (r : Result A) : Prop := ∃ a, r = Ok a.

(** The fields of a parsed descriptor are tokens. *)
Lemma descriptor_of_Ok fields extra d :
  maps_ok (fields, extra) → descriptor_of fields extra = Ok d →
  canonical d ∧ extra_fields d = extra ∧ Forall field_ok (core_fields d).
Proof.
  intros [Hf Hs He]. cbn [fst snd] in *. unfold descriptor_of.
  intros (format & Hformat%required_Ok & H)%bind_Ok. case_bool_decide; [|done]. cbn [negb] in H. subst format.
  apply bind_Ok in H as (bind & Hbind%required_Ok%Hf & H). apply bind_Ok in H as (aname & Haname%required_Ok%Hf & H).
  apply bind_Ok in H as (uname & Huname%required_Ok%Hf & H). apply bind_Ok in H as (root & Hroot%required_Ok%Hf & H).
  apply bind_Ok in H as (t & _ & H). apply bind_Ok in H as (transport & _ & H).
  apply bind_Ok in H as (m & _ & H). apply bind_Ok in H as (mode & _ & H).
  apply bind_Ok in H as (a & Ha%required_Ok%Hf & H). apply bind_Ok in H as (auth & Hauth & H).
  apply AuthBoundary_parse_Ok in Hauth as [_ Hauth]. specialize (Hauth Ha).
  apply bind_Ok in H as (p & _ & H). apply bind_Ok in H as (pid & Hpid & H).
  apply bind_Ok in H as (pr & _ & H). apply bind_Ok in H as (protocol & _ & H).
  apply bind_Ok in H as (ms & _ & H). apply bind_Ok in H as (msize & Hms & H).
  apply bind_Ok in H as (paths & Hpaths & H). injection H as <-.
  assert (∀ v f n, parse_u32 v f = Ok n → 0 ≤ n ≤ u32_max) as Hu.
  { intros v f n. unfold parse_u32. destruct (parse_uint u32_max v) as [x|] eqn:E; [|done]. intros [= <-].
    apply parse_uint_range in E; [done|done]. }
  apply Hu in Hpid, Hms. split; [split; try done; by eapply parse_mounts_canonical|]. split; [done|].
  apply core_fields_tokens; cbn; try done; try lia; try (intros v; apply Hf).
  unfold parse_namespace_mount_paths in Hpaths.
  destruct (fields !! bstr "namespace_mount_paths") as [v|] eqn:Ev; [|by injection Hpaths as <-; apply (literal_token EmptyString)].
  eapply parse_mounts_token; [exact Hpaths|by eapply Hf].
Qed.

Lemma render_of_Ok d :
  validate_authority_boundary d = Ok () → returns (session_endpoint d) → returns (host_ownership d) →
  Forall extension_ok (extra_fields d) → Forall field_ok (core_fields d) → ∃ text, render d = Ok text.
Proof.
  intros Hv [s Hs] [o Ho] He Hc. exists (text_of (core_fields d ++ extra_fields d)). unfold render.
  rewrite Hv, Hs, Ho. cbn [mbind Result_bind].
  rewrite (proj2 (check_extensions_Ok (extra_fields d))).
  - cbn [mbind Result_bind]. apply render_fields_Ok. split; [|done]. apply Forall_app. split; [done|].
    eapply Forall_impl; [exact He|]. by intros f [? _].
  - eapply Forall_impl; [exact He|]. by intros f [_ ?].
Qed.

Lemma parse_Ok text d :
  parse text = Ok d → canonical d ∧ ∃ text', render d = Ok text'.
Proof.
  unfold parse. intros ([fields extra] & Hl & H)%bind_Ok. apply bind_Ok in H as (d' & Hd & H).
  apply bind_Ok in H as ([] & Hv & H). apply bind_Ok in H as (s & Hs & H). apply bind_Ok in H as (o & Ho & H).
  injection H as ->. apply parse_lines_ok in Hl; [|split; [done|constructor|constructor]].
  destruct (descriptor_of_Ok _ _ _ Hl Hd) as (Hc & He & Hf). split; [done|].
  apply render_of_Ok; [done|by exists s|by exists o| |done]. rewrite He. apply (mo_extra _ Hl).
Qed.

(** C37: an export descriptor survives its text form.  Whatever text [parse] accepts,
    the descriptor it returns can be rendered, and the rendered text parses to the
    same descriptor; and a descriptor built in memory whose mount paths are
    absolute, trimmed and without commas parses back from what [render] returns. *)
Theorem export_descriptor_roundtrip text d :
  (parse text = Ok d → ∃ text', render d = Ok text' ∧ parse text' = Ok d) ∧
  (canonical d → render d = Ok text → parse text = Ok d).
Proof.
  split; [|apply render_parse]. intros [Hc [text' Ht]]%parse_Ok. exists text'. split; [done|].
  by apply render_parse.
Qed.

(** ** The loopback check *)

Lemma read_127 rest octets rest' : read_ipv4 (bstr "127." ++ rest) = Some (octets, rest') → head octets = Some 127.
Proof.
  unfold read_ipv4. change (read_octet 0 (bstr "127." ++ rest)) with (Some (127, x2e :: rest)). cbv iota beta.
  repeat (case_match; try done). by intros [= <- _].
Qed.

Lemma read_loopback_v6 rest :
  read_ipv6 (bstr "::1]:" ++ rest) = Some ([0; 0; 0; 0; 0; 0; 0; 1], bstr "]:" ++ rest).
Proof. reflexivity. Qed.

(** On numeric addresses the check is exact. *)
Lemma loopback_exact bind ip port :
  parse_socket_addr bind = Some (ip, port) → tcp_endpoint_is_loopback bind = ip_is_loopback ip.
Proof.
  intros Hp. unfold tcp_endpoint_is_loopback. rewrite Hp.
  destruct (starts_with (bstr "127.") bind) eqn:E1.
  { apply starts_with_spec in E1 as [rest ->]. simpl orb. symmetry. unfold parse_socket_addr in Hp.
    destruct (read_socket_v4 (bstr "127." ++ rest)) as [[[ip' p'] r]|] eqn:E; [|done].
    unfold read_socket_v4 in E. destruct (read_ipv4 (bstr "127." ++ rest)) as [[octets r']|] eqn:Eo; [|done].
    apply read_127 in Eo. destruct (read_port r') as [[q r'']|]; [|done]. injection E as <- <- <-.
    destruct r''; [|done]. injection Hp as <- <-. simpl. by apply bool_decide_eq_true. }
  destruct (starts_with (bstr "localhost:") bind) eqn:E2.
  { apply starts_with_spec in E2 as [rest ->]. by vm_compute in Hp. }
  destruct (starts_with (bstr "[::1]:") bind) eqn:E3; [|done].
  apply starts_with_spec in E3 as [rest ->]. simpl orb. symmetry. unfold parse_socket_addr in Hp.
  change (read_socket_v4 (bstr "[::1]:" ++ rest)) with (@None (IpAddr * Z * bytes)) in Hp.
  unfold read_socket_v6 in Hp. change (read_given x5b (bstr "[::1]:" ++ rest)) with (Some (bstr "::1]:" ++ rest)) in Hp.
  cbv iota beta in Hp. rewrite read_loopback_v6 in Hp. cbv iota beta in Hp.
  change (read_scope_id (bstr "]:" ++ rest)) with (@None (Z * bytes)) in Hp. cbv iota beta zeta in Hp.
  change (read_given x5d (bstr "]:" ++ rest)) with (Some (x3a :: rest)) in Hp. cbv iota beta in Hp.
  destruct (read_port (x3a :: rest)) as [[q [|]]|]; [|done..]. by injection Hp as <- <-.
Qed.

Lemma unauthenticated_is_loopback bind auth ip port :
  validate_transport_auth Tcp bind auth = Ok () → ab_class auth = AuthNone →
  parse_socket_addr bind = Some (ip, port) → ip_is_loopback ip = true.
Proof.
  unfold validate_transport_auth. intros Hv Ha Hp. apply bind_Ok in Hv as ([] & _ & Hv).
  apply bind_Ok in Hv as ([] & _ & Hv). rewrite Ha, (loopback_exact _ _ _ Hp) in Hv.
  by destruct (ip_is_loopback ip).
Qed.

(** C38: a descriptor that [parse] accepts offers an unauthenticated TCP endpoint,
    for the export itself or for its session, at a loopback address only, for
    every endpoint that is a numeric address. *)
Theorem unauthenticated_exports_are_local text d ip port :
  parse text = Ok d →
  (transport_class d = Tcp → ab_class (ed_auth d) = AuthNone →
     parse_socket_addr (endpoint_bind d) = Some (ip, port) → ip_is_loopback ip = true) ∧
  (∀ e, session_endpoint d = Ok (Some e) → se_transport_class e = Tcp → ab_class (se_auth e) = AuthNone →
     parse_socket_addr (se_endpoint_bind e) = Some (ip, port) → ip_is_loopback ip = true).
Proof.
  unfold parse. intros ([fields extra] & _ & H)%bind_Ok. apply bind_Ok in H as (d' & _ & H).
  apply bind_Ok in H as ([] & Hv & H). apply bind_Ok in H as (s & Hs & H). apply bind_Ok in H as (o & _ & H).
  injection H as ->. split.
  - intros Ht. unfold validate_authority_boundary in Hv. rewrite Ht in Hv. by apply unauthenticated_is_loopback.
  - intros e He Ht. unfold session_endpoint in He. repeat (case_match; try done).
    apply bind_Ok in He as (auth & _ & He). apply bind_Ok in He as ([] & Hval & He). injection He as <-.
    unfold SessionEndpoint_validate in Hval. apply bind_Ok in Hval as ([] & _ & Hval).
    apply bind_Ok in Hval as ([] & _ & Hval). repeat (case_match; try done). cbn in Ht, Hval. rewrite Ht in Hval.
    by apply unauthenticated_is_loopback.
Qed.

(** ** Concrete descriptors *)

Module Descriptors.

(** A read-only export with two mount paths and a session endpoint. *)
Definition exported (bind : bytes) : ExportDescriptor :=
  ExportDescriptor_mk bind (bstr "/") (bstr "codex") (bstr "/") Tcp ReadOnly AuthBoundary_none 42 P9P2000 65536
    None (Some (bstr "/tmp/candidate")) [bstr "/m/one"; bstr "/m/two"]
    [(bstr "session_aname", bstr "s"); (bstr "session_auth", bstr "uds-peercred:1000");
     (bstr "session_endpoint_bind", bstr "unix!/run/s")].

Definition text_exported : bytes :=
  match render (exported (bstr "127.0.0.1:1234")) with Ok text => text | Err _ => [] end.

Lemma exported_canonical : canonical (exported (bstr "127.0.0.1:1234")).
Proof.
  split; [done|done|repeat constructor|].
  assert (∀ p, bool_decide (comma ∉ p) = true → strip_any white_space p = None →
    strip_any (map (@rev byte) white_space) (rev p) = None → (∃ r, p = slash :: r) → p ≠ [slash] → canonical_path p) as H.
  { intros p H1 H2 H3 H4 H5. split; [done|done|by apply bool_decide_eq_true_1 in H1|done]. }
  apply Forall_cons_2; [|apply Forall_singleton]; (apply H; [reflexivity|reflexivity|reflexivity|eexists; vm_compute; reflexivity|intros E; vm_compute in E; discriminate E]).
Qed.

Lemma export_descriptor_roundtrip_witness :
  parse text_exported = Ok (exported (bstr "127.0.0.1:1234")) ∧
  ∃ text', render (exported (bstr "127.0.0.1:1234")) = Ok text' ∧
           parse text' = Ok (exported (bstr "127.0.0.1:1234")).
Proof.
  assert (parse text_exported = Ok (exported (bstr "127.0.0.1:1234"))) as E.
  { apply (export_descriptor_roundtrip text_exported (exported (bstr "127.0.0.1:1234"))).
    - apply exported_canonical.
    - vm_compute. reflexivity. }
  split; [exact E|]. by apply (export_descriptor_roundtrip text_exported).
Defined.

Lemma unauthenticated_exports_are_local_witness :
  parse_socket_addr (bstr "127.0.0.1:1234") = Some (V4 [127; 0; 0; 1], 1234) ∧ ip_is_loopback (V4 [127; 0; 0; 1]) = true.
Proof.
  split; [vm_compute; reflexivity|].
  apply (unauthenticated_exports_are_local text_exported (exported (bstr "127.0.0.1:1234")) (V4 [127; 0; 0; 1]) 1234).
  - vm_compute. reflexivity.
  - reflexivity.
  - reflexivity.
  - vm_compute. reflexivity.
Defined.

(** A mount path with a comma in it is rendered and read back as two paths. *)
Lemma comma_path_is_split :
  ∃ text d, render (ExportDescriptor_mk (bstr "127.0.0.1:1") [] [] [] Tcp ReadOnly AuthBoundary_none 0 P9P2000 0
                      None None [bstr "/a,/b"] []) = Ok text ∧
    parse text = Ok d ∧ namespace_mount_paths d = [bstr "/a"; bstr "/b"].
Proof. do 2 eexists. split; [vm_compute; reflexivity|]. split; vm_compute; reflexivity. Qed.

(** A name that starts with [127.] counts as loopback: the descriptor of an
    unauthenticated export under it is accepted, though it is no address. *)
Lemma name_accepted_as_loopback :
  let d := exported (bstr "127.example.org:564") in
  parse_socket_addr (endpoint_bind d) = None ∧
  ∃ text, render d = Ok text ∧ parse text = Ok d.
Proof. split; [vm_compute; reflexivity|]. eexists.
  split; [vm_compute; reflexivity|vm_compute; reflexivity].
Qed.

End Descriptors.
