(* ===== verification/SessionConfig.v ===== *)
(** How a session reaches and proves itself to a server:
    [crates/session/src/connection_config.rs] and [authority.rs]. *)
From S2P Require Import Prelude Errors Utf8 Text Referral Endpoint ExportDescriptor SessionErrors.

(** The path of the credential's configuration. *)
Record ClientCredential := ClientCredential_mk { cc_config : bytes }.

Definition ClientCredential_new (config : bytes) : SResult ClientCredential :=
  if bool_decide (config = []) then inl (session_error libc.EINVAL "a session credential needs a config path")
  else inr (ClientCredential_mk config).

Record ResponderName := ResponderName_mk { responder_text : bytes }.

Definition ResponderName_new (name : bytes) : SResult ResponderName :=
  match validate_p9any_domain name with
  | Ok _ => inr (ResponderName_mk name)
  | Err e => inl (SessionError_mk libc.EINVAL (display_lossy e))
  end.

Record SessionAuthentication := SessionAuthentication_mk {
  credential : ClientCredential;
  root_responder : option ResponderName;
}.

Definition contained_root (c : ClientCredential) : SessionAuthentication := SessionAuthentication_mk c None.
Definition authenticated_root (c : ClientCredential) (r : ResponderName) : SessionAuthentication :=
  SessionAuthentication_mk c (Some r).
Definition for_responder (responder : ResponderName) (s : SessionAuthentication) : SessionAuthentication :=
  SessionAuthentication_mk (credential s) (Some responder).

Inductive ConnectionAuthentication := Unauthenticated | Authenticated (session : SessionAuthentication).

Definition auth_session (a : ConnectionAuthentication) : option SessionAuthentication :=
  match a with Unauthenticated => None | Authenticated session => Some session end.

Record ConnectionConfig := ConnectionConfig_mk {
  cfg_address : bytes;
  cfg_uname : bytes;
  cfg_aname : bytes;
  cfg_msize : Z;
  cfg_authentication : ConnectionAuthentication;
}.

#[export] Instance ClientCredential_eq_dec : EqDecision ClientCredential.
Proof. solve_decision. Defined.
#[export] Instance ResponderName_eq_dec : EqDecision ResponderName.
Proof. solve_decision. Defined.
#[export] Instance SessionAuthentication_eq_dec : EqDecision SessionAuthentication.
Proof. solve_decision. Defined.
#[export] Instance ConnectionAuthentication_eq_dec : EqDecision ConnectionAuthentication.
Proof. solve_decision. Defined.
#[export] Instance ConnectionConfig_eq_dec : EqDecision ConnectionConfig.
Proof. solve_decision. Defined.

(** ** Sets of candidates *)

Definition MAX_CONNECTION_CANDIDATES : Z := 16.

Definition candidates_contract : string :=
  "9P connection candidates must share one attach and authentication contract".

Definition same_contract (primary candidate : ConnectionConfig) : bool :=
  bool_decide (cfg_uname candidate = cfg_uname primary) && bool_decide (cfg_aname candidate = cfg_aname primary) &&
  (cfg_msize candidate =? cfg_msize primary) &&
  bool_decide (cfg_authentication candidate = cfg_authentication primary).

(** The loop over the candidates, with the addresses seen so far. *)
Fixpoint check_candidates (primary : ConnectionConfig) (addresses : list bytes) (l : list ConnectionConfig) :
    SResult unit :=
  match l with
  | [] => inr ()
  | candidate :: l =>
      if negb (same_contract primary candidate) then inl (session_error libc.EINVAL candidates_contract)
      else if bool_decide (cfg_address candidate ∈ addresses)
      then inl (SessionError_mk libc.EEXIST (bstr "duplicate 9P connection candidate " ++ cfg_address candidate))
      else check_candidates primary (cfg_address candidate :: addresses) l
  end.

Record ConnectionSet := ConnectionSet_mk { candidates : list ConnectionConfig }.

Definition ConnectionSet_new (l : list ConnectionConfig) : SResult ConnectionSet :=
  match l with
  | [] => inl (session_error libc.EINVAL "a 9P connection set needs at least one candidate")
  | primary :: _ =>
      if MAX_CONNECTION_CANDIDATES <? vlen l
      then inl (session_error libc.E2BIG "a 9P connection set supports at most 16 candidates")
      else match check_candidates primary [] l with
           | inl e => inl e
           | inr _ => inr (ConnectionSet_mk l)
           end
  end.

Definition ConnectionSet_single (candidate : ConnectionConfig) : ConnectionSet := ConnectionSet_mk [candidate].

Definition candidate_count (s : ConnectionSet) : Z := vlen (candidates s).

(** ** authority.rs *)

Definition contained_authority (authority_boundary : bytes) : bool :=
  bool_decide (authority_boundary = bstr "loopback") || bool_decide (authority_boundary = bstr "unix_socket") ||
  starts_with (bstr "network_class:") authority_boundary.
