(* ===== verification/NamespaceRouting.v ===== *)
(** Routing in a composed namespace: [crates/session/src/client/namespace/routing.rs]
    and [referral_directory.rs].  A referral says that the paths below its mount are
    served by another server; the routes are the referrals of the root, the longest
    mount first.  A connection is a number, its identity; times are nanoseconds. *)
From stdpp Require Import sorting.
From S2P Require Import Prelude Errors Utf8 Qid Stat Referral Text Endpoint ExportDescriptor SessionErrors NamespaceCache.

Abbreviation NPath := (list bytes).

(** ** routing.rs *)

Record Route := Route_mk { rt_referral : NamespaceReferral; rt_received_at : Z; rt_client : option Z }.

Definition has_client (r : Route) : bool := bool_decide (is_Some (rt_client r)).

Definition is_valid (now : Z) (r : Route) : bool :=
  saturating_sub now (rt_received_at r) <? valid_for_ms (rt_referral r) * 1000000.

Definition protocol_error (e : Error) : SessionError := SessionError_mk libc.EPROTO (display_lossy e).

(** [.map_err(protocol_error)] *)
Definition or_protocol {A} (r : Result A) : SResult A :=
  match r with Ok a => inr a | Err e => inl (protocol_error e) end.

Definition same_route_identity (l r : NamespaceReferral) : bool :=
  bool_decide (mount_path l = mount_path r) && bool_decide (endpoint l = endpoint r) &&
  bool_decide (r_uname l = r_uname r) && bool_decide (r_aname l = r_aname r) &&
  bool_decide (exported_root l = exported_root r) && bool_decide (authority_boundary l = authority_boundary r) &&
  bool_decide (generation l = generation r).

Definition mounts (mount : bytes) (r : Route) : bool := bool_decide (mount_path (rt_referral r) = mount).

(** The connection of the route that is replaced, if it leads to the same place. *)
Definition retained_client (previous : list Route) (r : NamespaceReferral) : option Z :=
  old ← List.find (λ old, same_route_identity (rt_referral old) r) previous;
  rt_client old.

Fixpoint collect_routes (now : Z) (previous : list Route) (referrals : list NamespaceReferral) (routes : list Route) :
    SResult (list Route) :=
  match referrals with
  | [] => inr routes
  | r :: referrals =>
      match or_protocol (validate r) with
      | inl e => inl e
      | inr _ =>
          if existsb (mounts (mount_path r)) routes
          then inl (SessionError_mk libc.EPROTO
                 (bstr "duplicate namespace referral mount path " ++ from_utf8_lossy (mount_path r)))
          else collect_routes now previous referrals (routes ++ [Route_mk r now (retained_client previous r)])
      end
  end.

(** Longer mounts first, then by their bytes. *)
Definition route_le (l r : Route) : Prop :=
  vlen (mount_path (rt_referral r)) < vlen (mount_path (rt_referral l)) ∨
  vlen (mount_path (rt_referral r)) = vlen (mount_path (rt_referral l)) ∧
  bytes_compare (mount_path (rt_referral l)) (mount_path (rt_referral r)) ≠ Gt.

#[export] Instance route_le_dec : RelDecision route_le.
Proof. unfold route_le. intros l r. apply _. Defined.

Definition build_routes (now : Z) (referrals : list NamespaceReferral) (previous : list Route) : SResult (list Route) :=
  match collect_routes now previous referrals [] with
  | inl e => inl e
  | inr routes => inr (merge_sort route_le routes)
  end.

Definition contains_byte (b : byte) (name : bytes) : bool := existsb (λ c, bool_decide (c = b)) name.

Definition validate_path_element (name : bytes) : SResult unit :=
  if bool_decide (name = []) || contains_byte slash name || contains_byte x00 name || (u16_max <? vlen name)
  then inl (session_error libc.EINVAL "invalid 9P path element") else inr ().

(** One name of a walk. *)
Definition walk_name (path : NPath) (name : bytes) : NPath :=
  if bool_decide (name = dot) then path
  else if bool_decide (name = dotdot) then removelast path
  else path ++ [name].

Fixpoint apply_walk (path : NPath) (names : list bytes) : SResult NPath :=
  match names with
  | [] => inr path
  | name :: names =>
      match validate_path_element name with
      | inl e => inl e
      | inr _ => apply_walk (walk_name path name) names
      end
  end.

Definition parse_element (name : bytes) : SResult bytes :=
  match validate_path_element name with
  | inl e => inl e
  | inr _ =>
      if bool_decide (name = dot) || bool_decide (name = dotdot)
      then inl (session_error libc.EINVAL "namespace path must be canonical") else inr name
  end.

Fixpoint parse_elements (names : list bytes) : SResult NPath :=
  match names with
  | [] => inr []
  | name :: names =>
      match parse_element name with
      | inl e => inl e
      | inr name => match parse_elements names with inl e => inl e | inr path => inr (name :: path) end
      end
  end.

Definition parse_namespace_path (path : bytes) : SResult NPath :=
  if bool_decide (path = [slash]) then inr []
  else
    let path := default path (strip_prefix [slash] path) in
    if bool_decide (path = []) || ends_with_slash path then inl (session_error libc.EINVAL "invalid namespace path")
    else parse_elements (split_on slash path).

Definition render_namespace_path (path : NPath) : bytes :=
  match path with [] => [slash] | _ => concat (map (cons slash) path) end.

Definition ROOT_FID : Z := 1.
Definition FIRST_DYNAMIC_FID : Z := ROOT_FID + 1.

Definition text_field (field : string) (value : bytes) : SResult bytes :=
  some_or (from_utf8 value)
    (SessionError_mk libc.EPROTO (bstr "namespace referral " ++ bstr field ++ bstr " is not UTF-8")).

Definition next_fid (fid : Z) : Z := default FIRST_DYNAMIC_FID (checked_add u32_max fid 1).

Definition DEFAULT_REFERRAL_TIMEOUT : Z := 5000000000.

Definition bounded_referral_timeout (timeout : Z) : Z :=
  if timeout =? 0 then DEFAULT_REFERRAL_TIMEOUT else Z.min timeout DEFAULT_REFERRAL_TIMEOUT.

Definition route_connect_timeout (operation configured : Z) : Z :=
  match operation =? 0, configured =? 0 with
  | false, false => Z.min operation configured
  | false, true => operation
  | true, false => configured
  | true, true => 0
  end.

(** ** referral_directory.rs *)

Module ReferralDirectory.

Definition SYNTHETIC_QID_BIT : Z := Z.shiftl 1 63.
Definition FNV_OFFSET_BASIS : Z := 0xcbf29ce484222325.
Definition FNV_PRIME : Z := 0x100000001b3.

(** [namespace_path.iter().zip(&mount).all(..)] *)
Fixpoint zip_equal (l r : NPath) : bool :=
  match l, r with
  | a :: l, b :: r => bool_decide (a = b) && zip_equal l r
  | _, _ => true
  end.

Definition immediate_child (path : NPath) (mount : bytes) : option bytes :=
  match parse_namespace_path mount with
  | inl _ => None
  | inr mount =>
      if (vlen mount <=? vlen path) || negb (zip_equal path mount) then None
      else mount !! length path
  end.

Definition is_ancestor (path : NPath) (mounts : list bytes) : bool :=
  existsb (λ mount, bool_decide (is_Some (immediate_child path mount))) mounts.

Definition hash_byte (hash : Z) (b : byte) : Z := (Z.lxor hash (byte_to_Z b) * FNV_PRIME) `mod` (u64_max + 1).

Definition qid (path : NPath) : Qid :=
  Qid_dir (Z.lor (foldl hash_byte FNV_OFFSET_BASIS (render_namespace_path path)) SYNTHETIC_QID_BIT).

Definition stat (path : NPath) : Stat :=
  Stat_new (default dot (last path)) (qid path) (Z.lor DMDIR 0x16d).

Definition name_le (a b : bytes) : Prop := bytes_compare a b ≠ Gt.

#[export] Instance name_le_dec : RelDecision name_le.
Proof. unfold name_le. intros a b. apply _. Defined.

(** The names of a [BTreeSet]. *)
Definition child_names (path : NPath) (mounts : list bytes) : list bytes :=
  merge_sort name_le (elements (list_to_set (omap (immediate_child path) mounts) : gset bytes)).

Definition entries (path : NPath) (mounts : list bytes) : list Stat :=
  map (λ name, Stat_new name (qid (path ++ [name])) (Z.lor DMDIR 0x16d)) (child_names path mounts).

Definition read (path : NPath) (mounts : list bytes) (offset count : Z) : SResult bytes :=
  or_protocol (dirread_chunk (entries path mounts) offset count).

Definition read_only_error : SessionError := session_error libc.EROFS "namespace referral directories are read-only".
Definition directory_operation_error : SessionError :=
  session_error libc.EISDIR "operation is not valid on a namespace referral directory".

End ReferralDirectory.
