(* ===== verification/NamespaceRoutingProps.v ===== *)
(** The routes of a composed namespace and its paths: lemmas on NamespaceRouting.v. *)
From stdpp Require Import sorting.
From S2P Require Import Prelude Errors Qid Stat Utf8 Referral Text Endpoint ExportDescriptor ExportDescriptorProps SessionErrors NamespaceCache NamespaceRouting.

(** ** Path elements *)

Definition elem_ok (name : bytes) : Prop :=
  name ≠ [] ∧ (slash ∉ name) ∧ (x00 ∉ name) ∧ vlen name ≤ u16_max.

(** An element a path can be written with. *)
Definition canonical (name : bytes) : Prop := elem_ok name ∧ name ≠ dot ∧ name ≠ dotdot.

Lemma contains_byte_false b name : contains_byte b name = false ↔ b ∉ name.
Proof.
  unfold contains_byte. rewrite <- not_true_iff_false, existsb_exists. split.
  - intros H Hin. apply H. exists b. split; [by apply list_elem_of_In|by apply bool_decide_eq_true].
  - intros H (x & Hin%list_elem_of_In & Hx%bool_decide_eq_true). by subst.
Qed.

Lemma validate_path_element_ok name : validate_path_element name = inr () ↔ elem_ok name.
Proof.
  unfold validate_path_element, elem_ok.
  destruct (bool_decide_reflect (name = [])); simpl; [split; [done|naive_solver]|].
  destruct (contains_byte slash name) eqn:E1; simpl.
  { split; [done|]. intros (_ & H & _). by apply contains_byte_false in H; rewrite H in E1. }
  destruct (contains_byte x00 name) eqn:E2; simpl.
  { split; [done|]. intros (_ & _ & H & _). by apply contains_byte_false in H; rewrite H in E2. }
  apply contains_byte_false in E1, E2. destruct (u16_max <? vlen name) eqn:E3; simpl; split; try done.
  - intros (_ & _ & _ & ?). lia.
  - intros _. split_and!; try done. lia.
Qed.

Lemma validate_path_element_err name e : validate_path_element name = inl e → errno e = libc.EINVAL ∧ ¬ elem_ok name.
Proof.
  intros H. split.
  - unfold validate_path_element in H. case_match; by simplify_eq/=.
  - rewrite <- validate_path_element_ok. congruence.
Qed.

Lemma parse_element_ok name x : parse_element name = inr x ↔ x = name ∧ canonical name.
Proof.
  unfold parse_element, canonical. destruct (validate_path_element name) as [e|[]] eqn:E.
  - apply validate_path_element_err in E. naive_solver.
  - apply validate_path_element_ok in E.
    destruct (bool_decide_reflect (name = dot)), (bool_decide_reflect (name = dotdot)); simpl; naive_solver.
Qed.

Lemma parse_element_canonical name : parse_element name = inr name → canonical name.
Proof. by intros [_ ?]%parse_element_ok. Qed.

Lemma parse_elements_ok names path : parse_elements names = inr path ↔ path = names ∧ Forall canonical names.
Proof.
  revert path. induction names as [|n names IH]; intros path; simpl; [naive_solver|].
  destruct (parse_element n) as [e|x] eqn:E.
  - split; [done|]. intros [_ H]. apply Forall_cons in H as [H _].
    assert (parse_element n = inr n) by (by apply parse_element_ok). congruence.
  - apply parse_element_ok in E as [-> Hn]. destruct (parse_elements names) as [e|p] eqn:E.
    + split; [done|]. intros [_ H]. apply Forall_cons in H as [_ H].
      destruct (IH names) as [_ IH']. specialize (IH' (conj eq_refl H)). congruence.
    + destruct (IH p) as [IH1 _]. destruct (IH1 eq_refl) as [-> Hnames]. rewrite Forall_cons. naive_solver.
Qed.

Lemma elem_ok_noslash path : Forall elem_ok path → Forall (λ s, slash ∉ s) path.
Proof. intros H. eapply Forall_impl; [exact H|]. by intros x (_ & ? & _). Qed.

Lemma canonical_elem_ok path : Forall canonical path → Forall elem_ok path.
Proof. intros H. eapply Forall_impl; [exact H|]. by intros x [? _]. Qed.

(** ** Paths and their text *)

Lemma render_namespace_path_eq path : render_namespace_path path = path_of path.
Proof. done. Qed.

Lemma ends_with_slash_elements path :
  path ≠ [] → Forall elem_ok path → ends_with_slash (join_segments path) = false.
Proof.
  intros Hne H. apply ends_with_slash_join; [done|]. eapply Forall_impl; [exact H|]. by intros x (? & ? & _).
Qed.

(** The text without its first slash splits into the path. *)
Lemma relative_text name path :
  Forall elem_ok (name :: path) →
  split_on slash (name ++ join_segments path) = name :: path ∧ name ++ join_segments path ≠ [] ∧
  ends_with_slash (name ++ join_segments path) = false.
Proof.
  intros H. pose proof H as [(Hn & Hs & _) Hp]%Forall_cons. split_and!.
  - apply split_on_join; [done|by apply elem_ok_noslash].
  - destruct name; [by destruct Hn|done].
  - pose proof (ends_with_slash_elements (name :: path) ltac:(done) H) as E.
    change (join_segments (name :: path)) with (slash :: name ++ join_segments path) in E.
    unfold ends_with_slash in *. rewrite last_cons in E. destruct (last (name ++ join_segments path)) eqn:El; [done|].
    apply last_None in El. by destruct name; [destruct Hn|].
Qed.

Lemma parse_relative name path :
  Forall canonical (name :: path) →
  (let p := name ++ join_segments path in
   if bool_decide (p = []) || ends_with_slash p then inl (session_error libc.EINVAL "invalid namespace path")
   else parse_elements (split_on slash p)) = inr (name :: path).
Proof.
  intros H. destruct (relative_text name path) as (E1 & E2 & E3); [by apply canonical_elem_ok|].
  simpl. rewrite bool_decide_false, E3, E1 by done. by apply parse_elements_ok.
Qed.

(** The path is read from its text, with or without the first slash. *)
Lemma parse_namespace_path_of name path :
  Forall canonical (name :: path) →
  parse_namespace_path (path_of (name :: path)) = inr (name :: path) ∧
  parse_namespace_path (name ++ join_segments path) = inr (name :: path).
Proof.
  intros H. pose proof (parse_relative name path H) as E. apply Forall_cons in H as [[(Hn & Hs & _) _] _].
  assert (∀ rest, name ++ rest ≠ [slash]) as Hne.
  { intros rest Eq. destruct name as [|b [|]]; [by destruct Hn| |done]. injection Eq as -> _. apply Hs. by left. }
  change (path_of (name :: path)) with ([slash] ++ (name ++ join_segments path)).
  unfold parse_namespace_path. split.
  - rewrite bool_decide_false.
    2:{ intros [= Eq]. by destruct name; [destruct Hn|]. }
    rewrite (proj2 (strip_prefix_Some _ _ _)) by done. exact E.
  - rewrite bool_decide_false by done. destruct (strip_prefix _ _) as [rest|] eqn:Ep; [|exact E].
    apply strip_prefix_Some in Ep. destruct name as [|b name]; [by destruct Hn|].
    injection Ep as -> _. destruct Hs. by left.
Qed.

(** The parser accepts exactly the texts of canonical paths. *)
Lemma parse_namespace_path_ok text path :
  parse_namespace_path text = inr path ↔
  Forall canonical path ∧ (text = path_of path ∨ path ≠ [] ∧ slash :: text = path_of path).
Proof.
  split.
  - unfold parse_namespace_path. case_bool_decide as Hr; [intros [= <-]; subst; by split; [|left]|].
    set (rel := default text (strip_prefix [slash] text)). intros E.
    destruct (bool_decide_reflect (rel = [])) as [|Hne]; [done|].
    destruct (ends_with_slash rel) eqn:Ee; [done|]. simpl in E. apply parse_elements_ok in E as [-> H].
    destruct (split_on_spec rel) as (s0 & segs & Es & Erel & _). rewrite Es in *. split; [done|].
    subst rel. destruct (strip_prefix [slash] text) as [rest|] eqn:Ep; unfold default, id in Erel.
    + left. apply strip_prefix_Some in Ep. by rewrite Ep, Erel.
    + right. split; [done|]. by rewrite Erel.
  - intros (H & Ht). destruct path as [|name path].
    + destruct Ht as [->|[? _]]; done.
    + destruct (parse_namespace_path_of name path H) as [H1 H2].
      destruct Ht as [->|[_ Ht]]; [done|]. by injection Ht as ->.
Qed.

(** ** Walks *)

Lemma apply_walk_ok path names path' :
  Forall elem_ok path → apply_walk path names = inr path' → Forall elem_ok path'.
Proof.
  revert path. induction names as [|n names IH]; intros path H E; simpl in E; [by injection E as <-|].
  destruct (validate_path_element n) as [|[]] eqn:Ev; [done|]. apply validate_path_element_ok in Ev.
  eapply IH; [|exact E]. unfold walk_name. case_bool_decide; [done|]. case_bool_decide.
  - rewrite removelast_firstn_len. by apply Forall_take.
  - apply Forall_app. by rewrite Forall_singleton.
Qed.

(** ** The routes *)

Record route_of (now : Z) (previous : list Route) (r : NamespaceReferral) (route : Route) : Prop := {
  ro_referral : rt_referral route = r;
  ro_received : rt_received_at route = now;
  ro_client : rt_client route = retained_client previous r;
  ro_valid : validate r = Ok ();
}.

Lemma retained_client_Some previous r c :
  retained_client previous r = Some c →
  ∃ old, old ∈ previous ∧ same_route_identity (rt_referral old) r = true ∧ rt_client old = Some c.
Proof.
  unfold retained_client. destruct (List.find _ previous) as [old|] eqn:E; [|done]. simpl. intros Hc.
  apply List.find_some in E as [Hin Hs]. exists old. by rewrite list_elem_of_In.
Qed.

Lemma same_route_identity_eq l r :
  same_route_identity l r = true →
  mount_path l = mount_path r ∧ endpoint l = endpoint r ∧ r_uname l = r_uname r ∧ r_aname l = r_aname r ∧
  exported_root l = exported_root r ∧ authority_boundary l = authority_boundary r ∧ generation l = generation r.
Proof. unfold same_route_identity. rewrite !andb_true_iff, !bool_decide_eq_true. tauto. Qed.

Lemma mounts_existsb mount routes :
  existsb (mounts mount) routes = false → mount ∉ map (mount_path ∘ rt_referral) routes.
Proof.
  intros E Hin. apply not_true_iff_false in E. apply E. apply list_elem_of_In, in_map_iff in Hin as (r & Hr & Hin).
  apply existsb_exists. exists r. split; [done|]. by apply bool_decide_eq_true.
Qed.

Lemma collect_routes_spec now previous rs acc routes :
  collect_routes now previous rs acc = inr routes → NoDup (map (mount_path ∘ rt_referral) acc) →
  ∃ new, routes = acc ++ new ∧ Forall2 (route_of now previous) rs new ∧
    NoDup (map (mount_path ∘ rt_referral) routes).
Proof.
  revert acc. induction rs as [|r rs IH]; intros acc E Hd; simpl in E.
  { injection E as <-. exists []. by rewrite app_nil_r. }
  destruct (validate r) as [[]|] eqn:Ev; [|done]. simpl in E.
  destruct (existsb _ acc) eqn:Em; [done|]. apply mounts_existsb in Em.
  apply IH in E as (new & -> & H2 & Hd').
  - eexists (_ :: new). rewrite <- app_assoc in *. split; [done|]. split; [|done]. by constructor.
  - rewrite map_app. apply NoDup_app. split_and!; [done| |apply NoDup_singleton].
    intros x Hx ->%list_elem_of_singleton. done.
Qed.

(** The order of texts. *)
Abbreviation name_le := ReferralDirectory.name_le.

Lemma name_le_refl a : name_le a a.
Proof. unfold ReferralDirectory.name_le. by rewrite (proj2 (bytes_compare_eq a a)). Qed.

#[export] Instance name_le_trans : Transitive name_le.
Proof.
  intros a b c H1 H2. unfold ReferralDirectory.name_le in *.
  destruct (bytes_compare a b) eqn:E1; [apply bytes_compare_eq in E1 as ->; done| |done].
  destruct (bytes_compare b c) eqn:E2; [apply bytes_compare_eq in E2 as ->; congruence| |done].
  by rewrite (bytes_compare_trans _ _ _ E1 E2).
Qed.

#[export] Instance name_le_total : Total name_le.
Proof.
  intros a b. unfold ReferralDirectory.name_le. rewrite (bytes_compare_antisym a b). destruct (bytes_compare a b); simpl; auto.
Qed.

#[export] Instance route_le_trans : Transitive route_le.
Proof.
  intros a b c. unfold route_le. fold (name_le (mount_path (rt_referral a)) (mount_path (rt_referral b))).
  fold (name_le (mount_path (rt_referral b)) (mount_path (rt_referral c))).
  fold (name_le (mount_path (rt_referral a)) (mount_path (rt_referral c))).
  intros [?|[? H1]] [?|[? H2]]; [left; lia..|]. right. split; [lia|]. by eapply name_le_trans.
Qed.

#[export] Instance route_le_total : Total route_le.
Proof.
  intros a b. unfold route_le. set (x := mount_path (rt_referral a)). set (y := mount_path (rt_referral b)).
  destruct (Z.lt_trichotomy (vlen x) (vlen y)) as [?|[E|?]]; [right; by left| |left; by left].
  destruct (name_le_total x y); [left|right]; right; auto.
Qed.

Definition mounts_of (routes : list Route) : list bytes := map (mount_path ∘ rt_referral) routes.

(** What a table of routes is, whatever the connections. *)
Record routes_ok (routes : list Route) : Prop := {
  rs_valid : Forall (λ r, validate (rt_referral r) = Ok ()) routes;
  rs_mounts : NoDup (mounts_of routes);
  rs_sorted : StronglySorted route_le routes;
}.

Lemma build_routes_spec now rs previous routes :
  build_routes now rs previous = inr routes →
  routes_ok routes ∧ ∃ unsorted, routes ≡ₚ unsorted ∧ Forall2 (route_of now previous) rs unsorted.
Proof.
  unfold build_routes. destruct (collect_routes _ _ _ _) as [|l] eqn:E; [done|]. intros [= <-].
  apply collect_routes_spec in E as (new & -> & H2 & Hd); [|constructor]. simpl in *.
  pose proof (merge_sort_Permutation route_le new) as Hp. split; [|by exists new]. constructor.
  - rewrite Hp. clear -H2. induction H2 as [|r route rs new H H2 IH]; constructor; [|done].
    by destruct H as [-> _ _ ?].
  - unfold mounts_of. by rewrite Hp.
  - apply (StronglySorted_merge_sort route_le).
Qed.

Lemma build_routes_route now rs previous routes route :
  build_routes now rs previous = inr routes → route ∈ routes →
  rt_referral route ∈ rs ∧ route_of now previous (rt_referral route) route.
Proof.
  intros (_ & l & Hp & H2)%build_routes_spec Hin. rewrite Hp in Hin. clear Hp.
  induction H2 as [|r x rs l H H2 IH]; [by apply not_elem_of_nil in Hin|].
  apply elem_of_cons in Hin as [->|Hin].
  - pose proof H as [E _ _ _]. rewrite E. split; [by left|done].
  - destruct (IH Hin). split; [by right|done].
Qed.

(** The duplicate mounts and the invalid referrals are what is refused. *)
Lemma build_routes_total now rs previous :
  Forall (λ r, validate r = Ok ()) rs → NoDup (map mount_path rs) → is_Some (
    match build_routes now rs previous with inr routes => Some routes | inl _ => None end).
Proof.
  intros Hv Hd. unfold build_routes.
  enough (∀ acc, (∀ m, m ∈ map mount_path rs → m ∉ mounts_of acc) → ∃ l, collect_routes now previous rs acc = inr l)
    as H. { destruct (H []) as [l ->]; [|by eexists]. intros m _ Hm. by apply not_elem_of_nil in Hm. }
  induction rs as [|r rs IH]; intros acc Hacc; [by eexists|]. simpl.
  apply Forall_cons in Hv as [-> Hv]. apply NoDup_cons in Hd as [Hr Hd]. simpl.
  destruct (existsb _ acc) eqn:Ee.
  - exfalso. apply (Hacc (mount_path r)); [by left|]. apply existsb_exists in Ee as (x & Hin & Hx%bool_decide_eq_true).
    apply list_elem_of_In, in_map_iff. by exists x.
  - apply IH; [done..|]. intros m Hm. unfold mounts_of. rewrite map_app. intros [Hin|Hin]%elem_of_app.
    + apply (Hacc m); [by right|done].
    + apply list_elem_of_singleton in Hin as ->. done.
Qed.

(** ** Which route a path takes *)

(** The mount is a path of at least one element, the exported root is a path. *)
Definition mount_segs (r : Route) (ms : NPath) : Prop :=
  mount_path (rt_referral r) = path_of ms ∧ ms ≠ [] ∧ Forall seg_ok ms.

Lemma valid_mount r : validate (rt_referral r) = Ok () → ∃ ms, mount_segs r ms.
Proof. intros (ms & rs & ? & _ & ? & ? & _)%validate_paths. by exists ms. Qed.

Lemma mounted_iff r ms path :
  mount_segs r ms → Forall elem_ok path →
  is_Some (mounted_suffix (render_namespace_path path) (mount_path (rt_referral r))) ↔ ms `prefix_of` path.
Proof.
  intros (-> & Hne & Hms) Hp. rewrite render_namespace_path_eq. split.
  - intros [suffix H]. apply mounted_suffix_iff in H as (rest & -> & _); [|done|done|by apply elem_ok_noslash].
    by exists rest.
  - intros [rest ->]. exists (join_segments rest).
    apply mounted_suffix_iff; [done|done|by apply elem_ok_noslash|]. by exists rest.
Qed.

(** A longer prefix of a path is written with more bytes. *)
Lemma longer_prefix (ms ms' path : NPath) :
  ms `prefix_of` path → ms' `prefix_of` path → ms ≠ [] → ms' ≠ [] →
  vlen (path_of ms') ≤ vlen (path_of ms) → ms' `prefix_of` ms.
Proof.
  intros H1 H2 Hne Hne' Hlen. destruct (prefix_weak_total ms ms' path H1 H2) as [[rest ->]|]; [|done].
  rewrite path_of_app in Hlen by done. destruct rest as [|x rest]; [by rewrite app_nil_r|]. exfalso.
  replace (path_of ms) with (join_segments ms) in Hlen by by destruct ms.
  unfold join_segments in Hlen at 2. unfold vlen in Hlen. rewrite length_app in Hlen. simpl in Hlen. lia.
Qed.

(** The route that is found is the one with the longest mount. *)
Lemma find_longest routes path i r :
  routes_ok routes → Forall elem_ok path →
  list_find (λ r, is_Some (mounted_suffix (render_namespace_path path) (mount_path (rt_referral r)))) routes =
    Some (i, r) →
  routes !! i = Some r ∧ ∃ ms, mount_segs r ms ∧ ms `prefix_of` path ∧
    ∀ r' ms', r' ∈ routes → mount_segs r' ms' → ms' `prefix_of` path → ms' `prefix_of` ms.
Proof.
  intros Hok Hp (Hi & Hm & Hbefore)%list_find_Some. split; [done|].
  pose proof (rs_valid _ Hok) as Hv. rewrite Forall_forall in Hv.
  destruct (valid_mount r) as [ms Hms]; [by eapply Hv, list_elem_of_lookup_2|].
  exists ms. apply (mounted_iff r ms path Hms Hp) in Hm. split; [done|split; [done|]].
  intros r' ms' Hin Hms' Hm'. apply list_elem_of_lookup in Hin as [j Hj].
  destruct (Nat.lt_trichotomy j i) as [Hlt|[->|Hlt]].
  - exfalso. apply (Hbefore _ _ Hj Hlt). by apply (mounted_iff r' ms').
  - simplify_eq. destruct Hms as (E & ? & ?), Hms' as (E' & ? & ?).
    by eapply longer_prefix; [exact Hm|..]; rewrite <- ?E, <- ?E'.
  - assert (route_le r r') as Hle.
    { pose proof (rs_sorted _ Hok) as Hs. rewrite <- (take_drop (S i) routes) in Hs.
      apply (StronglySorted_app_1_elem_of _ _ _ _ _ Hs).
      - apply (list_elem_of_lookup_2 _ i). rewrite lookup_take_lt by lia. done.
      - apply (list_elem_of_lookup_2 _ (j - S i)). rewrite lookup_drop. by replace (S i + (j - S i))%nat with j by lia. }
    destruct Hms as (E & ? & ?), Hms' as (E' & ? & ?).
    eapply longer_prefix; [exact Hm|done..|]. rewrite <- E, <- E'. destruct Hle as [?|[? _]]; lia.
Qed.

Lemma find_none routes path :
  routes_ok routes → Forall elem_ok path →
  list_find (λ r, is_Some (mounted_suffix (render_namespace_path path) (mount_path (rt_referral r)))) routes = None →
  ∀ r ms, r ∈ routes → mount_segs r ms → ¬ ms `prefix_of` path.
Proof.
  intros Hok Hp H%list_find_None r ms Hin Hms Hm. rewrite Forall_forall in H.
  apply (H r Hin). by apply (mounted_iff r ms).
Qed.

(** ** Referral directories *)

Lemma zip_equal_prefix (path ms : NPath) :
  (length path ≤ length ms)%nat → ReferralDirectory.zip_equal path ms = true ↔ path `prefix_of` ms.
Proof.
  revert ms. induction path as [|x path IH]; intros [|y ms] Hl; simpl in *; try lia.
  - split; [|done]. intros _. by exists [].
  - split; [|done]. intros _. by exists (y :: ms).
  - rewrite andb_true_iff, bool_decide_eq_true, IH by lia. split.
    + intros [-> [rest ->]]. by exists rest.
    + intros [rest [= -> ->]]. split; [done|by exists rest].
Qed.

Lemma immediate_child_iff path ms name :
  Forall canonical ms →
  ReferralDirectory.immediate_child path (path_of ms) = Some name ↔ ∃ rest, ms = path ++ name :: rest.
Proof.
  intros Hc. unfold ReferralDirectory.immediate_child.
  rewrite (proj2 (parse_namespace_path_ok (path_of ms) ms)) by (split; [done|by left]).
  destruct (vlen ms <=? vlen path) eqn:El; simpl.
  { split; [done|]. intros (rest & ->). apply Z.leb_le in El. unfold vlen in El. rewrite length_app, length_cons in El. lia. }
  assert (length path < length ms)%nat as Hlt by (apply Z.leb_gt in El; unfold vlen in El; lia).
  destruct (ReferralDirectory.zip_equal path ms) eqn:Ez; simpl.
  - apply zip_equal_prefix in Ez as [rest ->]; [|lia]. destruct rest as [|x rest]; [rewrite app_nil_r in Hlt; lia|].
    rewrite list_lookup_middle by done. split; [intros [= ->]; by exists rest|].
    intros (rest' & E). by simplify_list_eq.
  - split; [done|]. intros (rest & ->). apply not_true_iff_false in Ez. destruct Ez. apply zip_equal_prefix; [lia|by eexists].
Qed.

(** A directory that exists only because referrals are mounted below it lists
    exactly the next elements of those mounts: each once, in the order of their bytes,
    as directories; and a missing path is such a directory exactly when the list is
    not empty. *)
Theorem referral_directory_lists_mounts path (mss : list NPath) :
  Forall (Forall canonical) mss →
  let listed := st_name <$> ReferralDirectory.entries path (path_of <$> mss) in
  NoDup listed ∧ StronglySorted name_le listed ∧
  (∀ name, name ∈ listed ↔ ∃ rest, path ++ name :: rest ∈ mss) ∧
  Forall (λ st, is_dir (st_qid st) = true) (ReferralDirectory.entries path (path_of <$> mss)) ∧
  (ReferralDirectory.is_ancestor path (path_of <$> mss) = true ↔ listed ≠ []).
Proof.
  intros Hc. set (mounts := path_of <$> mss).
  assert (st_name <$> ReferralDirectory.entries path mounts = ReferralDirectory.child_names path mounts) as Enames.
  { unfold ReferralDirectory.entries. generalize (ReferralDirectory.child_names path mounts). intros l.
    change (map ?f ?l) with (f <$> l). rewrite <- list_fmap_compose. apply list_fmap_id. }
  simpl. rewrite Enames.
  assert (∀ name, name ∈ ReferralDirectory.child_names path mounts ↔
    ∃ m, m ∈ mounts ∧ ReferralDirectory.immediate_child path m = Some name) as Hin.
  { intros name. unfold ReferralDirectory.child_names. rewrite merge_sort_Permutation, elem_of_elements.
    by rewrite elem_of_list_to_set, list_elem_of_omap. }
  assert (∀ name, name ∈ ReferralDirectory.child_names path mounts ↔ ∃ rest, path ++ name :: rest ∈ mss) as Hiff.
  { intros name. rewrite Hin. rewrite Forall_forall in Hc. split.
    - intros (m & (ms & -> & Hms)%list_elem_of_fmap & Hi). apply immediate_child_iff in Hi as (rest & ->); [|by apply Hc].
      by exists rest.
    - intros (rest & Hms). exists (path_of (path ++ name :: rest)). split; [by apply list_elem_of_fmap_2|].
      apply immediate_child_iff; [by apply Hc|by exists rest]. }
  split_and!.
  - unfold ReferralDirectory.child_names. rewrite merge_sort_Permutation. apply NoDup_elements.
  - apply (StronglySorted_merge_sort name_le).
  - done.
  - unfold ReferralDirectory.entries. apply Forall_forall. intros st Hst.
    apply list_elem_of_In, in_map_iff in Hst as (x & <- & _). done.
  - unfold ReferralDirectory.is_ancestor. rewrite existsb_exists. split.
    + intros (m & Hm%list_elem_of_In & [name Hn]%bool_decide_eq_true) Enil.
      assert (name ∈ ReferralDirectory.child_names path mounts) as Hx by (apply Hin; by exists m).
      rewrite Enil in Hx. by apply not_elem_of_nil in Hx.
    + intros Hne. destruct (ReferralDirectory.child_names path mounts) as [|name l] eqn:El; [done|].
      destruct (proj1 (Hin name)) as (m & Hm & Hi); [by left|]. exists m. split; [by apply list_elem_of_In|].
      apply bool_decide_eq_true. by exists name.
Qed.

(** The text of a namespace path and its elements are inverse: a path of valid
    elements is read back from its text; and what the parser accepts is such a path,
    whose text is the one that was read, or that text with its first slash. *)
Theorem namespace_path_roundtrip (path : NPath) (text : bytes) :
  (Forall canonical path → parse_namespace_path (render_namespace_path path) = inr path) ∧
  (parse_namespace_path text = inr path →
   Forall canonical path ∧ (text = render_namespace_path path ∨ slash :: text = render_namespace_path path)).
Proof.
  rewrite render_namespace_path_eq. split.
  - intros Hc. apply parse_namespace_path_ok. split; [done|by left].
  - intros [Hc [->|[_ E]]]%parse_namespace_path_ok; auto.
Qed.

Lemma referral_directory_lists_mounts_witness :
  (st_name <$> ReferralDirectory.entries [bstr "agents"]
     (path_of <$> [[bstr "agents"; bstr "runtime"; bstr "m7"]; [bstr "agents"; bstr "runtime"; bstr "nucbox"];
                   [bstr "agents"; bstr "profile"]; [bstr "other"]])) = [bstr "profile"; bstr "runtime"] ∧
  NoDup (st_name <$> ReferralDirectory.entries [bstr "agents"]
     (path_of <$> [[bstr "agents"; bstr "runtime"; bstr "m7"]; [bstr "agents"; bstr "runtime"; bstr "nucbox"];
                   [bstr "agents"; bstr "profile"]; [bstr "other"]])).
Proof.
  split; [vm_compute; reflexivity|]. apply referral_directory_lists_mounts.
  repeat first [apply Forall_nil_2|apply Forall_cons_2|apply parse_element_canonical; vm_compute; reflexivity].
Defined.
