(* ===== verification/NamespaceClient.v ===== *)
(** The client of a composed namespace: [crates/session/src/client/direct.rs],
    [namespace.rs], [namespace/operations.rs] and [paths.rs].

    A [DirectClient] is a number, the identity of its connection; [Connections]
    says what the client has of the connections: each is a multiplexed client
    ([Caller] of MultiplexClient.v), a stream can be dialled, there is a clock.
    The calls of one [Client] are taken one at a time; no lock is poisoned.

    A pair of Rust functions [f] and [f_timeout] is one definition with an optional
    timeout. *)
From S2P Require Import Prelude Errors Qid Stat Utf8 Referral Codec FrameIO ClientSupport Blocking MultiplexClient.
From S2P Require Import NamespaceCache Text SessionErrors Endpoint ExportDescriptor SessionConfig NamespaceRouting.

(** ** The connections *)

Class Connections (W C : Type) := {
  connection : Z → W → C;
  set_connection : Z → C → W → W;
  connect_once : ConnectionConfig → Z → S_ W Z;     (* [connect_with_tracker_once] *)
  shutdown_connection : Z → M W unit;               (* [MultiplexedClient::shutdown] *)
  instant : W → Z * W;                              (* [Instant::now()] *)
  sleep : Z → W → W;                                (* [thread::sleep] *)
}.

(** [crate::WriteThenReadError] *)
Inductive SWriteThenReadError := SRejected (e : SessionError) | SDeliveryUnknown (e : SessionError).

Definition SWriteThenReadError_from (e : WriteThenReadError) : SWriteThenReadError :=
  match e with
  | Rejected e => SRejected (client_error e)
  | DeliveryUnknown e => SDeliveryUnknown (client_error e)
  end.

(** ** Data *)

Record RemoteFid := RemoteFid_mk { rf_client : Z; rf_fid : Z; rf_route_mount : option bytes }.

Inductive FidTarget := Remote (remote : RemoteFid) | ReferralDirectoryTarget.

Record FidBinding := FidBinding_mk { namespace_path : NPath; target : FidTarget }.

Definition binding_remote (b : FidBinding) : SResult RemoteFid :=
  match target b with
  | Remote remote => inr remote
  | ReferralDirectoryTarget => inl ReferralDirectory.directory_operation_error
  end.

Definition writable_remote (b : FidBinding) : SResult RemoteFid :=
  match target b with
  | Remote remote => inr remote
  | ReferralDirectoryTarget => inl ReferralDirectory.read_only_error
  end.

Record RoutedTarget := RoutedTarget_mk { tg_client : Z; tg_remote_path : NPath; tg_route_mount : option bytes }.

Definition remote_target (t : RoutedTarget) (remote_fid : Z) : FidTarget :=
  Remote (RemoteFid_mk (tg_client t) remote_fid (tg_route_mount t)).

(** [State], with the fid table and the world. *)
Record Namespace (W : Type) := Namespace_mk {
  ns_root : Z;
  ns_session_auth : option SessionAuthentication;
  ns_service_msize : Z;
  ns_connect_timeout : Z;
  ns_routes : list Route;
  ns_connected_routes : list Z;
  ns_next : Z;
  ns_bindings : gmap Z FidBinding;
  ns_world : W;
}.

Arguments Namespace_mk {W}.
Arguments ns_root {W}.
Arguments ns_session_auth {W}.
Arguments ns_service_msize {W}.
Arguments ns_connect_timeout {W}.
Arguments ns_routes {W}.
Arguments ns_connected_routes {W}.
Arguments ns_next {W}.
Arguments ns_bindings {W}.
Arguments ns_world {W}.

Section set.
Context {W : Type}.

Definition set_world (w : W) (s : Namespace W) : Namespace W :=
  Namespace_mk (ns_root s) (ns_session_auth s) (ns_service_msize s) (ns_connect_timeout s) (ns_routes s)
    (ns_connected_routes s) (ns_next s) (ns_bindings s) w.

Definition set_routes (routes : list Route) (s : Namespace W) : Namespace W :=
  Namespace_mk (ns_root s) (ns_session_auth s) (ns_service_msize s) (ns_connect_timeout s) routes
    (ns_connected_routes s) (ns_next s) (ns_bindings s) (ns_world s).

Definition set_connected (connected : list Z) (s : Namespace W) : Namespace W :=
  Namespace_mk (ns_root s) (ns_session_auth s) (ns_service_msize s) (ns_connect_timeout s) (ns_routes s)
    connected (ns_next s) (ns_bindings s) (ns_world s).

Definition set_fids (next : Z) (bindings : gmap Z FidBinding) (s : Namespace W) : Namespace W :=
  Namespace_mk (ns_root s) (ns_session_auth s) (ns_service_msize s) (ns_connect_timeout s) (ns_routes s)
    (ns_connected_routes s) next bindings (ns_world s).

End set.

Section client.
Context {W C : Type} `{!Caller C} `{!Connections W C} `{!DebugText} `{!DurationText}.

(** ** direct.rs *)

Definition CONNECT_RETRY_INTERVAL : Z := 200000000.

(** [connect_should_retry]: the clock is read only when it matters. *)
Definition connect_should_retry (error : SessionError) (timeout started : Z) (w : W) : bool * W :=
  if timeout =? 0 then (false, w)
  else let '(now, w) := instant w in
       (bool_decide (saturating_sub now started < timeout) && is_transient_connection_failure error, w).

Definition connect_retry_sleep (timeout started : Z) (w : W) : Z * W :=
  let '(now, w) := instant w in
  (Z.min CONNECT_RETRY_INTERVAL (saturating_sub timeout (saturating_sub now started)), w).

Fixpoint connect_loop (fuel : nat) (config : ConnectionConfig) (timeout started : Z) (w : W) :
    option (SResult Z * W) :=
  match fuel with
  | O => None
  | S fuel =>
      match connect_once config timeout w with
      | (inr client, w) => Some (inr client, w)
      | (inl error, w) =>
          match connect_should_retry error timeout started w with
          | (true, w) =>
              let '(d, w) := connect_retry_sleep timeout started w in
              connect_loop fuel config timeout started (sleep d w)
          | (false, w) => Some (inl error, w)
          end
      end
  end.

(** The attempts that fit in the timeout ([connect_loop_ends]). *)
Definition connect_fuel (timeout : Z) : nat := Z.to_nat (timeout / CONNECT_RETRY_INTERVAL + 3).

Definition unreachable_session_error : SessionError := client_error unreachable_error.

Definition connect_with_tracker_timeout (config : ConnectionConfig) (timeout : Z) : S_ W Z := λ w,
  let '(started, w') := instant w in
  default (inl unreachable_session_error, w) (connect_loop (connect_fuel timeout) config timeout started w').

(** Code of a client: it has the namespace. *)
Abbreviation N := (S_ (Namespace W)).

Definition on_world {A} (f : W → A * W) (s : Namespace W) : A * Namespace W :=
  let '(a, w) := f (ns_world s) in (a, set_world w s).

Definition on_connection {A} (client : Z) (f : C → A * C) : Namespace W → A * Namespace W :=
  on_world (λ w, let '(a, c) := f (connection client w) in (a, set_connection client c w)).

(** [self.inner.f(..).map_err(client_error)] *)
Definition direct {A} (client : Z) (m : M C A) : N A := λ s,
  match on_connection client m s with
  | (Ok a, s) => (inr a, s)
  | (Err e, s) => (inl (client_error e), s)
  end.

Definition clock : N Z := λ s, let '(now, s) := on_world instant s in (inr now, s).

Definition direct_root_fid (client : Z) : N Z := direct client root_fid.
Definition direct_variant (client : Z) : N Variant := direct client variant.
Definition direct_msize (client : Z) : N Z := direct client msize.
Definition direct_max_write_payload (client : Z) : N Z := direct client max_payload.

Definition direct_walk (timeout : option Z) (client fid : Z) (names : list bytes) : N Z :=
  direct client (walk_with timeout fid names).

Definition direct_clone_fid (timeout : option Z) (client fid : Z) : N Z := direct_walk timeout client fid [].

Definition direct_referrals_timeout (client timeout : Z) : N (list NamespaceReferral) :=
  fid ← direct_root_fid client;
  direct client (referrals_timeout fid timeout).

Definition direct_open (timeout : option Z) (client fid mode : Z) : N Qid := direct client (open_with timeout fid mode).

Definition direct_create (timeout : option Z) (client parent_fid : Z) (name : bytes) (perm mode : Z) : N (Z * Qid) :=
  direct client (create_with timeout parent_fid name perm mode).

Definition direct_read (timeout : option Z) (client fid offset count : Z) : N bytes :=
  direct client match timeout with
                | Some timeout => read_timeout fid offset count timeout
                | None => read fid offset count
                end.

Definition direct_submit_read (client fid offset count : Z) : N PendingRead := direct client (submit_read fid offset count).

Definition direct_wait_read (timeout : option Z) (client : Z) (pending : PendingRead) : N bytes :=
  direct client match timeout with
                | Some timeout => wait_read_timeout pending timeout
                | None => wait_read pending
                end.

Definition direct_flush_tag_timeout (client tag timeout : Z) : N unit := direct client (flush_tag_timeout tag timeout).

Definition direct_read_full (timeout : option Z) (client fid offset count : Z) : N bytes :=
  direct client match timeout with
                | Some timeout => read_full_timeout fid offset count timeout
                | None => read_full fid offset count
                end.

Definition direct_read_exact_parallel_timeout (client fid offset count max_in_flight timeout : Z) : N bytes :=
  direct client (read_exact_parallel_timeout fid offset count max_in_flight timeout).

Definition direct_read_delimited (timeout : option Z) (client fid offset count : Z) (delimiter : byte) : N bytes :=
  direct client match timeout with
                | Some timeout => read_delimited_timeout fid offset count delimiter timeout
                | None => read_delimited fid offset count delimiter
                end.

Definition direct_write (timeout : option Z) (client fid offset : Z) (data : bytes) : N Z :=
  direct client match timeout with
                | Some timeout => write_timeout fid offset data timeout
                | None => write fid offset data
                end.

Definition direct_write_once (timeout : option Z) (client fid offset : Z) (data : bytes) : N Z :=
  direct client (write_once_with timeout fid offset data).

Definition direct_write_then_read_delimited_timeout (client fid write_offset : Z) (data : bytes) (read : DelimitedRead)
    (timeout : Z) (s : Namespace W) : (SWriteThenReadError + Z * bytes) * Namespace W :=
  match on_connection client (write_then_read_delimited_timeout fid write_offset data read timeout) s with
  | (inl e, s) => (inl (SWriteThenReadError_from e), s)
  | (inr a, s) => (inr a, s)
  end.

Definition direct_clunk (timeout : option Z) (client fid : Z) : N unit := direct client (clunk_with timeout fid).

Definition direct_shutdown (client : Z) : N unit := λ s,
  match on_world (shutdown_connection client) s with
  | (Ok a, s) => (inr a, s)
  | (Err e, s) => (inl (client_error e), s)
  end.

Definition direct_remove (timeout : option Z) (client fid : Z) : N unit := direct client (remove_with timeout fid).

Definition direct_validate_stat (client : Z) (st : Stat) : N Stat :=
  v ← direct_variant client;
  if negb (supports_symlinks v) && (is_symlink (st_qid st) || has_bits (st_mode st) DMSYMLINK)
  then sthrow (session_error libc.EPROTO "server exposed symlink metadata without negotiating 9P2000.R")
  else mret st.

Definition direct_stat (timeout : option Z) (client fid : Z) : N Stat :=
  st ← direct client (stat_with timeout fid);
  direct_validate_stat client st.

Definition direct_wstat (timeout : option Z) (client fid : Z) (st : Stat) : N unit := direct client (wstat_with timeout fid st).

Definition direct_rename_at (timeout : option Z) (client olddirfid : Z) (oldname : bytes) (newdirfid : Z) (newname : bytes) :
    N unit := direct client (rename_at_with timeout olddirfid oldname newdirfid newname).

(** ** namespace.rs: the fid table *)

Definition unknown_fid (fid : Z) : SessionError :=
  SessionError_mk libc.EBADF (bstr "unknown namespace fid " ++ dec fid).

Definition binding (fid : Z) : N FidBinding := λ s, (some_or (ns_bindings s !! fid) (unknown_fid fid), s).

(** The loop of [allocate_binding]: the fid and the next one. *)
Fixpoint allocate_loop (fuel : nat) (start next : Z) (bindings : gmap Z FidBinding) : option (option Z * Z) :=
  match fuel with
  | O => None
  | S fuel =>
      let candidate := next in
      let next := next_fid candidate in
      if negb (candidate =? NOFID) && bool_decide (bindings !! candidate = None) then Some (Some candidate, next)
      else if next =? start then Some (None, next)
      else allocate_loop fuel start next bindings
  end.

(** Every turn but the last and that of [NOFID] meets another bound fid
    ([allocate_loop_ends]). *)
Definition allocate_binding (b : FidBinding) : N Z := λ s,
  match allocate_loop (size (ns_bindings s) + 2) (ns_next s) (ns_next s) (ns_bindings s) with
  | Some (Some fid, next) => (inr fid, set_fids next (<[fid := b]> (ns_bindings s)) s)
  | Some (None, next) => (inl (session_error libc.EMFILE "namespace fid space exhausted"), set_fids next (ns_bindings s) s)
  | None => (inl unreachable_session_error, s)
  end.

Definition remove_binding (fid : Z) : N unit := λ s,
  match ns_bindings s !! fid with
  | Some _ => (inr (), set_fids (ns_next s) (delete fid (ns_bindings s)) s)
  | None => (inl (unknown_fid fid), s)
  end.

Definition discard_binding (fid : Z) : N unit := smodify (λ s, set_fids (ns_next s) (delete fid (ns_bindings s)) s).

(** ** namespace.rs: the routes *)

Definition variant : N Variant := root ← sgets ns_root; direct_variant root.

Definition find_route (path : bytes) : N (option (nat * Route)) :=
  sgets (λ s, list_find (λ r, is_Some (mounted_suffix path (mount_path (rt_referral r)))) (ns_routes s)).

Definition route_is_valid (r : Route) : N bool := now ← clock; mret (is_valid now r).

(** [route.has_client() || route.is_valid()] *)
Definition usable (r : Route) : N bool := if has_client r then mret true else route_is_valid r.

Fixpoint filter_mounts (include : Route → N bool) (routes : list Route) : N (list bytes) :=
  match routes with
  | [] => mret []
  | r :: routes =>
      b ← include r;
      rest ← filter_mounts include routes;
      mret (if b : bool then mount_path (rt_referral r) :: rest else rest)
  end.

Definition referral_mount_paths (include : Route → N bool) : N (list bytes) :=
  routes ← sgets ns_routes;
  filter_mounts include routes.

Definition refresh_routes (timeout : Z) : N unit :=
  root ← sgets ns_root;
  referrals ← direct_referrals_timeout root (bounded_referral_timeout timeout);
  old_routes ← sgets ns_routes;
  now ← clock;
  routes ← slift (build_routes now referrals old_routes);
  smodify (set_routes routes).

(** The configuration of the session behind a referral. *)
Definition route_authentication (session_auth : option SessionAuthentication) (authority : bytes) :
    SResult ConnectionAuthentication :=
  if contained_authority authority then inr Unauthenticated
  else
    let boundary := match AuthBoundary_parse authority with Ok b => Some b | Err _ => None end in
    match boundary ≫= p9any_domain with
    | None => inl (SessionError_mk libc.EACCES (bstr "referral authority boundary names no responder: " ++ authority))
    | Some responder =>
        match session_auth with
        | None => inl (SessionError_mk libc.EACCES
                    (bstr "this session has no credential for authority boundary " ++ authority))
        | Some session_auth =>
            match ResponderName_new responder with
            | inl e => inl e
            | inr responder => inr (Authenticated (for_responder responder session_auth))
            end
        end
    end.

Definition route_config (session_auth : option SessionAuthentication) (service_msize : Z) (r : NamespaceReferral) :
    SResult ConnectionConfig :=
  match text_field "authority_boundary" (authority_boundary r) with
  | inl e => inl e
  | inr authority =>
      match route_authentication session_auth authority with
      | inl e => inl e
      | inr authentication =>
          match text_field "endpoint" (endpoint r) with
          | inl e => inl e
          | inr address =>
              match text_field "uname" (r_uname r) with
              | inl e => inl e
              | inr uname =>
                  match text_field "aname" (r_aname r) with
                  | inl e => inl e
                  | inr aname => inr (ConnectionConfig_mk address uname aname service_msize authentication)
                  end
              end
          end
      end
  end.

Definition set_client (client : option Z) (r : Route) : Route := Route_mk (rt_referral r) (rt_received_at r) client.

(** [*client = Some(connected)] in the route at index [i] *)
Definition set_route_client (i : nat) (client : option Z) (s : Namespace W) : Namespace W :=
  set_routes (alter (set_client client) i (ns_routes s)) s.

Definition referral_expired (r : Route) : SessionError :=
  SessionError_mk libc.ESTALE
    (bstr "namespace referral expired before direct session establishment: " ++
     from_utf8_lossy (mount_path (rt_referral r))).

Definition dial (config : ConnectionConfig) (timeout : Z) : N Z := on_world (connect_with_tracker_timeout config timeout).

Definition connect_route (i : nat) (r : Route) (timeout : Z) : N Z :=
  match rt_client r with
  | Some client => mret client
  | None =>
      valid ← route_is_valid r;
      if negb valid then sthrow (referral_expired r)
      else
        session_auth ← sgets ns_session_auth;
        service_msize ← sgets ns_service_msize;
        config ← slift (route_config session_auth service_msize (rt_referral r));
        configured ← sgets ns_connect_timeout;
        connected ← dial config (route_connect_timeout timeout configured);
        _ ← smodify (λ s, set_connected (ns_connected_routes s ++ [connected]) s);
        _ ← smodify (set_route_client i (Some connected));
        mret connected
  end.

Definition remote_path (r : NamespaceReferral) (path : bytes) : SResult NPath :=
  match or_protocol (routed_path r path) with
  | inl e => inl e
  | inr path => parse_namespace_path path
  end.

Definition select_route (path : bytes) (timeout : Z) : N (option (nat * Route)) :=
  route ← find_route path;
  stale ← match route with
          | Some (_, r) => u ← usable r; mret (negb u)
          | None => mret false
          end;
  if stale : bool then _ ← refresh_routes timeout; find_route path else mret route.

Definition routed_target (path : NPath) (timeout : Z) : N RoutedTarget :=
  let rendered := render_namespace_path path in
  route ← select_route rendered timeout;
  match route with
  | None => root ← sgets ns_root; mret (RoutedTarget_mk root path None)
  | Some (i, r) =>
      client ← connect_route i r timeout;
      path ← slift (remote_path (rt_referral r) rendered);
      mret (RoutedTarget_mk client path (Some (mount_path (rt_referral r))))
  end.

(** ** namespace.rs: failures *)

Definition route_transport_failed : SessionError → bool := is_definitive_transport_failure.

Definition walk_remote (timeout : option Z) (t : RoutedTarget) : N Z :=
  fid ← direct_root_fid (tg_client t);
  match tg_remote_path t with
  | [] => direct_clone_fid timeout (tg_client t) fid
  | path => direct_walk timeout (tg_client t) fid path
  end.

Definition is_referral_directory_miss (path : NPath) (t : RoutedTarget) (error : SessionError) : N bool :=
  if (errno error =? libc.ENOENT) && bool_decide (tg_route_mount t = None) && negb (bool_decide (path = []))
  then mounts ← referral_mount_paths usable; mret (ReferralDirectory.is_ancestor path mounts)
  else mret false.

Definition should_refresh_routes_after (t : RoutedTarget) (error : SessionError) : N bool :=
  v ← variant;
  mret (supports_referrals v &&
        (if errno error =? libc.ENOENT then bool_decide (tg_route_mount t = None)
         else bool_decide (errno error ∈
                [libc.ESTALE; libc.ENOTCONN; libc.ECONNABORTED; libc.ECONNRESET; libc.EPIPE]))).

Definition invalidate_route_client (route_mount : bytes) (failed_client : Z) : N unit :=
  routes ← sgets ns_routes;
  match list_find (λ r, mount_path (rt_referral r) = route_mount) routes with
  | None => mret ()
  | Some (i, r) =>
      if bool_decide (rt_client r = Some failed_client) then
        _ ← smodify (set_route_client i None);
        smodify (λ s, set_connected (filter (λ c, c ≠ failed_client) (ns_connected_routes s)) s)
      else mret ()
  end.

Definition invalidate_failed_route (t : RoutedTarget) (error : SessionError) : N unit :=
  match tg_route_mount t with
  | None => mret ()
  | Some route_mount =>
      if negb (route_transport_failed error) then mret ()
      else invalidate_route_client route_mount (tg_client t)
  end.

(** ** namespace.rs: walking *)

(** One attempt of [walk_namespace_path]: [otherwise] is what an error that is no
    miss of a referral directory leads to. *)
Definition walk_attempt (path : NPath) (timeout : option Z) (routing_timeout : Z)
    (otherwise : RoutedTarget → SessionError → N FidTarget) : N FidTarget :=
  t ← routed_target path routing_timeout;
  walked ← sattempt (walk_remote timeout t);
  match walked with
  | inr fid => mret (remote_target t fid)
  | inl error =>
      miss ← is_referral_directory_miss path t error;
      if miss : bool then mret ReferralDirectoryTarget else otherwise t error
  end.

Definition walk_namespace_path (timeout : option Z) (path : NPath) : N FidTarget :=
  configured ← sgets ns_connect_timeout;
  let routing_timeout := default configured timeout in
  walk_attempt path timeout routing_timeout (λ t error,
    refresh ← should_refresh_routes_after t error;
    if refresh : bool then
      _ ← invalidate_failed_route t error;
      _ ← refresh_routes routing_timeout;
      walk_attempt path timeout routing_timeout (λ _ error, sthrow error)
    else sthrow error).

Definition clone_fid (timeout : option Z) (fid : Z) : N Z :=
  b ← binding fid;
  t ← match target b with
      | Remote remote =>
          fid ← direct_clone_fid timeout (rf_client remote) (rf_fid remote);
          mret (Remote (RemoteFid_mk (rf_client remote) fid (rf_route_mount remote)))
      | ReferralDirectoryTarget => mret ReferralDirectoryTarget
      end;
  allocate_binding (FidBinding_mk (namespace_path b) t).

Definition walk_timeout (fid : Z) (names : list bytes) (timeout : Z) : N Z :=
  b ← binding fid;
  path ← slift (apply_walk (namespace_path b) names);
  t ← walk_namespace_path (Some timeout) path;
  allocate_binding (FidBinding_mk path t).

Definition walk_one_timeout (fid : Z) (name : bytes) (timeout : Z) : N Z := walk_timeout fid [name] timeout.

Definition walk_path (timeout : option Z) (path : bytes) : N Z :=
  path ← slift (parse_namespace_path path);
  t ← walk_namespace_path timeout path;
  allocate_binding (FidBinding_mk path t).

Definition route_failure_context (fid : Z) : N (Z * option bytes) :=
  b ← binding fid;
  match target b with
  | Remote remote => mret (rf_client remote, rf_route_mount remote)
  | ReferralDirectoryTarget => root ← sgets ns_root; mret (root, None)
  end.

Definition recover_read_only_route (failed_fid failed_client : Z) (route_mount : option bytes) (error : SessionError)
    (timeout : Z) : N bool :=
  match route_mount with
  | None => mret false
  | Some route_mount =>
      if negb (route_transport_failed error) then mret false
      else
        _ ← discard_binding failed_fid;
        _ ← invalidate_route_client route_mount failed_client;
        _ ← refresh_routes timeout;
        mret true
  end.

(** [Client::connect_with_tracker_timeout] *)
Definition namespace_connect (config : ConnectionConfig) (timeout : Z) (w : W) : SResult (Namespace W) * W :=
  match connect_with_tracker_timeout config timeout w with
  | (inl e, w) => (inl e, w)
  | (inr root, w) =>
      let start := Namespace_mk root (auth_session (cfg_authentication config)) (cfg_msize config) timeout [] []
                     FIRST_DYNAMIC_FID ∅ w in
      let build : N (list Route * Z) :=
        v ← direct_variant root;
        referrals ← if supports_referrals v then direct_referrals_timeout root (bounded_referral_timeout timeout)
                    else mret [];
        now ← clock;
        routes ← slift (build_routes now referrals []);
        fid ← direct_root_fid root;
        mret (routes, fid) in
      match build start with
      | (inl e, s) => (inl e, ns_world s)
      | (inr (routes, fid), s) =>
          (inr (set_fids FIRST_DYNAMIC_FID {[ROOT_FID := FidBinding_mk [] (Remote (RemoteFid_mk root fid None))]}
                  (set_routes routes s)), ns_world s)
      end
  end.

End client.
