(* ===== verification/NamespaceOps.v ===== *)
(** The operations of the namespace client: [crates/session/src/client/namespace/operations.rs]
    and [crates/session/src/client/paths.rs].  See NamespaceClient.v for the state; the
    loop of [read_all] has fuel, as a server may answer reads for ever. *)
From S2P Require Import Prelude Errors Qid Stat Utf8 Referral Codec FrameIO ClientSupport Blocking MultiplexClient.
From S2P Require Import NamespaceCache Text SessionErrors Endpoint ExportDescriptor SessionConfig NamespaceRouting NamespaceClient.

Section operations.
Context {W C : Type} `{!Caller C} `{!Connections W C} `{!DebugText} `{!DurationText}.

Abbreviation N := (S_ (Namespace W)).

(** ** operations.rs *)

Definition open (timeout : option Z) (fid mode : Z) : N Qid :=
  b ← binding fid;
  match target b with
  | ReferralDirectoryTarget =>
      if mode =? OREAD then mret (st_qid (ReferralDirectory.stat (namespace_path b)))
      else sthrow ReferralDirectory.read_only_error
  | Remote remote => direct_open timeout (rf_client remote) (rf_fid remote) mode
  end.

Definition create (timeout : option Z) (parent_fid : Z) (name : bytes) (perm mode : Z) : N (Z * Qid) :=
  _ ← slift (validate_path_element name);
  parent ← binding parent_fid;
  remote ← slift (writable_remote parent);
  let path := namespace_path parent ++ [name] in
  selected ← routed_target path (default 0 timeout);
  if negb (bool_decide (tg_route_mount selected = rf_route_mount remote))
  then sthrow (session_error libc.EXDEV "create cannot cross a namespace referral boundary")
  else
    created ← direct_create timeout (rf_client remote) (rf_fid remote) name perm mode;
    fid ← allocate_binding (FidBinding_mk path
            (Remote (RemoteFid_mk (rf_client remote) created.1 (rf_route_mount remote))));
    mret (fid, created.2).

Definition read_referral_directory (path : NPath) (offset count : Z) : N bytes :=
  mounts ← referral_mount_paths (λ _, mret true);
  slift (ReferralDirectory.read path mounts offset count).

Definition read_binding (b : FidBinding) (offset count : Z) (read_remote : RemoteFid → N bytes) : N bytes :=
  match target b with
  | ReferralDirectoryTarget => read_referral_directory (namespace_path b) offset count
  | Remote remote => read_remote remote
  end.

Definition read_with (timeout : option Z) (fid offset count : Z) : N bytes :=
  b ← binding fid;
  read_binding b offset count (λ remote, direct_read timeout (rf_client remote) (rf_fid remote) offset count).

Definition read_timeout (fid offset count timeout : Z) : N bytes := read_with (Some timeout) fid offset count.
Definition read (fid offset count : Z) : N bytes := read_with None fid offset count.

(** [PendingRead]: the connection that will answer, and the call. *)
Definition submit_read (fid offset count : Z) : N (Z * PendingRead) :=
  b ← binding fid;
  remote ← slift (binding_remote b);
  pending ← direct_submit_read (rf_client remote) (rf_fid remote) offset count;
  mret (rf_client remote, pending).

Definition pending_wait (timeout : option Z) (p : Z * PendingRead) : N bytes := direct_wait_read timeout p.1 p.2.

Definition flush_read_tag_timeout (fid tag timeout : Z) : N unit :=
  b ← binding fid;
  remote ← slift (binding_remote b);
  direct_flush_tag_timeout (rf_client remote) tag timeout.

Definition read_full_with (timeout : option Z) (fid offset count : Z) : N bytes :=
  b ← binding fid;
  read_binding b offset count (λ remote, direct_read_full timeout (rf_client remote) (rf_fid remote) offset count).

Definition read_full_timeout (fid offset count timeout : Z) : N bytes := read_full_with (Some timeout) fid offset count.
Definition read_full (fid offset count : Z) : N bytes := read_full_with None fid offset count.

Definition read_exact_parallel_timeout (fid offset count max_in_flight timeout : Z) : N bytes :=
  b ← binding fid;
  remote ← slift (binding_remote b);
  direct_read_exact_parallel_timeout (rf_client remote) (rf_fid remote) offset count max_in_flight timeout.

Definition read_delimited_with (timeout : option Z) (fid offset count : Z) (delimiter : byte) : N bytes :=
  b ← binding fid;
  remote ← slift (binding_remote b);
  direct_read_delimited timeout (rf_client remote) (rf_fid remote) offset count delimiter.

Definition read_delimited_timeout (fid offset count : Z) (delimiter : byte) (timeout : Z) : N bytes :=
  read_delimited_with (Some timeout) fid offset count delimiter.
Definition read_delimited (fid offset count : Z) (delimiter : byte) : N bytes :=
  read_delimited_with None fid offset count delimiter.

(** An operation on a fid that may change what it names. *)
Definition on_writable {A} (fid : Z) (f : RemoteFid → N A) : N A :=
  b ← binding fid;
  remote ← slift (writable_remote b);
  f remote.

Definition write (timeout : option Z) (fid offset : Z) (data : bytes) : N Z :=
  on_writable fid (λ remote, direct_write timeout (rf_client remote) (rf_fid remote) offset data).

Definition write_once (timeout : option Z) (fid offset : Z) (data : bytes) : N Z :=
  on_writable fid (λ remote, direct_write_once timeout (rf_client remote) (rf_fid remote) offset data).

Definition write_then_read_delimited_timeout (fid write_offset : Z) (data : bytes) (read : DelimitedRead) (timeout : Z)
    (s : Namespace W) : (SWriteThenReadError + Z * bytes) * Namespace W :=
  match on_writable fid mret s with
  | (inl e, s) => (inl (SRejected e), s)
  | (inr remote, s) =>
      direct_write_then_read_delimited_timeout (rf_client remote) (rf_fid remote) write_offset data read timeout s
  end.

Definition clunk (timeout : option Z) (fid : Z) : N unit :=
  if fid =? ROOT_FID then sthrow (session_error libc.EBUSY "cannot clunk the namespace root")
  else
    b ← binding fid;
    _ ← match target b with
        | Remote remote => direct_clunk timeout (rf_client remote) (rf_fid remote)
        | ReferralDirectoryTarget => mret ()
        end;
    remove_binding fid.

(** Every connection is shut down; the first error is the result. *)
Fixpoint shutdown_all (clients : list Z) (first_error : option SessionError) : N (option SessionError) :=
  match clients with
  | [] => mret first_error
  | client :: clients =>
      r ← sattempt (direct_shutdown client);
      shutdown_all clients match first_error, r with None, inl error => Some error | _, _ => first_error end
  end.

Definition shutdown : N unit :=
  routes ← sgets ns_connected_routes;
  root ← sgets ns_root;
  first_error ← shutdown_all (routes ++ [root]) None;
  match first_error with Some error => sthrow error | None => mret () end.

Definition remove (timeout : option Z) (fid : Z) : N unit :=
  if fid =? ROOT_FID then sthrow (session_error libc.EBUSY "cannot remove the namespace root")
  else
    _ ← on_writable fid (λ remote, direct_remove timeout (rf_client remote) (rf_fid remote));
    remove_binding fid.

Definition stat (timeout : option Z) (fid : Z) : N Stat :=
  b ← binding fid;
  match target b with
  | ReferralDirectoryTarget => mret (ReferralDirectory.stat (namespace_path b))
  | Remote remote => direct_stat timeout (rf_client remote) (rf_fid remote)
  end.

Definition wstat (timeout : option Z) (fid : Z) (st : Stat) : N unit :=
  on_writable fid (λ remote, direct_wstat timeout (rf_client remote) (rf_fid remote) st).

Definition rename_at (timeout : option Z) (olddirfid : Z) (oldname : bytes) (newdirfid : Z) (newname : bytes) : N unit :=
  on_writable olddirfid (λ olddir, on_writable newdirfid (λ newdir,
    if negb (rf_client olddir =? rf_client newdir)
    then sthrow (session_error libc.EXDEV "rename endpoints belong to different namespace services")
    else direct_rename_at timeout (rf_client olddir) (rf_fid olddir) oldname (rf_fid newdir) newname)).

Definition validate_stat (st : Stat) : N Stat :=
  v ← variant;
  if negb (supports_symlinks v) && (is_symlink (st_qid st) || has_bits (st_mode st) DMSYMLINK)
  then sthrow (session_error libc.EPROTO "server exposed symlink metadata without negotiating 9P2000.R")
  else mret st.

(** ** opened_fid.rs: an opened path *)

Fixpoint nonempty_names (names : list bytes) : SResult (list bytes) :=
  match names with
  | [] => inr []
  | name :: names =>
      if bool_decide (name = []) then inl (session_error libc.EINVAL "invalid 9P path")
      else match nonempty_names names with inl e => inl e | inr names => inr (name :: names) end
  end.

Definition path_names (path : bytes) : SResult (list bytes) :=
  if bool_decide (path = []) || bool_decide (path = [slash]) then inr []
  else
    let path := default path (strip_prefix [slash] path) in
    if bool_decide (path = []) || ends_with_slash path then inl (session_error libc.EINVAL "invalid 9P path")
    else nonempty_names (split_on slash path).

Definition open_path_fid_timeout (path : bytes) (mode timeout : Z) : N Z :=
  names ← slift (path_names path);
  fid ← match names with
        | [] => clone_fid (Some timeout) ROOT_FID
        | _ => walk_timeout ROOT_FID names timeout
        end;
  opened ← sattempt (open (Some timeout) fid mode);
  match opened with
  | inl error => _ ← sattempt (clunk (Some timeout) fid); sthrow error
  | inr _ => mret fid
  end.

(** [OpenedFid]: [None] once it is closed. *)
Record OpenedFid := OpenedFid_mk { of_fid : option Z; of_clunk_timeout : Z }.

Definition required_fid (o : OpenedFid) : SResult Z := some_or (of_fid o) (session_error libc.EBADF "opened fid is closed").

Definition on_opened {A} (o : OpenedFid) (f : Z → N A) : N A := fid ← slift (required_fid o); f fid.

(** [OpenedFid::clunk], of [close] and of [drop]; the fid is taken. *)
Definition opened_clunk (o : OpenedFid) : N unit :=
  match of_fid o with
  | None => mret ()
  | Some fid => clunk (Some (of_clunk_timeout o)) fid
  end.

Definition open_path_timeout (path : bytes) (mode timeout : Z) : N OpenedFid :=
  fid ← open_path_fid_timeout path mode timeout;
  mret (OpenedFid_mk (Some fid) timeout).

(** The life of an opened fid in a function: an error drops it, a result closes it. *)
Definition with_opened {A} (path : bytes) (mode timeout : Z) (use : OpenedFid → N A) : N A :=
  o ← open_path_timeout path mode timeout;
  r ← sattempt (use o);
  match r with
  | inl error => _ ← sattempt (opened_clunk o); sthrow error
  | inr a => _ ← opened_clunk o; mret a
  end.

(** ** paths.rs *)

Definition PATH_READ_CHUNK : Z := 65536.

(** One turn of [read_all]. *)
Definition read_all_turn (fid : Z) (st : Z * bytes * Namespace W) :
    (Z * bytes * Namespace W) + (SResult bytes * Namespace W) :=
  let '(offset, out, s) := st in
  match read fid offset PATH_READ_CHUNK s with
  | (inl e, s) => inr (inl e, s)
  | (inr chunk, s) =>
      if bool_decide (chunk = []) then inr (inr out, s)
      else
        match try_from u64_max (vlen chunk) with
        | None => inr (inl (session_error libc.EOVERFLOW "read length overflow"), s)
        | Some n =>
            match checked_add u64_max offset n with
            | None => inr (inl (session_error libc.EOVERFLOW "read offset overflow"), s)
            | Some offset => inl (offset, out ++ chunk, s)
            end
        end
  end.

(** Every turn moves the 64-bit offset ([read_all_ends]). *)
Definition read_all (fid : Z) : N bytes := λ s,
  match loop 64 (read_all_turn fid) (0, [], s) with
  | inl (_, _, s) => (inl unreachable_session_error, s)
  | inr result => result
  end.

Definition finish_fid {A} (timeout : option Z) (fid : Z) (result : SResult A) : N A :=
  clunked ← sattempt (clunk timeout fid);
  match result, clunked with
  | inr value, inr _ => mret value
  | inr _, inl error | inl error, _ => sthrow error
  end.

(** [let fid = self.walk_path(path)?; let result = ..; finish_fid(self, fid, result)] *)
Definition at_path {A} (timeout : option Z) (path : bytes) (use : Z → N A) : N A :=
  fid ← walk_path timeout path;
  result ← sattempt (use fid);
  finish_fid timeout fid result.

Fixpoint read_only_attempts {A} (retries : nat) (path : bytes) (timeout : Z) (operation : Z → N A) : N A :=
  fid ← walk_path (Some timeout) path;
  context ← route_failure_context fid;
  result ← sattempt (operation fid);
  result ← sattempt (finish_fid (Some timeout) fid result);
  match result, retries with
  | inl error, S retries =>
      recovered ← recover_read_only_route fid context.1 context.2 error timeout;
      if recovered : bool then read_only_attempts retries path timeout operation else sthrow error
  | _, _ => slift result
  end.

(** [retry_available] allows one retry. *)
Definition read_only_path_timeout {A} (path : bytes) (timeout : Z) (operation : Z → N A) : N A :=
  read_only_attempts 1 path timeout operation.

Definition validate_response_bound (max_response_bytes : Z) : SResult unit :=
  if max_response_bytes =? 0 then inl (session_error libc.EINVAL "path response bound must be nonzero") else inr ().

Definition stat_path_timeout (path : bytes) (timeout : Z) : N Stat :=
  read_only_path_timeout path timeout (stat (Some timeout)).

Definition stat_path (path : bytes) : N Stat := at_path None path (stat None).

Definition list_path (path : bytes) : N (list Stat) :=
  at_path None path (λ fid,
    st ← stat None fid;
    if negb (has_bits (st_mode st) DMDIR) then sthrow (session_error libc.ENOTDIR "not a directory")
    else
      _ ← open None fid OREAD;
      data ← read_all fid;
      slift (or_protocol (decode_dir_entries data))).

Definition read_path (path : bytes) : N bytes := at_path None path (λ fid, _ ← open None fid OREAD; read_all fid).

Definition read_path_timeout (path : bytes) (max_response_bytes timeout : Z) : N bytes :=
  _ ← slift (validate_response_bound max_response_bytes);
  read_only_path_timeout path timeout (λ fid,
    _ ← open (Some timeout) fid OREAD;
    read_full_timeout fid 0 max_response_bytes timeout).

Definition read_path_delimited_timeout (path : bytes) (max_response_bytes : Z) (delimiter : byte) (timeout : Z) : N bytes :=
  _ ← slift (validate_response_bound max_response_bytes);
  read_only_path_timeout path timeout (λ fid,
    _ ← open (Some timeout) fid OREAD;
    read_delimited_timeout fid 0 max_response_bytes delimiter timeout).

Definition read_path_delimited (path : bytes) (max_response_bytes : Z) (delimiter : byte) (control_timeout : Z) : N bytes :=
  _ ← slift (validate_response_bound max_response_bytes);
  read_only_path_timeout path control_timeout (λ fid,
    _ ← open (Some control_timeout) fid OREAD;
    read_delimited fid 0 max_response_bytes delimiter).

Definition read_path_range (path : bytes) (offset count : Z) : N bytes :=
  at_path None path (λ fid, _ ← open None fid OREAD; read fid offset count).

Definition write_path (path : bytes) (offset : Z) (data : bytes) : N Z :=
  at_path None path (λ fid, _ ← open None fid OWRITE; write None fid offset data).

Definition write_file (path data : bytes) : N Z :=
  at_path None path (λ fid, _ ← open None fid (Z.lor OWRITE OTRUNC); write None fid 0 data).

Definition write_file_timeout (path data : bytes) (timeout : Z) : N Z :=
  with_opened path (Z.lor OWRITE OTRUNC) timeout (λ o, on_opened o (λ fid, write (Some timeout) fid 0 data)).

Definition rpc_path (path request : bytes) : N bytes :=
  at_path None path (λ fid,
    _ ← open None fid ORDWR;
    count ← write None fid 0 request;
    if negb (bool_decide (try_from usize_max count = Some (vlen request)))
    then sthrow (session_error libc.EIO "short RPC request write")
    else read_all fid).

Definition rpc_path_timeout (path request : bytes) (max_response_bytes timeout : Z) : N bytes :=
  _ ← slift (validate_response_bound max_response_bytes);
  with_opened path ORDWR timeout (λ o,
    written ← on_opened o (λ fid, write (Some timeout) fid 0 request);
    if negb (bool_decide (try_from usize_max written = Some (vlen request)))
    then sthrow (SessionError_mk libc.EIO
           (bstr "RPC file accepted " ++ dec written ++ bstr " of " ++ dec (vlen request) ++ bstr " request bytes"))
    else on_opened o (λ fid, read_full_timeout fid 0 max_response_bytes timeout)).

(** The parent that is walked and the element that is created. *)
Definition create_target (parent name : bytes) : SResult (bytes * bytes) :=
  match parse_namespace_path parent with
  | inl e => inl e
  | inr _ =>
      match rsplit_once slash name with
      | None => inr (parent, name)
      | Some (relative_parent, leaf) =>
          if starts_with [slash] name
          then inl (session_error libc.EINVAL "create path must be relative to its parent")
          else match parse_namespace_path name with
               | inl e => inl e
               | inr _ =>
                   inr (if bool_decide (parent = [slash]) then slash :: relative_parent
                        else parent ++ [slash] ++ relative_parent, leaf)
               end
      end
  end.

Definition child_path (parent name : bytes) : bytes :=
  if bool_decide (parent = [slash]) then slash :: name else parent ++ [slash] ++ name.

Definition create_at (timeout : option Z) (parent name : bytes) (perm mode : Z) : N Qid :=
  t ← slift (create_target parent name);
  at_path timeout t.1 (λ parent_fid,
    created ← create timeout parent_fid t.2 perm mode;
    _ ← clunk timeout created.1;
    mret created.2).

Definition create_write_at (timeout : option Z) (parent name : bytes) (perm mode offset : Z) (data : bytes) : N Z :=
  t ← slift (create_target parent name);
  at_path timeout t.1 (λ parent_fid,
    created ← create timeout parent_fid t.2 perm mode;
    written ← sattempt (write timeout created.1 offset data);
    finish_fid timeout created.1 written).

(** Replace, else create, else replace: each only after a definite answer. *)
Definition reconcile (replace create : N Z) : N Z :=
  replaced ← sattempt replace;
  match replaced with
  | inr count => mret count
  | inl error =>
      if errno error =? libc.ENOENT then
        created ← sattempt create;
        match created with
        | inr count => mret count
        | inl error => if errno error =? libc.EEXIST then replace else sthrow error
        end
      else sthrow error
  end.

Definition reconcile_file_at (parent name : bytes) (perm : Z) (data : bytes) : N Z :=
  t ← slift (create_target parent name);
  let path := child_path t.1 t.2 in
  reconcile (write_file path data) (create_write_at None t.1 t.2 perm OWRITE 0 data).

Definition reconcile_file_at_timeout (parent name : bytes) (perm : Z) (data : bytes) (timeout : Z) : N Z :=
  t ← slift (create_target parent name);
  let path := child_path t.1 t.2 in
  reconcile (write_file_timeout path data timeout) (create_write_at (Some timeout) t.1 t.2 perm OWRITE 0 data).

Definition remove_path (path : bytes) : N unit := fid ← walk_path None path; remove None fid.

End operations.
