(* ===== verification/NamespaceInv.v ===== *)
(** The invariant of a composed namespace and a program logic for its client.

    A triple [hoare P m Q] of a call [m] says that from a state with the invariant
    and [P] it leads to one with the invariant that extends it and, where [m] has a
    result, with [Q]: the invariant and [extends] are part of every triple, so a
    proof follows the code of the call. *)
From stdpp Require Import sorting.
From S2P Require Import Prelude Errors Qid Stat Utf8 Referral Codec FrameIO ClientSupport Blocking MultiplexClient.
From S2P Require Import NamespaceCache Text SessionErrors Endpoint ExportDescriptor SessionConfig NamespaceRouting NamespaceRoutingProps NamespaceClient NamespaceOps.

(** ** The connections that were made *)

(** What each connection was made with; a new connection has a new identity
    ([identity: Arc::new(())]), and nothing but dialling makes one. *)
Class DialLog (W C : Type) `{!Connections W C} := {
  dialed : W → gmap Z ConnectionConfig;
  dialed_set c x w : dialed (set_connection c x w) = dialed w;
  dialed_shutdown c w : dialed (shutdown_connection c w).2 = dialed w;
  dialed_instant w : dialed (instant w).2 = dialed w;
  dialed_sleep d w : dialed (sleep d w) = dialed w;
  dialed_once config timeout w :
    match connect_once config timeout w with
    | (inr c, w') => dialed w !! c = None ∧ dialed w' = <[c := config]> (dialed w)
    | (inl _, w') => dialed w' = dialed w
    end;
}.

Section invariant.
Context {W C : Type} `{!Caller C} `{!Connections W C} `{!DialLog W C} {dbg : DebugText} {dur : DurationText}.

Abbreviation N := (S_ (Namespace W)).
Abbreviation log s := (dialed (ns_world s)).

(** ** The invariant *)

(** The connection was made for a valid referral of that mount, as it asks. *)
Definition authorized (s : Namespace W) (mount : bytes) (client : Z) : Prop :=
  ∃ r config, validate r = Ok () ∧ mount_path r = mount ∧
    route_config (ns_session_auth s) (ns_service_msize s) r = inr config ∧ log s !! client = Some config.

Definition target_ok (s : Namespace W) (path : NPath) (t : FidTarget) : Prop :=
  match t with
  | ReferralDirectoryTarget => path ≠ []
  | Remote remote =>
      match rf_route_mount remote with
      | None => rf_client remote = ns_root s
      | Some mount =>
          (∃ ms rest, mount = path_of ms ∧ ms ≠ [] ∧ Forall seg_ok ms ∧ path = ms ++ rest) ∧
          authorized s mount (rf_client remote)
      end
  end.

Definition binding_ok (s : Namespace W) (fid : Z) (b : FidBinding) : Prop :=
  ROOT_FID ≤ fid < NOFID ∧ Forall elem_ok (namespace_path b) ∧ target_ok s (namespace_path b) (target b).

Definition root_binding (s : Namespace W) (b : FidBinding) : Prop :=
  ∃ fid, b = FidBinding_mk [] (Remote (RemoteFid_mk (ns_root s) fid None)).

(** A route with a connection: it was made for the referral, and [shutdown] knows it. *)
Definition route_ok (s : Namespace W) (r : Route) : Prop :=
  ∀ client, rt_client r = Some client →
    client ∈ ns_connected_routes s ∧
    ∃ config, route_config (ns_session_auth s) (ns_service_msize s) (rt_referral r) = inr config ∧
      log s !! client = Some config.

(** No two routes share a connection, and none has the root's. *)
Definition clients_apart (root : Z) (routes : list Route) : Prop :=
  (∀ r, r ∈ routes → rt_client r ≠ Some root) ∧
  ∀ r1 r2 c, r1 ∈ routes → r2 ∈ routes → rt_client r1 = Some c → rt_client r2 = Some c →
    mount_path (rt_referral r1) = mount_path (rt_referral r2).

Record ns_inv (s : Namespace W) : Prop := {
  inv_routes : routes_ok (ns_routes s);
  inv_clients : clients_apart (ns_root s) (ns_routes s);
  inv_authority : Forall (route_ok s) (ns_routes s);
  inv_root_dialed : is_Some (log s !! ns_root s);
  inv_next : FIRST_DYNAMIC_FID ≤ ns_next s ≤ u32_max;
  inv_root : ∃ b, ns_bindings s !! ROOT_FID = Some b ∧ root_binding s b;
  inv_bindings : map_Forall (binding_ok s) (ns_bindings s);
}.

(** ** States that extend a state *)

Record extends (s s' : Namespace W) : Prop := {
  ext_root : ns_root s' = ns_root s;
  ext_auth : ns_session_auth s' = ns_session_auth s;
  ext_msize : ns_service_msize s' = ns_service_msize s;
  ext_timeout : ns_connect_timeout s' = ns_connect_timeout s;
  ext_log : log s ⊆ log s';
}.

#[export] Instance extends_preorder : PreOrder extends.
Proof.
  split; [by intros s; constructor|]. intros s1 s2 s3 [] []. constructor; try congruence. by etrans.
Qed.

Lemma authorized_extends s s' mount client : extends s s' → authorized s mount client → authorized s' mount client.
Proof.
  intros [_ Ha Hm _ Hl] (r & config & ? & ? & ? & ?). exists r, config. rewrite Ha, Hm. split_and!; try done.
  by eapply lookup_weaken.
Qed.

Lemma target_ok_extends s s' path t : extends s s' → target_ok s path t → target_ok s' path t.
Proof.
  intros He. unfold target_ok. repeat case_match; try done.
  - intros [? ?]. split; [done|]. by eapply authorized_extends.
  - by rewrite (ext_root _ _ He).
Qed.

Lemma binding_ok_extends s s' fid b : extends s s' → binding_ok s fid b → binding_ok s' fid b.
Proof. intros He (? & ? & ?). split; [done|split; [done|]]. by eapply target_ok_extends. Qed.

Lemma bindings_extend s s' : extends s s' → map_Forall (binding_ok s) (ns_bindings s) →
  map_Forall (binding_ok s') (ns_bindings s).
Proof. intros He H fid b Hb. by eapply binding_ok_extends, H. Qed.

(** ** The logic *)

Definition hoare {A} (P : Namespace W → Prop) (m : N A) (Q : A → Namespace W → Prop) : Prop :=
  ∀ s r s', m s = (r, s') → ns_inv s → P s → ns_inv s' ∧ extends s s' ∧ ∀ a, r = inr a → Q a s'.

Definition stable (F : Namespace W → Prop) : Prop := ∀ s s', extends s s' → F s → F s'.

Lemma hoare_ret {A} P (a : A) (Q : A → Namespace W → Prop) : (∀ s, P s → Q a s) → hoare P (mret a) Q.
Proof. intros H s r s' [= <- <-] Hi Hp. split_and!; [done|done|]. intros ? [= <-]. by apply H. Qed.

Lemma hoare_throw {A} P e (Q : A → Namespace W → Prop) : hoare P (sthrow e) Q.
Proof. intros s r s' [= <- <-] Hi Hp. split_and!; [done|done|]. by intros a [=]. Qed.

Lemma hoare_lift {A} (P : Namespace W → Prop) (r : SResult A) (Q : A → Namespace W → Prop) :
  (∀ s a, r = inr a → P s → Q a s) → hoare P (slift r) Q.
Proof. intros H s r' s' [= <- <-] Hi Hp. split_and!; [done|done|]. intros a ->. by apply H. Qed.

Lemma hoare_gets {A} P (f : Namespace W → A) : hoare P (sgets f) (λ a s, a = f s ∧ P s).
Proof. intros s r s' [= <- <-] Hi Hp. split_and!; [done|done|]. by intros a [= <-]. Qed.

Lemma hoare_bind {A B} P (m : N A) (k : A → N B) Q Q' :
  hoare P m Q → (∀ a, hoare (Q a) (k a) Q') → hoare P (m ≫= k) Q'.
Proof.
  intros Hm Hk s r s' E Hi Hp. unfold mbind, S_bind in E. destruct (m s) as [[e|a] s1] eqn:Em.
  - injection E as <- <-. destruct (Hm _ _ _ Em Hi Hp) as (? & ? & _). split_and!; [done|done|]. by intros b [=].
  - destruct (Hm _ _ _ Em Hi Hp) as (Hi1 & ? & HQ). destruct (Hk a _ _ _ E Hi1 (HQ a eq_refl)) as (? & ? & ?).
    split_and!; [done|by etrans|done].
Qed.

Lemma hoare_weaken {A} (P P' : Namespace W → Prop) (m : N A) (Q Q' : A → Namespace W → Prop) :
  hoare P' m Q' → (∀ s, P s → P' s) → (∀ a s, Q' a s → Q a s) → hoare P m Q.
Proof. intros H HP HQ s r s' E Hi Hp. destruct (H s r s' E Hi) as (? & ? & ?); eauto 10. Qed.

Lemma hoare_frame {A} (F P : Namespace W → Prop) (m : N A) Q :
  stable F → hoare P m Q → hoare (λ s, P s ∧ F s) m (λ a s, Q a s ∧ F s).
Proof.
  intros HF H s r s' E Hi [Hp Hf]. destruct (H s r s' E Hi Hp) as (? & He & ?). split_and!; eauto.
Qed.

Lemma hoare_attempt {A} P (m : N A) Q :
  hoare P m Q → hoare P (sattempt m) (λ r s, match r with inr a => Q a s | inl _ => True end).
Proof.
  intros H s r s' E Hi Hp. unfold sattempt in E. destruct (m s) as [r1 s1] eqn:Em. injection E as <- <-.
  destruct (H s r1 s1 Em Hi Hp) as (? & ? & ?). split_and!; [done|done|]. intros r [= <-]. destruct r1; auto.
Qed.

Lemma hoare_pure {A} (φ : Prop) P (m : N A) Q : (φ → hoare P m Q) → hoare (λ s, φ ∧ P s) m Q.
Proof. intros H s r s' E Hi [Hφ Hp]. by apply (H Hφ s). Qed.

(** A bind whose first call keeps what is known. *)
Lemma hoare_keep {A B} (P : Namespace W → Prop) (m : N A) (k : A → N B) Q' :
  stable P → hoare (λ _, True) m (λ _ _, True) → (∀ a, hoare P (k a) Q') → hoare P (m ≫= k) Q'.
Proof.
  intros HP Hm Hk. eapply hoare_bind; [|exact Hk].
  eapply hoare_weaken; [apply (hoare_frame P (λ _, True) m (λ _ _, True)); done|done|]. by intros a s [_ ?].
Qed.

(** ** Calls that only use the connections *)

(** The namespace stays as it is; no connection is made. *)
Definition quiet {A} (m : N A) : Prop := ∀ s, ∃ w, (m s).2 = set_world w s ∧ dialed w = log s.

Lemma set_world_world (s : Namespace W) : set_world (ns_world s) s = s.
Proof. by destruct s. Qed.

Lemma quiet_same {A} (m : N A) : (∀ s, (m s).2 = s) → quiet m.
Proof. intros Hm s. exists (ns_world s). by rewrite set_world_world. Qed.

Lemma quiet_ret {A} (a : A) : quiet (mret a).
Proof. by apply quiet_same. Qed.
Lemma quiet_throw {A} e : quiet (sthrow e : N A).
Proof. by apply quiet_same. Qed.
Lemma quiet_lift {A} (r : SResult A) : quiet (slift r).
Proof. by apply quiet_same. Qed.
Lemma quiet_gets {A} (f : Namespace W → A) : quiet (sgets f).
Proof. by apply quiet_same. Qed.
Lemma quiet_binding fid : quiet (binding fid).
Proof. by apply quiet_same. Qed.

Lemma quiet_bind {A B} (m : N A) (k : A → N B) : quiet m → (∀ a, quiet (k a)) → quiet (m ≫= k).
Proof.
  intros Hm Hk s. destruct (Hm s) as (w & E & Hd). unfold mbind, S_bind.
  destruct (m s) as [[e|a] s1]; simpl in E; subst; [by exists w|].
  destruct (Hk a (set_world w s)) as (w2 & -> & Hd2). exists w2. split; [done|]. simpl in Hd2. congruence.
Qed.

Lemma quiet_attempt {A} (m : N A) : quiet m → quiet (sattempt m).
Proof.
  intros Hm s. destruct (Hm s) as (w & E & Hd). unfold sattempt. destruct (m s) as [r s1]; simpl in *. by exists w.
Qed.

Lemma quiet_direct {A} client (m : M C A) : quiet (direct client m).
Proof.
  intros s. unfold direct, on_connection, on_world. destruct (m _) as [[a|e] x]; simpl;
    eexists; (split; [done|]); apply dialed_set.
Qed.

Lemma quiet_clock : quiet clock.
Proof.
  intros s. unfold clock, on_world. destruct (instant (ns_world s)) as [t w] eqn:E. simpl. exists w. split; [done|].
  pose proof (dialed_instant (ns_world s)) as Hd. by rewrite E in Hd.
Qed.

Lemma quiet_shutdown client : quiet (direct_shutdown client).
Proof.
  intros s. unfold direct_shutdown, on_world. destruct (shutdown_connection client (ns_world s)) as [[a|e] w] eqn:E;
    simpl; exists w; (split; [done|]); pose proof (dialed_shutdown client (ns_world s)) as Hd; by rewrite E in Hd.
Qed.

Lemma quiet_filter_mounts include routes : (∀ r, quiet (include r)) → quiet (filter_mounts include routes).
Proof.
  intros Hi. induction routes as [|r routes IH]; [apply quiet_ret|].
  apply quiet_bind; [done|]. intros b. apply quiet_bind; [done|]. intros rest. apply quiet_ret.
Qed.

Create HintDb quiet.
Hint Resolve quiet_ret quiet_throw quiet_lift quiet_gets quiet_binding quiet_attempt quiet_direct quiet_clock
  quiet_shutdown quiet_filter_mounts : quiet.

(** Follows the binds and the cases of a call. *)
Ltac quiet :=
  repeat first [ solve [auto with quiet nocore] | progress intros | apply quiet_bind | case_match | progress simpl ].

Lemma quiet_is_valid r : quiet (route_is_valid r).
Proof. unfold route_is_valid. quiet. Qed.
Lemma quiet_usable r : quiet (usable r).
Proof. unfold usable. case_match; [quiet|apply quiet_is_valid]. Qed.
Lemma quiet_mounts : quiet (referral_mount_paths usable).
Proof. unfold referral_mount_paths. apply quiet_bind; [quiet|]. intros. apply quiet_filter_mounts, quiet_usable. Qed.
Lemma quiet_miss path t e : quiet (is_referral_directory_miss path t e).
Proof.
  unfold is_referral_directory_miss. case_match; [|quiet]. apply quiet_bind; [apply quiet_mounts|]. quiet.
Qed.
Lemma quiet_should_refresh t e : quiet (should_refresh_routes_after t e).
Proof. unfold should_refresh_routes_after, variant, direct_variant. quiet. Qed.
Lemma quiet_walk_remote timeout t : quiet (walk_remote timeout t).
Proof. unfold walk_remote, direct_root_fid, direct_clone_fid, direct_walk. quiet. Qed.
Lemma quiet_referrals root timeout : quiet (direct_referrals_timeout root timeout).
Proof. unfold direct_referrals_timeout, direct_root_fid. quiet. Qed.

Lemma extends_set_world w s : dialed w = log s → extends s (set_world w s).
Proof. intros E. constructor; try done. simpl. by rewrite E. Qed.

Lemma ns_inv_set_world w s : dialed w = log s → ns_inv s → ns_inv (set_world w s).
Proof.
  intros E []. pose proof (extends_set_world w s E) as He. constructor; try done.
  - simpl. eapply Forall_impl; [exact inv_authority0|]. intros r Hr c Hc.
    destruct (Hr c Hc) as (? & config & ? & ?). split; [done|]. exists config. simpl. by rewrite E.
  - simpl. by rewrite E.
  - exact (bindings_extend _ _ He inv_bindings0).
Qed.

Lemma quiet_keep {A} (P : Namespace W → Prop) (m : N A) :
  quiet m → (∀ w s, dialed w = log s → P s → P (set_world w s)) → hoare P m (λ _, P).
Proof.
  intros Hm HP s r s' E Hi Hp. destruct (Hm s) as (w & E' & Hd). rewrite E in E'. simpl in E'. subst.
  split_and!; [by apply ns_inv_set_world|by apply extends_set_world|auto].
Qed.

Lemma quiet_true {A} P (m : N A) : quiet m → hoare P m (λ _ _, True).
Proof. intros Hm. eapply hoare_weaken; [by apply (quiet_keep (λ _, True))|done|done]. Qed.

(** ** The fid table *)

Definition dynamic (fid : Z) : Prop := FIRST_DYNAMIC_FID ≤ fid ≤ u32_max.

Lemma next_fid_dynamic fid : dynamic fid → dynamic (next_fid fid).
Proof.
  unfold dynamic, next_fid, checked_add, FIRST_DYNAMIC_FID, ROOT_FID. intros Hf. case_match; simpl; vlia.
Qed.

Lemma allocate_loop_sound fuel start next bindings o next' :
  dynamic next → allocate_loop fuel start next bindings = Some (o, next') →
  dynamic next' ∧ match o with
                  | Some fid => dynamic fid ∧ fid ≠ NOFID ∧ bindings !! fid = None
                  | None => True
                  end.
Proof.
  revert next. induction fuel as [|fuel IH]; intros next Hn E; [done|]. cbn [allocate_loop] in E.
  pose proof (next_fid_dynamic _ Hn) as Hn'. destruct (_ && _) eqn:Ef.
  - injection E as <- <-. apply andb_true_iff in Ef as [Hne Hf%bool_decide_eq_true]. split_and!; [done|apply Hn..| |done].
    apply negb_true_iff in Hne. lia.
  - case_match; [by injection E as <- <-|]. by eapply IH.
Qed.

(** The number of dynamic fids, and the one that is tried at turn [k]. *)
Definition fid_space : Z := u32_max - ROOT_FID.

Definition nth_candidate (start : Z) (k : nat) : Z :=
  let x := start - FIRST_DYNAMIC_FID + Z.of_nat k in
  FIRST_DYNAMIC_FID + (if x <? fid_space then x else x - fid_space).

Lemma nth_candidate_inj start i j :
  dynamic start → Z.of_nat i < fid_space → Z.of_nat j < fid_space →
  nth_candidate start i = nth_candidate start j → i = j.
Proof.
  unfold dynamic, nth_candidate, fid_space, FIRST_DYNAMIC_FID, ROOT_FID. intros Hs Hi Hj E.
  repeat case_match; vlia.
Qed.

Lemma nth_candidate_next start k :
  dynamic start → Z.of_nat k < fid_space →
  next_fid (nth_candidate start k) =
    if Z.of_nat (S k) =? fid_space then start else nth_candidate start (S k).
Proof.
  unfold dynamic, nth_candidate, fid_space, next_fid, checked_add, FIRST_DYNAMIC_FID, ROOT_FID. intros Hs Hk.
  rewrite !Nat2Z.inj_succ. repeat case_match; unfold default, id in *; simplify_eq; rewrite ?Z.eqb_eq, ?Z.eqb_neq, ?Z.leb_le, ?Z.leb_gt, ?Z.ltb_lt, ?Z.ltb_ge in *; vlia.
Qed.

(** A loop that has not ended has met [fuel] more occupied fids. *)
Lemma allocate_loop_None fuel start k bindings :
  dynamic start → Z.of_nat k < fid_space → allocate_loop fuel start (nth_candidate start k) bindings = None →
  Z.of_nat (k + fuel) ≤ fid_space ∧
  ∀ j, (k ≤ j < k + fuel)%nat → nth_candidate start j ∈ {[NOFID]} ∪ dom bindings.
Proof.
  intros Hs. revert k. induction fuel as [|fuel IH]; intros k Hk E; [split; [lia|intros; lia]|].
  cbn [allocate_loop] in E. destruct (_ && _) eqn:Ef; [done|]. rewrite nth_candidate_next in E by done.
  destruct (Z.of_nat (S k) =? fid_space) eqn:Ek; [by rewrite Z.eqb_refl in E|].
  destruct (_ =? start) eqn:Es; [done|]. apply Z.eqb_neq in Ek. destruct (IH (S k)) as [H1 H2]; [lia|done|]. split; [lia|].
  intros j Hj. destruct (decide (j = k)) as [->|]; [|apply H2; lia].
  apply andb_false_iff in Ef as [Hn%negb_false_iff|Hb%bool_decide_eq_false].
  - apply elem_of_union. left. apply elem_of_singleton. lia.
  - apply elem_of_union. right. apply elem_of_dom. destruct (bindings !! _) eqn:Eb; [done|done].
Qed.

Lemma allocate_loop_ends start bindings :
  dynamic start → is_Some (allocate_loop (size bindings + 2) start start bindings).
Proof.
  intros Hs. destruct (allocate_loop _ _ _ _) eqn:E; [done|]. exfalso.
  assert (start = nth_candidate start 0) as E0.
  { unfold nth_candidate, fid_space, dynamic, FIRST_DYNAMIC_FID, ROOT_FID in *. case_match; rewrite ?Z.ltb_lt, ?Z.ltb_ge in *; vlia. }
  rewrite E0 in E at 2. apply allocate_loop_None in E as [Hlt Hin]; [|done|unfold fid_space, ROOT_FID; vlia].
  set (l := nth_candidate start <$> seq 0 (size bindings + 2)).
  assert (NoDup l) as Hd.
  { apply NoDup_fmap_2_strong; [|apply NoDup_seq]. intros i j Hi%elem_of_seq Hj%elem_of_seq.
    apply nth_candidate_inj; [done|lia|lia]. }
  assert (size (list_to_set l : gset Z) ≤ size ({[NOFID]} ∪ dom bindings : gset Z))%nat as Hsz.
  { apply subseteq_size. intros x Hx%elem_of_list_to_set. apply list_elem_of_fmap in Hx as (j & -> & Hj%elem_of_seq).
    apply Hin. lia. }
  rewrite size_list_to_set in Hsz by done. subst l. rewrite length_fmap, length_seq in Hsz.
  rewrite size_union_alt, size_singleton in Hsz.
  assert (size (dom bindings ∖ {[NOFID]} : gset Z) ≤ size (dom bindings : gset Z))%nat by (apply subseteq_size; set_solver).
  rewrite size_dom in *. lia.
Qed.

Lemma root_not_dynamic fid : dynamic fid → fid ≠ ROOT_FID.
Proof. unfold dynamic, FIRST_DYNAMIC_FID. lia. Qed.

(** The table is changed below the root only. *)
Lemma ns_inv_set_fids next bindings s :
  ns_inv s → dynamic next → bindings !! ROOT_FID = ns_bindings s !! ROOT_FID → map_Forall (binding_ok s) bindings →
  ns_inv (set_fids next bindings s).
Proof. intros [] Hn Hr Hb. constructor; try done. destruct inv_root0 as (b & ? & ?). exists b. simpl. by rewrite Hr. Qed.

Lemma extends_set_fids next bindings s : extends s (set_fids next bindings s).
Proof. by constructor. Qed.

Lemma hoare_allocate b :
  hoare (λ s, Forall elem_ok (namespace_path b) ∧ target_ok s (namespace_path b) (target b)) (allocate_binding b)
    (λ fid s, ns_bindings s !! fid = Some b ∧ fid ≠ ROOT_FID).
Proof.
  intros s r s' E Hi [Hp Ht]. unfold allocate_binding in E. pose proof (inv_next _ Hi) as Hn.
  destruct (allocate_loop _ _ _ _) as [[[fid|] next]|] eqn:El; [| |by destruct (allocate_loop_ends _ (ns_bindings s) Hn); congruence].
  - apply allocate_loop_sound in El as (Hd & Hf & Hne & Hfree); [|done]. injection E as <- <-.
    split_and!; [|apply extends_set_fids|].
    + apply ns_inv_set_fids; [done|done|by rewrite lookup_insert_ne by (by apply root_not_dynamic)|].
      apply map_Forall_insert_2; [|apply (inv_bindings _ Hi)]. split; [|done].
      unfold dynamic, FIRST_DYNAMIC_FID, NOFID in *. lia.
    + intros f [= <-]. simpl. split; [apply lookup_insert_eq|by apply root_not_dynamic].
  - apply allocate_loop_sound in El as [Hd _]; [|done]. injection E as <- <-.
    split_and!; [|apply extends_set_fids|by intros ? [=]]. apply ns_inv_set_fids; [done..|apply (inv_bindings _ Hi)].
Qed.

Lemma ns_inv_delete fid s : fid ≠ ROOT_FID → ns_inv s → ns_inv (set_fids (ns_next s) (delete fid (ns_bindings s)) s).
Proof.
  intros Hf Hi. apply ns_inv_set_fids; [done|apply (inv_next _ Hi)|by rewrite lookup_delete_ne|].
  apply map_Forall_delete, (inv_bindings _ Hi).
Qed.

Lemma hoare_remove_binding P fid : fid ≠ ROOT_FID → hoare P (remove_binding fid) (λ _ _, True).
Proof.
  intros Hf s r s' E Hi _. unfold remove_binding in E. case_match; injection E as <- <-.
  - split_and!; [by apply ns_inv_delete|apply extends_set_fids|done].
  - split_and!; [done|done|]. by intros ? [=].
Qed.

Lemma hoare_discard P fid : fid ≠ ROOT_FID → hoare P (discard_binding fid) (λ _ _, True).
Proof. intros Hf s r s' [= <- <-] Hi _. split_and!; [by apply ns_inv_delete|apply extends_set_fids|done]. Qed.

(** ** The routes *)

(** What the dialling of a connection does to the log. *)
Definition dial_effect (config : ConnectionConfig) (w : W) (r : SResult Z) (w' : W) : Prop :=
  match r with
  | inr c => dialed w !! c = None ∧ dialed w' = <[c := config]> (dialed w)
  | inl _ => dialed w' = dialed w
  end.

Lemma connect_loop_effect fuel config timeout started w r w' :
  connect_loop fuel config timeout started w = Some (r, w') → dial_effect config w r w'.
Proof.
  revert w. induction fuel as [|fuel IH]; intros w E; [done|]. cbn [connect_loop] in E.
  pose proof (dialed_once config timeout w) as Hd. destruct (connect_once _ _ _) as [[e|c] w1].
  2:{ by injection E as <- <-. }
  unfold connect_should_retry, connect_retry_sleep in E.
  assert (∀ w, ∃ t w', instant w = (t, w') ∧ dialed w' = dialed w) as Hinst.
  { intros x. pose proof (dialed_instant x). destruct (instant x) as [t y]. by exists t, y. }
  destruct (timeout =? 0); [by injection E as <- <-|]. destruct (Hinst w1) as (t & w2 & E2 & D2). rewrite E2 in E.
  destruct (_ && _); [|injection E as <- <-; simpl; congruence].
  destruct (Hinst w2) as (t3 & w3 & E3 & D3). rewrite E3 in E. apply IH in E. unfold dial_effect in *.
  rewrite !dialed_sleep in E. destruct r; rewrite ?D3, ?D2, ?Hd in E; done.
Qed.

Lemma connect_effect config timeout w :
  dial_effect config w (connect_with_tracker_timeout config timeout w).1 (connect_with_tracker_timeout config timeout w).2.
Proof.
  unfold connect_with_tracker_timeout. pose proof (dialed_instant w) as Hi. destruct (instant w) as [t w1].
  destruct (connect_loop _ _ _ _ w1) as [[r w2]|] eqn:E; [|done]. simpl in *.
  apply connect_loop_effect in E. unfold dial_effect in *. by rewrite Hi in E.
Qed.

Lemma dial_effect_dial config timeout s :
  dial_effect config (ns_world s) (dial config timeout s).1 (ns_world (dial config timeout s).2) ∧
  ∃ w, (dial config timeout s).2 = set_world w s.
Proof.
  unfold dial, on_world. pose proof (connect_effect config timeout (ns_world s)) as He.
  destruct (connect_with_tracker_timeout _ _ _) as [r w]. by split; [|eexists].
Qed.

Lemma same_referrals_ok l l' :
  Forall2 (λ a b, rt_referral a = rt_referral b) l l' → routes_ok l → routes_ok l'.
Proof.
  intros H2 [Hv Hm Hs]. split.
  - clear -H2 Hv. induction H2 as [|a b l l' E H2 IH]; [done|]. apply Forall_cons in Hv as [? ?].
    constructor; [congruence|auto].
  - replace (mounts_of l') with (mounts_of l); [done|]. clear -H2. unfold mounts_of.
    induction H2 as [|a b l l' E H2 IH]; [done|]. simpl. congruence.
  - clear -H2 Hs. induction H2 as [|a b l l' E H2 IH]; [done|]. apply StronglySorted_cons in Hs as [Hf Hs].
    apply StronglySorted_cons. split; [|auto]. clear IH Hs. induction H2 as [|x y l l' E' H2 IH]; [done|].
    apply Forall_cons in Hf as [Hx Hf]. constructor; [|auto]. unfold route_le in *. by rewrite <- E, <- E'.
Qed.

Lemma alter_referrals i client routes :
  Forall2 (λ a b, rt_referral a = rt_referral b) routes (alter (set_client client) i routes).
Proof.
  apply Forall2_lookup. intros j. destruct (decide (i = j)) as [->|];
    [rewrite list_lookup_alter_eq|rewrite list_lookup_alter_ne by done]; destruct (routes !! j); by constructor.
Qed.

Lemma elem_of_alter {A} (f : A → A) i (l : list A) x :
  x ∈ alter f i l → x ∈ l ∨ ∃ y, l !! i = Some y ∧ x = f y.
Proof.
  intros [j Hj]%list_elem_of_lookup. destruct (decide (i = j)) as [->|Hne].
  - rewrite list_lookup_alter_eq in Hj. apply fmap_Some in Hj as (y & Hy & ->). right. by exists y.
  - rewrite list_lookup_alter_ne in Hj by done. left. by eapply list_elem_of_lookup_2.
Qed.

(** New routes, and perhaps more connections to shut down. *)
Lemma ns_inv_routes routes connected s :
  ns_inv s → routes_ok routes → clients_apart (ns_root s) routes →
  Forall (route_ok (set_connected connected s)) routes →
  ns_inv (set_routes routes (set_connected connected s)).
Proof. intros [] Hr Hc Ha. by constructor. Qed.

Lemma hoare_refresh P timeout : hoare P (refresh_routes timeout) (λ _ _, True).
Proof.
  unfold refresh_routes. eapply hoare_bind; [by apply quiet_true, quiet_gets|]. intros root.
  eapply hoare_bind; [by apply quiet_true, quiet_referrals|]. intros rs.
  eapply hoare_bind; [apply hoare_gets|]. intros old.
  eapply hoare_bind; [apply quiet_keep; [apply quiet_clock|done]|]. intros now. simpl.
  eapply (hoare_bind _ _ _ (λ routes s, build_routes now rs (ns_routes s) = inr routes)).
  { apply hoare_lift. intros s a E [-> _]. done. }
  intros routes s r s' [= <- <-] Hi Hb. split_and!; [|by constructor|done].
  pose proof (inv_clients _ Hi) as [Hroot Hapart].
  assert (∀ x c, x ∈ routes → rt_client x = Some c → ∃ old, old ∈ ns_routes s ∧ rt_client old = Some c ∧
    same_route_identity (rt_referral old) (rt_referral x) = true) as Hret.
  { intros x c Hx Hc. destruct (build_routes_route _ _ _ _ _ Hb Hx) as [_ [_ _ Hcl _]].
    rewrite Hcl in Hc. apply retained_client_Some in Hc as (old0 & ? & ? & ?). by exists old0. }
  destruct s as [root0 auth msz ct rts conn nxt bnd wld]. apply (ns_inv_routes routes conn _ Hi).
  - by eapply build_routes_spec.
  - split.
    + intros x Hx Hc. destruct (Hret _ _ Hx Hc) as (o & Ho & Hoc & _). by apply (Hroot o).
    + intros r1 r2 c H1 H2 C1 C2. destruct (Hret _ _ H1 C1) as (o1 & Ho1 & Hc1 & (I1 & _)%same_route_identity_eq).
      destruct (Hret _ _ H2 C2) as (o2 & Ho2 & Hc2 & (I2 & _)%same_route_identity_eq).
      rewrite <- I1, <- I2. by eapply Hapart.
  - apply Forall_forall. intros x Hx c Hc. destruct (Hret _ _ Hx Hc) as (o & Ho & Hoc & Hs).
    pose proof (inv_authority _ Hi) as Ha. rewrite Forall_forall in Ha. destruct (Ha o Ho c Hoc) as (? & config & Hcfg & ?).
    split; [done|]. exists config. split; [|done].
    apply same_route_identity_eq in Hs as (_ & E1 & E2 & E3 & _ & E4 & _). unfold route_config in *.
    by rewrite <- E1, <- E2, <- E3, <- E4.
Qed.

(** The connection of a route, made as its referral asks. *)
Definition made_for (r : NamespaceReferral) (client : Z) (s : Namespace W) : Prop :=
  ∃ config, route_config (ns_session_auth s) (ns_service_msize s) r = inr config ∧ log s !! client = Some config.

Lemma made_for_stable r client : stable (made_for r client).
Proof.
  intros s s' [_ Ha Hm _ Hl] (config & ? & ?). exists config. rewrite Ha, Hm. split; [done|]. by eapply lookup_weaken.
Qed.

Lemma hoare_dial_route i r config timeout :
  hoare (λ s, ns_routes s !! i = Some r ∧
         route_config (ns_session_auth s) (ns_service_msize s) (rt_referral r) = inr config)
    (connected ← dial config timeout;
     _ ← smodify (λ s, set_connected (ns_connected_routes s ++ [connected]) s);
     _ ← smodify (set_route_client i (Some connected));
     mret connected)
    (λ client s, made_for (rt_referral r) client s).
Proof.
  intros s res s' E Hi [Hr Hcfg]. unfold mbind, S_bind in E.
  destruct (dial_effect_dial config timeout s) as [He [w Hw]]. destruct (dial config timeout s) as [[e|c] s1];
    simpl in Hw, He; subst s1; simpl in E; injection E as <- <-.
  { split_and!; [by apply ns_inv_set_world|by apply extends_set_world|by intros ? [=]]. }
  destruct He as [Hfresh Hlog]. simpl in Hlog.
  set (s' := set_route_client i (Some c) _).
  assert (extends s s') as Hext.
  { constructor; try done. simpl. rewrite Hlog. by apply insert_subseteq. }
  assert (log s' = <[c := config]> (log s)) as Hlog' by done.
  split_and!; [|done|]. 2:{ intros ? [= <-]. exists config. rewrite Hlog', lookup_insert_eq. by split. }
  assert (∀ x, x ∈ ns_routes s' → x ∈ ns_routes s ∨ x = set_client (Some c) r) as Hin.
  { intros x [?|(y & Hy & ->)]%elem_of_alter; [by left|]. right. simpl in Hy. congruence. }
  assert (∀ x d, x ∈ ns_routes s → rt_client x = Some d → d ≠ c) as Hold.
  { intros x d Hx Hd ->. pose proof (inv_authority _ Hi) as Ha. rewrite Forall_forall in Ha.
    destruct (Ha x Hx c Hd) as (_ & ? & _ & ?). congruence. }
  assert (ns_root s ≠ c) as Hroot. { intros <-. destruct (inv_root_dialed _ Hi). congruence. }
  pose proof (inv_clients _ Hi) as [Hr1 Hr2].
  assert (r ∈ ns_routes s) as Hrin by by eapply list_elem_of_lookup_2.
  constructor.
  - by eapply same_referrals_ok, (inv_routes _ Hi); apply alter_referrals.
  - split.
    + intros x [Hx| ->]%Hin; [by apply Hr1|]. simpl. congruence.
    + intros r1 r2 d [H1| ->]%Hin [H2| ->]%Hin; simpl; intros C1 C2; simplify_eq; try done.
      * by eapply Hr2.
      * by destruct (Hold _ _ H1 C1).
      * by destruct (Hold _ _ H2 C2).
  - apply Forall_forall. intros x [Hx| ->]%Hin d Hd; rewrite Hlog'; simpl.
    + pose proof (inv_authority _ Hi) as Ha. rewrite Forall_forall in Ha. destruct (Ha x Hx d Hd) as (? & cfg & ? & ?).
      split; [apply elem_of_app; by left|]. exists cfg. rewrite lookup_insert_ne; [done|]. intros ->. by destruct (Hold x d).
    + simpl in Hd. simplify_eq. split; [apply elem_of_app; right; by apply list_elem_of_singleton|].
      exists config. by rewrite lookup_insert_eq.
  - rewrite Hlog'. simpl. rewrite lookup_insert_ne by done. apply (inv_root_dialed _ Hi).
  - apply (inv_next _ Hi).
  - apply (inv_root _ Hi).
  - exact (bindings_extend _ _ Hext (inv_bindings _ Hi)).
Qed.

Lemma hoare_connect_route i r timeout :
  hoare (λ s, ns_routes s !! i = Some r) (connect_route i r timeout) (λ client s, made_for (rt_referral r) client s).
Proof.
  unfold connect_route. destruct (rt_client r) as [client|] eqn:Hc.
  { intros s res s' [= <- <-] Hi Hr. split_and!; [done|done|]. intros ? [= <-].
    pose proof (inv_authority _ Hi) as Ha. rewrite Forall_forall in Ha.
    by destruct (Ha r (list_elem_of_lookup_2 _ _ _ Hr) client Hc) as [_ ?]. }
  eapply hoare_bind; [apply quiet_keep; [apply quiet_is_valid|done]|]. intros valid.
  destruct (negb valid); [apply hoare_throw|].
  eapply hoare_bind; [apply hoare_gets|]. intros auth. eapply hoare_bind; [apply hoare_gets|]. intros msz.
  eapply (hoare_bind _ _ _ (λ config s, ns_routes s !! i = Some r ∧
    route_config (ns_session_auth s) (ns_service_msize s) (rt_referral r) = inr config)).
  { apply hoare_lift. by intros s config E (-> & -> & ?). }
  intros config. eapply hoare_bind.
  { eapply quiet_keep; [apply quiet_gets|done]. }
  intros configured. apply hoare_dial_route.
Qed.

(** A route loses its connection. *)
Lemma hoare_invalidate P mount client : hoare P (invalidate_route_client mount client) (λ _ _, True).
Proof.
  intros s res s' E Hi _. unfold invalidate_route_client, mbind, S_bind in E. simpl in E.
  destruct (list_find _ _) as [[i r]|] eqn:Ef; [|injection E as <- <-; by split_and!].
  apply list_find_Some in Ef as (Hr & Hm & _).
  case_bool_decide as Hc; simpl in E; injection E as <- <-; [|by split_and!].
  split_and!; [|by constructor|done]. set (connected := filter _ _).
  assert (∀ x, x ∈ alter (set_client None) i (ns_routes s) →
    rt_client x = None ∨ x ∈ ns_routes s ∧ rt_client x ≠ Some client) as Hin.
  { intros x [j Hj]%list_elem_of_lookup. destruct (decide (i = j)) as [->|].
    - rewrite list_lookup_alter_eq, Hr in Hj. injection Hj as <-. by left.
    - rewrite list_lookup_alter_ne in Hj by done. right. pose proof (list_elem_of_lookup_2 _ _ _ Hj) as Hx.
      split; [done|]. intros Hcx. destruct (inv_clients _ Hi) as [_ Hap].
      pose proof (Hap r x client (list_elem_of_lookup_2 _ _ _ Hr) Hx Hc Hcx) as Hmm.
      assert (mounts_of (ns_routes s) !! i = mounts_of (ns_routes s) !! j) as Hij.
      { unfold mounts_of. change (map ?f ?l) with (f <$> l). rewrite !list_lookup_fmap, Hr, Hj. simpl. by rewrite Hmm. }
      destruct (inv_routes _ Hi) as [_ Hnd _].
      assert (is_Some (mounts_of (ns_routes s) !! i)) as [m Hmi].
      { unfold mounts_of. change (map ?f ?l) with (f <$> l). rewrite list_lookup_fmap, Hr. by eexists. }
      by pose proof (NoDup_lookup _ i j m Hnd Hmi ltac:(congruence)). }
  pose proof (inv_authority _ Hi) as Ha. rewrite Forall_forall in Ha. destruct (inv_clients _ Hi) as [Hr1 Hr2].
  apply (ns_inv_routes (alter (set_client None) i (ns_routes s)) connected s Hi).
  - by eapply same_referrals_ok, (inv_routes _ Hi); apply alter_referrals.
  - split.
    + intros x [?|[? _]]%Hin; [congruence|by apply Hr1].
    + intros r1 r2 c [?|[? _]]%Hin [?|[? _]]%Hin ??; [congruence..|]. by eapply Hr2.
  - apply Forall_forall. intros x [?|[Hx Hnc]]%Hin c Hxc; [congruence|]. destruct (Ha x Hx c Hxc) as (Hcon & ? & ? & ?).
    split; [|by eexists]. simpl. apply list_elem_of_filter. split; [congruence|done].
Qed.

(** ** Routing and walking *)

Lemma hoare_inv {A} (P P' : Namespace W → Prop) (m : N A) Q :
  hoare P' m Q → (∀ s, ns_inv s → P s → P' s) → hoare P m Q.
Proof. intros Hm HP s r s' E Hi Hp. by apply (Hm s r s' E Hi), HP. Qed.

Definition found (path : bytes) (o : option (nat * Route)) (s : Namespace W) : Prop :=
  o = list_find (λ r, is_Some (mounted_suffix path (mount_path (rt_referral r)))) (ns_routes s).

Lemma hoare_find_route P path : hoare P (find_route path) (λ o s, found path o s).
Proof. eapply hoare_weaken; [apply hoare_gets|done|]. by intros o s [-> _]. Qed.

Lemma hoare_select_route P path timeout : hoare P (select_route path timeout) (λ o s, found path o s).
Proof.
  unfold select_route. eapply hoare_bind; [apply hoare_find_route|]. intros o.
  eapply hoare_bind; [apply quiet_keep; [|done]|].
  { destruct o as [[i r]|]; [|quiet]. apply quiet_bind; [apply quiet_usable|quiet]. }
  intros [|]; [|by apply hoare_ret]. eapply hoare_bind; [apply hoare_refresh|]. intros ?. apply hoare_find_route.
Qed.

Definition routed_ok (path : NPath) (t : RoutedTarget) (s : Namespace W) : Prop :=
  ∀ fid, target_ok s path (remote_target t fid).

Lemma routed_ok_stable path t : stable (routed_ok path t).
Proof. intros s s' He H fid. by eapply target_ok_extends. Qed.

Lemma hoare_routed_target P path timeout :
  Forall elem_ok path → hoare P (routed_target path timeout) (λ t s, routed_ok path t s).
Proof.
  intros Hp. unfold routed_target. eapply hoare_bind; [apply hoare_select_route|]. intros [[i r]|].
  2:{ eapply hoare_bind; [apply hoare_gets|]. intros root. apply hoare_ret. by intros s [-> _] fid. }
  eapply (hoare_inv _ (λ s, (validate (rt_referral r) = Ok () ∧ ∃ ms, mount_segs r ms ∧ ms `prefix_of` path) ∧
    ns_routes s !! i = Some r)).
  { apply hoare_pure. intros (Hv & ms & (Hm & Hne & Hms) & Hpre). eapply hoare_bind; [apply hoare_connect_route|].
    intros client. eapply hoare_bind.
    { eapply quiet_keep; [apply quiet_lift|]. intros w s Hd. by apply made_for_stable, extends_set_world. }
    intros remote. apply hoare_ret. intros s (config & Hcfg & Hlog) fid. simpl. split.
    - destruct Hpre as [rest ->]. by exists ms, rest.
    - by exists (rt_referral r), config. }
  intros s Hi Hf. unfold found in Hf. symmetry in Hf.
  destruct (find_longest _ _ _ _ (inv_routes _ Hi) Hp Hf) as (Hr & ms & Hms & Hpre & _). split; [|done].
  split; [|by exists ms]. pose proof (rs_valid _ (inv_routes _ Hi)) as Hv. rewrite Forall_forall in Hv.
  by eapply Hv, list_elem_of_lookup_2.
Qed.

Lemma miss_nonempty path t e s s' : is_referral_directory_miss path t e s = (inr true, s') → path ≠ [].
Proof.
  unfold is_referral_directory_miss. intros E ->.
  destruct (errno e =? libc.ENOENT), (bool_decide (tg_route_mount t = None)); done.
Qed.

Lemma hoare_walk_attempt P path timeout routing otherwise :
  Forall elem_ok path →
  (∀ t e, hoare (λ _, True) (otherwise t e) (λ tgt s, target_ok s path tgt)) →
  hoare P (walk_attempt path timeout routing otherwise) (λ tgt s, target_ok s path tgt).
Proof.
  intros Hp Ho. unfold walk_attempt. eapply hoare_bind; [by apply hoare_routed_target|]. intros t.
  eapply hoare_bind.
  { eapply quiet_keep; [apply quiet_attempt, quiet_walk_remote|].
    intros w s Hd. by apply routed_ok_stable, extends_set_world. }
  intros [e|fid]; [|by apply hoare_ret].
  eapply (hoare_bind _ _ _ (λ b _, b = true → path ≠ [])).
  { intros s r s' E Hi Ht. destruct (quiet_true (λ _, True) _ (quiet_miss path t e) s r s' E Hi I) as (? & ? & _).
    split_and!; [done|done|]. intros b -> ->. by eapply miss_nonempty. }
  intros b. destruct b; [apply hoare_ret; intros s Hb; by apply Hb|]. by refine (hoare_weaken _ _ _ _ _ (Ho t e) _ _).
Qed.

Lemma hoare_walk_namespace P timeout path :
  Forall elem_ok path → hoare P (walk_namespace_path timeout path) (λ tgt s, target_ok s path tgt).
Proof.
  intros Hp. unfold walk_namespace_path. eapply hoare_bind; [apply hoare_gets|]. intros configured.
  apply hoare_walk_attempt; [done|]. intros t e.
  eapply hoare_bind; [apply quiet_true, quiet_should_refresh|]. intros [|]; [|apply hoare_throw].
  eapply (hoare_bind _ _ _ (λ _ _, True)).
  { unfold invalidate_failed_route. repeat case_match; try by apply hoare_ret. apply hoare_invalidate. }
  intros ?. eapply hoare_bind; [apply hoare_refresh|]. intros ?. apply hoare_walk_attempt; [done|].
  intros t' e'. apply hoare_throw.
Qed.

(** ** The calls *)

Lemma quiet_on_writable {A} fid (f : RemoteFid → N A) : (∀ r, quiet (f r)) → quiet (on_writable fid f).
Proof. intros Hf. unfold on_writable. quiet. Qed.

Lemma quiet_read_binding b offset count f : (∀ r, quiet (f r)) → quiet (read_binding b offset count f).
Proof.
  intros Hf. unfold read_binding, read_referral_directory, referral_mount_paths. case_match; [done|].
  apply quiet_bind; [|quiet]. apply quiet_bind; [quiet|]. intros routes. apply quiet_filter_mounts. quiet.
Qed.

Hint Resolve quiet_on_writable quiet_read_binding : quiet.

Lemma quiet_shutdown_all clients e : quiet (shutdown_all clients e).
Proof.
  revert e. induction clients as [|c clients IH]; intros e; [apply quiet_ret|].
  apply quiet_bind; [apply quiet_attempt, quiet_shutdown|]. intros r. apply IH.
Qed.

(** The calls that only use a connection. *)
Inductive plain_call : ∀ A, N A → Prop :=
  | plain_open timeout fid mode : plain_call _ (open timeout fid mode)
  | plain_read timeout fid offset count : plain_call _ (read_with timeout fid offset count)
  | plain_submit fid offset count : plain_call _ (submit_read fid offset count)
  | plain_wait timeout p : plain_call _ (pending_wait timeout p)
  | plain_flush fid tag timeout : plain_call _ (flush_read_tag_timeout fid tag timeout)
  | plain_read_full timeout fid offset count : plain_call _ (read_full_with timeout fid offset count)
  | plain_parallel fid offset count n timeout : plain_call _ (read_exact_parallel_timeout fid offset count n timeout)
  | plain_delimited timeout fid offset count d : plain_call _ (read_delimited_with timeout fid offset count d)
  | plain_write timeout fid offset data : plain_call _ (write timeout fid offset data)
  | plain_write_once timeout fid offset data : plain_call _ (write_once timeout fid offset data)
  | plain_stat timeout fid : plain_call _ (stat timeout fid)
  | plain_wstat timeout fid st : plain_call _ (wstat timeout fid st)
  | plain_rename timeout f1 n1 f2 n2 : plain_call _ (rename_at timeout f1 n1 f2 n2)
  | plain_validate st : plain_call _ (validate_stat st)
  | plain_shutdown : plain_call _ shutdown.

Lemma quiet_plain A (m : N A) : plain_call A m → quiet m.
Proof.
  destruct 1; unfold open, read_with, submit_read, pending_wait, flush_read_tag_timeout, read_full_with,
    read_exact_parallel_timeout, read_delimited_with, write, write_once, stat, wstat, rename_at, validate_stat,
    shutdown, variant, direct_open, direct_read, direct_submit_read, direct_wait_read, direct_flush_tag_timeout,
    direct_read_full, direct_read_exact_parallel_timeout, direct_read_delimited, direct_write, direct_write_once,
    direct_stat, direct_validate_stat, direct_variant, direct_wstat, direct_rename_at;
    try solve [quiet].
  apply quiet_bind; [quiet|]. intros. apply quiet_bind; [quiet|]. intros.
  apply quiet_bind; [apply quiet_shutdown_all|]. quiet.
Qed.

Lemma hoare_binding P fid : hoare P (binding fid) (λ b s, ns_bindings s !! fid = Some b ∧ binding_ok s fid b ∧ P s).
Proof.
  intros s r s' [= <- <-] Hi Hp. split_and!; [done|done|]. intros b Hb.
  destruct (ns_bindings s !! fid) as [x|] eqn:E; [|done]. injection Hb as <-. split_and!; [done|apply (inv_bindings _ Hi _ _ E)..|done].
Qed.

Lemma hoare_clone P timeout fid :
  hoare P (clone_fid timeout fid) (λ f _, f ≠ ROOT_FID).
Proof.
  unfold clone_fid. eapply hoare_bind; [apply hoare_binding|]. intros b.
  eapply (hoare_bind _ _ _ (λ t s, Forall elem_ok (namespace_path b) ∧ target_ok s (namespace_path b) t)).
  - eapply (hoare_inv _ (λ s, Forall elem_ok (namespace_path b) ∧ target_ok s (namespace_path b) (target b)));
      [|by intros s _ (_ & (_ & ? & ?) & _)].
    apply hoare_pure. intros Hp. destruct (target b) as [remote|]; [|by apply hoare_ret].
    eapply hoare_bind.
    { eapply quiet_keep; [apply quiet_direct|]. intros w s Hd. by apply target_ok_extends, extends_set_world. }
    intros f. apply hoare_ret. intros s Ht. split; [done|]. exact Ht.
  - intros t. eapply hoare_weaken; [apply hoare_allocate|done|]. by intros f s [_ ?].
Qed.

Lemma hoare_walk P fid names timeout : hoare P (walk_timeout fid names timeout) (λ f _, f ≠ ROOT_FID).
Proof.
  unfold walk_timeout. eapply hoare_bind; [apply hoare_binding|]. intros b.
  eapply (hoare_bind _ _ _ (λ path s, Forall elem_ok path ∧ True)).
  { apply hoare_lift. intros s path E (_ & (_ & Hp & _) & _). split; [by eapply apply_walk_ok|done]. }
  intros path. apply hoare_pure. intros Hp. eapply hoare_bind; [by apply hoare_walk_namespace|].
  intros t. eapply hoare_weaken; [apply hoare_allocate|done|]. by intros f s [_ ?].
Qed.

Lemma hoare_walk_path P timeout path : hoare P (walk_path timeout path) (λ f _, f ≠ ROOT_FID).
Proof.
  unfold walk_path. eapply (hoare_bind _ _ _ (λ path s, Forall elem_ok path ∧ True)).
  { apply hoare_lift. intros s p E _. apply parse_namespace_path_ok in E as [? _]. split; [by apply canonical_elem_ok|done]. }
  intros p. apply hoare_pure. intros Hp. eapply hoare_bind; [by apply hoare_walk_namespace|].
  intros t. eapply hoare_weaken; [apply hoare_allocate|done|]. by intros f s [_ ?].
Qed.

Lemma hoare_create P timeout fid name perm mode : hoare P (create timeout fid name perm mode) (λ _ _, True).
Proof.
  unfold create. eapply (hoare_bind _ _ _ (λ _ _, elem_ok name ∧ True)).
  { apply hoare_lift. intros s [] E _. split; [by apply validate_path_element_ok|done]. }
  intros ?. apply hoare_pure. intros Hn. eapply hoare_bind; [apply hoare_binding|]. intros parent.
  eapply (hoare_bind _ _ _ (λ remote s, Forall elem_ok (namespace_path parent ++ [name]) ∧
    target_ok s (namespace_path parent ++ [name]) (Remote remote))).
  { apply hoare_lift. intros s remote E (_ & (_ & Hp & Ht) & _). split; [apply Forall_app; by rewrite Forall_singleton|].
    unfold writable_remote in E. destruct (target parent); [|done]. injection E as ->. unfold target_ok in *.
    destruct (rf_route_mount remote); [|done]. destruct Ht as [(ms & rest & ? & ? & ? & ->) ?]. split; [|done].
    exists ms, (rest ++ [name]). by rewrite app_assoc. }
  intros remote. apply hoare_pure. intros Hp.
  apply hoare_keep; [intros s s' He; by apply target_ok_extends|
    by eapply hoare_weaken; [apply (hoare_routed_target (λ _, True) _ (default 0 timeout) Hp)|..]|].
  intros selected. case_match; [apply hoare_throw|]. eapply hoare_bind.
  { eapply quiet_keep; [apply quiet_direct|]. intros w s Hd. by apply target_ok_extends, extends_set_world. }
  intros [f q]. simpl. eapply hoare_bind.
  { eapply hoare_weaken; [apply hoare_allocate|by intros s Ht; split|done]. }
  intros g. by apply hoare_ret.
Qed.

Lemma hoare_clunk P timeout fid : hoare P (clunk timeout fid) (λ _ _, True).
Proof.
  unfold clunk. destruct (fid =? ROOT_FID) eqn:E; [apply hoare_throw|]. apply Z.eqb_neq in E.
  eapply hoare_bind; [apply quiet_true, quiet_binding|]. intros b.
  eapply hoare_bind; [apply quiet_true; unfold direct_clunk; quiet|]. intros ?. by apply hoare_remove_binding.
Qed.

Lemma hoare_remove P timeout fid : hoare P (remove timeout fid) (λ _ _, True).
Proof.
  unfold remove. destruct (fid =? ROOT_FID) eqn:E; [apply hoare_throw|]. apply Z.eqb_neq in E.
  eapply hoare_bind; [apply quiet_true, quiet_on_writable; intros; apply quiet_direct|].
  intros ?. by apply hoare_remove_binding.
Qed.

Lemma hoare_recover P fid client mount e timeout :
  fid ≠ ROOT_FID → hoare P (recover_read_only_route fid client mount e timeout) (λ _ _, True).
Proof.
  intros Hf. unfold recover_read_only_route. destruct mount; [|by apply hoare_ret].
  case_match; [by apply hoare_ret|]. eapply hoare_bind; [by apply hoare_discard|]. intros ?.
  eapply hoare_bind; [apply hoare_invalidate|]. intros ?. eapply hoare_bind; [apply hoare_refresh|].
  intros ?. by apply hoare_ret.
Qed.

Lemma hoare_finish {A} P timeout fid (r : SResult A) : hoare P (finish_fid timeout fid r) (λ _ _, True).
Proof.
  unfold finish_fid. eapply hoare_bind; [apply hoare_attempt, hoare_clunk|]. intros clunked.
  destruct r, clunked; try apply hoare_throw. by apply hoare_ret.
Qed.

Lemma hoare_read_only {A} P retries path timeout (operation : Z → N A) :
  (∀ fid, hoare (λ _, True) (operation fid) (λ _ _, True)) →
  hoare P (read_only_attempts retries path timeout operation) (λ _ _, True).
Proof.
  intros Ho. revert P. induction retries as [|retries IH]; intros P; cbn [read_only_attempts];
    (eapply hoare_bind; [apply hoare_walk_path|]; intros fid;
     eapply (hoare_bind _ _ _ (λ _ _, fid ≠ ROOT_FID ∧ True));
       [apply (hoare_weaken _ (λ _, fid ≠ ROOT_FID) _ _ (λ _ _, fid ≠ ROOT_FID));
          [apply quiet_keep; [unfold route_failure_context; quiet|done]|done|by intros]|];
     intros context; apply hoare_pure; intros Hf; eapply hoare_bind; [apply hoare_attempt, Ho|]; intros r;
     eapply hoare_bind; [apply hoare_attempt, hoare_finish|]; intros r'; destruct r' as [e|a]).
  - apply hoare_throw.
  - by apply hoare_lift.
  - eapply hoare_bind; [by apply hoare_recover|]. intros recovered. destruct recovered; [apply IH|apply hoare_throw].
  - by apply hoare_lift.
Qed.

(** Client code: programs of the calls of a [Client]. *)
Inductive program : ∀ A, N A → Prop :=
  | program_ret A (a : A) : program A (mret a)
  | program_throw A e : program A (sthrow e)
  | program_bind A B (m : N A) (k : A → N B) : program A m → (∀ a, program B (k a)) → program B (m ≫= k)
  | program_attempt A (m : N A) : program A m → program _ (sattempt m)
  | program_plain A (m : N A) : plain_call A m → program A m
  | program_clone timeout fid : program _ (clone_fid timeout fid)
  | program_walk fid names timeout : program _ (walk_timeout fid names timeout)
  | program_walk_path timeout path : program _ (walk_path timeout path)
  | program_create timeout fid name perm mode : program _ (create timeout fid name perm mode)
  | program_clunk timeout fid : program _ (clunk timeout fid)
  | program_remove timeout fid : program _ (remove timeout fid)
  | program_read_only A path timeout (operation : Z → N A) :
      (∀ fid, program A (operation fid)) → program A (read_only_path_timeout path timeout operation).

Lemma hoare_program A (m : N A) : program A m → hoare (λ _, True) m (λ _ _, True).
Proof.
  induction 1.
  - by apply hoare_ret.
  - apply hoare_throw.
  - by eapply hoare_bind.
  - eapply hoare_weaken; [by apply hoare_attempt|done|done].
  - by apply quiet_true, quiet_plain.
  - eapply hoare_weaken; [apply (hoare_clone (λ _, True))|done|done].
  - eapply hoare_weaken; [apply (hoare_walk (λ _, True))|done|done].
  - eapply hoare_weaken; [apply (hoare_walk_path (λ _, True))|done|done].
  - apply hoare_create.
  - apply hoare_clunk.
  - apply hoare_remove.
  - by apply hoare_read_only.
Qed.

(** The paths of paths.rs are such programs. *)
Lemma program_at_path {A} timeout path (use : Z → N A) :
  (∀ fid, program A (use fid)) → program A (at_path timeout path use).
Proof.
  intros Hu. unfold at_path, finish_fid. apply program_bind; [apply program_walk_path|]. intros fid.
  apply program_bind; [by apply program_attempt|]. intros r.
  apply program_bind; [apply program_attempt, program_clunk|]. intros c.
  destruct r, c; first [apply program_throw|apply program_ret].
Qed.

(** ** The first state *)

Lemma connect_inv config timeout w s w' :
  namespace_connect config timeout w = (inr s, w') → ns_inv s.
Proof.
  unfold namespace_connect. pose proof (connect_effect config timeout w) as He.
  destruct (connect_with_tracker_timeout config timeout w) as [[e|root] w1]; [done|].
  destruct He as [Hfresh Hlog]. intros E. simpl in Hlog.
  set (start := Namespace_mk _ _ _ _ _ _ _ _ _) in E.
  assert (∀ A B (m : N A) (k : A → N B) s0 b s2, quiet m → (m ≫= k) s0 = (inr b, s2) →
    ∃ a w, m s0 = (inr a, set_world w s0) ∧ dialed w = log s0 ∧ k a (set_world w s0) = (inr b, s2)) as Hstep.
  { intros A B m k s0 b s2 Hm E'. unfold mbind, S_bind in E'. destruct (Hm s0) as (wx & Ew & Hd).
    destruct (m s0) as [[?|a] s1]; [done|]. simpl in Ew. subst. by exists a, wx. }
  match type of E with (match ?b with _ => _ end) = _ => destruct b as [[e|[routes fid]] s1] eqn:Eb end; [done|].
  injection E as <- <-.
  apply Hstep in Eb as (v & w2 & _ & D2 & Eb); [|unfold direct_variant; quiet].
  apply Hstep in Eb as (rs & w3 & _ & D3 & Eb).
  2:{ case_match; [apply quiet_referrals|quiet]. }
  apply Hstep in Eb as (now & w4 & _ & D4 & Eb); [|apply quiet_clock].
  apply Hstep in Eb as (routes' & w5 & Er & D5 & Eb); [|apply quiet_lift].
  apply Hstep in Eb as (fid' & w6 & _ & D6 & Eb); [|unfold direct_root_fid; quiet].
  injection Eb as -> -> <-. injection Er as Er _. simpl in D2, D3, D4, D5, D6.
  assert (dialed w6 = <[root := config]> (dialed w)) as D by congruence.
  assert (∀ r, r ∈ routes → rt_client r = None) as Hnone.
  { intros r Hr. destruct (build_routes_route _ _ _ _ _ Er Hr) as [_ [_ _ -> _]]. done. }
  constructor; simpl.
  - by eapply build_routes_spec.
  - split; [intros r Hr; by rewrite Hnone|]. intros r1 r2 c H1 _ Hc. by rewrite Hnone in Hc.
  - apply Forall_forall. intros r Hr c Hc. by rewrite Hnone in Hc.
  - rewrite D, lookup_insert_eq. by eexists.
  - unfold FIRST_DYNAMIC_FID, ROOT_FID, u32_max. lia.
  - eexists. split; [apply lookup_singleton_eq|]. by eexists.
  - apply map_Forall_singleton. split; [unfold ROOT_FID, NOFID, u32_max; lia|]. by split.
Qed.

End invariant.
