(* ===== verification/NamespaceProps.v ===== *)
(** What the client of a composed namespace guarantees: theorems on NamespaceClient.v
    and NamespaceOps.v, with a concrete network for the examples. *)
From stdpp Require Import sorting.
From S2P Require Import Prelude Errors Qid Stat Utf8 Referral Codec FrameIO ClientSupport Blocking MultiplexClient.
From S2P Require Import NamespaceCache Text SessionErrors Endpoint ExportDescriptor SessionConfig NamespaceRouting NamespaceRoutingProps NamespaceClient NamespaceOps NamespaceInv.
From S2P Require Import Message RequestTable Client.

Section properties.
Context {W C : Type} `{!Caller C} `{!Connections W C} `{!DialLog W C} {dbg : DebugText} {dur : DurationText}.

Abbreviation N := (S_ (Namespace W)).

(** ** Authority *)

(** What a connection's configuration says about who answers it. *)
Definition proves_authority (config : ConnectionConfig) (r : NamespaceReferral) : Prop :=
  cfg_address config = endpoint r ∧ cfg_uname config = r_uname r ∧ cfg_aname config = r_aname r ∧
  (contained_authority (authority_boundary r) = true ∧ cfg_authentication config = Unauthenticated ∨
   contained_authority (authority_boundary r) = false ∧
   ∃ boundary domain auth, AuthBoundary_parse (authority_boundary r) = Ok boundary ∧
     p9any_domain boundary = Some domain ∧ cfg_authentication config = Authenticated auth ∧
     root_responder auth = Some (ResponderName_mk domain)).

Lemma text_field_ok field v x : text_field field v = inr x → x = v.
Proof. unfold text_field, some_or. destruct (from_utf8 v) eqn:E; [|done]. intros [= <-]. by apply from_utf8_Some. Qed.

Lemma ResponderName_new_ok name r : ResponderName_new name = inr r → r = ResponderName_mk name.
Proof. unfold ResponderName_new. case_match; [|done]. by intros [= <-]. Qed.

Lemma route_config_authority auth msz r config :
  route_config auth msz r = inr config → proves_authority config r.
Proof.
  unfold route_config. destruct (text_field "authority_boundary" _) as [|a] eqn:Ea; [done|]. apply text_field_ok in Ea as ->.
  destruct (route_authentication auth _) as [|authn] eqn:Et; [done|].
  destruct (text_field "endpoint" _) as [|e] eqn:Ee; [done|]. apply text_field_ok in Ee as ->.
  destruct (text_field "uname" _) as [|u] eqn:Eu; [done|]. apply text_field_ok in Eu as ->.
  destruct (text_field "aname" _) as [|n] eqn:En; [done|]. apply text_field_ok in En as ->.
  intros [= <-]. split_and!; try done. simpl. unfold route_authentication in Et.
  destruct (contained_authority _) eqn:Ec; [injection Et as <-; by left|]. right. split; [done|].
  destruct (AuthBoundary_parse _) as [b|] eqn:Eb; [|done]. simpl in Et. destruct (p9any_domain b) as [d|] eqn:Ed; [|done].
  destruct auth as [auth|]; [|done]. destruct (ResponderName_new d) as [|rn] eqn:Er; [done|].
  apply ResponderName_new_ok in Er as ->. injection Et as <-. by eexists _, _, _.
Qed.

(** C18: after any program of client calls on a namespace that was connected, the
    namespace is well formed: the root fid still names the root of the root server;
    the routes are valid, one for each mount, the longer mounts first; no two routes
    share a connection and each is among those [shutdown] closes; every fid is in
    range, and its path is made of elements that are not empty, hold no slash and no
    NUL and are at most 65535 bytes long, below its route's mount.  That is all: an
    element may be [.] or [..], which [create] admits ([create_binds_dotdot]). *)
Theorem namespace_stays_wf {A} config timeout w s0 w0 (m : N A) r s :
  namespace_connect config timeout w = (inr s0, w0) → program A m → m s0 = (r, s) → ns_inv s.
Proof. intros H0 Hm E. apply connect_inv in H0. by destruct (hoare_program A m Hm s0 r s E H0 I). Qed.

(** C8: after any program of client calls, a fid below a referral's mount is served
    by a connection that was made for a valid referral of that very mount: dialled at
    its endpoint under its names, and with the authentication that its authority
    boundary asks for.  A contained boundary (loopback, unix_socket, network_class) is
    dialled without authentication; any other is dialled with authentication that has
    the responder the boundary names as the one to expect.  What that authentication
    proves is the concern of the connection ([connect_once]), not of this theorem. *)
Theorem mounted_fids_authorized {A} config timeout w s0 w0 (m : N A) r s fid b remote mount :
  namespace_connect config timeout w = (inr s0, w0) → program A m → m s0 = (r, s) →
  ns_bindings s !! fid = Some b → target b = Remote remote → rf_route_mount remote = Some mount →
  ∃ referral ms rest made, validate referral = Ok () ∧ mount_path referral = mount ∧ mount = path_of ms ∧
    namespace_path b = ms ++ rest ∧ dialed (ns_world s) !! rf_client remote = Some made ∧
    proves_authority made referral.
Proof.
  intros H0 Hm E Hb Ht Hr. apply connect_inv in H0. destruct (hoare_program A m Hm s0 r s E H0 I) as (Hi & _ & _).
  destruct (inv_bindings _ Hi _ _ Hb) as (_ & _ & Hok). rewrite Ht in Hok. simpl in Hok. rewrite Hr in Hok.
  destruct Hok as [(ms & rest & ? & ? & ? & ?) (referral & made & ? & ? & ? & ?)].
  exists referral, ms, rest, made. split_and!; try done. by eapply route_config_authority.
Qed.

(** ** Routing *)

(** Where a path leads: to the server of the longest mount above it, with the
    mount's elements replaced by those of the exported root, else to the root. *)
Definition resolves (root : Z) (routes : list Route) (path : NPath) (t : RoutedTarget) : Prop :=
  match tg_route_mount t with
  | None =>
      tg_client t = root ∧ tg_remote_path t = path ∧
      ∀ r ms, r ∈ routes → mount_segs r ms → ¬ ms `prefix_of` path
  | Some mount =>
      ∃ r ms rs rest, r ∈ routes ∧ mount_path (rt_referral r) = mount ∧ mount_segs r ms ∧
        exported_root (rt_referral r) = path_of rs ∧ Forall seg_ok rs ∧ path = ms ++ rest ∧
        tg_remote_path t = rs ++ rest ∧ rt_client r = Some (tg_client t) ∧
        ∀ r' ms', r' ∈ routes → mount_segs r' ms' → ms' `prefix_of` path → ms' `prefix_of` ms
  end.

Lemma path_of_inj a b :
  Forall (λ s, s ≠ [] ∧ slash ∉ s) a → Forall (λ s, s ≠ [] ∧ slash ∉ s) b → path_of a = path_of b → a = b.
Proof.
  intros Ha Hb E. assert (∀ x l, Forall (λ s, s ≠ [] ∧ slash ∉ s) (x :: l) → path_of (x :: l) ≠ path_of []) as Hne.
  { intros x l [[Hx _] _]%Forall_cons El. unfold path_of, join_segments in El. simpl in El. by destruct x. }
  assert (∀ l, Forall (λ s, s ≠ [] ∧ slash ∉ s) l → Forall (λ s, slash ∉ s) l) as Hs.
  { intros l H. eapply Forall_impl; [exact H|]. by intros x [_ ?]. }
  destruct a as [|x a], b as [|y b]; [done|by destruct (Hne y b)|by destruct (Hne x a)|].
  apply join_segments_inj; [by apply Hs..|done].
Qed.

Lemma seg_ok_plain l : Forall seg_ok l → Forall (λ s, s ≠ [] ∧ slash ∉ s) l.
Proof. intros H. eapply Forall_impl; [exact H|]. intros x (Hg & ? & _). split; [by apply good_segment_nonempty|done]. Qed.

Lemma elem_ok_plain l : Forall elem_ok l → Forall (λ s, s ≠ [] ∧ slash ∉ s) l.
Proof. intros H. eapply Forall_impl; [exact H|]. by intros x (? & ? & _). Qed.

(** The path at the other server, both ways. *)
Lemma remote_path_ok r ms path remote :
  validate (rt_referral r) = Ok () → mount_segs r ms → Forall elem_ok path →
  remote_path (rt_referral r) (render_namespace_path path) = inr remote →
  ∃ rs rest, exported_root (rt_referral r) = path_of rs ∧ Forall seg_ok rs ∧ path = ms ++ rest ∧ remote = rs ++ rest.
Proof.
  intros Hv (Hm & Hne & Hms) Hp. rewrite render_namespace_path_eq. unfold remote_path, or_protocol.
  destruct (routed_path _ _) as [text|] eqn:Er; [|done]. intros Hparse.
  apply routed_path_rebases in Er as (ms' & rs & rest & Em & Ers & Hall & Hrs & Hne' & Epath & ->); [|done].
  apply Forall_app in Hall as [Hms' Hrest].
  assert (ms' = ms) as ->. { apply path_of_inj; [by apply seg_ok_plain..|congruence]. }
  exists rs, rest. split_and!; try done.
  - apply path_of_inj; [by apply elem_ok_plain|apply seg_ok_plain; by apply Forall_app|done].
  - apply parse_namespace_path_ok in Hparse as (Hc & Ht).
    assert (Forall (λ s, s ≠ [] ∧ slash ∉ s) remote) as Hremote by by apply elem_ok_plain, canonical_elem_ok.
    assert (Forall (λ s, s ≠ [] ∧ slash ∉ s) (rs ++ rest)) by (apply seg_ok_plain; by apply Forall_app).
    destruct Ht as [Ht|[Hr Ht]]; [by apply path_of_inj|]. exfalso. destruct remote as [|x remote]; [done|].
    apply Forall_cons in Hremote as [[Hx Hs] _]. unfold path_of at 2 in Ht. unfold join_segments in Ht. simpl in Ht.
    injection Ht as Ht. assert (∃ y, path_of (rs ++ rest) = slash :: y) as [y Ey].
    { destruct (rs ++ rest); by eexists. }
    rewrite Ey in Ht. destruct x as [|b x]; [done|]. injection Ht as Hb _. apply Hs. rewrite <- Hb. by left.
Qed.

Lemma remote_path_total r ms rs rest :
  validate (rt_referral r) = Ok () → mount_segs r ms → exported_root (rt_referral r) = path_of rs →
  Forall seg_ok (ms ++ rest) → Forall seg_ok rs → Forall elem_ok (rs ++ rest) →
  remote_path (rt_referral r) (render_namespace_path (ms ++ rest)) = inr (rs ++ rest).
Proof.
  intros Hv (Hm & Hne & Hms) Ers Hp Hrs He. rewrite render_namespace_path_eq. unfold remote_path, or_protocol.
  rewrite (proj2 (routed_path_rebases _ _ (path_of (rs ++ rest)) Hv)) by (by exists ms, rs, rest).
  apply parse_namespace_path_ok. split; [|by left]. apply Forall_app in Hp as [_ Hrest].
  assert (Forall seg_ok (rs ++ rest)) as Hs by by apply Forall_app.
  rewrite Forall_forall in *. intros x Hx. split; [by apply He|]. destruct (Hs x Hx) as (Hg & _).
  unfold good_segment in Hg. apply andb_true_iff in Hg as [[_ Hd]%andb_true_iff Hdd].
  apply negb_true_iff, bool_decide_eq_false in Hd, Hdd. done.
Qed.

Lemma connect_route_routes i r timeout s c s' :
  ns_routes s !! i = Some r → connect_route i r timeout s = (inr c, s') →
  ns_routes s' = alter (set_client (Some c)) i (ns_routes s).
Proof.
  intros Hr E. unfold connect_route in E. destruct (rt_client r) as [client|] eqn:Hc.
  - injection E as <- <-. apply list_eq. intros j. destruct (decide (i = j)) as [<-|].
    + rewrite list_lookup_alter_eq, Hr. simpl. destruct r. simpl in *. by subst.
    + by rewrite list_lookup_alter_ne.
  - apply S_bind_ok in E as (v & s1 & Ev & E). destruct (negb v); [done|].
    assert (ns_routes s1 = ns_routes s) as Hs1.
    { destruct (quiet_is_valid r s) as (w & Hw & _). rewrite Ev in Hw. simpl in Hw. by subst. }
    rewrite <- Hs1. apply S_bind_ok in E as (auth & s2 & [= <- <-] & E). apply S_bind_ok in E as (msz & s2 & [= <- <-] & E).
    apply S_bind_ok in E as (config & s2 & Ecfg & E). injection Ecfg as _ <-.
    apply S_bind_ok in E as (ct & s2 & [= <- <-] & E). apply S_bind_ok in E as (d & s2 & Ed & E).
    destruct (dial_effect_dial config (route_connect_timeout timeout (ns_connect_timeout s1)) s1) as [_ [w Hw]].
    rewrite Ed in Hw. simpl in Hw. subst. by injection E as <- <-.
Qed.

Lemma routed_target_sound path timeout s t s' :
  ns_inv s → Forall elem_ok path → routed_target path timeout s = (inr t, s') →
  resolves (ns_root s') (ns_routes s') path t.
Proof.
  intros Hi Hp E. unfold routed_target in E. apply S_bind_ok in E as (o & s1 & Es & E).
  destruct (hoare_select_route (λ _, True) _ _ _ _ _ Es Hi I) as (Hi1 & _ & Hf). specialize (Hf o eq_refl).
  unfold found in Hf. symmetry in Hf. pose proof (inv_routes _ Hi1) as Hok. destruct o as [[i r]|].
  - destruct (find_longest _ _ _ _ Hok Hp Hf) as (Hr & ms & Hms & Hpre & Hmax).
    apply S_bind_ok in E as (c & s2 & Ec & E). apply connect_route_routes in Ec as Hroutes; [|done].
    apply S_bind_ok in E as (remote & s3 & Er & E). injection Er as Er <-. injection E as <- <-.
    pose proof (rs_valid _ Hok) as Hv. rewrite Forall_forall in Hv.
    destruct (remote_path_ok r ms path remote) as (rs & rest & ? & ? & ? & ?); [by eapply Hv, list_elem_of_lookup_2|done..|].
    exists (set_client (Some c) r), ms, rs, rest. rewrite Hroutes. split_and!; try done.
    + apply (list_elem_of_lookup_2 _ i). by rewrite list_lookup_alter_eq, Hr.
    + intros r' ms' [Hr'|(y & Hy & ->)]%elem_of_alter Hms' Hpre'; [by eapply Hmax|].
      eapply (Hmax y ms'); [by eapply list_elem_of_lookup_2|exact Hms'|done].
  - apply S_bind_ok in E as (root & s2 & [= <- <-] & [= <- <-]). simpl. split_and!; [done|done|].
    by apply find_none.
Qed.

(** Every mount has its connection: no answer of the network is needed. *)
Definition connected (routes : list Route) : Prop := Forall (λ r, is_Some (rt_client r)) routes.

Definition short_roots (routes : list Route) : Prop :=
  ∀ r rs, r ∈ routes → exported_root (rt_referral r) = path_of rs → Forall seg_ok rs → Forall elem_ok rs.

Lemma routed_target_total path timeout s :
  ns_inv s → connected (ns_routes s) → short_roots (ns_routes s) → Forall elem_ok path → Forall seg_ok path →
  ∃ t, routed_target path timeout s = (inr t, s).
Proof.
  intros Hi Hc Hshort Hp Hs. unfold routed_target, select_route, find_route. pose proof (inv_routes _ Hi) as Hok.
  destruct (list_find (λ r, is_Some (mounted_suffix (render_namespace_path path) (mount_path (rt_referral r))))
    (ns_routes s)) as [[i r]|] eqn:Ef; unfold mbind, S_bind; cbn [sgets]; rewrite Ef; simpl; [|by eexists].
  destruct (find_longest _ _ _ _ Hok Hp Ef) as (Hr & ms & Hms & [rest ->] & _).
  pose proof (list_elem_of_lookup_2 _ _ _ Hr) as Hin.
  assert (is_Some (rt_client r)) as [c Hrc] by (unfold connected in Hc; rewrite Forall_forall in Hc; by apply Hc).
  assert (has_client r = true) as Hhas by (unfold has_client; by rewrite Hrc).
  unfold usable. rewrite Hhas. simpl. unfold connect_route. rewrite Hrc. simpl.
  pose proof (rs_valid _ Hok) as Hv. rewrite Forall_forall in Hv. specialize (Hv r Hin).
  destruct (validate_paths _ Hv) as (_ & rs & _ & Ers & _ & _ & Hrs).
  pose proof (remote_path_total r ms rs rest Hv Hms Ers Hs Hrs) as Ht. unfold slift. rewrite Ht; [by eexists|].
  apply Forall_app in Hp as [_ ?]. apply Forall_app. split; [by eapply Hshort|done].
Qed.

(** C19: routing implements the composed namespace: whatever the network answers, the
    server and the path a path is routed to are those of the longest mount above it,
    the mount's elements replaced by the exported root's (the root server and the path
    itself where no mount is above it).  Once the mounts are connected, a path is routed
    with no call to any server, provided that its elements hold no control bytes and are
    not [.] or [..] ([seg_ok]; a path below a mount with such an element is refused), and that the
    elements of the exported roots are short enough for names of the protocol
    ([short_roots]). *)
Theorem routing_takes_longest_mount path timeout s :
  ns_inv s → Forall elem_ok path →
  (∀ t s', routed_target path timeout s = (inr t, s') → resolves (ns_root s') (ns_routes s') path t) ∧
  (connected (ns_routes s) → short_roots (ns_routes s) → Forall seg_ok path →
   ∃ t, routed_target path timeout s = (inr t, s) ∧ resolves (ns_root s) (ns_routes s) path t).
Proof.
  intros Hi Hp. split; [intros; by eapply routed_target_sound|].
  intros Hc Hs Hseg. destruct (routed_target_total path timeout s) as [t Ht]; try done.
  exists t. split; [done|]. by eapply routed_target_sound.
Qed.

(** ** The fids of path operations *)

(** A call that gives back the fids it takes: it never disturbs the fids there are,
    and a result means that it left the table as it was. *)
Definition tidy {A} (m : N A) : Prop :=
  ∀ s r s', ns_inv s → m s = (r, s') →
    ns_inv s' ∧ ns_bindings s ⊆ ns_bindings s' ∧ (∀ a, r = inr a → ns_bindings s' = ns_bindings s).

Definition keeps_fids {A} (m : N A) : Prop := ∀ s, ns_bindings (m s).2 = ns_bindings s.

Lemma ns_keeps_bind {A B} (m : N A) (k : A → N B) : keeps_fids m → (∀ a, keeps_fids (k a)) → keeps_fids (m ≫= k).
Proof.
  intros Hm Hk s. unfold mbind, S_bind. specialize (Hm s). destruct (m s) as [[e|a] s1]; simpl in Hm; [done|].
  by rewrite Hk.
Qed.

Lemma ns_keeps_attempt {A} (m : N A) : keeps_fids m → keeps_fids (sattempt m).
Proof. intros Hm s. specialize (Hm s). unfold sattempt. by destruct (m s). Qed.

Lemma keeps_quiet {A} (m : N A) : quiet m → keeps_fids m.
Proof. intros Hm s. by destruct (Hm s) as (w & -> & _). Qed.

Create HintDb keeps.
Hint Resolve ns_keeps_attempt : keeps.
Hint Extern 2 (keeps_fids (smodify _)) => done : keeps.
Hint Extern 2 (keeps_fids (sgets _)) => apply keeps_quiet, quiet_gets : keeps.
Hint Extern 2 (keeps_fids (slift _)) => apply keeps_quiet, quiet_lift : keeps.
Hint Extern 2 (keeps_fids (sthrow _)) => apply keeps_quiet, quiet_throw : keeps.
Hint Extern 2 (keeps_fids (mret _)) => apply keeps_quiet, quiet_ret : keeps.
Hint Extern 2 (keeps_fids (direct _ _)) => apply keeps_quiet, quiet_direct : keeps.

Ltac keeps := repeat first [ solve [auto with keeps nocore] | progress intros | apply ns_keeps_bind | case_match | progress simpl ].

Lemma keeps_refresh timeout : keeps_fids (refresh_routes timeout).
Proof.
  unfold refresh_routes. apply ns_keeps_bind; [keeps|]. intros root. apply ns_keeps_bind; [apply keeps_quiet, quiet_referrals|].
  intros rs. apply ns_keeps_bind; [keeps|]. intros old. apply ns_keeps_bind; [apply keeps_quiet, quiet_clock|]. keeps.
Qed.

Lemma keeps_dial config timeout : keeps_fids (dial config timeout).
Proof. intros s. destruct (dial_effect_dial config timeout s) as [_ [w ->]]. done. Qed.

Lemma keeps_connect_route i r timeout : keeps_fids (connect_route i r timeout).
Proof.
  unfold connect_route. case_match; [keeps|]. apply ns_keeps_bind; [apply keeps_quiet, quiet_is_valid|].
  intros v. case_match; [keeps|]. do 4 (apply ns_keeps_bind; [keeps|]; intros ?).
  apply ns_keeps_bind; [apply keeps_dial|]. keeps.
Qed.

Lemma keeps_routed_target path timeout : keeps_fids (routed_target path timeout).
Proof.
  unfold routed_target, select_route, find_route. apply ns_keeps_bind.
  - apply ns_keeps_bind; [keeps|]. intros o. apply ns_keeps_bind.
    + destruct o as [[i r]|]; [|keeps]. apply ns_keeps_bind; [apply keeps_quiet, quiet_usable|keeps].
    + intros stale. destruct stale; [|keeps]. apply ns_keeps_bind; [apply keeps_refresh|keeps].
  - intros [[i r]|]; [|keeps]. apply ns_keeps_bind; [apply keeps_connect_route|keeps].
Qed.

Lemma keeps_invalidate mount client : keeps_fids (invalidate_route_client mount client).
Proof. unfold invalidate_route_client. keeps. Qed.

Lemma keeps_walk_attempt path timeout routing otherwise :
  (∀ t e, keeps_fids (otherwise t e)) → keeps_fids (walk_attempt path timeout routing otherwise).
Proof.
  intros Ho. unfold walk_attempt. apply ns_keeps_bind; [apply keeps_routed_target|]. intros t.
  apply ns_keeps_bind; [apply ns_keeps_attempt, keeps_quiet, quiet_walk_remote|]. intros [e|fid]; [|keeps].
  apply ns_keeps_bind; [apply keeps_quiet, quiet_miss|]. intros b. by destruct b; [keeps|apply Ho].
Qed.

Lemma keeps_walk_namespace timeout path : keeps_fids (walk_namespace_path timeout path).
Proof.
  unfold walk_namespace_path. apply ns_keeps_bind; [keeps|]. intros ct. apply keeps_walk_attempt. intros t e.
  apply ns_keeps_bind; [apply keeps_quiet, quiet_should_refresh|]. intros b. destruct b; [|keeps].
  apply ns_keeps_bind.
  { unfold invalidate_failed_route. repeat case_match; try by apply keeps_quiet, quiet_ret. apply keeps_invalidate. }
  intros ?. apply ns_keeps_bind; [apply keeps_refresh|]. intros ?. apply keeps_walk_attempt. keeps.
Qed.

(** The table with one fid more, which was free. *)
Definition takes (fid : Z) (s s' : Namespace W) : Prop :=
  ns_inv s' ∧ ns_bindings s !! fid = None ∧ ∃ b, ns_bindings s' = <[fid := b]> (ns_bindings s).

Lemma allocate_ok b s fid s' :
  ns_inv s → allocate_binding b s = (inr fid, s') →
  ns_bindings s !! fid = None ∧ ns_bindings s' = <[fid := b]> (ns_bindings s).
Proof.
  intros Hi E. unfold allocate_binding in E. destruct (allocate_loop _ _ _ _) as [[[f|] next]|] eqn:El; [|done..].
  injection E as <- <-. by apply allocate_loop_sound in El as (_ & _ & _ & ?); [|apply (inv_next _ Hi)].
Qed.

Lemma allocate_err b (s : Namespace W) e s' : allocate_binding b s = (inl e, s') → ns_bindings s' = ns_bindings s.
Proof. intros E. unfold allocate_binding in E. repeat case_match; simplify_eq/=; done. Qed.

(** A call that keeps the table and then allocates. *)
Lemma allocate_after {A} (m : N A) (b : A → FidBinding) s r s' :
  keeps_fids m → (∀ r s', (m ≫= λ a, allocate_binding (b a)) s = (r, s') → ns_inv s') →
  (∀ a s1, m s = (inr a, s1) → ns_inv s1) →
  (m ≫= λ a, allocate_binding (b a)) s = (r, s') →
  match r with inr fid => takes fid s s' | inl _ => ns_inv s' ∧ ns_bindings s' = ns_bindings s end.
Proof.
  intros Hk Hinv Hmid E. pose proof (Hinv _ _ E) as Hi. specialize (Hk s). destruct r as [e|fid].
  - split; [done|]. apply S_bind_err in E as [E|(a & s1 & E1 & E)]; [by rewrite E in Hk|].
    rewrite E1 in Hk. simpl in Hk. apply allocate_err in E. congruence.
  - apply S_bind_ok in E as (a & s1 & E1 & E). pose proof (Hmid _ _ E1) as Hi1. rewrite E1 in Hk. simpl in Hk.
    apply allocate_ok in E as [Hf Hb]; [|done]. rewrite Hk in *. by split_and!; [| |eexists].
Qed.

Lemma walk_path_takes timeout path s r s' :
  ns_inv s → walk_path timeout path s = (r, s') →
  match r with inr fid => takes fid s s' | inl _ => ns_inv s' ∧ ns_bindings s' = ns_bindings s end.
Proof.
  intros Hi E. destruct (hoare_walk_path (λ _, True) timeout path s r s' E Hi I) as (Hi' & _ & _).
  unfold walk_path in E. destruct (parse_namespace_path path) as [e|p] eqn:Ep.
  { injection E as <- <-. done. }
  apply parse_namespace_path_ok in Ep as [Hp%canonical_elem_ok _].
  change ((walk_namespace_path timeout p ≫= λ t, allocate_binding (FidBinding_mk p t)) s = (r, s')) in E.
  apply allocate_after in E; [done|apply keeps_walk_namespace| |].
  - intros r0 s0 E0. congruence.
  - intros t s1 E1. by destruct (hoare_walk_namespace (λ _, True) timeout p Hp s _ s1 E1 Hi I).
Qed.

Lemma walk_takes fid names timeout s r s' :
  ns_inv s → walk_timeout fid names timeout s = (r, s') →
  match r with inr f => takes f s s' | inl _ => ns_inv s' ∧ ns_bindings s' = ns_bindings s end.
Proof.
  intros Hi E. destruct (hoare_walk (λ _, True) fid names timeout s r s' E Hi I) as (Hi' & _ & _).
  unfold walk_timeout, mbind at 1, S_bind at 1 in E. cbn [binding] in E.
  destruct (ns_bindings s !! fid) as [b|] eqn:Eb; [|by injection E as <- <-]. cbn [some_or] in E.
  destruct (inv_bindings _ Hi _ _ Eb) as (_ & Hb & _).
  destruct (apply_walk (namespace_path b) names) as [e|p] eqn:Ep; [by injection E as <- <-|].
  pose proof (apply_walk_ok _ _ _ Hb Ep) as Hp.
  change ((walk_namespace_path (Some timeout) p ≫= λ t, allocate_binding (FidBinding_mk p t)) s = (r, s')) in E.
  apply allocate_after in E; [done|apply keeps_walk_namespace| |].
  - intros r0 s0 E0. congruence.
  - intros t s1 E1. by destruct (hoare_walk_namespace (λ _, True) (Some timeout) p Hp s _ s1 E1 Hi I).
Qed.

Lemma clone_takes timeout fid s r s' :
  ns_inv s → clone_fid timeout fid s = (r, s') →
  match r with inr f => takes f s s' | inl _ => ns_inv s' ∧ ns_bindings s' = ns_bindings s end.
Proof.
  intros Hi E. destruct (hoare_clone (λ _, True) timeout fid s r s' E Hi I) as (Hi' & _ & _).
  unfold clone_fid, mbind at 1, S_bind at 1 in E. cbn [binding] in E.
  destruct (ns_bindings s !! fid) as [b|]; [|by injection E as <- <-]. cbn [some_or] in E.
  match type of E with (?m ≫= _) _ = _ => assert (quiet m) as Hq end.
  { destruct (target b); [apply quiet_bind; [apply quiet_direct|]; intros|]; apply quiet_ret. }
  apply (allocate_after _ (λ t, FidBinding_mk (namespace_path b) t)) in E; [done|by apply keeps_quiet| |].
  - intros r0 s0 E0. congruence.
  - intros t s1 E1. by destruct (quiet_true (λ _, True) _ Hq s _ s1 E1 Hi I).
Qed.

(** *** Clunks *)

Lemma clunk_table timeout fid s r s' :
  clunk timeout fid s = (r, s') →
  match r with inr _ => ns_bindings s' = delete fid (ns_bindings s) | inl _ => ns_bindings s' = ns_bindings s end.
Proof.
  unfold clunk. case_match; [by intros [= <- <-]|]. intros E.
  assert (∀ b, keeps_fids (match target b with
                           | Remote remote => direct_clunk timeout (rf_client remote) (rf_fid remote)
                           | ReferralDirectoryTarget => mret () end)) as Hk.
  { intros b. unfold direct_clunk. keeps. }
  unfold mbind, S_bind in E. simpl in E. destruct (ns_bindings s !! fid) as [b|]; simpl in E; [|by injection E as <- <-].
  specialize (Hk b s). match type of Hk with ns_bindings ?p.2 = _ => destruct p as [[e|[]] s1] end; simpl in Hk.
  - by injection E as <- <-.
  - unfold remove_binding in E. case_match; injection E as <- <-; simpl; by rewrite Hk.
Qed.

Lemma release fid b (m m2 : gmap Z FidBinding) :
  m !! fid = None → <[fid := b]> m ⊆ m2 →
  m ⊆ m2 ∧ m ⊆ delete fid m2 ∧ (m2 = <[fid := b]> m → delete fid m2 = m).
Proof.
  intros Hf Hs. assert (m ⊆ m2) as Hm by (etrans; [by apply insert_subseteq|done]). split_and!; [done| |].
  - rewrite <- (delete_id m fid) by done. by apply delete_mono.
  - intros ->. by rewrite delete_insert_id.
Qed.

(** What is used between the taking of a fid and its clunk is tidy. *)
Lemma tidy_use {A} timeout fid (use : N A) s s1 r s' :
  takes fid s s1 → tidy use → (result ← sattempt use; finish_fid timeout fid result) s1 = (r, s') →
  ns_inv s' ∧ ns_bindings s ⊆ ns_bindings s' ∧ (∀ a, r = inr a → ns_bindings s' = ns_bindings s).
Proof.
  intros (Hi1 & Hf & b & Hb) Hu E. unfold mbind, S_bind, sattempt at 1 in E. destruct (use s1) as [r2 s2] eqn:E2.
  destruct (Hu s1 r2 s2 Hi1 E2) as (Hi2 & Hsub & Hsame). rewrite Hb in Hsub, Hsame.
  destruct (release fid b _ _ Hf Hsub) as (H1 & H2 & H3).
  destruct (hoare_finish (λ _, True) timeout fid r2 s2 r s' E Hi2 I) as (Hi' & _ & _). split; [done|].
  unfold finish_fid, mbind, S_bind, sattempt in E. destruct (clunk timeout fid s2) as [[e|[]] s3] eqn:Ec;
    apply clunk_table in Ec; destruct r2 as [e2|a2]; injection E as <- <-; rewrite Ec; split; try done.
  intros a [= <-]. apply H3. by apply (Hsame a2).
Qed.

Lemma tidy_at_path {A} timeout path (use : Z → N A) : (∀ fid, tidy (use fid)) → tidy (at_path timeout path use).
Proof.
  intros Hu s r s' Hi E. unfold at_path in E. unfold mbind at 1, S_bind at 1 in E.
  destruct (walk_path timeout path s) as [r1 s1] eqn:Ew. apply walk_path_takes in Ew; [|done].
  destruct r1 as [e|fid]; [injection E as <- <-; destruct Ew as [? ->]; by split_and!|].
  by eapply tidy_use.
Qed.

Lemma tidy_bind {A B} (m : N A) (k : A → N B) : tidy m → (∀ a, tidy (k a)) → tidy (m ≫= k).
Proof.
  intros Hm Hk s r s' Hi E. unfold mbind, S_bind in E. destruct (m s) as [[e|a] s1] eqn:E1;
    destruct (Hm _ _ _ Hi E1) as (Hi1 & Hs1 & He1).
  - injection E as <- <-. by split_and!.
  - destruct (Hk a _ _ _ Hi1 E) as (Hi2 & Hs2 & He2). specialize (He1 a eq_refl). rewrite He1 in *. by split_and!.
Qed.

Lemma tidy_quiet {A} (m : N A) : quiet m → tidy m.
Proof.
  intros Hm s r s' Hi E. destruct (quiet_true (λ _, True) m Hm s r s' E Hi I) as (? & _ & _).
  pose proof (keeps_quiet m Hm s) as Hk. rewrite E in Hk. simpl in Hk. rewrite Hk. by split_and!.
Qed.

Lemma tidy_plain {A} (m : N A) : plain_call A m → tidy m.
Proof. intros Hm. by apply tidy_quiet, quiet_plain. Qed.

Lemma open_path_takes path mode timeout s r s' :
  ns_inv s → open_path_fid_timeout path mode timeout s = (r, s') →
  match r with inr fid => takes fid s s' | inl _ => ns_inv s' ∧ ns_bindings s ⊆ ns_bindings s' end.
Proof.
  intros Hi E. unfold open_path_fid_timeout, mbind at 1, S_bind at 1 in E. cbn [slift] in E.
  destruct (path_names path) as [e|names]; [by injection E as <- <-|].
  unfold mbind at 1, S_bind at 1 in E.
  match type of E with (match ?p with _ => _ end) = _ => destruct p as [r1 s1] eqn:Ew end.
  assert (match r1 with inr f => takes f s s1 | inl _ => ns_inv s1 ∧ ns_bindings s1 = ns_bindings s end) as Ht.
  { destruct names; [by apply clone_takes in Ew|by apply walk_takes in Ew]. }
  destruct r1 as [e|fid]; [injection E as <- <-; by destruct Ht as [? ->]|].
  destruct Ht as (Hi1 & Hf & b & Hb). unfold mbind at 1, S_bind at 1, sattempt at 1 in E.
  destruct (open (Some timeout) fid mode s1) as [ro s2] eqn:Eo.
  pose proof (tidy_plain _ (plain_open (Some timeout) fid mode) s1 ro s2 Hi1 Eo) as (Hi2 & _).
  pose proof (keeps_quiet _ (quiet_plain _ _ (plain_open (Some timeout) fid mode)) s1) as Hk. rewrite Eo in Hk. simpl in Hk.
  destruct ro as [e|q]; [|injection E as <- <-; by split_and!; [| |exists b; congruence]].
  unfold mbind, S_bind, sattempt in E. destruct (clunk (Some timeout) fid s2) as [rc s3] eqn:Ec. injection E as <- <-.
  destruct (hoare_clunk (λ _, True) _ _ s2 rc s3 Ec Hi2 I) as (Hi3 & _ & _). split; [done|].
  destruct (release fid b (ns_bindings s) (ns_bindings s2) Hf) as (? & ? & _); [by rewrite Hk, Hb|].
  apply clunk_table in Ec. by destruct rc; rewrite Ec.
Qed.

Lemma tidy_with_opened {A} path mode timeout (use : OpenedFid → N A) :
  (∀ o, tidy (use o)) → tidy (with_opened path mode timeout use).
Proof.
  intros Hu s r s' Hi E. unfold with_opened, open_path_timeout in E. unfold mbind at 1, S_bind at 1 in E.
  unfold mbind at 1, S_bind at 1 in E. destruct (open_path_fid_timeout path mode timeout s) as [r1 s1] eqn:Ew.
  apply open_path_takes in Ew; [|done]. destruct r1 as [e|fid]; [injection E as <- <-; destruct Ew; by split_and!|].
  destruct Ew as (Hi1 & Hf & b & Hb). cbn in E. unfold sattempt at 1 in E. set (o := OpenedFid_mk (Some fid) timeout) in *.
  destruct (use o s1) as [r2 s2] eqn:E2. destruct (Hu o s1 r2 s2 Hi1 E2) as (Hi2 & Hsub & Hsame). rewrite Hb in Hsub, Hsame.
  destruct (release fid b _ _ Hf Hsub) as (H1 & H2 & H3).
  assert (∀ rc s3, clunk (Some timeout) fid s2 = (rc, s3) → ns_inv s3) as Hci.
  { intros rc s3 Ec. by destruct (hoare_clunk (λ _, True) _ _ s2 rc s3 Ec Hi2 I). }
  subst o. unfold mbind, S_bind, sattempt, opened_clunk in E. simpl in E. rewrite E2 in E.
  destruct r2 as [e|a]; destruct (clunk (Some timeout) fid s2) as [rc s3] eqn:Ec; specialize (Hci _ _ eq_refl);
    apply clunk_table in Ec; destruct rc as [e'|[]]; injection E as <- <-; rewrite Ec; split_and!; try done.
  intros ? [= <-]. apply H3. by apply (Hsame a).
Qed.

(** *** Reading to the end *)

(** A turn that goes on has read something at the offset. *)
Lemma ns_read_all_turn_inl fid st st' :
  read_all_turn fid st = inl st' →
  ∃ offset out s chunk s', st = (offset, out, s) ∧ st' = (offset + vlen chunk, out ++ chunk, s') ∧
    read fid offset PATH_READ_CHUNK s = (inr chunk, s') ∧ chunk ≠ [] ∧ offset + vlen chunk ≤ u64_max.
Proof.
  destruct st as [[offset out] s]. unfold read_all_turn. destruct (read fid offset PATH_READ_CHUNK s) as [[e|chunk] s'] eqn:E; [done|].
  case_bool_decide; [done|]. destruct (try_from u64_max (vlen chunk)) eqn:Et; [|done].
  apply try_from_Some in Et as [-> _]. unfold checked_add. destruct (_ <=? _) eqn:El; [|done]. intros [= <-].
  exists offset, out, s, chunk, s'. split_and!; try done. lia.
Qed.

(** The 64-bit offset bounds the turns, so the loop ends whatever the server answers. *)
Lemma read_all_ends fid s : ∃ x, loop 64 (read_all_turn fid) (0, [], s) = inr x.
Proof.
  destruct (loop _ _ _) as [[[o out] s']|x] eqn:E; [|by eexists]. exfalso.
  assert (0 + 2 ^ Z.of_nat 64 ≤ o) as Hlow.
  { apply (loop_progress (read_all_turn fid) (λ _, True) (λ _ _ _ _, I) (λ st : Z * bytes * Namespace W, st.1.1)
      64 (0, [], s) (o, out, s')); [|done..].
    intros st st' _ (? & ? & ? & chunk & ? & -> & -> & _ & Hd & _)%ns_read_all_turn_inl. simpl.
    destruct chunk; [done|]. rewrite vlen_cons. pose proof (vlen_nonneg chunk). lia. }
  assert (o ≤ u64_max).
  { apply (loop_keeps (read_all_turn fid) (λ st : Z * bytes * Namespace W, st.1.1 ≤ u64_max)) in E; [done| |done].
    by intros st st' _ (? & ? & ? & chunk & ? & -> & -> & _ & _ & ?)%ns_read_all_turn_inl. }
  unfold u64_max in *. simpl Z.of_nat in *. lia.
Qed.

Lemma quiet_read_all fid : quiet (read_all fid).
Proof.
  intros s. unfold read_all. destruct (read_all_ends fid s) as [[r s'] E]. rewrite E. simpl.
  assert (∀ x offset, ∃ w, (read fid offset PATH_READ_CHUNK x).2 = set_world w x ∧ dialed w = dialed (ns_world x)) as Hq.
  { intros x offset. apply (quiet_plain _ _ (plain_read None fid offset PATH_READ_CHUNK) x). }
  set (J := λ x : Namespace W, ∃ w, x = set_world w s ∧ dialed w = dialed (ns_world s)).
  assert (∀ x offset, J x → J (read fid offset PATH_READ_CHUNK x).2) as Hkeep.
  { intros x offset (w & -> & Hd). destruct (Hq (set_world w s) offset) as (w2 & -> & Hd2). exists w2.
    split; [done|]. simpl in Hd2. congruence. }
  apply (loop_exit (read_all_turn fid) (λ st, J st.2) (λ x : SResult bytes * Namespace W, J x.2)) in E; [done| | |].
  - intros st st' Hst (offset & out & x & chunk & x' & -> & -> & Er & _)%ns_read_all_turn_inl.
    pose proof (Hkeep x offset Hst) as Hx. by rewrite Er in Hx.
  - intros [[offset out] x] [rx sx] Hst Et. pose proof (Hkeep x offset Hst) as Hx. unfold read_all_turn in Et.
    destruct (read fid offset PATH_READ_CHUNK x) as [[e|chunk] x'] eqn:Er; simpl in Hx; repeat case_match; simplify_eq/=; done.
  - exists (ns_world s). by rewrite set_world_world.
Qed.

(** *** Creating *)

Lemma create_takes timeout fid name perm mode s r s' :
  ns_inv s → create timeout fid name perm mode s = (r, s') →
  match r with inr x => takes x.1 s s' | inl _ => ns_inv s' ∧ ns_bindings s' = ns_bindings s end.
Proof.
  intros Hi E. destruct (hoare_create (λ _, True) timeout fid name perm mode s r s' E Hi I) as (Hi' & _ & _).
  unfold create in E. unfold mbind at 1, S_bind at 1 in E. cbn [slift] in E.
  destruct (validate_path_element name) as [|[]] eqn:Ev; [by injection E as <- <-|]. cbn match in E.
  apply validate_path_element_ok in Ev. unfold mbind at 1, S_bind at 1 in E. cbn [binding] in E.
  destruct (ns_bindings s !! fid) as [parent|] eqn:Eb; [|by injection E as <- <-]. cbn [some_or] in E.
  destruct (inv_bindings _ Hi _ _ Eb) as (_ & Hpath & _). unfold mbind at 1, S_bind at 1 in E. cbn [slift] in E.
  destruct (writable_remote parent) as [e|remote]; [by injection E as <- <-|]. cbn match in E. cbv zeta in E.
  unfold mbind at 1, S_bind at 1 in E. set (path := namespace_path parent ++ [name]) in *.
  assert (Forall elem_ok path) as Hp by (apply Forall_app; by rewrite Forall_singleton).
  pose proof (keeps_routed_target path (default 0 timeout) s) as Hk.
  destruct (routed_target path (default 0 timeout) s) as [[e|t] s1] eqn:E1; simpl in Hk; [by injection E as <- <-|].
  destruct (hoare_routed_target (λ _, True) path _ Hp s _ s1 E1 Hi I) as (Hi1 & _ & _).
  destruct (negb _); [by injection E as <- <-|]. unfold mbind at 1, S_bind at 1 in E.
  destruct (quiet_direct (rf_client remote) (create_with timeout (rf_fid remote) name perm mode) s1) as (w & Hw & Hd).
  unfold direct_create in E. destruct (direct _ _ s1) as [[e|[f q]] s2]; simpl in Hw; subst s2; [by injection E as <- <-|].
  simpl in E. unfold mbind, S_bind in E.
  destruct (allocate_binding _ (set_world w s1)) as [[e|g] s3] eqn:Ea; injection E as <- <-.
  - split; [done|]. apply allocate_err in Ea. simpl in Ea. congruence.
  - apply allocate_ok in Ea as [Hf Hb]; [|by apply ns_inv_set_world]. simpl in *. rewrite Hk in *.
    by split_and!; [| |eexists].
Qed.

Lemma tidy_create_clunk timeout fid name perm mode :
  tidy (created ← create timeout fid name perm mode; _ ← clunk timeout created.1; mret created.2).
Proof.
  intros s r s' Hi E. unfold mbind, S_bind in E. destruct (create timeout fid name perm mode s) as [[e|[f q]] s1] eqn:E1;
    apply create_takes in E1; try done.
  { injection E as <- <-. destruct E1 as [? ->]. by split_and!. }
  destruct E1 as (Hi1 & Hf & b & Hb). simpl in *. destruct (clunk timeout f s1) as [rc s2] eqn:Ec.
  destruct (hoare_clunk (λ _, True) timeout f s1 rc s2 Ec Hi1 I) as (Hi2 & _ & _). apply clunk_table in Ec.
  destruct (release f b (ns_bindings s) (ns_bindings s1) Hf) as (? & ? & H3); [by rewrite Hb|].
  destruct rc; injection E as <- <-; rewrite Ec; split_and!; try done. intros a [= <-]. by apply H3.
Qed.

Lemma tidy_create_write timeout fid name perm mode offset data :
  tidy (created ← create timeout fid name perm mode;
        written ← sattempt (write timeout created.1 offset data);
        finish_fid timeout created.1 written).
Proof.
  intros s r s' Hi E. unfold mbind at 1, S_bind at 1 in E.
  destruct (create timeout fid name perm mode s) as [[e|[f q]] s1] eqn:E1; apply create_takes in E1; try done.
  { injection E as <- <-. destruct E1 as [? ->]. by split_and!. }
  eapply tidy_use; [exact E1|apply tidy_plain; constructor|exact E].
Qed.

Lemma tidy_remove_path path : tidy (remove_path path).
Proof.
  intros s r s' Hi E. unfold remove_path, mbind, S_bind in E. destruct (walk_path None path s) as [[e|fid] s1] eqn:Ew;
    apply walk_path_takes in Ew; try done.
  { injection E as <- <-. destruct Ew as [? ->]. by split_and!. }
  destruct Ew as (Hi1 & Hf & b & Hb). destruct (hoare_remove (λ _, True) None fid s1 r s' E Hi1 I) as (Hi2 & _ & _).
  destruct (release fid b (ns_bindings s) (ns_bindings s1) Hf) as (? & ? & H3); [by rewrite Hb|]. split; [done|].
  unfold remove in E. case_match; [by injection E as <- <-|].
  unfold mbind, S_bind in E. pose proof (keeps_quiet _ (quiet_on_writable fid _ (λ r, quiet_direct (rf_client r) (remove_with None (rf_fid r)))) s1) as Hk.
  unfold direct_remove in E. destruct (on_writable fid _ s1) as [[e|[]] s2]; simpl in Hk.
  - injection E as <- <-. by rewrite Hk.
  - unfold remove_binding in E. case_match; injection E as <- <-; simpl; rewrite Hk; split; try done. intros ? _. by apply H3.
Qed.

(** *** Read-only paths *)

Lemma recover_table fid client mount e timeout s r s' :
  ns_inv s → fid ≠ ROOT_FID → recover_read_only_route fid client mount e timeout s = (r, s') →
  ns_inv s' ∧ match r with
              | inr false => s' = s
              | _ => ns_bindings s' = delete fid (ns_bindings s)
              end.
Proof.
  intros Hi Hf E. destruct (hoare_recover (λ _, True) fid client mount e timeout Hf s r s' E Hi I) as (Hi' & _ & _).
  split; [done|]. unfold recover_read_only_route in E. destruct mount as [mount|]; [|by injection E as <- <-].
  case_match; [by injection E as <- <-|]. unfold mbind at 1, S_bind at 1 in E. cbn [discard_binding smodify] in E.
  match type of E with ?m ?s0 = _ => assert (keeps_fids m) as Hk; [|specialize (Hk s0); rewrite E in Hk; simpl in Hk] end.
  { apply ns_keeps_bind; [apply keeps_invalidate|]. intros ?. apply ns_keeps_bind; [apply keeps_refresh|]. keeps. }
  rewrite Hk. destruct r as [?|[]]; [done|done|]. exfalso.
  apply S_bind_ok in E as (? & s1 & _ & E). apply S_bind_ok in E as (? & s2 & _ & E). done.
Qed.

(** One attempt: what it leaves in the table is at most its fid. *)
Lemma attempt_released {A} timeout fid (operation : N A) s s1 r2 s2 r3 s3 :
  takes fid s s1 → quiet operation → operation s1 = (r2, s2) → finish_fid timeout fid r2 s2 = (r3, s3) →
  ns_inv s3 ∧ (ns_bindings s3 = ns_bindings s1 ∨ ns_bindings s3 = ns_bindings s) ∧
  (∀ a, r3 = inr a → ns_bindings s3 = ns_bindings s).
Proof.
  intros (Hi1 & Hf & b & Hb) Hq E2 E3.
  destruct (quiet_true (λ _, True) _ Hq s1 r2 s2 E2 Hi1 I) as (Hi2 & _ & _).
  pose proof (keeps_quiet _ Hq s1) as Hk. rewrite E2 in Hk. simpl in Hk.
  destruct (hoare_finish (λ _, True) timeout fid r2 s2 r3 s3 E3 Hi2 I) as (Hi3 & _ & _). split; [done|].
  unfold finish_fid, mbind, S_bind, sattempt in E3. destruct (clunk timeout fid s2) as [rc s4] eqn:Ec.
  apply clunk_table in Ec. rewrite Hk, Hb in Ec. rewrite delete_insert_id in Ec by done.
  destruct rc as [e|[]], r2; injection E3 as <- <-; rewrite Ec, Hb; auto; split; auto; done.
Qed.

Lemma route_failure_context_same fid (s : Namespace W) : (route_failure_context fid s).2 = s.
Proof. unfold route_failure_context, mbind, S_bind. simpl. by repeat case_match. Qed.

Lemma tidy_read_only {A} retries path timeout (operation : Z → N A) :
  (∀ fid, quiet (operation fid)) → tidy (read_only_attempts retries path timeout operation).
Proof.
  intros Hq. induction retries as [|retries IH]; intros s r s' Hi E; cbn [read_only_attempts] in E;
    unfold mbind, S_bind, sattempt in E; destruct (walk_path (Some timeout) path s) as [[e|fid] s1] eqn:Ew;
    pose proof (walk_path_takes _ _ _ _ _ Hi Ew) as Ht; try (injection E as <- <-; destruct Ht as [? ->]; by split_and!).
  all: destruct (hoare_walk_path (λ _, True) (Some timeout) path s _ s1 Ew Hi I) as (_ & _ & Hne); specialize (Hne _ eq_refl).
  all: pose proof Ht as (Hi1 & Hf & b & Hb); pose proof (route_failure_context_same fid s1) as Hc.
  all: destruct (release fid b (ns_bindings s) (ns_bindings s1) Hf) as (Hsub & _); [by rewrite Hb|].
  all: destruct (route_failure_context fid s1) as [[e|context] s2]; simpl in Hc; subst s2;
    [injection E as <- <-; by split_and!|].
  all: destruct (operation fid s1) as [r2 s2] eqn:E2; destruct (finish_fid (Some timeout) fid r2 s2) as [r3 s3] eqn:E3.
  all: destruct (attempt_released _ _ _ _ _ _ _ _ _ Ht (Hq fid) E2 E3) as (Hi3 & Hor & Hres).
  all: assert (ns_bindings s ⊆ ns_bindings s3) as Hs3 by (destruct Hor as [->| ->]; done).
  - destruct r3; injection E as <- <-; by split_and!.
  - destruct r3 as [e|a]; [|injection E as <- <-; by split_and!].
    destruct (recover_read_only_route _ _ _ _ _ s3) as [r4 s4] eqn:E4. apply recover_table in E4 as [Hi4 Htab]; [|done..].
    assert (delete fid (ns_bindings s3) = ns_bindings s) as Hdel.
    { destruct Hor as [->| ->]; [rewrite Hb; by apply delete_insert_id|by apply delete_id]. }
    destruct r4 as [e4|[|]].
    + injection E as <- <-. rewrite Htab, Hdel. by split_and!.
    + destruct (IH s4 r s' Hi4 E) as (Hi' & H1 & H2). rewrite Htab, Hdel in H1, H2. by split_and!.
    + subst s4. injection E as <- <-. by split_and!.
Qed.

(** *** The calls on paths *)

(** The operations of paths.rs, the reconciliations apart. *)
Inductive path_call : ∀ A, N A → Prop :=
  | call_stat path : path_call _ (stat_path path)
  | call_stat_timeout path timeout : path_call _ (stat_path_timeout path timeout)
  | call_list path : path_call _ (list_path path)
  | call_read path : path_call _ (read_path path)
  | call_read_timeout path n timeout : path_call _ (read_path_timeout path n timeout)
  | call_delimited_timeout path n d timeout : path_call _ (read_path_delimited_timeout path n d timeout)
  | call_delimited path n d timeout : path_call _ (read_path_delimited path n d timeout)
  | call_range path offset count : path_call _ (read_path_range path offset count)
  | call_write path offset data : path_call _ (write_path path offset data)
  | call_write_file path data : path_call _ (write_file path data)
  | call_write_timeout path data timeout : path_call _ (write_file_timeout path data timeout)
  | call_rpc path request : path_call _ (rpc_path path request)
  | call_rpc_timeout path request n timeout : path_call _ (rpc_path_timeout path request n timeout)
  | call_create timeout parent name perm mode : path_call _ (create_at timeout parent name perm mode)
  | call_create_write timeout parent name perm mode offset data :
      path_call _ (create_write_at timeout parent name perm mode offset data)
  | call_remove path : path_call _ (remove_path path).

Ltac quiet_body :=
  repeat first
    [ apply quiet_read_all | apply quiet_ret | apply quiet_throw | apply quiet_lift
    | apply quiet_plain; constructor | apply quiet_bind | progress intros | case_match ].

(** The shape of a call: its checks, how it takes its fid, what it does with it. *)
Ltac tidy_call :=
  repeat first
    [ progress intros | apply tidy_remove_path | apply tidy_create_clunk | apply tidy_create_write
    | apply tidy_at_path | apply tidy_with_opened | apply tidy_read_only
    | apply tidy_bind; [apply tidy_quiet, quiet_lift|] ];
  first [ solve [quiet_body] | apply tidy_quiet; solve [quiet_body] | idtac ].

Lemma tidy_path_call A (m : N A) : path_call A m → tidy m.
Proof. destruct 1; tidy_call. Qed.

(** C26: the operations of [path_call] give back every fid they take: a result of
    [stat_path], [list_path], the reads [read_path], [read_path_delimited] and
    [read_path_range], [write_path], [write_file], [rpc_path], [create_at],
    [create_write_at] or [remove_path], with or without a timeout, leaves the fid table
    as it was, and a failure never disturbs the fids there were.  [reconcile_file_at] is
    not among them: the fid of a replacement that it could not clunk stays, although the
    creation that follows succeeds. *)
Theorem path_calls_release_fids A (m : N A) s r s' :
  path_call A m → ns_inv s → m s = (r, s') →
  ns_inv s' ∧ ns_bindings s ⊆ ns_bindings s' ∧ (∀ a, r = inr a → ns_bindings s' = ns_bindings s).
Proof. intros Hm Hi E. by eapply tidy_path_call. Qed.

(** A clunk that the server, or the connection, does not confirm leaves the fid bound,
    whatever the reason, and so does a remove: the fid of a connection that is gone
    can only be tried again. *)
Theorem unconfirmed_clunk_keeps_fid timeout fid b s e s' :
  ns_bindings s !! fid = Some b → clunk timeout fid s = (inl e, s') ∨ remove timeout fid s = (inl e, s') →
  ns_bindings s' !! fid = Some b.
Proof.
  intros Hb [E|E]; [apply clunk_table in E; by rewrite E|]. unfold remove in E. case_match; [by injection E as <- <-|].
  pose proof (keeps_quiet _ (quiet_on_writable fid _ (λ r, quiet_direct (rf_client r) (remove_with timeout (rf_fid r)))) s) as Hk.
  unfold mbind, S_bind, direct_remove in E. destruct (on_writable fid _ s) as [[?|[]] s2]; simpl in Hk.
  - injection E as <- <-. by rewrite Hk.
  - unfold remove_binding in E. rewrite Hk, Hb in E. done.
Qed.

End properties.

(** ** Dialling *)

(** The clock does not go back, and a sleep takes at least its time. *)
Class Clock (W C : Type) `{!Connections W C} := {
  clock_at : W → Z;
  instant_at w : clock_at w ≤ (instant w).1 ≤ clock_at (instant w).2;
  sleep_at d w : clock_at w + d ≤ clock_at (sleep d w);
  connect_at config timeout w : clock_at w ≤ clock_at (connect_once config timeout w).2;
}.

Section dialling.
Context {W C : Type} `{!Connections W C} `{!Clock W C}.

(** The attempts left: one after the deadline, else those that fit before it. *)
Definition enough (fuel : nat) (timeout elapsed : Z) : Prop :=
  1 ≤ Z.of_nat fuel ∧ (elapsed < timeout → (timeout - elapsed) / CONNECT_RETRY_INTERVAL + 2 ≤ Z.of_nat fuel).

Lemma enough_next fuel timeout e e' :
  enough (S fuel) timeout e → e < timeout → e + CONNECT_RETRY_INTERVAL ≤ e' ∨ timeout ≤ e' → enough fuel timeout e'.
Proof.
  unfold enough, CONNECT_RETRY_INTERVAL. intros [H1 H2] He Hor. specialize (H2 He).
  pose proof (Z.div_pos (timeout - e) 200000000 ltac:(lia) ltac:(lia)). split; [lia|]. intros Hlt.
  destruct Hor as [Hle|]; [|lia].
  assert ((timeout - e') / 200000000 ≤ (timeout - e) / 200000000 - 1); [|lia].
  replace ((timeout - e) / 200000000 - 1) with ((timeout - e + (-1) * 200000000) / 200000000) by (rewrite Z.div_add; lia).
  apply Z.div_le_mono; lia.
Qed.

Lemma connect_loop_ends fuel config timeout started w :
  0 ≤ timeout → started ≤ clock_at w → enough fuel timeout (clock_at w - started) →
  is_Some (connect_loop fuel config timeout started w).
Proof.
  intros Ht. revert w. induction fuel as [|fuel IH]; intros w Hs He; [destruct He; lia|]. cbn [connect_loop].
  pose proof (connect_at config timeout w) as Hc. destruct (connect_once config timeout w) as [[e|c] w1]; simpl in Hc; [|done].
  unfold connect_should_retry, connect_retry_sleep. destruct (timeout =? 0); [done|].
  pose proof (instant_at w1) as H1. destruct (instant w1) as [t1 w2]; simpl in H1.
  destruct (bool_decide_reflect (saturating_sub t1 started < timeout)) as [Hlt|]; [|done]. simpl.
  destruct (is_transient_connection_failure e); [|done].
  pose proof (instant_at w2) as H2. destruct (instant w2) as [t2 w3]; simpl in H2.
  set (d := Z.min _ _). pose proof (sleep_at d w3) as H3. unfold saturating_sub in *.
  apply IH; [unfold CONNECT_RETRY_INTERVAL in *; lia|]. eapply enough_next; [exact He|lia|].
  subst d. unfold CONNECT_RETRY_INTERVAL in *. lia.
Qed.

(** C39: connecting ends: while the failures are transient it is tried again every
    200 ms until the timeout, so [timeout / 200 ms + 3] attempts are enough whatever
    they answer; with no timeout, or after a failure that is not transient, there is
    no second attempt. *)
Theorem connect_attempts_end config timeout w :
  0 ≤ timeout →
  is_Some (connect_loop (connect_fuel timeout) config timeout (instant w).1 (instant w).2) ∧
  ∀ e w1, connect_once config timeout (instant w).2 = (inl e, w1) →
    timeout = 0 ∨ is_transient_connection_failure e = false →
    (connect_with_tracker_timeout config timeout w).1 = inl e.
Proof.
  intros Ht. pose proof (instant_at w) as Hi. split.
  - apply connect_loop_ends; [done|lia|]. unfold enough, connect_fuel.
    pose proof (Z.div_pos timeout CONNECT_RETRY_INTERVAL Ht ltac:(done)).
    rewrite Z2Nat.id by lia. split; [lia|]. intros _.
    assert ((timeout - (clock_at (instant w).2 - (instant w).1)) / CONNECT_RETRY_INTERVAL ≤ timeout / CONNECT_RETRY_INTERVAL);
      [apply Z.div_le_mono; [done|lia]|lia].
  - intros e w1 Eo Hor. unfold connect_with_tracker_timeout. destruct (instant w) as [t w0]. simpl in *.
    unfold connect_fuel. pose proof (Z.div_pos timeout CONNECT_RETRY_INTERVAL Ht ltac:(done)).
    destruct (Z.to_nat (timeout / CONNECT_RETRY_INTERVAL + 3)) as [|fuel] eqn:Ef; [lia|]. cbn [connect_loop]. rewrite Eo.
    unfold connect_should_retry. destruct Hor as [->|Htr]; [done|]. destruct (timeout =? 0); [done|].
    destruct (instant w1). rewrite Htr, andb_false_r. done.
Qed.

End dialling.

(** A concrete network for the namespace client, and what its theorems say there.

    The server at the address [root] refers the paths below [/agents] to another
    server; every server answers walks, opens, creations, reads of an empty file and clunks, and
    knows no file named [missing].  A server at a [gone] address never answers. *)

(** ** One connection *)

Record Wire := Wire_mk {
  wire_client : Client.Client;
  wire_asked : gmap nat TMessage;
  wire_referrals : list NamespaceReferral;
  wire_gone : bool;
}.

Definition missing : bytes := bstr "missing".

Definition answer (w : Wire) (m : TMessage) : option ClientResponse :=
  if wire_gone w then None
  else match m with
       | TWalk tag _ _ names =>
           Some (if bool_decide (head names = Some missing) then ClientError tag (bstr "file does not exist")
                 else ClientCompletion tag (CompWalk (map (λ _, Qid_file 7) names)))
       | TOpen tag _ _ => Some (ClientCompletion tag (CompOpen (Qid_file 7) 0))
       | TCreate tag _ _ _ _ => Some (ClientCompletion tag (CompCreate (Qid_file 7) 0))
       | TRead tag _ _ _ => Some (ClientCompletion tag (CompRead []))
       | TClunk tag _ => Some (ClientCompletion tag CompClunk)
       | TStat tag _ => Some (ClientCompletion tag (CompStat (Stat_new (bstr "t-1") (Qid_file 7) 0)))
       | TReferrals tag _ => Some (ClientCompletion tag (CompReferrals (wire_referrals w)))
       | _ => None
       end.

Definition wire_recv (p : PendingCall) : M Wire Received := λ w,
  (Ok match wire_asked w !! receiver p ≫= answer w with
      | Some r => Arrived (Ok r)
      | None => Disconnected
      end,
   Wire_mk (wire_client w) (delete (receiver p) (wire_asked w)) (wire_referrals w) (wire_gone w)).

#[export] Instance wire_caller : Caller Wire := {
  with_protocol A m w :=
    let '(r, c) := m (wire_client w) in (r, Wire_mk c (wire_asked w) (wire_referrals w) (wire_gone w));
  submit_message m w :=
    let id := fresh (dom (wire_asked w)) in
    (Ok (PendingCall_mk (t_tag m) id), Wire_mk (wire_client w) (<[id := m]> (wire_asked w)) (wire_referrals w) (wire_gone w));
  recv := wire_recv;
  recv_timeout p _ := wire_recv p;
  cancel_waiter _ _ := mret ();
  now := mret 0;
  inner_variant _ := R;
  inner_root_fid _ := 1;
}.

(** ** The network *)

Record Net := Net_mk { net_wires : gmap Z Wire; net_log : gmap Z ConnectionConfig; net_time : Z }.

Definition root_address : bytes := bstr "root".
Definition gone_address : bytes := bstr "gone".

Definition new_wire (config : ConnectionConfig) : Wire :=
  Wire_mk (Client_mk 8192 (bstr "9P2000.R") None 1 2 (RequestTable_mk 1 ∅) ∅) ∅
    (if bool_decide (cfg_address config = root_address) then [sample_referral] else [])
    (bool_decide (cfg_address config = gone_address)).

Definition no_wire : Wire :=
  new_wire (ConnectionConfig_mk gone_address [] [] 8192 Unauthenticated).

#[export] Instance net_connections : Connections Net Wire := {
  connection c n := default no_wire (net_wires n !! c);
  set_connection c x n := Net_mk (<[c := x]> (net_wires n)) (net_log n) (net_time n);
  connect_once config _ n :=
    let c := fresh (dom (net_log n)) in
    (inr c, Net_mk (<[c := new_wire config]> (net_wires n)) (<[c := config]> (net_log n)) (net_time n));
  shutdown_connection _ := mret ();
  instant n := (net_time n, n);
  sleep d n := Net_mk (net_wires n) (net_log n) (net_time n + d);
}.

#[export] Instance net_dial_log : DialLog Net Wire.
Proof.
  refine {| dialed := net_log |}; try done. intros config timeout n. simpl. split; [|done].
  apply not_elem_of_dom, is_fresh.
Defined.

#[export] Instance plain_debug : DebugText := { debug_response _ := []; debug_completion _ := []; debug_str x := x }.
#[export] Instance plain_duration : DurationText := { seconds_text _ := [] }.

Definition sample_credential : SessionAuthentication :=
  authenticated_root (ClientCredential_mk (bstr "/etc/r9p/client.conf")) (ResponderName_mk root_address).

Definition root_config : ConnectionConfig :=
  ConnectionConfig_mk root_address (bstr "codex") [slash] 8192 (Authenticated sample_credential).

Definition no_net : Net := Net_mk ∅ ∅ 0.

Definition connected_run : SResult (Namespace Net) * Net := namespace_connect root_config 0 no_net.

Definition root_only : Namespace Net :=
  Namespace_mk 0 None 0 0 [] [] FIRST_DYNAMIC_FID ∅ no_net.

(** The namespace after it is connected. *)
Definition ns0 : Namespace Net := match connected_run.1 with inr s => s | inl _ => root_only end.

Lemma connected_run_eq : connected_run = (inr ns0, ns_world ns0).
Proof. vm_compute. reflexivity. Qed.

Definition terminal : bytes := bstr "/agents/terminals/t-1".

Definition walked_run : SResult Z * Namespace Net := walk_path None terminal ns0.

Definition ns1 : Namespace Net := walked_run.2.

Lemma walked_run_eq : walked_run = (inr 2, ns1).
Proof. vm_compute. reflexivity. Qed.

#[export] Instance net_clock : Clock Net Wire.
Proof. refine {| clock_at := net_time |}; intros; simpl; lia. Defined.

(** ** What the theorems say there *)

Lemma ns0_inv : ns_inv ns0.
Proof. eapply connect_inv. exact connected_run_eq. Qed.

Lemma ns1_inv : ns_inv ns1.
Proof. by destruct (hoare_program _ _ (program_walk_path None terminal) ns0 _ _ walked_run_eq ns0_inv I). Qed.

Lemma namespace_stays_wf_witness : ns_inv ns1 ∧ ns_bindings ns1 !! 2 ≠ None.
Proof.
  split; [|by vm_compute].
  exact (namespace_stays_wf root_config 0 no_net ns0 (ns_world ns0) (walk_path None terminal) (inr 2) ns1
    connected_run_eq (program_walk_path None terminal) walked_run_eq).
Defined.

Definition agents : bytes := bstr "/agents".

Definition terminal_binding : FidBinding :=
  FidBinding_mk [bstr "agents"; bstr "terminals"; bstr "t-1"] (Remote (RemoteFid_mk 1 2 (Some agents))).

Lemma mounted_fids_authorized_witness :
  ns_bindings ns1 !! 2 = Some terminal_binding ∧
  ∃ referral ms rest made, validate referral = Ok () ∧ mount_path referral = agents ∧ agents = path_of ms ∧
    [bstr "agents"; bstr "terminals"; bstr "t-1"] = ms ++ rest ∧
    dialed (ns_world ns1) !! 1 = Some made ∧ proves_authority made referral.
Proof.
  split; [vm_compute; reflexivity|].
  exact (mounted_fids_authorized root_config 0 no_net ns0 (ns_world ns0) (walk_path None terminal) (inr 2) ns1
    2 terminal_binding (RemoteFid_mk 1 2 (Some agents)) agents connected_run_eq (program_walk_path None terminal)
    walked_run_eq ltac:(vm_compute; reflexivity) eq_refl eq_refl).
Defined.

Definition other_path : NPath := [bstr "agents"; bstr "runs"].

(** The server of the mount exports its root, which has no elements. *)
Lemma ns1_short_roots : short_roots (ns_routes ns1).
Proof.
  assert (Forall (λ r, exported_root (rt_referral r) = [slash]) (ns_routes ns1)) as H by (apply (bool_decide_unpack _); vm_compute; exact I).
  intros r rs Hr E Hs. rewrite Forall_forall in H. rewrite (H r Hr) in E. destruct rs as [|x rs]; [done|].
  apply Forall_cons in Hs as [(Hx & _) _]. simpl in E. injection E as E. destruct x; done.
Qed.

Lemma routing_takes_longest_mount_witness :
  (routed_target other_path 0 ns1).1 = inr (RoutedTarget_mk 1 [bstr "runs"] (Some agents)) ∧
  (∀ t s', routed_target other_path 0 ns1 = (inr t, s') → resolves (ns_root s') (ns_routes s') other_path t) ∧
  ∃ t, routed_target other_path 0 ns1 = (inr t, ns1) ∧ resolves (ns_root ns1) (ns_routes ns1) other_path t.
Proof.
  split; [vm_compute; reflexivity|].
  assert (Forall elem_ok other_path) as Hp.
  { apply canonical_elem_ok. repeat first [apply Forall_nil_2|apply Forall_cons_2|apply parse_element_canonical; vm_compute; reflexivity]. }
  destruct (routing_takes_longest_mount other_path 0 ns1 ns1_inv Hp) as [H1 H2]. split; [exact H1|].
  apply H2; [apply (bool_decide_unpack _); vm_compute; exact I|exact ns1_short_roots|].
  apply Forall_cons_2; [|apply Forall_singleton]; (split_and!; [reflexivity| |reflexivity]); apply (bool_decide_unpack _); vm_compute; exact I.
Defined.

Lemma path_calls_release_fids_witness :
  (read_path terminal ns0).1 = inr [] ∧ ns_bindings (read_path terminal ns0).2 = ns_bindings ns0.
Proof.
  split; [vm_compute; reflexivity|].
  destruct (read_path terminal ns0) as [r s'] eqn:E.
  destruct (path_calls_release_fids _ _ ns0 r s' (call_read terminal) ns0_inv E) as (_ & _ & Hsame).
  apply (Hsame []).
  assert ((read_path terminal ns0).1 = inr []) as Hr by (vm_compute; reflexivity). by rewrite E in Hr.
Defined.

Lemma connect_attempts_end_witness :
  is_Some (connect_loop (connect_fuel 1000000000) root_config 1000000000 (instant no_net).1 (instant no_net).2).
Proof. apply (connect_attempts_end root_config 1000000000 no_net). lia. Defined.

(** *** A path with dots *)

(** [validate_path_element] admits [..], so a file can be created under that name when
    the server lets it, and its fid gets a path with [..] in it. *)
Lemma create_binds_dotdot :
  let '(r, s) := create None ROOT_FID dotdot 0 0 ns0 in
  r = inr (2, Qid_file 7) ∧ namespace_path <$> ns_bindings s !! 2 = Some [dotdot].
Proof. vm_compute. split; reflexivity. Qed.

(** *** A connection that is gone *)

Definition ns_gone : Namespace Net :=
  set_world (Net_mk (alter (λ w, Wire_mk (wire_client w) (wire_asked w) (wire_referrals w) true) 1 (net_wires (ns_world ns1)))
               (net_log (ns_world ns1)) (net_time (ns_world ns1))) ns1.

(** The fid of a connection that is gone cannot be given back: its clunk fails, and
    so does every later one. *)
Theorem gone_connection_keeps_fid :
  let first := clunk None 2 ns_gone in
  (∃ e, first.1 = inl e ∧ errno e = libc.ENOTCONN) ∧ ns_bindings first.2 !! 2 = Some terminal_binding ∧
  (∃ e, (clunk None 2 first.2).1 = inl e) ∧ ns_bindings (clunk None 2 first.2).2 !! 2 = Some terminal_binding.
Proof.
  split; [eexists; split; vm_compute; reflexivity|]. split; [vm_compute; reflexivity|].
  split; [eexists; vm_compute; reflexivity|vm_compute; reflexivity].
Qed.
