(* ===== verification/ClientSession.v ===== *)
(** Renewable attachments: [crates/session/src/client_session.rs] and [epoch.rs].

    A [Client] is a number, the identity of its attachment.  [connect_from] is a
    function over what the candidates answer.  The rest is shared by threads
    ([reconnect], [reconnect_after] and [shutdown] may run at once), so it is a step
    relation: every access of the shared state is one step, and the lock of a
    reconnection is held from its first access to its last. *)
From S2P Require Import Prelude Errors Utf8 Referral Text SessionErrors Endpoint ExportDescriptor SessionConfig.

(** ** connect_from *)

Section connect.
Context {W : Type} (attach : ConnectionConfig → S_ W Z).  (* [Client::connect_with_tracker_timeout] *)

Definition failed_closed (candidate : ConnectionConfig) (e : SessionError) : SessionError :=
  SessionError_mk (errno e)
    (bstr "9P connection candidate " ++ cfg_address candidate ++ bstr " failed closed: " ++ se_message e).

Definition failure_text (candidate : ConnectionConfig) (e : SessionError) : bytes :=
  cfg_address candidate ++ bstr ": " ++ se_message e.

(** [failures.join("; ")] *)
Fixpoint join_failures (l : list bytes) : bytes :=
  match l with
  | [] => []
  | [x] => x
  | x :: l => x ++ bstr "; " ++ join_failures l
  end.

(** The loop: the candidates that are left, with their indices. *)
Fixpoint connect_candidates (l : list (nat * ConnectionConfig)) (failures : list bytes) (last_errno : Z) :
    S_ W (nat * Z) :=
  match l with
  | [] => sthrow (SessionError_mk last_errno (bstr "all 9P connection candidates failed: " ++ join_failures failures))
  | (index, candidate) :: l =>
      r ← sattempt (attach candidate);
      match r with
      | inr client => mret (index, client)
      | inl e =>
          if is_transient_connection_failure e
          then connect_candidates l (failures ++ [failure_text candidate e]) (errno e)
          else sthrow (failed_closed candidate e)
      end
  end.

(** [(start_candidate + offset) % candidates.len()] for each offset *)
Definition rotation (start : nat) (candidates : list ConnectionConfig) : list (nat * ConnectionConfig) :=
  omap (λ offset, let index := ((start + offset) mod length candidates)%nat in
                  candidate ← candidates !! index; Some (index, candidate)) (seq 0 (length candidates)).

Definition connect_from (connections : ConnectionSet) (start_candidate : nat) : S_ W (nat * Z) :=
  connect_candidates (rotation start_candidate (candidates connections)) [] libc.EHOSTUNREACH.

End connect.

(** ** The session *)

Record ClientSession := ClientSession_mk {
  cs_connections : ConnectionSet;
  cs_active : nat;
  cs_current : Z;
  cs_epoch : nat;              (* the number of the epoch's value *)
  cs_lock : option nat;        (* the thread in a reconnection *)
  cs_closed : bool;
}.

(** [from_connected] *)
Definition from_connected (connections : ConnectionSet) (active : nat) (client : Z) : ClientSession :=
  ClientSession_mk connections active client 0 None false.

Definition set_lock (l : option nat) (s : ClientSession) : ClientSession :=
  ClientSession_mk (cs_connections s) (cs_active s) (cs_current s) (cs_epoch s) l (cs_closed s).
Definition set_current (c : Z) (s : ClientSession) : ClientSession :=
  ClientSession_mk (cs_connections s) (cs_active s) c (cs_epoch s) (cs_lock s) (cs_closed s).
Definition set_closed (s : ClientSession) : ClientSession :=
  ClientSession_mk (cs_connections s) (cs_active s) (cs_current s) (cs_epoch s) (cs_lock s) true.
Definition set_active (active : nat) (s : ClientSession) : ClientSession :=
  ClientSession_mk (cs_connections s) active (cs_current s) (cs_epoch s) (cs_lock s) (cs_closed s).
(** [SessionEpoch::bump] *)
Definition bump (s : ClientSession) : ClientSession :=
  ClientSession_mk (cs_connections s) (cs_active s) (cs_current s) (S (cs_epoch s)) (cs_lock s) (cs_closed s).

Definition session_closed : SessionError := session_error libc.ESHUTDOWN "9P client session is closed".

Definition snapshot (s : ClientSession) : SResult Z :=
  if cs_closed s then inl session_closed else inr (cs_current s).

(** [active_address] *)
Definition active_address (s : ClientSession) : option bytes :=
  cfg_address <$> candidates (cs_connections s) !! cs_active s.

(** ** Threads *)

(** Where a thread is; [failed] is the argument of [reconnect_after], [None] in [reconnect]. *)
Inductive Phase :=
  | Entering (failed : option Z)
  | Locked (failed : option Z)
  | Replacing (start : nat)
  | Connecting (start : nat)
  | Connected (active : nat) (replacement : Z)
  | Installing (active : nat) (replacement : Z)
  | Adopting (active : nat) (replacement : Z)
  | Bumping (replacement : Z)
  | Closing
  | Closed
  | Stopping (client : Z)
  | Returned (r : SResult Z).

(** The session, the attachments that are up, those ever made, and the threads. *)
Record Sessions := Sessions_mk {
  ss_session : ClientSession;
  ss_up : gset Z;
  ss_made : gset Z;
  ss_threads : gmap nat Phase;
}.

Definition move (t : nat) (p : Phase) (f : ClientSession → ClientSession) (x : Sessions) : Sessions :=
  Sessions_mk (f (ss_session x)) (ss_up x) (ss_made x) (<[t := p]> (ss_threads x)).

(** The end of a reconnection: the lock is released. *)
Definition leave (t : nat) (r : SResult Z) (x : Sessions) : Sessions := move t (Returned r) (set_lock None) x.

Definition take_down (c : Z) (x : Sessions) : Sessions :=
  Sessions_mk (ss_session x) (ss_up x ∖ {[c]}) (ss_made x) (ss_threads x).

Definition bring_up (c : Z) (x : Sessions) : Sessions :=
  Sessions_mk (ss_session x) ({[c]} ∪ ss_up x) ({[c]} ∪ ss_made x) (ss_threads x).

(** The candidate a replacement starts with: the active one in [reconnect], the next
    one in [reconnect_after]. *)
Definition start_candidate (failed : option Z) (s : ClientSession) : nat :=
  match failed with
  | None => cs_active s
  | Some _ => ((cs_active s + 1) mod length (candidates (cs_connections s)))%nat
  end.

Inductive session_step : Sessions → Sessions → Prop :=
  | step_call t failed x :
      ss_threads x !! t = None → session_step x (move t (Entering failed) id x)
  | step_call_shutdown t x :
      ss_threads x !! t = None → session_step x (move t Closing id x)
  | step_lock t failed x :
      ss_threads x !! t = Some (Entering failed) → cs_lock (ss_session x) = None →
      session_step x (move t (Locked failed) (set_lock (Some t)) x)
  (* [self.snapshot()?], and the comparison with [failed] *)
  | step_snapshot_closed t failed x :
      ss_threads x !! t = Some (Locked failed) → cs_closed (ss_session x) = true →
      session_step x (leave t (inl session_closed) x)
  | step_already_replaced t failed x :
      ss_threads x !! t = Some (Locked (Some failed)) → cs_closed (ss_session x) = false →
      cs_current (ss_session x) ≠ failed →
      session_step x (leave t (inr (cs_current (ss_session x))) x)
  | step_replace t failed x :
      ss_threads x !! t = Some (Locked failed) → cs_closed (ss_session x) = false →
      (failed = None ∨ failed = Some (cs_current (ss_session x))) →
      session_step x (move t (Replacing (start_candidate failed (ss_session x))) id x)
  (* [replace_from] *)
  | step_replace_closed t start x :
      ss_threads x !! t = Some (Replacing start) → cs_closed (ss_session x) = true →
      session_step x (leave t (inl session_closed) x)
  | step_connect t start x :
      ss_threads x !! t = Some (Replacing start) → cs_closed (ss_session x) = false →
      session_step x (move t (Connecting start) id x)
  | step_connect_failed t start e x :
      ss_threads x !! t = Some (Connecting start) → session_step x (leave t (inl e) x)
  | step_connected t start active client x :
      ss_threads x !! t = Some (Connecting start) → client ∉ ss_made x →
      (active < length (candidates (cs_connections (ss_session x))))%nat →
      session_step x (move t (Connected active client) id (bring_up client x))
  | step_discard t active client x :
      ss_threads x !! t = Some (Connected active client) → cs_closed (ss_session x) = true →
      session_step x (leave t (inl session_closed) (take_down client x))
  | step_still_open t active client x :
      ss_threads x !! t = Some (Connected active client) → cs_closed (ss_session x) = false →
      session_step x (move t (Installing active client) id x)
  | step_install t active client x :
      ss_threads x !! t = Some (Installing active client) →
      session_step x (move t (Adopting active client) (set_current client) x)
  | step_adopt t active client x :
      ss_threads x !! t = Some (Adopting active client) →
      session_step x (move t (Bumping client) (set_active active) x)
  | step_bump t client x :
      ss_threads x !! t = Some (Bumping client) →
      session_step x (leave t (inr client) (move t (Bumping client) bump x))
  (* [shutdown] *)
  | step_close t x :
      ss_threads x !! t = Some Closing → session_step x (move t Closed set_closed x)
  | step_read_current t x :
      ss_threads x !! t = Some Closed → session_step x (move t (Stopping (cs_current (ss_session x))) id x)
  | step_stop t client x :
      ss_threads x !! t = Some (Stopping client) →
      session_step x (move t (Returned (inr client)) id (take_down client x)).

Definition session_start (connections : ConnectionSet) (active : nat) (client : Z) : Sessions :=
  Sessions_mk (from_connected connections active client) {[client]} {[client]} ∅.

Definition session_reachable (connections : ConnectionSet) (active : nat) (client : Z) : Sessions → Prop :=
  rtc session_step (session_start connections active client).
