(* ===== verification/ClientSessionProps.v ===== *)
(** What renewable attachments guarantee: theorems on ClientSession.v. *)
From S2P Require Import Prelude Errors Utf8 Referral Text SessionErrors Endpoint ExportDescriptor SessionConfig ClientSession.

(** ** Candidates *)

(** What the candidates of a list answer, one after the other. *)
Inductive answers {W} (attach : ConnectionConfig → S_ W Z) : W → list (nat * ConnectionConfig) → list SessionError → W → Prop :=
  | answers_nil w : answers attach w [] [] w
  | answers_cons w index candidate e w1 l es w2 :
      attach candidate w = (inl e, w1) → answers attach w1 l es w2 →
      answers attach w ((index, candidate) :: l) (e :: es) w2.

Lemma connect_candidates_spec {W} (attach : ConnectionConfig → S_ W Z) l failures errno0 w :
  ∃ tried es w1, answers attach w tried es w1 ∧ Forall (λ e, is_transient_connection_failure e = true) es ∧
    match connect_candidates attach l failures errno0 w with
    | (inr (index, client), w2) =>
        ∃ candidate rest, l = tried ++ (index, candidate) :: rest ∧ attach candidate w1 = (inr client, w2)
    | (inl e, w2) =>
        (l = tried ∧ w2 = w1 ∧ errno e = default errno0 (errno <$> last es)) ∨
        ∃ index candidate rest e0, l = tried ++ (index, candidate) :: rest ∧ attach candidate w1 = (inl e0, w2) ∧
          is_transient_connection_failure e0 = false ∧ errno e = errno e0
    end.
Proof.
  revert failures errno0 w. induction l as [|[index candidate] l IH]; intros failures errno0 w.
  { exists [], [], w. split_and!; [constructor|constructor|]. simpl. by left. }
  cbn [connect_candidates]. unfold mbind, S_bind, sattempt. destruct (attach candidate w) as [[e|client] w1] eqn:E.
  - destruct (is_transient_connection_failure e) eqn:Et.
    + destruct (IH (failures ++ [failure_text candidate e]) (errno e) w1) as (tried & es & w2 & Ha & Hes & H).
      exists ((index, candidate) :: tried), (e :: es), w2. split_and!; [by econstructor|by constructor|].
      destruct (connect_candidates _ _ _ _ w1) as [[e2|[i c]] w3].
      * destruct H as [(-> & -> & Hn)|(i & c & rest & e0 & -> & ?)]; [left|right; by exists i, c, rest, e0].
        split_and!; [done|done|]. rewrite Hn, last_cons. by destruct (last es).
      * destruct H as (c0 & rest & -> & ?). by exists c0, rest.
    + exists [], [], w. split_and!; [constructor|constructor|]. right. by exists index, candidate, l, e.
  - exists [], [], w. split_and!; [constructor|constructor|]. by exists candidate, l.
Qed.

Lemma omap_seq {A} (f : nat → option A) i n :
  (∀ k, (i ≤ k < i + n)%nat → is_Some (f k)) →
  length (omap f (seq i n)) = n ∧ ∀ k, (k < n)%nat → omap f (seq i n) !! k = f (i + k)%nat.
Proof.
  revert i. induction n as [|n IH]; intros i Hf; [split; [done|lia]|]. simpl.
  destruct (Hf i) as [a Ea]; [lia|]. rewrite Ea. destruct (IH (S i)) as [Hl Hk]; [intros; apply Hf; lia|].
  split; [exact (f_equal S Hl)|]. intros [|k] Hlt; simpl; [by rewrite Nat.add_0_r|].
  etrans; [apply Hk; lia|]. f_equal. lia.
Qed.

(** The candidates from [start] on and then those before it, each once. *)
Lemma rotation_spec start (l : list ConnectionConfig) :
  l ≠ [] →
  length (rotation start l) = length l ∧
  ∀ k, (k < length l)%nat → ∃ candidate,
    l !! ((start + k) mod length l)%nat = Some candidate ∧
    rotation start l !! k = Some (((start + k) mod length l)%nat, candidate).
Proof.
  intros Hne. assert (length l ≠ 0%nat) as Hn by (by destruct l).
  assert (∀ k, is_Some (l !! ((start + k) mod length l)%nat)) as Hsome.
  { intros k. apply lookup_lt_is_Some. by apply Nat.mod_upper_bound. }
  unfold rotation. match goal with |- length (omap ?f _) = _ ∧ _ => destruct (omap_seq f 0 (length l)) as [Hl Hk] end.
  - intros k _. simpl. destruct (Hsome k) as [c ->]. by eexists.
  - split; [done|]. intros k Hlt. destruct (Hsome k) as [c Hc]. exists c. split; [done|].
    rewrite Hk by done. simpl. by rewrite Hc.
Qed.

(** Connecting to a set of candidates tries them in turn from the given one on,
    every one at most once, and goes on only after a transient failure: the result is
    the first candidate that answers, with its index; a failure that is not transient
    is returned at once, with its errno and with no further attempt; and when all have
    failed the errno is that of the last. *)
Theorem connect_from_first_available {W} (attach : ConnectionConfig → S_ W Z) connections start w :
  candidates connections ≠ [] →
  let l := rotation start (candidates connections) in
  (∀ k, (k < length (candidates connections))%nat → ∃ candidate,
     candidates connections !! ((start + k) mod length (candidates connections))%nat = Some candidate ∧
     l !! k = Some (((start + k) mod length (candidates connections))%nat, candidate)) ∧
  length l = length (candidates connections) ∧
  ∃ tried es w1, answers attach w tried es w1 ∧ Forall (λ e, is_transient_connection_failure e = true) es ∧
    match connect_from attach connections start w with
    | (inr (index, client), w2) =>
        ∃ candidate rest, l = tried ++ (index, candidate) :: rest ∧ attach candidate w1 = (inr client, w2)
    | (inl e, w2) =>
        (l = tried ∧ w2 = w1 ∧ errno e = default libc.EHOSTUNREACH (errno <$> last es)) ∨
        ∃ index candidate rest e0, l = tried ++ (index, candidate) :: rest ∧ attach candidate w1 = (inl e0, w2) ∧
          is_transient_connection_failure e0 = false ∧ errno e = errno e0
    end.
Proof.
  intros Hne l. destruct (rotation_spec start (candidates connections) Hne) as [Hl Hk]. split_and!; [done|done|].
  apply connect_candidates_spec.
Qed.

Definition candidate (address : string) : ConnectionConfig :=
  ConnectionConfig_mk (bstr address) [] [] 8192 Unauthenticated.

(** The first candidate refuses connections, the second is there. *)
Definition second_up : ConnectionConfig → S_ nat Z := λ c n,
  (if bool_decide (cfg_address c = bstr "m7") then inl (session_error libc.ECONNREFUSED "refused") else inr 5, S n).

Lemma connect_from_first_available_witness :
  connect_from second_up (ConnectionSet_mk [candidate "m7"; candidate "nucbox"]) 0 0%nat = (inr (1%nat, 5), 2%nat) ∧
  length (rotation 0 [candidate "m7"; candidate "nucbox"]) = 2%nat.
Proof.
  split; [vm_compute; reflexivity|].
  apply (connect_from_first_available second_up (ConnectionSet_mk [candidate "m7"; candidate "nucbox"]) 0 0%nat). done.
Defined.

(** ** Reconnections *)

Definition holds_lock (p : Phase) : bool :=
  match p with
  | Locked _ | Replacing _ | Connecting _ | Connected _ _ | Installing _ _ | Adopting _ _ | Bumping _ => true
  | _ => false
  end.

(** The attachment that a thread is about to install. *)
Definition holding (p : Phase) : option Z :=
  match p with Connected _ c | Installing _ c => Some c | _ => None end.

Record session_ok (x : Sessions) : Prop := {
  so_lock t p : ss_threads x !! t = Some p → holds_lock p = true → cs_lock (ss_session x) = Some t;
  so_current : cs_current (ss_session x) ∈ ss_made x;
  so_holding t p c : ss_threads x !! t = Some p → holding p = Some c → c ∈ ss_made x;
}.

(** Every step moves one thread. *)
Ltac thread_cases :=
  repeat match goal with
  | H : <[_ := _]> _ !! _ = Some _ |- _ => apply lookup_insert_Some in H as [[<- <-]|[? H]]
  end.

Lemma session_ok_step x y : session_step x y → session_ok x → session_ok y.
Proof.
  intros Hstep [Hl Hc Hh]. destruct Hstep; constructor; simpl; intros; thread_cases; simpl in *; try done; eauto; try set_solver.
  all: try (exfalso; match goal with
    | H1 : ss_threads ?x !! ?t = Some ?p, H2 : ss_threads ?x !! ?t0 = Some ?p0, H3 : ?t ≠ ?t0 |- _ =>
        pose proof (Hl _ _ H1); pose proof (Hl _ _ H2); naive_solver congruence end).
Qed.

Lemma session_ok_reachable connections active client x : session_reachable connections active client x → session_ok x.
Proof.
  intros Hr. unfold session_reachable in Hr.
  assert (session_ok (session_start connections active client)) as H0.
  { constructor; simpl; [|set_solver|]; intros t p *; by rewrite lookup_empty. }
  clear -Hr H0. induction Hr; eauto using session_ok_step.
Qed.

(** No thread is about to install [c]. *)
Definition not_held (c : Z) (x : Sessions) : Prop := ∀ t p, ss_threads x !! t = Some p → holding p ≠ Some c.

Definition replaced (c : Z) (x : Sessions) : Prop :=
  c ∈ ss_made x ∧ cs_current (ss_session x) ≠ c ∧ not_held c x.

Lemma replaced_step c x y : session_step x y → replaced c x → replaced c y.
Proof.
  intros Hstep (Hm & Hc & Hh). destruct Hstep; (split_and!; simpl; [set_solver| |intros t' p' Hp; simpl in Hp; thread_cases; simpl]);
    try done; try (by eapply Hh).
  - intros [= ->]. done.
  - intros [= ->]. by eapply Hh.
  - intros ->. by eapply Hh.
Qed.

(** C29: reconnections are serialized and shared: at any time at most one thread is in a
    reconnection; and an attachment that has been replaced is never current again, so
    a caller that saw it fail gets the attachment that is current instead of making
    another one. *)
Theorem reconnections_shared connections active client x :
  session_reachable connections active client x →
  (∀ t1 t2 p1 p2, ss_threads x !! t1 = Some p1 → ss_threads x !! t2 = Some p2 →
     holds_lock p1 = true → holds_lock p2 = true → t1 = t2) ∧
  (∀ c y, c ∈ ss_made x → cs_current (ss_session x) ≠ c → not_held c x → rtc session_step x y →
     cs_current (ss_session y) ≠ c ∧
     ∀ t y', ss_threads y !! t = Some (Locked (Some c)) → session_step y y' →
       ss_threads y' !! t = Some (Locked (Some c)) ∨
       ∃ r, ss_threads y' !! t = Some (Returned r) ∧ r = snapshot (ss_session y)).
Proof.
  intros Hr. apply session_ok_reachable in Hr as Hok. split.
  - intros t1 t2 p1 p2 H1 H2 L1 L2. pose proof (so_lock _ Hok _ _ H1 L1). pose proof (so_lock _ Hok _ _ H2 L2). congruence.
  - intros c y Hm Hc Hh Hxy. assert (replaced c y) as (_ & Hcy & _).
    { assert (replaced c x) as Hx by done. clear -Hxy Hx. induction Hxy; eauto using replaced_step. }
    split; [done|]. intros t y' Ht Hstep.
    destruct Hstep; simpl; (destruct (decide (t = t0)) as [->|]; [rewrite lookup_insert_eq|rewrite lookup_insert_ne by done; auto]);
      simplify_eq; auto.
    + right. eexists. split; [done|]. unfold snapshot. by rewrite H0.
    + right. eexists. split; [done|]. unfold snapshot. by rewrite H0.
    + naive_solver.
    + rewrite lookup_insert_ne by done. auto.
Qed.

(** ** Closing *)

(** The last check of a reconnection is behind it, the installation is not. *)
Definition installing (p : Phase) : bool := match p with Installing _ _ => true | _ => false end.

Definition none_installing (x : Sessions) : Prop := ∀ t p, ss_threads x !! t = Some p → installing p = false.

(** A shutdown by thread [t] while [c] is current and stays so. *)
Record closing (t : nat) (c : Z) (x : Sessions) : Prop := {
  cl_closed : cs_closed (ss_session x) = true;
  cl_none : none_installing x;
  cl_current : cs_current (ss_session x) = c;
  cl_made : c ∈ ss_made x;
  cl_thread : match ss_threads x !! t with
              | Some Closed => True
              | Some (Stopping c') => c' = c
              | Some (Returned _) => c ∉ ss_up x
              | _ => False
              end;
}.

Lemma closing_step t c x y : session_step x y → closing t c x → closing t c y.
Proof.
  intros Hstep [Hcl Hno Hcur Hmade Ht]. destruct Hstep; try (simpl in *; congruence).
  all: try (exfalso; match goal with H : ss_threads _ !! _ = Some (Installing _ _) |- _ => by apply Hno in H end).
  all: constructor; simpl; try done; try set_solver.
  all: try (intros t' p' Hp; simpl in Hp; thread_cases; simpl; eauto; fail).
  all: try (destruct (decide (t = t0)) as [->|Hne];
    [rewrite ?lookup_insert_eq|rewrite ?lookup_insert_ne by done]; simplify_eq/=;
    repeat match goal with H : ss_threads _ !! _ = _ |- _ => rewrite H in Ht end; try done; set_solver).
  all: destruct (decide (t = t0)) as [->|Hne];
    [rewrite lookup_insert_eq; rewrite H in Ht; simplify_eq; set_solver
    |rewrite lookup_insert_ne by done; destruct (ss_threads x !! t) as [[]|]; try done; set_solver].
Qed.

(** A session that is closed while no reconnection stands between its last check
    and the installation of its attachment keeps its attachment for ever, and once the
    shutdown has returned that attachment is down. *)
Theorem shutdown_stops_current connections active client x t y r :
  session_reachable connections active client x → cs_closed (ss_session x) = true → none_installing x →
  ss_threads x !! t = Some Closed → rtc session_step x y → ss_threads y !! t = Some (Returned r) →
  cs_closed (ss_session y) = true ∧ cs_current (ss_session y) = cs_current (ss_session x) ∧
  (cs_current (ss_session y) ∉ ss_up y) ∧ snapshot (ss_session y) = inl session_closed.
Proof.
  intros Hr Hc Hno Ht Hxy Hy. assert (closing t (cs_current (ss_session x)) x) as Hx.
  { constructor; try done; [by apply so_current; eapply session_ok_reachable|by rewrite Ht]. }
  assert (closing t (cs_current (ss_session x)) y) as [Hcl _ Hcur _ Hth].
  { clear -Hxy Hx. set (c := cs_current (ss_session x)) in *. clearbody c. induction Hxy; eauto using closing_step. }
  rewrite Hy in Hth. rewrite Hcur. split_and!; [done|done|done|]. unfold snapshot. by rewrite Hcl.
Qed.

(** Threads 1 and 2 of a session with the attachment 1. *)
Definition one_candidate : ConnectionSet := ConnectionSet_mk [candidate "m7"].
Definition at_start : Sessions := session_start one_candidate 0 1.

Definition calling : Sessions := move 2 Closing id at_start.
Definition shut : Sessions := move 2 Closed set_closed calling.
Definition stopping : Sessions := move 2 (Stopping 1) id shut.
Definition stopped : Sessions := move 2 (Returned (inr 1)) id (take_down 1 stopping).

Lemma shut_steps : rtc session_step at_start shut ∧ rtc session_step shut stopped.
Proof.
  split.
  - eapply rtc_l; [by apply (step_call_shutdown 2)|]. apply rtc_once. by apply (step_close 2).
  - eapply rtc_l; [by apply (step_read_current 2)|]. apply rtc_once. by apply (step_stop 2 1).
Qed.

Lemma shutdown_stops_current_witness : (1 ∉ ss_up stopped) ∧ snapshot (ss_session stopped) = inl session_closed.
Proof.
  destruct shut_steps as [H1 H2].
  assert (none_installing shut) as Hno.
  { intros t p Hp. simpl in Hp. by thread_cases. }
  destruct (shutdown_stops_current one_candidate 0 1 shut 2 stopped (inr 1) H1 eq_refl Hno eq_refl H2 eq_refl) as (_ & _ & ? & ?).
  done.
Defined.

(** Both threads have seen the attachment 1 fail.  Thread 1 has replaced it and still
    holds the lock; then it returns, and thread 2 has the lock; thread 2 returns. *)
Definition both_call : Sessions := move 2 (Entering (Some 1)) id (move 1 (Entering (Some 1)) id at_start).
Definition replacing : Sessions := move 1 (Connecting 0) id (move 1 (Replacing 0) id (move 1 (Locked (Some 1)) (set_lock (Some 1%nat)) both_call)).
Definition installed : Sessions :=
  move 1 (Adopting 0 2) (set_current 2) (move 1 (Installing 0 2) id (move 1 (Connected 0 2) id (bring_up 2 replacing))).
Definition second_locks : Sessions :=
  move 2 (Locked (Some 1)) (set_lock (Some 2%nat)) (leave 1 (inr 2) (move 1 (Bumping 2) bump (move 1 (Bumping 2) (set_active 0) installed))).
Definition second_returns : Sessions := leave 2 (inr 2) second_locks.

Lemma replacement_steps :
  rtc session_step at_start installed ∧ rtc session_step installed second_locks ∧ session_step second_locks second_returns.
Proof.
  split_and!.
  - eapply rtc_l; [by apply (step_call 1 (Some 1))|]. eapply rtc_l; [by apply (step_call 2 (Some 1))|].
    eapply rtc_l; [by apply (step_lock 1 (Some 1))|].
    eapply rtc_l; [apply (step_replace 1 (Some 1)); [done|done|by right]|]. eapply rtc_l; [by eapply (step_connect 1)|].
    eapply rtc_l; [eapply (step_connected 1 _ 0 2); [done|set_solver|by apply Nat.ltb_lt]|].
    eapply rtc_l; [by eapply (step_still_open 1)|]. apply rtc_once. by eapply (step_install 1).
  - eapply rtc_l; [by eapply (step_adopt 1)|]. eapply rtc_l; [by eapply (step_bump 1)|]. apply rtc_once. by apply (step_lock 2 (Some 1)).
  - by apply (step_already_replaced 2 1).
Qed.

Lemma reconnections_shared_witness :
  session_reachable one_candidate 0 1 installed ∧ ss_threads installed !! 1%nat = Some (Adopting 0 2) ∧
  (∀ t p, ss_threads installed !! t = Some p → holds_lock p = true → t = 1%nat) ∧
  cs_current (ss_session second_locks) ≠ 1 ∧ ss_threads second_locks !! 2%nat = Some (Locked (Some 1)) ∧
  ss_threads second_returns !! 2%nat = Some (Returned (inr 2)).
Proof.
  destruct replacement_steps as (H1 & H2 & H3). destruct (reconnections_shared one_candidate 0 1 installed H1) as [Hlock Hshared].
  split; [exact H1|]. split; [reflexivity|]. split.
  { intros t p Ht Hp. exact (Hlock t 1%nat p (Adopting 0 2) Ht eq_refl Hp eq_refl). }
  destruct (Hshared 1 second_locks) as [Hc Hr]; [vm_compute; set_solver|done| |exact H2|].
  { intros t p Hp. simpl in Hp. by thread_cases. }
  split; [exact Hc|]. split; [reflexivity|].
  destruct (Hr 2%nat second_returns eq_refl H3) as [E|(r & -> & ->)]; [discriminate E|reflexivity].
Defined.

(** A shutdown that comes between a reconnection's last check and its installation
    stops the attachment that is being replaced; the replacement is installed in the
    closed session, returned to its caller, and stays up. *)
Theorem shutdown_misses_replacement :
  ∃ x, session_reachable one_candidate 0 1 x ∧ cs_closed (ss_session x) = true ∧
    cs_current (ss_session x) = 2 ∧ 2 ∈ ss_up x ∧
    ss_threads x = {[1%nat := Returned (inr 2); 2%nat := Returned (inr 1)]}.
Proof.
  eexists. split.
  - unfold session_reachable.
    eapply rtc_l; [by apply (step_call 1 None)|]. eapply rtc_l; [by apply (step_lock 1 None)|].
    eapply rtc_l; [apply (step_replace 1 None); [done|done|by left]|]. eapply rtc_l; [by eapply (step_connect 1)|].
    eapply rtc_l; [eapply (step_connected 1 _ 0 2); [done|set_solver|by apply Nat.ltb_lt]|].
    eapply rtc_l; [by eapply (step_still_open 1)|].
    eapply rtc_l; [by apply (step_call_shutdown 2)|]. eapply rtc_l; [by apply (step_close 2)|].
    eapply rtc_l; [by apply (step_read_current 2)|]. eapply rtc_l; [by eapply (step_stop 2)|].
    eapply rtc_l; [by eapply (step_install 1)|]. eapply rtc_l; [by eapply (step_adopt 1)|].
    eapply rtc_l; [by eapply (step_bump 1)|]. apply rtc_refl.
  - vm_compute. split_and!; reflexivity.
Qed.
