(* ===== verification/SessionFids.v ===== *)
(** Opened files of a session: [crates/session/src/opened_fid.rs] (the fid shared by
    concurrent reads) and [resumable_fid.rs] (the file that survives its connection).

    A concurrent read is three accesses of the shared state (submit, wait, finish),
    between which other threads run: they are separate definitions.  A resumable file
    retries for as long as its connection fails, so its loop has fuel. *)
From S2P Require Import Prelude Errors Qid Stat Utf8 Referral Codec FrameIO ClientSupport Blocking MultiplexClient.
From S2P Require Import NamespaceCache Text SessionErrors Endpoint ExportDescriptor SessionConfig NamespaceRouting NamespaceClient NamespaceOps.

(** ** opened_fid.rs: concurrent reads *)

Record ConcurrentReadFid := ConcurrentReadFid_mk {
  cr_fid : option Z;
  cr_active : gset Z;
  cr_clunk_timeout : Z;
}.

Section concurrent.
Context {W C : Type} `{!Caller C} `{!Connections W C} {dbg : DebugText} {dur : DurationText}.

Abbreviation N := (S_ (Namespace W)).
(** Code with the shared state of the fid, and the namespace. *)
Abbreviation R := (S_ (ConcurrentReadFid * Namespace W)).

Definition on_namespace {A} (m : N A) : R A := λ '(f, s), let '(r, s) := m s in (r, (f, s)).

Definition open_concurrent_read_path_timeout (path : bytes) (timeout : Z) : N ConcurrentReadFid :=
  fid ← open_path_fid_timeout path OREAD timeout;
  mret (ConcurrentReadFid_mk (Some fid) ∅ timeout).

Definition set_active (tags : gset Z) (f : ConcurrentReadFid) : ConcurrentReadFid :=
  ConcurrentReadFid_mk (cr_fid f) tags (cr_clunk_timeout f).

(** The first part of [read], under the lock. *)
Definition concurrent_submit (offset count : Z) : R (Z * PendingRead) :=
  f ← sgets fst;
  fid ← slift (some_or (cr_fid f) (session_error libc.EBADF "concurrent read fid is closed"));
  pending ← on_namespace (submit_read fid offset count);
  _ ← smodify (λ '(f, s), (set_active ({[pending_tag (pr_call pending.2)]} ∪ cr_active f) f, s));
  mret pending.

(** [ActiveConcurrentRead::drop] *)
Definition concurrent_finish (tag : Z) : R unit :=
  smodify (λ '(f, s), (set_active (cr_active f ∖ {[tag]}) f, s)).

Definition concurrent_read (timeout : option Z) (offset count : Z) : R bytes :=
  pending ← concurrent_submit offset count;
  r ← sattempt (on_namespace (pending_wait timeout pending));
  _ ← concurrent_finish (pending_tag (pr_call pending.2));
  slift r.

(** One turn of [read_delimited_with]. *)
Definition delimited_turn {X} (delimiter : byte) (read_once : Z → Z → S_ X bytes) (st : Z * Z * bytes * X) :
    (Z * Z * bytes * X) + (SResult bytes * X) :=
  let '(offset, remaining, out, x) := st in
  if remaining =? 0
  then inr (inl (session_error libc.EMSGSIZE "9P read reached its byte bound before the record delimiter"), x)
  else
    match read_once offset remaining x with
    | (inl e, x) => inr (inl e, x)
    | (inr data, x) =>
        if bool_decide (data = [])
        then inr (inl (session_error libc.EIO "9P read reached EOF before the record delimiter"), x)
        else
          match list_find (λ b, b = delimiter) data with
          | Some (position, _) =>
              if negb (Z.of_nat position + 1 =? vlen data)
              then inr (inl (session_error libc.EPROTO "9P read returned bytes after the record delimiter"), x)
              else inr (inr (out ++ data), x)
          | None =>
              match try_from u32_max (vlen data) with
              | None => inr (inl (session_error libc.EOVERFLOW "read count overflow"), x)
              | Some read_count =>
                  match checked_add u64_max offset read_count with
                  | None => inr (inl (session_error libc.EOVERFLOW "9P offset overflow"), x)
                  | Some offset => inl (offset, saturating_sub remaining read_count, out ++ data, x)
                  end
              end
          end
    end.

(** Every turn reads at least one byte of the 32-bit bound ([delimited_ends]). *)
Definition concurrent_read_delimited_with {X} (offset count : Z) (delimiter : byte) (read_once : Z → Z → S_ X bytes) :
    S_ X bytes := λ x,
  if count =? 0
  then (inl (session_error libc.EINVAL "delimiter-terminated 9P read requires a nonzero byte bound"), x)
  else match loop 33 (delimited_turn delimiter read_once) (offset, count, [], x) with
       | inl (_, _, _, x) => (inl unreachable_session_error, x)
       | inr result => result
       end.

Definition concurrent_read_delimited (timeout : option Z) (offset count : Z) (delimiter : byte) : R bytes :=
  concurrent_read_delimited_with offset count delimiter (concurrent_read timeout).

Fixpoint flush_tags (fid : Z) (tags : list Z) (timeout : Z) : N unit :=
  match tags with
  | [] => mret ()
  | tag :: tags => _ ← sattempt (flush_read_tag_timeout fid tag timeout); flush_tags fid tags timeout
  end.

(** [ConcurrentReadFidInner::clunk], of [cancel] and of the last drop. *)
Definition concurrent_clunk : R unit :=
  f ← sgets fst;
  _ ← smodify (λ '(f, s), (ConcurrentReadFid_mk None (cr_active f) (cr_clunk_timeout f), s));
  match cr_fid f with
  | None => mret ()
  | Some fid =>
      _ ← on_namespace (flush_tags fid (elements (cr_active f)) (Z.min (cr_clunk_timeout f) 250000000));
      on_namespace (clunk (Some (cr_clunk_timeout f)) fid)
  end.

End concurrent.

(** ** resumable_fid.rs *)

(** The [write] and [write_timeout] of a session's client (direct.rs),
    [self.inner.write(..).map_err(client_error)], over the chunk loop of the core: one
    [Twrite], [write_once], for each part of at most [payload] bytes. *)
Definition chunked {W} (payload offset : Z) (data : bytes) (write_once : Z → bytes → M W Z) : S_ W Z := λ w,
  match ended (write_in_chunks payload offset data write_once) w with
  | (Ok count, w) => (inr count, w)
  | (Err error, w) => (inl (client_error error), w)
  end.

(** What a resumable file needs of its session and of the session's clients. *)
Class Renewable (W : Type) := {
  session_snapshot : S_ W Z;
  reconnect_after : Z → S_ W Z;
  client_walk_path : Z → option Z → bytes → S_ W Z;
  client_open : Z → option Z → Z → Z → S_ W Qid;
  client_read : Z → option Z → Z → Z → Z → S_ W bytes;
  client_write : Z → option Z → Z → Z → bytes → S_ W Z;
  client_clunk : Z → option Z → Z → S_ W unit;
}.

Record ResumableFid := ResumableFid_mk {
  rs_path : bytes;
  rs_mode : Z;
  rs_request_timeout : Z;
  rs_client : Z;
  rs_fid : Z;
  rs_closed : bool;
}.

Section resumable.
Context {W : Type} `{!Renewable W}.

(** A zero [request_timeout] waits for ever. *)
Definition request_timeout (timeout : Z) : option Z := if timeout =? 0 then None else Some timeout.

Definition open_binding (client : Z) (path : bytes) (mode timeout : Z) : S_ W Z :=
  fid ← client_walk_path client (request_timeout timeout) path;
  opened ← sattempt (client_open client (request_timeout timeout) fid mode);
  match opened with
  | inl error => _ ← sattempt (client_clunk client (request_timeout timeout) fid); sthrow error
  | inr _ => mret fid
  end.

Definition resumable_open (path : bytes) (mode timeout : Z) : S_ W ResumableFid :=
  client ← session_snapshot;
  fid ← open_binding client path mode timeout;
  mret (ResumableFid_mk path mode timeout client fid false).

Definition reopen_after_failure (f : ResumableFid) : S_ W ResumableFid :=
  client ← reconnect_after (rs_client f);
  fid ← open_binding client (rs_path f) (rs_mode f) (rs_request_timeout f);
  mret (ResumableFid_mk (rs_path f) (rs_mode f) (rs_request_timeout f) client fid (rs_closed f)).

(** The loop of [read] and of [write]; the file keeps the binding that [reopen_after_failure]
    gave it, whatever the result. *)
Fixpoint resume {A} (fuel : nat) (operation : Z → option Z → Z → S_ W A) (f : ResumableFid) (w : W) :
    option (SResult A * (ResumableFid * W)) :=
  match fuel with
  | O => None
  | S fuel =>
      match operation (rs_client f) (request_timeout (rs_request_timeout f)) (rs_fid f) w with
      | (inr a, w) => Some (inr a, (f, w))
      | (inl error, w) =>
          if is_definitive_transport_failure error then
            match reopen_after_failure f w with
            | (inl error, w) => Some (inl error, (f, w))
            | (inr f, w) => resume fuel operation f w
            end
          else Some (inl error, (f, w))
      end
  end.

Definition resumable_read (fuel : nat) (offset count : Z) : ResumableFid → W → option (SResult bytes * (ResumableFid * W)) :=
  resume fuel (λ client timeout fid, client_read client timeout fid offset count).

Definition resumable_write (fuel : nat) (offset : Z) (data : bytes) :
    ResumableFid → W → option (SResult Z * (ResumableFid * W)) :=
  resume fuel (λ client timeout fid, client_write client timeout fid offset data).

(** [ResumableFid::clunk], of [close] and of the drop. *)
Definition resumable_clunk (f : ResumableFid) (w : W) : SResult unit * (ResumableFid * W) :=
  if rs_closed f then (inr (), (f, w))
  else
    let '(r, w) := client_clunk (rs_client f) (request_timeout (rs_request_timeout f)) (rs_fid f) w in
    (r, (ResumableFid_mk (rs_path f) (rs_mode f) (rs_request_timeout f) (rs_client f) (rs_fid f) true, w)).

End resumable.
