(* ===== verification/SessionFidsProps.v ===== *)
(** What the opened files of a session guarantee: theorems on SessionFids.v. *)
From S2P Require Import Prelude Errors Qid Stat Utf8 Referral Codec FrameIO ClientSupport Blocking MultiplexClient.
From S2P Require Import NamespaceCache Text SessionErrors Endpoint ExportDescriptor SessionConfig NamespaceRouting NamespaceClient NamespaceOps SessionFids.

(** ** Concurrent reads *)

Section delimited.
Context {X : Type} (delimiter : byte) (read_once : Z → Z → S_ X bytes).

Lemma delimited_turn_inl st st' :
  delimited_turn delimiter read_once st = inl st' →
  ∃ offset remaining out x data x', st = (offset, remaining, out, x) ∧
    st' = (offset + vlen data, saturating_sub remaining (vlen data), out ++ data, x') ∧
    remaining ≠ 0 ∧ read_once offset remaining x = (inr data, x') ∧ data ≠ [].
Proof.
  destruct st as [[[offset remaining] out] x]. unfold delimited_turn. destruct (remaining =? 0) eqn:E0; [done|].
  apply Z.eqb_neq in E0. destruct (read_once offset remaining x) as [[e|data] x'] eqn:Er; [done|].
  case_bool_decide; [done|]. destruct (list_find _ data) as [[p b]|]; [by case_match|].
  destruct (try_from u32_max (vlen data)) eqn:Et; [|done]. apply try_from_Some in Et as [-> _].
  unfold checked_add. destruct (_ <=? _); [|done]. intros [= <-]. exists offset, remaining, out, x, data, x'. by split_and!.
Qed.

(** The bound on the bytes bounds the turns. *)
Lemma delimited_ends offset count x :
  0 ≤ count ≤ u32_max → ∃ r, loop 33 (delimited_turn delimiter read_once) (offset, count, [], x) = inr r.
Proof.
  intros Hc. destruct (loop _ _ _) as [[[[o rem] out] x']|r] eqn:E; [|by eexists]. exfalso.
  assert (∀ st st' : Z * Z * bytes * X, 0 ≤ st.1.1.2 → delimited_turn delimiter read_once st = inl st' → 0 ≤ st'.1.1.2) as Hkeep.
  { intros st st' _ (? & ? & ? & ? & ? & ? & -> & -> & _)%delimited_turn_inl. simpl. unfold saturating_sub. lia. }
  assert (-1 - count + 2 ^ Z.of_nat 33 ≤ -1 - rem).
  { apply (loop_progress (delimited_turn delimiter read_once) (λ st : Z * Z * bytes * X, 0 ≤ st.1.1.2) Hkeep
      (λ st, -1 - st.1.1.2) 33 (offset, count, [], x) (o, rem, out, x')); [|simpl; lia|done].
    intros st st' Hst (? & ? & ? & ? & data & ? & -> & -> & Hr & _ & Hd)%delimited_turn_inl. simpl in *.
    destruct data as [|b data]; [done|]. unfold saturating_sub. rewrite vlen_cons. pose proof (vlen_nonneg data). lia. }
  apply (loop_keeps _ _ Hkeep) in E; [|simpl; lia]. simpl in E. unfold u32_max in *. change (Z.of_nat 33) with 33 in *. lia.
Qed.

End delimited.

Section concurrent.
Context {W C : Type} `{!Caller C} `{!Connections W C} {dbg : DebugText} {dur : DurationText}.

(** A cancelled fid is closed: no read is submitted on it any more, and cancelling it
    again does nothing. *)
Theorem cancelled_fid_closed (f : ConcurrentReadFid) (s : Namespace W) r f' s' :
  concurrent_clunk (f, s) = (r, (f', s')) →
  cr_fid f' = None ∧ cr_active f' = cr_active f ∧ concurrent_clunk (f', s') = (inr (), (f', s')) ∧
  ∀ offset count, (concurrent_submit offset count (f', s')).2 = (f', s') ∧
    ∃ e, (concurrent_submit offset count (f', s')).1 = inl e ∧ errno e = libc.EBADF.
Proof.
  intros E. assert (cr_fid f' = None ∧ cr_active f' = cr_active f) as [Hf Ha].
  { unfold concurrent_clunk, mbind, S_bind in E. simpl in E. destruct (cr_fid f) as [fid|]; [|by injection E as <- <- <-].
    unfold on_namespace in E. destruct (flush_tags fid _ _ s) as [[e|[]] s1]; [by injection E as <- <- <-|].
    destruct (clunk _ fid s1) as [rc s2]. by injection E as <- <- <-. }
  split_and!; [done|done| |].
  - unfold concurrent_clunk, mbind, S_bind. simpl. rewrite Hf. destruct f'; simpl in *. by subst.
  - intros offset count. unfold concurrent_submit, mbind, S_bind. simpl. rewrite Hf. simpl. split; [done|by eexists].
Qed.

End concurrent.

(** ** Resumable files *)

Section resumable.
Context {W : Type} `{!Renewable W}.

(** A result comes from the operation itself, on a binding of the same file; an error
    that is returned is not the loss of the connection it was made on, unless the
    connection could not be replaced. *)
Lemma resume_result {A} fuel (operation : Z → option Z → Z → S_ W A) f w r f' w' :
  resume fuel operation f w = Some (r, (f', w')) →
  rs_path f' = rs_path f ∧ rs_mode f' = rs_mode f ∧ rs_request_timeout f' = rs_request_timeout f ∧
  ∃ w0 r0 w1, operation (rs_client f') (request_timeout (rs_request_timeout f)) (rs_fid f') w0 = (r0, w1) ∧
    ((r = r0 ∧ w' = w1 ∧ ∀ e, r0 = inl e → is_definitive_transport_failure e = false) ∨
     ∃ e e', r0 = inl e ∧ is_definitive_transport_failure e = true ∧ r = inl e' ∧ reopen_after_failure f' w1 = (inl e', w')).
Proof.
  revert f w. induction fuel as [|fuel IH]; intros f w E; [done|]. cbn [resume] in E.
  destruct (operation _ _ _ w) as [[e|a] w1] eqn:Eo.
  - destruct (is_definitive_transport_failure e) eqn:Ed.
    + destruct (reopen_after_failure f w1) as [[e'|f1] w2] eqn:Er.
      * injection E as <- <- <-. split_and!; try done. exists w, (inl e), w1. split; [done|]. right. by exists e, e'.
      * assert (rs_path f1 = rs_path f ∧ rs_mode f1 = rs_mode f ∧ rs_request_timeout f1 = rs_request_timeout f) as (E1 & E2 & E3).
        { unfold reopen_after_failure in Er. apply S_bind_ok in Er as (c & ? & _ & Er). apply S_bind_ok in Er as (g & ? & _ & Er).
          by injection Er as <- _. }
        apply IH in E as (? & ? & ? & H). rewrite E3 in H. split_and!; congruence || done.
    + injection E as <- <- <-. split_and!; try done. exists w, (inl e), w1. split; [done|]. left.
      split_and!; try done. intros e0 [= <-]. done.
  - injection E as <- <- <-. split_and!; try done. exists w, (inr a), w1. split; [done|]. left. by split_and!.
Qed.

(** *** Replay *)

(** What the doc comment of [ResumableFid] asks of the server of the file, for single
    [Twrite]s: [put] is what bytes at an offset do to the file's state.  Bytes sent in
    two writes do what they do in one, and repeating bytes at the same offset, when
    they or more have been put there, does nothing.  A [Twrite] may put any first part
    of its bytes there, of the length that it reports when it succeeds; when it fails
    the part is unknown.  A client's write is refused before it sends anything, or is
    the chunk loop over such [Twrite]s, and nothing else changes the file. *)
Class ReplaySafe {F : Type} (file : W → F) (put : Z → bytes → F → F) (payload : Z → Z)
    (write_once : Z → option Z → Z → Z → bytes → M W Z) : Prop := {
  put_nil offset x : put offset [] x = x;
  put_app offset a b x : put offset (a ++ b) x = put (offset + vlen a) b (put offset a x);
  put_again offset a b x : put offset a (put offset (a ++ b) x) = put offset (a ++ b) x;
  write_once_puts client timeout fid offset chunk w : ∀ r w',
    write_once client timeout fid offset chunk w = (r, w') →
    ∃ k, 0 ≤ k ≤ vlen chunk ∧ file w' = put offset (ztake k chunk) (file w) ∧ ∀ n, r = Ok n → n = k;
  write_chunked client timeout fid offset data w :
    client_write client timeout fid offset data w = chunked (payload client) offset data (write_once client timeout fid) w ∨
    ∃ e w', client_write client timeout fid offset data w = (inl e, w') ∧ file w' = file w;
  reconnect_keeps failed w : file (reconnect_after failed w).2 = file w;
  walk_keeps client timeout path w : file (client_walk_path client timeout path w).2 = file w;
  open_keeps client timeout fid mode w : file (client_open client timeout fid mode w).2 = file w;
  clunk_keeps client timeout fid w : file (client_clunk client timeout fid w).2 = file w;
}.

Context {F : Type} (file : W → F) (put : Z → bytes → F → F) (payload : Z → Z)
  (write_once : Z → option Z → Z → Z → bytes → M W Z) `{!ReplaySafe file put payload write_once}.










End resumable.

(** *** A connection that is lost in the middle of a write *)

(** A numbered input: bytes at an offset that is not past the end are taken, less
    those that it has. *)
Definition accept (offset : Z) (data input : bytes) : bytes :=
  if offset <=? vlen input then input ++ zdrop (vlen input - offset) data else input.

(** The input and the number of the attachment.  A message of the first attachment
    carries 3 bytes; its second [Twrite] loses the connection when the server has taken
    one byte.  Those of the later ones carry 4. *)
Record Replay := Replay_mk { rp_input : bytes; rp_attachment : Z }.

Definition lost : Error := from_static "9P transport closed before response".

Definition replay_payload (client : Z) : Z := if client =? 1 then 3 else 4.

Definition replay_once (client : Z) (timeout : option Z) (fid offset : Z) (chunk : bytes) : M Replay Z := λ w,
  if (client =? 1) && negb (offset =? 0)
  then (Err lost, Replay_mk (accept offset (ztake 1 chunk) (rp_input w)) (rp_attachment w))
  else (Ok (vlen chunk), Replay_mk (accept offset chunk (rp_input w)) (rp_attachment w)).

#[export] Instance replay_renewable : Renewable Replay := {
  session_snapshot w := (inr (rp_attachment w), w);
  reconnect_after _ w := (inr (rp_attachment w + 1), Replay_mk (rp_input w) (rp_attachment w + 1));
  client_walk_path _ _ _ w := (inr 2, w);
  client_open _ _ _ _ w := (inr (Qid_file 2), w);
  client_read _ _ _ _ _ w := (inr [], w);
  client_write client timeout fid offset data :=
    chunked (replay_payload client) offset data (replay_once client timeout fid);
  client_clunk _ _ _ w := (inr (), w);
}.

Lemma zdrop_of_app n (a b : bytes) : zdrop n (a ++ b) = zdrop n a ++ zdrop (n - vlen a) b.
Proof. unfold zdrop. rewrite drop_app. do 2 f_equal. unfold vlen. lia. Qed.

Lemma accept_app offset a b input : accept offset (a ++ b) input = accept (offset + vlen a) b (accept offset a input).
Proof.
  unfold accept. pose proof (vlen_nonneg a). destruct (Z.leb_spec offset (vlen input)) as [Ho|Ho].
  2: by destruct (Z.leb_spec (offset + vlen a) (vlen input)); [lia|].
  rewrite vlen_app, zdrop_of_app, app_assoc. destruct (Z.le_gt_cases (vlen input - offset) (vlen a)) as [Hle|Hgt].
  - rewrite vlen_zdrop by lia. rewrite (proj2 (Z.leb_le _ _)) by lia. f_equal. unfold zdrop. f_equal. lia.
  - replace (zdrop (vlen input - offset) a) with (@nil byte) by (unfold zdrop; rewrite drop_ge; [done|unfold vlen in *; lia]).
    change (vlen (@nil byte)) with 0. rewrite (proj2 (Z.leb_le _ _)) by lia. f_equal. f_equal. lia.
Qed.

Lemma accept_again offset a b input : accept offset a (accept offset (a ++ b) input) = accept offset (a ++ b) input.
Proof.
  unfold accept. pose proof (vlen_nonneg a). pose proof (vlen_nonneg b). destruct (Z.leb_spec offset (vlen input)) as [Ho|Ho].
  2: by destruct (Z.leb_spec offset (vlen input)); [lia|].
  assert (offset + vlen a ≤ vlen (input ++ zdrop (vlen input - offset) (a ++ b))) as Hlen.
  { rewrite vlen_app. unfold vlen, zdrop in *. rewrite length_drop, length_app. lia. }
  rewrite (proj2 (Z.leb_le _ _)) by lia. rewrite <- (app_nil_r (input ++ _)) at 3. f_equal.
  unfold zdrop at 1. apply drop_ge. unfold vlen in *. lia.
Qed.

#[export] Instance replay_safe : ReplaySafe rp_input accept replay_payload replay_once.
Proof.
  constructor; try done.
  - intros offset x. unfold accept, zdrop. case_match; [|done]. by rewrite drop_nil, app_nil_r.
  - intros. apply accept_app.
  - intros. apply accept_again.
  - intros client timeout fid offset chunk w r w'. unfold replay_once. pose proof (vlen_nonneg chunk) as Hc.
    case_match; intros [= <- <-].
    + exists (Z.min 1 (vlen chunk)). split_and!; [lia|lia| |done]. simpl. f_equal. unfold ztake.
      destruct chunk; [done|]. rewrite vlen_cons in *. pose proof (vlen_nonneg chunk). f_equal. lia.
    + exists (vlen chunk). split_and!; [lia|lia| |by intros n [= <-]]. simpl. f_equal. unfold ztake.
      symmetry. apply take_ge. unfold vlen. lia.
  - intros. by left.
Qed.





(** *** A server that refuses *)

(** A server that answers every read of its file with the refusal [text]. *)
Record Refusing := Refusing_mk { rf_attachments : Z }.

Definition named_pipe : bytes := bstr "named pipe has no reader".

#[export] Instance refusing_renewable : Renewable Refusing := {
  session_snapshot w := (inr (rf_attachments w), w);
  reconnect_after _ w := (inr (rf_attachments w + 1), Refusing_mk (rf_attachments w + 1));
  client_walk_path _ _ _ w := (inr 2, w);
  client_open _ _ _ _ w := (inr (Qid_file 2), w);
  client_read _ _ _ _ _ w := (inl (client_error (Error_new named_pipe)), w);
  client_write _ _ _ _ _ w := (inl (client_error (Error_new named_pipe)), w);
  client_clunk _ _ _ w := (inr (), w);
}.

(** A read that the server refuses with such a text never returns: every refusal is
    taken for the loss of the connection, so the file is reopened on a new attachment
    and read again, for ever. *)
Theorem refused_read_never_returns fuel offset count f w : resumable_read fuel offset count f w = None.
Proof.
  revert f w. unfold resumable_read. induction fuel as [|fuel IH]; intros f w; [done|]. cbn [resume]. simpl.
  replace (is_definitive_transport_failure (client_error (Error_new named_pipe))) with true by (vm_compute; reflexivity).
  apply IH.
Qed.
