(* ===== verification/SessionProcess.v ===== *)
(** A session and its namespace clients, put together: the renewable attachments of
    client_session.rs over the namespace clients of namespace.rs, as resumable_fid.rs
    uses them.  One thread runs, so a reconnection is a function; the threads of
    ClientSession.v take the same steps ([reconnect_follows_steps]). *)
From S2P Require Import Prelude Errors Qid Stat Utf8 Referral Codec FrameIO ClientSupport Blocking MultiplexClient.
From S2P Require Import NamespaceCache Text SessionErrors Endpoint ExportDescriptor SessionConfig NamespaceRouting NamespaceClient NamespaceOps NamespaceProps SessionFids ClientSession.

(** The session, the clients by their identity, the connections. *)
Record Process (W : Type) := Process_mk {
  pc_session : ClientSession;
  pc_connect_timeout : Z;
  pc_clients : gmap Z (Namespace W);
  pc_world : W;
}.

Arguments Process_mk {W}.
Arguments pc_session {W}.
Arguments pc_connect_timeout {W}.
Arguments pc_clients {W}.
Arguments pc_world {W}.

Section process.
Context {W C : Type} `{!Caller C} `{!Connections W C} {dbg : DebugText} {dur : DurationText}.

Abbreviation P := (S_ (Process W)).

Definition set_session (s : ClientSession) (p : Process W) : Process W :=
  Process_mk s (pc_connect_timeout p) (pc_clients p) (pc_world p).

Definition put_client (c : Z) (s : Namespace W) (p : Process W) : Process W :=
  Process_mk (pc_session p) (pc_connect_timeout p) (<[c := s]> (pc_clients p)) (ns_world s).

(** A call of the client [c]; the connections are those of the process. *)
Definition on_client {A} (c : Z) (m : S_ (Namespace W) A) : P A := λ p,
  match pc_clients p !! c with
  | None => (inl unreachable_session_error, p)
  | Some s => let '(r, s) := m (set_world (pc_world p) s) in (r, put_client c s p)
  end.

(** [Client::connect_with_tracker_timeout]: a new client. *)
Definition attach_client (config : ConnectionConfig) : P Z := λ p,
  match namespace_connect config (pc_connect_timeout p) (pc_world p) with
  | (inl e, w) => (inl e, Process_mk (pc_session p) (pc_connect_timeout p) (pc_clients p) w)
  | (inr s, _) => let c := fresh (dom (pc_clients p)) in (inr c, put_client c s p)
  end.

Definition process_snapshot : P Z := λ p, (snapshot (pc_session p), p).

(** [replace_from], with the checks of [closed] that one thread makes. *)
Definition replace_from (start : nat) : P Z := λ p,
  if cs_closed (pc_session p) then (inl session_closed, p)
  else match connect_from attach_client (cs_connections (pc_session p)) start p with
       | (inl e, p) => (inl e, p)
       | (inr (active, replacement), p) =>
           if cs_closed (pc_session p)
           then let '(_, p) := on_client replacement shutdown p in (inl session_closed, p)
           else (inr replacement,
                 set_session (bump (set_active active (set_current replacement (pc_session p)))) p)
       end.

Definition process_reconnect : P Z :=
  _ ← process_snapshot;
  start ← sgets (λ p, start_candidate None (pc_session p));
  replace_from start.

Definition process_reconnect_after (failed : Z) : P Z :=
  current ← process_snapshot;
  if negb (current =? failed) then mret current
  else start ← sgets (λ p, start_candidate (Some failed) (pc_session p)); replace_from start.

Definition process_shutdown : P unit :=
  _ ← smodify (λ p, set_session (set_closed (pc_session p)) p);
  client ← sgets (λ p, cs_current (pc_session p));
  on_client client shutdown.

(** [ClientSession::connect_set] *)
Definition connect_set (connections : ConnectionSet) (timeout : Z) (w : W) : SResult (Process W) * W :=
  let start := Process_mk (from_connected connections 0 0) timeout ∅ w in
  match connect_from attach_client connections 0 start with
  | (inl e, p) => (inl e, pc_world p)
  | (inr (active, client), p) =>
      (inr (set_session (from_connected connections active client) p), pc_world p)
  end.

#[export] Instance process_renewable : Renewable (Process W) := {
  session_snapshot := process_snapshot;
  reconnect_after := process_reconnect_after;
  client_walk_path c timeout path := on_client c (walk_path timeout path);
  client_open c timeout fid mode := on_client c (open timeout fid mode);
  client_read c timeout fid offset count := on_client c (read_with timeout fid offset count);
  client_write c timeout fid offset data := on_client c (write timeout fid offset data);
  client_clunk c timeout fid := on_client c (clunk timeout fid);
}.

(** ** One thread *)

Lemma on_client_session {A} c (m : S_ (Namespace W) A) p : pc_session (on_client c m p).2 = pc_session p.
Proof. unfold on_client. case_match; [|done]. by destruct (m _). Qed.

Lemma attach_session config p : pc_session (attach_client config p).2 = pc_session p.
Proof. unfold attach_client. by destruct (namespace_connect _ _ _) as [[?|?] ?]. Qed.

Lemma attach_fresh config p c p' :
  attach_client config p = (inr c, p') → pc_clients p !! c = None ∧ pc_session p' = pc_session p.
Proof.
  unfold attach_client. destruct (namespace_connect _ _ _) as [[?|s] w]; [done|]. intros [= <- <-]. split; [|done].
  apply not_elem_of_dom, is_fresh.
Qed.

Lemma attach_failed config p e p' :
  attach_client config p = (inl e, p') → pc_clients p' = pc_clients p.
Proof. unfold attach_client. destruct (namespace_connect _ _ _) as [[?|s] w]; [|done]. by intros [= _ <-]. Qed.

Lemma connect_candidates_process l failures e0 p r p' :
  connect_candidates attach_client l failures e0 p = (r, p') →
  pc_session p' = pc_session p ∧
  match r with
  | inr (index, c) => (c ∉ dom (pc_clients p)) ∧ dom (pc_clients p') = {[c]} ∪ dom (pc_clients p) ∧ index ∈ l.*1
  | inl _ => pc_clients p' = pc_clients p
  end.
Proof.
  revert failures e0 p. induction l as [|[i candidate] l IH]; intros failures e0 p E; [by injection E as <- <-|].
  cbn [connect_candidates] in E. unfold mbind, S_bind, sattempt in E.
  pose proof (attach_session candidate p) as Hs. destruct (attach_client candidate p) as [[e|c] p1] eqn:Ea; simpl in Hs.
  - pose proof (attach_failed _ _ _ _ Ea) as Hc. destruct (is_transient_connection_failure e); [|by injection E as <- <-].
    apply IH in E as [E1 E2]. rewrite Hc in E2. split; [congruence|]. destruct r as [|[j d]]; [done|].
    destruct E2 as (? & ? & ?). split_and!; [done|done|by right].
  - injection E as <- <-. split; [done|]. apply attach_fresh in Ea as Hf. destruct Hf as [Hf _].
    unfold attach_client in Ea. destruct (namespace_connect _ _ _) as [[?|s] w]; [done|]. injection Ea as <- <-.
    split_and!; [by apply not_elem_of_dom|simpl; by rewrite dom_insert_L|by left].
Qed.

Lemma rotation_index start l i : i ∈ (rotation start l).*1 → (i < length l)%nat.
Proof.
  intros ([j c] & -> & Hin)%list_elem_of_fmap. unfold rotation in Hin. apply list_elem_of_omap in Hin as (k & _ & Hk).
  simpl in Hk. destruct (l !! _) as [c'|] eqn:E; [|done]. injection Hk as <- _. simpl. by eapply lookup_lt_Some.
Qed.

(** One thread, where it is. *)
Definition alone (t : nat) (phase : Phase) (s : ClientSession) (up made : gset Z) : Sessions :=
  Sessions_mk s up made {[t := phase]}.

Ltac one_step c :=
  eapply rtc_l; [eapply c; [apply lookup_singleton_eq|..] | unfold leave, move, bring_up, take_down, alone, id; simpl; rewrite ?insert_singleton_eq].

(** The run from the lock on, for a session [s] that is open. *)
Lemma replace_run t s up made start active client :
  cs_closed s = false → client ∉ made → (active < length (candidates (cs_connections s)))%nat →
  rtc session_step (alone t (Replacing start) (set_lock (Some t) s) up made)
    (alone t (Returned (inr client)) (set_lock None (bump (set_active active (set_current client s))))
       ({[client]} ∪ up) ({[client]} ∪ made)).
Proof.
  intros Hc Hm Ha. one_step step_connect; [done|]. one_step step_connected; [done|done|].
  one_step step_still_open; [done|]. one_step step_install. one_step step_adopt. one_step step_bump. done.
Qed.

Lemma replace_failed_run t s up made start e :
  cs_closed s = false →
  rtc session_step (alone t (Replacing start) (set_lock (Some t) s) up made)
    (alone t (Returned (inl e)) (set_lock None s) up made).
Proof. intros Hc. one_step step_connect; [done|]. one_step step_connect_failed. done. Qed.

Lemma set_lock_None s : cs_lock s = None → set_lock None s = s.
Proof. destruct s. simpl. by intros ->. Qed.

(** What one thread does in a reconnection is one of the runs of the threads' step
    relation: the result, the session and the clients that were made are those of a
    run in which no other thread moves. *)
Theorem reconnect_follows_steps t failed up p r p' :
  cs_lock (pc_session p) = None → process_reconnect_after failed p = (r, p') →
  ∃ up', rtc session_step (alone t (Entering (Some failed)) (pc_session p) up (dom (pc_clients p)))
           (alone t (Returned r) (pc_session p') up' (dom (pc_clients p'))).
Proof.
  intros Hl E. set (s := pc_session p) in *. set (made := dom (pc_clients p)).
  assert (∀ y, rtc session_step (alone t (Locked (Some failed)) (set_lock (Some t) s) up made) y →
    rtc session_step (alone t (Entering (Some failed)) s up made) y) as Hlock.
  { intros y Hy. one_step step_lock; [done|]. exact Hy. }
  unfold process_reconnect_after, process_snapshot, mbind, S_bind in E. unfold snapshot in E. fold s in E.
  destruct (cs_closed s) eqn:Hc; simpl in E.
  { injection E as <- <-. exists up. apply Hlock. one_step step_snapshot_closed; [done|].
    change (set_lock None (set_lock (Some t) s)) with (set_lock None s). by rewrite (set_lock_None s Hl). }
  destruct (cs_current s =? failed) eqn:Ef; simpl in E.
  2:{ apply Z.eqb_neq in Ef. injection E as <- <-. exists up. apply Hlock. one_step step_already_replaced; [done|done|].
      change (set_lock None (set_lock (Some t) s)) with (set_lock None s). by rewrite (set_lock_None s Hl). }
  apply Z.eqb_eq in Ef. subst failed. change (replace_from (start_candidate (Some (cs_current s)) s) p = (r, p')) in E.
  set (start := start_candidate (Some (cs_current s)) s) in E.
  assert (∀ y, rtc session_step (alone t (Replacing start) (set_lock (Some t) s) up made) y →
    rtc session_step (alone t (Locked (Some (cs_current s))) (set_lock (Some t) s) up made) y) as Hrep.
  { intros y Hy. one_step step_replace; [done|by right|]. exact Hy. }
  unfold replace_from in E. fold s in E. rewrite Hc in E.
  destruct (connect_from attach_client (cs_connections s) start p) as [rc p1] eqn:Ec.
  unfold connect_from in Ec. apply connect_candidates_process in Ec as [Hs1 Hr]. fold s in Hs1.
  destruct rc as [e|[active c]].
  - injection E as <- <-. exists up. apply Hlock, Hrep. rewrite Hs1, Hr.
    pose proof (replace_failed_run t s up made start e Hc) as Hx. by rewrite (set_lock_None s Hl) in Hx.
  - destruct Hr as (Hf & Hd & Hi%rotation_index). rewrite Hs1, Hc in E. injection E as <- <-.
    exists ({[c]} ∪ up). apply Hlock, Hrep. simpl. rewrite Hd.
    rewrite <- (set_lock_None (bump _)) by done. by apply replace_run.
Qed.

End process.

(** ** A session on the concrete network *)

Definition net_session : SResult (Process Net) * Net := connect_set (ConnectionSet_single root_config) 0 no_net.

Definition p0 : Process Net :=
  match net_session.1 with inr p => p | inl _ => Process_mk (from_connected (ConnectionSet_mk []) 0 0) 0 ∅ no_net end.

Definition reconnected : SResult Z * Process Net := process_reconnect_after 0 p0.

Lemma reconnected_eq : reconnected = (inr 1, reconnected.2).
Proof. vm_compute. reflexivity. Qed.

Lemma reconnect_follows_steps_witness :
  cs_current (pc_session p0) = 0 ∧
  ∃ up', rtc session_step (alone 7 (Entering (Some 0)) (pc_session p0) {[0]} (dom (pc_clients p0)))
           (alone 7 (Returned (inr 1)) (pc_session reconnected.2) up' (dom (pc_clients reconnected.2))).
Proof.
  split; [vm_compute; reflexivity|].
  apply (reconnect_follows_steps 7 0 {[0]} p0 (inr 1) reconnected.2); [vm_compute; reflexivity|exact reconnected_eq].
Defined.

(** The terminal's file, read to its end through a resumable file below the mount. *)
Lemma resumable_over_namespace :
  match resumable_open terminal OREAD 0 p0 with
  | (inr f, p) => fst <$> resumable_read 1 0 100 f p = Some (inr [])
  | _ => False
  end.
Proof. vm_compute. reflexivity. Qed.
