(* ===== verification/FrontModel.v ===== *)
(** The served tree of a front: [crates/front/src/model.rs].  A front keeps its
    nodes in a table by id; directories name their children, nodes name their
    parent, and an index finds nodes by qid path.  A subtree that is removed while
    fids refer into it is kept, detached, until the last of them is released.

    The fields of [State] are in two records: [Tree] here, and the request queues
    in [FrontState].  A [BTreeMap] is a finite map; where the order of its keys
    shows, [ordered] lists it.  Recursion along the tree takes fuel: the number of
    nodes, which [FrontInv] proves to be enough.  Ids and offsets do not wrap. *)
From stdpp Require Import sorting.
From S2P Require Import Prelude Errors Qid Stat Utf8 Referral NamespaceCache Text ExportDescriptor.

Definition ROOT_ID : Z := 0.
Definition DEFAULT_LOG_CAPACITY : Z := 1048576.
Definition DEFAULT_IOUNIT : Z := 4096.

(** ** Paths *)

Fixpoint trim_start_slashes (path : bytes) : bytes :=
  match path with
  | b :: rest => if decide (b = slash) then trim_start_slashes rest else path
  | [] => []
  end.

Definition trim_end_slashes (path : bytes) : bytes := rev (trim_start_slashes (rev path)).

(** [path.trim_matches('/')] *)
Definition trim_slashes (path : bytes) : bytes := trim_end_slashes (trim_start_slashes path).

Definition split_path (path : bytes) : Result (list bytes) :=
  let trimmed := trim_slashes path in
  if bool_decide (trimmed = []) then Err (from_static EPERM) else Ok (split_on slash trimmed).

Definition canonical_root_path (path : bytes) : Result bytes :=
  let trimmed := trim_slashes path in
  if bool_decide (trimmed = []) then Ok (bstr "/")
  else _ ← split_path trimmed; mret trimmed.

Definition canonical_path_segments (path : bytes) : Result (list bytes) :=
  if bool_decide (path = bstr "/") then Ok [] else split_path path.

Definition normalise_request_prefix (prefix : bytes) : Result bytes :=
  let trimmed := trim_slashes prefix in
  if bool_decide (trimmed = []) then Err (from_static EPERM) else Ok trimmed.

Definition created_child_path (parent_path name : bytes) : bytes :=
  if bool_decide (parent_path = bstr "/") then slash :: name
  else trim_end_slashes parent_path ++ slash :: name.

(** ** Nodes *)

Inductive ChildDirectoryRemoval := Forbidden | RelayToOwner.

Record ChildDirectoryResolver := ChildDirectoryResolver_mk {
  resolution_prefix : bytes;
  cr_read_prefix : bytes;
  cr_removal : ChildDirectoryRemoval;
}.

Record DirectoryBody := DirectoryBody_mk {
  children : gmap bytes Z;
  read_relay : option bytes;
  child_resolver : option ChildDirectoryResolver;
}.

Definition DirectoryBody_default : DirectoryBody := DirectoryBody_mk ∅ None None.

(** The entries in the order of their names. *)
Definition entry_le (a b : bytes * Z) : Prop := bytes_compare a.1 b.1 ≠ Gt.

#[export] Instance entry_le_dec : RelDecision entry_le.
Proof. unfold entry_le. intros a b. apply _. Defined.

Definition ordered (c : gmap bytes Z) : list (bytes * Z) := merge_sort entry_le (map_to_list c).

(** A [BTreeSet] of ids in its order. *)
Definition ordered_ids (x : gset Z) : list Z := merge_sort Z.le (elements x).

(** The values of a [BTreeMap] by id, in the order of the ids. *)
Definition id_le {A} (a b : Z * A) : Prop := a.1 ≤ b.1.

#[export] Instance id_le_dec {A} : RelDecision (@id_le A).
Proof. unfold id_le. intros a b. apply _. Defined.

Definition values {A} (m : gmap Z A) : list A := (merge_sort id_le (map_to_list m)).*2.

Record LogBody := LogBody_mk { log_entries : list bytes; log_start : Z; retained : Z }.

Inductive Body :=
| Dir (d : DirectoryBody)
| File (bs : bytes)
| Log (l : LogBody)
| IntakeNew (intake : Z)
| Rpc (prefix : bytes)
| ReadRelay (prefix : bytes)
| SnapshotReadRelay (prefix : bytes)
| WriteRelay (prefix : bytes).

Record PushedEntryMetadata := PushedEntryMetadata_mk {
  pm_qid_path : Z;
  pm_qid_version : Z;
  pm_generation : Z;
  pm_mtime : Z;
  pm_length : Z;
  pm_visibility_class : bytes;
  pm_freshness_ref : bytes;
  pm_wake_token : bytes;
}.

Record Node := Node_mk {
  n_name : bytes;
  n_parent : Z;
  n_qid_path : Z;
  n_version : Z;
  n_generation : Z;
  pushed_mtime : option Z;
  pushed_length : option Z;
  visibility_class : option bytes;
  freshness_ref : option bytes;
  wake_token : option bytes;
  create_relay : option bytes;
  write_relay : option bytes;
  remove_relay : option bytes;
  wstat_relay : option bytes;
  n_body : Body;
}.

Record PrincipalRoot := PrincipalRoot_mk {
  pr_root : Z;
  pr_root_path : bytes;
  pr_principal_id : bytes;
  pr_anames : gset bytes;
}.

Record Tree := Tree_mk {
  nodes : gmap Z Node;
  qid_index : gmap Z Z;
  fid_references : gmap Z Z;
  detached_roots : gset Z;
  next_id : Z;
  intakes : gmap Z bytes;
  rename_relay_roots : gmap Z bytes;
  remove_relay_prefixes : gset bytes;
  principal_roots_required : bool;
  principal_roots : gmap bytes PrincipalRoot;
  log_capacity : Z;
}.

Definition plain_node (name : bytes) (parent qid_path : Z) (body : Body) : Node :=
  Node_mk name parent qid_path 0 0 None None None None None None None None None body.

Definition pushed_node (name : bytes) (parent : Z) (m : PushedEntryMetadata) (remove : option bytes) (body : Body) :
    Node :=
  Node_mk name parent (pm_qid_path m) (pm_qid_version m) (pm_generation m) (Some (pm_mtime m)) (Some (pm_length m))
    (Some (pm_visibility_class m)) (Some (pm_freshness_ref m)) (Some (pm_wake_token m)) None None remove None body.

Definition Tree_new : Tree :=
  Tree_mk {[ROOT_ID := plain_node (bstr "/") ROOT_ID ROOT_ID (Dir DirectoryBody_default)]} {[ROOT_ID := ROOT_ID]}
    ∅ ∅ 1 ∅ ∅ ∅ false ∅ DEFAULT_LOG_CAPACITY.

(** Assignments to fields. *)
Definition set_nodes (m : gmap Z Node) (t : Tree) : Tree :=
  Tree_mk m (qid_index t) (fid_references t) (detached_roots t) (next_id t) (intakes t) (rename_relay_roots t)
    (remove_relay_prefixes t) (principal_roots_required t) (principal_roots t) (log_capacity t).
Definition set_qid_index (m : gmap Z Z) (t : Tree) : Tree :=
  Tree_mk (nodes t) m (fid_references t) (detached_roots t) (next_id t) (intakes t) (rename_relay_roots t)
    (remove_relay_prefixes t) (principal_roots_required t) (principal_roots t) (log_capacity t).
Definition set_fid_references (m : gmap Z Z) (t : Tree) : Tree :=
  Tree_mk (nodes t) (qid_index t) m (detached_roots t) (next_id t) (intakes t) (rename_relay_roots t)
    (remove_relay_prefixes t) (principal_roots_required t) (principal_roots t) (log_capacity t).
Definition set_detached_roots (d : gset Z) (t : Tree) : Tree :=
  Tree_mk (nodes t) (qid_index t) (fid_references t) d (next_id t) (intakes t) (rename_relay_roots t)
    (remove_relay_prefixes t) (principal_roots_required t) (principal_roots t) (log_capacity t).
Definition set_next_id (n : Z) (t : Tree) : Tree :=
  Tree_mk (nodes t) (qid_index t) (fid_references t) (detached_roots t) n (intakes t) (rename_relay_roots t)
    (remove_relay_prefixes t) (principal_roots_required t) (principal_roots t) (log_capacity t).
Definition set_intakes (m : gmap Z bytes) (t : Tree) : Tree :=
  Tree_mk (nodes t) (qid_index t) (fid_references t) (detached_roots t) (next_id t) m (rename_relay_roots t)
    (remove_relay_prefixes t) (principal_roots_required t) (principal_roots t) (log_capacity t).
Definition set_rename_relay_roots (m : gmap Z bytes) (t : Tree) : Tree :=
  Tree_mk (nodes t) (qid_index t) (fid_references t) (detached_roots t) (next_id t) (intakes t) m
    (remove_relay_prefixes t) (principal_roots_required t) (principal_roots t) (log_capacity t).
Definition set_remove_relay_prefixes (x : gset bytes) (t : Tree) : Tree :=
  Tree_mk (nodes t) (qid_index t) (fid_references t) (detached_roots t) (next_id t) (intakes t) (rename_relay_roots t)
    x (principal_roots_required t) (principal_roots t) (log_capacity t).
Definition set_principals (required : bool) (m : gmap bytes PrincipalRoot) (t : Tree) : Tree :=
  Tree_mk (nodes t) (qid_index t) (fid_references t) (detached_roots t) (next_id t) (intakes t) (rename_relay_roots t)
    (remove_relay_prefixes t) required m (log_capacity t).
Definition set_capacity (n : Z) (t : Tree) : Tree :=
  Tree_mk (nodes t) (qid_index t) (fid_references t) (detached_roots t) (next_id t) (intakes t) (rename_relay_roots t)
    (remove_relay_prefixes t) (principal_roots_required t) (principal_roots t) n.

(** [if let Some(node) = self.nodes.get_mut(&id)] *)
Definition on_node (id : Z) (f : Node → Node) (t : Tree) : Tree := set_nodes (alter f id (nodes t)) t.

Definition set_parent_name (parent : Z) (name : bytes) (n : Node) : Node :=
  Node_mk name parent (n_qid_path n) (n_version n) (n_generation n) (pushed_mtime n) (pushed_length n)
    (visibility_class n) (freshness_ref n) (wake_token n) (create_relay n) (write_relay n) (remove_relay n)
    (wstat_relay n) (n_body n).
Definition set_qid_path (q : Z) (n : Node) : Node :=
  Node_mk (n_name n) (n_parent n) q (n_version n) (n_generation n) (pushed_mtime n) (pushed_length n)
    (visibility_class n) (freshness_ref n) (wake_token n) (create_relay n) (write_relay n) (remove_relay n)
    (wstat_relay n) (n_body n).
Definition set_version (v g : Z) (n : Node) : Node :=
  Node_mk (n_name n) (n_parent n) (n_qid_path n) v g (pushed_mtime n) (pushed_length n)
    (visibility_class n) (freshness_ref n) (wake_token n) (create_relay n) (write_relay n) (remove_relay n)
    (wstat_relay n) (n_body n).
Definition set_body (b : Body) (n : Node) : Node :=
  Node_mk (n_name n) (n_parent n) (n_qid_path n) (n_version n) (n_generation n) (pushed_mtime n) (pushed_length n)
    (visibility_class n) (freshness_ref n) (wake_token n) (create_relay n) (write_relay n) (remove_relay n)
    (wstat_relay n) b.
Definition set_relays (create write remove wstat : option bytes) (n : Node) : Node :=
  Node_mk (n_name n) (n_parent n) (n_qid_path n) (n_version n) (n_generation n) (pushed_mtime n) (pushed_length n)
    (visibility_class n) (freshness_ref n) (wake_token n) create write remove wstat (n_body n).
Definition set_metadata (m : PushedEntryMetadata) (n : Node) : Node :=
  Node_mk (n_name n) (n_parent n) (n_qid_path n) (pm_qid_version m) (pm_generation m) (Some (pm_mtime m))
    (Some (pm_length m)) (Some (pm_visibility_class m)) (Some (pm_freshness_ref m)) (Some (pm_wake_token m))
    (create_relay n) (write_relay n) (remove_relay n) (wstat_relay n) (n_body n).

Definition children_of (n : Node) : option (gmap bytes Z) :=
  match n_body n with Dir d => Some (children d) | _ => None end.

Definition on_children (f : gmap bytes Z → gmap bytes Z) (n : Node) : Node :=
  match n_body n with
  | Dir d => set_body (Dir (DirectoryBody_mk (f (children d)) (read_relay d) (child_resolver d))) n
  | _ => n
  end.

(** ** Logs *)

Definition LogBody_new (bs : bytes) : LogBody := LogBody_mk [bs] 0 (vlen bs).
Definition LogBody_empty_at (start : Z) : LogBody := LogBody_mk [] start 0.
Definition LogBody_empty : LogBody := LogBody_empty_at 0.

Definition log_end (l : LogBody) : Z := log_start l + retained l.

(** The loop that drops the oldest entries. *)
Fixpoint log_shrink (entries : list bytes) (start kept capacity : Z) : LogBody :=
  match entries with
  | oldest :: ((_ :: _) as rest) =>
      if capacity <? kept then log_shrink rest (start + vlen oldest) (kept - vlen oldest) capacity
      else LogBody_mk entries start kept
  | _ => LogBody_mk entries start kept
  end.

Definition log_append (bs : bytes) (capacity : Z) (l : LogBody) : LogBody :=
  log_shrink (log_entries l ++ [bs]) (log_start l) (retained l + vlen bs) capacity.

Fixpoint log_read_loop (entries : list bytes) (skip count : Z) (out : bytes) : bytes :=
  match entries with
  | [] => out
  | entry :: entries =>
      if vlen entry <=? skip then log_read_loop entries (skip - vlen entry) count out
      else
        let take := Z.min (vlen entry - skip) (count - vlen out) in
        let out := out ++ ztake take (zdrop skip entry) in
        if vlen out =? count then out else log_read_loop entries 0 count out
  end.

Definition log_read (offset count : Z) (l : LogBody) : bytes :=
  log_read_loop (log_entries l) (saturating_sub offset (log_start l)) count [].

(** ** Looking at the tree *)

(** A [&self] method called from a [&mut self] one. *)
Definition query {A} (f : Tree → Result A) : M Tree A := λ t, (f t, t).

(** The fuel of a walk along the tree. *)
Definition depth_fuel (t : Tree) : nat := S (size (nodes t)).

Definition node (t : Tree) (id : Z) : Result Node := ok_or (nodes t !! id) (from_static ENOENT).

Definition is_dir_body (b : Body) : bool := match b with Dir _ => true | _ => false end.
Definition is_file_body (b : Body) : bool := match b with File _ | WriteRelay _ => true | _ => false end.

Definition qid_for (t : Tree) (id : Z) : Result Qid :=
  n ← node t id;
  mret (Qid_new (if is_dir_body (n_body n) then QTDIR else QTFILE) (n_version n) (n_qid_path n)).

Fixpoint next_qid_loop (fuel : nat) (index : gmap Z Z) (candidate : Z) : Result Z :=
  match fuel with
  | O => Err (from_static "qid path space exhausted")
  | S fuel =>
      if bool_decide (is_Some (index !! candidate)) then
        next ← ok_or (checked_add u64_max candidate 1) (from_static "qid path space exhausted");
        next_qid_loop fuel index next
      else Ok candidate
  end.

Definition next_available_qid_path (t : Tree) (start : Z) : Result Z :=
  next_qid_loop (S (size (qid_index t))) (qid_index t) start.

Definition node_id_for_qid_path (t : Tree) (qid_path : Z) : Result Z :=
  ok_or (qid_index t !! qid_path) (from_static ENOENT).

Definition stat_mode_length (n : Node) : Z * Z :=
  match n_body n with
  | Dir _ => (Z.lor DMDIR 0x16d, 0)
  | File bs => (match write_relay n with Some _ => 0x1b6 | None => 0x124 end, vlen bs)
  | Log l => (0x124, log_end l)
  | IntakeNew _ => (0x92, 0)
  | Rpc _ => (0x180, 0)
  | ReadRelay _ | SnapshotReadRelay _ => (0x124, 0)
  | WriteRelay _ => (0x92, 0)
  end.

Definition stat_for (t : Tree) (id : Z) : Result Stat :=
  n ← node t id;
  qid ← qid_for t id;
  let '(mode, body_length) := stat_mode_length n in
  mret (Stat_mk 0 0 qid mode 0 (default (n_version n) (pushed_mtime n)) (default body_length (pushed_length n))
          (if id =? ROOT_ID then bstr "." else n_name n) (bstr "front") (bstr "front") (bstr "front")).

(** The loop of [lookup_optional_path]; [None] is [return Ok(None)]. *)
Fixpoint lookup_segments (t : Tree) (current : Z) (segments : list bytes) : Result (option Z) :=
  match segments with
  | [] => Ok (Some current)
  | segment :: segments =>
      n ← node t current;
      match children_of n with
      | Some c =>
          match c !! segment with
          | Some next => lookup_segments t next segments
          | None => Ok None
          end
      | None => Err (from_static ENOTDIR)
      end
  end.

Definition lookup_optional_path (t : Tree) (path : bytes) : Result (option Z) :=
  let trimmed := trim_slashes path in
  if bool_decide (trimmed = []) then Ok (Some ROOT_ID)
  else segments ← split_path trimmed; lookup_segments t ROOT_ID segments.

(** The loop of [lookup_path]. *)
Fixpoint resolve_segments (t : Tree) (current : Z) (segments : list bytes) : Result Z :=
  match segments with
  | [] => Ok current
  | segment :: segments =>
      n ← node t current;
      match children_of n with
      | Some c => next ← ok_or (c !! segment) (from_static ENOENT); resolve_segments t next segments
      | None => Err (from_static ENOTDIR)
      end
  end.

Definition lookup_path (t : Tree) (path : bytes) : Result Z :=
  let trimmed := trim_slashes path in
  if bool_decide (trimmed = []) then Ok ROOT_ID
  else segments ← split_path trimmed; resolve_segments t ROOT_ID segments.

(** The loop of [path_relative_to]: the names from [id] up to [root]. *)
Fixpoint path_segments_up (fuel : nat) (t : Tree) (current root : Z) : Result (list bytes) :=
  match fuel with
  | O => Err (from_static EPERM)
  | S fuel =>
      if current =? root then Ok []
      else if current =? ROOT_ID then Err (from_static EPERM)
      else
        n ← node t current;
        above ← path_segments_up fuel t (n_parent n) root;
        mret (from_utf8_lossy (n_name n) :: above)
  end.

Definition path_relative_to (t : Tree) (id root : Z) : Result bytes :=
  segments ← path_segments_up (depth_fuel t) t id root;
  mret (match segments with [] => bstr "/" | _ => slash :: join slash (rev segments) end).

Fixpoint detached_up (fuel : nat) (t : Tree) (current : Z) : bool :=
  match fuel with
  | O => false
  | S fuel =>
      if bool_decide (current ∈ detached_roots t) then true
      else
        match nodes t !! current with
        | None => false
        | Some n => if n_parent n =? current then false else detached_up fuel t (n_parent n)
        end
  end.

Definition node_is_detached (t : Tree) (id : Z) : bool := detached_up (depth_fuel t) t id.

Fixpoint rename_relay_up (fuel : nat) (t : Tree) (current new_parent : Z) : option bytes :=
  match fuel with
  | O => None
  | S fuel =>
      match rename_relay_roots t !! current with
      | Some prefix =>
          if is_ok (path_relative_to t new_parent current) then Some prefix
          else if current =? ROOT_ID then None
          else n ← nodes t !! current; rename_relay_up fuel t (n_parent n) new_parent
      | None =>
          if current =? ROOT_ID then None
          else n ← nodes t !! current; rename_relay_up fuel t (n_parent n) new_parent
      end
  end.

Definition rename_relay_for (t : Tree) (old_parent new_parent : Z) : option bytes :=
  rename_relay_up (depth_fuel t) t old_parent new_parent.

Fixpoint has_reference (fuel : nat) (t : Tree) (id : Z) : bool :=
  match fuel with
  | O => false
  | S fuel =>
      if bool_decide (is_Some (fid_references t !! id)) then true
      else
        match nodes t !! id with
        | Some n =>
            match children_of n with
            | Some c => existsb (has_reference fuel t) ((ordered c).*2)
            | None => false
            end
        | None => false
        end
  end.

Definition subtree_has_fid_reference (t : Tree) (id : Z) : bool := has_reference (depth_fuel t) t id.

Definition attach_root_for (t : Tree) (uname aname : bytes) : Result Z :=
  if principal_roots_required t then
    root ← ok_or (principal_roots t !! uname) (from_static "principal root unavailable");
    if bool_decide (bstr "*" ∈ pr_anames root) || bool_decide (aname ∈ pr_anames root) then Ok (pr_root root)
    else Err (from_static "principal aname unavailable")
  else Ok ROOT_ID.

Definition open_allowed (n : Node) (mode : Z) : bool :=
  if negb (mode_is_valid mode) || has_bits mode ORCLOSE then false
  else if bool_decide (is_Some (write_relay n)) && (Z.land mode ACCESS_MASK =? OWRITE) then true
  else if has_bits mode OTRUNC then false
  else
    match n_body n with
    | Dir _ | File _ | Log _ | ReadRelay _ | SnapshotReadRelay _ => Z.land mode ACCESS_MASK =? OREAD
    | IntakeNew _ | WriteRelay _ => Z.land mode ACCESS_MASK =? OWRITE
    | Rpc _ => Z.land mode ACCESS_MASK =? ORDWR
    end.

(** ** Retiring subtrees *)

(** [self.nodes.remove] and the removals of what refers to the node. *)
Definition forget_node (id : Z) (n : Node) (t : Tree) : Tree :=
  Tree_mk (delete id (nodes t)) (delete (n_qid_path n) (qid_index t)) (delete id (fid_references t))
    (detached_roots t ∖ {[id]}) (next_id t) (delete id (intakes t)) (delete id (rename_relay_roots t))
    (remove_relay_prefixes t) (principal_roots_required t) (principal_roots t) (log_capacity t).

Fixpoint remove_recursive (fuel : nat) (id : Z) (t : Tree) : Tree :=
  match fuel with
  | O => t
  | S fuel =>
      match nodes t !! id with
      | None => t
      | Some n =>
          match children_of n with
          | Some c => foldl (λ t child, remove_recursive fuel child t) (forget_node id n t) ((ordered c).*2)
          | None => forget_node id n t
          end
      end
  end.

Definition remove_node_recursive (id : Z) (t : Tree) : Tree := remove_recursive (depth_fuel t) id t.

Definition retire_detached_subtree (id : Z) (t : Tree) : Tree :=
  if subtree_has_fid_reference t id then set_detached_roots ({[id]} ∪ detached_roots t) t
  else remove_node_recursive id t.

Definition collect_unreferenced_detached_subtrees (t : Tree) : Tree :=
  let removable := filter (λ id, subtree_has_fid_reference t id = false) (ordered_ids (detached_roots t)) in
  foldl (λ t id, remove_node_recursive id (set_detached_roots (detached_roots t ∖ {[id]}) t)) t removable.

Definition link_child (parent : Z) (name : bytes) (id : Z) : Tree → Tree :=
  on_node parent (on_children (<[name := id]>)).

Definition unlink_child (parent : Z) (name : bytes) : Tree → Tree :=
  on_node parent (on_children (delete name)).

(** ** Placing nodes *)

(** The insertion every placing operation ends in, under the id it took. *)
Definition insert_node (id : Z) (n : Node) (t : Tree) : Tree :=
  link_child (n_parent n) (n_name n) id
    (set_qid_index (<[n_qid_path n := id]> (qid_index t)) (set_nodes (<[id := n]> (nodes t)) t)).

(** Taking [self.next_id] and inserting a node under it. *)
Definition add_node (n : Node) : M Tree Z :=
  id ← gets next_id;
  _ ← modify (set_next_id (id + 1));
  _ ← modify (insert_node id n);
  mret id.

Definition child_of (parent : Z) (name : bytes) : M Tree (option Z) :=
  n ← query (λ t, node t parent);
  match children_of n with
  | Some c => mret (c !! name)
  | None => throw (from_static ENOTDIR)
  end.

Definition replace_qid_path (id qid_path : Z) : M Tree unit :=
  index ← gets qid_index;
  if negb (default id (index !! qid_path) =? id) then throw (from_static "qid path already in use")
  else
    n ← query (λ t, node t id);
    if n_qid_path n =? qid_path then mret ()
    else
      _ ← modify (λ t, set_qid_index (<[qid_path := id]> (delete (n_qid_path n) (qid_index t))) t);
      modify (on_node id (set_qid_path qid_path)).

Definition apply_pushed_metadata (id : Z) (metadata : PushedEntryMetadata) : M Tree unit :=
  _ ← replace_qid_path id (pm_qid_path metadata);
  modify (on_node id (set_metadata metadata)).

Definition ensure_dir (parent : Z) (name : bytes) : M Tree Z :=
  existing ← child_of parent name;
  match existing with
  | Some existing =>
      n ← query (λ t, node t existing);
      if is_dir_body (n_body n) then mret existing else throw (from_static ENOTDIR)
  | None =>
      id ← gets next_id;
      qid_path ← query (λ t, next_available_qid_path t id);
      add_node (plain_node name parent qid_path (Dir DirectoryBody_default))
  end.

Fixpoint ensure_dirs (parent : Z) (dirs : list bytes) : M Tree Z :=
  match dirs with
  | [] => mret parent
  | dir :: dirs => parent ← ensure_dir parent dir; ensure_dirs parent dirs
  end.

Definition ensure_path_dir (path : bytes) : M Tree Z :=
  segments ← lift (split_path path);
  ensure_dirs ROOT_ID segments.

(** [segments.split_last()] with the error of its callers. *)
Definition split_last (segments : list bytes) : Result (bytes * list bytes) :=
  leaf ← ok_or (last segments) (from_static EPERM);
  mret (leaf, removelast segments).

(** The start of every placing operation: the directory of the path, made as
    needed, the last name and the node it names there. *)
Definition open_place (from : Z) (path : bytes) : M Tree (Z * bytes * option Z) :=
  segments ← lift (split_path path);
  x ← lift (split_last segments);
  let '(leaf, dirs) := x in
  parent ← ensure_dirs from dirs;
  existing ← child_of parent leaf;
  mret (parent, leaf, existing).

Definition bump_version (n : Node) : Z := wrapping_add u32_max (n_version n) 1.

Definition place (path : bytes) (body : Body) : M Tree Z :=
  capacity ← gets log_capacity;
  x ← open_place ROOT_ID path;
  let '(parent, leaf, existing) := x in
  match existing with
  | Some id =>
      n ← query (λ t, node t id);
      match n_body n, body with
      | File _, File bs =>
          _ ← modify (on_node id (λ n, set_body (File bs) (set_version (bump_version n) (n_generation n) n)));
          mret id
      | Log l, Log incoming =>
          let l' := foldl (λ l entry, log_append entry capacity l) l (log_entries incoming) in
          _ ← modify (on_node id (λ n, set_body (Log l') (set_version (bump_version n) (n_generation n) n)));
          mret id
      | _, _ => throw (from_static EPERM)
      end
  | None =>
      id ← gets next_id;
      qid_path ← query (λ t, next_available_qid_path t id);
      add_node (plain_node leaf parent qid_path body)
  end.

(** [id] leaves its old parent, if it is linked there, and becomes [parent/name]. *)
Definition move_node (id parent : Z) (name : bytes) (n : Node) (t : Tree) : Tree :=
  let t := on_node (n_parent n)
             (on_children (λ c, if bool_decide (c !! n_name n = Some id) then delete (n_name n) c else c)) t in
  link_child parent name id (on_node id (set_parent_name parent name) t).

Definition reattach_detached_pushed_node (path : bytes) (parent : Z) (name : bytes) (qid_path : Z)
    (body_matches : Body → bool) : M Tree (option Z) :=
  index ← gets qid_index;
  match index !! qid_path with
  | None => mret None
  | Some id =>
      detached ← gets (λ t, node_is_detached t id);
      if negb detached then throw (from_static "qid path already in use")
      else
        full ← query (λ t, path_relative_to t id ROOT_ID);
        if negb (bool_decide (full = slash :: trim_slashes path)) then throw (from_static "qid path already in use")
        else
          n ← query (λ t, node t id);
          if negb (body_matches (n_body n)) then throw (from_static "qid path already in use")
          else
            _ ← modify (move_node id parent name n);
            _ ← modify (λ t, set_detached_roots (detached_roots t ∖ {[id]}) t);
            _ ← modify collect_unreferenced_detached_subtrees;
            mret (Some id)
  end.

Definition place_pushed_file (path bs : bytes) (metadata : PushedEntryMetadata) : M Tree Z :=
  x ← open_place ROOT_ID path;
  let '(parent, leaf, existing) := x in
  match existing with
  | Some id =>
      n ← query (λ t, node t id);
      if is_file_body (n_body n) then
        _ ← apply_pushed_metadata id metadata;
        _ ← modify (on_node id (set_body (File bs)));
        mret id
      else throw (from_static EPERM)
  | None =>
      reattached ← reattach_detached_pushed_node path parent leaf (pm_qid_path metadata) is_file_body;
      match reattached with
      | Some id =>
          _ ← apply_pushed_metadata id metadata;
          _ ← modify (on_node id (set_body (File bs)));
          mret id
      | None => add_node (pushed_node leaf parent metadata None (File bs))
      end
  end.

Definition place_pushed_directory (path : bytes) (metadata : PushedEntryMetadata) : M Tree Z :=
  if negb (pm_length metadata =? 0) then throw (from_static "pushed directory length must be zero")
  else
    x ← open_place ROOT_ID path;
    let '(parent, leaf, existing) := x in
    match existing with
    | Some id =>
        n ← query (λ t, node t id);
        if is_dir_body (n_body n) then _ ← apply_pushed_metadata id metadata; mret id
        else throw (from_static EPERM)
    | None =>
        reattached ← reattach_detached_pushed_node path parent leaf (pm_qid_path metadata) is_dir_body;
        match reattached with
        | Some id => _ ← apply_pushed_metadata id metadata; mret id
        | None => add_node (pushed_node leaf parent metadata None (Dir DirectoryBody_default))
        end
    end.

Definition add_remove_relay (relay : option bytes) : M Tree unit :=
  match relay with
  | Some r => modify (λ t, set_remove_relay_prefixes ({[r]} ∪ remove_relay_prefixes t) t)
  | None => mret ()
  end.

Definition child_remove_relay (parent : Z) (name : bytes) (removal : ChildDirectoryRemoval) : M Tree (option bytes) :=
  match removal with
  | Forbidden => mret None
  | RelayToOwner =>
      name ← lift (ok_or (from_utf8 name) (from_static "child directory name must be UTF-8"));
      parent_path ← query (λ t, path_relative_to t parent ROOT_ID);
      mret (Some (trim_slashes (created_child_path parent_path name)))
  end.

Definition insert_pushed_child_directory (parent : Z) (name : bytes) (metadata : PushedEntryMetadata)
    (read_prefix : bytes) (removal : ChildDirectoryRemoval) : M Tree Z :=
  if negb (pm_length metadata =? 0) then throw (from_static "pushed directory length must be zero")
  else
    relay ← child_remove_relay parent name removal;
    existing ← child_of parent name;
    match existing with
    | Some existing =>
        n ← query (λ t, node t existing);
        if is_dir_body (n_body n) then
          match relay with
          | Some r =>
              _ ← add_remove_relay (Some r);
              _ ← modify (on_node existing (λ n, set_relays (create_relay n) (write_relay n) (Some r) (wstat_relay n) n));
              mret existing
          | None => mret existing
          end
        else throw (from_static ENOTDIR)
    | None =>
        index ← gets qid_index;
        if bool_decide (is_Some (index !! pm_qid_path metadata)) then throw (from_static "qid path already in use")
        else
          id ← add_node (pushed_node name parent metadata relay (Dir (DirectoryBody_mk ∅ (Some read_prefix) None)));
          _ ← add_remove_relay relay;
          mret id
    end.

Definition created_body (directory : bool) (create_prefix : bytes) : Body :=
  if directory then Dir DirectoryBody_default else WriteRelay create_prefix.

Definition created_node (name : bytes) (parent : Z) (qid : Qid) (generation : Z) (create_prefix : bytes) : Node :=
  let directory := has_bits (qtype qid) QTDIR in
  Node_mk name parent (Qid.qid_path qid) (Qid.qid_version qid) generation None None None None None None
    (if directory then None else Some create_prefix) None None (created_body directory create_prefix).

Definition insert_created_relay_node (parent_id : Z) (name : bytes) (qid : Qid) (generation : Z)
    (create_prefix : bytes) : M Tree Z :=
  x ← open_place parent_id name;
  let '(parent, leaf, existing) := x in
  let directory := has_bits (qtype qid) QTDIR in
  match existing with
  | Some id =>
      n ← query (λ t, node t id);
      index ← gets qid_index;
      if negb (n_qid_path n =? Qid.qid_path qid) || negb (bool_decide (index !! Qid.qid_path qid = Some id))
      then throw (from_static "create relay existing node identity mismatch")
      else if negb (Bool.eqb directory (is_dir_body (n_body n)))
      then throw (from_static "create relay existing node kind mismatch")
      else
        _ ← modify (on_node id (λ n,
              let n := set_version (Qid.qid_version qid) generation n in
              if directory then n
              else set_body (WriteRelay create_prefix)
                     (set_relays (create_relay n) (Some create_prefix) (remove_relay n) (wstat_relay n) n)));
        mret id
  | None =>
      index ← gets qid_index;
      if bool_decide (is_Some (index !! Qid.qid_path qid)) then throw (from_static "qid path already in use")
      else add_node (created_node leaf parent qid generation create_prefix)
  end.

(** ** Removing and retaining subtrees *)

Definition remove_subtree_if_exists (path : bytes) : M Tree unit :=
  found ← query (λ t, lookup_optional_path t path);
  match found with
  | None => mret ()
  | Some id =>
      if id =? ROOT_ID then throw (from_static EPERM)
      else
        n ← query (λ t, node t id);
        _ ← modify (unlink_child (n_parent n) (n_name n));
        modify (retire_detached_subtree id)
  end.

(** The loop that marks a node and those above it up to [root]. *)
Fixpoint mark_up (fuel : nat) (t : Tree) (root current : Z) (marked : gset Z) : Result (gset Z) :=
  match fuel with
  | O => Err (from_static EPERM)
  | S fuel =>
      let marked := {[current]} ∪ marked in
      if current =? root then Ok marked
      else
        n ← node t current;
        if n_parent n =? current then Err (from_static EPERM)
        else mark_up fuel t root (n_parent n) marked
  end.

Fixpoint starts_with (segments prefix : list bytes) : bool :=
  match prefix, segments with
  | [], _ => true
  | p :: prefix, s :: segments => bool_decide (s = p) && starts_with segments prefix
  | _ :: _, [] => false
  end.

Fixpoint mark_retained (t : Tree) (root : Z) (root_segments : list bytes) (paths : list bytes) (marked : gset Z) :
    Result (gset Z) :=
  match paths with
  | [] => Ok marked
  | path :: paths =>
      canonical_path ← canonical_root_path path;
      path_segments ← canonical_path_segments canonical_path;
      if negb (starts_with path_segments root_segments) then Err (from_static EPERM)
      else
        current ← lookup_path t canonical_path;
        marked ← mark_up (depth_fuel t) t root current marked;
        mark_retained t root root_segments paths marked
  end.

(** [collect_stale_subtrees]; its inner loop runs over the listed children. *)
Fixpoint collect_stale (fuel : nat) (t : Tree) (parent : Z) (marked : gset Z) : Result (list (Z * bytes * Z)) :=
  match fuel with
  | O => Err (from_static ENOENT)
  | S fuel =>
      n ← node t parent;
      match children_of n with
      | Some c =>
          (fix loop (entries : list (bytes * Z)) : Result (list (Z * bytes * Z)) :=
             match entries with
             | [] => Ok []
             | (name, child) :: entries =>
                 if bool_decide (child ∈ marked) then
                   m ← node t child;
                   below ← (if is_dir_body (n_body m) then collect_stale fuel t child marked else Ok []);
                   rest ← loop entries;
                   mret (below ++ rest)
                 else rest ← loop entries; mret ((parent, name, child) :: rest)
             end) (ordered c)
      | None => Err (from_static ENOTDIR)
      end
  end.

Definition collect_stale_subtrees (t : Tree) (parent : Z) (marked : gset Z) : Result (list (Z * bytes * Z)) :=
  collect_stale (depth_fuel t) t parent marked.

Definition drop_stale (t : Tree) (s : Z * bytes * Z) : Tree :=
  let '(parent, name, id) := s in retire_detached_subtree id (unlink_child parent name t).

Definition prune_principals (t : Tree) : Tree :=
  set_principals (principal_roots_required t)
    (filter (λ x, is_Some (nodes t !! pr_root x.2)) (principal_roots t)) t.

Definition retain_subtree_paths (root_path : bytes) (paths : list bytes) : M Tree bool :=
  canonical_root ← lift (canonical_root_path root_path);
  root_segments ← lift (canonical_path_segments canonical_root);
  root ← query (λ t, lookup_path t canonical_root);
  n ← query (λ t, node t root);
  if negb (is_dir_body (n_body n)) then throw (from_static ENOTDIR)
  else
    marked ← query (λ t, mark_retained t root root_segments paths {[root]});
    stale ← query (λ t, collect_stale_subtrees t root marked);
    _ ← modify (λ t, foldl drop_stale t stale);
    _ ← modify (λ t, match stale with [] => t | _ => prune_principals t end);
    mret (match stale with [] => false | _ => true end).

(** ** References of fids *)

Definition retain_fid_node (id : Z) : M Tree unit :=
  _ ← query (λ t, node t id);
  modify (λ t, set_fid_references (<[id := default 0 (fid_references t !! id) + 1]> (fid_references t)) t).

Definition release_fid_node (id : Z) : M Tree unit :=
  references ← gets (λ t, fid_references t !! id);
  match references with
  | None => throw (from_static "front fid node reference missing")
  | Some r =>
      _ ← modify (λ t, set_fid_references
             (if 1 <? r then <[id := r - 1]> (fid_references t) else delete id (fid_references t)) t);
      modify collect_unreferenced_detached_subtrees
  end.
