(* ===== verification/FrontInv.v ===== *)
(** The shape of a front's tree: the invariant [wf] of [FrontModel.Tree], what the
    walks of the model compute on a well-formed tree, and the lemmas by which the
    operations keep it: a node's contents change, a node is inserted, takes another
    qid path, moves back from a detached subtree, leaves its parent, or a whole
    subtree goes. *)
From stdpp Require Import sorting relations fin_maps fin_map_dom.
From S2P Require Import Prelude Errors Qid Stat Utf8 Referral NamespaceCache Text ExportDescriptor FrontModel.

(** ** Links *)

(** [p] names [x] as its child [name]. *)
Definition link (t : Tree) (p : Z) (name : bytes) (x : Z) : Prop :=
  ∃ n c, nodes t !! p = Some n ∧ children_of n = Some c ∧ c !! name = Some x.

Definition linked (t : Tree) (p x : Z) : Prop := ∃ name, link t p name x.

(** [x] is [a] or a node below it. *)
Definition below (t : Tree) : Z → Z → Prop := rtc (linked t).

(** The walk towards the root from [x] comes to an end. *)
Inductive grounded (t : Tree) : Z → Prop :=
| grounded_root : grounded t ROOT_ID
| grounded_gone x : nodes t !! x = None → grounded t x
| grounded_up x n : nodes t !! x = Some n → grounded t (n_parent n) → grounded t x.

Record wf (t : Tree) : Prop := wf_mk {
  wf_root : ∃ n c, nodes t !! ROOT_ID = Some n ∧ children_of n = Some c ∧ n_parent n = ROOT_ID;
  wf_down p name x : link t p name x →
    ∃ m, nodes t !! x = Some m ∧ n_parent m = p ∧ n_name m = name ∧ x ≠ ROOT_ID ∧ (x ∉ detached_roots t);
  wf_up x m : nodes t !! x = Some m → x ≠ ROOT_ID → x ∉ detached_roots t → link t (n_parent m) (n_name m) x;
  wf_detached x : x ∈ detached_roots t → is_Some (nodes t !! x) ∧ x ≠ ROOT_ID;
  wf_grounded x : is_Some (nodes t !! x) → grounded t x;
  wf_ids x m : nodes t !! x = Some m → 0 ≤ x < next_id t ∧ 0 ≤ n_parent m < next_id t;
  wf_qids q x : qid_index t !! q = Some x ↔ ∃ m, nodes t !! x = Some m ∧ n_qid_path m = q;
  wf_refs x k : fid_references t !! x = Some k → 0 < k ∧ is_Some (nodes t !! x);
  wf_intakes x : is_Some (intakes t !! x) → is_Some (nodes t !! x);
  wf_renames x : is_Some (rename_relay_roots t !! x) → is_Some (nodes t !! x);
}.

(** Every detached subtree is kept for a fid that refers into it. *)
Definition referenced (t : Tree) (x : Z) : Prop := ∃ y, below t x y ∧ is_Some (fid_references t !! y).

Definition collected (t : Tree) : Prop := ∀ d, d ∈ detached_roots t → referenced t d.

(** ** Listings *)

Lemma elem_of_ordered c name x : (name, x) ∈ ordered c ↔ c !! name = Some x.
Proof. unfold ordered. by rewrite merge_sort_Permutation, elem_of_map_to_list. Qed.

Lemma elem_of_ordered_ids (s : gset Z) x : x ∈ ordered_ids s ↔ x ∈ s.
Proof. unfold ordered_ids. by rewrite merge_sort_Permutation, elem_of_elements. Qed.

Lemma elem_of_children c x : x ∈ (ordered c).*2 ↔ ∃ name, c !! name = Some x.
Proof.
  rewrite list_elem_of_fmap. split.
  - intros ([name y] & -> & H%elem_of_ordered). by exists name.
  - intros [name H%elem_of_ordered]. by exists (name, x).
Qed.

(** ** Going up: the chain of a node *)

(** The nodes on the way from [x] to the root, the root itself left out. *)
Inductive chain (t : Tree) : Z → list Z → Prop :=
| chain_root : chain t ROOT_ID []
| chain_gone x : x ≠ ROOT_ID → nodes t !! x = None → chain t x []
| chain_up x n l : x ≠ ROOT_ID → nodes t !! x = Some n → chain t (n_parent n) l → chain t x (x :: l).

Lemma grounded_chain t x : grounded t x → ∃ l, chain t x l.
Proof.
  induction 1 as [|x Hx|x n Hx _ [l Hl]]; [eexists; constructor| |];
    destruct (decide (x = ROOT_ID)) as [->|]; eexists; try (by constructor); by econstructor.
Qed.

Lemma chain_det t x l l' : chain t x l → chain t x l' → l = l'.
Proof.
  intros H; revert l'; induction H; inversion 1; simplify_eq; try done. f_equal. eauto.
Qed.

Lemma chain_suffix t x l y : chain t x l → y ∈ l → ∃ l', chain t y l' ∧ (length l' ≤ length l)%nat ∧ head l' = Some y.
Proof.
  induction 1 as [| |x n l Hne Hx Hl IH]; [by intros ?%elem_of_nil..|].
  intros [->|Hy]%elem_of_cons.
  - eexists; split; [by econstructor|]. done.
  - destruct (IH Hy) as (l' & ? & ? & ?). exists l'. split_and!; [done|simpl; lia|done].
Qed.

Lemma chain_NoDup t x l : chain t x l → NoDup l.
Proof.
  induction 1 as [| |x n l Hne Hx Hl IH]; [constructor..|]. constructor; [|done].
  intros Hin. destruct (chain_suffix _ _ _ _ Hl Hin) as (l' & Hl' & Hlen & _).
  assert (x :: l = l') as <- by (eapply chain_det; [by econstructor|done]). simpl in Hlen. lia.
Qed.

Lemma chain_in_nodes t x l : chain t x l → ∀ y, y ∈ l → is_Some (nodes t !! y).
Proof.
  induction 1 as [| |x n l Hne Hx Hl IH]; intros y Hy; [by apply elem_of_nil in Hy..|].
  apply elem_of_cons in Hy as [->|Hy]; eauto.
Qed.

Lemma NoDup_subset_size (l : list Z) (m : gmap Z Node) :
  NoDup l → (∀ y, y ∈ l → is_Some (m !! y)) → (length l ≤ size m)%nat.
Proof.
  intros Hnd Hin. rewrite <-(size_dom (D := gset Z) m). rewrite <-(size_list_to_set (C := gset Z) l) by done.
  apply subseteq_size. intros y Hy%elem_of_list_to_set. apply elem_of_dom. eauto.
Qed.

Lemma chain_short t x l : chain t x l → (length l ≤ size (nodes t))%nat.
Proof. intros H. apply NoDup_subset_size; [by eapply chain_NoDup|by eapply chain_in_nodes]. Qed.

Lemma wf_chain t x : wf t → ∃ l, chain t x l ∧ (length l < depth_fuel t)%nat.
Proof.
  intros Hwf. destruct (nodes t !! x) as [n|] eqn:Hx.
  - destruct (grounded_chain t x) as [l Hl]; [by apply wf_grounded; eauto|].
    exists l. split; [done|]. pose proof (chain_short _ _ _ Hl). unfold depth_fuel. lia.
  - destruct (decide (x = ROOT_ID)) as [->|]; exists []; (split; [by constructor|]); unfold depth_fuel; simpl; lia.
Qed.

(** ** Attached and detached nodes *)

Section shape.
Context (t : Tree) (Hwf : wf t).

Lemma linked_parent p x : linked t p x → ∃ m, nodes t !! x = Some m ∧ n_parent m = p.
Proof using Hwf. intros [name (m & ? & ? & _)%(wf_down _ Hwf)]. eauto. Qed.

Lemma linked_unique p q x : linked t p x → linked t q x → p = q.
Proof using Hwf. intros (m & ? & ?)%linked_parent (m' & ? & ?)%linked_parent. by simplify_eq. Qed.

Lemma linked_source p x : linked t p x → is_Some (nodes t !! p).
Proof using. intros (name & n & c & H & _). eauto. Qed.

Lemma below_node a x : is_Some (nodes t !! a) → below t a x → is_Some (nodes t !! x).
Proof using Hwf.
  intros Ha Hb. induction Hb as [|y z w Hyz Hzw IH]; [done|].
  apply IH. apply linked_parent in Hyz as (m & ? & _). eauto.
Qed.

Lemma below_comparable a b x : below t a x → below t b x → below t a b ∨ below t b a.
Proof using Hwf.
  intros Ha; revert b. revert x Ha. refine (rtc_ind_r _ a _ _); [by right|]. intros y z Hay Hyz IH b Hb.
  apply rtc_inv_r in Hb as [->|(y' & Hby & Hy'z)].
  - left. by eapply rtc_r.
  - assert (y' = y) as -> by (by eapply linked_unique). eauto.
Qed.

(** The heads of the trees: the root and the detached roots. *)
Definition top (x : Z) : Prop := x = ROOT_ID ∨ x ∈ detached_roots t.

Lemma top_unlinked p x : top x → ¬ linked t p x.
Proof using Hwf. intros Hx [name (m & _ & _ & _ & ? & ?)%(wf_down _ Hwf)]. by destruct Hx. Qed.

Lemma top_below a x : top x → below t a x → a = x.
Proof using Hwf. intros Hx [->|(y & _ & Hy)]%rtc_inv_r; [done|]. by apply top_unlinked in Hy. Qed.

Lemma top_unique a b x : top a → top b → below t a x → below t b x → a = b.
Proof using Hwf.
  intros Ha Hb Hax Hbx. destruct (below_comparable _ _ _ Hax Hbx) as [H|H].
  - by apply (top_below a b).
  - symmetry. by apply (top_below b a).
Qed.

Lemma top_node x : top x → is_Some (nodes t !! x).
Proof using Hwf.
  intros [->|Hx]; [destruct (wf_root _ Hwf) as (n & c & H & _); eauto|]. by apply (wf_detached _ Hwf) in Hx as [? _].
Qed.

Lemma under_top x : is_Some (nodes t !! x) → ∃ a, top a ∧ below t a x.
Proof using Hwf.
  intros Hx. pose proof (wf_grounded _ Hwf x Hx) as Hg. induction Hg as [|x Hn|x n Hn Hg IH].
  - exists ROOT_ID. split; [by left|]. constructor.
  - rewrite Hn in Hx. by destruct Hx.
  - destruct (decide (x = ROOT_ID ∨ x ∈ detached_roots t)) as [Htop|Hno]; [by exists x; split; [|constructor]|].
    assert (link t (n_parent n) (n_name n) x) as Hl by (apply (wf_up _ Hwf); tauto).
    destruct IH as (a & Ha & Hab); [by eapply linked_source; eexists|].
    exists a. split; [done|]. eapply rtc_r; [done|]. by eexists.
Qed.

Lemma chain_linked p x l : linked t p x → chain t p l → chain t x (x :: l).
Proof using Hwf.
  intros Hpx Hl. destruct (linked_parent _ _ Hpx) as (m & Hm & <-).
  econstructor; [|done|done]. intros ->. by apply (top_unlinked _ ROOT_ID) in Hpx; [|left].
Qed.

(** *** What the walks compute *)

Lemma below_from_detached x : (∃ d, d ∈ detached_roots t ∧ below t d x) ↔
  x ∈ detached_roots t ∨ (x ≠ ROOT_ID ∧ ∃ n, nodes t !! x = Some n ∧ ∃ d, d ∈ detached_roots t ∧ below t d (n_parent n)).
Proof using Hwf.
  split.
  - intros (d & Hd & Hb). apply rtc_inv_r in Hb as [->|(p & Hdp & Hpx)]; [by left|]. right. split.
    + intros ->. by apply (top_unlinked p ROOT_ID) in Hpx; [|left].
    + destruct (linked_parent _ _ Hpx) as (n & Hn & <-). eauto.
  - intros [Hx|(Hne & n & Hn & d & Hd & Hb)]; [by exists x; split; [|constructor]|].
    destruct (decide (x ∈ detached_roots t)); [by exists x; split; [|constructor]|].
    exists d. split; [done|]. eapply rtc_r; [done|]. eexists. by apply (wf_up _ Hwf).
Qed.

Lemma detached_up_spec fuel x l : chain t x l → (length l < fuel)%nat →
  detached_up fuel t x = true ↔ ∃ d, d ∈ detached_roots t ∧ below t d x.
Proof using Hwf.
  revert x l. induction fuel as [|fuel IH]; intros x l Hl Hf; [lia|]. rewrite below_from_detached. cbn [detached_up].
  case_bool_decide as Hd; [by intuition|].
  inversion Hl as [|? Hne Hn|? n l' Hne Hn Hl']; subst.
  - destruct (wf_root _ Hwf) as (n & c & Hn & _ & Hp). rewrite Hn, Hp. simpl. naive_solver.
  - rewrite Hn. naive_solver.
  - rewrite Hn. simpl in Hf. destruct (Z.eqb_spec (n_parent n) x) as [Heq|Hp].
    + rewrite Heq in Hl'. pose proof (chain_det _ _ _ _ Hl Hl') as Heql.
      apply (f_equal length) in Heql. simpl in Heql. lia.
    + rewrite (IH _ _ Hl') by lia. naive_solver.
Qed.

Lemma node_is_detached_spec x : node_is_detached t x = true ↔ ∃ d, d ∈ detached_roots t ∧ below t d x.
Proof using Hwf. destruct (wf_chain t x Hwf) as (l & Hl & Hf). by eapply detached_up_spec. Qed.

Lemma attached_not_detached x : below t ROOT_ID x → node_is_detached t x = false.
Proof using Hwf.
  intros Hx. apply not_true_iff_false. rewrite node_is_detached_spec. intros (d & Hd & Hb).
  assert (ROOT_ID = d) as <- by (eapply top_unique; [by left|by right|done..]).
  by apply (wf_detached _ Hwf) in Hd as [_ ?].
Qed.

Lemma referenced_unfold x : referenced t x ↔
  is_Some (fid_references t !! x) ∨ ∃ y, linked t x y ∧ referenced t y.
Proof using.
  split.
  - intros (z & Hz & Hr). inversion Hz as [|? y ? Hxy Hyz]; subst; [by left|]. right. exists y. split; [done|]. by exists z.
  - intros [Hr|(y & Hxy & z & Hz & Hr)]; [by exists x; split; [constructor|]|]. exists z. split; [|done]. by econstructor.
Qed.

Lemma linked_children x y n c : nodes t !! x = Some n → children_of n = Some c → linked t x y ↔ y ∈ (ordered c).*2.
Proof using.
  intros Hn Hc. rewrite elem_of_children. split.
  - intros (name & n' & c' & ? & ? & ?). simplify_eq. eauto.
  - intros [name ?]. exists name, n, c. eauto.
Qed.

Lemma has_reference_spec fuel x l : chain t x l → (size (nodes t) - length l < fuel)%nat →
  has_reference fuel t x = true ↔ referenced t x.
Proof using Hwf.
  revert x l. induction fuel as [|fuel IH]; intros x l Hl Hf; [lia|]. rewrite referenced_unfold. cbn [has_reference].
  case_bool_decide as Hr; [by intuition|].
  destruct (nodes t !! x) as [n|] eqn:Hn; [|].
  2:{ split; [done|]. intros [?|(y & Hxy%linked_source & _)]; [done|]. rewrite Hn in Hxy. by destruct Hxy. }
  destruct (children_of n) as [c|] eqn:Hc; [|].
  2:{ split; [done|]. intros [?|(y & (name & n' & c' & ? & ? & _) & _)]; [done|]. by simplify_eq. }
  rewrite existsb_exists. split.
  - intros (y & Hy & Hrf). right. exists y. apply list_elem_of_In in Hy.
    apply (linked_children _ _ _ _ Hn Hc) in Hy. split; [done|].
    pose proof (chain_linked _ _ _ Hy Hl) as Hly. pose proof (chain_short _ _ _ Hly). simpl in *.
    apply (IH _ _ Hly); [simpl; lia|done].
  - intros [?|(y & Hy & Hrf)]; [done|]. exists y.
    pose proof (chain_linked _ _ _ Hy Hl) as Hly. pose proof (chain_short _ _ _ Hly). simpl in *. split.
    + apply list_elem_of_In. by apply (linked_children _ _ _ _ Hn Hc).
    + apply (IH _ _ Hly); [simpl; lia|done].
Qed.

Lemma subtree_has_fid_reference_spec x : subtree_has_fid_reference t x = true ↔ referenced t x.
Proof using Hwf.
  destruct (wf_chain t x Hwf) as (l & Hl & Hf). eapply has_reference_spec; [done|]. unfold depth_fuel. lia.
Qed.

(** *** Looking up *)

Lemma resolve_below x segments y : resolve_segments t x segments = Ok y → below t x y.
Proof using.
  revert x. induction segments as [|s segments IH]; intros x; simpl; [intros [= ->]; constructor|].
  unfold node. destruct (nodes t !! x) as [n|] eqn:Hn; [simpl|done].
  destruct (children_of n) as [c|] eqn:Hc; [|done].
  destruct (c !! s) as [z|] eqn:Hs; [simpl|done]. intros H%IH. eapply rtc_l; [|done]. exists s, n, c. done.
Qed.

Lemma lookup_segments_below x segments y : lookup_segments t x segments = Ok (Some y) → below t x y.
Proof using.
  revert x. induction segments as [|s segments IH]; intros x; simpl; [intros [= ->]; constructor|].
  unfold node. destruct (nodes t !! x) as [n|] eqn:Hn; [simpl|done].
  destruct (children_of n) as [c|] eqn:Hc; [|done].
  destruct (c !! s) as [z|] eqn:Hs; [simpl|done]. intros H%IH. eapply rtc_l; [|done]. exists s, n, c. done.
Qed.

Lemma lookup_path_attached path y : lookup_path t path = Ok y → below t ROOT_ID y.
Proof using.
  unfold lookup_path. case_bool_decide; [intros [= ->]; constructor|].
  destruct (split_path _) as [segments|]; [simpl|done]. apply resolve_below.
Qed.

Lemma lookup_optional_path_attached path y : lookup_optional_path t path = Ok (Some y) → below t ROOT_ID y.
Proof using.
  unfold lookup_optional_path. case_bool_decide; [intros [= ->]; constructor|].
  destruct (split_path _) as [segments|]; [simpl|done]. apply lookup_segments_below.
Qed.

Lemma root_is_node : is_Some (nodes t !! ROOT_ID).
Proof using Hwf. apply top_node. by left. Qed.

Lemma attached_node x : below t ROOT_ID x → is_Some (nodes t !! x).
Proof using Hwf. apply below_node, root_is_node. Qed.

End shape.

(** ** Changes that keep the shape *)

(** What the shape depends on in a node. *)
Definition place_of (n : Node) : Z * bytes * Z := (n_parent n, n_name n, n_qid_path n).

Definition shape (n : Node) : Z * bytes * Z * option (gmap bytes Z) := (place_of n, children_of n).

Lemma grounded_mono t t' x :
  (∀ y n', nodes t' !! y = Some n' → ∃ n, nodes t !! y = Some n ∧ n_parent n = n_parent n') →
  grounded t x → grounded t' x.
Proof.
  intros Hsub. induction 1 as [|y Hy|y n Hy Hg IH]; [constructor| |].
  - constructor 2. destruct (nodes t' !! y) as [n'|] eqn:Hy'; [|done]. apply Hsub in Hy' as (n & ? & _). congruence.
  - destruct (nodes t' !! y) as [n'|] eqn:Hy'; [|by constructor 2].
    econstructor 3; [done|]. apply Hsub in Hy' as (n0 & ? & <-). by simplify_eq.
Qed.

(** The trees agree but for what nodes hold and for the tables of fids, intakes and
    renames. *)
Record alike (t t' : Tree) : Prop := alike_mk {
  alike_nodes : shape <$> nodes t' = shape <$> nodes t;
  alike_detached : detached_roots t' = detached_roots t;
  alike_index : qid_index t' = qid_index t;
  alike_next : next_id t' = next_id t;
}.

Lemma alike_sym t t' : alike t t' → alike t' t.
Proof. intros []. by constructor. Qed.

Lemma alike_node t t' x n : alike t t' → nodes t !! x = Some n → ∃ n', nodes t' !! x = Some n' ∧ shape n' = shape n.
Proof.
  intros Ha Hx. pose proof (f_equal (lookup x) (alike_nodes _ _ Ha)) as H. rewrite !lookup_fmap, Hx in H.
  destruct (nodes t' !! x) as [n'|]; [|done]. eexists. split; [done|]. by apply Some_inj in H.
Qed.

Lemma alike_is_node t t' x : alike t t' → is_Some (nodes t !! x) ↔ is_Some (nodes t' !! x).
Proof.
  intros Ha. split; intros [n Hn]; eapply alike_node in Hn as (n' & ? & _); eauto using alike_sym.
Qed.

Lemma alike_link t t' p name x : alike t t' → link t p name x ↔ link t' p name x.
Proof.
  assert (∀ t t', alike t t' → link t p name x → link t' p name x) as H.
  { intros t1 t2 Ha (n & c & Hn & Hc & Hx). destruct (alike_node _ _ _ _ Ha Hn) as (n' & Hn' & Hs).
    exists n', c. split_and!; [done| |done]. unfold shape in Hs. congruence. }
  intros Ha. split; eauto using alike_sym.
Qed.

Lemma alike_below t t' a x : alike t t' → below t a x → below t' a x.
Proof.
  intros Ha. induction 1 as [|y z w [name Hyz] Hzw IH]; [constructor|]. econstructor; [|done].
  exists name. by rewrite <-alike_link.
Qed.

Lemma wf_alike t t' : wf t → alike t t' →
  (∀ x k, fid_references t' !! x = Some k → 0 < k ∧ is_Some (nodes t !! x)) →
  (∀ x, is_Some (intakes t' !! x) → is_Some (nodes t !! x)) →
  (∀ x, is_Some (rename_relay_roots t' !! x) → is_Some (nodes t !! x)) → wf t'.
Proof.
  intros Hwf Ha Hrefs Hin Hren. pose proof (alike_sym _ _ Ha) as Ha'. constructor.
  - destruct (wf_root _ Hwf) as (n & c & Hn & Hc & Hp). destruct (alike_node _ _ _ _ Ha Hn) as (n' & Hn' & Hs).
    exists n', c. unfold shape, place_of in Hs. split_and!; [done|congruence..].
  - intros p name x Hl. rewrite (alike_detached _ _ Ha). apply (alike_link _ _ _ _ _ Ha) in Hl.
    destruct (wf_down _ Hwf _ _ _ Hl) as (m & Hm & ? & ? & ? & ?).
    destruct (alike_node _ _ _ _ Ha Hm) as (m' & Hm' & Hs). unfold shape, place_of in Hs.
    exists m'. split_and!; [done|congruence..|done|done].
  - intros x m Hm Hx. rewrite (alike_detached _ _ Ha). intros Hd.
    destruct (alike_node _ _ _ _ Ha' Hm) as (m' & Hm' & Hs). unfold shape, place_of in Hs.
    apply (alike_link _ _ _ _ _ Ha). replace (n_parent m) with (n_parent m') by congruence.
    replace (n_name m) with (n_name m') by congruence. by apply (wf_up _ Hwf).
  - intros x. rewrite (alike_detached _ _ Ha). intros [? ?]%(wf_detached _ Hwf).
    split; [|done]. by apply (alike_is_node _ _ _ Ha).
  - intros x Hx. apply (grounded_mono t); [|by apply (wf_grounded _ Hwf), (alike_is_node _ _ _ Ha)].
    intros y n' Hn'. destruct (alike_node _ _ _ _ Ha' Hn') as (n & ? & Hs). unfold shape, place_of in Hs.
    exists n. split; [done|congruence].
  - intros x m Hm. rewrite (alike_next _ _ Ha). destruct (alike_node _ _ _ _ Ha' Hm) as (m' & Hm' & Hs).
    unfold shape, place_of in Hs. replace (n_parent m) with (n_parent m') by congruence.
    by apply (wf_ids _ Hwf).
  - intros q x. rewrite (alike_index _ _ Ha), (wf_qids _ Hwf). unfold shape, place_of in *.
    split; intros (m & Hm & Hq).
    + destruct (alike_node _ _ _ _ Ha Hm) as (m' & ? & Hs). exists m'. unfold shape, place_of in Hs. split; congruence.
    + destruct (alike_node _ _ _ _ Ha' Hm) as (m' & ? & Hs). exists m'. unfold shape, place_of in Hs. split; congruence.
  - intros x k H%Hrefs. by rewrite <-(alike_is_node _ _ _ Ha).
  - intros x H%Hin. by rewrite <-(alike_is_node _ _ _ Ha).
  - intros x H%Hren. by rewrite <-(alike_is_node _ _ _ Ha).
Qed.

Lemma on_node_alike t x f : (∀ n, nodes t !! x = Some n → shape (f n) = shape n) → alike t (on_node x f t).
Proof.
  intros Hf. constructor; [|done..]. apply map_eq. intros y. simpl. rewrite !lookup_fmap.
  destruct (decide (x = y)) as [<-|Hne]; [|by rewrite lookup_alter_ne].
  rewrite lookup_alter_eq. destruct (nodes t !! x) as [n|] eqn:Hn; [|done]. simpl. by rewrite Hf.
Qed.

Lemma on_node_wf t x f : wf t → (∀ n, nodes t !! x = Some n → shape (f n) = shape n) → wf (on_node x f t).
Proof. intros Hwf Hf. apply (wf_alike t); [done|by apply on_node_alike|apply Hwf..]. Qed.

Lemma collected_alike t t' : alike t t' → (∀ x, is_Some (fid_references t !! x) → is_Some (fid_references t' !! x)) →
  collected t → collected t'.
Proof.
  intros Ha Hr Hc d. rewrite (alike_detached _ _ Ha). intros (y & Hy & Hf)%Hc. exists y. split; [|by apply Hr].
  by eapply alike_below.
Qed.

(** The children of one node change. *)
Lemma on_children_place f n : place_of (on_children f n) = place_of n.
Proof. unfold on_children. by destruct (n_body n). Qed.

Lemma on_children_of f n : children_of (on_children f n) = f <$> children_of n.
Proof. unfold on_children, children_of. destruct (n_body n) eqn:E; simpl; by rewrite ?E. Qed.

Lemma lookup_on_node t x f y : nodes (on_node x f t) !! y = (if decide (x = y) then f else id) <$> nodes t !! y.
Proof.
  simpl. destruct (decide (x = y)) as [<-|]; [by rewrite lookup_alter_eq|].
  rewrite lookup_alter_ne by done. by destruct (nodes t !! y).
Qed.

Lemma lookup_children_node t p f x n' : nodes (on_node p (on_children f) t) !! x = Some n' →
  ∃ n, nodes t !! x = Some n ∧ place_of n = place_of n'.
Proof.
  rewrite lookup_on_node, fmap_Some. intros (n & Hn & ->). exists n. split; [done|].
  destruct (decide _); [|done]. by rewrite on_children_place.
Qed.

Lemma lookup_children_node' t p f x n : nodes t !! x = Some n →
  ∃ n', nodes (on_node p (on_children f) t) !! x = Some n' ∧ place_of n' = place_of n.
Proof.
  intros Hn. rewrite lookup_on_node, Hn. eexists. split; [done|]. destruct (decide _); [|done]. apply on_children_place.
Qed.

Lemma children_node_is_Some t p f x : is_Some (nodes (on_node p (on_children f) t) !! x) ↔ is_Some (nodes t !! x).
Proof. by rewrite lookup_on_node, fmap_is_Some. Qed.

Lemma link_on_children t p f q name x :
  link (on_node p (on_children f) t) q name x ↔
  if decide (p = q) then ∃ n c, nodes t !! q = Some n ∧ children_of n = Some c ∧ f c !! name = Some x
  else link t q name x.
Proof.
  unfold link. setoid_rewrite lookup_on_node. destruct (decide (p = q)) as [->|Hne].
  - split.
    + intros (n' & c' & Hn & Hc & Hx). apply fmap_Some in Hn as (n & Hn & ->).
      rewrite on_children_of, fmap_Some in Hc. destruct Hc as (c & Hc & ->). eauto.
    + intros (n & c & Hn & Hc & Hx). exists (on_children f n), (f c).
      split_and!; [by rewrite Hn|by rewrite on_children_of, Hc|done].
  - split; intros (n & c & Hn & Hc & Hx).
    + apply fmap_Some in Hn as (n' & Hn & ->). eauto.
    + exists n, c. by rewrite Hn.
Qed.

(** ** Inserting a node *)

Lemma fresh_id t : wf t → nodes t !! next_id t = None.
Proof.
  intros Hwf. destruct (nodes t !! next_id t) as [m|] eqn:Hm; [|done]. apply (wf_ids _ Hwf) in Hm. lia.
Qed.

Definition no_children (n : Node) : Prop := children_of n = None ∨ children_of n = Some ∅.

(** The parent of a new node, and that the name and the qid path are free. *)
Record room (t : Tree) (n : Node) : Prop := room_mk {
  room_parent : ∃ pn c, nodes t !! n_parent n = Some pn ∧ children_of pn = Some c ∧ c !! n_name n = None;
  room_qid : qid_index t !! n_qid_path n = None;
  room_leaf : no_children n;
}.

Section insertion.
Context (t : Tree) (n : Node) (Hwf : wf t) (Hroom : room t n).

Definition inserted : Tree := insert_node (next_id t) n (set_next_id (next_id t + 1) t).

Lemma parent_not_fresh : n_parent n ≠ next_id t.
Proof using Hwf Hroom.
  destruct Hroom as [(pn & c & Hp & _) _ _]. intros E. rewrite E, fresh_id in Hp by done. done.
Qed.

Lemma inserted_fresh : nodes inserted !! next_id t = Some n.
Proof using Hwf Hroom.
  unfold inserted, insert_node, link_child. rewrite lookup_on_node. rewrite decide_False by apply parent_not_fresh.
  simpl. by rewrite lookup_insert_eq.
Qed.

Lemma inserted_old x n' : x ≠ next_id t →
  nodes inserted !! x = Some n' → ∃ m, nodes t !! x = Some m ∧ place_of m = place_of n'.
Proof using.
  intros Hx (m & Hm & Hp)%lookup_children_node. exists m. split; [|done]. simpl in Hm.
  by rewrite lookup_insert_ne in Hm.
Qed.

Lemma inserted_old' x m : nodes t !! x = Some m → ∃ n', nodes inserted !! x = Some n' ∧ place_of n' = place_of m.
Proof using Hwf.
  intros Hm. assert (x ≠ next_id t) by (intros ->; by rewrite fresh_id in Hm).
  apply lookup_children_node'. simpl. by rewrite lookup_insert_ne.
Qed.

Lemma inserted_link q name x :
  link inserted q name x ↔ link t q name x ∨ (q = n_parent n ∧ name = n_name n ∧ x = next_id t).
Proof using Hwf Hroom.
  unfold inserted, insert_node, link_child. rewrite link_on_children.
  destruct Hroom as [(pn & c & Hp & Hc & Hfree) _ Hleaf]. pose proof parent_not_fresh as Hne.
  destruct (decide (n_parent n = q)) as [<-|Hq]; simpl.
  - rewrite lookup_insert_ne by done. split.
    + intros (n' & c' & Hn' & Hc' & Hx). simplify_eq. apply lookup_insert_Some in Hx as [[<- <-]|[Hx ?]]; [by right|].
      left. by exists pn, c.
    + intros [(n' & c' & Hn' & Hc' & Hx)|(_ & -> & ->)]; simplify_eq.
      * exists pn, c. split_and!; [done..|]. rewrite lookup_insert_ne; [done|]. intros <-. congruence.
      * exists pn, c. by rewrite lookup_insert_eq.
  - unfold link at 1; simpl. destruct (decide (q = next_id t)) as [->|Hqn].
    + rewrite lookup_insert_eq. split.
      * intros (n' & c' & [= <-] & Hc' & Hx). destruct Hleaf as [Hl|Hl]; rewrite Hl in Hc'; by simplify_eq.
      * intros [(n' & c' & Hn' & _)|(? & _)]; [by rewrite fresh_id in Hn'|congruence].
    + rewrite lookup_insert_ne by done. split; [by left|]. intros [?|(? & _)]; [done|congruence].
Qed.

Lemma inserted_grounded x : grounded t x → x < next_id t → grounded inserted x.
Proof using Hwf Hroom.
  induction 1 as [|y Hy|y m Hy Hg IH]; intros Hlt; [constructor| |].
  - destruct (nodes inserted !! y) as [n'|] eqn:Hn'; [|by constructor 2].
    apply inserted_old in Hn' as (m & Hm & _); [congruence|lia].
  - destruct (inserted_old' _ _ Hy) as (n' & Hn' & Hs). econstructor 3; [done|].
    unfold place_of in Hs. replace (n_parent n') with (n_parent m) by congruence. apply IH. apply (wf_ids _ Hwf) in Hy. lia.
Qed.

Lemma inserted_node x : is_Some (nodes t !! x) → is_Some (nodes inserted !! x).
Proof using Hwf. intros [m Hm]. destruct (inserted_old' _ _ Hm) as (n' & ? & _). eauto. Qed.

Lemma parent_is_node : is_Some (nodes t !! n_parent n).
Proof using Hroom. destruct Hroom as [(pn & c & Hp & _) _ _]. eauto. Qed.

Lemma inserted_ids x m : nodes inserted !! x = Some m → 0 ≤ x < next_id t + 1 ∧ 0 ≤ n_parent m < next_id t + 1.
Proof using Hwf Hroom.
  destruct parent_is_node as [pn Hp]. apply (wf_ids _ Hwf) in Hp as [Hp _].
  destruct (decide (x = next_id t)) as [->|Hx].
  - rewrite inserted_fresh. intros [= <-]. lia.
  - intros (m' & Hm' & Hs)%inserted_old; [|done]. apply (wf_ids _ Hwf) in Hm'. unfold place_of in Hs.
    replace (n_parent m) with (n_parent m') by congruence. lia.
Qed.

Lemma inserted_qids q x : qid_index inserted !! q = Some x ↔ ∃ m, nodes inserted !! x = Some m ∧ n_qid_path m = q.
Proof using Hwf Hroom.
  unfold inserted, insert_node, link_child, on_node. cbn [set_nodes qid_index set_qid_index set_next_id].
  change (set_nodes _ _) with inserted. split.
  - intros [[<- <-]|[Hq Hx]]%lookup_insert_Some; [exists n; by rewrite inserted_fresh|].
    apply (wf_qids _ Hwf) in Hx as (m & Hm & <-). destruct (inserted_old' _ _ Hm) as (n' & ? & Hs).
    exists n'. unfold place_of in Hs. split; [done|congruence].
  - intros (m & Hm & <-). destruct (decide (x = next_id t)) as [->|Hx].
    + rewrite inserted_fresh in Hm. injection Hm as <-. by rewrite lookup_insert_eq.
    + apply inserted_old in Hm as (m' & Hm' & Hs); [|done]. unfold place_of in Hs.
      assert (qid_index t !! n_qid_path m = Some x) as Hq by (apply (wf_qids _ Hwf); exists m'; split; [done|congruence]).
      rewrite lookup_insert_ne; [done|]. intros E. rewrite <-E, (room_qid _ _ Hroom) in Hq. done.
Qed.

Lemma insert_node_wf : wf inserted.
Proof using Hwf Hroom.
  constructor.
  - destruct (wf_root _ Hwf) as (rn & c & Hn & Hc & Hp). destruct (inserted_old' _ _ Hn) as (n' & Hn' & Hs).
    unfold place_of in Hs. destruct (decide (n_parent n = ROOT_ID)) as [E|E].
    + exists n', (<[n_name n := next_id t]> c). split_and!; [done| |congruence].
      revert Hn'. unfold inserted, insert_node, link_child. rewrite lookup_on_node, decide_True by done. simpl.
      rewrite lookup_insert_ne by (rewrite <-E; apply not_eq_sym, parent_not_fresh). rewrite Hn. simpl. intros [= <-].
      by rewrite on_children_of, Hc.
    + exists n', c. split_and!; [done| |congruence].
      revert Hn'. unfold inserted, insert_node, link_child. rewrite lookup_on_node, decide_False by done. simpl.
      rewrite lookup_insert_ne; [|intros E'; rewrite <-E', fresh_id in Hn by done; done]. rewrite Hn. simpl. by intros [= <-].
  - intros q name x [Hl|(-> & -> & ->)]%inserted_link.
    + destruct (wf_down _ Hwf _ _ _ Hl) as (m & Hm & ? & ? & ? & ?).
      destruct (inserted_old' _ _ Hm) as (n' & ? & Hs). unfold place_of in Hs.
      exists n'. split_and!; [done|congruence..|done|done].
    + exists n. rewrite inserted_fresh. split_and!; [done..| |].
      * intros E. destruct (root_is_node t Hwf) as [rn Hn]. rewrite <-E, fresh_id in Hn; done.
      * intros [[m Hm] _]%(wf_detached _ Hwf). by rewrite fresh_id in Hm.
  - intros x m Hm Hx Hd. apply inserted_link. destruct (decide (x = next_id t)) as [->|Hnx].
    + rewrite inserted_fresh in Hm. injection Hm as <-. by right.
    + left. apply inserted_old in Hm as (m' & Hm' & Hs); [|done]. unfold place_of in Hs.
      replace (n_parent m) with (n_parent m') by congruence. replace (n_name m) with (n_name m') by congruence.
      by apply (wf_up _ Hwf).
  - intros x [Hx ?]%(wf_detached _ Hwf). split; [|done]. by apply inserted_node.
  - intros x [m Hm]. assert (grounded inserted (n_parent n)) as Hgp.
    { apply inserted_grounded; [apply (wf_grounded _ Hwf), parent_is_node|].
      destruct parent_is_node as [pn Hp]. apply (wf_ids _ Hwf) in Hp. lia. }
    destruct (decide (x = next_id t)) as [->|Hx]; [econstructor 3; [apply inserted_fresh|done]|].
    apply inserted_old in Hm as (m' & Hm' & _); [|done].
    apply inserted_grounded; [apply (wf_grounded _ Hwf); eauto|]. apply (wf_ids _ Hwf) in Hm'. lia.
  - apply inserted_ids.
  - apply inserted_qids.
  - intros x k [? ?]%(wf_refs _ Hwf). split; [done|]. by apply inserted_node.
  - intros x H%(wf_intakes _ Hwf). by apply inserted_node.
  - intros x H%(wf_renames _ Hwf). by apply inserted_node.
Qed.

Lemma inserted_below a x : below t a x → below inserted a x.
Proof using Hwf Hroom.
  induction 1 as [|y z w [name Hyz] Hzw IH]; [constructor|]. econstructor; [|done].
  exists name. apply inserted_link. by left.
Qed.

Lemma insert_node_collected : collected t → collected inserted.
Proof using Hwf Hroom. intros Hc d (y & Hy & Hr)%Hc. exists y. split; [by apply inserted_below|done]. Qed.

Lemma inserted_attached : below t ROOT_ID (n_parent n) → below inserted ROOT_ID (next_id t).
Proof using Hwf Hroom.
  intros Hp. eapply rtc_r; [by apply inserted_below|]. eexists. apply inserted_link. by right.
Qed.

End insertion.

(** ** Another qid path *)

Lemma requid_wf t x n q : wf t → nodes t !! x = Some n → (∀ y, qid_index t !! q = Some y → y = x) →
  wf (on_node x (set_qid_path q) (set_qid_index (<[q := x]> (delete (n_qid_path n) (qid_index t))) t)).
Proof.
  intros Hwf Hx Hq. set (t' := on_node _ _ _).
  assert (∀ y m', nodes t' !! y = Some m' → ∃ m, nodes t !! y = Some m ∧ n_parent m = n_parent m' ∧ n_name m = n_name m' ∧
    children_of m = children_of m' ∧ n_qid_path m' = if decide (x = y) then q else n_qid_path m) as Hback.
  { intros y m'. unfold t'. rewrite lookup_on_node, fmap_Some. simpl. intros (m & Hm & ->). exists m. by destruct (decide _). }
  assert (∀ y m, nodes t !! y = Some m → ∃ m', nodes t' !! y = Some m' ∧ n_parent m' = n_parent m ∧ n_name m' = n_name m ∧
    children_of m' = children_of m ∧ n_qid_path m' = if decide (x = y) then q else n_qid_path m) as Hforth.
  { intros y m Hm. unfold t'. rewrite lookup_on_node. simpl. rewrite Hm. eexists. split; [done|]. by destruct (decide _). }
  assert (∀ p name y, link t' p name y ↔ link t p name y) as Hlink.
  { intros p name y. split; intros (m & c & Hm & Hc & Hy).
    - apply Hback in Hm as (m' & ? & _ & _ & ? & _). exists m', c. split_and!; [done|congruence|done].
    - apply Hforth in Hm as (m' & ? & _ & _ & ? & _). exists m', c. split_and!; [done|congruence|done]. }
  assert (∀ y, is_Some (nodes t' !! y) ↔ is_Some (nodes t !! y)) as Hnode
    by (intros y; unfold t'; by rewrite lookup_on_node, fmap_is_Some).
  constructor.
  - destruct (wf_root _ Hwf) as (rn & c & Hn & Hc & Hp). apply Hforth in Hn as (n' & ? & ? & _ & ? & _).
    exists n', c. split_and!; [done|congruence..].
  - intros p name y (m & Hm & ? & ? & ? & ?)%Hlink%(wf_down _ Hwf). apply Hforth in Hm as (n' & ? & ? & ? & _).
    exists n'. split_and!; [done|congruence..|done|done].
  - intros y m (m' & Hm & <- & <- & _)%Hback ? ?. apply Hlink. by apply (wf_up _ Hwf).
  - intros y [??]%(wf_detached _ Hwf). by rewrite Hnode.
  - intros y Hy%Hnode. apply (grounded_mono t); [|by apply (wf_grounded _ Hwf)].
    intros z m' (m & ? & ? & _)%Hback. eauto.
  - intros y m (m' & Hm & <- & _)%Hback. by apply (wf_ids _ Hwf).
  - intros q' y. change (qid_index t') with (<[q := x]> (delete (n_qid_path n) (qid_index t))). split.
    + intros [[<- <-]|[Hne [Hne' Hy]%lookup_delete_Some]]%lookup_insert_Some.
      * destruct (Hforth _ _ Hx) as (m' & ? & _ & _ & _ & Hq'). exists m'. by rewrite decide_True in Hq'.
      * apply (wf_qids _ Hwf) in Hy as (m & Hm & <-). destruct (Hforth _ _ Hm) as (m' & ? & _ & _ & _ & Hq').
        exists m'. rewrite decide_False in Hq'; [done|]. intros <-. by simplify_eq.
    + intros (m' & (m & Hm & _ & _ & _ & Hq')%Hback & <-). destruct (decide (x = y)) as [<-|Hne].
      * by rewrite Hq', lookup_insert_eq.
      * assert (qid_index t !! n_qid_path m = Some y) as Hi by (apply (wf_qids _ Hwf); eauto).
        rewrite Hq', lookup_insert_ne by (intros ->; apply Hne; symmetry; by apply Hq).
        rewrite lookup_delete_ne; [done|]. intros E.
        assert (qid_index t !! n_qid_path n = Some x) by (apply (wf_qids _ Hwf); eauto). congruence.
  - intros y k [??]%(wf_refs _ Hwf). by rewrite Hnode.
  - intros y ?%(wf_intakes _ Hwf). by rewrite Hnode.
  - intros y ?%(wf_renames _ Hwf). by rewrite Hnode.
Qed.

(** ** Dropping a set of nodes *)

Definition drop_set (s : gset Z) (t : Tree) : Tree :=
  Tree_mk (filter (λ x, x.1 ∉ s) (nodes t)) (filter (λ x, x.2 ∉ s) (qid_index t))
    (filter (λ x, x.1 ∉ s) (fid_references t)) (detached_roots t ∖ s) (next_id t)
    (filter (λ x, x.1 ∉ s) (intakes t)) (filter (λ x, x.1 ∉ s) (rename_relay_roots t))
    (remove_relay_prefixes t) (principal_roots_required t) (principal_roots t) (log_capacity t).

Definition qids_ok (t : Tree) : Prop :=
  ∀ q x, qid_index t !! q = Some x ↔ ∃ m, nodes t !! x = Some m ∧ n_qid_path m = q.

Lemma lookup_filter_key {A} (s : gset Z) (m : gmap Z A) x :
  filter (λ y : Z * A, y.1 ∉ s) m !! x = if decide (x ∈ s) then None else m !! x.
Proof.
  destruct (decide (x ∈ s)) as [Hs|Hs].
  - apply map_lookup_filter_None. right. intros a _ H. by apply H.
  - destruct (m !! x) as [a|] eqn:E; [by apply map_lookup_filter_Some|]. apply map_lookup_filter_None. by left.
Qed.

Lemma drop_node s t x : nodes (drop_set s t) !! x = if decide (x ∈ s) then None else nodes t !! x.
Proof. apply lookup_filter_key. Qed.

Lemma drop_node_Some s t x n : nodes (drop_set s t) !! x = Some n ↔ nodes t !! x = Some n ∧ (x ∉ s).
Proof. rewrite drop_node. destruct (decide (x ∈ s)); naive_solver. Qed.

Lemma drop_is_node s t x : is_Some (nodes (drop_set s t) !! x) ↔ is_Some (nodes t !! x) ∧ (x ∉ s).
Proof. unfold is_Some. setoid_rewrite drop_node_Some. naive_solver. Qed.

Lemma drop_link s t p name x : link (drop_set s t) p name x ↔ link t p name x ∧ (p ∉ s).
Proof. unfold link. setoid_rewrite drop_node_Some. naive_solver. Qed.

Lemma drop_linked s t p x : linked (drop_set s t) p x ↔ linked t p x ∧ (p ∉ s).
Proof. unfold linked. setoid_rewrite drop_link. naive_solver. Qed.

Lemma drop_below s t a x : below (drop_set s t) a x → below t a x.
Proof. induction 1 as [|y z w [Hyz _]%drop_linked Hzw IH]; [constructor|]. by econstructor. Qed.

Lemma drop_drop s1 s2 t : drop_set s2 (drop_set s1 t) = drop_set (s1 ∪ s2) t.
Proof.
  unfold drop_set; simpl. f_equal; try apply map_eq; intros; rewrite ?lookup_filter_key; try set_solver;
    repeat case_decide; try set_solver.
  apply option_eq. intros x. rewrite !map_lookup_filter_Some. simpl. set_solver.
Qed.

Lemma drop_empty t : drop_set ∅ t = t.
Proof.
  destruct t. unfold drop_set; simpl. f_equal; try apply map_eq; intros; rewrite ?lookup_filter_key;
    try case_decide; try set_solver.
  apply option_eq. intros x. rewrite !map_lookup_filter_Some. simpl. set_solver.
Qed.

Lemma drop_qids_ok s t : qids_ok t → qids_ok (drop_set s t).
Proof.
  intros Hq q x. setoid_rewrite drop_node_Some. cbn [drop_set qid_index]. rewrite map_lookup_filter_Some, (Hq q x).
  simpl. naive_solver.
Qed.

Lemma drop_size s t : (size (nodes (drop_set s t)) ≤ size (nodes t))%nat.
Proof.
  rewrite <-!(size_dom (D := gset Z)). apply subseteq_size. intros x. rewrite !elem_of_dom, drop_is_node. naive_solver.
Qed.

Lemma forget_drop t x n : qids_ok t → nodes t !! x = Some n → forget_node x n t = drop_set {[x]} t.
Proof.
  intros Hq Hx. unfold forget_node, drop_set. f_equal; try apply map_eq; intros i; rewrite ?lookup_filter_key;
    try (destruct (decide (i = x)) as [->|Hi];
         [rewrite lookup_delete_eq, decide_True by set_solver; done|
          rewrite lookup_delete_ne, decide_False by set_solver; done]).
  apply option_eq. intros y. rewrite lookup_delete_Some, map_lookup_filter_Some. simpl. split; intros [H1 H2].
  - split; [done|]. intros ->%elem_of_singleton. apply Hq in H2 as (m & ? & <-). by simplify_eq.
  - split; [|done]. intros <-. apply H2, elem_of_singleton. apply Hq in H1 as (m & Hm & Hqm).
    assert (qid_index t !! n_qid_path n = Some x) as E1 by (apply Hq; eauto).
    assert (qid_index t !! n_qid_path n = Some y) as E2 by (apply Hq; eauto). congruence.
Qed.

(** *** The recursive removal drops what is below a node *)

Definition is_subtree (s : gset Z) (t : Tree) (x : Z) : Prop :=
  ∀ y, y ∈ s ↔ is_Some (nodes t !! y) ∧ below t x y.

Lemma remove_children_drop fuel :
  (∀ t x, qids_ok t → (size (nodes t) < fuel)%nat →
     ∃ s, remove_recursive fuel x t = drop_set s t ∧ is_subtree s t x) →
  ∀ xs t, qids_ok t → (size (nodes t) < fuel)%nat →
  ∃ s, foldl (λ t x, remove_recursive fuel x t) t xs = drop_set s t ∧
       ∀ y, y ∈ s ↔ is_Some (nodes t !! y) ∧ ∃ x, x ∈ xs ∧ below t x y.
Proof.
  intros Hrec xs. induction xs as [|x xs IH]; intros t Hq Hsz; simpl.
  - exists ∅. split; [by rewrite drop_empty|]. set_solver.
  - destruct (Hrec t x Hq Hsz) as (s1 & E1 & Hs1). rewrite E1.
    destruct (IH (drop_set s1 t)) as (s2 & E2 & Hs2); [by apply drop_qids_ok|pose proof (drop_size s1 t); lia|].
    exists (s1 ∪ s2). rewrite E2, drop_drop. split; [done|]. intros y. rewrite elem_of_union. split.
    + intros [[? ?]%Hs1|(Hy & x' & Hx' & Hb)%Hs2]; [set_solver|].
      apply drop_is_node in Hy as [? _]. split; [done|]. exists x'. split; [set_solver|]. by eapply drop_below.
    + intros (Hy & x' & [->|Hx']%elem_of_cons & Hb); [by left; apply Hs1|]. clear E1 E2 IH.
      revert y Hb Hy. refine (rtc_ind_r _ x' _ _).
      * intros Hy. destruct (decide (x' ∈ s1)) as [?|Hn]; [by left|]. right. apply Hs2. split; [by apply drop_is_node|].
        exists x'. split; [done|constructor].
      * intros y z _ Hyz IH Hz. destruct (IH (linked_source _ _ _ Hyz)) as [Hy1|Hy2].
        -- left. apply Hs1. split; [done|]. apply Hs1 in Hy1 as [_ Hy1]. by eapply rtc_r.
        -- destruct (decide (z ∈ s1)) as [?|Hn]; [by left|]. right.
           apply Hs2 in Hy2 as ([_ Hny]%drop_is_node & x'' & Hx'' & Hb). apply Hs2. split; [by apply drop_is_node|].
           exists x''. split; [done|]. eapply rtc_r; [done|]. by apply drop_linked.
Qed.

Lemma remove_recursive_drop fuel t x : qids_ok t → (size (nodes t) < fuel)%nat →
  ∃ s, remove_recursive fuel x t = drop_set s t ∧ is_subtree s t x.
Proof.
  revert t x. induction fuel as [|fuel IH]; intros t x Hq Hsz; [lia|]. cbn [remove_recursive].
  destruct (nodes t !! x) as [n|] eqn:Hx.
  2:{ exists ∅. split; [by rewrite drop_empty|]. intros y. split; [set_solver|]. intros [Hy Hb].
      inversion Hb as [|? z ? Hxz _]; subst; [rewrite Hx in Hy; by destruct Hy|].
      apply linked_source in Hxz. rewrite Hx in Hxz. by destruct Hxz. }
  assert (size (nodes (forget_node x n t)) < fuel)%nat as Hlt.
  { simpl. rewrite map_size_delete_Some by eauto. pose proof (map_size_ne_0_lookup_2 (nodes t) x ltac:(eauto)). lia. }
  rewrite (forget_drop _ _ _ Hq Hx) in Hlt |- *. destruct (children_of n) as [c|] eqn:Hc.
  2:{ exists {[x]}. split; [done|]. intros y. rewrite elem_of_singleton. split.
      - intros ->. split; [by eauto|constructor].
      - intros [_ Hb]. inversion Hb as [|? z ? (name & n' & c' & ? & ? & _) _]; by simplify_eq. }
  destruct (remove_children_drop fuel IH ((ordered c).*2) (drop_set {[x]} t)) as (s & E & Hs);
    [by apply drop_qids_ok|done|].
  exists ({[x]} ∪ s). rewrite E, drop_drop. split; [done|]. intros y.
  rewrite elem_of_union, elem_of_singleton. split.
  - intros [->|(Hy & z & Hz & Hb)%Hs]; [split; [by eauto|constructor]|]. apply drop_is_node in Hy as [? _].
    split; [done|]. econstructor; [by apply (linked_children t x z n c)|by eapply drop_below].
  - intros [Hy Hb]. revert y Hb Hy. refine (rtc_ind_r _ x _ _); [by left|].
    intros y z _ Hyz IHy Hz. destruct (decide (z = x)) as [->|Hzx]; [by left|]. right. apply Hs.
    assert (is_Some (nodes (drop_set {[x]} t) !! z)) as Hz' by (apply drop_is_node; set_solver).
    split; [done|]. destruct (IHy (linked_source _ _ _ Hyz)) as [->|([_ Hny]%drop_is_node & w & Hw & Hb)%Hs].
    + exists z. split; [by eapply linked_children|constructor].
    + exists w. split; [done|]. eapply rtc_r; [done|]. by apply drop_linked.
Qed.

Lemma remove_node_drop t x : qids_ok t → ∃ s, remove_node_recursive x t = drop_set s t ∧ is_subtree s t x.
Proof. intros Hq. apply remove_recursive_drop; [done|]. unfold depth_fuel. lia. Qed.

(** Whether the root of the subtree is listed as detached makes no difference. *)
Lemma remove_node_detached t x d n : nodes t !! x = Some n → d ∖ {[x]} = detached_roots t ∖ {[x]} →
  remove_node_recursive x (set_detached_roots d t) = remove_node_recursive x t.
Proof.
  intros Hx Hd. unfold remove_node_recursive, depth_fuel. cbn [remove_recursive].
  change (nodes (set_detached_roots d t)) with (nodes t). rewrite Hx.
  assert (forget_node x n (set_detached_roots d t) = forget_node x n t) as -> by (unfold forget_node; simpl; by rewrite Hd).
  done.
Qed.

(** *** Dropping whole trees keeps the shape *)

Record droppable (s : gset Z) (t : Tree) : Prop := droppable_mk {
  dr_down x y : linked t x y → x ∈ s → y ∈ s;
  dr_up x y : linked t x y → y ∈ s → x ∈ s;
  dr_root : ROOT_ID ∉ s;
}.

Lemma drop_wf s t : wf t → droppable s t → wf (drop_set s t).
Proof.
  intros Hwf [Hdown Hup Hroot]. constructor.
  - destruct (wf_root _ Hwf) as (n & c & ? & ? & ?). exists n, c. by rewrite drop_node_Some.
  - intros p name x [Hl Hp]%drop_link. destruct (wf_down _ Hwf _ _ _ Hl) as (m & ? & ? & ? & ? & ?).
    exists m. rewrite drop_node_Some. split_and!; try done; [|set_solver].
    intros Hx. apply Hp. eapply Hup; [by eexists|done].
  - intros x m [Hm Hx]%drop_node_Some Hne Hd. apply drop_link.
    assert (link t (n_parent m) (n_name m) x) as Hl by (apply (wf_up _ Hwf); set_solver).
    split; [done|]. intros Hp. apply Hx. eapply Hdown; [by eexists|done].
  - intros x [Hx Hs]%elem_of_difference. apply (wf_detached _ Hwf) in Hx as [? ?]. by rewrite drop_is_node.
  - intros x [Hx _]%drop_is_node. apply (grounded_mono t); [|by apply (wf_grounded _ Hwf)].
    intros y m [? _]%drop_node_Some. eauto.
  - intros x m [Hm _]%drop_node_Some. by apply (wf_ids _ Hwf) in Hm.
  - apply drop_qids_ok. exact (wf_qids _ Hwf).
  - intros x k [Hx Hs]%map_lookup_filter_Some. apply (wf_refs _ Hwf) in Hx as [? ?]. by rewrite drop_is_node.
  - intros x [k [Hx Hs]%map_lookup_filter_Some]. rewrite drop_is_node. split; [|done]. apply (wf_intakes _ Hwf). eauto.
  - intros x [k [Hx Hs]%map_lookup_filter_Some]. rewrite drop_is_node. split; [|done]. apply (wf_renames _ Hwf). eauto.
Qed.

(** The trees under some of the detached roots. *)
Lemma detached_droppable s t (P : Z → Prop) : wf t →
  (∀ x, x ∈ s ↔ ∃ d, d ∈ detached_roots t ∧ P d ∧ below t d x) → droppable s t.
Proof.
  intros Hwf Hs. constructor.
  - intros x y Hxy (d & ? & ? & ?)%Hs. apply Hs. exists d. split_and!; [done..|]. by eapply rtc_r.
  - intros x y Hxy (d & Hd & ? & Hb)%Hs. apply Hs. exists d. split_and!; [done..|].
    apply rtc_inv_r in Hb as [->|(x' & Hb & Hx'y)].
    + by apply (top_unlinked t Hwf x y) in Hxy; [|right].
    + by rewrite (linked_unique t Hwf x x' y).
  - intros (d & Hd & _ & Hb)%Hs. apply (top_below t Hwf) in Hb as ->; [|by left].
    by apply (wf_detached _ Hwf) in Hd as [_ ?].
Qed.

Lemma drop_below_outside s t a x : droppable s t → a ∉ s → below t a x → below (drop_set s t) a x.
Proof.
  intros Hdr Ha Hb. revert Ha. induction Hb as [|y z w Hyz Hzw IH]; intros Ha; [constructor|].
  econstructor; [by apply drop_linked|]. apply IH. intros Hz. apply Ha. by eapply (dr_up _ _ Hdr).
Qed.

Lemma subtree_detached s t x : wf t → x ∈ detached_roots t → is_subtree s t x → droppable s t.
Proof.
  intros Hwf Hx Hs. apply (detached_droppable s t (λ d, d = x)); [done|]. intros y. rewrite (Hs y). split.
  - intros [_ Hb]. by exists x.
  - intros (d & _ & -> & Hb). split; [|done]. eapply below_node; [done| |done]. by apply (wf_detached _ Hwf).
Qed.

(** Without references below, no reference is dropped. *)
Lemma drop_references s t : (∀ x, x ∈ s → fid_references t !! x = None) → fid_references (drop_set s t) = fid_references t.
Proof.
  intros Hs. apply map_eq. intros x. simpl. rewrite lookup_filter_key. case_decide as Hx; [|done]. by rewrite Hs.
Qed.

(** *** Collecting *)

Lemma collect_loop t ds : wf t → NoDup ds → (∀ d, d ∈ ds → d ∈ detached_roots t) →
  ∃ s, foldl (λ t d, remove_node_recursive d (set_detached_roots (detached_roots t ∖ {[d]}) t)) t ds = drop_set s t ∧
       ∀ x, x ∈ s ↔ ∃ d, d ∈ ds ∧ below t d x.
Proof.
  revert t. induction ds as [|d ds IH]; intros t Hwf Hnd Hds; simpl.
  { exists ∅. split; [by rewrite drop_empty|]. set_solver. }
  apply NoDup_cons in Hnd as [Hd Hnd].
  assert (d ∈ detached_roots t) as Hdt by set_solver. destruct (wf_detached _ Hwf _ Hdt) as [[n Hn] _].
  rewrite (remove_node_detached _ _ _ n Hn) by set_solver.
  destruct (remove_node_drop t d (wf_qids _ Hwf)) as (s1 & -> & Hs1).
  pose proof (subtree_detached _ _ _ Hwf Hdt Hs1) as Hdr. pose proof (drop_wf _ _ Hwf Hdr) as Hwf1.
  assert (∀ d', d' ∈ ds → d' ∉ s1) as Hout.
  { intros d' Hd' [_ Hb]%Hs1. assert (d = d') by (apply (top_below t Hwf); [right; set_solver|done]). set_solver. }
  destruct (IH (drop_set s1 t)) as (s2 & -> & Hs2); [done..| |].
  { intros d' Hd'. simpl. apply elem_of_difference. split; [set_solver|by apply Hout]. }
  exists (s1 ∪ s2). rewrite drop_drop. split; [done|]. intros x. rewrite elem_of_union, (Hs1 x), (Hs2 x). split.
  - intros [[_ ?]|(d' & ? & ?%drop_below)]; set_solver.
  - intros (d' & [->|Hd']%elem_of_cons & Hb).
    + left. split; [|done]. by eapply below_node; [|eauto|].
    + right. exists d'. split; [done|]. apply drop_below_outside; auto.
Qed.

Lemma collect_drop t : wf t → ∃ s, collect_unreferenced_detached_subtrees t = drop_set s t ∧
  ∀ x, x ∈ s ↔ ∃ d, d ∈ detached_roots t ∧ ¬ referenced t d ∧ below t d x.
Proof.
  intros Hwf. unfold collect_unreferenced_detached_subtrees.
  destruct (collect_loop t (filter (λ id, subtree_has_fid_reference t id = false) (ordered_ids (detached_roots t))))
    as (s & -> & Hs); [done| | |].
  - apply NoDup_filter. unfold ordered_ids. rewrite merge_sort_Permutation. apply NoDup_elements.
  - intros d [_ Hd]%list_elem_of_filter. by apply elem_of_ordered_ids.
  - exists s. split; [done|]. intros x. rewrite (Hs x).
    setoid_rewrite list_elem_of_filter. setoid_rewrite elem_of_ordered_ids.
    setoid_rewrite <-not_true_iff_false. setoid_rewrite (subtree_has_fid_reference_spec t Hwf). naive_solver.
Qed.

Lemma collect_wf t : wf t → wf (collect_unreferenced_detached_subtrees t).
Proof.
  intros Hwf. destruct (collect_drop t Hwf) as (s & -> & Hs). apply drop_wf; [done|].
  by apply (detached_droppable s t (λ d, ¬ referenced t d)).
Qed.

Lemma collect_references t : wf t → fid_references (collect_unreferenced_detached_subtrees t) = fid_references t.
Proof.
  intros Hwf. destruct (collect_drop t Hwf) as (s & -> & Hs). apply drop_references.
  intros x (d & _ & Hr & Hb)%Hs. destruct (fid_references t !! x) eqn:E; [|done]. destruct Hr. exists x. by rewrite E.
Qed.

Lemma collect_collected t : wf t → collected (collect_unreferenced_detached_subtrees t).
Proof.
  intros Hwf d. pose proof (collect_references t Hwf) as Hrefs.
  destruct (collect_drop t Hwf) as (s & E & Hs). rewrite E in Hrefs |- *.
  intros [Hd Hds]%elem_of_difference.
  assert (referenced t d) as (y & Hb & Hr).
  { rewrite <-(subtree_has_fid_reference_spec t Hwf). apply not_false_iff_true. intros Hf. apply Hds, Hs. exists d.
    split_and!; [done| |constructor]. rewrite <-(subtree_has_fid_reference_spec t Hwf). by rewrite Hf. }
  exists y. rewrite Hrefs. split; [|done]. apply drop_below_outside; [|done..].
  by apply (detached_droppable s t (λ d, ¬ referenced t d)).
Qed.

(** ** A node leaves its parent *)

Definition detach (x : Z) (t : Tree) : Tree := set_detached_roots ({[x]} ∪ detached_roots t) t.

Lemma unlink_link t p name x q nm y : wf t → link t p name x →
  link (unlink_child p name t) q nm y ↔ link t q nm y ∧ y ≠ x.
Proof.
  intros Hwf Hl. unfold unlink_child. rewrite link_on_children.
  destruct (wf_down _ Hwf _ _ _ Hl) as (m & Hm & Hp & Hn & _). destruct (decide (p = q)) as [<-|Hq].
  - split.
    + intros (n & c & Hpn & Hc & [Hne Hy]%lookup_delete_Some). split; [by exists n, c|]. intros ->.
      assert (link t p nm x) as Hl' by (by exists n, c). apply (wf_down _ Hwf) in Hl' as (m' & ? & _ & ? & _).
      apply Hne. congruence.
    + intros [(n & c & Hpn & Hc & Hy) Hyx]. exists n, c. split_and!; [done..|]. apply lookup_delete_Some. split; [|done].
      intros <-. destruct Hl as (n' & c' & ? & ? & ?). by simplify_eq.
  - split; [|by intros [? _]]. intros Hl'. split; [done|]. intros ->.
    apply (wf_down _ Hwf) in Hl' as (m' & ? & ? & _). congruence.
Qed.

Lemma detach_wf t p name x : wf t → link t p name x → wf (detach x (unlink_child p name t)).
Proof.
  intros Hwf Hl. set (t' := detach _ _).
  destruct (wf_down _ Hwf _ _ _ Hl) as (mx & Hmx & Hpx & Hnx & Hx0 & Hxd).
  assert (∀ q nm y, link t' q nm y ↔ link t q nm y ∧ y ≠ x) as Hlink by (intros; by apply unlink_link).
  assert (∀ y m', nodes t' !! y = Some m' → ∃ m, nodes t !! y = Some m ∧ place_of m = place_of m') as Hback
    by (intros y m'; apply lookup_children_node).
  assert (∀ y m, nodes t !! y = Some m → ∃ m', nodes t' !! y = Some m' ∧ place_of m' = place_of m) as Hforth
    by (intros y m'; apply lookup_children_node').
  assert (∀ y, is_Some (nodes t' !! y) ↔ is_Some (nodes t !! y)) as Hnode by (intros; apply children_node_is_Some).
  unfold place_of in *. constructor.
  - destruct (wf_root _ Hwf) as (n & c & Hn & Hc & Hp).
    exists (if decide (p = ROOT_ID) then on_children (delete name) n else n), (if decide (p = ROOT_ID) then delete name c else c).
    change (nodes t') with (nodes (on_node p (on_children (delete name)) t)). rewrite lookup_on_node, Hn.
    destruct (decide _); split_and!; try done; [by rewrite on_children_of, Hc|].
    pose proof (on_children_place (delete name) n) as E. unfold place_of in E. congruence.
  - intros q nm y [Hq Hy]%Hlink. destruct (wf_down _ Hwf _ _ _ Hq) as (m & Hm & ? & ? & ? & ?).
    destruct (Hforth _ _ Hm) as (m' & ? & ?). exists m'. split_and!; [done|congruence..|done|simpl; set_solver].
  - intros y m Hm Hy0 Hd. destruct (Hback _ _ Hm) as (m' & Hm' & ?). apply Hlink. simpl in Hd.
    replace (n_parent m) with (n_parent m') by congruence. replace (n_name m) with (n_name m') by congruence.
    split; [apply (wf_up _ Hwf); set_solver|set_solver].
  - intros y. simpl. rewrite elem_of_union, elem_of_singleton. change (alter _ _ _) with (nodes t'). rewrite (Hnode y).
    intros [->|?%(wf_detached _ Hwf)]; [by eauto|done].
  - intros y Hy%Hnode. apply (grounded_mono t); [|by apply (wf_grounded _ Hwf)].
    intros z m' (m & ? & ?)%Hback. exists m. split; [done|congruence].
  - intros y m (m' & Hm & ?)%Hback. replace (n_parent m) with (n_parent m') by congruence. by apply (wf_ids _ Hwf).
  - intros q y. change (qid_index t') with (qid_index t). rewrite (wf_qids _ Hwf q y). split; intros (m & Hm & Hq).
    + apply Hforth in Hm as (m' & ? & ?). exists m'. split; [done|congruence].
    + apply Hback in Hm as (m' & ? & ?). exists m'. split; [done|congruence].
  - intros y k ?%(wf_refs _ Hwf). by rewrite Hnode.
  - intros y ?%(wf_intakes _ Hwf). by rewrite Hnode.
  - intros y ?%(wf_renames _ Hwf). by rewrite Hnode.
Qed.

Lemma below_chain t a x l : wf t → below t a x → chain t a l → ∃ l', chain t x (l' ++ l).
Proof.
  intros Hwf Hb; revert l. induction Hb as [a|y z w Hyz Hzw IH]; intros l Hl; [by exists []|].
  destruct (IH (z :: l)) as [l' Hl']; [by eapply chain_linked|]. exists (l' ++ [z]). by rewrite <-app_assoc.
Qed.

Lemma acyclic t p x : wf t → linked t p x → ¬ below t x p.
Proof.
  intros Hwf Hpx Hxp. destruct (wf_chain t p Hwf) as (l & Hl & _).
  pose proof (chain_linked t Hwf _ _ _ Hpx Hl) as Hlx.
  destruct (below_chain _ _ _ _ Hwf Hxp Hlx) as [l' Hl']. pose proof (chain_det _ _ _ _ Hl Hl') as E.
  apply (f_equal length) in E. rewrite length_app in E. simpl in E. lia.
Qed.

Lemma unlink_below_out t p name x a y : wf t → link t p name x → ¬ below t a x →
  below t a y → below (unlink_child p name t) a y.
Proof.
  intros Hwf Hl Hno. revert y. refine (rtc_ind_r _ a _ _); [constructor|].
  intros y z Hay [nm Hyz] IH. eapply rtc_r; [done|]. exists nm. apply (unlink_link t p name x); [done..|]. split; [done|].
  intros ->. apply Hno. eapply rtc_r; [done|]. by eexists.
Qed.

Lemma unlink_below t p name x a y : wf t → link t p name x → below (unlink_child p name t) a y → below t a y.
Proof.
  intros Hwf Hl. induction 1 as [|b c d [nm Hbc] Hcd IH]; [constructor|].
  apply (unlink_link t p name x) in Hbc as [Hbc _]; [|done..]. econstructor; [|done]. by exists nm.
Qed.

Lemma unlink_below_in t p name x y : wf t → link t p name x → below (unlink_child p name t) x y ↔ below t x y.
Proof.
  intros Hwf Hl. split.
  - by eapply unlink_below.
  - revert y. refine (rtc_ind_r _ x _ _); [constructor|]. intros y z Hxy [nm Hyz] IH. eapply rtc_r; [done|].
    exists nm. apply (unlink_link t p name x); [done..|]. split; [done|]. intros ->.
    by apply (acyclic t y x Hwf); [eexists|].
Qed.

Lemma has_reference_detached fuel t d x : has_reference fuel (set_detached_roots d t) x = has_reference fuel t x.
Proof.
  revert x. induction fuel as [|fuel IH]; intros x; [done|]. cbn [has_reference].
  change (fid_references (set_detached_roots d t)) with (fid_references t).
  change (nodes (set_detached_roots d t)) with (nodes t). case_bool_decide; [done|].
  destruct (nodes t !! x) as [n|]; [|done]. destruct (children_of n) as [c|]; [|done].
  induction (ordered c).*2 as [|y l IHl]; [done|]. simpl. by rewrite IH, IHl.
Qed.

(** A linked node is taken from its parent: it stays with all below it if a fid
    refers there, and goes with all below it otherwise. *)
Lemma retire_spec t p name x : wf t → link t p name x →
  let t1 := detach x (unlink_child p name t) in
  let t' := retire_detached_subtree x (unlink_child p name t) in
  (referenced t x ∧ t' = t1) ∨
  (¬ referenced t x ∧ ∃ s, t' = drop_set s t1 ∧ droppable s t1 ∧ ∀ y, y ∈ s ↔ below t x y).
Proof.
  intros Hwf Hl t1 t'. pose proof (detach_wf _ _ _ _ Hwf Hl) as Hwf1. fold t1 in Hwf1.
  assert (subtree_has_fid_reference (unlink_child p name t) x = true ↔ referenced t x) as Hr.
  { assert (subtree_has_fid_reference (unlink_child p name t) x = subtree_has_fid_reference t1 x) as ->
      by (symmetry; apply has_reference_detached).
    rewrite (subtree_has_fid_reference_spec t1 Hwf1). unfold referenced.
    setoid_rewrite <-(unlink_below_in t p name x _ Hwf Hl). done. }
  unfold t', retire_detached_subtree.
  destruct (subtree_has_fid_reference (unlink_child p name t) x) eqn:E; [by left; split; [by apply Hr|]|].
  right. split; [by rewrite <-Hr|].
  destruct (wf_down _ Hwf _ _ _ Hl) as (mx & Hmx & _).
  destruct (lookup_children_node' t p (delete name) x mx Hmx) as (n & Hn & _).
  rewrite <-(remove_node_detached (unlink_child p name t) x ({[x]} ∪ detached_roots (unlink_child p name t)) n Hn) by set_solver.
  fold (detach x (unlink_child p name t)). fold t1.
  destruct (remove_node_drop t1 x (wf_qids _ Hwf1)) as (s & -> & Hs).
  assert (x ∈ detached_roots t1) as Hx1 by (simpl; set_solver).
  exists s. split_and!; [done|by eapply subtree_detached|]. intros y. rewrite (Hs y).
  change (below t1) with (below (unlink_child p name t)). rewrite (unlink_below_in t p name x y Hwf Hl).
  split; [by intros [_ ?]|]. intros Hb. split; [|done]. apply children_node_is_Some. by eapply below_node; [|eauto|].
Qed.

Section retire.
Context (t : Tree) (p : Z) (name : bytes) (x : Z).
Context (Hwf : wf t) (Hl : link t p name x) (Hatt : below t ROOT_ID x).

Abbreviation t' := (retire_detached_subtree x (unlink_child p name t)).

Lemma retire_wf : wf t'.
Proof using Hwf Hl.
  pose proof (detach_wf _ _ _ _ Hwf Hl) as Hwf1.
  destruct (retire_spec _ _ _ _ Hwf Hl) as [[_ ->]|(_ & s & -> & Hdr & _)]; [done|by apply drop_wf].
Qed.

Lemma retire_references : fid_references t' = fid_references t.
Proof using Hwf Hl.
  destruct (retire_spec _ _ _ _ Hwf Hl) as [[_ ->]|(Hr & s & -> & Hdr & Hs)]; [done|]. rewrite drop_references; [done|].
  intros y Hy%Hs. simpl. destruct (fid_references t !! y) eqn:E; [|done]. destruct Hr. exists y. by rewrite E.
Qed.

Lemma detached_elsewhere d : d ∈ detached_roots t → ¬ below t d x.
Proof using Hwf Hatt.
  intros Hd Hb. assert (ROOT_ID = d) as <- by (eapply top_unique; [done|by left|by right|done..]).
  by apply (wf_detached _ Hwf) in Hd as [_ ?].
Qed.

Lemma retire_collected : collected t → collected t'.
Proof using Hwf Hl Hatt.
  intros Hc. pose proof retire_references as Hrefs.
  destruct (retire_spec _ _ _ _ Hwf Hl) as [[Hr E]|(Hr & s & E & Hdr & Hs)]; rewrite E in Hrefs |- *; intros d Hd.
  - apply elem_of_union in Hd as [->%elem_of_singleton|Hd].
    + destruct Hr as (y & Hb & Hy). exists y. split; [|done]. by apply (unlink_below_in t p name).
    + destruct (Hc d Hd) as (y & Hb & Hy). exists y. split; [|done].
      apply (unlink_below_out t p name x); [done..|by apply detached_elsewhere|done].
  - apply elem_of_difference in Hd as [[->%elem_of_singleton|Hd]%elem_of_union Hds].
    + destruct Hds. apply Hs. constructor.
    + destruct (Hc d Hd) as (y & Hb & Hy). exists y. rewrite Hrefs. split; [|done]. apply drop_below_outside; [done..|].
      apply (unlink_below_out t p name x); [done..|by apply detached_elsewhere|done].
Qed.

(** What is not below the node stays where it is. *)
Lemma retire_keeps y : ¬ below t x y → place_of <$> nodes t' !! y = place_of <$> nodes t !! y.
Proof using Hwf Hl.
  intros Hy. assert (∀ u, place_of <$> nodes (detach x (unlink_child p name t)) !! u = place_of <$> nodes t !! u) as Hp.
  { intros u. change (nodes (detach x (unlink_child p name t))) with (nodes (on_node p (on_children (delete name)) t)).
    rewrite lookup_on_node. destruct (nodes t !! u); [|done]. simpl. destruct (decide _); [|done].
    f_equal. apply on_children_place. }
  destruct (retire_spec _ _ _ _ Hwf Hl) as [[_ ->]|(_ & s & -> & _ & Hs)]; [apply Hp|].
  rewrite drop_node, decide_False; [apply Hp|]. by rewrite (Hs y).
Qed.

Lemma retire_link q nm y : ¬ below t x q → link t' q nm y ↔ link t q nm y ∧ y ≠ x.
Proof using Hwf Hl.
  intros Hq. assert (link (detach x (unlink_child p name t)) q nm y ↔ link t q nm y ∧ y ≠ x) as H
    by (apply (unlink_link t p name x q nm y Hwf Hl)).
  destruct (retire_spec _ _ _ _ Hwf Hl) as [[_ ->]|(_ & s & -> & _ & Hs)]; [done|].
  rewrite drop_link, H, (Hs q). naive_solver.
Qed.

(** What stays attached is what was and is not below the node. *)
Lemma retire_attached y : below t' ROOT_ID y ↔ below t ROOT_ID y ∧ ¬ below t x y.
Proof using Hwf Hl Hatt.
  assert (¬ below t x ROOT_ID) as Hx0.
  { intros Hb. apply (top_below t Hwf) in Hb as ->; [|by left]. apply (top_unlinked t Hwf p ROOT_ID); [by left|by eexists]. }
  split.
  - revert y. refine (rtc_ind_r _ ROOT_ID _ _); [by split; [constructor|]|].
    intros y z _ [nm Hyz] [Hy Hny]. apply retire_link in Hyz as [Hyz Hzx]; [|done]. split.
    + eapply rtc_r; [done|]. by exists nm.
    + intros Hxz. apply rtc_inv_r in Hxz as [->|(y' & Hxy & Hyz')]; [done|].
      rewrite (linked_unique t Hwf y' y z) in Hxy; [done|done|by exists nm].
  - intros [Hy Hz]. revert y Hy Hz. refine (rtc_ind_r _ ROOT_ID _ _); [constructor|].
    intros y z Hy [nm Hyz] IH Hz. assert (¬ below t x y) as Hny.
    { intros Hb. apply Hz. eapply rtc_r; [done|]. by exists nm. }
    eapply rtc_r; [by apply IH|]. exists nm. apply retire_link; [done|]. split; [done|]. intros ->. apply Hz. constructor.
Qed.

End retire.

(** Every operation of [FrontModel.Tree] keeps the tree well-formed and the
    detached subtrees collected, on its error paths too. *)

(** ** A detached node moves back into the tree *)

Section move.
Context (t : Tree) (x parent : Z) (name : bytes) (n pn : Node) (c : gmap bytes Z) (d0 : Z).
Context (Hwf : wf t) (Hx : nodes t !! x = Some n) (Hd0 : d0 ∈ detached_roots t) (Hdx : below t d0 x).
Context (Hpar : below t ROOT_ID parent) (Hpn : nodes t !! parent = Some pn) (Hc : children_of pn = Some c)
  (Hfree : c !! name = None).

Definition moved : Tree :=
  set_detached_roots (detached_roots t ∖ {[x]}) (move_node x parent name n t).

Lemma attached_not_moving y : below t ROOT_ID y → y ≠ x.
Proof using Hwf Hd0 Hdx.
  intros Hy ->. assert (ROOT_ID = d0) as <- by (eapply top_unique; [done|by left|by right|done..]).
  by apply (wf_detached _ Hwf) in Hd0 as [_ ?].
Qed.

Lemma parent_not_moving : parent ≠ x.
Proof using Hwf Hd0 Hdx Hpar. by apply attached_not_moving. Qed.

Lemma root_not_moving : x ≠ ROOT_ID.
Proof using Hwf Hd0 Hdx. apply not_eq_sym, attached_not_moving. constructor. Qed.

Definition left_parent : Tree :=
  on_node (n_parent n) (on_children (λ c, if bool_decide (c !! n_name n = Some x) then delete (n_name n) c else c)) t.

Lemma left_link q nm y : link left_parent q nm y ↔ link t q nm y ∧ y ≠ x.
Proof using Hwf Hx.
  unfold left_parent. rewrite link_on_children. split.
  - intros H. assert (link t q nm y) as Hl.
    { destruct (decide _) as [<-|]; [|done]. destruct H as (m & c' & ? & ? & Hy). exists m, c'. split_and!; [done..|].
      case_bool_decide; [|done]. by apply lookup_delete_Some in Hy as [_ ?]. }
    split; [done|]. intros ->. destruct (wf_down _ Hwf _ _ _ Hl) as (m & Hm & Hq & Hnm & _). simplify_eq.
    rewrite decide_True in H by done. destruct H as (m' & c' & Hm' & Hc' & Hy).
    destruct Hl as (m2 & c2 & ? & ? & ?). simplify_eq. rewrite bool_decide_true in Hy by done.
    by rewrite lookup_delete_eq in Hy.
  - intros [Hl Hyx]. destruct (decide _) as [<-|]; [|done]. destruct Hl as (m & c' & ? & ? & Hy).
    exists m, c'. split_and!; [done..|]. case_bool_decide; [|done]. apply lookup_delete_Some. split; [|done].
    intros <-. congruence.
Qed.

Lemma moved_node y : nodes moved !! y =
  (λ m, let m := if decide (n_parent n = y) then
                   on_children (λ c, if bool_decide (c !! n_name n = Some x) then delete (n_name n) c else c) m else m in
        let m := if decide (x = y) then set_parent_name parent name m else m in
        if decide (parent = y) then on_children (<[name := x]>) m else m) <$> nodes t !! y.
Proof using.
  unfold moved, move_node. cbn [set_detached_roots nodes]. unfold link_child. rewrite !lookup_on_node.
  destruct (nodes t !! y); [|done]. simpl. by repeat destruct (decide _).
Qed.

Lemma moved_place y m : nodes t !! y = Some m → ∃ m', nodes moved !! y = Some m' ∧
  place_of m' = if decide (y = x) then (parent, name, n_qid_path n) else place_of m.
Proof using Hx Hwf Hd0 Hdx Hpar.
  intros Hm. rewrite moved_node, Hm. eexists. split; [done|]. cbn zeta. pose proof parent_not_moving as Hne.
  destruct (decide (y = x)) as [->|Hy].
  - simplify_eq. rewrite (decide_True (P := x = x)) by done. rewrite (decide_False (P := parent = x)) by done.
    case_decide; [|done]. unfold place_of. simpl.
    by pose proof (on_children_place (λ c, if bool_decide (c !! n_name n = Some x) then delete (n_name n) c else c) n) as [= _ _ ->].
  - rewrite (decide_False (P := x = y)) by done. repeat case_decide; by rewrite ?on_children_place.
Qed.

Lemma moved_back y m' : nodes moved !! y = Some m' → ∃ m, nodes t !! y = Some m ∧
  place_of m' = if decide (y = x) then (parent, name, n_qid_path n) else place_of m.
Proof using Hx Hwf Hd0 Hdx Hpar.
  intros Hm'. destruct (nodes t !! y) as [m|] eqn:Hm; [|by rewrite moved_node, Hm in Hm'].
  exists m. split; [done|]. destruct (moved_place y m Hm) as (m2 & ? & ?). congruence.
Qed.

Lemma moved_is_node y : is_Some (nodes moved !! y) ↔ is_Some (nodes t !! y).
Proof using. by rewrite moved_node, fmap_is_Some. Qed.

Lemma renamed_link t0 q nm y : link (on_node x (set_parent_name parent name) t0) q nm y ↔ link t0 q nm y.
Proof using.
  unfold link. setoid_rewrite lookup_on_node. split; intros (m & c' & Hm & Hc' & Hy).
  - apply fmap_Some in Hm as (m0 & Hm & ->). exists m0, c'. split_and!; [done| |done]. by destruct (decide _).
  - exists ((if decide (x = q) then set_parent_name parent name else id) m), c'. rewrite Hm. split_and!; [done| |done].
    by destruct (decide _).
Qed.

Lemma moved_link q nm y : link moved q nm y ↔ (link t q nm y ∧ y ≠ x) ∨ (q = parent ∧ nm = name ∧ y = x).
Proof using Hwf Hx Hd0 Hdx Hpar Hpn Hc Hfree.
  change (link moved q nm y) with (link (link_child parent name x (on_node x (set_parent_name parent name) left_parent)) q nm y).
  unfold link_child. rewrite link_on_children. destruct (decide (parent = q)) as [<-|Hq].
  - transitivity ((nm = name ∧ y = x) ∨ (nm ≠ name ∧ link (on_node x (set_parent_name parent name) left_parent) parent nm y)).
    + split.
      * intros (m & c' & Hm & Hc' & [[<- <-]|[? Hy]]%lookup_insert_Some); [by left|]. right. split; [done|]. by exists m, c'.
      * intros [[-> ->]|[Hne (m & c' & Hm & Hc' & Hy)]].
        -- assert (∃ m c', nodes (on_node x (set_parent_name parent name) left_parent) !! parent = Some m ∧ children_of m = Some c')
             as (m & c' & ? & ?).
           { unfold left_parent. rewrite lookup_on_node, decide_False by apply not_eq_sym, parent_not_moving.
             rewrite lookup_on_node, Hpn. simpl. destruct (decide _); unfold id; eexists _, _; (split; [done|]);
               [by rewrite on_children_of, Hc|done]. }
           exists m, c'. by rewrite lookup_insert_eq.
        -- exists m, c'. by rewrite lookup_insert_ne.
    + rewrite renamed_link, left_link. split; [naive_solver|]. intros [[Hl ?]|(_ & -> & ->)]; [|by left].
      right. split; [|done]. intros ->. destruct Hl as (m & c' & ? & ? & ?). by simplify_eq.
  - rewrite renamed_link, left_link. split; [by left|]. intros [?|(? & _)]; [done|congruence].
Qed.

Lemma moved_grounded_attached y : below t ROOT_ID y → grounded moved y.
Proof using Hwf Hx Hd0 Hdx Hpar.
  revert y. refine (rtc_ind_r _ ROOT_ID _ _); [constructor|]. intros y z Hy Hyz IH.
  destruct (linked_parent t Hwf _ _ Hyz) as (m & Hm & Hp). destruct (moved_place _ _ Hm) as (m' & Hm' & Hs).
  rewrite decide_False in Hs by (apply attached_not_moving; by eapply rtc_r).
  econstructor 3; [done|]. unfold place_of in Hs. replace (n_parent m') with y by congruence. done.
Qed.

Lemma moved_grounded y : grounded t y → grounded moved y.
Proof using Hwf Hx Hd0 Hdx Hpar.
  induction 1 as [|y Hy|y m Hm Hg IH]; [constructor| |].
  - constructor 2. by rewrite moved_node, Hy.
  - destruct (moved_place _ _ Hm) as (m' & Hm' & Hs). econstructor 3; [done|]. unfold place_of in Hs.
    destruct (decide (y = x)) as [->|Hne].
    + replace (n_parent m') with parent by congruence. by apply moved_grounded_attached.
    + by replace (n_parent m') with (n_parent m) by congruence.
Qed.

Lemma move_wf : wf moved.
Proof using Hwf Hx Hd0 Hdx Hpar Hpn Hc Hfree.
  pose proof parent_not_moving as Hpx. pose proof root_not_moving as Hx0. constructor.
  - destruct (wf_root _ Hwf) as (rn & rc & Hrn & Hrc & Hrp). destruct (moved_place _ _ Hrn) as (m' & Hm' & Hs).
    rewrite decide_False in Hs by done. unfold place_of in Hs.
    assert (is_Some (children_of m')) as [c' Hc'].
    { rewrite moved_node, Hrn in Hm'. injection Hm' as <-. rewrite (decide_False (P := x = ROOT_ID)) by done.
      repeat destruct (decide _); rewrite ?on_children_of, Hrc; by eexists. }
    exists m', c'. split_and!; [done..|congruence].
  - intros q nm y [[Hl Hy]|(-> & -> & ->)]%moved_link.
    + destruct (wf_down _ Hwf _ _ _ Hl) as (m & Hm & ? & ? & ? & ?). destruct (moved_place _ _ Hm) as (m' & ? & Hs).
      rewrite decide_False in Hs by done. unfold place_of in Hs. exists m'. split_and!; [done|congruence..|done|].
      simpl. set_solver.
    + destruct (moved_place _ _ Hx) as (m' & ? & Hs). rewrite decide_True in Hs by done. unfold place_of in Hs.
      exists m'. split_and!; [done|congruence..|done|]. simpl. set_solver.
  - intros y m' Hm' Hy0 Hd. apply moved_link. destruct (moved_back _ _ Hm') as (m & Hm & Hs). unfold place_of in Hs.
    destruct (decide (y = x)) as [->|Hy]; [right; split_and!; [congruence..|done]|]. left. split; [|done].
    replace (n_parent m') with (n_parent m) by congruence. replace (n_name m') with (n_name m) by congruence.
    apply (wf_up _ Hwf); [done..|]. simpl in Hd. set_solver.
  - intros y [Hy _]%elem_of_difference. rewrite moved_is_node. by apply (wf_detached _ Hwf).
  - intros y Hy%moved_is_node. by apply moved_grounded, (wf_grounded _ Hwf).
  - intros y m' (m & Hm & Hs)%moved_back. unfold place_of in Hs. change (next_id moved) with (next_id t).
    pose proof (wf_ids _ Hwf _ _ Hm). pose proof (wf_ids _ Hwf _ _ Hpn).
    destruct (decide (y = x)); [replace (n_parent m') with parent by congruence|
      replace (n_parent m') with (n_parent m) by congruence]; lia.
  - intros q y. change (qid_index moved) with (qid_index t). rewrite (wf_qids _ Hwf q y). split; intros (m & Hm & Hq).
    + destruct (moved_place _ _ Hm) as (m' & ? & Hs). unfold place_of in Hs. exists m'. split; [done|].
      destruct (decide _) as [->|]; simplify_eq; congruence.
    + destruct (moved_back _ _ Hm) as (m' & ? & Hs). unfold place_of in Hs. exists m'. split; [done|].
      destruct (decide _) as [->|]; simplify_eq; congruence.
  - intros y k ?%(wf_refs _ Hwf). by rewrite moved_is_node.
  - intros y ?%(wf_intakes _ Hwf). by rewrite moved_is_node.
  - intros y ?%(wf_renames _ Hwf). by rewrite moved_is_node.
Qed.

Lemma moved_attached y : below t ROOT_ID y → below moved ROOT_ID y.
Proof using Hwf Hx Hd0 Hdx Hpar Hpn Hc Hfree.
  revert y. refine (rtc_ind_r _ ROOT_ID _ _); [constructor|]. intros y z Hy [nm Hyz] IH. eapply rtc_r; [done|].
  exists nm. apply moved_link. left. split; [done|]. apply attached_not_moving. eapply rtc_r; [done|]. by exists nm.
Qed.

Lemma moved_attached_self : below moved ROOT_ID x.
Proof using Hwf Hx Hd0 Hdx Hpar Hpn Hc Hfree.
  eapply rtc_r; [by apply moved_attached|]. exists name. apply moved_link. by right.
Qed.

End move.

(** ** What an operation that adds to the tree keeps *)

Definition Inv (t : Tree) : Prop := wf t ∧ collected t.

Record grows (t t' : Tree) : Prop := grows_mk {
  grows_inv : Inv t';
  grows_refs : fid_references t' = fid_references t;
  grows_attached x : below t ROOT_ID x → below t' ROOT_ID x;
}.

Lemma grows_refl t : Inv t → grows t t.
Proof. by constructor. Qed.

Lemma grows_trans t1 t2 t3 : grows t1 t2 → grows t2 t3 → grows t1 t3.
Proof. intros [] []. constructor; [done|congruence|auto]. Qed.

(** [m], from a well-formed tree that satisfies [P], keeps the invariant on every
    path and ends with [Q] when it succeeds. *)
Definition keeps {A} (P : Tree → Prop) (m : M Tree A) (Q : A → Tree → Prop) : Prop :=
  ∀ t, Inv t → P t → grows t (m t).2 ∧ ∀ a, (m t).1 = Ok a → Q a (m t).2.

Lemma tree_keeps_bind {A B} P (m : M Tree A) (k : A → M Tree B) Q R :
  keeps P m Q → (∀ a, keeps (Q a) (k a) R) → keeps P (m ≫= k) R.
Proof.
  intros Hm Hk t Hi HP. destruct (Hm t Hi HP) as [Hg HQ]. unfold mbind, M_bind. destruct (m t) as [[a|e] t1]; simpl in *.
  - destruct (Hk a t1) as [Hg' HR]; [apply Hg|by apply HQ|]. split; [by eapply grows_trans|done].
  - split; [done|]. by intros.
Qed.

Lemma keeps_ret {A} (P : Tree → Prop) (a : A) : keeps P (mret a) (λ a' t, a' = a ∧ P t).
Proof. intros t Hi HP. split; [by apply grows_refl|]. by intros ? [= ->]. Qed.

Lemma keeps_throw {A} P e (Q : A → Tree → Prop) : keeps P (throw e) Q.
Proof. intros t Hi HP. split; [by apply grows_refl|]. by intros. Qed.

Lemma tree_keeps_lift {A} (P : Tree → Prop) (r : Result A) : keeps P (lift r) (λ a t, r = Ok a ∧ P t).
Proof. intros t Hi HP. split; [by apply grows_refl|]. intros a Ha. by split. Qed.

Lemma keeps_query {A} (P : Tree → Prop) (f : Tree → Result A) : keeps P (query f) (λ a t, f t = Ok a ∧ P t).
Proof. intros t Hi HP. split; [by apply grows_refl|]. intros a Ha. by split. Qed.

Lemma keeps_gets {A} (P : Tree → Prop) (f : Tree → A) : keeps P (gets f) (λ a t, a = f t ∧ P t).
Proof. intros t Hi HP. split; [by apply grows_refl|]. intros a [= <-]. by split. Qed.

Lemma keeps_modify P f (Q : unit → Tree → Prop) : (∀ t, Inv t → P t → grows t (f t) ∧ Q () (f t)) → keeps P (modify f) Q.
Proof. intros Hf t Hi HP. destruct (Hf t Hi HP). split; [done|]. by intros [] _. Qed.

Lemma keeps_weaken {A} (P P' : Tree → Prop) (m : M Tree A) (Q Q' : A → Tree → Prop) :
  keeps P m Q → (∀ t, Inv t → P' t → P t) → (∀ a t, Q a t → Q' a t) → keeps P' m Q'.
Proof. intros Hm HP HQ t Hi H. destruct (Hm t Hi); [by apply HP|]. split; [done|]. eauto. Qed.

Lemma keeps_pure {A} (P : Tree → Prop) (F : Prop) (m : M Tree A) Q : (F → keeps P m Q) → keeps (λ t, F ∧ P t) m Q.
Proof. intros Hm t Hi [HF HP]. by apply Hm. Qed.

Create HintDb keeps.
#[export] Hint Resolve keeps_throw : keeps.

(** *** Changes of contents *)

Lemma same_below t t' a x : (∀ p nm y, link t p nm y → link t' p nm y) → below t a x → below t' a x.
Proof. intros Hl. induction 1 as [|y z w [nm Hyz] Hzw IH]; [constructor|]. econstructor; [|done]. exists nm. by apply Hl. Qed.

Lemma on_node_grows t x f : Inv t → (∀ n, nodes t !! x = Some n → shape (f n) = shape n) → grows t (on_node x f t).
Proof.
  intros [Hwf Hc] Hf. pose proof (on_node_alike t x f Hf) as Ha. constructor; [|done|].
  - split; [by apply on_node_wf|]. by apply (collected_alike t).
  - intros y. by apply alike_below.
Qed.

Lemma on_node_link t x f q nm y : (∀ n, children_of (f n) = children_of n) →
  link (on_node x f t) q nm y ↔ link t q nm y.
Proof.
  intros Hf. unfold link. setoid_rewrite lookup_on_node. split; intros (m & c' & Hm & Hc' & Hy).
  - apply fmap_Some in Hm as (m0 & Hm & ->). exists m0, c'. split_and!; [done| |done].
    destruct (decide _); [by rewrite Hf in Hc'|done].
  - exists ((if decide (x = q) then f else id) m), c'. rewrite Hm. split_and!; [done| |done].
    destruct (decide _); [by rewrite Hf|done].
Qed.

Lemma replace_qid_path_keeps x q : keeps (λ _, True) (replace_qid_path x q) (λ _ _, True).
Proof.
  eapply tree_keeps_bind; [apply keeps_gets|]. intros index. simpl.
  destruct (Z.eqb_spec (default x (index !! q)) x) as [Hi|]; simpl; [|apply keeps_throw].
  eapply tree_keeps_bind; [apply keeps_query|]. intros n. simpl.
  destruct (Z.eqb_spec (n_qid_path n) q) as [Hq|Hq].
  { eapply keeps_weaken; [apply keeps_ret with (P := λ _, True)|done..]. }
  intros t [Hwf Hc] (Hn & -> & _). apply ok_or_Ok in Hn. split; [|by intros].
  set (t' := on_node x (set_qid_path q) (set_qid_index (<[q := x]> (delete (n_qid_path n) (qid_index t))) t)).
  change (grows t t').
  assert (∀ p nm y, link t' p nm y ↔ link t p nm y) as Hl
    by (intros; unfold t'; by rewrite on_node_link).
  constructor; [split|done|].
  - apply requid_wf; [done..|]. intros y Hy. by rewrite Hy in Hi.
  - intros d (y & Hb & Hr)%Hc. exists y. split; [|done]. apply (same_below t); [|done]. intros. by apply Hl.
  - intros y. apply same_below. intros. by apply Hl.
Qed.

Lemma apply_pushed_metadata_keeps x m : keeps (λ _, True) (apply_pushed_metadata x m) (λ _ _, True).
Proof.
  eapply tree_keeps_bind; [apply replace_qid_path_keeps|]. intros []. apply keeps_modify. intros t Hi _. split; [|done].
  apply on_node_grows; [done|]. by intros n _.
Qed.

(** *** Insertion *)

Lemma add_node_grows t n : Inv t → room t n → grows t (inserted t n).
Proof.
  intros [Hwf Hc] Hr. constructor; [split| |].
  - by apply insert_node_wf.
  - by apply insert_node_collected.
  - done.
  - intros x. by apply inserted_below.
Qed.

Lemma add_node_run t n : add_node n t = (Ok (next_id t), inserted t n).
Proof. done. Qed.

(** [x] is a node of the tree and, if [att], one that hangs from the root. *)
Definition anchor (att : bool) (x : Z) (t : Tree) : Prop := att = true → below t ROOT_ID x.

Lemma anchor_grows att x t t' : grows t t' → anchor att x t → anchor att x t'.
Proof. intros Hg Ha Hatt. by apply (grows_attached _ _ Hg), Ha. Qed.

Lemma add_node_keeps att n : keeps (λ t, room t n ∧ anchor att (n_parent n) t) (add_node n) (λ x t, anchor att x t).
Proof.
  intros t Hi [Hr Ha]. rewrite add_node_run. split; [by apply add_node_grows|]. intros x [= <-] Hatt.
  apply inserted_attached; [apply Hi|done|by apply Ha].
Qed.

(** What [child_of] finds. *)
Definition finds (p : Z) (name : bytes) (r : option Z) (t : Tree) : Prop :=
  ∃ pn c, nodes t !! p = Some pn ∧ children_of pn = Some c ∧ c !! name = r.

Lemma child_of_keeps P p name : keeps P (child_of p name) (λ r t, finds p name r t ∧ P t).
Proof.
  intros t Hi HP. unfold child_of, query, node, mbind, M_bind. destruct (nodes t !! p) as [pn|] eqn:Hp; simpl.
  - destruct (children_of pn) as [c|] eqn:Hc; (split; [by apply grows_refl|]); [|by intros].
    intros r [= <-]. split; [|done]. by exists pn, c.
  - split; [by apply grows_refl|]. by intros.
Qed.

Lemma finds_link p name x t : finds p name (Some x) t ↔ link t p name x.
Proof. unfold finds, link. naive_solver. Qed.

Lemma next_qid_free fuel index q q' : next_qid_loop fuel index q = Ok q' → index !! q' = None.
Proof.
  revert q. induction fuel as [|fuel IH]; intros q; simpl; [done|]. case_bool_decide as Hq.
  - destruct (checked_add _ _ _); [simpl|done]. apply IH.
  - intros [= <-]. destruct (index !! q); [|done]. by destruct Hq.
Qed.

Lemma next_available_free t start q : next_available_qid_path t start = Ok q → qid_index t !! q = None.
Proof. apply next_qid_free. Qed.

Lemma plain_room t name p q body : finds p name None t → qid_index t !! q = None →
  (∀ d, body = Dir d → children d = ∅) → room t (plain_node name p q body).
Proof.
  intros (pn & c & ? & ? & ?) Hq Hb. constructor; [by exists pn, c|done|].
  unfold no_children, children_of. simpl. destruct body; eauto. right. by rewrite (Hb d).
Qed.

Lemma add_plain_keeps att name p body : (∀ d, body = Dir d → children d = ∅) →
  keeps (λ t, finds p name None t ∧ anchor att p t)
    (id ← gets next_id; qid_path ← query (λ t, next_available_qid_path t id); add_node (plain_node name p qid_path body))
    (λ x t, anchor att x t).
Proof.
  intros Hb. eapply tree_keeps_bind; [apply keeps_gets|]. intros id. simpl. eapply tree_keeps_bind; [apply keeps_query|].
  intros q. simpl. eapply keeps_weaken; [apply (add_node_keeps att)| |done].
  intros t _ (Hq & -> & Hf & Ha). split; [|done]. apply plain_room; [done| |done]. by eapply next_available_free.
Qed.

Lemma linked_anchor att p name x t : link t p name x → anchor att p t → anchor att x t.
Proof. intros Hl Ha Hatt. eapply rtc_r; [by apply Ha|]. by exists name. Qed.

Lemma ensure_dir_keeps att p name : keeps (anchor att p) (ensure_dir p name) (λ x t, anchor att x t).
Proof.
  eapply tree_keeps_bind; [apply (child_of_keeps (anchor att p))|]. intros [x|]; simpl.
  - eapply tree_keeps_bind; [apply keeps_query|]. intros n. simpl. destruct (is_dir_body _); [|apply keeps_throw].
    eapply keeps_weaken; [apply keeps_ret with (P := λ t, link t p name x ∧ anchor att p t)| |].
    + intros t _ (_ & ?%finds_link & ?). done.
    + intros x' t (-> & Hl & Ha). by eapply linked_anchor.
  - apply add_plain_keeps. by intros d [= <-].
Qed.

Lemma ensure_dirs_keeps att p dirs : keeps (anchor att p) (ensure_dirs p dirs) (λ x t, anchor att x t).
Proof.
  revert p. induction dirs as [|dir dirs IH]; intros p; simpl.
  - eapply keeps_weaken; [apply keeps_ret with (P := anchor att p)|done|]. by intros x t [-> ?].
  - eapply tree_keeps_bind; [apply ensure_dir_keeps|]. intros x. apply IH.
Qed.

Lemma ensure_path_dir_keeps path : keeps (λ _, True) (ensure_path_dir path) (λ x t, below t ROOT_ID x).
Proof.
  eapply tree_keeps_bind; [apply tree_keeps_lift|]. intros segments. simpl.
  eapply keeps_weaken; [apply (ensure_dirs_keeps true)| |].
  - intros t _ _ _. constructor.
  - intros x t Ha. by apply Ha.
Qed.

Lemma open_place_keeps att from path :
  keeps (anchor att from) (open_place from path) (λ x t, finds x.1.1 x.1.2 x.2 t ∧ anchor att x.1.1 t).
Proof.
  eapply tree_keeps_bind; [apply tree_keeps_lift|]. intros segments. simpl. eapply tree_keeps_bind; [apply tree_keeps_lift|].
  intros [leaf dirs]. simpl. eapply tree_keeps_bind.
  { eapply keeps_weaken; [apply (ensure_dirs_keeps att)| |]; [by intros t _ (_ & _ & ?)|done]. }
  intros p. simpl. eapply tree_keeps_bind; [apply (child_of_keeps (anchor att p))|]. intros r. simpl.
  eapply keeps_weaken; [apply keeps_ret with (P := λ t, finds p leaf r t ∧ anchor att p t)|done|].
  by intros x t [-> ?].
Qed.

(** ** The placing operations *)

Definition empty_body (b : Body) : Prop := ∀ d, b = Dir d → children d = ∅.

Lemma place_keeps path body : empty_body body → keeps (λ _, True) (place path body) (λ x t, below t ROOT_ID x).
Proof.
  intros Hb. eapply tree_keeps_bind; [apply keeps_gets|]. intros capacity. simpl. eapply tree_keeps_bind.
  { eapply keeps_weaken; [apply (open_place_keeps true)| |]; [intros t _ _ _; constructor|done]. }
  intros [[p leaf] [x|]]; simpl.
  - eapply tree_keeps_bind; [apply keeps_query|]. intros n. simpl.
    assert (∀ b v, children_of n = None → children_of (set_body b n) = None → keeps
      (λ t, node t x = Ok n ∧ finds p leaf (Some x) t ∧ anchor true p t)
      (_ ← modify (on_node x (λ n, set_body b (set_version (v n) (n_generation n) n))); mret x)
      (λ x t, below t ROOT_ID x)) as Hset.
    { intros b v Hn Hn'. eapply tree_keeps_bind; [apply (keeps_modify _ _ (λ _ t, below t ROOT_ID x))|intros []].
      2:{ eapply keeps_weaken; [apply keeps_ret with (P := λ t, below t ROOT_ID x)|done|by intros ? t [-> ?]]. }
      intros t Hi (Hx & Hl%finds_link & Ha). apply ok_or_Ok in Hx.
      assert (grows t (on_node x (λ n, set_body b (set_version (v n) (n_generation n) n)) t)) as Hg.
      { apply on_node_grows; [done|]. intros n' Hn0. simplify_eq. unfold shape. rewrite Hn.
        unfold children_of in Hn' |- *. simpl in *. by rewrite Hn'. }
      split; [done|]. apply (grows_attached _ _ Hg). by apply (linked_anchor true p leaf x t). }
    destruct (n_body n) eqn:En; try apply keeps_throw; destruct body; try apply keeps_throw; cbn zeta;
      apply (Hset _ bump_version); unfold children_of; by rewrite ?En.
  - eapply keeps_weaken; [by apply (add_plain_keeps true)|done|]. intros x t Ha. by apply Ha.
Qed.

Lemma collect_attached t x : wf t → below t ROOT_ID x → below (collect_unreferenced_detached_subtrees t) ROOT_ID x.
Proof.
  intros Hwf Hx. destruct (collect_drop t Hwf) as (s & -> & Hs).
  assert (droppable s t) as Hdr by (by apply (detached_droppable s t (λ d, ¬ referenced t d))).
  apply drop_below_outside; [done|apply Hdr|done].
Qed.

(** [x] has no children. *)
Definition childless (x : Z) (t : Tree) : Prop := ∀ n, nodes t !! x = Some n → children_of n = None.

Lemma collect_childless t x : wf t → childless x t → childless x (collect_unreferenced_detached_subtrees t).
Proof. intros Hwf Hx n. destruct (collect_drop t Hwf) as (s & -> & Hs). rewrite drop_node_Some. intros [? _]. eauto. Qed.

Lemma set_parent_name_children p name n : children_of (set_parent_name p name n) = children_of n.
Proof. done. Qed.

Lemma moved_childless t x p name n : nodes t !! x = Some n → children_of n = None → childless x (moved t x p name n).
Proof.
  intros Hx Hn m. rewrite moved_node, Hx. intros [= <-]. cbn zeta.
  repeat destruct (decide _); repeat rewrite ?on_children_of, ?set_parent_name_children; by rewrite Hn.
Qed.

Definition reattached (p : Z) (name : bytes) (q : Z) (file : bool) (r : option Z) (t : Tree) : Prop :=
  match r with
  | Some x => below t ROOT_ID x ∧ (file = true → childless x t)
  | None => finds p name None t ∧ anchor true p t ∧ qid_index t !! q = None
  end.

Lemma reattach_grows t p name n x : Inv t → nodes t !! x = Some n → node_is_detached t x = true →
  finds p name None t → below t ROOT_ID p →
  let t' := collect_unreferenced_detached_subtrees (moved t x p name n) in
  grows t t' ∧ below t' ROOT_ID x ∧ (children_of n = None → childless x t').
Proof.
  intros [Hwf Hc] Hx Hd (pn & c & Hpn & Hcp & Hfree) Hp. apply (node_is_detached_spec t Hwf) in Hd as (d & Hd & Hb).
  assert (wf (moved t x p name n)) as Hwf' by (by eapply move_wf). split_and!.
  - constructor; [split|..].
    + by apply collect_wf.
    + by apply collect_collected.
    + by rewrite collect_references.
    + intros y Hy. apply collect_attached; [done|]. by eapply moved_attached.
  - apply collect_attached; [done|]. by eapply moved_attached_self.
  - intros Hn. apply collect_childless; [done|]. by apply moved_childless.
Qed.

Lemma reattach_keeps path p name q (matches : Body → bool) file :
  (file = true → ∀ n, matches (n_body n) = true → children_of n = None) →
  keeps (λ t, finds p name None t ∧ anchor true p t) (reattach_detached_pushed_node path p name q matches)
    (reattached p name q file).
Proof.
  intros Hfile. eapply tree_keeps_bind; [apply keeps_gets|]. intros index. simpl.
  destruct (index !! q) as [x|] eqn:Hq.
  2:{ eapply keeps_weaken; [apply keeps_ret with (P := reattached p name q file None)| |]; [|by intros ? t [-> ?]].
      intros t _ (-> & ? & ?). done. }
  eapply tree_keeps_bind; [apply keeps_gets|]. intros [|]; [|apply keeps_throw]. cbn [negb].
  eapply tree_keeps_bind; [apply keeps_query|]. intros full. simpl. case_bool_decide; [|apply keeps_throw]. cbn [negb].
  eapply tree_keeps_bind; [apply keeps_query|]. intros n. simpl. destruct (matches _) eqn:Hm; [|apply keeps_throw]. cbn [negb].
  intros t Hi (Hx & _ & Hd & -> & Hf & Ha). apply ok_or_Ok in Hx.
  destruct (reattach_grows t p name n x Hi Hx (eq_sym Hd) Hf (Ha eq_refl)) as (Hg & Hatt & Hcl).
  split; [done|]. intros r [= <-]. split; [done|]. intros Hfl. by apply Hcl, (Hfile Hfl).
Qed.

Lemma apply_pushed_metadata_childless x m y t : childless y t → childless y (apply_pushed_metadata x m t).2.
Proof.
  intros Hy. unfold apply_pushed_metadata, replace_qid_path, gets, query, modify, mbind, M_bind, node, throw. simpl.
  assert (∀ f t, (∀ n, children_of (f n) = children_of n) → childless y t → childless y (on_node x f t)) as Hon.
  { intros f t0 Hf Hc n. rewrite lookup_on_node, fmap_Some. intros (n0 & Hn0 & ->).
    destruct (decide _); [rewrite Hf|]; by apply Hc. }
  destruct (negb _); [done|]. destruct (nodes t !! x) as [n|]; simpl; [|done].
  destruct (_ =? _); simpl; apply Hon; try done. apply Hon; [done|]. exact Hy.
Qed.

Lemma keeps_frame {A} (P : Tree → Prop) (m : M Tree A) Q (F : Tree → Prop) :
  keeps P m Q → (∀ t, F t → F (m t).2) → keeps (λ t, P t ∧ F t) m (λ a t, Q a t ∧ F t).
Proof. intros Hm HF t Hi [HP Ht]. destruct (Hm t Hi HP). split; [done|]. eauto. Qed.

Lemma keeps_attached {A} (P : Tree → Prop) (m : M Tree A) Q x :
  keeps P m Q → keeps (λ t, P t ∧ below t ROOT_ID x) m (λ a t, Q a t ∧ below t ROOT_ID x).
Proof.
  intros Hm t Hi [HP Hx]. destruct (Hm t Hi HP) as [Hg HQ]. split; [done|]. intros a Ha.
  split; [by apply HQ|by apply (grows_attached _ _ Hg)].
Qed.

(** The two ends of a pushed file: its metadata and its bytes. *)
Lemma push_file_keeps x m bs :
  keeps (λ t, below t ROOT_ID x ∧ childless x t)
    (_ ← apply_pushed_metadata x m; _ ← modify (on_node x (set_body (File bs))); mret x)
    (λ x t, below t ROOT_ID x).
Proof.
  eapply tree_keeps_bind.
  { eapply keeps_weaken.
    - apply (keeps_frame _ _ _ (childless x) (keeps_attached _ _ _ x (apply_pushed_metadata_keeps x m))).
      intros t. apply apply_pushed_metadata_childless.
    - intros t _ [? ?]. done.
    - intros a t H. exact H. }
  intros []. eapply tree_keeps_bind; [apply (keeps_modify _ _ (λ _ t, below t ROOT_ID x))|intros []].
  2:{ eapply keeps_weaken; [apply keeps_ret with (P := λ t, below t ROOT_ID x)|done|by intros ? t [-> ?]]. }
  intros t Hi [[_ Hx] Hc]. assert (grows t (on_node x (set_body (File bs)) t)) as Hg.
  { apply on_node_grows; [done|]. intros n Hn. unfold shape. by rewrite (Hc n Hn). }
  split; [done|]. by apply (grows_attached _ _ Hg).
Qed.

Lemma push_dir_keeps x m :
  keeps (λ t, below t ROOT_ID x) (_ ← apply_pushed_metadata x m; mret x) (λ x t, below t ROOT_ID x).
Proof.
  eapply tree_keeps_bind.
  { eapply keeps_weaken; [apply (keeps_attached _ _ _ x (apply_pushed_metadata_keeps x m))|by intros t _ ?|].
    intros a t H. exact H. }
  intros []. eapply keeps_weaken; [apply keeps_ret with (P := λ t, below t ROOT_ID x)|by intros t _ [_ ?]|by intros ? t [-> ?]].
Qed.

Lemma add_pushed_keeps p name m relay body : empty_body body →
  keeps (λ t, finds p name None t ∧ anchor true p t ∧ qid_index t !! pm_qid_path m = None)
    (add_node (pushed_node name p m relay body)) (λ x t, below t ROOT_ID x).
Proof.
  intros Hb. eapply keeps_weaken; [apply (add_node_keeps true)| |by intros x t Ha; apply Ha].
  intros t _ ((pn & c & ? & ? & ?) & ? & ?). split; [|done]. constructor; [by exists pn, c|done|].
  unfold no_children, children_of. simpl. destruct body; eauto. right. by rewrite (Hb d).
Qed.

Lemma is_file_childless n : is_file_body (n_body n) = true → children_of n = None.
Proof. unfold children_of. by destruct (n_body n). Qed.

Lemma place_pushed_file_keeps path bs m : keeps (λ _, True) (place_pushed_file path bs m) (λ x t, below t ROOT_ID x).
Proof.
  eapply tree_keeps_bind.
  { eapply keeps_weaken; [apply (open_place_keeps true)| |]; [intros t _ _ _; constructor|done]. }
  intros [[p leaf] [x|]]; simpl.
  - eapply tree_keeps_bind; [apply keeps_query|]. intros n. simpl. destruct (is_file_body _) eqn:Hn; [|apply keeps_throw].
    eapply keeps_weaken; [apply push_file_keeps| |done]. intros t _ (Hx & Hl%finds_link & Ha). apply ok_or_Ok in Hx.
    split; [by apply (linked_anchor true p leaf x t)|]. intros n' Hn'. simplify_eq. by apply is_file_childless.
  - eapply tree_keeps_bind; [apply (reattach_keeps _ _ _ _ _ true); intros _ n; apply is_file_childless|].
    intros [x|]; simpl.
    + eapply keeps_weaken; [apply push_file_keeps| |done]. intros t _ [? Hc]. by split; [|apply Hc].
    + by apply add_pushed_keeps.
Qed.

Lemma place_pushed_directory_keeps path m : keeps (λ _, True) (place_pushed_directory path m) (λ x t, below t ROOT_ID x).
Proof.
  unfold place_pushed_directory. destruct (negb _); [apply keeps_throw|]. eapply tree_keeps_bind.
  { eapply keeps_weaken; [apply (open_place_keeps true)| |]; [intros t _ _ _; constructor|done]. }
  intros [[p leaf] [x|]]; simpl.
  - eapply tree_keeps_bind; [apply keeps_query|]. intros n. simpl. destruct (is_dir_body _) eqn:Hn; [|apply keeps_throw].
    eapply keeps_weaken; [apply push_dir_keeps| |done]. intros t _ (Hx & Hl%finds_link & Ha).
    by apply (linked_anchor true p leaf x t).
  - eapply tree_keeps_bind; [by apply (reattach_keeps _ _ _ _ _ false)|]. intros [x|]; simpl.
    + eapply keeps_weaken; [apply push_dir_keeps| |done]. by intros t _ [? _].
    + apply add_pushed_keeps. by intros d [= <-].
Qed.

Lemma alike_grows t t' : Inv t → alike t t' → fid_references t' = fid_references t → intakes t' = intakes t →
  rename_relay_roots t' = rename_relay_roots t → grows t t'.
Proof.
  intros [Hwf Hc] Ha Hr Hi Hn. constructor; [split|done|].
  - apply (wf_alike t); [done..|rewrite Hr; apply Hwf|rewrite Hi; apply Hwf|rewrite Hn; apply Hwf].
  - apply (collected_alike t); [done|by rewrite Hr|done].
  - intros x. by apply alike_below.
Qed.

Lemma add_remove_relay_keeps P r : (∀ t t', alike t t' → P t → P t') → keeps P (add_remove_relay r) (λ _ t, P t).
Proof.
  intros HP. destruct r as [r|]; simpl.
  - apply keeps_modify. intros t Hi Ht. split; [by apply alike_grows|]. by apply (HP t).
  - eapply keeps_weaken; [apply keeps_ret with (P := P)|done|by intros ? t [_ ?]].
Qed.

Lemma child_remove_relay_keeps P p name removal : keeps P (child_remove_relay p name removal) (λ _ t, P t).
Proof.
  unfold child_remove_relay. destruct removal.
  - eapply keeps_weaken; [apply keeps_ret with (P := P)|done|by intros ? t [_ ?]].
  - eapply tree_keeps_bind; [apply tree_keeps_lift|]. intros nm. simpl. eapply tree_keeps_bind; [apply keeps_query|]. intros pp. simpl.
    eapply keeps_weaken; [apply keeps_ret with (P := P)|by intros t _ (_ & _ & ?)|by intros ? t [_ ?]].
Qed.

Lemma insert_pushed_child_directory_keeps p name m prefix removal :
  keeps (λ _, True) (insert_pushed_child_directory p name m prefix removal) (λ _ _, True).
Proof.
  unfold insert_pushed_child_directory. destruct (negb _); [apply keeps_throw|].
  eapply tree_keeps_bind; [apply (child_remove_relay_keeps (λ _, True))|]. intros relay. simpl.
  eapply tree_keeps_bind; [apply (child_of_keeps (λ _, True))|]. intros [x|]; simpl.
  - eapply tree_keeps_bind; [apply keeps_query|]. intros n. simpl. destruct (is_dir_body _); [|apply keeps_throw].
    destruct relay as [r|]; [|eapply keeps_weaken; [apply keeps_ret with (P := λ _, True)|done|done]].
    eapply tree_keeps_bind.
    { eapply keeps_weaken; [by apply (add_remove_relay_keeps (λ _, True) (Some r))|done|]. intros a t H. exact H. }
    intros []. eapply tree_keeps_bind.
    { apply (keeps_modify _ _ (λ _ _, True)). intros t Hi _. split; [|done]. apply on_node_grows; [done|]. by intros. }
    intros []. eapply keeps_weaken; [apply keeps_ret with (P := λ _, True)|done|done].
  - eapply tree_keeps_bind; [apply keeps_gets|]. intros index. simpl. case_bool_decide as Hq; [apply keeps_throw|].
    eapply tree_keeps_bind.
    { eapply keeps_weaken; [apply (add_node_keeps false (pushed_node name p m relay (Dir (DirectoryBody_mk ∅ (Some prefix) None))))| |].
      - intros t _ (-> & (pn & c & ? & ? & ?) & _). split; [|done]. constructor; [by exists pn, c| |by right].
        simpl. by apply eq_None_not_Some.
      - intros a t H. exact I. }
    intros x. simpl. eapply tree_keeps_bind.
    { eapply keeps_weaken; [by apply (add_remove_relay_keeps (λ _, True) relay)|done|]. intros a t H. exact H. }
    intros []. eapply keeps_weaken; [apply keeps_ret with (P := λ _, True)|done|done].
Qed.

Lemma insert_created_relay_node_keeps p name q g prefix :
  keeps (λ _, True) (insert_created_relay_node p name q g prefix) (λ _ _, True).
Proof.
  eapply tree_keeps_bind.
  { eapply keeps_weaken; [apply (open_place_keeps false)| |]; [by intros t _ _|done]. }
  intros [[p' leaf] [x|]]; simpl.
  - eapply tree_keeps_bind; [apply keeps_query|]. intros n. simpl. eapply tree_keeps_bind; [apply keeps_gets|]. intros index. simpl.
    destruct (_ || _); [apply keeps_throw|]. destruct (Bool.eqb _ _) eqn:Hk; [simpl|apply keeps_throw].
    eapply tree_keeps_bind.
    { apply (keeps_modify _ _ (λ _ _, True)). intros t Hi (_ & Hx & _). apply ok_or_Ok in Hx. split; [|done].
      apply on_node_grows; [done|]. intros n' Hn'. simplify_eq. destruct (has_bits _ _); [done|].
      apply Bool.eqb_prop in Hk. unfold shape, children_of. simpl. by destruct (n_body n). }
    intros []. eapply keeps_weaken; [apply keeps_ret with (P := λ _, True)|done|done].
  - eapply tree_keeps_bind; [apply keeps_gets|]. intros index. simpl. case_bool_decide as Hq; [apply keeps_throw|].
    eapply keeps_weaken; [apply (add_node_keeps false (created_node leaf p' q g prefix))| |done].
    intros t _ (-> & (pn & c & ? & ? & ?) & _). split; [|done]. constructor; [by exists pn, c| |].
    + simpl. by apply eq_None_not_Some.
    + unfold no_children, children_of. simpl. destruct (has_bits _ _); [by right|by left].
Qed.

(** ** References *)

Lemma retain_fid_node_spec t x : Inv t →
  match retain_fid_node x t with
  | (Ok _, t') => Inv t' ∧ is_Some (nodes t !! x) ∧
      fid_references t' = <[x := default 0 (fid_references t !! x) + 1]> (fid_references t) ∧ nodes t' = nodes t
  | (Err _, t') => t' = t
  end.
Proof.
  intros [Hwf Hc]. unfold retain_fid_node, query, node, modify, mbind, M_bind.
  destruct (nodes t !! x) as [n|] eqn:Hx; simpl; [|done]. split_and!; try done.
  set (t' := set_fid_references _ t). assert (alike t t') as Ha by done. split.
  - apply (wf_alike t); [done..| |apply Hwf|apply Hwf].
    intros y k. simpl. intros [[<- <-]|[? Hy]]%lookup_insert_Some; [|by apply (wf_refs _ Hwf) in Hy].
    split; [|by eauto]. destruct (fid_references t !! x) as [k|] eqn:E; simpl; [|lia].
    apply (wf_refs _ Hwf) in E. lia.
  - apply (collected_alike t); [done| |done]. intros y Hy. simpl.
    destruct (decide (x = y)) as [<-|]; [rewrite lookup_insert_eq; by eauto|by rewrite lookup_insert_ne].
Qed.

Definition release (x k : Z) (refs : gmap Z Z) : gmap Z Z := if 1 <? k then <[x := k - 1]> refs else delete x refs.

Lemma release_wf t x k : wf t → fid_references t !! x = Some k → wf (set_fid_references (release x k (fid_references t)) t).
Proof.
  intros Hwf Hx. apply (wf_alike t); [done..| |apply Hwf|apply Hwf]. intros y j. simpl. unfold release.
  pose proof (wf_refs _ Hwf _ _ Hx) as [_ ?]. destruct (Z.ltb_spec 1 k).
  - intros [[<- <-]|[? Hy]]%lookup_insert_Some; [split; [lia|done]|by apply (wf_refs _ Hwf) in Hy].
  - intros [_ Hy]%lookup_delete_Some. by apply (wf_refs _ Hwf) in Hy.
Qed.

Lemma release_fid_node_run t x : release_fid_node x t =
  match fid_references t !! x with
  | Some k => (Ok (), collect_unreferenced_detached_subtrees (set_fid_references (release x k (fid_references t)) t))
  | None => (Err (from_static "front fid node reference missing"), t)
  end.
Proof. unfold release_fid_node, gets, modify, mbind, M_bind. by destruct (fid_references t !! x). Qed.

Lemma release_fid_node_spec t x : Inv t →
  match release_fid_node x t with
  | (Ok _, t') => Inv t' ∧ ∃ k, fid_references t !! x = Some k ∧ fid_references t' = release x k (fid_references t)
  | (Err _, t') => t' = t ∧ fid_references t !! x = None
  end.
Proof.
  intros [Hwf Hc]. rewrite release_fid_node_run. destruct (fid_references t !! x) as [k|] eqn:Hx; [|done].
  pose proof (release_wf t x k Hwf Hx) as Hwf'.
  split; [split; [by apply collect_wf|by apply collect_collected]|]. exists k. by rewrite collect_references.
Qed.

(** ** Removing a subtree *)

Definition safe {A} (m : M Tree A) : Prop := ∀ t, Inv t → Inv (m t).2 ∧ fid_references (m t).2 = fid_references t.

Lemma keeps_safe {A} (m : M Tree A) Q : keeps (λ _, True) m Q → safe m.
Proof. intros Hm t Hi. destruct (Hm t Hi I) as [[? ? ?] _]. done. Qed.

Lemma attached_link t x n : wf t → below t ROOT_ID x → x ≠ ROOT_ID → nodes t !! x = Some n → link t (n_parent n) (n_name n) x.
Proof.
  intros Hwf Hx Hne Hn. apply (wf_up _ Hwf); [done..|]. intros Hd.
  apply Hne. symmetry. apply (top_below t Hwf); [by right|done].
Qed.

(** What [remove_subtree_if_exists] does to the tree. *)
Lemma remove_subtree_run t path : Inv t →
  match lookup_optional_path t path with
  | Err e => remove_subtree_if_exists path t = (Err e, t)
  | Ok None => remove_subtree_if_exists path t = (Ok (), t)
  | Ok (Some x) =>
      if decide (x = ROOT_ID) then remove_subtree_if_exists path t = (Err (from_static EPERM), t)
      else ∃ p name, link t p name x ∧ below t ROOT_ID x ∧
           remove_subtree_if_exists path t = (Ok (), retire_detached_subtree x (unlink_child p name t))
  end.
Proof.
  intros [Hwf Hc]. unfold remove_subtree_if_exists, query, mbind, M_bind.
  destruct (lookup_optional_path t path) as [[x|]|e] eqn:Hl; [|done..].
  apply lookup_optional_path_attached in Hl. simpl. destruct (Z.eqb_spec x ROOT_ID) as [->|Hne].
  - by rewrite decide_True.
  - rewrite decide_False by done. destruct (attached_node t Hwf x Hl) as [n Hn]. unfold node. rewrite Hn. simpl.
    exists (n_parent n), (n_name n). split_and!; [by apply attached_link|done..].
Qed.

Lemma remove_subtree_safe path : safe (remove_subtree_if_exists path).
Proof.
  intros t Hi. pose proof (remove_subtree_run t path Hi) as Hr.
  destruct (lookup_optional_path t path) as [[x|]|e]; [|by rewrite Hr..]. destruct (decide _); [by rewrite Hr|].
  destruct Hr as (p & name & Hl & Hx & ->). destruct Hi as [Hwf Hc]. simpl. split; [split|].
  - by apply retire_wf.
  - by apply retire_collected.
  - by apply retire_references.
Qed.
