(* ===== verification/FrontRetain.v ===== *)
(** [retain_subtree_paths] of [crates/front/src/model.rs]: which nodes it marks,
    which subtrees it finds stale, and what is left of the tree when they are gone. *)
From stdpp Require Import sorting relations fin_maps fin_map_dom.
From S2P Require Import Prelude Errors Qid Stat Utf8 Referral NamespaceCache Text ExportDescriptor FrontModel FrontInv.

(** ** Trimmed paths *)

Lemma trim_start_idem path : trim_start_slashes (trim_start_slashes path) = trim_start_slashes path.
Proof.
  induction path as [|b path IH]; [done|]. simpl. destruct (decide (b = slash)) eqn:E; [done|]. simpl. by rewrite E.
Qed.

Lemma trim_start_head path : match trim_start_slashes path with b :: _ => b ≠ slash | [] => True end.
Proof. induction path as [|b path IH]; [done|]. simpl. by destruct (decide (b = slash)). Qed.

Lemma trim_start_app path b : b ≠ slash → trim_start_slashes (path ++ [b]) = trim_start_slashes path ++ [b].
Proof.
  intros Hb. induction path as [|a path IH]; simpl; [by rewrite decide_False|]. by destruct (decide (a = slash)).
Qed.

Lemma trim_end_cons b path : b ≠ slash → trim_end_slashes (b :: path) = b :: trim_end_slashes path.
Proof. intros Hb. unfold trim_end_slashes. simpl. rewrite trim_start_app by done. by rewrite rev_app_distr. Qed.

Lemma trim_slashes_idem path : trim_slashes (trim_slashes path) = trim_slashes path.
Proof.
  unfold trim_slashes. pose proof (trim_start_head path) as Hh. destruct (trim_start_slashes path) as [|b p] eqn:E; [done|].
  rewrite trim_end_cons by done. simpl. rewrite decide_False by done. rewrite trim_end_cons by done. f_equal.
  unfold trim_end_slashes. by rewrite rev_involutive, trim_start_idem.
Qed.

Lemma trim_slash : trim_slashes (bstr "/") = [].
Proof. reflexivity. Qed.

Lemma lookup_canonical t path c : canonical_root_path path = Ok c → lookup_path t c = lookup_path t path.
Proof.
  unfold canonical_root_path, lookup_path. case_bool_decide as He.
  - intros [= <-]. by rewrite ?He, trim_slash.
  - unfold split_path. rewrite trim_slashes_idem, bool_decide_false by done. simpl. intros [= <-].
    rewrite !trim_slashes_idem. by rewrite !bool_decide_false by done.
Qed.

Lemma canonical_total path : ∃ c, canonical_root_path path = Ok c.
Proof.
  unfold canonical_root_path. case_bool_decide; [by eexists|]. unfold split_path.
  rewrite trim_slashes_idem, bool_decide_false by done. by eexists.
Qed.

(** ** Marking *)

Section marking.
Context (t : Tree) (Hwf : wf t).

Lemma below_antisym a b : below t a b → below t b a → a = b.
Proof using Hwf.
  intros Hab Hba. apply rtc_inv_r in Hab as [->|(p & Hap & Hpb)]; [done|].
  destruct (acyclic t p b Hwf Hpb). unfold below in *. by trans a.
Qed.

Lemma below_parent x y n : nodes t !! x = Some n → link t (n_parent n) (n_name n) x →
  below t y x ↔ y = x ∨ below t y (n_parent n).
Proof using Hwf.
  intros Hn Hl. split.
  - intros [->|(p & Hyp & Hpx)]%rtc_inv_r; [by left|]. right.
    destruct (linked_parent t Hwf _ _ Hpx) as (m & ? & <-). by simplify_eq.
  - intros [->|Hy]; [constructor|]. eapply rtc_r; [done|]. by eexists.
Qed.

Lemma mark_up_spec fuel root x marked marked' : below t ROOT_ID x → mark_up fuel t root x marked = Ok marked' →
  below t root x ∧ ∀ y, y ∈ marked' ↔ y ∈ marked ∨ (below t root y ∧ below t y x).
Proof using Hwf.
  revert x marked. induction fuel as [|fuel IH]; intros x marked Hx; [done|]. cbn [mark_up].
  destruct (Z.eqb_spec x root) as [->|Hne].
  - intros [= <-]. split; [constructor|]. intros y. rewrite elem_of_union, elem_of_singleton. split.
    + intros [->|?]; [right; split; constructor|by left].
    + intros [?|[H1 H2]]; [by right|left]. by apply below_antisym.
  - destruct (attached_node t Hwf x Hx) as [n Hn]. unfold node. rewrite Hn. cbn [ok_or mbind Result_bind].
    destruct (Z.eqb_spec (n_parent n) x) as [|Hp]; [done|].
    assert (x ≠ ROOT_ID) as Hx0.
    { intros ->. destruct (wf_root _ Hwf) as (rn & c & ? & _ & ?). by simplify_eq. }
    pose proof (attached_link t x n Hwf Hx Hx0 Hn) as Hl.
    assert (below t ROOT_ID (n_parent n)) as Hpa by (apply (below_parent x _ n) in Hx as [?|?]; done).
    intros (Hb & Hm)%IH; [|done]. split; [apply (below_parent x _ n); [done..|by right]|]. intros y.
    rewrite (Hm y), elem_of_union, elem_of_singleton, (below_parent x y n Hn Hl). split; [|tauto].
    intros [[->|?]|[? ?]]; [right; split|by left|tauto]; [|by left].
    apply (below_parent x _ n); [done..|by right].
Qed.

(** Enough fuel: the chain of the node. *)
Lemma mark_up_succeeds fuel root x l marked : below t ROOT_ID x → below t root x → chain t x l → (length l < fuel)%nat →
  ∃ marked', mark_up fuel t root x marked = Ok marked'.
Proof using Hwf.
  revert x l marked. induction fuel as [|fuel IH]; intros x l marked Hx Hr Hl Hf; [lia|]. cbn [mark_up].
  destruct (Z.eqb_spec x root) as [->|Hne]; [by eexists|].
  assert (x ≠ ROOT_ID) as Hx0 by (intros ->; apply Hne; symmetry; apply (top_below t Hwf); [by left|done]).
  inversion Hl as [|? ? Hn|? n l' _ Hn Hl']; subst; [done|destruct (attached_node t Hwf x Hx); congruence|].
  unfold node. rewrite Hn. cbn [ok_or mbind Result_bind]. pose proof (attached_link t x n Hwf Hx Hx0 Hn) as Hlk.
  destruct (Z.eqb_spec (n_parent n) x) as [Hp|Hp].
  { rewrite Hp in Hlk. destruct (acyclic t x x Hwf); [by eexists|constructor]. }
  simpl in Hf. apply (IH _ l'); [|..|lia]; try done.
  - apply (below_parent x _ n) in Hx as [?|?]; done.
  - apply (below_parent x _ n) in Hr as [?|?]; congruence.
Qed.

(** The nodes above the named ones, up to the root of the subtree. *)
Definition kept (root : Z) (paths : list bytes) (y : Z) : Prop :=
  ∃ path x, (path ∈ paths) ∧ lookup_path t path = Ok x ∧ below t root y ∧ below t y x.

Lemma mark_retained_spec root rs paths marked marked' : mark_retained t root rs paths marked = Ok marked' →
  (∀ path, path ∈ paths → ∃ x, lookup_path t path = Ok x ∧ below t root x) ∧
  ∀ y, y ∈ marked' ↔ y ∈ marked ∨ kept root paths y.
Proof using Hwf.
  revert marked. induction paths as [|path paths IH]; intros marked; cbn [mark_retained].
  { intros [= ->]. split; [by intros ? ?%elem_of_nil|]. intros y. split; [by left|].
    intros [?|(? & ? & ?%elem_of_nil & _)]; done. }
  destruct (canonical_total path) as [c Hc]. rewrite Hc. cbn [mbind Result_bind].
  destruct (canonical_path_segments c) as [segments|]; [cbn [mbind Result_bind]|done].
  destruct (starts_with segments rs); [cbn [negb]|done]. rewrite (lookup_canonical t path c Hc).
  destruct (lookup_path t path) as [x|] eqn:Hx; [cbn [mbind Result_bind]|done].
  pose proof (lookup_path_attached _ _ _ Hx) as Hatt.
  destruct (mark_up _ _ _ _ _) as [marked1|] eqn:Hm; [cbn [mbind Result_bind]|done].
  apply mark_up_spec in Hm as [Hrx Hm]; [|done]. intros [Hall Hmk]%IH. split.
  - intros p [->|Hp]%elem_of_cons; [by exists x|by apply Hall].
  - intros y. rewrite (Hmk y), (Hm y). unfold kept. setoid_rewrite elem_of_cons. split.
    + intros [[?|[? ?]]|(p & z & ? & ?)]; [by left|right; exists path, x; tauto|right; exists p, z; tauto].
    + intros [?|(p & z & [->|Hp] & Hz & ? & ?)]; [tauto|rewrite Hx in Hz; injection Hz as ->; tauto|].
      right. by exists p, z.
Qed.

(** ** Stale subtrees *)

Section stale.
Context (marked : gset Z).

Definition mreach : Z → Z → Prop := rtc (λ a b, linked t a b ∧ b ∈ marked).

Lemma mreach_below a b : mreach a b → below t a b.
Proof using. induction 1 as [|a b c [Hab _] _ IH]; [constructor|]. by econstructor. Qed.

(** The entries below [p] that [collect_stale] lists. *)
Definition stale_below (p : Z) (s : Z * bytes * Z) : Prop :=
  mreach p s.1.1 ∧ link t s.1.1 s.1.2 s.2 ∧ (s.2 ∉ marked).

Definition stale_child (p : Z) (s : Z * bytes * Z) (e : bytes * Z) : Prop :=
  (s = (p, e.1, e.2) ∧ (e.2 ∉ marked)) ∨ ((e.2 ∈ marked) ∧ stale_below e.2 s).

Lemma stale_below_unfold p s n c : nodes t !! p = Some n → children_of n = Some c →
  stale_below p s ↔ ∃ e, e ∈ ordered c ∧ stale_child p s e.
Proof using.
  intros Hn Hc. split.
  - destruct s as [[q nm] x]. intros (Hm & Hl & Hs). simpl in *. inversion Hm as [E|? b ? [[nm' Hpb] Hb] Hbq]; subst.
    + destruct Hl as (n' & c' & ? & ? & ?). simplify_eq. exists (nm, x). split; [by apply elem_of_ordered|]. by left.
    + destruct Hpb as (n' & c' & ? & ? & ?). simplify_eq. exists (nm', b). split; [by apply elem_of_ordered|]. by right.
  - intros ([nm x] & Hx%elem_of_ordered & [[-> Hm]|[Hm (Hr & Hl & Hs)]]); simpl in *.
    + split_and!; [constructor| |done]. by exists n, c.
    + split_and!; [|done..]. econstructor; [|done]. split; [|done]. exists nm, n, c. done.
Qed.

Lemma stale_disjoint p n c e e' s : nodes t !! p = Some n → children_of n = Some c →
  e ∈ ordered c → e' ∈ ordered c → stale_child p s e → stale_child p s e' → e = e'.
Proof using Hwf.
  destruct e as [nm x], e' as [nm' x']. intros Hn Hc He He' H H'. apply elem_of_ordered in He, He'.
  assert (link t p nm x) as Hl by (by exists n, c). assert (link t p nm' x') as Hl' by (by exists n, c).
  assert (∀ y, stale_below y s → linked t p y → s.1.1 = p → False) as Hno.
  { intros y (Hm%mreach_below & _) Hpy E. rewrite E in Hm. by apply (acyclic t p y Hwf). }
  assert (x = x') as ->.
  { destruct H as [[-> Hm]|[Hm Hb]], H' as [[Es Hm']|[Hm' Hb']]; simpl in *.
    - congruence.
    - destruct (Hno x'); [done|by eexists|done].
    - subst s. destruct (Hno x); [done|by eexists|done].
    - destruct Hb as (Hr%mreach_below & _), Hb' as (Hr'%mreach_below & _).
      assert (linked t p x) as Hpx by (by eexists). assert (linked t p x') as Hpx' by (by eexists).
      destruct (below_comparable t Hwf _ _ _ Hr Hr') as [Hb|Hb]; apply rtc_inv_r in Hb as [?|(q & Hq & Hqx)]; try done.
      + rewrite (linked_unique t Hwf q p x' Hqx Hpx') in Hq. by destruct (acyclic t p x Hwf).
      + rewrite (linked_unique t Hwf q p x Hqx Hpx) in Hq. by destruct (acyclic t p x' Hwf). }
  destruct (wf_down _ Hwf _ _ _ Hl) as (m & ? & _ & ? & _). destruct (wf_down _ Hwf _ _ _ Hl') as (m' & ? & _ & ? & _).
  f_equal. congruence.
Qed.

Lemma collect_stale_spec fuel p l n : chain t p l → (size (nodes t) - length l < fuel)%nat →
  nodes t !! p = Some n → is_Some (children_of n) →
  ∃ stale, collect_stale fuel t p marked = Ok stale ∧ NoDup stale ∧ ∀ s, s ∈ stale ↔ stale_below p s.
Proof using Hwf.
  revert p l n. induction fuel as [|fuel IH]; intros p l n Hl Hf Hn [c Hc]; [lia|]. cbn [collect_stale].
  assert (node t p = Ok n) as -> by (unfold node; by rewrite Hn). cbn [mbind Result_bind]. rewrite Hc.
  set (loop := fix loop (entries : list (bytes * Z)) : Result (list (Z * bytes * Z)) := _).
  assert (∀ entries, NoDup entries → (∀ e, e ∈ entries → e ∈ ordered c) →
    ∃ stale, loop entries = Ok stale ∧ NoDup stale ∧ ∀ s, s ∈ stale ↔ ∃ e, e ∈ entries ∧ stale_child p s e) as Hloop.
  { intros entries. induction entries as [|[nm x] entries IHe]; intros Hnd Hin.
    - exists []. split_and!; [done|constructor|]. intros s. split; [by intros ?%elem_of_nil|].
      by intros (e & ?%elem_of_nil & _).
    - apply NoDup_cons in Hnd as [Hx Hnd]. destruct IHe as (rest & Hrest & Hndr & Hr); [done|set_solver|].
      assert (link t p nm x) as Hpx by (exists n, c; split_and!; [done..|]; apply elem_of_ordered, Hin; by left).
      assert (∃ below, (∀ rest', (if bool_decide (x ∈ marked) then
                  m ← node t x;
                  b ← (if is_dir_body (n_body m) then collect_stale fuel t x marked else Ok []);
                  r ← Ok rest'; mret (b ++ r)
                else r ← Ok rest'; mret ((p, nm, x) :: r)) = Ok (below ++ rest')) ∧
              NoDup below ∧ ∀ s, s ∈ below ↔ stale_child p s (nm, x)) as (below & Hb & Hndb & Hbs).
      { destruct (wf_down _ Hwf _ _ _ Hpx) as (m & Hm & _). case_bool_decide as Hmk.
        - unfold node. rewrite Hm. cbn [ok_or mbind Result_bind]. destruct (n_body m) as [d|bs| | | | | |] eqn:Eb; cbn [is_dir_body].
          1:{ pose proof (chain_linked t Hwf p x l ltac:(by eexists) Hl) as Hlx. pose proof (chain_short _ _ _ Hlx) as Hs.
              simpl in Hs. destruct (IH x (x :: l) m) as (st & -> & ? & Hst); [done|simpl; lia|done| |].
              { unfold children_of. rewrite Eb. by eexists. }
              exists st. split_and!; [done..|]. intros s. rewrite (Hst s). unfold stale_child. simpl. naive_solver. }
          all: exists []; split_and!; [done|constructor|]; intros s; (split; [by intros ?%elem_of_nil|]).
          all: destruct s as [[q' nm'] x']; intros [[_ ?]|(_ & Hr' & Hlk & _)]; [done|exfalso]; simpl in *.
          all: inversion Hr' as [E|? ? ? [Hxb _] _]; subst; [destruct Hlk as (m' & c' & Hm' & Hc' & _)|
                 destruct Hxb as (? & m' & c' & Hm' & Hc' & _)]; rewrite Hm in Hm'; injection Hm' as <-;
                 unfold children_of in Hc'; by rewrite Eb in Hc'.
        - exists [(p, nm, x)]. split_and!; [done|apply NoDup_singleton|]. intros s. rewrite list_elem_of_singleton.
          unfold stale_child. simpl. naive_solver. }
      exists (below ++ rest). split_and!.
      + cbn [loop]. fold loop. rewrite Hrest. apply Hb.
      + apply NoDup_app. split_and!; [done| |done]. intros s Hs1%Hbs (e' & He' & Hs2)%Hr. apply Hx.
        assert ((nm, x) = e') as -> by (eapply stale_disjoint; [done..| | | |]; [apply Hin; by left|apply Hin; by right|done..]).
        done.
      + intros s. rewrite elem_of_app, (Hbs s), (Hr s). setoid_rewrite elem_of_cons. naive_solver. }
  destruct (Hloop (ordered c)) as (stale & -> & ? & Hst); [|done|].
  { unfold ordered. rewrite merge_sort_Permutation. apply NoDup_map_to_list. }
  exists stale. split_and!; [done..|]. intros s. by rewrite (Hst s), (stale_below_unfold p s n c).
Qed.

End stale.
End marking.

(** ** Dropping the stale subtrees *)

Lemma retire_below t p name x a y : wf t → link t p name x →
  below (retire_detached_subtree x (unlink_child p name t)) a y → below t a y.
Proof.
  intros Hwf Hl H. apply (unlink_below t p name x a y Hwf Hl).
  destruct (retire_spec _ _ _ _ Hwf Hl) as [[_ E]|(_ & s & E & _ & _)]; rewrite E in H; [exact H|].
  apply drop_below in H. exact H.
Qed.

Lemma retire_below_kept t p name x a y : wf t → link t p name x → ¬ below t x y → below t a y →
  below (retire_detached_subtree x (unlink_child p name t)) a y.
Proof.
  intros Hwf Hl Hno Ha. revert y Ha Hno. refine (rtc_ind_r _ a _ _); [constructor|].
  intros y z _ [nm Hyz] IH Hno. assert (¬ below t x y) as Hy by (intros Hb; apply Hno; eapply rtc_r; [exact Hb|]; by exists nm).
  eapply rtc_r; [by apply IH|]. exists nm. apply retire_link; [done..|]. split; [done|]. intros ->. apply Hno. constructor.
Qed.

(** Subtrees of an attached part that do not overlap. *)
Record apart (t : Tree) (stale : list (Z * bytes * Z)) : Prop := apart_mk {
  apart_nodup : NoDup stale;
  apart_linked s : s ∈ stale → link t s.1.1 s.1.2 s.2 ∧ below t ROOT_ID s.1.1;
  apart_disjoint s s' : s ∈ stale → s' ∈ stale → ¬ below t s.2 s'.1.1;
}.

Lemma apart_tail t p name x stale : wf t → apart t ((p, name, x) :: stale) →
  apart (retire_detached_subtree x (unlink_child p name t)) stale.
Proof.
  intros Hwf [Hnd Hlk Hdis]. apply NoDup_cons in Hnd as [Hx Hnd].
  assert ((p, name, x) ∈ (p, name, x) :: stale) as Hin by (by left).
  destruct (Hlk _ Hin) as [Hl Hp]. simpl in *. constructor; [done|..].
  - intros [[p' nm'] x'] Hs. assert ((p', nm', x') ∈ (p, name, x) :: stale) as Hs' by (by right).
    destruct (Hlk _ Hs') as [Hl' Hp']. pose proof (Hdis _ _ Hin Hs') as Hno. simpl in *. split.
    + apply retire_link; [done..|]. split; [done|]. intros ->.
      destruct (wf_down _ Hwf _ _ _ Hl) as (m & ? & <- & <- & _).
      destruct (wf_down _ Hwf _ _ _ Hl') as (m' & ? & <- & <- & _). by simplify_eq.
    + by apply retire_below_kept.
  - intros s s' Hs Hs' Hb. apply (Hdis s s'); [by right..|]. by eapply retire_below.
Qed.

Lemma drop_stale_spec stale t : Inv t → apart t stale →
  let t' := foldl drop_stale t stale in
  Inv t' ∧ fid_references t' = fid_references t ∧
  ∀ y, below t' ROOT_ID y ↔ below t ROOT_ID y ∧ ∀ s, s ∈ stale → ¬ below t s.2 y.
Proof.
  revert t. induction stale as [|[[p name] x] stale IH]; intros t Hi Hap; simpl.
  { split_and!; [done..|]. intros y. split; [|by intros [? _]]. intros Hy. split; [done|]. by intros s ?%elem_of_nil. }
  destruct Hi as [Hwf Hc]. destruct (apart_linked _ _ Hap (p, name, x) ltac:(by left)) as [Hl Hp]. simpl in *.
  assert (below t ROOT_ID x) as Hx by (eapply rtc_r; [done|by eexists]).
  set (t1 := retire_detached_subtree x (unlink_child p name t)).
  destruct (IH t1) as (Hi' & Hrefs & Hatt).
  { split; [by apply retire_wf|by apply retire_collected]. }
  { by apply apart_tail. }
  split_and!; [done|rewrite Hrefs; by apply retire_references|]. intros y. rewrite (Hatt y).
  unfold t1 at 1. rewrite (retire_attached t p name x Hwf Hl Hx y). split.
  - intros [[Hy Hno] Hrest]. split; [done|]. intros s [->|Hs]%elem_of_cons; [done|]. intros Hb. apply (Hrest s Hs).
    by apply retire_below_kept.
  - intros [Hy Hall]. split_and!; [done|apply (Hall (p, name, x)); by left|]. intros s Hs Hb.
    apply (Hall s); [by right|]. by eapply retire_below.
Qed.

(** ** The whole operation *)

Section retain.
Context (t : Tree) (root : Z) (paths : list bytes) (marked : gset Z).
Context (Hwf : wf t) (Hroot : below t ROOT_ID root).
Context (Hmarked : ∀ y, y ∈ marked ↔ y = root ∨ kept t root paths y).

Lemma marked_below y : y ∈ marked → below t root y.
Proof using Hmarked. intros [->|(? & ? & _ & _ & ? & _)]%Hmarked; [constructor|done]. Qed.

(** Marked nodes are marked all the way up to the root. *)
Lemma marked_up y z : y ∈ marked → below t root z → below t z y → z ∈ marked.
Proof using Hwf Hmarked.
  intros Hy Hz Hzy. apply Hmarked. apply Hmarked in Hy as [->|(path & x & ? & ? & ? & ?)].
  - left. by apply (below_antisym t Hwf).
  - right. exists path, x. split_and!; [done..|]. unfold below in *. by trans y.
Qed.

Lemma marked_mreach y : y ∈ marked → mreach t marked root y.
Proof using Hwf Hmarked.
  intros Hy. pose proof (marked_below _ Hy) as Hb. revert y Hb Hy. refine (rtc_ind_r _ root _ _); [constructor|].
  intros y z Hb Hyz IH Hz. eapply rtc_r; [apply IH|by split]. apply (marked_up z); [done..|]. by apply rtc_once.
Qed.

Lemma mreach_marked y : mreach t marked root y → y ∈ marked.
Proof using Hmarked. intros [<-|(z & _ & _ & ?)]%rtc_inv_r; [apply Hmarked; by left|done]. Qed.

(** Below the root, a node is under a stale entry exactly if it is not marked. *)
Lemma stale_cover (stale : list (Z * bytes * Z)) y : (∀ s, s ∈ stale ↔ stale_below t marked root s) → below t root y →
  y ∈ marked ↔ ∀ s, s ∈ stale → ¬ below t s.2 y.
Proof using Hwf Hmarked.
  intros Hst Hy. split.
  - intros Hm s (Hr & Hl & Hs)%Hst Hb. apply Hs. apply (marked_up y); [done| |done].
    eapply rtc_r; [by apply (mreach_below t marked)|by eexists].
  - intros Hno. assert (∀ z, below t root z → below t z y → z ∈ marked) as H; [|apply H; [done|constructor]].
    refine (rtc_ind_r _ root _ _); [intros _; apply Hmarked; by left|]. intros a b Ha [nm Hab] IH Hb.
    assert (a ∈ marked) as Hma by (apply IH; by econstructor; [exists nm|]).
    destruct (decide (b ∈ marked)) as [?|Hnb]; [done|]. destruct (Hno (a, nm, b)); [|done].
    apply Hst. split_and!; [by apply marked_mreach|done..].
Qed.

Lemma stale_apart (stale : list (Z * bytes * Z)) : NoDup stale → (∀ s, s ∈ stale ↔ stale_below t marked root s) → apart t stale.
Proof using Hwf Hroot Hmarked.
  intros Hnd Hst. constructor; [done|..].
  - intros s (Hr & Hl & _)%Hst. split; [done|]. unfold below. trans root; [done|]. by apply (mreach_below t marked).
  - intros s s' (Hr & Hl & Hs)%Hst (Hr' & _ & _)%Hst Hb. apply Hs, (marked_up s'.1.1); [by apply mreach_marked| |done].
    eapply rtc_r; [exact (mreach_below t marked _ _ Hr)|]. by eexists.
Qed.

End retain.

Definition retain_goal (t : Tree) (root : Z) (paths : list bytes) (t' : Tree) : Prop :=
  ∀ y, below t' ROOT_ID y ↔
    below t ROOT_ID y ∧ (below t root y → y = root ∨ ∃ path x, (path ∈ paths) ∧ lookup_path t path = Ok x ∧ below t y x).

(** The operation fails without a change, or leaves the tree that was asked for. *)
Lemma retain_spec root_path paths t : Inv t →
  match retain_subtree_paths root_path paths t with
  | (Err _, t') => t' = t
  | (Ok changed, t') => Inv t' ∧ fid_references t' = fid_references t ∧
      ∃ root, lookup_path t root_path = Ok root ∧
        (∀ path, path ∈ paths → ∃ x, lookup_path t path = Ok x ∧ below t root x) ∧
        retain_goal t root paths t' ∧ (changed = false → t' = t)
  end.
Proof.
  intros Hi. pose proof (proj1 Hi) as Hwf. unfold retain_subtree_paths, lift, query, modify, mbind, M_bind.
  destruct (canonical_total root_path) as [c Hc]. rewrite Hc. destruct (canonical_path_segments c) as [rs|]; [|done].
  rewrite (lookup_canonical t root_path c Hc). destruct (lookup_path t root_path) as [root|] eqn:Hroot; [|done].
  pose proof (lookup_path_attached _ _ _ Hroot) as Hatt. destruct (attached_node t Hwf root Hatt) as [n Hn].
  unfold node. rewrite Hn. cbn [ok_or]. destruct (is_dir_body (n_body n)) eqn:Hdir; [cbn [negb]|done].
  destruct (mark_retained t root rs paths {[root]}) as [marked|] eqn:Hm; [|done].
  apply (mark_retained_spec t Hwf) in Hm as [Hall Hm].
  assert (∀ y, y ∈ marked ↔ y = root ∨ kept t root paths y) as Hmarked by (intros y; by rewrite (Hm y), elem_of_singleton).
  destruct (wf_chain t root Hwf) as (l & Hl & _).
  destruct (collect_stale_spec t Hwf marked (depth_fuel t) root l n) as (stale & Hcs & Hnd & Hst);
    [done|unfold depth_fuel; lia|done| |].
  { unfold children_of. by destruct (n_body n). }
  unfold collect_stale_subtrees. rewrite Hcs.
  destruct (drop_stale_spec stale t Hi) as (Hi' & Hrefs & Hb); [by eapply stale_apart|].
  set (t1 := foldl drop_stale t stale) in *. set (t2 := match stale with [] => t1 | _ => prune_principals t1 end).
  assert (alike t1 t2 ∧ fid_references t2 = fid_references t1 ∧ intakes t2 = intakes t1 ∧
          rename_relay_roots t2 = rename_relay_roots t1) as (Ha & Hr2 & Hi2 & Hn2) by (unfold t2; by destruct stale).
  assert (grows t1 t2) as Hg by (by apply alike_grows).
  split_and!; [apply Hg|congruence|]. exists root. split_and!; [done..| |].
  - intros y. transitivity (below t1 ROOT_ID y); [split; apply alike_below; [by apply alike_sym|done]|].
    rewrite (Hb y). split; intros [Hy H]; (split; [done|]).
    + intros Hry. apply (stale_cover t root paths marked Hwf Hmarked stale y Hst Hry) in H.
      apply Hmarked in H as [?|(path & x & ? & ? & _ & ?)]; [by left|right; by exists path, x].
    + intros s Hs. destruct (Hst s) as [H1 _]. destruct (H1 Hs) as (Hr & Hlk & Hnm). intros Hsy.
      assert (below t root s.2) as Hrs by (eapply rtc_r; [by apply (mreach_below t marked)|by eexists]).
      assert (below t root y) as Hry by (unfold below in *; by trans s.2).
      revert s Hs Hsy H1 Hr Hlk Hnm Hrs. cut (∀ s, s ∈ stale → ¬ below t s.2 y); [naive_solver|].
      apply (stale_cover t root paths marked Hwf Hmarked stale y Hst Hry), Hmarked.
      destruct (H Hry) as [?|(path & x & ? & ? & ?)]; [by left|right; by exists path, x].
  - unfold t2, t1. by destruct stale.
Qed.

Lemma retain_safe root_path paths : safe (retain_subtree_paths root_path paths).
Proof.
  intros t Hi. pose proof (retain_spec root_path paths t Hi) as H.
  destruct (retain_subtree_paths root_path paths t) as [[b|e] t']; [naive_solver|by subst].
Qed.

(** ** When it succeeds *)

Definition segments_of (path : bytes) : Result (list bytes) :=
  c ← canonical_root_path path; canonical_path_segments c.

Lemma resolve_app t x segments rest : resolve_segments t x (segments ++ rest) =
  (y ← resolve_segments t x segments; resolve_segments t y rest).
Proof.
  revert x. induction segments as [|s segments IH]; intros x; [done|]. simpl.
  destruct (node t x) as [n|]; [simpl|done]. destruct (children_of n) as [c|]; [|done].
  destruct (c !! s) as [y|]; [simpl|done]. apply IH.
Qed.

Lemma starts_with_app rs rest : starts_with (rs ++ rest) rs = true.
Proof. induction rs as [|s rs IH]; simpl; [by destruct rest|]. by rewrite bool_decide_true. Qed.

Lemma segments_lookup t path segments : segments_of path = Ok segments →
  lookup_path t path = resolve_segments t ROOT_ID segments.
Proof.
  unfold segments_of, canonical_root_path, lookup_path. case_bool_decide as He.
  - cbn [mbind Result_bind]. unfold canonical_path_segments. rewrite bool_decide_true by done. by intros [= <-].
  - unfold split_path. rewrite trim_slashes_idem, bool_decide_false by done. cbn [mbind Result_bind mret Result_ret].
    unfold canonical_path_segments. case_bool_decide as Hs; [by rewrite <-trim_slashes_idem, Hs, trim_slash in He|].
    unfold split_path. rewrite trim_slashes_idem, bool_decide_false by done. by intros [= <-].
Qed.

Lemma segments_below t root_path path root rs rest x : segments_of root_path = Ok rs → segments_of path = Ok (rs ++ rest) →
  lookup_path t root_path = Ok root → lookup_path t path = Ok x → below t root x.
Proof.
  intros Hrs Hp Hr Hx. rewrite (segments_lookup _ _ _ Hrs) in Hr. rewrite (segments_lookup _ _ _ Hp), resolve_app, Hr in Hx.
  by eapply resolve_below.
Qed.

(** The paths lie under the root and exist. *)
Definition under (t : Tree) (rs : list bytes) (path : bytes) : Prop :=
  ∃ rest x, segments_of path = Ok (rs ++ rest) ∧ lookup_path t path = Ok x.

Lemma mark_retained_succeeds t root_path root rs paths marked : wf t → segments_of root_path = Ok rs →
  lookup_path t root_path = Ok root → (∀ path, path ∈ paths → under t rs path) →
  ∃ marked', mark_retained t root rs paths marked = Ok marked'.
Proof.
  intros Hwf Hrs Hroot. revert marked. induction paths as [|path paths IH]; intros marked Hall; [by eexists|].
  cbn [mark_retained]. destruct (Hall path) as (rest & x & Hseg & Hx); [by left|].
  pose proof (segments_below t _ _ _ _ _ _ Hrs Hseg Hroot Hx) as Hb. pose proof (lookup_path_attached _ _ _ Hx) as Hatt.
  unfold segments_of in Hseg. destruct (canonical_root_path path) as [c|] eqn:Hc; [|done].
  cbn [mbind Result_bind] in Hseg |- *. rewrite Hseg. cbn [mbind Result_bind]. rewrite starts_with_app. cbn [negb].
  rewrite (lookup_canonical t path c Hc), Hx. cbn [mbind Result_bind].
  destruct (wf_chain t x Hwf) as (l & Hl & Hf).
  destruct (mark_up_succeeds t Hwf (depth_fuel t) root x l marked Hatt Hb Hl Hf) as [marked1 ->]. cbn [mbind Result_bind].
  apply IH. intros p Hp. apply Hall. by right.
Qed.

Lemma retain_succeeds t root_path root rs paths n : wf t → segments_of root_path = Ok rs →
  lookup_path t root_path = Ok root → nodes t !! root = Some n → is_dir_body (n_body n) = true →
  (∀ path, path ∈ paths → under t rs path) →
  ∃ changed, (retain_subtree_paths root_path paths t).1 = Ok changed.
Proof.
  intros Hwf Hrs Hroot Hn Hdir Hall.
  destruct (mark_retained_succeeds t root_path root rs paths {[root]} Hwf Hrs Hroot Hall) as [marked Hm].
  unfold segments_of in Hrs. destruct (canonical_root_path root_path) as [c|] eqn:Hc; [|done]. cbn [mbind Result_bind] in Hrs.
  unfold retain_subtree_paths, lift, query, modify, mbind, M_bind.
  rewrite Hc, Hrs, (lookup_canonical t root_path c Hc), Hroot. unfold node. rewrite Hn. cbn [ok_or]. rewrite Hdir. cbn [negb].
  rewrite Hm. unfold collect_stale_subtrees. destruct (wf_chain t root Hwf) as (l & Hl & _).
  destruct (collect_stale_spec t Hwf marked (depth_fuel t) root l n) as (stale & -> & _);
    [done|unfold depth_fuel; lia|done|unfold children_of; by destruct (n_body n)|]. by eexists.
Qed.
