(* ===== verification/FrontState.v ===== *)
(** The state of a front and the operations of its owner: the request part of
    [crates/front/src/model.rs], [crates/front/src/front.rs] and
    [crates/front/src/front/].

    An operation that holds the lock from start to end is a [M State] function.  A
    loop that waits on the condition variable is a [turn]: what it does each time
    it holds the lock, told whether its request was cancelled and whether its
    deadline has passed; [Wait] gives the lock up.  Lock poisoning and the
    notifications, which change nothing, are left out.  [u64] request ids saturate
    as in the code. *)
From S2P Require Import Prelude Errors Qid Stat Utf8 Referral NamespaceCache Text ExportDescriptor Codec Server FrontModel.

(** ** model.rs: requests and replies *)

Record RequestContext := RequestContext_mk {
  rc_principal_id : bytes;
  rc_uname : bytes;
  rc_aname : bytes;
  rc_session_id : Z;
  rc_fid : Z;
  rc_front_path : bytes;
  rc_target_path : bytes;
  rc_offset : Z;
  rc_count : Z;
  rc_open_mode : Z;
  rc_pushed_generation : Z;
}.

Record IntakeRequest := IntakeRequest_mk {
  ir_request_id : Z;
  ir_prefix : bytes;
  ir_bytes : bytes;
  ir_context : RequestContext;
}.

Record CreateRelayRequest := CreateRelayRequest_mk {
  cq_request_id : Z;
  cq_prefix : bytes;
  cq_name : bytes;
  cq_perm : Z;
  cq_mode : Z;
  cq_context : RequestContext;
}.

Record PendingCreate := PendingCreate_mk { pc_parent : Z; pc_name : bytes; pc_generation : Z; pc_prefix : bytes }.

Record RenameRelayRequest := RenameRelayRequest_mk {
  rr_request_id : Z;
  rr_prefix : bytes;
  rr_old_parent : RequestContext;
  rr_old_name : bytes;
  rr_new_parent : RequestContext;
  rr_new_name : bytes;
}.

Inductive WriteRelayReply := WriteAccepted (count : Z) | WriteRejected (message : bytes).

Inductive RequestReply :=
| RequestAccepted (bs : bytes)
| DirectoryAccepted (names : list bytes) (eof : bool)
| RequestRejected (message : bytes).

Inductive ChildDirectoryReply :=
| ChildAccepted (metadata : PushedEntryMetadata)
| ChildRejected (message : bytes).

Record ChildDirectoryResolution := ChildDirectoryResolution_mk {
  cd_request_id : Z;
  cd_prefix : bytes;
  cd_read_prefix : bytes;
  cd_removal : ChildDirectoryRemoval;
  cd_reply : option ChildDirectoryReply;
  cd_waiters : Z;
}.

(** [RemoveRelayReply], [WstatRelayReply] and [RenameRelayReply]. *)
Inductive RelayReply := RelayAccepted | RelayRejected (message : bytes).

Inductive CreateRelayReply :=
| CreateAccepted (qtype qid_version qid_path : Z)
| CreateRejected (message : bytes).

Record ProtocolConfig := ProtocolConfig_mk { max_msize : Z; iounit : Z }.

Record State := State_mk {
  tree : Tree;
  next_request_id : Z;
  pending : list IntakeRequest;
  create_pending : list CreateRelayRequest;
  create_targets : gmap Z PendingCreate;
  rename_pending : list RenameRelayRequest;
  rpc_responses : gmap Z (option RequestReply);
  response_prefixes : gmap Z bytes;
  directory_response_requests : gset Z;
  child_directory_resolutions : gmap (Z * bytes) ChildDirectoryResolution;
  child_directory_resolution_requests : gmap Z (Z * bytes);
  create_relay_responses : gmap Z (option CreateRelayReply);
  write_relay_responses : gmap Z (option WriteRelayReply);
  remove_relay_responses : gmap Z (option RelayReply);
  wstat_relay_responses : gmap Z (option RelayReply);
  rename_relay_responses : gmap Z (bytes * option RelayReply);
  write_relay_prefixes : gset bytes;
  wstat_relay_prefixes : gset bytes;
  wait_timeout : Z;
  protocol : ProtocolConfig;
}.

(** Assignments to fields. *)
Definition upd_tree (f : Tree → Tree) (s : State) : State :=
  State_mk (f (tree s)) (next_request_id s) (pending s) (create_pending s) (create_targets s) (rename_pending s)
    (rpc_responses s) (response_prefixes s) (directory_response_requests s) (child_directory_resolutions s)
    (child_directory_resolution_requests s) (create_relay_responses s) (write_relay_responses s)
    (remove_relay_responses s) (wstat_relay_responses s) (rename_relay_responses s) (write_relay_prefixes s)
    (wstat_relay_prefixes s) (wait_timeout s) (protocol s).
Definition upd_next_request_id (f : Z → Z) (s : State) : State :=
  State_mk (tree s) (f (next_request_id s)) (pending s) (create_pending s) (create_targets s) (rename_pending s)
    (rpc_responses s) (response_prefixes s) (directory_response_requests s) (child_directory_resolutions s)
    (child_directory_resolution_requests s) (create_relay_responses s) (write_relay_responses s)
    (remove_relay_responses s) (wstat_relay_responses s) (rename_relay_responses s) (write_relay_prefixes s)
    (wstat_relay_prefixes s) (wait_timeout s) (protocol s).
Definition upd_pending (f : list IntakeRequest → list IntakeRequest) (s : State) : State :=
  State_mk (tree s) (next_request_id s) (f (pending s)) (create_pending s) (create_targets s) (rename_pending s)
    (rpc_responses s) (response_prefixes s) (directory_response_requests s) (child_directory_resolutions s)
    (child_directory_resolution_requests s) (create_relay_responses s) (write_relay_responses s)
    (remove_relay_responses s) (wstat_relay_responses s) (rename_relay_responses s) (write_relay_prefixes s)
    (wstat_relay_prefixes s) (wait_timeout s) (protocol s).
Definition upd_create_pending (f : list CreateRelayRequest → list CreateRelayRequest) (s : State) : State :=
  State_mk (tree s) (next_request_id s) (pending s) (f (create_pending s)) (create_targets s) (rename_pending s)
    (rpc_responses s) (response_prefixes s) (directory_response_requests s) (child_directory_resolutions s)
    (child_directory_resolution_requests s) (create_relay_responses s) (write_relay_responses s)
    (remove_relay_responses s) (wstat_relay_responses s) (rename_relay_responses s) (write_relay_prefixes s)
    (wstat_relay_prefixes s) (wait_timeout s) (protocol s).
Definition upd_create_targets (f : gmap Z PendingCreate → gmap Z PendingCreate) (s : State) : State :=
  State_mk (tree s) (next_request_id s) (pending s) (create_pending s) (f (create_targets s)) (rename_pending s)
    (rpc_responses s) (response_prefixes s) (directory_response_requests s) (child_directory_resolutions s)
    (child_directory_resolution_requests s) (create_relay_responses s) (write_relay_responses s)
    (remove_relay_responses s) (wstat_relay_responses s) (rename_relay_responses s) (write_relay_prefixes s)
    (wstat_relay_prefixes s) (wait_timeout s) (protocol s).
Definition upd_rename_pending (f : list RenameRelayRequest → list RenameRelayRequest) (s : State) : State :=
  State_mk (tree s) (next_request_id s) (pending s) (create_pending s) (create_targets s) (f (rename_pending s))
    (rpc_responses s) (response_prefixes s) (directory_response_requests s) (child_directory_resolutions s)
    (child_directory_resolution_requests s) (create_relay_responses s) (write_relay_responses s)
    (remove_relay_responses s) (wstat_relay_responses s) (rename_relay_responses s) (write_relay_prefixes s)
    (wstat_relay_prefixes s) (wait_timeout s) (protocol s).
Definition upd_rpc_responses (f : gmap Z (option RequestReply) → gmap Z (option RequestReply)) (s : State) : State :=
  State_mk (tree s) (next_request_id s) (pending s) (create_pending s) (create_targets s) (rename_pending s)
    (f (rpc_responses s)) (response_prefixes s) (directory_response_requests s) (child_directory_resolutions s)
    (child_directory_resolution_requests s) (create_relay_responses s) (write_relay_responses s)
    (remove_relay_responses s) (wstat_relay_responses s) (rename_relay_responses s) (write_relay_prefixes s)
    (wstat_relay_prefixes s) (wait_timeout s) (protocol s).
Definition upd_response_prefixes (f : gmap Z bytes → gmap Z bytes) (s : State) : State :=
  State_mk (tree s) (next_request_id s) (pending s) (create_pending s) (create_targets s) (rename_pending s)
    (rpc_responses s) (f (response_prefixes s)) (directory_response_requests s) (child_directory_resolutions s)
    (child_directory_resolution_requests s) (create_relay_responses s) (write_relay_responses s)
    (remove_relay_responses s) (wstat_relay_responses s) (rename_relay_responses s) (write_relay_prefixes s)
    (wstat_relay_prefixes s) (wait_timeout s) (protocol s).
Definition upd_directory_response_requests (f : gset Z → gset Z) (s : State) : State :=
  State_mk (tree s) (next_request_id s) (pending s) (create_pending s) (create_targets s) (rename_pending s)
    (rpc_responses s) (response_prefixes s) (f (directory_response_requests s)) (child_directory_resolutions s)
    (child_directory_resolution_requests s) (create_relay_responses s) (write_relay_responses s)
    (remove_relay_responses s) (wstat_relay_responses s) (rename_relay_responses s) (write_relay_prefixes s)
    (wstat_relay_prefixes s) (wait_timeout s) (protocol s).
Definition upd_child_directory_resolutions (f : gmap (Z * bytes) ChildDirectoryResolution → gmap (Z * bytes) ChildDirectoryResolution) (s : State) : State :=
  State_mk (tree s) (next_request_id s) (pending s) (create_pending s) (create_targets s) (rename_pending s)
    (rpc_responses s) (response_prefixes s) (directory_response_requests s) (f (child_directory_resolutions s))
    (child_directory_resolution_requests s) (create_relay_responses s) (write_relay_responses s)
    (remove_relay_responses s) (wstat_relay_responses s) (rename_relay_responses s) (write_relay_prefixes s)
    (wstat_relay_prefixes s) (wait_timeout s) (protocol s).
Definition upd_child_directory_resolution_requests (f : gmap Z (Z * bytes) → gmap Z (Z * bytes)) (s : State) : State :=
  State_mk (tree s) (next_request_id s) (pending s) (create_pending s) (create_targets s) (rename_pending s)
    (rpc_responses s) (response_prefixes s) (directory_response_requests s) (child_directory_resolutions s)
    (f (child_directory_resolution_requests s)) (create_relay_responses s) (write_relay_responses s)
    (remove_relay_responses s) (wstat_relay_responses s) (rename_relay_responses s) (write_relay_prefixes s)
    (wstat_relay_prefixes s) (wait_timeout s) (protocol s).
Definition upd_create_relay_responses (f : gmap Z (option CreateRelayReply) → gmap Z (option CreateRelayReply)) (s : State) : State :=
  State_mk (tree s) (next_request_id s) (pending s) (create_pending s) (create_targets s) (rename_pending s)
    (rpc_responses s) (response_prefixes s) (directory_response_requests s) (child_directory_resolutions s)
    (child_directory_resolution_requests s) (f (create_relay_responses s)) (write_relay_responses s)
    (remove_relay_responses s) (wstat_relay_responses s) (rename_relay_responses s) (write_relay_prefixes s)
    (wstat_relay_prefixes s) (wait_timeout s) (protocol s).
Definition upd_write_relay_responses (f : gmap Z (option WriteRelayReply) → gmap Z (option WriteRelayReply)) (s : State) : State :=
  State_mk (tree s) (next_request_id s) (pending s) (create_pending s) (create_targets s) (rename_pending s)
    (rpc_responses s) (response_prefixes s) (directory_response_requests s) (child_directory_resolutions s)
    (child_directory_resolution_requests s) (create_relay_responses s) (f (write_relay_responses s))
    (remove_relay_responses s) (wstat_relay_responses s) (rename_relay_responses s) (write_relay_prefixes s)
    (wstat_relay_prefixes s) (wait_timeout s) (protocol s).
Definition upd_remove_relay_responses (f : gmap Z (option RelayReply) → gmap Z (option RelayReply)) (s : State) : State :=
  State_mk (tree s) (next_request_id s) (pending s) (create_pending s) (create_targets s) (rename_pending s)
    (rpc_responses s) (response_prefixes s) (directory_response_requests s) (child_directory_resolutions s)
    (child_directory_resolution_requests s) (create_relay_responses s) (write_relay_responses s)
    (f (remove_relay_responses s)) (wstat_relay_responses s) (rename_relay_responses s) (write_relay_prefixes s)
    (wstat_relay_prefixes s) (wait_timeout s) (protocol s).
Definition upd_wstat_relay_responses (f : gmap Z (option RelayReply) → gmap Z (option RelayReply)) (s : State) : State :=
  State_mk (tree s) (next_request_id s) (pending s) (create_pending s) (create_targets s) (rename_pending s)
    (rpc_responses s) (response_prefixes s) (directory_response_requests s) (child_directory_resolutions s)
    (child_directory_resolution_requests s) (create_relay_responses s) (write_relay_responses s)
    (remove_relay_responses s) (f (wstat_relay_responses s)) (rename_relay_responses s) (write_relay_prefixes s)
    (wstat_relay_prefixes s) (wait_timeout s) (protocol s).
Definition upd_rename_relay_responses (f : gmap Z (bytes * option RelayReply) → gmap Z (bytes * option RelayReply)) (s : State) : State :=
  State_mk (tree s) (next_request_id s) (pending s) (create_pending s) (create_targets s) (rename_pending s)
    (rpc_responses s) (response_prefixes s) (directory_response_requests s) (child_directory_resolutions s)
    (child_directory_resolution_requests s) (create_relay_responses s) (write_relay_responses s)
    (remove_relay_responses s) (wstat_relay_responses s) (f (rename_relay_responses s)) (write_relay_prefixes s)
    (wstat_relay_prefixes s) (wait_timeout s) (protocol s).
Definition upd_write_relay_prefixes (f : gset bytes → gset bytes) (s : State) : State :=
  State_mk (tree s) (next_request_id s) (pending s) (create_pending s) (create_targets s) (rename_pending s)
    (rpc_responses s) (response_prefixes s) (directory_response_requests s) (child_directory_resolutions s)
    (child_directory_resolution_requests s) (create_relay_responses s) (write_relay_responses s)
    (remove_relay_responses s) (wstat_relay_responses s) (rename_relay_responses s) (f (write_relay_prefixes s))
    (wstat_relay_prefixes s) (wait_timeout s) (protocol s).
Definition upd_wstat_relay_prefixes (f : gset bytes → gset bytes) (s : State) : State :=
  State_mk (tree s) (next_request_id s) (pending s) (create_pending s) (create_targets s) (rename_pending s)
    (rpc_responses s) (response_prefixes s) (directory_response_requests s) (child_directory_resolutions s)
    (child_directory_resolution_requests s) (create_relay_responses s) (write_relay_responses s)
    (remove_relay_responses s) (wstat_relay_responses s) (rename_relay_responses s) (write_relay_prefixes s)
    (f (wstat_relay_prefixes s)) (wait_timeout s) (protocol s).
Definition upd_wait_timeout (f : Z → Z) (s : State) : State :=
  State_mk (tree s) (next_request_id s) (pending s) (create_pending s) (create_targets s) (rename_pending s)
    (rpc_responses s) (response_prefixes s) (directory_response_requests s) (child_directory_resolutions s)
    (child_directory_resolution_requests s) (create_relay_responses s) (write_relay_responses s)
    (remove_relay_responses s) (wstat_relay_responses s) (rename_relay_responses s) (write_relay_prefixes s)
    (wstat_relay_prefixes s) (f (wait_timeout s)) (protocol s).
Definition upd_protocol (f : ProtocolConfig → ProtocolConfig) (s : State) : State :=
  State_mk (tree s) (next_request_id s) (pending s) (create_pending s) (create_targets s) (rename_pending s)
    (rpc_responses s) (response_prefixes s) (directory_response_requests s) (child_directory_resolutions s)
    (child_directory_resolution_requests s) (create_relay_responses s) (write_relay_responses s)
    (remove_relay_responses s) (wstat_relay_responses s) (rename_relay_responses s) (write_relay_prefixes s)
    (wstat_relay_prefixes s) (wait_timeout s) (f (protocol s)).

Definition State_new : State :=
  State_mk Tree_new 1 [] [] ∅ [] ∅ ∅ ∅ ∅ ∅ ∅ ∅ ∅ ∅ ∅ ∅ ∅ 30000 (ProtocolConfig_mk MAX_MSIZE DEFAULT_IOUNIT).

(** A method of the tree part. *)
Definition on_tree {A} (m : M Tree A) : M State A := λ s,
  let '(r, t) := m (tree s) in (r, upd_tree (λ _, t) s).

(** A [&self] method. *)
Definition ask {A} (f : State → Result A) : M State A := λ s, (f s, s).

Definition is_intake_prefix (s : State) (prefix : bytes) : bool :=
  bool_decide (Exists (λ x, x.2 = prefix) (map_to_list (intakes (tree s)))).

Definition remove_pending_request (request_id : Z) : State → State :=
  upd_pending (filter (λ r, ir_request_id r ≠ request_id)).

Definition remove_response_request (request_id : Z) (s : State) : State :=
  remove_pending_request request_id
    (upd_directory_response_requests (.∖ {[request_id]})
      (upd_response_prefixes (delete request_id) (upd_rpc_responses (delete request_id) s))).

Definition finish_child_directory_waiter (key : Z * bytes) (s : State) : State :=
  match child_directory_resolutions s !! key with
  | Some r =>
      if 1 <? cd_waiters r then
        upd_child_directory_resolutions (<[key := ChildDirectoryResolution_mk (cd_request_id r) (cd_prefix r)
          (cd_read_prefix r) (cd_removal r) (cd_reply r) (cd_waiters r - 1)]>) s
      else
        remove_pending_request (cd_request_id r)
          (upd_child_directory_resolution_requests (delete (cd_request_id r))
            (upd_child_directory_resolutions (delete key) s))
  | None => s
  end.

(** [position] and [remove]: the first request for the prefix, and the others. *)
Fixpoint pop_first {A} (f : A → bool) (l : list A) : option (A * list A) :=
  match l with
  | [] => None
  | x :: l =>
      if f x then Some (x, l)
      else '(y, rest) ← pop_first f l; Some (y, x :: rest)
  end.

Definition pop_pending_for_prefix (prefix : bytes) (s : State) : option IntakeRequest * State :=
  match pop_first (λ r, bool_decide (ir_prefix r = prefix)) (pending s) with
  | Some (r, rest) => (Some r, upd_pending (λ _, rest) s)
  | None => (None, s)
  end.

Definition pop_create_pending_for_prefix (prefix : bytes) (s : State) : option CreateRelayRequest * State :=
  match pop_first (λ r, bool_decide (cq_prefix r = prefix)) (create_pending s) with
  | Some (r, rest) => (Some r, upd_create_pending (λ _, rest) s)
  | None => (None, s)
  end.

Definition pop_rename_pending_for_prefix (prefix : bytes) (s : State) : option RenameRelayRequest * State :=
  match pop_first (λ r, bool_decide (rr_prefix r = prefix)) (rename_pending s) with
  | Some (r, rest) => (Some r, upd_rename_pending (λ _, rest) s)
  | None => (None, s)
  end.

(** [state.next_request_id], and its [saturating_add]. *)
Definition take_request_id : M State Z :=
  id ← gets next_request_id;
  _ ← modify (upd_next_request_id (λ n, saturating_add u64_max n 1));
  mret id.

(** ** front.rs: publishing *)

Definition set (path bs : bytes) : M State unit := _ ← on_tree (place path (File bs)); mret ().

Definition set_pushed_file (path bs : bytes) (metadata : PushedEntryMetadata) : M State unit :=
  _ ← on_tree (place_pushed_file path bs metadata); mret ().

Definition set_pushed_directory (path : bytes) (metadata : PushedEntryMetadata) : M State unit :=
  _ ← on_tree (place_pushed_directory path metadata); mret ().

Definition front_qid_path (path : bytes) : M State Z :=
  id ← ask (λ s, lookup_path (tree s) path);
  q ← ask (λ s, qid_for (tree s) id);
  mret (Qid.qid_path q).

Definition front_remove_subtree (path : bytes) : M State unit := on_tree (remove_subtree_if_exists path).

Definition front_retain_subtree_paths (root_path : bytes) (paths : list bytes) : M State unit :=
  _ ← on_tree (retain_subtree_paths root_path paths); mret ().

Definition append_event (path bs : bytes) : M State unit := _ ← on_tree (place path (Log (LogBody_new bs))); mret ().

Definition set_log_capacity (capacity : Z) : M State unit := modify (upd_tree (set_capacity (Z.max capacity 1))).

Definition set_wait_timeout (timeout : Z) : M State unit := modify (upd_wait_timeout (λ _, timeout)).

Definition set_protocol_limits (max_msize iounit : Z) : M State unit :=
  if negb ((MIN_MSIZE <=? max_msize) && (max_msize <=? MAX_MSIZE)) then throw (from_static "invalid max msize")
  else if max_msize <? iounit then throw (from_static "invalid iounit")
  else modify (upd_protocol (λ _, ProtocolConfig_mk max_msize iounit)).

(** ** front.rs: registering *)

Definition on_front_node (id : Z) (f : Node → Node) : M State unit := modify (upd_tree (on_node id f)).

Definition register_intake (prefix : bytes) : M State unit :=
  let trimmed := trim_slashes prefix in
  if bool_decide (trimmed = []) then throw (from_static EPERM)
  else
    id ← on_tree (place (trimmed ++ bstr "/new") (IntakeNew 0));
    _ ← on_front_node id (set_body (IntakeNew id));
    modify (upd_tree (λ t, set_intakes (<[id := trimmed]> (intakes t)) t)).

Definition register_rpc (path : bytes) : M State unit :=
  let trimmed := trim_slashes path in
  if bool_decide (trimmed = []) then throw (from_static EPERM)
  else _ ← on_tree (place trimmed (Rpc trimmed)); mret ().

(** The relay of one kind at a path: renamed if it is there, placed if nothing is. *)
Definition place_relay (same : Body → bool) (body : bytes → Body) (trimmed : bytes) : M State Z :=
  found ← ask (λ s, lookup_optional_path (tree s) trimmed);
  match found with
  | Some id =>
      n ← ask (λ s, node (tree s) id);
      if same (n_body n) then _ ← on_front_node id (set_body (body trimmed)); mret id
      else throw (from_static EPERM)
  | None => on_tree (place trimmed (body trimmed))
  end.

Definition is_read_relay (b : Body) : bool := match b with ReadRelay _ => true | _ => false end.
Definition is_snapshot_relay (b : Body) : bool := match b with SnapshotReadRelay _ => true | _ => false end.
Definition is_write_relay (b : Body) : bool := match b with WriteRelay _ => true | _ => false end.

Definition register_read_relay (path : bytes) : M State unit :=
  trimmed ← lift (normalise_request_prefix path);
  _ ← place_relay is_read_relay ReadRelay trimmed;
  mret ().

Definition register_read_relay_with_metadata (path : bytes) (metadata : PushedEntryMetadata) : M State unit :=
  trimmed ← lift (normalise_request_prefix path);
  id ← place_relay is_read_relay ReadRelay trimmed;
  on_tree (apply_pushed_metadata id metadata).

Definition register_snapshot_read_relay (path : bytes) : M State unit :=
  trimmed ← lift (normalise_request_prefix path);
  _ ← place_relay is_snapshot_relay SnapshotReadRelay trimmed;
  mret ().

Definition set_read_relay (prefix : bytes) (n : Node) : Node :=
  match n_body n with
  | Dir d => set_body (Dir (DirectoryBody_mk (children d) (Some prefix) (child_resolver d))) n
  | _ => n
  end.

Definition register_directory_read_relay (path : bytes) : M State unit :=
  trimmed ← lift (normalise_request_prefix path);
  id ← on_tree (ensure_path_dir trimmed);
  n ← ask (λ s, node (tree s) id);
  if is_dir_body (n_body n) then on_front_node id (set_read_relay trimmed) else throw (from_static ENOTDIR).

Definition set_write_relay (prefix : bytes) (n : Node) : Node :=
  set_relays (create_relay n) (Some prefix) (remove_relay n) (wstat_relay n) n.

Definition register_write_relay (path : bytes) : M State unit :=
  trimmed ← lift (normalise_request_prefix path);
  _ ← modify (upd_write_relay_prefixes ({[trimmed]} ∪.));
  found ← ask (λ s, lookup_optional_path (tree s) trimmed);
  match found with
  | Some id =>
      n ← ask (λ s, node (tree s) id);
      if is_dir_body (n_body n) then throw (from_static EPERM)
      else on_front_node id (λ n, set_write_relay trimmed (if is_write_relay (n_body n) then set_body (WriteRelay trimmed) n else n))
  | None =>
      id ← on_tree (place trimmed (WriteRelay trimmed));
      on_front_node id (set_write_relay trimmed)
  end.

Definition register_remove_relay (path : bytes) : M State unit :=
  trimmed ← lift (normalise_request_prefix path);
  id ← ask (λ s, lookup_path (tree s) trimmed);
  _ ← modify (upd_tree (λ t, set_remove_relay_prefixes ({[trimmed]} ∪ remove_relay_prefixes t) t));
  on_front_node id (λ n, set_relays (create_relay n) (write_relay n) (Some trimmed) (wstat_relay n) n).

Definition register_wstat_relay (path : bytes) : M State unit :=
  trimmed ← lift (normalise_request_prefix path);
  id ← ask (λ s, lookup_path (tree s) trimmed);
  _ ← modify (upd_wstat_relay_prefixes ({[trimmed]} ∪.));
  on_front_node id (λ n, set_relays (create_relay n) (write_relay n) (remove_relay n) (Some trimmed) n).

Definition register_create_relay (path : bytes) : M State unit :=
  trimmed ← lift (normalise_request_prefix path);
  id ← on_tree (ensure_path_dir trimmed);
  n ← ask (λ s, node (tree s) id);
  if is_dir_body (n_body n) then
    _ ← on_front_node id (λ n, set_relays (Some trimmed) (write_relay n) (remove_relay n) (wstat_relay n) n);
    modify (upd_write_relay_prefixes ({[trimmed]} ∪.))
  else throw (from_static ENOTDIR).

Definition register_log (path : bytes) : M State unit :=
  let trimmed := trim_slashes path in
  if bool_decide (trimmed = []) then throw (from_static EPERM)
  else _ ← on_tree (place trimmed (Log LogBody_empty)); mret ().

Definition register_log_at (path : bytes) (start_offset : Z) : M State unit :=
  let trimmed := trim_slashes path in
  if bool_decide (trimmed = []) then throw (from_static EPERM)
  else
    found ← ask (λ s, lookup_optional_path (tree s) trimmed);
    match found with
    | Some _ => throw (from_static EPERM)
    | None => _ ← on_tree (place trimmed (Log (LogBody_empty_at start_offset))); mret ()
    end.

(** ** front.rs: principals *)

Definition set_principal_class_aname (uname principal_id aname root_path : bytes) : M State unit :=
  if bool_decide (uname = []) || bool_decide (principal_id = []) then throw (from_static EPERM)
  else if bool_decide (aname = []) then throw (from_static EPERM)
  else
    root ← ask (λ s, lookup_path (tree s) root_path);
    n ← ask (λ s, node (tree s) root);
    if negb (is_dir_body (n_body n)) then throw (from_static ENOTDIR)
    else
      root_path ← lift (canonical_root_path root_path);
      _ ← modify (upd_tree (λ t, set_principals true (principal_roots t) t));
      roots ← gets (λ s, principal_roots (tree s));
      match roots !! uname with
      | Some existing =>
          if negb (bool_decide (pr_root_path existing = root_path)) then throw (from_static "principal root path mismatch")
          else if negb (bool_decide (pr_principal_id existing = principal_id)) then throw (from_static "principal id mismatch")
          else modify (upd_tree (set_principals true (<[uname := PrincipalRoot_mk root (pr_root_path existing)
                 (pr_principal_id existing) ({[aname]} ∪ pr_anames existing)]> roots)))
      | None =>
          modify (upd_tree (set_principals true (<[uname := PrincipalRoot_mk root root_path principal_id {[aname]}]> roots)))
      end.

Definition set_principal_root (principal root_path : bytes) : M State unit :=
  set_principal_class_aname principal principal (bstr "*") root_path.

Definition set_principal_root_aname (principal aname root_path : bytes) : M State unit :=
  set_principal_class_aname principal principal aname root_path.

Definition retain_principal_roots (unames : list bytes) : M State unit :=
  modify (upd_tree (λ t, set_principals (principal_roots_required t)
    (filter (λ x, x.1 ∈ unames) (principal_roots t)) t)).

(** ** front.rs: handing requests to the owner *)

Inductive Turn (A : Type) : Type := Done (r : Result A) | Wait.
Arguments Done {A} r.
Arguments Wait {A}.

Definition next_request_turn (expired : bool) (s : State) : Turn (option IntakeRequest) * State :=
  match pending s with
  | r :: rest => (Done (Ok (Some r)), upd_pending (λ _, rest) s)
  | [] => (if expired then Done (Ok None) else Wait, s)
  end.

(** The loop of the operations that pop for a prefix; the blocking ones have no
    deadline. *)
Definition pop_turn {A} (pop : State → option A * State) (expired : bool) (s : State) : Turn (option A) * State :=
  match pop s with
  | (Some r, s) => (Done (Ok (Some r)), s)
  | (None, s) => (if expired then Done (Ok None) else Wait, s)
  end.

Definition next_request_for_prefix_turn (prefix : bytes) : bool → State → Turn (option IntakeRequest) * State :=
  pop_turn (pop_pending_for_prefix prefix).

Definition next_create_request_turn (prefix : bytes) : State → Turn (option CreateRelayRequest) * State :=
  pop_turn (pop_create_pending_for_prefix prefix) false.

Definition next_rename_request_turn (prefix : bytes) : bool → State → Turn (option RenameRelayRequest) * State :=
  pop_turn (pop_rename_pending_for_prefix prefix).

Definition next_request_while_rpc_pending_turn (prefix : bytes) (rpc_request_id : Z) (s : State) :
    Turn (option IntakeRequest) * State :=
  match rpc_responses s !! rpc_request_id with
  | None => (Done (Ok None), s)
  | Some _ => pop_turn (pop_pending_for_prefix prefix) false s
  end.

(** ** front.rs: completing requests *)

Definition complete_request (prefix : bytes) (request_id : Z) (bs : bytes) : M State unit :=
  let trimmed := trim_slashes prefix in
  responses ← gets rpc_responses;
  match responses !! request_id with
  | Some slot =>
      directories ← gets directory_response_requests;
      if bool_decide (request_id ∈ directories) then throw (from_static "directory request requires directory completion")
      else
        trimmed ← lift (normalise_request_prefix prefix);
        prefixes ← gets response_prefixes;
        if negb (bool_decide (prefixes !! request_id = Some trimmed)) then throw (from_static ENOENT)
        else if bool_decide (is_Some slot) then throw (from_static "request already completed")
        else modify (upd_rpc_responses (<[request_id := Some (RequestAccepted bs)]>))
  | None =>
      intake ← gets (λ s, is_intake_prefix s trimmed);
      if (intake : bool) then set (trimmed ++ bstr "/" ++ dec request_id ++ bstr "/result") bs
      else throw (from_static ENOENT)
  end.

Definition invalid_child_name (name : bytes) : bool :=
  bool_decide (name = []) || bool_decide (name = bstr ".") || bool_decide (name = bstr "..") ||
  bool_decide (slash ∈ name) || (u16_max <? vlen name).

Definition complete_directory_request (prefix : bytes) (request_id : Z) (names : list bytes) (eof : bool) : M State unit :=
  if existsb invalid_child_name names then throw (from_static "invalid directory response child name")
  else
    trimmed ← lift (normalise_request_prefix prefix);
    prefixes ← gets response_prefixes;
    directories ← gets directory_response_requests;
    if negb (bool_decide (prefixes !! request_id = Some trimmed)) || negb (bool_decide (request_id ∈ directories))
    then throw (from_static ENOENT)
    else
      responses ← gets rpc_responses;
      slot ← lift (ok_or (responses !! request_id) (from_static ENOENT));
      if bool_decide (is_Some slot) then throw (from_static "request already completed")
      else modify (upd_rpc_responses (<[request_id := Some (DirectoryAccepted names eof)]>)).

Definition reject_request (prefix : bytes) (request_id : Z) (msg : bytes) : M State unit :=
  trimmed ← lift (normalise_request_prefix prefix);
  prefixes ← gets response_prefixes;
  if negb (bool_decide (prefixes !! request_id = Some trimmed)) then throw (from_static ENOENT)
  else
    responses ← gets rpc_responses;
    match responses !! request_id with
    | Some (Some _) => throw (from_static "request already completed")
    | Some None => modify (upd_rpc_responses (<[request_id := Some (RequestRejected msg)]>))
    | None => throw (from_static ENOENT)
    end.

Definition complete_write_result (prefix : bytes) (request_id : Z) (reply : WriteRelayReply) : M State unit :=
  prefix ← lift (normalise_request_prefix prefix);
  prefixes ← gets write_relay_prefixes;
  if negb (bool_decide (prefix ∈ prefixes)) then throw (from_static ENOENT)
  else
    responses ← gets write_relay_responses;
    match responses !! request_id with
    | Some _ => modify (upd_write_relay_responses (<[request_id := Some reply]>))
    | None => throw (from_static ENOENT)
    end.

Definition complete_write (prefix : bytes) (request_id count : Z) : M State unit :=
  complete_write_result prefix request_id (WriteAccepted count).
Definition reject_write (prefix : bytes) (request_id : Z) (msg : bytes) : M State unit :=
  complete_write_result prefix request_id (WriteRejected msg).

Definition complete_remove_result (prefix : bytes) (request_id : Z) (reply : RelayReply) : M State unit :=
  prefix ← lift (normalise_request_prefix prefix);
  prefixes ← gets (λ s, remove_relay_prefixes (tree s));
  if negb (bool_decide (prefix ∈ prefixes)) then throw (from_static ENOENT)
  else
    responses ← gets remove_relay_responses;
    match responses !! request_id with
    | Some _ => modify (upd_remove_relay_responses (<[request_id := Some reply]>))
    | None => throw (from_static ENOENT)
    end.

Definition complete_remove (prefix : bytes) (request_id : Z) : M State unit :=
  complete_remove_result prefix request_id RelayAccepted.
Definition reject_remove (prefix : bytes) (request_id : Z) (msg : bytes) : M State unit :=
  complete_remove_result prefix request_id (RelayRejected msg).

Definition complete_wstat_result (prefix : bytes) (request_id : Z) (reply : RelayReply) : M State unit :=
  prefix ← lift (normalise_request_prefix prefix);
  prefixes ← gets wstat_relay_prefixes;
  if negb (bool_decide (prefix ∈ prefixes)) then throw (from_static ENOENT)
  else
    responses ← gets wstat_relay_responses;
    match responses !! request_id with
    | Some _ => modify (upd_wstat_relay_responses (<[request_id := Some reply]>))
    | None => throw (from_static ENOENT)
    end.

Definition complete_wstat (prefix : bytes) (request_id : Z) : M State unit :=
  complete_wstat_result prefix request_id RelayAccepted.
Definition reject_wstat (prefix : bytes) (request_id : Z) (msg : bytes) : M State unit :=
  complete_wstat_result prefix request_id (RelayRejected msg).

(** [complete_create_with] up to the call of [publish]. *)
Definition complete_create_begin (prefix : bytes) (request_id qtype qid_version qid_path : Z) : M State PendingCreate :=
  prefix ← lift (normalise_request_prefix prefix);
  prefixes ← gets write_relay_prefixes;
  responses ← gets create_relay_responses;
  match responses !! request_id with
  | Some None =>
      if negb (bool_decide (prefix ∈ prefixes)) then throw (from_static ENOENT)
      else
        targets ← gets create_targets;
        target ← lift (ok_or (targets !! request_id) (from_static ENOENT));
        if negb (bool_decide (pc_prefix target = prefix)) then throw (from_static ENOENT)
        else
          _ ← on_tree (insert_created_relay_node (pc_parent target) (pc_name target)
                 (Qid_new qtype qid_version qid_path) (pc_generation target) (pc_prefix target));
          mret target
  | _ => throw (from_static ENOENT)
  end.

(** [complete_create_with] after [publish] failed. *)
Definition complete_create_failed (request_id qid_path : Z) (error : Error) : M State unit :=
  id ← ask (λ s, node_id_for_qid_path (tree s) qid_path);
  target_path ← ask (λ s, path_relative_to (tree s) id ROOT_ID);
  _ ← on_tree (remove_subtree_if_exists target_path);
  _ ← modify (upd_create_targets (delete request_id));
  _ ← modify (upd_create_relay_responses (alter (λ _, Some (CreateRejected (display_lossy error))) request_id));
  throw error.

(** [complete_create_with] after [publish] succeeded. *)
Definition complete_create_finish (target : PendingCreate) (request_id qtype qid_version qid_path : Z) : M State unit :=
  _ ← modify (upd_create_targets (delete request_id));
  responses ← gets create_relay_responses;
  match responses !! request_id with
  | Some None => modify (upd_create_relay_responses (<[request_id := Some (CreateAccepted qtype qid_version qid_path)]>))
  | _ =>
      parent_path ← ask (λ s, path_relative_to (tree s) (pc_parent target) ROOT_ID);
      _ ← on_tree (remove_subtree_if_exists (created_child_path parent_path (pc_name target)));
      throw (from_static ENOENT)
  end.

(** [complete_create_with] with a [publish] that changes the front by itself. *)
Definition complete_create_with (prefix : bytes) (request_id qtype qid_version qid_path : Z) (publish : M State unit) :
    M State unit :=
  λ s,
    match complete_create_begin prefix request_id qtype qid_version qid_path s with
    | (Err error, s) => (Err error, s)
    | (Ok target, s) =>
        match publish s with
        | (Err error, s) => complete_create_failed request_id qid_path error s
        | (Ok _, s) => complete_create_finish target request_id qtype qid_version qid_path s
        end
    end.

Definition complete_create (prefix : bytes) (request_id qtype qid_version qid_path : Z) : M State unit :=
  complete_create_with prefix request_id qtype qid_version qid_path (mret ()).

Definition complete_create_result (prefix : bytes) (request_id : Z) (reply : CreateRelayReply) : M State unit :=
  prefix ← lift (normalise_request_prefix prefix);
  prefixes ← gets write_relay_prefixes;
  if negb (bool_decide (prefix ∈ prefixes)) then throw (from_static ENOENT)
  else
    responses ← gets create_relay_responses;
    match responses !! request_id with
    | Some _ => modify (upd_create_relay_responses (<[request_id := Some reply]>))
    | None => throw (from_static ENOENT)
    end.

Definition reject_create (prefix : bytes) (request_id : Z) (msg : bytes) : M State unit :=
  _ ← modify (upd_create_targets (delete request_id));
  complete_create_result prefix request_id (CreateRejected msg).

(** ** front/child_directory_resolution.rs *)

Definition set_child_resolver (resolver : ChildDirectoryResolver) (n : Node) : Node :=
  match n_body n with
  | Dir d => set_body (Dir (DirectoryBody_mk (children d) (read_relay d) (Some resolver))) n
  | _ => n
  end.

Definition register_child_directory_resolver (path resolution_prefix read_prefix : bytes) (removal : ChildDirectoryRemoval) :
    M State unit :=
  let path := trim_slashes path in
  if bool_decide (path = []) then throw (from_static EPERM)
  else
    resolution_prefix ← lift (normalise_request_prefix resolution_prefix);
    read_prefix ← lift (normalise_request_prefix read_prefix);
    if bool_decide (resolution_prefix = read_prefix)
    then throw (from_static "child resolution and directory read prefixes must be distinct")
    else
      id ← on_tree (ensure_path_dir path);
      n ← ask (λ s, node (tree s) id);
      if is_dir_body (n_body n)
      then on_front_node id (set_child_resolver (ChildDirectoryResolver_mk resolution_prefix read_prefix removal))
      else throw (from_static ENOTDIR).

Definition set_reply (reply : ChildDirectoryReply) (r : ChildDirectoryResolution) : ChildDirectoryResolution :=
  ChildDirectoryResolution_mk (cd_request_id r) (cd_prefix r) (cd_read_prefix r) (cd_removal r) (Some reply) (cd_waiters r).

Definition complete_child_directory_resolution_result (prefix : bytes) (request_id : Z) (reply : ChildDirectoryReply) :
    M State unit :=
  prefix ← lift (normalise_request_prefix prefix);
  requests ← gets child_directory_resolution_requests;
  key ← lift (ok_or (requests !! request_id) (from_static ENOENT));
  resolutions ← gets child_directory_resolutions;
  r ← lift (ok_or (resolutions !! key) (from_static ENOENT));
  if negb (bool_decide (cd_prefix r = prefix)) then throw (from_static ENOENT)
  else match cd_reply r with
       | Some _ => throw (from_static "child directory resolution already completed")
       | None => modify (upd_child_directory_resolutions (<[key := set_reply reply r]>))
       end.

Definition complete_child_directory_resolution (prefix : bytes) (request_id : Z) (metadata : PushedEntryMetadata) :
    M State unit :=
  if negb (pm_length metadata =? 0) then throw (from_static "pushed directory length must be zero")
  else complete_child_directory_resolution_result prefix request_id (ChildAccepted metadata).

Definition reject_child_directory_resolution (prefix : bytes) (request_id : Z) (msg : bytes) : M State unit :=
  complete_child_directory_resolution_result prefix request_id (ChildRejected msg).

(** ** front/rename.rs *)

Definition register_rename_relay (path request_prefix : bytes) : M State unit :=
  request_prefix ← lift (normalise_request_prefix request_prefix);
  let trimmed := trim_slashes path in
  root ← (if bool_decide (trimmed = []) then mret ROOT_ID else on_tree (ensure_path_dir trimmed));
  n ← ask (λ s, node (tree s) root);
  if is_dir_body (n_body n)
  then modify (upd_tree (λ t, set_rename_relay_roots (<[root := request_prefix]> (rename_relay_roots t)) t))
  else throw (from_static ENOTDIR).

Definition complete_rename_result (prefix : bytes) (request_id : Z) (reply : RelayReply) : M State unit :=
  prefix ← lift (normalise_request_prefix prefix);
  responses ← gets rename_relay_responses;
  x ← lift (ok_or (responses !! request_id) (from_static ENOENT));
  let '(request_prefix, slot) := x in
  if negb (bool_decide (request_prefix = prefix)) then throw (from_static ENOENT)
  else match slot with
       | Some _ => throw (from_static "rename relay already completed")
       | None => modify (upd_rename_relay_responses (<[request_id := (request_prefix, Some reply)]>))
       end.

Definition complete_rename (prefix : bytes) (request_id : Z) : M State unit :=
  complete_rename_result prefix request_id RelayAccepted.
Definition reject_rename (prefix : bytes) (request_id : Z) (msg : bytes) : M State unit :=
  complete_rename_result prefix request_id (RelayRejected msg).

(** ** front.rs: the waits of the tree's side *)

(** [bytes[start..end]] of a read at [offset]. *)
Definition slice_at (offset count : Z) (bs : bytes) : bytes := ztake count (zdrop (Z.min offset (vlen bs)) bs).

Definition read_rpc_turn (request_id offset count : Z) (cancelled expired : bool) (s : State) : Turn ReadData * State :=
  if cancelled then (Done (Err (from_static "request flushed")), remove_response_request request_id s)
  else
    match rpc_responses s !! request_id with
    | None => (Done (Err (from_static ENOENT)), s)
    | Some (Some (RequestAccepted bs)) => (Done (Ok (Bytes (slice_at offset count bs))), s)
    | Some (Some (DirectoryAccepted _ _)) => (Done (Err (from_static "directory response used as a file response")), s)
    | Some (Some (RequestRejected msg)) => (Done (Err (Error_new msg)), s)
    | Some None =>
        if expired then (Done (Err (from_static "rpc request timed out awaiting response")), remove_response_request request_id s)
        else (Wait, s)
    end.

Definition directory_response_turn (request_id : Z) (cancelled expired : bool) (s : State) :
    Turn (list bytes * bool) * State :=
  if cancelled then (Done (Err (from_static "request flushed")), remove_response_request request_id s)
  else
    match rpc_responses s !! request_id with
    | None => (Done (Err (from_static ENOENT)), s)
    | Some (Some (DirectoryAccepted names eof)) => (Done (Ok (names, eof)), s)
    | Some (Some (RequestRejected msg)) => (Done (Err (Error_new msg)), s)
    | Some (Some (RequestAccepted _)) => (Done (Err (from_static "file response used as a directory response")), s)
    | Some None =>
        if expired
        then (Done (Err (from_static "directory request timed out awaiting response")), remove_response_request request_id s)
        else (Wait, s)
    end.

Definition wait_write_relay_turn (request_id data_len : Z) (cancelled expired : bool) (s : State) : Turn Z * State :=
  let gone s := remove_pending_request request_id (upd_write_relay_responses (delete request_id) s) in
  if cancelled then (Done (Err (from_static "request flushed")), gone s)
  else
    match write_relay_responses s !! request_id with
    | None => (Done (Err (from_static ENOENT)), s)
    | Some (Some (WriteAccepted count)) =>
        (Done (if data_len <? count then Err (from_static EPERM) else Ok count), upd_write_relay_responses (delete request_id) s)
    | Some (Some (WriteRejected msg)) => (Done (Err (Error_new msg)), upd_write_relay_responses (delete request_id) s)
    | Some None => if expired then (Done (Err (from_static "write relay unavailable")), gone s) else (Wait, s)
    end.

Definition wait_remove_relay_turn (request_id : Z) (expired : bool) (s : State) : Turn unit * State :=
  match remove_relay_responses s !! request_id with
  | None => (Done (Err (from_static ENOENT)), s)
  | Some (Some RelayAccepted) => (Done (Ok ()), upd_remove_relay_responses (delete request_id) s)
  | Some (Some (RelayRejected msg)) => (Done (Err (Error_new msg)), upd_remove_relay_responses (delete request_id) s)
  | Some None =>
      if expired then (Done (Err (from_static "remove relay unavailable")),
                       remove_pending_request request_id (upd_remove_relay_responses (delete request_id) s))
      else (Wait, s)
  end.

Definition wait_wstat_relay_turn (request_id : Z) (expired : bool) (s : State) : Turn unit * State :=
  match wstat_relay_responses s !! request_id with
  | None => (Done (Err (from_static ENOENT)), s)
  | Some (Some RelayAccepted) => (Done (Ok ()), upd_wstat_relay_responses (delete request_id) s)
  | Some (Some (RelayRejected msg)) => (Done (Err (Error_new msg)), upd_wstat_relay_responses (delete request_id) s)
  | Some None =>
      if expired then (Done (Err (from_static "wstat relay unavailable")),
                       remove_pending_request request_id (upd_wstat_relay_responses (delete request_id) s))
      else (Wait, s)
  end.

Definition wait_create_relay_turn (request_id : Z) (expired : bool) (s : State) : Turn (Z * Z * Z) * State :=
  match create_relay_responses s !! request_id with
  | None => (Done (Err (from_static ENOENT)), s)
  | Some (Some (CreateAccepted qtype version path)) =>
      (Done (Ok (qtype, version, path)), upd_create_relay_responses (delete request_id) s)
  | Some (Some (CreateRejected msg)) => (Done (Err (Error_new msg)), upd_create_relay_responses (delete request_id) s)
  | Some None =>
      if expired then
        (Done (Err (from_static "create relay unavailable")),
         upd_create_pending (filter (λ r, cq_request_id r ≠ request_id))
           (upd_create_targets (delete request_id) (upd_create_relay_responses (delete request_id) s)))
      else (Wait, s)
  end.

Definition wait_rename_relay_turn (request_id : Z) (expired : bool) (s : State) : Turn unit * State :=
  match rename_relay_responses s !! request_id with
  | None => (Done (Err (from_static ENOENT)), s)
  | Some (_, Some RelayAccepted) => (Done (Ok ()), upd_rename_relay_responses (delete request_id) s)
  | Some (_, Some (RelayRejected msg)) => (Done (Err (Error_new msg)), upd_rename_relay_responses (delete request_id) s)
  | Some (_, None) =>
      if expired then
        (Done (Err (from_static "rename relay unavailable")),
         upd_rename_pending (filter (λ r, rr_request_id r ≠ request_id)) (upd_rename_relay_responses (delete request_id) s))
      else (Wait, s)
  end.

Definition read_log_turn (id offset count : Z) (cancelled expired : bool) (s : State) : Turn ReadData :=
  if cancelled then Done (Err (from_static "request flushed"))
  else
    match node (tree s) id with
    | Err e => Done (Err e)
    | Ok n =>
        match n_body n with
        | Log l =>
            if offset <? log_start l
            then Done (Err (Error_new (bstr "log window passed: earliest retained offset " ++ dec (log_start l))))
            else if offset <? log_end l then Done (Ok (Bytes (log_read offset count l)))
            else if expired then Done (Ok (Bytes [])) else Wait
        | _ => Done (Err (from_static ENOENT))
        end
    end.

Fixpoint stats_of (t : Tree) (ids : list Z) : Result (list Stat) :=
  match ids with
  | [] => Ok []
  | id :: ids => st ← stat_for t id; rest ← stats_of t ids; mret (st :: rest)
  end.

(** [read_node]; a log waits. *)
Definition read_node_turn (id offset count : Z) (cancelled expired : bool) (s : State) : Turn ReadData :=
  match node (tree s) id with
  | Err e => Done (Err e)
  | Ok n =>
      match n_body n with
      | Dir d => Done (stats ← stats_of (tree s) ((ordered (children d)).*2); mret (Directory stats))
      | File bs => Done (Ok (Bytes (slice_at offset count bs)))
      | Log _ => read_log_turn id offset count cancelled expired s
      | _ => Done (Err (from_static EPERM))
      end
  end.
