(* ===== verification/FrontTree.v ===== *)
(** The sessions of a front: [crates/front/src/tree.rs] and
    [crates/front/src/tree/].

    An operation of a session takes the lock of the front's state several times, and
    others may act in between.  Each stretch under the lock is a [Section] here, a
    function of the session and the state; the operations are put together from
    sections in [FrontOps]. *)
From S2P Require Import Prelude Errors Qid Stat Utf8 Referral NamespaceCache Text ExportDescriptor Codec Server FrontModel FrontState.

(** ** Data *)

Record FidBinding := FidBinding_mk {
  fb_node : Z;
  fb_root : Z;
  fb_session_id : Z;
  fb_uname : bytes;
  fb_aname : bytes;
  fb_principal_id : bytes;
}.

(** [FidBinding { node, ..binding }] *)
Definition at_node (node : Z) (b : FidBinding) : FidBinding :=
  FidBinding_mk node (fb_root b) (fb_session_id b) (fb_uname b) (fb_aname b) (fb_principal_id b).

(** [RpcBuffer] and [WriteRelayBuffer]. *)
Record RelayBuffer := RelayBuffer_mk { rb_prefix : bytes; rb_bytes : bytes; rb_context : RequestContext }.

Record DirectoryRelaySnapshot := DirectoryRelaySnapshot_mk {
  ds_node : Z;
  ds_entries : list Z;
  ds_names : gset bytes;
  ds_eof : bool;
  ds_inflight : option Z;
}.

Definition DirectoryRelaySnapshot_new (node : Z) : DirectoryRelaySnapshot := DirectoryRelaySnapshot_mk node [] ∅ false None.

Definition set_inflight (request : option Z) (d : DirectoryRelaySnapshot) : DirectoryRelaySnapshot :=
  DirectoryRelaySnapshot_mk (ds_node d) (ds_entries d) (ds_names d) (ds_eof d) request.

Record FrontTree := FrontTree_mk {
  session_id : Z;
  fids : gmap Z FidBinding;
  open_modes : gmap Z Z;
  rpc_buffers : gmap Z RelayBuffer;
  rpc_inflight : gmap Z Z;
  snapshot_relay_inflight : gmap Z Z;
  directory_relay_snapshots : gmap Z DirectoryRelaySnapshot;
  write_relay_buffers : gmap Z RelayBuffer;
}.

(** Assignments to fields. *)
Definition upd_fids (f : gmap Z FidBinding → gmap Z FidBinding) (tr : FrontTree) : FrontTree :=
  FrontTree_mk (session_id tr) (f (fids tr)) (open_modes tr) (rpc_buffers tr) (rpc_inflight tr)
    (snapshot_relay_inflight tr) (directory_relay_snapshots tr) (write_relay_buffers tr).
Definition upd_open_modes (f : gmap Z Z → gmap Z Z) (tr : FrontTree) : FrontTree :=
  FrontTree_mk (session_id tr) (fids tr) (f (open_modes tr)) (rpc_buffers tr) (rpc_inflight tr)
    (snapshot_relay_inflight tr) (directory_relay_snapshots tr) (write_relay_buffers tr).
Definition upd_rpc_buffers (f : gmap Z RelayBuffer → gmap Z RelayBuffer) (tr : FrontTree) : FrontTree :=
  FrontTree_mk (session_id tr) (fids tr) (open_modes tr) (f (rpc_buffers tr)) (rpc_inflight tr)
    (snapshot_relay_inflight tr) (directory_relay_snapshots tr) (write_relay_buffers tr).
Definition upd_rpc_inflight (f : gmap Z Z → gmap Z Z) (tr : FrontTree) : FrontTree :=
  FrontTree_mk (session_id tr) (fids tr) (open_modes tr) (rpc_buffers tr) (f (rpc_inflight tr))
    (snapshot_relay_inflight tr) (directory_relay_snapshots tr) (write_relay_buffers tr).
Definition upd_snapshot_relay_inflight (f : gmap Z Z → gmap Z Z) (tr : FrontTree) : FrontTree :=
  FrontTree_mk (session_id tr) (fids tr) (open_modes tr) (rpc_buffers tr) (rpc_inflight tr)
    (f (snapshot_relay_inflight tr)) (directory_relay_snapshots tr) (write_relay_buffers tr).
Definition upd_directory_relay_snapshots (f : gmap Z DirectoryRelaySnapshot → gmap Z DirectoryRelaySnapshot) (tr : FrontTree) : FrontTree :=
  FrontTree_mk (session_id tr) (fids tr) (open_modes tr) (rpc_buffers tr) (rpc_inflight tr)
    (snapshot_relay_inflight tr) (f (directory_relay_snapshots tr)) (write_relay_buffers tr).
Definition upd_write_relay_buffers (f : gmap Z RelayBuffer → gmap Z RelayBuffer) (tr : FrontTree) : FrontTree :=
  FrontTree_mk (session_id tr) (fids tr) (open_modes tr) (rpc_buffers tr) (rpc_inflight tr)
    (snapshot_relay_inflight tr) (directory_relay_snapshots tr) (f (write_relay_buffers tr)).

Definition FrontTree_new (session_id : Z) : FrontTree := FrontTree_mk session_id ∅ ∅ ∅ ∅ ∅ ∅ ∅.

Inductive ReadTarget :=
| TNode (id : Z)
| TDirectory (stats : list Stat)
| TResponse (request_id offset : Z) (consume : bool)
| TDirectoryResponse (request_id fid node : Z).

(** ** Sections *)

Definition Section_ (A : Type) : Type := M (FrontTree * State) A.

Definition on_state {A} (m : M State A) : Section_ A := λ x,
  let '(r, s) := m x.2 in (r, (x.1, s)).
Definition on_session (f : FrontTree → FrontTree) : Section_ unit := modify (λ x, (f x.1, x.2)).
Definition of_session {A} (f : FrontTree → A) : Section_ A := gets (λ x, f x.1).
Definition of_tree {A} (f : Tree → Result A) : Section_ A := λ x, (f (FrontState.tree x.2), x).

Definition binding_of (fid : Z) : Section_ FidBinding := λ x,
  (ok_or (fids x.1 !! fid) (from_static EBADFID), x).

Definition bind_fid (fid : Z) (binding : FidBinding) : Section_ unit :=
  _ ← on_state (on_tree (retain_fid_node (fb_node binding)));
  previous ← of_session (λ tr, fids tr !! fid);
  _ ← on_session (upd_fids (<[fid := binding]>));
  match previous with
  | Some previous => on_state (on_tree (release_fid_node (fb_node previous)))
  | None => mret ()
  end.

Definition unbind_fid (fid : Z) : Section_ unit :=
  previous ← of_session (λ tr, fids tr !! fid);
  match previous with
  | Some binding =>
      _ ← on_session (upd_fids (delete fid));
      on_state (on_tree (release_fid_node (fb_node binding)))
  | None => mret ()
  end.

Definition request_context (binding : FidBinding) (fid : Z) (front_path target_path : bytes)
    (offset count open_mode pushed_generation : Z) : RequestContext :=
  RequestContext_mk (fb_principal_id binding) (from_utf8_lossy (fb_uname binding)) (from_utf8_lossy (fb_aname binding))
    (fb_session_id binding) fid front_path target_path offset count open_mode pushed_generation.

(** The paths of the node of a fid, from the root of its attachment and from the
    front's root, and the generation of the node. *)
Definition context_of (binding : FidBinding) (fid offset count open_mode : Z) : Section_ RequestContext :=
  target_path ← of_tree (λ t, path_relative_to t (fb_node binding) (fb_root binding));
  front_path ← of_tree (λ t, path_relative_to t (fb_node binding) ROOT_ID);
  n ← of_tree (λ t, node t (fb_node binding));
  mret (request_context binding fid front_path target_path offset count open_mode (n_generation n)).

Definition open_mode_of (fid : Z) : Section_ Z := of_session (λ tr, default 0 (open_modes tr !! fid)).

Definition push_pending (request_id : Z) (prefix bs : bytes) (context : RequestContext) : State → State :=
  upd_pending (λ l, l ++ [IntakeRequest_mk request_id prefix bs context]).

(** *** attach, open, stat *)

Definition accepts_open_mode (fid mode : Z) : Section_ bool :=
  binding ← binding_of fid;
  n ← of_tree (λ t, node t (fb_node binding));
  mret (open_allowed n mode).

Definition attach_section (fid : Z) (uname aname : bytes) : Section_ Qid :=
  root ← of_tree (λ t, attach_root_for t uname aname);
  roots ← gets (λ x, principal_roots (FrontState.tree x.2));
  let principal_id := match roots !! uname with Some r => pr_principal_id r | None => from_utf8_lossy uname end in
  qid ← of_tree (λ t, qid_for t root);
  session ← of_session session_id;
  _ ← bind_fid fid (FidBinding_mk root root session uname aname principal_id);
  mret qid.

Definition open_section (fid : Z) (qid : Qid) (mode : Z) : Section_ OpenFile :=
  binding ← binding_of fid;
  let id := fb_node binding in
  q ← of_tree (λ t, qid_for t id);
  if negb (Qid.qid_path q =? Qid.qid_path qid) then throw (from_static EBADFID)
  else
    n ← of_tree (λ t, node t id);
    if negb (open_allowed n mode) then throw (from_static EPERM)
    else
      _ ← on_session (upd_open_modes (<[fid := mode]>));
      config ← gets (λ x, protocol x.2);
      mret (OpenFile_mk qid (iounit config)).

Definition stat_section (qid : Qid) : Section_ Stat :=
  id ← of_tree (λ t, node_id_for_qid_path t (Qid.qid_path qid));
  of_tree (λ t, stat_for t id).

(** *** walk *)

(** [..], which stops at the root of the attachment. *)
Definition walk_up (current root : Z) : Section_ Z :=
  if current =? root then mret current else n ← of_tree (λ t, node t current); mret (n_parent n).

Definition walk_child (current : Z) (name : bytes) : Section_ (option Z) :=
  n ← of_tree (λ t, node t current);
  mret (match children_of n with Some c => c !! name | None => None end).

Definition walk_qid (id : Z) : Section_ Qid := of_tree (λ t, qid_for t id).

(** *** tree/child_directory_resolution.rs *)

Definition MAX_PENDING_RESOLUTIONS : Z := 256.

Definition append_path (parent name : bytes) : bytes :=
  match parent with [] => name | _ => parent ++ slash :: name end.

(** The request for a child that is not there yet. *)
Definition begin_resolution (binding : FidBinding) (fid parent : Z) (name : bytes) (resolver : ChildDirectoryResolver) :
    Section_ unit :=
  resolutions ← gets (λ x, child_directory_resolutions x.2);
  if MAX_PENDING_RESOLUTIONS <=? Z.of_nat (size resolutions)
  then throw (from_static "child directory resolution capacity reached")
  else
    name_text ← lift (ok_or (from_utf8 name) (from_static "child directory name must be UTF-8"));
    target ← of_tree (λ t, path_relative_to t parent (fb_root binding));
    front ← of_tree (λ t, path_relative_to t parent ROOT_ID);
    n ← of_tree (λ t, node t parent);
    let context := request_context binding fid (append_path front name_text) (append_path target name_text)
                     0 0 0 (n_generation n) in
    request_id ← on_state take_request_id;
    let key := (parent, name) in
    _ ← on_state (modify (upd_child_directory_resolutions (<[key := ChildDirectoryResolution_mk request_id
          (resolution_prefix resolver) (cr_read_prefix resolver) (cr_removal resolver) None 1]>)));
    _ ← on_state (modify (upd_child_directory_resolution_requests (<[request_id := key]>)));
    on_state (modify (push_pending request_id (resolution_prefix resolver) name context)).

Definition add_waiter (r : ChildDirectoryResolution) : ChildDirectoryResolution :=
  ChildDirectoryResolution_mk (cd_request_id r) (cd_prefix r) (cd_read_prefix r) (cd_removal r) (cd_reply r)
    (saturating_add usize_max (cd_waiters r) 1).

(** [resolve_child_directory] before its loop: an answer, or [None] to wait. *)
Definition resolve_begin (binding : FidBinding) (fid parent : Z) (name : bytes) : Section_ (option (option Z)) :=
  detached ← gets (λ x, node_is_detached (FrontState.tree x.2) parent);
  if (detached : bool) then throw (from_static ENOENT)
  else
    n ← of_tree (λ t, node t parent);
    match n_body n with
    | Dir d =>
        match children d !! name with
        | Some child => mret (Some (Some child))
        | None =>
            match child_resolver d with
            | None => mret (Some None)
            | Some resolver =>
                resolutions ← gets (λ x, child_directory_resolutions x.2);
                match resolutions !! (parent, name) with
                | Some r =>
                    _ ← on_state (modify (upd_child_directory_resolutions (<[(parent, name) := add_waiter r]>)));
                    mret None
                | None => _ ← begin_resolution binding fid parent name resolver; mret None
                end
            end
        end
    | _ => mret (Some None)
    end.

(** A turn of its loop. *)
Definition resolve_turn (parent : Z) (name : bytes) (expired : bool) (s : State) : Turn (option Z) * State :=
  let key := (parent, name) in
  let finished s := finish_child_directory_waiter key s in
  let last s := if expired
                then (Done (Err (from_static "child directory resolution timed out awaiting response")), finished s)
                else (Wait, s) in
  if node_is_detached (FrontState.tree s) parent then (Done (Err (from_static ENOENT)), finished s)
  else
    match nodes (FrontState.tree s) !! parent with
    | None => (Done (Err (from_static ENOENT)), finished s)
    | Some n =>
        match children_of n with
        | None => (Done (Err (from_static ENOTDIR)), finished s)
        | Some c =>
            match c !! name with
            | Some child => (Done (Ok (Some child)), finished s)
            | None =>
                match child_directory_resolutions s !! key with
                | None => (Done (Err (from_static ENOENT)), s)
                | Some r =>
                    match cd_reply r with
                    | Some (ChildAccepted metadata) =>
                        match on_tree (insert_pushed_child_directory parent name metadata (cd_read_prefix r) (cd_removal r)) s with
                        | (Ok child, s) => (Done (Ok (Some child)), finished s)
                        | (Err e, s) =>
                            last (upd_child_directory_resolutions (alter (set_reply (ChildRejected (display_lossy e))) key) s)
                        end
                    | Some (ChildRejected msg) => (Done (Err (Error_new msg)), finished s)
                    | None => last s
                    end
                end
            end
        end
    end.

(** *** create *)

Definition create_begin (fid : Z) (qid : Qid) (name : bytes) (perm mode : Z) : Section_ (FidBinding * Z) :=
  binding ← binding_of fid;
  let parent_id := fb_node binding in
  q ← of_tree (λ t, qid_for t parent_id);
  if negb (Qid.qid_path q =? Qid.qid_path qid) then throw (from_static EBADFID)
  else
    n ← of_tree (λ t, node t parent_id);
    match children_of n with
    | None => throw (from_static ENOTDIR)
    | Some c =>
        match create_relay n with
        | None => throw (from_static (if bool_decide (is_Some (c !! name)) then EEXIST else EPERM))
        | Some create_prefix =>
            name_text ← lift (ok_or (from_utf8 name) (from_static "create name is not utf-8"));
            parent_path ← of_tree (λ t, path_relative_to t parent_id (fb_root binding));
            parent_front_path ← of_tree (λ t, path_relative_to t parent_id ROOT_ID);
            let context := request_context binding fid (created_child_path parent_front_path name_text)
                             (created_child_path parent_path name_text) 0 0 mode (n_generation n) in
            request_id ← on_state take_request_id;
            _ ← on_state (modify (upd_create_relay_responses (<[request_id := None]>)));
            _ ← on_state (modify (upd_create_targets
                  (<[request_id := PendingCreate_mk parent_id name_text (n_generation n) create_prefix]>)));
            _ ← on_state (modify (upd_create_pending
                  (λ l, l ++ [CreateRelayRequest_mk request_id create_prefix name_text perm mode context])));
            mret (binding, request_id)
        end
    end.

Definition create_finish (fid : Z) (binding : FidBinding) (mode qtype version path : Z) : Section_ OpenFile :=
  id ← of_tree (λ t, node_id_for_qid_path t path);
  _ ← bind_fid fid (at_node id binding);
  _ ← on_session (upd_open_modes (<[fid := mode]>));
  config ← gets (λ x, protocol x.2);
  mret (OpenFile_mk (Qid_new qtype version path) (iounit config)).

(** *** read *)

(** A request whose answer comes in [rpc_responses]. *)
Definition submit (prefix bs : bytes) (context : RequestContext) : Section_ Z :=
  request_id ← on_state take_request_id;
  _ ← on_state (modify (upd_rpc_responses (<[request_id := None]>)));
  _ ← on_state (modify (upd_response_prefixes (<[request_id := prefix]>)));
  _ ← on_state (modify (push_pending request_id prefix bs context));
  mret request_id.

Fixpoint encoded_size (stats : list Stat) (total : Z) : Result Z :=
  match stats with
  | [] => Ok total
  | st :: stats => encoded ← Stat_encode st; encoded_size stats (saturating_add u64_max total (vlen encoded))
  end.

(** [entry(fid).or_insert_with], and a new snapshot when the fid names another
    node. *)
Definition snapshot_for (fid id : Z) : Section_ DirectoryRelaySnapshot :=
  found ← of_session (λ tr, directory_relay_snapshots tr !! fid);
  let snapshot := match found with
                  | Some d => if ds_node d =? id then d else DirectoryRelaySnapshot_new id
                  | None => DirectoryRelaySnapshot_new id
                  end in
  _ ← on_session (upd_directory_relay_snapshots (<[fid := snapshot]>));
  mret snapshot.

Definition read_directory_target (binding : FidBinding) (fid offset count : Z) (prefix : bytes) : Section_ ReadTarget :=
  let id := fb_node binding in
  snapshot ← snapshot_for fid id;
  stats ← of_tree (λ t, stats_of t (ds_entries snapshot));
  observed_bytes ← lift (encoded_size stats 0);
  if (offset <? observed_bytes) || ds_eof snapshot then mret (TDirectory stats)
  else
    match ds_inflight snapshot with
    | Some request_id => mret (TDirectoryResponse request_id fid id)
    | None =>
        open_mode ← open_mode_of fid;
        context ← context_of binding fid offset count open_mode;
        request_id ← submit prefix [] context;
        _ ← on_state (modify (upd_directory_response_requests ({[request_id]} ∪.)));
        _ ← on_session (upd_directory_relay_snapshots (<[fid := set_inflight (Some request_id) snapshot]>));
        mret (TDirectoryResponse request_id fid id)
    end.

Definition read_rpc_target (fid offset : Z) : Section_ ReadTarget :=
  inflight ← of_session (λ tr, rpc_inflight tr !! fid);
  match inflight with
  | Some request_id => mret (TResponse request_id offset false)
  | None =>
      buffers ← of_session rpc_buffers;
      buffer ← lift (ok_or (buffers !! fid) (from_static "rpc read before write on this fid"));
      _ ← on_session (upd_rpc_buffers (delete fid));
      request_id ← submit (rb_prefix buffer) (rb_bytes buffer) (rb_context buffer);
      _ ← on_session (upd_rpc_inflight (<[fid := request_id]>));
      mret (TResponse request_id offset false)
  end.

Definition read_relay_target (binding : FidBinding) (fid offset count : Z) (prefix : bytes) : Section_ ReadTarget :=
  open_mode ← open_mode_of fid;
  context ← context_of binding fid offset count open_mode;
  request_id ← submit prefix [] context;
  mret (TResponse request_id 0 true).

Definition read_snapshot_target (binding : FidBinding) (fid offset count : Z) (prefix : bytes) : Section_ ReadTarget :=
  inflight ← of_session (λ tr, snapshot_relay_inflight tr !! fid);
  responses ← gets (λ x, rpc_responses x.2);
  let fresh :=
    open_mode ← open_mode_of fid;
    context ← context_of binding fid offset count open_mode;
    request_id ← submit prefix [] context;
    _ ← on_session (upd_snapshot_relay_inflight (<[fid := request_id]>));
    mret (TResponse request_id offset false) in
  match inflight with
  | Some request_id =>
      if bool_decide (is_Some (responses !! request_id)) then mret (TResponse request_id offset false)
      else _ ← on_session (upd_snapshot_relay_inflight (delete fid)); fresh
  | None => fresh
  end.

Definition read_target_at (fid offset count : Z) : Section_ ReadTarget :=
  binding ← binding_of fid;
  n ← of_tree (λ t, node t (fb_node binding));
  match n_body n with
  | Dir d =>
      match read_relay d with
      | Some prefix => read_directory_target binding fid offset count prefix
      | None => mret (TNode (fb_node binding))
      end
  | Rpc _ => read_rpc_target fid offset
  | ReadRelay prefix => read_relay_target binding fid offset count prefix
  | SnapshotReadRelay prefix => read_snapshot_target binding fid offset count prefix
  | _ => mret (TNode (fb_node binding))
  end.

(** The names of a response that are new to the snapshot, with their nodes. *)
Fixpoint append_names (c : gmap bytes Z) (names : list bytes) (seen : gset bytes) : option (list Z * gset bytes) :=
  match names with
  | [] => Some ([], seen)
  | name :: names =>
      child ← c !! name;
      '(rest, seen') ← append_names c names ({[name]} ∪ seen);
      Some (if bool_decide (name ∈ seen) then rest else child :: rest, seen')
  end.

(** The names a failed response left in the snapshot. *)
Fixpoint seen_names (c : gmap bytes Z) (names : list bytes) (seen : gset bytes) : gset bytes :=
  match names with
  | [] => seen
  | name :: names => match c !! name with Some _ => seen_names c names ({[name]} ∪ seen) | None => seen end
  end.

Definition apply_directory_response (fid id request_id : Z) (response : Result (list bytes * bool)) : Section_ ReadData :=
  let forget := on_state (modify (remove_response_request request_id)) in
  snapshots ← of_session directory_relay_snapshots;
  snapshot ← lift (ok_or (snapshots !! fid) (from_static EBADFID));
  if negb (ds_node snapshot =? id) || negb (bool_decide (ds_inflight snapshot = Some request_id))
  then _ ← forget; throw (from_static "directory response no longer matches its fid")
  else
    let snapshot := set_inflight None snapshot in
    _ ← on_session (upd_directory_relay_snapshots (<[fid := snapshot]>));
    match response with
    | Err e => _ ← forget; throw e
    | Ok (names, eof) =>
        n ← of_tree (λ t, node t id);
        match n_body n with
        | Dir (DirectoryBody_mk c (Some _) _) =>
            match append_names c names (ds_names snapshot) with
            | None =>
                _ ← on_session (upd_directory_relay_snapshots (<[fid := DirectoryRelaySnapshot_mk (ds_node snapshot)
                      (ds_entries snapshot) (seen_names c names (ds_names snapshot)) (ds_eof snapshot) None]>));
                _ ← forget;
                throw (from_static "directory response child is not published")
            | Some (appended, seen) =>
                let entries := ds_entries snapshot ++ appended in
                _ ← on_session (upd_directory_relay_snapshots
                      (<[fid := DirectoryRelaySnapshot_mk (ds_node snapshot) entries seen eof None]>));
                stats ← gets (λ x, stats_of (FrontState.tree x.2) entries);
                _ ← forget;
                stats ← lift stats;
                mret (Directory stats)
            end
        | _ => _ ← forget; throw (from_static "directory relay target is no longer a relayed directory")
        end
    end.

(** *** write *)

Definition u32_of (n : Z) : Result Z := ok_or (try_from u32_max n) (from_static EPERM).

Definition write_rpc (fid offset : Z) (data prefix : bytes) (context : RequestContext) : Section_ Z :=
  inflight ← of_session (λ tr, rpc_inflight tr !! fid);
  _ ← match inflight with
      | Some previous =>
          if negb (offset =? 0) then throw (from_static "rpc request already submitted")
          else
            _ ← on_session (upd_rpc_inflight (delete fid));
            on_state (modify (remove_response_request previous))
      | None => mret ()
      end;
  _ ← (if offset =? 0 then on_session (upd_rpc_buffers (<[fid := RelayBuffer_mk prefix data context]>))
       else
         buffers ← of_session rpc_buffers;
         buffer ← lift (ok_or (buffers !! fid) (from_static "rpc write offset without request start"));
         if negb (bool_decide (rb_prefix buffer = prefix)) then throw (from_static "rpc path changed while buffering")
         else if negb (offset =? vlen (rb_bytes buffer)) then throw (from_static "rpc write offset is not sequential")
         else on_session (upd_rpc_buffers
                (<[fid := RelayBuffer_mk (rb_prefix buffer) (rb_bytes buffer ++ data) (rb_context buffer)]>)));
  lift (u32_of (vlen data)).

Definition write_buffered (fid offset : Z) (data prefix : bytes) (context : RequestContext) : Section_ Z :=
  buffers ← of_session write_relay_buffers;
  _ ← match buffers !! fid with
      | Some buffer =>
          if negb (bool_decide (rb_prefix buffer = prefix)) then throw (from_static "write relay path changed while buffering")
          else
            expected ← lift (ok_or (checked_add u64_max (rc_offset (rb_context buffer)) (vlen (rb_bytes buffer)))
                               (from_static EPERM));
            if negb (offset =? expected) then throw (from_static "write relay offset is not sequential")
            else on_session (upd_write_relay_buffers
                   (<[fid := RelayBuffer_mk (rb_prefix buffer) (rb_bytes buffer ++ data) (rb_context buffer)]>))
      | None => on_session (upd_write_relay_buffers (<[fid := RelayBuffer_mk prefix data context]>))
      end;
  lift (u32_of (vlen data)).

Definition write_intake (intake_id : Z) (data : bytes) (context : RequestContext) : Section_ Z :=
  prefix ← of_tree (λ t, ok_or (intakes t !! intake_id) (from_static ENOENT));
  request_id ← on_state take_request_id;
  _ ← on_state (on_tree (place (prefix ++ bstr "/" ++ dec request_id ++ bstr "/request") (File data)));
  _ ← on_state (on_tree (place (prefix ++ bstr "/created") (File (dec request_id))));
  _ ← on_state (modify (push_pending request_id prefix data context));
  lift (u32_of (vlen data)).

(** [node.write_relay], or the prefix of a [WriteRelay] body. *)
Definition write_relay_of (n : Node) : option bytes :=
  match write_relay n with
  | Some prefix => Some prefix
  | None => match n_body n with WriteRelay prefix => Some prefix | _ => None end
  end.

Definition write_section (fid offset : Z) (data : bytes) : Section_ Z :=
  binding ← binding_of fid;
  open_mode ← open_mode_of fid;
  context ← context_of binding fid offset 0 open_mode;
  count ← lift (u32_of (vlen data));
  let context := request_context binding fid (rc_front_path context) (rc_target_path context) offset count open_mode
                   (rc_pushed_generation context) in
  n ← of_tree (λ t, node t (fb_node binding));
  match n_body n with
  | Rpc prefix => write_rpc fid offset data prefix context
  | body =>
      match write_relay_of n with
      | Some prefix => write_buffered fid offset data prefix context
      | None =>
          match body with
          | IntakeNew intake_id => write_intake intake_id data context
          | _ => throw (from_static EPERM)
          end
      end
  end.

(** *** clunk *)

(** The buffer of a write relay, taken, and its request; [None] if there was none. *)
Definition commit_begin (fid : Z) : Section_ (option (Z * Z)) :=
  buffers ← of_session write_relay_buffers;
  match buffers !! fid with
  | None => mret None
  | Some buffer =>
      _ ← on_session (upd_write_relay_buffers (delete fid));
      request_id ← on_state take_request_id;
      _ ← on_state (modify (upd_write_relay_responses (<[request_id := None]>)));
      _ ← on_state (modify (push_pending request_id (rb_prefix buffer) (rb_bytes buffer) (rb_context buffer)));
      mret (Some (request_id, vlen (rb_bytes buffer)))
  end.

Definition forget_request (request : option Z) : Section_ unit :=
  match request with
  | Some request_id => on_state (modify (remove_response_request request_id))
  | None => mret ()
  end.

Definition clunk_finish (fid : Z) : Section_ unit :=
  _ ← unbind_fid fid;
  _ ← on_session (upd_open_modes (delete fid));
  _ ← on_session (upd_rpc_buffers (delete fid));
  snapshot ← of_session (λ tr, directory_relay_snapshots tr !! fid);
  _ ← on_session (upd_directory_relay_snapshots (delete fid));
  _ ← forget_request (d ← snapshot; ds_inflight d);
  rpc ← of_session (λ tr, rpc_inflight tr !! fid);
  _ ← on_session (upd_rpc_inflight (delete fid));
  match rpc with
  | Some request_id => forget_request (Some request_id)
  | None =>
      snapshot ← of_session (λ tr, snapshot_relay_inflight tr !! fid);
      _ ← on_session (upd_snapshot_relay_inflight (delete fid));
      forget_request snapshot
  end.

(** *** remove, wstat, rename *)

(** The check that the fid still names what the protocol server thinks. *)
Definition checked_node (fid : Z) (qid : Qid) : Section_ (FidBinding * Node) :=
  binding ← binding_of fid;
  q ← of_tree (λ t, qid_for t (fb_node binding));
  if negb (Qid.qid_path q =? Qid.qid_path qid) then throw (from_static EBADFID)
  else n ← of_tree (λ t, node t (fb_node binding)); mret (binding, n).

Definition remove_begin (fid : Z) (qid : Qid) : Section_ (bytes * Z) :=
  x ← checked_node fid qid;
  let '(binding, n) := x in
  prefix ← lift (ok_or (remove_relay n) (from_static EPERM));
  context ← context_of binding fid 0 0 0;
  request_id ← on_state take_request_id;
  _ ← on_state (modify (upd_remove_relay_responses (<[request_id := None]>)));
  _ ← on_state (modify (push_pending request_id prefix [] context));
  mret (rc_front_path context, request_id).

Definition remove_finish (fid : Z) (front_path : bytes) : Section_ unit :=
  _ ← on_state (on_tree (remove_subtree_if_exists front_path));
  _ ← unbind_fid fid;
  _ ← on_session (upd_open_modes (delete fid));
  _ ← on_session (upd_rpc_buffers (delete fid));
  _ ← on_session (upd_write_relay_buffers (delete fid));
  rpc ← of_session (λ tr, rpc_inflight tr !! fid);
  _ ← on_session (upd_rpc_inflight (delete fid));
  forget_request rpc.

Definition wstat_begin (fid : Z) (qid : Qid) (st : Stat) : Section_ Z :=
  x ← checked_node fid qid;
  let '(binding, n) := x in
  prefix ← lift (ok_or (wstat_relay n) (from_static EPERM));
  open_mode ← open_mode_of fid;
  context ← context_of binding fid 0 0 open_mode;
  stat_bytes ← lift (Stat_encode st);
  count ← lift (u32_of (vlen stat_bytes));
  let context := request_context binding fid (rc_front_path context) (rc_target_path context) 0 count open_mode
                   (rc_pushed_generation context) in
  request_id ← on_state take_request_id;
  _ ← on_state (modify (upd_wstat_relay_responses (<[request_id := None]>)));
  _ ← on_state (modify (push_pending request_id prefix stat_bytes context));
  mret request_id.

(** [None]: the names are the same and there is nothing to do. *)
Definition rename_begin (olddirfid : Z) (olddir_qid : Qid) (oldname : bytes) (newdirfid : Z) (newdir_qid : Qid)
    (newname : bytes) : Section_ (option Z) :=
  old ← binding_of olddirfid;
  new ← binding_of newdirfid;
  if negb (fb_root old =? fb_root new) || negb (bool_decide (fb_principal_id old = fb_principal_id new)) ||
     negb (bool_decide (fb_uname old = fb_uname new)) || negb (bool_decide (fb_aname old = fb_aname new))
  then throw (from_static EPERM)
  else if (fb_node old =? fb_node new) && bool_decide (oldname = newname) then mret None
  else
    old_qid ← of_tree (λ t, qid_for t (fb_node old));
    new_qid ← (if bool_decide (old_qid = olddir_qid) then of_tree (λ t, qid_for t (fb_node new)) else throw (from_static EBADFID));
    if negb (bool_decide (new_qid = newdir_qid)) then throw (from_static EBADFID)
    else
      old_node ← of_tree (λ t, node t (fb_node old));
      match children_of old_node with
      | None => throw (from_static ENOTDIR)
      | Some c =>
          if negb (bool_decide (is_Some (c !! oldname))) then throw (from_static ENOENT)
          else
            new_node ← of_tree (λ t, node t (fb_node new));
            if negb (is_dir_body (n_body new_node)) then throw (from_static ENOTDIR)
            else
              prefix ← of_tree (λ t, ok_or (rename_relay_for t (fb_node old) (fb_node new)) (from_static EPERM));
              front_old ← of_tree (λ t, path_relative_to t (fb_node old) ROOT_ID);
              target_old ← of_tree (λ t, path_relative_to t (fb_node old) (fb_root old));
              old_count ← lift (u32_of (vlen oldname));
              front_new ← of_tree (λ t, path_relative_to t (fb_node new) ROOT_ID);
              target_new ← of_tree (λ t, path_relative_to t (fb_node new) (fb_root new));
              new_count ← lift (u32_of (vlen newname));
              request_id ← on_state take_request_id;
              _ ← on_state (modify (upd_rename_relay_responses (<[request_id := (prefix, None)]>)));
              _ ← on_state (modify (upd_rename_pending (λ l, l ++ [RenameRelayRequest_mk request_id prefix
                    (request_context old olddirfid front_old target_old 0 old_count 0 (n_generation old_node)) oldname
                    (request_context new newdirfid front_new target_new 0 new_count 0 (n_generation new_node)) newname])));
              mret (Some request_id)
      end.

(** *** Drop *)

(** [release_fid_node], whose error [Drop] ignores. *)
Definition release_ignored (id : Z) (t : Tree) : Tree := (release_fid_node id t).2.

Definition drop_session (tr : FrontTree) (s : State) : State :=
  let s := upd_tree (λ t, foldl (λ t b, release_ignored (fb_node b) t) t (values (fids tr))) s in
  let s := foldl (λ s r, remove_response_request r s) s (values (rpc_inflight tr)) in
  let s := foldl (λ s r, remove_response_request r s) s (values (snapshot_relay_inflight tr)) in
  foldl (λ s r, remove_response_request r s) s
    (omap ds_inflight (values (directory_relay_snapshots tr))).
