(* ===== verification/FrontOps.v ===== *)
(** The operations of a session, [impl FileTree for FrontTree] in
    [crates/front/src/tree.rs], put together from the sections of [FrontTree].

    A front with its sessions is a [Sys].  An operation of one session runs in a
    [World]: a script says what the others do each time the operation takes the
    lock or waits, whether its request was cancelled by then and whether its
    deadline has passed; when the script ends, the deadline has.  Every section
    before which the others may act pops one entry. *)
From stdpp Require Import relations.
From S2P Require Import Prelude Errors Qid Stat Utf8 Referral NamespaceCache Text ExportDescriptor Codec Server FrontModel FrontState FrontTree.

(** ** The front and its sessions *)

Record Sys := Sys_mk { sys_state : State; sys_trees : gmap Z FrontTree; sys_next_session : Z }.

Definition Sys_new : Sys := Sys_mk State_new ∅ 1.

Record Entry := Entry_mk { e_act : Sys → Sys; e_cancel : bool; e_expired : bool }.

Record World := World_mk { w_sys : Sys; w_me : Z; w_script : list Entry }.

Definition me (w : World) : FrontTree := default (FrontTree_new 0) (sys_trees (w_sys w) !! w_me w).

(** The others act. *)
Definition yield (w : World) : World :=
  match w_script w with
  | [] => w
  | e :: rest => World_mk (e_act e (w_sys w)) (w_me w) rest
  end.

Definition put (k : Z) (tr : FrontTree) (s : State) (y : Sys) : Sys := Sys_mk s (<[k := tr]> (sys_trees y)) (sys_next_session y).

(** What the session and the state are after a section of session [k]. *)
Definition run_section {A} (k : Z) (sec : Section_ A) (tr : FrontTree) (y : Sys) : Result A * Sys :=
  let '(r, (tr', s)) := sec (tr, sys_state y) in (r, put k tr' s y).

Definition atomic {A} (sec : Section_ A) : M World A := λ w,
  let w := yield w in
  let '(r, y) := run_section (w_me w) sec (me w) (w_sys w) in
  (r, World_mk y (w_me w) (w_script w)).

Definition set_state (s : State) (y : Sys) : Sys := Sys_mk s (sys_trees y) (sys_next_session y).

(** A loop that waits; its last turn comes when the deadline has passed. *)
Fixpoint await_loop {A} (turn : bool → bool → State → Turn A * State) (script : list Entry) (y : Sys) :
    Result A * Sys * list Entry :=
  match script with
  | [] =>
      match turn false true (sys_state y) with
      | (Done r, s) => (r, set_state s y, [])
      | (Wait, s) => (Err (from_static "deadline"), set_state s y, [])
      end
  | e :: rest =>
      let y := e_act e y in
      match turn (e_cancel e) (e_expired e) (sys_state y) with
      | (Done r, s) => (r, set_state s y, rest)
      | (Wait, s) => await_loop turn rest (set_state s y)
      end
  end.

Definition await {A} (turn : bool → bool → State → Turn A * State) : M World A := λ w,
  let '(r, y, script) := await_loop turn (w_script w) (w_sys w) in (r, World_mk y (w_me w) script).

(** What a session knows without the lock. *)
Definition local {A} (f : FrontTree → Result A) : M World A := λ w, (f (me w), w).

(** [match m { Ok(..) => .., Err(..) => .. }] *)
Definition attempt {A} (m : M World A) : M World (Result A) := λ w, let '(r, w) := m w in (Ok r, w).

(** ** The operations *)

Definition front_attach (fid : Z) (uname aname : bytes) : M World Qid := atomic (attach_section fid uname aname).

Definition resolve_child_directory (binding : FidBinding) (fid parent : Z) (name : bytes) : M World (option Z) :=
  answer ← atomic (resolve_begin binding fid parent name);
  match answer with
  | Some child => mret child
  | None => await (λ _, resolve_turn parent name)
  end.

(** The child one name leads to; a failure to resolve it is [Err] inside. *)
Definition walk_step (binding : FidBinding) (fid current : Z) (name : bytes) : M World (Result (option Z)) :=
  if bool_decide (name = bstr "..") then
    up ← atomic (walk_up current (fb_root binding));
    mret (Ok (Some up))
  else
    child ← atomic (walk_child current name);
    match child with
    | Some child => mret (Ok (Some child))
    | None => attempt (resolve_child_directory binding fid current name)
    end.

Fixpoint walk_loop (binding : FidBinding) (fid : Z) (names : list bytes) (current : Z) (qids : list Qid) :
    M World (Z * list Qid) :=
  match names with
  | [] => mret (current, qids)
  | name :: names =>
      step ← walk_step binding fid current name;
      match step with
      | Ok (Some id) =>
          qid ← atomic (walk_qid id);
          walk_loop binding fid names id (qids ++ [qid])
      | Ok None => match qids with [] => throw (from_static ENOENT) | _ => mret (current, qids) end
      | Err error => match qids with [] => throw error | _ => mret (current, qids) end
      end
  end.

Definition front_walk (fid newfid : Z) (names : list bytes) : M World (list Qid) :=
  binding ← local (λ tr, ok_or (fids tr !! fid) (from_static EBADFID));
  x ← walk_loop binding fid names (fb_node binding) [];
  let '(current, qids) := x in
  if bool_decide (length qids = length names) then
    _ ← atomic (bind_fid newfid (at_node current binding));
    mret qids
  else mret qids.

Definition front_open (fid : Z) (qid : Qid) (mode : Z) : M World OpenFile := atomic (open_section fid qid mode).

Definition front_create (fid : Z) (qid : Qid) (name : bytes) (perm mode : Z) : M World OpenFile :=
  x ← atomic (create_begin fid qid name perm mode);
  let '(binding, request_id) := x in
  q ← await (λ _, wait_create_relay_turn request_id);
  let '(qtype, version, path) := q in
  atomic (create_finish fid binding mode qtype version path).

(** [response_read] *)
Definition response_read (request_id offset count : Z) (cancellable consume : bool) : M World ReadData :=
  response ← attempt (await (λ c, read_rpc_turn request_id offset count (cancellable && c)));
  _ ← (if consume then atomic (on_state (modify (remove_response_request request_id))) else mret ());
  lift response.

(** [read], and [read_with_cancel] when [cancellable]. *)
Definition front_read (cancellable : bool) (fid offset count : Z) : M World ReadData :=
  target ← atomic (read_target_at fid offset count);
  match target with
  | TNode id => await (λ c expired s, (read_node_turn id offset count (cancellable && c) expired s, s))
  | TDirectory stats => mret (Directory stats)
  | TResponse request_id response_offset consume => response_read request_id response_offset count cancellable consume
  | TDirectoryResponse request_id fid id =>
      response ← attempt (await (λ c, directory_response_turn request_id (cancellable && c)));
      atomic (apply_directory_response fid id request_id response)
  end.

Definition front_write (fid offset : Z) (data : bytes) : M World Z := atomic (write_section fid offset data).

Definition front_stat (qid : Qid) : M World Stat := atomic (stat_section qid).

Definition front_clunk (fid : Z) : M World unit :=
  request ← atomic (commit_begin fid);
  result ← match request with
           | Some (request_id, len) => attempt (await (λ c, wait_write_relay_turn request_id len false))
           | None => mret (Ok 0)
           end;
  _ ← atomic (clunk_finish fid);
  _ ← lift result;
  mret ().

Definition front_remove (fid : Z) (qid : Qid) : M World unit :=
  x ← atomic (remove_begin fid qid);
  let '(front_path, request_id) := x in
  _ ← await (λ _, wait_remove_relay_turn request_id);
  atomic (remove_finish fid front_path).

Definition front_wstat (fid : Z) (qid : Qid) (st : Stat) : M World unit :=
  request_id ← atomic (wstat_begin fid qid st);
  await (λ _, wait_wstat_relay_turn request_id).

Definition front_rename_at (olddirfid : Z) (olddir_qid : Qid) (oldname : bytes) (newdirfid : Z) (newdir_qid : Qid)
    (newname : bytes) : M World unit :=
  request ← atomic (rename_begin olddirfid olddir_qid oldname newdirfid newdir_qid newname);
  match request with
  | None => mret ()
  | Some request_id => await (λ _, wait_rename_relay_turn request_id)
  end.

(** [Front::tree]: a new session at [k]. *)
Definition open_session (k : Z) (y : Sys) : Sys :=
  Sys_mk (sys_state y) (<[k := FrontTree_new (sys_next_session y)]> (sys_trees y)) (sys_next_session y + 1).

(** The drop of the session at [k]. *)
Definition close_session (k : Z) (y : Sys) : Sys :=
  match sys_trees y !! k with
  | Some tr => Sys_mk (drop_session tr (sys_state y)) (delete k (sys_trees y)) (sys_next_session y)
  | None => y
  end.

(** [reset]: the session is replaced by a new one and dropped. *)
Definition front_reset : M World unit := λ w,
  let w := yield w in
  let session := sys_next_session (w_sys w) in
  let y := close_session (w_me w) (w_sys w) in
  (Ok (), World_mk (Sys_mk (sys_state y) (<[w_me w := FrontTree_new session]> (sys_trees y)) (session + 1))
            (w_me w) (w_script w)).

#[export] Instance FrontTree_FileTree : FileTree World := {|
  ft_attach := front_attach;
  ft_walk := λ fid newfid _ names, front_walk fid newfid names;
  ft_open := front_open;
  ft_read := λ fid _, front_read false fid;
  ft_stat := front_stat;
  ft_referrals := λ _ _, mret [];
  ft_reset := front_reset;
  ft_auth := λ _ _ _, throw (from_static ENOAUTH);
  ft_attach_with_auth := λ _ _ _ _, throw (from_static ENOAUTH);
  ft_create := front_create;
  ft_write := λ fid _, front_write fid;
  ft_clunk := λ fid _, front_clunk fid;
  ft_remove := front_remove;
  ft_wstat := front_wstat;
  ft_rename_at := front_rename_at;
|}.
