(* ===== verification/FrontSys.v ===== *)
(** The front with all its sessions: in every interleaving of the owner's
    operations and the sections of the sessions, the tree is well-formed and the
    reference counts are the numbers of fids bound to the nodes. *)
From stdpp Require Import sorting relations fin_maps fin_map_dom.
From S2P Require Import Prelude Errors Qid Stat Utf8 Referral NamespaceCache Text ExportDescriptor Codec Server FrontModel FrontInv FrontRetain FrontState FrontTree FrontOps.

(** ** Counting bindings *)

(** The fids of a session bound to a node. *)
Definition own (tr : FrontTree) (x : Z) : Z := Z.of_nat (size (filter (λ b, fb_node b.2 = x) (fids tr))).

Definition total (trees : gmap Z FrontTree) (x : Z) : Z := map_fold (λ _ tr n, own tr x + n) 0 trees.

(** The tree is well-formed and the references of each node are [g]. *)
Definition exact (g : Z → Z) (s : State) : Prop :=
  Inv (tree s) ∧ ∀ x, default 0 (fid_references (tree s) !! x) = g x.

Definition sys_ok (y : Sys) : Prop := exact (total (sys_trees y)) (sys_state y).

(** [1] for the node of the binding. *)
Definition one (b : option FidBinding) (x : Z) : Z :=
  match b with Some b => if fb_node b =? x then 1 else 0 | None => 0 end.

Lemma own_nonneg tr x : 0 ≤ own tr x.
Proof. unfold own. lia. Qed.

Lemma own_insert tr fid b x : own (upd_fids (<[fid := b]>) tr) x = own tr x - one (fids tr !! fid) x + one (Some b) x.
Proof.
  unfold own. simpl. rewrite map_filter_insert. simpl.
  assert (∀ m : gmap Z FidBinding, Z.of_nat (size (filter (λ b, fb_node b.2 = x) (delete fid m))) =
    Z.of_nat (size (filter (λ b, fb_node b.2 = x) m)) - one (m !! fid) x) as Hdel.
  { intros m. rewrite map_filter_delete. destruct (m !! fid) as [b'|] eqn:E; simpl.
    - destruct (Z.eqb_spec (fb_node b') x) as [Hb|Hb].
      + assert (filter (λ b, fb_node b.2 = x) m !! fid = Some b') as Hf by (by apply map_lookup_filter_Some).
        rewrite map_size_delete_Some by eauto. pose proof (map_size_ne_0_lookup_2 _ _ (mk_is_Some _ _ Hf)). lia.
      + rewrite delete_id; [lia|]. apply map_lookup_filter_None. right. intros b2 ? ?. by simplify_eq.
    - rewrite delete_id; [lia|]. apply map_lookup_filter_None. by left. }
  pose proof (Hdel (fids tr)) as H. destruct (Z.eqb_spec (fb_node b) x) as [Hb|Hb].
  - rewrite decide_True by done. rewrite <-insert_delete_eq, <-map_filter_delete.
    rewrite map_size_insert_None; [lia|]. rewrite map_filter_delete. apply lookup_delete_eq.
  - rewrite decide_False by done. rewrite H. lia.
Qed.

Lemma own_delete tr fid x : own (upd_fids (delete fid) tr) x = own tr x - one (fids tr !! fid) x.
Proof.
  destruct (fids tr !! fid) as [b|] eqn:E.
  - pose proof (own_insert (upd_fids (delete fid) tr) fid b x) as H. simpl in H. rewrite lookup_delete_eq in H. simpl in H.
    assert (own (upd_fids (<[fid := b]>) (upd_fids (delete fid) tr)) x = own tr x) as H2.
    { unfold own. simpl. by rewrite insert_delete_eq, insert_id. }
    simpl. lia.
  - unfold own. simpl. rewrite delete_id by done. lia.
Qed.

Lemma own_fids tr tr' x : fids tr' = fids tr → own tr' x = own tr x.
Proof. unfold own. by intros ->. Qed.

Lemma total_delete trees k tr x : trees !! k = Some tr → total trees x = own tr x + total (delete k trees) x.
Proof.
  intros Hk. unfold total. apply (map_fold_delete_L (λ _ tr n, own tr x + n)); [|done]. intros. lia.
Qed.

Lemma total_insert trees k tr x : total (<[k := tr]> trees) x = own tr x + total (delete k trees) x.
Proof. rewrite (total_delete _ k tr) by apply lookup_insert_eq. by rewrite delete_insert_eq. Qed.

Lemma total_nonneg trees x : 0 ≤ total trees x.
Proof.
  unfold total. apply (map_fold_weak_ind (λ r _, 0 ≤ r)); [lia|]. intros k tr m r _ Hr. pose proof (own_nonneg tr x). lia.
Qed.

Lemma total_bound trees k tr fid b : trees !! k = Some tr → fids tr !! fid = Some b → 0 < total trees (fb_node b).
Proof.
  intros Hk Hf. rewrite (total_delete _ _ _ _ Hk). pose proof (total_nonneg (delete k trees) (fb_node b)).
  pose proof (own_delete tr fid (fb_node b)) as Ho. rewrite Hf in Ho. simpl in Ho. rewrite Z.eqb_refl in Ho.
  pose proof (own_nonneg (upd_fids (delete fid) tr) (fb_node b)). lia.
Qed.

Lemma exact_ext g g' s : (∀ x, g x = g' x) → exact g s → exact g' s.
Proof. intros Hg [Hi Hr]. split; [done|]. intros x. by rewrite Hr. Qed.

(** ** The owner *)

(** An operation on the state that neither takes nor gives up references. *)
Definition neutral (f : State → State) : Prop :=
  ∀ s, Inv (tree s) → Inv (tree (f s)) ∧ fid_references (tree (f s)) = fid_references (tree s).

Definition neutral_op {A} (m : M State A) : Prop := neutral (λ s, (m s).2).

Lemma neutral_exact f g s : neutral f → exact g s → exact g (f s).
Proof. intros Hf [Hi Hr]. destruct (Hf s Hi) as [Hi' Hr']. split; [done|]. intros x. by rewrite Hr'. Qed.

Lemma neutral_ret {A} (a : A) : neutral_op (mret a).
Proof. by intros s Hs. Qed.

Lemma neutral_throw {A} e : neutral_op (throw e : M State A).
Proof. by intros s Hs. Qed.

Lemma neutral_lift {A} (r : Result A) : neutral_op (lift r).
Proof. by intros s Hs. Qed.

Lemma neutral_gets {A} (f : State → A) : neutral_op (gets f).
Proof. by intros s Hs. Qed.

Lemma neutral_ask {A} (f : State → Result A) : neutral_op (ask f).
Proof. by intros s Hs. Qed.

Lemma neutral_bind {A B} (m : M State A) (k : A → M State B) :
  neutral_op m → (∀ a, neutral_op (k a)) → neutral_op (m ≫= k).
Proof.
  intros Hm Hk s Hs. unfold mbind, M_bind. destruct (Hm s Hs) as [Hi Hr]. destruct (m s) as [[a|e] s1]; simpl in *; [|done].
  destruct (Hk a s1 Hi) as [Hi' Hr']. split; [done|congruence].
Qed.

Lemma neutral_modify f : neutral f → neutral_op (modify f).
Proof. done. Qed.

(** A change outside the tree. *)
Lemma neutral_other f : (∀ s, tree (f s) = tree s) → neutral f.
Proof. intros Hf s Hs. by rewrite Hf. Qed.

Lemma neutral_on_tree {A} (m : M Tree A) : safe m → neutral_op (on_tree m).
Proof. intros Hm s Hs. destruct (Hm _ Hs) as [? ?]. unfold on_tree. by destruct (m (tree s)). Qed.

Lemma neutral_tree f : (∀ t, Inv t → Inv (f t) ∧ fid_references (f t) = fid_references t) → neutral (upd_tree f).
Proof. intros Hf s Hs. by apply Hf. Qed.

Lemma neutral_grows f : (∀ t, Inv t → grows t (f t)) → neutral (upd_tree f).
Proof. intros Hf. apply neutral_tree. intros t Ht. destruct (Hf t Ht). done. Qed.

Lemma neutral_compose f g : neutral f → neutral g → neutral (λ s, f (g s)).
Proof.
  intros Hf Hg s Hs. destruct (Hg s Hs) as [Hi Hr]. destruct (Hf (g s) Hi) as [Hi' Hr']. split; [done|congruence].
Qed.

Create HintDb neutral.
#[export] Hint Resolve neutral_ret neutral_throw neutral_lift neutral_gets neutral_ask : neutral.

Lemma place_safe path body : empty_body body → safe (place path body).
Proof. intros Hb. by eapply keeps_safe, place_keeps. Qed.

Lemma place_pushed_file_safe path bs m : safe (place_pushed_file path bs m).
Proof. eapply keeps_safe, place_pushed_file_keeps. Qed.

Lemma place_pushed_directory_safe path m : safe (place_pushed_directory path m).
Proof. eapply keeps_safe, place_pushed_directory_keeps. Qed.

Lemma ensure_path_dir_safe path : safe (ensure_path_dir path).
Proof. eapply keeps_safe, ensure_path_dir_keeps. Qed.

Lemma apply_pushed_metadata_safe x m : safe (apply_pushed_metadata x m).
Proof. eapply keeps_safe, apply_pushed_metadata_keeps. Qed.

Lemma insert_created_safe p name q g prefix : safe (insert_created_relay_node p name q g prefix).
Proof. eapply keeps_safe, insert_created_relay_node_keeps. Qed.

Lemma insert_child_safe p name m prefix removal : safe (insert_pushed_child_directory p name m prefix removal).
Proof. eapply keeps_safe, insert_pushed_child_directory_keeps. Qed.

#[export] Hint Resolve place_pushed_file_safe place_pushed_directory_safe ensure_path_dir_safe apply_pushed_metadata_safe
  insert_created_safe insert_child_safe remove_subtree_safe retain_safe : neutral.
#[export] Hint Resolve neutral_on_tree : neutral.

Lemma empty_body_plain b : is_dir_body b = false → empty_body b.
Proof. by destruct b. Qed.

#[export] Hint Extern 2 (safe (place _ _)) => apply place_safe, empty_body_plain; reflexivity : neutral.

(** A node keeps its shape. *)
Lemma neutral_node x f : (∀ n, shape (f n) = shape n) → neutral_op (on_front_node x f).
Proof. intros Hf. apply neutral_modify, neutral_grows. intros t Ht. apply on_node_grows; [done|]. intros n _. apply Hf. Qed.

(** Fields of the tree that the shape does not depend on. *)
Lemma neutral_alike f : (∀ t, alike t (f t) ∧ fid_references (f t) = fid_references t ∧ intakes (f t) = intakes t ∧
  rename_relay_roots (f t) = rename_relay_roots t) → neutral (upd_tree f).
Proof. intros Hf. apply neutral_grows. intros t Ht. destruct (Hf t) as (? & ? & ? & ?). by apply alike_grows. Qed.

(** One step of a neutrality proof. *)
Ltac neutral_step :=
  match goal with
  | |- neutral_op (_ ≫= _) => apply neutral_bind; [|intros ?]
  | |- neutral_op (if ?b then _ else _) => destruct b
  | |- neutral_op (match ?x with _ => _ end) => destruct x
  | |- neutral_op (modify (upd_tree _)) => apply neutral_modify, neutral_alike; intros ?; done
  | |- neutral_op (modify _) => apply neutral_modify, neutral_other; intros ?; done
  | |- neutral_op (on_front_node _ _) => apply neutral_node; intros ?; done
  | |- neutral_op _ => solve [auto with neutral]
  end.
Ltac neutrality := repeat neutral_step.

Lemma register_intake_neutral prefix : neutral_op (register_intake prefix).
Proof.
  unfold register_intake. destruct (bool_decide _); [apply neutral_throw|].
  intros s Hs. unfold mbind, M_bind, on_tree.
  destruct (place_keeps (trim_slashes prefix ++ bstr "/new") (IntakeNew 0) (empty_body_plain (IntakeNew 0) eq_refl) (tree s) Hs I)
    as [Hg HQ].
  destruct (place _ _ (tree s)) as [[id|e] t'] eqn:Hp; simpl in *; [|by destruct Hg].
  destruct Hg as [Hi Hr _]. specialize (HQ id eq_refl).
  assert (is_Some (nodes t' !! id)) as [n Hn] by (apply attached_node; [apply Hi|done]).
  assert (children_of n = None) as Hc.
  { revert Hp. unfold place, gets, mbind, M_bind. destruct (open_place _ _ _) as [[[[p leaf] [x|]]|] t1]; [..|done].
    - unfold query, node. destruct (nodes t1 !! x) as [m|] eqn:Hm; simpl; [|done].
      destruct (n_body m); simpl; done.
    - unfold query. simpl. destruct (next_available_qid_path t1 (next_id t1)) as [q|]; [|done].
      rewrite add_node_run. intros [= <- <-]. unfold inserted, insert_node, link_child in Hn.
      rewrite lookup_on_node in Hn. simpl in Hn. rewrite lookup_insert_eq in Hn. simpl in Hn. injection Hn as <-.
      destruct (decide _); [by rewrite on_children_of|done]. }
  assert (alike t' (on_node id (set_body (IntakeNew id)) t')) as Ha.
  { apply on_node_alike. intros m Hm. simplify_eq. unfold shape. by rewrite Hc. }
  set (t2 := on_node id _ t') in *. split; [|done]. simpl. split.
  - apply (wf_alike t'); [apply Hi|destruct Ha; by constructor|apply Hi| |apply Hi].
    intros y. simpl. destruct (decide (id = y)) as [<-|]; [by eauto|]. rewrite lookup_insert_ne by done. apply Hi.
  - apply (collected_alike t'); [destruct Ha; by constructor|done|apply Hi].
Qed.

Lemma place_relay_neutral same body trimmed :
  (∀ b, same b = true → is_dir_body b = false) → (∀ p, is_dir_body (body p) = false) →
  neutral_op (place_relay same body trimmed).
Proof.
  intros Hsame Hbody. unfold place_relay. apply neutral_bind; [apply neutral_ask|]. intros [x|].
  - intros s Hs. unfold mbind, M_bind, ask, node. destruct (nodes (tree s) !! x) as [n|] eqn:Hn; simpl; [|done].
    destruct (same (n_body n)) eqn:Hk; [|done]. simpl. destruct (on_node_grows (tree s) x (set_body (body trimmed)) Hs); [|done].
    intros m Hm. simplify_eq. unfold shape, children_of. simpl. apply Hsame in Hk. specialize (Hbody trimmed).
    destruct (n_body n), (body trimmed); done.
  - apply neutral_on_tree, place_safe, empty_body_plain, Hbody.
Qed.

Lemma set_read_relay_shape prefix n : shape (set_read_relay prefix n) = shape n.
Proof. unfold shape, set_read_relay, children_of. destruct (n_body n) eqn:E; simpl; by rewrite ?E. Qed.

Lemma set_child_resolver_shape r n : shape (set_child_resolver r n) = shape n.
Proof. unfold shape, set_child_resolver, children_of. destruct (n_body n) eqn:E; simpl; by rewrite ?E. Qed.

Lemma write_relay_shape trimmed n :
  shape (set_write_relay trimmed (if is_write_relay (n_body n) then set_body (WriteRelay trimmed) n else n)) = shape n.
Proof. unfold shape, set_write_relay, children_of. destruct (n_body n) eqn:E; simpl; by rewrite ?E. Qed.

Lemma register_rename_neutral path prefix : neutral_op (register_rename_relay path prefix).
Proof.
  unfold register_rename_relay. apply neutral_bind; [auto with neutral|]. intros p. apply neutral_bind; [neutrality|].
  intros root s Hs. unfold mbind, M_bind, ask, node. destruct (nodes (tree s) !! root) as [n|] eqn:Hn; simpl; [|done].
  destruct (is_dir_body _); [|done]. simpl. split; [|done]. split.
  - apply (wf_alike (tree s)); [apply Hs|done|apply Hs|apply Hs|]. intros y. simpl.
    destruct (decide (root = y)) as [<-|]; [by eauto|]. rewrite lookup_insert_ne by done. apply Hs.
  - apply (collected_alike (tree s)); [done..|apply Hs].
Qed.

Lemma prune_neutral f : neutral (upd_tree (λ t, set_principals (principal_roots_required t) (f (principal_roots t)) t)).
Proof. apply neutral_alike. by intros t. Qed.

Lemma complete_create_with_neutral prefix r a b c publish : neutral_op publish →
  neutral_op (complete_create_with prefix r a b c publish).
Proof.
  intros Hp. assert (neutral_op (complete_create_begin prefix r a b c)) as Hb by (unfold complete_create_begin; neutrality).
  intros s Hs. unfold complete_create_with. destruct (Hb s Hs) as [Hi Hr].
  destruct (complete_create_begin prefix r a b c s) as [[target|e] s1]; simpl in *; [|done].
  destruct (Hp s1 Hi) as [Hi2 Hr2]. destruct (publish s1) as [[[]|e] s2]; simpl in *.
  - assert (neutral_op (complete_create_finish target r a b c)) as Hf by (unfold complete_create_finish; neutrality).
    destruct (Hf s2 Hi2) as [? ?]. split; [done|congruence].
  - assert (neutral_op (complete_create_failed r c e)) as Hf by (unfold complete_create_failed; neutrality).
    destruct (Hf s2 Hi2) as [? ?]. split; [done|congruence].
Qed.

(** The operations of the owner; [complete_create_with] calls back, and is given in
    its three parts. *)
Inductive OwnerOp :=
| OSet (path bs : bytes)
| OSetPushedFile (path bs : bytes) (m : PushedEntryMetadata)
| OSetPushedDirectory (path : bytes) (m : PushedEntryMetadata)
| ORemoveSubtree (path : bytes)
| ORetainSubtreePaths (root : bytes) (paths : list bytes)
| OAppendEvent (path bs : bytes)
| OSetLogCapacity (n : Z)
| OSetWaitTimeout (n : Z)
| OSetProtocolLimits (max_msize iounit : Z)
| ORegisterIntake (prefix : bytes)
| ORegisterRpc (path : bytes)
| ORegisterReadRelay (path : bytes)
| ORegisterReadRelayWith (path : bytes) (m : PushedEntryMetadata)
| ORegisterSnapshotReadRelay (path : bytes)
| ORegisterDirectoryReadRelay (path : bytes)
| ORegisterWriteRelay (path : bytes)
| ORegisterRemoveRelay (path : bytes)
| ORegisterWstatRelay (path : bytes)
| ORegisterCreateRelay (path : bytes)
| ORegisterLog (path : bytes)
| ORegisterLogAt (path : bytes) (start : Z)
| ORegisterChildResolver (path resolution read : bytes) (removal : ChildDirectoryRemoval)
| ORegisterRenameRelay (path prefix : bytes)
| OSetPrincipal (uname principal aname root : bytes)
| ORetainPrincipals (unames : list bytes)
| ONextRequest (expired : bool)
| ONextRequestFor (prefix : bytes) (expired : bool)
| ONextRequestWhile (prefix : bytes) (rpc : Z)
| ONextCreate (prefix : bytes)
| ONextRename (prefix : bytes) (expired : bool)
| OCompleteRequest (prefix : bytes) (id : Z) (bs : bytes)
| OCompleteDirectory (prefix : bytes) (id : Z) (names : list bytes) (eof : bool)
| ORejectRequest (prefix : bytes) (id : Z) (msg : bytes)
| OCompleteWrite (prefix : bytes) (id : Z) (reply : WriteRelayReply)
| OCompleteRemove (prefix : bytes) (id : Z) (reply : RelayReply)
| OCompleteWstat (prefix : bytes) (id : Z) (reply : RelayReply)
| OCreateBegin (prefix : bytes) (id qtype version path : Z)
| OCreateFailed (id path : Z) (e : Error)
| OCreateFinish (target : PendingCreate) (id qtype version path : Z)
| ORejectCreate (prefix : bytes) (id : Z) (msg : bytes)
| OCompleteResolution (prefix : bytes) (id : Z) (m : PushedEntryMetadata)
| ORejectResolution (prefix : bytes) (id : Z) (msg : bytes)
| OCompleteRename (prefix : bytes) (id : Z) (reply : RelayReply).

Definition run_owner (o : OwnerOp) : State → State :=
  match o with
  | OSet path bs => λ s, (set path bs s).2
  | OSetPushedFile path bs m => λ s, (set_pushed_file path bs m s).2
  | OSetPushedDirectory path m => λ s, (set_pushed_directory path m s).2
  | ORemoveSubtree path => λ s, (front_remove_subtree path s).2
  | ORetainSubtreePaths root paths => λ s, (front_retain_subtree_paths root paths s).2
  | OAppendEvent path bs => λ s, (append_event path bs s).2
  | OSetLogCapacity n => λ s, (set_log_capacity n s).2
  | OSetWaitTimeout n => λ s, (set_wait_timeout n s).2
  | OSetProtocolLimits a b => λ s, (set_protocol_limits a b s).2
  | ORegisterIntake prefix => λ s, (register_intake prefix s).2
  | ORegisterRpc path => λ s, (register_rpc path s).2
  | ORegisterReadRelay path => λ s, (register_read_relay path s).2
  | ORegisterReadRelayWith path m => λ s, (register_read_relay_with_metadata path m s).2
  | ORegisterSnapshotReadRelay path => λ s, (register_snapshot_read_relay path s).2
  | ORegisterDirectoryReadRelay path => λ s, (register_directory_read_relay path s).2
  | ORegisterWriteRelay path => λ s, (register_write_relay path s).2
  | ORegisterRemoveRelay path => λ s, (register_remove_relay path s).2
  | ORegisterWstatRelay path => λ s, (register_wstat_relay path s).2
  | ORegisterCreateRelay path => λ s, (register_create_relay path s).2
  | ORegisterLog path => λ s, (register_log path s).2
  | ORegisterLogAt path start => λ s, (register_log_at path start s).2
  | ORegisterChildResolver path a b r => λ s, (register_child_directory_resolver path a b r s).2
  | ORegisterRenameRelay path prefix => λ s, (register_rename_relay path prefix s).2
  | OSetPrincipal uname principal aname root => λ s, (set_principal_class_aname uname principal aname root s).2
  | ORetainPrincipals unames => λ s, (retain_principal_roots unames s).2
  | ONextRequest expired => λ s, (next_request_turn expired s).2
  | ONextRequestFor prefix expired => λ s, (next_request_for_prefix_turn prefix expired s).2
  | ONextRequestWhile prefix rpc => λ s, (next_request_while_rpc_pending_turn prefix rpc s).2
  | ONextCreate prefix => λ s, (next_create_request_turn prefix s).2
  | ONextRename prefix expired => λ s, (next_rename_request_turn prefix expired s).2
  | OCompleteRequest prefix id bs => λ s, (complete_request prefix id bs s).2
  | OCompleteDirectory prefix id names eof => λ s, (complete_directory_request prefix id names eof s).2
  | ORejectRequest prefix id msg => λ s, (reject_request prefix id msg s).2
  | OCompleteWrite prefix id reply => λ s, (complete_write_result prefix id reply s).2
  | OCompleteRemove prefix id reply => λ s, (complete_remove_result prefix id reply s).2
  | OCompleteWstat prefix id reply => λ s, (complete_wstat_result prefix id reply s).2
  | OCreateBegin prefix id a b c => λ s, (complete_create_begin prefix id a b c s).2
  | OCreateFailed id path e => λ s, (complete_create_failed id path e s).2
  | OCreateFinish target id a b c => λ s, (complete_create_finish target id a b c s).2
  | ORejectCreate prefix id msg => λ s, (reject_create prefix id msg s).2
  | OCompleteResolution prefix id m => λ s, (complete_child_directory_resolution prefix id m s).2
  | ORejectResolution prefix id msg => λ s, (reject_child_directory_resolution prefix id msg s).2
  | OCompleteRename prefix id reply => λ s, (complete_rename_result prefix id reply s).2
  end.

#[export] Hint Resolve register_intake_neutral register_rename_neutral : neutral.
#[export] Hint Extern 2 (neutral_op (place_relay _ _ _)) =>
  apply place_relay_neutral; [intros []; done|done] : neutral.
#[export] Hint Extern 2 (neutral_op (on_front_node _ (set_read_relay _))) =>
  apply neutral_node; intros ?; apply set_read_relay_shape : neutral.
#[export] Hint Extern 2 (neutral_op (on_front_node _ (set_child_resolver _))) =>
  apply neutral_node; intros ?; apply set_child_resolver_shape : neutral.

Lemma register_write_relay_neutral path : neutral_op (register_write_relay path).
Proof.
  unfold register_write_relay. apply neutral_bind; [neutrality|]. intros trimmed. apply neutral_bind; [neutrality|]. intros _.
  apply neutral_bind; [neutrality|]. intros [x|]; [|neutrality]. apply neutral_bind; [neutrality|]. intros n.
  destruct (is_dir_body _); [neutrality|]. apply neutral_node. intros m. apply write_relay_shape.
Qed.

Lemma pop_turn_neutral {A} (pop : State → option A * State) expired :
  (∀ s, tree (pop s).2 = tree s) → neutral (λ s, (pop_turn pop expired s).2).
Proof.
  intros Hp. apply neutral_other. intros s. unfold pop_turn. specialize (Hp s).
  by destruct (pop s) as [[r|] s'].
Qed.

Ltac head_of t := match t with ?f _ => head_of f | _ => t end.

(** Opens the operation and shows it neutral. *)
Ltac neutral_operation :=
  match goal with
  | |- neutral (λ s, (?m s).2) => change (neutral_op m); first [solve [auto with neutral]|let h := head_of m in unfold h; neutrality]
  end.

Lemma set_neutral path bs : neutral_op (set path bs).
Proof. unfold set. neutrality. Qed.

Lemma complete_create_result_neutral prefix id reply : neutral_op (complete_create_result prefix id reply).
Proof. unfold complete_create_result. neutrality. Qed.

Lemma complete_resolution_neutral prefix id reply : neutral_op (complete_child_directory_resolution_result prefix id reply).
Proof. unfold complete_child_directory_resolution_result. neutrality. Qed.

#[export] Hint Resolve set_neutral complete_create_result_neutral complete_resolution_neutral register_write_relay_neutral : neutral.

Lemma pop_first_tree prefix s : tree (pop_pending_for_prefix prefix s).2 = tree s.
Proof. unfold pop_pending_for_prefix. by destruct (pop_first _ _) as [[]|]. Qed.

Lemma owner_neutral o : neutral (run_owner o).
Proof.
  destruct o; cbn [run_owner]; try neutral_operation.
  - apply neutral_other. intros s. unfold next_request_turn. by destruct (pending s).
  - apply pop_turn_neutral, pop_first_tree.
  - intros s. unfold next_request_while_rpc_pending_turn. destruct (rpc_responses s !! rpc); [|done].
    apply (pop_turn_neutral (pop_pending_for_prefix prefix0) false), pop_first_tree.
  - apply pop_turn_neutral. intros s. unfold pop_create_pending_for_prefix. by destruct (pop_first _ _) as [[]|].
  - apply pop_turn_neutral. intros s. unfold pop_rename_pending_for_prefix. by destruct (pop_first _ _) as [[]|].
Qed.

(** ** Sections of a session *)

(** A section keeps the counts right, whatever references the others hold. *)
Definition sound {A} (sec : Section_ A) : Prop :=
  ∀ (g : Z → Z) x, (∀ z, 0 ≤ g z) → exact (λ z, own x.1 z + g z) x.2 →
    exact (λ z, own (sec x).2.1 z + g z) (sec x).2.2.

Lemma sound_same {A} (sec : Section_ A) : (∀ x, (sec x).2 = x) → sound sec.
Proof. intros Hs g x _ Hx. by rewrite Hs. Qed.

Lemma sound_ret {A} (a : A) : sound (mret a).
Proof. by apply sound_same. Qed.
Lemma sound_throw {A} e : sound (throw e : Section_ A).
Proof. by apply sound_same. Qed.
Lemma sound_lift {A} (r : Result A) : sound (lift r).
Proof. by apply sound_same. Qed.
Lemma sound_gets {A} (f : FrontTree * State → A) : sound (gets f).
Proof. by apply sound_same. Qed.
Lemma sound_of_session {A} (f : FrontTree → A) : sound (of_session f).
Proof. by apply sound_same. Qed.
Lemma sound_of_tree {A} (f : Tree → Result A) : sound (of_tree f).
Proof. by apply sound_same. Qed.
Lemma sound_binding fid : sound (binding_of fid).
Proof. by apply sound_same. Qed.

Lemma sound_bind {A B} (m : Section_ A) (k : A → Section_ B) : sound m → (∀ a, sound (k a)) → sound (m ≫= k).
Proof.
  intros Hm Hk g x Hg Hx. unfold mbind, M_bind. specialize (Hm g x Hg Hx).
  destruct (m x) as [[a|e] x1]; simpl in *; [|done]. by apply Hk.
Qed.

Lemma sound_on_state {A} (m : M State A) : neutral_op m → sound (on_state m).
Proof.
  intros Hm g [tr s] Hg Hx. unfold on_state. pose proof (neutral_exact _ _ _ Hm Hx) as H. simpl in *. by destruct (m s).
Qed.

Lemma sound_on_session f : (∀ tr, fids (f tr) = fids tr) → sound (on_session f).
Proof.
  intros Hf g [tr s] Hg Hx. simpl in *. eapply exact_ext; [|done]. intros z. simpl. by rewrite (own_fids tr (f tr)).
Qed.

Lemma neutral_forget request_id : neutral_op (modify (remove_response_request request_id)).
Proof. apply neutral_modify, neutral_other. done. Qed.

(** A reference more, or one less. *)
Lemma retain_exact g s x : exact g s →
  match on_tree (retain_fid_node x) s with
  | (Ok _, s') => exact (λ z, g z + (if x =? z then 1 else 0)) s'
  | (Err _, s') => exact g s'
  end.
Proof.
  intros [Hi Hr]. unfold on_tree. pose proof (retain_fid_node_spec (tree s) x Hi) as H.
  destruct (retain_fid_node x (tree s)) as [[[]|e] t']; simpl in *; [|by subst].
  destruct H as (Hi' & _ & Hrefs & _). split; [done|]. intros z. simpl. rewrite Hrefs.
  destruct (Z.eqb_spec x z) as [<-|Hne]; [rewrite lookup_insert_eq; simpl; by rewrite Hr|].
  rewrite lookup_insert_ne by done. rewrite Hr. lia.
Qed.

Lemma release_exact g s x : exact g s → 0 < g x →
  ∃ s', on_tree (release_fid_node x) s = (Ok (), s') ∧ exact (λ z, g z - (if x =? z then 1 else 0)) s'.
Proof.
  intros [Hi Hr] Hx. unfold on_tree. pose proof (release_fid_node_spec (tree s) x Hi) as H.
  destruct (release_fid_node x (tree s)) as [[[]|e] t']; simpl in *.
  - eexists. split; [done|]. destruct H as (Hi' & k & Hk & Hrefs). split; [done|]. intros z. simpl. rewrite Hrefs.
    pose proof (Hr x) as Hrx. rewrite Hk in Hrx. simpl in Hrx. unfold release.
    destruct (Z.ltb_spec 1 k), (Z.eqb_spec x z) as [<-|Hne];
      rewrite ?lookup_insert_eq, ?lookup_delete_eq, ?(lookup_insert_ne _ x z), ?(lookup_delete_ne _ x z) by done;
      simpl; rewrite ?Hr; lia.
  - destruct H as [_ Hn]. pose proof (Hr x) as Hrx. rewrite Hn in Hrx. simpl in Hrx. lia.
Qed.

Lemma one_le_own tr fid z : one (fids tr !! fid) z ≤ own tr z.
Proof. pose proof (own_delete tr fid z). pose proof (own_nonneg (upd_fids (delete fid) tr) z). lia. Qed.

Lemma one_node b : one (Some b) (fb_node b) = 1.
Proof. simpl. by rewrite Z.eqb_refl. Qed.

Lemma sound_bind_fid fid b : sound (bind_fid fid b).
Proof.
  intros g [tr s] Hg Hx. simpl in Hx. unfold bind_fid, mbind, M_bind, on_state, of_session, on_session, gets, modify.
  simpl. pose proof (retain_exact _ _ (fb_node b) Hx) as Hret.
  destruct (on_tree (retain_fid_node (fb_node b)) s) as [[[]|e] s1]; simpl; [|done].
  destruct (fids tr !! fid) as [prev|] eqn:Hp.
  - destruct (release_exact _ _ (fb_node prev) Hret) as (s2 & E & Hs2).
    { pose proof (one_le_own tr fid (fb_node prev)) as H. rewrite Hp, one_node in H. specialize (Hg (fb_node prev)).
      destruct (_ =? _); lia. }
    simpl. rewrite E. simpl. eapply exact_ext; [|exact Hs2]. intros z. simpl. rewrite own_insert, Hp. simpl. lia.
  - simpl. eapply exact_ext; [|exact Hret]. intros z. simpl. rewrite own_insert, Hp. simpl. lia.
Qed.

Lemma sound_unbind_fid fid : sound (unbind_fid fid).
Proof.
  intros g [tr s] Hg Hx. simpl in Hx. unfold unbind_fid, mbind, M_bind, on_state, of_session, on_session, gets, modify.
  simpl. destruct (fids tr !! fid) as [prev|] eqn:Hp; [|done]. simpl.
  destruct (release_exact _ _ (fb_node prev) Hx) as (s2 & E & Hs2).
  { pose proof (one_le_own tr fid (fb_node prev)) as H. rewrite Hp, one_node in H. specialize (Hg (fb_node prev)). lia. }
  rewrite E. simpl. eapply exact_ext; [|exact Hs2]. intros z. simpl. rewrite own_delete, Hp. simpl. lia.
Qed.

Create HintDb sound.
#[export] Hint Resolve sound_ret sound_throw sound_lift sound_gets sound_of_session sound_of_tree sound_binding
  sound_bind_fid sound_unbind_fid : sound.
#[export] Hint Resolve neutral_forget : neutral.

Lemma neutral_take : neutral_op take_request_id.
Proof. unfold take_request_id. neutrality. Qed.
#[export] Hint Resolve neutral_take : neutral.

Ltac sound_step :=
  match goal with
  | |- sound (_ ≫= _) => apply sound_bind; [|intros ?]
  | |- sound (if ?b then _ else _) => destruct b
  | |- sound (match ?x with _ => _ end) => destruct x
  | |- sound (let _ := _ in _) => cbv zeta
  | |- sound (on_state _) => apply sound_on_state; solve [neutrality]
  | |- sound (on_session _) => apply sound_on_session; intros ?; done
  | |- sound _ => solve [auto with sound]
  end.
Ltac soundness := repeat sound_step.

Lemma context_of_sound b fid offset count mode : sound (context_of b fid offset count mode).
Proof. unfold context_of. soundness. Qed.
Lemma open_mode_of_sound fid : sound (open_mode_of fid).
Proof. unfold open_mode_of. soundness. Qed.
#[export] Hint Resolve context_of_sound open_mode_of_sound : sound.

Lemma submit_sound prefix bs context : sound (submit prefix bs context).
Proof. unfold submit. soundness. Qed.
Lemma snapshot_for_sound fid id : sound (snapshot_for fid id).
Proof. unfold snapshot_for. soundness. Qed.
Lemma forget_request_sound r : sound (forget_request r).
Proof. unfold forget_request. soundness. Qed.
Lemma checked_node_sound fid qid : sound (checked_node fid qid).
Proof. unfold checked_node. soundness. Qed.
#[export] Hint Resolve submit_sound snapshot_for_sound forget_request_sound checked_node_sound : sound.

Lemma attach_section_sound fid uname aname : sound (attach_section fid uname aname).
Proof. unfold attach_section. soundness. Qed.
Lemma open_section_sound fid qid mode : sound (open_section fid qid mode).
Proof. unfold open_section. soundness. Qed.
Lemma begin_resolution_sound b fid p name r : sound (begin_resolution b fid p name r).
Proof. unfold begin_resolution. soundness. Qed.
#[export] Hint Resolve begin_resolution_sound : sound.
Lemma resolve_begin_sound b fid p name : sound (resolve_begin b fid p name).
Proof. unfold resolve_begin. soundness. Qed.
Lemma create_begin_sound fid qid name perm mode : sound (create_begin fid qid name perm mode).
Proof. unfold create_begin. soundness. Qed.
Lemma create_finish_sound fid b mode a v p : sound (create_finish fid b mode a v p).
Proof. unfold create_finish. soundness. Qed.
Lemma read_target_at_sound fid offset count : sound (read_target_at fid offset count).
Proof.
  unfold read_target_at, read_directory_target, read_rpc_target, read_relay_target, read_snapshot_target. soundness.
Qed.
Lemma apply_directory_response_sound fid id r response : sound (apply_directory_response fid id r response).
Proof. unfold apply_directory_response. soundness. Qed.
Lemma write_section_sound fid offset data : sound (write_section fid offset data).
Proof. unfold write_section, write_rpc, write_buffered, write_intake. soundness. Qed.
Lemma commit_begin_sound fid : sound (commit_begin fid).
Proof. unfold commit_begin. soundness. Qed.
Lemma clunk_finish_sound fid : sound (clunk_finish fid).
Proof. unfold clunk_finish. soundness. Qed.
Lemma remove_begin_sound fid qid : sound (remove_begin fid qid).
Proof. unfold remove_begin. soundness. Qed.
Lemma remove_finish_sound fid path : sound (remove_finish fid path).
Proof. unfold remove_finish. soundness. Qed.
Lemma wstat_begin_sound fid qid st : sound (wstat_begin fid qid st).
Proof. unfold wstat_begin. soundness. Qed.
Lemma rename_begin_sound a b c d e f : sound (rename_begin a b c d e f).
Proof. unfold rename_begin. soundness. Qed.
Lemma walk_up_sound current root : sound (walk_up current root).
Proof. unfold walk_up. soundness. Qed.
Lemma walk_child_sound current name : sound (walk_child current name).
Proof. unfold walk_child. soundness. Qed.
Lemma stat_section_sound qid : sound (stat_section qid).
Proof. unfold stat_section. soundness. Qed.

#[export] Hint Resolve attach_section_sound open_section_sound resolve_begin_sound create_begin_sound create_finish_sound
  read_target_at_sound apply_directory_response_sound write_section_sound commit_begin_sound clunk_finish_sound
  remove_begin_sound remove_finish_sound wstat_begin_sound rename_begin_sound walk_up_sound walk_child_sound
  stat_section_sound : sound.

(** *** The waits change no references *)

Lemma read_rpc_turn_neutral r o c b e : neutral (λ s, (read_rpc_turn r o c b e s).2).
Proof.
  apply neutral_other. intros s. unfold read_rpc_turn. destruct b; [done|].
  by destruct (rpc_responses s !! r) as [[[]|]|], e.
Qed.

Lemma directory_response_turn_neutral r b e : neutral (λ s, (directory_response_turn r b e s).2).
Proof.
  apply neutral_other. intros s. unfold directory_response_turn. destruct b; [done|].
  by destruct (rpc_responses s !! r) as [[[]|]|], e.
Qed.

Lemma wait_write_relay_neutral r n b e : neutral (λ s, (wait_write_relay_turn r n b e s).2).
Proof.
  apply neutral_other. intros s. unfold wait_write_relay_turn. destruct b; [done|].
  by destruct (write_relay_responses s !! r) as [[[]|]|], e.
Qed.

Lemma wait_remove_relay_neutral r e : neutral (λ s, (wait_remove_relay_turn r e s).2).
Proof.
  apply neutral_other. intros s. unfold wait_remove_relay_turn. by destruct (remove_relay_responses s !! r) as [[[]|]|], e.
Qed.

Lemma wait_wstat_relay_neutral r e : neutral (λ s, (wait_wstat_relay_turn r e s).2).
Proof.
  apply neutral_other. intros s. unfold wait_wstat_relay_turn. by destruct (wstat_relay_responses s !! r) as [[[]|]|], e.
Qed.

Lemma wait_create_relay_neutral r e : neutral (λ s, (wait_create_relay_turn r e s).2).
Proof.
  apply neutral_other. intros s. unfold wait_create_relay_turn. by destruct (create_relay_responses s !! r) as [[[]|]|], e.
Qed.

Lemma wait_rename_relay_neutral r e : neutral (λ s, (wait_rename_relay_turn r e s).2).
Proof.
  apply neutral_other. intros s. unfold wait_rename_relay_turn.
  by destruct (rename_relay_responses s !! r) as [[? [[]|]]|], e.
Qed.

Lemma finish_waiter_tree key s : tree (finish_child_directory_waiter key s) = tree s.
Proof.
  unfold finish_child_directory_waiter. destruct (child_directory_resolutions s !! key) as [r|]; [|done].
  by destruct (1 <? cd_waiters r).
Qed.

Lemma resolve_turn_neutral p name e : neutral (λ s, (resolve_turn p name e s).2).
Proof.
  intros s Hs. unfold resolve_turn. cbv zeta.
  assert (∀ s', Inv (tree s') ∧ fid_references (tree s') = fid_references (tree s) →
    Inv (tree (finish_child_directory_waiter (p, name) s')) ∧
    fid_references (tree (finish_child_directory_waiter (p, name) s')) = fid_references (tree s)) as Hfin
    by (intros s'; by rewrite finish_waiter_tree).
  assert (∀ s' : State, Inv (tree s') ∧ fid_references (tree s') = fid_references (tree s) →
    Inv (tree (if e then (Done (A := option Z) (Err (from_static "child directory resolution timed out awaiting response")),
                 finish_child_directory_waiter (p, name) s') else (Wait, s')).2) ∧
    fid_references (tree (if e then (Done (A := option Z) (Err (from_static "child directory resolution timed out awaiting response")),
                 finish_child_directory_waiter (p, name) s') else (Wait, s')).2) = fid_references (tree s)) as Hlast
    by (intros s' H; destruct e; [by apply Hfin|done]).
  destruct (node_is_detached _ _); [by apply Hfin|]. destruct (nodes (tree s) !! p) as [n|]; [|by apply Hfin].
  destruct (children_of n) as [c|]; [|by apply Hfin]. destruct (c !! name); [by apply Hfin|].
  destruct (child_directory_resolutions s !! (p, name)) as [r|]; [|done].
  destruct (cd_reply r) as [[m|msg]|]; [|by apply Hfin|by apply Hlast].
  destruct (neutral_on_tree _ (insert_child_safe p name m (cd_read_prefix r) (cd_removal r)) s Hs) as [Hi Hr].
  destruct (on_tree _ s) as [[child|err] s']; [by apply Hfin|by apply Hlast].
Qed.

(** The drop of a session gives up exactly its references. *)
Lemma release_loop l g s : (∀ z, 0 ≤ g z) →
  exact (λ z, Z.of_nat (length (filter (λ b, fb_node b = z) l)) + g z) s →
  exact g (upd_tree (λ t, foldl (λ t b, release_ignored (fb_node b) t) t l) s).
Proof.
  revert s. induction l as [|b l IH]; intros s Hg Hx; simpl.
  - eapply exact_ext; [|destruct s; exact Hx]. done.
  - destruct (release_exact _ _ (fb_node b) Hx) as (s' & E & Hs').
    { simpl. rewrite filter_cons, decide_True by done. simpl. specialize (Hg (fb_node b)). lia. }
    assert (upd_tree (λ t, foldl (λ t b, release_ignored (fb_node b) t) (release_ignored (fb_node b) t) l) s =
            upd_tree (λ t, foldl (λ t b, release_ignored (fb_node b) t) t l) s') as ->.
    { unfold on_tree in E. unfold release_ignored at 2. destruct (release_fid_node (fb_node b) (tree s)) as [r t'] eqn:Et.
      injection E as _ <-. unfold upd_tree. simpl. by rewrite Et. }
    apply IH; [done|]. eapply exact_ext; [|exact Hs']. intros z. simpl. rewrite filter_cons.
    destruct (Z.eqb_spec (fb_node b) z), (decide (fb_node b = z)); try done; simpl; lia.
Qed.

Lemma own_values tr z : own tr z = Z.of_nat (length (filter (λ b, fb_node b = z) (values (fids tr)))).
Proof.
  unfold own, values. f_equal. rewrite merge_sort_Permutation. generalize (fids tr). clear tr.
  refine (map_ind _ _ _).
  - by rewrite map_filter_empty, map_size_empty, map_to_list_empty.
  - intros i b m Hi IH. rewrite map_to_list_insert by done. rewrite fmap_cons, filter_cons, map_filter_insert. simpl.
    destruct (decide (fb_node b = z)) as [Hb|Hb]; simpl.
    + rewrite map_size_insert_None; [by rewrite IH|]. apply map_lookup_filter_None. by left.
    + rewrite delete_id by done. done.
Qed.

Lemma remove_responses_tree l s : tree (foldl (λ s r, remove_response_request r s) s l) = tree s.
Proof. revert s. induction l as [|r l IH]; intros s; [done|]. simpl. by rewrite IH. Qed.

Lemma drop_session_exact tr g s : (∀ z, 0 ≤ g z) → exact (λ z, own tr z + g z) s → exact g (drop_session tr s).
Proof.
  intros Hg Hx. unfold drop_session. cbv zeta. unfold exact. rewrite !remove_responses_tree. apply release_loop; [done|].
  eapply exact_ext; [|exact Hx]. intros z. simpl. by rewrite own_values.
Qed.

(** ** The steps of the system *)

Inductive session_section : ∀ A, Section_ A → Prop :=
| ss_accepts fid mode : session_section bool (accepts_open_mode fid mode)
| ss_attach fid uname aname : session_section Qid (attach_section fid uname aname)
| ss_up current root : session_section Z (walk_up current root)
| ss_child current name : session_section (option Z) (walk_child current name)
| ss_resolve b fid p name : session_section (option (option Z)) (resolve_begin b fid p name)
| ss_qid id : session_section Qid (walk_qid id)
| ss_bind fid b : session_section unit (bind_fid fid b)
| ss_open fid qid mode : session_section OpenFile (open_section fid qid mode)
| ss_create fid qid name perm mode : session_section (FidBinding * Z) (create_begin fid qid name perm mode)
| ss_created fid b mode a v p : session_section OpenFile (create_finish fid b mode a v p)
| ss_read fid offset count : session_section ReadTarget (read_target_at fid offset count)
| ss_consume id : session_section unit (on_state (modify (remove_response_request id)))
| ss_directory fid id r response : session_section ReadData (apply_directory_response fid id r response)
| ss_write fid offset data : session_section Z (write_section fid offset data)
| ss_stat qid : session_section Stat (stat_section qid)
| ss_commit fid : session_section (option (Z * Z)) (commit_begin fid)
| ss_clunk fid : session_section unit (clunk_finish fid)
| ss_remove fid qid : session_section (bytes * Z) (remove_begin fid qid)
| ss_removed fid path : session_section unit (remove_finish fid path)
| ss_wstat fid qid st : session_section Z (wstat_begin fid qid st)
| ss_rename a b c d e f : session_section (option Z) (rename_begin a b c d e f).

Lemma section_sound A (sec : Section_ A) : session_section A sec → sound sec.
Proof.
  destruct 1; auto with sound; unfold accepts_open_mode, walk_qid; soundness.
Qed.

(** The turns of the loops in which a session waits. *)
Inductive session_turn : ∀ A, (bool → bool → State → Turn A * State) → Prop :=
| st_resolve p name : session_turn (option Z) (λ _, resolve_turn p name)
| st_create r : session_turn (Z * Z * Z) (λ _, wait_create_relay_turn r)
| st_rpc r offset count (b : bool) : session_turn ReadData (λ c, read_rpc_turn r offset count (b && c))
| st_node id offset count (b : bool) : session_turn ReadData (λ c e s, (read_node_turn id offset count (b && c) e s, s))
| st_directory r (b : bool) : session_turn (list bytes * bool) (λ c, directory_response_turn r (b && c))
| st_write r len : session_turn Z (λ _, wait_write_relay_turn r len false)
| st_remove r : session_turn unit (λ _, wait_remove_relay_turn r)
| st_wstat r : session_turn unit (λ _, wait_wstat_relay_turn r)
| st_rename r : session_turn unit (λ _, wait_rename_relay_turn r).

Lemma turn_neutral A (turn : bool → bool → State → Turn A * State) c e : session_turn A turn →
  neutral (λ s, (turn c e s).2).
Proof.
  destruct 1; [apply resolve_turn_neutral|apply wait_create_relay_neutral|apply read_rpc_turn_neutral|by intros s Hs|
    apply directory_response_turn_neutral|apply wait_write_relay_neutral|apply wait_remove_relay_neutral|
    apply wait_wstat_relay_neutral|apply wait_rename_relay_neutral].
Qed.

(** [reset] as one change of the system. *)
Definition reset_session (k : Z) (y : Sys) : Sys :=
  let y' := close_session k y in
  Sys_mk (sys_state y') (<[k := FrontTree_new (sys_next_session y)]> (sys_trees y')) (sys_next_session y + 1).

Inductive sys_step : Sys → Sys → Prop :=
| step_owner o y : sys_step y (set_state (run_owner o (sys_state y)) y)
| step_section A (sec : Section_ A) k tr y : session_section A sec → sys_trees y !! k = Some tr →
    sys_step y (run_section k sec tr y).2
| step_turn A (turn : bool → bool → State → Turn A * State) c e y : session_turn A turn →
    sys_step y (set_state (turn c e (sys_state y)).2 y)
| step_open k y : sys_trees y !! k = None → sys_step y (open_session k y)
| step_close k y : sys_step y (close_session k y)
| step_reset k y : is_Some (sys_trees y !! k) → sys_step y (reset_session k y).

Lemma exact_set_state g s y : exact g s → total (sys_trees y) = g → sys_ok (set_state s y).
Proof. intros Hx <-. exact Hx. Qed.

Lemma close_session_ok k y : sys_ok y → sys_ok (close_session k y).
Proof.
  intros Hy. unfold close_session. destruct (sys_trees y !! k) as [tr|] eqn:Hk; [|done]. unfold sys_ok. simpl.
  apply (drop_session_exact tr); [intros z; apply total_nonneg|]. eapply exact_ext; [|exact Hy].
  intros z. simpl. by apply total_delete.
Qed.

Lemma own_new n z : own (FrontTree_new n) z = 0.
Proof. unfold own. simpl. by rewrite map_filter_empty, map_size_empty. Qed.

Lemma add_session_ok k n y : sys_trees y !! k = None → sys_ok y →
  sys_ok (Sys_mk (sys_state y) (<[k := FrontTree_new n]> (sys_trees y)) (sys_next_session y + 1)).
Proof.
  intros Hk Hy. eapply exact_ext; [|exact Hy]. intros z. simpl. rewrite total_insert, own_new, delete_id by done. lia.
Qed.

Lemma close_session_gone k y : sys_trees (close_session k y) !! k = None.
Proof. unfold close_session. destruct (sys_trees y !! k) eqn:Hk; [|done]. apply lookup_delete_eq. Qed.

Lemma close_session_next k y : sys_next_session (close_session k y) = sys_next_session y.
Proof. unfold close_session. by destruct (sys_trees y !! k). Qed.

Lemma sys_step_ok y y' : sys_step y y' → sys_ok y → sys_ok y'.
Proof.
  destruct 1 as [o y|A sec k tr y Hs Hk|A turn c e y Ht|k y Hk|k y|k y Hk]; intros Hy.
  - eapply exact_set_state; [|done]. by apply neutral_exact; [apply owner_neutral|].
  - unfold run_section. pose proof (section_sound A sec Hs (total (delete k (sys_trees y))) (tr, sys_state y)
      (total_nonneg _)) as H.
    destruct (sec (tr, sys_state y)) as [r [tr' s']]. simpl in *. unfold sys_ok, put. simpl.
    eapply exact_ext; [|apply H]; [intros z; simpl; by rewrite total_insert|].
    eapply exact_ext; [|exact Hy]. intros z. simpl. by apply total_delete.
  - eapply exact_set_state; [|done]. by apply (neutral_exact (λ s, (turn c e s).2)); [apply turn_neutral|].
  - by apply add_session_ok.
  - by apply close_session_ok.
  - unfold reset_session. pose proof (add_session_ok k (sys_next_session y) (close_session k y)) as H.
    rewrite close_session_next in H. apply H; [apply close_session_gone|by apply close_session_ok].
Qed.

Lemma Tree_new_nodes x n : nodes Tree_new !! x = Some n →
  x = ROOT_ID ∧ n = plain_node (bstr "/") ROOT_ID ROOT_ID (Dir DirectoryBody_default).
Proof. simpl. intros [<- <-]%lookup_singleton_Some. done. Qed.

Lemma Tree_new_wf : Inv Tree_new.
Proof.
  assert (∀ p name x, ¬ link Tree_new p name x) as Hno.
  { intros p name x (n & c & [-> ->]%Tree_new_nodes & [= <-] & Hx). done. }
  split; [constructor|by intros d Hd].
  - eexists _, _. split_and!; [apply lookup_singleton_eq|done..].
  - intros p name x []%Hno.
  - intros x m [-> _]%Tree_new_nodes. done.
  - by intros x Hx.
  - intros x [n [-> _]%Tree_new_nodes]. constructor.
  - intros x m [-> ->]%Tree_new_nodes. vm_compute. split; split; congruence.
  - intros q x. split.
    + simpl. intros [<- <-]%lookup_singleton_Some. eexists. split; [apply lookup_singleton_eq|done].
    + intros (m & [-> ->]%Tree_new_nodes & <-). apply lookup_singleton_eq.
  - intros x k. simpl. by intros Hx%lookup_empty_Some.
  - intros x [k Hx]. simpl in Hx. by apply lookup_empty_Some in Hx.
  - intros x [k Hx]. simpl in Hx. by apply lookup_empty_Some in Hx.
Qed.

Lemma Sys_new_ok : sys_ok Sys_new.
Proof. split; [apply Tree_new_wf|]. intros x. done. Qed.

Lemma reachable_ok y : rtc sys_step Sys_new y → sys_ok y.
Proof. revert y. refine (rtc_ind_r _ Sys_new _ _); [apply Sys_new_ok|]. intros y z _ Hyz Hy. by eapply sys_step_ok. Qed.

(** A front that was put to use, for runs: two published files, a directory that one
    principal is attached to, and a session with a fid on one of the files. *)

Definition meta (qid_path length : Z) : PushedEntryMetadata := PushedEntryMetadata_mk qid_path 1 1 0 length [] [] [].

(** The owner acts. *)
Definition acts (os : list OwnerOp) (y : Sys) : Sys := set_state (foldl (λ s o, run_owner o s) (sys_state y) os) y.

Definition idle : Entry := Entry_mk (λ y, y) false false.
Definition does (os : list OwnerOp) : Entry := Entry_mk (acts os) false false.

Lemma acts_steps os y : rtc sys_step y (acts os y).
Proof.
  destruct y as [s trees k]. unfold acts, set_state. simpl. revert s. induction os as [|o os IH]; intros s; simpl; [done|].
  eapply rtc_l; [|apply IH]. apply (step_owner o (Sys_mk s trees k)).
Qed.

(** [p/f] is published under the directory [p], [secret] is outside it, and [u] is
    attached to [p]. *)
Definition published : list OwnerOp :=
  [OSetPushedDirectory (bstr "p") (meta 100 0); OSetPushedFile (bstr "p/f") (bstr "hello") (meta 101 5);
   OSet (bstr "secret") (bstr "xx"); OSetPrincipal (bstr "u") (bstr "u") (bstr "x") (bstr "p")].

Definition opened : Sys := open_session 0 (acts published Sys_new).

Lemma opened_steps : rtc sys_step Sys_new opened.
Proof. eapply rtc_r; [apply acts_steps|]. by apply step_open. Qed.

(** The session attaches fid 1 and walks fid 2 to [p/f]. *)
Definition walked : Sys :=
  w_sys ((_ ← front_attach 1 (bstr "u") (bstr "x"); front_walk 1 2 [bstr "f"]) (World_mk opened 0 [])).2.

(** A link, computed. *)
Lemma link_by t p name x : (n ← nodes t !! p; c ← children_of n; c !! name) = Some x → link t p name x.
Proof.
  destruct (nodes t !! p) as [n|] eqn:Hn; [|done]. simpl. destruct (children_of n) as [c|] eqn:Hc; [|done]. by exists n, c.
Qed.

(** A call that succeeds, by its result. *)
Lemma returns {A B} (x : Result A * B) a : x.1 = Ok a → x = (Ok a, x.2).
Proof. by destruct x as [r b]; intros [= ->]. Qed.
