(* ===== verification/FrontProps.v ===== *)
(** What a front promises of its tree: it stays well-formed and open files stay there
    in every interleaving, every operation of a session is made of steps of the
    system, and removal and retention do what they say. *)
From stdpp Require Import sorting relations fin_maps fin_map_dom.
From S2P Require Import Prelude Errors Qid Stat Utf8 Referral NamespaceCache Text ExportDescriptor Codec Server FrontModel FrontInv FrontRetain FrontState FrontTree FrontOps FrontSys.

(** ** Operations as steps of the system *)

(** What the others do between the sections of an operation: steps of the system
    that leave the session alone. *)
Definition by_others (k : Z) (e : Entry) : Prop :=
  ∀ y, rtc sys_step y (e_act e y) ∧ sys_trees (e_act e y) !! k = sys_trees y !! k.

Record obeys (w : World) : Prop := obeys_mk {
  obeys_script e : e ∈ w_script w → by_others (w_me w) e;
  obeys_me : is_Some (sys_trees (w_sys w) !! w_me w);
}.

(** [m] is a sequence of steps of the system, those of others among them. *)
Definition steps {A} (m : M World A) : Prop :=
  ∀ w, obeys w → rtc sys_step (w_sys w) (w_sys (m w).2) ∧ obeys (m w).2 ∧ w_me (m w).2 = w_me w.

Lemma steps_same {A} (m : M World A) : (∀ w, (m w).2 = w) → steps m.
Proof. intros Hm w Hw. rewrite Hm. by split_and!. Qed.

Lemma steps_bind {A B} (m : M World A) (k : A → M World B) : steps m → (∀ a, steps (k a)) → steps (m ≫= k).
Proof.
  intros Hm Hk w Hw. unfold mbind, M_bind. destruct (Hm w Hw) as (Hs & Ho & Hme).
  destruct (m w) as [[a|e] w1]; simpl in *; [|done]. destruct (Hk a w1 Ho) as (Hs' & Ho' & Hme').
  split_and!; [by trans (w_sys w1)|done|congruence].
Qed.

Lemma steps_attempt {A} (m : M World A) : steps m → steps (attempt m).
Proof. intros Hm w Hw. destruct (Hm w Hw) as (? & ? & ?). unfold attempt. by destruct (m w). Qed.

Lemma yield_steps w : obeys w → rtc sys_step (w_sys w) (w_sys (yield w)) ∧ obeys (yield w) ∧ w_me (yield w) = w_me w.
Proof.
  intros [Hs Hm]. unfold yield. destruct (w_script w) as [|e rest] eqn:E.
  { split_and!; [done| |done]. constructor; [by rewrite E|done]. }
  destruct (Hs e ltac:(by left) (w_sys w)) as [Hst Hk]. simpl. split_and!; [done| |done]. constructor; simpl.
  - intros e' He'. apply Hs. by right.
  - by rewrite Hk.
Qed.

Lemma steps_atomic {A} (sec : Section_ A) : session_section A sec → steps (atomic sec).
Proof.
  intros Hsec w Hw. destruct (yield_steps w Hw) as (Hs & [Hscript [tr Htr]] & Hme). unfold atomic. cbv zeta.
  assert (me (yield w) = tr) as Hmetr by (unfold me; by rewrite Htr). rewrite Hmetr.
  pose proof (step_section A sec _ tr (w_sys (yield w)) Hsec Htr) as Hstep.
  unfold run_section in *. destruct (sec (tr, sys_state (w_sys (yield w)))) as [r [tr' s']]. simpl in *.
  split_and!; [by eapply rtc_r| |done]. constructor; simpl; [done|]. rewrite lookup_insert_eq. by eexists.
Qed.

Lemma await_loop_steps {A} (turn : bool → bool → State → Turn A * State) k script y : session_turn A turn →
  (∀ e, e ∈ script → by_others k e) →
  let '(_, y', rest) := await_loop turn script y in
  rtc sys_step y y' ∧ sys_trees y' !! k = sys_trees y !! k ∧ ∀ e, e ∈ rest → by_others k e.
Proof.
  intros Ht. revert y. induction script as [|e script IH]; intros y Hs; simpl.
  - pose proof (step_turn A turn false true y Ht) as Hstep.
    destruct (turn false true (sys_state y)) as [[r|] s]; (split_and!; [by apply rtc_once|done|by intros e ?%elem_of_nil]).
  - destruct (Hs e ltac:(by left) y) as [He Hk]. pose proof (step_turn A turn (e_cancel e) (e_expired e) (e_act e y) Ht) as Hstep.
    assert (∀ e', e' ∈ script → by_others k e') as Hs' by (intros e' He'; apply Hs; by right).
    destruct (turn (e_cancel e) (e_expired e) (sys_state (e_act e y))) as [[r|] s]; simpl in *.
    + split_and!; [by eapply rtc_r|done|done].
    + specialize (IH (set_state s (e_act e y)) Hs'). destruct (await_loop _ _ _) as [[r y'] rest].
      destruct IH as (H1 & H2 & H3). split_and!; [|by rewrite H2|done].
      trans (e_act e y); [done|]. by eapply rtc_l.
Qed.

Lemma steps_await {A} (turn : bool → bool → State → Turn A * State) : session_turn A turn → steps (await turn).
Proof.
  intros Ht w [Hs Hm]. unfold await. pose proof (await_loop_steps turn (w_me w) (w_script w) (w_sys w) Ht Hs) as H.
  destruct (await_loop _ _ _) as [[r y'] rest]. destruct H as (? & Hk & ?). split_and!; [done| |done].
  constructor; [done|]. simpl. by rewrite Hk.
Qed.

Lemma steps_reset : steps front_reset.
Proof.
  intros w Hw. destruct (yield_steps w Hw) as (Hs & [Hscript Hm] & Hme). unfold front_reset. cbv zeta. simpl.
  split_and!; [|constructor; simpl|done]; [|done|rewrite lookup_insert_eq; by eexists].
  eapply rtc_r; [done|]. by apply (step_reset (w_me (yield w)) (w_sys (yield w))).
Qed.

Create HintDb steps.
#[export] Hint Constructors session_section session_turn : steps.
#[export] Hint Resolve steps_atomic steps_await steps_reset : steps.
#[export] Hint Extern 1 (steps (local _)) => apply steps_same; reflexivity : steps.
#[export] Hint Extern 1 (steps (mret _)) => apply steps_same; reflexivity : steps.
#[export] Hint Extern 1 (steps (throw _)) => apply steps_same; reflexivity : steps.
#[export] Hint Extern 1 (steps (lift _)) => apply steps_same; reflexivity : steps.

Ltac steps_step :=
  match goal with
  | |- steps (_ ≫= _) => apply steps_bind; [|intros ?]
  | |- steps (attempt _) => apply steps_attempt
  | |- steps (if ?b then _ else _) => destruct b
  | |- steps (match ?x with _ => _ end) => destruct x
  | |- steps _ => solve [auto with steps]
  end.

Lemma walk_loop_steps b fid names current qids : steps (walk_loop b fid names current qids).
Proof.
  revert current qids. induction names as [|name names IH]; intros current qids; simpl; [repeat steps_step|].
  unfold walk_step, resolve_child_directory. repeat first [apply IH|steps_step].
Qed.

(** The operations a protocol server may call on a session. *)
Inductive file_op : ∀ A, M World A → Prop :=
| fo_attach fid uname aname : file_op Qid (ft_attach fid uname aname)
| fo_walk fid newfid qid names : file_op (list Qid) (ft_walk fid newfid qid names)
| fo_open fid qid mode : file_op OpenFile (ft_open fid qid mode)
| fo_create fid qid name perm mode : file_op OpenFile (ft_create fid qid name perm mode)
| fo_read fid qid offset count : file_op ReadData (ft_read fid qid offset count)
| fo_read_cancel fid offset count : file_op ReadData (front_read true fid offset count)
| fo_write fid qid offset data : file_op Z (ft_write fid qid offset data)
| fo_stat qid : file_op Stat (ft_stat qid)
| fo_clunk fid qid : file_op unit (ft_clunk fid qid)
| fo_remove fid qid : file_op unit (ft_remove fid qid)
| fo_wstat fid qid st : file_op unit (ft_wstat fid qid st)
| fo_rename a b c d e f : file_op unit (ft_rename_at a b c d e f)
| fo_reset : file_op unit ft_reset.

Lemma file_op_steps A (m : M World A) : file_op A m → steps m.
Proof.
  destruct 1; simpl; unfold front_attach, front_walk, front_open, front_create, front_read, response_read, front_write,
    front_stat, front_clunk, front_remove, front_wstat, front_rename_at; repeat first [apply walk_loop_steps|steps_step].
Qed.

(** ** Runs *)

Lemma script_obeys k y script : is_Some (sys_trees y !! k) → (∀ e, e ∈ script → by_others k e) → obeys (World_mk y k script).
Proof. by constructor. Qed.

Lemma does_by_others k os : by_others k (does os).
Proof. intros y. split; [apply acts_steps|done]. Qed.

Lemma idle_by_others k : by_others k idle.
Proof. by intros y. Qed.

Lemma walked_steps : rtc sys_step Sys_new walked.
Proof.
  trans opened; [apply opened_steps|].
  assert (steps (_ ← front_attach 1 (bstr "u") (bstr "x"); front_walk 1 2 [bstr "f"])) as H.
  { apply steps_bind; [apply (file_op_steps _ _ (fo_attach _ _ _))|]. intros _. apply (file_op_steps _ _ (fo_walk 1 2 (Qid_file 0) _)). }
  apply (H (World_mk opened 0 [])). apply script_obeys; [by eexists|]. by intros e ?%elem_of_nil.
Qed.

(** ** The tree and the fids *)

Lemma total_pos trees x : 0 < total trees x → ∃ k tr fid b, trees !! k = Some tr ∧ fids tr !! fid = Some b ∧ fb_node b = x.
Proof.
  unfold total. assert (∀ m : gmap Z FrontTree, 0 < map_fold (λ _ tr n, own tr x + n) 0 m → ∃ k tr, m !! k = Some tr ∧ 0 < own tr x) as H.
  { refine (map_ind _ _ _); [by rewrite map_fold_empty|]. intros k tr m Hk IH. fold (total (<[k := tr]> m) x).
    rewrite total_insert, delete_id by done. intros Hpos. destruct (decide (0 < own tr x)) as [?|Hn].
    - exists k, tr. by rewrite lookup_insert_eq.
    - destruct IH as (k' & tr' & Hk' & ?); [unfold total in Hpos; lia|]. exists k', tr'.
      rewrite lookup_insert_ne; [done|congruence]. }
  intros (k & tr & Hk & Ho)%H. exists k, tr. unfold own in Ho.
  destruct (decide (filter (λ b, fb_node b.2 = x) (fids tr) = ∅)) as [E|Hne]; [rewrite E, map_size_empty in Ho; lia|].
  apply map_choose in Hne as (fid & b & [? ?]%map_lookup_filter_Some). by exists fid, b.
Qed.

(** C10: In every interleaving of the owner's operations and the sections of the
    sessions, starting from a new front, the tree is well-formed: the root is a
    directory, child and parent links agree, every other node hangs from its parent
    or heads a detached subtree, no walk up runs in a circle, ids are below the
    counter, qid paths identify nodes, and reference counts are positive and of
    nodes that exist. *)
Theorem front_tree_wf y : rtc sys_step Sys_new y → wf (tree (sys_state y)).
Proof. intros Hy. apply (reachable_ok y Hy). Qed.

Lemma front_tree_wf_witness : wf (tree (sys_state walked)).
Proof. apply (front_tree_wf walked). apply walked_steps. Defined.

(** C9: In every interleaving, the node of a bound fid exists, however it was
    removed, and its qid finds it; the count of a node is the number of fids bound
    to it in all sessions; and a detached subtree is kept only while some fid is
    bound in it. *)
Theorem bound_fids_stay y : rtc sys_step Sys_new y →
  let t := tree (sys_state y) in
  (∀ k tr fid b, sys_trees y !! k = Some tr → fids tr !! fid = Some b →
     ∃ n, nodes t !! fb_node b = Some n ∧ node_id_for_qid_path t (n_qid_path n) = Ok (fb_node b)) ∧
  (∀ x, default 0 (fid_references t !! x) = total (sys_trees y) x) ∧
  (∀ d, d ∈ detached_roots t → ∃ k tr fid b, sys_trees y !! k = Some tr ∧ fids tr !! fid = Some b ∧ below t d (fb_node b)).
Proof.
  intros Hy t. destruct (reachable_ok y Hy) as [[Hwf Hc] Hr]. split_and!; [|done|].
  - intros k tr fid b Hk Hf. pose proof (total_bound _ _ _ _ _ Hk Hf) as Hpos. rewrite <-Hr in Hpos.
    destruct (fid_references (tree (sys_state y)) !! fb_node b) as [c|] eqn:E; [|simpl in Hpos; lia].
    destruct (wf_refs _ Hwf _ _ E) as [_ [n Hn]]. exists n. split; [done|]. unfold node_id_for_qid_path.
    apply ok_or_Ok. apply (wf_qids _ Hwf). by exists n.
  - intros d Hd. destruct (Hc d Hd) as (z & Hb & [c Hz]). pose proof (Hr z) as Hrz. rewrite Hz in Hrz. simpl in Hrz.
    destruct (wf_refs _ Hwf _ _ Hz) as [Hpos _]. destruct (total_pos (sys_trees y) z) as (k & tr & fid & b & ? & ? & <-); [lia|].
    by exists k, tr, fid, b.
Qed.

(** [p] is removed, and fid 2 is still at its file. *)
Lemma bound_fids_stay_witness :
  let y := acts [ORemoveSubtree (bstr "p")] walked in
  lookup_optional_path (tree (sys_state y)) (bstr "p") = Ok None ∧
  (∃ n, nodes (tree (sys_state y)) !! 2 = Some n ∧ node_id_for_qid_path (tree (sys_state y)) (n_qid_path n) = Ok 2) ∧
  total (sys_trees y) 2 = 1.
Proof.
  intros y. assert (rtc sys_step Sys_new y) as Hy by (trans walked; [apply walked_steps|apply acts_steps]).
  destruct (bound_fids_stay y Hy) as (Hf & Hr & _). split_and!; [vm_compute; reflexivity| |vm_compute; reflexivity].
  refine (Hf 0 (default (FrontTree_new 0) (sys_trees walked !! 0)) 2 (FidBinding_mk 2 1 1 (bstr "u") (bstr "x") (bstr "u")) _ _);
    vm_compute; reflexivity.
Defined.

(** Every operation a protocol server calls on a session, with whatever the
    owner and the other sessions do while it is between its sections or waits, is a
    sequence of steps of the system: the front it leaves is one of those the other
    theorems speak of. *)
Theorem file_operations_are_steps A (m : M World A) w : file_op A m → obeys w → rtc sys_step Sys_new (w_sys w) →
  rtc sys_step Sys_new (w_sys (m w).2) ∧ is_Some (sys_trees (w_sys (m w).2) !! w_me w).
Proof.
  intros Hm Hw Hr. destruct (file_op_steps A m Hm w Hw) as (Hs & [_ Ho] & Hme). split; [by trans (w_sys w)|].
  by rewrite <-Hme.
Qed.

Lemma file_operations_are_steps_witness :
  let w := World_mk walked 0 [does [ORemoveSubtree (bstr "p")]] in
  (front_read false 2 0 3 w).1 = Ok (Bytes (bstr "hel")) ∧ rtc sys_step Sys_new (w_sys (front_read false 2 0 3 w).2).
Proof.
  intros w. split; [vm_compute; reflexivity|]. apply (file_operations_are_steps _ _ w (fo_read 2 (Qid_file 0) 0 3)).
  - apply script_obeys; [vm_compute; by eexists|]. intros e ->%list_elem_of_singleton. apply does_by_others.
  - apply walked_steps.
Defined.

(** ** Removing *)

Section removal.
Context (t : Tree) (p : Z) (name : bytes) (x : Z).
Context (Hwf : wf t) (Hl : link t p name x).

Abbreviation t' := (retire_detached_subtree x (unlink_child p name t)).

Lemma retire_children q n c : ¬ below t x q → nodes t !! q = Some n → children_of n = Some c →
  ∃ n' c', nodes t' !! q = Some n' ∧ children_of n' = Some c' ∧ ∀ nm y, c' !! nm = Some y ↔ c !! nm = Some y ∧ y ≠ x.
Proof using Hwf Hl.
  intros Hq Hn Hc. assert (∃ n' c', nodes t' !! q = Some n' ∧ children_of n' = Some c') as (n' & c' & Hn' & Hc').
  { assert (∃ n' c', nodes (detach x (unlink_child p name t)) !! q = Some n' ∧ children_of n' = Some c') as (n' & c' & Hn' & Hc').
    { change (nodes (detach x (unlink_child p name t))) with (nodes (on_node p (on_children (delete name)) t)).
      rewrite lookup_on_node, Hn. simpl. destruct (decide (p = q)); eexists _, _; (split; [done|]);
        [by rewrite on_children_of, Hc|done]. }
    destruct (retire_spec _ _ _ _ Hwf Hl) as [[_ ->]|(_ & s & -> & _ & Hs)]; [by eauto|].
    exists n', c'. rewrite drop_node_Some. split_and!; [done| |done]. by rewrite (Hs q). }
  exists n', c'. split_and!; [done..|]. intros nm y.
  assert (link t' q nm y ↔ c' !! nm = Some y) as <-.
  { unfold link. split; [intros (n2 & c2 & ? & ? & ?); by simplify_eq|]. intros ?. by exists n', c'. }
  assert (link t q nm y ↔ c !! nm = Some y) as <-.
  { unfold link. split; [intros (n2 & c2 & ? & ? & ?); by simplify_eq|]. intros ?. by exists n, c. }
  by apply retire_link.
Qed.

Lemma retire_lookup segments q : ¬ below t x q → lookup_segments t q segments = Ok (Some x) →
  lookup_segments t' q segments = Ok None.
Proof using Hwf Hl.
  revert q. induction segments as [|s segments IH]; intros q Hq; simpl; [intros [= ->]; destruct Hq; constructor|].
  unfold node. destruct (nodes t !! q) as [n|] eqn:Hn; [simpl|done].
  destruct (children_of n) as [c|] eqn:Hc; [|done]. destruct (c !! s) as [y|] eqn:Hs; [|done].
  destruct (retire_children q n c Hq Hn Hc) as (n' & c' & Hn' & Hc' & Hiff). rewrite Hn'. simpl. rewrite Hc'.
  destruct (decide (y = x)) as [->|Hy].
  - intros _. destruct (c' !! s) as [z|] eqn:Hz; [|done]. apply Hiff in Hz as [? ?]. congruence.
  - intros Hlk. assert (c' !! s = Some y) as -> by (by apply Hiff). apply IH; [|done].
    intros [->|(q' & Hb & Hqy)]%rtc_inv_r; [done|]. apply Hq.
    assert (linked t q y) as Hqy' by (by exists s, n, c). by rewrite (linked_unique t Hwf q q' y).
Qed.

Lemma retire_subtree_nodes y : below t x y →
  nodes t' !! y = if subtree_has_fid_reference t x then nodes t !! y else None.
Proof using Hwf Hl.
  intros Hy. pose proof (subtree_has_fid_reference_spec t Hwf x) as Hr.
  destruct (retire_spec _ _ _ _ Hwf Hl) as [[Href ->]|(Href & s & -> & _ & Hs)].
  - rewrite (proj2 Hr Href). change (nodes (detach x (unlink_child p name t))) with (nodes (on_node p (on_children (delete name)) t)).
    rewrite lookup_on_node, decide_False; [by destruct (nodes t !! y)|]. intros ->.
    by apply (acyclic t y x Hwf); [eexists|].
  - destruct (subtree_has_fid_reference t x); [by destruct Href; apply Hr|]. rewrite drop_node, decide_True; [done|]. by apply Hs.
Qed.

End removal.

(** Removing a path that names a node other than the root succeeds; the path is
    gone and so is, from the root, exactly what was below it; and what was below it
    is kept, as it was, if a fid refers to any of it, and freed otherwise. *)
Theorem remove_subtree_effect t path x : Inv t → lookup_optional_path t path = Ok (Some x) → x ≠ ROOT_ID →
  ∃ t', remove_subtree_if_exists path t = (Ok (), t') ∧ lookup_optional_path t' path = Ok None ∧
    (∀ y, below t' ROOT_ID y ↔ below t ROOT_ID y ∧ ¬ below t x y) ∧
    (∀ y, below t x y → nodes t' !! y = if subtree_has_fid_reference t x then nodes t !! y else None).
Proof.
  intros Hi Hx Hne. pose proof (remove_subtree_run t path Hi) as Hr. rewrite Hx, decide_False in Hr by done.
  destruct Hr as (p & name & Hl & Hatt & Hr). destruct Hi as [Hwf _]. eexists. split; [exact Hr|]. split_and!.
  - revert Hx. unfold lookup_optional_path. case_bool_decide; [by intros [= <-]|].
    destruct (split_path _) as [segments|]; [|done]. cbn [mbind Result_bind]. apply retire_lookup; [done..|].
    intros Hb. apply (top_below t Hwf) in Hb as ->; [done|by left].
  - intros y. by apply retire_attached.
  - intros y. by apply retire_subtree_nodes.
Qed.

Lemma walked_Inv : Inv (tree (sys_state walked)).
Proof. apply (reachable_ok walked walked_steps). Qed.

Lemma remove_subtree_effect_witness :
  let t := tree (sys_state walked) in
  subtree_has_fid_reference t 1 = true ∧
  ∃ t', remove_subtree_if_exists (bstr "/p/") t = (Ok (), t') ∧ nodes t' !! 2 = nodes t !! 2.
Proof.
  intros t. split; [vm_compute; reflexivity|].
  destruct (remove_subtree_effect t (bstr "/p/") 1) as (t' & Hr & _ & _ & Hb); [apply walked_Inv|vm_compute; reflexivity|done|].
  exists t'. split; [done|]. rewrite Hb; [vm_compute; reflexivity|]. apply rtc_once. exists (bstr "f"). apply link_by. vm_compute; reflexivity.
Defined.

(** C31: [retain_subtree_paths] either fails and changes nothing, or leaves reachable
    from the root exactly what was reachable and is outside the subtree, or is the
    root of the subtree, a retained path or one of its ancestors; and it succeeds
    whenever the root names a directory and every retained path lies under it and
    exists. *)
Theorem retain_subtree_paths_exact t root_path paths : Inv t →
  match retain_subtree_paths root_path paths t with
  | (Err _, t') => t' = t
  | (Ok _, t') => ∃ root, lookup_path t root_path = Ok root ∧ retain_goal t root paths t'
  end ∧
  (∀ rs root n, segments_of root_path = Ok rs → lookup_path t root_path = Ok root → nodes t !! root = Some n →
     is_dir_body (n_body n) = true → (∀ path, path ∈ paths → under t rs path) →
     is_ok (retain_subtree_paths root_path paths t).1 = true).
Proof.
  intros Hi. split.
  - pose proof (retain_spec root_path paths t Hi) as H. destruct (retain_subtree_paths root_path paths t) as [[b|e] t'];
      [|done]. destruct H as (_ & _ & root & ? & _ & ? & _). by exists root.
  - intros rs root n Hrs Hroot Hn Hd Hall. destruct Hi as [Hwf _].
    destruct (retain_succeeds t root_path root rs paths n Hwf Hrs Hroot Hn Hd Hall) as [b ->]. done.
Qed.

Lemma retain_subtree_paths_exact_witness :
  is_ok (retain_subtree_paths [] [bstr "p/f"; bstr "secret"] (tree (sys_state walked))).1 = true ∧
  (retain_subtree_paths (bstr "p") [] (tree (sys_state walked))).1 = Ok true.
Proof.
  split; [|vm_compute; reflexivity].
  destruct (retain_subtree_paths_exact (tree (sys_state walked)) [] [bstr "p/f"; bstr "secret"] walked_Inv) as [_ H].
  refine (H [] ROOT_ID (default (plain_node [] 0 0 (File [])) (nodes (tree (sys_state walked)) !! ROOT_ID)) _ _ _ _ _);
    [vm_compute; reflexivity..|]. intros path Hp.
  assert (path = bstr "p/f" ∨ path = bstr "secret") as [-> | ->] by set_solver.
  - exists [bstr "p"; bstr "f"], 2. split; vm_compute; reflexivity.
  - exists [bstr "secret"], 3. split; vm_compute; reflexivity.
Defined.
