(* ===== verification/FrontPaths.v ===== *)
(** Paths of a front: what is set at a path is read back there, a log gathers its
    appends, and the path of a node leads back to it. *)
From stdpp Require Import sorting relations fin_maps fin_map_dom.
From S2P Require Import Prelude Errors Qid Stat Utf8 Referral NamespaceCache Text ExportDescriptor ExportDescriptorProps Codec Server FrontModel FrontInv FrontRetain FrontState FrontTree FrontOps FrontSys.

(** The logs of a front ([LogBody] in [crates/front/src/model.rs], [read_log] in
    [crates/front/src/front.rs]): a log is a window on the stream of everything that
    was appended to it. *)

(** The log after a sequence of appends. *)
Definition log_appends (capacity : Z) (l : LogBody) (entries : list bytes) : LogBody :=
  foldl (λ l entry, log_append entry capacity l) l entries.

(** [l] holds the end of [stream], whose first byte has the offset [base]. *)
Record window (base : Z) (stream : bytes) (l : LogBody) : Prop := window_mk {
  win_start : base ≤ log_start l;
  win_retained : retained l = vlen (concat (log_entries l));
  win_bytes : zdrop (log_start l - base) stream = concat (log_entries l);
  win_end : log_end l = base + vlen stream;
}.

Lemma zdrop_app {A} (l k : list A) : zdrop (vlen l) (l ++ k) = k.
Proof. unfold zdrop, vlen. by rewrite Nat2Z.id, drop_app_length. Qed.

Lemma zdrop_app_le {A} a (l k : list A) : 0 ≤ a ≤ vlen l → zdrop a (l ++ k) = zdrop a l ++ k.
Proof.
  intros Ha. unfold zdrop, vlen in *. rewrite drop_app. f_equal.
  replace (Z.to_nat a - length l)%nat with 0%nat by lia. by rewrite drop_0.
Qed.

Lemma window_empty base : window base [] (LogBody_empty_at base).
Proof. constructor; simpl; unfold log_end; simpl; try lia; try done. by rewrite Z.sub_diag. Qed.

Lemma log_shrink_window base stream entries start kept capacity : window base stream (LogBody_mk entries start kept) →
  window base stream (log_shrink entries start kept capacity).
Proof.
  revert start kept. induction entries as [|oldest entries IH]; intros start kept Hw; [done|]. cbn [log_shrink].
  destruct entries as [|next rest]; [done|]. destruct (capacity <? kept); [|done]. apply IH.
  destruct Hw as [H1 H2 H3 H4]. unfold log_end in *. cbn [log_start log_entries retained concat] in *.
  pose proof (vlen_nonneg oldest). constructor; cbn [log_start log_entries retained]; unfold log_end; cbn [log_start retained].
  - lia.
  - rewrite H2, vlen_app. cbn [concat]. lia.
  - replace (start + vlen oldest - base) with ((start - base) + vlen oldest) by lia.
    rewrite <-zdrop_zdrop by lia. rewrite H3. apply zdrop_app.
  - lia.
Qed.

Lemma log_append_window base stream bs capacity l : window base stream l →
  window base (stream ++ bs) (log_append bs capacity l).
Proof.
  intros [H1 H2 H3 H4]. unfold log_append. apply log_shrink_window. unfold log_end in *.
  constructor; cbn [log_start log_entries retained]; unfold log_end; cbn [log_start retained].
  - done.
  - rewrite concat_app, vlen_app. simpl. rewrite app_nil_r. lia.
  - rewrite concat_app. simpl. rewrite app_nil_r, <-H3. apply zdrop_app_le. pose proof (vlen_nonneg (concat (log_entries l))). lia.
  - rewrite vlen_app. lia.
Qed.

Lemma log_appends_window base stream capacity l entries : window base stream l →
  window base (stream ++ concat entries) (log_appends capacity l entries).
Proof.
  revert stream l. induction entries as [|e entries IH]; intros stream l Hw; simpl; [by rewrite app_nil_r|].
  rewrite app_assoc. by apply IH, log_append_window.
Qed.

(** The window is bounded, but for an entry that is larger by itself. *)
Lemma log_shrink_bounded entries start kept capacity :
  let l := log_shrink entries start kept capacity in retained l ≤ capacity ∨ (length (log_entries l) ≤ 1)%nat.
Proof.
  revert start kept. induction entries as [|oldest entries IH]; intros start kept; [simpl; lia|]. cbn [log_shrink].
  destruct entries as [|next rest]; [simpl; lia|]. destruct (Z.ltb_spec capacity kept); [apply IH|]. left. simpl. lia.
Qed.

(** It never loses the last entry. *)
Lemma log_shrink_last entries start kept capacity : last (log_entries (log_shrink entries start kept capacity)) = last entries.
Proof.
  revert start kept. induction entries as [|oldest entries IH]; intros start kept; [done|]. cbn [log_shrink].
  destruct entries as [|next rest]; [done|]. destruct (capacity <? kept); [|done]. by rewrite IH.
Qed.

Lemma log_appends_last capacity l entries e : last entries = Some e → last (log_entries (log_appends capacity l entries)) = Some e.
Proof.
  intros He. apply last_Some in He as [es ->]. unfold log_appends. rewrite foldl_app. cbn [foldl].
  unfold log_append. by rewrite log_shrink_last, last_snoc.
Qed.

Lemma log_appends_bounded capacity l entries e : last entries = Some e →
  let l' := log_appends capacity l entries in
  retained l' ≤ capacity ∨ log_entries l' = [e].
Proof.
  intros He. apply last_Some in He as [es ->]. unfold log_appends. rewrite foldl_app. cbn [foldl]. cbv zeta.
  set (l0 := foldl _ l es). destruct (log_shrink_bounded (log_entries l0 ++ [e]) (log_start l0) (retained l0 + vlen e) capacity)
    as [H|H]; [by left|]. right. pose proof (log_shrink_last (log_entries l0 ++ [e]) (log_start l0) (retained l0 + vlen e) capacity) as Hl.
  rewrite last_snoc in Hl. unfold log_append. destruct (log_entries (log_shrink _ _ _ _)) as [|a [|b k]]; simpl in *;
    [done|congruence|lia].
Qed.

Lemma ztake_app {A} n (l k : list A) : 0 ≤ n → ztake n (l ++ k) = ztake n l ++ ztake (n - vlen l) k.
Proof. intros. unfold ztake, vlen. rewrite take_app. f_equal. f_equal. lia. Qed.

Lemma vlen_ztake_min {A} n (l : list A) : 0 ≤ n → vlen (ztake n l) = Z.min n (vlen l).
Proof. intros. unfold vlen, ztake in *. rewrite length_take. lia. Qed.

Lemma ztake_min {A} a b (l : list A) : ztake (Z.min a b) l = ztake b (ztake a l).
Proof. unfold ztake. rewrite take_take. f_equal. lia. Qed.

Lemma zdrop_past {A} n (l k : list A) : vlen l ≤ n → zdrop n (l ++ k) = zdrop (n - vlen l) k.
Proof.
  intros. unfold zdrop, vlen in *. rewrite drop_app, drop_ge by lia. simpl. f_equal. lia.
Qed.

Lemma ztake_all {A} n (l : list A) : vlen l ≤ n → ztake n l = l.
Proof. intros. unfold ztake, vlen in *. apply take_ge. lia. Qed.

Lemma log_read_loop_spec entries skip count out : 0 ≤ skip → vlen out ≤ count →
  (out = [] ∨ vlen out < count) →
  log_read_loop entries skip count out = out ++ ztake (count - vlen out) (zdrop skip (concat entries)).
Proof.
  revert skip out. induction entries as [|e entries IH]; intros skip out Hs Ho Hne; cbn [log_read_loop concat].
  { unfold zdrop, ztake. by rewrite drop_nil, take_nil, app_nil_r. }
  destruct (Z.leb_spec (vlen e) skip) as [Hle|Hlt].
  - rewrite IH by (try lia; done). by rewrite zdrop_past.
  - cbv zeta. pose proof (vlen_nonneg out) as Hout0.
    assert (ztake (Z.min (vlen e - skip) (count - vlen out)) (zdrop skip e) = ztake (count - vlen out) (zdrop skip e)) as ->.
    { rewrite ztake_min, (ztake_all (vlen e - skip)); [done|]. rewrite vlen_zdrop by lia. lia. }
    rewrite zdrop_app_le by lia. rewrite ztake_app by lia. rewrite vlen_zdrop by lia.
    rewrite vlen_app, vlen_ztake_min, vlen_zdrop by lia.
    destruct (Z.eqb_spec (vlen out + Z.min (count - vlen out) (vlen e - skip)) count) as [Heq|Hneq].
    + rewrite app_assoc. replace (ztake (count - vlen out - (vlen e - skip)) (concat entries)) with (@nil byte); [by rewrite app_nil_r|].
      unfold ztake. by replace (Z.to_nat _) with 0%nat by lia.
    + rewrite IH; [|lia|rewrite vlen_app, vlen_ztake_min, vlen_zdrop by lia; lia|].
      * rewrite vlen_app, vlen_ztake_min, vlen_zdrop by lia. rewrite <-app_assoc.
        change (zdrop 0 (concat entries)) with (concat entries). do 3 f_equal. lia.
      * right. rewrite vlen_app, vlen_ztake_min, vlen_zdrop by lia. lia.
Qed.

Lemma log_read_window base stream l offset count : window base stream l → log_start l ≤ offset → 0 ≤ count →
  log_read offset count l = ztake count (zdrop (offset - base) stream).
Proof.
  intros [H1 H2 H3 H4] Ho Hc. unfold log_read. rewrite log_read_loop_spec; [|unfold saturating_sub; lia|done|by left].
  cbn [app]. change (vlen (@nil byte)) with 0. rewrite Z.sub_0_r, <-H3. unfold saturating_sub.
  rewrite Z.max_r by lia. rewrite zdrop_zdrop by lia. do 2 f_equal. lia.
Qed.

(** What a log that got the given entries serves. *)
Lemma log_reads_stream base capacity entries s id n offset count expired :
  let l := log_appends capacity (LogBody_empty_at base) entries in
  let stream := concat entries in
  nodes (tree s) !! id = Some n → n_body n = Log l → 0 ≤ count →
  base ≤ log_start l ∧ log_start l + retained l = base + vlen stream ∧ retained l = vlen (concat (log_entries l)) ∧
  read_log_turn id offset count false expired s =
    if offset <? log_start l then
      Done (Err (Error_new (bstr "log window passed: earliest retained offset " ++ dec (log_start l))))
    else if offset <? base + vlen stream then Done (Ok (Bytes (ztake count (zdrop (offset - base) stream))))
    else if expired then Done (Ok (Bytes [])) else Wait.
Proof.
  intros l stream Hn Hb Hc. pose proof (log_appends_window base [] capacity _ entries (window_empty base)) as Hw.
  fold l in Hw. cbn [app] in Hw. fold stream in Hw. split_and!; [apply Hw..|].
  unfold read_log_turn, node. rewrite Hn. cbn [ok_or]. rewrite Hb, (win_end _ _ _ Hw).
  destruct (Z.ltb_spec offset (log_start l)); [done|]. destruct (offset <? base + vlen stream); [|done].
  by rewrite (log_read_window base stream).
Qed.

(** ** Directories made on the way *)

(** Links stay. *)
Definition extends (t t' : Tree) : Prop := ∀ p nm x, link t p nm x → link t' p nm x.

(** Nodes without children are not made on the way. *)
Definition leaves (t t' : Tree) : Prop := ∀ x n, children_of n = None → nodes t' !! x = Some n → nodes t !! x = Some n.

Lemma extends_trans t1 t2 t3 : extends t1 t2 → extends t2 t3 → extends t1 t3.
Proof. unfold extends. eauto. Qed.

Lemma resolve_link t p name x rest : link t p name x → resolve_segments t p (name :: rest) = resolve_segments t x rest.
Proof. intros (n & c & Hn & Hc & Hx). simpl. unfold node. rewrite Hn. simpl. by rewrite Hc, Hx. Qed.

Lemma resolve_extends t t' p segments x : extends t t' → resolve_segments t p segments = Ok x →
  resolve_segments t' p segments = Ok x.
Proof.
  intros He. revert p. induction segments as [|s segments IH]; intros p; [done|]. simpl. unfold node at 1.
  destruct (nodes t !! p) as [n|] eqn:Hn; [simpl|done]. destruct (children_of n) as [c|] eqn:Hc; [|done].
  destruct (c !! s) as [y|] eqn:Hy; [simpl|done]. intros H%IH.
  rewrite <-H. apply (resolve_link t' p s y segments). apply He. by exists n, c.
Qed.

Lemma child_of_run t p name r t' : child_of p name t = (Ok r, t') → t' = t ∧ finds p name r t.
Proof.
  unfold child_of, query, node, mbind, M_bind. destruct (nodes t !! p) as [pn|] eqn:Hp; simpl; [|done].
  destruct (children_of pn) as [c|] eqn:Hc; [|done]. intros [= <- <-]. split; [done|]. by exists pn, c.
Qed.

Lemma add_plain_run t p name body x t' : Inv t → finds p name None t → empty_body body →
  (id ← gets next_id; qid_path ← query (λ t, next_available_qid_path t id); add_node (plain_node name p qid_path body)) t =
    (Ok x, t') →
  Inv t' ∧ extends t t' ∧ link t' p name x ∧ log_capacity t' = log_capacity t ∧ (is_dir_body body = true → leaves t t') ∧
  ∃ n, nodes t' !! x = Some n ∧ n_body n = body.
Proof.
  intros Hi Hf Hb. unfold gets, query, mbind, M_bind. destruct (next_available_qid_path t (next_id t)) as [q|] eqn:Hq; [|done].
  rewrite add_node_run. intros [= <- <-].
  assert (room t (plain_node name p q body)) as Hr by (apply plain_room; [done|by eapply next_available_free|done]).
  pose proof (add_node_grows t _ Hi Hr) as Hg. destruct Hi as [Hwf Hc]. split_and!; [apply Hg|..|done| |].
  - intros p' nm y Hl. apply inserted_link; [done..|]. by left.
  - apply inserted_link; [done..|]. by right.
  - intros Hd y n Hn. destruct (decide (y = next_id t)) as [->|Hy].
    + rewrite inserted_fresh by done. intros [= <-]. unfold children_of in Hn. simpl in Hn. by destruct body.
    + unfold inserted, insert_node, link_child. rewrite lookup_on_node. simpl. rewrite lookup_insert_ne by done.
      destruct (decide (p = y)) as [<-|]; [|by destruct (nodes t !! y)]. destruct Hf as (pn & c & -> & Hpc & _). simpl.
      intros [= <-]. by rewrite on_children_of, Hpc in Hn.
  - eexists. split; [by apply inserted_fresh|done].
Qed.

Lemma ensure_dir_run t p name x t' : Inv t → ensure_dir p name t = (Ok x, t') →
  Inv t' ∧ extends t t' ∧ link t' p name x ∧ log_capacity t' = log_capacity t ∧ leaves t t'.
Proof.
  intros Hi. unfold ensure_dir. unfold mbind at 1, M_bind at 1.
  destruct (child_of p name t) as [[r|] t1] eqn:Hc; [|done]. apply child_of_run in Hc as [-> Hf].
  destruct r as [y|].
  - unfold query, node, mbind, M_bind. destruct (nodes t !! y) as [n|]; simpl; [|done]. destruct (is_dir_body _); [|done].
    intros [= -> ->]. split_and!; [done|by intros p' nm y|by apply finds_link|done|by intros y m].
  - intros H. destruct (add_plain_run t p name (Dir DirectoryBody_default) x t' Hi Hf) as (? & ? & ? & ? & Hlv & _);
      [by intros d [= <-]|done|]. split_and!; [done..|by apply Hlv].
Qed.

Lemma ensure_dirs_run t p dirs x t' : Inv t → ensure_dirs p dirs t = (Ok x, t') →
  Inv t' ∧ extends t t' ∧ resolve_segments t' p dirs = Ok x ∧ log_capacity t' = log_capacity t ∧ leaves t t'.
Proof.
  revert t p. induction dirs as [|dir dirs IH]; intros t p Hi; cbn [ensure_dirs].
  - intros [= -> ->]. split_and!; [done|by intros p' nm y|done|done|by intros y m].
  - unfold mbind, M_bind. destruct (ensure_dir p dir t) as [[y|] t1] eqn:Hd; [|done].
    apply ensure_dir_run in Hd as (Hi1 & He1 & Hl1 & Hc1 & Hv1); [|done]. intros (Hi2 & He2 & Hr2 & Hc2 & Hv2)%IH; [|done].
    split_and!; [done|by eapply extends_trans| |congruence|unfold leaves in *; by eauto]. rewrite (resolve_link t' p dir y); [done|]. by apply He2.
Qed.

Lemma split_last_app segments leaf dirs : split_last segments = Ok (leaf, dirs) → segments = dirs ++ [leaf].
Proof.
  unfold split_last. destruct (last segments) as [l|] eqn:Hl; [|done]. cbn [ok_or mbind Result_bind mret Result_ret].
  intros [= -> <-]. apply last_Some in Hl as [k ->]. by rewrite removelast_last.
Qed.

Lemma open_place_run t from path p leaf r t' : Inv t → open_place from path t = (Ok (p, leaf, r), t') →
  Inv t' ∧ extends t t' ∧ finds p leaf r t' ∧ log_capacity t' = log_capacity t ∧ leaves t t' ∧
  ∃ dirs, split_path path = Ok (dirs ++ [leaf]) ∧ resolve_segments t' from dirs = Ok p.
Proof.
  intros Hi. unfold open_place, lift, mbind, M_bind. destruct (split_path path) as [segments|]; [|done].
  destruct (split_last segments) as [[leaf' dirs]|] eqn:Hs; [|done]. apply split_last_app in Hs as ->.
  destruct (ensure_dirs from dirs t) as [[q|] t1] eqn:Hd; [|done].
  apply ensure_dirs_run in Hd as (Hi1 & He1 & Hr1 & Hc1 & Hv1); [|done].
  destruct (child_of q leaf' t1) as [[r'|] t2] eqn:Hc; [|done]. apply child_of_run in Hc as [-> Hf].
  intros [= <- <- <- <-]. split_and!; [done..|]. by exists dirs.
Qed.

Lemma lookup_split t path segments : split_path path = Ok segments → lookup_path t path = resolve_segments t ROOT_ID segments.
Proof.
  unfold lookup_path, split_path. rewrite trim_slashes_idem. case_bool_decide; [done|]. by intros [= <-].
Qed.

(** ** Setting and reading *)

(** What [place] leaves at the path. *)
Lemma place_run t path body x t' : Inv t → empty_body body → place path body t = (Ok x, t') →
  Inv t' ∧ lookup_path t' path = Ok x ∧ log_capacity t' = log_capacity t ∧
  ∃ n, nodes t' !! x = Some n ∧
    match body with
    | File bs => n_body n = File bs
    | Log incoming =>
        n_body n = Log incoming ∨
        ∃ m l, nodes t !! x = Some m ∧ n_body m = Log l ∧
          n_body n = Log (log_appends (log_capacity t) l (log_entries incoming))
    | _ => n_body n = body
    end.
Proof.
  intros Hi Hb Hrun. pose proof (place_keeps path body Hb t Hi I) as [Hg _]. rewrite Hrun in Hg. simpl in Hg.
  revert Hrun. unfold place. unfold mbind at 1, M_bind at 1. unfold gets. unfold mbind at 1, M_bind at 1.
  destruct (open_place ROOT_ID path t) as [[[[p leaf] r]|] t1] eqn:Ho; [|done].
  apply open_place_run in Ho as (Hi1 & He1 & Hf & Hc1 & Hv1 & dirs & Hs & Hr); [|done].
  assert (∀ t2, extends t1 t2 → link t2 p leaf x → lookup_path t2 path = Ok x) as Hlk.
  { intros t2 He Hl. rewrite (lookup_split t2 path _ Hs), resolve_app, (resolve_extends t1 t2 _ _ p He Hr).
    cbn [mbind Result_bind]. by rewrite (resolve_link t2 p leaf x). }
  destruct r as [y|].
  - unfold query, node. unfold mbind at 1, M_bind at 1. destruct (nodes t1 !! y) as [m|] eqn:Hy; [|done]. cbn [ok_or].
    assert (∀ (f : Node → Node), (∀ n, children_of n = None → children_of (f n) = children_of n) → children_of m = None →
      extends t1 (on_node y f t1)) as Hext.
    { intros f Hf' Hm p' nm z (n & c & Hn & Hcn & Hz). destruct (decide (y = p')) as [<-|Hne]; [by simplify_eq|].
      exists n, c. by rewrite lookup_on_node, Hn, decide_False. }
    destruct (n_body m) eqn:Em; try done; destruct body; try done; unfold modify, mbind, M_bind; intros [= <- <-].
    + split_and!; [apply Hg| |done|].
      * apply Hlk; [apply Hext; [done|unfold children_of; by rewrite Em]|].
        apply Hext; [done|unfold children_of; by rewrite Em|by apply finds_link].
      * eexists. rewrite lookup_on_node, Hy, decide_True by done. done.
    + split_and!; [apply Hg| |done|].
      * apply Hlk; [apply Hext; [done|unfold children_of; by rewrite Em]|].
        apply Hext; [done|unfold children_of; by rewrite Em|by apply finds_link].
      * eexists. rewrite lookup_on_node, Hy, decide_True by done. split; [done|]. right. exists m, l.
        split_and!; [apply Hv1; [unfold children_of; by rewrite Em|done]|done..].
  - intros Hadd. destruct (add_plain_run t1 p leaf body x t' Hi1 Hf Hb Hadd) as (Hi2 & He2 & Hl2 & Hc2 & _ & n & Hn & Hbody).
    split_and!; [done|by apply Hlk|congruence|]. exists n. split; [done|]. destruct body; try done. by left.
Qed.

Lemma ensure_dirs_absent t p dirs leaf q t' : Inv t → lookup_segments t p (dirs ++ [leaf]) = Ok None →
  ensure_dirs p dirs t = (Ok q, t') → finds q leaf None t'.
Proof.
  revert t p. induction dirs as [|dir dirs IH]; intros t p Hi Habs; cbn [ensure_dirs].
  - intros [= <- <-]. simpl in Habs. unfold node in Habs. destruct (nodes t !! p) as [n|] eqn:Hn; [simpl in Habs|done].
    destruct (children_of n) as [c|] eqn:Hc; [|done]. destruct (c !! leaf) eqn:Hl; [done|]. by exists n, c.
  - unfold mbind, M_bind. destruct (ensure_dir p dir t) as [[y|] t1] eqn:Hd; [|done].
    pose proof (ensure_dir_run t p dir y t1 Hi Hd) as (Hi1 & _). apply IH; [done|].
    revert Hd Habs. unfold ensure_dir. unfold mbind at 1, M_bind at 1.
    destruct (child_of p dir t) as [[r|] t0] eqn:Hc; [|done]. apply child_of_run in Hc as [-> (n & c & Hn & Hch & Hr)].
    simpl. unfold node. rewrite Hn. simpl. rewrite Hch, Hr. destruct r as [z|].
    + unfold query, node, mbind, M_bind. destruct (nodes t !! z) as [m|]; simpl; [|done].
      destruct (is_dir_body _); [|done]. by intros [= -> ->].
    + intros Hadd _. destruct (add_plain_run t p dir (Dir DirectoryBody_default) y t1 Hi) as (_ & _ & _ & _ & _ & m & Hm & Hb);
        [by exists n, c|by intros d [= <-]|done|].
      assert (children_of m = Some ∅) as Hme by (unfold children_of; by rewrite Hb).
      assert (∀ s rest, lookup_segments t1 y (s :: rest) = Ok None) as Hnone
        by (intros s rest; simpl; unfold node; rewrite Hm; simpl; by rewrite Hme).
      destruct dirs; apply Hnone.
Qed.

Lemma place_new t path body x t' : Inv t → empty_body body → lookup_optional_path t path = Ok None →
  place path body t = (Ok x, t') → ∃ n, nodes t' !! x = Some n ∧ n_body n = body.
Proof.
  intros Hi Hb Habs. unfold place. unfold mbind at 1, M_bind at 1. unfold gets. unfold mbind at 1, M_bind at 1.
  destruct (open_place ROOT_ID path t) as [[[[p leaf] r]|] t1] eqn:Ho; [|done].
  pose proof (open_place_run t ROOT_ID path p leaf r t1 Hi Ho) as (Hi1 & _ & Hf & _ & _ & dirs & Hs & _).
  assert (r = None) as ->.
  { assert (finds p leaf None t1) as (pn' & c' & ? & ? & ?); [|destruct Hf as (pn & c & ? & ? & ?); by simplify_eq].
    revert Ho Habs. unfold open_place, lift, mbind, M_bind. rewrite Hs.
    destruct (split_last (dirs ++ [leaf])) as [[leaf' dirs']|] eqn:Hsl; [|done].
    apply split_last_app, app_inj_tail in Hsl as [<- <-].
    destruct (ensure_dirs ROOT_ID dirs t) as [[q|] t2] eqn:Hd; [|done].
    destruct (child_of q leaf t2) as [[r'|] t3] eqn:Hc; [|done]. apply child_of_run in Hc as [-> _]. intros [= <- _ <-].
    unfold lookup_optional_path. unfold split_path in Hs |- *. rewrite trim_slashes_idem.
    destruct (bool_decide _); [done|]. injection Hs as ->. cbn [mbind Result_bind]. intros Habs.
    by eapply (ensure_dirs_absent t ROOT_ID dirs leaf). }
  intros Hadd. by destruct (add_plain_run t1 p leaf body x t' Hi1 Hf Hb Hadd) as (_ & _ & _ & _ & _ & ?).
Qed.

Lemma opened_Inv : Inv (tree (sys_state opened)).
Proof. apply (reachable_ok opened opened_steps). Qed.

(** What is set at a path is read back there, whatever part is asked for. *)
Theorem set_then_read path bs s s' offset count cancelled expired : Inv (tree s) → set path bs s = (Ok (), s') →
  ∃ id, lookup_path (tree s') path = Ok id ∧
    read_node_turn id offset count cancelled expired s' = Done (Ok (Bytes (slice_at offset count bs))).
Proof.
  intros Hi. unfold set, on_tree, mbind, M_bind. destruct (place path (File bs) (tree s)) as [[x|] t'] eqn:Hp; [|done].
  intros [= <-]. destruct (place_run _ _ _ _ _ Hi (empty_body_plain (File bs) eq_refl) Hp) as (_ & Hl & _ & n & Hn & Hb).
  exists x. split; [done|]. unfold read_node_turn, node. simpl. rewrite Hn. simpl. by rewrite Hb.
Qed.

Lemma set_then_read_witness :
  let s' := (set (bstr "p/g") (bstr "letters") (sys_state opened)).2 in
  ∃ id, lookup_path (tree s') (bstr "p/g") = Ok id ∧ read_node_turn id 2 3 false false s' = Done (Ok (Bytes (bstr "tte"))).
Proof. intros s'. apply (set_then_read (bstr "p/g") (bstr "letters") (sys_state opened)); [apply opened_Inv|].
  apply (returns (set (bstr "p/g") (bstr "letters") (sys_state opened)) ()). vm_compute; reflexivity. Defined.

(** ** Logs by path *)

Fixpoint append_events (path : bytes) (entries : list bytes) : M State unit :=
  match entries with
  | [] => mret ()
  | e :: entries => _ ← append_event path e; append_events path entries
  end.

(** The path names a log. *)
Definition log_at (t : Tree) (path : bytes) (l : LogBody) : Prop :=
  ∃ x n, lookup_path t path = Ok x ∧ nodes t !! x = Some n ∧ n_body n = Log l.

Lemma lookup_optional_of_path t path x : lookup_path t path = Ok x → lookup_optional_path t path = Ok (Some x).
Proof.
  unfold lookup_path, lookup_optional_path. case_bool_decide; [by intros [= <-]|].
  destruct (split_path _) as [segments|]; [cbn [mbind Result_bind]|done].
  generalize ROOT_ID. induction segments as [|s segments IH]; intros y; simpl; [by intros [= <-]|].
  destruct (node t y) as [n|]; [simpl|done]. destruct (children_of n) as [c|]; [|done].
  destruct (c !! s) as [z|]; [simpl; apply IH|done].
Qed.

Lemma resolve_det t t' p segments x y : extends t t' → resolve_segments t p segments = Ok x →
  resolve_segments t' p segments = Ok y → x = y.
Proof. intros He Hx Hy. apply (resolve_extends t t' p segments x He) in Hx. congruence. Qed.

(** Appending to a log that is there. *)
Lemma append_event_run s path bs s' l : Inv (tree s) → log_at (tree s) path l → append_event path bs s = (Ok (), s') →
  Inv (tree s') ∧ log_capacity (tree s') = log_capacity (tree s) ∧
  log_at (tree s') path (log_append bs (log_capacity (tree s)) l).
Proof.
  intros Hi (x & m & Hx & Hm & Hml). unfold append_event, on_tree, mbind, M_bind.
  destruct (place path (Log (LogBody_new bs)) (tree s)) as [[y|] t'] eqn:Hp; [|done]. intros [= <-].
  destruct (place_run _ _ _ _ _ Hi (empty_body_plain (Log (LogBody_new bs)) eq_refl) Hp) as (Hi' & Hl & Hc & _).
  split_and!; [done..|]. exists y. cbn [tree upd_tree]. revert Hp Hl. unfold place.
  unfold mbind at 1, M_bind at 1. unfold gets. unfold mbind at 1, M_bind at 1.
  destruct (open_place ROOT_ID path (tree s)) as [[[[p leaf] r]|] t1] eqn:Ho; [|done].
  apply open_place_run in Ho as (Hi1 & He1 & Hf & Hc1 & Hv1 & dirs & Hs & Hr); [|done].
  rewrite (lookup_split (tree s) path _ Hs) in Hx. apply (resolve_extends _ t1 _ _ _ He1) in Hx.
  rewrite resolve_app, Hr in Hx. cbn [mbind Result_bind] in Hx. simpl in Hx.
  destruct Hf as (pn & c & Hpn & Hcn & Hlf). unfold node in Hx. rewrite Hpn in Hx. simpl in Hx. rewrite Hcn, Hlf in Hx.
  destruct r as [z|]; [simpl in Hx; injection Hx as ->|done]. unfold query, node, mbind, M_bind.
  destruct (nodes t1 !! x) as [nx|] eqn:Hnx; simpl; [|done].
  destruct (n_body nx) eqn:Hbx; try done. intros [= <- <-] Hl. eexists.
  split_and!; [done|by rewrite lookup_on_node, Hnx, decide_True by done|]. simpl.
  assert (nodes (tree s) !! x = Some nx) by (apply Hv1; [unfold children_of; by rewrite Hbx|done]). simplify_eq. congruence.
Qed.

Lemma append_events_run s path entries s' l : Inv (tree s) → log_at (tree s) path l →
  append_events path entries s = (Ok (), s') → log_at (tree s') path (log_appends (log_capacity (tree s)) l entries).
Proof.
  revert s l. induction entries as [|e entries IH]; intros s l Hi Hl; cbn [append_events]; [by intros [= <-]|].
  unfold mbind, M_bind. destruct (append_event path e s) as [[[]|] s1] eqn:He; [|done].
  apply (append_event_run s path e s1 l) in He as (Hi1 & Hc1 & Hl1); [|done..]. intros H%(IH _ _ Hi1 Hl1).
  by rewrite Hc1 in H.
Qed.

Lemma register_log_at_run s path base s' : Inv (tree s) → register_log_at path base s = (Ok (), s') →
  Inv (tree s') ∧ log_capacity (tree s') = log_capacity (tree s) ∧ log_at (tree s') path (LogBody_empty_at base).
Proof.
  intros Hi. unfold register_log_at. cbv zeta. destruct (bool_decide _) eqn:He; [done|]. unfold ask. unfold mbind at 1, M_bind at 1.
  destruct (lookup_optional_path (tree s) (trim_slashes path)) as [[x|]|] eqn:Hl; [done| |done].
  unfold on_tree, mbind, M_bind. destruct (place _ _ (tree s)) as [[x|] t'] eqn:Hp; [|done]. intros [= <-].
  pose proof (empty_body_plain (Log (LogBody_empty_at base)) eq_refl) as Hb.
  destruct (place_run _ _ _ _ _ Hi Hb Hp) as (? & Hx & ? & _). destruct (place_new _ _ _ _ _ Hi Hb Hl Hp) as (n & ? & ?).
  split_and!; [done..|]. exists x, n. split_and!; [|done..]. simpl.
  revert Hx. unfold lookup_path. by rewrite trim_slashes_idem.
Qed.

(** C32: A log registered at offset [base] to which [entries] were appended, one call
    each, serves at every offset it still holds exactly the bytes of the stream there;
    below its window it says where the window starts, at the end of the stream it
    waits until the deadline and then returns nothing; the window ends where the stream
    does, holds the last entry, and holds at most [log_capacity] bytes if there is
    more in it. *)
Theorem published_log_reads path base entries s s1 s2 offset count expired :
  Inv (tree s) → register_log_at path base s = (Ok (), s1) → append_events path entries s1 = (Ok (), s2) → 0 ≤ count →
  let stream := concat entries in
  ∃ id start, lookup_path (tree s2) path = Ok id ∧ base ≤ start ∧
    (∀ e, last entries = Some e → vlen e ≤ base + vlen stream - start ≤ Z.max (log_capacity (tree s)) (vlen e)) ∧
    read_log_turn id offset count false expired s2 =
      if offset <? start then Done (Err (Error_new (bstr "log window passed: earliest retained offset " ++ dec start)))
      else if offset <? base + vlen stream then Done (Ok (Bytes (ztake count (zdrop (offset - base) stream))))
      else if expired then Done (Ok (Bytes [])) else Wait.
Proof.
  intros Hi H1 H2 Hc stream. destruct (register_log_at_run _ _ _ _ Hi H1) as (Hi1 & Hc1 & Hl1).
  destruct (append_events_run _ _ _ _ _ Hi1 Hl1 H2) as (x & n & Hx & Hn & Hb). rewrite Hc1 in Hb.
  destruct (log_reads_stream base (log_capacity (tree s)) entries s2 x n offset count expired Hn Hb Hc) as (H3 & H4 & H5 & H6).
  eexists x, _. split_and!; [done|exact H3| |exact H6]. intros e He. split.
  { pose proof (log_appends_last (log_capacity (tree s)) (LogBody_empty_at base) entries e He) as [es Hes]%last_Some.
    rewrite Hes, concat_app, vlen_app in H5. simpl in H5. rewrite app_nil_r in H5. pose proof (vlen_nonneg (concat es)).
    unfold stream. lia. }
  destruct (log_appends_bounded (log_capacity (tree s)) (LogBody_empty_at base) entries e He) as [H|H]; [unfold stream; lia|].
  rewrite H in H5. simpl in H5. rewrite app_nil_r in H5. unfold stream. lia.
Qed.

(** A window of four bytes: [ab] is gone, [ef] is read. *)
Lemma published_log_reads_witness :
  let s0 := (set_log_capacity 4 (sys_state opened)).2 in
  let s1 := (register_log_at (bstr "log") 10 s0).2 in
  let s2 := (append_events (bstr "log") [bstr "ab"; bstr "cd"; bstr "ef"] s1).2 in
  ∃ id start, lookup_path (tree s2) (bstr "log") = Ok id ∧ 12 ≤ start ≤ 14 ∧
    read_log_turn id 14 5 false false s2 = Done (Ok (Bytes (bstr "ef"))).
Proof.
  intros s0 s1 s2.
  destruct (published_log_reads (bstr "log") 10 [bstr "ab"; bstr "cd"; bstr "ef"] s0 s1 s2 14 5 false)
    as (id & start & Hid & _ & Hcap & Hr).
  - apply (reachable_ok (acts [OSetLogCapacity 4] opened)). trans opened; [apply opened_steps|apply acts_steps].
  - apply (returns (register_log_at (bstr "log") 10 s0) ()). vm_compute; reflexivity.
  - apply (returns (append_events (bstr "log") [bstr "ab"; bstr "cd"; bstr "ef"] s1) ()). vm_compute; reflexivity.
  - lia.
  - specialize (Hcap (bstr "ef") eq_refl). change (2 ≤ 10 + 6 - start ≤ 4) in Hcap. exists id, start.
    rewrite Hr. split_and!; [done|lia|lia|]. by rewrite (proj2 (Z.ltb_ge _ _)) by lia.
Defined.

(** ** The path of a node *)

Definition plain_name (name : bytes) : Prop := name ≠ [] ∧ (slash ∉ name) ∧ from_utf8_lossy name = name.

(** All names on the way to [x] are plain. *)
Definition plain_path (t : Tree) (x : Z) : Prop :=
  ∀ y n, below t y x → y ≠ ROOT_ID → nodes t !! y = Some n → plain_name (n_name n).

Lemma path_segments_spec t fuel x l : wf t → below t ROOT_ID x → plain_path t x → chain t x l → (length l < fuel)%nat →
  ∃ segments, path_segments_up fuel t x ROOT_ID = Ok segments ∧ Forall plain_name segments ∧
    resolve_segments t ROOT_ID (rev segments) = Ok x ∧ (x ≠ ROOT_ID → segments ≠ []).
Proof.
  intros Hwf. revert x l. induction fuel as [|fuel IH]; intros x l Hx Hp Hl Hf; [lia|]. cbn [path_segments_up].
  destruct (Z.eqb_spec x ROOT_ID) as [->|Hne]; [exists []; by split_and!|].
  inversion Hl as [|? ? Hn|? n l' _ Hn Hl']; subst; [done|destruct (attached_node t Hwf x Hx); congruence|].
  pose proof (attached_link t x n Hwf Hx Hne Hn) as Hlk.
  assert (below t ROOT_ID (n_parent n)) as Hpa by (apply (below_parent t Hwf x _ n) in Hx as [?|?]; done).
  destruct (IH (n_parent n) l') as (segments & E & Hpl & Hr & _); [done| |done|simpl in Hf; lia|].
  { intros y m Hy. apply Hp. eapply rtc_r; [done|]. by eexists. }
  unfold node. rewrite Hn. cbn [ok_or mbind Result_bind]. rewrite E. cbn [mbind Result_bind mret Result_ret].
  destruct (Hp x n) as (Hn1 & Hn2 & Hn3); [constructor|done..|]. rewrite Hn3. eexists. split_and!; [done|by constructor| |done].
  simpl. rewrite resolve_app, Hr. cbn [mbind Result_bind]. by apply (resolve_link t _ _ x []).
Qed.

Lemma trim_join names : names ≠ [] → Forall plain_name names → trim_slashes (slash :: join slash names) = join slash names.
Proof.
  intros Hne Hall. rewrite Forall_forall in Hall. destruct (join_ends slash names Hne) as [(p & rest & Hp & E1) (pre & q & Hq & E2)].
  destruct (Hall p Hp) as (Hp1 & Hp2 & _). destruct (Hall q Hq) as (Hq1 & Hq2 & _).
  unfold trim_slashes. cbn [trim_start_slashes]. rewrite decide_True by done.
  destruct p as [|b p]; [done|]. apply not_elem_of_cons in Hp2 as [Hb _].
  assert (trim_start_slashes (join slash names) = join slash names) as ->.
  { rewrite E1. simpl. by rewrite decide_False. }
  unfold trim_end_slashes. rewrite E2. destruct q as [|e q' _] using rev_ind; [done|].
  rewrite app_assoc, rev_app_distr. simpl. rewrite decide_False; [|intros ->; apply Hq2, elem_of_app; right; by left].
  simpl. by rewrite rev_involutive.
Qed.

(** A node that hangs from the root has a path, found whatever the depth, and
    looking the path up gives the node back, as long as the names on the way are
    text without slashes. *)
Theorem path_leads_back t x : wf t → below t ROOT_ID x → plain_path t x →
  ∃ path, path_relative_to t x ROOT_ID = Ok path ∧ lookup_path t path = Ok x.
Proof.
  intros Hwf Hx Hp. destruct (wf_chain t x Hwf) as (l & Hl & Hf).
  destruct (path_segments_spec t (depth_fuel t) x l Hwf Hx Hp Hl Hf) as (segments & E & Hall & Hr & Hne).
  unfold path_relative_to. rewrite E. cbn [mbind Result_bind mret Result_ret]. eexists. split; [done|].
  destruct segments as [|s segments].
  - simpl in Hr. injection Hr as <-. reflexivity.
  - assert (rev (s :: segments) ≠ []) as Hrev by (simpl; by destruct (rev segments)).
    assert (Forall plain_name (rev (s :: segments))) as Hallr by (by apply Forall_rev).
    unfold lookup_path. rewrite trim_join by done.
    assert (split_on slash (join slash (rev (s :: segments))) = rev (s :: segments)) as Hsplit.
    { apply split_on_join_names; [done|]. intros name Hname. rewrite Forall_forall in Hallr. by apply Hallr. }
    assert (join slash (rev (s :: segments)) ≠ []) as Hj.
    { intros E0. rewrite E0 in Hsplit. change (split_on slash []) with [@nil byte] in Hsplit. rewrite <-Hsplit in Hallr.
      apply Forall_cons in Hallr as [(Hbad & _) _]. done. }
    rewrite bool_decide_false by done. unfold split_path.
    assert (trim_slashes (join slash (rev (s :: segments))) = join slash (rev (s :: segments))) as ->.
    { rewrite <-(trim_join _ Hrev Hallr) at 1. rewrite trim_slashes_idem. by apply trim_join. }
    rewrite bool_decide_false by done. cbn [mbind Result_bind]. by rewrite Hsplit.
Qed.

Lemma path_leads_back_witness :
  let t := tree (sys_state opened) in ∃ path, path_relative_to t 1 ROOT_ID = Ok path ∧ lookup_path t path = Ok 1.
Proof.
  intros t. pose proof (proj1 opened_Inv : wf t) as Hwf. assert (link t ROOT_ID (bstr "p") 1) as Hl by (apply link_by; vm_compute; reflexivity).
  apply (path_leads_back t 1); [done|apply rtc_once; by eexists|]. intros y n [->|(z & Hyz & Hz)]%rtc_inv_r Hy Hn.
  - destruct (wf_down _ Hwf _ _ _ Hl) as (m & Hm & _ & Hname & _). simplify_eq. rewrite Hname.
    split_and!; [done|by apply (bool_decide_unpack _)|vm_compute; reflexivity].
  - assert (linked t ROOT_ID 1) as Hl' by (by eexists). rewrite (linked_unique t Hwf z ROOT_ID 1) in Hyz by done.
    apply (top_below t Hwf) in Hyz as ->; [done|by left].
Defined.
