(* ===== verification/FrontConfine.v ===== *)
(** The root of an attachment: [..] does not lead above it as long as nothing is
    published again in the place of what was removed; a run shows that the proviso is
    needed.  More runs show what a session keeps when it should not. *)
From stdpp Require Import sorting relations fin_maps fin_map_dom.
From S2P Require Import Prelude Errors Qid Stat Utf8 Referral NamespaceCache Text ExportDescriptor Codec Server FrontModel FrontInv FrontRetain FrontState FrontTree FrontOps FrontSys FrontProps.

(** ** Under the root, by the parents of nodes *)

(** Going up from [x] meets [root], or a node that is gone, before the front's own
    root. *)
Inductive confined (t : Tree) (root : Z) : Z → Prop :=
| cf_root : confined t root root
| cf_gone x : nodes t !! x = None → x < next_id t → confined t root x
| cf_up x n : nodes t !! x = Some n → confined t root (n_parent n) → confined t root x.

Lemma confined_root t root : wf t → confined t root ROOT_ID → root = ROOT_ID.
Proof.
  intros Hwf H. destruct (wf_root _ Hwf) as (rn & c & Hrn & _ & Hp).
  remember ROOT_ID as x eqn:E in H. induction H as [|x Hn _|x n Hn H IH]; [done|congruence|].
  apply IH. subst x. by simplify_eq.
Qed.

(** No node changes its parent, and no id is used again. *)
Definition still (t t' : Tree) : Prop :=
  next_id t ≤ next_id t' ∧
  ∀ x n', nodes t' !! x = Some n' → x < next_id t → ∃ n, nodes t !! x = Some n ∧ n_parent n = n_parent n'.

Lemma still_refl t : still t t.
Proof. split; [done|]. intros x n Hn _. by exists n. Qed.

Lemma still_trans t1 t2 t3 : still t1 t2 → still t2 t3 → still t1 t3.
Proof.
  intros [Hn1 H1] [Hn2 H2]. split; [lia|]. intros x n Hn Hx. destruct (H2 x n Hn) as (n2 & Hn2' & <-); [lia|].
  by apply H1.
Qed.

Lemma confined_still t t' root x : wf t → still t t' → confined t root x → confined t' root x.
Proof.
  intros Hwf [Hnext Hst]. induction 1 as [|x Hn Hx|x n Hn H IH]; [constructor| |].
  - apply cf_gone; [|lia]. destruct (nodes t' !! x) as [n'|] eqn:E; [|done].
    destruct (Hst x n' E Hx) as (n & ? & _). congruence.
  - pose proof (wf_ids _ Hwf _ _ Hn) as [[_ Hx] _]. destruct (nodes t' !! x) as [n'|] eqn:E.
    + destruct (Hst x n' E Hx) as (n0 & Hn0 & Hp). simplify_eq. rewrite Hp in IH. by eapply cf_up.
    + apply cf_gone; [done|lia].
Qed.

Lemma confined_child t root p name x : wf t → link t p name x → confined t root p → confined t root x.
Proof. intros Hwf Hl Hp. destruct (wf_down _ Hwf _ _ _ Hl) as (m & Hm & <- & _). by eapply cf_up. Qed.

Lemma drop_still s t : still t (drop_set s t).
Proof. split; [done|]. intros x n [Hn _]%drop_node_Some _. by exists n. Qed.

Lemma on_node_still t x f : (∀ n, n_parent (f n) = n_parent n) → still t (on_node x f t).
Proof.
  intros Hf. split; [done|]. intros y n'. rewrite lookup_on_node, fmap_Some. intros (n & Hn & ->) _. exists n.
  split; [done|]. destruct (decide _); [by rewrite Hf|done].
Qed.

Lemma on_children_parent f n : n_parent (on_children f n) = n_parent n.
Proof. by pose proof (on_children_place f n) as [= -> _ _]. Qed.

Lemma inserted_still t n : wf t → room t n → still t (inserted t n).
Proof.
  intros Hwf Hr. split; [simpl; lia|]. intros x n' Hn' Hx.
  destruct (inserted_old t n x n') as (m & Hm & Hp); [lia|done|]. exists m. unfold place_of in Hp. split; [done|congruence].
Qed.

Lemma retire_still t p name x : wf t → link t p name x → still t (retire_detached_subtree x (unlink_child p name t)).
Proof.
  intros Hwf Hl. assert (still t (detach x (unlink_child p name t))) as H.
  { apply (on_node_still t p (on_children (delete name))). intros n. apply on_children_parent. }
  destruct (retire_spec _ _ _ _ Hwf Hl) as [[_ ->]|(_ & s & -> & _)]; [done|]. eapply still_trans; [done|apply drop_still].
Qed.

(** Removing a subtree is one of the things that move nothing. *)
Lemma remove_still t path : Inv t → still t (remove_subtree_if_exists path t).2.
Proof.
  intros Hi. pose proof (remove_subtree_run t path Hi) as Hr.
  destruct (lookup_optional_path t path) as [[x|]|e]; [|rewrite Hr; apply still_refl..].
  destruct (decide _); [rewrite Hr; apply still_refl|]. destruct Hr as (p & name & Hl & _ & ->). apply retire_still; [apply Hi|done].
Qed.

(** ** What a walk sees *)

Definition T (w : World) : Tree := FrontState.tree (sys_state (w_sys w)).

(** The others, while they move nothing. *)
Definition quiet (k : Z) (e : Entry) : Prop := ∀ y, sys_ok y →
  sys_ok (e_act e y) ∧ sys_trees (e_act e y) !! k = sys_trees y !! k ∧
  still (FrontState.tree (sys_state y)) (FrontState.tree (sys_state (e_act e y))).

Record calm (w : World) : Prop := calm_mk {
  calm_ok : sys_ok (w_sys w);
  calm_me : is_Some (sys_trees (w_sys w) !! w_me w);
  calm_script e : e ∈ w_script w → quiet (w_me w) e;
}.

Lemma calm_wf w : calm w → wf (T w).
Proof. intros [[[Hwf _] _] _ _]. done. Qed.

Record leads (w w' : World) : Prop := leads_mk {
  leads_calm : calm w';
  leads_still : still (T w) (T w');
  leads_me : w_me w' = w_me w;
  leads_fids : fids (me w') = fids (me w);
}.

Lemma leads_refl w : calm w → leads w w.
Proof. intros. constructor; [done|apply still_refl|done..]. Qed.

Lemma leads_trans w1 w2 w3 : leads w1 w2 → leads w2 w3 → leads w1 w3.
Proof. intros [] []. constructor; [done|by eapply still_trans|congruence..]. Qed.

Lemma leads_confined w w' root x : calm w → leads w w' → confined (T w) root x → confined (T w') root x.
Proof. intros Hc Hl. eapply confined_still; [by apply calm_wf|apply Hl]. Qed.

Lemma yield_leads w : calm w → leads w (yield w).
Proof.
  intros Hw. unfold yield. destruct (w_script w) as [|e rest] eqn:E; [by apply leads_refl|]. destruct Hw as [Hok Hme Hs].
  destruct (Hs e ltac:(rewrite E; by left) _ Hok) as (Hok' & Hk & Hst). constructor; [constructor|done|done|].
  - done.
  - simpl. by rewrite Hk.
  - intros e' He'. apply Hs. rewrite E. by right.
  - unfold me. simpl. by rewrite Hk.
Qed.

(** A section that keeps the tree and the fids. *)
Definition watches {A} (sec : Section_ A) : Prop :=
  ∀ x, FrontState.tree (sec x).2.2 = FrontState.tree x.2 ∧ fids (sec x).2.1 = fids x.1.

Lemma run_section_ok {A} (sec : Section_ A) w : session_section A sec → calm w →
  sys_ok (run_section (w_me w) sec (me w) (w_sys w)).2.
Proof.
  intros Hsec [Hok [tr Htr] _]. assert (me w = tr) as -> by (unfold me; by rewrite Htr).
  eapply sys_step_ok; [|done]. by apply step_section.
Qed.

Lemma atomic_leads {A} (sec : Section_ A) w : session_section A sec → watches sec → calm w →
  leads w (atomic sec w).2 ∧
  ∃ x, FrontState.tree x.2 = T (atomic sec w).2 ∧ (atomic sec w).1 = (sec x).1.
Proof.
  intros Hsec Hwatch Hw. pose proof (yield_leads w Hw) as Hy. pose proof (leads_calm _ _ Hy) as Hc.
  pose proof (run_section_ok sec (yield w) Hsec Hc) as Hok. unfold atomic. cbv zeta.
  destruct (Hwatch (me (yield w), sys_state (w_sys (yield w)))) as [Ht Hf].
  unfold run_section in *. destruct (sec (me (yield w), sys_state (w_sys (yield w)))) as [r [tr' s']] eqn:E. simpl in *.
  split.
  - eapply leads_trans; [exact Hy|]. constructor; [constructor|..].
    + done.
    + simpl. rewrite lookup_insert_eq. by eexists.
    + apply Hc.
    + unfold T. simpl. rewrite Ht. apply still_refl.
    + done.
    + unfold me at 1. simpl. rewrite lookup_insert_eq. simpl. done.
  - exists (me (yield w), sys_state (w_sys (yield w))). split; [unfold T; simpl; by rewrite Ht|by rewrite E].
Qed.

Lemma walk_up_watches current root : watches (walk_up current root).
Proof.
  intros x. unfold walk_up, of_tree, mbind, M_bind. destruct (_ =? _); [done|].
  by destruct (node (FrontState.tree x.2) current).
Qed.

Lemma walk_child_watches current name : watches (walk_child current name).
Proof. intros x. unfold walk_child, of_tree, mbind, M_bind. by destruct (node (FrontState.tree x.2) current). Qed.

Lemma walk_qid_watches id : watches (walk_qid id).
Proof. by intros x. Qed.

Lemma watches_bind {A B} (m : Section_ A) (k : A → Section_ B) : watches m → (∀ a, watches (k a)) → watches (m ≫= k).
Proof.
  intros Hm Hk x. unfold mbind, M_bind. destruct (Hm x) as [H1 H2]. destruct (m x) as [[a|e] x1]; simpl in *; [|done].
  destruct (Hk a x1). split; congruence.
Qed.

Lemma watches_same {A} (m : Section_ A) : (∀ x, (m x).2 = x) → watches m.
Proof. intros Hm x. by rewrite Hm. Qed.

Lemma watches_requests f : (∀ s, FrontState.tree (f s) = FrontState.tree s) → watches (on_state (modify f)).
Proof. intros Hf x. by split; [apply Hf|]. Qed.

Lemma watches_take : watches (on_state take_request_id).
Proof. by intros x. Qed.

Ltac watch_step :=
  match goal with
  | |- watches (_ ≫= _) => apply watches_bind; [|intros ?]
  | |- watches (if ?b then _ else _) => destruct b
  | |- watches (match ?x with _ => _ end) => destruct x
  | |- watches (on_state (modify _)) => apply watches_requests; intros ?; done
  | |- watches (on_state take_request_id) => apply watches_take
  | |- watches _ => apply watches_same; done
  end.

Lemma resolve_begin_watches b fid p name : watches (resolve_begin b fid p name).
Proof. unfold resolve_begin, begin_resolution. cbv zeta. repeat watch_step. Qed.

(** ** The turns of a resolution *)

Lemma child_remove_relay_reads p name removal t : (child_remove_relay p name removal t).2 = t.
Proof.
  unfold child_remove_relay. destruct removal; [done|]. unfold mbind, M_bind, lift, query.
  destruct (from_utf8 name); simpl; [|done]. by destruct (path_relative_to t p ROOT_ID).
Qed.

(** A tree in which no link changes. *)
Lemma alike_still t t' : alike t t' → still t t'.
Proof.
  intros Ha. split; [by rewrite (alike_next _ _ Ha)|]. intros x n' Hn' _. destruct (nodes t !! x) as [n|] eqn:E.
  - exists n. split; [done|]. destruct (alike_node _ _ _ _ Ha E) as (m & Hm & Hs). unfold shape, place_of in Hs. congruence.
  - assert (is_Some (nodes t !! x)) as [? ?] by (apply (alike_is_node _ _ _ Ha); by exists n'). congruence.
Qed.

(** The child is new, or was there. *)
Definition places (t : Tree) (p : Z) (name : bytes) (x : Result Z * Tree) : Prop :=
  still t x.2 ∧ ∀ c, x.1 = Ok c → link x.2 p name c.

Lemma places_error t p name e : places t p name (Err e, t).
Proof. split; [apply still_refl|done]. Qed.

Lemma insert_child_places t p name m prefix removal : wf t →
  places t p name (insert_pushed_child_directory p name m prefix removal t).
Proof.
  intros Hwf. unfold insert_pushed_child_directory. destruct (negb _); [apply places_error|].
  unfold mbind, M_bind. pose proof (child_remove_relay_reads p name removal t) as Hrd.
  destruct (child_remove_relay p name removal t) as [[relay|e] t0]; simpl in Hrd; subst t0; [|apply places_error].
  unfold child_of, query, node, mbind, M_bind, gets. destruct (nodes t !! p) as [pn|] eqn:Hp; simpl; [|apply places_error].
  destruct (children_of pn) as [c|] eqn:Hc; simpl; [|apply places_error].
  destruct (c !! name) as [x|] eqn:Hx.
  - assert (link t p name x) as Hl by (by exists pn, c).
    destruct (nodes t !! x) as [n|] eqn:Hn; simpl; [|apply places_error].
    destruct (is_dir_body _); [|apply places_error].
    destruct relay as [r|]; simpl; [|split; [apply still_refl|by intros ? [= <-]]].
    set (t1 := set_remove_relay_prefixes _ t). set (f := λ n, set_relays _ _ _ _ n).
    assert (alike t (on_node x f t1)) as Ha.
    { destruct (on_node_alike t1 x f) as []; [done|]. by constructor. }
    split; [by apply alike_still|]. intros ? [= <-]. by apply (alike_link _ _ _ _ _ Ha).
  - case_bool_decide as Hq; [apply places_error|]. set (n := pushed_node _ _ _ _ _).
    assert (room t n) as Hr.
    { constructor; [by exists pn, c| |by right]. by apply eq_None_not_Some. }
    change (modify (insert_node (next_id t) n) (set_next_id (next_id t + 1) t)) with (Ok (), inserted t n : Tree).
    assert (∀ t', alike (inserted t n) t' → places t p name (Ok (next_id t), t')) as H.
    { intros t' Ha. split.
      - eapply still_trans; [by apply inserted_still|]. by apply alike_still.
      - intros ? [= <-]. simpl. apply (alike_link _ _ _ _ _ Ha). apply inserted_link; [done..|]. by right. }
    destruct relay as [r|]; simpl; apply H; by constructor.
Qed.

Lemma resolve_turn_places p name expired s : wf (FrontState.tree s) →
  still (FrontState.tree s) (FrontState.tree (resolve_turn p name expired s).2) ∧
  ∀ c, (resolve_turn p name expired s).1 = Done (Ok (Some c)) → link (FrontState.tree (resolve_turn p name expired s).2) p name c.
Proof.
  intros Hwf. unfold resolve_turn. cbv zeta.
  assert (∀ (r : Turn (option Z)) s', FrontState.tree s' = FrontState.tree s → (∀ c, r ≠ Done (Ok (Some c))) →
    still (FrontState.tree s) (FrontState.tree (r, s').2) ∧
    ∀ c, (r, s').1 = Done (Ok (Some c)) → link (FrontState.tree (r, s').2) p name c) as Hno.
  { intros r s' Hs Hr. simpl. rewrite Hs. split; [apply still_refl|]. by intros c ?%Hr. }
  destruct (node_is_detached _ _); [apply Hno; [apply finish_waiter_tree|done]|].
  destruct (nodes _ !! p) as [n|] eqn:Hn; [|apply Hno; [apply finish_waiter_tree|done]].
  destruct (children_of n) as [ch|] eqn:Hc; [|apply Hno; [apply finish_waiter_tree|done]].
  destruct (ch !! name) as [x|] eqn:Hx.
  { simpl. rewrite finish_waiter_tree. split; [apply still_refl|]. intros c [= <-]. by exists n, ch. }
  destruct (child_directory_resolutions s !! _) as [r|]; [|by apply Hno].
  destruct (cd_reply r) as [[m|msg]|].
  - unfold on_tree. destruct (insert_child_places (FrontState.tree s) p name m (cd_read_prefix r) (cd_removal r) Hwf) as [Hst Hlk].
    destruct (insert_pushed_child_directory _ _ _ _ _ _) as [[c|e] t']; simpl in *.
    + rewrite finish_waiter_tree. split; [done|]. intros c' [= <-]. by apply Hlk.
    + destruct expired; simpl; rewrite ?finish_waiter_tree; done.
  - apply Hno; [apply finish_waiter_tree|done].
  - destruct expired; apply Hno; rewrite ?finish_waiter_tree; done.
Qed.

Lemma set_state_calm y k script s : calm (World_mk y k script) → sys_ok (set_state s y) →
  still (FrontState.tree (sys_state y)) (FrontState.tree s) →
  leads (World_mk y k script) (World_mk (set_state s y) k script).
Proof. intros [? ? ?] Hok Hst. constructor; [by constructor|done..]. Qed.

Lemma resolve_await_leads p name w : calm w →
  leads w (await (λ _, resolve_turn p name) w).2 ∧
  ∀ c, (await (λ _, resolve_turn p name) w).1 = Ok (Some c) → link (T (await (λ _, resolve_turn p name) w).2) p name c.
Proof.
  destruct w as [y k script]. unfold await. simpl. revert y.
  assert (∀ (c e : bool) y, sys_ok y → sys_ok (set_state (resolve_turn p name e (sys_state y)).2 y)) as Hok.
  { intros c e y Hy. eapply sys_step_ok; [|done]. by apply (step_turn _ (λ _, resolve_turn p name) c e y), st_resolve. }
  induction script as [|e script IH]; intros y Hc; simpl.
  - destruct (resolve_turn_places p name true (sys_state y) (calm_wf _ Hc)) as [Hst Hlk].
    specialize (Hok false true y (calm_ok _ Hc)).
    destruct (resolve_turn p name true (sys_state y)) as [[r|] s]; simpl in *; (split; [by apply set_state_calm|]); [|done].
    intros c ->. by apply Hlk.
  - pose proof (yield_leads _ Hc) as Hy. unfold yield in Hy. simpl in Hy. pose proof (leads_calm _ _ Hy) as Hc'.
    destruct (resolve_turn_places p name (e_expired e) (sys_state (e_act e y)) (calm_wf _ Hc')) as [Hst Hlk].
    specialize (Hok (e_cancel e) (e_expired e) (e_act e y) (calm_ok _ Hc')).
    destruct (resolve_turn p name (e_expired e) (sys_state (e_act e y))) as [[r|] s]; simpl in *.
    + split; [eapply leads_trans; [exact Hy|]; by apply set_state_calm|]. intros c ->. by apply Hlk.
    + pose proof (set_state_calm _ _ _ s Hc' Hok Hst) as Hl. specialize (IH _ (leads_calm _ _ Hl)).
      destruct (await_loop _ script _) as [[r y'] rest]. simpl in *. destruct IH as [IH1 IH2]. split; [|done].
      eapply leads_trans; [exact Hy|]. eapply leads_trans; [exact Hl|done].
Qed.

(** ** A walk *)

Lemma confined_up t root x n : nodes t !! x = Some n → x ≠ root → confined t root x → confined t root (n_parent n).
Proof. intros Hn Hx. destruct 1 as [|x Hg|x m Hm H]; [done|congruence|by simplify_eq]. Qed.

(** The answer of a section or a loop is under the root. *)
Definition answers {A} (root : Z) (w : World) (x : Result A * World) (a : A → option Z) : Prop :=
  leads w x.2 ∧ ∀ r c, x.1 = Ok r → a r = Some c → confined (T x.2) root c.

Lemma walk_up_answers current root w : calm w → confined (T w) root current →
  answers root w (atomic (walk_up current root) w) Some.
Proof.
  intros Hw Hc. destruct (atomic_leads _ w (ss_up current root) (walk_up_watches _ _) Hw) as [Hl (x & Hx & Hr)].
  split; [done|]. pose proof (leads_confined _ _ _ _ Hw Hl Hc) as Hc'. rewrite Hr. revert Hc'. rewrite <-Hx.
  unfold walk_up, of_tree, node, mbind, M_bind. destruct (Z.eqb_spec current root) as [->|Hne].
  { by intros ? r c [= <-] [= <-]. }
  intros Hc'. destruct (nodes _ !! current) as [n|] eqn:Hn; simpl; [|done]. intros r c [= <-] [= <-]. by eapply confined_up.
Qed.

Lemma walk_child_answers current name root w : calm w → confined (T w) root current →
  answers root w (atomic (walk_child current name) w) (λ c, c).
Proof.
  intros Hw Hc. destruct (atomic_leads _ w (ss_child current name) (walk_child_watches _ _) Hw) as [Hl (x & Hx & Hr)].
  split; [done|]. pose proof (leads_confined _ _ _ _ Hw Hl Hc) as Hc'. pose proof (calm_wf _ (leads_calm _ _ Hl)) as Hwf.
  rewrite Hr. revert Hc' Hwf. rewrite <-Hx. unfold walk_child, of_tree, node, mbind, M_bind. intros Hc' Hwf.
  destruct (nodes _ !! current) as [n|] eqn:Hn; simpl; [|done]. intros r c [= <-] Hch.
  destruct (children_of n) as [ch|] eqn:Hk; [|done]. eapply confined_child; [done| |done]. by exists n, ch.
Qed.

Lemma resolve_begin_answer b fid p name x c : (resolve_begin b fid p name x).1 = Ok (Some (Some c)) →
  link (FrontState.tree x.2) p name c.
Proof.
  unfold resolve_begin, gets, of_tree, node, mbind, M_bind. simpl. destruct (node_is_detached _ _); [done|].
  destruct (nodes _ !! p) as [n|] eqn:Hn; simpl; [|done]. destruct (n_body n) as [d| | | | | | |] eqn:Hb; try done.
  destruct (children d !! name) as [y|] eqn:Hy.
  - intros [= <-]. exists n, (children d). split_and!; [done| |done]. unfold children_of. by rewrite Hb.
  - destruct (child_resolver d) as [r|]; [|done]. simpl.
    destruct (child_directory_resolutions x.2 !! _); [done|].
    destruct (begin_resolution b fid p name r x) as [[u|e] x']; done.
Qed.

Lemma resolve_answers b fid current name root w : calm w → confined (T w) root current →
  answers root w (resolve_child_directory b fid current name w) (λ c, c).
Proof.
  intros Hw Hc. unfold resolve_child_directory, mbind, M_bind.
  destruct (atomic_leads _ w (ss_resolve b fid current name) (resolve_begin_watches _ _ _ _) Hw) as [Hl (x & Hx & Hr)].
  destruct (atomic _ w) as [[[r|]|e] w1] eqn:E; simpl in *.
  - split; [done|]. intros ? c [= <-] ->. eapply confined_child; [by apply calm_wf; apply (leads_calm _ _ Hl)| |by eapply leads_confined].
    simpl. rewrite <-Hx. by eapply resolve_begin_answer.
  - destruct (resolve_await_leads current name w1 (leads_calm _ _ Hl)) as [Hl2 Hlk].
    pose proof (leads_trans _ _ _ Hl Hl2) as Hl'. split; [done|]. intros r c Hr' ->.
    eapply confined_child; [by apply calm_wf; apply (leads_calm _ _ Hl')|by apply Hlk|by eapply leads_confined].
  - split; [done|]. by intros.
Qed.

Lemma walk_step_answers b fid current name w : calm w → confined (T w) (fb_root b) current →
  answers (fb_root b) w (walk_step b fid current name w) (λ r, match r with Ok c => c | Err _ => None end).
Proof.
  intros Hw Hc. unfold walk_step, mbind, M_bind. case_bool_decide as Hup.
  - destruct (walk_up_answers current (fb_root b) w Hw Hc) as [Hl Hcf].
    destruct (atomic _ w) as [[up|e] w1]; simpl in *; (split; [done|]); [|done].
    intros r c [= <-] [= <-]. by apply (Hcf up up).
  - destruct (walk_child_answers current name (fb_root b) w Hw Hc) as [Hl Hcf].
    destruct (atomic _ w) as [[[ch|]|e] w1]; simpl in *.
    + split; [done|]. intros r c [= <-] [= <-]. by apply (Hcf (Some ch) ch).
    + destruct (resolve_answers b fid current name (fb_root b) w1 (leads_calm _ _ Hl)) as [Hl2 Hcf2]; [by eapply leads_confined|].
      unfold attempt. destruct (resolve_child_directory _ _ _ _ w1) as [r w2]; simpl in *.
      split; [by eapply leads_trans|]. intros r' c [= <-] Hr. destruct r as [c'|]; [|done]. by apply (Hcf2 c').
    + split; [done|]. by intros.
Qed.

Lemma walk_loop_answers b fid names current qids w : calm w → confined (T w) (fb_root b) current →
  answers (fb_root b) w (walk_loop b fid names current qids w) (λ x, Some x.1).
Proof.
  revert current qids w. induction names as [|name names IH]; intros current qids w Hw Hc.
  { split; [by apply leads_refl|]. by intros r c [= <-] [= <-]. }
  cbn [walk_loop]. unfold mbind, M_bind. destruct (walk_step_answers b fid current name w Hw Hc) as [Hl Hcf].
  destruct (walk_step b fid current name w) as [[step|e] w1]; simpl in Hl, Hcf; [|split; [done|by intros]].
  assert (answers (fb_root b) w (Ok (current, qids), w1) (λ x, Some x.1)) as Hstop.
  { split; [done|]. intros r c [= <-] [= <-]. by eapply leads_confined. }
  assert (∀ e, answers (fb_root b) w (Err e : Result (Z * list Qid), w1) (λ x, Some x.1)) as Hfail.
  { intros e. split; [done|by intros]. }
  destruct step as [[id|]|e]; [|by destruct qids..].
  specialize (Hcf (Ok (Some id)) id eq_refl eq_refl). pose proof (leads_calm _ _ Hl) as Hw1.
  destruct (atomic_leads _ w1 (ss_qid id) (walk_qid_watches id) Hw1) as [Hl2 _].
  destruct (atomic (walk_qid id) w1) as [[qid|e] w2]; simpl in Hl2; [|split; [by eapply leads_trans|by intros]].
  destruct (IH id (qids ++ [qid]) w2) as [Hl3 Hcf3]; [apply Hl2|by eapply leads_confined|].
  split; [eapply leads_trans; [done|by eapply leads_trans]|done].
Qed.

(** ** Binding the new fid *)

Lemma release_still t x : wf t → still t (release_fid_node x t).2.
Proof.
  intros Hwf. rewrite release_fid_node_run. destruct (fid_references t !! x) as [k|] eqn:Hk; [|apply still_refl].
  destruct (collect_drop _ (release_wf t x k Hwf Hk)) as (s & E & _). cbn [snd]. rewrite E.
  eapply still_trans; [|apply drop_still]. split; [done|]. intros y n Hn _. by exists n.
Qed.

Lemma bind_fid_effect fid b tr s : Inv (FrontState.tree s) →
  let '(r, (tr', s')) := bind_fid fid b (tr, s) in
  r = Ok () → still (FrontState.tree s) (FrontState.tree s') ∧ fids tr' !! fid = Some b.
Proof.
  intros Hi. unfold bind_fid, mbind, M_bind, on_state, on_tree, of_session, gets, on_session, modify.
  pose proof (retain_fid_node_spec (FrontState.tree s) (fb_node b) Hi) as Hr.
  assert (still (FrontState.tree s) (retain_fid_node (fb_node b) (FrontState.tree s)).2) as Hst.
  { unfold retain_fid_node, query, node, modify, mbind, M_bind.
    destruct (nodes _ !! _); simpl; [|apply still_refl]. split; [done|]. intros y m Hm _. by exists m. }
  cbn [fst snd]. destruct (retain_fid_node _ _) as [[[]|e] t1]; simpl in *; [|done]. destruct Hr as [Hi1 _].
  destruct (fids tr !! fid) as [old|].
  - pose proof (release_still t1 (fb_node old) (proj1 Hi1)) as Hst2.
    simpl. destruct (release_fid_node _ t1) as [r t2]; simpl in *. intros ->. split; [by eapply still_trans|]. simpl; by rewrite lookup_insert_eq.
  - intros _. split; [done|]. simpl; by rewrite lookup_insert_eq.
Qed.

(** C21: While the others move nothing (and removing a subtree moves nothing), a
    complete walk from a fid under the root of its attachment, whatever [..] it
    holds, binds the new fid to a node under that root too, whatever children are
    resolved on the way: it reaches the front's own root only if the attachment is at
    the front's root. *)
Theorem walk_stays_confined w fid newfid names b qids w' : calm w → fids (me w) !! fid = Some b →
  confined (T w) (fb_root b) (fb_node b) → front_walk fid newfid names w = (Ok qids, w') → length qids = length names →
  ∃ b', fids (me w') !! newfid = Some b' ∧ fb_root b' = fb_root b ∧ confined (T w') (fb_root b') (fb_node b') ∧
    (fb_node b' = ROOT_ID → fb_root b' = ROOT_ID).
Proof.
  intros Hw Hb Hc. unfold front_walk, mbind, M_bind, local. rewrite Hb. cbn [ok_or].
  destruct (walk_loop_answers b fid names (fb_node b) [] w Hw Hc) as [Hl Hcf].
  destruct (walk_loop b fid names (fb_node b) [] w) as [[[current qs]|e] w1]; simpl in Hl, Hcf; [|done].
  specialize (Hcf _ _ eq_refl eq_refl). simpl in Hcf. case_bool_decide as Hlen; [|intros [= <- _]; congruence].
  pose proof (yield_leads w1 (leads_calm _ _ Hl)) as Hy. pose proof (leads_calm _ _ Hy) as Hw2.
  pose proof (run_section_ok _ (yield w1) (ss_bind newfid (at_node current b)) Hw2) as Hok.
  unfold atomic. cbv zeta. pose proof (bind_fid_effect newfid (at_node current b) (me (yield w1)) (sys_state (w_sys (yield w1)))
    (proj1 (calm_ok _ Hw2))) as Hbind. unfold run_section in *.
  destruct (bind_fid newfid _ _) as [[[]|e] [tr' s']]; simpl in *; [|done]. intros [= <- <-] _.
  destruct (Hbind eq_refl) as [Hst Hf]. exists (at_node current b).
  assert (confined (FrontState.tree s') (fb_root b) current) as Hfin.
  { eapply confined_still; [by apply (calm_wf _ Hw2)|done|]. eapply leads_confined; [apply Hl|done|done]. }
  split_and!; [unfold me; simpl; by rewrite lookup_insert_eq|done|done|]. simpl. intros ->.
  eapply confined_root; [|done]. apply Hok.
Qed.

Lemma idle_quiet k : quiet k idle.
Proof. intros y Hy. split_and!; [done|done|apply still_refl]. Qed.

Lemma removal_quiet k path : quiet k (does [ORemoveSubtree path]).
Proof.
  intros y Hy. split_and!; [|done|].
  - eapply sys_step_ok; [|done]. apply (step_owner (ORemoveSubtree path) y).
  - simpl. unfold front_remove_subtree, on_tree, mbind, M_bind. pose proof (remove_still (FrontState.tree (sys_state y)) path (proj1 Hy)) as Hst.
    by destruct (remove_subtree_if_exists _ _).
Qed.

(** The directory [u] is attached to is removed during the walk. *)
Lemma walk_stays_confined_witness :
  let w := World_mk walked 0 [idle; does [ORemoveSubtree (bstr "p")]] in
  let w' := (front_walk 2 3 [bstr ".."; bstr ".."] w).2 in
  ∃ b, fids (me w') !! 3 = Some b ∧ fb_root b = 1 ∧ confined (T w') 1 (fb_node b).
Proof.
  intros w w'.
  destruct (walk_stays_confined w 2 3 [bstr ".."; bstr ".."] (FidBinding_mk 2 1 1 (bstr "u") (bstr "x") (bstr "u"))
    [Qid_new 128 1 100; Qid_new 128 1 100] w') as (b & Hb & Hr & Hc & _).
  - constructor; [apply (reachable_ok walked walked_steps)|vm_compute; by eexists|].
    intros e He. assert (e = idle ∨ e = does [ORemoveSubtree (bstr "p")]) as [-> | ->] by set_solver;
      [apply idle_quiet|apply removal_quiet].
  - vm_compute; reflexivity.
  - eapply (confined_child _ _ 1 (bstr "f")); [apply (reachable_ok walked walked_steps)|apply link_by; vm_compute; reflexivity|constructor].
  - apply (returns (front_walk 2 3 [bstr ".."; bstr ".."] w) [Qid_new 128 1 100; Qid_new 128 1 100]). vm_compute; reflexivity.
  - done.
  - exists b. rewrite Hr in Hc. by split_and!.
Defined.

(** ** Runs *)

(** The proviso is needed.  [u] is attached to [p] and has a fid on [p/f]; the
    owner removes [p] and publishes a file at [p/f] again with the qid it had: the
    file is the old node, hung into the new [p], which is not the directory [u] is
    attached to.  From there [..] leads to the front's root, and [u] reads a file
    outside of its directory. *)
Theorem republish_escapes_confinement :
  let w := World_mk walked 0 [does [ORemoveSubtree (bstr "p"); OSetPushedFile (bstr "p/f") (bstr "hello") (meta 101 5)]] in
  let '(r, w') := (qids ← front_walk 2 3 [bstr ".."; bstr ".."; bstr "secret"];
                   _ ← front_open 3 (List.last qids (Qid_file 0)) 0;
                   front_read false 3 0 100) w in
  r = Ok (Bytes (bstr "xx")) ∧ fb_root <$> fids (me w') !! 3 = Some 1 ∧ fb_root <$> fids (me w) !! 2 = Some 1 ∧
  path_relative_to (T w) 1 ROOT_ID = Ok (bstr "/p").
Proof. vm_compute. by split_and!. Qed.

(** A response to a directory read that names a child that is not published fails, but
    leaves the names before it in the snapshot, so the next response is taken not to
    bring them: [a] is there and is never listed. *)
Definition listing : Sys :=
  w_sys ((_ ← front_attach 1 (bstr "u") []; _ ← front_walk 1 2 [bstr "d"]; front_open 2 (Qid_dir 1) 0)
    (World_mk (open_session 0 (acts [ORegisterDirectoryReadRelay (bstr "d"); OSet (bstr "d/a") (bstr "1")] Sys_new)) 0 [])).2.

Definition listed (request_id : Z) (names : list bytes) (y : Sys) : Result ReadData * Sys :=
  let '(r, w) := front_read false 2 0 1000 (World_mk y 0 [idle; does [OCompleteDirectory (bstr "d") request_id names true]]) in
  (r, w_sys w).

Example failed_listing_hides_children :
  (listed 1 [bstr "a"; bstr "z"] listing).1 = Err (from_static "directory response child is not published") ∧
  (listed 2 [bstr "a"] (listed 1 [bstr "a"; bstr "z"] listing).2).1 = Ok (Directory []) ∧
  ∃ st, (listed 1 [bstr "a"] listing).1 = Ok (Directory [st]) ∧ st_name st = bstr "a".
Proof. vm_compute. split_and!; [done..|]. eexists. by split. Qed.
