(* ===== verification/FuseNodes.v ===== *)
(** The node and handle tables of the FUSE bridge: [crates/fuse/src/node.rs] and
    [crates/fuse/src/node/handles.rs].  A node is what the kernel knows by a nodeid,
    a handle what it knows by a file handle; both are bound to fids of the session.
    Times ([Instant::now()]) are an argument; a client is known by its identity.  The
    fuse crate's error has the fields of the session's, which it is made from. *)
From stdpp Require Import sorting.
From S2P Require Import Prelude Errors Qid Stat Referral NamespaceCache Text SessionErrors.

Definition ROOT_NODEID : Z := 1.
Definition CLOSE_COMMIT_MODE_FLAG : Z := 0x01000000.

Definition has_close_commit_mode (st : Stat) : bool := has_bits (st_mode st) CLOSE_COMMIT_MODE_FLAG.

Record Node := Node_mk {
  n_fid : option Z;
  n_path : Path;
  n_qid : Qid;
  n_stat : Stat;
  n_freshness : Freshness;
  n_dir_cache : option DirCache;
  n_generation : Z;
  n_lookups : Z;
  n_needs_rebind : bool;
}.

Record InsertedNode := InsertedNode_mk { ins_nodeid : Z; ins_clunk_fid : option Z }.

Record StaleBinding := StaleBinding_mk {
  sb_nodeid : Z;
  sb_parent_nodeid : option Z;
  sb_name : bytes;
  sb_fid : option Z;
}.

Record DirectoryStream := DirectoryStream_mk {
  ds_client : Z;
  ds_fid : Z;
  ds_remote_offset : Z;
  ds_entries : list DirEntry;
  ds_eof : bool;
}.

Record Handle := Handle_mk {
  h_client : Z;
  h_fid : option Z;
  h_open_mode : Z;
  h_is_dir : bool;
  h_write_on_release : bool;
  h_close_commit : bool;
  h_close_commit_flushed : bool;
  h_bytes_written : Z;
}.

(** The stream of a handle is shared by its clones ([Arc<Mutex<DirectoryStream>>]):
    it is kept beside the handles, under the handle's number. *)
Record NodeTable := NodeTable_mk {
  nodes : gmap Z Node;
  handles : gmap Z Handle;
  directories : gmap Z DirectoryStream;
  next_nodeid : Z;
  next_handle : Z;
}.

Definition set_nodes (f : gmap Z Node → gmap Z Node) (t : NodeTable) : NodeTable :=
  NodeTable_mk (f (nodes t)) (handles t) (directories t) (next_nodeid t) (next_handle t).

Definition set_handles (f : gmap Z Handle → gmap Z Handle) (t : NodeTable) : NodeTable :=
  NodeTable_mk (nodes t) (f (handles t)) (directories t) (next_nodeid t) (next_handle t).

Definition set_directories (f : gmap Z DirectoryStream → gmap Z DirectoryStream) (t : NodeTable) : NodeTable :=
  NodeTable_mk (nodes t) (handles t) (f (directories t)) (next_nodeid t) (next_handle t).

(** A [BTreeMap] is iterated by growing keys. *)
Definition key_le {A} (a b : Z * A) : Prop := a.1 ≤ b.1.
#[export] Instance key_le_dec {A} : RelDecision (@key_le A).
Proof. intros a b. unfold key_le. apply _. Defined.

Definition in_order {A} (m : gmap Z A) : list (Z * A) := merge_sort key_le (map_to_list m).

Definition new_node (now : Z) (fid : option Z) (path : Path) (st : Stat) : Node :=
  Node_mk fid path (st_qid st) st (fresh_now now) None 1 1 false.

Definition NodeTable_new (now root_fid : Z) (root_stat : Stat) : NodeTable :=
  NodeTable_mk {[ROOT_NODEID := new_node now (Some root_fid) [] root_stat]} ∅ ∅ (ROOT_NODEID + 1) 1.

Definition unknown_nodeid (nodeid : Z) : SessionError :=
  SessionError_mk libc.ESTALE (bstr "unknown nodeid " ++ dec nodeid).

Definition node (nodeid : Z) (t : NodeTable) : SResult Node := some_or (nodes t !! nodeid) (unknown_nodeid nodeid).

(** ** Identity *)

Definition qid_to_inode (q : Qid) : Z := Z.lor (Z.land (qid_path q) (2 ^ 55 - 1)) (Z.shiftl (qtype q) 55).

Definition S_IFDIR : Z := 0x4000.
Definition S_IFLNK : Z := 0xA000.
Definition S_IFREG : Z := 0x8000.

Definition mode_kind (st : Stat) : Z :=
  if stat_is_dir st then S_IFDIR else if stat_is_symlink st then S_IFLNK else S_IFREG.

Definition same_inode_identity (n : Node) (st : Stat) : bool :=
  (qid_to_inode (n_qid n) =? qid_to_inode (st_qid st)) && (mode_kind (n_stat n) =? mode_kind st).

(** [path.starts_with(prefix)] *)
Fixpoint path_has_prefix (path prefix : Path) : bool :=
  match prefix, path with
  | [], _ => true
  | q :: prefix, p :: path => bool_decide (p = q) && path_has_prefix path prefix
  | _ :: _, [] => false
  end.

(** [generation.saturating_add(1).max(1)] *)
Definition bump (z : Z) : Z := Z.max 1 (saturating_add u64_max z 1).

(** The node after the file was seen with the stat [st]: fresh, with its listing
    dropped if [clear] and a new generation if [changed]. *)
Definition observe (now : Z) (fid : option Z) (path : Path) (st : Stat) (clear changed : bool) (n : Node) : Node :=
  Node_mk fid path (st_qid st) st (mark_fresh now (n_freshness n)) (if clear then None else n_dir_cache n)
    (if changed then bump (n_generation n) else n_generation n) (n_lookups n) false.

(** ** Lookups *)

Definition nodeid_at_path (path : Path) (t : NodeTable) : option Z :=
  fst <$> List.find (λ e, bool_decide (n_path e.2 = path)) (in_order (nodes t)).

Definition look_up_again (n : Node) : Node :=
  Node_mk (n_fid n) (n_path n) (n_qid n) (n_stat n) (n_freshness n) (n_dir_cache n) (n_generation n)
    (bump (n_lookups n)) (n_needs_rebind n).

(** The fid a node that is known keeps, and the one to clunk. *)
Definition keep_fid (fid old : option Z) (identity_changed : bool) : option Z * option Z :=
  match fid, old with
  | Some new_fid, Some old_fid =>
      if identity_changed then (Some new_fid, if negb (old_fid =? new_fid) then Some old_fid else None)
      else (old, Some new_fid)
  | Some new_fid, None => (Some new_fid, None)
  | None, _ => (old, None)
  end.

Definition insert_node (now parent_nodeid : Z) (fid : option Z) (st : Stat) (name : bytes) (t : NodeTable) :
    SResult (InsertedNode * NodeTable) :=
  match node parent_nodeid t with
  | inl e => inl e
  | inr parent =>
      let path := n_path parent ++ [name] in
      match nodeid_at_path path t with
      | Some nodeid =>
          match node nodeid t with
          | inl e => inl e
          | inr n =>
              let qid_changed := negb (same_qid (n_qid n) (st_qid st)) in
              let identity_changed := negb (same_inode_identity n st) in
              let '(kept, clunk_fid) := keep_fid fid (n_fid n) identity_changed in
              let n := look_up_again
                         (observe now kept (n_path n) st (qid_changed || negb (stat_is_dir st)) identity_changed n) in
              inr (InsertedNode_mk nodeid clunk_fid, set_nodes <[nodeid := n]> t)
          end
      | None =>
          let nodeid := next_nodeid t in
          inr (InsertedNode_mk nodeid None,
               NodeTable_mk (<[nodeid := new_node now fid path st]> (nodes t)) (handles t) (directories t)
                 (Z.max (ROOT_NODEID + 1) (saturating_add u64_max (next_nodeid t) 1)) (next_handle t))
      end
  end.

Definition insert_lookup (now parent_nodeid fid : Z) (st : Stat) (name : bytes) (t : NodeTable) :
    SResult (InsertedNode * NodeTable) := insert_node now parent_nodeid (Some fid) st name t.

Definition insert_lookup_lazy (now parent_nodeid : Z) (st : Stat) (name : bytes) (t : NodeTable) :
    SResult (Z * NodeTable) :=
  match insert_node now parent_nodeid None st name t with
  | inl e => inl e
  | inr (inserted, t) => inr (ins_nodeid inserted, t)
  end.

Definition forget (nodeid count : Z) (t : NodeTable) : option Z * NodeTable :=
  if nodeid =? ROOT_NODEID then (None, t)
  else match nodes t !! nodeid with
       | None => (None, t)
       | Some n =>
           if count <? n_lookups n
           then (None, set_nodes <[nodeid := Node_mk (n_fid n) (n_path n) (n_qid n) (n_stat n) (n_freshness n)
                                               (n_dir_cache n) (n_generation n) (n_lookups n - count)
                                               (n_needs_rebind n)]> t)
           else (n_fid n, set_nodes (delete nodeid) t)
       end.

(** ** Bindings *)

Definition replace_binding (now nodeid fid : Z) (st : Stat) (t : NodeTable) : SResult (option Z * NodeTable) :=
  match node nodeid t with
  | inl e => inl e
  | inr n =>
      let identity_changed := negb (same_inode_identity n st) in
      let n' := observe now (Some fid) (n_path n) st (identity_changed || negb (stat_is_dir st)) identity_changed n in
      inr (old ← n_fid n; if negb (old =? fid) then Some old else None, set_nodes <[nodeid := n']> t)
  end.

Definition set_fid (fid : option Z) (n : Node) : Node :=
  Node_mk fid (n_path n) (n_qid n) (n_stat n) (n_freshness n) (n_dir_cache n) (n_generation n) (n_lookups n)
    (n_needs_rebind n).

Definition take_cached_fid (nodeid : Z) (t : NodeTable) : SResult (option Z * NodeTable) :=
  match node nodeid t with
  | inl e => inl e
  | inr n => inr (n_fid n, set_nodes <[nodeid := set_fid None n]> t)
  end.

(** Unlike [replace_binding], a change of identity does not change the generation. *)
Definition update_stat (now nodeid : Z) (st : Stat) (t : NodeTable) : SResult NodeTable :=
  match node nodeid t with
  | inl e => inl e
  | inr n =>
      let identity_changed := negb (same_inode_identity n st) in
      inr (set_nodes
             <[nodeid := observe now (n_fid n) (n_path n) st (identity_changed || negb (stat_is_dir st)) false n]> t)
  end.

(** What [refresh_qid] and [replace_first_qid] make of a node of the file. *)
Definition seen_at (now : Z) (fid : option Z) (st : Stat) (path : option Path) (n : Node) : Node :=
  let identity_changed := negb (same_inode_identity n st) in
  observe now fid (default (n_path n) path) st (identity_changed || negb (stat_is_dir st)) identity_changed n.

Definition refresh_qid (now : Z) (qid : Qid) (st : Stat) (path : option Path) (t : NodeTable) : NodeTable :=
  set_nodes (fmap (λ n, if same_qid (n_qid n) qid then seen_at now (n_fid n) st path n else n)) t.

Definition replace_first_qid (now : Z) (qid : Qid) (fid : Z) (st : Stat) (path : option Path) (t : NodeTable) :
    option Z * NodeTable :=
  match List.find (λ e, same_qid (n_qid e.2) qid) (in_order (nodes t)) with
  | Some (nodeid, n) => (n_fid n, set_nodes <[nodeid := seen_at now (Some fid) st path n]> t)
  | None => (None, t)
  end.

(** ** Paths *)

Definition child_path (parent_nodeid : Z) (name : bytes) (t : NodeTable) : SResult Path :=
  match node parent_nodeid t with
  | inl e => inl e
  | inr parent => inr (n_path parent ++ [name])
  end.

Definition remove_path_subtree (path : Path) (t : NodeTable) : list Z * NodeTable :=
  match path with
  | [] => ([], t)
  | _ =>
      (omap (λ e, if path_has_prefix (n_path e.2) path then n_fid e.2 else None) (in_order (nodes t)),
       set_nodes (filter (λ e, path_has_prefix (n_path e.2) path = false)) t)
  end.

Definition set_path (path : Path) (n : Node) : Node :=
  Node_mk (n_fid n) path (n_qid n) (n_stat n) (n_freshness n) (n_dir_cache n) (n_generation n) (n_lookups n)
    (n_needs_rebind n).

Definition move_path_prefix (from to : Path) (t : NodeTable) : NodeTable :=
  match from with
  | [] => t
  | _ =>
      set_nodes (fmap (λ n, if path_has_prefix (n_path n) from
                            then set_path (to ++ drop (length from) (n_path n)) n else n)) t
  end.

Definition parent_nodeid (nodeid : Z) (t : NodeTable) : SResult Z :=
  match node nodeid t with
  | inl e => inl e
  | inr n =>
      match n_path n with
      | [] => inr ROOT_NODEID
      | path => some_or (nodeid_at_path (removelast path) t)
                  (SessionError_mk libc.ESTALE (bstr "unknown parent for " ++ dec nodeid))
      end
  end.

Definition rebind_paths (t : NodeTable) : list (Z * Path) := prod_map id n_path <$> in_order (nodes t).

(** ** Losing bindings *)

Definition lose_binding (now : Z) (reason : StaleReason) (n : Node) : Node :=
  Node_mk None (n_path n) (n_qid n) (n_stat n) (mark_stale now reason (n_freshness n)) None (n_generation n)
    (n_lookups n) true.

Fixpoint rebind_stale (now : Z) (stale : list Z) (t : NodeTable) : list Z * NodeTable :=
  match stale with
  | [] => ([], t)
  | nodeid :: stale =>
      match nodes t !! nodeid with
      | None => rebind_stale now stale t
      | Some n =>
          let '(replaced, t) := rebind_stale now stale (set_nodes <[nodeid := lose_binding now Reconnect n]> t) in
          (option_list (n_fid n) ++ replaced, t)
      end
  end.

Fixpoint rebind_found (now : Z) (rebound : list (Z * Z * Stat)) (t : NodeTable) : list Z * NodeTable :=
  match rebound with
  | [] => ([], t)
  | (nodeid, fid, st) :: rebound =>
      match nodes t !! nodeid with
      | None => rebind_found now rebound t
      | Some n =>
          let '(replaced, t) := rebind_found now rebound (set_nodes <[nodeid := seen_at now (Some fid) st None n]> t) in
          (option_list (n_fid n) ++ replaced, t)
      end
  end.

Definition apply_rebind_results (now : Z) (rebound : list (Z * Z * Stat)) (stale : list Z) (t : NodeTable) :
    list Z * NodeTable :=
  let '(l1, t) := rebind_stale now stale t in
  let '(l2, t) := rebind_found now rebound t in
  (l1 ++ l2, t).

(** The index of [mark_path_with]: of two nodes with a path, the later one. *)
Definition path_index (path : Path) (t : NodeTable) : option Z :=
  fst <$> List.find (λ e, bool_decide (n_path e.2 = path)) (reverse (in_order (nodes t))).

Definition marks (path : Path) (include_descendants : bool) (nodeid : Z) (n : Node) : bool :=
  negb (nodeid =? ROOT_NODEID) &&
  match path with
  | [] => true
  | _ => if include_descendants then path_has_prefix (n_path n) path else bool_decide (n_path n = path)
  end.

Definition stale_binding (t : NodeTable) (e : Z * Node) : StaleBinding :=
  let '(nodeid, n) := e in
  StaleBinding_mk nodeid (match n_path n with [] => None | path => path_index (removelast path) t end)
    (default (st_name (n_stat n)) (last (n_path n))) (n_fid n).

Definition mark_path_with (now : Z) (path : Path) (include_descendants : bool) (t : NodeTable) :
    list StaleBinding * NodeTable :=
  (stale_binding t <$> List.filter (λ e, marks path include_descendants e.1 e.2) (in_order (nodes t)),
   set_nodes (map_imap (λ nodeid n, Some (if marks path include_descendants nodeid n
                                          then lose_binding now NamespaceChanged n else n))) t).

Definition mark_path_stale (now : Z) (path : Path) := mark_path_with now path false.
Definition mark_path_prefix_stale (now : Z) (path : Path) := mark_path_with now path true.
Definition mark_path_bindings_stale (now : Z) := mark_path_prefix_stale now [].

Definition drop_listing (n : Node) : Node :=
  Node_mk (n_fid n) (n_path n) (n_qid n) (n_stat n) (n_freshness n) None (n_generation n) (n_lookups n)
    (n_needs_rebind n).

Definition mark_parent_directory_cache_stale (path : Path) (t : NodeTable) : option (Z * bytes) * NodeTable :=
  match last path with
  | None => (None, t)
  | Some name =>
      match nodeid_at_path (removelast path) t with
      | None => (None, t)
      | Some parent => (Some (parent, name), set_nodes (alter drop_listing parent) t)
      end
  end.

(** ** handles.rs *)

Record OpenHandle := OpenHandle_mk {
  oh_client : Z;
  oh_fid : option Z;
  oh_open_mode : Z;
  oh_is_dir : bool;
  oh_write_on_release : bool;
  oh_close_commit : bool;
  oh_directory : option DirectoryStream;
}.

Definition require_fid (h : Handle) : SResult Z :=
  some_or (h_fid h) (session_error libc.ESTALE "file handle has no 9P fid").

Definition open_handle (o : OpenHandle) (t : NodeTable) : Z * NodeTable :=
  let handle := next_handle t in
  (handle,
   NodeTable_mk (nodes t)
     (<[handle := Handle_mk (oh_client o) (oh_fid o) (oh_open_mode o) (oh_is_dir o) (oh_write_on_release o)
                    (oh_close_commit o) false 0]> (handles t))
     (match oh_directory o with Some d => <[handle := d]> (directories t) | None => delete handle (directories t) end)
     (next_nodeid t) (bump (next_handle t))).

Definition unknown_handle (handle : Z) : SessionError :=
  SessionError_mk libc.ESTALE (bstr "unknown file handle " ++ dec handle).

Definition handle (fh : Z) (t : NodeTable) : SResult Handle := some_or (handles t !! fh) (unknown_handle fh).

Definition rebind_handle (client fid : Z) (flushed : bool) (h : Handle) : Handle :=
  Handle_mk client (Some fid) (h_open_mode h) (h_is_dir h) (h_write_on_release h) (h_close_commit h) flushed
    (h_bytes_written h).

Definition replace_read_handle_binding (fh client fid : Z) (t : NodeTable) : SResult (Handle * NodeTable) :=
  match handle fh t with
  | inl e => inl e
  | inr current =>
      if h_is_dir current || h_write_on_release current
      then inl (session_error libc.ESTALE "file handle is not read-only replayable")
      else inr (current, set_handles <[fh := rebind_handle client fid (h_close_commit_flushed current) current]> t)
  end.

Definition replace_directory_handle_binding (fh client fid : Z) (t : NodeTable) : SResult ((Z * Z) * NodeTable) :=
  match handle fh t with
  | inl e => inl e
  | inr current =>
      if negb (h_is_dir current) then inl (session_error libc.ESTALE "file handle is not a directory")
      else match directories t !! fh with
           | None => inl (session_error libc.ESTALE "directory handle has no incremental stream")
           | Some d =>
               inr ((ds_client d, ds_fid d),
                    set_handles <[fh := Handle_mk client (h_fid current) (h_open_mode current) (h_is_dir current)
                                          (h_write_on_release current) (h_close_commit current)
                                          (h_close_commit_flushed current) (h_bytes_written current)]>
                      (set_directories <[fh := DirectoryStream_mk client fid (ds_remote_offset d) (ds_entries d)
                                                 (ds_eof d)]> t))
           end
  end.

Definition replace_write_handle_binding (fh client fid : Z) (t : NodeTable) : SResult (Handle * NodeTable) :=
  match handle fh t with
  | inl e => inl e
  | inr current =>
      if h_is_dir current || negb (h_write_on_release current)
      then inl (session_error libc.ESTALE "file handle is not write replayable")
      else inr (current, set_handles <[fh := rebind_handle client fid false current]> t)
  end.

Definition note_handle_write (fh count : Z) (t : NodeTable) : SResult NodeTable :=
  match handle fh t with
  | inl e => inl e
  | inr h =>
      inr (set_handles <[fh := Handle_mk (h_client h) (h_fid h) (h_open_mode h) (h_is_dir h) (h_write_on_release h)
                                 (h_close_commit h) (h_close_commit_flushed h)
                                 (saturating_add u64_max (h_bytes_written h) count)]> t)
  end.

Definition mark_close_commit_flushed (fh : Z) (t : NodeTable) : SResult NodeTable :=
  match handle fh t with
  | inl e => inl e
  | inr h =>
      inr (set_handles <[fh := Handle_mk (h_client h) (h_fid h) (h_open_mode h) (h_is_dir h) (h_write_on_release h)
                                 (h_close_commit h) true (h_bytes_written h)]> t)
  end.

(** The handle, with its stream. *)
Definition remove_handle (fh : Z) (t : NodeTable) : option (Handle * option DirectoryStream) * NodeTable :=
  ((λ h, (h, directories t !! fh)) <$> handles t !! fh,
   set_directories (delete fh) (set_handles (delete fh) t)).
