(* ===== verification/FuseWire.v ===== *)
(** What the kernel and the FUSE bridge say to each other: the structures and
    opcodes of [crates/fuse/src/fuse/wire.rs], the reading of requests of
    [crates/fuse/src/fuse/reply.rs] and the conversions of
    [crates/fuse/src/fuse/util.rs].  The structures are [repr(C)] with explicit
    padding, in the byte order of the machine, which is little-endian here. *)
From S2P Require Import Prelude Errors Qid Stat Referral NamespaceCache Text SessionErrors FuseNodes.

(** ** Opcodes and flags *)

Definition FUSE_LOOKUP : Z := 1.
Definition FUSE_FORGET : Z := 2.
Definition FUSE_GETATTR : Z := 3.
Definition FUSE_SETATTR : Z := 4.
Definition FUSE_READLINK : Z := 5.
Definition FUSE_SYMLINK : Z := 6.
Definition FUSE_MKNOD : Z := 8.
Definition FUSE_MKDIR : Z := 9.
Definition FUSE_UNLINK : Z := 10.
Definition FUSE_RMDIR : Z := 11.
Definition FUSE_RENAME : Z := 12.
Definition FUSE_LINK : Z := 13.
Definition FUSE_OPEN : Z := 14.
Definition FUSE_READ : Z := 15.
Definition FUSE_WRITE : Z := 16.
Definition FUSE_STATFS : Z := 17.
Definition FUSE_RELEASE : Z := 18.
Definition FUSE_FSYNC : Z := 20.
Definition FUSE_SETXATTR : Z := 21.
Definition FUSE_GETXATTR : Z := 22.
Definition FUSE_LISTXATTR : Z := 23.
Definition FUSE_REMOVEXATTR : Z := 24.
Definition FUSE_FLUSH : Z := 25.
Definition FUSE_INIT : Z := 26.
Definition FUSE_OPENDIR : Z := 27.
Definition FUSE_READDIR : Z := 28.
Definition FUSE_RELEASEDIR : Z := 29.
Definition FUSE_FSYNCDIR : Z := 30.
Definition FUSE_GETLK : Z := 31.
Definition FUSE_SETLK : Z := 32.
Definition FUSE_SETLKW : Z := 33.
Definition FUSE_ACCESS : Z := 34.
Definition FUSE_CREATE : Z := 35.
Definition FUSE_INTERRUPT : Z := 36.
Definition FUSE_DESTROY : Z := 38.
Definition FUSE_POLL : Z := 40.
Definition FUSE_BATCH_FORGET : Z := 42.
Definition FUSE_READDIRPLUS : Z := 44.

Definition FATTR_MODE : Z := 1.
Definition FATTR_UID : Z := 2.
Definition FATTR_GID : Z := 4.
Definition FATTR_SIZE : Z := 8.
Definition FATTR_ATIME : Z := 16.
Definition FATTR_MTIME : Z := 32.
Definition FATTR_FH : Z := 64.

Definition FUSE_ASYNC_READ : Z := Z.shiftl 1 0.
Definition FUSE_ATOMIC_O_TRUNC : Z := Z.shiftl 1 3.
Definition FUSE_BIG_WRITES : Z := Z.shiftl 1 5.
Definition FUSE_AUTO_INVAL_DATA : Z := Z.shiftl 1 12.
Definition FUSE_DO_READDIRPLUS : Z := Z.shiftl 1 13.
Definition FUSE_READDIRPLUS_AUTO : Z := Z.shiftl 1 14.
Definition FUSE_PARALLEL_DIROPS : Z := Z.shiftl 1 18.
Definition FUSE_MAX_PAGES : Z := Z.shiftl 1 22.

Definition FUSE_NOTIFY_INVAL_INODE : Z := 2.
Definition FUSE_NOTIFY_INVAL_ENTRY : Z := 3.

Definition FOPEN_DIRECT_IO : Z := 1.
Definition FOPEN_KEEP_CACHE : Z := 2.

Definition FUSE_KERNEL_VERSION : Z := 7.
Definition FUSE_KERNEL_MINOR_VERSION : Z := 31.
Definition FUSE_COMPAT_INIT_OUT_SIZE : Z := 8.
Definition FUSE_COMPAT_22_INIT_OUT_SIZE : Z := 24.
Definition DEFAULT_MAX_IO_BYTES : Z := 1024 * 1024.
Definition FUSE_BUFFER_SIZE : Z := DEFAULT_MAX_IO_BYTES + 8192.

(** ** Structures *)

(** The fields of a structure, by their widths; [as_bytes] and [read_struct] copy
    them. *)
Class Wire (T : Type) := {
  layout : list nat;
  to_fields : T → list Z;
  from_fields : list Z → T;
}.

Class WireLaws (T : Type) `{!Wire T} := {
  to_fields_length (v : T) : length (to_fields v) = length layout;
  from_to_fields (v : T) : from_fields (to_fields v) = v;
}.

Definition size_of (T : Type) `{!Wire T} : Z := Z.of_nat (sum_list (layout (T := T))).

Definition as_bytes {T} `{!Wire T} (v : T) : bytes := concat (zip_with le_bytes layout (to_fields v)).

Fixpoint split_fields (widths : list nat) (data : bytes) : list Z :=
  match widths with
  | [] => []
  | w :: widths => le_val (take w data) :: split_fields widths (drop w data)
  end.

Definition read_struct {T} `{!Wire T} (data : bytes) : SResult T :=
  if vlen data <? size_of T then inl (session_error libc.EINVAL "short FUSE payload")
  else inr (from_fields (split_fields layout data)).

Definition nth_field (l : list Z) (i : nat) : Z := nth i l 0.
#[local] Notation "l # i" := (nth_field l i%nat) (at level 9, i at level 0).

Ltac wire_laws := constructor; [by intros []|by intros []].

Record FuseInHeader := FuseInHeader_mk {
  hd_len : Z; hd_opcode : Z; hd_unique : Z; hd_nodeid : Z; hd_uid : Z; hd_gid : Z; hd_pid : Z; hd_total_extlen : Z;
  hd_padding : Z;
}.
#[export] Instance FuseInHeader_wire : Wire FuseInHeader := {
  layout := [4; 4; 8; 8; 4; 4; 4; 2; 2]%nat;
  to_fields v := [hd_len v; hd_opcode v; hd_unique v; hd_nodeid v; hd_uid v; hd_gid v; hd_pid v; hd_total_extlen v;
                  hd_padding v];
  from_fields l := FuseInHeader_mk (l # 0) (l # 1) (l # 2) (l # 3) (l # 4) (l # 5) (l # 6) (l # 7) (l # 8);
}.
#[export] Instance FuseInHeader_laws : WireLaws FuseInHeader.
Proof. wire_laws. Qed.

Record FuseOutHeader := FuseOutHeader_mk { oh_len : Z; oh_error : Z; oh_unique : Z }.
#[export] Instance FuseOutHeader_wire : Wire FuseOutHeader := {
  layout := [4; 4; 8]%nat;
  to_fields v := [oh_len v; oh_error v; oh_unique v];
  from_fields l := FuseOutHeader_mk (l # 0) (l # 1) (l # 2);
}.
#[export] Instance FuseOutHeader_laws : WireLaws FuseOutHeader.
Proof. wire_laws. Qed.

Record FuseAttr := FuseAttr_mk {
  fa_ino : Z; fa_size : Z; fa_blocks : Z; fa_atime : Z; fa_mtime : Z; fa_ctime : Z; fa_atimensec : Z; fa_mtimensec : Z;
  fa_ctimensec : Z; fa_mode : Z; fa_nlink : Z; fa_uid : Z; fa_gid : Z; fa_rdev : Z; fa_blksize : Z; fa_flags : Z;
}.
#[export] Instance FuseAttr_wire : Wire FuseAttr := {
  layout := [8; 8; 8; 8; 8; 8; 4; 4; 4; 4; 4; 4; 4; 4; 4; 4]%nat;
  to_fields v := [fa_ino v; fa_size v; fa_blocks v; fa_atime v; fa_mtime v; fa_ctime v; fa_atimensec v; fa_mtimensec v;
                  fa_ctimensec v; fa_mode v; fa_nlink v; fa_uid v; fa_gid v; fa_rdev v; fa_blksize v; fa_flags v];
  from_fields l :=
    FuseAttr_mk (l # 0) (l # 1) (l # 2) (l # 3) (l # 4) (l # 5) (l # 6) (l # 7) (l # 8) (l # 9) (l # 10) (l # 11) (l # 12) (l # 13) (l # 14)
      (l # 15);
}.
#[export] Instance FuseAttr_laws : WireLaws FuseAttr.
Proof. wire_laws. Qed.

(** [FuseAttr::default()] *)
Definition FuseAttr_default : FuseAttr := FuseAttr_mk 0 0 0 0 0 0 0 0 0 0 0 0 0 0 0 0.

Record FuseEntryOut := FuseEntryOut_mk {
  eo_nodeid : Z; eo_generation : Z; eo_entry_valid : Z; eo_attr_valid : Z; eo_entry_valid_nsec : Z;
  eo_attr_valid_nsec : Z; eo_attr : FuseAttr;
}.
#[export] Instance FuseEntryOut_wire : Wire FuseEntryOut := {
  layout := [8; 8; 8; 8; 4; 4]%nat ++ layout (T := FuseAttr);
  to_fields v := [eo_nodeid v; eo_generation v; eo_entry_valid v; eo_attr_valid v; eo_entry_valid_nsec v;
                  eo_attr_valid_nsec v] ++ to_fields (eo_attr v);
  from_fields l :=
    FuseEntryOut_mk (l # 0) (l # 1) (l # 2) (l # 3) (l # 4) (l # 5) (from_fields (drop 6 l));
}.
#[export] Instance FuseEntryOut_laws : WireLaws FuseEntryOut.
Proof. constructor; [by intros [? ? ? ? ? ? []]|by intros [? ? ? ? ? ? []]]. Qed.

Record FuseAttrOut := FuseAttrOut_mk { ao_attr_valid : Z; ao_attr_valid_nsec : Z; ao_dummy : Z; ao_attr : FuseAttr }.
#[export] Instance FuseAttrOut_wire : Wire FuseAttrOut := {
  layout := [8; 4; 4]%nat ++ layout (T := FuseAttr);
  to_fields v := [ao_attr_valid v; ao_attr_valid_nsec v; ao_dummy v] ++ to_fields (ao_attr v);
  from_fields l := FuseAttrOut_mk (l # 0) (l # 1) (l # 2) (from_fields (drop 3 l));
}.
#[export] Instance FuseAttrOut_laws : WireLaws FuseAttrOut.
Proof. constructor; [by intros [? ? ? []]|by intros [? ? ? []]]. Qed.

Record FuseForgetIn := FuseForgetIn_mk { fi_nlookup : Z }.
#[export] Instance FuseForgetIn_wire : Wire FuseForgetIn := {
  layout := [8]%nat; to_fields v := [fi_nlookup v]; from_fields l := FuseForgetIn_mk (l # 0);
}.
#[export] Instance FuseForgetIn_laws : WireLaws FuseForgetIn.
Proof. wire_laws. Qed.

Record FuseForgetOne := FuseForgetOne_mk { fo_nodeid : Z; fo_nlookup : Z }.
#[export] Instance FuseForgetOne_wire : Wire FuseForgetOne := {
  layout := [8; 8]%nat; to_fields v := [fo_nodeid v; fo_nlookup v];
  from_fields l := FuseForgetOne_mk (l # 0) (l # 1);
}.
#[export] Instance FuseForgetOne_laws : WireLaws FuseForgetOne.
Proof. wire_laws. Qed.

Record FuseBatchForgetIn := FuseBatchForgetIn_mk { bf_count : Z; bf_dummy : Z }.
#[export] Instance FuseBatchForgetIn_wire : Wire FuseBatchForgetIn := {
  layout := [4; 4]%nat; to_fields v := [bf_count v; bf_dummy v];
  from_fields l := FuseBatchForgetIn_mk (l # 0) (l # 1);
}.
#[export] Instance FuseBatchForgetIn_laws : WireLaws FuseBatchForgetIn.
Proof. wire_laws. Qed.

Record FuseMknodIn := FuseMknodIn_mk { mk_mode : Z; mk_rdev : Z; mk_umask : Z; mk_padding : Z }.
#[export] Instance FuseMknodIn_wire : Wire FuseMknodIn := {
  layout := [4; 4; 4; 4]%nat; to_fields v := [mk_mode v; mk_rdev v; mk_umask v; mk_padding v];
  from_fields l := FuseMknodIn_mk (l # 0) (l # 1) (l # 2) (l # 3);
}.
#[export] Instance FuseMknodIn_laws : WireLaws FuseMknodIn.
Proof. wire_laws. Qed.

Record FuseMkdirIn := FuseMkdirIn_mk { md_mode : Z; md_umask : Z }.
#[export] Instance FuseMkdirIn_wire : Wire FuseMkdirIn := {
  layout := [4; 4]%nat; to_fields v := [md_mode v; md_umask v];
  from_fields l := FuseMkdirIn_mk (l # 0) (l # 1);
}.
#[export] Instance FuseMkdirIn_laws : WireLaws FuseMkdirIn.
Proof. wire_laws. Qed.

Record FuseRenameIn := FuseRenameIn_mk { rn_newdir : Z }.
#[export] Instance FuseRenameIn_wire : Wire FuseRenameIn := {
  layout := [8]%nat; to_fields v := [rn_newdir v]; from_fields l := FuseRenameIn_mk (l # 0);
}.
#[export] Instance FuseRenameIn_laws : WireLaws FuseRenameIn.
Proof. wire_laws. Qed.

Record FuseSetattrIn := FuseSetattrIn_mk {
  sa_valid : Z; sa_padding : Z; sa_fh : Z; sa_size : Z; sa_lock_owner : Z; sa_atime : Z; sa_mtime : Z; sa_ctime : Z;
  sa_atimensec : Z; sa_mtimensec : Z; sa_ctimensec : Z; sa_mode : Z; sa_unused4 : Z; sa_uid : Z; sa_gid : Z;
  sa_unused5 : Z;
}.
#[export] Instance FuseSetattrIn_wire : Wire FuseSetattrIn := {
  layout := [4; 4; 8; 8; 8; 8; 8; 8; 4; 4; 4; 4; 4; 4; 4; 4]%nat;
  to_fields v := [sa_valid v; sa_padding v; sa_fh v; sa_size v; sa_lock_owner v; sa_atime v; sa_mtime v; sa_ctime v;
                  sa_atimensec v; sa_mtimensec v; sa_ctimensec v; sa_mode v; sa_unused4 v; sa_uid v; sa_gid v;
                  sa_unused5 v];
  from_fields l :=
    FuseSetattrIn_mk (l # 0) (l # 1) (l # 2) (l # 3) (l # 4) (l # 5) (l # 6) (l # 7) (l # 8) (l # 9) (l # 10) (l # 11) (l # 12) (l # 13) (l # 14)
      (l # 15);
}.
#[export] Instance FuseSetattrIn_laws : WireLaws FuseSetattrIn.
Proof. wire_laws. Qed.

Record FuseOpenIn := FuseOpenIn_mk { oi_flags : Z; oi_open_flags : Z }.
#[export] Instance FuseOpenIn_wire : Wire FuseOpenIn := {
  layout := [4; 4]%nat; to_fields v := [oi_flags v; oi_open_flags v];
  from_fields l := FuseOpenIn_mk (l # 0) (l # 1);
}.
#[export] Instance FuseOpenIn_laws : WireLaws FuseOpenIn.
Proof. wire_laws. Qed.

Record FuseCreateIn := FuseCreateIn_mk { ci_flags : Z; ci_mode : Z; ci_umask : Z; ci_open_flags : Z }.
#[export] Instance FuseCreateIn_wire : Wire FuseCreateIn := {
  layout := [4; 4; 4; 4]%nat; to_fields v := [ci_flags v; ci_mode v; ci_umask v; ci_open_flags v];
  from_fields l := FuseCreateIn_mk (l # 0) (l # 1) (l # 2) (l # 3);
}.
#[export] Instance FuseCreateIn_laws : WireLaws FuseCreateIn.
Proof. wire_laws. Qed.

Record FuseOpenOut := FuseOpenOut_mk { oo_fh : Z; oo_open_flags : Z; oo_padding : Z }.
#[export] Instance FuseOpenOut_wire : Wire FuseOpenOut := {
  layout := [8; 4; 4]%nat; to_fields v := [oo_fh v; oo_open_flags v; oo_padding v];
  from_fields l := FuseOpenOut_mk (l # 0) (l # 1) (l # 2);
}.
#[export] Instance FuseOpenOut_laws : WireLaws FuseOpenOut.
Proof. wire_laws. Qed.

Record FuseCreateOut := FuseCreateOut_mk { co_entry : FuseEntryOut; co_open : FuseOpenOut }.
#[export] Instance FuseCreateOut_wire : Wire FuseCreateOut := {
  layout := layout (T := FuseEntryOut) ++ layout (T := FuseOpenOut);
  to_fields v := to_fields (co_entry v) ++ to_fields (co_open v);
  from_fields l := FuseCreateOut_mk (from_fields (take 22 l)) (from_fields (drop 22 l));
}.
#[export] Instance FuseCreateOut_laws : WireLaws FuseCreateOut.
Proof. constructor; [by intros [[? ? ? ? ? ? []] []]|by intros [[? ? ? ? ? ? []] []]]. Qed.

Record FuseReleaseIn := FuseReleaseIn_mk { rl_fh : Z; rl_flags : Z; rl_release_flags : Z; rl_lock_owner : Z }.
#[export] Instance FuseReleaseIn_wire : Wire FuseReleaseIn := {
  layout := [8; 4; 4; 8]%nat; to_fields v := [rl_fh v; rl_flags v; rl_release_flags v; rl_lock_owner v];
  from_fields l := FuseReleaseIn_mk (l # 0) (l # 1) (l # 2) (l # 3);
}.
#[export] Instance FuseReleaseIn_laws : WireLaws FuseReleaseIn.
Proof. wire_laws. Qed.

Record FuseFlushIn := FuseFlushIn_mk { fl_fh : Z; fl_unused : Z; fl_padding : Z; fl_lock_owner : Z }.
#[export] Instance FuseFlushIn_wire : Wire FuseFlushIn := {
  layout := [8; 4; 4; 8]%nat; to_fields v := [fl_fh v; fl_unused v; fl_padding v; fl_lock_owner v];
  from_fields l := FuseFlushIn_mk (l # 0) (l # 1) (l # 2) (l # 3);
}.
#[export] Instance FuseFlushIn_laws : WireLaws FuseFlushIn.
Proof. wire_laws. Qed.

Record FuseFsyncIn := FuseFsyncIn_mk { fs_fh : Z; fs_fsync_flags : Z; fs_padding : Z }.
#[export] Instance FuseFsyncIn_wire : Wire FuseFsyncIn := {
  layout := [8; 4; 4]%nat; to_fields v := [fs_fh v; fs_fsync_flags v; fs_padding v];
  from_fields l := FuseFsyncIn_mk (l # 0) (l # 1) (l # 2);
}.
#[export] Instance FuseFsyncIn_laws : WireLaws FuseFsyncIn.
Proof. wire_laws. Qed.

Record FuseAccessIn := FuseAccessIn_mk { ac_mask : Z; ac_padding : Z }.
#[export] Instance FuseAccessIn_wire : Wire FuseAccessIn := {
  layout := [4; 4]%nat; to_fields v := [ac_mask v; ac_padding v];
  from_fields l := FuseAccessIn_mk (l # 0) (l # 1);
}.
#[export] Instance FuseAccessIn_laws : WireLaws FuseAccessIn.
Proof. wire_laws. Qed.

Record FuseReadIn := FuseReadIn_mk {
  ri_fh : Z; ri_offset : Z; ri_size : Z; ri_read_flags : Z; ri_lock_owner : Z; ri_flags : Z; ri_padding : Z;
}.
#[export] Instance FuseReadIn_wire : Wire FuseReadIn := {
  layout := [8; 8; 4; 4; 8; 4; 4]%nat;
  to_fields v := [ri_fh v; ri_offset v; ri_size v; ri_read_flags v; ri_lock_owner v; ri_flags v; ri_padding v];
  from_fields l := FuseReadIn_mk (l # 0) (l # 1) (l # 2) (l # 3) (l # 4) (l # 5) (l # 6);
}.
#[export] Instance FuseReadIn_laws : WireLaws FuseReadIn.
Proof. wire_laws. Qed.

Record FuseWriteIn := FuseWriteIn_mk {
  wi_fh : Z; wi_offset : Z; wi_size : Z; wi_write_flags : Z; wi_lock_owner : Z; wi_flags : Z; wi_padding : Z;
}.
#[export] Instance FuseWriteIn_wire : Wire FuseWriteIn := {
  layout := [8; 8; 4; 4; 8; 4; 4]%nat;
  to_fields v := [wi_fh v; wi_offset v; wi_size v; wi_write_flags v; wi_lock_owner v; wi_flags v; wi_padding v];
  from_fields l := FuseWriteIn_mk (l # 0) (l # 1) (l # 2) (l # 3) (l # 4) (l # 5) (l # 6);
}.
#[export] Instance FuseWriteIn_laws : WireLaws FuseWriteIn.
Proof. wire_laws. Qed.

Record FuseWriteOut := FuseWriteOut_mk { wo_size : Z; wo_padding : Z }.
#[export] Instance FuseWriteOut_wire : Wire FuseWriteOut := {
  layout := [4; 4]%nat; to_fields v := [wo_size v; wo_padding v];
  from_fields l := FuseWriteOut_mk (l # 0) (l # 1);
}.
#[export] Instance FuseWriteOut_laws : WireLaws FuseWriteOut.
Proof. wire_laws. Qed.

Record FuseInterruptIn := FuseInterruptIn_mk { ir_unique : Z }.
#[export] Instance FuseInterruptIn_wire : Wire FuseInterruptIn := {
  layout := [8]%nat; to_fields v := [ir_unique v]; from_fields l := FuseInterruptIn_mk (l # 0);
}.
#[export] Instance FuseInterruptIn_laws : WireLaws FuseInterruptIn.
Proof. wire_laws. Qed.

Record FuseNotifyInvalInodeOut := FuseNotifyInvalInodeOut_mk { ni_ino : Z; ni_off : Z; ni_len : Z }.
#[export] Instance FuseNotifyInvalInodeOut_wire : Wire FuseNotifyInvalInodeOut := {
  layout := [8; 8; 8]%nat; to_fields v := [ni_ino v; ni_off v; ni_len v];
  from_fields l := FuseNotifyInvalInodeOut_mk (l # 0) (l # 1) (l # 2);
}.
#[export] Instance FuseNotifyInvalInodeOut_laws : WireLaws FuseNotifyInvalInodeOut.
Proof. wire_laws. Qed.

Record FuseNotifyInvalEntryOut := FuseNotifyInvalEntryOut_mk { ne_parent : Z; ne_namelen : Z; ne_flags : Z }.
#[export] Instance FuseNotifyInvalEntryOut_wire : Wire FuseNotifyInvalEntryOut := {
  layout := [8; 4; 4]%nat; to_fields v := [ne_parent v; ne_namelen v; ne_flags v];
  from_fields l := FuseNotifyInvalEntryOut_mk (l # 0) (l # 1) (l # 2);
}.
#[export] Instance FuseNotifyInvalEntryOut_laws : WireLaws FuseNotifyInvalEntryOut.
Proof. wire_laws. Qed.

Record FusePollIn := FusePollIn_mk { pi_fh : Z; pi_kh : Z; pi_flags : Z; pi_events : Z }.
#[export] Instance FusePollIn_wire : Wire FusePollIn := {
  layout := [8; 8; 4; 4]%nat; to_fields v := [pi_fh v; pi_kh v; pi_flags v; pi_events v];
  from_fields l := FusePollIn_mk (l # 0) (l # 1) (l # 2) (l # 3);
}.
#[export] Instance FusePollIn_laws : WireLaws FusePollIn.
Proof. wire_laws. Qed.

Record FuseFileLock := FuseFileLock_mk { lk_start : Z; lk_end : Z; lk_type : Z; lk_pid : Z }.
#[export] Instance FuseFileLock_wire : Wire FuseFileLock := {
  layout := [8; 8; 4; 4]%nat; to_fields v := [lk_start v; lk_end v; lk_type v; lk_pid v];
  from_fields l := FuseFileLock_mk (l # 0) (l # 1) (l # 2) (l # 3);
}.
#[export] Instance FuseFileLock_laws : WireLaws FuseFileLock.
Proof. wire_laws. Qed.

Record FuseLkIn := FuseLkIn_mk { li_fh : Z; li_owner : Z; li_lk : FuseFileLock; li_lk_flags : Z; li_padding : Z }.
#[export] Instance FuseLkIn_wire : Wire FuseLkIn := {
  layout := [8; 8]%nat ++ layout (T := FuseFileLock) ++ [4; 4]%nat;
  to_fields v := [li_fh v; li_owner v] ++ to_fields (li_lk v) ++ [li_lk_flags v; li_padding v];
  from_fields l := FuseLkIn_mk (l # 0) (l # 1) (from_fields (take 4 (drop 2 l))) (l # 6) (l # 7);
}.
#[export] Instance FuseLkIn_laws : WireLaws FuseLkIn.
Proof. constructor; [by intros [? ? [] ? ?]|by intros [? ? [] ? ?]]. Qed.

Record FuseLkOut := FuseLkOut_mk { lo_lk : FuseFileLock }.
#[export] Instance FuseLkOut_wire : Wire FuseLkOut := {
  layout := layout (T := FuseFileLock); to_fields v := to_fields (lo_lk v);
  from_fields l := FuseLkOut_mk (from_fields l);
}.
#[export] Instance FuseLkOut_laws : WireLaws FuseLkOut.
Proof. constructor; [by intros [[]]|by intros [[]]]. Qed.

Record FuseKstatfs := FuseKstatfs_mk {
  ks_blocks : Z; ks_bfree : Z; ks_bavail : Z; ks_files : Z; ks_ffree : Z; ks_bsize : Z; ks_namelen : Z; ks_frsize : Z;
  ks_padding : Z; ks_spare : list Z;
}.
(** [spare: [u32; 6]] *)
#[export] Instance FuseKstatfs_wire : Wire FuseKstatfs := {
  layout := [8; 8; 8; 8; 8; 4; 4; 4; 4; 4; 4; 4; 4; 4; 4]%nat;
  to_fields v := [ks_blocks v; ks_bfree v; ks_bavail v; ks_files v; ks_ffree v; ks_bsize v; ks_namelen v; ks_frsize v;
                  ks_padding v] ++ ks_spare v;
  from_fields l :=
    FuseKstatfs_mk (l # 0) (l # 1) (l # 2) (l # 3) (l # 4) (l # 5) (l # 6) (l # 7) (l # 8) (drop 9 l);
}.

Record FuseInitIn := FuseInitIn_mk { ii_major : Z; ii_minor : Z; ii_max_readahead : Z; ii_flags : Z }.
#[export] Instance FuseInitIn_wire : Wire FuseInitIn := {
  layout := [4; 4; 4; 4]%nat; to_fields v := [ii_major v; ii_minor v; ii_max_readahead v; ii_flags v];
  from_fields l := FuseInitIn_mk (l # 0) (l # 1) (l # 2) (l # 3);
}.
#[export] Instance FuseInitIn_laws : WireLaws FuseInitIn.
Proof. wire_laws. Qed.

Record FuseInitOut := FuseInitOut_mk {
  io_major : Z; io_minor : Z; io_max_readahead : Z; io_flags : Z; io_max_background : Z; io_congestion_threshold : Z;
  io_max_write : Z; io_time_gran : Z; io_max_pages : Z; io_map_alignment : Z; io_unused : list Z;
}.
(** [unused: [u32; 8]] *)
#[export] Instance FuseInitOut_wire : Wire FuseInitOut := {
  layout := [4; 4; 4; 4; 2; 2; 4; 4; 2; 2; 4; 4; 4; 4; 4; 4; 4; 4]%nat;
  to_fields v := [io_major v; io_minor v; io_max_readahead v; io_flags v; io_max_background v;
                  io_congestion_threshold v; io_max_write v; io_time_gran v; io_max_pages v; io_map_alignment v] ++
                 io_unused v;
  from_fields l :=
    FuseInitOut_mk (l # 0) (l # 1) (l # 2) (l # 3) (l # 4) (l # 5) (l # 6) (l # 7) (l # 8) (l # 9) (drop 10 l);
}.

(** ** reply.rs *)

Definition next_c_string (data : bytes) : SResult (bytes * bytes) :=
  match list_find (λ b, b = x00) data with
  | Some (nul, _) => inr (take nul data, drop (S nul) data)
  | None => inl (session_error libc.EINVAL "unterminated FUSE string")
  end.

Definition c_string (data : bytes) : SResult bytes :=
  match next_c_string data with inl e => inl e | inr (value, _) => inr value end.

Definition push_u32 (out : bytes) (value : Z) : bytes := out ++ le_bytes 4 value.
Definition push_u64 (out : bytes) (value : Z) : bytes := out ++ le_bytes 8 value.

(** ** util.rs *)

Definition O_ACCMODE : Z := 3.
Definition O_WRONLY : Z := 1.
Definition O_RDWR : Z := 2.
Definition O_TRUNC : Z := 0x200.

Definition flags_to_9p_mode (flags : Z) : Z :=
  let access := Z.land flags O_ACCMODE in
  let mode := if access =? O_WRONLY then OWRITE else if access =? O_RDWR then ORDWR else OREAD in
  if has_bits flags O_TRUNC then Z.lor mode OTRUNC else mode.

Definition fuse_open_flags (is_dir_open : bool) (mode known_length : Z) (coherent_read_cache : bool) : Z :=
  if is_dir_open then 0
  else if (mode =? OREAD) && coherent_read_cache && (0 <? known_length) then FOPEN_KEEP_CACHE
  else if permits_read mode then FOPEN_DIRECT_IO
  else 0.

Definition is_transport_text (text : bytes) : bool :=
  contains_text (bstr "9P frame") text || contains_text (bstr "9P reader stopped") text ||
  contains_text (bstr "9P response timeout") text || contains_text (bstr "clone 9P stream") text.

Definition is_transport_error (e : SessionError) : bool :=
  existsb (Z.eqb (errno e)) [libc.EPIPE; libc.ECONNRESET; libc.ECONNABORTED; libc.ENOTCONN; libc.ESHUTDOWN;
                             libc.ETIMEDOUT; libc.EAGAIN] ||
  (errno e =? libc.EIO) && is_transport_text (se_message e).

Definition is_stale_namespace_message (text : bytes) : bool :=
  let lower := to_ascii_lowercase text in
  contains_text (bstr "unknown fid") lower || contains_text (bstr "unknown namespace fid") lower ||
  contains_text (bstr "stale fid") lower.

Definition is_namespace_shape_error (e : SessionError) : bool :=
  (errno e =? libc.ENOENT) ||
  ((errno e =? libc.ESTALE) || (errno e =? libc.EBADF)) && is_stale_namespace_message (se_message e).

Definition is_lookup_namespace_shape_error (e : SessionError) : bool :=
  negb (errno e =? libc.ENOENT) && is_namespace_shape_error e.

(** A [Duration] is a number of nanoseconds. *)
Definition duration_parts (duration : Z) : Z * Z := (duration `div` 1000000000, duration `mod` 1000000000).

Definition fuse_name_offset : Z := 8 + 8 + 4 + 4.

(** [(fuse_name_offset() + name_len + 7) & !7] *)
Definition dirent_size (name_len : Z) : Z := Z.land (fuse_name_offset + name_len + 7) (Z.lnot 7).
