(* ===== verification/ReadCache.v ===== *)
(** The persistent read cache of the FUSE bridge: [crates/fuse/src/fuse/read_cache.rs].
    A file whose qid has a version is cached in chunks, each a file of its own on the
    local disk.  The disk is modelled by its files and by the failures its calls
    meet; one thread reads at a time, so no reader waits for another's fetch. *)
From stdpp Require Import sorting.
From S2P Require Import Prelude Errors Qid Stat Referral NamespaceCache Text SessionErrors.

Definition MAX_CACHE_CHUNKS : Z := 65536.

(** The text the operating system has for an errno, and the number of the process. *)
Class OsText := { os_text : Z → bytes; process_id : Z }.

(** ** Identities and names *)

Record CacheIdentity := CacheIdentity_mk {
  ci_qtype : Z;
  ci_qid_path : Z;
  ci_qid_version : Z;
  ci_length : Z;
  ci_mtime : Z;
}.
#[export] Instance CacheIdentity_eq_dec : EqDecision CacheIdentity.
Proof. solve_decision. Defined.
#[export] Instance CacheIdentity_countable : Countable CacheIdentity.
Proof.
  refine (inj_countable' (λ i, (ci_qtype i, ci_qid_path i, ci_qid_version i, ci_length i, ci_mtime i))
            (λ '(a, b, c, d, e), CacheIdentity_mk a b c d e) _). by intros [].
Defined.

Definition from_stat (st : Stat) : option CacheIdentity :=
  if (qid_version (st_qid st) =? 0) || (st_length st =? 0) || is_dir (st_qid st) || is_symlink (st_qid st) then None
  else Some (CacheIdentity_mk (qtype (st_qid st)) (qid_path (st_qid st)) (qid_version (st_qid st)) (st_length st)
               (st_mtime st)).

Definition hex_digit (z : Z) : byte := byte_of_Z (if z <? 10 then 48 + z else 87 + z).

(** [{:0nx}] of a number of at most [n] hexadecimal digits. *)
Fixpoint hex (n : nat) (z : Z) : bytes :=
  match n with
  | O => []
  | S n => hex n (z `div` 16) ++ [hex_digit (z `mod` 16)]
  end.

Definition dash : bytes := bstr "-".

Definition directory_name (i : CacheIdentity) : bytes :=
  bstr "q" ++ hex 2 (ci_qtype i) ++ dash ++ hex 16 (ci_qid_path i) ++ dash ++ hex 8 (ci_qid_version i) ++ dash ++
  hex 16 (ci_length i) ++ dash ++ hex 8 (ci_mtime i).

Record ChunkKey := ChunkKey_mk { ck_identity : CacheIdentity; ck_index : Z }.
#[export] Instance ChunkKey_eq_dec : EqDecision ChunkKey.
Proof. solve_decision. Defined.
#[export] Instance ChunkKey_countable : Countable ChunkKey.
Proof. refine (inj_countable' (λ k, (ck_identity k, ck_index k)) (λ '(i, n), ChunkKey_mk i n) _). by intros []. Defined.

(** A file below the directory of chunks: its directory and its name. *)
Abbreviation ChunkPath := (bytes * bytes)%type.

Definition chunk_path (key : ChunkKey) : ChunkPath :=
  (directory_name (ck_identity key), hex 16 (ck_index key) ++ bstr ".chunk").

(** ** The disk *)

Record CacheFile := CacheFile_mk {
  cf_regular : bool;
  cf_private : bool;      (* [private_owner] *)
  cf_data : bytes;
  cf_modified : Z;
  cf_inode : Z;
}.

Record Disk := Disk_mk {
  dk_root : option bool;                  (* the directories: are they there, are they private *)
  dk_chunks : option bool;
  dk_lock : option bool;
  dk_volume : option CacheFile;
  dk_directories : gmap bytes bool;
  dk_files : gmap ChunkPath CacheFile;
  dk_faults : list (option Z);            (* the errno the next calls fail with *)
  dk_clock : Z;
}.

Definition set_root (d : Disk) : Disk :=
  Disk_mk (Some true) (dk_chunks d) (dk_lock d) (dk_volume d) (dk_directories d) (dk_files d) (dk_faults d) (dk_clock d).
Definition set_chunks (d : Disk) : Disk :=
  Disk_mk (dk_root d) (Some true) (dk_lock d) (dk_volume d) (dk_directories d) (dk_files d) (dk_faults d) (dk_clock d).
Definition set_disk_lock (d : Disk) : Disk :=
  Disk_mk (dk_root d) (dk_chunks d) (Some true) (dk_volume d) (dk_directories d) (dk_files d) (dk_faults d) (dk_clock d).
Definition set_volume (v : CacheFile) (d : Disk) : Disk :=
  Disk_mk (dk_root d) (dk_chunks d) (dk_lock d) (Some v) (dk_directories d) (dk_files d) (dk_faults d) (dk_clock d).
Definition set_directory (name : bytes) (d : Disk) : Disk :=
  Disk_mk (dk_root d) (dk_chunks d) (dk_lock d) (dk_volume d) (<[name := true]> (dk_directories d)) (dk_files d)
    (dk_faults d) (dk_clock d).
Definition set_files (f : gmap ChunkPath CacheFile → gmap ChunkPath CacheFile) (d : Disk) : Disk :=
  Disk_mk (dk_root d) (dk_chunks d) (dk_lock d) (dk_volume d) (dk_directories d) (f (dk_files d)) (dk_faults d)
    (dk_clock d + 1).
Definition set_faults (faults : list (option Z)) (d : Disk) : Disk :=
  Disk_mk (dk_root d) (dk_chunks d) (dk_lock d) (dk_volume d) (dk_directories d) (dk_files d) faults (dk_clock d).

Record CacheSnapshot := CacheSnapshot_mk {
  sn_current_bytes : Z;
  sn_hit_chunks : Z;
  sn_miss_chunks : Z;
  sn_hit_bytes : Z;
  sn_fetched_bytes : Z;
  sn_evictions : Z;
  sn_read_errors : Z;
  sn_write_errors : Z;
}.

Record ReadCache := ReadCache_mk {
  rc_max_bytes : Z;
  rc_chunk_bytes : Z;
  rc_in_flight : gset ChunkKey;
  rc_snapshot : CacheSnapshot;
  rc_sequence : Z;                        (* [TEMP_SEQUENCE] *)
  rc_disk : Disk;
}.

Definition set_disk (d : Disk) (c : ReadCache) : ReadCache :=
  ReadCache_mk (rc_max_bytes c) (rc_chunk_bytes c) (rc_in_flight c) (rc_snapshot c) (rc_sequence c) d.
Definition set_in_flight (keys : gset ChunkKey) (c : ReadCache) : ReadCache :=
  ReadCache_mk (rc_max_bytes c) (rc_chunk_bytes c) keys (rc_snapshot c) (rc_sequence c) (rc_disk c).
Definition set_snapshot (f : CacheSnapshot → CacheSnapshot) (c : ReadCache) : ReadCache :=
  ReadCache_mk (rc_max_bytes c) (rc_chunk_bytes c) (rc_in_flight c) (f (rc_snapshot c)) (rc_sequence c) (rc_disk c).

(** Counters that only grow. *)
Definition count (z n : Z) : Z := saturating_add u64_max z n.

Definition set_current_bytes (n : Z) (s : CacheSnapshot) : CacheSnapshot :=
  CacheSnapshot_mk n (sn_hit_chunks s) (sn_miss_chunks s) (sn_hit_bytes s) (sn_fetched_bytes s) (sn_evictions s)
    (sn_read_errors s) (sn_write_errors s).

Section cache.
Context {os : OsText}.

Abbreviation K := (S_ ReadCache).

Definition os_error (errno : Z) : SessionError := SessionError_mk errno (os_text errno).

(** [Error::io] *)
Definition io {A} (context : string) (m : K A) : K A := λ c,
  match m c with
  | (inl e, c) => (inl (SessionError_mk (errno e) (bstr context ++ bstr ": " ++ se_message e)), c)
  | r => r
  end.

(** A call of the operating system: it fails if the disk has a failure for it. *)
Definition sys {A} (f : Disk → SResult A * Disk) : K A := λ c,
  match dk_faults (rc_disk c) with
  | Some e :: faults => (inl (os_error e), set_disk (set_faults faults (rc_disk c)) c)
  | faults =>
      let '(r, d) := f (set_faults (tail faults) (rc_disk c)) in (r, set_disk d c)
  end.

Definition symlink_metadata (path : ChunkPath) : K CacheFile :=
  sys (λ d, (some_or (dk_files d !! path) (os_error libc.ENOENT), d)).
Definition open_chunk (path : ChunkPath) : K bytes :=
  sys (λ d, (some_or (cf_data <$> dk_files d !! path) (os_error libc.ENOENT), d)).
Definition read_exact_at (data : bytes) (start take : Z) : K bytes :=
  sys (λ d, (if start + take <=? vlen data then inr (ztake take (zdrop start data)) else inl (os_error libc.EIO), d)).
Definition touch (path : ChunkPath) : K unit :=
  sys (λ d, (inr (), set_files (alter (λ f, CacheFile_mk (cf_regular f) (cf_private f) (cf_data f) (dk_clock d)
                                               (cf_inode f)) path) d)).
Definition remove_file (path : ChunkPath) : K unit :=
  sys (λ d, match dk_files d !! path with
            | Some _ => (inr (), set_files (delete path) d)
            | None => (inl (os_error libc.ENOENT), d)
            end).
Definition create_new (path : ChunkPath) : K unit :=
  sys (λ d, match dk_files d !! path with
            | Some _ => (inl (os_error libc.EEXIST), d)
            | None => (inr (), set_files <[path := CacheFile_mk true true [] (dk_clock d) (dk_clock d)]> d)
            end).
Definition write_all (path : ChunkPath) (data : bytes) : K unit :=
  sys (λ d, (inr (), set_files (alter (λ f, CacheFile_mk (cf_regular f) (cf_private f) data (dk_clock d)
                                               (cf_inode f)) path) d)).
Definition sync_data : K unit := sys (λ d, (inr (), d)).
Definition rename (from to : ChunkPath) : K unit :=
  sys (λ d, match dk_files d !! from with
            | Some f => (inr (), set_files (λ m, <[to := f]> (delete from m)) d)
            | None => (inl (os_error libc.ENOENT), d)
            end).

(** ** Counters *)

Definition note_hit (bytes : Z) : K unit :=
  smodify (set_snapshot (λ s, CacheSnapshot_mk (sn_current_bytes s) (count (sn_hit_chunks s) 1) (sn_miss_chunks s)
    (count (sn_hit_bytes s) bytes) (sn_fetched_bytes s) (sn_evictions s) (sn_read_errors s) (sn_write_errors s))).
Definition note_miss : K unit :=
  smodify (set_snapshot (λ s, CacheSnapshot_mk (sn_current_bytes s) (sn_hit_chunks s) (count (sn_miss_chunks s) 1)
    (sn_hit_bytes s) (sn_fetched_bytes s) (sn_evictions s) (sn_read_errors s) (sn_write_errors s))).
Definition note_fetched (bytes : Z) : K unit :=
  smodify (set_snapshot (λ s, CacheSnapshot_mk (sn_current_bytes s) (sn_hit_chunks s) (sn_miss_chunks s)
    (sn_hit_bytes s) (count (sn_fetched_bytes s) bytes) (sn_evictions s) (sn_read_errors s) (sn_write_errors s))).
Definition note_evictions (n : Z) : K unit :=
  smodify (set_snapshot (λ s, CacheSnapshot_mk (sn_current_bytes s) (sn_hit_chunks s) (sn_miss_chunks s)
    (sn_hit_bytes s) (sn_fetched_bytes s) (count (sn_evictions s) n) (sn_read_errors s) (sn_write_errors s))).
Definition note_read_error : K unit :=
  smodify (set_snapshot (λ s, CacheSnapshot_mk (sn_current_bytes s) (sn_hit_chunks s) (sn_miss_chunks s)
    (sn_hit_bytes s) (sn_fetched_bytes s) (sn_evictions s) (count (sn_read_errors s) 1) (sn_write_errors s))).
Definition note_write_error : K unit :=
  smodify (set_snapshot (λ s, CacheSnapshot_mk (sn_current_bytes s) (sn_hit_chunks s) (sn_miss_chunks s)
    (sn_hit_bytes s) (sn_fetched_bytes s) (sn_evictions s) (sn_read_errors s) (count (sn_write_errors s) 1))).

(** ** Usage *)

Record CacheEntry := CacheEntry_mk { ce_path : ChunkPath; ce_bytes : Z; ce_modified : Z }.

Definition is_temporary (name : bytes) : bool := starts_with (bstr ".tmp-") name.
Definition ends_with (suffix name : bytes) : bool := starts_with (reverse suffix) (reverse name).

(** One file of a scan. *)
Definition scan_file (path : ChunkPath) (entries : list CacheEntry) : K (list CacheEntry) :=
  metadata ← io "inspect read cache chunk" (symlink_metadata path);
  if cf_regular metadata && is_temporary path.2 then
    _ ← sattempt (remove_file path);
    mret entries
  else if negb (cf_regular metadata) || negb (cf_private metadata) || negb (ends_with (bstr ".chunk") path.2)
  then mret entries
  else if MAX_CACHE_CHUNKS <=? vlen entries
  then sthrow (session_error libc.E2BIG "read cache chunk count exceeds bound")
  else mret (entries ++ [CacheEntry_mk path (vlen (cf_data metadata)) (cf_modified metadata)]).

Fixpoint scan_files (paths : list ChunkPath) (entries : list CacheEntry) : K (list CacheEntry) :=
  match paths with
  | [] => mret entries
  | path :: paths => entries ← scan_file path entries; scan_files paths entries
  end.

Definition files_of (directory : bytes) (d : Disk) : list ChunkPath :=
  List.filter (λ p, bool_decide (p.1 = directory)) (map_to_list (dk_files d)).*1.

Fixpoint scan_directories (directories : list bytes) (entries : list CacheEntry) : K (list CacheEntry) :=
  match directories with
  | [] => mret entries
  | directory :: directories =>
      private ← io "inspect read cache entry"
        (sys (λ d, (some_or (dk_directories d !! directory) (os_error libc.ENOENT), d)));
      if negb private then sthrow (session_error libc.EACCES "read cache identity directory is not private")
      else
        paths ← io "scan read cache identity" (sys (λ d, (inr (files_of directory d), d)));
        entries ← scan_files paths entries;
        scan_directories directories entries
  end.

Definition entries : K (list CacheEntry) :=
  directories ← io "scan read cache" (sys (λ d, (inr (map_to_list (dk_directories d)).*1, d)));
  scan_directories directories [].

Definition refresh_usage_from_disk : K unit :=
  l ← entries;
  smodify (set_snapshot (set_current_bytes (foldl (λ sum e, saturating_add u64_max sum (ce_bytes e)) 0 l))).

(** [lock_storage], the part of it that can fail. *)
Definition lock_storage : K unit := io "lock read cache storage" (sys (λ d, (inr (), d))).

Definition modified_le (a b : CacheEntry) : Prop := ce_modified a ≤ ce_modified b.
#[export] Instance modified_le_dec : RelDecision modified_le.
Proof. intros a b. unfold modified_le. apply _. Defined.

(** Files are removed, the oldest first, until the new bytes fit. *)
Fixpoint evict (l : list CacheEntry) (current incoming max_bytes removed evictions : Z) : K (Z * Z) :=
  match l with
  | [] => mret (removed, evictions)
  | e :: l =>
      if saturating_add u64_max (saturating_sub current removed) incoming <=? max_bytes then mret (removed, evictions)
      else
        r ← sattempt (remove_file (ce_path e));
        match r with
        | inr _ => evict l current incoming max_bytes (count removed (ce_bytes e)) (count evictions 1)
        | inl _ => evict l current incoming max_bytes removed evictions
        end
  end.

Definition evict_for (incoming : Z) : K unit :=
  current ← sgets (λ c, sn_current_bytes (rc_snapshot c));
  max_bytes ← sgets rc_max_bytes;
  if saturating_add u64_max current incoming <=? max_bytes then mret ()
  else
    l ← entries;
    r ← evict (merge_sort modified_le l) current incoming max_bytes 0 0;
    let '(removed, evictions) := r : Z * Z in
    _ ← smodify (set_snapshot (set_current_bytes (saturating_sub current removed)));
    _ ← note_evictions evictions;
    if max_bytes <? saturating_add u64_max (saturating_sub current removed) incoming
    then sthrow (session_error libc.ENOSPC "read cache quota cannot admit chunk")
    else mret ().

Definition reconcile_usage : K unit :=
  _ ← lock_storage;
  _ ← refresh_usage_from_disk;
  evict_for 0.

(** ** Chunks *)

Definition discard_unusable_chunk (path : ChunkPath) (observed : CacheFile) : K unit :=
  current ← sattempt (symlink_metadata path);
  _ ← match current with
      | inr f => if cf_inode f =? cf_inode observed then _ ← sattempt (remove_file path); mret () else mret ()
      | inl _ => mret ()
      end;
  _ ← sattempt reconcile_usage;
  mret ().

Definition unusable (path : ChunkPath) (observed : CacheFile) : K (option bytes) :=
  _ ← discard_unusable_chunk path observed;
  _ ← note_read_error;
  mret None.

Definition load_chunk (key : ChunkKey) (expected start take : Z) : K (option bytes) :=
  let path := chunk_path key in
  metadata ← sattempt (symlink_metadata path);
  match metadata with
  | inl e => if errno e =? libc.ENOENT then mret None else _ ← note_read_error; mret None
  | inr metadata =>
      if negb (cf_regular metadata) || negb (cf_private metadata) || negb (vlen (cf_data metadata) =? expected)
      then unusable path metadata
      else
        file ← sattempt (open_chunk path);
        match file with
        | inl _ => unusable path metadata
        | inr file =>
            data ← sattempt (read_exact_at file start take);
            match data with
            | inl _ => unusable path metadata
            | inr data => _ ← sattempt (touch path); mret (Some data)
            end
        end
  end.

Definition ensure_private_directory (present : Disk → option bool) (make : Disk → Disk) : K unit :=
  r ← sattempt (sys (λ d, (some_or (present d) (os_error libc.ENOENT), d)));
  match r with
  | inr private =>
      if negb private then sthrow (session_error libc.EACCES "read cache directory is not private") else mret ()
  | inl e =>
      if errno e =? libc.ENOENT then
        _ ← io "create read cache directory" (sys (λ d, (inr (), make d)));
        io "secure read cache directory" (sys (λ d, (inr (), d)))
      else sthrow (SessionError_mk (errno e) (bstr "inspect read cache directory: " ++ se_message e))
  end.

(** [.tmp-{process}-{sequence}] *)
Definition temporary_name (sequence : Z) : bytes := bstr ".tmp-" ++ dec process_id ++ dash ++ dec sequence.

Definition store_chunk (key : ChunkKey) (data : bytes) : K unit :=
  max_bytes ← sgets rc_max_bytes;
  if max_bytes <? vlen data then mret ()
  else
    _ ← lock_storage;
    _ ← refresh_usage_from_disk;
    let destination := chunk_path key in
    present ← sattempt (symlink_metadata destination);
    if (match present with inr f => cf_regular f | inl _ => false end : bool) then mret ()
    else
      _ ← evict_for (vlen data);
      _ ← ensure_private_directory (λ d, dk_directories d !! destination.1) (set_directory destination.1);
      sequence ← sgets rc_sequence;
      _ ← smodify (λ c, ReadCache_mk (rc_max_bytes c) (rc_chunk_bytes c) (rc_in_flight c) (rc_snapshot c)
                          (rc_sequence c + 1) (rc_disk c));
      let temporary := (destination.1, temporary_name sequence) in
      _ ← io "create read cache chunk" (create_new temporary);
      result ← sattempt (_ ← write_all temporary data; _ ← sync_data; rename temporary destination);
      match result with
      | inl e =>
          _ ← sattempt (remove_file temporary);
          sthrow (SessionError_mk (errno e) (bstr "publish read cache chunk: " ++ se_message e))
      | inr _ =>
          smodify (set_snapshot (λ s, set_current_bytes (count (sn_current_bytes s) (vlen data)) s))
      end.

(** ** Opening *)

Definition volume_binding (identity : bytes) (chunk_bytes : Z) : bytes :=
  bstr "r9p persistent read cache" ++ [x00] ++ le_bytes 4 chunk_bytes ++ le_bytes 8 (vlen identity) ++ identity.

Definition bind_volume (identity : bytes) : K unit :=
  r ← sattempt (sys (λ d, (some_or (dk_volume d) (os_error libc.ENOENT), d)));
  match r with
  | inr metadata =>
      if negb (cf_regular metadata) || negb (cf_private metadata)
      then sthrow (session_error libc.EACCES "read cache volume file is not private")
      else
        existing ← io "open read cache volume"
          (sys (λ d, (some_or (cf_data <$> dk_volume d) (os_error libc.ENOENT), d)));
        _ ← io "read cache volume" (sys (λ d, (inr (), d)));
        if bool_decide (existing = identity) then mret ()
        else sthrow (session_error libc.EINVAL "read cache volume identity mismatch")
  | inl e =>
      if errno e =? libc.ENOENT then
        _ ← io "create read cache volume"
          (sys (λ d, match dk_volume d with
                     | Some _ => (inl (os_error libc.EEXIST), d)
                     | None => (inr (), set_volume (CacheFile_mk true true [] (dk_clock d) (dk_clock d)) d)
                     end));
        io "write read cache volume"
          (_ ← sys (λ d, (inr (), set_volume (CacheFile_mk true true identity (dk_clock d) (dk_clock d)) d));
           sys (λ d, (inr (), d)))
      else sthrow (SessionError_mk (errno e) (bstr "inspect read cache volume: " ++ se_message e))
  end.

Definition no_usage : CacheSnapshot := CacheSnapshot_mk 0 0 0 0 0 0 0 0.

(** [root_is_absolute] is [root.is_absolute()]. *)
Definition open_with_chunk_bytes (root_is_absolute : bool) (max_bytes : Z) (volume_identity : bytes) (chunk_bytes : Z)
    (d : Disk) : SResult ReadCache * Disk :=
  if negb root_is_absolute || (max_bytes <? chunk_bytes) ||
     (Z.min u64_max (chunk_bytes * MAX_CACHE_CHUNKS) <? max_bytes) || (chunk_bytes =? 0)
  then (inl (session_error libc.EINVAL "read cache configuration invalid"), d)
  else
    let '(r, c) :=
      (_ ← ensure_private_directory dk_root set_root;
       lock ← io "open read cache lock"
         (sys (λ d, match dk_lock d with Some private => (inr private, d) | None => (inr true, set_disk_lock d) end));
       _ ← io "inspect read cache lock" (sys (λ d, (inr (), d)));
       if negb lock then sthrow (session_error libc.EACCES "read cache lock is not private")
       else
         _ ← lock_storage;
         _ ← bind_volume (volume_binding volume_identity chunk_bytes);
         _ ← ensure_private_directory dk_chunks set_chunks;
         reconcile_usage) (ReadCache_mk max_bytes chunk_bytes ∅ no_usage 1 d) in
    (match r with inl e => inl e | inr _ => inr c end, rc_disk c).

(** ** Reading *)

Section reading.
Context {X : Type} (fetch : Z → Z → S_ X bytes).

Abbreviation R := (S_ (ReadCache * X)).

Definition on_cache {A} (m : K A) : R A := λ '(c, x), let '(r, c) := m c in (r, (c, x)).
Definition on_source {A} (m : S_ X A) : R A := λ '(c, x), let '(r, x) := m x in (r, (c, x)).

Definition fetch_chunk (key : ChunkKey) (expected start take : Z) : R bytes :=
  chunk_bytes ← on_cache (sgets rc_chunk_bytes);
  data ← on_source (fetch (ck_index key * chunk_bytes) expected);
  if negb (vlen data =? expected) then sthrow (session_error libc.EIO "read cache source range incomplete")
  else
    stored ← sattempt (on_cache (store_chunk key data));
    _ ← match stored with inl _ => on_cache note_write_error | inr _ => mret () end;
    finish ← slift (some_or (checked_add usize_max start take)
                      (session_error libc.EOVERFLOW "read cache slice overflow"));
    if finish <=? vlen data then mret (ztake take (zdrop start data))
    else sthrow (session_error libc.EIO "read cache chunk incomplete").

(** The key is never in flight when one thread reads. *)
Definition chunk (key : ChunkKey) (expected start take : Z) : R bytes :=
  loaded ← on_cache (load_chunk key expected start take);
  match loaded with
  | Some data => _ ← on_cache (note_hit (vlen data)); mret data
  | None =>
      _ ← on_cache note_miss;
      _ ← on_cache (smodify (λ c, set_in_flight ({[key]} ∪ rc_in_flight c) c));
      fetched ← sattempt (fetch_chunk key expected start take);
      _ ← on_cache (smodify (λ c, set_in_flight (rc_in_flight c ∖ {[key]}) c));
      _ ← match fetched with inr _ => on_cache (note_fetched expected) | inl _ => mret () end;
      slift fetched
  end.

(** One turn of the loop of [read]. *)
Definition read_turn (identity : CacheIdentity) (finish : Z) (st : Z * bytes * (ReadCache * X)) :
    (Z * bytes * (ReadCache * X)) + (SResult bytes * (ReadCache * X)) :=
  let '(position, output, s) := st in
  if finish <=? position then inr (inr output, s)
  else
    let chunk_bytes := rc_chunk_bytes s.1 in
    let index := position `div` chunk_bytes in
    let chunk_start := index * chunk_bytes in
    match try_from u32_max (Z.min chunk_bytes (saturating_sub (ci_length identity) chunk_start)) with
    | None => inr (inl (session_error libc.EOVERFLOW "read cache chunk overflow"), s)
    | Some expected =>
        let start := position - chunk_start in
        let available := saturating_sub expected (position - chunk_start) in
        let take := Z.min (finish - position) available in
        match chunk (ChunkKey_mk identity index) expected start take s with
        | (inl e, s) => inr (inl e, s)
        | (inr data, s) => inl (saturating_add u64_max position take, output ++ data, s)
        end
    end.

(** Every turn moves the 64-bit position ([read_turns_end]). *)
Definition read (identity : CacheIdentity) (offset count : Z) : R bytes := λ s,
  match checked_add u64_max offset count with
  | None => (inl (session_error libc.EOVERFLOW "read cache request overflow"), s)
  | Some finish =>
      let finish := Z.min finish (ci_length identity) in
      match loop 64 (read_turn identity finish) (Z.min offset finish, [], s) with
      | inl (_, _, s) => (inl (session_error libc.EIO "unreachable"), s)
      | inr result => result
      end
  end.

End reading.
End cache.
