(* ===== verification/ReadCacheProps.v ===== *)
(** The read cache of the FUSE bridge returns the file: what it reads through a disk
    whose calls may fail is what the server holds. *)
From S2P Require Import Prelude Errors Qid Stat Referral NamespaceCache Text SessionErrors ReadCache.

(** ** Names *)

Lemma length_hex n z : length (hex n z) = n.
Proof. revert z. induction n as [|n IH]; intros z; [done|]. cbn [hex]. rewrite length_app, IH. simpl. lia. Qed.

Lemma hex_digit_inj a b : 0 ≤ a < 16 → 0 ≤ b < 16 → hex_digit a = hex_digit b → a = b.
Proof.
  intros Ha Hb E. apply (f_equal byte_to_Z) in E. unfold hex_digit in E.
  rewrite !byte_to_of_Z in E. destruct (Z.ltb_spec a 10), (Z.ltb_spec b 10); rewrite !Z.mod_small in E by lia; lia.
Qed.

Lemma hex_inj n a b : 0 ≤ a < 16 ^ Z.of_nat n → 0 ≤ b < 16 ^ Z.of_nat n → hex n a = hex n b → a = b.
Proof.
  revert a b. induction n as [|n IH]; intros a b Ha Hb E; [simpl in *; lia|]. cbn [hex] in E.
  apply app_inj_2 in E as [E1 E2]; [|done]. injection E2 as E2.
  rewrite Nat2Z.inj_succ, Z.pow_succ_r in Ha, Hb by lia.
  apply hex_digit_inj in E2; [|apply Z.mod_pos_bound; lia|apply Z.mod_pos_bound; lia].
  apply IH in E1; [|split; [apply Z.div_pos; lia|apply Z.div_lt_upper_bound; lia]..].
  rewrite (Z.div_mod a 16), (Z.div_mod b 16) by lia. congruence.
Qed.

(** The fields of an identity have the widths of a stat's. *)
Definition valid_identity (i : CacheIdentity) : Prop :=
  0 ≤ ci_qtype i ≤ u8_max ∧ 0 ≤ ci_qid_path i ≤ u64_max ∧ 0 ≤ ci_qid_version i ≤ u32_max ∧ 0 ≤ ci_length i ≤ u64_max ∧
  0 ≤ ci_mtime i ≤ u32_max.

Lemma directory_name_inj i j : valid_identity i → valid_identity j → directory_name i = directory_name j → i = j.
Proof.
  intros (H1 & H2 & H3 & H4 & H5) (G1 & G2 & G3 & G4 & G5). unfold directory_name. intros E.
  apply app_inv_head in E.
  apply app_inj_1 in E as [E1 E]; [|by rewrite !length_hex]. apply app_inv_head in E.
  apply app_inj_1 in E as [E2 E]; [|by rewrite !length_hex]. apply app_inv_head in E.
  apply app_inj_1 in E as [E3 E]; [|by rewrite !length_hex]. apply app_inv_head in E.
  apply app_inj_1 in E as [E4 E]; [|by rewrite !length_hex]. apply app_inv_head in E.
  unfold u8_max, u32_max, u64_max in *.
  apply hex_inj in E1, E2, E3, E4, E; try (change (Z.of_nat 2) with 2; change (Z.of_nat 16) with 16; change (Z.of_nat 8) with 8; lia).
  destruct i, j. simpl in *. congruence.
Qed.

Lemma chunk_path_inj k k' : valid_identity (ck_identity k) → valid_identity (ck_identity k') →
  0 ≤ ck_index k ≤ u64_max → 0 ≤ ck_index k' ≤ u64_max → chunk_path k = chunk_path k' → k = k'.
Proof.
  intros H1 H2 H3 H4 E. unfold chunk_path in E. apply pair_equal_spec in E as [E1 E2].
  apply directory_name_inj in E1; [|done|done]. apply app_inv_tail in E2. unfold u64_max in *.
  apply hex_inj in E2; [|change (Z.of_nat 16) with 16; lia..]. destruct k, k'. simpl in *. congruence.
Qed.

Lemma head_hex n z : ∃ d l, 0 ≤ d < 16 ∧ hex (S n) z = hex_digit d :: l.
Proof.
  revert z. induction n as [|n IH]; intros z.
  - exists (z `mod` 16), []. split; [apply Z.mod_pos_bound; lia|done].
  - destruct (IH (z `div` 16)) as (d & l & Hd & E). exists d, (l ++ [hex_digit (z `mod` 16)]). split; [done|].
    change (hex (S (S n)) z) with (hex (S n) (z `div` 16) ++ [hex_digit (z `mod` 16)]). by rewrite E.
Qed.

(** A chunk is not taken for a temporary file. *)
Lemma chunk_not_temporary k : is_temporary (chunk_path k).2 = false.
Proof.
  unfold is_temporary, chunk_path. cbn [snd]. destruct (head_hex 15 (ck_index k)) as (d & l & Hd & ->).
  change (bstr ".tmp-") with ("."%byte :: bstr "tmp-"). cbn [starts_with strip_prefix app].
  unfold starts_with. cbn [strip_prefix app]. rewrite decide_False; [done|]. intros E. apply (f_equal byte_to_Z) in E.
  unfold hex_digit in E. rewrite byte_to_of_Z in E. change (byte_to_Z ".") with 46 in E.
  destruct (Z.ltb_spec d 10); rewrite Z.mod_small in E by lia; lia.
Qed.

(** ** The disk *)

(** Files that are not temporary are kept as they are, or removed. *)
Definition milder (d d' : Disk) : Prop := ∀ p f', dk_files d' !! p = Some f' → is_temporary p.2 = true ∨
  ∃ f, dk_files d !! p = Some f ∧ cf_regular f = cf_regular f' ∧ cf_private f = cf_private f' ∧ cf_data f = cf_data f'.

#[export] Instance milder_preorder : PreOrder milder.
Proof.
  split; [intros d p f Hf; right; by exists f|]. intros d d' d'' H1 H2 p f'' Hf''.
  destruct (H2 p f'' Hf'') as [?|(f' & Hf' & E1 & E2 & E3)]; [by left|].
  destruct (H1 p f' Hf') as [?|(f & Hf & G1 & G2 & G3)]; [by left|]. right. exists f. split_and!; congruence.
Qed.

(** Code that is mild to the disk, and keeps the sizes of the cache. *)
Definition mild_to (c c' : ReadCache) : Prop :=
  milder (rc_disk c) (rc_disk c') ∧ rc_chunk_bytes c' = rc_chunk_bytes c.

#[export] Instance mild_to_preorder : PreOrder mild_to.
Proof.
  split; [by intros c|]. intros c c' c'' [H1 E1] [H2 E2]. split; [by transitivity (rc_disk c')|congruence].
Qed.

Section mild.
Context {os : OsText}.

Abbreviation K := (S_ ReadCache).

Definition mild {A} (m : K A) : Prop := ∀ c, mild_to c (m c).2.

Lemma mild_ret {A} (a : A) : mild (mret a).
Proof. by intros c. Qed.
Lemma mild_throw {A} e : mild (sthrow e : K A).
Proof. by intros c. Qed.
Lemma mild_gets {A} (f : ReadCache → A) : mild (sgets f).
Proof. by intros c. Qed.
Lemma mild_bind {A B} (m : K A) (k : A → K B) : mild m → (∀ a, mild (k a)) → mild (m ≫= k).
Proof.
  intros Hm Hk c. specialize (Hm c). unfold mbind, S_bind. destruct (m c) as [[e|a] c1]; simpl in *; [done|].
  etransitivity; [exact Hm|apply Hk].
Qed.
Lemma mild_attempt {A} (m : K A) : mild m → mild (sattempt m).
Proof. intros Hm c. specialize (Hm c). unfold sattempt. by destruct (m c). Qed.
Lemma mild_io {A} context (m : K A) : mild m → mild (io context m).
Proof. intros Hm c. specialize (Hm c). unfold io. by destruct (m c) as [[]]. Qed.
Lemma mild_snapshot f : mild (smodify (set_snapshot f) : K unit).
Proof. by intros c. Qed.
Lemma mild_in_flight f : mild (smodify (λ c, set_in_flight (f c) c) : K unit).
Proof. by intros c. Qed.
Lemma mild_sys {A} (f : Disk → SResult A * Disk) : (∀ d, milder d (f d).2) → mild (sys f).
Proof.
  intros Hf c. unfold sys. destruct (dk_faults (rc_disk c)) as [|[e|] faults].
  - specialize (Hf (set_faults (tail []) (rc_disk c))). by destruct (f _).
  - split; [|done]. intros p g Hg. right. by exists g.
  - specialize (Hf (set_faults (tail (None :: faults)) (rc_disk c))). by destruct (f _).
Qed.

(** A call of the operating system fails, or does what it does. *)
Lemma sys_cases {A} (f : Disk → SResult A * Disk) c : ∃ faults,
  (∃ e, sys f c = (inl (os_error e), set_disk (set_faults faults (rc_disk c)) c)) ∨
  sys f c = (let '(r, d) := f (set_faults faults (rc_disk c)) in (r, set_disk d c)).
Proof.
  unfold sys. destruct (dk_faults (rc_disk c)) as [|[e|] faults]; [exists []; by right|exists faults; left; by exists e|].
  exists faults. by right.
Qed.

Lemma mild_query {A} (f : Disk → SResult A) : mild (sys (λ d, (f d, d))).
Proof. apply mild_sys. by intros d. Qed.

Lemma milder_same d d' : dk_files d' = dk_files d → milder d d'.
Proof. intros E p f Hf. rewrite E in Hf. right. by exists f. Qed.

Lemma milder_delete d path : milder d (set_files (delete path) d).
Proof. intros p f Hf. simpl in Hf. apply lookup_delete_Some in Hf as [_ Hf]. right. by exists f. Qed.

(** A change of the file at [path] that is temporary, or keeps its data. *)
Lemma milder_alter d path (g : CacheFile → CacheFile) :
  is_temporary path.2 = true ∨ (∀ f, cf_regular (g f) = cf_regular f ∧ cf_private (g f) = cf_private f ∧ cf_data (g f) = cf_data f) →
  milder d (set_files (alter g path) d).
Proof.
  intros H p f Hf. simpl in Hf. apply lookup_alter_Some in Hf as [(<- & f0 & Hf0 & ->)|[_ Hf]]; [|right; by exists f].
  destruct H as [H|H]; [by left|]. right. exists f0. destruct (H f0) as (? & ? & ?). done.
Qed.

Lemma mild_symlink_metadata path : mild (symlink_metadata path).
Proof. apply mild_query. Qed.
Lemma mild_open_chunk path : mild (open_chunk path).
Proof. apply mild_query. Qed.
Lemma mild_read_exact_at data start take : mild (read_exact_at data start take).
Proof. unfold read_exact_at. apply mild_sys. by intros d. Qed.
Lemma mild_touch path : mild (touch path).
Proof. apply mild_sys. intros d. apply milder_alter. right. by intros f. Qed.
Lemma mild_remove_file path : mild (remove_file path).
Proof. apply mild_sys. intros d. case_match; [apply milder_delete|done]. Qed.
Lemma mild_create_new path : is_temporary path.2 = true → mild (create_new path).
Proof.
  intros Ht. apply mild_sys. intros d. case_match; [done|].
  intros p f Hf. simpl in Hf. apply lookup_insert_Some in Hf as [[<- _]|[_ Hf]]; [by left|right; by exists f].
Qed.
Lemma mild_write_all path data : is_temporary path.2 = true → mild (write_all path data).
Proof. intros Ht. apply mild_sys. intros d. apply milder_alter. by left. Qed.
Lemma mild_sync : mild sync_data.
Proof. apply mild_query. Qed.

Create HintDb mild discriminated.
Hint Constants Opaque : mild.
Hint Resolve mild_ret mild_throw mild_gets mild_snapshot mild_in_flight mild_symlink_metadata mild_open_chunk
  mild_read_exact_at mild_touch mild_remove_file mild_sync mild_query : mild.

Ltac mild :=
  repeat first
    [ progress intros
    | solve [auto with mild nocore]
    | apply mild_bind | apply mild_attempt | apply mild_io
    | case_match ].

Lemma mild_notes n : mild (note_hit n) ∧ mild note_miss ∧ mild (note_fetched n) ∧ mild (note_evictions n) ∧
  mild note_read_error ∧ mild note_write_error.
Proof. split_and!; apply mild_snapshot. Qed.
Lemma mild_scan_file path entries : mild (scan_file path entries).
Proof. unfold scan_file. mild. Qed.
Hint Resolve mild_scan_file : mild.
Lemma mild_scan_files paths entries : mild (scan_files paths entries).
Proof. revert entries. induction paths as [|p paths IH]; intros entries; cbn [scan_files]; mild. Qed.
Hint Resolve mild_scan_files : mild.
Lemma mild_scan_directories directories entries : mild (scan_directories directories entries).
Proof.
  revert entries. induction directories as [|p directories IH]; intros entries; cbn [scan_directories]; mild.
Qed.
Hint Resolve mild_scan_directories : mild.
Lemma mild_entries : mild entries.
Proof. unfold entries. mild. Qed.
Hint Resolve mild_entries : mild.
Lemma mild_refresh : mild refresh_usage_from_disk.
Proof. unfold refresh_usage_from_disk. mild. Qed.
Lemma mild_lock : mild lock_storage.
Proof. unfold lock_storage. mild. Qed.
Hint Resolve mild_refresh mild_lock : mild.
Lemma mild_evict l current incoming max_bytes removed evictions : mild (evict l current incoming max_bytes removed evictions).
Proof. revert removed evictions. induction l as [|e l IH]; intros removed evictions; cbn [evict]; mild. Qed.
Hint Resolve mild_evict : mild.
Lemma mild_evict_for incoming : mild (evict_for incoming).
Proof. unfold evict_for, note_evictions. mild. Qed.
Hint Resolve mild_evict_for : mild.
Lemma mild_reconcile : mild reconcile_usage.
Proof. unfold reconcile_usage. mild. Qed.
Hint Resolve mild_reconcile : mild.
Lemma mild_unusable path observed : mild (unusable path observed).
Proof. unfold unusable, discard_unusable_chunk, note_read_error. mild. Qed.
Hint Resolve mild_unusable : mild.
Lemma mild_load key expected start take : mild (load_chunk key expected start take).
Proof. unfold load_chunk, note_read_error. mild. Qed.
Lemma mild_directory present make : (∀ d, dk_files (make d) = dk_files d) → mild (ensure_private_directory present make).
Proof.
  intros Hm. unfold ensure_private_directory. mild.
  apply mild_sys. intros d. apply milder_same, Hm.
Qed.

(** ** What is cached *)

Context (content : CacheIdentity → bytes) (chunk_bytes : Z).

Definition chunk_length (k : ChunkKey) : Z :=
  Z.min chunk_bytes (saturating_sub (ci_length (ck_identity k)) (ck_index k * chunk_bytes)).
Definition chunk_content (k : ChunkKey) : bytes :=
  ztake (chunk_length k) (zdrop (ck_index k * chunk_bytes) (content (ck_identity k))).

Definition valid_key (k : ChunkKey) : Prop := valid_identity (ck_identity k) ∧ 0 ≤ ck_index k ≤ u64_max.

(** The files that can be taken for a chunk hold it.  [load_chunk] does not check this:
    it looks at the type, the owner and the length of the file. *)
Definition honest (c : ReadCache) : Prop := rc_chunk_bytes c = chunk_bytes ∧
  ∀ k f, valid_key k → dk_files (rc_disk c) !! chunk_path k = Some f → cf_regular f = true → cf_private f = true →
    vlen (cf_data f) = chunk_length k → cf_data f = chunk_content k.

(** A directory without chunks is honest. *)
Lemma empty_honest c : rc_chunk_bytes c = chunk_bytes → dk_files (rc_disk c) = ∅ → honest c.
Proof. intros Hc Hd. split; [done|]. intros k f _ E. by rewrite Hd in E. Qed.

Lemma mild_honest c c' : mild_to c c' → honest c → honest c'.
Proof.
  intros [Hm E] [Hc H]. split; [congruence|]. intros k f' Hk Hf'. destruct (Hm _ _ Hf') as [Ht|(f & Hf & E1 & E2 & E3)].
  - by rewrite chunk_not_temporary in Ht.
  - rewrite <-E1, <-E2, <-E3. by apply H.
Qed.

Definition keeps_honest {A} (m : K A) : Prop := ∀ c, honest c → honest (m c).2.

Lemma honest_mild {A} (m : K A) : mild m → keeps_honest m.
Proof. intros Hm c. apply mild_honest, Hm. Qed.
Lemma honest_bind {A B} (m : K A) (k : A → K B) : keeps_honest m → (∀ a, keeps_honest (k a)) → keeps_honest (m ≫= k).
Proof.
  intros Hm Hk c Hc. specialize (Hm c Hc). unfold mbind, S_bind. destruct (m c) as [[e|a] c1]; simpl in *; [done|].
  by apply Hk.
Qed.

Lemma honest_attempt {A B} (m : K A) (k : SResult A → K B) c :
  honest (m c).2 → (∀ r, keeps_honest (k r)) → honest ((sattempt m ≫= k) c).2.
Proof. intros Hm Hk. unfold mbind, S_bind, sattempt. destruct (m c) as [r c1]. by apply Hk. Qed.

(** The chunk [k] is put in its place. *)
Lemma publish_honest k data temporary c f : valid_key k → data = chunk_content k → is_temporary temporary.2 = true →
  dk_files (rc_disk c) !! temporary = Some f → honest c →
  honest ((_ ← write_all temporary data; _ ← sync_data; rename temporary (chunk_path k)) c).2.
Proof.
  intros Hk Hd Ht Hf Hc. pose proof (mild_write_all temporary data Ht c) as Hw. unfold mbind, S_bind.
  unfold write_all in Hw |- *.
  match type of Hw with mild_to _ (sys ?f ?c).2 => destruct (sys_cases f c) as (faults & [[e E] | E]) end;
    rewrite E in Hw |- *; simpl in Hw |- *; [by eapply mild_honest|].
  set (c1 := set_disk _ c) in *. apply (mild_honest _ _ Hw) in Hc.
  assert (Hf1 : ∃ f1, dk_files (rc_disk c1) !! temporary = Some f1 ∧ cf_data f1 = data).
  { subst c1. simpl. rewrite lookup_alter_eq, Hf. simpl. eexists. split; [reflexivity|done]. }
  clearbody c1. pose proof (mild_sync c1) as Hs. unfold sync_data in Hs |- *.
  match type of Hs with mild_to _ (sys ?f ?c).2 => destruct (sys_cases f c) as (faults2 & [[e2 E2] | E2]) end;
    rewrite E2 in Hs |- *; simpl in Hs |- *; [by eapply mild_honest|].
  apply (mild_honest _ _ Hs) in Hc. destruct Hf1 as (f1 & Hf1 & Ed). unfold rename.
  match goal with |- context [sys ?f ?c] => destruct (sys_cases f c) as (faults3 & [[e3 ->] | -> ]) end; simpl.
  { eapply mild_honest; [|exact Hc]. split; [|done]. by apply milder_same. }
  rewrite Hf1. simpl. destruct Hc as [Hc H]. split; [done|]. simpl. intros k' f' Hk' Hf'.
  apply lookup_insert_Some in Hf' as [[Hp <-]|[_ Hf']].
  - apply chunk_path_inj in Hp; [|apply Hk|apply Hk'|apply Hk|apply Hk']. subst k'. intros _ _ _. congruence.
  - apply lookup_delete_Some in Hf' as [_ Hf']. by apply H.
Qed.

Lemma temporary_is sequence : is_temporary (temporary_name sequence) = true.
Proof. reflexivity. Qed.

Lemma honest_store k data : valid_key k → data = chunk_content k → keeps_honest (store_chunk k data).
Proof.
  intros Hk Hd. unfold store_chunk. apply honest_bind; [by apply honest_mild|]. intros max_bytes.
  destruct (_ <? _); [by apply honest_mild|].
  do 3 (apply honest_bind; [apply honest_mild; mild|intros ?]). destruct (match _ with inr _ => _ | inl _ => _ end); [by apply honest_mild|].
  apply honest_bind; [apply honest_mild; mild|intros _].
  apply honest_bind; [by apply honest_mild, mild_directory|intros _].
  apply honest_bind; [by apply honest_mild|intros sequence].
  apply honest_bind; [intros c Hc; exact Hc|intros _].
  set (temporary := ((chunk_path k).1, temporary_name sequence)).
  assert (Ht : is_temporary temporary.2 = true) by apply temporary_is. clearbody temporary.
  intros c Hc. unfold mbind at 1, S_bind, io.
  pose proof (mild_create_new temporary Ht c) as Hm. unfold create_new in Hm |- *.
  match type of Hm with mild_to _ (sys ?f ?c).2 => destruct (sys_cases f c) as (faults & [[e E] | E]) end;
    rewrite E in Hm |- *; simpl in Hm |- *; [by eapply mild_honest|].
  destruct (dk_files (rc_disk c) !! temporary) eqn:Ef; simpl in Hm |- *; [by eapply mild_honest|].
  apply (mild_honest _ _ Hm) in Hc. set (c1 := set_disk _ c) in *.
  assert (Hf : ∃ f, dk_files (rc_disk c1) !! temporary = Some f).
  { subst c1. simpl. rewrite lookup_insert_eq. by eexists. }
  clearbody c1. destruct Hf as [f Hf].
  apply honest_attempt; [by eapply publish_honest|]. intros r. apply honest_mild. mild.
Qed.

(** Loading a chunk does not fail: it is there, or it is not. *)
Lemma unusable_none path observed c : ∃ c', unusable path observed c = (inr None, c').
Proof.
  unfold unusable, discard_unusable_chunk, mbind, S_bind, sattempt, mret, S_ret.
  destruct (symlink_metadata path c) as [[e|f] c1]; [|destruct (_ =? _); [destruct (remove_file path c1) as [r c2]|]];
    destruct (reconcile_usage _); eexists; reflexivity.
Qed.

Ltac not_usable :=
  match goal with |- context [unusable ?p ?f ?c] => destruct (unusable_none p f c) as [? ->]; by eexists _, _ end.

Lemma load_exact k start take c : valid_key k → honest c → ∃ found c',
  load_chunk k (chunk_length k) start take c = (inr found, c') ∧
  match found with Some data => data = ztake take (zdrop start (chunk_content k)) | None => True end.
Proof.
  intros Hk [Hc H]. unfold load_chunk, symlink_metadata. unfold mbind at 1, S_bind at 1, sattempt at 1.
  match goal with |- context [sys ?f c] => destruct (sys_cases f c) as (faults & [[e ->] | -> ]) end.
  { destruct (_ =? _); by eexists _, _. }
  simpl. destruct (dk_files (rc_disk c) !! chunk_path k) as [f|] eqn:Ef; simpl; [|by eexists _, _].
  destruct (cf_regular f) eqn:Er, (cf_private f) eqn:Ep; simpl; try not_usable.
  destruct (Z.eqb_spec (vlen (cf_data f)) (chunk_length k)) as [El|_]; simpl;
    [|not_usable].
  unfold open_chunk. unfold mbind at 1, S_bind at 1, sattempt at 1.
  match goal with |- context [sys ?f ?c] => destruct (sys_cases f c) as (faults2 & [[e2 ->] | -> ]) end;
    [not_usable|].
  simpl. rewrite Ef. simpl. unfold read_exact_at. unfold mbind at 1, S_bind at 1, sattempt at 1.
  match goal with |- context [sys ?f ?c] => destruct (sys_cases f c) as (faults3 & [[e3 ->] | -> ]) end;
    [not_usable|].
  destruct (start + take <=? _);
    [|not_usable].
  unfold mbind, S_bind, sattempt. destruct (touch _ _) as [r c3]. eexists _, _. split; [reflexivity|].
  by rewrite (H k f Hk Ef Er Ep El).
Qed.

(** ** Reading *)

Context {X : Type} (fetch : Z → Z → S_ X bytes) (i : CacheIdentity).
Hypothesis Hi : valid_identity i.
Hypothesis Hb : 0 < chunk_bytes ≤ u32_max.
Hypothesis Hlen : vlen (content i) = ci_length i.

(** What the server gives is the file. *)
Definition fetch_right : Prop := ∀ offset count x data x', fetch offset count x = (inr data, x') →
  vlen data = count → data = ztake count (zdrop offset (content i)).
(** The server answers, and in full. *)
Definition fetch_full : Prop := ∀ offset count x, 0 ≤ offset → offset + count ≤ ci_length i →
  ∃ data x', fetch offset count x = (inr data, x') ∧ vlen data = count.

Hypothesis Hf : fetch_right.

Definition key (index : Z) : ChunkKey := ChunkKey_mk i index.

Lemma valid_index index : 0 ≤ index → index * chunk_bytes < ci_length i → valid_key (key index).
Proof.
  intros H0 H1. split; [done|]. simpl. destruct Hi as (_ & _ & _ & ? & _). unfold u64_max in *. nia.
Qed.

Lemma chunk_length_eq index : index * chunk_bytes < ci_length i →
  chunk_length (key index) = Z.min chunk_bytes (ci_length i - index * chunk_bytes).
Proof. intros H. unfold chunk_length, saturating_sub, key. simpl. lia. Qed.

(** A result of reading: right, or the server failed. *)
Definition right_or_failed (expected : bytes) (r : SResult bytes) : Prop :=
  match r with inr data => data = expected | inl _ => ¬ fetch_full end.

Lemma fetch_chunk_exact index start take c x :
  0 ≤ index → index * chunk_bytes < ci_length i → 0 ≤ start → 0 ≤ take →
  start + take ≤ chunk_length (key index) → honest c →
  let '(r, (c', x')) := fetch_chunk fetch (key index) (chunk_length (key index)) start take (c, x) in
  honest c' ∧ right_or_failed (ztake take (zdrop start (chunk_content (key index)))) r.
Proof.
  intros H0 H1 Hs Ht Hst Hc. pose proof (chunk_length_eq index H1) as El. pose proof (valid_index index H0 H1) as Hk.
  unfold fetch_chunk, on_cache, on_source, mbind, S_bind, sgets. simpl.
  rewrite (proj1 Hc). change (ck_index (key index)) with index.
  destruct (fetch (index * chunk_bytes) (chunk_length (key index)) x) as [[e|data] x1] eqn:Ef.
  { split; [done|]. intros Hfull. destruct (Hfull (index * chunk_bytes) (chunk_length (key index)) x) as (d & x' & E & _);
      [lia|lia|]. congruence. }
  destruct (Z.eqb_spec (vlen data) (chunk_length (key index))) as [Ev|Ev]; simpl.
  2: { split; [done|]. intros Hfull. destruct (Hfull (index * chunk_bytes) (chunk_length (key index)) x) as (d & x' & E & Ed);
      [lia|lia|]. congruence. }
  pose proof (Hf _ _ _ _ _ Ef Ev) as Hd. pose proof (honest_store (key index) data Hk Hd c Hc) as Hs1. unfold sattempt.
  destruct (store_chunk (key index) data c) as [r c1]. simpl in Hs1.
  assert (Ec : checked_add usize_max start take = Some (start + take)).
  { unfold checked_add. destruct (Z.leb_spec (start + take) usize_max); [done|]. unfold usize_max, u64_max, u32_max in *. lia. }
  assert (Ed : (start + take <=? vlen data) = true) by (apply Z.leb_le; lia).
  assert (Er : right_or_failed (ztake take (zdrop start (chunk_content (key index)))) (inr (ztake take (zdrop start data)))).
  { simpl. by rewrite Hd. }
  rewrite Ec. destruct r as [e|[]]; simpl; rewrite Ed; exact (conj Hs1 Er).
Qed.

Lemma chunk_exact index start take c x :
  0 ≤ index → index * chunk_bytes < ci_length i → 0 ≤ start → 0 ≤ take →
  start + take ≤ chunk_length (key index) → honest c →
  let '(r, (c', x')) := chunk fetch (key index) (chunk_length (key index)) start take (c, x) in
  honest c' ∧ right_or_failed (ztake take (zdrop start (chunk_content (key index)))) r.
Proof.
  intros H0 H1 Hs Ht Hst Hc. pose proof (valid_index index H0 H1) as Hk. unfold chunk.
  destruct (load_exact (key index) start take c Hk Hc) as (found & c1 & E & Hfound).
  pose proof (mild_honest _ _ (mild_load (key index) (chunk_length (key index)) start take c) Hc) as Hc1. rewrite E in Hc1.
  unfold mbind at 1, S_bind at 1, on_cache at 1. rewrite E. simpl in Hc1. destruct found as [data|].
  { simpl. split; [exact Hc1|exact Hfound]. }
  unfold note_miss, note_fetched, on_cache, mbind, S_bind, smodify, sattempt, slift. cbv beta iota zeta.
  match goal with |- context [fetch_chunk _ _ _ _ _ (?c2, x)] =>
    pose proof (fetch_chunk_exact index start take c2 x H0 H1 Hs Ht Hst Hc1) as Hx end.
  destruct (fetch_chunk _ _ _ _ _ _) as [[e|data] [c3 x3]]; exact Hx.
Qed.

(** The part of the file a read covers, up to [position]. *)
Definition read_so_far (start position : Z) : bytes := ztake (position - start) (zdrop start (content i)).

Lemma ztake_more n m (l : bytes) : 0 ≤ n → 0 ≤ m → ztake (n + m) l = ztake n l ++ ztake m (zdrop n l).
Proof.
  intros Hn Hm. unfold ztake, zdrop. rewrite Z2Nat.inj_add by lia. symmetry. apply take_take_drop.
Qed.

Lemma ztake_within n start m (l : bytes) : 0 ≤ start → 0 ≤ n → start + n ≤ m →
  ztake n (zdrop start (ztake m l)) = ztake n (zdrop start l).
Proof.
  intros Hs Hn Hm. unfold ztake, zdrop. rewrite skipn_firstn_comm, take_take. f_equal. lia.
Qed.

(** A turn of the loop reads on. *)
Lemma turn_exact start finish position output c x :
  0 ≤ start ≤ position → position ≤ finish ≤ ci_length i → honest c → output = read_so_far start position →
  match read_turn fetch i finish (position, output, (c, x)) with
  | inl (position', output', (c', _)) =>
      position < position' ≤ finish ∧ honest c' ∧ output' = read_so_far start position'
  | inr (r, (c', _)) => honest c' ∧ right_or_failed (read_so_far start finish) r
  end.
Proof.
  intros Hp Hfin Hc Ho. cbn [read_turn]. destruct (Z.leb_spec finish position) as [Hle|Hlt].
  { split; [done|]. replace finish with position by lia. exact Ho. }
  cbn [fst]. rewrite (proj1 Hc). set (index := position `div` chunk_bytes).
  assert (Hx : index * chunk_bytes ≤ position < (index + 1) * chunk_bytes).
  { subst index. rewrite (Z.mul_comm _ chunk_bytes), (Z.mul_comm (_ + 1)). split; [apply Z.mul_div_le; lia|].
    replace (position `div` chunk_bytes + 1) with (Z.succ (position `div` chunk_bytes)) by lia. apply Z.mul_succ_div_gt. lia. }
  assert (H0 : 0 ≤ index) by (apply Z.div_pos; lia).
  assert (H1 : index * chunk_bytes < ci_length i) by lia.
  change (Z.min chunk_bytes (saturating_sub (ci_length i) (index * chunk_bytes))) with (chunk_length (key index)).
  pose proof (chunk_length_eq index H1) as El.
  assert (Et : try_from u32_max (chunk_length (key index)) = Some (chunk_length (key index))).
  { unfold try_from. replace (0 <=? chunk_length (key index)) with true by (symmetry; apply Z.leb_le; lia).
    by replace (chunk_length (key index) <=? u32_max) with true by (symmetry; apply Z.leb_le; lia). }
  rewrite Et. set (take := Z.min _ _).
  assert (Ht : 1 ≤ take ∧ position + take ≤ finish ∧ position - index * chunk_bytes + take ≤ chunk_length (key index)).
  { subst take. unfold saturating_sub. lia. }
  pose proof (chunk_exact index (position - index * chunk_bytes) take c x H0 H1) as Hk.
  specialize (Hk ltac:(lia) ltac:(lia) ltac:(lia) Hc).
  destruct (chunk _ _ _ _ _ _) as [[e|data] [c' x']]; destruct Hk as [Hc' Hr].
  { split; [done|exact Hr]. }
  assert (Es : saturating_add u64_max position take = position + take).
  { unfold saturating_add. destruct Hi as (_ & _ & _ & ? & _). lia. }
  rewrite Es. split; [lia|]. split; [done|]. simpl in Hr. subst data output. unfold read_so_far, chunk_content.
  replace (position + take - start) with (position - start + take) by lia. rewrite ztake_more by lia. f_equal.
  change (ck_index (key index)) with index. change (ck_identity (key index)) with i.
  assert (0 ≤ index * chunk_bytes) by (apply Z.mul_nonneg_nonneg; lia).
  rewrite ztake_within by lia. rewrite !zdrop_zdrop by lia. do 2 f_equal. lia.
Qed.

(** The positions a loop of reads can be at. *)
Definition reading (start finish : Z) (st : Z * bytes * (ReadCache * X)) : Prop :=
  let '(position, output, (c, _)) := st in
  start ≤ position ≤ finish ∧ honest c ∧ output = read_so_far start position.

Lemma turn_reading start finish st st' : 0 ≤ start → finish ≤ ci_length i → reading start finish st →
  read_turn fetch i finish st = inl st' → reading start finish st' ∧ st.1.1 + 1 ≤ st'.1.1.
Proof.
  intros Hs Hfin. destruct st as [[position output] [c x]], st' as [[position' output'] [c' x']].
  intros (Hp & Hc & Ho) E. pose proof (turn_exact start finish position output c x) as H. rewrite E in H.
  specialize (H ltac:(lia) ltac:(lia) Hc Ho) as (H1 & H2 & H3). simpl. split; [split_and!; [lia|lia|done|done]|lia].
Qed.

(** Every turn moves the position, which has 64 bits: the loop ends. *)
Lemma read_turns_end start finish st : 0 ≤ start → finish ≤ ci_length i → reading start finish st →
  ∃ r c x, loop 64 (read_turn fetch i finish) st = inr (r, (c, x)) ∧ honest c ∧
    right_or_failed (read_so_far start finish) r.
Proof.
  intros Hs Hfin Hr.
  assert (keep : ∀ a a', reading start finish a → read_turn fetch i finish a = inl a' → reading start finish a').
  { intros a a' Ha E. by destruct (turn_reading start finish a a' Hs Hfin Ha E). }
  destruct (loop 64 (read_turn fetch i finish) st) as [st'|[r [c x]]] eqn:E.
  - exfalso. pose proof (loop_keeps _ _ keep _ _ _ Hr E) as Hr'.
    apply (loop_progress _ _ keep (λ a, a.1.1)) in E; [|intros a a' Ha Ea; by apply (turn_reading start finish a a' Hs Hfin Ha Ea)|done].
    destruct st as [[p o] [c x]], st' as [[p' o'] [c' x']]. simpl in *. destruct Hr as (? & _), Hr' as (? & _).
    destruct Hi as (_ & _ & _ & ? & _). unfold u64_max in *. lia.
  - exists r, c, x. split; [done|].
    apply (loop_exit _ _ (λ p, honest p.2.1 ∧ right_or_failed (read_so_far start finish) p.1) keep _ _ (r, (c, x)) ) in E; [done| |done].
    intros [[position output] [c0 x0]] [r1 [c1 x1]] (Hp & Hc & Ho) Et.
    pose proof (turn_exact start finish position output c0 x0) as H. rewrite Et in H. apply H; [lia|lia|done|done].
Qed.

Lemma read_window offset count :
  0 ≤ offset → 0 ≤ count → let finish := Z.min (offset + count) (ci_length i) in
  read_so_far (Z.min offset finish) finish = ztake count (zdrop offset (content i)).
Proof.
  intros Ho Hcount. cbv zeta. unfold read_so_far, ztake, zdrop. pose proof (vlen_nonneg (content i)) as H0.
  unfold vlen in *. destruct (Z.le_gt_cases (ci_length i) offset) as [Hle|Hgt].
  - rewrite (drop_ge (content i) (Z.to_nat offset)) by lia. rewrite drop_ge by lia. by rewrite !take_nil.
  - replace (Z.min offset (Z.min (offset + count) (ci_length i))) with offset by lia.
    destruct (Z.le_gt_cases (offset + count) (ci_length i)); [f_equal; lia|].
    rewrite !take_ge; [done|rewrite length_drop; lia|rewrite length_drop; lia].
Qed.

(** C14: A read through the persistent cache returns the bytes of the file, as long as
    the disk is honest: the regular private files of the right length under the names of
    chunks hold the chunks' bytes, which [load_chunk] does not check
    ([planted_chunk_is_served] is a read of one that does not).  Whatever fails on the
    local disk, and whichever chunks are there, are missing or were evicted, the result
    is then the server's bytes of that range, up to the end of the file; the read fails
    only if the server does not answer in full; and the disk is honest afterwards.  A
    directory without chunks is honest ([empty_honest]), so the chunks that reads have
    stored there are. *)
Theorem cached_read_exact offset count c x :
  0 ≤ offset → 0 ≤ count → offset + count ≤ u64_max → honest c →
  let '(r, (c', _)) := ReadCache.read fetch i offset count (c, x) in
  honest c' ∧ right_or_failed (ztake count (zdrop offset (content i))) r.
Proof using Hi Hb Hlen Hf.
  intros Ho Hn Hs Hc. unfold read, checked_add. destruct (Z.leb_spec (offset + count) u64_max); [|lia].
  rewrite <-(read_window offset count Ho Hn). cbv zeta. set (finish := Z.min (offset + count) (ci_length i)).
  assert (H0 : 0 ≤ ci_length i) by apply Hi.
  destruct (read_turns_end (Z.min offset finish) finish (Z.min offset finish, [], (c, x))) as (r & c' & x' & -> & H1 & H2);
    [lia|lia| |done].
  split; [lia|]. split; [done|]. unfold read_so_far. by rewrite Z.sub_diag.
Qed.

End mild.

(** ** A file of ten bytes, in chunks of four *)

Definition ten : bytes := bstr "0123456789".
Definition ten_identity : CacheIdentity := CacheIdentity_mk 0 7 1 10 0.
Definition ten_fetch (offset count : Z) : S_ unit bytes := λ x, (inr (ztake count (zdrop offset ten)), x).
(** The third call of the disk fails. *)
Definition ten_disk : Disk := Disk_mk (Some true) (Some true) (Some true) None ∅ ∅ [None; None; Some libc.EIO] 0.
Definition ten_cache : ReadCache := ReadCache_mk 8 4 ∅ no_usage 1 ten_disk.
#[local] Instance ten_text : OsText := { os_text _ := []; process_id := 1 }.

Lemma cached_read_exact_witness :
  honest (λ _, ten) 4 ten_cache ∧
  let '(r, (c', _)) := ReadCache.read ten_fetch ten_identity 3 5 (ten_cache, ()) in
  honest (λ _, ten) 4 c' ∧ right_or_failed ten_fetch ten_identity (ztake 5 (zdrop 3 ten)) r.
Proof.
  assert (Hh : honest (λ _, ten) 4 ten_cache) by done. split; [exact Hh|].
  apply (cached_read_exact (λ _, ten) 4 ten_fetch ten_identity); try lia; try done.
  intros offset count x data x' E _. by injection E as <- _.
Defined.

(** The bytes 3 to 7, although the first chunk could not be stored. *)
Example ten_read : (ReadCache.read ten_fetch ten_identity 3 5 (ten_cache, ())).1 = inr (bstr "34567").
Proof. vm_compute. reflexivity. Qed.

(** A file of the right length in the place of the first chunk. *)
Definition planted : ReadCache :=
  ReadCache_mk 8 4 ∅ no_usage 1
    (Disk_mk (Some true) (Some true) (Some true) None ∅
       {[chunk_path (ChunkKey_mk ten_identity 0) := CacheFile_mk true true (bstr "XXXX") 0 5]} [] 0).

Example planted_chunk_is_served : (ReadCache.read ten_fetch ten_identity 0 4 (planted, ())).1 = inr (bstr "XXXX").
Proof. vm_compute. reflexivity. Qed.
