(* ===== verification/FuseConfig.v ===== *)
(** The configuration of a FUSE mount: [crates/fuse/src/fuse/config.rs].  Durations
    are in nanoseconds; a path is absolute if it starts with a slash. *)
From S2P Require Import Prelude Errors Qid Stat Utf8 Referral NamespaceCache Text SessionErrors Endpoint ExportDescriptor SessionConfig Feed FeedWorker ReadCache ReadCacheProps.

Definition DEFAULT_MAX_WORKERS : Z := 10.
Definition DEFAULT_MAX_BACKGROUND : Z := 12.
Definition DEFAULT_CHANGE_FEED_RECONNECT_DELAY : Z := 1000000000.
Definition DEFAULT_ATTR_TIMEOUT : Z := 1000000000.
Definition DEFAULT_ENTRY_TIMEOUT : Z := 1000000000.
Definition DEFAULT_NEGATIVE_TIMEOUT : Z := 0.
Definition PERSISTENT_READ_CACHE_CHUNK_BYTES : Z := 4 * 1024 * 1024.
Definition MAX_PERSISTENT_READ_CACHE_BYTES : Z := PERSISTENT_READ_CACHE_CHUNK_BYTES * 65536.
Definition DEFAULT_CHANGE_FEED_BACKPRESSURE_LIMIT : Z := 4096.
Definition DEFAULT_DIAGNOSTICS_CAPACITY : Z := 256.

Definition default_congestion_threshold (max_background : Z) : Z := Z.max 1 (max_background * 3 `div` 4).

Record Config := Config_mk {
  cf_address : bytes;
  cf_fallback_addresses : list bytes;
  cf_authentication : ConnectionAuthentication;
  cf_source_path : bytes;
  cf_mountpoint : bytes;
  cf_uname : bytes;
  cf_aname : bytes;
  cf_msize : Z;
  cf_connect_timeout : Z;
  cf_attr_timeout : Z;
  cf_entry_timeout : Z;
  cf_negative_timeout : Z;
  cf_request_timeout : Z;
  cf_lookup_timeout : Z;
  cf_read_timeout : Z;
  cf_change_feed_read_timeout : Z;
  cf_write_timeout : Z;
  cf_mutation_timeout : Z;
  cf_control_timeout : Z;
  cf_interrupt_timeout : Z;
  cf_max_workers : Z;
  cf_max_background : Z;
  cf_congestion_threshold : Z;
  cf_diagnostics_path : option bytes;
  cf_diagnostics_capacity : Z;
  cf_status_path : option bytes;
  cf_change_feed_path : option bytes;
  cf_change_feed_stream_path : option bytes;
  cf_change_feed_cursor_template : option bytes;
  cf_change_feed_scope : option bytes;
  cf_change_feed_reconnect_delay : Z;
  cf_change_feed_backpressure_limit : Z;
  cf_coherent_read_cache : bool;
  cf_read_cache_path : option bytes;
  cf_read_cache_max_bytes : Z;
  cf_allow_other : bool;
  cf_debug : bool;
}.

Definition connection (c : Config) (address : bytes) : ConnectionConfig :=
  ConnectionConfig_mk address (cf_uname c) (cf_aname c) (cf_msize c) (cf_authentication c).

Definition connections (c : Config) : SResult ConnectionSet :=
  ConnectionSet_new (connection c (cf_address c) :: (connection c <$> cf_fallback_addresses c)).

Definition is_absolute (path : bytes) : bool := starts_with [slash] path.

Definition parse_source_path (path : bytes) : SResult Path :=
  if negb (is_absolute path) then inl (SessionError_mk libc.EINVAL (bstr "mount source path must be absolute: " ++ path))
  else parse_namespace_path path.

(** [if value.is_zero() { value = default }] *)
Definition or_default (value default : Z) : Z := if value =? 0 then default else value.

(** The values [normalize_config] puts in the place of zeros. *)
Definition with_defaults (c : Config) : Config :=
  let read_timeout := or_default (cf_read_timeout c) (cf_request_timeout c) in
  let max_background := or_default (cf_max_background c) DEFAULT_MAX_BACKGROUND in
  Config_mk (cf_address c) (cf_fallback_addresses c) (cf_authentication c) (cf_source_path c) (cf_mountpoint c)
    (cf_uname c) (cf_aname c) (cf_msize c) (cf_connect_timeout c) (cf_attr_timeout c) (cf_entry_timeout c)
    (cf_negative_timeout c) (cf_request_timeout c) (or_default (cf_lookup_timeout c) (cf_request_timeout c)) read_timeout
    (or_default (cf_change_feed_read_timeout c) read_timeout) (or_default (cf_write_timeout c) (cf_request_timeout c))
    (or_default (cf_mutation_timeout c) (cf_request_timeout c)) (or_default (cf_control_timeout c) (cf_request_timeout c))
    (or_default (cf_interrupt_timeout c) (Z.min (cf_request_timeout c) 1000000000))
    (or_default (cf_max_workers c) DEFAULT_MAX_WORKERS) max_background
    (if (cf_congestion_threshold c =? 0) || (max_background <? cf_congestion_threshold c)
     then default_congestion_threshold max_background else cf_congestion_threshold c)
    (cf_diagnostics_path c) (or_default (cf_diagnostics_capacity c) DEFAULT_DIAGNOSTICS_CAPACITY) (cf_status_path c)
    (cf_change_feed_path c) (cf_change_feed_stream_path c) (cf_change_feed_cursor_template c) (cf_change_feed_scope c)
    (or_default (cf_change_feed_reconnect_delay c) DEFAULT_CHANGE_FEED_RECONNECT_DELAY)
    (or_default (cf_change_feed_backpressure_limit c) DEFAULT_CHANGE_FEED_BACKPRESSURE_LIMIT) (cf_coherent_read_cache c)
    (cf_read_cache_path c) (cf_read_cache_max_bytes c) (cf_allow_other c) (cf_debug c).

Definition check_read_cache (path : option bytes) (max_bytes : Z) (coherent : bool) : SResult unit :=
  match path with
  | None =>
      if max_bytes =? 0 then inr ()
      else inl (session_error libc.EINVAL "persistent read cache quota requires a cache path")
  | Some path =>
      if is_absolute path && (PERSISTENT_READ_CACHE_CHUNK_BYTES <=? max_bytes) &&
         (max_bytes <=? MAX_PERSISTENT_READ_CACHE_BYTES) && coherent
      then inr ()
      else if negb (is_absolute path)
      then inl (session_error libc.EINVAL "persistent read cache path must be absolute")
      else if max_bytes <? PERSISTENT_READ_CACHE_CHUNK_BYTES
      then inl (session_error libc.EINVAL "persistent read cache quota must be at least 4194304 bytes")
      else if MAX_PERSISTENT_READ_CACHE_BYTES <? max_bytes
      then inl (session_error libc.EINVAL "persistent read cache quota must not exceed 274877906944 bytes")
      else inl (session_error libc.EINVAL "persistent read cache requires coherent read caching")
  end.

Definition check_change_feed (c : Config) : SResult unit :=
  match cf_change_feed_path c, cf_change_feed_stream_path c, cf_change_feed_cursor_template c with
  | None, None, None | Some _, Some _, _ => inr ()
  | _, _, _ => inl (session_error libc.EINVAL "change feed requires both catch-up and blocking stream paths")
  end.

Definition normalize_config (c : Config) : SResult Config :=
  let c := with_defaults c in
  match check_read_cache (cf_read_cache_path c) (cf_read_cache_max_bytes c) (cf_coherent_read_cache c) with
  | inl e => inl e
  | inr _ => match check_change_feed c with inl e => inl e | inr _ => inr c end
  end.

Definition identity_field (value : bytes) : bytes := le_bytes 8 (vlen value) ++ value.

Definition read_cache_volume_identity (c : Config) : SResult bytes :=
  match auth_session (cf_authentication c) with
  | None => inl (session_error libc.EINVAL "persistent read cache requires an authenticated root")
  | Some authentication =>
      match root_responder authentication with
      | None => inl (session_error libc.EINVAL "persistent read cache requires an authenticated root responder")
      | Some responder =>
          let fields := [cf_source_path c; cf_uname c; cf_aname c; responder_text responder] in
          if forallb (λ value, vlen value <=? u64_max) fields then inr (concat (identity_field <$> fields))
          else inl (session_error libc.EOVERFLOW "read cache identity field too large")
      end
  end.

(** [validate_coherent_cache] of mod.rs *)
Definition validate_coherent_cache (c : Config) (has_session_feed : bool) : SResult unit :=
  if cf_coherent_read_cache c && negb (bool_decide (is_Some (cf_change_feed_path c))) && negb has_session_feed
  then inl (session_error libc.EINVAL "coherent read cache requires a namespace change feed")
  else inr ().

(** ** What the configuration is good for *)

Lemma fields_injective (l l' : list bytes) : length l = length l' →
  Forall (λ v, vlen v ≤ u64_max) l → Forall (λ v, vlen v ≤ u64_max) l' →
  concat (identity_field <$> l) = concat (identity_field <$> l') → l = l'.
Proof.
  intros Hl H. revert l' Hl. induction H as [|v l Hv _ IH]; intros [|v' l'] Hl H' E; try done.
  apply Forall_cons in H' as [Hv' H']. unfold identity_field in E. rewrite !fmap_cons in E. cbn [concat] in E.
  rewrite <-!app_assoc in E. apply app_inj_1 in E as [E1 E]; [|by rewrite !length_le_bytes].
  apply (f_equal le_val) in E1. pose proof (vlen_nonneg v). pose proof (vlen_nonneg v').
  rewrite !le_val_le_bytes in E1 by (unfold u64_max in *; simpl; lia).
  apply app_inj_1 in E as [-> E]; [|unfold vlen in E1; lia]. f_equal. apply IH; [by injection Hl|done|done].
Qed.

Lemma volume_identity_fields c i : read_cache_volume_identity c = inr i → ∃ session responder,
  cf_authentication c = Authenticated session ∧ root_responder session = Some responder ∧
  let fields := [cf_source_path c; cf_uname c; cf_aname c; responder_text responder] in
  Forall (λ v, vlen v ≤ u64_max) fields ∧ i = concat (identity_field <$> fields).
Proof.
  unfold read_cache_volume_identity. destruct (cf_authentication c) as [|session]; [done|]. cbn [auth_session].
  destruct (root_responder session) as [responder|] eqn:Er; [|done].
  destruct (forallb _ _) eqn:Ef; [|done]. intros [= <-]. exists session, responder. split_and!; [done|done| |done].
  rewrite forallb_forall in Ef. apply Forall_forall. intros v Hv. apply Z.leb_le, Ef. by apply list_elem_of_In.
Qed.

Lemma volume_binding_injective i i' k k' :
  0 ≤ k ≤ u32_max → 0 ≤ k' ≤ u32_max → volume_binding i k = volume_binding i' k' → k = k' ∧ i = i'.
Proof.
  intros Hk Hk' E. unfold volume_binding in E. apply app_inv_head in E. apply app_inv_head in E.
  apply app_inj_1 in E as [E1 E]; [|by rewrite !length_le_bytes]. apply (f_equal le_val) in E1.
  rewrite !le_val_le_bytes in E1 by (unfold u32_max in *; simpl; lia). split; [done|].
  by apply app_inj_1 in E as [_ E]; [|by rewrite !length_le_bytes].
Qed.

Lemma bind_volume_same {os : OsText} identity c volume :
  dk_volume (rc_disk c) = Some volume → (bind_volume identity c).1 = inr () → cf_data volume = identity.
Proof.
  intros Hv. unfold bind_volume, mbind, S_bind, sattempt.
  destruct (sys_cases (λ d, (some_or (dk_volume d) (os_error libc.ENOENT), d)) c) as (faults & [[e ->] | -> ]).
  - destruct (_ =? _); [|done]. unfold io at 1.
    match goal with |- context [sys ?f ?c1] => destruct (sys_cases f c1) as (faults1 & [[e1 ->] | -> ]) end; [done|].
    simpl. by rewrite Hv.
  - simpl. rewrite Hv. cbn [some_or]. destruct (_ || _); [done|]. unfold io.
    match goal with |- context [sys ?f ?c1] => destruct (sys_cases f c1) as (faults1 & [[e1 ->] | -> ]) end; [done|].
    simpl. rewrite Hv. cbn [some_or fmap option_fmap option_map].
    match goal with |- context [sys ?f ?c1] => destruct (sys_cases f c1) as (faults2 & [[e2 ->] | -> ]) end; [done|].
    simpl. by case_bool_decide.
Qed.

(** A directory of cached chunks is used by one volume: a cache that was made for
    the mount of one configuration opens for another only if that has the same chunk
    size, source path, user and attach names, and authenticated responder. *)
Theorem cache_volume_not_shared {os : OsText} c c' i i' k k' cache volume :
  read_cache_volume_identity c = inr i → read_cache_volume_identity c' = inr i' →
  0 ≤ k ≤ u32_max → 0 ≤ k' ≤ u32_max →
  dk_volume (rc_disk cache) = Some volume → cf_data volume = volume_binding i k →
  (bind_volume (volume_binding i' k') cache).1 = inr () →
  k' = k ∧ cf_source_path c' = cf_source_path c ∧ cf_uname c' = cf_uname c ∧ cf_aname c' = cf_aname c ∧
  (root_responder <$> auth_session (cf_authentication c')) = (root_responder <$> auth_session (cf_authentication c)).
Proof.
  intros (s & r & Hs & Hr & Hf & ->)%volume_identity_fields (s' & r' & Hs' & Hr' & Hf' & ->)%volume_identity_fields
    Hk Hk' Hv Hd Hb.
  assert (E : volume_binding (concat (identity_field <$> [cf_source_path c'; cf_uname c'; cf_aname c'; responder_text r'])) k' =
              cf_data volume); [|rewrite Hd in E; apply volume_binding_injective in E as [-> E]; [|done|done]].
  { symmetry. by eapply bind_volume_same. }
  apply fields_injective in E; [|done|done|done]. injection E as E1 E2 E3 E4. rewrite Hs, Hs'. simpl. rewrite Hr, Hr'.
  destruct r, r'. simpl in E4. by subst.
Qed.

Lemma or_default_twice v d : or_default (or_default v d) d = or_default v d.
Proof. unfold or_default. destruct (v =? 0) eqn:E; [|by rewrite E]. by destruct (d =? 0). Qed.

Lemma threshold_range c : 0 ≤ cf_congestion_threshold c → 0 ≤ cf_max_background c →
  1 ≤ cf_congestion_threshold (with_defaults c) ≤ cf_max_background (with_defaults c).
Proof.
  intros Hc Hm. cbn [cf_congestion_threshold cf_max_background with_defaults].
  assert (Hb : 1 ≤ or_default (cf_max_background c) DEFAULT_MAX_BACKGROUND).
  { unfold or_default, DEFAULT_MAX_BACKGROUND. destruct (Z.eqb_spec (cf_max_background c) 0); lia. }
  revert Hb. generalize (or_default (cf_max_background c) DEFAULT_MAX_BACKGROUND). intros m Hb.
  destruct (Z.eqb_spec (cf_congestion_threshold c) 0); [|destruct (Z.ltb_spec m (cf_congestion_threshold c))]; simpl; try lia;
    unfold default_congestion_threshold; Z.div_mod_to_equations; lia.
Qed.

Lemma with_defaults_idempotent c : 0 ≤ cf_congestion_threshold c → 0 ≤ cf_max_background c →
  with_defaults (with_defaults c) = with_defaults c.
Proof.
  intros Hc Hm. pose proof (threshold_range c Hc Hm) as [H1 H2]. revert H1 H2.
  unfold with_defaults. cbn -[default_congestion_threshold or_default Z.eqb Z.ltb]. rewrite !or_default_twice.
  intros H1 H2. f_equal. apply Z.ltb_ge in H2. rewrite H2, orb_false_r.
  match goal with |- (if ?a =? 0 then _ else _) = _ => destruct (Z.eqb_spec a 0) as [E|_]; [rewrite E in H1; lia|done] end.
Qed.

(** A configuration that was normalised is ready for use: no operation has a zero
    timeout, the kernel's queue has a threshold within its length, there are workers,
    a persistent cache has an absolute path and a quota its chunks can fill, and
    normalising it again changes nothing. *)
Theorem normalized_config_ready c c' :
  0 < cf_request_timeout c → 0 ≤ cf_congestion_threshold c → 0 ≤ cf_max_background c →
  normalize_config c = inr c' →
  Forall (λ t, t ≠ 0) [cf_lookup_timeout c'; cf_read_timeout c'; cf_change_feed_read_timeout c'; cf_write_timeout c';
    cf_mutation_timeout c'; cf_control_timeout c'; cf_interrupt_timeout c'; cf_max_workers c';
    cf_change_feed_reconnect_delay c'; cf_change_feed_backpressure_limit c'] ∧
  1 ≤ cf_congestion_threshold c' ≤ cf_max_background c' ∧
  (∀ path, cf_read_cache_path c' = Some path →
     is_absolute path = true ∧ PERSISTENT_READ_CACHE_CHUNK_BYTES ≤ cf_read_cache_max_bytes c' ≤
       Z.min u64_max (PERSISTENT_READ_CACHE_CHUNK_BYTES * MAX_CACHE_CHUNKS)) ∧
  normalize_config c' = inr c'.
Proof.
  intros Hr Hc Hm. unfold normalize_config. destruct (check_read_cache _ _ _) as [e|[]] eqn:Ec; [done|].
  destruct (check_change_feed _) as [e|[]] eqn:Ef; [done|]. intros [= <-].
  assert (Hi : with_defaults (with_defaults c) = with_defaults c) by by apply with_defaults_idempotent.
  split_and!.
  - repeat constructor; simpl; unfold or_default; repeat case_match; unfold DEFAULT_MAX_WORKERS,
      DEFAULT_CHANGE_FEED_RECONNECT_DELAY, DEFAULT_CHANGE_FEED_BACKPRESSURE_LIMIT; lia.
  - by apply threshold_range.
  - by apply threshold_range.
  - intros path Hp. rewrite Hp in Ec. unfold check_read_cache in Ec.
    destruct (_ && _ && _ && _) eqn:Eb; [|by repeat case_match]. rewrite !andb_true_iff, !Z.leb_le in Eb.
    destruct Eb as (((? & ?) & ?) & ?). unfold MAX_PERSISTENT_READ_CACHE_BYTES, PERSISTENT_READ_CACHE_CHUNK_BYTES,
      MAX_CACHE_CHUNKS, u64_max in *. split; [done|]. lia.
  - cbv zeta. rewrite Hi, Ec, Ef. done.
Qed.

(** ** A configuration *)

Definition sample_config : Config :=
  Config_mk (bstr "tcp!127.0.0.1!564") [] (Authenticated (authenticated_root (ClientCredential_mk (bstr "/etc/r9p.conf")) (ResponderName_mk (bstr "files"))))
    (bstr "/") (bstr "/mnt/files") (bstr "glenda") [] 8192 1000000000 1000000000 1000000000 0 1000000000 0 0 0 0 0 0 0
    0 0 0 None 0 None (Some (bstr "/changes")) (Some (bstr "/changes-stream")) None None 0 0 true
    (Some (bstr "/var/cache/r9p")) (8 * 1024 * 1024) false false.

Lemma normalized_config_ready_witness :
  normalize_config sample_config = inr (with_defaults sample_config) ∧
  1 ≤ cf_congestion_threshold (with_defaults sample_config) ≤ cf_max_background (with_defaults sample_config).
Proof.
  assert (E : normalize_config sample_config = inr (with_defaults sample_config)) by (vm_compute; reflexivity).
  split; [exact E|].
  apply (normalized_config_ready sample_config (with_defaults sample_config)); [reflexivity|done|done|exact E].
Defined.

Definition sample_text : OsText := {| os_text _ := []; process_id := 1 |}.

(** The disk of a cache that was made for the configuration. *)
Definition sample_identity : bytes :=
  match read_cache_volume_identity sample_config with inr i => i | inl _ => [] end.
Definition sample_volume : CacheFile :=
  CacheFile_mk true true (volume_binding sample_identity PERSISTENT_READ_CACHE_CHUNK_BYTES) 0 0.
Definition sample_disk : Disk := Disk_mk (Some true) (Some true) (Some true) (Some sample_volume) ∅ ∅ [] 0.
Definition sample_cache : ReadCache :=
  ReadCache_mk (8 * 1024 * 1024) PERSISTENT_READ_CACHE_CHUNK_BYTES ∅ no_usage 1 sample_disk.

(** The disk is full when the volume file of a new cache is written: the file is left
    empty, and every later start refuses it. *)
Definition full_disk : Disk :=
  Disk_mk (Some true) (Some true) (Some true) None ∅ ∅ [None; None; None; None; None; None; Some libc.ENOSPC] 0.

Lemma volume_write_failure_sticks :
  let open d := open_with_chunk_bytes (os := sample_text) true (8 * 1024 * 1024) sample_identity
                  PERSISTENT_READ_CACHE_CHUNK_BYTES d in
  let '(first, d1) := open full_disk in
  let '(second, d2) := open d1 in
  (∃ e, first = inl e ∧ errno e = libc.ENOSPC) ∧ dk_faults d1 = [] ∧
  (∃ e, second = inl e ∧ errno e = libc.EINVAL) ∧ dk_volume d2 = dk_volume d1.
Proof. vm_compute. split_and!; [by eexists|done|by eexists|done]. Qed.

Lemma cache_volume_not_shared_witness :
  (bind_volume (os := sample_text) (volume_binding sample_identity PERSISTENT_READ_CACHE_CHUNK_BYTES) sample_cache).1 =
    inr () ∧ cf_uname sample_config = cf_uname sample_config.
Proof.
  assert (E : (bind_volume (os := sample_text) (volume_binding sample_identity PERSISTENT_READ_CACHE_CHUNK_BYTES)
                 sample_cache).1 = inr ()) by (vm_compute; reflexivity).
  split; [exact E|].
  apply (cache_volume_not_shared (os := sample_text) sample_config sample_config sample_identity sample_identity
           PERSISTENT_READ_CACHE_CHUNK_BYTES PERSISTENT_READ_CACHE_CHUNK_BYTES sample_cache sample_volume);
    [vm_compute; reflexivity|vm_compute; reflexivity|unfold u32_max, PERSISTENT_READ_CACHE_CHUNK_BYTES; lia|
     unfold u32_max, PERSISTENT_READ_CACHE_CHUNK_BYTES; lia|reflexivity|reflexivity|exact E].
Defined.
