(* ===== verification/FuseState.v ===== *)
(** The FUSE bridge and what its operations share: [crates/fuse/src/fuse/mount_state.rs],
    [recovery.rs], [invalidation.rs], the replies of [reply.rs], and the reconnection,
    recovery and initialisation of [dispatch.rs].  The session and its clients are an
    interface ([MountSession]); requests are handled one at a time.  Diagnostics and
    the status file are not modelled. *)
From S2P Require Import Prelude Errors Qid Stat Referral NamespaceCache Text SessionErrors SessionConfig ReadCache FuseConfig FuseNodes FuseWire.

(** ** The session *)

(** The renewable session, its clients by identity, the clock and the device.  The
    last argument of a call is its timeout. *)
Class MountSession (W : Type) := {
  now_at : W → Z * W;                                         (* [Instant::now()] *)
  pause : Z → W → W;                                          (* [thread::sleep] *)
  device_write : Z → W → SResult Z * W;                       (* [write_vectored] of so many bytes *)
  device_write_all : Z → W → SResult unit * W;                (* [write_all] *)
  session_client : S_ W Z;                                    (* [ClientSession::snapshot] *)
  session_reconnect : S_ W Z;                                 (* [ClientSession::reconnect] *)
  client_walk : Z → Z → list bytes → Z → S_ W Z;
  client_clone : Z → Z → Z → S_ W Z;
  client_open_fid : Z → Z → Z → Z → S_ W Qid;
  client_create : Z → Z → bytes → Z → Z → Z → S_ W (Z * Qid);
  client_read_at : Z → Z → Z → Z → Z → S_ W bytes;
  client_read_full : Z → Z → Z → Z → Z → S_ W bytes;
  client_read_parallel : Z → Z → Z → Z → Z → Z → S_ W bytes;
  client_write_at : Z → Z → Z → bytes → Z → S_ W Z;
  client_clunk_fid : Z → Z → Z → S_ W unit;
  client_remove : Z → Z → Z → S_ W unit;
  client_stat : Z → Z → Z → S_ W Stat;
  client_wstat : Z → Z → Stat → Z → S_ W unit;
  client_rename_at : Z → Z → bytes → Z → bytes → Z → S_ W unit;
  client_validate_stat : Z → Stat → S_ W Stat;
  client_interrupt : Z → Z → Z → S_ W Z;
  client_max_write_payload : Z → W → Z;
}.

(** [Client::root_fid] *)
Definition client_root_fid : Z := 1.

(** ** The mount *)

(** The fields of [R9pFuse] that never change; the page size is the system's. *)
Record Mounted := Mounted_mk {
  fs_source_path : Path;
  fs_config : Config;
  fs_uid : Z;
  fs_gid : Z;
  fs_max_request_bytes : Z;
  fs_page_size : Z;
}.

(** ** recovery.rs *)

Record ShapeRecovery := ShapeRecovery_mk {
  sr_failures : Z;
  sr_window_start : option Z;
  sr_last_forced : option Z;
}.

Definition WINDOW : Z := 10000000000.
Definition COOLDOWN : Z := 5000000000.
Definition THRESHOLD : Z := 8.

Definition ShapeRecovery_new : ShapeRecovery := ShapeRecovery_mk 0 None None.

Definition note_at (now : Z) (r : ShapeRecovery) : bool * ShapeRecovery :=
  let r := match sr_window_start r with
           | Some start =>
               if saturating_sub now start <=? WINDOW
               then ShapeRecovery_mk (sr_failures r + 1) (Some start) (sr_last_forced r)
               else ShapeRecovery_mk 1 (Some now) (sr_last_forced r)
           | None => ShapeRecovery_mk 1 (Some now) (sr_last_forced r)
           end in
  if sr_failures r <? THRESHOLD then (false, r)
  else if match sr_last_forced r with Some last => saturating_sub now last <? COOLDOWN | None => false end
  then (false, r)
  else (true, ShapeRecovery_mk 0 None (Some now)).

(** ** The state *)

(** What a reply carries: bytes, or one of the structures. *)
Inductive Body :=
  | BBytes (data : bytes)
  | BEntry (out : FuseEntryOut)
  | BAttr (out : FuseAttrOut)
  | BOpen (out : FuseOpenOut)
  | BCreate (out : FuseCreateOut)
  | BWrite (out : FuseWriteOut)
  | BStatfs (out : FuseKstatfs)
  | BLk (out : FuseLkOut).

Definition body_bytes (b : Body) : bytes :=
  match b with
  | BBytes data => data
  | BEntry out => as_bytes out
  | BAttr out => as_bytes out
  | BOpen out => as_bytes out
  | BCreate out => as_bytes out
  | BWrite out => as_bytes out
  | BStatfs out => as_bytes out
  | BLk out => as_bytes out
  end.

Record Reply := Reply_mk { rp_unique : Z; rp_error : Z; rp_body : Body }.

Inductive Notification := InvalInode (nodeid : Z) | InvalEntry (parent : Z) (name : bytes).

Record Fuse (W : Type) := Fuse_mk {
  f_nodes : NodeTable;
  f_recovery : ShapeRecovery;
  f_cache : option ReadCache;
  f_replies : list Reply;                   (* what was written to the device *)
  f_notes : list Notification;
  f_world : W;
}.

Arguments Fuse_mk {W}.
Arguments f_nodes {W}.
Arguments f_recovery {W}.
Arguments f_cache {W}.
Arguments f_replies {W}.
Arguments f_notes {W}.
Arguments f_world {W}.

(** The bytes of a request, for a client that can write so many. *)
Definition mount_request_bytes (max_write_payload : Z) : Z := Z.min max_write_payload DEFAULT_MAX_IO_BYTES.

Section set.
Context {W : Type}.
Definition set_table (t : NodeTable) (s : Fuse W) : Fuse W :=
  Fuse_mk t (f_recovery s) (f_cache s) (f_replies s) (f_notes s) (f_world s).
Definition set_recovery (r : ShapeRecovery) (s : Fuse W) : Fuse W :=
  Fuse_mk (f_nodes s) r (f_cache s) (f_replies s) (f_notes s) (f_world s).
Definition set_cache (c : option ReadCache) (s : Fuse W) : Fuse W :=
  Fuse_mk (f_nodes s) (f_recovery s) c (f_replies s) (f_notes s) (f_world s).
Definition add_reply (r : Reply) (s : Fuse W) : Fuse W :=
  Fuse_mk (f_nodes s) (f_recovery s) (f_cache s) (f_replies s ++ [r]) (f_notes s) (f_world s).
Definition add_note (n : Notification) (s : Fuse W) : Fuse W :=
  Fuse_mk (f_nodes s) (f_recovery s) (f_cache s) (f_replies s) (f_notes s ++ [n]) (f_world s).
Definition set_world (w : W) (s : Fuse W) : Fuse W :=
  Fuse_mk (f_nodes s) (f_recovery s) (f_cache s) (f_replies s) (f_notes s) w.
End set.

Section mounted.
Context {W : Type} `{!MountSession W} (fs : Mounted).

Abbreviation F := (S_ (Fuse W)).

Definition on_world {A} (m : S_ W A) : F A := λ s, let '(r, w) := m (f_world s) in (r, set_world w s).

Definition get_now : F Z := on_world (λ w, let '(t, w) := now_at w in (inr t, w)).

(** [self.nodes()?], then a function that reads or changes the table. *)
Definition on_nodes {A} (f : NodeTable → SResult A) : F A := λ s, (f (f_nodes s), s).
Definition change_nodes {A} (f : NodeTable → SResult (A * NodeTable)) : F A := λ s,
  match f (f_nodes s) with
  | inl e => (inl e, s)
  | inr (a, t) => (inr a, set_table t s)
  end.

(** A change that cannot fail. *)
Definition total {A} (f : NodeTable → A * NodeTable) (t : NodeTable) : SResult (A * NodeTable) := inr (f t).
Definition quietly (f : NodeTable → SResult NodeTable) (t : NodeTable) : SResult (unit * NodeTable) :=
  match f t with inl e => inl e | inr t => inr ((), t) end.

(** [let _ = ..]: the result is dropped. *)
Definition ignore {A} (m : F A) : F unit := _ ← sattempt m; mret ().

(** ** reply.rs *)

Definition out_header_size : Z := size_of FuseOutHeader.

Definition reply_error (unique errno : Z) : F unit :=
  _ ← on_world (device_write_all out_header_size);
  smodify (add_reply (Reply_mk unique (- Z.abs errno) (BBytes []))).

Definition reply_body (unique : Z) (body : Body) : F unit :=
  let len := out_header_size + vlen (body_bytes body) in
  match try_from u32_max len with
  | None => sthrow (session_error libc.EOVERFLOW "FUSE reply too large")
  | Some _ =>
      written ← on_world (device_write len);
      if negb (written =? len) then sthrow (session_error libc.EIO "short FUSE reply write")
      else smodify (add_reply (Reply_mk unique 0 body))
  end.

Definition reply_bytes (unique : Z) (data : bytes) : F unit := reply_body unique (BBytes data).
Definition reply_empty (unique : Z) : F unit := reply_bytes unique [].

Definition notify (n : Notification) (len : Z) : F unit :=
  match try_from u32_max (out_header_size + len) with
  | None => sthrow (session_error libc.EOVERFLOW "FUSE notification too large")
  | Some len =>
      written ← on_world (device_write len);
      if negb (written =? len) then sthrow (session_error libc.EIO "short FUSE notification write")
      else smodify (add_note n)
  end.

Definition notify_inval_inode (nodeid : Z) : F unit :=
  notify (InvalInode nodeid) (size_of FuseNotifyInvalInodeOut).

Definition notify_inval_entry (parent : Z) (name : bytes) : F unit :=
  match try_from u32_max (vlen name) with
  | None => sthrow (session_error libc.ENAMETOOLONG "FUSE entry name too long")
  | Some _ => notify (InvalEntry parent name) (size_of FuseNotifyInvalEntryOut + vlen name + 1)
  end.

(** ** invalidation.rs *)

Record KernelInvalidation := KernelInvalidation_mk {
  ki_stale_bindings : list StaleBinding;
  ki_parent_entries : list (Z * bytes);
  ki_coarse : bool;
}.

Definition KernelInvalidation_path (stale : list StaleBinding) (parents : list (Z * bytes)) : KernelInvalidation :=
  KernelInvalidation_mk stale parents false.
Definition KernelInvalidation_coarse (stale : list StaleBinding) : KernelInvalidation :=
  KernelInvalidation_mk stale [] true.

(** Ascending, without duplicates: a [BTreeSet]. *)
Definition directory_nodeids_for_readdir_cache (i : KernelInvalidation) : list Z :=
  (in_order (gset_to_gmap () (list_to_set
     ((if ki_coarse i then [ROOT_NODEID] else []) ++
      omap sb_parent_nodeid (ki_stale_bindings i) ++ (ki_parent_entries i).*1) : gset Z))).*1.

(** [for x in l { .. }] *)
Fixpoint for_each {A} (l : list A) (f : A → F unit) : F unit :=
  match l with
  | [] => mret ()
  | a :: l => _ ← f a; for_each l f
  end.

Definition notify_kernel_invalidations (i : KernelInvalidation) : F unit :=
  _ ← for_each (directory_nodeids_for_readdir_cache i) (λ nodeid, ignore (notify_inval_inode nodeid));
  _ ← for_each (ki_stale_bindings i) (λ b,
        _ ← ignore (notify_inval_inode (sb_nodeid b));
        match sb_parent_nodeid b with
        | Some parent => ignore (notify_inval_entry parent (sb_name b))
        | None => mret ()
        end);
  for_each (ki_parent_entries i) (λ '(parent, name), ignore (notify_inval_entry parent name)).

(** ** mount_state.rs *)

Definition lookup_timeout : Z := cf_lookup_timeout (fs_config fs).
Definition read_timeout : Z := cf_read_timeout (fs_config fs).
Definition write_timeout : Z := cf_write_timeout (fs_config fs).
Definition mutation_timeout : Z := cf_mutation_timeout (fs_config fs).
Definition control_timeout : Z := cf_control_timeout (fs_config fs).

Definition client_snapshot : F Z := on_world session_client.

Definition walk_one (client fid : Z) (name : bytes) (timeout : Z) : F Z :=
  on_world (client_walk client fid [name] timeout).

Definition clunk (client fid : Z) : F unit := ignore (on_world (client_clunk_fid client fid control_timeout)).

Definition source_binding (client timeout : Z) : F (Z * Stat) :=
  fid ← match fs_source_path fs with
        | [] => mret client_root_fid
        | path => on_world (client_walk client client_root_fid path timeout)
        end;
  stated ← sattempt (on_world (client_stat client fid timeout));
  match stated with
  | inr st => mret (fid, st)
  | inl error =>
      _ ← match fs_source_path fs with
          | [] => mret ()
          | _ => ignore (on_world (client_clunk_fid client fid timeout))
          end;
      sthrow error
  end.

Definition path_from_source (relative : Path) : Path := fs_source_path fs ++ relative.

Definition walk_from_source (client : Z) (relative : Path) (timeout : Z) : F Z :=
  match path_from_source relative with
  | [] => on_world (client_clone client client_root_fid timeout)
  | path => on_world (client_walk client client_root_fid path timeout)
  end.

Definition attr (st : Stat) : FuseAttr :=
  FuseAttr_mk (qid_to_inode (st_qid st)) (st_length st) (saturating_add u64_max (st_length st) 8191 `div` 8192)
    (st_atime st) (st_mtime st) (st_mtime st) 0 0 0 (Z.lor (mode_kind st) (Z.land (st_mode st) 0x1FF)) 1 (fs_uid fs)
    (fs_gid fs) 0 8192 0.

Definition entry_out (nodeid generation : Z) (st : Stat) : FuseEntryOut :=
  let '(entry_valid, entry_nsec) := duration_parts (cf_entry_timeout (fs_config fs)) in
  let '(attr_valid, attr_nsec) := duration_parts (cf_attr_timeout (fs_config fs)) in
  FuseEntryOut_mk nodeid generation entry_valid attr_valid entry_nsec attr_nsec (attr st).

Definition negative_entry_out : FuseEntryOut :=
  let '(entry_valid, entry_nsec) := duration_parts (cf_negative_timeout (fs_config fs)) in
  FuseEntryOut_mk 0 0 entry_valid 0 entry_nsec 0 FuseAttr_default.

Definition attr_out (st : Stat) : FuseAttrOut :=
  let '(attr_valid, attr_nsec) := duration_parts (cf_attr_timeout (fs_config fs)) in
  FuseAttrOut_mk attr_valid attr_nsec 0 (attr st).

(** The old fid, if there was one, is clunked. *)
Definition clunk_old (client : Z) (fid : option Z) : F unit :=
  match fid with Some fid => clunk client fid | None => mret () end.

Definition rebind_node (client nodeid fid : Z) : F unit :=
  st ← on_world (client_stat client fid lookup_timeout);
  now ← get_now;
  old ← change_nodes (replace_binding now nodeid fid st);
  clunk_old client old.

Definition bound_node_fid (nodeid : Z) : F (Z * Z) :=
  n ← on_nodes (node nodeid);
  client ← client_snapshot;
  match n_fid n, n_needs_rebind n with
  | Some fid, false => mret (client, fid)
  | _, _ =>
      fid ← walk_from_source client (n_path n) lookup_timeout;
      _ ← rebind_node client nodeid fid;
      mret (client, fid)
  end.

Definition fresh_node_fid (nodeid client timeout : Z) : F Z :=
  n ← on_nodes (node nodeid);
  walk_from_source client (n_path n) timeout.

Definition fresh_child_fid (parent_nodeid : Z) (name : bytes) (client timeout : Z) : F Z :=
  path ← on_nodes (child_path parent_nodeid name);
  walk_from_source client path timeout.

Definition cached_node_stat_if_fresh (nodeid : Z) : F (option Stat) :=
  n ← on_nodes (node nodeid);
  if n_needs_rebind n || (cf_attr_timeout (fs_config fs) =? 0) then mret None
  else
    now ← get_now;
    if negb (is_fresh_at (n_freshness n) now (cf_attr_timeout (fs_config fs))) then mret None
    else mret (Some (n_stat n)).

(** The clunks are made by a thread of their own; here they come at once. *)
Definition clunk_stale_bindings (stale : list StaleBinding) : F unit :=
  match stale with
  | [] => mret ()
  | _ =>
      client ← sattempt client_snapshot;
      match client with
      | inr client => for_each stale (λ b, clunk_old client (sb_fid b))
      | inl _ => mret ()
      end
  end.

Definition invalidate_namespace_bindings_after_reply : F unit :=
  now ← get_now;
  stale ← change_nodes (total (mark_path_bindings_stale now));
  _ ← notify_kernel_invalidations (KernelInvalidation_coarse stale);
  clunk_stale_bindings stale.

(** ** dispatch.rs: reconnecting *)

Definition SOURCE_RECONNECT_RETRY_DELAY : Z := 25000000.

Definition source_binding_retryable (e : SessionError) : bool :=
  existsb (Z.eqb (errno e)) [libc.ENOENT; libc.ESTALE; libc.EAGAIN; libc.ETIMEDOUT; libc.ENOTCONN; libc.ECONNREFUSED;
    libc.ECONNRESET; libc.ECONNABORTED; libc.EPIPE; libc.ENETDOWN; libc.ENETUNREACH; libc.EHOSTDOWN;
    libc.EHOSTUNREACH].

Definition elapsed (started : Z) : F Z := now ← get_now; mret (saturating_sub now started).

(** The loop of [reconnect_source_binding]. *)
Fixpoint source_binding_loop (fuel : nat) (client started : Z) : F (option (Z * Stat)) :=
  match fuel with
  | O => mret None
  | S fuel =>
      waited ← elapsed started;
      let remaining := saturating_sub lookup_timeout waited in
      if remaining =? 0
      then sthrow (session_error libc.ETIMEDOUT "mounted namespace source did not return before reconnect deadline")
      else
        bound ← sattempt (source_binding client remaining);
        match bound with
        | inr binding => mret (Some binding)
        | inl error =>
            if source_binding_retryable error then
              waited ← elapsed started;
              if waited <? lookup_timeout then
                waited ← elapsed started;
                _ ← smodify (λ s, set_world (pause (Z.min SOURCE_RECONNECT_RETRY_DELAY
                                                      (saturating_sub lookup_timeout waited)) (f_world s)) s);
                source_binding_loop fuel client started
              else sthrow error
            else sthrow error
        end
  end.

(** Every turn but the last waits 25 ms of the timeout. *)
Definition source_binding_fuel : nat := Z.to_nat (lookup_timeout `div` SOURCE_RECONNECT_RETRY_DELAY + 3).

Definition reconnect_source_binding (client : Z) : F (Z * Stat) :=
  started ← get_now;
  r ← source_binding_loop source_binding_fuel client started;
  slift (some_or r (session_error libc.EIO "unreachable")).

Definition reconnect : F unit :=
  now ← get_now;
  _ ← change_nodes (total (λ t, apply_rebind_results now [] (rebind_paths t).*1 t));
  client ← on_world session_reconnect;
  binding ← reconnect_source_binding client;
  let '(root_fid, root_stat) := binding : Z * Stat in
  now ← get_now;
  _ ← change_nodes (total (apply_rebind_results now [(ROOT_NODEID, root_fid, root_stat)] []));
  mret ().

Definition refresh_node (nodeid : Z) : F unit :=
  if nodeid =? ROOT_NODEID then
    client ← client_snapshot;
    binding ← source_binding client lookup_timeout;
    let '(root_fid, st) := binding : Z * Stat in
    now ← get_now;
    old ← change_nodes (replace_binding now nodeid root_fid st);
    clunk_old client old
  else
    n ← on_nodes (node nodeid);
    client ← client_snapshot;
    fid ← walk_from_source client (n_path n) lookup_timeout;
    rebind_node client nodeid fid.

Definition recover_namespace_shape (nodeid : Z) : F unit :=
  refreshed ← sattempt (refresh_node nodeid);
  match refreshed with
  | inr _ =>
      now ← get_now;
      recovery ← sgets f_recovery;
      let '(force, recovery) := note_at now recovery in
      _ ← smodify (set_recovery recovery);
      if force : bool then reconnect else mret ()
  | inl refresh_error =>
      r ← sattempt reconnect;
      match r with inr _ => mret () | inl _ => sthrow refresh_error end
  end.

(** ** dispatch.rs: initialisation *)

Definition supported_init_flags : Z :=
  foldr Z.lor 0 [FUSE_ASYNC_READ; FUSE_ATOMIC_O_TRUNC; FUSE_BIG_WRITES; FUSE_AUTO_INVAL_DATA; FUSE_DO_READDIRPLUS;
    FUSE_READDIRPLUS_AUTO; FUSE_PARALLEL_DIROPS; FUSE_MAX_PAGES].

Definition max_request_pages (max_request_bytes page_size : Z) : SResult Z :=
  if (max_request_bytes =? 0) || (page_size =? 0)
  then inl (session_error libc.EINVAL "FUSE request bytes and page size must be nonzero")
  else some_or (try_from u16_max (Z.max 1 (max_request_bytes `div` page_size)))
         (session_error libc.EOVERFLOW "FUSE request page count overflow").

Definition fuse_init_out (input : FuseInitIn) (max_background congestion_threshold page_size max_request_bytes : Z) :
    SResult FuseInitOut :=
  match max_request_pages max_request_bytes page_size with
  | inl e => inl e
  | inr max_pages =>
      if u32_max <? max_pages * page_size
      then inl (session_error libc.EOVERFLOW "FUSE request byte count overflow")
      else
        inr (FuseInitOut_mk FUSE_KERNEL_VERSION (Z.min (ii_minor input) FUSE_KERNEL_MINOR_VERSION)
               (ii_max_readahead input) (Z.lor (Z.land (ii_flags input) supported_init_flags) FUSE_BIG_WRITES)
               max_background congestion_threshold (Z.min (max_pages * page_size) max_request_bytes) 1 max_pages 0
               (replicate 8 0))
  end.

Definition init_out_size (minor : Z) : Z :=
  if minor <? 5 then FUSE_COMPAT_INIT_OUT_SIZE
  else if minor <? 23 then FUSE_COMPAT_22_INIT_OUT_SIZE
  else size_of FuseInitOut.

Definition fuse_init (unique : Z) (payload : bytes) : F unit :=
  input ← slift (read_struct (T := FuseInitIn) payload);
  output ← slift (fuse_init_out input (cf_max_background (fs_config fs)) (cf_congestion_threshold (fs_config fs))
                    (fs_page_size fs) (fs_max_request_bytes fs));
  reply_bytes unique (ztake (init_out_size (io_minor output)) (as_bytes output)).

End mounted.

(** ** mod.rs: a new mount *)

Section prepare.
Context {W : Type} `{!MountSession W} {os : OsText}.

Definition open_read_cache (config : Config) (disk : Disk) : SResult (option ReadCache) :=
  match cf_read_cache_path config with
  | None => inr None
  | Some path =>
      match read_cache_volume_identity config with
      | inl e => inl e
      | inr volume =>
          match (open_with_chunk_bytes (is_absolute path) (cf_read_cache_max_bytes config) volume
                   PERSISTENT_READ_CACHE_CHUNK_BYTES disk).1 with
          | inl e => inl e
          | inr cache => inr (Some cache)
          end
      end
  end.

(** [R9pFuse::prepare]; the identities of the user and the page size are the system's. *)
Definition prepare (config : Config) (uid gid page_size : Z) (disk : Disk) (w : W) : SResult (Mounted * Fuse W) :=
  match parse_source_path (cf_source_path config) with
  | inl e => inl e
  | inr source_path =>
      match open_read_cache config disk with
      | inl e => inl e
      | inr cache =>
          match session_client w with
          | (inl e, _) => inl e
          | (inr client, w) =>
              let fs := Mounted_mk source_path config uid gid (mount_request_bytes (client_max_write_payload client w))
                          page_size in
              let start := Fuse_mk (NodeTable_mk ∅ ∅ ∅ (ROOT_NODEID + 1) 1) ShapeRecovery_new cache [] [] w in
              match source_binding fs client (lookup_timeout fs) start with
              | (inl e, _) => inl e
              | (inr (root_fid, root_stat), s) =>
                  match get_now s with
                  | (inl e, _) => inl e
                  | (inr now, s) => inr (fs, set_table (NodeTable_new now root_fid root_stat) s)
                  end
              end
          end
      end
  end.

End prepare.
