(* ===== verification/FuseOps.v ===== *)
(** The handlers of the FUSE bridge: [crates/fuse/src/fuse/ops/] (lookup.rs, attrs.rs,
    create.rs, mutate.rs, misc.rs, locks.rs, dir.rs, io/, namespace_change.rs), the
    dispatch of [dispatch.rs], and the changes a feed announces ([change_feed.rs]). *)
From S2P Require Import Prelude Errors Qid Stat Utf8 Referral Blocking NamespaceCache Text SessionErrors Feed FeedWorker SessionConfig ReadCache FuseConfig FuseNodes FuseWire FuseState.

(** ** namespace_change.rs *)

Definition is_control_file_name (path : Path) : bool := bool_decide (last path = Some (bstr "ctl")).
Definition write_uses_control_timeout (path : Path) (close_commit : bool) : bool :=
  close_commit || is_control_file_name path.
Definition close_commit_refreshes_namespace_bindings (close_commit : bool) : bool := close_commit.
Definition write_refreshes_namespace_bindings (path : Path) (close_commit : bool) : bool :=
  is_control_file_name path && negb close_commit.
Definition write_can_replay_after_namespace_refresh (path : Path) (close_commit : bool) (offset : Z) : bool :=
  (offset =? 0) && (close_commit || is_control_file_name path).

(** ** Directory entries *)

Definition DT_DIR : Z := 4.
Definition DT_REG : Z := 8.

Inductive DirectoryEncoding := Plain | Plus.

Definition direntplus_size (name_len : Z) : Z := size_of FuseEntryOut + dirent_size name_len.

(** [.], [..] and the entries, by their numbers. *)
Definition entry_name (entries : list DirEntry) (index : nat) : bytes :=
  match index with
  | O => bstr "."
  | S O => bstr ".."
  | S (S i) => match entries !! i with Some e => de_name e | None => [] end
  end.

Definition encoded_size (encoding : DirectoryEncoding) (name_len : Z) : Z :=
  match encoding with Plain => dirent_size name_len | Plus => direntplus_size name_len end.

Fixpoint buffer_satisfied (indices : list nat) (size : Z) (entries : list DirEntry) (encoding : DirectoryEncoding)
    (used : Z) : bool :=
  match indices with
  | [] => false
  | index :: indices =>
      let needed := encoded_size encoding (vlen (entry_name entries index)) in
      if size <? saturating_add usize_max used needed then true
      else
        let used := saturating_add usize_max used needed in
        (used =? size) || buffer_satisfied indices size entries encoding used
  end.

(** The numbers from [offset] on. *)
Definition indices_from (offset : Z) (entries : list DirEntry) : list nat :=
  drop (Z.to_nat offset) (seq 0 (length entries + 2)).

Definition directory_buffer_satisfied (offset size : Z) (entries : list DirEntry) (encoding : DirectoryEncoding) : bool :=
  if size =? 0 then true
  else if vlen entries + 2 <=? offset then false
  else buffer_satisfied (indices_from offset entries) size entries encoding 0.

(** [while out.len() % 8 != 0 { out.push(0) }] *)
Definition pad8 (out : bytes) : bytes := out ++ replicate (Z.to_nat ((- vlen out) `mod` 8)) x00.

(** The fields of an entry after what the kernel is told of its inode. *)
Definition push_dirent (out : bytes) (ino next_offset kind : Z) (name : bytes) : bytes :=
  pad8 (push_u32 (push_u32 (push_u64 (push_u64 out ino) next_offset) (vlen name)) kind ++ name).

Definition entry_kind (st : Stat) : Z := if stat_is_dir st then DT_DIR else DT_REG.

Definition logical_entries (dot_ino dotdot_ino : Z) (entries : list DirEntry) : list (bytes * Z * Z) :=
  (bstr ".", dot_ino, DT_DIR) :: (bstr "..", dotdot_ino, DT_DIR) ::
  ((λ e, (de_name e, qid_to_inode (de_qid e), entry_kind (de_stat e))) <$> entries).

Fixpoint encode_entries (l : list (bytes * Z * Z)) (index size : Z) (out : bytes) : SResult bytes :=
  match l with
  | [] => inr out
  | (name, ino, kind) :: l =>
      if size <? saturating_add usize_max (vlen out) (dirent_size (vlen name)) then inr out
      else match try_from u32_max (vlen name) with
           | None => inl (session_error libc.EINVAL "directory name too long")
           | Some _ => encode_entries l (index + 1) size (push_dirent out ino (index + 1) kind name)
           end
  end.

Definition encode_dirents (dot_ino dotdot_ino offset size : Z) (entries : list DirEntry) : SResult bytes :=
  encode_entries (drop (Z.to_nat offset) (logical_entries dot_ino dotdot_ino entries)) offset size [].

(** ** Small decisions *)

(** read.rs *)
Definition MAX_PARALLEL_CACHE_READS : Z := 8.
Definition symlink_read_count (st : Stat) : Z := Z.min (1024 * 1024) (Z.max 1 (st_length st)).
Definition read_is_known_eof (known_length offset : Z) : bool := (0 <? known_length) && (known_length <=? offset).
Definition read_count (known_length offset requested : Z) : Z :=
  if known_length =? 0 then requested
  else Z.min requested (default u32_max (try_from u32_max (saturating_sub known_length offset))).
Definition read_handle_is_replayable (is_dir write_on_release : bool) : bool := negb is_dir && negb write_on_release.
Definition read_cache_identity (st : Stat) (stale : bool) : option CacheIdentity :=
  if stale then None else from_stat st.

(** reopen.rs *)
Definition same_file_identity (candidate expected : Qid) : bool :=
  (qid_path candidate =? qid_path expected) && (qtype candidate =? qtype expected).
Definition unique_relocated_entry (entries : list DirEntry) (expected : Qid) : SResult DirEntry :=
  match List.filter (λ e, same_file_identity (de_qid e) expected) entries with
  | [] => inl (session_error libc.ENOENT "open read handle identity is absent from its parent")
  | [e] => inr e
  | _ => inl (session_error libc.EPROTO "open read handle identity is ambiguous within its parent")
  end.

(** write.rs *)
Definition write_timeout_for_handle (open_mode : Z) (uses_control_timeout : bool)
    (read_timeout write_timeout control_timeout : Z) : Z :=
  if uses_control_timeout then control_timeout else if open_mode =? ORDWR then read_timeout else write_timeout.

(** attrs.rs *)
Definition should_ignore_zero_truncate (valid size : Z) (close_commit : bool) : bool :=
  has_bits valid FATTR_SIZE && (size =? 0) && close_commit.

(** create.rs *)
Definition synthetic_created_stat (name : bytes) (qid : Qid) (perm : Z) : Stat := Stat_new name qid (Z.land perm 0x1FF).

(** misc.rs *)
Definition R_OK : Z := 4.
Definition W_OK : Z := 2.
Definition X_OK : Z := 1.
Definition requested_access_is_allowed (mask mode : Z) : bool :=
  negb (has_bits mask R_OK && negb (has_bits mode 0x124)) &&
  negb (has_bits mask W_OK && negb (has_bits mode 0x92)) &&
  negb (has_bits mask X_OK && negb (has_bits mode 0x49)).
Definition flush_should_close_commit (write_on_release close_commit close_commit_flushed : bool) (bytes_written : Z) :
    bool := write_on_release && close_commit && negb close_commit_flushed && (0 <? bytes_written).

(** locks.rs *)
Definition F_UNLCK : Z := 2.
Definition unlocked_file_lock (lock : FuseFileLock) : FuseFileLock :=
  FuseFileLock_mk (lk_start lock) (lk_end lock) F_UNLCK (lk_pid lock).

(** change_feed.rs *)
Inductive MountedPath := POutside | PRoot | PRelative (path : Path).
Inductive MountedChange :=
  | CIgnore
  | CRoot
  | CCreated (path : Path)
  | CRemoved (path : Path)
  | CModified (path : Path)
  | CRenamed (old new : Path).

Definition mounted_path (source_path : Path) (text : bytes) : SResult MountedPath :=
  match parse_namespace_path text with
  | inl e => inl e
  | inr path =>
      inr (if path_has_prefix path source_path then
             match drop (length source_path) path with [] => PRoot | relative => PRelative relative end
           else if path_has_prefix source_path path then PRoot
           else POutside)
  end.

Definition mounted_change (source_path : Path) (change : NamespaceChange) : SResult MountedChange :=
  let kind := nc_change_kind change in
  if negb (existsb (λ k, bool_decide (kind = bstr k)) ["created"; "removed"; "modified"; "renamed"]%string)
  then inl (SessionError_mk libc.EINVAL (bstr "unknown namespace change kind " ++ kind))
  else
    match mounted_path source_path (nc_path change) with
    | inl e => inl e
    | inr path =>
        match match nc_old_path change with Some old => mounted_path source_path old | None => inr POutside end with
        | inl e => inl e
        | inr old_path =>
            match path, old_path with
            | PRoot, _ | _, PRoot => inr CRoot
            | PRelative path, PRelative old =>
                inr (if bool_decide (kind = bstr "created") then CCreated path
                     else if bool_decide (kind = bstr "removed") then CRemoved path
                     else if bool_decide (kind = bstr "modified") then CModified path
                     else CRenamed old path)
            | PRelative path, POutside =>
                inr (if bool_decide (kind = bstr "removed") then CRemoved path
                     else if bool_decide (kind = bstr "modified") then CModified path
                     else CCreated path)
            | POutside, PRelative old => inr (if bool_decide (kind = bstr "renamed") then CRemoved old else CIgnore)
            | POutside, POutside => inr CIgnore
            end
        end
    end.

Section handlers.
Context {W : Type} `{!MountSession W} {os : OsText} (fs : Mounted).

Abbreviation F := (S_ (Fuse W)).

(** ** lookup.rs *)

Definition lookup_once (header : FuseInHeader) (name : bytes) : F unit :=
  client ← client_snapshot;
  fid ← fresh_child_fid fs (hd_nodeid header) name client (lookup_timeout fs);
  st ← on_world (client_stat client fid (lookup_timeout fs));
  now ← get_now;
  nodeid ← change_nodes (insert_lookup_lazy now (hd_nodeid header) st name);
  n ← on_nodes (node nodeid);
  cached_fid ← change_nodes (take_cached_fid nodeid);
  _ ← for_each (option_list cached_fid ++ [fid]) (clunk fs client);
  reply_body (hd_unique header) (BEntry (entry_out fs nodeid (n_generation n) st)).

Definition lookup (header : FuseInHeader) (payload : bytes) : F unit :=
  name ← slift (c_string payload);
  if bool_decide (slash ∈ name) then reply_error (hd_unique header) libc.ENOENT
  else
    first ← sattempt (lookup_once header name);
    result ← match first with
      | inr _ => mret first
      | inl error =>
          if is_transport_error error then _ ← reconnect fs; sattempt (lookup_once header name)
          else if is_lookup_namespace_shape_error error
          then _ ← recover_namespace_shape fs (hd_nodeid header); sattempt (lookup_once header name)
          else mret first
      end;
    match result with
    | inl error =>
        if (errno error =? libc.ENOENT) && negb (cf_negative_timeout (fs_config fs) =? 0)
        then reply_body (hd_unique header) (BEntry (negative_entry_out fs))
        else sthrow error
    | inr _ => mret ()
    end.

Definition forget_node (nodeid nlookup : Z) : F unit :=
  fid ← change_nodes (total (FuseNodes.forget nodeid nlookup));
  match fid with
  | None => mret ()
  | Some fid =>
      client ← sattempt (on_world session_client);
      match client with inr client => clunk fs client fid | inl _ => mret () end
  end.

Definition forget (header : FuseInHeader) (payload : bytes) : F unit :=
  match read_struct (T := FuseForgetIn) payload with
  | inr input => forget_node (hd_nodeid header) (fi_nlookup input)
  | inl _ => mret ()
  end.

(** At most [count] entries, as long as the payload has them. *)
Fixpoint forget_entries (count : nat) (payload : bytes) : F unit :=
  match count with
  | O => mret ()
  | S count =>
      match read_struct (T := FuseForgetOne) payload with
      | inl _ => mret ()
      | inr one =>
          _ ← forget_node (fo_nodeid one) (fo_nlookup one);
          forget_entries count (zdrop (size_of FuseForgetOne) payload)
      end
  end.

(** The number of turns is bounded by the payload: [count] can be any [u32]. *)
Definition batch_forget (payload : bytes) : F unit :=
  match read_struct (T := FuseBatchForgetIn) payload with
  | inl _ => mret ()
  | inr input =>
      forget_entries (Z.to_nat (Z.min (bf_count input) (vlen payload))) (zdrop (size_of FuseBatchForgetIn) payload)
  end.

(** ** attrs.rs *)

Definition getattr_once (header : FuseInHeader) : F unit :=
  cached ← cached_node_stat_if_fresh fs (hd_nodeid header);
  match cached with
  | Some st => reply_body (hd_unique header) (BAttr (attr_out fs st))
  | None =>
      bound ← bound_node_fid fs (hd_nodeid header);
      let '(client, fid) := bound : Z * Z in
      st ← on_world (client_stat client fid (lookup_timeout fs));
      now ← get_now;
      _ ← change_nodes (quietly (update_stat now (hd_nodeid header) st));
      reply_body (hd_unique header) (BAttr (attr_out fs st))
  end.

(** One more attempt after a reconnection or a recovery. *)
Definition retried {A} (nodeid : Z) (once : F A) : F A :=
  first ← sattempt once;
  match first with
  | inr a => mret a
  | inl error =>
      if is_transport_error error then _ ← reconnect fs; once
      else if is_namespace_shape_error error then _ ← recover_namespace_shape fs nodeid; once
      else sthrow error
  end.

Definition getattr (header : FuseInHeader) : F unit := retried (hd_nodeid header) (getattr_once header).

Definition truncate_fallback (client fid : Z) : F unit :=
  let timeout := mutation_timeout fs in
  clone ← on_world (client_clone client fid timeout);
  opened ← sattempt (on_world (client_open_fid client clone (Z.lor OWRITE OTRUNC) timeout));
  _ ← match opened with
      | inr _ => mret ()
      | inl _ =>
          again ← sattempt (on_world (client_open_fid client clone OWRITE timeout));
          match again with
          | inr _ => mret ()
          | inl error => _ ← ignore (on_world (client_clunk_fid client clone timeout)); sthrow error
          end
      end;
  on_world (client_clunk_fid client clone timeout).

Definition with_length (size : Z) : Stat :=
  Stat_mk (st_type null_wstat) (st_dev null_wstat) (st_qid null_wstat) (st_mode null_wstat) (st_atime null_wstat)
    (st_mtime null_wstat) size (st_name null_wstat) (st_uid null_wstat) (st_gid null_wstat) (st_muid null_wstat).

Definition setattr_once (header : FuseInHeader) (input : FuseSetattrIn) : F unit :=
  close_commit_target ←
    (if has_bits (sa_valid input) FATTR_SIZE && (sa_size input =? 0)
     then n ← on_nodes (node (hd_nodeid header)); mret (has_close_commit_mode (n_stat n))
     else mret false);
  let ignore_zero_truncate := should_ignore_zero_truncate (sa_valid input) (sa_size input) close_commit_target in
  bound ←
    (if has_bits (sa_valid input) FATTR_FH
     then h ← on_nodes (handle (sa_fh input)); fid ← slift (require_fid h); mret (h_client h, fid)
     else bound_node_fid fs (hd_nodeid header));
  let '(client, fid) := bound : Z * Z in
  _ ← (if has_bits (sa_valid input) FATTR_SIZE && negb ignore_zero_truncate then
         r ← sattempt (on_world (client_wstat client fid (with_length (sa_size input)) (mutation_timeout fs)));
         match r with
         | inr _ => mret ()
         | inl error => if sa_size input =? 0 then truncate_fallback client fid else sthrow error
         end
       else mret ());
  st ← (if ignore_zero_truncate then n ← on_nodes (node (hd_nodeid header)); mret (n_stat n)
        else on_world (client_stat client fid (lookup_timeout fs)));
  now ← get_now;
  _ ← ignore (change_nodes (quietly (update_stat now (hd_nodeid header) st)));
  reply_body (hd_unique header) (BAttr (attr_out fs st)).

Definition setattr (header : FuseInHeader) (payload : bytes) : F unit :=
  input ← slift (read_struct (T := FuseSetattrIn) payload);
  first ← sattempt (setattr_once header input);
  match first with
  | inr _ => mret ()
  | inl error =>
      if is_namespace_shape_error error then
        _ ← recover_namespace_shape fs (hd_nodeid header);
        if has_bits (sa_valid input) FATTR_FH
        then sthrow (session_error libc.ESTALE "setattr file handle is stale after namespace refresh")
        else setattr_once header input
      else sthrow error
  end.

(** ** create.rs *)

Definition create_remote (parent_nodeid : Z) (name : bytes) (perm mode : Z) : F (Z * Z * Z * Qid) :=
  bound ← bound_node_fid fs parent_nodeid;
  let '(client, parent_fid) := bound : Z * Z in
  let timeout := mutation_timeout fs in
  create_fid ← on_world (client_clone client parent_fid timeout);
  created ← sattempt (on_world (client_create client create_fid name perm mode timeout));
  match created with
  | inl error => _ ← clunk fs client create_fid; sthrow error
  | inr (fid, qid) => mret (client, parent_fid, fid, qid)
  end.

(** Only the creation itself is tried again, and only when the namespace had changed. *)
Definition create_recovered (nodeid : Z) (name : bytes) (perm mode : Z) : F (Z * Z * Z * Qid) :=
  created ← sattempt (create_remote nodeid name perm mode);
  match created with
  | inr created => mret created
  | inl error =>
      if is_namespace_shape_error error
      then _ ← recover_namespace_shape fs nodeid; create_remote nodeid name perm mode
      else sthrow error
  end.

(** [payload.get(size_of::<T>()..)] *)
Definition after_struct (T : Type) `{!Wire T} (payload : bytes) (missing : string) : SResult bytes :=
  if size_of T <=? vlen payload then inr (zdrop (size_of T) payload) else inl (session_error libc.EINVAL missing).

Definition created_handle (client open_fid mode : Z) : OpenHandle :=
  OpenHandle_mk client (Some open_fid) mode false (negb (mode =? OREAD)) false None.

Definition create (header : FuseInHeader) (payload : bytes) : F unit :=
  input ← slift (read_struct (T := FuseCreateIn) payload);
  rest ← slift (after_struct FuseCreateIn payload "missing create name");
  name ← slift (c_string rest);
  let mode := flags_to_9p_mode (ci_flags input) in
  let perm := Z.land (ci_mode input) 0x1FF in
  created ← create_recovered (hd_nodeid header) name perm mode;
  let '(client, parent_fid, open_fid, created_qid) := created : Z * Z * Z * Qid in
  walked ← sattempt
    (node_fid ← walk_one client parent_fid name (lookup_timeout fs);
     stated ← sattempt (on_world (client_stat client node_fid (lookup_timeout fs)));
     match stated with
     | inr st => mret (node_fid, st)
     | inl error => _ ← clunk fs client node_fid; sthrow error
     end);
  out ← match walked with
    | inr (node_fid, st) =>
        now ← get_now;
        inserted ← change_nodes (insert_lookup now (hd_nodeid header) node_fid st name);
        fh ← change_nodes (total (open_handle (created_handle client open_fid mode)));
        n ← on_nodes (node (ins_nodeid inserted));
        mret (ins_nodeid inserted, n_generation n, fh, st, ins_clunk_fid inserted)
    | inl error =>
        if is_namespace_shape_error error then
          let st := synthetic_created_stat name created_qid perm in
          now ← get_now;
          nodeid ← change_nodes (insert_lookup_lazy now (hd_nodeid header) st name);
          fh ← change_nodes (total (open_handle (created_handle client open_fid mode)));
          n ← on_nodes (node nodeid);
          mret (nodeid, n_generation n, fh, st, None)
        else _ ← clunk fs client open_fid; sthrow error
    end;
  let '(nodeid, generation, fh, st, clunk_fid) := out : Z * Z * Z * Stat * option Z in
  _ ← clunk_old fs client clunk_fid;
  reply_body (hd_unique header)
    (BCreate (FuseCreateOut_mk (entry_out fs nodeid generation st)
                (FuseOpenOut_mk fh (fuse_open_flags false mode (st_length st) false) 0))).

Definition insert_created_node (header : FuseInHeader) (client parent_fid : Z) (name : bytes) : F unit :=
  node_fid ← walk_one client parent_fid name (lookup_timeout fs);
  st ← on_world (client_stat client node_fid (lookup_timeout fs));
  now ← get_now;
  inserted ← change_nodes (insert_lookup now (hd_nodeid header) node_fid st name);
  n ← on_nodes (node (ins_nodeid inserted));
  _ ← clunk_old fs client (ins_clunk_fid inserted);
  reply_body (hd_unique header) (BEntry (entry_out fs (ins_nodeid inserted) (n_generation n) st)).

(** What [mkdir] and [mknod] do with the permissions of their request. *)
Definition make_node (header : FuseInHeader) (name : bytes) (perm : Z) : F unit :=
  created ← create_recovered (hd_nodeid header) name perm OREAD;
  let '(client, parent_fid, fid, _) := created : Z * Z * Z * Qid in
  _ ← clunk fs client fid;
  insert_created_node header client parent_fid name.

Definition mkdir (header : FuseInHeader) (payload : bytes) : F unit :=
  input ← slift (read_struct (T := FuseMkdirIn) payload);
  rest ← slift (after_struct FuseMkdirIn payload "missing mkdir name");
  name ← slift (c_string rest);
  make_node header name (Z.lor DMDIR (Z.land (md_mode input) 0x1FF)).

Definition mknod (header : FuseInHeader) (payload : bytes) : F unit :=
  input ← slift (read_struct (T := FuseMknodIn) payload);
  rest ← slift (after_struct FuseMknodIn payload "missing mknod name");
  name ← slift (c_string rest);
  make_node header name (Z.land (mk_mode input) 0x1FF).

(** ** mutate.rs *)

Definition walk_child_for_mutation (parent_nodeid : Z) (name : bytes) : F (Z * Z) :=
  bound ← bound_node_fid fs parent_nodeid;
  let '(client, parent_fid) := bound : Z * Z in
  fid ← walk_one client parent_fid name (mutation_timeout fs);
  mret (client, fid).

Definition remove (header : FuseInHeader) (payload : bytes) : F unit :=
  name ← slift (c_string payload);
  removed_path ← on_nodes (child_path (hd_nodeid header) name);
  walked ← retried (hd_nodeid header) (walk_child_for_mutation (hd_nodeid header) name);
  let '(client, fid) := walked : Z * Z in
  _ ← on_world (client_remove client fid (mutation_timeout fs));
  stale ← change_nodes (total (remove_path_subtree removed_path));
  _ ← for_each stale (clunk fs client);
  reply_empty (hd_unique header).

Record RenamePlan := RenamePlan_mk {
  rp_client : Z;
  rp_old_parent_fid : Z;
  rp_new_parent_fid : Z;
  rp_fid : Z;
  rp_before : Stat;
  rp_old_path : Path;
  rp_replaced : option Stat;
  rp_new_path : Path;
  rp_cross_parent : bool;
}.

Definition over_directory : SessionError := session_error libc.EISDIR "cannot rename a file over a directory".

(** The stat of the file a rename would replace; [fid] is the file to rename. *)
Definition stat_existing (client existing fid : Z) : F Stat :=
  stated ← sattempt (on_world (client_stat client existing (lookup_timeout fs)));
  match stated with
  | inr st => mret st
  | inl error => _ ← clunk fs client existing; _ ← clunk fs client fid; sthrow error
  end.

Definition refuse_over_directory (client existing fid : Z) : F unit :=
  _ ← clunk fs client existing;
  _ ← clunk fs client fid;
  sthrow over_directory.

Definition prepare_rename (old_parent new_parent : Z) (old_name new_name : bytes) : F RenamePlan :=
  old_path ← on_nodes (child_path old_parent old_name);
  new_path ← on_nodes (child_path new_parent new_name);
  bound ← bound_node_fid fs old_parent;
  let '(client, old_parent_fid) := bound : Z * Z in
  new_parent_fid ←
    (if new_parent =? old_parent then mret old_parent_fid
     else bound ← bound_node_fid fs new_parent; mret (bound : Z * Z).2);
  let cross_parent := negb (new_parent =? old_parent) in
  fid ← walk_one client old_parent_fid old_name (mutation_timeout fs);
  before ← on_world (client_stat client fid (lookup_timeout fs));
  found ← sattempt (walk_one client new_parent_fid new_name (lookup_timeout fs));
  replaced ← match found with
    | inl _ => mret None
    | inr existing =>
        st ← stat_existing client existing fid;
        if negb cross_parent && stat_is_dir st then _ ← refuse_over_directory client existing fid; mret None
        else _ ← clunk fs client existing; mret (Some st)
    end;
  mret (RenamePlan_mk client old_parent_fid new_parent_fid fid before old_path replaced new_path cross_parent).

Definition with_name (name : bytes) : Stat :=
  Stat_mk (st_type null_wstat) (st_dev null_wstat) (st_qid null_wstat) (st_mode null_wstat) (st_atime null_wstat)
    (st_mtime null_wstat) (st_length null_wstat) name (st_uid null_wstat) (st_gid null_wstat) (st_muid null_wstat).

Definition rename_fid (client fid : Z) (new_name : bytes) : F unit :=
  on_world (client_wstat client fid (with_name new_name) (mutation_timeout fs)).

(** The rename itself: what it replaced, as far as that is known. *)
Definition rename_remote (plan : RenamePlan) (old_name new_name : bytes) : F (option Stat) :=
  let client := rp_client plan in
  let fid := rp_fid plan in
  renamed ← sattempt
    (if rp_cross_parent plan
     then on_world (client_rename_at client (rp_old_parent_fid plan) old_name (rp_new_parent_fid plan) new_name
                      (mutation_timeout fs))
     else rename_fid client fid new_name);
  match renamed with
  | inr _ => mret (rp_replaced plan)
  | inl error =>
      if rp_cross_parent plan then _ ← clunk fs client fid; sthrow error
      else if errno error =? libc.EEXIST then
        found ← sattempt (walk_one client (rp_old_parent_fid plan) new_name (lookup_timeout fs));
        replaced ← match found with
          | inl _ => mret (rp_replaced plan)
          | inr existing =>
              st ← stat_existing client existing fid;
              if stat_is_dir st then _ ← refuse_over_directory client existing fid; mret None
              else _ ← ignore (on_world (client_remove client existing (mutation_timeout fs))); mret (Some st)
          end;
        _ ← rename_fid client fid new_name;
        mret replaced
      else _ ← clunk fs client fid; sthrow error
  end.

Definition stat_renamed_fid (client parent_fid fid : Z) (new_name : bytes) : F (Z * Stat) :=
  stated ← sattempt (on_world (client_stat client fid (lookup_timeout fs)));
  match stated with
  | inr st => mret (fid, st)
  | inl error =>
      _ ← clunk fs client fid;
      if is_namespace_shape_error error then
        rebound ← walk_one client parent_fid new_name (lookup_timeout fs);
        stated ← sattempt (on_world (client_stat client rebound (lookup_timeout fs)));
        match stated with
        | inr st => mret (rebound, st)
        | inl error => _ ← clunk fs client rebound; sthrow error
        end
      else sthrow error
  end.

Definition rename_prepared (unique : Z) (old_name new_name : bytes) (plan : RenamePlan) : F unit :=
  let client := rp_client plan in
  replaced ← rename_remote plan old_name new_name;
  renamed ← stat_renamed_fid client (rp_new_parent_fid plan) (rp_fid plan) new_name;
  let '(fid, after) := renamed : Z * Stat in
  replaced ← match replaced with
    | Some st =>
        if stat_is_dir st then
          stale ← change_nodes (total (remove_path_subtree (rp_new_path plan)));
          _ ← for_each stale (clunk fs client);
          mret None
        else mret (Some st)
    | None => mret None
    end;
  _ ← change_nodes (total (mark_parent_directory_cache_stale (rp_old_path plan)));
  _ ← change_nodes (total (mark_parent_directory_cache_stale (rp_new_path plan)));
  _ ← change_nodes (total (λ t, ((), move_path_prefix (rp_old_path plan) (rp_new_path plan) t)));
  now ← get_now;
  old_fid ← change_nodes (total (replace_first_qid now (st_qid (rp_before plan)) fid after (Some (rp_new_path plan))));
  _ ← clunk_old fs client old_fid;
  _ ← match replaced with
      | None => mret ()
      | Some replaced =>
          found ← sattempt (walk_one client (rp_new_parent_fid plan) new_name (lookup_timeout fs));
          match found with
          | inl _ => mret ()
          | inr replacement =>
              now ← get_now;
              old_fid ← change_nodes (total (replace_first_qid now (st_qid replaced) replacement after
                                               (Some (rp_new_path plan))));
              match old_fid with Some old_fid => clunk fs client old_fid | None => clunk fs client replacement end
          end
      end;
  _ ← match old_fid with
      | Some _ => mret ()
      | None =>
          now ← get_now;
          _ ← change_nodes (total (λ t, ((), refresh_qid now (st_qid (rp_before plan)) after
                                               (Some (rp_new_path plan)) t)));
          clunk fs client fid
      end;
  reply_empty unique.

Definition rename (header : FuseInHeader) (payload : bytes) : F unit :=
  input ← slift (read_struct (T := FuseRenameIn) payload);
  names ← slift (after_struct FuseRenameIn payload "missing rename names");
  first ← slift (next_c_string names);
  let '(old_name, rest) := first : bytes * bytes in
  second ← slift (next_c_string rest);
  let '(new_name, _) := second : bytes * bytes in
  let prepare := prepare_rename (hd_nodeid header) (rn_newdir input) old_name new_name in
  prepared ← sattempt prepare;
  plan ← match prepared with
    | inr plan => mret plan
    | inl error =>
        if is_transport_error error then _ ← reconnect fs; prepare
        else if is_namespace_shape_error error then
          _ ← recover_namespace_shape fs (hd_nodeid header);
          _ ← (if negb (rn_newdir input =? hd_nodeid header) then recover_namespace_shape fs (rn_newdir input)
               else mret ());
          prepare
        else sthrow error
    end;
  rename_prepared (hd_unique header) old_name new_name plan.

(** ** misc.rs, locks.rs *)

Definition statfs (header : FuseInHeader) : F unit :=
  reply_body (hd_unique header) (BStatfs (FuseKstatfs_mk 0 0 0 0 0 8192 255 8192 0 (replicate 6 0))).

Definition EOPNOTSUPP : Z := 95.
Definition ENOSYS : Z := 38.

Definition poll (header : FuseInHeader) (payload : bytes) : F unit :=
  _ ← slift (read_struct (T := FusePollIn) payload);
  reply_error (hd_unique header) EOPNOTSUPP.

Definition flush (header : FuseInHeader) (payload : bytes) : F unit :=
  input ← slift (read_struct (T := FuseFlushIn) payload);
  h ← on_nodes (handle (fl_fh input));
  invalidate_after_reply ←
    (if flush_should_close_commit (h_write_on_release h) (h_close_commit h) (h_close_commit_flushed h)
          (h_bytes_written h)
     then
       fid ← slift (require_fid h);
       r ← sattempt (on_world (client_clunk_fid (h_client h) fid (control_timeout fs)));
       _ ← match r with
           | inr _ => mret ()
           | inl error =>
               if is_transport_error error then
                 _ ← reconnect fs;
                 sthrow (session_error libc.EIO "flush failed during reconnect; close result is unknown")
               else if is_namespace_shape_error error then
                 if close_commit_refreshes_namespace_bindings (h_close_commit h) then mret ()
                 else
                   _ ← recover_namespace_shape fs (hd_nodeid header);
                   sthrow (session_error libc.EIO "flush failed during namespace refresh; close result is unknown")
               else sthrow error
           end;
       _ ← change_nodes (quietly (mark_close_commit_flushed (fl_fh input)));
       mret (close_commit_refreshes_namespace_bindings (h_close_commit h))
     else mret false);
  _ ← reply_empty (hd_unique header);
  if invalidate_after_reply : bool then invalidate_namespace_bindings_after_reply fs else mret ().

Definition fsync (header : FuseInHeader) (payload : bytes) : F unit :=
  input ← slift (read_struct (T := FuseFsyncIn) payload);
  _ ← on_nodes (handle (fs_fh input));
  reply_empty (hd_unique header).

Definition fsyncdir (header : FuseInHeader) (payload : bytes) : F unit :=
  input ← slift (read_struct (T := FuseFsyncIn) payload);
  h ← on_nodes (handle (fs_fh input));
  if negb (h_is_dir h) then reply_error (hd_unique header) libc.ENOTDIR else reply_empty (hd_unique header).

Definition access (header : FuseInHeader) (payload : bytes) : F unit :=
  input ← slift (read_struct (T := FuseAccessIn) payload);
  if ac_mask input =? 0 then reply_empty (hd_unique header)
  else
    n ← on_nodes (node (hd_nodeid header));
    let mode := Z.land (fa_mode (attr fs (n_stat n))) 0x1FF in
    if requested_access_is_allowed (ac_mask input) mode then reply_empty (hd_unique header)
    else reply_error (hd_unique header) libc.EACCES.

Definition getlk (header : FuseInHeader) (payload : bytes) : F unit :=
  input ← slift (read_struct (T := FuseLkIn) payload);
  reply_body (hd_unique header) (BLk (FuseLkOut_mk (unlocked_file_lock (li_lk input)))).

Definition setlk (header : FuseInHeader) : F unit := reply_empty (hd_unique header).

(** ** dir.rs *)

(** [validate_directory_entries] of the session's cache.rs *)
Fixpoint validate_entries (client : Z) (l : list Stat) : F (list DirEntry) :=
  match l with
  | [] => mret []
  | st :: l =>
      st ← on_world (client_validate_stat client st);
      entries ← validate_entries client l;
      mret (DirEntry_mk (st_name st) (st_qid st) st :: entries)
  end.

Definition validate_directory_entries (client : Z) (data : bytes) : F (list DirEntry) :=
  match decode_dir_entries data with
  | Err e => sthrow (SessionError_mk libc.EPROTO (bstr "decode dir stat: " ++ display_lossy e))
  | Ok l => validate_entries client l
  end.

Definition directory_chunk (size : Z) : Z := Z.min DEFAULT_READ_CHUNK (Z.max 4096 size).

(** One turn of the loop that fills the stream of a handle. *)
Definition directory_turn (fh offset size : Z) (encoding : DirectoryEncoding) (s : Fuse W) :
    Fuse W + (SResult (list DirEntry) * Fuse W) :=
  match directories (f_nodes s) !! fh with
  | None => inr (inl (session_error libc.ESTALE "directory handle has no incremental stream"), s)
  | Some d =>
      if ds_eof d || directory_buffer_satisfied offset size (ds_entries d) encoding then inr (inr (ds_entries d), s)
      else
        let put d s := set_table (set_directories <[fh := d]> (f_nodes s)) s in
        match on_world (client_read_at (ds_client d) (ds_fid d) (ds_remote_offset d) (directory_chunk size)
                          (read_timeout fs)) s with
        | (inl e, s) => inr (inl e, s)
        | (inr chunk, s) =>
            if bool_decide (chunk = [])
            then inl (put (DirectoryStream_mk (ds_client d) (ds_fid d) (ds_remote_offset d) (ds_entries d) true) s)
            else
              match validate_directory_entries (ds_client d) chunk s with
              | (inl e, s) => inr (inl e, s)
              | (inr validated, s) =>
                  inl (put (DirectoryStream_mk (ds_client d) (ds_fid d)
                              (saturating_add u64_max (ds_remote_offset d) (vlen chunk)) (ds_entries d ++ validated)
                              (ds_eof d)) s)
              end
        end
  end.

(** Every turn but the last reads a byte of the directory, and they are all kept. *)
Definition directory_entries_for_read (fh offset size : Z) (encoding : DirectoryEncoding) : F (list DirEntry) :=
  h ← on_nodes (handle fh);
  if negb (h_is_dir h) then sthrow (session_error libc.ENOTDIR "file handle is not a directory")
  else λ s,
    match loop 64 (directory_turn fh offset size encoding) s with
    | inl s => (inl (session_error libc.EIO "unreachable"), s)
    | inr result => result
    end.

Definition reopen_directory_handle (nodeid fh : Z) : F unit :=
  bound ← bound_node_fid fs nodeid;
  let '(client, node_fid) := bound : Z * Z in
  fid ← on_world (client_clone client node_fid (lookup_timeout fs));
  opened ← sattempt (on_world (client_open_fid client fid OREAD (lookup_timeout fs)));
  match opened with
  | inl error => _ ← clunk fs client fid; sthrow error
  | inr _ =>
      replaced ← sattempt (change_nodes (replace_directory_handle_binding fh client fid));
      match replaced with
      | inl error => _ ← clunk fs client fid; sthrow error
      | inr (old_client, old_fid) => clunk fs old_client old_fid
      end
  end.

Definition directory_entries_for_read_with_recovery (nodeid fh offset size : Z) (encoding : DirectoryEncoding) :
    F (list DirEntry) :=
  first ← sattempt (directory_entries_for_read fh offset size encoding);
  match first with
  | inr entries => mret entries
  | inl error =>
      if is_transport_error error then
        _ ← reconnect fs;
        _ ← reopen_directory_handle nodeid fh;
        directory_entries_for_read fh offset size encoding
      else if is_namespace_shape_error error then
        _ ← recover_namespace_shape fs nodeid;
        _ ← reopen_directory_handle nodeid fh;
        directory_entries_for_read fh offset size encoding
      else sthrow error
  end.

Definition special_direntplus_entry (parent : Z) (name : bytes) : F (FuseEntryOut * Z * Z) :=
  nodeid ← (if bool_decide (name = bstr "..") then on_nodes (parent_nodeid parent) else mret parent);
  n ← on_nodes (node nodeid);
  mret (entry_out fs nodeid (n_generation n) (n_stat n), DT_DIR, qid_to_inode (n_qid n)).

Definition bind_child (parent : Z) (e : DirEntry) : F Z :=
  now ← get_now;
  change_nodes (insert_lookup_lazy now parent (de_stat e) (de_name e)).

Definition direntplus_entry (parent : Z) (entries : list DirEntry) (index : nat) : F (FuseEntryOut * Z * Z) :=
  match index with
  | S (S i) =>
      match entries !! i with
      | None => sthrow (session_error libc.EIO "unreachable")
      | Some e =>
          nodeid ← bind_child parent e;
          n ← on_nodes (node nodeid);
          mret (entry_out fs nodeid (n_generation n) (de_stat e), entry_kind (de_stat e), qid_to_inode (de_qid e))
      end
  | _ => special_direntplus_entry parent (entry_name entries index)
  end.

Fixpoint encode_dirents_plus_from (parent size : Z) (entries : list DirEntry) (indices : list nat) (out : bytes) : F bytes :=
  match indices with
  | [] => mret out
  | index :: indices =>
      let name := entry_name entries index in
      if size <? saturating_add usize_max (vlen out) (direntplus_size (vlen name)) then mret out
      else
        e ← direntplus_entry parent entries index;
        let '(entry, kind, ino) := e : FuseEntryOut * Z * Z in
        _ ← slift (some_or (try_from u32_max (vlen name)) (session_error libc.EINVAL "directory name too long"));
        encode_dirents_plus_from parent size entries indices
          (push_dirent (out ++ as_bytes entry) ino (Z.of_nat index + 1) kind name)
  end.

Definition encode_dirents_plus (parent offset size : Z) (entries : list DirEntry) : F bytes :=
  encode_dirents_plus_from parent size entries (indices_from offset entries) [].

Definition special_dirent_inodes (parent : Z) : F (Z * Z) :=
  dot ← on_nodes (node parent);
  up ← on_nodes (parent_nodeid parent);
  dotdot ← on_nodes (node up);
  mret (qid_to_inode (n_qid dot), qid_to_inode (n_qid dotdot)).

Definition readdir (header : FuseInHeader) (payload : bytes) : F unit :=
  input ← slift (read_struct (T := FuseReadIn) payload);
  entries ← directory_entries_for_read_with_recovery (hd_nodeid header) (ri_fh input) (ri_offset input)
              (ri_size input) Plain;
  inodes ← special_dirent_inodes (hd_nodeid header);
  data ← slift (encode_dirents (inodes : Z * Z).1 inodes.2 (ri_offset input) (ri_size input) entries);
  reply_bytes (hd_unique header) data.

Definition readdirplus (header : FuseInHeader) (payload : bytes) : F unit :=
  input ← slift (read_struct (T := FuseReadIn) payload);
  entries ← directory_entries_for_read_with_recovery (hd_nodeid header) (ri_fh input) (ri_offset input)
              (ri_size input) Plus;
  data ← encode_dirents_plus (hd_nodeid header) (ri_offset input) (ri_size input) entries;
  reply_bytes (hd_unique header) data.

(** ** io/open.rs *)

Definition open_once (header : FuseInHeader) (input : FuseOpenIn) (is_dir_open : bool) : F unit :=
  n ← on_nodes (node (hd_nodeid header));
  let node_stat := n_stat n in
  if is_dir_open && negb (stat_is_dir node_stat) then reply_error (hd_unique header) libc.ENOTDIR
  else
    client ← client_snapshot;
    let requested := flags_to_9p_mode (oi_flags input) in
    let open_timeout := if (requested =? OREAD) || is_dir_open then lookup_timeout fs else mutation_timeout fs in
    fid ← fresh_node_fid fs (hd_nodeid header) client open_timeout;
    let mode := if is_dir_open then OREAD else requested in
    let close_commit_target := has_close_commit_mode node_stat in
    let mode := if close_commit_target then Z.land mode (u8_not OTRUNC) else mode in
    opened ← sattempt (on_world (client_open_fid client fid mode open_timeout));
    mode ← match opened with
      | inr _ => mret mode
      | inl error =>
          if has_bits mode OTRUNC && negb (is_transport_error error) && negb (is_namespace_shape_error error) then
            let mode := Z.land mode (u8_not OTRUNC) in
            again ← sattempt (on_world (client_open_fid client fid mode open_timeout));
            match again with
            | inr _ => mret mode
            | inl error => _ ← clunk fs client fid; sthrow error
            end
          else _ ← clunk fs client fid; sthrow error
      end;
    let write_on_release := negb is_dir_open && negb (mode =? OREAD) in
    fh ← change_nodes (total (open_handle
           (OpenHandle_mk client (if is_dir_open then None else Some fid) mode is_dir_open write_on_release
              (write_on_release && close_commit_target)
              (if is_dir_open then Some (DirectoryStream_mk client fid 0 [] false) else None))));
    reply_body (hd_unique header)
      (BOpen (FuseOpenOut_mk fh (fuse_open_flags is_dir_open mode (st_length node_stat)
                                   (cf_coherent_read_cache (fs_config fs))) 0)).

Definition open (header : FuseInHeader) (payload : bytes) (is_dir_open : bool) : F unit :=
  input ← slift (read_struct (T := FuseOpenIn) payload);
  let replayable := is_dir_open || (flags_to_9p_mode (oi_flags input) =? OREAD) in
  first ← sattempt (open_once header input is_dir_open);
  match first with
  | inr _ => mret ()
  | inl error =>
      if is_namespace_shape_error error
      then _ ← recover_namespace_shape fs (hd_nodeid header); open_once header input is_dir_open
      else if is_transport_error error then
        _ ← reconnect fs;
        if replayable then open_once header input is_dir_open
        else sthrow (session_error libc.EIO "open failed during reconnect; mutating opens are not replayed")
      else sthrow error
  end.

(** ** io/reopen.rs *)

(** One turn of the loop of [read_open_directory_entries]. *)
Definition open_directory_turn (client fid : Z) (st : Z * bytes * Fuse W) :
    (Z * bytes * Fuse W) + (SResult bytes * Fuse W) :=
  let '(offset, all, s) := st in
  match on_world (client_read_at client fid offset DEFAULT_READ_CHUNK (read_timeout fs)) s with
  | (inl e, s) => inr (inl e, s)
  | (inr chunk, s) =>
      if bool_decide (chunk = []) then inr (inr all, s)
      else inl (saturating_add u64_max offset (vlen chunk), all ++ chunk, s)
  end.

(** Every turn but the last reads a byte, and they are all kept. *)
Definition read_open_directory_entries (client fid : Z) : F (list DirEntry) :=
  all ← (λ s, match loop 64 (open_directory_turn client fid) (0, [], s) with
              | inl (_, _, s) => (inl (session_error libc.EIO "unreachable"), s)
              | inr result => result
              end);
  validate_directory_entries client all.

Definition read_directory_for_relocation (client parent_fid : Z) : F (list DirEntry) :=
  fid ← on_world (client_clone client parent_fid (lookup_timeout fs));
  opened ← sattempt (on_world (client_open_fid client fid OREAD (lookup_timeout fs)));
  match opened with
  | inl error => _ ← clunk fs client fid; sthrow error
  | inr _ =>
      result ← sattempt (read_open_directory_entries client fid);
      _ ← clunk fs client fid;
      slift result
  end.

Definition relocated_read_binding (nodeid : Z) : F (Z * Z * Stat) :=
  n ← on_nodes (node nodeid);
  match n_path n with
  | [] => sthrow (session_error libc.ESTALE "root read handle cannot relocate")
  | path =>
      let expected := n_qid n in
      client ← client_snapshot;
      parent_fid ← walk_from_source fs client (removelast path) (lookup_timeout fs);
      result ← sattempt
        (entries ← read_directory_for_relocation client parent_fid;
         entry ← slift (unique_relocated_entry entries expected);
         fid ← walk_one client parent_fid (de_name entry) (lookup_timeout fs);
         stated ← sattempt (on_world (client_stat client fid (lookup_timeout fs)));
         match stated with
         | inr st =>
             if same_file_identity (st_qid st) expected then mret (client, fid, st)
             else
               _ ← clunk fs client fid;
               sthrow (session_error libc.ESTALE "relocated read handle identity changed during reopen")
         | inl error => _ ← clunk fs client fid; sthrow error
         end);
      _ ← clunk fs client parent_fid;
      slift result
  end.

Definition reopen_read_binding (nodeid : Z) : F (Z * Z * Stat) :=
  bound ← sattempt (bound_node_fid fs nodeid);
  b ← match bound with
    | inr (client, node_fid) =>
        n ← on_nodes (node nodeid);
        fid ← on_world (client_clone client node_fid (lookup_timeout fs));
        mret (client, fid, n_stat n)
    | inl error => if errno error =? libc.ENOENT then relocated_read_binding nodeid else sthrow error
    end;
  let '(client, fid, st) := b : Z * Z * Stat in
  opened ← sattempt (on_world (client_open_fid client fid OREAD (lookup_timeout fs)));
  match opened with
  | inl error => _ ← clunk fs client fid; sthrow error
  | inr _ => mret (client, fid, st)
  end.

(** ** io/read.rs *)

Definition readlink (header : FuseInHeader) : F unit :=
  n ← on_nodes (node (hd_nodeid header));
  let st := n_stat n in
  if negb (stat_is_symlink st) then reply_error (hd_unique header) libc.EINVAL
  else
    bound ← bound_node_fid fs (hd_nodeid header);
    let '(client, fid) := bound : Z * Z in
    data ← sattempt (on_world (client_read_full client fid 0 (symlink_read_count st) (read_timeout fs)));
    match data with
    | inr data => reply_bytes (hd_unique header) data
    | inl error =>
        if is_transport_error error then
          _ ← reconnect fs;
          sthrow (session_error libc.ESTALE "symlink handle is stale after 9P reconnect")
        else if is_namespace_shape_error error then
          _ ← recover_namespace_shape fs (hd_nodeid header);
          sthrow (session_error libc.ESTALE "symlink handle is stale after namespace refresh")
        else sthrow error
    end.

(** A read through the cache: what it misses is read from the server. *)
Definition cached_read (c : ReadCache) (client fid : Z) (identity : CacheIdentity) (offset size : Z) : F bytes := λ s,
  let '(r, (c, w)) :=
    ReadCache.read (λ range_offset range_size,
                      client_read_parallel client fid range_offset range_size MAX_PARALLEL_CACHE_READS (read_timeout fs))
      identity offset size (c, f_world s) in
  (r, set_cache (Some c) (FuseState.set_world w s)).

Definition read_handle_range (client fid open_mode : Z) (st : Stat) (identity : option CacheIdentity) (offset size : Z) :
    F bytes :=
  cache ← sgets f_cache;
  match cache, identity with
  | Some c, Some identity =>
      if open_mode =? OREAD then cached_read c client fid identity offset size
      else if 0 <? st_length st then on_world (client_read_full client fid offset size (read_timeout fs))
      else on_world (client_read_at client fid offset size (read_timeout fs))
  | _, _ =>
      if 0 <? st_length st then on_world (client_read_full client fid offset size (read_timeout fs))
      else on_world (client_read_at client fid offset size (read_timeout fs))
  end.

Definition read_from_reopened_handle (nodeid fh offset size : Z) : F bytes :=
  b ← reopen_read_binding nodeid;
  let '(client, fid, st) := b : Z * Z * Stat in
  replaced ← sattempt (change_nodes (replace_read_handle_binding fh client fid));
  match replaced with
  | inl error => _ ← clunk fs client fid; sthrow error
  | inr old =>
      old_fid ← slift (require_fid old);
      _ ← clunk fs (h_client old) old_fid;
      read_handle_range client fid OREAD st (read_cache_identity st false) offset size
  end.

Definition not_replayable : SessionError := session_error libc.ESTALE "file handle is not replayable".

Definition read (header : FuseInHeader) (payload : bytes) : F unit :=
  input ← slift (read_struct (T := FuseReadIn) payload);
  n ← on_nodes (node (hd_nodeid header));
  let st := n_stat n in
  let identity := read_cache_identity st (is_stale (n_freshness n)) in
  if read_is_known_eof (st_length st) (ri_offset input) then reply_bytes (hd_unique header) []
  else
    let count := read_count (st_length st) (ri_offset input) (ri_size input) in
    h ← on_nodes (handle (ri_fh input));
    fid ← slift (require_fid h);
    data ← sattempt (read_handle_range (h_client h) fid (h_open_mode h) st identity (ri_offset input) count);
    data ← match data with
      | inr data => mret data
      | inl error =>
          let replayable := read_handle_is_replayable (h_is_dir h) (h_write_on_release h) in
          if is_transport_error error then
            _ ← reconnect fs;
            if replayable then read_from_reopened_handle (hd_nodeid header) (ri_fh input) (ri_offset input) count
            else sthrow not_replayable
          else if is_namespace_shape_error error then
            _ ← recover_namespace_shape fs (hd_nodeid header);
            if replayable then read_from_reopened_handle (hd_nodeid header) (ri_fh input) (ri_offset input) count
            else sthrow not_replayable
          else sthrow error
      end;
    reply_bytes (hd_unique header) data.

(** ** io/write.rs *)

Definition write_from_reopened_write_handle (nodeid fh offset : Z) (data : bytes) (timeout : Z) : F Z :=
  bound ← bound_node_fid fs nodeid;
  let '(client, node_fid) := bound : Z * Z in
  fid ← on_world (client_clone client node_fid (control_timeout fs));
  opened ← sattempt (on_world (client_open_fid client fid OWRITE (control_timeout fs)));
  match opened with
  | inl error => _ ← clunk fs client fid; sthrow error
  | inr _ =>
      replaced ← sattempt (change_nodes (replace_write_handle_binding fh client fid));
      match replaced with
      | inl error => _ ← clunk fs client fid; sthrow error
      | inr old =>
          old_fid ← slift (require_fid old);
          _ ← clunk fs (h_client old) old_fid;
          on_world (client_write_at client fid offset data timeout)
      end
  end.

Definition write (header : FuseInHeader) (payload : bytes) : F unit :=
  input ← slift (read_struct (T := FuseWriteIn) payload);
  data ← slift (if vlen payload <? size_of FuseWriteIn + wi_size input
                then inl (session_error libc.EINVAL "truncated FUSE write")
                else inr (ztake (wi_size input) (zdrop (size_of FuseWriteIn) payload)));
  n ← on_nodes (node (hd_nodeid header));
  let path := n_path n in
  h ← on_nodes (handle (wi_fh input));
  let timeout := write_timeout_for_handle (h_open_mode h) (write_uses_control_timeout path (h_close_commit h))
                   (read_timeout fs) (write_timeout fs) (control_timeout fs) in
  fid ← slift (require_fid h);
  written ← sattempt (on_world (client_write_at (h_client h) fid (wi_offset input) data timeout));
  count ← match written with
    | inr count => mret count
    | inl error =>
        if is_transport_error error then
          _ ← reconnect fs;
          sthrow (session_error libc.EIO "write failed during reconnect and was not replayed")
        else if is_namespace_shape_error error then
          _ ← recover_namespace_shape fs (hd_nodeid header);
          if write_can_replay_after_namespace_refresh path (h_close_commit h) (wi_offset input)
          then write_from_reopened_write_handle (hd_nodeid header) (wi_fh input) (wi_offset input) data timeout
          else sthrow (session_error libc.EIO "write failed during namespace refresh and was not replayed")
        else sthrow error
    end;
  _ ← (if 0 <? count then change_nodes (quietly (note_handle_write (wi_fh input) count)) else mret ());
  _ ← reply_body (hd_unique header) (BWrite (FuseWriteOut_mk count 0));
  if write_refreshes_namespace_bindings path (h_close_commit h)
  then invalidate_namespace_bindings_after_reply fs else mret ().

(** What is left of a file that was released: is its close to be announced? *)
Definition release_file (header : FuseInHeader) (h : Handle) (fid : Z) : F bool :=
  let invalidate := h_write_on_release h && h_close_commit h &&
                    close_commit_refreshes_namespace_bindings (h_close_commit h) in
  r ← sattempt (on_world (client_clunk_fid (h_client h) fid (control_timeout fs)));
  match r with
  | inr _ => mret invalidate
  | inl error =>
      if negb (h_write_on_release h) then mret false
      else if is_transport_error error then
        _ ← reconnect fs;
        sthrow (session_error libc.EIO "release failed during reconnect; close result is unknown")
      else if is_namespace_shape_error error then
        if invalidate then mret true
        else
          _ ← recover_namespace_shape fs (hd_nodeid header);
          sthrow (session_error libc.EIO "release failed during namespace refresh; close result is unknown")
      else sthrow error
  end.

Definition release (header : FuseInHeader) (payload : bytes) : F unit :=
  input ← slift (read_struct (T := FuseReleaseIn) payload);
  removed ← change_nodes (total (remove_handle (rl_fh input)));
  invalidate_after_reply ← match removed with
    | None => mret false
    | Some (h, directory) =>
        if h_is_dir h then
          _ ← match directory with Some d => clunk fs (ds_client d) (ds_fid d) | None => mret () end;
          mret false
        else if h_close_commit_flushed h then mret false
        else match h_fid h with
             | None => mret false
             | Some fid => release_file header h fid
             end
    end;
  _ ← reply_empty (hd_unique header);
  if invalidate_after_reply : bool then invalidate_namespace_bindings_after_reply fs else mret ().

(** ** dispatch.rs *)

Definition interrupt (payload : bytes) : F unit :=
  match read_struct (T := FuseInterruptIn) payload with
  | inl _ => mret ()
  | inr input =>
      ignore (client ← on_world session_client;
              on_world (client_interrupt client (ir_unique input) (cf_interrupt_timeout (fs_config fs))))
  end.

Definition handler (header : FuseInHeader) (payload : bytes) : F unit :=
  let op := hd_opcode header in
  if op =? FUSE_INIT then fuse_init fs (hd_unique header) payload
  else if op =? FUSE_LOOKUP then lookup header payload
  else if op =? FUSE_FORGET then forget header payload
  else if op =? FUSE_BATCH_FORGET then batch_forget payload
  else if op =? FUSE_GETATTR then getattr header
  else if op =? FUSE_SETATTR then setattr header payload
  else if op =? FUSE_READLINK then readlink header
  else if op =? FUSE_OPEN then open header payload false
  else if op =? FUSE_OPENDIR then open header payload true
  else if op =? FUSE_READ then read header payload
  else if op =? FUSE_WRITE then write header payload
  else if (op =? FUSE_RELEASE) || (op =? FUSE_RELEASEDIR) then release header payload
  else if op =? FUSE_READDIR then readdir header payload
  else if op =? FUSE_READDIRPLUS then readdirplus header payload
  else if op =? FUSE_CREATE then create header payload
  else if op =? FUSE_MKDIR then mkdir header payload
  else if op =? FUSE_MKNOD then mknod header payload
  else if (op =? FUSE_UNLINK) || (op =? FUSE_RMDIR) then remove header payload
  else if op =? FUSE_RENAME then rename header payload
  else if existsb (Z.eqb op) [FUSE_SYMLINK; FUSE_LINK; FUSE_SETXATTR; FUSE_GETXATTR; FUSE_LISTXATTR; FUSE_REMOVEXATTR]
  then reply_error (hd_unique header) libc.ENOTSUP
  else if op =? FUSE_GETLK then getlk header payload
  else if (op =? FUSE_SETLK) || (op =? FUSE_SETLKW) then setlk header
  else if op =? FUSE_FLUSH then flush header payload
  else if op =? FUSE_FSYNC then fsync header payload
  else if op =? FUSE_FSYNCDIR then fsyncdir header payload
  else if op =? FUSE_ACCESS then access header payload
  else if op =? FUSE_INTERRUPT then interrupt payload
  else if op =? FUSE_STATFS then statfs header
  else if op =? FUSE_DESTROY then mret ()
  else if op =? FUSE_POLL then poll header payload
  else reply_error (hd_unique header) ENOSYS.

Definition dispatch (header : FuseInHeader) (payload : bytes) : F unit :=
  result ← sattempt (handler header payload);
  match result with
  | inl error => reply_error (hd_unique header) (errno error)
  | inr _ => mret ()
  end.

(** [dispatch_fuse_job]: a reply that could not be written is tried again as an error. *)
Definition dispatch_fuse_job (header : FuseInHeader) (payload : bytes) : F unit :=
  result ← sattempt (dispatch header payload);
  match result with
  | inr _ => mret ()
  | inl error => ignore (reply_error (hd_unique header) (errno error))
  end.

(** [run_loop], for what the device gives to read until it ends; the requests are
    handled in turn by one worker. *)
Fixpoint run_loop (reads : list bytes) (initialized : bool) : F unit :=
  match reads with
  | [] =>
      if initialized then mret ()
      else sthrow (session_error libc.ENODEV "FUSE session ended before initialization")
  | buf :: reads =>
      if vlen buf <? size_of FuseInHeader then sthrow (session_error libc.EPROTO "short FUSE request")
      else
        header ← slift (read_struct (T := FuseInHeader) buf);
        if negb (hd_len header =? vlen buf) then sthrow (session_error libc.EPROTO "FUSE request length mismatch")
        else
          let payload := zdrop (size_of FuseInHeader) buf in
          let initialized := initialized || (hd_opcode header =? FUSE_INIT) in
          if hd_opcode header =? FUSE_DESTROY then
            _ ← dispatch header payload;
            if initialized then mret ()
            else sthrow (session_error libc.ENODEV "FUSE session destroyed before initialization")
          else
            _ ← dispatch_fuse_job header payload;
            run_loop reads initialized
  end.

(** ** change_feed.rs *)

Definition apply_coarse_invalidation : F unit :=
  now ← get_now;
  stale ← change_nodes (total (mark_path_bindings_stale now));
  notify_kernel_invalidations (KernelInvalidation_coarse stale).

Definition announce (stale : list StaleBinding) (parents : list (Z * bytes)) : F unit :=
  _ ← notify_kernel_invalidations (KernelInvalidation_path stale parents);
  clunk_stale_bindings fs stale.

Definition apply_namespace_change (change : NamespaceChange) : F unit :=
  if negb (scope_matches (cf_change_feed_scope (fs_config fs)) (nc_scope change)) then mret ()
  else if bool_decide (nc_change_kind change = bstr "resync") then apply_coarse_invalidation
  else
    mounted ← slift (mounted_change (fs_source_path fs) change);
    now ← get_now;
    match mounted with
    | CRoot => apply_coarse_invalidation
    | CIgnore => mret ()
    | CCreated path | CModified path =>
        stale ← change_nodes (total (mark_path_stale now path));
        parent ← change_nodes (total (mark_parent_directory_cache_stale path));
        announce stale (option_list parent)
    | CRemoved path =>
        stale ← change_nodes (total (mark_path_prefix_stale now path));
        parent ← change_nodes (total (mark_parent_directory_cache_stale path));
        announce stale (option_list parent)
    | CRenamed old new =>
        stale ← change_nodes (total (mark_path_prefix_stale now old));
        more ← change_nodes (total (mark_path_prefix_stale now new));
        parent ← change_nodes (total (mark_parent_directory_cache_stale old));
        other ← change_nodes (total (mark_parent_directory_cache_stale new));
        announce (stale ++ more) (option_list parent ++ option_list other)
    end.

(** One event of [session_feed_event_loop]. *)
Definition feed_event (event : FeedEvent) : F unit :=
  match event with
  | FeedChange change _ _ =>
      r ← sattempt (apply_namespace_change change);
      match r with inr _ => mret () | inl _ => apply_coarse_invalidation end
  | CoarseInvalidation _ => apply_coarse_invalidation
  end.

End handlers.
