(* ===== verification/FuseReplies.v ===== *)
(** Every request of the kernel is answered once: an accounting of the replies the
    handlers of the FUSE bridge write. *)
From S2P Require Import Prelude Errors Qid Stat Utf8 Referral Blocking NamespaceCache Text SessionErrors Feed FeedWorker SessionConfig ReadCache FuseConfig FuseNodes FuseWire FuseState FuseOps.

Section replies.
Context {W : Type} `{!MountSession W} {os : OsText} (fs : Mounted).

Abbreviation F := (S_ (Fuse W)).

(** Code that writes no reply. *)
Definition silent {A} (m : F A) : Prop := ∀ s, f_replies (m s).2 = f_replies s.
(** Code that writes no reply and does not fail. *)
Definition sure {A} (m : F A) : Prop := silent m ∧ ∀ s, ∃ a, (m s).1 = inr a.
(** Code that writes the one reply to the request [u], unless it fails. *)
Definition answers (u : Z) (m : F unit) : Prop := ∀ s,
  match m s with
  | (inr _, s') => ∃ error body, f_replies s' = f_replies s ++ [Reply_mk u error body]
  | (inl _, s') => f_replies s' = f_replies s
  end.

Lemma silent_ret {A} (a : A) : silent (mret a).
Proof. done. Qed.
Lemma silent_throw {A} e : silent (sthrow e : F A).
Proof. done. Qed.
Lemma silent_lift {A} (r : SResult A) : silent (slift r : F A).
Proof. done. Qed.
Lemma silent_gets {A} (f : Fuse W → A) : silent (sgets f).
Proof. done. Qed.
Lemma silent_bind {A B} (m : F A) (k : A → F B) : silent m → (∀ a, silent (k a)) → silent (m ≫= k).
Proof.
  intros Hm Hk s. specialize (Hm s). unfold mbind, S_bind. destruct (m s) as [[e|a] s1]; simpl in *; [done|].
  by rewrite Hk.
Qed.
Lemma silent_attempt {A} (m : F A) : silent m → silent (sattempt m).
Proof. intros Hm s. specialize (Hm s). unfold sattempt. by destruct (m s). Qed.
Lemma silent_world {A} (m : S_ W A) : silent (on_world m).
Proof. intros s. unfold on_world. by destruct (m _). Qed.
Lemma silent_nodes {A} (f : NodeTable → SResult A) : silent (on_nodes f : F A).
Proof. done. Qed.
Lemma silent_change {A} (f : NodeTable → SResult (A * NodeTable)) : silent (change_nodes f : F A).
Proof. intros s. unfold change_nodes. by destruct (f _) as [|[]]. Qed.
Lemma silent_pause n : silent (smodify (λ s : Fuse W, set_world (pause n (f_world s)) s)).
Proof. done. Qed.
Lemma silent_recovery r : silent (smodify (set_recovery r) : F unit).
Proof. done. Qed.
Lemma silent_note n : silent (smodify (add_note n) : F unit).
Proof. done. Qed.
Lemma silent_now : silent (get_now : F Z).
Proof. apply silent_world. Qed.
Lemma silent_ignore {A} (m : F A) : silent m → silent (ignore m).
Proof. intros Hm. unfold ignore. apply silent_bind; [by apply silent_attempt|intros ?; apply silent_ret]. Qed.
Lemma silent_each {A} (l : list A) (f : A → F unit) : (∀ a, silent (f a)) → silent (for_each l f).
Proof. intros Hf. induction l; [done|]. apply silent_bind; [done|by intros ?]. Qed.

Create HintDb silent discriminated.
Hint Constants Opaque : silent.
Hint Resolve silent_ret silent_throw silent_lift silent_gets silent_world silent_nodes silent_change silent_pause
  silent_recovery silent_note silent_now : silent.

(** Goes through the code; a definition it does not know is a hint. *)
Ltac silent :=
  repeat first
    [ progress intros
    | solve [auto with silent nocore]
    | apply silent_bind | apply silent_attempt | apply silent_ignore | apply silent_each
    | case_match ].

Lemma silent_clunk client fid : silent (clunk fs client fid).
Proof. unfold clunk. silent. Qed.
Hint Resolve silent_clunk : silent.
Lemma silent_clunk_old client fid : silent (clunk_old fs client fid).
Proof. unfold clunk_old. silent. Qed.
Hint Resolve silent_clunk_old : silent.
Lemma silent_notify n len : silent (notify n len).
Proof. unfold notify. silent. Qed.
Hint Resolve silent_notify : silent.
Lemma silent_inval i : silent (notify_kernel_invalidations i).
Proof. unfold notify_kernel_invalidations, notify_inval_entry, notify_inval_inode. silent. Qed.
Lemma silent_source client timeout : silent (source_binding fs client timeout).
Proof. unfold source_binding. silent. Qed.
Lemma silent_walk_source client path timeout : silent (walk_from_source fs client path timeout).
Proof. unfold walk_from_source. silent. Qed.
Lemma silent_rebind client nodeid fid : silent (rebind_node fs client nodeid fid).
Proof. unfold rebind_node. silent. Qed.
Hint Resolve silent_inval silent_source silent_walk_source silent_rebind : silent.
Lemma silent_bound nodeid : silent (bound_node_fid fs nodeid).
Proof. unfold bound_node_fid, client_snapshot. silent. Qed.
Lemma silent_source_loop fuel client started : silent (source_binding_loop fs fuel client started).
Proof. induction fuel as [|fuel IH]; [done|]. cbn [source_binding_loop]. unfold elapsed. silent. Qed.
Hint Resolve silent_bound silent_source_loop : silent.
Lemma silent_reconnect : silent (reconnect fs).
Proof. unfold reconnect, reconnect_source_binding. silent. Qed.
Hint Resolve silent_reconnect : silent.
Lemma silent_refresh nodeid : silent (refresh_node fs nodeid).
Proof. unfold refresh_node, client_snapshot. silent. Qed.
Hint Resolve silent_refresh : silent.
Lemma silent_recover nodeid : silent (recover_namespace_shape fs nodeid).
Proof. unfold recover_namespace_shape. silent. Qed.
Hint Resolve silent_recover : silent.
Lemma silent_walk_one client fid name timeout : silent (walk_one client fid name timeout : F Z).
Proof. unfold walk_one. silent. Qed.
Hint Resolve silent_walk_one : silent.

(** ** Code that cannot fail *)

Lemma sure_ret {A} (a : A) : sure (mret a).
Proof. split; [done|]. intros s. by exists a. Qed.
Lemma sure_now : sure (get_now : F Z).
Proof. split; [apply silent_now|]. intros s. unfold get_now, on_world. destruct (now_at _). by eexists. Qed.
Lemma sure_bind {A B} (m : F A) (k : A → F B) : sure m → (∀ a, sure (k a)) → sure (m ≫= k).
Proof.
  intros [Hm1 Hm2] Hk. split; [apply silent_bind; [done|intros a; apply Hk]|]. intros s. destruct (Hm2 s) as [a Ha].
  unfold mbind, S_bind. destruct (m s) as [r s1]. simpl in Ha. subst r. apply Hk.
Qed.
Lemma sure_known {A B} (a : A) (k : A → F B) : sure (k a) → sure (mret a ≫= k).
Proof. intros H. exact H. Qed.
Lemma sure_attempt {A} (m : F A) : silent m → sure (sattempt m).
Proof. intros Hm. split; [by apply silent_attempt|]. intros s. unfold sattempt. destruct (m s). by eexists. Qed.
Lemma sure_ignore {A} (m : F A) : silent m → sure (ignore m).
Proof. intros Hm. unfold ignore. apply sure_bind; [by apply sure_attempt|intros ?; apply sure_ret]. Qed.
Lemma sure_each {A} (l : list A) (f : A → F unit) : (∀ a, sure (f a)) → sure (for_each l f).
Proof. intros Hf. induction l; [apply sure_ret|]. apply sure_bind; [done|by intros ?]. Qed.
Lemma sure_total {A} (f : NodeTable → A * NodeTable) : sure (change_nodes (total f) : F A).
Proof. split; [apply silent_change|]. intros s. unfold change_nodes, total. destruct (f _). by eexists. Qed.
Hint Resolve sure_ret sure_now sure_total : silent.

Lemma sure_clunk client fid : sure (clunk fs client fid).
Proof. apply sure_ignore, silent_world. Qed.
Lemma sure_clunk_old client fid : sure (clunk_old fs client fid).
Proof. unfold clunk_old. case_match; [apply sure_clunk|apply sure_ret]. Qed.
Lemma sure_notify_entry parent name : sure (ignore (notify_inval_entry parent name) : F unit).
Proof. apply sure_ignore. unfold notify_inval_entry. silent. Qed.
Lemma sure_notify_inode nodeid : sure (ignore (notify_inval_inode nodeid) : F unit).
Proof. apply sure_ignore. unfold notify_inval_inode. silent. Qed.
Hint Resolve sure_clunk sure_clunk_old sure_notify_entry sure_notify_inode : silent.

Ltac sure :=
  repeat first
    [ progress intros
    | solve [auto with silent nocore]
    | match goal with |- sure (mret _ ≫= _) => apply sure_known; cbv beta iota end | apply sure_bind | apply sure_each | apply sure_attempt; solve [silent] | case_match ].

Lemma sure_invalidations i : sure (notify_kernel_invalidations i : F unit).
Proof. unfold notify_kernel_invalidations. sure. Qed.
Hint Resolve sure_invalidations : silent.
Lemma sure_invalidate : sure (invalidate_namespace_bindings_after_reply fs).
Proof.
  unfold invalidate_namespace_bindings_after_reply, clunk_stale_bindings, client_snapshot. sure.
Qed.
Hint Resolve sure_invalidate : silent.

(** ** Code that answers *)

Lemma answers_bind {A} u (m : F A) (k : A → F unit) : silent m → (∀ a, answers u (k a)) → answers u (m ≫= k).
Proof.
  intros Hm Hk s. specialize (Hm s). unfold mbind, S_bind. destruct (m s) as [[e|a] s1]; simpl in *; [done|].
  specialize (Hk a s1). by rewrite Hm in Hk.
Qed.
Lemma answers_then u (m : F unit) (k : () → F unit) : answers u m → (∀ a, sure (k a)) → answers u (m ≫= k).
Proof.
  intros Hm Hk s. specialize (Hm s). unfold mbind, S_bind. destruct (m s) as [[e|a] s1]; [done|].
  destruct (Hk a) as [Hs Hr]. specialize (Hs s1). destruct (Hr s1) as [b Hb]. destruct (k a s1) as [r s2]. simpl in *.
  subst r. by rewrite Hs.
Qed.
Lemma answers_throw u e : answers u (sthrow e).
Proof. done. Qed.
Lemma answers_error u errno : answers u (reply_error u errno).
Proof.
  intros s. unfold reply_error, mbind, S_bind. pose proof (silent_world (device_write_all out_header_size) s) as H.
  destruct (on_world _ s) as [[e|[]] s1]; simpl in *; [done|]. eexists _, _. by rewrite H.
Qed.
Lemma answers_body u body : answers u (reply_body u body).
Proof.
  intros s. unfold reply_body. destruct (try_from _ _); [|done]. unfold mbind, S_bind.
  match goal with |- context [on_world ?m s] => pose proof (silent_world m s) as H' end.
  destruct (on_world _ s) as [[e|n] s1]; simpl in *; [done|]. destruct (negb _); simpl; [done|]. eexists _, _. by rewrite H'.
Qed.
(** An attempt: what it did is known from its result. *)
Definition tried (u : Z) (m : F (SResult unit)) : Prop := ∀ s,
  match m s with
  | (inr (inr _), s') => ∃ error body, f_replies s' = f_replies s ++ [Reply_mk u error body]
  | (_, s') => f_replies s' = f_replies s
  end.
Lemma tried_attempt u m : answers u m → tried u (sattempt m).
Proof. intros Hm s. specialize (Hm s). unfold sattempt. by destruct (m s) as [[?|?] ?]. Qed.
Lemma tried_error u e : tried u (mret (inl e)).
Proof. done. Qed.
Lemma tried_bind {A} u (m : F A) k : silent m → (∀ a, tried u (k a)) → tried u (m ≫= k).
Proof.
  intros Hm Hk s. specialize (Hm s). unfold mbind, S_bind. destruct (m s) as [[e|a] s1]; simpl in *; [done|].
  specialize (Hk a s1). by rewrite Hm in Hk.
Qed.
Lemma answers_tried u m (k : SResult unit → F unit) :
  tried u m → (∀ e, answers u (k (inl e))) → (∀ a, sure (k (inr a))) → answers u (m ≫= k).
Proof.
  intros Hm He Ha s. specialize (Hm s). unfold mbind, S_bind. destruct (m s) as [[e|[e|a]] s1]; [done| |].
  - specialize (He e s1). by rewrite Hm in He.
  - destruct (Ha a) as [Hs Hr]. specialize (Hs s1). destruct (Hr s1) as [b Hb]. destruct (k (inr a) s1) as [r s2].
    simpl in *. subst r. by rewrite Hs.
Qed.
Hint Resolve answers_throw answers_error answers_body : silent.

Ltac tried := repeat first
    [ progress intros | apply tried_error | apply tried_attempt; solve [auto with silent nocore]
    | apply tried_bind; [solve [silent]|] | case_match ].

Ltac answers :=
  repeat first
    [ progress intros
    | solve [auto with silent nocore]
    | apply answers_bind; [solve [silent]|]
    | apply answers_tried; [solve [tried]| |solve [sure]]
    | apply answers_then; [|solve [sure]]
    | case_match ].

Lemma answers_bytes u data : answers u (reply_bytes u data).
Proof. apply answers_body. Qed.
Lemma answers_empty u : answers u (reply_empty u).
Proof. apply answers_body. Qed.
Hint Resolve answers_bytes answers_empty : silent.

(** ** The handlers *)

Lemma silent_fresh_child nodeid name client timeout : silent (fresh_child_fid fs nodeid name client timeout).
Proof. unfold fresh_child_fid. silent. Qed.
Lemma silent_fresh_node nodeid client timeout : silent (fresh_node_fid fs nodeid client timeout).
Proof. unfold fresh_node_fid. silent. Qed.
Lemma silent_cached nodeid : silent (cached_node_stat_if_fresh fs nodeid).
Proof. unfold cached_node_stat_if_fresh. silent. Qed.
Lemma silent_retried {A} nodeid (m : F A) : silent m → silent (retried fs nodeid m).
Proof. intros Hm. unfold retried. silent. Qed.
Hint Resolve silent_fresh_child silent_fresh_node silent_cached : silent.

Lemma answers_retried u nodeid (m : F unit) : answers u m → answers u (retried fs nodeid m).
Proof. intros Hm. unfold retried. apply answers_tried; [by apply tried_attempt|answers|sure]. Qed.

Lemma answers_lookup_once header name : answers (hd_unique header) (lookup_once fs header name).
Proof. unfold lookup_once, client_snapshot. answers. Qed.
Hint Resolve answers_lookup_once : silent.

Lemma answers_lookup header payload : answers (hd_unique header) (lookup fs header payload).
Proof.
  unfold lookup. apply answers_bind; [silent|]. intros name. case_match; [answers|].
  apply answers_tried; [by apply tried_attempt, answers_lookup_once| |sure]. intros e. cbv beta iota.
  apply answers_tried; [tried|answers|sure].
Qed.

Lemma answers_getattr header : answers (hd_unique header) (getattr fs header).
Proof. unfold getattr. apply answers_retried. unfold getattr_once. answers. Qed.

Lemma silent_truncate client fid : silent (truncate_fallback fs client fid).
Proof. unfold truncate_fallback. silent. Qed.
Hint Resolve silent_truncate : silent.
Lemma answers_setattr_once header input : answers (hd_unique header) (setattr_once fs header input).
Proof. unfold setattr_once. answers. Qed.
Hint Resolve answers_setattr_once : silent.
Lemma answers_setattr header payload : answers (hd_unique header) (setattr fs header payload).
Proof. unfold setattr. answers. Qed.

Lemma silent_create_remote nodeid name perm mode : silent (create_remote fs nodeid name perm mode).
Proof. unfold create_remote. silent. Qed.
Hint Resolve silent_create_remote : silent.
Lemma silent_create_recovered nodeid name perm mode : silent (create_recovered fs nodeid name perm mode).
Proof. unfold create_recovered. silent. Qed.
Hint Resolve silent_create_recovered : silent.
Lemma answers_create header payload : answers (hd_unique header) (create fs header payload).
Proof. unfold create. answers. Qed.
Lemma answers_created header client fid name : answers (hd_unique header) (insert_created_node fs header client fid name).
Proof. unfold insert_created_node. answers. Qed.
Hint Resolve answers_created : silent.
Lemma answers_make header name perm : answers (hd_unique header) (make_node fs header name perm).
Proof. unfold make_node. answers. Qed.
Hint Resolve answers_make : silent.
Lemma answers_mkdir header payload : answers (hd_unique header) (mkdir fs header payload).
Proof. unfold mkdir. answers. Qed.
Lemma answers_mknod header payload : answers (hd_unique header) (mknod fs header payload).
Proof. unfold mknod. answers. Qed.

Lemma silent_walk_child nodeid name : silent (walk_child_for_mutation fs nodeid name).
Proof. unfold walk_child_for_mutation. silent. Qed.
Hint Resolve silent_walk_child silent_retried : silent.
Lemma answers_remove header payload : answers (hd_unique header) (remove fs header payload).
Proof. unfold remove. answers. Qed.

Lemma silent_stat_existing client existing fid : silent (stat_existing fs client existing fid).
Proof. unfold stat_existing. silent. Qed.
Lemma silent_refuse client existing fid : silent (refuse_over_directory fs client existing fid).
Proof. unfold refuse_over_directory. silent. Qed.
Hint Resolve silent_stat_existing silent_refuse : silent.
Lemma silent_prepare p q old new : silent (prepare_rename fs p q old new).
Proof. unfold prepare_rename. silent. Qed.
Lemma silent_rename_remote plan old new : silent (rename_remote fs plan old new).
Proof. unfold rename_remote, rename_fid. silent. Qed.
Lemma silent_stat_renamed client parent fid new : silent (stat_renamed_fid fs client parent fid new).
Proof. unfold stat_renamed_fid. silent. Qed.
Hint Resolve silent_prepare silent_rename_remote silent_stat_renamed : silent.
Lemma answers_renamed u old new plan : answers u (rename_prepared fs u old new plan).
Proof. unfold rename_prepared. answers. Qed.
Hint Resolve answers_renamed : silent.
Lemma answers_rename header payload : answers (hd_unique header) (rename fs header payload).
Proof. unfold rename. answers. Qed.

Lemma answers_statfs header : answers (hd_unique header) (statfs header : F unit).
Proof. unfold statfs. answers. Qed.
Lemma answers_poll header payload : answers (hd_unique header) (poll header payload : F unit).
Proof. unfold poll. answers. Qed.
Lemma answers_flush header payload : answers (hd_unique header) (flush fs header payload).
Proof. unfold flush. answers. Qed.
Lemma answers_fsync header payload : answers (hd_unique header) (fsync header payload : F unit).
Proof. unfold fsync. answers. Qed.
Lemma answers_fsyncdir header payload : answers (hd_unique header) (fsyncdir header payload : F unit).
Proof. unfold fsyncdir. answers. Qed.
Lemma answers_access header payload : answers (hd_unique header) (access fs header payload : F unit).
Proof. unfold access. answers. Qed.
Lemma answers_getlk header payload : answers (hd_unique header) (getlk header payload : F unit).
Proof. unfold getlk. answers. Qed.
Lemma answers_setlk header : answers (hd_unique header) (setlk header : F unit).
Proof. unfold setlk. answers. Qed.

(** A loop whose turns write nothing. *)
Lemma loop_replies {X A} (at_ : X → Fuse W) (step : X → X + SResult A * Fuse W) k x :
  (∀ x, match step x with
        | inl x' => f_replies (at_ x') = f_replies (at_ x)
        | inr (_, s) => f_replies s = f_replies (at_ x)
        end) →
  match loop k step x with
  | inl x' => f_replies (at_ x') = f_replies (at_ x)
  | inr (_, s) => f_replies s = f_replies (at_ x)
  end.
Proof.
  intros H. pose (I := λ y, f_replies (at_ y) = f_replies (at_ x)).
  assert (keeps : ∀ y y', I y → step y = inl y' → I y').
  { intros y y' Hy Hs. specialize (H y). rewrite Hs in H. unfold I in *. congruence. }
  destruct (loop k step x) as [x'|[r s]] eqn:E; [exact (loop_keeps step I keeps k x x' eq_refl E)|].
  apply (loop_exit step I (λ p, f_replies p.2 = f_replies (at_ x)) keeps k x (r, s)); [|done|done].
  intros y [r' s'] Hy Hs. specialize (H y). rewrite Hs in H. unfold I in Hy. simpl. congruence.
Qed.

Lemma silent_validate client data : silent (validate_directory_entries client data : F (list DirEntry)).
Proof.
  unfold validate_directory_entries. case_match; [|silent]. generalize dependent a. intros l _.
  induction l as [|st l IH]; [done|]. cbn [validate_entries]. silent.
Qed.
Hint Resolve silent_validate : silent.

Lemma silent_directory_entries fh offset size encoding :
  silent (directory_entries_for_read fs fh offset size encoding).
Proof.
  unfold directory_entries_for_read. apply silent_bind; [silent|]. intros h. case_match; [silent|]. intros s.
  pose proof (loop_replies id (directory_turn fs fh offset size encoding) 64 s) as L.
  destruct (loop 64 _ s) as [s'|[r s']]; apply L; clear L; intros s0; unfold directory_turn;
    (destruct (directories (f_nodes s0) !! fh) as [d|]; [|done]); (destruct (_ || _); [done|]);
    (match goal with |- context [on_world ?m s0] => pose proof (silent_world m s0) as H0 end);
    destruct (on_world _ s0) as [[e|chunk] s1]; try exact H0; simpl in H0; (case_bool_decide; [exact H0|]);
    pose proof (silent_validate (ds_client d) chunk s1) as H2; destruct (validate_directory_entries _ _ s1) as [[]];
    simpl in *; congruence.
Qed.
Hint Resolve silent_directory_entries : silent.

Lemma silent_open_directory client fid : silent (read_open_directory_entries fs client fid).
Proof.
  unfold read_open_directory_entries. apply silent_bind; [|intros; apply silent_validate]. intros s.
  pose proof (loop_replies (λ x, x.2) (open_directory_turn fs client fid) 64 (0, [], s)) as L.
  destruct (loop 64 _ _) as [[[o a] s']|[r s']]; apply L; clear L; intros [[o' a'] s0]; unfold open_directory_turn;
    (match goal with |- context [on_world ?m s0] => pose proof (silent_world m s0) as H0 end);
    destruct (on_world _ s0) as [[e|chunk] s1]; try exact H0; simpl in H0; by case_bool_decide.
Qed.
Hint Resolve silent_open_directory : silent.

Lemma silent_reopen_directory nodeid fh : silent (reopen_directory_handle fs nodeid fh).
Proof. unfold reopen_directory_handle. silent. Qed.
Hint Resolve silent_reopen_directory : silent.
Lemma silent_entries_recovered nodeid fh offset size encoding :
  silent (directory_entries_for_read_with_recovery fs nodeid fh offset size encoding).
Proof. unfold directory_entries_for_read_with_recovery. silent. Qed.
Lemma silent_plus parent offset size entries : silent (encode_dirents_plus fs parent offset size entries).
Proof.
  unfold encode_dirents_plus. generalize (indices_from offset entries) (@nil byte). intros l.
  induction l as [|index l IH]; intros out; [done|]. cbn [encode_dirents_plus_from].
  unfold direntplus_entry, special_direntplus_entry, bind_child. silent.
Qed.
Hint Resolve silent_entries_recovered silent_plus : silent.
Lemma answers_readdir header payload : answers (hd_unique header) (readdir fs header payload).
Proof. unfold readdir, special_dirent_inodes. answers. Qed.
Lemma answers_readdirplus header payload : answers (hd_unique header) (readdirplus fs header payload).
Proof. unfold readdirplus. answers. Qed.

Lemma answers_open_once header input is_dir : answers (hd_unique header) (open_once fs header input is_dir).
Proof. unfold open_once, client_snapshot. answers. Qed.
Hint Resolve answers_open_once : silent.
Lemma answers_open header payload is_dir : answers (hd_unique header) (open fs header payload is_dir).
Proof. unfold open. answers. Qed.

Lemma silent_relocation client fid : silent (read_directory_for_relocation fs client fid).
Proof. unfold read_directory_for_relocation. silent. Qed.
Hint Resolve silent_relocation : silent.
Lemma silent_relocated nodeid : silent (relocated_read_binding fs nodeid).
Proof. unfold relocated_read_binding, client_snapshot. silent. Qed.
Hint Resolve silent_relocated : silent.
Lemma silent_reopen_read nodeid : silent (reopen_read_binding fs nodeid).
Proof. unfold reopen_read_binding. silent. Qed.
Lemma silent_cached_read c client fid identity offset size : silent (cached_read fs c client fid identity offset size).
Proof. intros s. unfold cached_read. by destruct (ReadCache.read _ _ _ _ _) as [? []]. Qed.
Hint Resolve silent_reopen_read silent_cached_read : silent.
Lemma silent_read_range client fid mode st identity offset size :
  silent (read_handle_range fs client fid mode st identity offset size).
Proof. unfold read_handle_range. silent. Qed.
Hint Resolve silent_read_range : silent.
Lemma silent_read_reopened nodeid fh offset size : silent (read_from_reopened_handle fs nodeid fh offset size).
Proof. unfold read_from_reopened_handle. silent. Qed.
Hint Resolve silent_read_reopened : silent.
Lemma answers_readlink header : answers (hd_unique header) (readlink fs header).
Proof. unfold readlink. answers. Qed.
Lemma answers_read header payload : answers (hd_unique header) (read fs header payload).
Proof. unfold read. answers. Qed.

Lemma silent_write_reopened nodeid fh offset data timeout :
  silent (write_from_reopened_write_handle fs nodeid fh offset data timeout).
Proof. unfold write_from_reopened_write_handle. silent. Qed.
Hint Resolve silent_write_reopened : silent.
Lemma answers_write header payload : answers (hd_unique header) (write fs header payload).
Proof. unfold write. answers. Qed.
Lemma silent_release_file header h fid : silent (release_file fs header h fid).
Proof. unfold release_file. silent. Qed.
Hint Resolve silent_release_file : silent.
Lemma answers_release header payload : answers (hd_unique header) (release fs header payload).
Proof. unfold release. answers. Qed.
Lemma answers_init u payload : answers u (fuse_init fs u payload : F unit).
Proof. unfold fuse_init. answers. Qed.

(** ** The requests without an answer *)

Lemma sure_forget_node nodeid count : sure (forget_node fs nodeid count).
Proof. unfold forget_node. sure. Qed.
Hint Resolve sure_forget_node : silent.
Lemma sure_forget header payload : sure (forget fs header payload).
Proof. unfold forget. sure. Qed.
Lemma sure_forget_entries count payload : sure (forget_entries fs count payload).
Proof. revert payload. induction count as [|count IH]; intros payload; cbn [forget_entries]; sure. Qed.
Hint Resolve sure_forget_entries : silent.
Lemma sure_batch_forget payload : sure (batch_forget fs payload).
Proof. unfold batch_forget. sure. Qed.
Lemma sure_interrupt payload : sure (interrupt fs payload).
Proof. unfold interrupt. case_match; [sure|]. apply sure_ignore. silent. Qed.

(** The requests the kernel expects no answer to. *)
Definition unanswered (op : Z) : bool :=
  existsb (Z.eqb op) [FUSE_FORGET; FUSE_BATCH_FORGET; FUSE_INTERRUPT; FUSE_DESTROY].

Hint Resolve answers_init answers_lookup answers_getattr answers_setattr answers_readlink answers_open answers_read
  answers_write answers_release answers_readdir answers_readdirplus answers_create answers_mkdir answers_mknod
  answers_remove answers_rename answers_getlk answers_setlk answers_flush answers_fsync answers_fsyncdir
  answers_access answers_statfs answers_poll sure_forget sure_batch_forget sure_interrupt : silent.

Lemma unanswered_false op : unanswered op = false →
  (op =? FUSE_FORGET) = false ∧ (op =? FUSE_BATCH_FORGET) = false ∧ (op =? FUSE_INTERRUPT) = false ∧
  (op =? FUSE_DESTROY) = false.
Proof. unfold unanswered. cbn [existsb]. rewrite !orb_false_iff. tauto. Qed.

Lemma unanswered_true op : unanswered op = true →
  op = FUSE_FORGET ∨ op = FUSE_BATCH_FORGET ∨ op = FUSE_INTERRUPT ∨ op = FUSE_DESTROY.
Proof. unfold unanswered. cbn [existsb]. rewrite !orb_true_iff, !Z.eqb_eq. naive_solver. Qed.

Lemma answers_handler header payload :
  unanswered (hd_opcode header) = false → answers (hd_unique header) (handler fs header payload).
Proof.
  intros (H1 & H2 & H3 & H4)%unanswered_false. unfold handler. rewrite H1, H2, H3, H4.
  repeat match goal with |- context [if ?b then _ else _] => destruct b; [solve [auto with silent nocore]|] end.
  apply answers_error.
Qed.

Lemma sure_handler header payload : unanswered (hd_opcode header) = true → sure (handler fs header payload).
Proof.
  intros H%unanswered_true. unfold handler. destruct H as [H|[H|[H|H]]]; rewrite H;
    repeat match goal with
    | |- sure (if ?b then _ else _) =>
        let E := fresh in destruct b eqn:E; vm_compute in E; try discriminate E; clear E
    end; auto with silent nocore.
Qed.

(** The replies to a request: an error, or what its handler wrote. *)
Definition replied (u : Z) (s s' : Fuse W) : Prop :=
  ∃ error body, f_replies s' = f_replies s ++ [Reply_mk u error body].

Lemma dispatch_unanswered header payload s : unanswered (hd_opcode header) = true →
  f_replies (dispatch_fuse_job fs header payload s).2 = f_replies s.
Proof.
  intros H. unfold dispatch_fuse_job, dispatch. destruct (sure_handler header payload H) as [Hs Hr].
  specialize (Hs s). destruct (Hr s) as [a Ha]. unfold mbind, S_bind, sattempt.
  destruct (handler fs header payload s) as [r s1]. simpl in *. subst r. exact Hs.
Qed.

Lemma answers_dispatch header payload : unanswered (hd_opcode header) = false →
  answers (hd_unique header) (dispatch fs header payload).
Proof.
  intros H. unfold dispatch. apply answers_tried; [by apply tried_attempt, answers_handler|answers|sure].
Qed.

Lemma reply_error_written u errno s :
  (∀ n w, (device_write_all n w).1 = inr ()) → replied u s (reply_error u errno s).2.
Proof.
  intros H. unfold replied, reply_error, mbind, S_bind, on_world. specialize (H out_header_size (f_world s)).
  destruct (device_write_all _ _) as [r w]. simpl in H. subst r. by eexists _, _.
Qed.

Lemma job_total header payload s : ∃ a, (dispatch_fuse_job fs header payload s).1 = inr a.
Proof.
  unfold dispatch_fuse_job, ignore, mbind, S_bind, sattempt. destruct (dispatch _ _ _ _) as [[e|a] s1]; [|by eexists].
  destruct (reply_error _ _ s1). by eexists.
Qed.

(** What handling a request writes. *)
Lemma job_replies header payload s :
  let s' := (dispatch_fuse_job fs header payload s).2 in
  if unanswered (hd_opcode header) then f_replies s' = f_replies s
  else (f_replies s' = f_replies s ∨ replied (hd_unique header) s s') ∧
       ((∀ n w, (device_write_all n w).1 = inr ()) → replied (hd_unique header) s s').
Proof.
  destruct (unanswered _) eqn:Hu; [by apply dispatch_unanswered|].
  pose proof (answers_dispatch header payload Hu s) as Ha. unfold dispatch_fuse_job, ignore, mbind, S_bind, sattempt.
  destruct (dispatch fs header payload s) as [[e|a] s1]; [|split; eauto].
  pose proof (answers_error (hd_unique header) (errno e) s1) as Hr.
  pose proof (reply_error_written (hd_unique header) (errno e) s1) as Hw. unfold replied in *.
  destruct (reply_error _ _ s1) as [[e'|a'] s2]; cbv beta iota zeta in *; simpl in *; rewrite Ha in *; eauto.
Qed.

(** C12: The kernel gets one answer to each request: handling one writes at most one
    reply to the device, with the number of the request; exactly one if the device
    takes the replies that report errors and the request is one the kernel waits for,
    and none for the requests it does not wait for (FORGET, BATCH_FORGET, INTERRUPT,
    DESTROY), whatever the server and the session do. *)
Theorem requests_answered_once header payload s :
  let s' := (dispatch_fuse_job fs header payload s).2 in
  if unanswered (hd_opcode header) then f_replies s' = f_replies s
  else (f_replies s' = f_replies s ∨ replied (hd_unique header) s s') ∧
       ((∀ n w, (device_write_all n w).1 = inr ()) → replied (hd_unique header) s s').
Proof. apply job_replies. Qed.

(** The requests the loop takes from what it reads, until one is malformed or ends
    the session. *)
Fixpoint taken (reads : list bytes) : list FuseInHeader :=
  match reads with
  | [] => []
  | buf :: reads =>
      match read_struct (T := FuseInHeader) buf with
      | inl _ => []
      | inr header =>
          if negb (hd_len header =? vlen buf) then []
          else header :: (if hd_opcode header =? FUSE_DESTROY then [] else taken reads)
      end
  end.

(** The session as a whole: the numbers of the replies a mount writes while it
    serves its device are those of the requests it took that the kernel waits for, in
    their order, each once. *)
Theorem session_answers_in_order reads initialized s :
  (∀ n w, (device_write_all n w).1 = inr ()) →
  rp_unique <$> f_replies (run_loop fs reads initialized s).2 =
  (rp_unique <$> f_replies s) ++
  (hd_unique <$> List.filter (λ h, negb (unanswered (hd_opcode h))) (taken reads)).
Proof.
  intros Hd. revert initialized s. induction reads as [|buf reads IH]; intros initialized s.
  { destruct initialized; simpl; by rewrite app_nil_r. }
  cbn [run_loop taken]. destruct (vlen buf <? size_of FuseInHeader) eqn:El.
  { unfold read_struct. rewrite El. simpl. by rewrite app_nil_r. }
  destruct (read_struct (T := FuseInHeader) buf) as [e|header]; [simpl; by rewrite app_nil_r|].
  unfold mbind, S_bind, slift. cbv beta iota zeta.
  destruct (negb _); [simpl; by rewrite app_nil_r|]. destruct (hd_opcode header =? FUSE_DESTROY) eqn:Eo.
  - apply Z.eqb_eq in Eo. assert (Hu : unanswered (hd_opcode header) = true) by (by rewrite Eo).
    destruct (sure_handler header (zdrop (size_of FuseInHeader) buf) Hu) as [Hs Hr]. specialize (Hs s).
    destruct (Hr s) as [a Ha]. cbn [List.filter]. rewrite Hu. unfold dispatch, mbind, S_bind, sattempt.
    destruct (handler _ _ _ s) as [r s1]. simpl in Ha, Hs. subst r. simpl. rewrite app_nil_r, <-Hs. by destruct (_ || _).
  - pose proof (job_replies header (zdrop (size_of FuseInHeader) buf) s) as Hj. cbv zeta in Hj.
    assert (Hok : ∃ a, (dispatch_fuse_job fs header (zdrop (size_of FuseInHeader) buf) s).1 = inr a) by apply job_total.
    destruct Hok as [a Ha]. destruct (dispatch_fuse_job _ _ _ s) as [r s1]. simpl in Ha, Hj. subst r. rewrite IH.
    cbn [List.filter]. destruct (unanswered (hd_opcode header)); simpl; [by rewrite Hj|].
    destruct Hj as [_ Hj]. destruct (Hj Hd) as (error & body & ->). by rewrite fmap_app, <-app_assoc.
Qed.

End replies.
