(* ===== verification/FuseInv.v ===== *)
(** The node and handle tables of the FUSE bridge stay well formed, whatever requests
    the kernel makes, whatever the feed announces and whatever the session answers. *)
From stdpp Require Import sorting.
From S2P Require Import Prelude Errors Qid Stat Utf8 Referral Blocking NamespaceCache Text SessionErrors Feed FeedWorker SessionConfig ReadCache FuseConfig FuseNodes FuseWire FuseState FuseOps.

(** ** The invariant *)

(** An identifier that was given out, when [next] is the next one. *)
Definition given (next id : Z) : Prop := 1 ≤ id ≤ next ∧ (id < next ∨ next = u64_max).

Definition node_ok (n : Node) : Prop := 1 ≤ n_lookups n ≤ u64_max ∧ 1 ≤ n_generation n ≤ u64_max.

(** A directory is read through its stream, a file through its fid; what is
    committed when the handle is closed was opened for writing. *)
Definition handle_ok (h : Handle) (d : option DirectoryStream) : Prop :=
  (if h_is_dir h then is_Some d ∧ h_fid h = None ∧ h_write_on_release h = false else d = None ∧ is_Some (h_fid h)) ∧
  (h_close_commit h → h_write_on_release h) ∧ 0 ≤ h_bytes_written h ≤ u64_max.

Record wf (t : NodeTable) : Prop := {
  wf_next_nodeid : 2 ≤ next_nodeid t ≤ u64_max;
  wf_next_handle : 1 ≤ next_handle t ≤ u64_max;
  wf_nodes id n : nodes t !! id = Some n → given (next_nodeid t) id ∧ node_ok n;
  wf_handles fh h : handles t !! fh = Some h → given (next_handle t) fh ∧ handle_ok h (directories t !! fh);
  wf_directories fh d : directories t !! fh = Some d → is_Some (handles t !! fh);
}.

(** Identifiers only come from [next_nodeid] and [next_handle], which grow. *)
Record later (t t' : NodeTable) : Prop := {
  later_next_nodeid : next_nodeid t ≤ next_nodeid t';
  later_next_handle : next_handle t ≤ next_handle t';
  later_nodes id : is_Some (nodes t' !! id) → is_Some (nodes t !! id) ∨ next_nodeid t ≤ id;
  later_handles fh : is_Some (handles t' !! fh) → is_Some (handles t !! fh) ∨ next_handle t ≤ fh;
}.

#[export] Instance later_preorder : PreOrder later.
Proof.
  split.
  - intros t. split; [lia|lia|auto|auto].
  - intros t t' t'' [] []. split; [lia|lia| |].
    + intros id Hid. destruct (later_nodes1 id Hid) as [H|]; [|right; lia]. destruct (later_nodes0 id H); [by left|by right].
    + intros fh Hfh. destruct (later_handles1 fh Hfh) as [H|]; [|right; lia].
      destruct (later_handles0 fh H); [by left|by right].
Qed.

(** A change of the table that keeps it well formed. *)
Definition fine (t t' : NodeTable) : Prop := wf t → wf t' ∧ later t t'.

#[export] Instance fine_preorder : PreOrder fine.
Proof.
  split; [by intros t ?|]. intros t t' t'' H1 H2 Ht. destruct (H1 Ht) as [Ht' ?]. destruct (H2 Ht') as [? ?].
  split; [done|]. by transitivity t'.
Qed.

Lemma bump_range z : 0 ≤ z ≤ u64_max → 1 ≤ bump z ≤ u64_max.
Proof. unfold bump, saturating_add, u64_max. lia. Qed.

(** ** Changes of the nodes *)

(** The nodes are others, but no new ones, and each is as well formed as it was. *)
Lemma fine_nodes t (f : gmap Z Node → gmap Z Node) :
  (∀ id n, f (nodes t) !! id = Some n → ∃ n0, nodes t !! id = Some n0 ∧ (node_ok n0 → node_ok n)) →
  fine t (set_nodes f t).
Proof.
  intros H [H1 H2 H3 H4 H5]. split; split; simpl; try done.
  - intros id n (n0 & Hn0 & Hok)%H. destruct (H3 _ _ Hn0). auto.
  - intros id [n (n0 & Hn0 & _)%H]. left. by exists n0.
  - intros fh ?. by left.
Qed.

Lemma fine_insert t id n n0 : nodes t !! id = Some n0 → (node_ok n0 → node_ok n) → fine t (set_nodes <[id := n]> t).
Proof.
  intros Hn Hok. apply fine_nodes. intros id' n' [[<- <-]|[_ ?]]%lookup_insert_Some; [by exists n0|by exists n'].
Qed.

Lemma fine_map t (f : Z → Node → Node) :
  (∀ id n, node_ok n → node_ok (f id n)) → fine t (set_nodes (map_imap (λ id n, Some (f id n))) t).
Proof.
  intros Hf. apply fine_nodes. intros id n Hn. rewrite map_lookup_imap in Hn.
  destruct (nodes t !! id) as [n0|]; [|done]. injection Hn as <-. eauto.
Qed.

Lemma fine_fmap t (f : Node → Node) : (∀ n, node_ok n → node_ok (f n)) → fine t (set_nodes (fmap f) t).
Proof.
  intros Hf. apply fine_nodes. intros id n Hn. rewrite lookup_fmap in Hn. destruct (nodes t !! id) as [n0|]; [|done].
  injection Hn as <-. eauto.
Qed.

Lemma ok_observe now fid path st clear changed n : node_ok n → node_ok (observe now fid path st clear changed n).
Proof.
  intros [H1 H2]. split; [done|]. simpl. destruct changed; [|done]. apply bump_range. lia.
Qed.

Lemma ok_look_up_again n : node_ok n → node_ok (look_up_again n).
Proof. intros [H1 H2]. split; [|done]. simpl. apply bump_range. lia. Qed.

Lemma ok_seen now fid st path n : node_ok n → node_ok (seen_at now fid st path n).
Proof. apply ok_observe. Qed.

Create HintDb ok discriminated.
#[export] Hint Resolve ok_observe ok_look_up_again ok_seen : ok.

Lemma node_found id t n : node id t = inr n → nodes t !! id = Some n.
Proof. unfold node. by destruct (nodes t !! id) eqn:?; intros [= <-]. Qed.

Lemma in_order_lookup {A} (m : gmap Z A) id a : (id, a) ∈ in_order m → m !! id = Some a.
Proof.
  unfold in_order. rewrite merge_sort_Permutation. apply elem_of_map_to_list.
Qed.

Lemma find_in_order {A} (m : gmap Z A) (f : Z * A → bool) id a :
  List.find f (in_order m) = Some (id, a) → m !! id = Some a ∧ f (id, a) = true.
Proof. intros [H1 H2]%List.find_some. split; [|done]. apply in_order_lookup. by apply list_elem_of_In. Qed.

(** A result that is a table. *)
Definition fine_result {A} (t : NodeTable) (r : SResult (A * NodeTable)) : Prop :=
  match r with inl _ => True | inr (_, t') => fine t t' end.

Lemma fine_insert_node now parent fid st name t : fine_result t (insert_node now parent fid st name t).
Proof.
  unfold insert_node. destruct (node parent t) as [e|p]; [done|].
  destruct (nodeid_at_path (n_path p ++ [name]) t) as [nodeid|].
  - destruct (node nodeid t) as [e|n] eqn:En; [done|]. destruct (keep_fid _ _ _) as [kept clunk].
    apply node_found in En. apply (fine_insert t nodeid _ n En). auto with ok.
  - intros [H1 H2 H3 H4 H5]. set (next := Z.max (ROOT_NODEID + 1) _).
    assert (Hn : 2 ≤ next ≤ u64_max ∧ next_nodeid t ≤ next ∧ (next_nodeid t < next ∨ next = u64_max)).
    { unfold next, ROOT_NODEID, saturating_add, u64_max in *. lia. }
    split; split; simpl; try (done || lia).
    + intros id n [[<- <-]|[Hne Hn']]%lookup_insert_Some.
      * split; [unfold given; lia|]. split; simpl; unfold u64_max; lia.
      * destruct (H3 _ _ Hn') as [Hg Hok]. split; [|done]. unfold given in *. lia.
    + intros id [n [[<- _]|[_ Hn']]%lookup_insert_Some]; [by right|left; by exists n].
    + intros fh ?. by left.
Qed.

Lemma fine_insert_lookup now parent fid st name t : fine_result t (insert_lookup now parent fid st name t).
Proof. apply fine_insert_node. Qed.

Lemma fine_insert_lazy now parent st name t : fine_result t (insert_lookup_lazy now parent st name t).
Proof.
  unfold insert_lookup_lazy. pose proof (fine_insert_node now parent None st name t) as H.
  by destruct (insert_node _ _ _ _ _ _) as [|[]].
Qed.

Lemma fine_forget nodeid count t : 0 ≤ count → fine t (FuseNodes.forget nodeid count t).2.
Proof.
  intros Hc. unfold FuseNodes.forget. destruct (_ =? _); [done|]. destruct (nodes t !! nodeid) as [n|] eqn:En; [|done].
  destruct (Z.ltb_spec count (n_lookups n)).
  - apply (fine_insert t nodeid _ n En). intros [H1 H2]. split; simpl; [lia|done].
  - apply fine_nodes. intros id n' [_ Hn']%lookup_delete_Some. eauto.
Qed.

Lemma fine_replace_binding now nodeid fid st t : fine_result t (replace_binding now nodeid fid st t).
Proof.
  unfold replace_binding. destruct (node nodeid t) as [e|n] eqn:En; [done|]. apply node_found in En.
  apply (fine_insert t nodeid _ n En). auto with ok.
Qed.

Lemma fine_take_fid nodeid t : fine_result t (take_cached_fid nodeid t).
Proof.
  unfold take_cached_fid. destruct (node nodeid t) as [e|n] eqn:En; [done|]. apply node_found in En.
  by apply (fine_insert t nodeid _ n En).
Qed.

Lemma fine_update_stat now nodeid st t : fine_result t (quietly (update_stat now nodeid st) t).
Proof.
  unfold quietly, update_stat. destruct (node nodeid t) as [e|n] eqn:En; [done|]. apply node_found in En.
  apply (fine_insert t nodeid _ n En). auto with ok.
Qed.

Lemma fine_refresh_qid now qid st path t : fine t (refresh_qid now qid st path t).
Proof. apply fine_fmap. intros n Hn. case_match; auto with ok. Qed.

Lemma fine_replace_qid now qid fid st path t : fine t (replace_first_qid now qid fid st path t).2.
Proof.
  unfold replace_first_qid. destruct (List.find _ _) as [[nodeid n]|] eqn:E; [|done].
  apply find_in_order in E as [En _]. apply (fine_insert t nodeid _ n En). auto with ok.
Qed.

Lemma fine_remove_subtree path t : fine t (remove_path_subtree path t).2.
Proof.
  unfold remove_path_subtree. destruct path; [done|]. apply fine_nodes. intros id n [Hn _]%map_lookup_filter_Some. eauto.
Qed.

Lemma fine_move_prefix from to t : fine t (move_path_prefix from to t).
Proof. unfold move_path_prefix. destruct from; [done|]. apply fine_fmap. intros n Hn. by case_match. Qed.

Lemma fine_rebind_stale now l t : fine t (rebind_stale now l t).2.
Proof.
  revert t. induction l as [|id l IH]; intros t; [done|]. cbn [rebind_stale].
  destruct (nodes t !! id) as [n|] eqn:En; [|apply IH].
  specialize (IH (set_nodes <[id := lose_binding now Reconnect n]> t)). destruct (rebind_stale now l _) as [r t'].
  etransitivity; [|exact IH]. by apply (fine_insert t id _ n En).
Qed.

Lemma fine_rebind_found now l t : fine t (rebind_found now l t).2.
Proof.
  revert t. induction l as [|[[id fid] st] l IH]; intros t; [done|]. cbn [rebind_found].
  destruct (nodes t !! id) as [n|] eqn:En; [|apply IH].
  specialize (IH (set_nodes <[id := seen_at now (Some fid) st None n]> t)). destruct (rebind_found now l _) as [r t'].
  etransitivity; [|exact IH]. apply (fine_insert t id _ n En). auto with ok.
Qed.

Lemma fine_rebind now rebound stale t : fine t (apply_rebind_results now rebound stale t).2.
Proof.
  unfold apply_rebind_results. pose proof (fine_rebind_stale now stale t) as H1.
  destruct (rebind_stale _ _ _) as [l1 t1]. pose proof (fine_rebind_found now rebound t1) as H2.
  destruct (rebind_found _ _ _) as [l2 t2]. by transitivity t1.
Qed.

Lemma fine_mark now path descendants t : fine t (mark_path_with now path descendants t).2.
Proof. apply (fine_map t (λ id n, if marks path descendants id n then lose_binding now NamespaceChanged n else n)). intros id n Hn. by case_match. Qed.

Lemma fine_mark_parent path t : fine t (mark_parent_directory_cache_stale path t).2.
Proof.
  unfold mark_parent_directory_cache_stale. destruct (last path); [|done].
  destruct (nodeid_at_path _ _) as [parent|]; [|done]. apply fine_nodes. intros id n Hn.
  apply lookup_alter_Some in Hn as [(<- & n0 & Hn0 & ->)|[_ Hn]]; eauto.
Qed.

(** ** Changes of the handles *)

(** The handle [fh] becomes [h] with the stream [d]. *)
Lemma fine_handle t fh h0 h d : handles t !! fh = Some h0 →
  (handle_ok h0 (directories t !! fh) → handle_ok h d) →
  fine t (NodeTable_mk (nodes t) (<[fh := h]> (handles t))
            (match d with Some d => <[fh := d]> (directories t) | None => delete fh (directories t) end)
            (next_nodeid t) (next_handle t)).
Proof.
  intros Hh Hok [H1 H2 H3 H4 H5]. split; split; simpl; try done.
  - intros fh' h' [[<- <-]|[Hne Hh']]%lookup_insert_Some.
    + destruct (H4 _ _ Hh). split; [done|]. destruct d; [rewrite lookup_insert_eq|rewrite lookup_delete_eq]; auto.
    + destruct (H4 _ _ Hh'). split; [done|]. destruct d; [rewrite lookup_insert_ne|rewrite lookup_delete_ne]; auto.
  - intros fh' d' Hd. destruct (decide (fh' = fh)) as [->|Hne]; [rewrite lookup_insert_eq; eauto|].
    rewrite lookup_insert_ne by done. destruct d; [rewrite lookup_insert_ne in Hd by done|rewrite lookup_delete_ne in Hd by done];
      eauto.
  - intros id ?. by left.
  - intros fh' [h' [[<- _]|[_ ?]]%lookup_insert_Some]; left; eauto.
Qed.

Lemma handle_found fh t h : handle fh t = inr h → handles t !! fh = Some h.
Proof. unfold handle. by destruct (handles t !! fh) eqn:?; intros [= <-]. Qed.

Lemma fine_set_handle t fh h0 h : handles t !! fh = Some h0 →
  (∀ d, handle_ok h0 d → handle_ok h d) → fine t (set_handles <[fh := h]> t).
Proof.
  intros Hh Hok [H1 H2 H3 H4 H5]. split; split; simpl; try done.
  - intros fh' h' [[<- <-]|[Hne Hh']]%lookup_insert_Some; [destruct (H4 _ _ Hh); auto|auto].
  - intros fh' d' Hd. rewrite lookup_insert_is_Some'. eauto.
  - intros id ?. by left.
  - intros fh' [h' [[<- _]|[_ ?]]%lookup_insert_Some]; left; eauto.
Qed.

Lemma fine_replace_read fh client fid t : fine_result t (replace_read_handle_binding fh client fid t).
Proof.
  unfold replace_read_handle_binding. destruct (handle fh t) as [e|h] eqn:Eh; [done|]. apply handle_found in Eh.
  destruct (h_is_dir h) eqn:Ed; [done|]. destruct (h_write_on_release h) eqn:Ew; [done|].
  apply (fine_set_handle t fh h _ Eh). intros d. unfold handle_ok. simpl. rewrite Ed. naive_solver.
Qed.

Lemma fine_replace_write fh client fid t : fine_result t (replace_write_handle_binding fh client fid t).
Proof.
  unfold replace_write_handle_binding. destruct (handle fh t) as [e|h] eqn:Eh; [done|]. apply handle_found in Eh.
  destruct (h_is_dir h) eqn:Ed; [done|]. destruct (h_write_on_release h) eqn:Ew; [|done].
  apply (fine_set_handle t fh h _ Eh). intros d. unfold handle_ok. simpl. rewrite Ed. naive_solver.
Qed.

Lemma fine_replace_directory fh client fid t : fine_result t (replace_directory_handle_binding fh client fid t).
Proof.
  unfold replace_directory_handle_binding. destruct (handle fh t) as [e|h] eqn:Eh; [done|]. apply handle_found in Eh.
  destruct (h_is_dir h) eqn:Ed; [|done]. simpl. destruct (directories t !! fh) as [d|] eqn:Es; [|done].
  apply (fine_handle t fh h _ (Some _) Eh). rewrite Es. unfold handle_ok. simpl. rewrite Ed. naive_solver.
Qed.

Lemma fine_note_write fh count t : 0 ≤ count → fine_result t (quietly (note_handle_write fh count) t).
Proof.
  intros Hc. unfold quietly, note_handle_write. destruct (handle fh t) as [e|h] eqn:Eh; [done|]. apply handle_found in Eh.
  apply (fine_set_handle t fh h _ Eh). intros d. unfold handle_ok. simpl. unfold saturating_add, u64_max.
  intros (? & ? & ?). split_and!; [done|done|lia|lia].
Qed.

Lemma fine_flushed fh t : fine_result t (quietly (mark_close_commit_flushed fh) t).
Proof.
  unfold quietly, mark_close_commit_flushed. destruct (handle fh t) as [e|h] eqn:Eh; [done|]. apply handle_found in Eh.
  by apply (fine_set_handle t fh h _ Eh).
Qed.

Lemma fine_remove_handle fh t : fine t (remove_handle fh t).2.
Proof.
  intros [H1 H2 H3 H4 H5]. split; split; simpl; try done.
  - intros fh' h' [Hne Hh']%lookup_delete_Some. rewrite lookup_delete_ne by done. auto.
  - intros fh' d' [Hne Hd]%lookup_delete_Some. rewrite lookup_delete_ne by done. eauto.
  - intros id ?. by left.
  - intros fh' [h' [_ ?]%lookup_delete_Some]. left. eauto.
Qed.

(** A handle as the operations open it. *)
Definition opens (o : OpenHandle) : Prop :=
  (if oh_is_dir o then is_Some (oh_directory o) ∧ oh_fid o = None ∧ oh_write_on_release o = false
   else oh_directory o = None ∧ is_Some (oh_fid o)) ∧
  (oh_close_commit o → oh_write_on_release o).

Lemma fine_open_handle o t : opens o → fine t (open_handle o t).2.
Proof.
  intros [Ho Hc] [H1 H2 H3 H4 H5]. unfold open_handle.
  assert (Hb : 1 ≤ bump (next_handle t) ≤ u64_max ∧ next_handle t ≤ bump (next_handle t) ∧
               (next_handle t < bump (next_handle t) ∨ bump (next_handle t) = u64_max)).
  { unfold bump, saturating_add, u64_max in *. lia. }
  split; split; simpl; try (done || lia).
  - intros fh h [[<- <-]|[Hne Hh]]%lookup_insert_Some.
    + split; [unfold given; lia|]. split; [|split; [done|simpl; unfold u64_max; lia]]. simpl.
      destruct (oh_is_dir o).
      * destruct Ho as ([d ->] & ? & ?). rewrite lookup_insert_eq. eauto.
      * destruct Ho as (-> & ?). by rewrite lookup_delete_eq.
    + destruct (H4 _ _ Hh) as [Hg Hok]. split; [unfold given in *; lia|].
      destruct (oh_directory o); [rewrite lookup_insert_ne by done|rewrite lookup_delete_ne by done]; done.
  - intros fh d Hd. rewrite lookup_insert_is_Some'. destruct (decide (next_handle t = fh)) as [|Hne]; [by left|right].
    destruct (oh_directory o); [rewrite lookup_insert_ne in Hd by done|rewrite lookup_delete_ne in Hd by done]; eauto.
  - intros id ?. by left.
  - intros fh [h [[<- _]|[_ ?]]%lookup_insert_Some]; [by right|left; eauto].
Qed.

Lemma fine_put_stream t fh d0 d : directories t !! fh = Some d0 → fine t (set_directories <[fh := d]> t).
Proof.
  intros Hd [H1 H2 H3 H4 H5]. split; split; simpl; try done.
  - intros fh' h Hh. destruct (H4 _ _ Hh) as [Hg Hok]. split; [done|].
    destruct (decide (fh = fh')) as [<-|Hne]; [|by rewrite lookup_insert_ne]. rewrite lookup_insert_eq.
    unfold handle_ok in *. rewrite Hd in Hok. destruct (h_is_dir h); naive_solver.
  - intros fh' d' [[<- _]|[_ ?]]%lookup_insert_Some; eauto.
  - intros id ?. by left.
  - intros fh' ?. by left.
Qed.

(** A new table. *)
Lemma wf_new now fid st : wf (NodeTable_new now fid st).
Proof.
  split; simpl; unfold ROOT_NODEID, u64_max; try lia; [|done|done].
  intros id n [<- <-]%lookup_singleton_Some. split; [unfold given; lia|]. split; simpl; unfold u64_max; lia.
Qed.

(** ** The operations *)

Section operations.
Context {W : Type} `{!MountSession W} {os : OsText} (fs : Mounted).

Abbreviation F := (S_ (Fuse W)).

(** Code that only makes changes that keep the table well formed. *)
Definition tidy {A} (m : F A) : Prop := ∀ s, fine (f_nodes s) (f_nodes (m s).2).

Lemma tidy_ret {A} (a : A) : tidy (mret a).
Proof. by intros s. Qed.
Lemma tidy_throw {A} e : tidy (sthrow e : F A).
Proof. by intros s. Qed.
Lemma tidy_lift {A} (r : SResult A) : tidy (slift r : F A).
Proof. by intros s. Qed.
Lemma tidy_gets {A} (f : Fuse W → A) : tidy (sgets f).
Proof. by intros s. Qed.
Lemma tidy_fuse_bind {A B} (m : F A) (k : A → F B) : tidy m → (∀ a, tidy (k a)) → tidy (m ≫= k).
Proof.
  intros Hm Hk s. specialize (Hm s). unfold mbind, S_bind. destruct (m s) as [[e|a] s1]; simpl in *; [done|].
  etransitivity; [exact Hm|apply Hk].
Qed.
Lemma tidy_caught {A} (m : F A) : tidy m → tidy (sattempt m).
Proof. intros Hm s. specialize (Hm s). unfold sattempt. by destruct (m s). Qed.
Lemma tidy_world {A} (m : S_ W A) : tidy (on_world m).
Proof. intros s. unfold on_world. by destruct (m _). Qed.
Lemma tidy_nodes {A} (f : NodeTable → SResult A) : tidy (on_nodes f : F A).
Proof. by intros s. Qed.
Lemma tidy_change {A} (f : NodeTable → SResult (A * NodeTable)) :
  (∀ t, fine_result t (f t)) → tidy (change_nodes f : F A).
Proof. intros Hf s. specialize (Hf (f_nodes s)). unfold change_nodes. by destruct (f _) as [|[]]. Qed.
Lemma tidy_total {A} (f : NodeTable → A * NodeTable) : (∀ t, fine t (f t).2) → tidy (change_nodes (total f) : F A).
Proof. intros Hf. apply tidy_change. intros t. specialize (Hf t). unfold total. by destruct (f t). Qed.
Lemma tidy_modify (f : Fuse W → Fuse W) : (∀ s, f_nodes (f s) = f_nodes s) → tidy (smodify f).
Proof. intros Hf s. simpl. by rewrite Hf. Qed.
Lemma tidy_now : tidy (get_now : F Z).
Proof. apply tidy_world. Qed.
Lemma tidy_ignore {A} (m : F A) : tidy m → tidy (ignore m).
Proof. intros Hm. unfold ignore. apply tidy_fuse_bind; [by apply tidy_caught|intros ?; apply tidy_ret]. Qed.
Lemma tidy_each {A} (l : list A) (f : A → F unit) : (∀ a, tidy (f a)) → tidy (for_each l f).
Proof. intros Hf. induction l; [apply tidy_ret|]. apply tidy_fuse_bind; [done|by intros ?]. Qed.

Create HintDb tidy discriminated.
Hint Constants Opaque : tidy.
Hint Resolve tidy_ret tidy_throw tidy_lift tidy_gets tidy_world tidy_nodes tidy_now fine_insert_lookup
  fine_insert_lazy fine_replace_binding fine_take_fid fine_update_stat fine_refresh_qid fine_replace_qid
  fine_remove_subtree fine_move_prefix fine_rebind fine_mark fine_mark_parent fine_replace_read fine_replace_write
  fine_replace_directory fine_flushed fine_remove_handle : tidy.

Ltac tidy :=
  repeat first
    [ progress intros
    | solve [auto with tidy nocore]
    | match goal with |- tidy (change_nodes (total _)) => apply tidy_total; intros; cbn [snd] end
    | match goal with |- tidy (change_nodes _) => apply tidy_change; intros end
    | match goal with |- tidy (smodify _) => apply tidy_modify; intros; reflexivity end
    | apply tidy_fuse_bind | apply tidy_caught | apply tidy_ignore | apply tidy_each
    | case_match ].

Lemma tidy_clunk client fid : tidy (clunk fs client fid).
Proof. unfold clunk. tidy. Qed.
Hint Resolve tidy_clunk : tidy.
Lemma tidy_clunk_old client fid : tidy (clunk_old fs client fid).
Proof. unfold clunk_old. tidy. Qed.
Lemma tidy_error u errno : tidy (reply_error u errno : F unit).
Proof. unfold reply_error. tidy. Qed.
Lemma tidy_body u body : tidy (reply_body u body : F unit).
Proof. unfold reply_body. tidy. Qed.
Lemma tidy_notify n len : tidy (notify n len : F unit).
Proof. unfold notify. tidy. Qed.
Hint Resolve tidy_clunk_old tidy_error tidy_body tidy_notify : tidy.
Lemma tidy_invalidations i : tidy (notify_kernel_invalidations i : F unit).
Proof. unfold notify_kernel_invalidations, notify_inval_entry, notify_inval_inode. tidy. Qed.
Lemma tidy_source client timeout : tidy (source_binding fs client timeout).
Proof. unfold source_binding. tidy. Qed.
Lemma tidy_walk_source client path timeout : tidy (walk_from_source fs client path timeout).
Proof. unfold walk_from_source. tidy. Qed.
Lemma tidy_rebind client nodeid fid : tidy (rebind_node fs client nodeid fid).
Proof. unfold rebind_node. tidy. Qed.
Hint Resolve tidy_invalidations tidy_source tidy_walk_source tidy_rebind : tidy.
Lemma tidy_bound nodeid : tidy (bound_node_fid fs nodeid).
Proof. unfold bound_node_fid, client_snapshot. tidy. Qed.
Lemma tidy_stale stale : tidy (clunk_stale_bindings fs stale).
Proof. unfold clunk_stale_bindings, client_snapshot. tidy. Qed.
Hint Resolve tidy_bound tidy_stale : tidy.
Lemma tidy_invalidate : tidy (invalidate_namespace_bindings_after_reply fs).
Proof. unfold invalidate_namespace_bindings_after_reply, mark_path_bindings_stale, mark_path_prefix_stale. tidy. Qed.
Lemma tidy_source_loop fuel client started : tidy (source_binding_loop fs fuel client started).
Proof. induction fuel as [|fuel IH]; cbn [source_binding_loop]; unfold elapsed; tidy. Qed.
Hint Resolve tidy_invalidate tidy_source_loop : tidy.
Lemma tidy_reconnect : tidy (reconnect fs).
Proof. unfold reconnect, reconnect_source_binding. tidy. Qed.
Hint Resolve tidy_reconnect : tidy.
Lemma tidy_refresh nodeid : tidy (refresh_node fs nodeid).
Proof. unfold refresh_node, client_snapshot. tidy. Qed.
Hint Resolve tidy_refresh : tidy.
Lemma tidy_recover nodeid : tidy (recover_namespace_shape fs nodeid).
Proof. unfold recover_namespace_shape. tidy. Qed.
Hint Resolve tidy_recover : tidy.

Lemma tidy_walk_one client fid name timeout : tidy (walk_one client fid name timeout : F Z).
Proof. unfold walk_one. tidy. Qed.
Lemma tidy_fresh_child nodeid name client timeout : tidy (fresh_child_fid fs nodeid name client timeout).
Proof. unfold fresh_child_fid. tidy. Qed.
Lemma tidy_fresh_node nodeid client timeout : tidy (fresh_node_fid fs nodeid client timeout).
Proof. unfold fresh_node_fid. tidy. Qed.
Lemma tidy_cached nodeid : tidy (cached_node_stat_if_fresh fs nodeid).
Proof. unfold cached_node_stat_if_fresh. tidy. Qed.
Lemma tidy_retried {A} nodeid (m : F A) : tidy m → tidy (retried fs nodeid m).
Proof. intros Hm. unfold retried. tidy. Qed.
Hint Resolve tidy_walk_one tidy_fresh_child tidy_fresh_node tidy_cached tidy_retried : tidy.

Lemma tidy_lookup header payload : tidy (lookup fs header payload).
Proof. unfold lookup, lookup_once, client_snapshot. tidy. Qed.
Lemma tidy_forget_node nodeid count : 0 ≤ count → tidy (forget_node fs nodeid count).
Proof.
  intros Hc. unfold forget_node. apply tidy_fuse_bind; [|tidy]. apply tidy_total. intros t. by apply fine_forget.
Qed.
Hint Resolve tidy_forget_node : tidy.
Lemma tidy_forget header payload : tidy (forget fs header payload).
Proof.
  unfold forget. destruct (read_struct payload) as [|input] eqn:E; [tidy|]. apply tidy_forget_node.
  unfold read_struct in E. destruct (_ <? _); [done|]. injection E as <-. apply le_val_bound.
Qed.
Lemma tidy_forget_entries count payload : tidy (forget_entries fs count payload).
Proof.
  revert payload. induction count as [|count IH]; intros payload; cbn [forget_entries]; [tidy|].
  destruct (read_struct payload) as [|one] eqn:E; [tidy|].
  apply tidy_fuse_bind; [|intros _; apply IH]. apply tidy_forget_node.
  unfold read_struct in E. destruct (_ <? _); [done|]. injection E as <-. apply le_val_bound.
Qed.
Hint Resolve tidy_forget_entries : tidy.
Lemma tidy_batch_forget payload : tidy (batch_forget fs payload).
Proof. unfold batch_forget. tidy. Qed.

Lemma tidy_getattr header : tidy (getattr fs header).
Proof. unfold getattr, getattr_once. apply tidy_retried. tidy. Qed.
Lemma tidy_truncate client fid : tidy (truncate_fallback fs client fid).
Proof. unfold truncate_fallback. tidy. Qed.
Hint Resolve tidy_truncate : tidy.
Lemma tidy_setattr_once header input : tidy (setattr_once fs header input).
Proof. unfold setattr_once. tidy. Qed.
Hint Resolve tidy_setattr_once : tidy.
Lemma tidy_setattr header payload : tidy (setattr fs header payload).
Proof. unfold setattr. tidy. Qed.

Lemma tidy_create_remote nodeid name perm mode : tidy (create_remote fs nodeid name perm mode).
Proof. unfold create_remote. tidy. Qed.
Hint Resolve tidy_create_remote : tidy.
Lemma tidy_create_recovered nodeid name perm mode : tidy (create_recovered fs nodeid name perm mode).
Proof. unfold create_recovered. tidy. Qed.
Lemma fine_created client fid mode t : fine t (open_handle (created_handle client fid mode) t).2.
Proof. apply fine_open_handle. split; [|done]. simpl. eauto. Qed.
Hint Resolve tidy_create_recovered fine_created : tidy.
Lemma tidy_create header payload : tidy (create fs header payload).
Proof. unfold create. tidy. Qed.
Lemma tidy_make header name perm : tidy (make_node fs header name perm).
Proof. unfold make_node, insert_created_node. tidy. Qed.
Hint Resolve tidy_make : tidy.
Lemma tidy_mkdir header payload : tidy (mkdir fs header payload).
Proof. unfold mkdir. tidy. Qed.
Lemma tidy_mknod header payload : tidy (mknod fs header payload).
Proof. unfold mknod. tidy. Qed.

Lemma tidy_walk_child nodeid name : tidy (walk_child_for_mutation fs nodeid name).
Proof. unfold walk_child_for_mutation. tidy. Qed.
Hint Resolve tidy_walk_child : tidy.
Lemma tidy_remove header payload : tidy (remove fs header payload).
Proof. unfold remove. tidy. Qed.
Lemma tidy_stat_existing client existing fid : tidy (stat_existing fs client existing fid).
Proof. unfold stat_existing. tidy. Qed.
Lemma tidy_refuse client existing fid : tidy (refuse_over_directory fs client existing fid).
Proof. unfold refuse_over_directory. tidy. Qed.
Hint Resolve tidy_stat_existing tidy_refuse : tidy.
Lemma tidy_prepare p q old new : tidy (prepare_rename fs p q old new).
Proof. unfold prepare_rename. tidy. Qed.
Lemma tidy_rename_remote plan old new : tidy (rename_remote fs plan old new).
Proof. unfold rename_remote, rename_fid. tidy. Qed.
Lemma tidy_stat_renamed client parent fid new : tidy (stat_renamed_fid fs client parent fid new).
Proof. unfold stat_renamed_fid. tidy. Qed.
Hint Resolve tidy_prepare tidy_rename_remote tidy_stat_renamed : tidy.
Lemma tidy_renamed u old new plan : tidy (rename_prepared fs u old new plan).
Proof. unfold rename_prepared, reply_empty, reply_bytes. tidy. Qed.
Hint Resolve tidy_renamed : tidy.
Lemma tidy_rename header payload : tidy (rename fs header payload).
Proof. unfold rename. tidy. Qed.

Lemma tidy_flush header payload : tidy (flush fs header payload).
Proof. unfold flush, reply_empty, reply_bytes. tidy. Qed.

(** A loop whose turns keep the table well formed. *)
Lemma loop_fine {X A} (at_ : X → Fuse W) (step : X → X + SResult A * Fuse W) k x :
  (∀ x, fine (f_nodes (at_ x)) (f_nodes (match step x with inl x' => at_ x' | inr r => r.2 end))) →
  fine (f_nodes (at_ x)) (f_nodes (match loop k step x with inl x' => at_ x' | inr r => r.2 end)).
Proof.
  intros H. revert x. induction k as [|k IH]; intros x; [apply H|].
  change (loop (S k) step x) with (match loop k step x with inl a => loop k step a | inr b => inr b end).
  specialize (IH x) as H1. destruct (loop k step x) as [x'|r]; [|exact H1]. etransitivity; [exact H1|apply IH].
Qed.

Lemma nodes_validated client data (s : Fuse W) : f_nodes (validate_directory_entries client data s).2 = f_nodes s.
Proof.
  unfold validate_directory_entries. case_match; [|done]. generalize dependent a. intros l _.
  revert s. induction l as [|st l IH]; intros s; [done|]. cbn [validate_entries]. unfold mbind, S_bind, on_world.
  destruct (client_validate_stat _ _ _) as [[e|st'] w]; [done|]. specialize (IH (FuseState.set_world w s)).
  by destruct (validate_entries _ _ _) as [[]].
Qed.

Lemma tidy_validate client data : tidy (validate_directory_entries client data : F (list DirEntry)).
Proof. intros s. by rewrite nodes_validated. Qed.
Hint Resolve tidy_validate : tidy.

Lemma fine_directory_turn fh offset size encoding (s : Fuse W) :
  fine (f_nodes s) (f_nodes (match directory_turn fs fh offset size encoding s with inl s' => s' | inr r => r.2 end)).
Proof.
  unfold directory_turn. destruct (directories (f_nodes s) !! fh) as [d|] eqn:Ed; [|done].
  destruct (_ || _); [done|].
  unfold on_world at 1. destruct (client_read_at _ _ _ _ _ _) as [[e|chunk] w]; [done|].
  case_bool_decide; [by eapply fine_put_stream|].
  assert (H3 : f_nodes (validate_directory_entries (ds_client d) chunk (FuseState.set_world w s)).2 = f_nodes s).
  { apply (nodes_validated _ _ (FuseState.set_world w s)). }
  destruct (validate_directory_entries _ _ _) as [[e|v] s2]; simpl in *; rewrite H3; [done|by eapply fine_put_stream].
Qed.

Lemma tidy_directory_entries fh offset size encoding : tidy (directory_entries_for_read fs fh offset size encoding).
Proof.
  unfold directory_entries_for_read. apply tidy_fuse_bind; [tidy|]. intros h. case_match; [tidy|]. intros s.
  pose proof (loop_fine id (directory_turn fs fh offset size encoding) 64 s
                (fine_directory_turn fh offset size encoding)) as L.
  by destruct (loop 64 _ s).
Qed.
Hint Resolve tidy_directory_entries : tidy.

Lemma tidy_open_directory client fid : tidy (read_open_directory_entries fs client fid).
Proof.
  unfold read_open_directory_entries. apply tidy_fuse_bind; [|intros; apply tidy_validate]. intros s.
  pose proof (loop_fine (λ x, x.2) (open_directory_turn fs client fid) 64 (0, [], s)) as L.
  destruct (loop 64 _ _) as [[[o a] s']|r]; apply L; clear L; intros [[o' a'] s0]; unfold open_directory_turn, on_world;
    destruct (client_read_at _ _ _ _ _ _) as [[e|chunk] w]; try done; by case_bool_decide.
Qed.
Hint Resolve tidy_open_directory : tidy.

Lemma tidy_reopen_directory nodeid fh : tidy (reopen_directory_handle fs nodeid fh).
Proof. unfold reopen_directory_handle. tidy. Qed.
Hint Resolve tidy_reopen_directory : tidy.
Lemma tidy_entries_recovered nodeid fh offset size encoding :
  tidy (directory_entries_for_read_with_recovery fs nodeid fh offset size encoding).
Proof. unfold directory_entries_for_read_with_recovery. tidy. Qed.
Lemma tidy_plus parent offset size entries : tidy (encode_dirents_plus fs parent offset size entries).
Proof.
  unfold encode_dirents_plus. generalize (indices_from offset entries) (@nil byte). intros l.
  induction l as [|index l IH]; intros out; [apply tidy_ret|]. cbn [encode_dirents_plus_from].
  unfold direntplus_entry, special_direntplus_entry, bind_child. tidy.
Qed.
Hint Resolve tidy_entries_recovered tidy_plus : tidy.
Lemma tidy_readdir header payload : tidy (readdir fs header payload).
Proof. unfold readdir, special_dirent_inodes, reply_bytes. tidy. Qed.
Lemma tidy_readdirplus header payload : tidy (readdirplus fs header payload).
Proof. unfold readdirplus, reply_bytes. tidy. Qed.

Lemma fine_opened (client fid mode : Z) (is_dir write close : bool) d t :
  (is_dir → write = false) → (close → write) →
  fine t (open_handle (OpenHandle_mk client (if is_dir then None else Some fid) mode is_dir write close
                         (if is_dir then Some d else None)) t).2.
Proof. intros Hw Hc. apply fine_open_handle. split; [|done]. destruct is_dir; simpl in *; eauto. Qed.
Lemma tidy_open_once header input is_dir : tidy (open_once fs header input is_dir).
Proof.
  unfold open_once, client_snapshot.
  apply tidy_fuse_bind; [tidy|intros n]. destruct (_ && negb (stat_is_dir _)); [tidy|].
  do 4 (apply tidy_fuse_bind; [tidy|intros ?]). apply tidy_fuse_bind; [|tidy]. apply tidy_total. intros t. apply fine_opened; [by destruct is_dir|].
  by intros [? _]%andb_prop_elim.
Qed.

Hint Resolve tidy_open_once : tidy.
Lemma tidy_open header payload is_dir : tidy (open fs header payload is_dir).
Proof. unfold open. tidy. Qed.

Lemma tidy_relocation client fid : tidy (read_directory_for_relocation fs client fid).
Proof. unfold read_directory_for_relocation. tidy. Qed.
Hint Resolve tidy_relocation : tidy.
Lemma tidy_relocated nodeid : tidy (relocated_read_binding fs nodeid).
Proof. unfold relocated_read_binding, client_snapshot. tidy. Qed.
Hint Resolve tidy_relocated : tidy.
Lemma tidy_reopen_read nodeid : tidy (reopen_read_binding fs nodeid).
Proof. unfold reopen_read_binding. tidy. Qed.
Lemma tidy_cached_read c client fid identity offset size : tidy (cached_read fs c client fid identity offset size).
Proof. intros s. unfold cached_read. by destruct (ReadCache.read _ _ _ _ _) as [? []]. Qed.
Hint Resolve tidy_reopen_read tidy_cached_read : tidy.
Lemma tidy_read_range client fid mode st identity offset size :
  tidy (read_handle_range fs client fid mode st identity offset size).
Proof. unfold read_handle_range. tidy. Qed.
Hint Resolve tidy_read_range : tidy.
Lemma tidy_read_reopened nodeid fh offset size : tidy (read_from_reopened_handle fs nodeid fh offset size).
Proof. unfold read_from_reopened_handle. tidy. Qed.
Hint Resolve tidy_read_reopened : tidy.
Lemma tidy_readlink header : tidy (readlink fs header).
Proof. unfold readlink, reply_bytes. tidy. Qed.
Lemma tidy_read header payload : tidy (read fs header payload).
Proof. unfold read, reply_bytes. tidy. Qed.

Lemma tidy_write_reopened nodeid fh offset data timeout :
  tidy (write_from_reopened_write_handle fs nodeid fh offset data timeout).
Proof. unfold write_from_reopened_write_handle. tidy. Qed.
Lemma tidy_note_write fh count :
  tidy (if 0 <? count then change_nodes (quietly (note_handle_write fh count)) else mret () : F unit).
Proof. destruct (Z.ltb_spec 0 count); [|tidy]. apply tidy_change. intros t. apply fine_note_write. lia. Qed.
Hint Resolve tidy_write_reopened tidy_note_write : tidy.
Lemma tidy_write header payload : tidy (write fs header payload).
Proof. unfold write. tidy. Qed.
Lemma tidy_release header payload : tidy (release fs header payload).
Proof. unfold release, release_file, reply_empty, reply_bytes. tidy. Qed.

Lemma tidy_interrupt payload : tidy (interrupt fs payload).
Proof. unfold interrupt. tidy. Qed.
Lemma tidy_init u payload : tidy (fuse_init fs u payload : F unit).
Proof. unfold fuse_init, reply_bytes. tidy. Qed.
Lemma tidy_simple header payload :
  tidy (statfs header : F unit) ∧ tidy (poll header payload : F unit) ∧ tidy (fsync header payload : F unit) ∧
  tidy (fsyncdir header payload : F unit) ∧ tidy (access fs header payload : F unit) ∧
  tidy (getlk header payload : F unit) ∧ tidy (setlk header : F unit).
Proof.
  unfold statfs, poll, fsync, fsyncdir, access, getlk, setlk, reply_empty, reply_bytes. split_and!; tidy.
Qed.

Hint Resolve tidy_init tidy_lookup tidy_forget tidy_batch_forget tidy_getattr tidy_setattr tidy_readlink
  tidy_open tidy_read tidy_write tidy_release tidy_readdir tidy_readdirplus tidy_create tidy_mkdir tidy_mknod
  tidy_remove tidy_rename tidy_flush tidy_interrupt : tidy.

Lemma tidy_handler header payload : tidy (handler fs header payload).
Proof.
  destruct (tidy_simple header payload) as (? & ? & ? & ? & ? & ? & ?). unfold handler.
  repeat match goal with |- tidy (if ?b then _ else _) => destruct b; [solve [auto with tidy nocore]|] end.
  apply tidy_error.
Qed.
Hint Resolve tidy_handler : tidy.

Lemma tidy_job header payload : tidy (dispatch_fuse_job fs header payload).
Proof. unfold dispatch_fuse_job, dispatch. tidy. Qed.

Lemma tidy_coarse : tidy (apply_coarse_invalidation : F unit).
Proof. unfold apply_coarse_invalidation, mark_path_bindings_stale, mark_path_prefix_stale. tidy. Qed.
Hint Resolve tidy_coarse : tidy.
Lemma tidy_change_announced change : tidy (apply_namespace_change fs change).
Proof. unfold apply_namespace_change, announce, mark_path_stale, mark_path_prefix_stale. tidy. Qed.
Hint Resolve tidy_change_announced : tidy.
Lemma tidy_event event : tidy (feed_event fs event).
Proof. unfold feed_event. tidy. Qed.

(** ** Runs *)

(** What happens to a mount: the kernel asks, or the feed announces. *)
Inductive fuse_step : Fuse W → Fuse W → Prop :=
  | step_request header payload s : fuse_step s (dispatch_fuse_job fs header payload s).2
  | step_event event s : fuse_step s (feed_event fs event s).2.

Lemma run_fine s s' : rtc fuse_step s s' → fine (f_nodes s) (f_nodes s').
Proof.
  induction 1 as [s|s s' s'' Hs _ IH]; [done|]. etransitivity; [|exact IH]. destruct Hs; [apply tidy_job|apply tidy_event].
Qed.

Lemma prepared_table config uid gid page_size disk (w : W) s :
  prepare config uid gid page_size disk w = inr (fs, s) → wf (f_nodes s).
Proof.
  unfold prepare. destruct (parse_source_path _); [done|]. destruct (open_read_cache _ _); [done|].
  destruct (session_client w) as [[e|client] w1]; [done|].
  destruct (source_binding _ _ _ _) as [[e|[root_fid root_stat]] s1]; [done|].
  destruct (get_now s1) as [[e|now] s2]; [done|]. intros [= _ <-]. apply wf_new.
Qed.

(** C17: The tables of a mount stay well formed whatever the kernel asks, the feed
    announces and the session answers: identifiers are those that were given out, the
    reference count and the generation of a node are at least one, a directory handle
    has a stream and no fid, a file handle a fid and no stream, and only a handle
    opened for writing is committed when it is closed.  An identifier the kernel
    forgot or released is not given out again. *)
Theorem mount_tables_wf config uid gid page_size disk w s0 s1 s2 :
  prepare config uid gid page_size disk w = inr (fs, s0) → rtc fuse_step s0 s1 → rtc fuse_step s1 s2 →
  wf (f_nodes s2) ∧
  (∀ id, id < next_nodeid (f_nodes s1) → nodes (f_nodes s1) !! id = None → nodes (f_nodes s2) !! id = None) ∧
  (∀ fh, fh < next_handle (f_nodes s1) → handles (f_nodes s1) !! fh = None → handles (f_nodes s2) !! fh = None).
Proof.
  intros E%prepared_table H1%run_fine H2%run_fine. destruct (H1 E) as [Hw _].
  destruct (H2 Hw) as [Hw2 [_ _ Hn Hh]]. split_and!; [done| |].
  - intros id Hid Hnone. apply eq_None_not_Some. intros [Hs|?]%Hn; [|lia]. rewrite Hnone in Hs. by destruct Hs.
  - intros fh Hfh Hnone. apply eq_None_not_Some. intros [Hs|?]%Hh; [|lia]. rewrite Hnone in Hs. by destruct Hs.
Qed.

End operations.
