(* ===== verification/FuseProps.v ===== *)
(** What the FUSE bridge promises the server and the kernel: how often it forces a
    reconnection, what it negotiates, and what the pages of a directory add up to. *)
From stdpp Require Import sorting.
From S2P Require Import Prelude Errors Qid Stat Utf8 Referral Blocking NamespaceCache Text SessionErrors Feed FeedWorker SessionConfig ReadCache FuseConfig FuseNodes FuseWire FuseState FuseOps.

(** ** recovery.rs *)

(** The reconnections forced when recoveries are noted at the times [nows]. *)
Fixpoint forced (nows : list Z) (r : ShapeRecovery) : list Z :=
  match nows with
  | [] => []
  | now :: nows => let '(force, r) := note_at now r in (if force then [now] else []) ++ forced nows r
  end.

(** The times within the window before [t]. *)
Definition within (t : Z) (nows : list Z) : list Z := List.filter (λ n, (t - WINDOW <=? n) && (n <=? t)) nows.

Lemma filter_weaken {A} (f g : A → bool) (l : list A) :
  Forall (λ a, f a = true → g a = true) l → vlen (List.filter f l) ≤ vlen (List.filter g l).
Proof.
  induction 1 as [|a l H _ IH]; [done|]. cbn [List.filter].
  destruct (f a) eqn:Ef; [rewrite (H eq_refl)|destruct (g a)]; rewrite ?vlen_cons; lia.
Qed.

Lemma filter_snoc {A} (f : A → bool) (l : list A) a : f a = true → vlen (List.filter f (l ++ [a])) = vlen (List.filter f l) + 1.
Proof. intros Ha. rewrite List.filter_app, vlen_app. cbn [List.filter]. by rewrite Ha. Qed.

(** The failures that are counted were noted since the window started. *)
Definition counted (past : list Z) (r : ShapeRecovery) : Prop :=
  match sr_window_start r with
  | None => sr_failures r = 0
  | Some start => start ∈ past ∧ sr_failures r ≤ vlen (List.filter (λ n, start <=? n) past)
  end.

Lemma note_counted now past r force r' :
  Forall (λ n, n ≤ now) past → counted past r → note_at now r = (force, r') →
  counted (past ++ [now]) r' ∧ (force = true → THRESHOLD ≤ vlen (within now (past ++ [now]))).
Proof.
  intros Hp Hc. unfold note_at.
  set (r1 := match sr_window_start r with Some _ => _ | None => _ end).
  assert (∃ start, sr_window_start r1 = Some start ∧ start ∈ past ++ [now] ∧ now - WINDOW ≤ start ≤ now ∧
            sr_failures r1 ≤ vlen (List.filter (λ n, start <=? n) (past ++ [now]))) as (start & Hs & Hi & Hw & Hf).
  { assert (Hnew : 1 ≤ vlen (List.filter (λ n, now <=? n) (past ++ [now]))).
    { rewrite filter_snoc by apply Z.leb_refl. pose proof (vlen_nonneg (List.filter (λ n, now <=? n) past)). lia. }
    assert (now ∈ past ++ [now]) by (apply elem_of_app; right; by left).
    unfold counted in Hc. subst r1. destruct (sr_window_start r) as [start|]; [|exists now; unfold WINDOW; simpl; split_and!; done || lia].
    destruct Hc as [Hin Hn]. rewrite Forall_forall in Hp. specialize (Hp _ Hin).
    destruct (Z.leb_spec (saturating_sub now start) WINDOW) as [Hle|_]; [|exists now; unfold WINDOW; simpl; split_and!; done || lia].
    exists start. unfold saturating_sub in Hle. split_and!; simpl; [done|apply elem_of_app; by left|lia|lia|].
    rewrite filter_snoc by (apply Z.leb_le; lia). lia. }
  destruct (Z.ltb_spec (sr_failures r1) THRESHOLD); [|case_match].
  - intros [= <- <-]. split; [|done]. unfold counted. by rewrite Hs.
  - intros [= <- <-]. split; [|done]. unfold counted. by rewrite Hs.
  - intros [= <- <-]. split; [done|]. intros _. etransitivity; [eassumption|]. etransitivity; [exact Hf|].
    unfold within. apply filter_weaken. apply (Forall_impl (λ n, n ≤ now)).
    + apply Forall_app. split; [done|]. by rewrite Forall_singleton.
    + intros n Hn. rewrite andb_true_iff, !Z.leb_le. lia.
Qed.

Lemma forced_counted past nows r :
  StronglySorted Z.le (past ++ nows) → counted past r →
  Forall (λ t, THRESHOLD ≤ vlen (within t (past ++ nows))) (forced nows r).
Proof.
  revert past r. induction nows as [|now nows IH]; intros past r Hs Hc; [constructor|]. cbn [forced].
  destruct (note_at now r) as [force r'] eqn:E.
  apply (note_counted _ past) in E as [Hc' Hf]; [| |done].
  2: { apply Forall_forall. intros n Hn. by eapply StronglySorted_app_1_elem_of; [exact Hs| |left]. }
  replace (past ++ now :: nows) with ((past ++ [now]) ++ nows) in * by (by rewrite <-app_assoc). apply Forall_app. split; [|by apply IH].
  destruct force; [|constructor]. rewrite Forall_singleton. etransitivity; [by apply Hf|].
  unfold within. rewrite (List.filter_app _ (past ++ [now]) nows), (vlen_app (List.filter _ (past ++ [now]))).
  match goal with |- _ ≤ _ + vlen ?l => pose proof (vlen_nonneg l) end. lia.
Qed.

(** At least [COOLDOWN] apart. *)
Definition spaced (a b : Z) : Prop := a + COOLDOWN ≤ b.

Lemma note_spaced now r r' : note_at now r = (true, r') →
  sr_last_forced r' = Some now ∧ ∀ last, sr_last_forced r = Some last → spaced last now.
Proof.
  unfold note_at. set (r1 := match sr_window_start r with Some _ => _ | None => _ end).
  assert (Hl : sr_last_forced r1 = sr_last_forced r) by (subst r1; repeat case_match; done). rewrite Hl.
  destruct (_ <? THRESHOLD); [done|]. destruct (sr_last_forced r) as [last|].
  - destruct (Z.ltb_spec (saturating_sub now last) COOLDOWN) as [|Hd]; [done|]. intros [= <-]. split; [done|].
    intros ? [= <-]. unfold spaced, saturating_sub, COOLDOWN in *. lia.
  - intros [= <-]. split; [done|]. intros ? [=].
Qed.

Lemma note_keeps_last now r r' : note_at now r = (false, r') → sr_last_forced r' = sr_last_forced r.
Proof. unfold note_at. repeat case_match; try done; by intros [= <-]. Qed.

Lemma forced_spaced nows r : Sorted spaced (forced nows r) ∧
  ∀ last, sr_last_forced r = Some last → HdRel spaced last (forced nows r).
Proof.
  revert r. induction nows as [|now nows IH]; intros r; cbn [forced]; [split; constructor|].
  destruct (note_at now r) as [[] r'] eqn:E; simpl; destruct (IH r') as [H1 H2].
  - apply note_spaced in E as [E1 E2]. split; [constructor; auto|]. intros last Hl. constructor. by apply E2.
  - apply note_keeps_last in E. rewrite E in H2. done.
Qed.

(** A bridge that keeps recovering nodes forces a reconnection of the whole session
    only when at least eight recoveries were noted within ten seconds, and never twice
    within five seconds. *)
Theorem forced_reconnects_rare nows :
  StronglySorted Z.le nows →
  Forall (λ t, THRESHOLD ≤ vlen (within t nows)) (forced nows ShapeRecovery_new) ∧
  Sorted spaced (forced nows ShapeRecovery_new).
Proof.
  intros Hs. split; [|apply forced_spaced]. by apply (forced_counted [] nows).
Qed.

(** Nine recoveries, one a second: the eighth forces a reconnection. *)
Definition nine_notes : list Z := (λ i, Z.of_nat i * 1000000000) <$> seq 0 9.

Lemma forced_reconnects_rare_witness :
  StronglySorted Z.le nine_notes ∧ forced nine_notes ShapeRecovery_new = [7000000000] ∧
  THRESHOLD ≤ vlen (within 7000000000 nine_notes).
Proof.
  assert (Hs : StronglySorted Z.le nine_notes) by (unfold nine_notes; simpl; repeat constructor; lia).
  split; [exact Hs|]. split; [vm_compute; reflexivity|].
  destruct (forced_reconnects_rare nine_notes Hs) as [H _].
  rewrite Forall_forall in H. apply H. vm_compute. left.
Defined.

(** ** Initialisation *)

Definition BIG_WRITES_BIT : Z := 5.

(** What the bridge answers to INIT: the version of the protocol is at most the
    kernel's, every capability is one the kernel offered and the bridge supports (big
    writes apart), a request carries at least a byte and no more than the client can
    write, and the largest write with its headers fits the buffer requests are read
    into.  It refuses only sizes that are zero or do not fit their fields. *)
Theorem init_negotiation input max_background threshold page_size max_write_payload :
  0 ≤ page_size → 0 ≤ max_write_payload → 0 ≤ ii_flags input →
  let max_request_bytes := mount_request_bytes max_write_payload in
  match fuse_init_out input max_background threshold page_size max_request_bytes with
  | inr out =>
      io_major out = FUSE_KERNEL_VERSION ∧
      io_minor out ≤ ii_minor input ∧ io_minor out ≤ FUSE_KERNEL_MINOR_VERSION ∧
      (∀ bit, Z.testbit (io_flags out) bit = true →
         bit = BIG_WRITES_BIT ∨ Z.testbit (ii_flags input) bit = true ∧ Z.testbit supported_init_flags bit = true) ∧
      1 ≤ io_max_pages out ≤ u16_max ∧
      1 ≤ io_max_write out ≤ max_write_payload ∧ io_max_write out ≤ io_max_pages out * page_size ∧
      size_of FuseInHeader + size_of FuseWriteIn + io_max_write out ≤ FUSE_BUFFER_SIZE
  | inl _ =>
      max_write_payload = 0 ∨ page_size = 0 ∨ u16_max < max_request_bytes `div` page_size ∨
      u32_max < Z.max 1 (max_request_bytes `div` page_size) * page_size
  end.
Proof.
  intros Hp Hm Hf. set (m := mount_request_bytes max_write_payload).
  assert (Hr : 0 ≤ m ≤ max_write_payload ∧ m ≤ DEFAULT_MAX_IO_BYTES ∧ (m = 0 → max_write_payload = 0)).
  { subst m. unfold mount_request_bytes, DEFAULT_MAX_IO_BYTES. lia. }
  cbv zeta. unfold fuse_init_out, max_request_pages.
  destruct (Z.eqb_spec m 0); [left; tauto|]. destruct (Z.eqb_spec page_size 0); [right; by left|]. cbn [orb].
  assert (Hq : 0 ≤ m `div` page_size) by (apply Z.div_pos; lia).
  assert (Hmul : m `div` page_size * page_size ≤ m) by (rewrite Z.mul_comm; apply Z.mul_div_le; lia).
  unfold try_from. set (q := m `div` page_size) in *.
  destruct (Z.leb_spec (Z.max 1 q) u16_max); [|rewrite andb_false_r; right; right; left; unfold u16_max in *; lia].
  replace (0 <=? Z.max 1 q) with true by (symmetry; apply Z.leb_le; lia). cbn [andb some_or].
  destruct (Z.ltb_spec u32_max (Z.max 1 q * page_size)); [by do 3 right|].
  cbn [io_major io_minor io_flags io_max_pages io_max_write].
  split_and!; try done; try (unfold FUSE_KERNEL_MINOR_VERSION; lia).
  - intros bit. rewrite Z.lor_spec, Z.land_spec, orb_true_iff, andb_true_iff. intros [?|Hb]; [by right|left].
    unfold FUSE_BIG_WRITES in Hb. rewrite Z.shiftl_mul_pow2, Z.mul_1_l in Hb by lia.
    destruct (Z.eq_dec bit 5) as [|Hne]; [done|]. by rewrite Z.pow2_bits_false in Hb by lia.
  - change (size_of FuseInHeader) with 40. change (size_of FuseWriteIn) with 40.
    unfold FUSE_BUFFER_SIZE. lia.
Qed.

Lemma init_negotiation_witness :
  match fuse_init_out (FuseInitIn_mk 7 38 131072 (Z.ones 32)) 12 9 4096 (mount_request_bytes 65512) with
  | inr out => io_minor out = 31 ∧ 1 ≤ io_max_write out ≤ 65512
  | inl _ => False
  end.
Proof.
  pose proof (init_negotiation (FuseInitIn_mk 7 38 131072 (Z.ones 32)) 12 9 4096 65512) as H.
  cbv zeta in H.
  destruct (fuse_init_out (FuseInitIn_mk 7 38 131072 (Z.ones 32)) 12 9 4096 (mount_request_bytes 65512)) as [e|out] eqn:E.
  - vm_compute in E. discriminate E.
  - split; [vm_compute in E; by injection E as <-|]. apply H; [lia|lia|done].
Defined.

(** The listings of the FUSE bridge: what the kernel reads from the replies to its
    READDIR requests, page after page, is the directory. *)

(** ** What the kernel reads *)

(** A [struct fuse_dirent]: inode, offset of the next entry, type, name. *)
Record Dirent := Dirent_mk { dt_ino : Z; dt_off : Z; dt_type : Z; dt_name : bytes }.

(** [parse_dirfile] of the kernel: entries one after the other, each padded to eight bytes. *)
Fixpoint parse_dirents (fuel : nat) (data : bytes) : option (list Dirent) :=
  match data, fuel with
  | [], _ => Some []
  | _, O => None
  | _, S fuel =>
      let namelen := le_val (take 4 (drop 16 data)) in
      let reclen := dirent_size namelen in
      if vlen data <? reclen then None
      else
        let d := Dirent_mk (le_val (take 8 data)) (le_val (take 8 (drop 8 data))) (le_val (take 4 (drop 20 data)))
                   (ztake namelen (drop 24 data)) in
        cons d <$> parse_dirents fuel (zdrop reclen data)
  end.

(** The entries of a directory with their numbers. *)
Fixpoint numbered (index : Z) (l : list (bytes * Z * Z)) : list Dirent :=
  match l with
  | [] => []
  | (name, ino, kind) :: l => Dirent_mk ino (index + 1) kind name :: numbered (index + 1) l
  end.

(** ** The encoding *)

Definition dirent_bytes (d : Dirent) : bytes :=
  le_bytes 8 (dt_ino d) ++ le_bytes 8 (dt_off d) ++ le_bytes 4 (vlen (dt_name d)) ++ le_bytes 4 (dt_type d) ++ dt_name d ++
  replicate (Z.to_nat ((- vlen (dt_name d)) `mod` 8)) x00.

Definition dirent_ok (d : Dirent) : Prop :=
  0 ≤ dt_ino d ≤ u64_max ∧ 0 ≤ dt_off d ≤ u64_max ∧ 0 ≤ dt_type d ≤ u32_max ∧ vlen (dt_name d) ≤ u32_max.

Lemma dirent_size_eq n : 0 ≤ n → dirent_size n = 24 + n + (- n) `mod` 8.
Proof.
  intros Hn. unfold dirent_size, fuse_name_offset. change (Z.lnot 7) with (Z.lnot (Z.ones 3)).
  rewrite <-Z.ldiff_land, Z.ldiff_ones_r, Z.shiftl_mul_pow2, Z.shiftr_div_pow2 by lia. change (2 ^ 3) with 8.
  Z.div_mod_to_equations. lia.
Qed.

Lemma dirent_size_mod n : 0 ≤ n → dirent_size n `mod` 8 = 0.
Proof. intros Hn. rewrite dirent_size_eq by done. Z.div_mod_to_equations. lia. Qed.

Lemma vlen_zeros n : 0 ≤ n → vlen (replicate (Z.to_nat n) x00) = n.
Proof. unfold vlen. rewrite length_replicate. lia. Qed.

Lemma vlen_dirent_bytes d : vlen (dirent_bytes d) = dirent_size (vlen (dt_name d)).
Proof.
  unfold dirent_bytes. rewrite dirent_size_eq by apply vlen_nonneg.
  rewrite !vlen_app, !vlen_le_bytes, vlen_zeros by (apply Z.mod_pos_bound; lia). lia.
Qed.

Lemma push_dirent_eq out ino next_offset kind name : vlen out `mod` 8 = 0 →
  push_dirent out ino next_offset kind name = out ++ dirent_bytes (Dirent_mk ino next_offset kind name).
Proof.
  intros H. unfold push_dirent, pad8, push_u32, push_u64, dirent_bytes. cbn [dt_ino dt_off dt_type dt_name].
  rewrite <-!app_assoc. do 7 f_equal. rewrite !vlen_app, !vlen_le_bytes. Z.div_mod_to_equations. lia.
Qed.

Lemma take_field n z l : take n (le_bytes n z ++ l) = le_bytes n z.
Proof. apply take_app_length'. by rewrite length_le_bytes. Qed.
Lemma drop_field n m z l : drop (n + m) (le_bytes n z ++ l) = drop m l.
Proof. rewrite <-drop_drop. f_equal. apply drop_app_length'. by rewrite length_le_bytes. Qed.

(** The fields are found where the structure has them. *)
Lemma field_offsets a b c e (rest : bytes) :
  let data := le_bytes 8 a ++ le_bytes 8 b ++ le_bytes 4 c ++ le_bytes 4 e ++ rest in
  take 8 data = le_bytes 8 a ∧ take 8 (drop 8 data) = le_bytes 8 b ∧ take 4 (drop 16 data) = le_bytes 4 c ∧
  take 4 (drop 20 data) = le_bytes 4 e ∧ drop 24 data = rest.
Proof.
  cbv zeta. split_and!; [apply take_field|..].
  - rewrite (drop_field 8 0). apply take_field.
  - rewrite (drop_field 8 8), (drop_field 8 0). apply take_field.
  - rewrite (drop_field 8 12), (drop_field 8 4), (drop_field 4 0). apply take_field.
  - by rewrite (drop_field 8 16), (drop_field 8 8), (drop_field 4 4), (drop_field 4 0).
Qed.

(** One entry is read back, with what follows it. *)
Lemma parse_dirent d rest fuel : dirent_ok d →
  parse_dirents (S fuel) (dirent_bytes d ++ rest) = cons d <$> parse_dirents fuel rest.
Proof.
  intros (H1 & H2 & H3 & H4). pose proof (vlen_nonneg (dt_name d)) as H5.
  assert (Hlen : vlen (dirent_bytes d) = dirent_size (vlen (dt_name d))) by apply vlen_dirent_bytes.
  assert (Hz : zdrop (dirent_size (vlen (dt_name d))) (dirent_bytes d ++ rest) = rest).
  { rewrite <-Hlen. apply zdrop_app_vlen. }
  assert (Hv : (vlen (dirent_bytes d ++ rest) <? dirent_size (vlen (dt_name d))) = false).
  { apply Z.ltb_ge. rewrite vlen_app, Hlen. pose proof (vlen_nonneg rest). lia. }
  pose proof (field_offsets (dt_ino d) (dt_off d) (vlen (dt_name d)) (dt_type d)
                (dt_name d ++ (replicate (Z.to_nat ((- vlen (dt_name d)) `mod` 8)) x00 ++ rest))) as Ho. cbv zeta in Ho.
  match type of Ho with take 8 ?data = _ ∧ _ => assert (Eb : data = dirent_bytes d ++ rest) end.
  { unfold dirent_bytes. by rewrite <-!app_assoc. }
  rewrite Eb in Ho. destruct Ho as (E1 & E2 & E3 & E4 & E5).
  assert (Hne : dirent_bytes d ++ rest ≠ []).
  { intros E. rewrite E in E1. apply (f_equal length) in E1. by rewrite length_le_bytes in E1. }
  revert Hz Hv E1 E2 E3 E4 E5 Hne. generalize (dirent_bytes d ++ rest). intros data Hz Hv E1 E2 E3 E4 E5 Hne.
  destruct data as [|b0 data]; [done|]. cbn [parse_dirents]. rewrite E1, E2, E3, E4, E5.
  rewrite !le_val_le_bytes by (unfold u64_max, u32_max in *; simpl; lia). rewrite Hv, ztake_app_vlen, Hz. by destruct d.
Qed.

Lemma parse_dirents_all l fuel : Forall dirent_ok l → (length l ≤ fuel)%nat →
  parse_dirents fuel (concat (dirent_bytes <$> l)) = Some l.
Proof.
  intros H. revert fuel. induction H as [|d l Hd _ IH]; intros fuel Hf; [by destruct fuel|].
  destruct fuel as [|fuel]; [simpl in Hf; lia|]. rewrite fmap_cons. cbn [concat].
  rewrite parse_dirent by done. rewrite IH by (simpl in Hf; lia). done.
Qed.

Lemma encode_entries_spec l index size out :
  vlen out `mod` 8 = 0 → vlen out ≤ size < usize_max → Forall (λ e, vlen e.1.1 ≤ u32_max) l →
  ∃ k, encode_entries l index size out = inr (out ++ concat (dirent_bytes <$> numbered index (take k l))) ∧
    vlen (out ++ concat (dirent_bytes <$> numbered index (take k l))) ≤ size ∧
    (∀ e l', l = e :: l' → vlen out + dirent_size (vlen e.1.1) ≤ size → (1 ≤ k)%nat).
Proof.
  revert index out. induction l as [|[[name ino] kind] l IH]; intros index out Ho Hs Hl.
  { exists 0%nat. simpl. rewrite app_nil_r. split_and!; [done|lia|done]. }
  apply Forall_cons in Hl as [Hn Hl]. simpl in Hn. pose proof (vlen_nonneg name) as H0. cbn [encode_entries].
  assert (Hsat : (size <? saturating_add usize_max (vlen out) (dirent_size (vlen name))) =
                 (size <? vlen out + dirent_size (vlen name))).
  { unfold saturating_add. destruct (Z.ltb_spec size (vlen out + dirent_size (vlen name)));
      [apply Z.ltb_lt|apply Z.ltb_ge]; lia. }
  rewrite Hsat. destruct (Z.ltb_spec size (vlen out + dirent_size (vlen name))) as [Hlt|Hle].
  - exists 0%nat. simpl. rewrite app_nil_r. split_and!; [done|lia|]. intros e l' [= <- <-]. simpl. lia.
  - unfold try_from. replace (0 <=? vlen name) with true by (symmetry; by apply Z.leb_le).
    replace (vlen name <=? u32_max) with true by (symmetry; by apply Z.leb_le). cbn [andb].
    rewrite push_dirent_eq by done.
    set (d := Dirent_mk ino (index + 1) kind name).
    assert (Hv : vlen (out ++ dirent_bytes d) = vlen out + dirent_size (vlen name)).
    { by rewrite vlen_app, vlen_dirent_bytes. }
    destruct (IH (index + 1) (out ++ dirent_bytes d)) as (k & E & Hk & _); [|lia|done|].
    { rewrite Hv, Z.add_mod, Ho, dirent_size_mod by lia. done. }
    exists (S k). rewrite E. cbn [take numbered]. rewrite fmap_cons. cbn [concat]. rewrite <-app_assoc in *.
    split_and!; [done|done|lia].
Qed.

Lemma numbered_app index l l' : numbered index (l ++ l') = numbered index l ++ numbered (index + vlen l) l'.
Proof.
  revert index. induction l as [|[[name ino] kind] l IH]; intros index; simpl; [by rewrite vlen_nil, Z.add_0_r|].
  rewrite IH, vlen_cons. do 3 f_equal. lia.
Qed.

Lemma length_numbered index l : length (numbered index l) = length l.
Proof. revert index. induction l as [|[[? ?] ?] l IH]; intros index; simpl; [done|]. by rewrite IH. Qed.

Lemma last_numbered index l e : dt_off <$> last (numbered index (l ++ [e])) = Some (index + vlen (l ++ [e])).
Proof.
  rewrite numbered_app. destruct e as [[name ino] kind]. simpl. rewrite last_snoc, vlen_app. simpl. f_equal. unfold vlen at 3.
  simpl. lia.
Qed.

Lemma numbered_ok index l : 0 ≤ index → index + vlen l ≤ u64_max →
  Forall (λ e, vlen e.1.1 ≤ u32_max ∧ 0 ≤ e.1.2 ≤ u64_max ∧ 0 ≤ e.2 ≤ u32_max) l → Forall dirent_ok (numbered index l).
Proof.
  intros Hi Hl H. revert index Hi Hl. induction H as [|[[name ino] kind] l (H1 & H2 & H3) _ IH]; intros index Hi Hl; [done|].
  rewrite vlen_cons in Hl. pose proof (vlen_nonneg l). simpl in *. constructor; [|apply IH; lia]. unfold dirent_ok. simpl. lia.
Qed.

Lemma length_dirents l : (length l ≤ length (concat (dirent_bytes <$> l)))%nat.
Proof.
  induction l as [|d l IH]; [done|]. rewrite fmap_cons. cbn [concat]. rewrite length_app. simpl.
  pose proof (vlen_dirent_bytes d) as H. rewrite dirent_size_eq in H by apply vlen_nonneg.
  pose proof (vlen_nonneg (dt_name d)). pose proof (Z.mod_pos_bound (- vlen (dt_name d)) 8). unfold vlen in *. lia.
Qed.

(** A directory the kernel can be told of in pages of [size] bytes: every entry fits in
    one, which the code does not see to ([oversized_entry_ends_listing]). *)
Definition listable (size : Z) (l : list (bytes * Z * Z)) : Prop :=
  Forall (λ e, vlen e.1.1 ≤ u32_max ∧ 0 ≤ e.1.2 ≤ u64_max ∧ 0 ≤ e.2 ≤ u32_max) l ∧
  Forall (λ e, dirent_size (vlen e.1.1) ≤ size) l ∧ vlen l ≤ u64_max.

(** One page: some of the entries that are left, at least one if there is one. *)
Lemma page_read dot dotdot size (o : nat) entries :
  0 ≤ size < usize_max → listable size (logical_entries dot dotdot entries) →
  let rest := drop o (logical_entries dot dotdot entries) in
  ∃ k data, encode_dirents dot dotdot (Z.of_nat o) size entries = inr data ∧ vlen data ≤ size ∧
    parse_dirents (length data) data = Some (numbered (Z.of_nat o) (take k rest)) ∧ (k ≤ length rest)%nat ∧
    (rest ≠ [] → (1 ≤ k)%nat).
Proof.
  intros Hs (H1 & H2 & H3). cbv zeta. unfold encode_dirents. rewrite Nat2Z.id.
  set (l := logical_entries dot dotdot entries) in *.
  assert (Hl : Forall (λ e, vlen e.1.1 ≤ u32_max) (drop o l)).
  { apply Forall_drop. eapply Forall_impl; [exact H1|]. by intros e (? & _). }
  destruct (encode_entries_spec (drop o l) (Z.of_nat o) size []) as (k & E & Hk & Hp); [done|by rewrite vlen_nil|done|].
  exists (min k (length (drop o l))), (concat (dirent_bytes <$> numbered (Z.of_nat o) (take k (drop o l)))).
  rewrite app_nil_l in *. split_and!; [done|done| |lia|].
  - replace (take (min k (length (drop o l))) (drop o l)) with (take k (drop o l)); [apply parse_dirents_all|].
    + destruct (decide (o ≤ length l)%nat) as [Ho|Ho]; [|rewrite (drop_ge l) by lia; by rewrite take_nil].
      apply numbered_ok; [lia| |by apply Forall_take, Forall_drop].
      unfold vlen in *. rewrite length_take, length_drop. lia.
    + apply length_dirents.
    + rewrite <-(firstn_all (drop o l)) at 1. by rewrite take_take.
  - intros Hne. destruct (drop o l) as [|e l'] eqn:Ed; [done|]. specialize (Hp e l' eq_refl).
    assert (1 ≤ k)%nat; [|simpl; lia]. apply Hp. rewrite vlen_nil. apply (Forall_drop _ o) in H2.
    rewrite Ed in H2. by apply Forall_cons in H2 as [? _].
Qed.

(** An entry that does not fit in the page is the end of the listing for the kernel. *)
Lemma oversized_entry_ends_listing dot dotdot size (o : nat) entries e :
  0 ≤ size < usize_max → logical_entries dot dotdot entries !! o = Some e → size < dirent_size (vlen e.1.1) →
  encode_dirents dot dotdot (Z.of_nat o) size entries = inr [].
Proof.
  intros Hs He Hlt. unfold encode_dirents. rewrite Nat2Z.id, (drop_S _ _ _ He). destruct e as [[name ino] kind]. simpl in *.
  rewrite (proj2 (Z.ltb_lt _ _)); [done|]. change (vlen (@nil byte)) with 0. unfold saturating_add. lia.
Qed.

(** ** The buffer of a directory handle *)

(** [buffer_satisfied] on the entries themselves. *)
Fixpoint page_full (l : list (bytes * Z * Z)) (size used : Z) : bool :=
  match l with
  | [] => false
  | (name, _, _) :: l =>
      let total := saturating_add usize_max used (dirent_size (vlen name)) in
      (size <? total) || ((total =? size) || page_full l size total)
  end.

Lemma logical_name dot dotdot entries index :
  (index < length entries + 2)%nat → ∃ ino kind, logical_entries dot dotdot entries !! index = Some (entry_name entries index, ino, kind).
Proof.
  intros Hi. unfold logical_entries, entry_name. destruct index as [|[|i]]; simpl; [by eexists _, _..|].
  rewrite list_lookup_fmap. destruct (entries !! i) as [e|] eqn:E; simpl; [by eexists _, _|].
  apply lookup_ge_None in E. lia.
Qed.

Lemma length_logical dot dotdot entries : length (logical_entries dot dotdot entries) = (length entries + 2)%nat.
Proof. unfold logical_entries. simpl. rewrite length_fmap. lia. Qed.

Lemma buffer_satisfied_page dot dotdot entries size m i used :
  (i + m = length entries + 2)%nat →
  buffer_satisfied (seq i m) size entries Plain used = page_full (drop i (logical_entries dot dotdot entries)) size used.
Proof.
  revert i used. induction m as [|m IH]; intros i used Hm; cbn [seq buffer_satisfied].
  { rewrite drop_ge; [done|]. rewrite length_logical. lia. }
  destruct (logical_name dot dotdot entries i) as (ino & kind & E); [lia|]. rewrite (drop_S _ _ _ E). simpl.
  rewrite IH by lia. by destruct (_ <? _).
Qed.

Lemma drop_seq n i m : drop n (seq i m) = seq (i + n) (m - n).
Proof.
  revert i m. induction n as [|n IH]; intros i m; [by rewrite Nat.add_0_r, Nat.sub_0_r|]. destruct m as [|m]; [done|]. simpl.
  rewrite IH. f_equal. lia.
Qed.

Lemma encode_nothing_fits l index size out :
  size < usize_max → vlen out = size → encode_entries l index size out = inr out.
Proof.
  intros Hs Ho. destruct l as [|[[name ino] kind] l]; [done|]. cbn [encode_entries]. rewrite (proj2 (Z.ltb_lt _ _)); [done|].
  unfold saturating_add. rewrite dirent_size_eq by apply vlen_nonneg. pose proof (vlen_nonneg name).
  pose proof (Z.mod_pos_bound (- vlen name) 8). lia.
Qed.

(** A full page is the same whatever follows the entries that fill it. *)
Lemma full_page_encodes l more index size out :
  vlen out `mod` 8 = 0 → size < usize_max → page_full l size (vlen out) = true →
  encode_entries (l ++ more) index size out = encode_entries l index size out.
Proof.
  revert index out. induction l as [|[[name ino] kind] l IH]; intros index out Ho Hs Hf; [done|].
  simpl app. cbn [encode_entries]. cbn [page_full] in Hf. cbv zeta in Hf.
  destruct (size <? saturating_add usize_max (vlen out) (dirent_size (vlen name))) eqn:Efit; [done|].
  destruct (try_from u32_max (vlen name)); [|done]. cbn [orb] in Hf.
  assert (Hv : vlen (push_dirent out ino (index + 1) kind name) = vlen out + dirent_size (vlen name)).
  { rewrite push_dirent_eq by done. by rewrite vlen_app, vlen_dirent_bytes. }
  apply Z.ltb_ge in Efit. assert (saturating_add usize_max (vlen out) (dirent_size (vlen name)) = vlen out + dirent_size (vlen name)) as Esat.
  { unfold saturating_add in *. lia. }
  rewrite Esat in Hf. apply orb_true_iff in Hf as [Hf|Hf].
  - apply Z.eqb_eq in Hf. rewrite !encode_nothing_fits by lia. done.
  - apply IH; [|done|by rewrite Hv]. rewrite Hv, Z.add_mod, Ho, dirent_size_mod by (lia || apply vlen_nonneg). done.
Qed.

(** The page of a prefix that satisfies the request is the page of the directory. *)
Lemma satisfied_page dot dotdot size (o : nat) entries all :
  0 ≤ size < usize_max → entries `prefix_of` all → directory_buffer_satisfied (Z.of_nat o) size entries Plain = true →
  encode_dirents dot dotdot (Z.of_nat o) size entries = encode_dirents dot dotdot (Z.of_nat o) size all.
Proof.
  intros Hs [more ->] Hsat. unfold encode_dirents, directory_buffer_satisfied in *. rewrite Nat2Z.id.
  destruct (Z.eqb_spec size 0) as [->|Hne]; [by rewrite !encode_nothing_fits|].
  destruct (Z.leb_spec (vlen entries + 2) (Z.of_nat o)) as [|Ho]; [done|].
  unfold indices_from in Hsat. rewrite Nat2Z.id, drop_seq in Hsat.
  rewrite (buffer_satisfied_page dot dotdot) in Hsat by (unfold vlen in Ho; lia). simpl in Hsat.
  assert (logical_entries dot dotdot (entries ++ more) =
    logical_entries dot dotdot entries ++ ((λ e, (de_name e, qid_to_inode (de_qid e), entry_kind (de_stat e))) <$> more)) as ->.
  { unfold logical_entries. by rewrite fmap_app. }
  rewrite drop_app_le by (rewrite length_logical; unfold vlen in Ho; lia).
  symmetry. apply full_page_encodes; [done|lia|exact Hsat].
Qed.

(** ** A listing *)

(** What the listing of a directory needs of the server: reads of the fid [fid], one
    after the other, bring the stats [stats], some whole ones with each, and an empty
    one when there are no more; and [validate_stat] makes [checked] of each.
    [at_entry k] says that the next read brings those from [k] on, at the offset [pos k]. *)
Class DirectoryServer {W} `{!MountSession W} (client fid : Z) (stats : list Stat) (checked : Stat → Stat)
    (pos : nat → Z) (at_entry : nat → W → Prop) : Prop := {
  server_reads k count timeout w : at_entry k w → 4096 ≤ count →
    ∃ chunk w' (n : nat), client_read_at client fid (pos k) count timeout w = (inr chunk, w') ∧ at_entry (k + n)%nat w' ∧
      (k + n ≤ length stats)%nat ∧ decode_dir_entries chunk = Ok (take n (drop k stats)) ∧
      pos (k + n)%nat = pos k + vlen chunk ∧ pos k + vlen chunk ≤ u64_max ∧
      (chunk = [] → k = length stats) ∧ (chunk ≠ [] → (0 < n)%nat);
  server_validates k st w : at_entry k w →
    ∃ w', client_validate_stat client st w = (inr (checked st), w') ∧ at_entry k w';
}.

Section listing.
Context {W : Type} `{!MountSession W} {os : OsText} (fs : Mounted).
Context (client fid fh : Z) (stats : list Stat) (checked : Stat → Stat) (pos : nat → Z) (at_entry : nat → W → Prop).
Context `{!DirectoryServer client fid stats checked pos at_entry}.

Definition directory_of : list DirEntry :=
  (λ st, DirEntry_mk (st_name (checked st)) (st_qid (checked st)) (checked st)) <$> stats.

(** The handle [fh] has the first [k] entries, and stands behind them on the server. *)
Definition streaming (s : Fuse W) : Prop :=
  (∃ h, handles (f_nodes s) !! fh = Some h ∧ h_is_dir h = true) ∧
  ∃ k eof, directories (f_nodes s) !! fh = Some (DirectoryStream_mk client fid (pos k) (take k directory_of) eof) ∧
    (k ≤ length stats)%nat ∧ (eof = true → k = length stats) ∧ at_entry k (f_world s).

(** What a turn of the loop adds to: the entries there are, and whether there are more. *)
Definition progress_of (s : Fuse W) : Z :=
  match directories (f_nodes s) !! fh with
  | Some d => vlen (ds_entries d) + if ds_eof d then 1 else 0
  | None => 0
  end.

Lemma validate_all k l (s : Fuse W) : at_entry k (f_world s) →
  ∃ s', validate_entries client l s =
    (inr ((λ st, DirEntry_mk (st_name (checked st)) (st_qid (checked st)) (checked st)) <$> l), s') ∧
    f_nodes s' = f_nodes s ∧ at_entry k (f_world s').
Proof.
  revert s. induction l as [|st l IH]; intros s Hk; [by exists s|]. cbn [validate_entries].
  destruct (server_validates k st (f_world s) Hk) as (w' & Ev & Hk').
  destruct (IH (FuseState.set_world w' s) Hk') as (s' & E & En & Hs). exists s'. split; [|done].
  unfold mbind, S_bind, on_world. rewrite Ev. by rewrite E.
Qed.

Lemma length_directory_of : length directory_of = length stats.
Proof. apply length_fmap. Qed.

Lemma directory_turn_streams offset size encoding s : streaming s →
  match directory_turn fs fh offset size encoding s with
  | inl s' => streaming s' ∧ progress_of s + 1 ≤ progress_of s'
  | inr (inr p, s') => s' = s ∧ (p `prefix_of` directory_of) ∧
      (p = directory_of ∨ directory_buffer_satisfied offset size p encoding = true)
  | inr (inl _, _) => False
  end.
Proof.
  intros [Hh (k & eof & Hd & Hk & Heof & Hat)]. unfold directory_turn. rewrite Hd. cbn [ds_eof ds_entries ds_client ds_fid ds_remote_offset].
  assert (Hpre : take k directory_of `prefix_of` directory_of) by (exists (drop k directory_of); by rewrite take_drop).
  assert (Hlen : length directory_of = length stats) by apply length_directory_of.
  destruct (eof || _) eqn:Edone.
  { split_and!; [done|done|]. apply orb_true_iff in Edone as [->|?]; [left|by right]. apply take_ge. rewrite Hlen, Heof by done. done. }
  apply orb_false_iff in Edone as [-> _]. unfold on_world.
  destruct (server_reads k (directory_chunk size) (read_timeout fs) (f_world s) Hat) as
    (chunk & w' & n & -> & Hat' & Hn & Hdec & Hpos & Hmax & Hnil & Hcons).
  { unfold directory_chunk, DEFAULT_READ_CHUNK. lia. }
  assert (Hp0 : progress_of s = Z.of_nat k).
  { unfold progress_of. rewrite Hd. simpl. unfold vlen. rewrite length_take. lia. }
  case_bool_decide as Hc.
  - split.
    + split; [exact Hh|]. exists k, true. simpl. rewrite lookup_insert_eq. split_and!; [done|done|by intros _; apply Hnil|].
      replace k with (k + n)%nat; [done|]. specialize (Hnil Hc). lia.
    + rewrite Hp0. unfold progress_of. simpl. rewrite lookup_insert_eq. simpl. unfold vlen. rewrite length_take. lia.
  - unfold validate_directory_entries. rewrite Hdec.
    destruct (validate_all (k + n)%nat (take n (drop k stats)) (FuseState.set_world w' s) Hat') as (s' & -> & En & Hat2).
    assert (Ht : take k directory_of ++
      ((λ st, DirEntry_mk (st_name (checked st)) (st_qid (checked st)) (checked st)) <$> take n (drop k stats)) = take (k + n) directory_of).
    { rewrite fmap_take, fmap_drop. unfold directory_of. by rewrite take_take_drop. }
    rewrite Ht. assert (saturating_add u64_max (pos k) (vlen chunk) = pos (k + n)%nat) as -> by (unfold saturating_add; lia).
    specialize (Hcons Hc). split.
    + split; [simpl; rewrite En; exact Hh|]. exists (k + n)%nat, false. simpl. rewrite lookup_insert_eq. by split_and!.
    + rewrite Hp0. unfold progress_of. simpl. rewrite lookup_insert_eq. simpl. unfold vlen. rewrite length_take. lia.
Qed.

Lemma progress_bound s : streaming s → progress_of s ≤ vlen stats + 1.
Proof.
  intros [_ (k & eof & Hd & Hk & _)]. unfold progress_of. rewrite Hd. simpl. unfold vlen. rewrite length_take. destruct eof; lia.
Qed.

(** What [readdir] encodes its page from. *)
Lemma entries_for_read nodeid offset size encoding s : streaming s → vlen stats + 2 ≤ u64_max →
  ∃ p s', directory_entries_for_read_with_recovery fs nodeid fh offset size encoding s = (inr p, s') ∧ streaming s' ∧
    (p `prefix_of` directory_of) ∧ (p = directory_of ∨ directory_buffer_satisfied offset size p encoding = true).
Proof.
  intros Hs Hmax. unfold directory_entries_for_read_with_recovery, directory_entries_for_read, mbind, S_bind, sattempt, on_nodes.
  destruct Hs as [(h & Hh & Hdir) Hrest] eqn:EHs. clear EHs. assert (Hs' : streaming s) by (split; [by exists h|done]).
  unfold handle. rewrite Hh. simpl. rewrite Hdir. simpl.
  assert (Hkeep : ∀ a a', streaming a → directory_turn fs fh offset size encoding a = inl a' → streaming a').
  { intros a a' Ha E. pose proof (directory_turn_streams offset size encoding a Ha) as H. rewrite E in H. apply H. }
  destruct (loop 64 (directory_turn fs fh offset size encoding) s) as [s1|[r s1]] eqn:El.
  - exfalso. pose proof (loop_keeps _ _ Hkeep _ _ _ Hs' El) as Hs1. pose proof (progress_bound _ Hs1).
    assert (progress_of s + 2 ^ Z.of_nat 64 ≤ progress_of s1).
    { apply (loop_progress _ _ Hkeep progress_of 64 s s1); [|done|done].
      intros a a' Ha E. pose proof (directory_turn_streams offset size encoding a Ha) as H1. rewrite E in H1. apply H1. }
    assert (0 ≤ progress_of s) by (unfold progress_of; case_match; [|done]; pose proof (vlen_nonneg (ds_entries d)); destruct (ds_eof d); lia).
    change (2 ^ Z.of_nat 64) with 18446744073709551616 in *. unfold u64_max in *. lia.
  - apply (loop_exit _ _ (λ b, ∃ p s', b = (inr p, s') ∧ streaming s' ∧ (p `prefix_of` directory_of) ∧
      (p = directory_of ∨ directory_buffer_satisfied offset size p encoding = true)) Hkeep 64 s (r, s1)) in El; [|intros a b Ha Et|done].
    + destruct El as (p & s' & [= -> ->] & ?). exists p, s'. done.
    + pose proof (directory_turn_streams offset size encoding a Ha) as H. rewrite Et in H.
      destruct b as [[e|p] s']; [done|]. destruct H as (-> & ? & ?). by exists p, a.
Qed.

(** The kernel reads pages of [size] bytes of the handle until one is empty, each
    starting where the last entry of the page before says; a page is what [readdir]
    replies with. *)
Fixpoint list_directory (fuel : nat) (nodeid dot_ino dotdot_ino size offset : Z) (s : Fuse W) : option (list Dirent) :=
  match fuel with
  | O => None
  | S fuel =>
      match directory_entries_for_read_with_recovery fs nodeid fh offset size Plain s with
      | (inl _, _) => None
      | (inr entries, s) =>
          match encode_dirents dot_ino dotdot_ino offset size entries with
          | inl _ => None
          | inr data =>
              match parse_dirents (length data) data with
              | None => None
              | Some [] => Some []
              | Some l => app l <$> list_directory fuel nodeid dot_ino dotdot_ino size (default 0 (dt_off <$> last l)) s
              end
          end
      end
  end.

Lemma list_from nodeid dot dotdot size fuel (o : nat) s :
  0 ≤ size < usize_max → listable size (logical_entries dot dotdot directory_of) → streaming s →
  (length (drop o (logical_entries dot dotdot directory_of)) < fuel)%nat →
  list_directory fuel nodeid dot dotdot size (Z.of_nat o) s =
  Some (numbered (Z.of_nat o) (drop o (logical_entries dot dotdot directory_of))).
Proof.
  intros Hs Hl. assert (Hmax : vlen stats + 2 ≤ u64_max).
  { destruct Hl as (_ & _ & Hv). unfold vlen in *. rewrite length_logical, length_directory_of in Hv. lia. }
  revert o s. induction fuel as [|fuel IH]; intros o s Hst Hf; [lia|]. cbn [list_directory].
  destruct (entries_for_read nodeid (Z.of_nat o) size Plain s Hst Hmax) as (p & s' & -> & Hst' & Hpre & Hsat).
  assert (encode_dirents dot dotdot (Z.of_nat o) size p = encode_dirents dot dotdot (Z.of_nat o) size directory_of) as ->.
  { destruct Hsat as [->|Hsat]; [done|by apply satisfied_page]. }
  clear p Hpre Hsat. destruct (page_read dot dotdot size o directory_of Hs Hl) as (k & data & -> & _ & -> & Hk & Hp).
  set (l := logical_entries dot dotdot directory_of) in *. destruct (drop o l) as [|e rest] eqn:Er; [by rewrite take_nil|].
  specialize (Hp ltac:(done)).
  destruct (exists_last (l := take k (e :: rest))) as (l' & e' & Et); [destruct k; [lia|done]|]. rewrite Et.
  assert (Ho : default 0 (dt_off <$> last (numbered (Z.of_nat o) (l' ++ [e']))) = Z.of_nat (o + k)).
  { rewrite last_numbered. simpl. rewrite <-Et. unfold vlen. rewrite length_take. lia. }
  destruct (numbered (Z.of_nat o) (l' ++ [e'])) as [|d ds] eqn:En.
  { apply (f_equal length) in En. rewrite length_numbered, length_app in En. simpl in En. lia. }
  rewrite Ho, <-En, <-Et. clear d ds En Ho Et l' e'.
  assert (Ed : drop (o + k) l = drop k (e :: rest)) by (by rewrite <-Er, drop_drop).
  rewrite IH by (done || (rewrite Ed, length_drop; simpl in *; lia)). rewrite Ed. simpl. f_equal.
  transitivity (numbered (Z.of_nat o) (take k (e :: rest) ++ drop k (e :: rest))); [|by rewrite take_drop].
  rewrite numbered_app. do 2 f_equal. unfold vlen. rewrite length_take. lia.
Qed.

(** C25: The listing the kernel makes of a directory from its READDIR pages is the
    directory: [.], [..] and every entry once, in order, with its inode and type,
    although each page is made from only as much of the directory as the handle has
    read so far.  The handle reads the directory of a server that answers
    ([DirectoryServer]), on one connection; and every entry fits in one page
    ([listable]), for one that does not gives an empty page, which is the end for the
    kernel ([oversized_entry_ends_listing]).  Every page fits the size asked for. *)
Theorem listing_complete nodeid dot dotdot size s :
  0 ≤ size < usize_max → listable size (logical_entries dot dotdot directory_of) → streaming s →
  list_directory (length stats + 3) nodeid dot dotdot size 0 s = Some (numbered 0 (logical_entries dot dotdot directory_of)) ∧
  ∀ (o : nat) entries, entries `prefix_of` directory_of →
    ∃ data, encode_dirents dot dotdot (Z.of_nat o) size entries = inr data ∧ vlen data ≤ size.
Proof.
  intros Hs Hl Hst. split.
  - apply (list_from nodeid dot dotdot size (length stats + 3) 0 s Hs Hl Hst). rewrite drop_0, length_logical, length_directory_of. lia.
  - intros o entries Hpre. destruct (page_read dot dotdot size o entries Hs) as (k & data & E & Hv & _); [|eauto].
    destruct Hpre as [more Em], Hl as (H1 & H2 & H3). rewrite Em in H1, H2, H3. unfold listable, logical_entries in *.
    rewrite fmap_app in H1, H2, H3. rewrite !app_comm_cons in H1, H2, H3. apply Forall_app in H1 as [? _], H2 as [? _].
    rewrite vlen_app in H3. pose proof (vlen_nonneg ((λ e, (de_name e, qid_to_inode (de_qid e), entry_kind (de_stat e))) <$> more)).
    split_and!; [done..|lia].
Qed.

End listing.

(** *** A server that brings one entry with each read *)

Definition two_stats : list Stat :=
  [Stat_new (bstr "a") (Qid_file 7) 0; Stat_new (bstr "directory") (Qid_dir 8) DMDIR].

Definition stat_bytes (st : Stat) : bytes := match Stat_encode st with Ok data => data | Err _ => [] end.

Definition refuses {A} : S_ (list Stat) A := λ w, (inl (session_error libc.ENOTSUP "not supported"), w).

(** The world is the entries that were not read yet. *)
#[local] Instance entry_by_entry : MountSession (list Stat) := {
  now_at w := (0, w);
  pause _ w := w;
  device_write n w := (inr n, w);
  device_write_all _ w := (inr (), w);
  session_client w := (inr 1, w);
  session_reconnect := refuses;
  client_walk _ _ _ _ := refuses;
  client_clone _ _ _ := refuses;
  client_open_fid _ _ _ _ := refuses;
  client_create _ _ _ _ _ _ := refuses;
  client_read_at _ _ _ _ _ w := match w with [] => (inr [], []) | st :: w => (inr (stat_bytes st), w) end;
  client_read_full _ _ _ _ _ := refuses;
  client_read_parallel _ _ _ _ _ _ := refuses;
  client_write_at _ _ _ _ _ := refuses;
  client_clunk_fid _ _ _ := refuses;
  client_remove _ _ _ := refuses;
  client_stat _ _ _ := refuses;
  client_wstat _ _ _ _ := refuses;
  client_rename_at _ _ _ _ _ _ := refuses;
  client_validate_stat _ st w := (inr st, w);
  client_interrupt _ _ _ := refuses;
  client_max_write_payload _ _ := 8168;
}.

Definition two_pos (k : nat) : Z := vlen (concat (stat_bytes <$> take k two_stats)).
Definition two_at (k : nat) (w : list Stat) : Prop := w = drop k two_stats ∧ (k ≤ 2)%nat.

Ltac two_goal := first [done | vm_compute; reflexivity | by vm_compute | split; [reflexivity|lia] | simpl; lia].

#[local] Instance two_served : DirectoryServer 1 2 two_stats id two_pos two_at.
Proof.
  constructor; [|intros k st w Hk; by exists w].
  intros k count timeout w [-> Hk] _. destruct k as [|[|[|k]]]; [..|lia].
  - exists (stat_bytes (Stat_new (bstr "a") (Qid_file 7) 0)), (drop 1 two_stats), 1%nat.
    split_and!; two_goal.
  - exists (stat_bytes (Stat_new (bstr "directory") (Qid_dir 8) DMDIR)), (drop 2 two_stats), 1%nat.
    split_and!; two_goal.
  - exists [], [], 0%nat. split_and!; two_goal.
Qed.

(** The handle 1 is open on the directory, and nothing was read. *)
Definition two_mount : Mounted := Mounted_mk [] (with_defaults sample_config) 0 0 8168 4096.
Definition two_open : Fuse (list Stat) :=
  Fuse_mk (NodeTable_mk ∅ {[1 := Handle_mk 1 (Some 2) 0 true false false false 0]}
             {[1 := DirectoryStream_mk 1 2 0 [] false]} 2 2) ShapeRecovery_new None [] [] two_stats.

Lemma listing_complete_witness :
  listable 64 (logical_entries 1 1 (directory_of two_stats id)) ∧ streaming 1 2 1 two_stats id two_pos two_at two_open ∧
  (dt_name <$> default [] (list_directory two_mount 1 (length two_stats + 3) 1 1 1 64 0 two_open)) =
    [bstr "."; bstr ".."; bstr "a"; bstr "directory"].
Proof.
  assert (H : listable 64 (logical_entries 1 1 (directory_of two_stats id))).
  { split_and!; [repeat constructor; vm_compute; congruence|repeat constructor; vm_compute; congruence|vm_compute; congruence]. }
  assert (Hst : streaming 1 2 1 two_stats id two_pos two_at two_open).
  { split; [eexists; split; reflexivity|]. exists 0%nat, false. split_and!; [reflexivity|simpl; lia|done|split; [reflexivity|lia]]. }
  split; [exact H|]. split; [exact Hst|].
  assert (Hs : 0 ≤ 64 < usize_max) by (unfold usize_max; vm_compute; split; congruence).
  rewrite (proj1 (listing_complete two_mount 1 2 1 two_stats id two_pos two_at 1 1 1 64 two_open Hs H Hst)). vm_compute. reflexivity.
Defined.
