(* ===== verification/FuseRuns.v ===== *)
(** A concrete server behind the FUSE bridge, and what the theorems say of it there.

    The server keeps its files by their paths and its fids by client; a fid follows
    its file when the file is renamed.  Like the protocol server, it reads a directory
    from its start or from where the fid left it.  The device takes everything. *)
From S2P Require Import Prelude Errors Qid Stat Utf8 Referral Blocking NamespaceCache Text SessionErrors Feed FeedWorker SessionConfig ReadCache FuseConfig FuseNodes FuseWire FuseState FuseOps FuseReplies FuseInv.
From S2P Require Import Message Codec FrameIO ClientSupport MultiplexClient.
From S2P Require Import Endpoint ExportDescriptor NamespaceRouting NamespaceClient NamespaceOps NamespaceProps SessionFids ClientSession SessionProcess.

Record Served := Served_mk {
  sv_files : list (Path * (Stat * bytes));
  sv_fids : list (Z * Path);            (* of the client in use *)
  sv_next : Z;
  sv_client : Z;
  sv_time : Z;
  sv_offsets : list (Z * Z);            (* where a fid left its directory *)
}.

Definition with_fids (fids : list (Z * Path)) (w : Served) : Served :=
  Served_mk (sv_files w) fids (sv_next w) (sv_client w) (sv_time w) (sv_offsets w).

Fixpoint assoc {K V} `{EqDecision K} (k : K) (l : list (K * V)) : option V :=
  match l with
  | [] => None
  | (k', v) :: l => if decide (k = k') then Some v else assoc k l
  end.

Definition unknown_fid_error : SessionError := session_error libc.EBADF "unknown namespace fid".
Definition no_file : SessionError := session_error libc.ENOENT "file does not exist".
Definition not_served {A} : S_ Served A := λ w, (inl (session_error libc.ENOTSUP "not supported"), w).

Definition fid_path (client fid : Z) (w : Served) : SResult Path :=
  if negb (client =? sv_client w) then inl unknown_fid_error else some_or (assoc fid (sv_fids w)) unknown_fid_error.

Definition on_fid {A} (client fid : Z) (f : Path → Stat → bytes → S_ Served A) : S_ Served A := λ w,
  match fid_path client fid w with
  | inl e => (inl e, w)
  | inr path => match assoc path (sv_files w) with
                | None => (inl no_file, w)
                | Some (st, data) => f path st data w
                end
  end.

Definition drop_fid (fid : Z) (w : Served) : Served := with_fids (List.filter (λ e, negb (e.1 =? fid)) (sv_fids w)) w.

Definition new_fid (path : Path) : S_ Served Z := λ w,
  (inr (sv_next w), Served_mk (sv_files w) ((sv_next w, path) :: sv_fids w) (sv_next w + 1) (sv_client w) (sv_time w) (sv_offsets w)).

Definition served_walk (client fid : Z) (names : list bytes) : S_ Served Z :=
  on_fid client fid (λ path _ _ w,
    match assoc (path ++ names) (sv_files w) with
    | None => (inl no_file, w)
    | Some _ => new_fid (path ++ names) w
    end).

Definition rename_in (name : bytes) (path p : Path) : Path := if decide (p = path) then removelast path ++ [name] else p.

Definition served_wstat (client fid : Z) (st : Stat) : S_ Served unit :=
  on_fid client fid (λ path _ _ w,
    (inr (), Served_mk (prod_map (rename_in (st_name st) path) id <$> sv_files w)
               (prod_map id (rename_in (st_name st) path) <$> sv_fids w) (sv_next w) (sv_client w) (sv_time w)
               (sv_offsets w))).

Definition served_read (client fid offset count : Z) : S_ Served bytes :=
  on_fid client fid (λ _ st data w,
    if stat_is_dir st && negb (offset =? 0) && negb (offset =? default 0 (assoc fid (sv_offsets w)))
    then (inl (p9_error (bstr EBADDIROFFSET)), w)
    else
      let chunk := ztake count (zdrop offset data) in
      (inr chunk, Served_mk (sv_files w) (sv_fids w) (sv_next w) (sv_client w) (sv_time w)
                    ((fid, offset + vlen chunk) :: sv_offsets w))).

#[export] Instance served_session : MountSession Served := {
  now_at w := (sv_time w, w);
  pause d w := Served_mk (sv_files w) (sv_fids w) (sv_next w) (sv_client w) (sv_time w + d) (sv_offsets w);
  device_write n w := (inr n, w);
  device_write_all _ w := (inr (), w);
  session_client w := (inr (sv_client w), w);
  session_reconnect w :=
    (inr (sv_client w + 1), Served_mk (sv_files w) [(client_root_fid, [])] 2 (sv_client w + 1) (sv_time w) []);
  client_walk client fid names _ := served_walk client fid names;
  client_clone client fid _ := served_walk client fid [];
  client_open_fid client fid _ _ := on_fid client fid (λ _ st _ w, (inr (st_qid st), w));
  client_create _ _ _ _ _ _ := not_served;
  client_read_at client fid offset count _ := served_read client fid offset count;
  client_read_full client fid offset count _ := on_fid client fid (λ _ _ data w, (inr (ztake count (zdrop offset data)), w));
  client_read_parallel client fid offset count _ _ :=
    on_fid client fid (λ _ _ data w, (inr (ztake count (zdrop offset data)), w));
  client_write_at client fid _ data _ := on_fid client fid (λ _ _ _ w, (inr (vlen data), w));
  client_clunk_fid client fid _ w :=
    match fid_path client fid w with inl e => (inl e, w) | inr _ => (inr (), drop_fid fid w) end;
  client_remove _ _ _ := not_served;
  client_stat client fid _ := on_fid client fid (λ _ st _ w, (inr st, w));
  client_wstat client fid st _ := served_wstat client fid st;
  client_rename_at _ _ _ _ _ _ := not_served;
  client_validate_stat _ st w := (inr st, w);
  client_interrupt _ _ _ := not_served;
  client_max_write_payload _ _ := 8192 - 24;
}.

#[export] Instance served_text : OsText := { os_text _ := []; process_id := 1 }.

(** A directory with a file [a], mounted. *)
Definition root_stat : Stat := Stat_new [] (Qid_dir 1) (Z.lor DMDIR 0x1FF).
Definition file_stat : Stat := Stat_new (bstr "a") (Qid_file 7) 0x1FF.
Definition root_data : bytes := match Stat_encode file_stat with Ok data => data | Err _ => [] end.
Definition served0 : Served :=
  Served_mk [([], (root_stat, root_data)); ([bstr "a"], (file_stat, bstr "hello"))] [(client_root_fid, [])] 2 0 0 [].
Definition prepared : SResult (Mounted * Fuse Served) :=
  prepare (with_defaults sample_config) 1000 1000 4096 sample_disk served0.
Definition sample_mount : Mounted := Mounted_mk [] (with_defaults sample_config) 1000 1000 8168 4096.
Definition mount0 : Fuse Served :=
  match prepared with inr (_, s) => s | inl _ => Fuse_mk (NodeTable_mk ∅ ∅ ∅ 2 1) ShapeRecovery_new None [] [] served0 end.

Lemma mount0_prepared : prepare (with_defaults sample_config) 1000 1000 4096 sample_disk served0 = inr (sample_mount, mount0).
Proof. vm_compute. reflexivity. Qed.

Definition request (op nodeid unique : Z) : FuseInHeader := FuseInHeader_mk 0 op unique nodeid 0 0 0 0 0.
Definition do_request (op nodeid unique : Z) (payload : bytes) (s : Fuse Served) : Fuse Served :=
  (dispatch_fuse_job sample_mount (request op nodeid unique) payload s).2.

Definition c_name (name : string) : bytes := bstr name ++ [x00].

(** [lookup a], then [rename a b]. *)
Definition looked_up : Fuse Served := do_request FUSE_LOOKUP ROOT_NODEID 1 (c_name "a") mount0.
Definition renamed : Fuse Served :=
  do_request FUSE_RENAME ROOT_NODEID 2 (as_bytes (FuseRenameIn_mk ROOT_NODEID) ++ c_name "a" ++ c_name "b") looked_up.

(** ** The theorems, there *)

Lemma looked_up_answered :
  f_replies looked_up =
    [Reply_mk 1 0 (BEntry (entry_out sample_mount 2 1 file_stat))].
Proof. vm_compute. reflexivity. Qed.

(** The kernel's lookup and rename are answered once each; its FORGET is not. *)
Lemma requests_answered_once_witness :
  unanswered (hd_opcode (request FUSE_RENAME ROOT_NODEID 2)) = false ∧
  replied 2 looked_up renamed ∧
  f_replies (do_request FUSE_FORGET 2 3 (as_bytes (FuseForgetIn_mk 1)) renamed) = f_replies renamed.
Proof.
  split; [reflexivity|]. split.
  - pose proof (requests_answered_once sample_mount (request FUSE_RENAME ROOT_NODEID 2)
      (as_bytes (FuseRenameIn_mk ROOT_NODEID) ++ c_name "a" ++ c_name "b") looked_up) as H. apply H. reflexivity.
  - apply (requests_answered_once sample_mount (request FUSE_FORGET 2 3) (as_bytes (FuseForgetIn_mk 1)) renamed).
Defined.

Definition forgotten : Fuse Served := do_request FUSE_FORGET 2 3 (as_bytes (FuseForgetIn_mk 1)) renamed.
Definition looked_up_again : Fuse Served := do_request FUSE_LOOKUP ROOT_NODEID 4 (c_name "b") forgotten.

Lemma forgotten_nodes : nodes (f_nodes forgotten) !! 2 = None ∧ next_nodeid (f_nodes forgotten) = 3.
Proof. vm_compute. split; reflexivity. Qed.

Lemma looked_up_again_run : rtc (fuse_step sample_mount) forgotten looked_up_again.
Proof. eapply rtc_once. apply (step_request sample_mount). Qed.

Lemma forgotten_run : rtc (fuse_step sample_mount) mount0 forgotten.
Proof.
  eapply rtc_l; [apply (step_request sample_mount (request FUSE_LOOKUP ROOT_NODEID 1) (c_name "a"))|].
  eapply rtc_l; [apply (step_request sample_mount (request FUSE_RENAME ROOT_NODEID 2))|].
  eapply rtc_once. apply (step_request sample_mount (request FUSE_FORGET 2 3)).
Qed.

(** The number 2 of a file the kernel forgot is not given to the file it looks up next. *)
Lemma mount_tables_wf_witness : wf (f_nodes looked_up_again) ∧ nodes (f_nodes looked_up_again) !! 2 = None.
Proof.
  destruct (mount_tables_wf sample_mount _ _ _ _ _ _ mount0 forgotten looked_up_again mount0_prepared
              forgotten_run looked_up_again_run) as (H1 & H2 & _).
  split; [exact H1|]. apply H2; [|apply forgotten_nodes]. rewrite (proj2 forgotten_nodes). lia.
Defined.

(** A session of three requests. *)
Definition sent (op nodeid unique : Z) (payload : bytes) : bytes :=
  as_bytes (FuseInHeader_mk (40 + vlen payload) op unique nodeid 0 0 0 0 0) ++ payload.
Definition sample_reads : list bytes :=
  [sent FUSE_LOOKUP ROOT_NODEID 1 (c_name "a"); sent FUSE_FORGET 2 2 (as_bytes (FuseForgetIn_mk 1));
   sent FUSE_LOOKUP ROOT_NODEID 3 (c_name "nothing"); sent FUSE_DESTROY 0 4 []].

Lemma sample_reads_taken :
  hd_unique <$> List.filter (λ h, negb (unanswered (hd_opcode h))) (taken sample_reads) = [1; 3].
Proof. vm_compute. reflexivity. Qed.

Lemma session_answers_in_order_witness :
  rp_unique <$> f_replies (run_loop sample_mount sample_reads false mount0).2 = (rp_unique <$> f_replies mount0) ++ [1; 3].
Proof.
  rewrite <-sample_reads_taken. apply (session_answers_in_order sample_mount sample_reads false mount0). done.
Defined.

(** ** After a rename *)

(** The mutation and the recovery that follows it: the node of the renamed file is
    bound to a fid that was clunked, so its next use fails and is counted as a failure
    of the namespace. *)
Definition stat_again : Fuse Served :=
  do_request FUSE_GETATTR 2 3 [] (FuseState.set_world (pause 2000000000 (f_world renamed)) renamed).

Lemma rename_leaves_dead_fid :
  ((λ r, (rp_unique r, rp_error r)) <$> f_replies renamed = [(1, 0); (2, 0)]) ∧
  ((λ n, (n_fid n, n_needs_rebind n, n_path n)) <$> nodes (f_nodes renamed) !! 2 = Some (Some 3, false, [bstr "b"])) ∧
  sv_fids (f_world renamed) = [(client_root_fid, [])] ∧
  sr_failures (f_recovery renamed) = 0 ∧
  sr_failures (f_recovery stat_again) = 1.
Proof. vm_compute. repeat split. Qed.

(** ** A change of the mounted root *)

Definition touched (st : Stat) : Stat :=
  Stat_mk (st_type st) (st_dev st) (st_qid st) (st_mode st) (st_atime st) 5 (st_length st) (st_name st) (st_uid st)
    (st_gid st) (st_muid st).

(** The root's modification time changes, and the feed announces the change. *)
Definition root_touched : Fuse Served :=
  FuseState.set_world (Served_mk [([], (touched root_stat, []))] [(client_root_fid, [])] 2 0 0 []) mount0.
Definition root_announced : Fuse Served :=
  (feed_event sample_mount (FeedChange (NamespaceChange_mk [] (bstr "/") (bstr "modified") 1 [] None) "feed" true) root_touched).2.
Definition root_stated : Fuse Served := do_request FUSE_GETATTR ROOT_NODEID 1 [] root_announced.

(** The kernel is told to drop what it knows of the root, but its next GETATTR is
    answered with the old attributes. *)
Lemma root_change_not_seen :
  f_notes root_announced = [InvalInode ROOT_NODEID] ∧
  f_replies root_stated = [Reply_mk 1 0 (BAttr (attr_out sample_mount root_stat))] ∧
  attr_out sample_mount root_stat ≠ attr_out sample_mount (touched root_stat).
Proof. split_and!; [vm_compute; reflexivity|vm_compute; reflexivity|]. intros E. vm_compute in E. discriminate E. Qed.

(** ** A listing across a reconnection *)

Definition read_in (fh offset size : Z) : bytes := as_bytes (FuseReadIn_mk fh offset size 0 0 0 0).
(** The kernel opens the root and reads its first page; the server forgets the fids;
    the kernel goes on. *)
Definition opened : Fuse Served := do_request FUSE_OPENDIR ROOT_NODEID 1 (as_bytes (FuseOpenIn_mk 0 0)) mount0.
Definition listed : Fuse Served := do_request FUSE_READDIR ROOT_NODEID 2 (read_in 1 0 80) opened.
Definition fids_lost : Fuse Served := FuseState.set_world (with_fids [(client_root_fid, [])] (f_world listed)) listed.
Definition listed_on : Fuse Served := do_request FUSE_READDIR ROOT_NODEID 3 (read_in 1 2 80) fids_lost.

(** The stream is bound to a new fid but keeps its offset, which a server refuses for a
    fid that has read nothing: the listing cannot go on. *)
Lemma listing_lost_after_reopen :
  ((λ r, (rp_unique r, rp_error r)) <$> f_replies listed_on = [(1, 0); (2, 0); (3, - libc.ENOTDIR)]) ∧
  ((λ d, (ds_fid d, ds_remote_offset d)) <$> directories (f_nodes listed) !! 1 = Some (2, 62)) ∧
  ((λ d, (ds_fid d, ds_remote_offset d)) <$> directories (f_nodes listed_on) !! 1 = Some (3, 62)).
Proof. vm_compute. repeat split. Qed.

(** The FUSE bridge over the session's clients: the interface of FuseState.v,
    discharged by the renewable session of SessionProcess.v and the namespace clients
    of NamespaceOps.v.  The device, and what an interrupt of a pending call does, are
    an interface of their own. *)

Class Device (W : Type) := {
  dev_write : Z → W → SResult Z * W;
  dev_write_all : Z → W → SResult unit * W;
  dev_interrupt : Z → Z → W → SResult Z * W;
}.

Section process.
Context {W C : Type} `{!Caller C} `{!Connections W C} `{!Device W} {dbg : DebugText} {dur : DurationText}.

Definition on_net {A} (f : W → A * W) (p : Process W) : A * Process W :=
  let '(a, w) := f (pc_world p) in (a, Process_mk (pc_session p) (pc_connect_timeout p) (pc_clients p) w).

#[export] Instance process_mount : MountSession (Process W) := {
  now_at := on_net instant;
  pause d p := Process_mk (pc_session p) (pc_connect_timeout p) (pc_clients p) (sleep d (pc_world p));
  device_write n := on_net (dev_write n);
  device_write_all n := on_net (dev_write_all n);
  session_client := process_snapshot;
  session_reconnect := process_reconnect;
  client_walk c fid names timeout := on_client c (walk_timeout fid names timeout);
  client_clone c fid timeout := on_client c (clone_fid (Some timeout) fid);
  client_open_fid c fid mode timeout := on_client c (NamespaceOps.open (Some timeout) fid mode);
  client_create c fid name perm mode timeout := on_client c (NamespaceOps.create (Some timeout) fid name perm mode);
  client_read_at c fid offset count timeout := on_client c (read_with (Some timeout) fid offset count);
  client_read_full c fid offset count timeout := on_client c (read_full_with (Some timeout) fid offset count);
  client_read_parallel c fid offset count max_in_flight timeout :=
    on_client c (read_exact_parallel_timeout fid offset count max_in_flight timeout);
  client_write_at c fid offset data timeout := on_client c (NamespaceOps.write (Some timeout) fid offset data);
  client_clunk_fid c fid timeout := on_client c (NamespaceOps.clunk (Some timeout) fid);
  client_remove c fid timeout := on_client c (NamespaceOps.remove (Some timeout) fid);
  client_stat c fid timeout := on_client c (NamespaceOps.stat (Some timeout) fid);
  client_wstat c fid st timeout := on_client c (NamespaceOps.wstat (Some timeout) fid st);
  client_rename_at c olddir oldname newdir newname timeout :=
    on_client c (rename_at (Some timeout) olddir oldname newdir newname);
  client_validate_stat c st := on_client c (validate_stat st);
  client_interrupt _ unique timeout := on_net (dev_interrupt unique timeout);
  client_max_write_payload c p :=
    match on_client c (root ← sgets ns_root; direct_max_write_payload root) p with
    | (inr n, _) => n
    | (inl _, _) => 0
    end;
}.
End process.

(** ** A mount of the concrete network *)

#[export] Instance net_device : Device Net := {
  dev_write n w := (inr n, w);
  dev_write_all _ w := (inr (), w);
  dev_interrupt _ _ w := (inr 0, w);
}.

#[local] Instance net_text : OsText := { os_text _ := []; process_id := 1 }.

Definition net_config : Config :=
  Config_mk (cf_address sample_config) [] Unauthenticated (bstr "/") (bstr "/mnt/net") (bstr "glenda") [] 8192 1000000000
    1000000000 1000000000 0 1000000000 0 0 0 0 0 0 0 0 0 0 None 0 None None None None None 0 0 false None 0 false false.

Definition net_mounted : SResult (Mounted * Fuse (Process Net)) :=
  prepare (with_defaults net_config) 1000 1000 4096 sample_disk p0.

(** A lookup of the kernel goes through the bridge, the session, the namespace client
    and its connection, and back; a file the server does not know is an error. *)
Definition net_lookup (name : string) : option (list (Z * Z)) :=
  match net_mounted with
  | inl _ => None
  | inr (fs, s) =>
      let header := FuseInHeader_mk 0 FUSE_LOOKUP 9 ROOT_NODEID 0 0 0 0 0 in
      Some ((λ r, (rp_unique r, rp_error r)) <$> f_replies (dispatch_fuse_job fs header (bstr name ++ [x00]) s).2)
  end.

Lemma net_lookup_answered : net_lookup "file" = Some [(9, 0)] ∧ net_lookup "missing" = Some [(9, - libc.ENOENT)].
Proof. vm_compute. split; reflexivity. Qed.
