(* ===== verification/AuthCert.v ===== *)
(** Session keys, certificates and their configuration: [crates/auth/src/key.rs],
    [cert.rs] and [config.rs].

    A [&str] is the bytes of its UTF-8, a key its bytes.  The signatures
    (ed25519-dalek) and the Noise protocol (snow) are interfaces.  The files are
    modelled by their contents and by the failures the calls on them meet. *)
From S2P Require Import Prelude Errors Utf8 Referral NamespaceCache Text Endpoint ExportDescriptor.

(** ** Third-party code *)

(** A signing key and a verifying key are their bytes, which is what the library
    compares and prints. *)
Class Ed25519 := {
  vk_from_bytes : bytes → bool;                   (* [VerifyingKey::from_bytes] accepts *)
  verifying_key : bytes → bytes;                  (* of a signing key *)
  ed_sign : bytes → bytes → bytes;                (* key, message *)
  verify_strict : bytes → bytes → bytes → bool;   (* key, message, signature *)
}.

(** An error of the library is its text.  [Entropy] is what the library draws from
    the operating system for one handshake. *)
Class Noise := {
  Params : Type; Builder : Type; Entropy : Type; Handshake : Type; Transport : Type;
  noise_parse : bytes → bytes + Params;                          (* [parse::<NoiseParams>] *)
  builder_new : Params → Builder;
  builder_prologue : bytes → Builder → bytes + Builder;
  builder_private_key : bytes → Builder → bytes + Builder;
  build_initiator : Entropy → Builder → bytes + Handshake;
  build_responder : Entropy → Builder → bytes + Handshake;
  generate_keypair : Entropy → Builder → bytes + bytes * bytes;
  hs_write_message : bytes → Handshake → (bytes + bytes) * Handshake;
  hs_read_message : bytes → Handshake → (bytes + bytes) * Handshake;
  get_remote_static : Handshake → option bytes;
  is_handshake_finished : Handshake → bool;
  into_stateless_transport_mode : Handshake → bytes + Transport;
  tr_write_message : Transport → Z → bytes → bytes + bytes;      (* nonce, plaintext *)
  tr_read_message : Transport → Z → bytes → bytes + bytes;       (* nonce, ciphertext *)
  dh_pubkey : bytes → bytes;                                     (* Curve25519 *)
}.

Definition NOISE_PATTERN_XX : bytes := bstr "Noise_XX_25519_ChaChaPoly_BLAKE2s".
Definition CONFIG_FORMAT : bytes := bstr "r9p-session-auth.v1".

(** A call that fails with a text. *)
Definition noise_error {A} (context : string) (r : bytes + A) : Result A :=
  match r with inr a => Ok a | inl text => Err (error_text [bstr context; bstr ": "; text]) end.

(** ** key.rs: keys in hexadecimal *)

Definition KEY_BYTES : Z := 32.

Definition decode_nibble (value : byte) (label : bytes) : Result Z :=
  let v := byte_to_Z value in
  if (48 <=? v) && (v <=? 57) then Ok (v - 48)
  else if (97 <=? v) && (v <=? 102) then Ok (v - 97 + 10)
  else Err (error_text [label; bstr " must use lowercase hexadecimal"]).

Fixpoint decode_pairs (value label : bytes) : Result bytes :=
  match value with
  | a :: b :: value =>
      high ← decode_nibble a label;
      low ← decode_nibble b label;
      rest ← decode_pairs value label;
      mret (byte_of_Z (Z.lor (Z.shiftl high 4) low) :: rest)
  | _ => Ok []
  end.

Definition decode_hex (n : Z) (value label : bytes) : Result bytes :=
  if negb (vlen value =? n * 2)
  then Err (error_text [label; bstr " must be exactly "; dec (n * 2); bstr " lowercase hexadecimal characters"])
  else decode_pairs value label.

Definition hex_char (z : Z) : byte := byte_of_Z (if z <? 10 then 48 + z else 87 + z).

Definition encode_hex (bs : bytes) : bytes :=
  concat ((λ b, [hex_char (Z.shiftr (byte_to_Z b) 4); hex_char (Z.land (byte_to_Z b) 15)]) <$> bs).

Definition decode_key (value : bytes) : Result bytes := decode_hex KEY_BYTES value (bstr "key").

Definition key_array (bs : bytes) (label : string) : Result bytes :=
  if vlen bs =? KEY_BYTES then Ok bs else Err (error_text [bstr label; bstr " must be "; dec KEY_BYTES; bstr " bytes"]).

Definition PublicKey_from_hex : bytes → Result bytes := decode_key.
Definition PublicKey_to_hex : bytes → bytes := encode_hex.
Definition PublicKey_from_bytes (bs : bytes) : Result bytes := key_array bs "Noise public key".
Definition PrivateKey_from_hex : bytes → Result bytes := decode_key.
Definition PrivateKey_render : bytes → bytes := encode_hex.

Definition derive_public_key `{!Noise} (private : bytes) : Result bytes := PublicKey_from_bytes (dh_pubkey private).

Inductive PrivateKeyAccess := OwnerOnly | OwnerGroupRead.

Definition PrivateKeyAccess_parse (value : bytes) : Result PrivateKeyAccess :=
  if bool_decide (value = bstr "owner-only") then Ok OwnerOnly
  else if bool_decide (value = bstr "owner-group-read") then Ok OwnerGroupRead
  else Err (error_text [bstr "private key access must be owner-only or owner-group-read, got "; value]).

Definition file_mode (access : PrivateKeyAccess) : Z :=
  match access with OwnerOnly => 384 | OwnerGroupRead => 416 end.     (* 0o600, 0o640 *)

(** ** Files *)

Record AuthFile := AuthFile_mk { af_regular : bool; af_mode : Z; af_data : bytes }.

(** A call that fails, with its text and how much of a write it did before. *)
Record Fault := Fault_mk { ft_text : bytes; ft_done : nat }.

Record AuthFs := AuthFs_mk {
  fs_files : gmap bytes AuthFile;
  fs_umask : Z;
  fs_faults : list (option Fault);       (* what the next calls meet *)
}.

Abbreviation Files := (gmap bytes AuthFile).

(** A call on the files, and what it does if it fails half-way. *)
Definition fs_call {A} (f : Files → (bytes + A) * Files) (part : nat → Files → Files) (s : AuthFs) :
    (bytes + A) * AuthFs :=
  match fs_faults s with
  | Some fault :: faults => (inl (ft_text fault), AuthFs_mk (part (ft_done fault) (fs_files s)) (fs_umask s) faults)
  | _ => let '(r, files) := f (fs_files s) in (r, AuthFs_mk files (fs_umask s) (tail (fs_faults s)))
  end.

Definition whole (_ : nat) (files : Files) : Files := files.
Definition no_such_file : bytes := bstr "No such file or directory (os error 2)".

Definition try_exists (path : bytes) : AuthFs → (bytes + bool) * AuthFs :=
  fs_call (λ files, (inr (bool_decide (is_Some (files !! path))), files)) whole.

Definition fs_metadata (path : bytes) : AuthFs → (bytes + AuthFile) * AuthFs :=
  fs_call (λ files, (match files !! path with Some f => inr f | None => inl no_such_file end, files)) whole.

Definition read_to_string (path : bytes) : AuthFs → (bytes + bytes) * AuthFs :=
  fs_call (λ files, (match files !! path with
                     | None => inl no_such_file
                     | Some f =>
                         if negb (af_regular f) then inl (bstr "Is a directory (os error 21)")
                         else match from_utf8 (af_data f) with
                              | Some text => inr text
                              | None => inl (bstr "stream did not contain valid UTF-8")
                              end
                     end, files)) whole.

Definition create_new (path : bytes) (mode : Z) (s : AuthFs) : (bytes + unit) * AuthFs :=
  fs_call (λ files, match files !! path with
                    | Some _ => (inl (bstr "File exists (os error 17)"), files)
                    | None => (inr (), <[path := AuthFile_mk true (Z.land mode (Z.lnot (fs_umask s))) []]> files)
                    end) whole s.

Definition append_to (path bs : bytes) (files : Files) : Files :=
  alter (λ f, AuthFile_mk (af_regular f) (af_mode f) (af_data f ++ bs)) path files.

Definition fs_write_all (path bs : bytes) : AuthFs → (bytes + unit) * AuthFs :=
  fs_call (λ files, (inr (), append_to path bs files)) (λ n, append_to path (take n bs)).

Definition sync_all : AuthFs → (bytes + unit) * AuthFs := fs_call (λ files, (inr (), files)) whole.

Definition set_permissions (path : bytes) (mode : Z) : AuthFs → (bytes + unit) * AuthFs :=
  fs_call (λ files, (inr (), alter (λ f, AuthFile_mk (af_regular f) mode (af_data f)) path files)) whole.

Definition remove_file (path : bytes) : AuthFs → (bytes + unit) * AuthFs :=
  fs_call (λ files, (inr (), delete path files)) whole.

(** [a.and_then(|()| b)] *)
Definition and_then {A} (a : AuthFs → (bytes + unit) * AuthFs) (b : AuthFs → (bytes + A) * AuthFs) (s : AuthFs) :
    (bytes + A) * AuthFs :=
  match a s with (inr _, s) => b s | (inl text, s) => (inl text, s) end.

(** [call.map_err(..)?], with the text [what path: error]. *)
Definition io_at {A} (what path : bytes) (call : AuthFs → (bytes + A) * AuthFs) : M AuthFs A := λ s,
  match call s with
  | (inr a, s) => (Ok a, s)
  | (inl text, s) => (Err (error_text [what; bstr " "; from_utf8_lossy path; bstr ": "; text]), s)
  end.

Definition path_exists (path label : bytes) : M AuthFs bool := io_at (bstr "inspect " ++ label) path (try_exists path).

(** What [write_new_file] does with the file it has created. *)
Definition fill_new_file (path data : bytes) (mode : Z) (label : bytes) : M AuthFs unit := λ s,
  match and_then (fs_write_all path data)
          (and_then (fs_write_all path [newline]) (and_then sync_all (set_permissions path mode))) s with
  | (inr _, s) => (Ok (), s)
  | (inl text, s) =>
      (Err (error_text [bstr "write "; label; bstr " "; from_utf8_lossy path; bstr ": "; text]),
       (remove_file path s).2)
  end.

Definition write_new_file (path data : bytes) (mode : Z) (label : bytes) : M AuthFs unit :=
  _ ← io_at (bstr "create " ++ label) path (create_new path mode);
  fill_new_file path data mode label.

(** ** key.rs: key files *)

Definition private_key_refusal (path : bytes) (text : string) : Error :=
  error_text [bstr "private key "; from_utf8_lossy path; bstr text].

Definition read_with_access (path : bytes) (access : PrivateKeyAccess) : M AuthFs bytes :=
  metadata ← io_at (bstr "inspect private key") path (fs_metadata path);
  if negb (af_regular metadata) then throw (private_key_refusal path " is not a regular file")
  else
    let mode := Z.land (af_mode metadata) 511 in
    _ ← match access with
        | OwnerOnly =>
            if has_bits mode 63                                    (* 0o077 *)
            then throw (private_key_refusal path " must not be accessible by group or other users")
            else mret ()
        | OwnerGroupRead =>
            if negb (has_bits mode 32) || has_bits mode 31         (* 0o040, 0o037 *)
            then throw (private_key_refusal path
                   " must grant group read without group write, group execute, or other access")
            else mret ()
        end;
    value ← io_at (bstr "read private key") path (read_to_string path);
    lift (PrivateKey_from_hex (trim value)).

Definition PublicKey_read (path : bytes) : M AuthFs bytes :=
  value ← io_at (bstr "read public key") path (read_to_string path);
  lift (PublicKey_from_hex (trim value)).

Record KeyPair := KeyPair_mk { kp_private : bytes; kp_public : bytes }.

(** What paths are compared by: whether they are absolute, and their components. *)
Definition path_components (path : bytes) : bool * list bytes :=
  let plain := filter (λ c, c ≠ [] ∧ c ≠ bstr ".") in
  (starts_with [slash] path,
   match split_on slash path with
   | [] => []
   | [] :: rest => plain rest
   | c :: rest => c :: plain rest
   end).

Definition paths_differ (private_path public_path : bytes) : Result unit :=
  if bool_decide (path_components private_path = path_components public_path) then Err (from_static "private and public key paths must differ")
  else Ok ().

Definition remove_after_error (path : bytes) (m : M AuthFs unit) : M AuthFs unit := λ s,
  match m s with
  | (Ok a, s) => (Ok a, s)
  | (Err error, s) => (Err error, (remove_file path s).2)
  end.

Definition write_key_pair_with_access (private_path public_path : bytes) (pair : KeyPair)
    (access : PrivateKeyAccess) : M AuthFs unit :=
  _ ← lift (paths_differ private_path public_path);
  _ ← write_new_file private_path (PrivateKey_render (kp_private pair)) (file_mode access) (bstr "private key");
  remove_after_error private_path
    (write_new_file public_path (PublicKey_to_hex (kp_public pair)) 420 (bstr "public key")).  (* 0o644 *)

Definition write_key_pair (private_path public_path : bytes) (pair : KeyPair) : M AuthFs unit :=
  write_key_pair_with_access private_path public_path pair OwnerOnly.

Section keys.
Context `{!Noise}.

Definition generate_key_pair (entropy : Entropy) : Result KeyPair :=
  params ← noise_error "parse Noise pattern" (noise_parse NOISE_PATTERN_XX);
  '(private, public) ← noise_error "generate Noise key pair" (generate_keypair entropy (builder_new params));
  private ← key_array private "generated private key";
  public ← key_array public "generated public key";
  mret (KeyPair_mk private public).

Definition provision_key_pair_with_access (entropy : Entropy) (private_path public_path : bytes)
    (access : PrivateKeyAccess) : M AuthFs KeyPair :=
  _ ← lift (paths_differ private_path public_path);
  private_exists ← path_exists private_path (bstr "private key");
  public_exists ← path_exists public_path (bstr "public key");
  match (private_exists : bool), (public_exists : bool) with
  | false, false =>
      pair ← lift (generate_key_pair entropy);
      _ ← write_key_pair_with_access private_path public_path pair access;
      mret pair
  | true, false =>
      private ← read_with_access private_path access;
      public ← lift (derive_public_key private);
      _ ← write_new_file public_path (PublicKey_to_hex public) 420 (bstr "public key");
      mret (KeyPair_mk private public)
  | true, true =>
      private ← read_with_access private_path access;
      public ← PublicKey_read public_path;
      derived ← lift (derive_public_key private);
      if bool_decide (derived = public) then mret (KeyPair_mk private public)
      else throw (error_text [bstr "public key "; from_utf8_lossy public_path; bstr " does not match private key ";
                              from_utf8_lossy private_path])
  | false, true =>
      throw (error_text [bstr "public key "; from_utf8_lossy public_path; bstr " exists without private key ";
                         from_utf8_lossy private_path; bstr "; refusing to replace it"])
  end.

Definition provision_key_pair (entropy : Entropy) (private_path public_path : bytes) : M AuthFs KeyPair :=
  provision_key_pair_with_access entropy private_path public_path OwnerOnly.

End keys.

(** ** cert.rs: roots *)

Definition CERT_FORMAT : bytes := bstr "r9p-cert.v1".
Definition SIGNATURE_BYTES : Z := 64.
Definition MAX_LABEL_BYTES : Z := 255.
Definition MAX_GROUPS : Z := 32.

Section certificates.
Context `{!Ed25519}.

Definition RootPrivateKey_from_hex (value : bytes) : Result bytes := decode_hex KEY_BYTES value (bstr "root private key").
Definition RootPrivateKey_render : bytes → bytes := encode_hex.
Definition RootPrivateKey_public (root : bytes) : bytes := verifying_key root.

Definition RootPublicKey_from_hex (value : bytes) : Result bytes :=
  bs ← decode_hex KEY_BYTES value (bstr "root public key");
  if vk_from_bytes bs then Ok bs else Err (from_static "root public key is not a valid Ed25519 point").

Definition RootPublicKey_to_hex : bytes → bytes := encode_hex.

Definition read_private (path : bytes) : M AuthFs bytes :=
  metadata ← io_at (bstr "inspect root private key") path (fs_metadata path);
  if negb (af_regular metadata)
  then throw (error_text [bstr "root private key "; from_utf8_lossy path; bstr " is not a regular file"])
  else if has_bits (af_mode metadata) 63
  then throw (error_text [bstr "root private key "; from_utf8_lossy path;
                          bstr " must not be accessible by group or other users"])
  else io_at (bstr "read root private key") path (read_to_string path).

Definition RootPrivateKey_read (path : bytes) : M AuthFs bytes :=
  value ← read_private path; lift (RootPrivateKey_from_hex (trim value)).

Definition RootPublicKey_read (path : bytes) : M AuthFs bytes :=
  value ← io_at (bstr "read root public key") path (read_to_string path);
  lift (RootPublicKey_from_hex (trim value)).

(** [seed] is what [getrandom] fills the seed with. *)
Definition generate_root_key_pair (seed : bytes + bytes) : Result KeyPair :=
  private ← noise_error "draw root key material" seed;
  mret (KeyPair_mk private (RootPrivateKey_public private)).

Definition provision_root_key_pair (seed : bytes + bytes) (private_path public_path : bytes) : M AuthFs KeyPair :=
  _ ← lift (paths_differ private_path public_path);
  private_exists ← path_exists private_path (bstr "root private key");
  public_exists ← path_exists public_path (bstr "root public key");
  match (private_exists : bool), (public_exists : bool) with
  | false, false =>
      pair ← lift (generate_root_key_pair seed);
      _ ← write_new_file private_path (RootPrivateKey_render (kp_private pair)) 384 (bstr "root private key");
      _ ← remove_after_error private_path
            (write_new_file public_path (RootPublicKey_to_hex (kp_public pair)) 420 (bstr "root public key"));
      mret pair
  | true, false =>
      private ← RootPrivateKey_read private_path;
      let public := RootPrivateKey_public private in
      _ ← write_new_file public_path (RootPublicKey_to_hex public) 420 (bstr "root public key");
      mret (KeyPair_mk private public)
  | true, true =>
      private ← RootPrivateKey_read private_path;
      public ← RootPublicKey_read public_path;
      if bool_decide (RootPrivateKey_public private = public) then mret (KeyPair_mk private public)
      else throw (error_text [bstr "root public key "; from_utf8_lossy public_path;
                              bstr " does not match private key "; from_utf8_lossy private_path])
  | false, true =>
      throw (error_text [bstr "root public key "; from_utf8_lossy public_path; bstr " exists without private key ";
                         from_utf8_lossy private_path; bstr "; refusing to replace it"])
  end.

(** ** cert.rs: certificates *)

(** [groups] is a [BTreeSet]: in byte order, each once. *)
Record CertificateBody := CertificateBody_mk {
  cb_name : bytes;
  cb_key : bytes;
  cb_groups : list bytes;
  cb_not_before : Z;
  cb_not_after : Z;
  cb_issuer : bytes;
}.

Record Certificate := Certificate_mk { ct_body : CertificateBody; ct_signature : bytes }.

(** [BTreeSet::insert] *)
Fixpoint set_insert (x : bytes) (l : list bytes) : list bytes :=
  match l with
  | [] => [x]
  | y :: l =>
      match bytes_compare x y with
      | Lt => x :: y :: l
      | Eq => y :: l
      | Gt => y :: set_insert x l
      end
  end.

(** [chars()], each as its encoding; a [&str] is valid UTF-8. *)
Fixpoint chars_loop (fuel : nat) (bs : bytes) : list bytes :=
  match fuel, bs with
  | S fuel, _ :: _ => let '(n, _) := utf8_chunk bs in take n bs :: chars_loop fuel (drop n bs)
  | _, _ => []
  end.

Definition chars (bs : bytes) : list bytes := chars_loop (length bs) bs.

Definition is_whitespace (c : bytes) : bool := bool_decide (c ∈ white_space).

Definition validate_label (value : bytes) (what : string) : Result unit :=
  if bool_decide (value = []) || (MAX_LABEL_BYTES <? vlen value)
  then Err (error_text [bstr what; bstr " must contain 1 to "; dec MAX_LABEL_BYTES; bstr " bytes"])
  else if existsb (λ b, (byte_to_Z b =? 0) || is_ascii_control b) value
  then Err (error_text [bstr what; bstr " contains a control byte"])
  else if existsb is_whitespace (chars value) then Err (error_text [bstr what; bstr " contains whitespace"])
  else if starts_with [x23] value then Err (error_text [bstr what; bstr " starts with a comment marker"])
  else Ok ().

Fixpoint collect_groups (groups collected : list bytes) : Result (list bytes) :=
  match groups with
  | [] => Ok collected
  | group :: groups =>
      _ ← validate_label group "certificate group";
      collect_groups groups (set_insert group collected)
  end.

Definition CertificateBody_new (name key : bytes) (groups : list bytes) (not_before not_after : Z) (issuer : bytes) :
    Result CertificateBody :=
  _ ← validate_label name "certificate name";
  collected ← collect_groups groups [];
  if MAX_GROUPS <? vlen collected
  then Err (error_text [bstr "certificate carries more than "; dec MAX_GROUPS; bstr " groups"])
  else if not_after <=? not_before then Err (from_static "certificate not-before must precede not-after")
  else Ok (CertificateBody_mk name key collected not_before not_after issuer).

(** [to_be_bytes] of an [n]-byte integer *)
Definition be_bytes (n : nat) (z : Z) : bytes := rev (le_bytes n z).

Definition push_framed (out bs : bytes) : Result bytes :=
  length ← ok_or (try_from u32_max (vlen bs)) (from_static "certificate field does not fit in u32");
  mret (out ++ be_bytes 4 length ++ bs).

Fixpoint push_groups (out : bytes) (groups : list bytes) : Result bytes :=
  match groups with
  | [] => Ok out
  | group :: groups => out ← push_framed out group; push_groups out groups
  end.

Definition signing_input (b : CertificateBody) : Result bytes :=
  out ← push_framed [] CERT_FORMAT;
  out ← push_framed out (cb_name b);
  out ← push_framed out (cb_key b);
  count ← ok_or (try_from u32_max (vlen (cb_groups b))) (from_static "certificate group count does not fit in u32");
  out ← push_groups (out ++ be_bytes 4 count) (cb_groups b);
  push_framed (out ++ be_bytes 8 (cb_not_before b) ++ be_bytes 8 (cb_not_after b)) (cb_issuer b).

Definition Certificate_sign (root : bytes) (body : CertificateBody) : Result Certificate :=
  if negb (bool_decide (cb_issuer body = RootPrivateKey_public root))
  then Err (from_static "certificate issuer does not match the signing root")
  else
    input ← signing_input body;
    mret (Certificate_mk body (ed_sign root input)).

Definition verify (c : Certificate) (root : bytes) (now : Z) : Result unit :=
  let body := ct_body c in
  if negb (bool_decide (cb_issuer body = root))
  then Err (error_text [bstr "certificate for "; cb_name body; bstr " was issued by root ";
                        RootPublicKey_to_hex (cb_issuer body); bstr ", not "; RootPublicKey_to_hex root])
  else
    input ← signing_input body;
    if negb (verify_strict root input (ct_signature c))
    then Err (error_text [bstr "certificate signature for "; cb_name body; bstr " is not valid"])
    else if now <? cb_not_before body
    then Err (error_text [bstr "certificate for "; cb_name body; bstr " is not valid until "; dec (cb_not_before body)])
    else if cb_not_after body <=? now
    then Err (error_text [bstr "certificate for "; cb_name body; bstr " expired at "; dec (cb_not_after body)])
    else Ok ().

Definition cert_line (field : string) (value : bytes) : bytes := bstr field ++ [x20] ++ value ++ [newline].

Definition Certificate_render (c : Certificate) : bytes :=
  let body := ct_body c in
  cert_line "format" CERT_FORMAT ++ cert_line "name" (cb_name body) ++
  cert_line "key" (PublicKey_to_hex (cb_key body)) ++
  concat (cert_line "group" <$> cb_groups body) ++
  cert_line "not-before" (dec (cb_not_before body)) ++ cert_line "not-after" (dec (cb_not_after body)) ++
  cert_line "issuer" (RootPublicKey_to_hex (cb_issuer body)) ++
  cert_line "signature" (encode_hex (ct_signature c)).

(** [split_ascii_whitespace] *)
Definition is_ascii_whitespace (b : byte) : bool := bool_decide (b ∈ [x09; x0a; x0c; x0d; x20]).

Fixpoint split_words (word bs : bytes) : list bytes :=
  match bs with
  | [] => match word with [] => [] | _ => [rev word] end
  | b :: bs =>
      if is_ascii_whitespace b
      then match word with [] => split_words [] bs | _ => rev word :: split_words [] bs end
      else split_words (b :: word) bs
  end.

Definition split_ascii_whitespace (bs : bytes) : list bytes := split_words [] bs.

(** [parse]'s variables *)
Record CertFields := CertFields_mk {
  cf_format : option bytes; cf_name : option bytes; cf_key : option bytes; cf_groups : list bytes;
  cf_not_before : option bytes; cf_not_after : option bytes; cf_issuer : option bytes; cf_signature : option bytes;
}.

Definition no_fields : CertFields := CertFields_mk None None None [] None None None None.

Definition set_once (target : option bytes) (value : bytes) (field : string) : Result (option bytes) :=
  match target with
  | Some _ => Err (error_text [bstr "duplicate certificate field "; bstr field])
  | None => Ok (Some value)
  end.

Definition certificate_field (field value : bytes) (f : CertFields) : option (Result CertFields) :=
  let 'CertFields_mk format name key groups nb na issuer signature := f in
  if bool_decide (field = bstr "format")
  then Some (v ← set_once format value "format"; mret (CertFields_mk v name key groups nb na issuer signature))
  else if bool_decide (field = bstr "name")
  then Some (v ← set_once name value "name"; mret (CertFields_mk format v key groups nb na issuer signature))
  else if bool_decide (field = bstr "key")
  then Some (v ← set_once key value "key"; mret (CertFields_mk format name v groups nb na issuer signature))
  else if bool_decide (field = bstr "group")
  then Some (Ok (CertFields_mk format name key (groups ++ [value]) nb na issuer signature))
  else if bool_decide (field = bstr "not-before")
  then Some (v ← set_once nb value "not-before"; mret (CertFields_mk format name key groups v na issuer signature))
  else if bool_decide (field = bstr "not-after")
  then Some (v ← set_once na value "not-after"; mret (CertFields_mk format name key groups nb v issuer signature))
  else if bool_decide (field = bstr "issuer")
  then Some (v ← set_once issuer value "issuer"; mret (CertFields_mk format name key groups nb na v signature))
  else if bool_decide (field = bstr "signature")
  then Some (v ← set_once signature value "signature"; mret (CertFields_mk format name key groups nb na issuer v))
  else None.

Definition certificate_line (index : Z) (raw_line : bytes) (f : CertFields) : Result CertFields :=
  let line := trim raw_line in
  if bool_decide (line = []) || starts_with [x23] line then Ok f
  else
    let refusal := Err (error_text [bstr "invalid certificate line "; dec (index + 1)]) in
    match split_ascii_whitespace line with
    | [field; value] => default refusal (certificate_field field value f)
    | _ => refusal
    end.

Fixpoint certificate_lines (index : Z) (ls : list bytes) (f : CertFields) : Result CertFields :=
  match ls with
  | [] => Ok f
  | l :: ls => f ← certificate_line index l f; certificate_lines (index + 1) ls f
  end.

Definition required (value : option bytes) (field : string) : Result bytes :=
  ok_or value (error_text [bstr "missing certificate field "; bstr field]).

Definition parse_seconds (value : bytes) (field : string) : Result Z :=
  ok_or (parse_u64 value)
    (error_text [bstr "certificate "; bstr field; bstr " must be whole seconds since the Unix epoch"]).

Definition Certificate_parse (input : bytes) : Result Certificate :=
  f ← certificate_lines 0 (lines input) no_fields;
  if negb (bool_decide (cf_format f = Some CERT_FORMAT))
  then Err (error_text [bstr "certificate format must be "; CERT_FORMAT])
  else
    name ← required (cf_name f) "name";
    key ← required (cf_key f) "key";
    key ← PublicKey_from_hex key;
    not_before ← required (cf_not_before f) "not-before";
    not_before ← parse_seconds not_before "not-before";
    not_after ← required (cf_not_after f) "not-after";
    not_after ← parse_seconds not_after "not-after";
    issuer ← required (cf_issuer f) "issuer";
    issuer ← RootPublicKey_from_hex issuer;
    body ← CertificateBody_new name key (cf_groups f) not_before not_after issuer;
    signature ← required (cf_signature f) "signature";
    signature ← decode_hex SIGNATURE_BYTES signature (bstr "certificate signature");
    mret (Certificate_mk body signature).

Definition Certificate_read (path : bytes) : M AuthFs Certificate :=
  input ← io_at (bstr "read certificate") path (read_to_string path);
  lift (Certificate_parse input).

Definition Certificate_write (c : Certificate) (path : bytes) : M AuthFs unit :=
  write_new_file path (trim_end (Certificate_render c)) 420 (bstr "certificate").

End certificates.

(** ** config.rs *)

Definition MAX_PRINCIPAL_BYTES : Z := 255.

Record ClientConfig := ClientConfig_mk {
  cl_private_key : bytes;
  cl_certificate : option Certificate;
  cl_roots : list bytes;
}.

Record ServerConfig := ServerConfig_mk {
  sv_domain : bytes;
  sv_private_key : bytes;
  sv_certificate : option Certificate;
  sv_roots : list bytes;
}.

Fixpoint dedupe_loop (roots accepted : list bytes) : list bytes :=
  match roots with
  | [] => accepted
  | root :: roots =>
      dedupe_loop roots (if bool_decide (root ∈ accepted) then accepted else accepted ++ [root])
  end.

Definition dedupe_roots (roots : list bytes) : list bytes := dedupe_loop roots [].

Definition validate_principal (principal : bytes) : Result unit :=
  if bool_decide (principal = []) || (MAX_PRINCIPAL_BYTES <? vlen principal)
  then Err (error_text [bstr "session principal must contain 1 to "; dec MAX_PRINCIPAL_BYTES; bstr " bytes"])
  else if existsb (λ b, (byte_to_Z b =? 0) || is_ascii_control b) principal
  then Err (from_static "session principal contains a control byte")
  else Ok ().

(** [Path::parent]: the separators and [.] that follow a component are not part of
    it.  The components are in reverse. *)
Fixpoint trim_right (components : list bytes) : list bytes :=
  match components with
  | [] | [_] => components
  | c :: rest => if bool_decide (c = []) || bool_decide (c = bstr ".") then trim_right rest else components
  end.

Definition path_parent (path : bytes) : option bytes :=
  match trim_right (rev (split_on slash path)) with
  | [] | [[]] => None
  | _ :: parent =>
      match trim_right parent with
      | [] => Some []
      | [[]] => Some [slash]
      | components => Some (join slash (rev components))
      end
  end.

(** [Path::join] with a relative path *)
Definition path_join (base path : bytes) : bytes :=
  match last base with
  | None => path
  | Some b => if bool_decide (b = slash) then base ++ path else base ++ [slash] ++ path
  end.

Definition resolve_path (config_path value : bytes) : bytes :=
  if starts_with [slash] value then value
  else path_join (default (bstr ".") (path_parent config_path)) value.

Record ParsedConfig := ParsedConfig_mk {
  pc_role : option bytes; pc_domain : option bytes; pc_private_key : option bytes;
  pc_private_key_access : option bytes; pc_certificate : option bytes; pc_roots : list bytes;
}.

Definition config_set_once (target : option bytes) (value : bytes) (field : string) : Result (option bytes) :=
  match target with
  | Some _ => Err (error_text [bstr "duplicate session auth config field "; bstr field])
  | None => Ok (Some value)
  end.

Definition config_required (value : option bytes) (field : string) : Result bytes :=
  ok_or value (error_text [bstr "missing session auth config field "; bstr field]).

Definition config_field (field value : bytes) (st : option bytes * ParsedConfig) :
    option (Result (option bytes * ParsedConfig)) :=
  let '(format, ParsedConfig_mk role domain key access certificate roots) := st in
  if bool_decide (field = bstr "format")
  then Some (v ← config_set_once format value "format";
             mret (v, ParsedConfig_mk role domain key access certificate roots))
  else if bool_decide (field = bstr "role")
  then Some (v ← config_set_once role value "role"; mret (format, ParsedConfig_mk v domain key access certificate roots))
  else if bool_decide (field = bstr "domain")
  then Some (v ← config_set_once domain value "domain"; mret (format, ParsedConfig_mk role v key access certificate roots))
  else if bool_decide (field = bstr "private-key")
  then Some (v ← config_set_once key value "private-key"; mret (format, ParsedConfig_mk role domain v access certificate roots))
  else if bool_decide (field = bstr "private-key-access")
  then Some (v ← config_set_once access value "private-key-access";
             mret (format, ParsedConfig_mk role domain key v certificate roots))
  else if bool_decide (field = bstr "certificate")
  then Some (v ← config_set_once certificate value "certificate";
             mret (format, ParsedConfig_mk role domain key access v roots))
  else if bool_decide (field = bstr "root")
  then Some (Ok (format, ParsedConfig_mk role domain key access certificate (roots ++ [value])))
  else None.

Definition config_line (path : bytes) (index : Z) (raw_line : bytes) (st : option bytes * ParsedConfig) :
    Result (option bytes * ParsedConfig) :=
  let line := trim raw_line in
  if bool_decide (line = []) || starts_with [x23] line then Ok st
  else
    let refusal := Err (error_text [bstr "invalid session auth config line "; dec (index + 1); bstr " in ";
                                    from_utf8_lossy path]) in
    match split_ascii_whitespace line with
    | [field; value] => default refusal (config_field field value st)
    | _ => refusal
    end.

Fixpoint config_lines (path : bytes) (index : Z) (ls : list bytes) (st : option bytes * ParsedConfig) :
    Result (option bytes * ParsedConfig) :=
  match ls with
  | [] => Ok st
  | l :: ls => st ← config_line path index l st; config_lines path (index + 1) ls st
  end.

Definition ParsedConfig_read (path : bytes) : M AuthFs ParsedConfig :=
  input ← io_at (bstr "read session auth config") path (read_to_string path);
  '(format, parsed) ← lift (config_lines path 0 (lines input) (None, ParsedConfig_mk None None None None None []));
  if bool_decide (format = Some CONFIG_FORMAT) then mret parsed
  else throw (error_text [bstr "session auth config format must be "; CONFIG_FORMAT]).

Definition parse_private_key_access (value : option bytes) : Result PrivateKeyAccess :=
  match value with Some value => PrivateKeyAccess_parse value | None => Ok OwnerOnly end.

Section config.
Context `{!Ed25519} `{!Noise}.

(** [with_certificate] of a client: the certificate is one of its own key. *)
Definition client_with_certificate (c : ClientConfig) (certificate : Certificate) : Result ClientConfig :=
  own ← derive_public_key (cl_private_key c);
  if bool_decide (cb_key (ct_body certificate) = own)
  then Ok (ClientConfig_mk (cl_private_key c) (Some certificate) (cl_roots c))
  else Err (error_text [bstr "certificate for "; cb_name (ct_body certificate);
                        bstr " was issued for another session key"]).

Definition certified (private_key : bytes) (certificate : Certificate) (roots : list bytes) : Result ClientConfig :=
  match dedupe_roots roots with
  | [] => Err (from_static "a certified client config requires at least one root")
  | roots => client_with_certificate (ClientConfig_mk private_key None roots) certificate
  end.

Definition with_roots (c : ClientConfig) (roots : list bytes) : ClientConfig :=
  ClientConfig_mk (cl_private_key c) (cl_certificate c) (dedupe_roots roots).

Fixpoint parse_roots (roots : list bytes) : Result (list bytes) :=
  match roots with
  | [] => Ok []
  | root :: roots => root ← RootPublicKey_from_hex root; roots ← parse_roots roots; mret (root :: roots)
  end.

Definition ClientConfig_read (path : bytes) : M AuthFs ClientConfig :=
  parsed ← ParsedConfig_read path;
  if negb (bool_decide (pc_role parsed = Some (bstr "client")))
  then throw (from_static "session auth config role must be client")
  else
    private_key ← lift (config_required (pc_private_key parsed) "private-key");
    access ← lift (parse_private_key_access (pc_private_key_access parsed));
    roots ← lift (parse_roots (pc_roots parsed));
    certificate ← lift (config_required (pc_certificate parsed) "certificate");
    private_key ← read_with_access (resolve_path path private_key) access;
    certificate ← Certificate_read (resolve_path path certificate);
    lift (client_with_certificate (ClientConfig_mk private_key None (dedupe_roots roots)) certificate).

Definition ServerConfig_new (domain private_key : bytes) (roots : list bytes) : Result ServerConfig :=
  _ ← validate_p9any_domain domain;
  match dedupe_roots roots with
  | [] => Err (from_static "server session auth config requires at least one root")
  | roots => Ok (ServerConfig_mk domain private_key None roots)
  end.

(** [with_certificate] of a server: the certificate is one of its own key and names
    its domain. *)
Definition server_with_certificate (c : ServerConfig) (certificate : Certificate) : Result ServerConfig :=
  own ← derive_public_key (sv_private_key c);
  if negb (bool_decide (cb_key (ct_body certificate) = own))
  then Err (error_text [bstr "certificate for "; cb_name (ct_body certificate);
                        bstr " was issued for another session key"])
  else if negb (bool_decide (cb_name (ct_body certificate) = sv_domain c))
  then Err (error_text [bstr "certificate names "; cb_name (ct_body certificate);
                        bstr " but this server serves domain "; sv_domain c])
  else Ok (ServerConfig_mk (sv_domain c) (sv_private_key c) (Some certificate) (sv_roots c)).

Definition ServerConfig_read (path : bytes) : M AuthFs ServerConfig :=
  parsed ← ParsedConfig_read path;
  if negb (bool_decide (pc_role parsed = Some (bstr "server")))
  then throw (from_static "session auth config role must be server")
  else
    private_key ← lift (config_required (pc_private_key parsed) "private-key");
    access ← lift (parse_private_key_access (pc_private_key_access parsed));
    roots ← lift (parse_roots (pc_roots parsed));
    domain ← lift (config_required (pc_domain parsed) "domain");
    private_key ← read_with_access (resolve_path path private_key) access;
    config ← lift (ServerConfig_new domain private_key roots);
    certificate ← lift (config_required (pc_certificate parsed) "certificate");
    certificate ← Certificate_read (resolve_path path certificate);
    lift (server_with_certificate config certificate).

End config.
