(* ===== verification/AuthStream.v ===== *)
(** The authenticated connection: [crates/auth/src/p9any.rs], [handshake.rs],
    [peercred.rs] and [stream.rs].

    A [TcpStream] is what the network will deliver, what was written to it and the
    options set on it; the calls that set options may fail.  The clock and the
    randomness of a handshake are arguments.  No lock is poisoned. *)
From S2P Require Import Prelude Errors Utf8 Referral NamespaceCache Text Endpoint ExportDescriptor FrameIO AuthCert.

(** ** The stream *)

Record TcpStream := TcpStream_mk {
  tcp_in : Reader;
  tcp_out : Writer;
  tcp_nodelay : bool;
  tcp_read_timeout : option Z;
  tcp_write_timeout : option Z;
  tcp_shut : bool;                     (* [shutdown] was called *)
  tcp_options : list (option bytes);   (* the failures the next option calls meet *)
}.

Definition set_in (r : Reader) (s : TcpStream) : TcpStream :=
  TcpStream_mk r (tcp_out s) (tcp_nodelay s) (tcp_read_timeout s) (tcp_write_timeout s) (tcp_shut s) (tcp_options s).
Definition set_out (w : Writer) (s : TcpStream) : TcpStream :=
  TcpStream_mk (tcp_in s) w (tcp_nodelay s) (tcp_read_timeout s) (tcp_write_timeout s) (tcp_shut s) (tcp_options s).
Definition shutdown_transport (s : TcpStream) : TcpStream :=
  TcpStream_mk (tcp_in s) (tcp_out s) (tcp_nodelay s) (tcp_read_timeout s) (tcp_write_timeout s) true (tcp_options s).

Definition tcp_read (n : nat) (s : TcpStream) : (IoError + bytes) * TcpStream :=
  let '(r, reader) := FrameIO.read n (tcp_in s) in (r, set_in reader s).

Definition tcp_read_exact (n : nat) (s : TcpStream) : (IoError + bytes) * TcpStream :=
  let '(r, reader) := FrameIO.read_exact n (tcp_in s) in (r, set_in reader s).

Definition outcome (o : option IoError) : IoError + unit := match o with Some e => inl e | None => inr () end.

Definition tcp_write_all (bs : bytes) (s : TcpStream) : (IoError + unit) * TcpStream :=
  let '(o, w) := FrameIO.write_all bs (tcp_out s) in (outcome o, set_out w s).

Definition tcp_flush (s : TcpStream) : (IoError + unit) * TcpStream :=
  let '(o, w) := flush_writer (tcp_out s) in (outcome o, set_out w s).

(** [a.and_then(|()| b)] *)
Definition io_then {S A} (a : S → (IoError + unit) * S) (b : S → (IoError + A) * S) (s : S) : (IoError + A) * S :=
  match a s with (inr _, s) => b s | (inl e, s) => (inl e, s) end.

(** [call.map_err(|error| Error::from(format!("{context}: {error}")))] *)
Definition io_context {S A} (context : bytes) (call : S → (IoError + A) * S) : M S A := λ s,
  match call s with
  | (inr a, s) => (Ok a, s)
  | (inl e, s) => (Err (error_text [context; bstr ": "; io_display e]), s)
  end.

(** A call on the socket's options *)
Definition sockopt {A} (context : string) (f : TcpStream → A * TcpStream) : M TcpStream A := λ s,
  let rest := TcpStream_mk (tcp_in s) (tcp_out s) (tcp_nodelay s) (tcp_read_timeout s) (tcp_write_timeout s)
                (tcp_shut s) (tail (tcp_options s)) in
  match tcp_options s with
  | Some text :: _ => (Err (error_text [bstr context; bstr ": "; text]), rest)
  | _ => let '(a, s) := f rest in (Ok a, s)
  end.

Definition set_read_timeout (t : option Z) (s : TcpStream) : unit * TcpStream :=
  ((), TcpStream_mk (tcp_in s) (tcp_out s) (tcp_nodelay s) t (tcp_write_timeout s) (tcp_shut s) (tcp_options s)).
Definition set_write_timeout (t : option Z) (s : TcpStream) : unit * TcpStream :=
  ((), TcpStream_mk (tcp_in s) (tcp_out s) (tcp_nodelay s) (tcp_read_timeout s) t (tcp_shut s) (tcp_options s)).
Definition set_nodelay (s : TcpStream) : unit * TcpStream :=
  ((), TcpStream_mk (tcp_in s) (tcp_out s) true (tcp_read_timeout s) (tcp_write_timeout s) (tcp_shut s) (tcp_options s)).

(** ** handshake.rs: the transport *)

Record AuthenticationTimeouts := AuthenticationTimeouts_mk { to_read : option Z; to_write : option Z }.

Definition configure_authentication_transport : M TcpStream unit := sockopt "set TCP_NODELAY" set_nodelay.

Definition install_authentication_timeout (timeout : Z) : M TcpStream AuthenticationTimeouts :=
  if timeout =? 0 then throw (from_static "authentication handshake timeout must be nonzero")
  else
    read ← sockopt "read TCP timeout" (λ s, (tcp_read_timeout s, s));
    write ← sockopt "read TCP timeout" (λ s, (tcp_write_timeout s, s));
    _ ← sockopt "set authentication handshake timeout" (set_read_timeout (Some timeout));
    _ ← sockopt "set authentication handshake timeout" (set_write_timeout (Some timeout));
    mret (AuthenticationTimeouts_mk read write).

Definition restore_authentication_timeouts (timeouts : AuthenticationTimeouts) : M TcpStream unit :=
  _ ← sockopt "restore TCP timeout" (set_read_timeout (to_read timeouts));
  sockopt "restore TCP timeout" (set_write_timeout (to_write timeouts)).

(** ** p9any.rs *)

Definition P9ANY_VERSION : bytes := bstr "v.2".
Definition AUTH_PROTOCOL_XX : bytes := P9ANY_NOISE_XX.
Definition MAX_NEGOTIATION_BYTES : Z := 2048.

Definition write_nul_string (value : bytes) : M TcpStream unit :=
  if (MAX_NEGOTIATION_BYTES <? vlen value) || contains x00 value
  then throw (from_static "invalid p9any negotiation string")
  else io_context (bstr "write p9any negotiation")
         (io_then (tcp_write_all value) (io_then (tcp_write_all [x00]) tcp_flush)).

(** A string longer than the limit is refused, so the fuel is never used up. *)
Fixpoint read_nul_loop (fuel : nat) (label bs : bytes) : M TcpStream bytes :=
  match fuel with
  | O => throw (error_text [label; bstr " exceeds "; dec MAX_NEGOTIATION_BYTES; bstr " bytes"])
  | S fuel =>
      byte ← io_context (bstr "read " ++ label) (tcp_read_exact 1);
      match byte with
      | [b] =>
          if bool_decide (b = x00) then mret bs
          else if vlen bs =? MAX_NEGOTIATION_BYTES
          then throw (error_text [label; bstr " exceeds "; dec MAX_NEGOTIATION_BYTES; bstr " bytes"])
          else read_nul_loop fuel label (bs ++ [b])
      | _ => throw unreachable_error
      end
  end.

Definition read_nul_string (label : string) : M TcpStream bytes :=
  bs ← read_nul_loop (Z.to_nat (MAX_NEGOTIATION_BYTES + 1)) (bstr label) [];
  lift (ok_or (from_utf8 bs) (error_text [bstr label; bstr " is not utf-8"])).

Definition negotiate_server (domain : bytes) : M TcpStream unit :=
  _ ← write_nul_string (P9ANY_VERSION ++ [x20] ++ AUTH_PROTOCOL_XX ++ [x40] ++ domain);
  selection ← read_nul_string "p9any protocol selection";
  if negb (bool_decide (selection = AUTH_PROTOCOL_XX ++ [x20] ++ domain))
  then throw (from_static "p9any client selected an unsupported protocol")
  else write_nul_string (bstr "OK").

Definition negotiate_client (domain : bytes) : M TcpStream unit :=
  offer ← read_nul_string "p9any protocol offer";
  match split_ascii_whitespace offer with
  | version :: fields =>
      if negb (bool_decide (version = P9ANY_VERSION)) then throw (from_static "p9any server did not offer version 2")
      else if negb (bool_decide ((AUTH_PROTOCOL_XX ++ [x40] ++ domain) ∈ fields))
      then throw (error_text [bstr "p9any server offered nothing this client can speak for domain "; domain])
      else
        _ ← write_nul_string (AUTH_PROTOCOL_XX ++ [x20] ++ domain);
        response ← read_nul_string "p9any selection response";
        if bool_decide (response = bstr "OK") then mret ()
        else throw (from_static "p9any server rejected protocol selection")
  | [] => throw (from_static "p9any server did not offer version 2")
  end.

(** ** handshake.rs *)

Definition MAX_CERTIFICATE_BYTES : Z := 8192.

Record PeerIdentity := PeerIdentity_mk { pi_principal : bytes; pi_public_key : bytes; pi_groups : list bytes }.

Definition PeerIdentity_new (principal public_key : bytes) : Result PeerIdentity :=
  _ ← validate_principal principal; mret (PeerIdentity_mk principal public_key []).

Definition in_group (p : PeerIdentity) (group : bytes) : bool := bool_decide (group ∈ pi_groups p).

(** [u16::from_be_bytes] *)
Definition be_val (bs : bytes) : Z := le_val (rev bs).

Definition prologue (domain : bytes) : bytes := CONFIG_FORMAT ++ [x00] ++ domain.

Definition auth_write_frame (message : bytes) : M TcpStream unit :=
  length ← lift (ok_or (try_from u16_max (vlen message)) (from_static "Noise handshake message exceeds framing limit"));
  io_context (bstr "write authentication message")
    (io_then (tcp_write_all (be_bytes 2 length)) (io_then (tcp_write_all message) tcp_flush)).

Definition auth_read_frame (label : string) : M TcpStream bytes :=
  encoded_len ← io_context (bstr "read " ++ bstr label ++ bstr " length") (tcp_read_exact 2);
  let length := be_val encoded_len in
  if length =? 0 then throw (error_text [bstr label; bstr " is empty"])
  else io_context (bstr "read " ++ bstr label) (tcp_read_exact (Z.to_nat length)).

Section handshake.
Context `{!Ed25519} `{!Noise}.

(** A step of the handshake: an error is reported, the state goes on. *)
Definition hs_step {A} (context : string) (f : Handshake → (bytes + A) * Handshake) (h : Handshake) :
    Result (A * Handshake) :=
  let '(r, h) := f h in a ← noise_error context r; mret (a, h).

Definition noise_params_xx : Result Params := noise_error "parse Noise XX pattern" (noise_parse NOISE_PATTERN_XX).

(** The builder of both sides; they differ in its last call and in a text. *)
Definition build_handshake (domain_prologue private_key : bytes) (key_context build_context : string)
    (build : Builder → bytes + Handshake) : Result Handshake :=
  params ← noise_params_xx;
  builder ← noise_error "configure authentication domain" (builder_prologue domain_prologue (builder_new params));
  builder ← noise_error key_context (builder_private_key private_key builder);
  noise_error build_context (build builder).

Definition finish_handshake (h : Handshake) : Result Transport :=
  if negb (is_handshake_finished h) then Err (from_static "Noise authentication handshake is incomplete")
  else noise_error "enter encrypted transport mode" (into_stateless_transport_mode h).

(** The loop over the roots of both sides: the last refusal is reported. *)
Fixpoint verify_any (certificate : Certificate) (now : Z) (roots : list bytes) (refusal : Error) : Result unit :=
  match roots with
  | [] => Err refusal
  | root :: roots =>
      match verify certificate root now with
      | Ok _ => Ok ()
      | Err error => verify_any certificate now roots error
      end
  end.

Definition verify_responder (clock : Result Z) (config : ClientConfig) (body responder_key domain : bytes) : Result unit :=
  if MAX_CERTIFICATE_BYTES <? vlen body
  then Err (error_text [bstr "responder certificate exceeds "; dec MAX_CERTIFICATE_BYTES; bstr " bytes"])
  else
    text ← ok_or (from_utf8 body) (from_static "responder certificate is not utf-8");
    certificate ← Certificate_parse text;
    if negb (bool_decide (cb_key (ct_body certificate) = responder_key))
    then Err (error_text [bstr "responder certificate for "; cb_name (ct_body certificate);
                          bstr " was issued for a different key"])
    else if negb (bool_decide (cb_name (ct_body certificate) = domain))
    then Err (error_text [bstr "asked for "; domain; bstr " but the responder proved it is ";
                          cb_name (ct_body certificate)])
    else
      now ← clock;
      verify_any certificate now (cl_roots config) (from_static "responder certificate was not accepted").

Definition certified_identity (clock : Result Z) (config : ServerConfig) (body public_key : bytes) : Result PeerIdentity :=
  if bool_decide (sv_roots config = [])
  then Err (from_static "client presented a certificate but this server accepts none")
  else if MAX_CERTIFICATE_BYTES <? vlen body
  then Err (error_text [bstr "presented certificate exceeds "; dec MAX_CERTIFICATE_BYTES; bstr " bytes"])
  else
    text ← ok_or (from_utf8 body) (from_static "presented certificate is not utf-8");
    certificate ← Certificate_parse text;
    if negb (bool_decide (cb_key (ct_body certificate) = public_key))
    then Err (error_text [bstr "certificate for "; cb_name (ct_body certificate);
                          bstr " was issued for a different session key"])
    else
      now ← clock;
      _ ← verify_any certificate now (sv_roots config) (from_static "presented certificate was not accepted");
      mret (PeerIdentity_mk (cb_name (ct_body certificate)) public_key (cb_groups (ct_body certificate))).

Definition client_xx (entropy : Entropy) (clock : Result Z) (config : ClientConfig) (domain principal prologue : bytes) :
    M TcpStream Transport :=
  certificate ← lift (ok_or (cl_certificate config) (from_static "XX requires a client certificate"));
  if negb (bool_decide (cb_name (ct_body certificate) = principal))
  then throw (error_text [bstr "certificate names "; cb_name (ct_body certificate);
                          bstr " but the session asked for "; principal])
  else
    h ← lift (build_handshake prologue (cl_private_key config) "configure client private key"
                "create Noise initiator" (build_initiator entropy));
    '(first, h) ← lift (hs_step "write client hello" (hs_write_message []) h);
    _ ← auth_write_frame first;
    second ← auth_read_frame "server identity message";
    '(payload, h) ← lift (hs_step "read server identity message" (hs_read_message second) h);
    key ← lift (ok_or (get_remote_static h) (from_static "Noise handshake did not carry a server key"));
    responder_key ← lift (PublicKey_from_bytes key);
    _ ← lift (verify_responder clock config payload responder_key domain);
    '(third, h) ← lift (hs_step "write client identity message" (hs_write_message (Certificate_render certificate)) h);
    _ ← auth_write_frame third;
    lift (finish_handshake h).

Definition server_xx (entropy : Entropy) (clock : Result Z) (config : ServerConfig) (prologue : bytes) :
    M TcpStream (PeerIdentity * Transport) :=
  own ← lift (ok_or (sv_certificate config) (from_static "XX requires this server to hold a certificate"));
  h ← lift (build_handshake prologue (sv_private_key config) "configure server private key"
              "create Noise responder" (build_responder entropy));
  first ← auth_read_frame "client hello";
  '(_, h) ← lift (hs_step "read client hello" (hs_read_message first) h);
  '(second, h) ← lift (hs_step "write server identity message" (hs_write_message (Certificate_render own)) h);
  _ ← auth_write_frame second;
  third ← auth_read_frame "client identity message";
  '(payload, h) ← lift (hs_step "read client identity message" (hs_read_message third) h);
  key ← lift (ok_or (get_remote_static h) (from_static "Noise handshake did not authenticate a client key"));
  public_key ← lift (PublicKey_from_bytes key);
  identity ← lift (certified_identity clock config payload public_key);
  transport ← lift (finish_handshake h);
  mret (identity, transport).

(** ** stream.rs *)

Definition AUTH_TAG_BYTES : Z := 16.
Definition MAX_CIPHERTEXT_BYTES : Z := u16_max.
Definition MAX_PLAINTEXT_BYTES : Z := MAX_CIPHERTEXT_BYTES - AUTH_TAG_BYTES.

(** The stream with the two states its clones share. *)
Record SecureStream := SecureStream_mk {
  ss_stream : TcpStream;
  ss_transport : Transport;
  rs_nonce : Z;
  rs_plaintext : bytes;
  rs_offset : Z;
  ws_nonce : Z;
}.

Definition SecureStream_new (stream : TcpStream) (transport : Transport) : SecureStream :=
  SecureStream_mk stream transport 0 [] 0 0.

Definition set_stream (t : TcpStream) (s : SecureStream) : SecureStream :=
  SecureStream_mk t (ss_transport s) (rs_nonce s) (rs_plaintext s) (rs_offset s) (ws_nonce s).
Definition set_read_state (nonce : Z) (plaintext : bytes) (offset : Z) (s : SecureStream) : SecureStream :=
  SecureStream_mk (ss_stream s) (ss_transport s) nonce plaintext offset (ws_nonce s).
Definition set_write_nonce (nonce : Z) (s : SecureStream) : SecureStream :=
  SecureStream_mk (ss_stream s) (ss_transport s) (rs_nonce s) (rs_plaintext s) (rs_offset s) nonce.

Definition on_stream {A} (f : TcpStream → A * TcpStream) (s : SecureStream) : A * SecureStream :=
  let '(a, t) := f (ss_stream s) in (a, set_stream t s).
Definition shut (s : SecureStream) : SecureStream := set_stream (shutdown_transport (ss_stream s)) s.

Definition invalid_data (text : bytes) : IoError := IoError_mk InvalidData text.
Definition noise_io_error (text : bytes) : IoError := invalid_data (bstr "encrypted 9P record: " ++ text).

Definition next_nonce (nonce : Z) : IoError + Z :=
  match checked_add u64_max nonce 1 with
  | Some n => inr n
  | None => inl (invalid_data (bstr "encrypted 9P session exhausted its record nonce"))
  end.

Definition read_record (s : SecureStream) : (IoError + bool) * SecureStream :=
  match on_stream (tcp_read 1) s with
  | (inl e, s) => (inl e, s)
  | (inr [], s) => (inr false, s)
  | (inr high, s) =>
      match on_stream (tcp_read_exact 1) s with
      | (inl e, s) => (inl e, s)
      | (inr low, s) =>
          let ciphertext_len := be_val (high ++ low) in
          if ciphertext_len <? AUTH_TAG_BYTES
          then (inl (invalid_data (bstr "encrypted 9P record is shorter than its authentication tag")), shut s)
          else
            match on_stream (tcp_read_exact (Z.to_nat ciphertext_len)) s with
            | (inl e, s) => (inl e, s)
            | (inr ciphertext, s) =>
                match tr_read_message (ss_transport s) (rs_nonce s) ciphertext with
                | inl text => (inl (noise_io_error text), shut s)
                | inr plaintext =>
                    match next_nonce (rs_nonce s) with
                    | inl e => (inl e, shut s)
                    | inr nonce => (inr true, set_read_state nonce plaintext 0 s)
                    end
                end
            end
      end
  end.

(** [Read::read] with [n] bytes of output; a turn of the loop that goes on has taken
    a record from the stream, so what the stream holds is fuel enough
    ([secure_read_total]). *)
Fixpoint secure_read_loop (fuel : nat) (n : Z) (s : SecureStream) : option ((IoError + bytes) * SecureStream) :=
  match fuel with
  | O => None
  | S fuel =>
      if rs_offset s <? vlen (rs_plaintext s) then
        let count := Z.min n (saturating_sub (vlen (rs_plaintext s)) (rs_offset s)) in
        let data := ztake count (zdrop (rs_offset s) (rs_plaintext s)) in
        let offset := rs_offset s + count in
        Some (inr data,
              if offset =? vlen (rs_plaintext s) then set_read_state (rs_nonce s) [] 0 s
              else set_read_state (rs_nonce s) (rs_plaintext s) offset s)
      else
        match read_record s with
        | (inl e, s) => Some (inl e, s)
        | (inr false, s) => Some (inr [], s)
        | (inr true, s) => secure_read_loop fuel n s
        end
  end.

Definition secure_read (n : Z) (s : SecureStream) : (IoError + bytes) * SecureStream :=
  if n =? 0 then (inr [], s)
  else default (inr [], s) (secure_read_loop (S (S (reader_fuel (tcp_in (ss_stream s))))) n s).

Definition secure_write (input : bytes) (s : SecureStream) : (IoError + Z) * SecureStream :=
  if bool_decide (input = []) then (inr 0, s)
  else
    let count := Z.min (vlen input) MAX_PLAINTEXT_BYTES in
    match tr_write_message (ss_transport s) (ws_nonce s) (ztake count input) with
    | inl text => (inl (noise_io_error text), shut s)
    | inr ciphertext =>
        match try_from u16_max (vlen ciphertext) with
        | None => (inl (invalid_data (bstr "encrypted 9P record exceeds its framing limit")), shut s)
        | Some encoded_len =>
            match next_nonce (ws_nonce s) with
            | inl e => (inl e, shut s)
            | inr nonce =>
                match on_stream (io_then (tcp_write_all (be_bytes 2 encoded_len)) (tcp_write_all ciphertext))
                        (set_write_nonce nonce s) with
                | (inl e, s) => (inl e, shut s)
                | (inr _, s) => (inr count, s)
                end
            end
        end
    end.

Definition secure_flush (s : SecureStream) : (IoError + unit) * SecureStream := on_stream tcp_flush s.

(** ** The two sides *)

Definition authenticate_client_to (entropy : Entropy) (clock : Result Z) (config : ClientConfig)
    (domain principal : bytes) (timeout : Z) : M TcpStream SecureStream :=
  _ ← configure_authentication_transport;
  _ ← lift (validate_principal principal);
  previous ← install_authentication_timeout timeout;
  _ ← negotiate_client domain;
  transport ← client_xx entropy clock config domain principal (prologue domain);
  _ ← restore_authentication_timeouts previous;
  gets (λ stream, SecureStream_new stream transport).

Record AuthenticatedSession := AuthenticatedSession_mk { as_stream : SecureStream; as_peer : PeerIdentity }.

Definition authenticate_server (entropy : Entropy) (clock : Result Z) (config : ServerConfig) (timeout : Z) :
    M TcpStream AuthenticatedSession :=
  _ ← configure_authentication_transport;
  previous ← install_authentication_timeout timeout;
  _ ← negotiate_server (sv_domain config);
  '(peer, transport) ← server_xx entropy clock config (prologue (sv_domain config));
  _ ← restore_authentication_timeouts previous;
  gets (λ stream, AuthenticatedSession_mk (SecureStream_new stream transport) peer).

End handshake.

(** ** peercred.rs *)

Inductive TransportIdentity :=
| LocalIdentity
| Certified (principal : bytes)
| UnixPeer (uid : Z) (same_user : bool).

Definition certified_transport (peer : PeerIdentity) : TransportIdentity := Certified (pi_principal peer).

(** [credentials] is what the kernel says about the peer, [euid] who runs. *)
Definition unix_peer (credentials : bytes + Z) (euid : Z) : Result TransportIdentity :=
  uid ← noise_error "read unix peer credentials" credentials;
  mret (UnixPeer uid (uid =? euid)).

Definition same_user_local (credentials : bytes + Z) (euid : Z) : Result TransportIdentity :=
  identity ← unix_peer credentials euid;
  match identity with
  | UnixPeer _ same_user => if same_user then Ok LocalIdentity else Err (from_static EPERM)
  | _ => Err unreachable_error
  end.

Definition subject_id (i : TransportIdentity) : bytes :=
  match i with
  | LocalIdentity => bstr "local-trust"
  | Certified principal => bstr "r9p-cert:" ++ principal
  | UnixPeer uid _ => bstr "unix-peer:uid:" ++ dec uid
  end.

Definition subject_ids (i : TransportIdentity) : list bytes :=
  match i with
  | UnixPeer _ true => [subject_id i; bstr "unix-peer:same-user"]
  | _ => [subject_id i]
  end.

Definition certified_principal (i : TransportIdentity) : option bytes :=
  match i with Certified principal => Some principal | _ => None end.

Definition transport_authorizes_uname (i : TransportIdentity) (_ : bytes) : bool :=
  match i with LocalIdentity => true | _ => false end.
