(* ===== verification/AuthProps.v ===== *)
(** What certificates and authenticated connections guarantee: theorems on AuthCert.v
    and AuthStream.v. *)
From stdpp Require Import sorting.
From S2P Require Import Prelude Errors Utf8 Referral NamespaceCache Text Endpoint ExportDescriptor ExportDescriptorProps FrameIO AuthCert AuthStream.

(** ** Hexadecimal *)

Lemma decode_pairs_encode bs label : decode_pairs (encode_hex bs) label = Ok bs.
Proof.
  induction bs as [|b bs IH]; [done|]. change (encode_hex (b :: bs)) with
    ([hex_char (Z.shiftr (byte_to_Z b) 4); hex_char (Z.land (byte_to_Z b) 15)] ++ encode_hex bs).
  cbn [app decode_pairs]. rewrite IH. by destruct b.
Qed.

Lemma vlen_encode_hex bs : vlen (encode_hex bs) = 2 * vlen bs.
Proof.
  induction bs as [|b bs IH]; [done|]. change (encode_hex (b :: bs)) with
    ([hex_char (Z.shiftr (byte_to_Z b) 4); hex_char (Z.land (byte_to_Z b) 15)] ++ encode_hex bs).
  rewrite vlen_app, IH. unfold vlen. simpl length. lia.
Qed.

Lemma decode_encode_hex n bs label : vlen bs = n → decode_hex n (encode_hex bs) label = Ok bs.
Proof.
  intros <-. unfold decode_hex. rewrite vlen_encode_hex, Z.mul_comm, Z.eqb_refl. apply decode_pairs_encode.
Qed.

(** ** The signed bytes *)

Lemma be_bytes_inj n a b : 0 ≤ a < 256 ^ Z.of_nat n → 0 ≤ b < 256 ^ Z.of_nat n → be_bytes n a = be_bytes n b → a = b.
Proof.
  intros Ha Hb E%(f_equal (@rev byte)). unfold be_bytes in E. rewrite !rev_involutive in E.
  apply (f_equal le_val) in E. by rewrite !le_val_le_bytes in E.
Qed.

Lemma length_be_bytes n z : length (be_bytes n z) = n.
Proof. unfold be_bytes. by rewrite length_rev, length_le_bytes. Qed.

Definition framed (bs : bytes) : bytes := be_bytes 4 (vlen bs) ++ bs.

Lemma push_framed_Ok out bs r : push_framed out bs = Ok r ↔ vlen bs ≤ u32_max ∧ r = out ++ framed bs.
Proof.
  unfold push_framed, framed, try_from. pose proof (vlen_nonneg bs).
  destruct (Z.leb_spec 0 (vlen bs)), (Z.leb_spec (vlen bs) u32_max); simpl; try lia.
  - split; [intros [= <-]; done|intros [_ ->]; done].
  - split; [done|]. intros [? _]. lia.
Qed.

Lemma push_groups_Ok out groups r :
  push_groups out groups = Ok r ↔ Forall (λ g, vlen g ≤ u32_max) groups ∧ r = out ++ concat (framed <$> groups).
Proof.
  revert out. induction groups as [|g groups IH]; intros out; cbn [push_groups fmap list_fmap concat].
  - rewrite app_nil_r. split; [intros [= <-]; by split|by intros [_ ->]].
  - rewrite Result_bind_Ok, Forall_cons. setoid_rewrite push_framed_Ok. setoid_rewrite IH. split.
    + intros (o & [? ->] & ? & ->). rewrite <-app_assoc. done.
    + intros [[? ?] ->]. eexists. split; [done|]. by rewrite <-app_assoc.
Qed.

(** What [signing_input] makes of a body. *)
Definition signed_bytes (b : CertificateBody) : bytes :=
  framed CERT_FORMAT ++ framed (cb_name b) ++ framed (cb_key b) ++ be_bytes 4 (vlen (cb_groups b)) ++
  concat (framed <$> cb_groups b) ++ be_bytes 8 (cb_not_before b) ++ be_bytes 8 (cb_not_after b) ++ framed (cb_issuer b).

Definition small (b : CertificateBody) : Prop :=
  vlen (cb_name b) ≤ u32_max ∧ vlen (cb_key b) ≤ u32_max ∧ vlen (cb_groups b) ≤ u32_max ∧
  Forall (λ g, vlen g ≤ u32_max) (cb_groups b) ∧ vlen (cb_issuer b) ≤ u32_max.

Lemma signing_input_Ok b m : signing_input b = Ok m ↔ small b ∧ m = signed_bytes b.
Proof.
  pose proof (vlen_nonneg (cb_groups b)). unfold signing_input. split.
  - intros E. inv_ok. repeat match goal with
      | H : push_framed _ _ = Ok _ |- _ => apply push_framed_Ok in H as [? ->]
      | H : push_groups _ _ = Ok _ |- _ => apply push_groups_Ok in H as [? ->]
      end. unfold small, signed_bytes, in_range in *. rewrite <-!app_assoc. naive_solver lia.
  - intros [(H1 & H2 & H3 & H4 & H5) ->]. 
    assert (H0 : vlen CERT_FORMAT ≤ u32_max) by (vm_compute; congruence).
    rewrite (proj2 (push_framed_Ok [] CERT_FORMAT _) (conj H0 eq_refl)).
    cbn [mbind Result_bind]. rewrite (proj2 (push_framed_Ok _ (cb_name b) _) (conj H1 eq_refl)). cbn [mbind Result_bind].
    rewrite (proj2 (push_framed_Ok _ (cb_key b) _) (conj H2 eq_refl)). cbn [mbind Result_bind].
    rewrite try_from_in by lia. cbn [ok_or mbind Result_bind].
    rewrite (proj2 (push_groups_Ok _ (cb_groups b) _) (conj H4 eq_refl)). cbn [mbind Result_bind].
    apply push_framed_Ok. split; [done|]. unfold signed_bytes. by rewrite <-!app_assoc.
Qed.

Lemma framed_inj a b x y : vlen a ≤ u32_max → vlen b ≤ u32_max → framed a ++ x = framed b ++ y → a = b ∧ x = y.
Proof.
  intros Ha Hb E. unfold framed in E. rewrite <-!app_assoc in E. pose proof (vlen_nonneg a). pose proof (vlen_nonneg b).
  apply app_inj_1 in E as [E1 E]; [|by rewrite !length_be_bytes].
  apply be_bytes_inj in E1; [|unfold u32_max in *; simpl; lia|unfold u32_max in *; simpl; lia].
  apply app_inj_1 in E; [done|]. unfold vlen in E1. lia.
Qed.

Lemma framed_groups_inj l l' x y : length l = length l' →
  Forall (λ g, vlen g ≤ u32_max) l → Forall (λ g, vlen g ≤ u32_max) l' →
  concat (framed <$> l) ++ x = concat (framed <$> l') ++ y → l = l' ∧ x = y.
Proof.
  intros Hl H. revert l' Hl. induction H as [|g l Hg _ IH]; intros [|g' l'] Hl H' E; try done.
  apply Forall_cons in H' as [Hg' H']. rewrite !fmap_cons in E. cbn [concat] in E. rewrite <-!app_assoc in E.
  apply framed_inj in E as [-> E]; [|done|done]. apply IH in E as [-> ->]; [done|by injection Hl|done].
Qed.

Definition window_typed (b : CertificateBody) : Prop := is_u64 (cb_not_before b) ∧ is_u64 (cb_not_after b).

(** What was signed determines the certificate: no field boundary can be moved, and no
    group, time or key exchanged. *)
Lemma signed_bytes_inj b b' :
  small b → small b' → window_typed b → window_typed b' → signed_bytes b = signed_bytes b' → b = b'.
Proof.
  destruct b as [n k g nb na i], b' as [n' k' g' nb' na' i']. unfold small, window_typed, signed_bytes, in_range. simpl.
  intros (? & ? & ? & ? & ?) (? & ? & ? & ? & ?) [? ?] [? ?] E. apply app_inv_head in E.
  apply framed_inj in E as [-> E]; [|done|done]. apply framed_inj in E as [-> E]; [|done|done].
  apply app_inj_1 in E as [E1 E]; [|by rewrite !length_be_bytes]. pose proof (vlen_nonneg g). pose proof (vlen_nonneg g').
  apply be_bytes_inj in E1; [|unfold u32_max in *; simpl; lia|unfold u32_max in *; simpl; lia].
  apply framed_groups_inj in E as [-> E]; [|unfold vlen in E1; lia|done|done].
  apply app_inj_1 in E as [E2 E]; [|by rewrite !length_be_bytes].
  apply be_bytes_inj in E2; [|unfold u64_max in *; simpl; lia|unfold u64_max in *; simpl; lia].
  apply app_inj_1 in E as [E3 E]; [|by rewrite !length_be_bytes].
  apply be_bytes_inj in E3; [|unfold u64_max in *; simpl; lia|unfold u64_max in *; simpl; lia].
  assert (E4 : framed i ++ [] = framed i' ++ []) by (by rewrite E). apply framed_inj in E4 as [-> _]; [|done|done]. by subst.
Qed.

(** ** Verification *)

Section verification.
Context `{!Ed25519} `{!Noise}.

Lemma parse_seconds_typed value field n : parse_seconds value field = Ok n → is_u64 n.
Proof.
  unfold parse_seconds. intros E%ok_or_Ok. unfold parse_u64 in E. apply parse_uint_range in E; [done|].
  unfold u64_max. lia.
Qed.

Lemma body_new_Ok name key groups nb na issuer b :
  CertificateBody_new name key groups nb na issuer = Ok b →
  validate_label name "certificate name" = Ok () ∧ collect_groups groups [] = Ok (cb_groups b) ∧
  vlen (cb_groups b) ≤ MAX_GROUPS ∧ nb < na ∧ b = CertificateBody_mk name key (cb_groups b) nb na issuer.
Proof.
  unfold CertificateBody_new. intros E. inv_ok. destruct (Z.ltb_spec MAX_GROUPS (vlen x0)); [done|].
  destruct (Z.leb_spec na nb); [done|]. simplify_eq. destruct x. done.
Qed.

Lemma parsed_typed input c : Certificate_parse input = Ok c → window_typed (ct_body c).
Proof.
  unfold Certificate_parse. intros E. inv_ok. destruct (negb _); [done|]. inv_ok.
  repeat match goal with H : parse_seconds _ _ = Ok _ |- _ => apply parse_seconds_typed in H end.
  match goal with H : CertificateBody_new _ _ _ _ _ _ = Ok _ |- _ => apply body_new_Ok in H as (_ & _ & _ & _ & ->) end.
  done.
Qed.

Definition valid_at (b : CertificateBody) (now : Z) : Prop := cb_not_before b ≤ now < cb_not_after b.

Lemma verify_Ok c root now u : verify c root now = Ok u →
  cb_issuer (ct_body c) = root ∧ valid_at (ct_body c) now ∧
  ∃ m, signing_input (ct_body c) = Ok m ∧ verify_strict root m (ct_signature c) = true.
Proof.
  unfold verify. case_bool_decide as Ei; simpl; [|done]. intros E. inv_ok.
  destruct (verify_strict root x (ct_signature c)) eqn:Ev; [|done]. simpl in E.
  destruct (Z.ltb_spec now (cb_not_before (ct_body c))); [done|].
  destruct (Z.leb_spec (cb_not_after (ct_body c)) now); [done|]. split_and!; [done|unfold valid_at; lia|eauto].
Qed.

Lemma verify_any_Ok c now roots refusal u :
  verify_any c now roots refusal = Ok u → ∃ root, root ∈ roots ∧ verify c root now = Ok ().
Proof.
  revert refusal. induction roots as [|root roots IH]; intros refusal; cbn [verify_any]; [done|].
  destruct (verify c root now) as [[]|e] eqn:E.
  - intros _. exists root. split; [left|done].
  - intros (r & ? & ?)%IH. exists r. split; [by right|done].
Qed.

(** What the holder of each root has signed, and that nobody else can sign for it. *)
Context (issued : bytes → list CertificateBody).
Hypothesis issued_typed : ∀ root b, b ∈ issued root → window_typed b.
Hypothesis unforgeable : ∀ root m signature,
  verify_strict root m signature = true → ∃ b, b ∈ issued root ∧ signing_input b = Ok m.

(** [body] was issued by one of [roots] and is valid now. *)
Definition vouched (roots : list bytes) (clock : Result Z) (body : CertificateBody) : Prop :=
  ∃ root now, root ∈ roots ∧ clock = Ok now ∧ body ∈ issued root ∧ cb_issuer body = root ∧ valid_at body now.

Lemma verified_vouched input c now roots refusal u :
  Certificate_parse input = Ok c → verify_any c now roots refusal = Ok u → vouched roots (Ok now) (ct_body c).
Proof using issued_typed unforgeable.
  intros Hp (root & Hr & Hv)%verify_any_Ok. apply verify_Ok in Hv as (Hi & Hn & m & Hm & Hs).
  destruct (unforgeable _ _ _ Hs) as (b & Hb & Eb). apply signing_input_Ok in Hm as [H1 ->].
  apply signing_input_Ok in Eb as [H2 Eb]. apply signed_bytes_inj in Eb; [|done|done|by eapply parsed_typed|by eapply issued_typed].
  exists root, now. rewrite Eb in *. done.
Qed.

Lemma certified_identity_Ok clock config body key peer :
  certified_identity clock config body key = Ok peer →
  ∃ b, vouched (sv_roots config) clock b ∧ cb_key b = key ∧ peer = PeerIdentity_mk (cb_name b) (cb_key b) (cb_groups b).
Proof using issued_typed unforgeable.
  unfold certified_identity. case_bool_decide; [done|]. destruct (_ <? _); [done|]. intros E.
  apply Result_bind_Ok in E as (text & Ht & E). apply Result_bind_Ok in E as (c & Hc & E).
  case_bool_decide as Ek; simpl in E; [|done]. apply Result_bind_Ok in E as (now & -> & E).
  apply Result_bind_Ok in E as (u & Hv & [= <-]). exists (ct_body c). split; [by eapply verified_vouched|]. by subst.
Qed.

Lemma verify_responder_Ok clock config body key domain u :
  verify_responder clock config body key domain = Ok u →
  ∃ b, vouched (cl_roots config) clock b ∧ cb_key b = key ∧ cb_name b = domain.
Proof using issued_typed unforgeable.
  unfold verify_responder. destruct (_ <? _); [done|]. intros E.
  apply Result_bind_Ok in E as (text & Ht & E). apply Result_bind_Ok in E as (c & Hc & E).
  case_bool_decide as Ek; simpl in E; [|done]. case_bool_decide as En; simpl in E; [|done].
  apply Result_bind_Ok in E as (now & -> & E). exists (ct_body c). split; [by eapply verified_vouched|]. done.
Qed.

Lemma finish_handshake_Ok h t : finish_handshake h = Ok t →
  is_handshake_finished h = true ∧ into_stateless_transport_mode h = inr t.
Proof.
  unfold finish_handshake, noise_error. destruct (is_handshake_finished h); [|done]. simpl.
  destruct (into_stateless_transport_mode h); [done|]. by intros [= ->].
Qed.

Lemma public_key_Ok bs key : PublicKey_from_bytes bs = Ok key → key = bs.
Proof. unfold PublicKey_from_bytes, key_array. case_match; [|done]. by intros [= <-]. Qed.

Lemma auth_lift_Ok {S A} (r : Result A) (s s' : S) a : lift r s = (Ok a, s') → r = Ok a ∧ s' = s.
Proof. unfold lift. by intros [= -> ->]. Qed.

Ltac step E x s H :=
  apply M_bind_Ok in E as (x & s & H & E); try (apply auth_lift_Ok in H as [H ->]).

Lemma server_knows_peer entropy clock config timeout s session s' :
  authenticate_server entropy clock config timeout s = (Ok session, s') →
  ∃ body h, vouched (sv_roots config) clock body ∧
    as_peer session = PeerIdentity_mk (cb_name body) (cb_key body) (cb_groups body) ∧
    is_handshake_finished h = true ∧ get_remote_static h = Some (cb_key body) ∧
    into_stateless_transport_mode h = inr (ss_transport (as_stream session)).
Proof using issued_typed unforgeable.
  unfold authenticate_server. intros E. step E u1 s1 H1. step E previous s2 H2. step E u3 s3 H3.
  step E pt s4 H4. destruct pt as [peer transport]. step E u5 s5 H5. unfold gets in E. injection E as <- _. simpl.
  unfold server_xx in H4. step H4 own t1 K1. step H4 h0 t2 K2. step H4 hello t3 K3. step H4 x t4 K4. destruct x as [d h1].
  step H4 x t5 K5. destruct x as [second h2]. step H4 u6 t6 K6. step H4 third t7 K7. step H4 x t8 K8. destruct x as [payload h3].
  step H4 key t9 K9. step H4 public_key t10 K10. step H4 who t11 K11. step H4 tr t12 K12. injection H4 as <- <-.
  apply certified_identity_Ok in K11 as (b & Hb & Hk & ->). apply public_key_Ok in K10 as ->. apply ok_or_Ok in K9.
  apply finish_handshake_Ok in K12 as [Hf Ht]. exists b, h3. rewrite Hk. done.
Qed.

Lemma client_knows_responder entropy clock config domain principal timeout s stream s' :
  authenticate_client_to entropy clock config domain principal timeout s = (Ok stream, s') →
  ∃ body h third, vouched (cl_roots config) clock body ∧ cb_name body = domain ∧
    get_remote_static h = Some (cb_key body) ∧
    into_stateless_transport_mode (hs_write_message third h).2 = inr (ss_transport stream) ∧
    is_handshake_finished (hs_write_message third h).2 = true.
Proof using issued_typed unforgeable.
  unfold authenticate_client_to. intros E. step E u1 s1 H1. step E u2 s2 H2. step E previous s3 H3. step E u4 s4 H4.
  step E transport s5 H5. step E u6 s6 H6. unfold gets in E. injection E as <- _. simpl.
  unfold client_xx in H5. step H5 certificate t1 K1. case_bool_decide; simpl in H5; [|done]. step H5 h0 t2 K2.
  step H5 x t3 K3. destruct x as [hello h1]. step H5 u5 t4 K4. step H5 second t5 K5. step H5 x t6 K6.
  destruct x as [payload h2]. step H5 key t7 K7. step H5 rkey t8 K8. step H5 u9 t9 K9. step H5 x t10 K10.
  destruct x as [third h3]. step H5 u11 t11 K11. apply auth_lift_Ok in H5 as [H5 _].
  apply verify_responder_Ok in K9 as (b & Hb & Hk & Hn). apply public_key_Ok in K8 as ->. apply ok_or_Ok in K7.
  apply finish_handshake_Ok in H5 as [Hf Ht]. unfold hs_step in K10.
  destruct (hs_write_message (Certificate_render certificate) h2) as [r h4] eqn:Ew.
  apply Result_bind_Ok in K10 as (a & _ & [= -> ->]).
  exists b, h2, (Certificate_render certificate). rewrite Ew, Hk. done.
Qed.

(** C11: A server that accepts a client knows who it is: the name and the groups of the
    peer are those of a certificate that the holder of a trusted root issued and that
    is valid now, for the key that the other end of this encrypted connection has
    proved to hold.  A replayed certificate, one with a field exchanged and one of an
    unknown root are refused, whatever the network delivers. *)
Theorem admitted_peers_certified entropy clock config timeout s session s' :
  authenticate_server entropy clock config timeout s = (Ok session, s') →
  ∃ body h, vouched (sv_roots config) clock body ∧
    as_peer session = PeerIdentity_mk (cb_name body) (cb_key body) (cb_groups body) ∧
    is_handshake_finished h = true ∧ get_remote_static h = Some (cb_key body) ∧
    into_stateless_transport_mode h = inr (ss_transport (as_stream session)).
Proof using issued_typed unforgeable. apply server_knows_peer. Qed.

(** C20: A client that reaches a server knows that it is the one it asked for: the other
    end of the encrypted connection holds the key of a certificate that names the
    domain, that the holder of a trusted root issued and that is valid now. *)
Theorem responder_is_certified entropy clock config domain principal timeout s stream s' :
  authenticate_client_to entropy clock config domain principal timeout s = (Ok stream, s') →
  ∃ body h third, vouched (cl_roots config) clock body ∧ cb_name body = domain ∧
    get_remote_static h = Some (cb_key body) ∧
    into_stateless_transport_mode (hs_write_message third h).2 = inr (ss_transport stream) ∧
    is_handshake_finished (hs_write_message third h).2 = true.
Proof using issued_typed unforgeable. apply client_knows_responder. Qed.

End verification.

(** ** The encrypted stream *)

Section stream.
Context {noise : Noise}.

(** Reads of the given sizes, one after the other; one that fails is followed by the next. *)
Fixpoint read_run (sizes : list Z) (s : SecureStream) : bytes * SecureStream :=
  match sizes with
  | [] => ([], s)
  | n :: sizes =>
      let '(r, s) := secure_read n s in
      let '(data, s) := read_run sizes s in
      (match r with inr bs => bs | inl _ => [] end ++ data, s)
  end.

(** Writes one after the other: the plaintext of every record that was sent or that a
    failing write may have sent in part, which are those that used up a nonce. *)
Fixpoint write_run (inputs : list bytes) (s : SecureStream) : list bytes * SecureStream :=
  match inputs with
  | [] => ([], s)
  | input :: inputs =>
      let s' := (secure_write input s).2 in
      let '(records, s'') := write_run inputs s' in
      ((if ws_nonce s' =? ws_nonce s then [] else [ztake MAX_PLAINTEXT_BYTES input]) ++ records, s'')
  end.

(** The part of the stream's state that reading plaintext goes by. *)
Definition same_reading (s s' : SecureStream) : Prop :=
  ss_transport s' = ss_transport s ∧ rs_nonce s' = rs_nonce s ∧ rs_plaintext s' = rs_plaintext s ∧
  rs_offset s' = rs_offset s.

Lemma on_stream_same {A} (f : TcpStream → A * TcpStream) s : same_reading s (on_stream f s).2.
Proof. unfold on_stream. by destruct (f (ss_stream s)). Qed.

Lemma same_reading_trans s1 s2 s3 : same_reading s1 s2 → same_reading s2 s3 → same_reading s1 s3.
Proof. intros (? & ? & ? & ?) (? & ? & ? & ?). split_and!; congruence. Qed.

Lemma shut_same s : same_reading s (shut s).
Proof. done. Qed.

Lemma read_record_cases s r s' : read_record s = (r, s') →
  (r = inr true ∧ rs_nonce s < u64_max ∧ rs_nonce s' = rs_nonce s + 1 ∧ rs_offset s' = 0 ∧
   ss_transport s' = ss_transport s ∧ ∃ c, tr_read_message (ss_transport s) (rs_nonce s) c = inr (rs_plaintext s')) ∨
  (r ≠ inr true ∧ same_reading s s').
Proof.
  unfold read_record. pose proof (on_stream_same (tcp_read 1) s) as H1. destruct (on_stream (tcp_read 1) s) as [[e|[|b bs]] s1];
    simpl in H1; [intros [= <- <-]; by right..|].
  pose proof (on_stream_same (tcp_read_exact 1) s1) as H2. destruct (on_stream (tcp_read_exact 1) s1) as [[e|low] s2];
    simpl in H2; pose proof (same_reading_trans _ _ _ H1 H2) as H3; [intros [= <- <-]; by right|].
  destruct (_ <? _); [intros [= <- <-]; right; split; [done|]; by eapply same_reading_trans, shut_same|].
  match goal with |- context [on_stream ?f s2] => pose proof (on_stream_same f s2) as H4; destruct (on_stream f s2) as [[e|c] s3] end;
    simpl in H4; pose proof (same_reading_trans _ _ _ H3 H4) as H5; [intros [= <- <-]; by right|].
  destruct H5 as (Et & En & Ep & Eo).
  destruct (tr_read_message (ss_transport s3) (rs_nonce s3) c) as [text|p] eqn:Er;
    [intros [= <- <-]; right; split; [done|]; split_and!; done|].
  unfold next_nonce, checked_add. destruct (Z.leb_spec (rs_nonce s3 + 1) u64_max); intros [= <- <-].
  - left. simpl. split_and!; [done|lia|lia|done|done|]. exists c. by rewrite <-Et, <-En.
  - right. split; [done|]. split_and!; done.
Qed.

(** *** What is read is what was sent *)

Section authentic.
(** The plaintexts of the records the peer has encrypted, by their nonces, and that a
    record decrypts only if the peer has encrypted it under that nonce. *)
Context (sent : list bytes) (t : Transport).
Hypothesis authentic : ∀ n c p, 0 ≤ n → tr_read_message t n c = inr p → sent !! Z.to_nat n = Some p.

(** [got] was read so far. *)
Definition reading (got : bytes) (s : SecureStream) : Prop :=
  ss_transport s = t ∧ 0 ≤ rs_nonce s ∧ 0 ≤ rs_offset s ≤ vlen (rs_plaintext s) ∧
  (Z.to_nat (rs_nonce s) ≤ length sent)%nat ∧
  got ++ zdrop (rs_offset s) (rs_plaintext s) = concat (take (Z.to_nat (rs_nonce s)) sent).

Lemma reading_same got s s' : same_reading s s' → reading got s → reading got s'.
Proof. intros (Et & En & Ep & Eo). unfold reading. by rewrite Et, En, Ep, Eo. Qed.

Lemma reading_record got s s' : reading got s → rs_offset s = vlen (rs_plaintext s) →
  read_record s = (inr true, s') → reading got s'.
Proof using authentic.
  intros (Ht & Hn & Ho & Hl & Hg) Ee E. apply read_record_cases in E as [(_ & Hm & En & Eo & Et & c & Ec)|[? _]]; [|done].
  rewrite Ht in Ec. apply authentic in Ec; [|done].
  assert (Hg' : got = concat (take (Z.to_nat (rs_nonce s)) sent)).
  { rewrite Ee in Hg. unfold zdrop in Hg. rewrite drop_ge, app_nil_r in Hg by (unfold vlen; lia). done. }
  split_and!; [congruence|lia|rewrite Eo; lia|rewrite Eo; apply vlen_nonneg| |].
  - apply lookup_lt_Some in Ec. rewrite En. lia.
  - rewrite En, Eo. replace (Z.to_nat (rs_nonce s + 1)) with (S (Z.to_nat (rs_nonce s))) by lia.
    rewrite (take_S_r _ _ _ Ec), concat_app. simpl. rewrite app_nil_r, <-Hg'. done.
Qed.

Lemma reading_serve n got s : 0 < n → reading got s → rs_offset s < vlen (rs_plaintext s) →
  let count := Z.min n (saturating_sub (vlen (rs_plaintext s)) (rs_offset s)) in
  let offset := rs_offset s + count in
  reading (got ++ ztake count (zdrop (rs_offset s) (rs_plaintext s)))
    (if offset =? vlen (rs_plaintext s) then set_read_state (rs_nonce s) [] 0 s
     else set_read_state (rs_nonce s) (rs_plaintext s) offset s).
Proof.
  intros Hn (Ht & Hn0 & Ho & Hl & Hg) Hlt. cbv zeta. unfold saturating_sub. rewrite Z.max_r by lia.
  set (count := Z.min n (vlen (rs_plaintext s) - rs_offset s)). unfold reading, ztake, zdrop in *.
  destruct (Z.eqb_spec (rs_offset s + count) (vlen (rs_plaintext s))) as [E|E]; simpl; split_and!; try done; try lia.
  - rewrite app_nil_r, <-Hg. f_equal. apply take_ge. rewrite length_drop. unfold vlen in *. lia.
  - rewrite <-Hg, <-app_assoc. f_equal. rewrite Z2Nat.inj_add, <-drop_drop by lia. apply take_drop.
Qed.

Lemma reading_loop fuel n got s r s' : 0 < n → reading got s → secure_read_loop fuel n s = Some (r, s') →
  reading (got ++ match r with inr bs => bs | inl _ => [] end) s'.
Proof using authentic.
  intros Hn. revert s. induction fuel as [|fuel IH]; intros s Hr; cbn [secure_read_loop]; [done|].
  destruct (Z.ltb_spec (rs_offset s) (vlen (rs_plaintext s))).
  { intros [= <- <-]. by apply reading_serve. }
  destruct (read_record s) as [x s1] eqn:E. pose proof E as E0.
  apply read_record_cases in E0 as [(-> & _)|[Hx Hs]].
  - intros E1. eapply IH; [|done]. eapply reading_record; [done| |done]. destruct Hr as (_ & _ & ? & _). lia.
  - destruct x as [e|[]]; [|done|]; intros [= <- <-]; rewrite app_nil_r; by eapply reading_same.
Qed.

Lemma reading_read n got s : 0 ≤ n → reading got s →
  reading (got ++ match (secure_read n s).1 with inr bs => bs | inl _ => [] end) (secure_read n s).2.
Proof using authentic.
  intros Hn Hr. unfold secure_read. destruct (Z.eqb_spec n 0); [by rewrite app_nil_r|].
  destruct (secure_read_loop _ n s) as [[r s']|] eqn:E; simpl; [|by rewrite app_nil_r].
  eapply reading_loop; [|done|done]. lia.
Qed.

Lemma reading_run sizes got s : Forall (Z.le 0) sizes → reading got s →
  reading (got ++ (read_run sizes s).1) (read_run sizes s).2.
Proof using authentic.
  intros H. revert got s. induction H as [|n sizes Hn _ IH]; intros got s Hr; cbn [read_run]; [by rewrite app_nil_r|].
  pose proof (reading_read n got s Hn Hr) as H1. destruct (secure_read n s) as [r s1]. simpl in H1.
  specialize (IH _ _ H1). destruct (read_run sizes s1) as [data s2]. simpl in *. by rewrite app_assoc.
Qed.

Lemma reading_prefix got s : reading got s → got `prefix_of` concat sent.
Proof.
  intros (_ & _ & _ & _ & Hg). rewrite <-(take_drop (Z.to_nat (rs_nonce s)) sent), concat_app, <-Hg, <-app_assoc.
  by eexists.
Qed.

End authentic.

(** *** A read ends *)

Lemma read_fuel_le n r : (reader_fuel (FrameIO.read n r).2 ≤ reader_fuel r)%nat.
Proof.
  destruct r as [|[bs|e] r]; simpl; [done| |lia]. pose proof (length_drop bs n).
  destruct (drop n bs); simpl in *; lia.
Qed.

Lemma read_exact_loop_fuel fuel want acc r out r' :
  read_exact_loop fuel want acc r = Some (out, r') → (reader_fuel r' ≤ reader_fuel r)%nat.
Proof.
  revert want acc r. induction fuel as [|fuel IH]; intros want acc r; cbn [read_exact_loop]; [done|].
  destruct (want =? 0)%nat; [by intros [= _ <-]|]. pose proof (read_fuel_le want r) as Hf.
  destruct (FrameIO.read want r) as [[e|[|b bs]] r1]; simpl in Hf.
  - case_decide; [|by intros [= _ <-]]. intros E%IH. lia.
  - by intros [= _ <-].
  - intros E%IH. lia.
Qed.

Definition stream_fuel (s : SecureStream) : nat := reader_fuel (tcp_in (ss_stream s)).

Lemma exact_fuel n s : (stream_fuel (on_stream (tcp_read_exact n) s).2 ≤ stream_fuel s)%nat.
Proof.
  unfold stream_fuel, on_stream, tcp_read_exact, read_exact.
  destruct (read_exact_loop _ n [] _) as [[out r]|] eqn:E; simpl; [|done]. by eapply read_exact_loop_fuel.
Qed.

Lemma read_record_fuel s s' : read_record s = (inr true, s') → (stream_fuel s' < stream_fuel s)%nat.
Proof.
  unfold read_record. assert (H1 : (on_stream (tcp_read 1) s).1 ≠ inr [] →
    (stream_fuel (on_stream (tcp_read 1) s).2 < stream_fuel s)%nat).
  { unfold on_stream, tcp_read, stream_fuel. destruct (FrameIO.read 1 (tcp_in (ss_stream s))) as [out r] eqn:E. simpl.
    intros H. eapply read_fuel; [|done|done]. lia. }
  destruct (on_stream (tcp_read 1) s) as [[e|[|b bs]] s1]; [done|done|]. simpl in H1. specialize (H1 ltac:(done)).
  pose proof (exact_fuel 1 s1) as H2. destruct (on_stream (tcp_read_exact 1) s1) as [[e|low] s2]; [done|]. simpl in H2.
  destruct (_ <? _); [done|].
  match goal with |- context [on_stream (tcp_read_exact ?k) s2] => pose proof (exact_fuel k s2) as H3;
    destruct (on_stream (tcp_read_exact k) s2) as [[e|c] s3] end; [done|]. simpl in H3.
  destruct (tr_read_message _ _ _); [done|]. destruct (next_nonce _); [done|]. intros [= <-].
  unfold stream_fuel in *. simpl. lia.
Qed.

(** The fuel of a read is never used up. *)
Lemma secure_read_total fuel n s : (stream_fuel s < fuel)%nat → is_Some (secure_read_loop fuel n s).
Proof.
  revert s. induction fuel as [|fuel IH]; intros s Hf; cbn [secure_read_loop]; [lia|].
  destruct (_ <? _); [by eexists|]. destruct (read_record s) as [[e|[]] s1] eqn:E; [by eexists| |by eexists].
  apply IH. apply read_record_fuel in E. lia.
Qed.

(** *** What was sent arrives *)

Definition steady (r : Reader) : Prop := Forall (λ ev, ∃ bs, ev = Chunk bs ∧ bs ≠ []) r.

Lemma steady_clean r : steady r → clean r.
Proof. intros H. eapply Forall_impl; [exact H|]. by intros ev (bs & -> & Hb). Qed.

Lemma steady_read n r : steady r → steady (FrameIO.read n r).2.
Proof.
  intros Hs. destruct Hs as [|ev r (bs & -> & Hb) Hr]; [constructor|]. simpl.
  destruct (drop n bs) as [|x l]; [done|]. constructor; eauto.
Qed.

Lemma steady_exact fuel want acc r out r' :
  steady r → read_exact_loop fuel want acc r = Some (out, r') → steady r'.
Proof.
  revert want acc r. induction fuel as [|fuel IH]; intros want acc r Hs; cbn [read_exact_loop]; [done|].
  destruct (want =? 0)%nat; [by intros [= _ <-]|]. pose proof (steady_read want r Hs) as Hf.
  destruct (FrameIO.read want r) as [[e|[|b bs]] r1]; simpl in Hf.
  - case_decide; [by apply IH|by intros [= _ <-]].
  - by intros [= _ <-].
  - by apply IH.
Qed.

Definition incoming (s : SecureStream) : bytes := stream (tcp_in (ss_stream s)).
Definition calm (s : SecureStream) : Prop := steady (tcp_in (ss_stream s)).

Lemma exact_steady n s a rest : calm s → incoming s = a ++ rest → length a = n →
  ∃ s', on_stream (tcp_read_exact n) s = (inr a, s') ∧ calm s' ∧ incoming s' = rest ∧ same_reading s s'.
Proof.
  unfold calm, incoming. intros Hs Hi Hn. pose proof (on_stream_same (tcp_read_exact n) s) as Hsame. revert Hsame.
  unfold on_stream, tcp_read_exact, read_exact.
  destruct (read_exact_loop_clean (S (reader_fuel (tcp_in (ss_stream s)))) n [] (tcp_in (ss_stream s)))
    as (r & b & E & _ & Hb & Hl); [by apply steady_clean|lia|rewrite Hi, length_app; lia|].
  rewrite E. simpl. intros Hsame. rewrite Hi in Hb. apply app_inj_1 in Hb as [-> Hb]; [|lia].
  eexists. split; [done|]. simpl. split_and!; [by eapply steady_exact|done|apply Hsame..].
Qed.

Lemma first_steady s b rest : calm s → incoming s = b :: rest →
  ∃ s', on_stream (tcp_read 1) s = (inr [b], s') ∧ calm s' ∧ incoming s' = rest ∧ same_reading s s'.
Proof.
  unfold calm, incoming. intros Hs Hi. pose proof (steady_read 1 _ Hs) as Hr. unfold on_stream, tcp_read.
  destruct (FrameIO.read 1 (tcp_in (ss_stream s))) as [out r] eqn:E. simpl in Hr.
  destruct (read_clean 1 _ _ _ ltac:(lia) (steady_clean _ Hs) E) as [_ Hout].
  destruct Hs as [|ev r0 (bs & Ee & Hb) Hr0]; [done|]. rewrite Ee in E. simpl in E. injection E as <- _.
  destruct bs as [|b' bs]; [done|]. cbn [take] in Hout. rewrite Hi in Hout. destruct Hout as [[= -> Hout] _].
  eexists. split; [done|]. simpl. split_and!; done.
Qed.

Lemma first_end s : calm s → incoming s = [] → read_record s = (inr false, s).
Proof.
  unfold calm, incoming. intros Hs Hi. unfold read_record, on_stream, tcp_read.
  destruct s as [[rd out nd rt wt sh op] tr nc pt os wn]. simpl in *.
  destruct Hs as [|ev r (bs & -> & Hb) Hr]; [done|]. destruct bs; done.
Qed.

Section delivery.
(** The two ends of a session: what one encrypts under a nonce the other decrypts
    under it, and a record is longer than its plaintext by its tag. *)
Context (tr tw : Transport).
Hypothesis correct : ∀ n p c,
  tr_write_message tw n p = inr c → tr_read_message tr n c = inr p ∧ vlen c = vlen p + AUTH_TAG_BYTES.

(** The bytes that carry the records [ps], whose first has the nonce [n]. *)
Inductive wire_of : Z → list bytes → bytes → Prop :=
| wire_nil n : wire_of n [] []
| wire_cons n p c ps bs :
    p ≠ [] → n < u64_max → vlen c ≤ u16_max → tr_write_message tw n p = inr c → wire_of (n + 1) ps bs →
    wire_of n (p :: ps) (be_bytes 2 (vlen c) ++ c ++ bs).

Definition outgoing (s : SecureStream) : bytes := w_out (tcp_out (ss_stream s)).

Lemma write_appends input s :
  ss_transport s = tw → w_script (tcp_out (ss_stream s)) = [] →
  let s' := (secure_write input s).2 in
  ss_transport s' = tw ∧ w_script (tcp_out (ss_stream s')) = [] ∧
  (ws_nonce s' = ws_nonce s ∧ outgoing s' = outgoing s ∨
   ws_nonce s' = ws_nonce s + 1 ∧ ws_nonce s < u64_max ∧ input ≠ [] ∧
   ∃ c, tr_write_message tw (ws_nonce s) (ztake MAX_PLAINTEXT_BYTES input) = inr c ∧ vlen c ≤ u16_max ∧
     outgoing s' = outgoing s ++ be_bytes 2 (vlen c) ++ c).
Proof.
  intros Ht Hw. unfold secure_write. case_bool_decide as Ei; [by simpl; auto|].
  assert (Ez : ztake (Z.min (vlen input) MAX_PLAINTEXT_BYTES) input = ztake MAX_PLAINTEXT_BYTES input).
  { unfold ztake. destruct (Z.le_ge_cases (vlen input) MAX_PLAINTEXT_BYTES) as [H|H].
    - rewrite Z.min_l, !take_ge by (unfold vlen in *; lia). done.
    - by rewrite Z.min_r by done. }
  rewrite Ez, Ht. destruct (tr_write_message tw (ws_nonce s) _) as [text|c] eqn:Ec; [by simpl; auto|].
  destruct (try_from u16_max (vlen c)) as [k|] eqn:Ek; [|by simpl; auto]. apply try_from_Some in Ek as [-> Hk].
  unfold next_nonce, checked_add. destruct (Z.leb_spec (ws_nonce s + 1) u64_max); [|by simpl; auto].
  unfold on_stream, io_then, tcp_write_all, write_all. simpl. rewrite Hw. simpl. split_and!; [done|done|]. right.
  split_and!; [done|lia|done|]. exists c. unfold outgoing, in_range in *. simpl. rewrite <-app_assoc. split_and!; [done|lia|done].
Qed.

Lemma wire_step n p c ps bs : p ≠ [] → n < u64_max → vlen c ≤ u16_max → tr_write_message tw n p = inr c →
  wire_of (n + 1) ps bs → wire_of n ([p] ++ ps) ((be_bytes 2 (vlen c) ++ c) ++ bs).
Proof. intros. rewrite <-app_assoc. by constructor. Qed.

(** A stream whose socket takes everything carries the records of its writes. *)
Lemma write_run_wire inputs s :
  ss_transport s = tw → w_script (tcp_out (ss_stream s)) = [] →
  ∃ bs, outgoing (write_run inputs s).2 = outgoing s ++ bs ∧ wire_of (ws_nonce s) (write_run inputs s).1 bs.
Proof.
  revert s. induction inputs as [|input inputs IH]; intros s Ht Hw; cbn [write_run].
  { exists []. rewrite app_nil_r. split; [done|constructor]. }
  destruct (write_appends input s Ht Hw) as (Ht' & Hw' & Hs). cbv zeta in *.
  destruct (IH _ Ht' Hw') as (bs & Ho & Hb). destruct (write_run inputs _) as [records s2]. simpl in *.
  destruct Hs as [[En Eo]|(En & Hn & Hi & c & Ec & Hc & Eo)]; rewrite En in *.
  - rewrite Z.eqb_refl. exists bs. simpl. by rewrite Ho, Eo.
  - rewrite (proj2 (Z.eqb_neq _ _)) by lia. exists ((be_bytes 2 (vlen c) ++ c) ++ bs).
    rewrite Ho, Eo, <-!app_assoc. split; [done|]. rewrite app_assoc. apply wire_step; [|done..].
    unfold ztake, MAX_PLAINTEXT_BYTES, MAX_CIPHERTEXT_BYTES, u16_max, AUTH_TAG_BYTES.
    destruct input; [done|]. change (Z.to_nat (65535 - 16)) with (S (Z.to_nat 65518)). done.
Qed.

Definition delivering (total got : bytes) (s : SecureStream) : Prop :=
  ∃ ps, ss_transport s = tr ∧ 0 ≤ rs_offset s ≤ vlen (rs_plaintext s) ∧ calm s ∧
    wire_of (rs_nonce s) ps (incoming s) ∧ got ++ zdrop (rs_offset s) (rs_plaintext s) ++ concat ps = total.

Lemma be_val_bytes n : 0 ≤ n ≤ u16_max → be_val (be_bytes 2 n) = n.
Proof.
  intros Hn. unfold be_val, be_bytes. rewrite rev_involutive. apply le_val_le_bytes. unfold u16_max in *. simpl. lia.
Qed.

Lemma wire_inv n p ps bs : wire_of n (p :: ps) bs → ∃ c rest, p ≠ [] ∧ n < u64_max ∧ vlen c ≤ u16_max ∧
  tr_write_message tw n p = inr c ∧ wire_of (n + 1) ps rest ∧ bs = be_bytes 2 (vlen c) ++ c ++ rest.
Proof. inversion 1. by do 2 eexists. Qed.

Lemma next_record s p ps : ss_transport s = tr → calm s → wire_of (rs_nonce s) (p :: ps) (incoming s) →
  ∃ s', read_record s = (inr true, s') ∧ ss_transport s' = tr ∧ calm s' ∧ rs_offset s' = 0 ∧ rs_plaintext s' = p ∧
    p ≠ [] ∧ wire_of (rs_nonce s') ps (incoming s').
Proof using correct.
  intros Ht Hc (c & bs' & Hp & Hn & Hl & Ec & Hrest & Hi)%wire_inv.
  destruct (correct _ _ _ Ec) as [Er Hlen]. pose proof (vlen_nonneg p). unfold AUTH_TAG_BYTES in Hlen.
  pose proof (be_val_bytes (vlen c) ltac:(lia)) as Hv.
  destruct (be_bytes 2 (vlen c)) as [|high [|low [|]]] eqn:Eb;
    try (apply (f_equal length) in Eb; rewrite length_be_bytes in Eb; discriminate Eb).
  cbn [app] in Hi. unfold read_record.
  destruct (first_steady s high _ Hc Hi) as (s1 & -> & Hc1 & Hi1 & Hs1).
  destruct (exact_steady 1 s1 [low] (c ++ bs') Hc1 Hi1 eq_refl) as (s2 & -> & Hc2 & Hi2 & Hs2). cbn [app].
  rewrite Hv. destruct (Z.ltb_spec (vlen c) AUTH_TAG_BYTES) as [Hlt|Hge]; [unfold AUTH_TAG_BYTES in Hlt; lia|].
  destruct (exact_steady (Z.to_nat (vlen c)) s2 c bs' Hc2 Hi2) as (s3 & -> & Hc3 & Hi3 & Hs3); [unfold vlen; lia|].
  destruct (same_reading_trans _ _ _ (same_reading_trans _ _ _ Hs1 Hs2) Hs3) as (Et & En & _ & _).
  rewrite Et, En, Ht, Er. unfold next_nonce, checked_add. destruct (Z.leb_spec (rs_nonce s + 1) u64_max); [|lia].
  eexists. split; [done|]. unfold calm, incoming in *. simpl. rewrite Hi3, Et. split_and!; try done.
Qed.

Lemma serve_delivers fuel n total got s : 0 < n → delivering total got s → rs_offset s < vlen (rs_plaintext s) →
  ∃ data s', secure_read_loop (S fuel) n s = Some (inr data, s') ∧ delivering total (got ++ data) s' ∧ data ≠ [].
Proof.
  intros Hn (ps & Ht & Ho & Hc & Hw & Hg) Hlt. cbn [secure_read_loop]. rewrite (proj2 (Z.ltb_lt _ _) Hlt).
  unfold saturating_sub. rewrite Z.max_r by lia. set (count := Z.min n (vlen (rs_plaintext s) - rs_offset s)).
  do 2 eexists. split; [done|]. unfold ztake, zdrop in *. split.
  - destruct (Z.eqb_spec (rs_offset s + count) (vlen (rs_plaintext s))) as [E|E]; exists ps; simpl;
      (split_and!; try done; try lia).
    + rewrite <-Hg, <-app_assoc. f_equal. f_equal. apply take_ge. rewrite length_drop. unfold vlen in *. lia.
    + rewrite <-Hg, <-app_assoc. f_equal. rewrite app_assoc. f_equal.
      unfold zdrop. rewrite Z2Nat.inj_add, <-drop_drop by lia. apply take_drop.
  - intros E%(f_equal length). rewrite length_take, length_drop in E. simpl in E. unfold vlen in *. lia.
Qed.

Lemma read_delivers n total got s : 0 < n → delivering total got s →
  ∃ data s', secure_read n s = (inr data, s') ∧ delivering total (got ++ data) s' ∧ (data = [] → got = total).
Proof using correct.
  intros Hn Hd. unfold secure_read. rewrite (proj2 (Z.eqb_neq _ _)) by lia.
  destruct (Z.lt_ge_cases (rs_offset s) (vlen (rs_plaintext s))) as [Hlt|Hge].
  { destruct (serve_delivers (S (reader_fuel (tcp_in (ss_stream s)))) n total got s Hn Hd Hlt) as (data & s' & -> & Hd' & Hne).
    do 2 eexists. split_and!; [done|done|done]. }
  pose proof Hd as (ps & Ht & Ho & Hc & Hw & Hg).
  remember (S (reader_fuel (tcp_in (ss_stream s)))) as fuel eqn:Ef. cbn [secure_read_loop]. subst fuel. rewrite (proj2 (Z.ltb_ge _ _) Hge).
  assert (Ez : zdrop (rs_offset s) (rs_plaintext s) = []).
  { unfold zdrop. apply drop_ge. unfold vlen in *. lia. }
  rewrite Ez in Hg. destruct ps as [|p ps].
  - assert (Ei : incoming s = []) by (by inversion Hw). rewrite (first_end s Hc Ei). simpl in Hg. rewrite app_nil_r in Hg.
    do 2 eexists. split_and!; [done|by rewrite app_nil_r|done].
  - destruct (next_record s p ps Ht Hc Hw) as (s1 & -> & Ht1 & Hc1 & Ho1 & Hp1 & Hne & Hw1).
    assert (Hd1 : delivering total got s1).
    { exists ps. rewrite Ho1, Hp1. split_and!; [done|lia|apply vlen_nonneg|done|done|]. rewrite <-Hg. done. }
    destruct (serve_delivers (reader_fuel (tcp_in (ss_stream s))) n total got s1 Hn Hd1) as (data & s' & -> & Hd' & Hnd).
    { rewrite Ho1, Hp1. destruct p; [done|]. unfold vlen. simpl. lia. }
    do 2 eexists. split_and!; done.
Qed.

Lemma delivered_prefix total got s : delivering total got s → (length got ≤ length total)%nat ∧ take (length got) total = got.
Proof. intros (ps & _ & _ & _ & _ & <-). rewrite take_app_length, length_app. split; [lia|done]. Qed.

Lemma run_delivers n k total got s : 0 < n → delivering total got s →
  let '(data, s') := read_run (repeat n k) s in
  delivering total (got ++ data) s' ∧ (length (got ++ data) = length total ∨ (length got + k ≤ length (got ++ data))%nat).
Proof using correct.
  intros Hn. revert got s. induction k as [|k IH]; intros got s Hd; cbn [repeat read_run].
  { rewrite app_nil_r. split; [done|right; lia]. }
  destruct (read_delivers n total got s Hn Hd) as (data & s1 & -> & Hd1 & He).
  specialize (IH _ _ Hd1). destruct (read_run (repeat n k) s1) as [rest s2]. rewrite <-app_assoc in IH.
  destruct IH as [Hd2 Hl]. split; [done|]. destruct data as [|b data].
  - specialize (He eq_refl). subst total. left. apply delivered_prefix in Hd2 as [H1 _]. rewrite length_app in *. lia.
  - destruct Hl as [Hl|Hl]; [by left|]. right. rewrite !length_app in *. simpl length in *. lia.
Qed.

End delivery.

(** C13: The encrypted stream is a stream.  Whatever the network does, reorders, drops,
    cuts or injects, the bytes one end reads, in reads of any sizes and past any
    failures, are a prefix of the bytes the other end wrote; and if the network brings
    what was written, in pieces of any size, all of it is read. *)
Theorem secure_stream_faithful tr tw inputs wire sizes r :
  let '(records, w) := write_run inputs (SecureStream_new wire tw) in
  (∀ n c p, 0 ≤ n → tr_read_message tr n c = inr p → records !! Z.to_nat n = Some p) →
  Forall (Z.le 0) sizes →
  (read_run sizes (SecureStream_new r tr)).1 `prefix_of` concat records ∧
  ((∀ n p c, tr_write_message tw n p = inr c → tr_read_message tr n c = inr p ∧ vlen c = vlen p + AUTH_TAG_BYTES) →
   w_out (tcp_out wire) = [] → w_script (tcp_out wire) = [] → steady (tcp_in r) → stream (tcp_in r) = outgoing w →
   ∀ n k, 0 < n → (length (concat records) ≤ k)%nat →
     (read_run (repeat n k) (SecureStream_new r tr)).1 = concat records).
Proof.
  destruct (write_run inputs (SecureStream_new wire tw)) as [records w] eqn:Ew. intros Ha Hs. split.
  - pose proof (reading_run records tr Ha sizes [] (SecureStream_new r tr) Hs) as H. simpl in H.
    apply (reading_prefix records tr _ (read_run sizes (SecureStream_new r tr)).2), H. unfold reading. simpl. split_and!; try done. lia.
  - intros Hcor Hout Hscript Hst Hin n k Hn Hk.
    destruct (write_run_wire tw inputs (SecureStream_new wire tw) eq_refl Hscript) as (bs & Ho & Hb).
    rewrite Ew in Ho, Hb. unfold outgoing in *. simpl in Ho, Hb. rewrite Hout in Ho. simpl in Ho.
    assert (Hd : delivering tr tw (concat records) [] (SecureStream_new r tr)).
    { exists records. unfold calm, incoming. simpl. rewrite Hin, Ho. split_and!; done. }
    pose proof (run_delivers tr tw Hcor n k _ _ _ Hn Hd) as H. destruct (read_run (repeat n k) _) as [data s']. simpl in *.
    destruct H as [H1 H2]. destruct (delivered_prefix tr tw _ _ _ H1) as [H3 H4]. rewrite <-H4. apply take_ge. lia.
Qed.

End stream.

(** ** Characters *)

(** A character: a byte that does not continue one, then bytes that do; ASCII is one byte. *)
Definition char_unit (c : bytes) : Prop :=
  ∃ b cs, c = b :: cs ∧ is_cont (byte_to_Z b) = false ∧ Forall (λ x, is_cont (byte_to_Z x) = true) cs ∧
    (byte_to_Z b < 128 → cs = []).

Lemma is_cont_lead z : z < 128 ∨ 191 < z → is_cont z = false.
Proof. unfold is_cont. intros [?|?]; destruct (Z.leb_spec 128 z), (Z.leb_spec z 191); simpl; done || lia. Qed.

Lemma between_cont lo hi z : between lo hi z = true → 128 ≤ lo → hi ≤ 191 → is_cont z = true.
Proof. unfold between, is_cont. rewrite !andb_true_iff, !Z.leb_le. lia. Qed.

Lemma byte_at_cont i bs : is_cont (byte_at i bs) = true → ∃ b, bs !! i = Some b ∧ is_cont (byte_to_Z b) = true.
Proof. unfold byte_at. destruct (bs !! i); [eauto|done]. Qed.

Lemma utf8_chunk_cases bs n : bs ≠ [] → utf8_chunk bs = (n, true) →
  ∃ b k, bs !! 0%nat = Some b ∧ n = S k ∧ is_cont (byte_to_Z b) = false ∧ (byte_to_Z b < 128 → k = 0%nat) ∧
    ∀ i, (1 ≤ i ≤ k)%nat → is_cont (byte_at i bs) = true.
Proof.
  intros Hne. destruct bs as [|b bs]; [done|]. unfold utf8_chunk. change (byte_at 0 (b :: bs)) with (byte_to_Z b).
  destruct (Z.ltb_spec (byte_to_Z b) 128) as [H|H].
  { intros [= <-]. exists b, 0%nat. split_and!; [done|done|by apply is_cont_lead; left|done|lia]. }
  destruct (between 194 223 (byte_to_Z b)) eqn:E2.
  { unfold between in E2. rewrite andb_true_iff, !Z.leb_le in E2. destruct (is_cont _) eqn:E; [|done]. intros [= <-].
    exists b, 1%nat. split_and!; [done|done|apply is_cont_lead; lia|lia|]. intros i Hi. by replace i with 1%nat by lia. }
  destruct (between 224 239 (byte_to_Z b)) eqn:E3.
  { unfold between in E3. rewrite andb_true_iff, !Z.leb_le in E3.
    destruct (_ || _ || _ || _) eqn:E; [|done]. destruct (is_cont (byte_at 2 _)) eqn:Ec; [|done]. intros [= <-].
    exists b, 2%nat. split_and!; [done|done|apply is_cont_lead; lia|lia|]. intros i Hi.
    destruct (decide (i = 2%nat)) as [-> |]; [done|]. replace i with 1%nat by lia.
    rewrite !orb_true_iff, !andb_true_iff in E.
    destruct E as [[[[_ E]|[_ E]]|[_ E]]|[_ E]]; [by eapply between_cont; [exact E|lia|lia]|done|
      by eapply between_cont; [exact E|lia|lia]|done]. }
  destruct (between 240 244 (byte_to_Z b)) eqn:E4; [|done].
  unfold between in E4. rewrite andb_true_iff, !Z.leb_le in E4.
  destruct (_ || _ || _) eqn:E; [|done]. destruct (is_cont (byte_at 2 _)) eqn:Ec; [|done].
  destruct (is_cont (byte_at 3 _)) eqn:Ed; [|done]. intros [= <-].
  exists b, 3%nat. split_and!; [done|done|apply is_cont_lead; lia|lia|]. intros i Hi.
  destruct (decide (i = 3%nat)) as [-> |]; [done|]. destruct (decide (i = 2%nat)) as [-> |]; [done|].
  replace i with 1%nat by lia. rewrite !orb_true_iff, !andb_true_iff in E.
  destruct E as [[[_ E]|[_ E]]|[_ E]]; [by eapply between_cont; [exact E|lia|lia]|done|by eapply between_cont; [exact E|lia|lia]].
Qed.

Lemma utf8_chunk_unit bs n : bs ≠ [] → utf8_chunk bs = (n, true) → char_unit (take n bs) ∧ (0 < n)%nat.
Proof.
  intros Hne E. destruct (utf8_chunk_cases bs n Hne E) as (b & k & Hb & -> & Hl & Ha & Hc).
  destruct bs as [|b' bs]; [done|]. simpl in Hb. injection Hb as ->. split; [|lia]. exists b, (take k bs).
  split_and!; [done|done| |intros H; by rewrite (Ha H)].
  apply Forall_lookup. intros i x [Hx Hi]%lookup_take_Some. specialize (Hc (S i) ltac:(lia)).
  apply byte_at_cont in Hc as (y & Hy & Hc). simpl in Hy. congruence.
Qed.

Lemma chars_loop_spec fuel bs : (length bs ≤ fuel)%nat → utf8_loop fuel bs = true →
  concat (chars_loop fuel bs) = bs ∧ Forall char_unit (chars_loop fuel bs).
Proof.
  revert bs. induction fuel as [|fuel IH]; intros bs Hl; [destruct bs; [by repeat constructor|simpl in Hl; lia]|].
  destruct bs as [|b bs]; [by repeat constructor|]. cbn [utf8_loop chars_loop].
  destruct (utf8_chunk (b :: bs)) as [n valid] eqn:E. destruct valid; [|done]. cbn [andb]. intros H.
  apply utf8_chunk_unit in E as [Hu Hn]; [|done].
  destruct (IH (drop n (b :: bs))) as [H1 H2]; [rewrite length_drop; simpl in *; lia|done|].
  cbn [concat]. rewrite H1, take_drop. split; [done|by constructor].
Qed.

Lemma chars_spec bs : from_utf8 bs = Some bs → concat (chars bs) = bs ∧ Forall char_unit (chars bs).
Proof. unfold from_utf8. destruct (utf8_loop _ bs) eqn:E; [|done]. intros _. by apply chars_loop_spec. Qed.

Lemma run_length {A} (P : A → Prop) l b x l' e y :
  ¬ P b → Forall P l' → l ++ b :: x = l' ++ e :: y → (length l' ≤ length l)%nat.
Proof.
  intros Hb Hl E. destruct (decide (length l < length l')%nat) as [Hlt|]; [exfalso|lia].
  assert (H : l' !! length l = Some b) by (rewrite <-(lookup_app_l l' (e :: y)), <-E by done; by apply list_lookup_middle).
  by eapply Hb, (Forall_lookup_1 P l').
Qed.

(** Two texts that are equal end in the same character. *)
Lemma unit_suffix p c q e : char_unit c → char_unit e → p ++ c = q ++ e → c = e.
Proof.
  intros (b & cs & -> & Hb & Hc & _) (e' & es & -> & He & Hes & _) E.
  set (P x := is_cont (byte_to_Z x) = true). assert (Hb' : ¬ P b) by (unfold P; by rewrite Hb).
  assert (He' : ¬ P e') by (unfold P; by rewrite He). pose proof (f_equal (@rev byte) E) as Er.
  rewrite !rev_app_distr in Er. simpl in Er. rewrite <-!app_assoc in Er. simpl in Er.
  assert (H1 : (length (rev es) ≤ length (rev cs))%nat) by (eapply (run_length P); [exact Hb'|by apply Forall_rev|exact Er]).
  symmetry in Er. assert (H2 : (length (rev cs) ≤ length (rev es))%nat) by (eapply (run_length P); [exact He'|by apply Forall_rev|exact Er]).
  rewrite !length_rev in *. apply app_inj_2 in E as [_ E]; [done|]. simpl. lia.
Qed.

(** ** The text of a certificate *)

(** A value that stands on a line of its own: no blank in it, and none at its end
    whatever stands before it. *)
Record plain (v : bytes) : Prop := {
  plain_nonempty : v ≠ [];
  plain_ascii : Forall (λ b, is_ascii_whitespace b = false) v;
  plain_end : ∀ p e, e ∈ white_space → ¬ (e `suffix_of` p ++ v);
}.

Lemma white_space_units : Forall char_unit white_space.
Proof.
  unfold white_space. repeat constructor; (eexists _, _; split_and!; [reflexivity|reflexivity|repeat constructor|]);
    (vm_compute; intros; done).
Qed.

Definition label_ok (value : bytes) : Prop :=
  from_utf8 value = Some value ∧ value ≠ [] ∧ vlen value ≤ MAX_LABEL_BYTES ∧
  (∀ b, b ∈ value → is_ascii_control b = false) ∧ (∀ c, c ∈ chars value → c ∉ white_space).

Lemma validate_label_Ok value what u : from_utf8 value = Some value → validate_label value what = Ok u → label_ok value.
Proof.
  intros Hu. unfold validate_label. case_bool_decide; [done|]. destruct (Z.ltb_spec MAX_LABEL_BYTES (vlen value)); [done|].
  simpl. destruct (existsb _ value) eqn:Ec; [done|]. destruct (existsb is_whitespace _) eqn:Ew; [done|]. intros _.
  split_and!; [done|done|done| |].
  - intros b Hb. destruct (is_ascii_control b) eqn:E; [|done]. exfalso. assert (existsb (λ b, (byte_to_Z b =? 0) || is_ascii_control b) value = true); [|congruence].
    apply existsb_exists. exists b. rewrite E, orb_true_r. split; [by apply list_elem_of_In|done].
  - intros c Hc Hw. assert (existsb is_whitespace (chars value) = true); [|congruence].
    apply existsb_exists. exists c. split; [by apply list_elem_of_In|]. unfold is_whitespace. by apply bool_decide_eq_true.
Qed.

Lemma control_whitespace b : is_ascii_whitespace b = true → is_ascii_control b = true ∨ b = x20.
Proof. by destruct b; vm_compute; auto. Qed.

Lemma label_plain value : label_ok value → plain value.
Proof.
  intros (Hu & Hne & _ & Hc & Hw). destruct (chars_spec value Hu) as [Hcat Hunits]. split; [done| |].
  - apply Forall_forall. intros b Hb. destruct (is_ascii_whitespace b) eqn:E; [exfalso|done].
    apply control_whitespace in E as [E| -> ]; [by rewrite (Hc b Hb) in E|].
    rewrite <-Hcat in Hb. apply list_elem_of_In, in_concat in Hb as (c & Hin & Hb). apply list_elem_of_In in Hin, Hb.
    rewrite Forall_forall in Hunits. destruct (Hunits c Hin) as (b & cs & -> & Hb1 & Hcs & Ha).
    apply elem_of_cons in Hb as [<-|Hb].
    + rewrite Ha in Hin by done. apply (Hw [x20] Hin). by apply (bool_decide_eq_true_1 ([x20] ∈ white_space)).
    + rewrite Forall_forall in Hcs. by specialize (Hcs _ Hb).
  - intros p e He [q E]. destruct (exists_last (l := chars value)) as (front & c & Ec).
    { intros Ec. rewrite Ec in Hcat. by subst. }
    rewrite Ec in Hcat, Hunits. rewrite concat_app in Hcat. simpl in Hcat. rewrite app_nil_r in Hcat.
    apply Forall_app in Hunits as [_ Hunits]. apply Forall_cons in Hunits as [Hunits _]. pose proof white_space_units as Hws.
    rewrite Forall_forall in Hws. rewrite <-Hcat, app_assoc in E. apply (unit_suffix _ _ _ _ Hunits (Hws _ He)) in E. subst e.
    apply (Hw c); [|done]. rewrite Ec. apply elem_of_app. right. left.
Qed.

(** Digits and letters. *)
Definition alnum (b : byte) : Prop := 48 ≤ byte_to_Z b ≤ 57 ∨ 97 ≤ byte_to_Z b ≤ 122.

Lemma alnum_not_white b : alnum b → is_ascii_whitespace b = false ∧ is_cont (byte_to_Z b) = false ∧ [b] ∉ white_space.
Proof.
  intros Hb. assert (H : is_ascii_whitespace b = false ∧ is_cont (byte_to_Z b) = false ∧ bool_decide ([b] ∈ white_space) = false);
    [|destruct H as (? & ? & ?%bool_decide_eq_false); done].
  unfold alnum in Hb. destruct b; first [by vm_compute|exfalso; cbv in Hb; naive_solver].
Qed.

Lemma alnum_plain v : v ≠ [] → Forall alnum v → plain v.
Proof.
  intros Hne Hv. split; [done| |].
  - eapply Forall_impl; [exact Hv|]. by intros b (? & _)%alnum_not_white.
  - intros p e He [q E]. destruct (exists_last Hne) as (front & b & ->). apply Forall_app in Hv as [_ Hv].
    apply Forall_cons in Hv as [Hv _]. apply alnum_not_white in Hv as (_ & Hc & Hw). pose proof white_space_units as Hws.
    rewrite Forall_forall in Hws. rewrite app_assoc in E.
    assert (Hb : char_unit [b]) by (exists b, []; split_and!; [done|done|constructor|done]).
    apply (unit_suffix _ _ _ _ Hb (Hws _ He)) in E. subst e. exact (Hw He).
Qed.

Lemma hex_char_alnum z : 0 ≤ z < 16 → alnum (hex_char z).
Proof.
  intros Hz. unfold alnum, hex_char. rewrite byte_to_of_Z.
  destruct (Z.ltb_spec z 10); rewrite Z.mod_small by lia; lia.
Qed.

Lemma hex_alnum bs : Forall alnum (encode_hex bs).
Proof.
  unfold encode_hex. apply Forall_concat, Forall_fmap, Forall_forall. intros b _. unfold compose. pose proof (byte_to_Z_range b).
  constructor; [|constructor; [|constructor]]; apply hex_char_alnum.
  - rewrite Z.shiftr_div_pow2 by lia. change (2 ^ 4) with 16. split; [apply Z.div_pos; lia|apply Z.div_lt_upper_bound; lia].
  - change 15 with (Z.ones 4). rewrite Z.land_ones by lia. apply Z.mod_pos_bound. lia.
Qed.

Lemma hex_plain bs : bs ≠ [] → plain (encode_hex bs).
Proof. intros Hne. apply alnum_plain; [by destruct bs|apply hex_alnum]. Qed.

Lemma dec_digits_nonempty fuel z acc : dec_digits (S fuel) z acc ≠ [].
Proof.
  revert z acc. induction fuel as [|fuel IH]; intros z acc; cbn [dec_digits]; destruct (z <? 10); try done. apply IH.
Qed.

Lemma dec_nonempty z : dec z ≠ [].
Proof. apply dec_digits_nonempty. Qed.

Lemma dec_plain z : 0 ≤ z → plain (dec z).
Proof.
  intros Hz. apply alnum_plain.
  - apply dec_nonempty.
  - eapply Forall_impl; [by apply dec_is_digits|]. intros b Hb. left. exact Hb.
Qed.

Lemma split_words_app word a rest : Forall (λ b, is_ascii_whitespace b = false) a →
  split_words word (a ++ rest) = split_words (rev a ++ word) rest.
Proof.
  intros Ha. revert word. induction Ha as [|b a Hb _ IH]; intros word; [done|]. cbn [app split_words]. rewrite Hb, IH.
  simpl. by rewrite <-app_assoc.
Qed.

Lemma split_two a b : a ≠ [] → b ≠ [] → Forall (λ x, is_ascii_whitespace x = false) a →
  Forall (λ x, is_ascii_whitespace x = false) b → split_ascii_whitespace (a ++ [x20] ++ b) = [a; b].
Proof.
  intros Ha Hb H1 H2. unfold split_ascii_whitespace. rewrite split_words_app, app_nil_r by done. cbn [app split_words].
  change (is_ascii_whitespace x20) with true. cbv iota.
  assert (Hr : ∀ l : bytes, l ≠ [] → rev l ≠ []) by (intros l Hl E; apply Hl; by rewrite <-(rev_involutive l), E).
  rewrite <-(app_nil_r b), split_words_app, !app_nil_r by done. cbn [split_words].
  destruct (rev a) eqn:Ea; [by apply Hr in Ea|]. rewrite <-Ea, rev_involutive.
  destruct (rev b) eqn:Eb; [by apply Hr in Eb|]. by rewrite <-Eb, rev_involutive.
Qed.

(** The names of the fields start with a letter. *)
Definition field_name (f : bytes) : Prop :=
  (∃ b rest, f = b :: rest ∧ 97 ≤ byte_to_Z b ≤ 122) ∧ Forall (λ b, is_ascii_whitespace b = false) f.

Lemma white_space_heads e : e ∈ white_space → ∃ b rest, e = b :: rest ∧ (byte_to_Z b < 48 ∨ 122 < byte_to_Z b).
Proof.
  intros He. assert (H : Forall (λ e, match e with b :: _ => (byte_to_Z b <? 48) || (122 <? byte_to_Z b) = true | [] => False end)
    white_space) by (by repeat constructor). rewrite Forall_forall in H. specialize (H e He). destruct e as [|b e]; [done|].
  exists b, e. split; [done|]. rewrite orb_true_iff, !Z.ltb_lt in H. done.
Qed.

Lemma line_trim f v : field_name f → plain v → trim (f ++ [x20] ++ v) = f ++ [x20] ++ v.
Proof.
  intros [(b & rest & -> & Hb) _] Hv. apply trim_id. split; apply strip_any_None.
  - intros e He [k E]. destruct (white_space_heads e He) as (b' & e' & -> & H). simpl in E. injection E as <- _. lia.
  - intros e He [k E]. apply list_elem_of_In, in_map_iff in He as (e0 & <- & He). apply list_elem_of_In in He.
    apply (plain_end v Hv ((b :: rest) ++ [x20]) e0 He). exists (rev k). apply (f_equal (@rev byte)) in E.
    rewrite rev_involutive, rev_app_distr, rev_involutive in E. by rewrite <-E, <-app_assoc.
Qed.

Lemma line_field index f v st : field_name f → plain v →
  certificate_line index (f ++ [x20] ++ v) st =
  default (Err (error_text [bstr "invalid certificate line "; dec (index + 1)])) (certificate_field f v st).
Proof.
  intros Hf Hv. unfold certificate_line. rewrite line_trim by done.
  pose proof Hf as [(b & rest & Ef & Hb) Hw]. rewrite bool_decide_eq_false_2 by (by rewrite Ef).
  assert (Hh : starts_with [x23] (f ++ [x20] ++ v) = false).
  { rewrite Ef. unfold starts_with. cbn [app strip_prefix]. rewrite decide_False; [done|]. intros <-.
    vm_compute in Hb. naive_solver. }
  rewrite Hh. cbn [orb]. rewrite split_two; [done|by rewrite Ef|apply Hv|done|apply Hv].
Qed.

(** A line without its break. *)
Definition text_line (fv : bytes * bytes) : bytes := fv.1 ++ [x20] ++ fv.2.

Lemma no_break v b : Forall (λ x, is_ascii_whitespace x = false) v → is_ascii_whitespace b = true → b ∉ v.
Proof. intros Hv Hb Hin. rewrite Forall_forall in Hv. by rewrite (Hv b Hin) in Hb. Qed.

Lemma lines_of_fields fs : Forall (λ fv, field_name fv.1 ∧ plain fv.2) fs →
  lines (concat ((λ fv, text_line fv ++ [newline]) <$> fs)) = text_line <$> fs.
Proof.
  induction 1 as [|[f v] fs [Hf Hv] _ IH]; [done|]. rewrite !fmap_cons. cbn [concat]. rewrite <-app_assoc. cbn [app fst snd] in *.
  rewrite lines_cons; [by rewrite IH| |]; unfold text_line; cbn [fst snd]; rewrite !not_elem_of_app, list_elem_of_singleton;
    (split_and!; [by apply no_break; [apply Hf|]|done|by apply no_break; [apply Hv|]]).
Qed.

(** What [Certificate_render] writes. *)
Definition certificate_fields (c : Certificate) : list (bytes * bytes) :=
  let body := ct_body c in
  [(bstr "format", CERT_FORMAT); (bstr "name", cb_name body); (bstr "key", encode_hex (cb_key body))] ++
  ((λ g, (bstr "group", g)) <$> cb_groups body) ++
  [(bstr "not-before", dec (cb_not_before body)); (bstr "not-after", dec (cb_not_after body));
   (bstr "issuer", encode_hex (cb_issuer body)); (bstr "signature", encode_hex (ct_signature c))].

Lemma render_fields c : Certificate_render c = concat ((λ fv, text_line fv ++ [newline]) <$> certificate_fields c).
Proof.
  unfold Certificate_render, certificate_fields, cert_line, text_line. rewrite !fmap_app, !concat_app.
  assert (Hg : concat ((λ fv : bytes * bytes, (fv.1 ++ [x20] ++ fv.2) ++ [newline]) <$>
                 ((λ g, (bstr "group", g)) <$> cb_groups (ct_body c))) =
               concat ((λ value, bstr "group" ++ [x20] ++ value ++ [newline]) <$> cb_groups (ct_body c))).
  { by rewrite <-list_fmap_compose. }
  rewrite Hg. cbn [fmap list_fmap concat fst snd]. rewrite <-!app_assoc. rewrite app_nil_r. reflexivity.
Qed.

Section text.
Context {ed : Ed25519}.

Lemma certificate_lines_cons index f v ls st : field_name f → plain v →
  certificate_lines index (text_line (f, v) :: ls) st =
  st' ← default (Err (error_text [bstr "invalid certificate line "; dec (index + 1)])) (certificate_field f v st);
  certificate_lines (index + 1) ls st'.
Proof. intros Hf Hv. cbn [certificate_lines]. unfold text_line. cbn [fst snd]. by rewrite line_field. Qed.

Lemma field_name_check f :
  match f with b :: _ => (97 <=? byte_to_Z b) && (byte_to_Z b <=? 122) | [] => false end &&
  forallb (λ b, negb (is_ascii_whitespace b)) f = true → field_name f.
Proof.
  destruct f as [|b f]; [done|]. rewrite !andb_true_iff, !Z.leb_le. intros [Hb Hf]. split; [by exists b, f|].
  apply Forall_forall. intros x Hx. rewrite forallb_forall in Hf. apply list_elem_of_In in Hx. specialize (Hf x Hx).
  by destruct (is_ascii_whitespace x).
Qed.

Lemma field_names : Forall field_name
  [bstr "format"; bstr "name"; bstr "key"; bstr "group"; bstr "not-before"; bstr "not-after"; bstr "issuer"; bstr "signature"].
Proof. repeat (apply Forall_cons; split; [by apply field_name_check|]). constructor. Qed.

Lemma certificate_lines_groups index (groups rest : list bytes) format name key before nb na issuer signature :
  Forall plain groups →
  certificate_lines index ((text_line <$> ((λ g, (bstr "group", g)) <$> groups : list (bytes * bytes))) ++ rest)
    (CertFields_mk format name key before nb na issuer signature) =
  certificate_lines (index + vlen groups) rest
    (CertFields_mk format name key (before ++ groups) nb na issuer signature).
Proof.
  intros H. revert index before. induction H as [|g groups Hg _ IH]; intros index before.
  { unfold vlen. simpl. by rewrite Z.add_0_r, app_nil_r. }
  rewrite !fmap_cons. cbn [app]. rewrite certificate_lines_cons; [|by apply (Forall_lookup_1 _ _ 3 _ field_names)|done].
  change (certificate_field (bstr "group") g _) with
    (Some (Ok (CertFields_mk format name key (before ++ [g]) nb na issuer signature))).
  cbn [default id mbind Result_bind]. rewrite IH, <-app_assoc. unfold vlen. cbn [length app].
  by replace (index + 1 + Z.of_nat (length groups)) with (index + Z.of_nat (S (length groups))) by lia.
Qed.

Definition groups_lt (a b : bytes) : Prop := bytes_compare a b = Lt.

Lemma set_insert_end g l : Forall (λ x, groups_lt x g) l → set_insert g l = l ++ [g].
Proof.
  induction 1 as [|x l Hx _ IH]; [done|]. cbn [set_insert]. unfold groups_lt in Hx.
  rewrite bytes_compare_antisym, Hx. simpl. by rewrite IH.
Qed.

Lemma set_insert_elem x g l : x ∈ set_insert g l → x = g ∨ x ∈ l.
Proof.
  induction l as [|y l IH]; cbn [set_insert]; [by intros ->%list_elem_of_singleton; left|].
  destruct (bytes_compare g y); rewrite !elem_of_cons; naive_solver.
Qed.

Lemma set_insert_sorted g l : StronglySorted groups_lt l → StronglySorted groups_lt (set_insert g l).
Proof.
  induction 1 as [|y l Hs IH Hall]; [repeat constructor|]. cbn [set_insert]. destruct (bytes_compare g y) eqn:E.
  - by constructor.
  - constructor; [by constructor|]. constructor; [done|]. eapply Forall_impl; [exact Hall|].
    intros z. unfold groups_lt in *. by apply bytes_compare_trans.
  - constructor; [done|]. apply Forall_forall. intros z [->|Hz]%set_insert_elem.
    + unfold groups_lt. by rewrite bytes_compare_antisym, E.
    + rewrite Forall_forall in Hall. by apply Hall.
Qed.

Definition valid_group (g : bytes) : Prop := validate_label g "certificate group" = Ok ().

Lemma collect_groups_Ok groups before l : collect_groups groups before = Ok l →
  StronglySorted groups_lt before → Forall valid_group before → Forall (λ g, from_utf8 g = Some g) before →
  Forall (λ g, from_utf8 g = Some g) groups →
  StronglySorted groups_lt l ∧ Forall valid_group l ∧ Forall (λ g, from_utf8 g = Some g) l.
Proof.
  revert before. induction groups as [|g groups IH]; intros before; cbn [collect_groups]; [by intros [= <-]|].
  intros E Hs Hv Hu Hg. apply Result_bind_Ok in E as ([] & E1 & E). apply Forall_cons in Hg as [Hg1 Hg].
  apply (IH _ E); [by apply set_insert_sorted| | |done]; apply Forall_forall; intros x [->|Hx]%set_insert_elem; try done.
  - rewrite Forall_forall in Hv. by apply Hv.
  - rewrite Forall_forall in Hu. by apply Hu.
Qed.

Lemma collect_groups_again l before : StronglySorted groups_lt (before ++ l) → Forall valid_group l →
  collect_groups l before = Ok (before ++ l).
Proof.
  intros Hs H. revert before Hs. induction H as [|g l Hg _ IH]; intros before Hs; cbn [collect_groups]; [by rewrite app_nil_r|].
  rewrite Hg. cbn [mbind Result_bind]. rewrite set_insert_end.
  - rewrite IH by (by rewrite <-app_assoc). by rewrite <-app_assoc.
  - clear -Hs. induction before as [|x before IH]; [constructor|]. inversion Hs as [|? ? Hs' Hall]; subst.
    constructor; [|by apply IH]. apply Forall_app in Hall as [_ Hall]. by apply Forall_cons in Hall as [Hall _].
Qed.

Lemma trim_end_newline v : (∀ e, e ∈ white_space → ¬ (e `suffix_of` v)) → trim_end (v ++ [newline]) = v.
Proof.
  intros Hv. unfold trim_end. rewrite rev_app_distr. cbn [rev app]. rewrite length_app, Nat.add_comm. cbn [length Nat.add].
  cbn [strip_all]. assert (Es : strip_any (map (@rev byte) white_space) (newline :: rev v) = Some (rev v)) by reflexivity.
  rewrite Es, strip_all_id; [apply rev_involutive|]. apply strip_any_None. intros e He [k E].
  apply list_elem_of_In, in_map_iff in He as (e0 & <- & He). apply list_elem_of_In in He. apply (Hv e0 He).
  exists (rev k). apply (f_equal (@rev byte)) in E. by rewrite rev_involutive, rev_app_distr, rev_involutive in E.
Qed.

Lemma CERT_FORMAT_plain : plain CERT_FORMAT.
Proof.
  assert (Hl : label_ok CERT_FORMAT); [|by apply label_plain].
  apply (validate_label_Ok _ "certificate name" ()); by vm_compute.
Qed.

(** What a certificate made by the program consists of. *)
Record made (c : Certificate) : Prop := {
  made_body : ∃ name key groups nb na issuer, CertificateBody_new name key groups nb na issuer = Ok (ct_body c) ∧
    from_utf8 name = Some name ∧ Forall (λ g, from_utf8 g = Some g) groups;
  made_key : vlen (cb_key (ct_body c)) = KEY_BYTES;
  made_window : window_typed (ct_body c);
  made_issuer : vlen (cb_issuer (ct_body c)) = KEY_BYTES ∧ vk_from_bytes (cb_issuer (ct_body c)) = true;
  made_signature : vlen (ct_signature c) = SIGNATURE_BYTES;
}.

Lemma made_parts c : made c → let b := ct_body c in
  validate_label (cb_name b) "certificate name" = Ok () ∧ plain (cb_name b) ∧ Forall plain (cb_groups b) ∧
  collect_groups (cb_groups b) [] = Ok (cb_groups b) ∧ vlen (cb_groups b) ≤ MAX_GROUPS ∧ cb_not_before b < cb_not_after b.
Proof.
  intros [(name & key & groups & nb & na & issuer & E & Hu & Hg) _ _ _ _]. cbv zeta.
  apply body_new_Ok in E as (Hn & Hc & Hm & Hw & Eb). rewrite Eb. cbn [cb_name cb_groups cb_not_before cb_not_after].
  destruct (collect_groups_Ok _ _ _ Hc) as (H1 & H2 & H3); [constructor|constructor|constructor|done|].
  split_and!; try done.
  - apply label_plain. by eapply validate_label_Ok.
  - apply Forall_forall. intros g Hin. rewrite Forall_forall in H2, H3. apply label_plain.
    eapply validate_label_Ok; [by apply H3|by apply H2].
  - by apply collect_groups_again.
Qed.

Lemma nonempty_of_length (bs : bytes) n : vlen bs = n → 0 < n → bs ≠ [].
Proof. intros <- H ->. done. Qed.

Lemma fields_plain c : made c → Forall (λ fv, field_name fv.1 ∧ plain fv.2) (certificate_fields c).
Proof.
  intros Hm. destruct (made_parts c Hm) as (_ & Hn & Hg & _). destruct Hm as [_ Hk [Hnb Hna] [Hi _] Hs].
  pose proof field_names as Hf. repeat (apply Forall_cons in Hf as [? Hf]). unfold certificate_fields.
  rewrite !Forall_app, !Forall_cons, Forall_fmap, Forall_nil. unfold in_range in *.
  split_and!; try done; cbn [fst snd]; try apply CERT_FORMAT_plain; try (apply dec_plain; lia);
    try (apply hex_plain; by eapply nonempty_of_length).
  eapply Forall_impl; [exact Hg|]. by intros g ?.
Qed.

(** Reads the line of a field. *)
Ltac take_field F := rewrite certificate_lines_cons by apply F; unfold certificate_field at 1;
    cbn [default id mbind Result_bind mret Result_ret set_once no_fields];
    rewrite ?bool_decide_eq_false_2 by (vm_compute; congruence); rewrite bool_decide_eq_true_2 by done;
    cbn [default id mbind Result_bind mret Result_ret set_once].

Lemma parsed_fields c : made c →
  certificate_lines 0 (text_line <$> certificate_fields c) no_fields =
  Ok (CertFields_mk (Some CERT_FORMAT) (Some (cb_name (ct_body c))) (Some (encode_hex (cb_key (ct_body c))))
        (cb_groups (ct_body c)) (Some (dec (cb_not_before (ct_body c)))) (Some (dec (cb_not_after (ct_body c))))
        (Some (encode_hex (cb_issuer (ct_body c)))) (Some (encode_hex (ct_signature c)))).
Proof.
  intros Hm. destruct (made_parts c Hm) as (_ & _ & Hgp & _). pose proof (fields_plain c Hm) as Hp.
  unfold certificate_fields in *. rewrite !Forall_app, !Forall_cons in Hp.
  destruct Hp as ((F1 & F2 & F3 & _) & _ & F4 & F5 & F6 & F7 & _). cbn [fst snd] in *.
  rewrite !fmap_app, !fmap_cons, fmap_nil. cbn [app].
  take_field F1. take_field F2. take_field F3. rewrite certificate_lines_groups by done. cbn [app].
  take_field F4. take_field F5. take_field F6. take_field F7. done.
Qed.

Lemma render_end c : ∃ p, Certificate_render c = (p ++ encode_hex (ct_signature c)) ++ [newline].
Proof. unfold Certificate_render, cert_line. eexists. rewrite !app_assoc. reflexivity. Qed.

(** A certificate is read back from its text, whether from the handshake message
    or from the file it was written to: every name, group, time, key and the signature
    come out as they went in. *)
Theorem certificate_text_roundtrip c : made c →
  Certificate_parse (Certificate_render c) = Ok c ∧
  Certificate_parse (trim_end (Certificate_render c) ++ [newline]) = Ok c.
Proof.
  intros Hm. assert (E : Certificate_parse (Certificate_render c) = Ok c).
  - unfold Certificate_parse. rewrite render_fields, lines_of_fields, parsed_fields by (done || by apply fields_plain).
    destruct (made_parts c Hm) as (Hn & _ & _ & Hg & Hmax & Hw). destruct Hm as [_ Hk [Hnb Hna] [Hi Hvk] Hs].
    cbn [mbind Result_bind cf_format cf_name cf_key cf_groups cf_not_before cf_not_after cf_issuer cf_signature].
    rewrite bool_decide_eq_true_2 by done. cbn [negb required ok_or mbind Result_bind].
    unfold PublicKey_from_hex, decode_key, RootPublicKey_from_hex, parse_seconds, parse_u64, in_range in *.
    rewrite !decode_encode_hex, !parse_uint_dec by done. cbn [ok_or mbind Result_bind]. rewrite Hvk. cbn [mbind Result_bind].
    unfold CertificateBody_new. rewrite Hn, Hg. cbn [mbind Result_bind].
    rewrite (proj2 (Z.ltb_ge _ _)), (proj2 (Z.leb_gt _ _)) by lia. destruct c as [[] ?]. done.
  - split; [done|]. destruct (render_end c) as [p Ep]. rewrite Ep, trim_end_newline; [by rewrite <-Ep|].
    intros e He. apply hex_plain; [|done]. destruct Hm as [_ _ _ _ Hs]. by eapply nonempty_of_length.
Qed.

End text.

(** ** Key files *)

Lemma fs_call_Ok {A} (f : Files → (bytes + A) * Files) part s a s' :
  fs_call f part s = (inr a, s') → f (fs_files s) = (inr a, fs_files s') ∧ fs_umask s' = fs_umask s.
Proof.
  unfold fs_call. destruct (fs_faults s) as [|[fault|] faults]; [|done|]; destruct (f (fs_files s)) as [r files];
    by intros [= -> <-].
Qed.

Lemma fs_call_calm {A} (f : Files → (bytes + A) * Files) part s : fs_faults s = [] →
  fs_call f part s = let '(r, files) := f (fs_files s) in (r, AuthFs_mk files (fs_umask s) []).
Proof. unfold fs_call. intros ->. done. Qed.

Lemma io_at_Ok {A} what path (call : AuthFs → (bytes + A) * AuthFs) s a s' :
  io_at what path call s = (Ok a, s') → call s = (inr a, s').
Proof. unfold io_at. destruct (call s) as [[text|x] s1]; [done|]. by intros [= -> ->]. Qed.

(** Every call on another path leaves a file as it is. *)
Lemma fs_call_other {A} (f : Files → (bytes + A) * Files) part s p :
  (f (fs_files s)).2 !! p = fs_files s !! p → (∀ n, part n (fs_files s) !! p = fs_files s !! p) →
  fs_files (fs_call f part s).2 !! p = fs_files s !! p.
Proof.
  intros H1 H2. unfold fs_call. destruct (fs_faults s) as [|[fault|] faults]; [|apply H2|];
    by destruct (f (fs_files s)) as [r files].
Qed.

Lemma and_then_other {A} (a : AuthFs → (bytes + unit) * AuthFs) (b : AuthFs → (bytes + A) * AuthFs) p :
  (∀ s, fs_files (a s).2 !! p = fs_files s !! p) → (∀ s, fs_files (b s).2 !! p = fs_files s !! p) →
  ∀ s, fs_files (and_then a b s).2 !! p = fs_files s !! p.
Proof.
  intros Ha Hb s. unfold and_then. specialize (Ha s). destruct (a s) as [[text|u] s1]; simpl in *; [done|].
  by rewrite Hb, Ha.
Qed.

Lemma fill_other path data mode label p s : p ≠ path →
  fs_files (fill_new_file path data mode label s).2 !! p = fs_files s !! p.
Proof.
  intros Hp. assert (Hr : ∀ s, fs_files (remove_file path s).2 !! p = fs_files s !! p).
  { intros s0. apply fs_call_other; [|done]. simpl. by apply lookup_delete_ne. }
  assert (Hw : ∀ bs s, fs_files (fs_write_all path bs s).2 !! p = fs_files s !! p).
  { intros bs s0. apply fs_call_other; simpl; [by apply lookup_alter_ne|intros n; by apply lookup_alter_ne]. }
  assert (Ha : ∀ s, fs_files (and_then (fs_write_all path data) (and_then (fs_write_all path [newline])
                     (and_then sync_all (set_permissions path mode))) s).2 !! p = fs_files s !! p).
  { repeat apply and_then_other; try apply Hw; intros s0; apply fs_call_other; try done. simpl. by apply lookup_alter_ne. }
  unfold fill_new_file. specialize (Ha s). destruct (and_then _ _ s) as [[text|u] s1]; simpl in *; [by rewrite Hr|done].
Qed.

Lemma create_cases path mode s r s' : create_new path mode s = (r, s') →
  match r with
  | inl _ => fs_files s' = fs_files s
  | inr _ => fs_files s !! path = None ∧
      fs_files s' = <[path := AuthFile_mk true (Z.land mode (Z.lnot (fs_umask s))) []]> (fs_files s)
  end.
Proof.
  unfold create_new, fs_call, whole. destruct (fs_faults s) as [|[fault|] faults]; [|by intros [= <- <-]|];
    (destruct (fs_files s !! path) eqn:E; by intros [= <- <-]).
Qed.

(** A new file does not take the place of another. *)
Lemma new_file_keeps path data mode label s p f : fs_files s !! p = Some f →
  fs_files (write_new_file path data mode label s).2 !! p = Some f.
Proof.
  intros Hf. unfold write_new_file, mbind, M_bind, io_at. destruct (create_new path mode s) as [r s1] eqn:E.
  apply create_cases in E. destruct r as [text|[]]; simpl; [by rewrite E|]. destruct E as [En Ef].
  assert (p ≠ path) by congruence. rewrite fill_other, Ef by done. by rewrite lookup_insert_ne.
Qed.

Lemma new_file_Ok path data mode label s u s' : write_new_file path data mode label s = (Ok u, s') →
  fs_files s !! path = None ∧ fs_files s' = <[path := AuthFile_mk true mode (data ++ [newline])]> (fs_files s).
Proof.
  unfold write_new_file. intros E. apply M_bind_Ok in E as ([] & s1 & E1 & E). apply io_at_Ok, create_cases in E1 as [Hn E1].
  split; [done|]. unfold fill_new_file, and_then in E.
  destruct (fs_write_all path data s1) as [[t|[]] s2] eqn:E2; [by destruct (remove_file path s2)|].
  destruct (fs_write_all path [newline] s2) as [[t|[]] s3] eqn:E3; [by destruct (remove_file path s3)|].
  destruct (sync_all s3) as [[t|[]] s4] eqn:E4; [by destruct (remove_file path s4)|].
  destruct (set_permissions path mode s4) as [[t|[]] s5] eqn:E5; [by destruct (remove_file path s5)|]. injection E as _ <-.
  apply fs_call_Ok in E2 as [E2 _], E3 as [E3 _], E4 as [E4 _], E5 as [E5 _].
  injection E2 as E2. injection E3 as E3. injection E4 as E4. injection E5 as E5.
  rewrite <-E5, <-E4, <-E3, <-E2, E1. unfold append_to. by rewrite !alter_insert_eq.
Qed.

Lemma utf8_ascii fuel bs : Forall (λ b, byte_to_Z b < 128) bs → utf8_loop fuel bs = true.
Proof.
  revert bs. induction fuel as [|fuel IH]; intros bs Hb; [done|]. destruct Hb as [|b bs Hb Hbs]; [done|]. cbn [utf8_loop].
  unfold utf8_chunk. change (byte_at 0 (b :: bs)) with (byte_to_Z b). rewrite (proj2 (Z.ltb_lt _ _) Hb). simpl.
  rewrite drop_0. by apply IH.
Qed.

(** What a key file holds is the key. *)
Lemma key_text k : k ≠ [] → let text := encode_hex k ++ [newline] in
  from_utf8 text = Some text ∧ trim text = encode_hex k.
Proof.
  intros Hk. cbv zeta. pose proof (hex_alnum k) as Ha. split.
  - unfold from_utf8. rewrite utf8_ascii; [done|]. apply Forall_app. split; [|by repeat constructor].
    eapply Forall_impl; [exact Ha|]. unfold alnum. intros b Hb. lia.
  - unfold trim. assert (Es : trim_start (encode_hex k ++ [newline]) = encode_hex k ++ [newline]).
    { apply strip_all_id, strip_any_None. intros e He [rest E]. destruct (white_space_heads e He) as (b & e' & -> & Hb).
      destruct (encode_hex k) as [|b' hex] eqn:Ek; [by destruct k|]. simpl in E. injection E as <- _.
      apply Forall_cons in Ha as [Ha _]. unfold alnum in Ha. lia. }
    rewrite Es. apply trim_end_newline. intros e He. apply (plain_end _ (hex_plain k Hk) [] e He).
Qed.

Definition access_ok (access : PrivateKeyAccess) (mode : Z) : bool :=
  let mode := Z.land mode 511 in
  match access with
  | OwnerOnly => negb (has_bits mode 63)
  | OwnerGroupRead => has_bits mode 32 && negb (has_bits mode 31)
  end.

Definition private_at (files : Files) (path : bytes) (access : PrivateKeyAccess) (k : bytes) : Prop :=
  ∃ f, files !! path = Some f ∧ af_regular f = true ∧ access_ok access (af_mode f) = true ∧
    from_utf8 (af_data f) = Some (af_data f) ∧ PrivateKey_from_hex (trim (af_data f)) = Ok k.

Definition public_at (files : Files) (path k : bytes) : Prop :=
  ∃ f, files !! path = Some f ∧ af_regular f = true ∧ from_utf8 (af_data f) = Some (af_data f) ∧
    PublicKey_from_hex (trim (af_data f)) = Ok k.

Lemma metadata_Ok path s f s' : fs_metadata path s = (inr f, s') → fs_files s !! path = Some f ∧ fs_files s' = fs_files s.
Proof. intros [E _]%fs_call_Ok. destruct (fs_files s !! path); [|done]. by injection E as -> ->. Qed.

Lemma read_text_Ok path s text s' : read_to_string path s = (inr text, s') → fs_files s' = fs_files s ∧
  ∃ f, fs_files s !! path = Some f ∧ af_regular f = true ∧ from_utf8 (af_data f) = Some (af_data f) ∧ text = af_data f.
Proof.
  intros [E _]%fs_call_Ok. destruct (fs_files s !! path) as [f|]; [|done]. destruct (af_regular f) eqn:Er; [|done].
  simpl in E. destruct (from_utf8 (af_data f)) as [t|] eqn:Eu; [|done]. injection E as -> ->.
  pose proof (from_utf8_Some _ _ Eu) as ->. split; [done|]. by exists f.
Qed.

Lemma read_private_Ok path access s k s' : read_with_access path access s = (Ok k, s') →
  private_at (fs_files s) path access k ∧ fs_files s' = fs_files s.
Proof.
  unfold read_with_access. intros E. apply M_bind_Ok in E as (f & s1 & E1 & E). apply io_at_Ok, metadata_Ok in E1 as [Ef E1].
  destruct (af_regular f) eqn:Er; [|done]. cbn [negb] in E. apply M_bind_Ok in E as (u & s2 & E2 & E).
  assert (Ha : access_ok access (af_mode f) = true ∧ s2 = s1).
  { unfold access_ok. destruct access; repeat destruct (has_bits _ _); simpl in E2; try discriminate E2;
      by injection E2 as _ <-. }
  destruct Ha as [Ha ->]. apply M_bind_Ok in E as (text & s3 & E3 & E). apply io_at_Ok, read_text_Ok in E3 as [E3 (f' & Ef' & _ & Hu & ->)].
  apply auth_lift_Ok in E as [E ->]. rewrite E1 in Ef'. assert (f' = f) as -> by congruence. split; [by exists f|congruence].
Qed.

Lemma read_public_Ok path s k s' : PublicKey_read path s = (Ok k, s') → public_at (fs_files s) path k ∧ fs_files s' = fs_files s.
Proof.
  unfold PublicKey_read. intros E. apply M_bind_Ok in E as (text & s1 & E1 & E).
  apply io_at_Ok, read_text_Ok in E1 as [E1 (f & Ef & Er & Hu & ->)]. apply auth_lift_Ok in E as [E ->]. split; [by exists f|done].
Qed.

Lemma fs_call_pure {A} (f : Files → (bytes + A) * Files) part s a : fs_faults s = [] →
  f (fs_files s) = (inr a, fs_files s) → fs_call f part s = (inr a, s).
Proof. intros Hc E. rewrite fs_call_calm, E by done. destruct s. simpl in Hc. by subst. Qed.

Lemma exists_calm path label s : fs_faults s = [] →
  path_exists path label s = (Ok (bool_decide (is_Some (fs_files s !! path))), s).
Proof.
  intros Hc. unfold path_exists, io_at.
  assert (E : try_exists path s = (inr (bool_decide (is_Some (fs_files s !! path))), s)) by (by apply fs_call_pure).
  by rewrite E.
Qed.

Lemma metadata_calm path s f : fs_faults s = [] → fs_files s !! path = Some f → fs_metadata path s = (inr f, s).
Proof. intros Hc Ef. unfold fs_metadata. apply fs_call_pure; [done|]. by rewrite Ef. Qed.

Lemma read_text_calm path s f : fs_faults s = [] → fs_files s !! path = Some f → af_regular f = true →
  from_utf8 (af_data f) = Some (af_data f) → read_to_string path s = (inr (af_data f), s).
Proof. intros Hc Ef Er Hu. unfold read_to_string. apply fs_call_pure; [done|]. by rewrite Ef, Er, Hu. Qed.

Lemma read_private_calm path access s k : fs_faults s = [] → private_at (fs_files s) path access k →
  read_with_access path access s = (Ok k, s).
Proof.
  intros Hc (f & Ef & Er & Ha & Hu & Hk). unfold read_with_access, mbind, M_bind, io_at.
  rewrite (metadata_calm path s f), Er by done. cbn [negb].
  assert (E : (match access with
    | OwnerOnly => if has_bits (Z.land (af_mode f) 511) 63
        then throw (private_key_refusal path " must not be accessible by group or other users") else mret ()
    | OwnerGroupRead => if negb (has_bits (Z.land (af_mode f) 511) 32) || has_bits (Z.land (af_mode f) 511) 31
        then throw (private_key_refusal path
          " must grant group read without group write, group execute, or other access") else mret ()
    end : M AuthFs unit) s = (Ok (), s)).
  { unfold access_ok in Ha. destruct access; repeat destruct (has_bits _ _); done. }
  rewrite E. rewrite (read_text_calm path s f) by done. by rewrite Hk.
Qed.

Lemma read_public_calm path s k : fs_faults s = [] → public_at (fs_files s) path k → PublicKey_read path s = (Ok k, s).
Proof.
  intros Hc (f & Ef & Er & Hu & Hk). unfold PublicKey_read, mbind, M_bind, io_at.
  rewrite (read_text_calm path s f) by done. by rewrite Hk.
Qed.

Definition retains {A} (m : M AuthFs A) : Prop := ∀ s p f, fs_files s !! p = Some f → fs_files (m s).2 !! p = Some f.

Lemma retains_bind {A B} (m : M AuthFs A) (k : A → M AuthFs B) : retains m → (∀ a, retains (k a)) → retains (m ≫= k).
Proof.
  intros Hm Hk s p f Hf. unfold mbind, M_bind. specialize (Hm s p f Hf). destruct (m s) as [[a|e] s1]; simpl in *; [|done].
  by apply Hk.
Qed.

Lemma retains_lift {A} (r : Result A) : retains (lift r).
Proof. by intros s p f. Qed.

Lemma retains_throw {A} e : retains (throw e : M AuthFs A).
Proof. by intros s p f. Qed.

Lemma retains_ret {A} (a : A) : retains (mret a).
Proof. by intros s p f. Qed.

Lemma retains_io {A} (what path : bytes) (f : Files → bytes + A) : retains (io_at what path (fs_call (λ files, (f files, files)) whole)).
Proof.
  intros s p x Hx. unfold io_at. assert (H : fs_files (fs_call (λ files, (f files, files)) whole s).2 !! p = Some x).
  { rewrite fs_call_other; done. }
  destruct (fs_call _ whole s) as [[t|a] s1]; done.
Qed.

Lemma retains_new_file path data mode label : retains (write_new_file path data mode label).
Proof. intros s p f. apply new_file_keeps. Qed.

Lemma retains_read_private path access : retains (read_with_access path access).
Proof.
  apply retains_bind; [apply retains_io|]. intros m. destruct (negb _); [apply retains_throw|]. apply retains_bind.
  - destruct access; (case_match; [apply retains_throw|apply retains_ret]).
  - intros _. apply retains_bind; [apply retains_io|]. intros v. apply retains_lift.
Qed.

Lemma retains_write_pair private_path public_path pair access :
  retains (write_key_pair_with_access private_path public_path pair access).
Proof.
  apply retains_bind; [apply retains_lift|]. intros _ s p f Hf. unfold mbind, M_bind.
  pose proof (new_file_keeps private_path (PrivateKey_render (kp_private pair)) (file_mode access) (bstr "private key") s p f Hf) as H1.
  destruct (write_new_file private_path _ _ _ s) as [[u|e] s1] eqn:E1; simpl in *; [|done].
  apply new_file_Ok in E1 as [En _]. assert (p ≠ private_path) by congruence. unfold remove_after_error.
  pose proof (new_file_keeps public_path (PublicKey_to_hex (kp_public pair)) 420 (bstr "public key") s1 p f H1) as H2.
  destruct (write_new_file public_path _ _ _ s1) as [[u'|e] s2]; simpl in *; [done|].
  unfold remove_file. rewrite fs_call_other; [done| |done]. simpl. by apply lookup_delete_ne.
Qed.

Section provisioning.
Context {noise : Noise} (private_path public_path : bytes) (access : PrivateKeyAccess).

(** The two files hold a pair. *)
Definition provisioned (files : Files) (pair : KeyPair) : Prop :=
  path_components private_path ≠ path_components public_path ∧ private_at files private_path access (kp_private pair) ∧
  public_at files public_path (kp_public pair) ∧ derive_public_key (kp_private pair) = Ok (kp_public pair).

Lemma key_array_Ok bs label k : key_array bs label = Ok k → k = bs ∧ vlen k = KEY_BYTES.
Proof. unfold key_array. destruct (Z.eqb_spec (vlen bs) KEY_BYTES); [|done]. by intros [= <-]. Qed.

Lemma key_file_public files k : vlen k = KEY_BYTES →
  files !! public_path = Some (AuthFile_mk true 420 (encode_hex k ++ [newline])) → public_at files public_path k.
Proof.
  intros Hk Ef. destruct (key_text k) as [H1 H2]; [by eapply nonempty_of_length|]. eexists. split; [done|]. simpl.
  split_and!; [done|done|]. rewrite H2. by apply decode_encode_hex.
Qed.

Lemma key_file_private files k : vlen k = KEY_BYTES →
  files !! private_path = Some (AuthFile_mk true (file_mode access) (encode_hex k ++ [newline])) →
  private_at files private_path access k.
Proof.
  intros Hk Ef. destruct (key_text k) as [H1 H2]; [by eapply nonempty_of_length|]. eexists. split; [done|]. simpl.
  split_and!; [done|by destruct access|done|]. rewrite H2. by apply decode_encode_hex.
Qed.

Lemma provisioned_again entropy s pair : fs_faults s = [] → provisioned (fs_files s) pair →
  provision_key_pair_with_access entropy private_path public_path access s = (Ok pair, s).
Proof.
  intros Hc (Hd & Hr & Hu & Hk). unfold provision_key_pair_with_access, mbind, M_bind, lift, paths_differ.
  rewrite bool_decide_eq_false_2, !exists_calm by done. destruct Hr as (f & Ef & Hr). destruct Hu as (g & Eg & Hu).
  rewrite Ef, Eg. cbn -[read_with_access PublicKey_read]. rewrite (read_private_calm _ _ s (kp_private pair)); [|done|by exists f].
  rewrite (read_public_calm _ s (kp_public pair)); [|done|by exists g]. rewrite Hk, bool_decide_eq_true_2 by done. by destruct pair.
Qed.

Hypothesis consistent : ∀ entropy builder private public,
  generate_keypair entropy builder = inr (private, public) → public = dh_pubkey private.

Lemma generated_Ok entropy pair : generate_key_pair entropy = Ok pair →
  vlen (kp_private pair) = KEY_BYTES ∧ vlen (kp_public pair) = KEY_BYTES ∧ kp_public pair = dh_pubkey (kp_private pair).
Proof using consistent.
  unfold generate_key_pair. intros E. apply Result_bind_Ok in E as (params & _ & E).
  apply Result_bind_Ok in E as ([private public] & Eg & E). apply Result_bind_Ok in E as (k & Hk & E).
  apply Result_bind_Ok in E as (k' & Hk' & [= <-]). apply key_array_Ok in Hk as [-> ?], Hk' as [-> ?]. simpl.
  unfold noise_error in Eg. destruct (generate_keypair _ _) as [|[a b]] eqn:Ek; [done|]. injection Eg as -> ->.
  split_and!; [done|done|by eapply consistent].
Qed.

Lemma exists_Ok path label s b s' : path_exists path label s = (Ok b, s') →
  b = bool_decide (is_Some (fs_files s !! path)) ∧ fs_files s' = fs_files s.
Proof. intros [E _]%io_at_Ok%fs_call_Ok. by injection E as <- <-. Qed.

Lemma provision_Ok entropy s pair s' :
  provision_key_pair_with_access entropy private_path public_path access s = (Ok pair, s') → provisioned (fs_files s') pair.
Proof using consistent.
  unfold provision_key_pair_with_access. intros E. apply M_bind_Ok in E as (u & s0 & E0 & E). apply auth_lift_Ok in E0 as [E0 ->].
  assert (Hd : path_components private_path ≠ path_components public_path) by (unfold paths_differ in E0; by case_bool_decide).
  assert (Hp : private_path ≠ public_path) by congruence.
  apply M_bind_Ok in E as (a & s1 & E1 & E). apply exists_Ok in E1 as [-> F1].
  apply M_bind_Ok in E as (b & s2 & E2 & E). apply exists_Ok in E2 as [-> F2].
  assert (F : fs_files s2 = fs_files s) by congruence. rewrite F1 in E.
  case_bool_decide as Ha; case_bool_decide as Hb.
  - apply M_bind_Ok in E as (private & s3 & E3 & E). apply read_private_Ok in E3 as [P3 F3].
    apply M_bind_Ok in E as (public & s4 & E4 & E). apply read_public_Ok in E4 as [P4 F4].
    apply M_bind_Ok in E as (derived & s5 & E5 & E). apply auth_lift_Ok in E5 as [E5 ->].
    case_bool_decide as Hk; [|done]. injection E as <- <-. rewrite F3 in P4. unfold provisioned. rewrite F4, F3. simpl.
    subst derived. done.
  - apply M_bind_Ok in E as (private & s3 & E3 & E). apply read_private_Ok in E3 as [(f & Ef & P3) F3].
    apply M_bind_Ok in E as (public & s4 & E4 & E). apply auth_lift_Ok in E4 as [E4 ->].
    apply M_bind_Ok in E as ([] & s5 & E5 & E). apply new_file_Ok in E5 as [_ F5]. injection E as <- <-.
    pose proof E4 as Hl. apply key_array_Ok in Hl as [_ Hl]. unfold provisioned. rewrite F5, F3. simpl. split_and!; [done| | |done].
    + exists f. rewrite lookup_insert_ne by done. done.
    + apply key_file_public; [done|]. apply lookup_insert_eq.
  - done.
  - apply M_bind_Ok in E as (pair' & s3 & E3 & E). apply auth_lift_Ok in E3 as [E3 ->].
    apply M_bind_Ok in E as ([] & s4 & E4 & E). injection E as <- <-. apply generated_Ok in E3 as (H1 & H2 & H3).
    unfold write_key_pair_with_access in E4. apply M_bind_Ok in E4 as (u1 & s5 & E5 & E4). apply auth_lift_Ok in E5 as [_ ->].
    apply M_bind_Ok in E4 as ([] & s6 & E6 & E4). apply new_file_Ok in E6 as [_ F6]. unfold remove_after_error in E4.
    destruct (write_new_file public_path _ _ _ s6) as [[[]|e] s7] eqn:E7; [|done]. injection E4 as <-.
    apply new_file_Ok in E7 as [_ F7]. unfold provisioned. rewrite F7, F6. split_and!; [done| | |].
    + apply key_file_private; [done|]. rewrite lookup_insert_ne by done. apply lookup_insert_eq.
    + apply key_file_public; [done|]. apply lookup_insert_eq.
    + unfold derive_public_key, PublicKey_from_bytes, key_array. rewrite <-H3, H2. done.
Qed.

(** Provisioning converges and destroys nothing: whatever fails, no file that was
    there is changed or removed; and once it has given a key pair, it gives the same
    pair again and writes nothing. *)
Theorem provisioning_converges entropy s :
  let '(r, s') := provision_key_pair_with_access entropy private_path public_path access s in
  (∀ path file, fs_files s !! path = Some file → fs_files s' !! path = Some file) ∧
  match r with
  | Ok keys => ∀ entropy' s2, fs_files s2 = fs_files s' → fs_faults s2 = [] →
      provision_key_pair_with_access entropy' private_path public_path access s2 = (Ok keys, s2)
  | Err _ => True
  end.
Proof using consistent.
  destruct (provision_key_pair_with_access entropy private_path public_path access s) as [r s'] eqn:E. split.
  - intros path file Hf. change s' with ((r, s').2). rewrite <-E. revert s path file Hf E. intros s path file Hf _.
    revert s path file Hf. change (retains (provision_key_pair_with_access entropy private_path public_path access)).
    apply retains_bind; [apply retains_lift|]. intros _. apply retains_bind; [apply retains_io|]. intros a.
    apply retains_bind; [apply retains_io|]. intros b. destruct a, b.
    + apply retains_bind; [apply retains_read_private|]. intros k. apply retains_bind.
      { apply retains_bind; [apply retains_io|]. intros v. apply retains_lift. }
      intros k'. apply retains_bind; [apply retains_lift|]. intros d. case_bool_decide; [apply retains_ret|apply retains_throw].
    + apply retains_bind; [apply retains_read_private|]. intros k. apply retains_bind; [apply retains_lift|]. intros k'.
      apply retains_bind; [apply retains_new_file|]. intros _. apply retains_ret.
    + apply retains_throw.
    + apply retains_bind; [apply retains_lift|]. intros k. apply retains_bind; [apply retains_write_pair|]. intros _. apply retains_ret.
  - destruct r as [pair|]; [|done]. apply provision_Ok in E. intros entropy' s2 Ef Hc. apply provisioned_again; [done|].
    by rewrite Ef.
Qed.

End provisioning.

(** ** Subjects *)

(** What a certificate names is no subject of a local peer, and two certificates share
    a subject only if they name the same principal. *)
Lemma subject_principal i j x : x ∈ subject_ids i → x ∈ subject_ids j → certified_principal i = certified_principal j.
Proof.
  assert (Hc : ∀ p k, bstr "r9p-cert:" ++ p ∈ subject_ids k → certified_principal k = Some p).
  { intros p [|q|uid []]; cbn [subject_ids]; rewrite ?elem_of_cons, ?elem_of_nil; intros H;
      repeat destruct H as [H|H]; try done; try (exfalso; cbn in H; discriminate H).
    apply app_inv_head in H. by subst. }
  intros Hi Hj. destruct i as [|p|uid su].
  2: { apply list_elem_of_singleton in Hi as ->. symmetry. by apply Hc. }
  all: destruct j as [|q|uid' su']; try done; apply list_elem_of_singleton in Hj as ->; apply Hc in Hi; discriminate Hi.
Qed.

(** ** A session between [alice] and [store] *)

Module Toy.

Definition root : bytes := repeat x52 32.
Definition alice_key : bytes := repeat x61 32.
Definition store_key : bytes := repeat x73 32.
Definition no_signature : bytes := repeat x00 64.

Definition body_of (name key : bytes) (groups : list bytes) : CertificateBody :=
  CertificateBody_mk name key groups 1000 2000 root.
Definition alice_body : CertificateBody := body_of (bstr "alice") alice_key [bstr "admin"; bstr "ops"].
Definition store_body : CertificateBody := body_of (bstr "store") store_key [].
Definition issued (r : bytes) : list CertificateBody := if bool_decide (r = root) then [alice_body; store_body] else [].

(** A signature scheme that remembers what was signed. *)
#[local] Instance toy_ed25519 : Ed25519 := {|
  vk_from_bytes bs := vlen bs =? 32;
  verifying_key k := k;
  ed_sign _ _ := no_signature;
  verify_strict r m _ := existsb (λ b, bool_decide (signing_input b = Ok m)) (issued r);
|}.

Definition tag (n : Z) : bytes := le_bytes 16 n.

(** A handshake that sends the keys in the clear, and a transport that knows the
    records of the session. *)
#[local] Instance toy_noise : Noise := {|
  Params := unit; Builder := bytes; Entropy := unit; Handshake := bytes * option bytes * nat; Transport := list bytes;
  noise_parse _ := inr tt;
  builder_new _ := [];
  builder_prologue _ b := inr b;
  builder_private_key k _ := inr k;
  build_initiator _ k := inr (k, None, 0%nat);
  build_responder _ k := inr (k, None, 0%nat);
  generate_keypair _ _ := inr (alice_key, alice_key);
  hs_write_message payload h := let '(k, remote, n) := h in (inr (k ++ payload), (k, remote, S n));
  hs_read_message message h := let '(k, _, n) := h in (inr (drop 32 message), (k, Some (take 32 message), S n));
  get_remote_static h := h.1.2;
  is_handshake_finished h := (h.2 =? 3)%nat;
  into_stateless_transport_mode h := inr [];
  tr_write_message records n p :=
    if bool_decide (records !! Z.to_nat n = Some p) && (0 <=? n) then inr (p ++ tag n) else inl (bstr "unknown record");
  tr_read_message records n c :=
    match records !! Z.to_nat n with
    | Some p => if bool_decide (c = p ++ tag n) then inr p else inl (bstr "decrypt error")
    | None => inl (bstr "decrypt error")
    end;
  dh_pubkey k := k;
|}.

Definition certificate (b : CertificateBody) : Certificate := Certificate_mk b no_signature.
Definition server : ServerConfig := ServerConfig_mk (bstr "store") store_key (Some (certificate store_body)) [root].
Definition client : ClientConfig := ClientConfig_mk alice_key (Some (certificate alice_body)) [root].
Definition socket (incoming : Reader) : TcpStream := TcpStream_mk incoming (Writer_mk [] []) false None None false [].
Definition frame (m : bytes) : bytes := be_bytes 2 (vlen m) ++ m.

Definition from_client : Reader :=
  [Chunk (bstr "noise-xx store" ++ [x00]); Chunk (frame alice_key);
   Chunk (frame (alice_key ++ Certificate_render (certificate alice_body)))].
Definition from_server : Reader :=
  [Chunk (bstr "v.2 noise-xx@store" ++ [x00]); Chunk (bstr "OK" ++ [x00]);
   Chunk (frame (store_key ++ Certificate_render (certificate store_body)))].

Lemma toy_unforgeable r m signature : verify_strict r m signature = true → ∃ b, b ∈ issued r ∧ signing_input b = Ok m.
Proof.
  simpl. intros (b & Hb & Hm)%existsb_exists. exists b. apply bool_decide_eq_true in Hm. split; [by apply list_elem_of_In|done].
Qed.

Lemma toy_typed r b : b ∈ issued r → window_typed b.
Proof.
  unfold issued. case_bool_decide; [|by intros ?%elem_of_nil].
  intros [->|[->|?%elem_of_nil]%elem_of_cons]%elem_of_cons; [split; split; vm_compute; congruence..|done].
Qed.

Lemma run_ok {A S} (r : Result A * S) (P : A → Prop) :
  match r.1 with Ok a => P a | Err _ => False end → ∃ a s, r = (Ok a, s) ∧ P a.
Proof. destruct r as [[a|e] s]; [|done]. simpl. eauto. Qed.

Lemma admitted_peers_certified_witness : ∃ session s',
  authenticate_server tt (Ok 1500) server 1 (socket from_client) = (Ok session, s') ∧
  as_peer session = PeerIdentity_mk (bstr "alice") alice_key [bstr "admin"; bstr "ops"] ∧
  ∃ body, vouched issued [root] (Ok 1500) body ∧ cb_name body = bstr "alice".
Proof.
  destruct (run_ok (@authenticate_server toy_ed25519 toy_noise tt (Ok 1500) server 1 (socket from_client))
    (λ session, as_peer session = PeerIdentity_mk (bstr "alice") alice_key [bstr "admin"; bstr "ops"]))
    as (session & s' & E & Ep); [vm_compute; reflexivity|]. exists session, s'. split; [exact E|]. split; [exact Ep|].
  destruct (admitted_peers_certified issued toy_typed toy_unforgeable _ _ _ _ _ _ _ E) as (body & h & Hv & Hp & _).
  exists body. split; [exact Hv|]. rewrite Ep in Hp. by injection Hp.
Defined.

Lemma responder_is_certified_witness : ∃ stream s',
  authenticate_client_to tt (Ok 1500) client (bstr "store") (bstr "alice") 1 (socket from_server) = (Ok stream, s') ∧
  ∃ body, vouched issued [root] (Ok 1500) body ∧ cb_name body = bstr "store".
Proof.
  destruct (run_ok (@authenticate_client_to toy_ed25519 toy_noise tt (Ok 1500) client (bstr "store") (bstr "alice") 1 (socket from_server))
    (λ _, True)) as (stream & s' & E & _); [vm_compute; exact I|]. exists stream, s'. split; [exact E|].
  destruct (responder_is_certified issued toy_typed toy_unforgeable _ _ _ _ _ _ _ _ _ E) as (body & h & third & Hv & Hn & _).
  exists body. split; [exact Hv|exact Hn].
Defined.

(** With the certificate of another the key does not fit, and after its end it is refused. *)
Definition refusal {A S} (r : Result A * S) : bytes := match r.1 with Err e => message e | Ok _ => [] end.

Lemma refusals :
  refusal (authenticate_server tt (Ok 1500) server 1
     (socket [Chunk (bstr "noise-xx store" ++ [x00]); Chunk (frame store_key);
              Chunk (frame (store_key ++ Certificate_render (certificate alice_body)))])) =
    bstr "certificate for alice was issued for a different session key" ∧
  refusal (authenticate_server tt (Ok 2000) server 1 (socket from_client)) = bstr "certificate for alice expired at 2000".
Proof. split; vm_compute; reflexivity. Qed.

Lemma certificate_text_roundtrip_witness :
  made (certificate alice_body) ∧
  Certificate_parse (Certificate_render (certificate alice_body)) = Ok (certificate alice_body).
Proof.
  assert (H : made (certificate alice_body)).
  { split; [|reflexivity|split; split; vm_compute; congruence|split; reflexivity|reflexivity].
    exists (bstr "alice"), alice_key, [bstr "ops"; bstr "admin"; bstr "ops"], 1000, 2000, root.
    split; [vm_compute; reflexivity|]. split; [vm_compute; reflexivity|]. repeat constructor. }
  split; [exact H|]. by apply (certificate_text_roundtrip _ H).
Defined.

Definition records : list bytes := [bstr "Tversion"; bstr "Tattach"].
Definition session : @Transport toy_noise := records.
Definition written : list bytes * SecureStream := write_run records (SecureStream_new (socket []) session).
(** What was written, in two pieces. *)
Definition pieces : Reader := [Chunk (take 7 (outgoing written.2)); Chunk (drop 7 (outgoing written.2))].

Lemma toy_authentic n c p : tr_read_message session n c = inr p → records !! Z.to_nat n = Some p.
Proof.
  cbn [tr_read_message toy_noise session]. unfold session. destruct (records !! Z.to_nat n) as [q|]; [|done].
  case_bool_decide; [|done]. by intros [= ->].
Qed.

Lemma toy_correct n p c : tr_write_message session n p = inr c →
  tr_read_message session n c = inr p ∧ vlen c = vlen p + AUTH_TAG_BYTES.
Proof.
  cbn [tr_write_message tr_read_message toy_noise session]. unfold session. case_bool_decide as E; [|done]. simpl.
  destruct (0 <=? n); [|done]. intros [= <-]. rewrite E, bool_decide_eq_true_2 by done. split; [done|].
  rewrite vlen_app. unfold vlen, tag. by rewrite length_le_bytes.
Qed.

Lemma secure_stream_faithful_witness :
  written.1 = records ∧
  (read_run [3; 3; 3; 100; 5] (SecureStream_new (socket pieces) session)).1 `prefix_of` concat records ∧
  (read_run (repeat 4 15) (SecureStream_new (socket pieces) session)).1 = concat records.
Proof.
  assert (E : written.1 = records) by (vm_compute; reflexivity). split; [exact E|].
  assert (Hp : stream pieces = outgoing written.2) by (unfold pieces, stream; cbn [map event_data concat]; by rewrite app_nil_r, take_drop).
  assert (Hs : steady pieces).
  { constructor; [eexists; split; [reflexivity|vm_compute; discriminate]|].
    constructor; [eexists; split; [reflexivity|vm_compute; discriminate]|constructor]. }
  pose proof (secure_stream_faithful session session records (socket []) [3; 3; 3; 100; 5] (socket pieces)) as H.
  fold written in H. destruct written as [rs w]. cbn [fst snd] in *. subst rs.
  destruct H as [H1 H2]; [intros n c p _; apply toy_authentic|repeat constructor; lia|]. split; [exact H1|].
  apply H2; [apply toy_correct|done|done|exact Hs|exact Hp|lia|vm_compute; lia].
Defined.

Lemma toy_consistent (entropy : @Entropy toy_noise) builder private public :
  generate_keypair entropy builder = inr (private, public) → public = dh_pubkey private.
Proof. simpl. by intros [= <- <-]. Qed.

Definition other_file : AuthFile := AuthFile_mk true 420 (bstr "kept").

(** Writing the public key fails: the private key is taken back, the other file stays. *)
Definition keys_disk : AuthFs :=
  AuthFs_mk {[bstr "/keys/other" := other_file]} 18
    [None; None; None; None; None; None; None; Some (Fault_mk (bstr "No space left on device (os error 28)") 0)].

Lemma provisioning_converges_witness :
  let run := provision_key_pair_with_access (tt : @Entropy toy_noise) (bstr "/keys/private") (bstr "/keys/public") OwnerOnly keys_disk in
  fs_files run.2 !! bstr "/keys/other" = Some other_file ∧ fs_files run.2 !! bstr "/keys/private" = None.
Proof.
  pose proof (provisioning_converges (bstr "/keys/private") (bstr "/keys/public") OwnerOnly toy_consistent tt keys_disk) as H.
  cbv zeta. split; [|vm_compute; reflexivity].
  destruct (provision_key_pair_with_access _ _ _ _ keys_disk) as [r s']. destruct H as [H _]. by apply H.
Defined.

End Toy.
