(* ===== verification/Reverse.v ===== *)
(** The reverse transport: [crates/reverse/src/] broker.rs, claim.rs, export.rs,
    session_proxy.rs and lib.rs.

    A broker, an export and a session proxy are each a state shared by threads, and a
    step is what one thread does up to its next access to what the others depend on:
    the shutdown flag, a limit, the queue of waiting streams, the table of active
    streams.  Counts that are only reported are taken with the step beside them.  What
    the operating system answers to a step is its [Env].  Instants and durations are
    nanoseconds.  No lock is poisoned and no copy panics. *)
From S2P Require Import Prelude Errors Codec Session Utf8 Referral NamespaceCache Text Endpoint ExportDescriptor FrameIO AuthCert AuthStream.

(** ** Sockets *)

Definition socket_option {A} (f : TcpStream → A * TcpStream) (s : TcpStream) : (IoError + A) * TcpStream :=
  let rest := TcpStream_mk (tcp_in s) (tcp_out s) (tcp_nodelay s) (tcp_read_timeout s) (tcp_write_timeout s)
                (tcp_shut s) (tail (tcp_options s)) in
  match tcp_options s with
  | Some text :: _ => (inl (IoError_mk OtherKind text), rest)
  | _ => let '(a, s) := f rest in (inr a, s)
  end.

(** The kernel's probes of an idle peer show only in what later calls return. *)
Definition set_tcp_keepalive (s : TcpStream) : unit * TcpStream := ((), s).

Definition configure_transport_socket : TcpStream → (IoError + unit) * TcpStream :=
  io_then (socket_option set_nodelay) (socket_option set_tcp_keepalive).

(** [TcpStream::peek]: data stays for the next read, a failure does not. *)
Definition tcp_peek (n : nat) (s : TcpStream) : (IoError + bytes) * TcpStream :=
  match FrameIO.read n (tcp_in s) with
  | (inl e, reader) => (inl e, set_in reader s)
  | (inr bs, _) => (inr bs, s)
  end.

Inductive LocalStream := LocalTcp (s : TcpStream) | LocalUnix (s : TcpStream).

Definition local_socket (l : LocalStream) : TcpStream := match l with LocalTcp s | LocalUnix s => s end.

Definition on_local {A} (f : TcpStream → A * TcpStream) (l : LocalStream) : A * LocalStream :=
  match l with
  | LocalTcp s => let '(a, s) := f s in (a, LocalTcp s)
  | LocalUnix s => let '(a, s) := f s in (a, LocalUnix s)
  end.

Definition local_configure (l : LocalStream) : (IoError + unit) * LocalStream :=
  match l with
  | LocalTcp s => let '(r, s) := configure_transport_socket s in (r, LocalTcp s)
  | LocalUnix _ => (inr (), l)
  end.

(** What a read finds on a socket that was shut down: bytes that the kernel had queued
    before, and then the end, or a failure. *)
Inductive AfterShut := Queued | Ended | Failed (e : IoError).

(** [Some]: the socket was shut down and has nothing queued. *)
Definition after_shut (a : AfterShut) (s : TcpStream) : option (IoError + bytes) :=
  if tcp_shut s then match a with Queued => None | Ended => Some (inr []) | Failed e => Some (inl e) end else None.

Definition local_read (a : AfterShut) (n : nat) (l : LocalStream) : (IoError + bytes) * LocalStream :=
  match after_shut a (local_socket l) with
  | Some ended => (ended, l)
  | None => on_local (tcp_read n) l
  end.
Definition local_write_all (bs : bytes) : LocalStream → (IoError + unit) * LocalStream := on_local (tcp_write_all bs).
Definition local_shutdown (l : LocalStream) : LocalStream := (on_local (λ s, ((), shutdown_transport s)) l).2.

Section reverse.
Context `{!Ed25519} `{!Noise}.

Definition peer_closed (timeout : Z) (s : SecureStream) : (IoError + bool) * SecureStream :=
  if timeout =? 0
  then (inl (IoError_mk OtherKind (bstr "peer-close observation timeout must be nonzero")), s)
  else
    match on_stream (socket_option (λ t, (tcp_read_timeout t, t))) s with
    | (inl e, s) => (inl e, s)
    | (inr previous, s) =>
        match on_stream (socket_option (set_read_timeout (Some timeout))) s with
        | (inl e, s) => (inl e, s)
        | (inr _, s) =>
            let '(peeked, s) := on_stream (tcp_peek 1) s in
            let observed :=
              match peeked with
              | inr [] => inr true
              | inr _ => inr false
              | inl e => if bool_decide (io_kind e = WouldBlock) || bool_decide (io_kind e = TimedOut)
                         then inr false else inl e
              end in
            let '(restored, s) := on_stream (socket_option (set_read_timeout previous)) s in
            (match observed, restored with
             | inr value, inr _ => inr value
             | inl error, _ => inl error
             | _, inl error => inl error
             end, s)
        end
    end.

(** ** claim.rs *)

Definition SESSION_CLAIM : bytes := bstr "r9p-reverse-session-claim.v1".

(** [Write::write_all]: a turn that goes on has sent a byte or met an interruption. *)
Fixpoint secure_write_all_loop (fuel : nat) (bs : bytes) (s : SecureStream) : option ((IoError + unit) * SecureStream) :=
  match bs with
  | [] => Some (inr (), s)
  | _ =>
      match fuel with
      | O => None
      | S fuel =>
          match secure_write bs s with
          | (inr n, s) => if n =? 0 then Some (inl (IoError_mk OtherKind (bstr "failed to write whole buffer")), s)
                          else secure_write_all_loop fuel (zdrop n bs) s
          | (inl e, s) => if decide (io_kind e = Interrupted) then secure_write_all_loop fuel bs s else Some (inl e, s)
          end
      end
  end.

Definition secure_write_all (bs : bytes) (s : SecureStream) : (IoError + unit) * SecureStream :=
  default (inr (), s) (secure_write_all_loop (length bs + length (w_script (tcp_out (ss_stream s)))) bs s).

(** What is written to a socket that was shut down fails with [EPIPE]. *)
Definition broken_pipe : IoError := IoError_mk OtherKind (bstr "Broken pipe (os error 32)").

Definition closed_for_writing (s : SecureStream) : SecureStream :=
  let out := tcp_out (ss_stream s) in
  if tcp_shut (ss_stream s)
  then set_stream (set_out (Writer_mk (w_out out) (WroteSome 0 broken_pipe :: w_script out)) (ss_stream s)) s
  else s.

Definition remote_write_all (bs : bytes) (s : SecureStream) : (IoError + unit) * SecureStream :=
  secure_write_all bs (closed_for_writing s).

(** The plaintext that was read before does not need the socket. *)
Definition remote_read (a : AfterShut) (n : Z) (s : SecureStream) : (IoError + bytes) * SecureStream :=
  match after_shut a (ss_stream s) with
  | Some ended => if rs_offset s <? vlen (rs_plaintext s) then secure_read n s else (ended, s)
  | None => secure_read n s
  end.

(** [Read::read_exact] *)
Fixpoint secure_read_exact_loop (fuel : nat) (want : Z) (acc : bytes) (s : SecureStream) :
    option ((IoError + bytes) * SecureStream) :=
  if want <=? 0 then Some (inr acc, s)
  else
    match fuel with
    | O => None
    | S fuel =>
        match secure_read want s with
        | (inr [], s) => Some (inl (IoError_mk UnexpectedEof (bstr "failed to fill whole buffer")), s)
        | (inr bs, s) => secure_read_exact_loop fuel (want - vlen bs) (acc ++ bs) s
        | (inl e, s) => if decide (io_kind e = Interrupted) then secure_read_exact_loop fuel want acc s
                        else Some (inl e, s)
        end
    end.

Definition secure_read_exact (n : Z) (s : SecureStream) : (IoError + bytes) * SecureStream :=
  default (inr [], s) (secure_read_exact_loop (Z.to_nat n + reader_fuel (tcp_in (ss_stream s))) n [] s).

Definition send_session_claim : SecureStream → (IoError + unit) * SecureStream :=
  io_then (secure_write_all SESSION_CLAIM) secure_flush.

Definition receive_session_claim (s : SecureStream) : (IoError + unit) * SecureStream :=
  match secure_read_exact (vlen SESSION_CLAIM) s with
  | (inl e, s) => (inl e, s)
  | (inr claim, s) =>
      if bool_decide (claim = SESSION_CLAIM) then (inr (), s)
      else (inl (invalid_data (bstr "reverse stream has an invalid session claim")), shut s)
  end.

(** ** What the system answers to a step *)

Record Env := Env_mk {
  env_accept : IoError + TcpStream;           (* [accept] of the reverse listener *)
  env_local : IoError + LocalStream;          (* [accept] of the proxy listener *)
  env_connect : IoError + TcpStream;          (* a connection to an address *)
  env_resolved : IoError + list (bytes * (IoError + TcpStream));   (* the addresses of a host, and what connecting to each gives *)
  env_spawn : bool;                           (* whether a thread could be started *)
  env_clone : option IoError;                 (* the failure of a [try_clone] *)
  env_now : Z;
  env_clock : Result Z;
  env_entropy : Entropy;
  env_buffer : positive;                      (* the room [io::copy] reads into *)
  env_after_shut : AfterShut;
}.

(** ** broker.rs: the bridge *)

(** A direction: [io::copy], then the shutdown that follows it. *)
Inductive Pump :=
| PumpRead
| PumpWrite (pending : bytes)
| PumpShut (result : IoError + unit)
| PumpDone (result : IoError + unit).

Inductive BridgePc :=
| BrClaim
| BrSetup
| BrCopy (upstream downstream : Pump)
| BrComplete (result : IoError + unit)
| BrExit.

Record Bridge := Bridge_mk {
  br_id : nat;                                (* which reverse connection it uses *)
  br_local : LocalStream;
  br_remote : SecureStream;
  br_pc : BridgePc;
}.

Inductive Side := Main | Upstream | Downstream.

Definition copied (r : IoError + bytes) : Pump :=
  match r with
  | inr [] => PumpShut (inr ())
  | inr bs => PumpWrite bs
  | inl e => if decide (io_kind e = Interrupted) then PumpRead else PumpShut (inl e)
  end.

Definition upstream_turn (env : Env) (p : Pump) (l : LocalStream) (r : SecureStream) : Pump * LocalStream * SecureStream :=
  match p with
  | PumpRead => let '(o, l) := local_read (env_after_shut env) (Pos.to_nat (env_buffer env)) l in (copied o, l, r)
  | PumpWrite bs =>
      let '(o, r) := remote_write_all bs r in
      (match o with inr _ => PumpRead | inl e => PumpShut (inl e) end, l, r)
  | PumpShut result => (PumpDone result, l, shut r)
  | PumpDone _ => (p, l, r)
  end.

Definition downstream_turn (env : Env) (p : Pump) (l : LocalStream) (r : SecureStream) : Pump * LocalStream * SecureStream :=
  match p with
  | PumpRead => let '(o, r) := remote_read (env_after_shut env) (Zpos (env_buffer env)) r in (copied o, l, r)
  | PumpWrite bs =>
      let '(o, l) := local_write_all bs l in
      (match o with inr _ => PumpRead | inl e => PumpShut (inl e) end, l, r)
  | PumpShut result => (PumpDone result, local_shutdown l, shut r)
  | PumpDone _ => (p, l, r)
  end.

Definition bridge_turn (env : Env) (side : Side) (b : Bridge) : Bridge :=
  let at_pc := Bridge_mk (br_id b) (br_local b) (br_remote b) in
  match br_pc b, side with
  | BrClaim, Main =>
      match send_session_claim (br_remote b) with
      | (inr _, remote) => Bridge_mk (br_id b) (br_local b) remote BrSetup
      | (inl e, remote) => Bridge_mk (br_id b) (br_local b) remote (BrComplete (inl e))
      end
  | BrSetup, Main =>
      match env_clone env with
      | Some e => at_pc (BrComplete (inl e))
      | None => at_pc (if env_spawn env then BrCopy PumpRead PumpRead else BrExit)   (* [thread::spawn] panics *)
      end
  | BrCopy (PumpDone upstream) (PumpDone downstream), Main =>
      at_pc (BrComplete (match upstream with inl e => inl e | inr _ => downstream end))
  | BrCopy up down, Upstream =>
      let '(up, l, r) := upstream_turn env up (br_local b) (br_remote b) in Bridge_mk (br_id b) l r (BrCopy up down)
  | BrCopy up down, Downstream =>
      let '(down, l, r) := downstream_turn env down (br_local b) (br_remote b) in Bridge_mk (br_id b) l r (BrCopy up down)
  | _, _ => b
  end.

(** ** broker.rs: the configuration *)

Definition SocketAddr : Type := IpAddr * Z.

Definition ip_is_multicast (ip : IpAddr) : bool :=
  match ip with
  | V4 octets => match octets with o :: _ => between 224 239 o | [] => false end
  | V6 segments => match segments with s :: _ => Z.land s 65280 =? 65280 | [] => false end
  end.

Inductive ProxyEndpoint := ProxyTcp (address : SocketAddr) | ProxyUnix (path : bytes).
Inductive ProxyExposure := Local | AuthenticatedNetwork.

Record BrokerConfig := BrokerConfig_mk {
  bc_reverse_bind : SocketAddr;
  bc_proxy_bind : ProxyEndpoint;
  bc_proxy_exposure : ProxyExposure;
  bc_auth : AuthCert.ServerConfig;
  bc_peer_principal : bytes;
  bc_max_waiting_streams : Z;
  bc_authentication_timeout : Z;
  bc_proxy_wait_timeout : Z;
}.

(** [Path::file_name] *)
Definition path_file_name (path : bytes) : option bytes :=
  match last (path_components path).2 with
  | Some c => if bool_decide (c = bstr "..") || bool_decide (c = bstr ".") then None else Some c
  | None => None
  end.

Definition unix_path_admitted (path : bytes) : bool :=
  starts_with [slash] path && bool_decide (is_Some (path_file_name path)) && (vlen path <=? 4096).

Definition bad_principal (principal : bytes) : bool :=
  bool_decide (principal = []) || (255 <? vlen principal) || existsb is_ascii_control principal.

Definition proxy_is_admitted (bind : ProxyEndpoint) (exposure : ProxyExposure) : bool :=
  match bind, exposure with
  | ProxyTcp address, Local => ip_is_loopback address.1
  | ProxyUnix path, Local => unix_path_admitted path
  | ProxyTcp address, AuthenticatedNetwork =>
      negb (ip_is_loopback address.1) && negb (ip_is_unspecified address.1) && negb (ip_is_multicast address.1) &&
      negb (address.2 =? 0)
  | ProxyUnix _, AuthenticatedNetwork => false
  end.

Definition validate_broker_config (c : BrokerConfig) : Result unit :=
  if negb (proxy_is_admitted (bc_proxy_bind c) (bc_proxy_exposure c)) || bad_principal (bc_peer_principal c) ||
     (bc_max_waiting_streams c =? 0) || (256 <? bc_max_waiting_streams c) || (bc_authentication_timeout c =? 0) ||
     (bc_proxy_wait_timeout c =? 0)
  then Err (from_static "reverse broker requires a network reverse bind, an admitted proxy exposure, bounded queue, principal, and finite timeouts")
  else Ok ().

(** ** broker.rs: the threads *)

Record BrokerCounters := BrokerCounters_mk {
  waiting_streams : Z;
  active_handshakes : Z;
  active_bridges : Z;
  rejected_reverse_connections : Z;
  authentication_failures : Z;
  unavailable_proxy_connections : Z;
  completed_bridges : Z;
}.

Inductive Counter := Waiting | Handshakes | Bridges | Rejected | AuthFailures | Unavailable | Completed.

(** [fetch_add] and, with [-1], [fetch_sub]: both wrap around. *)
Definition wrap64 (n : Z) : Z := n `mod` (u64_max + 1).

Definition fetch_add (k : Counter) (d : Z) (c : BrokerCounters) : BrokerCounters :=
  let '(BrokerCounters_mk w h b r a u d') := c in
  match k with
  | Waiting => BrokerCounters_mk (wrap64 (w + d)) h b r a u d'
  | Handshakes => BrokerCounters_mk w (wrap64 (h + d)) b r a u d'
  | Bridges => BrokerCounters_mk w h (wrap64 (b + d)) r a u d'
  | Rejected => BrokerCounters_mk w h b (wrap64 (r + d)) a u d'
  | AuthFailures => BrokerCounters_mk w h b r (wrap64 (a + d)) u d'
  | Unavailable => BrokerCounters_mk w h b r a (wrap64 (u + d)) d'
  | Completed => BrokerCounters_mk w h b r a u (wrap64 (d' + d))
  end.

(** The last instant, of [i64] seconds. *)
Definition INSTANT_MAX : Z := 9223372036854775808 * 1000000000 - 1.

(** The thread that accepts reverse connections, which are numbered as they come. *)
Inductive AcceptorPc :=
| AcLoop
| AcAccept
| AcCheck (id : nat) (s : TcpStream)
| AcSlot (id : nat) (s : TcpStream)
| AcSpawn (id : nat) (s : TcpStream)          (* it holds a slot *)
| AcDone.

(** A thread that authenticates one; all of them hold a slot. *)
Inductive HandshakePc :=
| HsAuth (id : nat) (s : TcpStream)
| HsAnnounce (id : nat) (s : SecureStream)
| HsSend (id : nat) (s : SecureStream)
| HsRetract (id : nat) (s : SecureStream)
| HsExit.

(** The thread that accepts the clients; from [PxWait] on it holds a slot. *)
Inductive ProxyPc :=
| PxLoop
| PxAccept
| PxCheck (l : LocalStream)
| PxSlot (l : LocalStream)
| PxWait (deadline : Z) (l : LocalStream)
| PxRecv (deadline : Z) (l : LocalStream)
| PxTaken (deadline : Z) (l : LocalStream) (id : nat) (s : SecureStream)
| PxNone (l : LocalStream)
| PxSpawn (l : LocalStream) (id : nat) (s : SecureStream)
| PxDone.

Record Broker := Broker_mk {
  bk_shutdown : bool;
  bk_counters : BrokerCounters;
  bk_queue : list (nat * SecureStream);       (* the channel; its receiver ends with the proxy thread *)
  bk_acceptor : AcceptorPc;
  bk_handshakes : list HandshakePc;
  bk_proxy : ProxyPc;
  bk_bridges : list Bridge;
  bk_accepted : nat;                          (* reverse connections so far *)
  bk_bridged : list nat;                      (* those given to a bridge, the last first *)
}.

Definition set_counters (c : BrokerCounters) (b : Broker) : Broker :=
  Broker_mk (bk_shutdown b) c (bk_queue b) (bk_acceptor b) (bk_handshakes b) (bk_proxy b) (bk_bridges b) (bk_accepted b)
    (bk_bridged b).
Definition set_queue (q : list (nat * SecureStream)) (b : Broker) : Broker :=
  Broker_mk (bk_shutdown b) (bk_counters b) q (bk_acceptor b) (bk_handshakes b) (bk_proxy b) (bk_bridges b) (bk_accepted b)
    (bk_bridged b).
Definition set_acceptor (a : AcceptorPc) (b : Broker) : Broker :=
  Broker_mk (bk_shutdown b) (bk_counters b) (bk_queue b) a (bk_handshakes b) (bk_proxy b) (bk_bridges b) (bk_accepted b)
    (bk_bridged b).
Definition set_handshakes (h : list HandshakePc) (b : Broker) : Broker :=
  Broker_mk (bk_shutdown b) (bk_counters b) (bk_queue b) (bk_acceptor b) h (bk_proxy b) (bk_bridges b) (bk_accepted b)
    (bk_bridged b).
Definition set_proxy (p : ProxyPc) (b : Broker) : Broker :=
  Broker_mk (bk_shutdown b) (bk_counters b) (bk_queue b) (bk_acceptor b) (bk_handshakes b) p (bk_bridges b) (bk_accepted b)
    (bk_bridged b).
Definition set_bridges (l : list Bridge) (b : Broker) : Broker :=
  Broker_mk (bk_shutdown b) (bk_counters b) (bk_queue b) (bk_acceptor b) (bk_handshakes b) (bk_proxy b) l (bk_accepted b)
    (bk_bridged b).

Definition tick (k : Counter) (d : Z) (b : Broker) : Broker := set_counters (fetch_add k d (bk_counters b)) b.

(** [CounterSlot::try_acquire] *)
Definition counter_value (k : Counter) (c : BrokerCounters) : Z :=
  match k with
  | Waiting => waiting_streams c
  | Handshakes => active_handshakes c
  | Bridges => active_bridges c
  | Rejected => rejected_reverse_connections c
  | AuthFailures => authentication_failures c
  | Unavailable => unavailable_proxy_connections c
  | Completed => completed_bridges c
  end.

Definition try_acquire (k : Counter) (limit : Z) (b : Broker) : option Broker :=
  if counter_value k (bk_counters b) <? limit then Some (tick k 1 b) else None.

(** [Drop for CounterSlot] *)
Definition release (k : Counter) : Broker → Broker := tick k (-1).

Definition next_connection (s : TcpStream) (b : Broker) : Broker :=
  Broker_mk (bk_shutdown b) (bk_counters b) (bk_queue b) (AcCheck (bk_accepted b) s) (bk_handshakes b) (bk_proxy b)
    (bk_bridges b) (S (bk_accepted b)) (bk_bridged b).

Definition acceptor_step (config : BrokerConfig) (env : Env) (b : Broker) : Broker :=
  match bk_acceptor b with
  | AcLoop => set_acceptor (if bk_shutdown b then AcDone else AcAccept) b
  | AcAccept =>
      match env_accept env with
      | inr s => next_connection s b
      | inl e => set_acceptor (if decide (io_kind e = Interrupted) then AcLoop else AcDone) b
      end
  | AcCheck id s =>
      if bk_shutdown b then set_acceptor AcDone b
      else
        match configure_transport_socket s with
        | (inl _, _) => set_acceptor AcLoop (tick Rejected 1 b)
        | (inr _, s) => set_acceptor (AcSlot id s) b
        end
  | AcSlot id s =>
      match try_acquire Handshakes (bc_max_waiting_streams config) b with
      | None => set_acceptor AcLoop (tick Rejected 1 b)
      | Some b => set_acceptor (AcSpawn id s) b
      end
  | AcSpawn id s =>
      set_acceptor AcLoop
        (if env_spawn env then set_handshakes (bk_handshakes b ++ [HsAuth id s]) b
         else tick Rejected 1 (release Handshakes b))
  | AcDone => b
  end.

Definition handshake_step (config : BrokerConfig) (env : Env) (i : nat) (b : Broker) : Broker :=
  let goto pc := set_handshakes (<[i := pc]> (bk_handshakes b)) b in
  match bk_handshakes b !! i with
  | Some (HsAuth id s) =>
      match authenticate_server (env_entropy env) (env_clock env) (bc_auth config) (bc_authentication_timeout config) s with
      | (Ok session, _) =>
          if bool_decide (pi_principal (as_peer session) = bc_peer_principal config)
          then goto (HsAnnounce id (as_stream session))
          else tick AuthFailures 1 (goto HsExit)
      | (Err _, _) => tick AuthFailures 1 (goto HsExit)
      end
  | Some (HsAnnounce id s) => tick Waiting 1 (goto (HsSend id s))
  | Some (HsSend id s) =>
      match bk_proxy b with
      | PxDone => goto (HsRetract id s)                                        (* Disconnected *)
      | _ => if vlen (bk_queue b) <? bc_max_waiting_streams config
             then set_queue (bk_queue b ++ [(id, s)]) (goto HsExit)
             else goto (HsRetract id s)                                        (* Full *)
      end
  | Some (HsRetract id s) => tick Waiting (-1) (goto HsExit)
  | Some HsExit => release Handshakes (set_handshakes (delete i (bk_handshakes b)) b)
  | None => b
  end.

(** No sender is left: the acceptor has one and every handshake a clone of it. *)
Definition senders_gone (b : Broker) : bool :=
  match bk_acceptor b with AcDone => bool_decide (bk_handshakes b = []) | _ => false end.

(** The proxy thread ends and drops the receiver with what it holds. *)
Definition proxy_exit (b : Broker) : Broker := set_queue [] (set_proxy PxDone b).

Definition start_bridge (l : LocalStream) (id : nat) (s : SecureStream) (b : Broker) : Broker :=
  Broker_mk (bk_shutdown b) (bk_counters b) (bk_queue b) (bk_acceptor b) (bk_handshakes b) PxLoop
    (bk_bridges b ++ [Bridge_mk id l s BrClaim]) (bk_accepted b) (id :: bk_bridged b).

Definition proxy_step (config : BrokerConfig) (env : Env) (b : Broker) : Broker :=
  match bk_proxy b with
  | PxLoop => if bk_shutdown b then proxy_exit b else set_proxy PxAccept b
  | PxAccept =>
      match env_local env with
      | inr l => set_proxy (PxCheck l) b
      | inl e => if decide (io_kind e = Interrupted) then set_proxy PxLoop b else proxy_exit b
      end
  | PxCheck l =>
      if bk_shutdown b then proxy_exit b
      else
        match local_configure l with
        | (inl _, _) => set_proxy PxLoop (tick Unavailable 1 b)
        | (inr _, l) => set_proxy (PxSlot l) b
        end
  | PxSlot l =>
      match try_acquire Bridges (bc_max_waiting_streams config) b with
      | None => set_proxy PxLoop (tick Unavailable 1 b)
      | Some b =>
          match checked_add INSTANT_MAX (env_now env) (bc_proxy_wait_timeout config) with
          | Some deadline => set_proxy (PxWait deadline l) b
          | None => release Bridges (proxy_exit b)                             (* [Instant + Duration] panics *)
          end
      end
  | PxWait deadline l =>
      set_proxy (if bk_shutdown b || (deadline <=? env_now env) then PxNone l else PxRecv deadline l) b
  | PxRecv deadline l =>
      match bk_queue b with
      | (id, s) :: queue => set_proxy (PxTaken deadline l id s) (set_queue queue b)
      | [] => if senders_gone b || (deadline <=? env_now env) then set_proxy (PxNone l) b else b
      end
  | PxTaken deadline l id s =>
      set_proxy
        (match peer_closed 2000000 s with
         | (inr false, s) => PxSpawn l id s
         | _ => PxWait deadline l
         end) (tick Waiting (-1) b)
  | PxNone l => set_proxy PxLoop (release Bridges (tick Unavailable 1 b))
  | PxSpawn l id s =>
      if env_spawn env then start_bridge l id s b
      else set_proxy PxLoop (tick Unavailable 1 (release Bridges b))
  | PxDone => b
  end.

Definition bridge_step (env : Env) (i : nat) (side : Side) (b : Broker) : Broker :=
  match bk_bridges b !! i with
  | Some br =>
      match br_pc br with
      | BrComplete _ =>
          tick Completed 1 (set_bridges (<[i := Bridge_mk (br_id br) (br_local br) (br_remote br) BrExit]> (bk_bridges b)) b)
      | BrExit => release Bridges (set_bridges (delete i (bk_bridges b)) b)
      | _ => set_bridges (<[i := bridge_turn env side br]> (bk_bridges b)) b
      end
  | None => b
  end.

(** [begin_shutdown], the first thing [Drop] does. *)
Definition begin_shutdown (b : Broker) : Broker :=
  Broker_mk true (bk_counters b) (bk_queue b) (bk_acceptor b) (bk_handshakes b) (bk_proxy b) (bk_bridges b) (bk_accepted b)
    (bk_bridged b).

Inductive BrokerEvent :=
| EvAcceptor (env : Env)
| EvHandshake (env : Env) (i : nat)
| EvProxy (env : Env)
| EvBridge (env : Env) (i : nat) (side : Side)
| EvShutdown.

Definition broker_step (config : BrokerConfig) (b : Broker) (ev : BrokerEvent) : Broker :=
  match ev with
  | EvAcceptor env => acceptor_step config env b
  | EvHandshake env i => handshake_step config env i b
  | EvProxy env => proxy_step config env b
  | EvBridge env i side => bridge_step env i side b
  | EvShutdown => begin_shutdown b
  end.

Definition broker_run (config : BrokerConfig) : list BrokerEvent → Broker → Broker :=
  fix run evs b := match evs with [] => b | ev :: evs => run evs (broker_step config b ev) end.

Definition no_counts : BrokerCounters := BrokerCounters_mk 0 0 0 0 0 0 0.
Definition broker_init : Broker := Broker_mk false no_counts [] AcLoop [] PxLoop [] 0 [].

(** [ReverseBroker::start]: the failures its calls meet, and the threads that run after
    it. *)
Record StartEnv := StartEnv_mk {
  se_bind_reverse : option IoError;
  se_bind_proxy : option IoError;
  se_inspect_reverse : option IoError;
  se_inspect_proxy : option IoError;          (* of a Unix endpoint this call does not fail *)
  se_spawn_reverse : option IoError;
  se_spawn_proxy : option IoError;
}.

Definition failing (context : string) (o : option IoError) : Result unit :=
  match o with Some e => Err (error_text [bstr context; bstr ": "; io_display e]) | None => Ok () end.

Definition bind_listeners (config : BrokerConfig) (env : StartEnv) : Result unit :=
  _ ← validate_broker_config config;
  _ ← failing "bind reverse listener" (se_bind_reverse env);
  _ ← failing (match bc_proxy_bind config with
               | ProxyTcp _ => "bind TCP proxy listener" | ProxyUnix _ => "bind Unix proxy listener" end) (se_bind_proxy env);
  _ ← failing "inspect reverse listener" (se_inspect_reverse env);
  match bc_proxy_bind config with
  | ProxyTcp _ => failing "inspect TCP proxy listener" (se_inspect_proxy env)
  | ProxyUnix _ => Ok ()
  end.

Definition ReverseBroker_start (config : BrokerConfig) (env : StartEnv) : Result unit * Broker :=
  let idle := Broker_mk false no_counts [] AcDone [] PxDone [] 0 [] in
  match bind_listeners config env with
  | Err e => (Err e, idle)
  | Ok _ =>
      match failing "spawn reverse acceptor" (se_spawn_reverse env) with
      | Err e => (Err e, idle)
      | Ok _ =>
          match failing "spawn proxy acceptor" (se_spawn_proxy env) with
          | Err e => (Err e, set_acceptor AcLoop idle)        (* the first thread runs on *)
          | Ok _ => (Ok (), broker_init)
          end
      end
  end.

(** [wait_until_ready] and [wait_for_connected]: what each turn of the loop sees. *)
Record Look := Look_mk {
  look_count : Z; look_shutdown : bool; look_now : Z;
  look_timed_out : bool; look_count_after : Z;      (* when the wait returns *)
}.

(** [None]: still waiting. *)
Fixpoint wait_for_count (deadline : option Z) (looks : list Look) : option bool :=
  match looks with
  | [] => None
  | k :: looks =>
      if 0 <? look_count k then Some true
      else if look_shutdown k then Some false
      else
        match deadline with
        | None => Some false
        | Some deadline =>
            if deadline <=? look_now k then Some false
            else if look_timed_out k && (look_count_after k =? 0) then Some false
            else wait_for_count (Some deadline) looks
        end
  end.

(** [ReverseBroker::wait_until_ready] *)
Definition wait_until_ready (now timeout : Z) (looks : list Look) : option bool :=
  wait_for_count (checked_add INSTANT_MAX now timeout) looks.

Definition is_ready (b : Broker) : bool := 0 <? waiting_streams (bk_counters b).

(** ** session_proxy.rs *)

Record SessionProxyConfig := SessionProxyConfig_mk {
  sc_bind : ProxyEndpoint;
  sc_auth : ClientConfig;
  sc_expected_responder : bytes;
  sc_principal : bytes;
  sc_max_sessions : Z;
  sc_connect_timeout : Z;
  sc_authentication_timeout : Z;
}.

Definition validate_session_proxy_config (c : SessionProxyConfig) : Result unit :=
  let local_bind := match sc_bind c with
                    | ProxyTcp address => ip_is_loopback address.1 | ProxyUnix path => unix_path_admitted path end in
  if negb local_bind || bad_principal (sc_principal c) || (sc_max_sessions c =? 0) || (256 <? sc_max_sessions c) ||
     (sc_connect_timeout c =? 0) || (sc_authentication_timeout c =? 0)
  then Err (from_static "session proxy requires a local bind, bounded sessions, a principal, and finite timeouts")
  else Ok ().

Record SessionProxyCounters := SessionProxyCounters_mk {
  pc_active_sessions : Z;
  pc_accepted_sessions : Z;
  pc_rejected_sessions : Z;
  pc_connection_failures : Z;
  pc_authentication_failures : Z;
  pc_completed_sessions : Z;
}.

Inductive SessionCounter := ActiveS | AcceptedS | RejectedS | ConnectionFailuresS | AuthFailuresS | CompletedS.

Definition session_fetch_add (k : SessionCounter) (d : Z) (c : SessionProxyCounters) : SessionProxyCounters :=
  let '(SessionProxyCounters_mk act acc rej con aut com) := c in
  match k with
  | ActiveS => SessionProxyCounters_mk (wrap64 (act + d)) acc rej con aut com
  | AcceptedS => SessionProxyCounters_mk act (wrap64 (acc + d)) rej con aut com
  | RejectedS => SessionProxyCounters_mk act acc (wrap64 (rej + d)) con aut com
  | ConnectionFailuresS => SessionProxyCounters_mk act acc rej (wrap64 (con + d)) aut com
  | AuthFailuresS => SessionProxyCounters_mk act acc rej con (wrap64 (aut + d)) com
  | CompletedS => SessionProxyCounters_mk act acc rej con aut (wrap64 (com + d))
  end.

Inductive SpAcceptorPc :=
| SaLoop | SaAccept | SaCheck (l : LocalStream) | SaSlot (l : LocalStream)
| SaSpawn (l : LocalStream)                   (* it holds a slot *)
| SaDone.

(** [proxy_session], in a thread that holds a slot. *)
Inductive SpThread :=
| SpConnect (l : LocalStream)
| SpAuth (l : LocalStream) (upstream : TcpStream)
| SpBridge (b : Bridge)
| SpExit.

Record SessionProxy := SessionProxy_mk {
  sp_shutdown : bool;
  sp_counters : SessionProxyCounters;
  sp_acceptor : SpAcceptorPc;
  sp_threads : list SpThread;
}.

Definition sp_tick (k : SessionCounter) (d : Z) (p : SessionProxy) : SessionProxy :=
  SessionProxy_mk (sp_shutdown p) (session_fetch_add k d (sp_counters p)) (sp_acceptor p) (sp_threads p).
Definition sp_set_acceptor (a : SpAcceptorPc) (p : SessionProxy) : SessionProxy :=
  SessionProxy_mk (sp_shutdown p) (sp_counters p) a (sp_threads p).
Definition sp_set_threads (l : list SpThread) (p : SessionProxy) : SessionProxy :=
  SessionProxy_mk (sp_shutdown p) (sp_counters p) (sp_acceptor p) l.

(** [SessionSlot::try_acquire] *)
Definition session_try_acquire (limit : Z) (p : SessionProxy) : option SessionProxy :=
  if pc_active_sessions (sp_counters p) <? limit then Some (sp_tick ActiveS 1 p) else None.

Definition session_acceptor_step (config : SessionProxyConfig) (env : Env) (p : SessionProxy) : SessionProxy :=
  match sp_acceptor p with
  | SaLoop => sp_set_acceptor (if sp_shutdown p then SaDone else SaAccept) p
  | SaAccept =>
      match env_local env with
      | inr l => sp_set_acceptor (SaCheck l) p
      | inl e => sp_set_acceptor (if decide (io_kind e = Interrupted) then SaLoop else SaDone) p
      end
  | SaCheck l =>
      if sp_shutdown p then sp_set_acceptor SaDone p
      else
        match local_configure l with
        | (inl _, _) => sp_set_acceptor SaLoop (sp_tick RejectedS 1 p)
        | (inr _, l) => sp_set_acceptor (SaSlot l) p
        end
  | SaSlot l =>
      match session_try_acquire (sc_max_sessions config) p with
      | None => sp_set_acceptor SaLoop (sp_tick RejectedS 1 p)
      | Some p => sp_set_acceptor (SaSpawn l) (sp_tick AcceptedS 1 p)
      end
  | SaSpawn l =>
      sp_set_acceptor SaLoop
        (if env_spawn env then sp_set_threads (sp_threads p ++ [SpConnect l]) p
         else sp_tick RejectedS 1 (sp_tick ActiveS (-1) p))
  | SaDone => p
  end.

Definition proxy_session_step (config : SessionProxyConfig) (env : Env) (side : Side) (i : nat) (p : SessionProxy) :
    SessionProxy :=
  let goto t := sp_set_threads (<[i := t]> (sp_threads p)) p in
  match sp_threads p !! i with
  | Some (SpConnect l) =>
      match env_connect env with
      | inl _ => sp_tick ConnectionFailuresS 1 (goto SpExit)
      | inr upstream =>
          match configure_transport_socket upstream with
          | (inl _, _) => sp_tick ConnectionFailuresS 1 (goto SpExit)
          | (inr _, upstream) => goto (SpAuth l upstream)
          end
      end
  | Some (SpAuth l upstream) =>
      match authenticate_client_to (env_entropy env) (env_clock env) (sc_auth config) (sc_expected_responder config)
              (sc_principal config) (sc_authentication_timeout config) upstream with
      | (Ok stream, _) => goto (SpBridge (Bridge_mk 0 l stream BrSetup))
      | (Err _, _) => sp_tick AuthFailuresS 1 (goto SpExit)
      end
  | Some (SpBridge b) =>
      match br_pc b with
      | BrComplete _ => sp_tick CompletedS 1 (goto SpExit)
      | BrExit => goto SpExit
      | _ => goto (SpBridge (bridge_turn env side b))
      end
  | Some SpExit => sp_tick ActiveS (-1) (sp_set_threads (delete i (sp_threads p)) p)
  | None => p
  end.

Inductive SessionProxyEvent :=
| SvAcceptor (env : Env)
| SvThread (env : Env) (side : Side) (i : nat)
| SvShutdown.

Definition session_proxy_step (config : SessionProxyConfig) (p : SessionProxy) (ev : SessionProxyEvent) : SessionProxy :=
  match ev with
  | SvAcceptor env => session_acceptor_step config env p
  | SvThread env side i => proxy_session_step config env side i p
  | SvShutdown => SessionProxy_mk true (sp_counters p) (sp_acceptor p) (sp_threads p)
  end.

Definition session_proxy_run (config : SessionProxyConfig) : list SessionProxyEvent → SessionProxy → SessionProxy :=
  fix run evs p := match evs with [] => p | ev :: evs => run evs (session_proxy_step config p ev) end.

Definition session_proxy_init : SessionProxy := SessionProxy_mk false (SessionProxyCounters_mk 0 0 0 0 0 0) SaLoop [].

(** ** export.rs *)

Record ReverseExportConfig := ReverseExportConfig_mk {
  ec_broker_endpoint : TcpEndpoint;
  ec_auth : ClientConfig;
  ec_expected_responder : bytes;
  ec_principal : bytes;
  ec_connection_pool : Z;
  ec_connect_timeout : Z;
  ec_authentication_timeout : Z;
  ec_reconnect_min_delay : Z;
  ec_reconnect_max_delay : Z;
  ec_server : Session.ServerConfig;
}.

Definition validate_export_config (c : ReverseExportConfig) : Result unit :=
  let server := ec_server c in
  if (te_port (ec_broker_endpoint c) =? 0) || is_unspecified_ip (ec_broker_endpoint c) || bad_principal (ec_principal c) ||
     (ec_connection_pool c =? 0) || (256 <? ec_connection_pool c) || (ec_connect_timeout c =? 0) ||
     (ec_authentication_timeout c =? 0) || (ec_reconnect_min_delay c =? 0) ||
     (ec_reconnect_max_delay c <? ec_reconnect_min_delay c) || (default_msize server <? 1024) ||
     (max_msize server <? default_msize server) || (max_fids server =? 0) || (max_async_requests server =? 0)
  then Err (from_static "reverse export requires a broker endpoint, bounded pool, principal, finite timeouts, and bounded 9P server configuration")
  else Ok ().

(** The server configuration of [FilesystemExport::start] *)
Definition filesystem_server_config (msize max_fids : Z) : Session.ServerConfig :=
  let default := ServerConfig_default in
  Session.ServerConfig_mk msize msize max_fids (max_async_requests default) R (session_uname default).

(** [Duration::MAX], and the operations that saturate or fail at it. *)
Definition DURATION_MAX : Z := 18446744073709551616 * 1000000000 - 1.

Definition retry_delay (config : ReverseExportConfig) (worker_index : nat) (failed_attempts : Z) : Z :=
  let exponent := Z.min failed_attempts 12 in
  let multiplier := Z.shiftl 1 exponent in
  let base := Z.min (Z.min DURATION_MAX (ec_reconnect_min_delay config * multiplier)) (ec_reconnect_max_delay config) in
  let divisor := default u32_max (try_from u32_max (ec_connection_pool config)) in
  let phase :=
    match try_from u32_max (Z.of_nat worker_index) with
    | Some index => let spread := ec_reconnect_min_delay config * index in
                    if spread <=? DURATION_MAX then spread / divisor else 0
    | None => 0
    end in
  Z.min (saturating_add DURATION_MAX base phase) (ec_reconnect_max_delay config).

Fixpoint connect_loop (endpoint : TcpEndpoint) (addresses : list (bytes * (IoError + TcpStream)))
    (last_error : option (bytes * IoError)) : IoError + TcpStream :=
  match addresses with
  | (_, inr stream) :: _ => inr stream
  | (address, inl error) :: addresses => connect_loop endpoint addresses (Some (address, error))
  | [] =>
      match last_error with
      | Some (address, error) =>
          inl (IoError_mk (io_kind error) (bstr "connect " ++ TcpEndpoint_display endpoint ++ bstr " via " ++ address ++
                                           bstr ": " ++ io_display error))
      | None => inl (IoError_mk OtherKind (TcpEndpoint_display endpoint ++ bstr " resolved no addresses"))
      end
  end.

Definition connect_broker (endpoint : TcpEndpoint) (resolved : IoError + list (bytes * (IoError + TcpStream))) :
    IoError + TcpStream :=
  match resolved with inl e => inl e | inr addresses => connect_loop endpoint addresses None end.

(** A worker of the pool, and how many attempts have failed; a stream it has is named by
    its place in [ex_streams], because the clone in the table of active streams is the
    same socket. *)
Inductive WorkerPc :=
| WkLoop (failed : Z)
| WkAuth (failed : Z) (s : TcpStream)
| WkRetry (delay failed : Z)
| WkRegister (id : nat)
| WkConnected (id : nat)
| WkClaim (id : nat)
| WkServing (id : nat)
| WkUnregister (id : nat)
| WkDisconnect
| WkDone.

(** [Drop for ReverseExport] *)
Inductive DropPc := DrRunning | DrSweep | DrJoin.

Record Export := Export_mk {
  ex_shutdown : bool;
  ex_connected_streams : Z;
  ex_connection_failures : Z;
  ex_authentication_failures : Z;
  ex_completed_sessions : Z;
  ex_active : list (option nat);
  ex_streams : list SecureStream;
  ex_workers : list WorkerPc;
  ex_drop : DropPc;
}.

Definition ex_goto (i : nat) (pc : WorkerPc) (x : Export) : Export :=
  Export_mk (ex_shutdown x) (ex_connected_streams x) (ex_connection_failures x) (ex_authentication_failures x)
    (ex_completed_sessions x) (ex_active x) (ex_streams x) (<[i := pc]> (ex_workers x)) (ex_drop x).
Definition ex_count (connected connection authentication completed : Z) (x : Export) : Export :=
  Export_mk (ex_shutdown x) (wrap64 (ex_connected_streams x + connected)) (wrap64 (ex_connection_failures x + connection))
    (wrap64 (ex_authentication_failures x + authentication)) (wrap64 (ex_completed_sessions x + completed))
    (ex_active x) (ex_streams x) (ex_workers x) (ex_drop x).
Definition ex_set_active (active : list (option nat)) (x : Export) : Export :=
  Export_mk (ex_shutdown x) (ex_connected_streams x) (ex_connection_failures x) (ex_authentication_failures x)
    (ex_completed_sessions x) active (ex_streams x) (ex_workers x) (ex_drop x).
Definition ex_set_streams (streams : list SecureStream) (x : Export) : Export :=
  Export_mk (ex_shutdown x) (ex_connected_streams x) (ex_connection_failures x) (ex_authentication_failures x)
    (ex_completed_sessions x) (ex_active x) streams (ex_workers x) (ex_drop x).

(** A turn of [export_loop] in worker [i]. *)
Definition worker_step (config : ReverseExportConfig) (env : Env) (i : nat) (x : Export) : Export :=
  match ex_workers x !! i with
  | Some (WkLoop failed) =>
      if ex_shutdown x then ex_goto i WkDone x
      else
        match connect_broker (ec_broker_endpoint config) (env_resolved env) with
        | inl _ => ex_count 0 1 0 0 (ex_goto i (WkRetry (retry_delay config i failed) failed) x)
        | inr s =>
            match configure_transport_socket s with
            | (inl _, _) => ex_count 0 1 0 0 (ex_goto i (WkRetry (retry_delay config i failed) failed) x)
            | (inr _, s) => ex_goto i (WkAuth failed s) x
            end
        end
  | Some (WkAuth failed s) =>
      match authenticate_client_to (env_entropy env) (env_clock env) (ec_auth config) (ec_expected_responder config)
              (ec_principal config) (ec_authentication_timeout config) s with
      | (Err _, _) => ex_count 0 0 1 0 (ex_goto i (WkRetry (retry_delay config i failed) failed) x)
      | (Ok stream, _) =>
          match env_clone env with
          | Some _ => ex_count 0 1 0 0 (ex_goto i (WkLoop 0) x)
          | None => ex_goto i (WkRegister (length (ex_streams x))) (ex_set_streams (ex_streams x ++ [stream]) x)
          end
      end
  | Some (WkRetry _ failed) => ex_goto i (WkLoop (saturating_add u32_max failed 1)) x
  | Some (WkRegister id) =>
      if ex_shutdown x
      then ex_goto i WkDone (ex_set_streams (alter shut id (ex_streams x)) x)
      else ex_goto i (WkConnected id) (ex_set_active (<[i := Some id]> (ex_active x)) x)
  | Some (WkConnected id) => ex_count 1 0 0 0 (ex_goto i (WkClaim id) x)
  | Some (WkClaim id) =>
      match ex_streams x !! id with
      | Some s =>
          match after_shut (env_after_shut env) (ss_stream s) with
          | Some _ => ex_goto i (WkUnregister id) x                               (* [read_exact] fails *)
          | None =>
              match receive_session_claim s with
              | (inr _, s) =>
                  ex_goto i (if ex_shutdown x then WkUnregister id else WkServing id) (ex_set_streams (<[id := s]> (ex_streams x)) x)
              | (inl _, s) => ex_goto i (WkUnregister id) (ex_set_streams (<[id := s]> (ex_streams x)) x)
              end
          end
      | None => x
      end
  | Some (WkServing id) => ex_goto i (WkUnregister id) x                          (* [serve] returns *)
  | Some (WkUnregister id) => ex_goto i WkDisconnect (ex_set_active (<[i := None]> (ex_active x)) x)
  | Some WkDisconnect => ex_count (-1) 0 0 1 (ex_goto i (WkLoop 0) x)
  | Some WkDone | None => x
  end.

Definition shut_all (active : list (option nat)) (streams : list SecureStream) : list SecureStream :=
  foldr (λ slot streams, match slot with Some id => alter shut id streams | None => streams end) streams active.

Definition drop_step (x : Export) : Export :=
  match ex_drop x with
  | DrRunning =>
      Export_mk true (ex_connected_streams x) (ex_connection_failures x) (ex_authentication_failures x)
        (ex_completed_sessions x) (ex_active x) (ex_streams x) (ex_workers x) DrSweep
  | DrSweep =>
      Export_mk (ex_shutdown x) (ex_connected_streams x) (ex_connection_failures x) (ex_authentication_failures x)
        (ex_completed_sessions x) (ex_active x) (shut_all (ex_active x) (ex_streams x)) (ex_workers x) DrJoin
  | DrJoin => x
  end.

Inductive ExportEvent := ExWorker (env : Env) (i : nat) | ExDrop.

Definition export_step (config : ReverseExportConfig) (x : Export) (ev : ExportEvent) : Export :=
  match ev with ExWorker env i => worker_step config env i x | ExDrop => drop_step x end.

Definition export_run (config : ReverseExportConfig) : list ExportEvent → Export → Export :=
  fix run evs x := match evs with [] => x | ev :: evs => run evs (export_step config x ev) end.

(** The threads that could be started before one could not. *)
Fixpoint spawn_workers (spawns : list (option IoError)) : Result unit * list WorkerPc :=
  match spawns with
  | [] => (Ok (), [])
  | Some e :: _ => (Err (error_text [bstr "spawn reverse export: "; io_display e]), [])
  | None :: spawns => let '(r, workers) := spawn_workers spawns in (r, WkLoop 0 :: workers)
  end.

(** [ReverseExport::start_server]: the result, and the export whose threads run; [spawns]
    has an outcome for each thread of the pool. *)
Definition start_server (config : ReverseExportConfig) (spawns : list (option IoError)) : Result unit * Export :=
  let pool := Z.to_nat (ec_connection_pool config) in
  let with_workers := λ workers, Export_mk false 0 0 0 0 (replicate pool None) [] workers DrRunning in
  match validate_export_config config with
  | Err e => (Err e, with_workers [])
  | Ok _ => let '(r, workers) := spawn_workers (take pool spawns) in (r, with_workers workers)
  end.

(** [wait_for_connected] *)
Definition wait_for_connected (now timeout : Z) (looks : list Look) : option bool :=
  wait_for_count (checked_add INSTANT_MAX now timeout) looks.

End reverse.
