(* ===== verification/ReverseProps.v ===== *)
(** What the reverse transport guarantees: theorems on Reverse.v. *)
From S2P Require Import Prelude Errors Codec Session Utf8 Referral NamespaceCache Text Endpoint ExportDescriptor FrameIO AuthCert AuthStream AuthProps Reverse.

(** ** The encrypted end of a bridge *)

Section writing.
Context {noise : Noise}.





(** [records] were written since [outgoing] was [w0]; the last may be there in part. *)
Definition carried (w0 : bytes) (records : list bytes) (whole : bool) (s : SecureStream) : Prop :=
  ∃ full, wire_of (ss_transport s) 0 records full ∧ ws_nonce s = vlen records ∧
    if whole then outgoing s = w0 ++ full else outgoing s `prefix_of` w0 ++ full.





Lemma carried_weaken w0 records s : carried w0 records true s → carried w0 records false s.
Proof. intros (full & ? & ? & E). cbn iota in E. exists full. by rewrite E. Qed.



(** *** The loops end *)




Lemma read_record_fuel_any s r s' : read_record s = (r, s') → r ≠ inr false → (stream_fuel s' < stream_fuel s)%nat.
Proof.
  unfold read_record. assert (H1 : (on_stream (tcp_read 1) s).1 ≠ inr [] →
    (stream_fuel (on_stream (tcp_read 1) s).2 < stream_fuel s)%nat).
  { unfold on_stream, tcp_read, stream_fuel. destruct (FrameIO.read 1 (tcp_in (ss_stream s))) as [out r0] eqn:E. simpl.
    intros H. eapply read_fuel; [|done|done]. lia. }
  destruct (on_stream (tcp_read 1) s) as [[e|[|b bs]] s1]; [|by intros [= <- <-]|]; simpl in H1; specialize (H1 ltac:(done)).
  { by intros [= <- <-]. }
  pose proof (exact_fuel 1 s1) as H2. destruct (on_stream (tcp_read_exact 1) s1) as [[e|low] s2]; simpl in H2; [intros [= <- <-]; lia|].
  destruct (_ <? _); [intros [= <- <-] _; unfold stream_fuel in *; simpl; lia|].
  match goal with |- context [on_stream (tcp_read_exact ?k) s2] => pose proof (exact_fuel k s2) as H3;
    destruct (on_stream (tcp_read_exact k) s2) as [[e|c] s3] end; simpl in H3; [intros [= <- <-]; lia|].
  destruct (tr_read_message _ _ _); [intros [= <- <-] _; unfold stream_fuel in *; simpl; lia|].
  destruct (next_nonce _); intros [= <- <-] _; unfold stream_fuel in *; simpl; lia.
Qed.

Lemma read_loop_fuel fuel n s r s' : secure_read_loop fuel n s = Some (r, s') →
  (stream_fuel s' ≤ stream_fuel s)%nat ∧ (∀ e, r = inl e → (stream_fuel s' < stream_fuel s)%nat).
Proof.
  revert s. induction fuel as [|fuel IH]; intros s; cbn [secure_read_loop]; [done|].
  destruct (_ <? _).
  { intros [= <- <-]. split; [|done]. by destruct (_ =? _). }
  destruct (read_record s) as [[e|[]] s1] eqn:E.
  - apply read_record_fuel_any in E; [|done]. intros [= <- <-]. split; [lia|done].
  - apply read_record_fuel_any in E; [|done]. intros [H1 H2]%IH. split; [lia|]. intros e He. specialize (H2 e He). lia.
  - intros [= <- <-]. split; [|done]. revert E. unfold read_record.
    assert (H1 : (stream_fuel (on_stream (tcp_read 1) s).2 ≤ stream_fuel s)%nat).
    { unfold on_stream, tcp_read, stream_fuel. pose proof (read_fuel_le 1 (tcp_in (ss_stream s))).
      by destruct (FrameIO.read 1 (tcp_in (ss_stream s))). }
    destruct (on_stream (tcp_read 1) s) as [[e|[|b bs]] s2]; [done|by intros [= <-]|].
    repeat (case_match; try done).
Qed.

(** [read_exact] of the claim does not run out of fuel. *)
Lemma read_exact_loop_ends fuel want acc s : (Z.to_nat want + stream_fuel s ≤ fuel)%nat → is_Some (secure_read_exact_loop fuel want acc s).
Proof.
  revert want acc s. induction fuel as [|fuel IH]; intros want acc s Hf; cbn [secure_read_exact_loop];
    (destruct (Z.leb_spec want 0); [by eexists|]); [unfold stream_fuel in *; lia|].
  destruct (secure_read want s) as [r s1] eqn:E. unfold secure_read in E. rewrite (proj2 (Z.eqb_neq _ _)) in E by lia.
  destruct (secure_read_total (S (S (reader_fuel (tcp_in (ss_stream s))))) want s) as [[r' s'] E']; [unfold stream_fuel; lia|].
  rewrite E' in E. injection E as -> ->. apply read_loop_fuel in E' as [H1 H2]. destruct r as [e|[|b bs]]; [|by eexists|].
  - case_decide; [|by eexists]. apply IH. specialize (H2 e eq_refl). lia.
  - apply IH. rewrite vlen_cons. pose proof (vlen_nonneg bs). lia.
Qed.

(** *** A bridge moves bytes *)


Definition local_in (l : LocalStream) : bytes := stream (tcp_in (local_socket l)).
Definition local_clean (l : LocalStream) : Prop := clean (tcp_in (local_socket l)).

Definition local_shut (l : LocalStream) : bool := tcp_shut (local_socket l).

Lemma tcp_read_shut n s : tcp_shut (tcp_read n s).2 = tcp_shut s.
Proof. unfold tcp_read. by destruct (FrameIO.read n (tcp_in s)). Qed.




Section bridge.
(** What the peer of the encrypted stream has sent. *)
Context (sent : list bytes) (t : Transport).
Hypothesis authentic : ∀ n c p, 0 ≤ n → tr_read_message t n c = inr p → sent !! Z.to_nat n = Some p.
(** The two streams when the bridge starts. *)
Context (l0 : LocalStream) (w0 : bytes).

(** [pending] was taken from the client and not sent yet. *)
Definition up_flow (pending : bytes) (l : LocalStream) (r : SecureStream) : Prop :=
  ∃ records, carried w0 records true r ∧ concat records ++ pending ++ local_in l = SESSION_CLAIM ++ local_in l0.

(** No more is sent; with [inr ()], and while the client's socket is not shut down, all
    that the client sent is. *)
Definition up_stopped (result : IoError + unit) (l : LocalStream) (r : SecureStream) : Prop :=
  ∃ records, carried w0 records false r ∧ concat records `prefix_of` SESSION_CLAIM ++ local_in l0 ∧
    (result = inr () → local_clean l0 → local_shut l = false → concat records = SESSION_CLAIM ++ local_in l0).


Definition up_ok (p : Pump) (l : LocalStream) (r : SecureStream) : Prop :=
  match p with
  | PumpRead => up_flow [] l r
  | PumpWrite bs => up_flow bs l r
  | PumpShut result | PumpDone result => up_stopped result l r
  end.


(** [Some result]: how the direction to the server ended. *)
Definition upstream_result (pc : BridgePc) : option (IoError + unit) :=
  match pc with
  | BrCopy (PumpShut result | PumpDone result) _ => Some result
  | _ => None
  end.


Lemma up_flow_stop pending l r result : up_flow pending l r →
  (result = inr () → local_clean l0 → local_shut l = false → pending ++ local_in l = []) → up_stopped result l r.
Proof.
  intros (records & Hc & E) H. exists records. split; [by apply carried_weaken|]. split; [by eexists|].
  intros Hr Hl Hs. rewrite <-E, H by done. by rewrite app_nil_r.
Qed.

Lemma up_stop_error result l l' r e : up_stopped result l r → up_stopped (inl e) l' r.
Proof. intros (records & ? & ? & _). by exists records. Qed.


Lemma up_ok_stop p l r : up_ok p l r → ∀ e, up_stopped (inl e) l r.
Proof. destruct p; simpl; intros H e; try (by eapply up_stop_error); by eapply up_flow_stop. Qed.


(** What one direction does to the other's part of the streams *)
Definition same_writing (r r' : SecureStream) : Prop :=
  ss_transport r' = ss_transport r ∧ ws_nonce r' = ws_nonce r ∧ tcp_out (ss_stream r') = tcp_out (ss_stream r).





Lemma same_writing_trans r1 r2 r3 : same_writing r1 r2 → same_writing r2 r3 → same_writing r1 r3.
Proof. intros (? & ? & ?) (? & ? & ?). split_and!; congruence. Qed.

Lemma on_read_writing {A} (f : TcpStream → A * TcpStream) r : (∀ s, tcp_out (f s).2 = tcp_out s) → same_writing r (on_stream f r).2.
Proof. intros H. unfold on_stream. specialize (H (ss_stream r)). destruct (f (ss_stream r)) as [a s]. by split_and!. Qed.

Lemma tcp_read_out n s : tcp_out (tcp_read n s).2 = tcp_out s.
Proof. unfold tcp_read. by destruct (FrameIO.read n (tcp_in s)). Qed.

Lemma tcp_read_exact_out n s : tcp_out (tcp_read_exact n s).2 = tcp_out s.
Proof. unfold tcp_read_exact. by destruct (read_exact n (tcp_in s)). Qed.

Lemma read_record_writing r : same_writing r (read_record r).2.
Proof.
  unfold read_record. pose proof (on_read_writing _ r (tcp_read_out 1)) as H1. destruct (on_stream (tcp_read 1) r) as [[e|[|b bs]] r1]; [done..|].
  simpl in H1. pose proof (on_read_writing _ r1 (tcp_read_exact_out 1)) as H2.
  destruct (on_stream (tcp_read_exact 1) r1) as [[e|low] r2]; simpl in H2; pose proof (same_writing_trans _ _ _ H1 H2) as H3; [done|].
  destruct (_ <? _); [done|].
  match goal with |- context [on_stream (tcp_read_exact ?k) r2] => pose proof (on_read_writing _ r2 (tcp_read_exact_out k)) as H4;
    destruct (on_stream (tcp_read_exact k) r2) as [[e|c] r3] end; simpl in H4; pose proof (same_writing_trans _ _ _ H3 H4) as H5; [done|].
  by destruct (tr_read_message _ _ _); [|destruct (next_nonce _)].
Qed.

Lemma read_loop_writing fuel n r o r' : secure_read_loop fuel n r = Some (o, r') → same_writing r r'.
Proof.
  revert r. induction fuel as [|fuel IH]; intros r; cbn [secure_read_loop]; [done|].
  destruct (_ <? _); [by intros [= _ <-]; destruct (_ =? _)|]. pose proof (read_record_writing r) as H.
  destruct (read_record r) as [[e|[]] r1]; simpl in H; [by intros [= _ <-]| |by intros [= _ <-]].
  intros E%IH. by eapply same_writing_trans.
Qed.

Lemma secure_read_writing n r : same_writing r (secure_read n r).2.
Proof.
  unfold secure_read. destruct (_ =? _); [done|].
  destruct (secure_read_loop _ n r) as [[o r']|] eqn:E; [by apply read_loop_writing in E|done].
Qed.

Lemma same_writing_shut r : same_writing r (shut r).
Proof. done. Qed.


Lemma remote_read_writing a n r : same_writing r (remote_read a n r).2.
Proof.
  unfold remote_read. destruct (after_shut a (ss_stream r)); [|apply secure_read_writing].
  destruct (_ <? _); [apply secure_read_writing|done].
Qed.










Fixpoint bridge_turns (turns : list (Env * Side)) (b : Bridge) : Bridge :=
  match turns with [] => b | (env, side) :: turns => bridge_turns turns (bridge_turn env side b) end.



End bridge.

End writing.

(** ** The broker *)

Lemma put_perm {A} (l : list A) i x y : l !! i = Some x → <[i := y]> l ≡ₚ y :: delete i l.
Proof.
  intros H. rewrite (delete_Permutation (<[i := y]> l) i y).
  - apply perm_skip. match goal with |- ?a ≡ₚ ?b => assert (a = b) as ->; [|done] end. apply list_eq. intros j. destruct (decide (j < i)%nat).
    + by rewrite !list_lookup_delete_lt, list_lookup_insert_ne by lia.
    + by rewrite !list_lookup_delete_ge, list_lookup_insert_ne by lia.
  - apply list_lookup_insert_eq. by eapply lookup_lt_Some.
Qed.

Lemma omap_get {A B} (f : A → option B) l i x : l !! i = Some x → omap f l ≡ₚ option_list (f x) ++ omap f (delete i l).
Proof. intros H. rewrite (delete_Permutation l i x H) at 1. simpl. by destruct (f x). Qed.

Lemma omap_put {A B} (f : A → option B) l i x y : l !! i = Some x → omap f (<[i := y]> l) ≡ₚ option_list (f y) ++ omap f (delete i l).
Proof. intros H. rewrite (put_perm l i x y H). simpl. by destruct (f y). Qed.

Lemma part_NoDup {A} (l k : list A) : l ⊆+ k → NoDup k → NoDup l.
Proof. intros [m ->]%submseteq_Permutation H. by apply NoDup_app in H as [? _]. Qed.

Section broker.
Context {ed : Ed25519} {noise : Noise}.

Lemma write_transport bs s : ss_transport (secure_write bs s).2 = ss_transport s.
Proof.
  unfold secure_write. case_bool_decide; [done|]. destruct (tr_write_message _ _ _); [done|]. destruct (try_from _ _); [|done].
  destruct (next_nonce _); [done|]. unfold on_stream. simpl. by destruct (io_then _ _ _) as [[]].
Qed.

Lemma write_all_transport bs s : ss_transport (secure_write_all bs s).2 = ss_transport s.
Proof.
  unfold secure_write_all. destruct (secure_write_all_loop _ bs s) as [[o s']|] eqn:E; [|done]. simpl. revert E.
  generalize (length bs + length (w_script (tcp_out (ss_stream s))))%nat as fuel. intros fuel. revert bs s.
  induction fuel as [|fuel IH]; intros bs s; destruct bs as [|b bs]; try (by intros [= _ <-]). cbn [secure_write_all_loop].
  pose proof (write_transport (b :: bs) s) as Ht. destruct (secure_write (b :: bs) s) as [[e|n] s1]; simpl in Ht.
  - case_decide; [intros E%IH; congruence|by intros [= _ <-]].
  - destruct (n =? 0); [by intros [= _ <-]|]. intros E%IH. congruence.
Qed.

Lemma bridge_turn_transport env side b :
  br_id (bridge_turn env side b) = br_id b ∧ ss_transport (br_remote (bridge_turn env side b)) = ss_transport (br_remote b).
Proof.
  destruct b as [id l r pc]. assert (Hup : ∀ up, ss_transport (upstream_turn env up l r).2 = ss_transport r).
  { intros [|bs| |]; simpl; [by destruct (local_read _ _ l)| |done|done].
    pose proof (write_all_transport bs (closed_for_writing r)) as H. unfold remote_write_all.
    assert (ss_transport (closed_for_writing r) = ss_transport r) as E by (unfold closed_for_writing; by case_match).
    destruct (secure_write_all bs _); simpl in *; congruence. }
  assert (Hdown : ∀ down, ss_transport (downstream_turn env down l r).2 = ss_transport r).
  { intros [|bs| |]; simpl; [|by destruct (local_write_all bs l)|done|done].
    destruct (remote_read_writing (env_after_shut env) (Zpos (env_buffer env)) r) as (? & _). by destruct (remote_read _ _ r). }
  unfold bridge_turn. simpl. destruct pc as [| |up down|result|]; destruct side; try done.
  - unfold send_session_claim, io_then. pose proof (write_all_transport SESSION_CLAIM r) as H.
    destruct (secure_write_all SESSION_CLAIM r) as [[e|u] r1]; simpl in H; [done|].
    assert (H2 : ss_transport (secure_flush r1).2 = ss_transport r1) by (unfold secure_flush, on_stream; by destruct (tcp_flush _)).
    destruct (secure_flush r1) as [[e|u'] r2]; simpl in *; split; congruence.
  - by destruct (env_clone env).
  - by destruct up, down.
  - specialize (Hup up). destruct (upstream_turn env up l r) as [[up' l'] r']. simpl in Hup. by destruct up, down.
  - specialize (Hdown down). destruct (downstream_turn env down l r) as [[down' l'] r']. simpl in Hdown. by destruct up, down.
Qed.

Lemma on_stream_transport {A} (f : TcpStream → A * TcpStream) s : ss_transport (on_stream f s).2 = ss_transport s.
Proof. unfold on_stream. by destruct (f (ss_stream s)). Qed.

Lemma peer_closed_transport timeout s : ss_transport (peer_closed timeout s).2 = ss_transport s.
Proof.
  unfold peer_closed. destruct (_ =? _); [done|].
  match goal with |- context [on_stream ?f s] => pose proof (on_stream_transport f s) as H1; destruct (on_stream f s) as [[e|p] s1] end;
    simpl in H1; [done|].
  match goal with |- context [on_stream ?f s1] => pose proof (on_stream_transport f s1) as H2; destruct (on_stream f s1) as [[e|u] s2] end;
    simpl in H2; [by simpl; congruence|].
  match goal with |- context [on_stream ?f s2] => pose proof (on_stream_transport f s2) as H3; destruct (on_stream f s2) as [o s3] end.
  match goal with |- context [on_stream ?f s3] => pose proof (on_stream_transport f s3) as H4; destruct (on_stream f s3) as [o' s4] end.
  simpl in *. congruence.
Qed.

(** *** Who has which stream *)

Definition acceptor_ids (a : AcceptorPc) : list nat :=
  match a with AcCheck id _ | AcSlot id _ | AcSpawn id _ => [id] | _ => [] end.
Definition handshake_id (h : HandshakePc) : option nat :=
  match h with HsAuth id _ | HsAnnounce id _ | HsSend id _ | HsRetract id _ => Some id | HsExit => None end.
Definition handshake_transport (h : HandshakePc) : option Transport :=
  match h with HsAnnounce _ s | HsSend _ s | HsRetract _ s => Some (ss_transport s) | _ => None end.
Definition proxy_stream (p : ProxyPc) : list (nat * SecureStream) :=
  match p with PxTaken _ _ id s | PxSpawn _ id s => [(id, s)] | _ => [] end.

(** The reverse connections that are somewhere or were given to a client, and the
    sessions of those that are authenticated. *)
Definition ids (b : Broker) : list nat :=
  acceptor_ids (bk_acceptor b) ++ omap handshake_id (bk_handshakes b) ++ (bk_queue b).*1 ++ (proxy_stream (bk_proxy b)).*1 ++
  bk_bridged b.
Definition bridge_ids (b : Broker) : list nat := br_id <$> bk_bridges b.
Definition sessions (b : Broker) : list Transport :=
  omap handshake_transport (bk_handshakes b) ++ (ss_transport <$> (bk_queue b).*2) ++
  (ss_transport <$> (proxy_stream (bk_proxy b)).*2) ++ ((λ br, ss_transport (br_remote br)) <$> bk_bridges b).

Section admission.
Context (P : Transport → Prop).

(** How a step changes who has what *)
Record moved (b b' : Broker) : Prop := {
  mv_ids : ids b' ⊆+ ids b ∧ bk_accepted b' = bk_accepted b ∨
           ids b' ⊆+ bk_accepted b :: ids b ∧ bk_accepted b' = S (bk_accepted b);
  mv_bridges : bridge_ids b' ⊆+ bridge_ids b ∧ bk_bridged b' = bk_bridged b ∨
               ∃ id, bridge_ids b' = bridge_ids b ++ [id] ∧ bk_bridged b' = id :: bk_bridged b ∧
                     id ∈ (proxy_stream (bk_proxy b)).*1;
  mv_sessions : ∀ t, t ∈ sessions b' → t ∈ sessions b ∨ P t;
}.

Record broker_inv (b : Broker) : Prop := {
  iv_numbered : Forall (λ id, id < bk_accepted b)%nat (ids b);
  iv_distinct : NoDup (ids b);
  iv_bridges : NoDup (bridge_ids b) ∧ bridge_ids b ⊆ bk_bridged b;
  iv_sessions : Forall P (sessions b);
}.

Lemma moved_inv b b' : broker_inv b → moved b b' → broker_inv b'.
Proof.
  intros [Hn Hd [Hb1 Hb2] Hs] [Mi Mb Ms]. split.
  - destruct Mi as [[Hi ->]|[Hi ->]]; apply Forall_forall; intros id Hid; eapply elem_of_submseteq in Hid; try exact Hi.
    + by eapply Forall_forall in Hn.
    + apply elem_of_cons in Hid as [->|Hid]; [lia|]. eapply Forall_forall in Hn; [|done]. simpl in Hn. lia.
  - destruct Mi as [[Hi _]|[Hi _]]; (eapply part_NoDup; [exact Hi|]); [done|]. constructor; [|done].
    intros Hid. eapply Forall_forall in Hn; [|done]. simpl in Hn. lia.
  - destruct Mb as [[Hi ->]|(id & -> & -> & Hid)].
    + split; [by eapply part_NoDup|]. intros id Hid. apply Hb2. by eapply elem_of_submseteq.
    + split.
      * apply NoDup_app. split_and!; [done| |apply NoDup_singleton]. intros x Hx Ex. apply list_elem_of_singleton in Ex as ->. apply Hb2 in Hx.
        unfold ids in Hd. rewrite !NoDup_app in Hd. destruct Hd as (_ & _ & _ & _ & _ & _ & _ & Hd & _). by eapply Hd.
      * intros x [Hx|Hx]%elem_of_app; [right; by apply Hb2|]. apply list_elem_of_singleton in Hx as ->. left.
  - apply Forall_forall. intros t [Ht|Ht]%Ms; [|done]. by eapply Forall_forall in Hs.
Qed.

Lemma moved_refl b : moved b b.
Proof. split; [left; done|left; done|by left]. Qed.

Lemma moved_parts b b' : ids b' ⊆+ ids b → bk_accepted b' = bk_accepted b → bridge_ids b' = bridge_ids b →
  bk_bridged b' = bk_bridged b → (∀ t, t ∈ sessions b' → t ∈ sessions b ∨ P t) → moved b b'.
Proof. intros H1 H2 H3 H4 H5. split; [by left|left; by rewrite H3, H4|done]. Qed.

Context (config : BrokerConfig).
Hypothesis admits : ∀ entropy clock s session s',
  authenticate_server entropy clock (bc_auth config) (bc_authentication_timeout config) s = (Ok session, s') →
  pi_principal (as_peer session) = bc_peer_principal config → P (ss_transport (as_stream session)).

Ltac same_all := apply moved_parts; [unfold ids; simpl; try solve_submseteq|done|done|done|by left].

Lemma acceptor_moves env b : moved b (acceptor_step config env b).
Proof.
  destruct b as [sd c q a h p br acc bd]. unfold acceptor_step, try_acquire, next_connection, tick, set_acceptor. simpl.
  destruct a as [| |id s|id s|id s|]; simpl.
  - destruct sd; same_all.
  - destruct (env_accept env) as [e|s]; [destruct (decide _); same_all|]. split; [|left; done|by left]. right. split; [|done].
    unfold ids. simpl. solve_submseteq.
  - destruct sd; [same_all|]. destruct (configure_transport_socket s) as [[e|u] s']; same_all.
  - destruct (active_handshakes c <? _); simpl; same_all.
  - destruct (env_spawn env); [|same_all]. apply moved_parts; try done.
    + unfold ids. simpl. rewrite omap_app. simpl. solve_submseteq.
    + intros t. unfold sessions. simpl. rewrite omap_app. simpl. rewrite app_nil_r. by left.
  - same_all.
Qed.

(** A handshake thread goes on as [pc], or leaves something in the queue. *)
Lemma handshake_goto b i pc pc' q : bk_handshakes b !! i = Some pc →
  option_list (handshake_id pc') ++ q.*1 ⊆+ option_list (handshake_id pc) →
  (∀ t, t ∈ option_list (handshake_transport pc') ++ (ss_transport <$> q.*2) → t ∈ option_list (handshake_transport pc) ∨ P t) →
  moved b (set_queue (bk_queue b ++ q) (set_handshakes (<[i := pc']> (bk_handshakes b)) b)).
Proof.
  intros Hi H1 H2. destruct b as [sd c q0 a h p br acc bd]. simpl in *. apply moved_parts; try done.
  - unfold ids. simpl. rewrite (omap_put _ _ _ _ _ Hi), (omap_get _ _ _ _ Hi), fmap_app.
    set (rest := acceptor_ids a ++ omap handshake_id (delete i h) ++ q0.*1 ++ (proxy_stream p).*1 ++ bd).
    transitivity ((option_list (handshake_id pc') ++ q.*1) ++ rest); [unfold rest; solve_submseteq|].
    transitivity (option_list (handshake_id pc) ++ rest); [by apply submseteq_app|unfold rest; solve_submseteq].
  - intros t. unfold sessions. simpl. rewrite (omap_put _ _ _ _ _ Hi), (omap_get _ _ _ _ Hi), !fmap_app.
    rewrite !elem_of_app. specialize (H2 t). rewrite elem_of_app in H2. tauto.
Qed.

Lemma moved_tick b b' k d : moved b b' → moved b (tick k d b').
Proof. intros [H1 H2 H3]. by split. Qed.

Lemma handshake_goto' b i pc pc' : bk_handshakes b !! i = Some pc →
  option_list (handshake_id pc') ⊆+ option_list (handshake_id pc) →
  (∀ t, t ∈ option_list (handshake_transport pc') → t ∈ option_list (handshake_transport pc) ∨ P t) →
  moved b (set_handshakes (<[i := pc']> (bk_handshakes b)) b).
Proof.
  intros Hi H1 H2. assert (E : moved b (set_queue (bk_queue b ++ []) (set_handshakes (<[i := pc']> (bk_handshakes b)) b))).
  { eapply handshake_goto; [done|simpl; by rewrite app_nil_r|]. intros t. simpl. rewrite app_nil_r. apply H2. }
  rewrite app_nil_r in E. by destruct b.
Qed.

Lemma handshake_moves env i b : moved b (handshake_step config env i b).
Proof using admits.
  unfold handshake_step. destruct (bk_handshakes b !! i) as [pc|] eqn:Ei; [|apply moved_refl].
  destruct pc as [id s|id s|id s|id s|].
  - destruct (authenticate_server _ _ _ _ s) as [[session|e] s'] eqn:E.
    + case_bool_decide as Ep; [|apply moved_tick]; eapply handshake_goto'; try done; simpl.
      * intros t Ht. right. apply list_elem_of_singleton in Ht as ->. by eapply admits.
      * solve_submseteq.
      * by intros t ?%elem_of_nil.
    + apply moved_tick. eapply handshake_goto'; try done; simpl; [solve_submseteq|by intros t ?%elem_of_nil].
  - apply moved_tick. eapply handshake_goto'; try done. simpl. by left.
  - assert (Hr : moved b (set_handshakes (<[i:=HsRetract id s]> (bk_handshakes b)) b)).
    { eapply handshake_goto'; try done. simpl. by left. }
    destruct (bk_proxy b); try exact Hr; (destruct (_ <? _); [|exact Hr]);
      (eapply handshake_goto; [done|simpl; solve_submseteq|simpl; by left]).
  - apply moved_tick. eapply handshake_goto'; try done; simpl; [solve_submseteq|by intros t ?%elem_of_nil].
  - apply moved_tick. destruct b as [sd c q a h p br acc bd]. simpl in *.
    apply moved_parts; try done; [|intros t]; unfold ids, sessions; simpl; rewrite (omap_get _ _ _ _ Ei); simpl; [done|by left].
Qed.
Ltac drops := apply moved_parts; [unfold ids; simpl; try solve_submseteq|done|done|done|
  intros t; unfold sessions; simpl; repeat first [rewrite elem_of_app|rewrite elem_of_cons|rewrite elem_of_nil]; tauto].

Lemma proxy_moves env b : moved b (proxy_step config env b).
Proof.
  destruct b as [sd c q a h p br acc bd].
  unfold proxy_step, try_acquire, release, tick, proxy_exit, start_bridge, set_proxy, set_queue, set_counters, senders_gone. simpl.
  assert (Hx : (proxy_stream p).*1 = [] → ∀ c', moved (Broker_mk sd c q a h p br acc bd) (Broker_mk sd c' [] a h PxDone br acc bd)).
  { intros Hp c'. drops. }
  destruct p as [| |l|l|deadline l|deadline l|deadline l id s|l|l id s|]; simpl in Hx.
  - destruct sd; [by apply Hx|drops].
  - destruct (env_local env); [|drops]. destruct (decide _); [drops|by apply Hx].
  - destruct sd; [by apply Hx|]. destruct (local_configure l) as [[e|u] l']; drops.
  - destruct (active_bridges c <? _); [|drops]. simpl. destruct (checked_add _ _ _); [drops|by apply Hx].
  - destruct (_ || _); drops.
  - destruct q as [|[id s] q]; [|simpl; drops]. destruct (_ || _); [drops|apply moved_refl].
  - pose proof (peer_closed_transport 2000000 s) as Ht. destruct (peer_closed 2000000 s) as [[e|[]] s']; simpl in Ht; try drops.
    apply moved_parts; try done. intros t. unfold sessions. simpl. rewrite Ht. by left.
  - drops.
  - destruct (env_spawn env); [|drops]. split.
    + left. split; [|done]. unfold ids. simpl. solve_submseteq.
    + right. exists id. unfold bridge_ids. simpl. rewrite fmap_app. simpl. split_and!; [done..|left].
    + intros t. unfold sessions. simpl. rewrite fmap_app. simpl. repeat first [rewrite elem_of_app|rewrite elem_of_cons|rewrite elem_of_nil]. tauto.
  - apply moved_refl.
Qed.

Lemma bridge_moves env i side b : moved b (bridge_step env i side b).
Proof.
  unfold bridge_step. destruct (bk_bridges b !! i) as [br|] eqn:Ei; [|apply moved_refl].
  destruct b as [sd c q a h p brs acc bd]. simpl in *.
  assert (Hput : ∀ br' c', br_id br' = br_id br → ss_transport (br_remote br') = ss_transport (br_remote br) →
    moved (Broker_mk sd c q a h p brs acc bd) (Broker_mk sd c' q a h p (<[i := br']> brs) acc bd)).
  { intros br' c' E1 E2. apply moved_parts; try done.
    - unfold bridge_ids. simpl. rewrite list_fmap_insert, E1. apply list_insert_id. by rewrite list_lookup_fmap, Ei.
    - intros t. unfold sessions. simpl. rewrite list_fmap_insert, E2, list_insert_id; [by left|]. by rewrite list_lookup_fmap, Ei. }
  assert (Hturn : moved (Broker_mk sd c q a h p brs acc bd) (set_bridges (<[i := bridge_turn env side br]> brs) (Broker_mk sd c q a h p brs acc bd))).
  { by apply Hput; apply bridge_turn_transport. }
  destruct (br_pc br); try exact Hturn; [by apply Hput|].
  split; [left; done| |].
  - left. split; [|done]. unfold bridge_ids. simpl. rewrite (fmap_Permutation br_id _ _ (delete_Permutation brs i br Ei)). simpl. solve_submseteq.
  - intros t. unfold sessions. simpl.
    rewrite (fmap_Permutation (λ x, ss_transport (br_remote x)) _ _ (delete_Permutation brs i br Ei)). simpl.
    rewrite !elem_of_app, elem_of_cons. tauto.
Qed.

Lemma broker_step_inv b ev : broker_inv b → broker_inv (broker_step config b ev).
Proof using admits.
  intros Hb. destruct ev as [env|env i|env|env i side|]; simpl.
  - eapply moved_inv; [done|]. apply acceptor_moves.
  - eapply moved_inv; [done|]. apply handshake_moves.
  - eapply moved_inv; [done|]. apply proxy_moves.
  - eapply moved_inv; [done|]. apply bridge_moves.
  - destruct Hb. by split.
Qed.

Lemma broker_run_inv evs b : broker_inv b → broker_inv (broker_run config evs b).
Proof using admits. revert b. induction evs as [|ev evs IH]; intros b Hb; simpl; [done|]. by apply IH, broker_step_inv. Qed.

Lemma broker_init_inv : broker_inv broker_init.
Proof. split; try constructor; try constructor. by intros ? ?%elem_of_nil. Qed.
End admission.

(** *** The counts *)

Definition proxy_slot (p : ProxyPc) : Z :=
  match p with PxWait _ _ | PxRecv _ _ | PxTaken _ _ _ _ | PxNone _ | PxSpawn _ _ _ => 1 | _ => 0 end.
Definition acceptor_slot (a : AcceptorPc) : Z := match a with AcSpawn _ _ => 1 | _ => 0 end.
Definition proxy_taken (p : ProxyPc) : Z := match p with PxTaken _ _ _ _ => 1 | _ => 0 end.
Definition announced (h : HandshakePc) : option unit := match h with HsSend _ _ | HsRetract _ _ => Some () | _ => None end.

Definition announced_bit (h : HandshakePc) : Z := match announced h with Some _ => 1 | None => 0 end.

(** The count of waiting streams is ahead of the queue by the threads between the
    queue and the count; what the queue held when its receiver was dropped stays
    counted. *)
Record counts_inv (m : Z) (b : Broker) : Prop := {
  ci_handshakes : active_handshakes (bk_counters b) = vlen (bk_handshakes b) + acceptor_slot (bk_acceptor b);
  ci_handshakes_max : active_handshakes (bk_counters b) ≤ m;
  ci_bridges : active_bridges (bk_counters b) = vlen (bk_bridges b) + proxy_slot (bk_proxy b);
  ci_bridges_max : active_bridges (bk_counters b) ≤ m;
  ci_queue : vlen (bk_queue b) ≤ m;
  ci_waiting : ∃ lost, 0 ≤ lost ≤ m ∧ (lost = 0 ∨ bk_proxy b = PxDone) ∧
    waiting_streams (bk_counters b) = lost + vlen (bk_queue b) + vlen (omap announced (bk_handshakes b)) + proxy_taken (bk_proxy b);
}.

Lemma wrap64_id n : 0 ≤ n ≤ u64_max → wrap64 n = n.
Proof. intros H. unfold wrap64. apply Z.mod_small. lia. Qed.

Lemma vlen_omap_put (l : list HandshakePc) i x y : l !! i = Some x →
  vlen (omap announced (<[i := y]> l)) = vlen (omap announced l) + announced_bit y - announced_bit x.
Proof.
  intros H. unfold vlen. rewrite (omap_put announced l i x y H), (omap_get announced l i x H), !length_app.
  unfold announced_bit. destruct (announced x), (announced y); simpl; lia.
Qed.

Lemma vlen_one {A} (x : A) : vlen [x] = 1.
Proof. done. Qed.

Lemma vlen_insert {A} (l : list A) i x : vlen (<[i := x]> l) = vlen l.
Proof. unfold vlen. by rewrite length_insert. Qed.

Lemma vlen_delete {A} (l : list A) i x : l !! i = Some x → vlen (delete i l) = vlen l - 1.
Proof. intros H. unfold vlen. rewrite length_delete by eauto. apply lookup_lt_Some in H. lia. Qed.

Lemma vlen_announced_le h : vlen (omap announced h) ≤ vlen h.
Proof.
  unfold vlen. induction h as [|x h IH]; [done|]. change (omap announced (x :: h)) with (match announced x with Some u => u :: omap announced h | None => omap announced h end).
  destruct (announced x); cbn [length]; lia.
Qed.

Section counts.
Context (config : BrokerConfig) (m : Z).
Hypothesis limit : bc_max_waiting_streams config = m.
Hypothesis limit_range : 0 < m ≤ 256.

Ltac counts := split; simpl in *; unfold u64_max in *;
  repeat match goal with |- context [wrap64 ?n] => rewrite (wrap64_id n) by (unfold u64_max; lia) end;
  rewrite ?vlen_app, ?vlen_one, ?vlen_insert, ?vlen_nil; try lia.

Lemma acceptor_counts env b : counts_inv m b → counts_inv m (acceptor_step config env b).
Proof using limit limit_range.
  destruct b as [sd [w h' b' rj af un cm] q a h p br acc bd]. intros [H1 H2 H3 H4 H5 (lost & H6 & H7 & H8)]. simpl in *.
  pose proof (vlen_nonneg h). pose proof (vlen_nonneg q). pose proof (vlen_nonneg br). pose proof (vlen_nonneg (omap announced h)).
  unfold acceptor_step, try_acquire, next_connection, release, tick, set_acceptor, set_counters, set_handshakes. simpl.
  destruct a as [| |id s|id s|id s|]; simpl in *.
  - destruct sd; counts; eauto.
  - destruct (env_accept env); [destruct (decide _)|]; counts; eauto.
  - destruct sd; [counts; eauto|]. destruct (configure_transport_socket s) as [[e|u] s']; counts; eauto.
  - rewrite limit. destruct (Z.ltb_spec h' m); counts; eauto.
  - destruct (env_spawn env); counts; eauto. exists lost. rewrite omap_app. simpl. rewrite app_nil_r. eauto.
  - counts; eauto.
Qed.

Lemma handshake_counts env i b : counts_inv m b → counts_inv m (handshake_step config env i b).
Proof using limit limit_range.
  destruct b as [sd [w h' b' rj af un cm] q a h p br acc bd]. intros [H1 H2 H3 H4 H5 (lost & H6 & H7 & H8)]. simpl in *.
  pose proof (vlen_nonneg h). pose proof (vlen_nonneg q). pose proof (vlen_nonneg br). pose proof (vlen_nonneg (omap announced h)).
  unfold handshake_step, release, tick, set_counters, set_handshakes, set_queue. simpl.
  destruct (h !! i) as [pc|] eqn:Ei; [|counts; eauto]. pose proof (vlen_announced_le h) as Hle.
  assert (0 ≤ proxy_taken p ≤ 1) by (destruct p; simpl; lia). assert (0 ≤ acceptor_slot a) by (destruct a; simpl; lia).
  pose proof (vlen_omap_put h i pc) as Hput. specialize (λ y, Hput y Ei) as Hp. clear Hput.
  destruct pc as [id s|id s|id s|id s|].
  - destruct (authenticate_server _ _ _ _ s) as [[session|e] s']; [case_bool_decide|]; counts; exists lost; rewrite Hp; simpl;
      unfold announced_bit; simpl; (split_and!; [lia..|done|lia]).
  - counts; exists lost; rewrite Hp; unfold announced_bit; simpl; (split_and!; [lia..|done|lia]).
  - assert (Hr : counts_inv m (Broker_mk sd (BrokerCounters_mk w h' b' rj af un cm) q a (<[i := HsRetract id s]> h) p br acc bd)).
    { counts. exists lost. rewrite Hp. unfold announced_bit. simpl. split_and!; [lia..|done|lia]. }
    destruct p; try exact Hr; rewrite limit; (destruct (Z.ltb_spec (vlen q) m); [|exact Hr]); simpl in *;
      counts; exists lost; rewrite Hp; unfold announced_bit; simpl;
      (split_and!; [lia..|done|lia]).
  - assert (1 ≤ vlen (omap announced h)).
    { unfold vlen. rewrite (omap_get announced h i _ Ei), length_app. simpl. lia. }
    counts; exists lost; rewrite Hp; unfold announced_bit; simpl; (split_and!; [lia..|done|lia]).
  - assert (1 ≤ vlen h) by (apply lookup_lt_Some in Ei; unfold vlen; lia).
    assert (E : vlen (omap announced (delete i h)) = vlen (omap announced h)).
    { unfold vlen. by rewrite (omap_get announced h i _ Ei). }
    split; simpl; rewrite ?(vlen_delete h i _ Ei), ?E, ?wrap64_id by (unfold u64_max; lia); try lia.
    eauto.
Qed.
Lemma proxy_counts env b : counts_inv m b → counts_inv m (proxy_step config env b).
Proof using limit limit_range.
  destruct b as [sd [w h' b' rj af un cm] q a h p br acc bd]. intros [H1 H2 H3 H4 H5 (lost & H6 & H7 & H8)]. simpl in *.
  pose proof (vlen_nonneg h). pose proof (vlen_nonneg q). pose proof (vlen_nonneg br). pose proof (vlen_nonneg (omap announced h)).
  pose proof (vlen_announced_le h). assert (0 ≤ acceptor_slot a) by (destruct a; simpl; lia).
  unfold proxy_step, try_acquire, release, tick, proxy_exit, start_bridge, set_proxy, set_queue, set_counters, senders_gone. simpl.
  assert (Hx : lost = 0 → proxy_taken p = 0 → ∀ b'', b'' = vlen br → b'' ≤ m →
    counts_inv m (Broker_mk sd (BrokerCounters_mk w h' b'' rj af un cm) [] a h PxDone br acc bd)).
  { intros -> Ep b'' -> Hm. counts. exists (vlen q). change (vlen (@nil (nat * SecureStream))) with 0. split_and!; [lia..|by right|lia]. }
  destruct p as [| |l|l|deadline l|deadline l|deadline l id s|l|l id s|]; simpl in *; try (destruct H7 as [->|?]; [|done]).
  - destruct sd; [apply Hx; lia|counts; eauto].
  - destruct (env_local env); [|counts; eauto]. destruct (decide _); [counts; eauto|apply Hx; lia].
  - destruct sd; [apply Hx; lia|]. destruct (local_configure l) as [[e|u] l']; counts; eauto.
  - rewrite limit. destruct (Z.ltb_spec b' m); [|counts; eauto]. simpl. destruct (checked_add _ _ _); simpl; [counts; eauto|].
    rewrite !wrap64_id by (unfold u64_max; rewrite ?wrap64_id by (unfold u64_max; lia); lia). apply Hx; lia.
  - destruct (_ || _); counts; eauto.
  - destruct q as [|[id s] q]; [destruct (_ || _); counts; eauto|]. rewrite vlen_cons in *. pose proof (vlen_nonneg q). counts. exists 0. split_and!; [lia..|by left|lia].
  - destruct (peer_closed 2000000 s) as [[e|[]] s']; counts; exists 0; (split_and!; [lia..|by left|lia]).
  - counts; eauto.
  - destruct (env_spawn env); counts; eauto.
  - counts; eauto.
Qed.

Lemma bridge_counts env i side b : counts_inv m b → counts_inv m (bridge_step env i side b).
Proof using limit limit_range.
  destruct b as [sd [w h' b' rj af un cm] q a h p br acc bd]. intros [H1 H2 H3 H4 H5 H6]. simpl in *.
  unfold bridge_step, release, tick, set_bridges, set_counters. simpl. destruct (br !! i) as [x|] eqn:Ei; [|by split].
  assert (0 ≤ proxy_slot p) by (destruct p; simpl; lia). assert (1 ≤ vlen br) by (apply lookup_lt_Some in Ei; unfold vlen; lia).
  destruct (br_pc x); try (split; simpl; rewrite ?vlen_insert; done).
  split; simpl; rewrite ?(vlen_delete br i _ Ei), ?wrap64_id by (unfold u64_max; lia); done || lia.
Qed.

Lemma broker_run_counts evs b : counts_inv m b → counts_inv m (broker_run config evs b).
Proof using limit limit_range.
  revert b. induction evs as [|ev evs IH]; intros b Hb; simpl; [done|]. apply IH. destruct ev as [env|env i|env|env i side|]; simpl.
  - by apply acceptor_counts.
  - by apply handshake_counts.
  - by apply proxy_counts.
  - by apply bridge_counts.
  - destruct Hb. by split.
Qed.
End counts.
(** *** What the broker promises *)

Section promise.
Context (issued : bytes → list CertificateBody).
Hypothesis issued_typed : ∀ root b, b ∈ issued root → window_typed b.
Hypothesis unforgeable : ∀ root m signature,
  verify_strict root m signature = true → ∃ b, b ∈ issued root ∧ signing_input b = Ok m.

(** The other end of session [t] holds the key of a certificate that names the
    principal. *)
Definition admitted (config : BrokerConfig) (t : Transport) : Prop :=
  ∃ clock body h, vouched issued (sv_roots (bc_auth config)) clock body ∧ cb_name body = bc_peer_principal config ∧
    is_handshake_finished h = true ∧ get_remote_static h = Some (cb_key body) ∧ into_stateless_transport_mode h = inr t.

Lemma authenticated_admitted config entropy clock s session s' :
  authenticate_server entropy clock (bc_auth config) (bc_authentication_timeout config) s = (Ok session, s') →
  pi_principal (as_peer session) = bc_peer_principal config → admitted config (ss_transport (as_stream session)).
Proof using issued_typed unforgeable.
  intros E Ep. destruct (server_knows_peer issued issued_typed unforgeable _ _ _ _ _ _ _ E) as (body & h & Hv & Hp & Hf & Hk & Ht).
  exists clock, body, h. rewrite Hp in Ep. by split_and!.
Qed.

(** C15: The broker connects its clients only to the principal it serves.  In every
    interleaving of its threads, and whatever the network does, a stream that is bridged
    to a client is one whose other end has proved to hold the key of a valid certificate
    for that principal, issued by a trusted root; and a reverse connection is given to
    one client at most, at any time and ever. *)
Theorem broker_serves_principal config evs :
  let b := broker_run config evs broker_init in
  Forall (λ br, br_id br ∈ bk_bridged b ∧ admitted config (ss_transport (br_remote br))) (bk_bridges b) ∧
  NoDup (br_id <$> bk_bridges b) ∧ NoDup (bk_bridged b).
Proof using issued_typed unforgeable.
  intros b. assert (H : broker_inv (admitted config) b).
  { apply broker_run_inv; [intros; by eapply authenticated_admitted|apply broker_init_inv]. }
  destruct H as [_ Hd [Hn Hb] Hs]. split_and!; [|done|].
  - apply Forall_forall. intros br Hbr. split; [apply Hb, list_elem_of_fmap; eauto|].
    eapply Forall_forall in Hs; [exact Hs|]. unfold sessions. rewrite !elem_of_app. do 3 right.
    apply list_elem_of_fmap. eauto.
  - unfold ids in Hd. rewrite !NoDup_app in Hd. apply Hd.
Qed.
End promise.

(** C28: The limits of a broker hold and its counts are right.  With a configuration that
    passed its validation, in every interleaving: as many handshakes as the limit and no
    more run at once, as many bridges, and the queue is no longer; each of the first two
    counts is the number of threads that have a slot, and none wraps around; and while
    the proxy thread runs, the streams counted as waiting are those of the queue with the
    few that are on the way into it or out of it, so that a broker with a queue is ready. *)
Theorem broker_counts_right config evs :
  validate_broker_config config = Ok () → 0 ≤ bc_max_waiting_streams config →
  let b := broker_run config evs broker_init in let c := bk_counters b in
  active_handshakes c = vlen (bk_handshakes b) + acceptor_slot (bk_acceptor b) ∧
  active_bridges c = vlen (bk_bridges b) + proxy_slot (bk_proxy b) ∧
  active_handshakes c ≤ bc_max_waiting_streams config ∧ active_bridges c ≤ bc_max_waiting_streams config ∧
  vlen (bk_queue b) ≤ bc_max_waiting_streams config ∧
  (bk_proxy b ≠ PxDone → waiting_streams c = vlen (bk_queue b) + vlen (omap announced (bk_handshakes b)) + proxy_taken (bk_proxy b)) ∧
  (bk_queue b ≠ [] → is_ready b = true).
Proof.
  intros Hv H0 b c. unfold validate_broker_config in Hv.
  destruct (Z.eqb_spec (bc_max_waiting_streams config) 0); [by rewrite !orb_true_r in Hv|].
  destruct (Z.ltb_spec 256 (bc_max_waiting_streams config)); [by rewrite !orb_true_r in Hv|].
  assert (Hc : counts_inv (bc_max_waiting_streams config) b).
  { apply broker_run_counts; [done|lia|]. split; unfold vlen; simpl; try lia. exists 0. split_and!; [lia|lia|by left|done]. }
  destruct Hc as [H1 H2 H3 H4 H5 (lost & H6 & H7 & H8)]. split_and!; [done..| |].
  - intros Hp. destruct H7 as [->|?]; [|done]. subst c. lia.
  - intros Hq. unfold is_ready. apply Z.ltb_lt. fold c in H8 |- *. rewrite H8. pose proof (vlen_nonneg (omap announced (bk_handshakes b))).
    assert (0 < vlen (bk_queue b)) by (destruct (bk_queue b); [done|rewrite vlen_cons; pose proof (vlen_nonneg l); lia]).
    assert (0 ≤ proxy_taken (bk_proxy b)) by (destruct (bk_proxy b); simpl; lia). lia.
Qed.

(** *** Shutting the broker down *)

(** How many steps of its own a thread is from its end once the flag is set. *)
Definition acceptor_rank (a : AcceptorPc) : nat :=
  match a with AcSlot _ _ => 3 | AcSpawn _ _ => 2 | AcAccept => 2 | AcLoop | AcCheck _ _ => 1 | AcDone => 0 end.
Definition proxy_rank (p : ProxyPc) : nat :=
  match p with
  | PxSlot _ => 5 | PxRecv _ _ => 5 | PxTaken _ _ _ _ => 4 | PxWait _ _ => 3 | PxNone _ | PxSpawn _ _ _ | PxAccept => 2
  | PxLoop | PxCheck _ => 1 | PxDone => 0
  end.

(** Waiting for a stream with an empty queue and time left. *)
Definition waiting_for_stream (env : Env) (b : Broker) : Prop :=
  match bk_proxy b with
  | PxRecv deadline _ => bk_queue b = [] ∧ senders_gone b = false ∧ env_now env < deadline
  | _ => False
  end.

Lemma acceptor_stops config env b : bk_shutdown b = true → bk_acceptor b ≠ AcDone →
  (acceptor_rank (bk_acceptor (acceptor_step config env b)) < acceptor_rank (bk_acceptor b))%nat.
Proof.
  intros Hs Hd. unfold acceptor_step, try_acquire. destruct (bk_acceptor b) eqn:E; simpl; try done; rewrite ?Hs; simpl; try lia.
  - destruct (env_accept env); simpl; [case_decide; simpl; lia|lia].
  - destruct (_ <? _); simpl; lia.
Qed.

Lemma proxy_stops config env b : bk_shutdown b = true → bk_proxy b ≠ PxDone → ¬ waiting_for_stream env b →
  (proxy_rank (bk_proxy (proxy_step config env b)) < proxy_rank (bk_proxy b))%nat.
Proof.
  intros Hs Hd Hw. unfold proxy_step, try_acquire, proxy_exit, waiting_for_stream in *.
  destruct (bk_proxy b) eqn:E; simpl; try done; rewrite ?Hs; simpl; try lia.
  - destruct (env_local env); simpl; [|lia]. case_decide; simpl; lia.
  - destruct (_ <? _); simpl; [|lia]. destruct (checked_add _ _ _); simpl; lia.
  - destruct (bk_queue b) as [|[id s] q] eqn:Eq; [|simpl; lia].
    destruct (senders_gone b) eqn:Eg; [simpl; lia|]. destruct (Z.leb_spec deadline (env_now env)); simpl; [lia|].
    exfalso. by apply Hw.
  - destruct (peer_closed 2000000 s) as [[e|[]] s']; simpl; lia.
  - destruct (env_spawn env); simpl; lia.
Qed.
End broker.

(** ** The export *)

Section export.
Context {ed : Ed25519} {noise : Noise}.

(** *** The claim *)

Section claim.
Context (sent : list bytes) (t : Transport).
Hypothesis authentic : ∀ n c p, 0 ≤ n → tr_read_message t n c = inr p → sent !! Z.to_nat n = Some p.

Lemma reading_exact fuel want acc got s o s' : reading sent t (got ++ acc) s → secure_read_exact_loop fuel want acc s = Some (inr o, s') →
  reading sent t (got ++ o) s'.
Proof using authentic.
  revert want acc s. induction fuel as [|fuel IH]; intros want acc s Hr; cbn [secure_read_exact_loop];
    (destruct (Z.leb_spec want 0); [by intros [= <- <-]|]); [done|].
  pose proof (reading_read sent t authentic want (got ++ acc) s ltac:(lia) Hr) as H1.
  destruct (secure_read want s) as [[e|[|b bs]] s1]; simpl in H1; [|done|].
  - case_decide; [|done]. apply IH. by rewrite app_nil_r in H1.
  - apply IH. by rewrite app_assoc.
Qed.

(** A stream on which the claim was received is one whose other end has sent it. *)
Lemma claim_was_sent socket u s' : receive_session_claim (SecureStream_new socket t) = (inr u, s') → SESSION_CLAIM `prefix_of` concat sent.
Proof using authentic.
  unfold receive_session_claim, secure_read_exact. set (s := SecureStream_new socket t).
  destruct (read_exact_loop_ends (Z.to_nat (vlen SESSION_CLAIM) + stream_fuel s) (vlen SESSION_CLAIM) [] s ltac:(done)) as [[o s1] E].
  unfold stream_fuel in E. rewrite E. cbn [from_option id]. destruct o as [e|claim]; [done|]. case_bool_decide as Ec; [|done]. intros _. subst claim.
  eapply (reading_prefix sent t _ s1), (reading_exact _ _ _ [] s); [|done].
  unfold reading, s. simpl. split_and!; try done. lia.
Qed.
End claim.

Lemma shut_kept_on {A} (f : TcpStream → A * TcpStream) s : (∀ x, tcp_shut (f x).2 = tcp_shut x) →
  tcp_shut (ss_stream (on_stream f s).2) = tcp_shut (ss_stream s).
Proof. intros H. unfold on_stream. specialize (H (ss_stream s)). by destruct (f (ss_stream s)). Qed.

Lemma tcp_read_exact_shut n s : tcp_shut (tcp_read_exact n s).2 = tcp_shut s.
Proof. unfold tcp_read_exact. by destruct (read_exact n (tcp_in s)). Qed.

Definition is_shut (s : SecureStream) : Prop := tcp_shut (ss_stream s) = true.

Lemma read_record_shut s : is_shut s → is_shut (read_record s).2.
Proof.
  unfold is_shut, read_record. intros Hs. pose proof (shut_kept_on _ s (tcp_read_shut 1)) as H1.
  destruct (on_stream (tcp_read 1) s) as [[e|[|b bs]] s1]; simpl in *; [congruence..|].
  pose proof (shut_kept_on _ s1 (tcp_read_exact_shut 1)) as H2. destruct (on_stream (tcp_read_exact 1) s1) as [[e|low] s2]; simpl in *; [congruence|].
  destruct (_ <? _); [done|].
  match goal with |- context [on_stream (tcp_read_exact ?k) s2] => pose proof (shut_kept_on _ s2 (tcp_read_exact_shut k)) as H3;
    destruct (on_stream (tcp_read_exact k) s2) as [[e|c] s3] end; simpl in *; [congruence|].
  destruct (tr_read_message _ _ _); [done|]. destruct (next_nonce _); [done|]. simpl. congruence.
Qed.

Lemma read_loop_shut fuel n s o s' : is_shut s → secure_read_loop fuel n s = Some (o, s') → is_shut s'.
Proof.
  revert s. induction fuel as [|fuel IH]; intros s Hs; cbn [secure_read_loop]; [done|].
  destruct (_ <? _); [by intros [= _ <-]; destruct (_ =? _)|]. pose proof (read_record_shut s Hs) as H.
  destruct (read_record s) as [[e|[]] s1]; simpl in H; [by intros [= _ <-]|by apply IH|by intros [= _ <-]].
Qed.

Lemma secure_read_shut n s : is_shut s → is_shut (secure_read n s).2.
Proof.
  intros Hs. unfold secure_read. destruct (_ =? _); [done|].
  destruct (secure_read_loop _ n s) as [[o s']|] eqn:E; [by eapply read_loop_shut|done].
Qed.

Lemma claim_transport s : ss_transport (receive_session_claim s).2 = ss_transport s.
Proof.
  unfold receive_session_claim, secure_read_exact.
  assert (H : ∀ fuel want acc s, ss_transport (default (inr [], s) (secure_read_exact_loop fuel want acc s)).2 = ss_transport s).
  { clear s. intros fuel. induction fuel as [|fuel IH]; intros want acc s; cbn [secure_read_exact_loop]; (destruct (_ <=? _); [done|]); [done|].
    destruct (secure_read_writing want s) as (H1 & _). destruct (secure_read want s) as [[e|[|b bs]] s1]; simpl in H1; [|done|].
    - case_decide; [|done]. specialize (IH want acc s1). rewrite H1 in IH. by destruct (secure_read_exact_loop fuel want acc s1).
    - specialize (IH (want - vlen (b :: bs)) (acc ++ b :: bs) s1). rewrite H1 in IH. by destruct (secure_read_exact_loop fuel _ _ s1). }
  specialize (H (Z.to_nat (vlen SESSION_CLAIM) + reader_fuel (tcp_in (ss_stream s)))%nat (vlen SESSION_CLAIM) [] s).
  destruct (default _ _) as [[e|claim] s1]; [done|]. simpl in H. by case_bool_decide.
Qed.

Lemma claim_shut s : is_shut s → is_shut (receive_session_claim s).2.
Proof.
  intros Hs. unfold receive_session_claim, secure_read_exact.
  assert (H : ∀ fuel want acc s, is_shut s → is_shut (default (inr [], s) (secure_read_exact_loop fuel want acc s)).2).
  { clear s Hs. intros fuel. induction fuel as [|fuel IH]; intros want acc s Hs; cbn [secure_read_exact_loop]; (destruct (_ <=? _); [done|]); [done|].
    pose proof (secure_read_shut want s Hs) as H1. destruct (secure_read want s) as [[e|[|b bs]] s1]; simpl in H1; [|done|].
    - case_decide; [|done]. specialize (IH want acc s1 H1). by destruct (secure_read_exact_loop fuel want acc s1).
    - specialize (IH (want - vlen (b :: bs)) (acc ++ b :: bs) s1 H1). by destruct (secure_read_exact_loop fuel _ _ s1). }
  specialize (H (Z.to_nat (vlen SESSION_CLAIM) + reader_fuel (tcp_in (ss_stream s)))%nat (vlen SESSION_CLAIM) [] s Hs).
  destruct (default _ _) as [[e|claim] s1]; [done|]. simpl in H. by case_bool_decide.
Qed.
(** *** The workers *)

(** The stream a worker has, and the one it has put in the table. *)
Definition worker_id (pc : WorkerPc) : option nat :=
  match pc with WkRegister id | WkConnected id | WkClaim id | WkServing id | WkUnregister id => Some id | _ => None end.
Definition registered (pc : WorkerPc) : option nat :=
  match pc with WkConnected id | WkClaim id | WkServing id | WkUnregister id => Some id | _ => None end.
Definition connected (pc : WorkerPc) : option unit :=
  match pc with WkClaim _ | WkServing _ | WkUnregister _ | WkDisconnect => Some () | _ => None end.
Definition connected_bit (pc : WorkerPc) : Z := match connected pc with Some _ => 1 | None => 0 end.

Section workers.
Context (Q : Transport → Prop).

Definition claimed (s : SecureStream) : Prop :=
  ∃ socket t s', Q t ∧ receive_session_claim (SecureStream_new socket t) = (inr (), s') ∧ (s = s' ∨ s = shut s').

Definition stream_at (pc : WorkerPc) (s : SecureStream) : Prop :=
  match pc with
  | WkRegister _ | WkConnected _ | WkClaim _ => ∃ socket t, Q t ∧ s = SecureStream_new socket t
  | WkServing _ => claimed s
  | _ => True
  end.

Record export_inv (x : Export) : Prop := {
  ei_table : (length (ex_workers x) ≤ length (ex_active x))%nat;
  ei_few : (length (ex_workers x) ≤ 256)%nat;
  ei_streams : ∀ i pc id, ex_workers x !! i = Some pc → worker_id pc = Some id →
    ∃ s, ex_streams x !! id = Some s ∧ stream_at pc s;
  ei_distinct : ∀ i j pc pc' id, ex_workers x !! i = Some pc → ex_workers x !! j = Some pc' →
    worker_id pc = Some id → worker_id pc' = Some id → i = j;
  ei_active : ∀ i pc id, ex_workers x !! i = Some pc → registered pc = Some id → ex_active x !! i = Some (Some id);
  ei_flag : ex_drop x ≠ DrRunning → ex_shutdown x = true;
  ei_shut : ex_drop x = DrJoin → ∀ i pc id s, ex_workers x !! i = Some pc → registered pc = Some id →
    ex_streams x !! id = Some s → is_shut s;
  ei_connected : ex_connected_streams x = vlen (omap connected (ex_workers x));
}.

Lemma registered_id pc id : registered pc = Some id → worker_id pc = Some id.
Proof. by destruct pc. Qed.

Lemma connected_put (l : list WorkerPc) i pc pc' : l !! i = Some pc →
  vlen (omap connected (<[i := pc']> l)) = vlen (omap connected l) + connected_bit pc' - connected_bit pc.
Proof.
  intros H. unfold vlen. rewrite (omap_put connected l i pc pc' H), (omap_get connected l i pc H), !length_app.
  unfold connected_bit. destruct (connected pc), (connected pc'); simpl; lia.
Qed.

Lemma connected_range (l : list WorkerPc) : 0 ≤ vlen (omap connected l) ≤ Z.of_nat (length l).
Proof.
  split; [apply vlen_nonneg|]. unfold vlen. induction l as [|x l IH]; [done|].
  change (omap connected (x :: l)) with (match connected x with Some u => u :: omap connected l | None => omap connected l end).
  destruct (connected x); cbn [length]; lia.
Qed.

(** A worker goes on; only its own streams and its own place in the table change. *)
Lemma worker_goes_on x i pc pc' c cf af cs active streams :
  export_inv x → ex_workers x !! i = Some pc →
  (∀ j, j ≠ i → active !! j = ex_active x !! j) → length active = length (ex_active x) →
  (∀ id, worker_id pc ≠ Some id → (id < length (ex_streams x))%nat → streams !! id = ex_streams x !! id) →
  (∀ id, worker_id pc' = Some id → worker_id pc = Some id ∨ id = length (ex_streams x)) →
  (∀ id, worker_id pc' = Some id → ∃ s, streams !! id = Some s ∧ stream_at pc' s) →
  (∀ id, registered pc' = Some id → active !! i = Some (Some id)) →
  (ex_drop x = DrJoin → ∀ id s, registered pc' = Some id → streams !! id = Some s → is_shut s) →
  c = ex_connected_streams x + connected_bit pc' - connected_bit pc →
  export_inv (Export_mk (ex_shutdown x) c cf af cs active streams (<[i := pc']> (ex_workers x)) (ex_drop x)).
Proof.
  intros [I1 I2 I3 I4 I5 I6 I7 I8] Hi Ha Hl Hs Hid Hat Hreg Hsh Hc.
  assert (Hlen : (i < length (ex_workers x))%nat) by (by eapply lookup_lt_Some).
  assert (Hcase : ∀ j q, <[i := pc']> (ex_workers x) !! j = Some q → j = i ∧ q = pc' ∨ j ≠ i ∧ ex_workers x !! j = Some q).
  { intros j q Hj. destruct (decide (j = i)) as [->|Hne]; [left|right].
    - rewrite list_lookup_insert_eq in Hj by done. by injection Hj as <-.
    - by rewrite list_lookup_insert_ne in Hj by done. }
  assert (Hother : ∀ j q id, j ≠ i → ex_workers x !! j = Some q → worker_id q = Some id → streams !! id = ex_streams x !! id ∧
    (id < length (ex_streams x))%nat).
  { intros j q id Hne Hj Hq. destruct (I3 _ _ _ Hj Hq) as (s & Es & _). apply lookup_lt_Some in Es. split; [|done].
    apply Hs; [|done]. intros Hp. apply Hne. by eapply I4. }
  split; simpl.
  - rewrite length_insert. lia.
  - by rewrite length_insert.
  - intros j q id [[-> ->]|[Hne Hj]]%Hcase Hq; [by apply Hat|]. destruct (Hother _ _ _ Hne Hj Hq) as [-> _]. by eapply I3.
  - intros j k q q' id Hj Hk Hq Hq'. apply Hcase in Hj as [[-> ->]|[Hj1 Hj]]; apply Hcase in Hk as [[-> ->]|[Hk1 Hk]];
      [done| | |by eapply I4].
    + destruct (Hother _ _ _ Hk1 Hk Hq') as [_ Hlt]. destruct (Hid _ Hq) as [Hp| ->]; [|lia]. by eapply I4.
    + destruct (Hother _ _ _ Hj1 Hj Hq) as [_ Hlt]. destruct (Hid _ Hq') as [Hp| ->]; [|lia]. by eapply I4.
  - intros j q id [[-> ->]|[Hne Hj]]%Hcase Hq; [by apply Hreg|]. rewrite Ha by done. by eapply I5.
  - done.
  - intros Hd j q id s [[-> ->]|[Hne Hj]]%Hcase Hq Es; [by eapply Hsh|]. apply (I7 Hd j q id s Hj Hq).
    by destruct (Hother _ _ _ Hne Hj (registered_id _ _ Hq)) as [<- _].
  - rewrite (connected_put _ _ _ _ Hi), Hc, I8. lia.
Qed.
Context (config : ReverseExportConfig).
Hypothesis responds : ∀ entropy clock s stream s',
  authenticate_client_to entropy clock (ec_auth config) (ec_expected_responder config) (ec_principal config)
    (ec_authentication_timeout config) s = (Ok stream, s') → Q (ss_transport stream).

Lemma client_stream_new entropy clock auth domain principal timeout s stream s' :
  authenticate_client_to entropy clock auth domain principal timeout s = (Ok stream, s') →
  stream = SecureStream_new s' (ss_transport stream).
Proof.
  unfold authenticate_client_to. intros E.
  repeat (apply M_bind_Ok in E as (? & ? & ? & E)). unfold gets in E. by injection E as <- <-.
Qed.

Lemma connected_small x : export_inv x → 0 ≤ ex_connected_streams x ≤ 256.
Proof. intros [_ Hf _ _ _ _ _ ->]. pose proof (connected_range (ex_workers x)). lia. Qed.

(** A step that changes only the worker's place. *)
Lemma worker_moves x i pc pc' cf af cs : export_inv x → ex_workers x !! i = Some pc → worker_id pc' = None →
  connected pc' = connected pc →
  export_inv (Export_mk (ex_shutdown x) (ex_connected_streams x) cf af cs (ex_active x) (ex_streams x) (<[i := pc']> (ex_workers x)) (ex_drop x)).
Proof.
  intros Hx Hi Hw Hc. eapply worker_goes_on; try done.
  - intros id Hid. congruence.
  - intros id Hid. congruence.
  - intros id Hid%registered_id. congruence.
  - intros _ id s Hid%registered_id. congruence.
  - unfold connected_bit. rewrite Hc. lia.
Qed.

(** The claim was read, whatever it was; the stream of the worker has moved on. *)
Lemma claim_goes_on x i id socket t r s' pc' : export_inv x → ex_workers x !! i = Some (WkClaim id) →
  ex_streams x !! id = Some (SecureStream_new socket t) → receive_session_claim (SecureStream_new socket t) = (r, s') →
  registered pc' = Some id → connected pc' = Some () → stream_at pc' s' →
  export_inv (ex_goto i pc' (ex_set_streams (<[id := s']> (ex_streams x)) x)).
Proof.
  intros Hx Hi Es Er Hreg Hc Hat. pose proof (registered_id _ _ Hreg) as Hw. eapply (worker_goes_on x i); try done; simpl.
  - intros j Hj _. apply list_lookup_insert_ne. congruence.
  - intros j Hj. left. congruence.
  - intros j Hj. assert (j = id) as -> by congruence. exists s'. split; [|done]. apply list_lookup_insert_eq. by eapply lookup_lt_Some.
  - intros j Hj. assert (j = id) as -> by congruence. by eapply ei_active.
  - intros Hd j s2 Hj. assert (j = id) as -> by congruence. rewrite list_lookup_insert_eq by (by eapply lookup_lt_Some).
    intros [= <-]. pose proof (claim_shut (SecureStream_new socket t)) as H. rewrite Er in H. apply H. by eapply (ei_shut _ Hx Hd i).
  - unfold connected_bit. rewrite Hc. simpl. lia.
Qed.

Lemma worker_step_inv env i x : export_inv x → export_inv (worker_step config env i x).
Proof using responds.
  intros Hx. pose proof (connected_small x Hx) as Hsmall. unfold worker_step.
  destruct (ex_workers x !! i) as [pc|] eqn:Hi; [|done].
  assert (Hmove : ∀ pc' cf af cs, worker_id pc' = None → connected pc' = connected pc →
    export_inv (ex_count 0 cf af cs (ex_goto i pc' x))).
  { intros pc' cf af cs Hw Hc. unfold ex_count, ex_goto. simpl. rewrite Z.add_0_r, wrap64_id by (unfold u64_max; lia).
    by eapply worker_moves. }
  assert (Hgo : ∀ pc', worker_id pc' = None → connected pc' = connected pc → export_inv (ex_goto i pc' x)).
  { intros pc' Hw Hc. by eapply worker_moves. }
  assert (Hstream : ∀ id, worker_id pc = Some id → ∃ s, ex_streams x !! id = Some s ∧ stream_at pc s) by (intros id Hid; by eapply ei_streams).
  assert (Htab : (i < length (ex_active x))%nat) by (apply lookup_lt_Some in Hi; pose proof (ei_table _ Hx); lia).
  destruct pc as [f|f s|delay f|id|id|id|id|id| |].
  - destruct (ex_shutdown x); [by apply Hgo|]. destruct (connect_broker _ _) as [e|s]; [by apply Hmove|].
    destruct (configure_transport_socket s) as [[e|u] s']; [by apply Hmove|by apply Hgo].
  - destruct (authenticate_client_to _ _ _ _ _ _ s) as [[stream|e] s'] eqn:E; [|by apply Hmove].
    destruct (env_clone env); [by apply Hmove|]. eapply (worker_goes_on x i); try done; simpl.
    + intros id _ Hid. by rewrite lookup_app_l.
    + intros id [= <-]. by right.
    + intros id [= <-]. exists stream. split; [by rewrite lookup_app_r, Nat.sub_diag|]. exists s', (ss_transport stream).
      split; [by eapply responds|by eapply client_stream_new].
    + unfold connected_bit. simpl. lia.
  - by apply Hgo.
  - destruct (ex_shutdown x) eqn:Esd.
    + eapply (worker_goes_on x i); try done; simpl; [|unfold connected_bit; simpl; lia].
      intros j Hj _. apply list_lookup_alter_ne. congruence.
    + assert (Hd : ex_drop x ≠ DrJoin) by (intros Hd; rewrite (ei_flag _ Hx) in Esd by (by rewrite Hd); done).
      eapply (worker_goes_on x i); try done; simpl; [|by rewrite length_insert|by left| |unfold connected_bit; simpl; lia].
      * intros j Hj. by rewrite list_lookup_insert_ne.
      * intros j [= <-]. by apply list_lookup_insert_eq.
  - unfold ex_count, ex_goto. simpl. rewrite wrap64_id by (unfold u64_max; lia). eapply (worker_goes_on x i); try done; simpl; [by left| | |].
    + intros j Hj. by eapply ei_active.
    + intros Hd j s Hj Es. by eapply ei_shut.
    + unfold connected_bit. simpl. lia.
  - destruct (Hstream id eq_refl) as (s & Es & socket & t & Ht & ->). rewrite Es. simpl in *.
    destruct (after_shut _ socket).
    { eapply (worker_goes_on x i); try done; simpl; [by left| | | |unfold connected_bit; simpl; lia].
      + intros j [= <-]. eauto.
      + intros j Hj. by eapply ei_active.
      + intros Hd j s2 Hj. by eapply ei_shut. }
    destruct (receive_session_claim (SecureStream_new socket t)) as [[e|[]] s'] eqn:Er.
    + by eapply claim_goes_on.
    + destruct (ex_shutdown x); eapply claim_goes_on; try done. exists socket, t, s'. eauto.
  - destruct (Hstream id eq_refl) as (s & Es & _). eapply (worker_goes_on x i); try done; simpl; [by left| | | |unfold connected_bit; simpl; lia].
    + intros j [= <-]. eauto.
    + intros j Hj. by eapply ei_active.
    + intros Hd j s2 Hj. by eapply ei_shut.
  - eapply (worker_goes_on x i); try done; simpl; [|by rewrite length_insert|unfold connected_bit; simpl; lia].
    intros j Hj. by rewrite list_lookup_insert_ne.
  - unfold ex_count, ex_goto. simpl.
    assert (1 ≤ ex_connected_streams x).
    { rewrite (ei_connected _ Hx). unfold vlen. rewrite (omap_get connected _ _ _ Hi), length_app. simpl. lia. }
    rewrite wrap64_id by (unfold u64_max; lia). eapply (worker_goes_on x i); try done; simpl. unfold connected_bit. simpl. lia.
  - done.
Qed.
Lemma shut_twice s : shut (shut s) = shut s.
Proof. done. Qed.

Lemma shut_all_lookup active streams id : shut_all active streams !! id = streams !! id ∨
  shut_all active streams !! id = shut <$> streams !! id.
Proof.
  induction active as [|[k|] active IH]; simpl; [by left| |done]. destruct (decide (k = id)) as [->|Hne].
  - rewrite list_lookup_alter_eq. right. destruct IH as [-> | ->]; [done|]. by destruct (streams !! id).
  - by rewrite list_lookup_alter_ne.
Qed.

Lemma shut_all_shut active streams i id s : active !! i = Some (Some id) → shut_all active streams !! id = Some s → is_shut s.
Proof.
  revert i. induction active as [|slot active IH]; intros i Hi; [done|]. destruct i as [|i]; simpl in Hi.
  - injection Hi as ->. simpl. rewrite list_lookup_alter_eq. by destruct (shut_all active streams !! id) as [y|]; [intros [= <-]|].
  - destruct slot as [k|]; simpl; [|by eapply IH]. destruct (decide (k = id)) as [->|Hne].
    + rewrite list_lookup_alter_eq. by destruct (shut_all active streams !! id) as [y|]; [intros [= <-]|].
    + rewrite list_lookup_alter_ne by done. by eapply IH.
Qed.

Lemma stream_at_shut pc s : stream_at pc s → stream_at pc (shut s).
Proof.
  destruct pc; simpl; try done.
  - intros (socket & t & Ht & ->). exists (shutdown_transport socket), t. done.
  - intros (socket & t & Ht & ->). exists (shutdown_transport socket), t. done.
  - intros (socket & t & Ht & ->). exists (shutdown_transport socket), t. done.
  - intros (socket & t & s' & Ht & Er & Hs). exists socket, t, s'. split_and!; [done..|]. right. by destruct Hs as [-> | ->].
Qed.

Lemma drop_step_inv x : export_inv x → export_inv (drop_step x).
Proof.
  intros [I1 I2 I3 I4 I5 I6 I7 I8]. unfold drop_step. destruct (ex_drop x) eqn:Ed; [by split..| |by split; rewrite ?Ed].
  split; simpl; try done.
  - intros i pc id Hi Hid. destruct (I3 _ _ _ Hi Hid) as (s & Es & Hs).
    destruct (shut_all_lookup (ex_active x) (ex_streams x) id) as [-> | ->]; [by exists s|]. rewrite Es. exists (shut s).
    split; [done|]. by apply stream_at_shut.
  - intros _. by apply I6.
  - intros _ i pc id s Hi Hid. eapply shut_all_shut. by eapply I5.
Qed.

Lemma export_run_inv evs x : export_inv x → export_inv (export_run config evs x).
Proof using responds.
  revert x. induction evs as [|[env i|] evs IH]; intros x Hx; simpl; [done| |]; apply IH; [by apply worker_step_inv|by apply drop_step_inv].
Qed.

Lemma spawn_workers_idle spawns r workers : spawn_workers spawns = (r, workers) →
  Forall (λ pc, pc = WkLoop 0) workers ∧ (length workers ≤ length spawns)%nat.
Proof.
  revert r workers. induction spawns as [|[e|] spawns IH]; intros r workers; simpl; [by intros [= <- <-]|intros [= <- <-]; simpl; split; [done|lia]|].
  destruct (spawn_workers spawns) as [r' w'] eqn:E. intros [= <- <-]. destruct (IH _ _ eq_refl) as [H1 H2]. simpl. split; [by constructor|lia].
Qed.

Lemma start_server_inv spawns : export_inv (start_server config spawns).2.
Proof.
  unfold start_server. set (pool := Z.to_nat (ec_connection_pool config)). destruct (validate_export_config config) as [u|e] eqn:Ev.
  - assert (Hp : (pool ≤ 256)%nat).
    { unfold validate_export_config in Ev. destruct (Z.ltb_spec 256 (ec_connection_pool config)); [by rewrite !orb_true_r in Ev|]. lia. }
    destruct (spawn_workers (take pool spawns)) as [r workers] eqn:E. apply spawn_workers_idle in E as [Hw Hl]. rewrite length_take in Hl.
    assert (Hpc : ∀ i pc, workers !! i = Some pc → pc = WkLoop 0) by (intros i pc Hi; by eapply (Forall_lookup_1 _ _ _ _ Hw)).
    split; simpl; try done.
    + rewrite length_replicate. lia.
    + lia.
    + intros i pc id ->%Hpc. done.
    + intros i j pc pc' id ->%Hpc. done.
    + intros i pc id ->%Hpc. done.
    + clear Hl Hpc. induction Hw as [|pc workers -> _ IH]; [done|]. exact IH.
  - split; simpl; try done; lia.
Qed.
End workers.

(** *** What the export promises *)

(** How many steps of its own a worker is from its end once the flag is set. *)
Definition worker_rank (pc : WorkerPc) : nat :=
  match pc with
  | WkDone => 0 | WkLoop _ | WkRegister _ => 1 | WkRetry _ _ | WkDisconnect => 2 | WkAuth _ _ | WkUnregister _ => 3
  | WkServing _ => 4 | WkClaim _ => 5 | WkConnected _ => 6
  end.

Definition rank_at (i : nat) (x : Export) : nat := match ex_workers x !! i with Some pc => worker_rank pc | None => 0 end.

(** How many of the events are steps of worker [i]. *)
Fixpoint turns_of (i : nat) (evs : list ExportEvent) : nat :=
  match evs with
  | [] => 0
  | ExWorker _ j :: evs => (if decide (j = i) then 1 else 0) + turns_of i evs
  | ExDrop :: evs => turns_of i evs
  end.

Lemma worker_lookup_other config env i j x : j ≠ i → ex_workers (worker_step config env j x) !! i = ex_workers x !! i.
Proof.
  intros Hne. unfold worker_step. repeat case_match; simpl; try done; by rewrite list_lookup_insert_ne.
Qed.

Lemma worker_step_keeps config env i x : ex_shutdown (worker_step config env i x) = ex_shutdown x ∧
  ex_drop (worker_step config env i x) = ex_drop x ∧ length (ex_workers (worker_step config env i x)) = length (ex_workers x).
Proof. unfold worker_step. repeat case_match; simpl; rewrite ?length_insert; done. Qed.

Lemma worker_rank_falls Q config env i x pc : export_inv Q x → ex_shutdown x = true → ex_workers x !! i = Some pc →
  (rank_at i (worker_step config env i x) ≤ worker_rank pc - 1)%nat.
Proof.
  intros Hx Hs Hi. assert (Hl : (i < length (ex_workers x))%nat) by (by eapply lookup_lt_Some).
  assert (Hgoto : ∀ y pc', ex_workers y = ex_workers x → rank_at i (ex_goto i pc' y) = worker_rank pc').
  { intros y pc' E. unfold rank_at. simpl. rewrite E. by rewrite list_lookup_insert_eq. }
  assert (Hcount : ∀ a b c d y, rank_at i (ex_count a b c d y) = rank_at i y) by done.
  unfold worker_step. rewrite Hi, Hs. destruct pc as [f|f s|delay f|id|id|id|id|id| |].
  - by rewrite Hgoto.
  - destruct (authenticate_client_to _ _ _ _ _ _ s) as [[stream|e] s']; [destruct (env_clone env)|]; rewrite ?Hcount, Hgoto by done; simpl; lia.
  - by rewrite Hgoto.
  - by rewrite Hgoto.
  - by rewrite Hcount, Hgoto.
  - destruct (ei_streams _ _ Hx i _ id Hi eq_refl) as (s & -> & _).
    destruct (after_shut _ _); [rewrite Hgoto by done; simpl; lia|].
    destruct (receive_session_claim s) as [[e|u] s']; rewrite Hgoto by done; simpl; lia.
  - by rewrite Hgoto.
  - by rewrite Hgoto.
  - by rewrite Hcount, Hgoto.
  - unfold rank_at. by rewrite Hi.
Qed.

Lemma rank_runs Q config evs i x : (∀ entropy clock s stream s',
    authenticate_client_to entropy clock (ec_auth config) (ec_expected_responder config) (ec_principal config)
      (ec_authentication_timeout config) s = (Ok stream, s') → Q (ss_transport stream)) →
  export_inv Q x → ex_shutdown x = true → (rank_at i (export_run config evs x) ≤ rank_at i x - turns_of i evs)%nat.
Proof.
  intros HQ. revert x. induction evs as [|[env j|] evs IH]; intros x Hx Hs; simpl; [lia| |].
  - destruct (worker_step_keeps config env j x) as (Es & _ & _).
    specialize (IH (worker_step config env j x) ltac:(by apply worker_step_inv) ltac:(congruence)). etrans; [exact IH|].
    destruct (decide (j = i)) as [->|Hne].
    + destruct (ex_workers x !! i) as [pc|] eqn:Hi.
      * pose proof (worker_rank_falls Q config env i x pc Hx Hs Hi). unfold rank_at at 2. rewrite Hi. lia.
      * unfold worker_step. rewrite Hi. unfold rank_at. rewrite Hi. lia.
    + unfold rank_at. rewrite (worker_lookup_other config env i j x Hne). lia.
  - specialize (IH (drop_step x) ltac:(by apply drop_step_inv)). assert (Ed : ex_shutdown (drop_step x) = true ∧ ex_workers (drop_step x) = ex_workers x).
    { unfold drop_step. by destruct (ex_drop x). }
    destruct Ed as [Ed Ew]. specialize (IH Ed). unfold rank_at in *. by rewrite Ew in IH.
Qed.

Lemma export_run_length config evs x : length (ex_workers (export_run config evs x)) = length (ex_workers x).
Proof.
  revert x. induction evs as [|[env j|] evs IH]; intros x; simpl; [done| |]; rewrite IH.
  - by destruct (worker_step_keeps config env j x) as (_ & _ & ->).
  - unfold drop_step. by destruct (ex_drop x).
Qed.

(** C27: Dropping an export ends it.  In every interleaving of the pool with the drop, once
    the drop has swept the table of active streams, every worker that still has a stream
    in use has it shut down, also one that was connecting when the sweep came, so that no
    session outlives the export; and six turns of each worker later all of them have
    ended, so that the joins return. *)
Theorem export_drop_ends config spawns evs :
  let x := export_run config evs (start_server config spawns).2 in
  ex_drop x = DrJoin →
  (∀ i pc id, ex_workers x !! i = Some pc → registered pc = Some id → ∃ s, ex_streams x !! id = Some s ∧ is_shut s) ∧
  (∀ more, (∀ i, (i < length (ex_workers x))%nat → (6 ≤ turns_of i more)%nat) →
     Forall (λ pc, pc = WkDone) (ex_workers (export_run config more x))).
Proof.
  intros x Hd. set (Q := λ _ : Transport, True). assert (Hx : export_inv Q x).
  { apply export_run_inv; [done|]. apply start_server_inv. }
  split.
  - intros i pc id Hi Hr. destruct (ei_streams _ _ Hx i pc id Hi (registered_id _ _ Hr)) as (s & Es & _). exists s. split; [done|].
    by eapply (ei_shut _ _ Hx Hd).
  - intros more Hm. apply Forall_lookup. intros i pc Hi. pose proof (lookup_lt_Some _ _ _ Hi) as Hl. rewrite export_run_length in Hl.
    pose proof (rank_runs Q config more i x ltac:(done) Hx ltac:(by apply (ei_flag _ _ Hx); rewrite Hd)) as Hrk. specialize (Hm i Hl).
    unfold rank_at at 1 in Hrk. rewrite Hi in Hrk. assert (rank_at i x ≤ 6)%nat.
    { unfold rank_at. destruct (ex_workers x !! i) as [[]|]; simpl; lia. }
    destruct pc; simpl in Hrk; (done || lia).
Qed.

Section promise.
Context (issued : bytes → list CertificateBody).
Hypothesis issued_typed : ∀ root b, b ∈ issued root → window_typed b.
Hypothesis unforgeable : ∀ root m signature,
  verify_strict root m signature = true → ∃ b, b ∈ issued root ∧ signing_input b = Ok m.

(** The other end of session [t] holds the key of a certificate for [domain]. *)
Definition responder (roots : list bytes) (domain : bytes) (t : Transport) : Prop :=
  ∃ clock body h third, vouched issued roots clock body ∧ cb_name body = domain ∧ get_remote_static h = Some (cb_key body) ∧
    into_stateless_transport_mode (hs_write_message third h).2 = inr t.

Lemma connected_responder entropy clock auth domain principal timeout s stream s' :
  authenticate_client_to entropy clock auth domain principal timeout s = (Ok stream, s') →
  responder (cl_roots auth) domain (ss_transport stream).
Proof using issued_typed unforgeable.
  intros E. destruct (client_knows_responder issued issued_typed unforgeable _ _ _ _ _ _ _ _ _ E) as (body & h & third & ? & ? & ? & ? & _).
  by exists clock, body, h, third.
Qed.

(** C30: An export serves its tree to the broker it was told to and to nobody else: in
    every interleaving, a worker serves only on a stream whose other end has proved to
    hold the key of a valid certificate for the expected responder and has sent the
    session claim first; and the streams counted as connected are those of the workers. *)
Theorem export_serves_claimed config spawns evs :
  let x := export_run config evs (start_server config spawns).2 in
  (∀ i id, ex_workers x !! i = Some (WkServing id) → ∃ s, ex_streams x !! id = Some s ∧
     responder (cl_roots (ec_auth config)) (ec_expected_responder config) (ss_transport s) ∧
     ∀ sent, (∀ n c p, 0 ≤ n → tr_read_message (ss_transport s) n c = inr p → sent !! Z.to_nat n = Some p) →
       SESSION_CLAIM `prefix_of` concat sent) ∧
  ex_connected_streams x = vlen (omap connected (ex_workers x)).
Proof using issued_typed unforgeable.
  intros x. assert (Hx : export_inv (responder (cl_roots (ec_auth config)) (ec_expected_responder config)) x).
  { apply export_run_inv; [intros; by eapply connected_responder|]. apply start_server_inv. }
  split; [|apply (ei_connected _ _ Hx)]. intros i id Hi.
  destruct (ei_streams _ _ Hx i _ id Hi eq_refl) as (s & Es & socket & t & s' & Ht & Er & Hs). exists s. split; [done|].
  pose proof (claim_transport (SecureStream_new socket t)) as Et. rewrite Er in Et. simpl in Et.
  assert (ss_transport s = t) as -> by (by destruct Hs as [-> | ->]). split; [done|]. intros sent Ha. by eapply claim_was_sent.
Qed.
End promise.

(** *** Reconnecting *)

(** A worker waits at least the least and at most the greatest delay, and longer the
    more attempts have failed. *)
Theorem retry_delay_bounded config i failed :
  0 < ec_reconnect_min_delay config ≤ ec_reconnect_max_delay config → ec_reconnect_max_delay config ≤ DURATION_MAX →
  0 < ec_connection_pool config → 0 ≤ failed →
  ec_reconnect_min_delay config ≤ retry_delay config i failed ≤ ec_reconnect_max_delay config ∧
  retry_delay config i failed ≤ retry_delay config i (failed + 1).
Proof.
  intros Hmin Hmax Hpool Hf. unfold retry_delay, saturating_add. set (phase := match try_from u32_max (Z.of_nat i) with Some _ => _ | None => 0 end).
  assert (Hphase : 0 ≤ phase).
  { unfold phase. destruct (try_from u32_max (Z.of_nat i)) as [index|] eqn:E; [|lia]. apply try_from_Some in E as [-> E].
    case_match; [|lia]. apply Z.div_pos; [lia|]. unfold try_from, u32_max in *. destruct (_ && _); simpl; lia. }
  assert (Hshift : ∀ n, 0 ≤ n → Z.shiftl 1 n = 2 ^ n) by (intros n Hn; rewrite Z.shiftl_mul_pow2; lia).
  rewrite !Hshift by lia. assert (H1 : 1 ≤ 2 ^ Z.min failed 12) by (apply (Z.pow_le_mono_r 2 0); lia).
  assert (H2 : 2 ^ Z.min failed 12 ≤ 2 ^ Z.min (failed + 1) 12) by (apply Z.pow_le_mono_r; lia).
  assert (H3 : ec_reconnect_min_delay config * 2 ^ Z.min failed 12 ≤ ec_reconnect_min_delay config * 2 ^ Z.min (failed + 1) 12)
    by (apply Z.mul_le_mono_nonneg_l; lia).
  assert (H4 : ec_reconnect_min_delay config * 1 ≤ ec_reconnect_min_delay config * 2 ^ Z.min failed 12)
    by (apply Z.mul_le_mono_nonneg_l; lia).
  lia.
Qed.

(** ** The session proxy *)

Section session_proxy.
Context (config : SessionProxyConfig) (Q : Transport → Prop).
Hypothesis limit_range : 0 < sc_max_sessions config ≤ 256.
Hypothesis responds : ∀ entropy clock s stream s',
  authenticate_client_to entropy clock (sc_auth config) (sc_expected_responder config) (sc_principal config)
    (sc_authentication_timeout config) s = (Ok stream, s') → Q (ss_transport stream).

Definition thread_ok (t : SpThread) : Prop := match t with SpBridge b => Q (ss_transport (br_remote b)) | _ => True end.
Definition session_slot (a : SpAcceptorPc) : Z := match a with SaSpawn _ => 1 | _ => 0 end.

Record session_proxy_inv (p : SessionProxy) : Prop := {
  si_active : pc_active_sessions (sp_counters p) = vlen (sp_threads p) + session_slot (sp_acceptor p);
  si_max : pc_active_sessions (sp_counters p) ≤ sc_max_sessions config;
  si_threads : Forall thread_ok (sp_threads p);
}.

Lemma session_acceptor_inv env p : session_proxy_inv p → session_proxy_inv (session_acceptor_step config env p).
Proof using limit_range.
  destruct p as [sd [act acc rej con aut com] a l]. intros [H1 H2 H3]. simpl in *. pose proof (vlen_nonneg l).
  unfold session_acceptor_step, session_try_acquire, sp_set_acceptor, sp_tick, sp_set_threads. simpl.
  destruct a as [| |lo|lo|lo|]; simpl in *.
  - destruct sd; by split.
  - destruct (env_local env); [case_decide|]; by split.
  - destruct sd; [by split|]. destruct (local_configure lo) as [[e|u] lo']; by split.
  - destruct (Z.ltb_spec act (sc_max_sessions config)); [|by split]. split; simpl; rewrite ?wrap64_id by (unfold u64_max; lia); [lia..|done].
  - destruct (env_spawn env); split; simpl; rewrite ?wrap64_id, ?vlen_app, ?vlen_one by (unfold u64_max; lia); try lia; try done.
    apply Forall_app. split; [done|]. by repeat constructor.
  - by split.
Qed.

Lemma proxy_session_inv env side i p : session_proxy_inv p → session_proxy_inv (proxy_session_step config env side i p).
Proof using limit_range responds.
  destruct p as [sd [act acc rej con aut com] a l]. intros [H1 H2 H3]. simpl in *. pose proof (vlen_nonneg l).
  unfold proxy_session_step, sp_tick, sp_set_threads. simpl. destruct (l !! i) as [t|] eqn:Ei; [|by split].
  assert (Hput : ∀ t' acc' rej' con' aut' com', thread_ok t' →
    session_proxy_inv (SessionProxy_mk sd (SessionProxyCounters_mk act acc' rej' con' aut' com') a (<[i := t']> l))).
  { intros t' acc' rej' con' aut' com' Ht. split; simpl; rewrite ?vlen_insert; [done..|]. by apply Forall_insert. }
  destruct t as [lo|lo up|b|].
  - destruct (env_connect env) as [e|up]; [by apply Hput|]. destruct (configure_transport_socket up) as [[e|u] up']; by apply Hput.
  - destruct (authenticate_client_to _ _ _ _ _ _ up) as [[stream|e] s'] eqn:E; apply Hput; [|done]. by eapply responds.
  - assert (Hb : Q (ss_transport (br_remote b))) by (by apply (Forall_lookup_1 _ _ _ _ H3 Ei)).
    assert (Hturn : session_proxy_inv (SessionProxy_mk sd (SessionProxyCounters_mk act acc rej con aut com) a (<[i := SpBridge (bridge_turn env side b)]> l))).
    { apply Hput. simpl. by destruct (bridge_turn_transport env side b) as [_ ->]. }
    destruct (br_pc b); try exact Hturn; by apply Hput.
  - assert (1 ≤ vlen l) by (apply lookup_lt_Some in Ei; unfold vlen; lia). assert (0 ≤ session_slot a) by (destruct a; simpl; lia).
    split; simpl; rewrite ?(vlen_delete l i _ Ei), ?wrap64_id by (unfold u64_max; lia); [lia..|]. by apply Forall_delete.
Qed.

Lemma session_proxy_run_inv evs p : session_proxy_inv p → session_proxy_inv (session_proxy_run config evs p).
Proof using limit_range responds.
  revert p. induction evs as [|[env|env side i|] evs IH]; intros p Hp; simpl; [done| | |]; apply IH;
    [by apply session_acceptor_inv|by apply proxy_session_inv|]. destruct Hp. by split.
Qed.
End session_proxy.

Section session_promise.
Context (issued : bytes → list CertificateBody).
Hypothesis issued_typed : ∀ root b, b ∈ issued root → window_typed b.
Hypothesis unforgeable : ∀ root m signature,
  verify_strict root m signature = true → ∃ b, b ∈ issued root ∧ signing_input b = Ok m.

(** A session proxy bridges a client only to a server that has proved to be the expected
    one, and never more clients at once than its limit. *)
Theorem session_proxy_bridges_expected config evs :
  validate_session_proxy_config config = Ok () → 0 ≤ sc_max_sessions config →
  let p := session_proxy_run config evs session_proxy_init in
  Forall (thread_ok (responder issued (cl_roots (sc_auth config)) (sc_expected_responder config))) (sp_threads p) ∧
  vlen (sp_threads p) ≤ sc_max_sessions config.
Proof using issued_typed unforgeable.
  intros Hv H0 p. unfold validate_session_proxy_config in Hv.
  destruct (Z.eqb_spec (sc_max_sessions config) 0); [by rewrite !orb_true_r in Hv|].
  destruct (Z.ltb_spec 256 (sc_max_sessions config)); [by rewrite !orb_true_r in Hv|].
  assert (Hp : session_proxy_inv config (responder issued (cl_roots (sc_auth config)) (sc_expected_responder config)) p).
  { apply session_proxy_run_inv; [lia|intros; by eapply connected_responder|]. split; [done|simpl; lia|constructor]. }
  destruct Hp as [H1 H2 H3]. split; [done|]. assert (0 ≤ session_slot (sp_acceptor p)) by (destruct (sp_acceptor p); simpl; lia). lia.
Qed.
End session_promise.
End export.

(** ** Concrete runs *)

Module Pool.

(** The cryptography of [AuthProps.Toy], with the records that this session sends. *)
Definition records : list bytes := [SESSION_CLAIM; bstr "Tversion"; bstr "Tattach"].

#[local] Instance pool_ed25519 : Ed25519 := Toy.toy_ed25519.
#[local] Instance pool_noise : Noise := {|
  Params := unit; Builder := bytes; Entropy := unit; Handshake := bytes * option bytes * nat; Transport := list bytes;
  noise_parse _ := inr tt;
  builder_new _ := [];
  builder_prologue _ b := inr b;
  builder_private_key k _ := inr k;
  build_initiator _ k := inr (k, None, 0%nat);
  build_responder _ k := inr (k, None, 0%nat);
  generate_keypair _ _ := inr (Toy.alice_key, Toy.alice_key);
  hs_write_message payload h := let '(k, remote, n) := h in (inr (k ++ payload), (k, remote, S n));
  hs_read_message message h := let '(k, _, n) := h in (inr (drop 32 message), (k, Some (take 32 message), S n));
  get_remote_static h := h.1.2;
  is_handshake_finished h := (h.2 =? 3)%nat;
  into_stateless_transport_mode h := inr records;
  tr_write_message sent n p :=
    if bool_decide (sent !! Z.to_nat n = Some p) && (0 <=? n) then inr (p ++ Toy.tag n) else inl (bstr "unknown record");
  tr_read_message sent n c :=
    match sent !! Z.to_nat n with
    | Some p => if bool_decide (c = p ++ Toy.tag n) then inr p else inl (bstr "decrypt error")
    | None => inl (bstr "decrypt error")
    end;
  dh_pubkey k := k;
|}.

Definition refused : IoError := IoError_mk ConnectionReset (bstr "connection reset").
Definition quiet : Env := Env_mk (inl refused) (inl refused) (inl refused) (inl refused) true None 0 (Ok 1500) tt 64 Ended.
Definition arrives (s : TcpStream) : Env := Env_mk (inr s) (inl refused) (inl refused) (inl refused) true None 0 (Ok 1500) tt 64 Ended.
Definition client_arrives (l : LocalStream) : Env := Env_mk (inl refused) (inr l) (inl refused) (inl refused) true None 0 (Ok 1500) tt 64 Ended.
Definition broker_answers (s : TcpStream) : Env :=
  Env_mk (inl refused) (inl refused) (inl refused) (inr [(bstr "192.0.2.1:9640", inr s)]) true None 0 (Ok 1500) tt 64 Ended.

Definition broker_config : BrokerConfig :=
  BrokerConfig_mk (V4 [0; 0; 0; 0], 9640) (ProxyTcp (V4 [127; 0; 0; 1], 9641)) Local Toy.server (bstr "alice") 2 1000 1000.

(** The exporter answers the handshake and has nothing to say before it is asked. *)
Definition exporter : TcpStream := Toy.socket (Toy.from_client ++ [Chunk (Toy.frame (SESSION_CLAIM ++ Toy.tag 0))]).
Definition client : LocalStream := LocalTcp (Toy.socket [Chunk (bstr "Tversion"); Fail (IoError_mk Interrupted []); Chunk (bstr "Tattach")]).

Definition exporter_waits : list BrokerEvent :=
  [EvAcceptor quiet; EvAcceptor (arrives exporter); EvAcceptor quiet; EvAcceptor quiet; EvAcceptor quiet;
   EvHandshake quiet 0; EvHandshake quiet 0; EvHandshake quiet 0; EvHandshake quiet 0].
Definition client_is_bridged : list BrokerEvent :=
  exporter_waits ++
  [EvProxy quiet; EvProxy (client_arrives client); EvProxy quiet; EvProxy quiet; EvProxy quiet; EvProxy quiet; EvProxy quiet; EvProxy quiet;
   EvBridge quiet 0 Main; EvBridge quiet 0 Main].

Lemma broker_serves_principal_witness :
  let b := broker_run broker_config client_is_bridged broker_init in
  bk_bridged b = [0%nat] ∧ length (bk_bridges b) = 1%nat ∧
  Forall (λ br, admitted Toy.issued broker_config (ss_transport (br_remote br))) (bk_bridges b).
Proof.
  split; [vm_compute; reflexivity|]. split; [vm_compute; reflexivity|].
  destruct (broker_serves_principal Toy.issued Toy.toy_typed Toy.toy_unforgeable broker_config client_is_bridged) as [H _].
  eapply Forall_impl; [exact H|]. by intros br [_ Hb].
Defined.

Lemma broker_counts_right_witness :
  let b := broker_run broker_config exporter_waits broker_init in
  validate_broker_config broker_config = Ok () ∧ length (bk_queue b) = 1%nat ∧ is_ready b = true.
Proof.
  split; [vm_compute; reflexivity|]. split; [vm_compute; reflexivity|].
  destruct (broker_counts_right broker_config exporter_waits) as (_ & _ & _ & _ & _ & _ & H); [vm_compute; reflexivity|vm_compute; congruence|].
  apply H. intros E. apply (f_equal length) in E. revert E. vm_compute. congruence.
Defined.

Definition turns : list (Env * Side) :=
  [(quiet, Main); (quiet, Main); (quiet, Upstream); (quiet, Downstream); (quiet, Upstream); (quiet, Downstream); (quiet, Upstream);
   (quiet, Upstream); (quiet, Upstream); (quiet, Upstream); (quiet, Upstream)].
Definition session : Transport := records.
Definition remote : TcpStream := Toy.socket [Chunk (Toy.frame (SESSION_CLAIM ++ Toy.tag 0))].


(** The other end closes its stream before the client's first bytes are read: the bridge
    shuts the client's socket down, the read of the direction to the server returns the
    end, and that direction ends without an error although it has sent only the claim. *)
Lemma shutdown_cuts_the_client_off :
  let b := bridge_turns [(quiet, Main); (quiet, Main); (quiet, Downstream); (quiet, Downstream); (quiet, Upstream)]
             (Bridge_mk 0 client (SecureStream_new (Toy.socket []) session) BrClaim) in
  upstream_result (br_pc b) = Some (inr ()) ∧ local_shut (br_local b) = true ∧ ws_nonce (br_remote b) = 1 ∧
  local_in (br_local b) = bstr "TversionTattach".
Proof. split_and!; vm_compute; reflexivity. Qed.

Definition export_config : ReverseExportConfig :=
  ReverseExportConfig_mk (TcpEndpoint_mk (bstr "192.0.2.1") 9640) Toy.client (bstr "store") (bstr "alice") 2 1000 1000 100 1000
    (filesystem_server_config 65536 64).
Definition broker_stream : TcpStream := Toy.socket (Toy.from_server ++ [Chunk (Toy.frame (SESSION_CLAIM ++ Toy.tag 0))]).

(** The first worker serves, the second has just connected. *)
Definition export_serves : list ExportEvent :=
  [ExWorker (broker_answers broker_stream) 0; ExWorker quiet 0; ExWorker quiet 0; ExWorker quiet 0; ExWorker quiet 0;
   ExWorker (broker_answers broker_stream) 1; ExWorker quiet 1].
Definition export_is_dropped : list ExportEvent := export_serves ++ [ExDrop; ExDrop].
Definition both_go_on : list ExportEvent := repeat (ExWorker quiet 0) 6 ++ repeat (ExWorker quiet 1) 6.

Definition serving (pc : WorkerPc) : option nat := match pc with WkServing id => Some id | _ => None end.

Lemma export_serves_claimed_witness :
  let x := export_run export_config export_serves (start_server export_config [None; None]).2 in
  (serving <$> ex_workers x !! 0%nat) = Some (Some 0%nat) ∧
  ∃ s, ex_streams x !! 0%nat = Some s ∧ responder Toy.issued [Toy.root] (bstr "store") (ss_transport s).
Proof.
  assert (E : (serving <$> ex_workers (export_run export_config export_serves (start_server export_config [None; None]).2) !! 0%nat) =
    Some (Some 0%nat)) by (vm_compute; reflexivity).
  split; [exact E|].
  pose proof (@export_serves_claimed pool_ed25519 pool_noise Toy.issued Toy.toy_typed Toy.toy_unforgeable export_config [None; None] export_serves) as H.
  revert E H. generalize (export_run export_config export_serves (start_server export_config [None; None]).2) as x. intros x E [H _].
  destruct (ex_workers x !! 0%nat) as [pc|] eqn:Ei; [|discriminate E]. destruct pc; try discriminate E. injection E as ->.
  destruct (H _ _ Ei) as (s & Es & Hr & _). exists s. split; [exact Es|exact Hr].
Defined.

Lemma export_drop_ends_witness :
  let x := export_run export_config export_is_dropped (start_server export_config [None; None]).2 in
  (tcp_shut ∘ ss_stream <$> ex_streams x) = [true; false] ∧
  Forall (λ pc, pc = WkDone) (ex_workers (export_run export_config both_go_on x)).
Proof.
  split; [vm_compute; reflexivity|].
  destruct (export_drop_ends export_config [None; None] export_is_dropped) as [_ H]; [vm_compute; reflexivity|]. apply H.
  intros i Hi. rewrite !export_run_length in Hi.
  assert (El : length (ex_workers (start_server export_config [None; None]).2) = 2%nat) by (vm_compute; reflexivity).
  rewrite El in Hi. destruct i as [|[|i]]; [vm_compute; lia|vm_compute; lia|lia].
Defined.

(** *** What the code also does *)

(** An [accept] that fails, also for want of a file descriptor, ends the proxy thread for
    good; the broker says that it is ready, though the streams it counts are gone. *)
Example ready_without_proxy :
  let b := broker_run broker_config (exporter_waits ++ [EvProxy quiet; EvProxy quiet]) broker_init in
  length (bk_queue b) = 0%nat ∧ is_ready b = true ∧ match bk_proxy b with PxDone => true | _ => false end = true.
Proof. split_and!; vm_compute; reflexivity. Qed.

(** With the longest wait, which passes the validation, the first client ends the proxy
    thread: the deadline is no instant. *)
Definition patient_config : BrokerConfig :=
  BrokerConfig_mk (V4 [0; 0; 0; 0], 9640) (ProxyTcp (V4 [127; 0; 0; 1], 9641)) Local Toy.server (bstr "alice") 2 1000 DURATION_MAX.

Example patience_ends_proxy :
  let b := broker_run patient_config [EvProxy quiet; EvProxy (client_arrives client); EvProxy quiet; EvProxy quiet] broker_init in
  validate_broker_config patient_config = Ok () ∧ match bk_proxy b with PxDone => true | _ => false end = true ∧
  active_bridges (bk_counters b) = 0.
Proof. split_and!; vm_compute; reflexivity. Qed.

(** A pool whose second thread cannot be started reports an error, and the first serves. *)
Example failed_start_serves :
  let '(r, x) := start_server export_config [None; Some refused] in
  match r with Err _ => true | Ok _ => false end = true ∧
  (serving <$> ex_workers (export_run export_config (take 5 export_serves) x) !! 0%nat) = Some (Some 0%nat).
Proof. split; vm_compute; reflexivity. Qed.

(** The same of a broker whose proxy thread cannot be started: reverse connections are
    accepted and authenticated. *)
Example failed_start_accepts :
  let '(r, b) := ReverseBroker_start broker_config (StartEnv_mk None None None None None (Some refused)) in
  match r with Err _ => true | Ok _ => false end = true ∧
  length (bk_handshakes (broker_run broker_config (take 5 exporter_waits) b)) = 1%nat.
Proof. split; vm_compute; reflexivity. Qed.

Example longest_wait_is_none : wait_until_ready 0 DURATION_MAX [Look_mk 0 false 0 false 1; Look_mk 1 false 1 false 1] = Some false.
Proof. reflexivity. Qed.
End Pool.
